(* ===== verification/_CoqProject ===== *)
-Q . S2P
Prelude.v
Limits.v
Quotas.v
Frames.v
Ownership.v
InputHost.v
Schedule.v
CenterTree.v
Meter.v
LiveTraffic.v
Broker.v
Relay.v
RelaySystem.v
Calendar.v
JsDate.v
Cron.v
CronDate.v
Automation.v
JsString.v
Wire.v
WirePrint.v
WireRead.v
CommandBus.v
LiveHub.v
LiveHubInv.v
LiveHubDelivery.v
LiveSessions.v
Deadline.v
Listeners.v
Bridge.v
BridgeInv.v
BridgeSafety.v
Authority.v
AuthorityInv.v
AuthoritySafety.v
AuthorityMail.v
AuthorityLeases.v
Direct.v
DirectInv.v
DirectLeases.v
DirectUsage.v
DirectSafety.v
EnvFile.v
Timeline.v
Flight.v
Catalog.v
Hydrator.v
Coordination.v
Remote.v
