(* ===== verification/Prelude.v ===== *)
(** * Cantrip: a verification development

    Cantrip runs coding agents on a user's machines. A server (Rust,
    src/cantrip_server_rs) mediates between clients and workers: it relays
    their traffic within quotas, accounts for it, and keeps projects, layouts
    and tasks. A worker host plays input into windows through the interaction
    library (Rust, src/cantrip_interaction). This library models the parts of
    both that carry state, limits and protocols of their own, and proves what
    makes them correct. Definitions are translated from the source and keep its
    names; they are executable.

    ** The parts and their files

    - [Prelude] (this file): notations, tactics, the hint database [cantrip],
      list, integer and text lemmas, [outcome] for code that may panic,
      [IndexMap], the insertion-ordered map of the Rust code, and the counters
      of fences held by tasks ([counted]).
    - [Limits]: the 60 second windows of workers/limits.rs and the
      authentication limiter of auth/rate_limit.rs, against an abstract ledger
      of charges ([Ledger]).
    - [Quotas]: relay/quotas.rs, which composes the windows of [Limits] into
      account and worker quotas and counts Remote Surface permits.
    - [Frames]: the binary carriers of worker_links/frame.rs, tunnels/frame.rs
      and remote_surfaces/frame.rs, and the chunk assembler. JSON headers
      belong to the wire layer and come in through the class [HeaderCodec].
    - [Broker]: tunnels/broker/mod.rs and receive.rs, the routing of tunnel
      connections with credits, sequence numbers and half-closes.
    - [Relay]: worker_links/relay/*.rs, the relay of WorkerLink channels with
      per-lane queues and Remote Surface permits; it decodes and creates the
      frames of [Frames].
    - [RelaySystem]: worker_links/service.rs, the relay composed with the
      quotas it takes its permits from, under revocation and closing.
    - [CommandBus]: workers/command_bus.rs, the admission of worker commands in
      two lanes over [Quotas] and [Limits], with requests interleaved at the
      points where they await.
    - [Deadline]: workers/command_deadline.rs, the time limit of a command by
      the phases its worker reports.
    - [Listeners]: the registries of workers/offline.rs, frames.rs and
      notifications.rs, whose listeners may change them while they are called.
    - [Bridge], [BridgeInv], [BridgeSafety]: workers/bridge.rs with output.rs and
      the three frame files: the sockets of the workers, reconnection, commands
      with their events and answers, on [Deadline], [Listeners] and the carriers
      of [Frames]; its invariant; what its callers rely on. What an operation
      has left to do while its listeners run is a stack of continuations, so
      that every operation may come from inside a listener.
    - [Authority], [AuthorityInv]: worker_links/mod.rs, sessions.rs, grants.rs,
      peers.rs, lifecycle.rs and native.rs, the coordinator of WorkerLink
      sessions, grants and peer sessions, with its operations cut where they
      await the worker ([Task]); its invariant. A contract answers a value with
      its names trimmed, while keys are computed from the names as given; the
      theorems are for callers that hand over trimmed names ([tidy]).
      [AuthoritySafety] has what
      revocation and the tables guarantee, [AuthorityMail] the mailboxes and
      turns of peer sessions, [AuthorityLeases] the nesting of leases.
    - [Direct], [DirectInv]: direct_attachments/mod.rs, lifecycle.rs, prepare.rs,
      renewal.rs and telemetry.rs, the coordinator of direct capabilities with
      its operations cut where they await; its invariant. [DirectSafety] has
      what a change of an owner, session, attachment or resource may rely on,
      [DirectLeases] the bounds of leases, [DirectUsage] the accounting.
    - [LiveHub], [LiveHubInv], [LiveHubDelivery]: live/hub.rs with hub/protocol.rs
      and hub/control.rs, the subscriptions of browsers, the publication and
      replay of events and the requests sent to a client; the invariant of its
      tables; what its connections are sent. The sockets come in through the
      class [Sockets], the schemas and the decoder through [Protocol].
    - [LiveSessions]: live/sessions.rs and live/transports.rs, the sockets of an
      account and of a session, and the transports a shutdown waits for.
    - [Meter]: usage/meter.rs, the transaction [flush_bandwidth] of
      usage/repository.rs and the flush cycle of usage/meter_service.rs.
    - [LiveTraffic]: usage/live_traffic.rs, the samples of the last ten minutes
      that clients poll; it takes the measurements of [Meter].
    - [Coordination]: coordination/redis.rs and core.rs, the directory of workers and
      WorkerLink sessions all server instances share in Redis (class [Redis]), the
      cache of an instance and the delivery of messages between instances.
    - [Remote]: the requests of workers/coordinated/requests.rs and mod.rs, commands to
      workers that are connected to another instance.
    - [Flight], [Catalog], [Hydrator]: settings/openrouter/cache.rs, hydrator.rs and
      the payload of openrouter.rs. [Flight] is the table of shared work that the
      cache of the public model catalog and the hydrator both keep.
    - [CenterTree]: the layout trees of pane_layouts/center.rs,
      project_layout/center.rs and workspace_layouts/tree.rs and the layout
      mutations of pane_layouts/mod.rs that use them.
    - [Ownership], [InputHost], [Schedule]: ownership.rs, input.rs with host.rs,
      and the dispatch of schedule.rs of the interaction library. [InputHost]
      is built on [Ownership].
    - [Timeline]: timeline.rs, gesture.rs and click_sequence.rs of the computer-use
      agent (src/cantrip_cua/src), the input descriptions that are validated
      before they are dispatched.
    - [EnvFile]: env_file.rs, the reader of .env files.
    - [Calendar], [JsDate]: the civil calendar and wire/js_date.rs, the strict
      and the tolerant grammar of JavaScript dates and their printing.
    - [Cron], [CronDate], [Automation]: project_automations/cron.rs, the
      pattern grammar and its masks; cron_date.rs, the search for the next
      selected second; schedule.rs, interval, weekly, cron and one-off
      schedules built on both and on [JsDate].
    - [JsString], [Wire], [WirePrint], [WireRead]: the values of wire/value.rs
      with value/operations.rs and value/parser.rs: strings of UTF-16 units and
      their escapes; printing, cloning, equality and reading with explicit
      stacks; their equivalence with recursive definitions; the round trip.

    ** What is modelled how

    State is a record with the fields of the Rust struct, and an operation is
    a function from state to result and state; locks that an entry point holds
    throughout make it one step, and where it lets go of one in between, as the
    relay does between its checks and its tables, it is several ([fine_step] of
    [Relay], [Task]). Operations in any order, with failures and
    retries, are inductive relations ([reachable], [step]). Code behind a
    trait or callback is a class of operations over a world of its own
    ([Ports], [Callbacks], the input backend), with the laws a theorem needs
    stated beside it and an instance that satisfies them. A shared
    [Arc<Mutex<_>>] whose identity matters is a reference into a heap ([Broker],
    [Relay]). Machine integers keep their width where the code relies on it
    (checked and saturating operations of [Ownership] and [Meter]); counters
    the code keeps as [f64] or [usize] far below their limits are integers.
    Floating-point fractions of layouts are opaque values that are stored and
    compared.

    ** What the theorems show

    - Limiters and quotas: the windows decide exactly as the ledger, so no
      window admits more than its limit, and a charge is made on all windows or
      on none; permits are counted exactly and released once.
    - Carriers: a frame whose header text reads back decodes to itself, decoders
      accept nothing outside the limits, the assembler never leaves its buffer and rebuilds a frame from
      its chunks.
    - Broker: with callbacks that may revoke routes from inside any call, limits,
      statistics and credits hold in every reachable state; revocation is
      complete; a frame on a live connection is one step of the stream
      specification or the end of that connection only; and what the ends were
      sent is contiguous, within credit and properly ordered.
    - Relay: exact queues, channels and surfaces in every interleaving with
      retirements, which may leave what an open frame files behind them
      ([retired_holds_permit]); worker frames reach the client
      in order and without loss while its socket is open; draining terminates
      and never strands a frame.
    - The composed service: quota counters are exactly the permits the relay
      holds, those of retired connections included, and a revocation closes every connection of its scope.
    - Command bus: slots and counters are exact and within their limits in every
      interleaving, commands take the lock in order, admission is decided by the
      commands that hold slots of the same lane, a drained bus is idle, and every
      reachable bus can drain.
    - Worker bridge: no command is lost or answered twice, events precede the
      answer, commands survive a reconnection exactly when the worker asserts
      its continuity, tables, counters and reserved bytes are exact, and closing
      ends everything in finitely many steps; a deadline charges each phase
      exactly, and listeners are called like the elements of a set.
    - WorkerLink authority, for trimmed names: one session per identity within the
      limit, whatever openings interleave; a revocation leaves nothing of its scope, and while it
      runs nothing of its scope is admitted ([fence_refuses]); leases stay within
      the session's absolute expiry; mailboxes are gapless and signals in order. Names
      with blanks around them escape a fence and stay in the index
      ([padded_resource_escapes], [padded_identity_stays]).
    - Direct attachments: while a change runs nothing of its scope is in the
      tables and nothing is admitted, changes of a resource are serialized and
      come to run; the lease of a capability ends within twelve hours of the clock
      it was computed from; traffic is accounted
      for exactly once. A lease that names no attachment escapes the fence of
      one ([unnamed_lease_escapes]), which its callers do not do.
    - Live hub: the subscriber index, the connection table, the counters and the
      replay log are exact in every reachable state; an event reaches exactly its
      subscribers, in order; a replay from a covered cursor misses nothing; a
      revocation leaves nothing behind; requests to clients are answered once.
      An event evicted between initialization and subscription is skipped
      ([resume_skips_evicted]), and a late drop of an old registration hides a
      newer socket of the session ([stale_drop_hides_session]).
    - Dates and schedules: days and civil dates are inverse, instants print and
      parse back, a printed cron expression parses to the masks it denotes, the
      search for the next second ends and is exact for tame patterns, and a
      pattern outside that class is shown for which it is not
      ([cron_skips_first_of_march]).
    - Wire values: each routine with an explicit stack ends and computes the
      recursive definition, and what is printed is read back equal.
    - Metering: every recorded byte is stored exactly once through failures,
      lost answers and retries; totals are exact and the buffer bounded. The
      live samples stay within their tables ([traffic_bounded]) and a client that
      polls them has exactly the recorded traffic of the window.
    - Coordination: an entry of the shared directory is that of the latest claim, a
      session has one entry until its release or expiry, and every answer to a claim
      is accounted for; a claim that loses the race and then finds the entry gone is
      told it was granted ([two_told_granted]); messages reach the
      instances they are for while they last ([envelope_received]) and each
      listener once ([delivered_once]). Commands to workers of other instances are
      answered once, after their events, and counted exactly.
    - Model catalogs: one fetch a key and one load a provider at a time, answers
      that are fresh by the clock, awaited, or stale with a refresh, snapshots that
      never go back, and reads that can always be answered ([catalog_settles]); a fetch
      that panics blocks its key for good ([lost_refresh_wedges]).
    - Layouts: the recursive and iterative tree routines agree, and every
      mutation leaves the tree and the panes matching.
    - Input: ownership refines a stack-based contract and is exclusive, no
      prepared release is lost or doubled, a host failure is contained to the
      participant that caused it, and a dispatch lifts every key once: a key stays
      down only when its own Up could not be delivered; a timeline
      of the agent is accepted exactly when its keys and pointer go down and up
      in turn, and click sequences compile to such timelines.
    - Environment files: reading ends, quoted values are read back, and variables
      that are set are kept ([environment_wins]).

    ** Bounds and fuel

    The leaf walk of [CenterTree] runs with the fuel of the code's own node
    limit and [leaf_ids_total] shows it never runs out. The drain loop of
    [Relay] runs with one more step than there are queued frames, each pass
    that sends takes one away ([drain_loop_exit]). The loops of [Wire] run with
    the size of the value, or a round per character for the reader, and end
    within it ([stringify_is_show], [reader_terminates]); the token loop of
    [JsDate] with two rounds more than there are characters
    ([date_parse_terminates]); the ranges of [Cron] with the span of their
    field; the search of [CronDate] with [2 ^ 50] rounds that are never used up
    ([cron_search_terminates]). Closing the bridge runs in as many steps as there
    are listeners to call ([close_ends_all]). A round of the reader of [EnvFile]
    takes some of its text ([parse_terminates]). Everything else is structural recursion.

    ** What is not modelled, and the plan

    Sockets, SQL, HTTP routes, processes and rendering are outside: their
    effects are parameters. Code outside the repository is a parameter with its
    laws: the zone database ([zone] of [CronDate], [resolve] of [JsDate]), the
    numbers of JavaScript ([Numbers], [NumberLaws]), the string decoder of
    serde_json ([JsonStrings], [JsonStringLaws]). The JSON headers of frames come
    into [Frames] through [HeaderCodec], of which nothing is assumed; JSON text and
    the generated contracts come into [Bridge] through its class [Contracts], into
    [Authority] as whether a contract accepts a value: that it trims names is
    modelled.
    The steps of [Authority] and [Direct] between two awaits are atomic, their
    JSON values are records of the fields the code reads, and the revocations
    and changes they start run to their end: futures that callers drop are not
    modelled. Left for later: attaching
    workers, presence and frames in the bridge that routes over the directory, task
    dispatch, and the schemas and refinements of the wire layer. The JSON a click sequence is compiled to and read from is not
    modelled, nor are the platform adapters of the agent, the normalization of catalog
    models and the service that stores them. [LiveTraffic] and [Catalog] have clocks of
    whole milliseconds, and samples have numbers for timestamps. *)
From stdpp Require Import base numbers gmap strings sorting list.
From Stdlib Require Import Ascii.

Declare Scope cantrip_scope.
Delimit Scope cantrip_scope with cantrip.
Open Scope cantrip_scope.

(** Length of a [Vec], slice or queue as the integer the code compares. *)
Notation "'len' l" := (Z.of_nat (length l))
  (at level 10, l at level 9) : cantrip_scope.

Create HintDb cantrip.

(** Case analysis on the guards of a translated function body. *)
Ltac body_case :=
  match goal with
  | |- context [if ?b then _ else _] => destruct b eqn:?
  | |- context [match ?x with _ => _ end] => destruct x eqn:?
  end.
Ltac body_cases := repeat (body_case; simplify_eq/=; try done).

Ltac hyp_case :=
  match goal with
  | H : context [if ?b then _ else _] |- _ => destruct b eqn:?
  | H : context [match ?x with _ => _ end] |- _ => destruct x eqn:?
  end.
Ltac hyp_cases := repeat (hyp_case; simplify_eq/=; try done).

(** Turn the boolean comparisons of the code into the propositions they decide. *)
Ltac reflect_bools :=
  repeat match goal with
  | H : (_ && _)%bool = true |- _ => apply andb_true_iff in H as [? ?]
  | H : (_ || _)%bool = false |- _ => apply orb_false_iff in H as [? ?]
  | H : negb _ = true |- _ => apply negb_true_iff in H
  | H : negb _ = false |- _ => apply negb_false_iff in H
  | H : (_ <? _)%Z = true |- _ => apply Z.ltb_lt in H
  | H : (_ <? _)%Z = false |- _ => apply Z.ltb_ge in H
  | H : (_ <=? _)%Z = true |- _ => apply Z.leb_le in H
  | H : (_ <=? _)%Z = false |- _ => apply Z.leb_gt in H
  | H : (_ =? _)%Z = true |- _ => apply Z.eqb_eq in H
  | H : (_ =? _)%Z = false |- _ => apply Z.eqb_neq in H
  | H : bool_decide _ = true |- _ => apply bool_decide_eq_true in H
  | H : bool_decide _ = false |- _ => apply bool_decide_eq_false in H
  end.

(** ** Machine integers *)

Definition U64_MAX : Z := 2 ^ 64 - 1.
Definition U32_MAX : Z := 2 ^ 32 - 1.

(** [u64::checked_add]. *)
Definition checked_add_u64 (a b : Z) : option Z :=
  if (a + b <=? U64_MAX)%Z then Some (a + b)%Z else None.

(** [u64::wrapping_add]. *)
Definition wrapping_add_u64 (a b : Z) : Z := ((a + b) mod 2 ^ 64)%Z.

(** [(x as f64 / 1000.0).ceil()]: milliseconds rounded up to whole seconds. The
    quotient of an integer of magnitude below [2^42] is not moved across an
    integer by the rounding of the division, so the result is the exact
    ceiling there. *)
Definition ceil_seconds (x : Z) : Z := (- ((- x) / 1000))%Z.

Lemma ceil_seconds_spec x :
  (1000 * (ceil_seconds x - 1) < x <= 1000 * ceil_seconds x)%Z.
Proof.
  unfold ceil_seconds.
  pose proof (Z.div_mod (- x) 1000 ltac:(lia)).
  pose proof (Z.mod_pos_bound (- x) 1000 ltac:(lia)). lia.
Qed.

(** ** Lists *)

Lemma len_nil {A} : len (@nil A) = 0%Z.
Proof. done. Qed.

Lemma len_app {A} (l1 l2 : list A) : len (l1 ++ l2) = (len l1 + len l2)%Z.
Proof. rewrite length_app. lia. Qed.

Lemma len_nonneg {A} (l : list A) : (0 <= len l)%Z.
Proof. lia. Qed.

Definition sumZ (l : list Z) : Z := foldr Z.add 0%Z l.

Lemma sumZ_app l1 l2 : sumZ (l1 ++ l2) = (sumZ l1 + sumZ l2)%Z.
Proof. induction l1; simpl; lia. Qed.

Lemma sumZ_nonneg l : Forall (fun z => 0 <= z)%Z l -> (0 <= sumZ l)%Z.
Proof. induction 1; simpl; lia. Qed.

(** In a sorted list, the last element bounds every element. *)
Lemma sorted_last_bound (l : list Z) x y :
  StronglySorted Z.le l -> last l = Some x -> y ∈ l -> (y <= x)%Z.
Proof.
  intros Hs Hl Hy. apply last_Some in Hl as [l' ->].
  induction l' as [|z l' IH]; simpl in *.
  - set_solver.
  - inversion_clear Hs as [|? ? Hs' Hall]. rewrite Forall_forall in Hall.
    apply elem_of_cons in Hy as [->|Hy]; [|auto]. apply Hall. set_solver.
Qed.

Lemma StronglySorted_snoc (l : list Z) x :
  StronglySorted Z.le l -> (forall y, y ∈ l -> y <= x)%Z ->
  StronglySorted Z.le (l ++ [x]).
Proof.
  induction 1 as [|z l Hs IH Hall]; intros Hx; simpl; [repeat constructor|].
  constructor; [apply IH; set_solver|].
  apply Forall_app. split; [done|]. constructor; [apply Hx; set_solver|done].
Qed.

Lemma StronglySorted_filter (P : Z -> Prop) `{!forall x, Decision (P x)} (l : list Z) :
  StronglySorted Z.le l -> StronglySorted Z.le (filter P l).
Proof.
  induction 1 as [|z l Hs IH Hall]; [constructor|].
  rewrite filter_cons. case_decide; [|done]. constructor; [done|].
  rewrite Forall_forall in *. intros y Hy%list_elem_of_filter. naive_solver.
Qed.

Lemma filter_none {A} (P : A -> Prop) `{!forall x, Decision (P x)} (l : list A) :
  (forall x, x ∈ l -> ~ P x) -> filter P l = [].
Proof.
  induction l as [|x l IH]; intros Hl; [done|].
  rewrite filter_cons_False by (apply Hl; left). apply IH. intros. apply Hl. by right.
Qed.

Lemma list_bind_ext_in {A B} (f g : A -> list B) (l : list A) :
  (forall x, x ∈ l -> f x = g x) -> (l ≫= f) = (l ≫= g).
Proof.
  induction l as [|x l IH]; intros Hl; [done|]. rewrite !bind_cons.
  rewrite Hl, IH; [done| |left]. intros. apply Hl. by right.
Qed.

(** ** Text

    A [String] as its Unicode scalar values. *)
Module Text.

Definition text := list Z.

(** [char::len_utf8] and [char::len_utf16]. *)
Definition len_utf8 (c : Z) : Z :=
  (if c <? 0x80 then 1 else if c <? 0x800 then 2 else if c <? 0x10000 then 3 else 4)%Z.
Definition len_utf16 (c : Z) : Z := (if c <? 0x10000 then 1 else 2)%Z.
Definition byte_len (s : text) : Z := sumZ (len_utf8 <$> s).
Definition utf16_count (s : text) : Z := sumZ (len_utf16 <$> s).

(** [text::whitespace] and [text::trim] of the server. *)
Definition whitespace (c : Z) : bool :=
  (((0x9 <=? c) && (c <=? 0xd)) || (c =? 0x20) || (c =? 0xa0) || (c =? 0x1680)
   || ((0x2000 <=? c) && (c <=? 0x200a)) || (c =? 0x2028) || (c =? 0x2029) || (c =? 0x202f)
   || (c =? 0x205f) || (c =? 0x3000) || (c =? 0xfeff))%Z.
Fixpoint skip_whitespace (s : text) : text :=
  match s with
  | c :: r => if whitespace c then skip_whitespace r else s
  | [] => []
  end.
Definition trim (s : text) : text := reverse (skip_whitespace (reverse (skip_whitespace s))).

Lemma skip_last s c : whitespace c = false -> skip_whitespace (s ++ [c]) = skip_whitespace s ++ [c].
Proof. intros Hc. induction s as [|d s IH]; cbn; [by rewrite Hc|]. by destruct (whitespace d). Qed.

Lemma skip_head s : skip_whitespace s = [] \/ exists c r, skip_whitespace s = c :: r /\ whitespace c = false.
Proof. induction s as [|d s IH]; cbn; [by left|]. destruct (whitespace d) eqn:E; [done|]. right. eauto. Qed.

Lemma skip_idem s : skip_whitespace (skip_whitespace s) = skip_whitespace s.
Proof. destruct (skip_head s) as [->|(c & r & -> & Hc)]; cbn; [done|]. by rewrite Hc. Qed.

Lemma trim_idem s : trim (trim s) = trim s.
Proof.
  unfold trim. destruct (skip_head s) as [E|(c & r & E & Hc)]; [by rewrite E|]. rewrite E, reverse_cons, skip_last by done. rewrite reverse_snoc. cbn [skip_whitespace].
  rewrite Hc, reverse_cons, reverse_involutive, skip_last, skip_idem by done. by rewrite reverse_snoc.
Qed.

(** Literals, and the ASCII classes of the parsers. *)
Definition lit (s : string) : text := (fun c => Z.of_N (N_of_ascii c)) <$> String.list_ascii_of_string s.
Definition ch (c : ascii) : Z := Z.of_N (N_of_ascii c).
Definition is_digit (c : Z) : bool := ((48 <=? c) && (c <=? 57))%Z.
Definition to_lower (c : Z) : Z := (if (65 <=? c) && (c <=? 90) then c + 32 else c)%Z.
Definition to_upper (c : Z) : Z := (if (97 <=? c) && (c <=? 122) then c - 32 else c)%Z.
Definition digits_value (s : text) : Z := foldl (fun n c => n * 10 + (c - 48))%Z 0%Z s.

#[local] Open Scope Z_scope.
(** Decimal digits, and the zero-padded format of a number. *)
Fixpoint decimal_go (fuel : nat) (n : Z) (acc : text) : text :=
  match fuel with
  | O => acc
  | S fuel =>
      let acc := 48 + n mod 10 :: acc in
      if n / 10 =? 0 then acc else decimal_go fuel (n / 10) acc
  end.
Definition decimal (n : Z) : text := decimal_go (S (Z.to_nat (Z.log2 n))) n [].
Definition zero_padded (width : nat) (n : Z) : text :=
  let d := decimal n in replicate (width - length d) 48 ++ d.

Definition numeral (ds : text) : Prop := Forall (fun c => is_digit c = true) ds.

Lemma digits_value_snoc ds c : digits_value (ds ++ [c]) = digits_value ds * 10 + (c - 48).
Proof. unfold digits_value. by rewrite foldl_app. Qed.

Lemma is_digit_of n : 0 <= n < 10 -> is_digit (48 + n) = true.
Proof. intros Hn. unfold is_digit. rewrite !(proj2 (Z.leb_le _ _)) by lia. done. Qed.

Lemma decimal_go_spec k : forall n acc, 0 <= n < 10 ^ Z.of_nat k -> k <> 0%nat ->
  exists ds, decimal_go k n acc = ds ++ acc /\ numeral ds /\ ds <> [] /\ digits_value ds = n /\
    forall w, (0 < w)%nat -> n < 10 ^ Z.of_nat w -> (length ds <= w)%nat.
Proof.
  induction k as [|k IH]; intros n acc Hn Hk; [done|]. cbn [decimal_go].
  assert (Hd : is_digit (48 + n mod 10) = true) by (apply is_digit_of, Z.mod_pos_bound; lia).
  destruct (n / 10 =? 0) eqn:E; reflect_bools.
  - exists [48 + n mod 10]. assert (n < 10) by (Z.to_euclidean_division_equations; lia). split_and!; [done| |done| |].
    + apply Forall_cons. split; [done|]. by apply Forall_nil_2.
    + unfold digits_value. simpl. rewrite Z.mod_small by lia. lia.
    + intros w Hw _. simpl. lia.
  - rewrite Nat2Z.inj_succ, Z.pow_succ_r in Hn by lia.
    assert (Hq : 0 <= n / 10 < 10 ^ Z.of_nat k) by (Z.to_euclidean_division_equations; lia).
    destruct (IH (n / 10) (48 + n mod 10 :: acc) Hq) as (ds & E1 & E2 & E3 & E4 & E5).
    { intros ->. simpl in Hq. lia. }
    exists (ds ++ [48 + n mod 10]). split_and!.
    + rewrite E1, <- app_assoc. done.
    + apply Forall_app. split; [done|]. apply Forall_cons. split; [done|]. by apply Forall_nil_2.
    + by destruct ds.
    + rewrite digits_value_snoc, E4. pose proof (Z.div_mod n 10 ltac:(lia)). lia.
    + intros [|w] Hw Hlt; [lia|]. rewrite length_app. simpl. destruct w as [|w].
      { simpl in Hlt. Z.to_euclidean_division_equations; lia. }
      rewrite Nat2Z.inj_succ, Z.pow_succ_r in Hlt by lia.
      pose proof (E5 (S w) ltac:(lia) ltac:(Z.to_euclidean_division_equations; lia)). lia.
Qed.

(** The fuel is enough: a number has no more digits than bits. *)
Lemma decimal_spec n : 0 <= n ->
  numeral (decimal n) /\ decimal n <> [] /\ digits_value (decimal n) = n /\
  forall w, (0 < w)%nat -> n < 10 ^ Z.of_nat w -> (length (decimal n) <= w)%nat.
Proof.
  intros Hn. assert (Hlt : n < 10 ^ Z.of_nat (S (Z.to_nat (Z.log2 n)))).
  { pose proof (Z.log2_nonneg n). destruct (Z.eq_dec n 0) as [->|Hne]; [apply Z.pow_pos_nonneg; lia|].
    pose proof (Z.log2_spec n ltac:(lia)) as [_ H2]. eapply Z.lt_le_trans; [exact H2|].
    replace (Z.of_nat (S (Z.to_nat (Z.log2 n)))) with (Z.succ (Z.log2 n)) by lia. apply Z.pow_le_mono_l. lia. }
  destruct (decimal_go_spec _ n [] (conj Hn Hlt) ltac:(done)) as (ds & E & H1 & H2 & H3 & H4).
  unfold decimal. rewrite E, app_nil_r. done.
Qed.

Lemma zero_padded_spec w n : (0 < w)%nat -> 0 <= n < 10 ^ Z.of_nat w ->
  length (zero_padded w n) = w /\ numeral (zero_padded w n) /\ digits_value (zero_padded w n) = n.
Proof.
  intros Hw [Hn Hlt]. destruct (decimal_spec n Hn) as (Hd & _ & Hv & Hl). specialize (Hl w Hw Hlt).
  unfold zero_padded. split_and!.
  - rewrite length_app, length_replicate. lia.
  - apply Forall_app. split; [|done]. apply Forall_replicate. done.
  - rewrite <- Hv at 3. generalize (w - length (decimal n))%nat as k. intros k. unfold digits_value. rewrite foldl_app. f_equal.
    induction k as [|k IH]; [done|]. simpl. done.
Qed.

#[local] Close Scope Z_scope.
End Text.

(** ** Panics

    The outcome of a call that may panic (an index out of range, an
    [expect] on [None], an arithmetic overflow). *)
Inductive outcome (A : Type) : Type :=
| Returned (a : A)
| Panicked.
Arguments Returned {A} a.
Arguments Panicked {A}.

Definition obind {A B} (x : outcome A) (f : A -> outcome B) : outcome B :=
  match x with Returned a => f a | Panicked => Panicked end.
Notation "'let!' p := x 'in' k" := (obind x (fun p => k))
  (at level 10, p pattern, x at level 100, k at level 200) : cantrip_scope.

(** Binding a value, as a rewrite: conversion would compare the bodies. *)
Lemma bind_value {A B} (x : A) (k : A -> option B) : (Some x ≫= k) = k x.
Proof. done. Qed.

(** ** Loops

    [run step k] is a [loop] of at most [2 ^ k] iterations: [step] goes on with
    [inl] and leaves the loop with [inr]. *)
Module Loop.
Section loop.
Context {St R : Type} (step : St -> St + R).

Fixpoint run (k : nat) (s : St) : St + R :=
  match k with
  | O => step s
  | S k => match run k s with inl s' => run k s' | inr r => inr r end
  end.

(** An invariant, and what it gives at the exit. *)
Lemma run_inv (I : St -> Prop) (Q : R -> Prop) :
  (forall s, I s -> match step s with inl s' => I s' | inr r => Q r end) ->
  forall k s, I s -> match run k s with inl s' => I s' | inr r => Q r end.
Proof.
  intros Hstep. induction k as [|k IH]; intros s Hs; simpl; [by apply Hstep|].
  specialize (IH s Hs) as IH1. destruct (run k s) as [s'|r]; [by apply IH|done].
Qed.

(** A measure that decreases and stays above 0 bounds the iterations. *)
Lemma run_measure (I : St -> Prop) (m : St -> Z) :
  (forall s s', I s -> step s = inl s' -> I s' /\ 0 <= m s' < m s)%Z ->
  forall k s s', I s -> run k s = inl s' -> (I s' /\ 0 <= m s' /\ m s' + 2 ^ Z.of_nat k <= m s)%Z.
Proof.
  intros Hstep. induction k as [|k IH]; intros s s' Hs; cbn [run]; intros Hr.
  - destruct (Hstep s s' Hs Hr). change (2 ^ Z.of_nat 0)%Z with 1%Z. split_and!; [done|lia|lia].
  - destruct (run k s) as [s1|] eqn:E; [|done]. destruct (IH s s1 Hs E) as (I1 & _ & M1).
    destruct (IH s1 s' I1 Hr) as (I2 & P2 & M2). split_and!; [done..|].
    replace (Z.of_nat (S k)) with (Z.of_nat k + 1)%Z by lia. rewrite Z.pow_add_r by lia. lia.
Qed.

Lemma run_exits (I : St -> Prop) (m : St -> Z) :
  (forall s s', I s -> step s = inl s' -> I s' /\ 0 <= m s' < m s)%Z ->
  forall k s, I s -> (m s < 2 ^ Z.of_nat k)%Z -> exists r, run k s = inr r.
Proof.
  intros Hstep k s Hs Hm. destruct (run k s) as [s'|r] eqn:E; [|eauto].
  destruct (run_measure I m Hstep k s s' Hs E) as (_ & ? & ?). lia.
Qed.
End loop.
End Loop.

(** ** Sublists and filters *)

Lemma sublist_elem {X} (x : X) l k : x ∈ l -> l `sublist_of` k -> x ∈ k.
Proof. intros ? ?. eapply elem_of_submseteq; [done|by apply sublist_submseteq]. Qed.

Lemma sublist_len {X} (l k : list X) : l `sublist_of` k -> (len l <= len k)%Z.
Proof. intros H%sublist_length. lia. Qed.

Lemma sublist_filter_mono {X} (P : X -> Prop) `{!forall x, Decision (P x)} l k :
  l `sublist_of` k -> filter P l `sublist_of` filter P k.
Proof.
  induction 1 as [|x l k _ IH|x l k _ IH]; [done| |]; rewrite ?filter_cons.
  - case_decide; [by apply sublist_skip|done].
  - case_decide; [by apply sublist_cons|done].
Qed.

Lemma filter_iff_in {X} (P Q : X -> Prop) `{!forall x, Decision (P x), !forall x, Decision (Q x)} (l : list X) :
  (forall x, x ∈ l -> P x <-> Q x) -> filter P l = filter Q l.
Proof.
  induction l as [|x l IH]; intros Hl; [done|]. rewrite !filter_cons, IH by set_solver.
  specialize (Hl x). repeat case_decide; set_solver.
Qed.

Lemma filter_id {X} (P : X -> Prop) `{!forall x, Decision (P x)} (l : list X) : (forall x, x ∈ l -> P x) -> filter P l = l.
Proof.
  induction l as [|x l IH]; intros Hp; [done|]. rewrite filter_cons_True by (apply Hp; left). f_equal. apply IH. intros y Hy. apply Hp. by right.
Qed.

Lemma filter_all {X} (l : list X) : filter (fun _ : X => True) l = l.
Proof. induction l; [done|]. rewrite filter_cons_True by done. by f_equal. Qed.

(** A split of [l ++ [x]] is a split of [l] or ends with [x]. *)
Lemma snoc_split {X} (l l1 l2 : list X) x e :
  l ++ [x] = l1 ++ e :: l2 -> (e = x /\ l1 = l) \/ (exists l2', l = l1 ++ e :: l2').
Proof.
  destruct l2 as [|y l2 _] using rev_ind.
  - intros [-> ?]%app_inj_tail. left. naive_solver.
  - rewrite app_comm_cons, app_assoc. intros [-> ?]%app_inj_tail. right. eauto.
Qed.

(** ** Insertion-ordered maps

    [indexmap::IndexMap]: an association list with unique keys, in insertion
    order. [insert] of a present key replaces its value in place; a new key
    goes to the end; [shift_remove] keeps the order of the others. *)
Module IndexMap.
Section imap.
Context {K V : Type} `{EqDecision K}.

Fixpoint get (k : K) (m : list (K * V)) : option V :=
  match m with
  | [] => None
  | (k', v) :: m => if decide (k = k') then Some v else get k m
  end.

Fixpoint insert (k : K) (v : V) (m : list (K * V)) : list (K * V) :=
  match m with
  | [] => [(k, v)]
  | (k', v') :: m =>
      if decide (k = k') then (k', v) :: m else (k', v') :: insert k v m
  end.

Definition shift_remove (k : K) (m : list (K * V)) : list (K * V) :=
  filter (fun p => p.1 <> k) m.

Definition contains_key (k : K) (m : list (K * V)) : bool :=
  match get k m with Some _ => true | None => false end.

Definition keys (m : list (K * V)) : list K := m.*1.
Definition values (m : list (K * V)) : list V := m.*2.

(** Every operation keeps the keys unique: the representation invariant. *)
Definition wf (m : list (K * V)) : Prop := NoDup (keys m).

Lemma get_In k v m : get k m = Some v -> (k, v) ∈ m.
Proof.
  induction m as [|[k' v'] m IH]; simpl; [done|].
  case_decide; intros; simplify_eq; [left|right; auto].
Qed.

Lemma get_None k m : get k m = None <-> k ∉ keys m.
Proof.
  induction m as [|[k' v'] m IH]; simpl.
  - split; [intros _; apply not_elem_of_nil|done].
  - rewrite not_elem_of_cons. case_decide; [naive_solver|]. rewrite IH. naive_solver.
Qed.

Lemma In_get k v m : wf m -> (k, v) ∈ m -> get k m = Some v.
Proof.
  unfold wf. induction m as [|[k' v'] m IH]; simpl; intros Hwf Hin.
  - by apply elem_of_nil in Hin.
  - apply NoDup_cons in Hwf as [Hn Hwf].
    apply elem_of_cons in Hin as [|Hin]; simplify_eq; case_decide; simplify_eq; auto.
    destruct Hn. apply list_elem_of_fmap. by exists (k', v).
Qed.

Lemma get_insert_eq k v m : get k (insert k v m) = Some v.
Proof.
  induction m as [|[k' v'] m IH]; simpl; case_decide; simpl; repeat case_decide; done.
Qed.

Lemma get_insert_ne k k' v m : k <> k' -> get k' (insert k v m) = get k' m.
Proof.
  intros. induction m as [|[k0 v0] m IH]; simpl; repeat (case_decide; simpl); congruence.
Qed.

Lemma get_remove_eq k m : get k (shift_remove k m) = None.
Proof.
  unfold shift_remove. induction m as [|[k' v'] m IH]; [done|].
  rewrite filter_cons; simpl. case_decide; simpl; [case_decide; congruence|done].
Qed.

Lemma get_remove_ne k k' m : k <> k' -> get k' (shift_remove k m) = get k' m.
Proof.
  intros. unfold shift_remove. induction m as [|[k0 v0] m IH]; [done|].
  rewrite filter_cons; simpl. repeat (case_decide; simpl); naive_solver.
Qed.

Lemma keys_insert_present k v v' m : get k m = Some v' -> keys (insert k v m) = keys m.
Proof.
  induction m as [|[k0 v0] m IH]; simpl; [done|].
  case_decide; simpl; [done|]. intros. f_equal; auto.
Qed.

Lemma insert_absent k v m : get k m = None -> insert k v m = m ++ [(k, v)].
Proof.
  induction m as [|[k0 v0] m IH]; simpl; [done|].
  case_decide; [done|]. intros. f_equal; auto.
Qed.

Lemma wf_nil : wf [].
Proof. apply NoDup_nil_2. Qed.

Lemma wf_insert k v m : wf m -> wf (insert k v m).
Proof.
  unfold wf. destruct (get k m) eqn:E; intros Hwf.
  - by erewrite keys_insert_present.
  - rewrite insert_absent by done. unfold keys. rewrite fmap_app; simpl.
    apply NoDup_app. repeat split; [done| |apply NoDup_singleton].
    intros x Hx Hx'. apply list_elem_of_singleton in Hx'; subst.
    by apply get_None in E.
Qed.

Lemma wf_filter (P : K * V -> Prop) `{!forall x, Decision (P x)} m :
  wf m -> wf (filter P m).
Proof.
  unfold wf, keys. induction m as [|[k v] m IH]; [done|]. simpl. intros Hwf.
  apply NoDup_cons in Hwf as [Hn Hwf].
  rewrite filter_cons. case_decide; [|auto]. simpl. apply NoDup_cons. split; [|auto].
  intros Hin. apply Hn. apply list_elem_of_fmap in Hin as ([k' v'] & -> & Hin).
  apply list_elem_of_filter in Hin as [_ Hin]. apply list_elem_of_fmap. eauto.
Qed.

Lemma wf_remove k m : wf m -> wf (shift_remove k m).
Proof. apply wf_filter. Qed.

Lemma keys_remove k m : keys (shift_remove k m) = filter (fun k' => k' <> k) (keys m).
Proof.
  unfold shift_remove, keys. induction m as [|[k' v] m IH]; [done|]. rewrite fmap_cons, !filter_cons. cbn [fst].
  case_decide; [|done]. by rewrite fmap_cons, IH.
Qed.

Lemma remove_absent k m : get k m = None -> shift_remove k m = m.
Proof.
  unfold shift_remove. induction m as [|[k0 v0] m IH]; simpl; [done|].
  case_decide as E; [done|]. intros. rewrite filter_cons_True; [f_equal; auto|].
  simpl. congruence.
Qed.

Lemma remove_cons k k' v m :
  shift_remove k ((k', v) :: m) =
  if decide (k = k') then shift_remove k m else (k', v) :: shift_remove k m.
Proof.
  unfold shift_remove. rewrite filter_cons. simpl.
  destruct (decide (k = k')); [by rewrite decide_False by congruence|].
  by rewrite decide_True by congruence.
Qed.

Lemma length_insert_absent k v m :
  get k m = None -> length (insert k v m) = S (length m).
Proof. intros. rewrite insert_absent, length_app by done. simpl. lia. Qed.

Lemma length_insert_present k v v' m :
  get k m = Some v' -> length (insert k v m) = length m.
Proof.
  intros E. rewrite <- (length_fmap fst), <- (length_fmap fst m).
  f_equal. by eapply keys_insert_present.
Qed.

Lemma length_remove_present k v m :
  wf m -> get k m = Some v -> S (length (shift_remove k m)) = length m.
Proof.
  unfold wf, shift_remove. induction m as [|[k0 v0] m IH]; simpl; [done|].
  intros Hwf. apply NoDup_cons in Hwf as [Hn Hwf]. rewrite filter_cons; simpl.
  case_decide as E; intros; simplify_eq.
  - rewrite decide_False by tauto. do 2 f_equal. apply (remove_absent k0).
    by apply get_None.
  - rewrite decide_True by congruence. simpl. f_equal. auto.
Qed.

Lemma get_filter_key (P : K -> Prop) `{!forall x, Decision (P x)} k m :
  P k -> get k (filter (fun p => P p.1) m) = get k m.
Proof.
  intros HP. induction m as [|[k0 v0] m IH]; [done|].
  rewrite filter_cons; simpl. case_decide; simpl; case_decide; congruence.
Qed.

Lemma get_filter (P : K * V -> Prop) `{!forall x, Decision (P x)} k m :
  wf m ->
  get k (filter P m) =
    match get k m with
    | Some v => if decide (P (k, v)) then Some v else None
    | None => None
    end.
Proof.
  unfold wf. induction m as [|[k0 v0] m IH]; intros Hwf; [done|].
  apply NoDup_cons in Hwf as [Hn Hwf]. rewrite filter_cons.
  destruct (decide (k = k0)) as [->|Hk]; simpl.
  - rewrite (decide_True (P := k0 = k0)) by done.
    case_decide; simpl; [by rewrite decide_True by done|].
    rewrite IH by done. apply get_None in Hn. simpl in Hn. by rewrite Hn.
  - rewrite (decide_False (P := k = k0)) by done.
    case_decide; simpl; [rewrite decide_False by done|]; auto.
Qed.

Lemma elem_of_insert x k v m :
  x ∈ insert k v m -> x = (k, v) \/ x ∈ m.
Proof.
  induction m as [|[k0 v0] m IH]; simpl; [set_solver|].
  case_decide; subst; set_solver.
Qed.

Lemma elem_of_remove x k m : x ∈ shift_remove k m <-> x.1 <> k /\ x ∈ m.
Proof. unfold shift_remove. by rewrite list_elem_of_filter. Qed.

Lemma remove_sublist k m : shift_remove k m `sublist_of` m.
Proof.
  induction m as [|[k' v] m IH]; [done|]. rewrite remove_cons.
  case_decide; [by apply sublist_cons|by apply sublist_skip].
Qed.

Lemma get_insert k k' v m : get k' (insert k v m) = if decide (k = k') then Some v else get k' m.
Proof. case_decide; subst; [apply get_insert_eq|by apply get_insert_ne]. Qed.

Lemma get_remove k k' m : get k' (shift_remove k m) = if decide (k = k') then None else get k' m.
Proof. case_decide; subst; [apply get_remove_eq|by apply get_remove_ne]. Qed.

Lemma wf_drop (n : nat) m : wf m -> wf (drop n m).
Proof.
  unfold wf, keys. rewrite fmap_drop. intros Hw. eapply sublist_NoDup; [exact Hw|apply sublist_drop].
Qed.

Lemma get_drop (n : nat) m k : get k m = None -> get k (drop n m) = None.
Proof.
  rewrite !get_None. unfold keys. rewrite fmap_drop. intros Hn Hin. apply Hn.
  eapply elem_of_submseteq; [exact Hin|]. apply sublist_submseteq, sublist_drop.
Qed.

Lemma sublist_wf m' m : m' `sublist_of` m -> wf m -> wf m'.
Proof. intros Hs Hw. unfold wf in *. eapply sublist_NoDup; [exact Hw|]. by apply fmap_sublist. Qed.

Lemma sublist_get m' m k : m' `sublist_of` m -> wf m -> get k m' = None \/ get k m' = get k m.
Proof.
  intros Hs Hw. destruct (get k m') as [v|] eqn:E; [right|by left]. symmetry. apply In_get; [done|].
  eapply sublist_elem; [by apply get_In|done].
Qed.

Lemma length_insert_le k v m : (len (insert k v m) <= len m + 1)%Z.
Proof.
  destruct (get k m) eqn:Hg.
  - erewrite length_insert_present by done. lia.
  - rewrite length_insert_absent by done. lia.
Qed.

Lemma length_remove_le k m : (len (shift_remove k m) <= len m)%Z.
Proof. pose proof (length_filter (fun p => p.1 <> k) m). unfold shift_remove. lia. Qed.

End imap.
End IndexMap.

#[export] Hint Resolve IndexMap.wf_nil IndexMap.wf_insert IndexMap.wf_remove
  IndexMap.wf_filter : cantrip.

(** ** Totals over a map *)
Section total.
Local Open Scope Z_scope.
Context {K A : Type} `{Countable K}.
Definition map_total (f : A -> Z) (m : gmap K A) : Z := map_fold (fun _ x n => f x + n) 0 m.

Lemma map_total_empty f : map_total f ∅ = 0.
Proof. unfold map_total. by rewrite map_fold_empty. Qed.
Lemma map_total_insert f m k x : m !! k = None -> map_total f (<[k := x]> m) = f x + map_total f m.
Proof. intros E. unfold map_total. rewrite map_fold_insert_L; [done| |done]. intros. lia. Qed.
Lemma map_total_replace f m k x y : m !! k = Some x -> map_total f (<[k := y]> m) = map_total f m - f x + f y.
Proof.
  intros E. assert (E1 : map_total f m = f x + map_total f (delete k m)).
  { rewrite <- (insert_delete_id m k x E) at 1. apply map_total_insert, lookup_delete_eq. }
  rewrite <- insert_delete_eq, map_total_insert by apply lookup_delete_eq. lia.
Qed.
Lemma map_total_delete f m k x : m !! k = Some x -> map_total f (delete k m) = map_total f m - f x.
Proof. intros E. rewrite <- (insert_delete_id m k x E) at 2. rewrite map_total_insert by apply lookup_delete_eq. lia. Qed.
Lemma map_total_le f g m : (forall x, f x <= g x) -> map_total f m <= map_total g m.
Proof.
  intros Hle. induction m as [|k x m Hk IH] using map_ind; [by rewrite !map_total_empty|].
  rewrite !map_total_insert by done. specialize (Hle x). lia.
Qed.
Lemma map_total_ge f m k x : (forall y, 0 <= f y) -> m !! k = Some x -> f x <= map_total f m.
Proof.
  intros Hf E. assert (Hn : forall m, 0 <= map_total f m).
  { intros m'. induction m' as [|i y m' Hi IH] using map_ind; [by rewrite map_total_empty|].
    rewrite map_total_insert by done. specialize (Hf y). lia. }
  pose proof (map_total_delete f m k x E). specialize (Hn (delete k m)). lia.
Qed.
Lemma map_total_split f g h m : (forall x, f x = g x + h x) -> map_total f m = map_total g m + map_total h m.
Proof.
  intros E. induction m as [|k x m Hk IH] using map_ind; [by rewrite !map_total_empty|]. rewrite !map_total_insert by done. rewrite E. lia.
Qed.
(** A total of ones and zeros is a number of entries. *)
Lemma map_total_count (p : A -> bool) f m : (forall x, f x = if p x then 1 else 0) -> map_total f m = Z.of_nat (size (filter (fun kx => p kx.2 = true) m)).
Proof.
  intros E. induction m as [|k x m Hk IH] using map_ind; [by rewrite map_total_empty|]. rewrite map_total_insert by done. rewrite E. destruct (p x) eqn:Ep.
  - rewrite map_filter_insert_True, map_size_insert_None by (done || by rewrite map_lookup_filter_None; left). lia.
  - rewrite map_filter_insert_False, delete_id by (done || by cbn; rewrite Ep). lia.
Qed.
End total.

(** ** Counters that count holders

    A map of counters with the key of each thing some task holds: the count is
    the number of holders, and a key that no one holds is absent. *)
Section counters.
Local Open Scope Z_scope.
Context {K T : Type} `{Countable K}.
Implicit Types (m : gmap K Z) (ts : gmap nat T).

Definition count_up (k : K) m : gmap K Z := <[k := default 0 (m !! k) + 1]> m.
Definition count_down (k : K) m : gmap K Z :=
  match m !! k with Some n => if n - 1 =? 0 then delete k m else <[k := n - 1]> m | None => m end.

Definition counted m (f : K -> T -> Z) ts : Prop :=
  forall k, m !! k = if map_total (f k) ts =? 0 then None else Some (map_total (f k) ts).

Lemma counted_ext m f ts ts' : (forall k, map_total (f k) ts' = map_total (f k) ts) -> counted m f ts -> counted m f ts'.
Proof. intros E C k. by rewrite E. Qed.

Section holders.
Context (f : K -> T -> Z) (f_pos : forall k t, 0 <= f k t).

Lemma holders_pos k ts : 0 <= map_total (f k) ts.
Proof.
  induction ts as [|i t ts Hi IH] using map_ind; [by rewrite map_total_empty|].
  rewrite map_total_insert by done. specialize (f_pos k t). lia.
Qed.

Lemma counted_up m ts ts' k : counted m f ts ->
  (forall k', map_total (f k') ts' = map_total (f k') ts + (if decide (k' = k) then 1 else 0)) -> counted (count_up k m) f ts'.
Proof.
  intros C E k'. unfold count_up. rewrite lookup_insert, E. pose proof (holders_pos k' ts). destruct (decide (k = k')) as [<-|Hne].
  - rewrite decide_True by done. rewrite (C k).
    destruct (map_total (f k) ts =? 0) eqn:Et; simpl; reflect_bools; destruct (_ =? 0) eqn:E2; reflect_bools; try lia; do 2 f_equal; lia.
  - rewrite decide_False by done. rewrite Z.add_0_r. apply C.
Qed.

Lemma counted_down m ts ts' k : counted m f ts ->
  (forall k', map_total (f k') ts' = map_total (f k') ts - (if decide (k' = k) then 1 else 0)) -> counted (count_down k m) f ts'.
Proof.
  intros C E k'. unfold count_down. rewrite E. pose proof (holders_pos k' ts') as Hp. rewrite E in Hp. rewrite (C k).
  destruct (decide (k' = k)) as [->|Hne].
  - destruct (map_total (f k) ts =? 0) eqn:Et; reflect_bools; [lia|].
    destruct (map_total (f k) ts - 1 =? 0) eqn:E1; [by rewrite lookup_delete_eq|by rewrite lookup_insert_eq].
  - rewrite Z.sub_0_r. destruct (map_total (f k) ts =? 0); [apply C|].
    case_match; [rewrite lookup_delete_ne by done|rewrite lookup_insert_ne by done]; apply C.
Qed.

Lemma counted_free m ts k i t : counted m f ts -> m !! k = None -> ts !! i = Some t -> f k t = 0.
Proof.
  intros C E Et. specialize (C k). rewrite E in C. destruct (map_total (f k) ts =? 0) eqn:E0; [|done]. reflect_bools.
  pose proof (map_total_ge (f k) ts i t (f_pos k) Et). specialize (f_pos k t). lia.
Qed.

Lemma total_holder ts k : map_total (f k) ts <> 0 -> exists i t, ts !! i = Some t /\ f k t <> 0.
Proof.
  induction ts as [|j t ts Hj IH] using map_ind; [by rewrite map_total_empty|]. rewrite map_total_insert by done. intros Hn.
  destruct (Z.eq_dec (f k t) 0) as [E0|Hf]; [|exists j, t; by rewrite lookup_insert_eq]. destruct IH as (j' & t' & E' & Hf); [lia|].
  exists j', t'. split; [|done]. rewrite lookup_insert_ne; [done|]. intros ->. congruence.
Qed.
End holders.

(** *** Changing a task: what a step leaves of the task it ran *)
Definition upd (i : nat) (next : option T) ts : gmap nat T := match next with Some t => <[i := t]> ts | None => delete i ts end.

Lemma upd_total (f : T -> Z) i next ts : map_total f (upd i next ts) = map_total f ts - from_option f 0 (ts !! i) + from_option f 0 next.
Proof.
  destruct next as [t|]; simpl; destruct (ts !! i) as [t0|] eqn:E; simpl.
  - rewrite (map_total_replace f ts i t0 t E). lia.
  - rewrite (map_total_insert f ts i t E). lia.
  - rewrite (map_total_delete f ts i t0 E). lia.
  - rewrite delete_id by done. lia.
Qed.

Lemma upd_at i next ts j : upd i next ts !! j = if decide (i = j) then next else ts !! j.
Proof. destruct next; simpl; [apply lookup_insert|rewrite lookup_delete; by case_decide]. Qed.

Lemma upd_Some i next ts j t : upd i next ts !! j = Some t -> i = j /\ next = Some t \/ i <> j /\ ts !! j = Some t.
Proof. rewrite upd_at. case_decide; auto. Qed.
End counters.
