(* ===== verification/Limits.v ===== *)
(** * Rate and quota windows

    [Ledger] is the abstract contract of a 60 second window limiter: a log of
    admitted charges and the decision read off the log. [SlidingWindow],
    [ByteWindow] and [ActiveLimit] model src/cantrip_server_rs/src/workers/limits.rs,
    [AuthRateLimiter] models src/cantrip_server_rs/src/auth/rate_limit.rs; the
    first, second and fourth are proved to take the decisions of the ledger
    while no key is evicted. Timestamps are [i64] milliseconds, kept as [Z]. *)
From S2P Require Import Prelude.
From stdpp Require Import base numbers gmap strings sorting list.
Open Scope Z_scope.

(** ** The abstract window *)
Module Ledger.

(** One admitted charge: key, time, weight. *)
Record entry := Entry { e_key : string; e_at : Z; e_weight : Z }.

Definition in_window (key : string) (lo hi : Z) (e : entry) : bool :=
  bool_decide (e_key e = key) && (lo <? e_at e) && (e_at e <=? hi).

(** The weight charged to [key] in the half-open interval [(lo, hi]]. *)
Definition between (l : list entry) (key : string) (lo hi : Z) : Z :=
  sumZ (map (fun e => if in_window key lo hi e then e_weight e else 0) l).

(** The weight charged to [key] in the 60 seconds that end at [now]. *)
Definition usage (l : list entry) (key : string) (now : Z) : Z :=
  between l key (now - 60000) now.

Definition admits (limit : Z) (l : list entry) (key : string) (w now : Z) : bool :=
  usage l key now + w <=? limit.

Definition step (limit : Z) (l : list entry) (c : entry) : list entry :=
  if admits limit l (e_key c) (e_weight c) (e_at c) then l ++ [c] else l.

(** The decisions and the log of a whole sequence of calls. *)
Fixpoint run (limit : Z) (l : list entry) (calls : list entry) : list bool * list entry :=
  match calls with
  | [] => ([], l)
  | c :: calls =>
      let '(ds, l') := run limit (step limit l c) calls in
      (admits limit l (e_key c) (e_weight c) (e_at c) :: ds, l')
  end.

(** Calls whose clock never goes back, starting at [from]. *)
Fixpoint ordered (from : Z) (calls : list entry) : Prop :=
  match calls with
  | [] => True
  | c :: calls => from <= e_at c /\ ordered (e_at c) calls
  end.

Definition le_all (l : list entry) (now : Z) : Prop := Forall (fun e => e_at e <= now) l.
Definition nonneg (l : list entry) : Prop := Forall (fun e => 0 <= e_weight e) l.

Lemma between_app l1 l2 key lo hi :
  between (l1 ++ l2) key lo hi = between l1 key lo hi + between l2 key lo hi.
Proof. unfold between. rewrite map_app. apply sumZ_app. Qed.

Lemma in_window_mono key lo hi lo' hi' e :
  lo' <= lo -> hi <= hi' -> in_window key lo hi e = true -> in_window key lo' hi' e = true.
Proof.
  unfold in_window. intros ? ? W. reflect_bools.
  rewrite bool_decide_eq_true_2 by done. simpl.
  apply andb_true_iff. rewrite Z.ltb_lt, Z.leb_le. lia.
Qed.

Lemma between_mono l key lo hi lo' hi' :
  nonneg l -> lo' <= lo -> hi <= hi' -> between l key lo hi <= between l key lo' hi'.
Proof.
  unfold between. induction 1 as [|e l He Hl IH]; intros; simpl; [lia|].
  specialize (IH ltac:(lia) ltac:(lia)).
  destruct (in_window key lo hi e) eqn:W; [|case_match; lia].
  rewrite (in_window_mono key lo hi lo' hi') by (done || lia). lia.
Qed.

Lemma between_after l key lo hi now :
  le_all l now -> now <= hi -> between l key lo hi = between l key lo now.
Proof.
  unfold between. induction 1 as [|e l He Hl IH]; intros; simpl; [done|].
  f_equal; [|auto]. unfold in_window.
  assert ((e_at e <=? hi) = true) as -> by (apply Z.leb_le; lia).
  assert ((e_at e <=? now) = true) as -> by (apply Z.leb_le; lia). done.
Qed.

Lemma le_all_weaken l a b : le_all l a -> a <= b -> le_all l b.
Proof. intros H ?. eapply Forall_impl; [exact H|]. simpl. lia. Qed.

Lemma between_single c key lo hi :
  between [c] key lo hi = if in_window key lo hi c then e_weight c else 0.
Proof. unfold between. simpl. lia. Qed.

(** The abstract window is a rate limit: no interval of 60 seconds, aligned
    anywhere, carries more than [limit]. *)
Definition bounded (limit : Z) (l : list entry) : Prop :=
  forall key a, between l key a (a + 60000) <= limit.

Lemma step_bounded limit l c :
  0 <= limit -> 0 <= e_weight c -> nonneg l -> le_all l (e_at c) ->
  bounded limit l -> bounded limit (step limit l c).
Proof.
  intros Hlim Hw Hn Hle Hb key a. unfold step.
  destruct (admits _ _ _ _ _) eqn:E; [|apply Hb].
  unfold admits, usage in E. reflect_bools.
  rewrite between_app, between_single. specialize (Hb key a).
  destruct (in_window key a (a + 60000) c) eqn:W; [|lia].
  unfold in_window in W. reflect_bools. subst key.
  rewrite (between_after l _ a (a + 60000) (e_at c)) by (done || lia).
  pose proof (between_mono l (e_key c) a (e_at c) (e_at c - 60000) (e_at c) Hn). lia.
Qed.

Lemma step_le_all limit l c from :
  le_all l from -> from <= e_at c -> le_all (step limit l c) (e_at c).
Proof.
  intros. unfold step. case_match; [|by eapply le_all_weaken].
  apply Forall_app. split; [by eapply le_all_weaken|]. by repeat constructor.
Qed.

Lemma step_nonneg limit l c : nonneg l -> 0 <= e_weight c -> nonneg (step limit l c).
Proof.
  intros. unfold step. case_match; [|done]. apply Forall_app. by repeat constructor.
Qed.

Lemma run_bounded limit calls : forall l from,
  0 <= limit -> nonneg l -> nonneg calls -> le_all l from -> ordered from calls ->
  bounded limit l -> bounded limit (run limit l calls).2.
Proof.
  induction calls as [|c calls IH]; intros l from Hlim Hn Hc Hle Hord Hb; simpl; [done|].
  inversion_clear Hc. destruct Hord as [Hfrom Hord].
  destruct (run limit (step limit l c) calls) as [ds l'] eqn:E; simpl.
  change l' with (ds, l').2. rewrite <- E. apply (IH _ (e_at c)); auto.
  - by apply step_nonneg.
  - by eapply step_le_all.
  - apply step_bounded; auto. by eapply le_all_weaken.
Qed.

(** The calls a decision vector admits. *)
Fixpoint admitted (ds : list bool) (calls : list entry) : list entry :=
  match ds, calls with
  | d :: ds, c :: calls => if d then c :: admitted ds calls else admitted ds calls
  | _, _ => []
  end.

Lemma run_admitted limit calls : forall l,
  (run limit l calls).2 = l ++ admitted (run limit l calls).1 calls.
Proof.
  induction calls as [|c calls IH]; intros l; simpl; [by rewrite app_nil_r|].
  specialize (IH (step limit l c)).
  destruct (run limit (step limit l c) calls) as [ds l']; simpl in *. rewrite IH.
  unfold step. destruct (admits _ _ _ _ _); [by rewrite <- app_assoc|done].
Qed.

Lemma bounded_nil limit : 0 <= limit -> bounded limit [].
Proof. intros ? key a. unfold between. simpl. lia. Qed.

End Ledger.

(** ** Retained timestamps

    What the limiters share: the live part of a timestamp vector and the
    periodic pruning of the key table. *)
Section retention.
Context {A : Type} (at_ : A -> Z).

Definition live (cutoff : Z) (l : list A) : list A := filter (fun t => cutoff < at_ t) l.

(** [retain(|_, v| v.last().is_some_and(|t| t > cutoff))]. *)
Definition keeps (cutoff : Z) (l : list A) : bool :=
  match last l with Some t => cutoff <? at_ t | None => false end.

Definition retain_keys (cutoff : Z) (m : list (string * list A)) : list (string * list A) :=
  filter (fun p => Is_true (keeps cutoff p.2)) m.

(** [while map.len() > cap { if first is none or its key is empty, break; remove it }]. *)
Fixpoint evict (cap : Z) (m : list (string * list A)) : list (string * list A) :=
  match m with
  | [] => []
  | (k, v) :: m' =>
      if cap <? len m then if bool_decide (k = "")%string then m else evict cap m' else m
  end.

(** The sweep every limiter runs on its 256th, 512th, ... call. *)
Definition sweep (consumed cap cutoff : Z) (m : list (string * list A)) : list (string * list A) :=
  if wrapping_add_u64 consumed 1 mod 256 =? 0 then evict cap (retain_keys cutoff m) else m.

Definition vec (m : list (string * list A)) (key : string) : list A :=
  default [] (IndexMap.get key m).

Definition sorted_vec (l : list A) : Prop := StronglySorted Z.le (map at_ l).

Lemma evict_small cap m : len m <= cap -> evict cap m = m.
Proof.
  destruct m as [|[k v] m]; simpl; [done|]. intros.
  by rewrite (proj2 (Z.ltb_ge _ _)) by (simpl; lia).
Qed.

Lemma evict_sub cap m p : p ∈ evict cap m -> p ∈ m.
Proof. induction m as [|[k v] m IH]; simpl; [done|]. case_match; [case_match|]; set_solver. Qed.

Lemma evict_length cap m : len (evict cap m) <= len m.
Proof. induction m as [|[k v] m IH]; simpl; [lia|]. repeat case_match; simpl; lia. Qed.

Lemma sweep_sublist consumed cap cutoff m : sweep consumed cap cutoff m `sublist_of` m.
Proof.
  unfold sweep. case_match; [|done]. trans (retain_keys cutoff m).
  - induction (retain_keys cutoff m) as [|[k v] l IH]; simpl; [done|].
    repeat case_match; [done| |done]. by apply sublist_cons.
  - apply sublist_filter.
Qed.

Lemma live_idem c c' l : c <= c' -> live c' (live c l) = live c' l.
Proof.
  intros. unfold live. rewrite list_filter_filter_l; [done|]. intros; simpl in *; lia.
Qed.

Lemma live_app c l1 l2 : live c (l1 ++ l2) = live c l1 ++ live c l2.
Proof. apply filter_app. Qed.

Lemma live_le c l : len (live c l) <= len l.
Proof. unfold live. pose proof (length_filter (fun t => c < at_ t) l). lia. Qed.

(** A vector the pruning drops had nothing left in the window. *)
Lemma dropped_not_live cutoff l :
  sorted_vec l -> keeps cutoff l = false -> live cutoff l = [].
Proof.
  unfold sorted_vec, keeps. intros Hs Hk.
  destruct (last l) as [t|] eqn:Hl.
  - reflect_bools. unfold live. apply filter_none. intros x Hx.
    assert (at_ x <= at_ t); [|lia].
    apply (sorted_last_bound (map at_ l)); [done| |].
    + change (map at_ l) with (at_ <$> l). rewrite fmap_last, Hl. done.
    + apply list_elem_of_fmap. eauto.
  - apply last_None in Hl. by subst.
Qed.

Lemma retain_live cutoff m key :
  IndexMap.wf m -> (forall k, sorted_vec (vec m k)) ->
  live cutoff (vec (retain_keys cutoff m) key) = live cutoff (vec m key).
Proof.
  intros Hwf Hs. unfold vec, retain_keys. rewrite IndexMap.get_filter by done.
  specialize (Hs key). unfold vec in Hs.
  destruct (IndexMap.get key m) as [v|]; simpl in *; [|done].
  case_decide as K; simpl; [done|]. symmetry. apply dropped_not_live; [done|].
  destruct (keeps cutoff v); [by destruct K|done].
Qed.

Lemma vec_insert m k v key :
  vec (IndexMap.insert k v m) key = if decide (k = key) then v else vec m key.
Proof.
  unfold vec. case_decide; subst; [by rewrite IndexMap.get_insert_eq|].
  by rewrite IndexMap.get_insert_ne.
Qed.

Lemma vec_retain_sorted cutoff m key :
  IndexMap.wf m -> sorted_vec (vec m key) -> sorted_vec (vec (retain_keys cutoff m) key).
Proof.
  intros Hwf Hs. unfold vec, retain_keys in *. rewrite IndexMap.get_filter by done.
  destruct (IndexMap.get key m) as [v|]; simpl in *; [case_decide|]; simpl; auto; constructor.
Qed.

Lemma vec_retain_elem cutoff m key x :
  IndexMap.wf m -> x ∈ vec (retain_keys cutoff m) key -> x ∈ vec m key.
Proof.
  intros Hwf. unfold vec, retain_keys in *. rewrite IndexMap.get_filter by done.
  destruct (IndexMap.get key m) as [v|]; simpl in *; [case_decide|]; simpl; auto;
    intros Hx; by apply elem_of_nil in Hx.
Qed.

Lemma live_sorted c l : sorted_vec l -> sorted_vec (live c l).
Proof.
  unfold sorted_vec, live. induction l as [|x l IH]; simpl; [done|].
  intros Hs. inversion_clear Hs as [|? ? Hs' Hall]. rewrite filter_cons.
  case_decide; simpl; [|auto]. constructor; [auto|].
  rewrite Forall_forall in *. intros y Hy. apply Hall.
  apply list_elem_of_fmap in Hy as (z & -> & Hz). apply list_elem_of_filter in Hz as [_ Hz].
  apply list_elem_of_fmap. eauto.
Qed.

(** *** Agreement of a table with the ledger

    [tracks f l now]: the vectors [f] of a limiter carry, for every cutoff still
    inside the window that ends at [now], exactly the weight logged in [l]. *)
Context (weight : A -> Z).

Definition wsum (l : list A) : Z := sumZ (map weight l).

Record tracks (f : string -> list A) (l : list Ledger.entry) (now : Z) : Prop := {
  tr_sorted : forall k, sorted_vec (f k);
  tr_past : forall k x, x ∈ f k -> at_ x <= now;
  tr_log_past : Ledger.le_all l now;
  tr_live : forall k c, now - 60000 <= c -> wsum (live c (f k)) = Ledger.between l k c now
}.

Lemma wsum_app l1 l2 : wsum (l1 ++ l2) = wsum l1 + wsum l2.
Proof. unfold wsum. rewrite map_app. apply sumZ_app. Qed.

Lemma tracks_empty now : tracks (fun _ => []) [] now.
Proof.
  split; intros; [constructor|by apply elem_of_nil in H|constructor|done].
Qed.

Lemma tracks_later f l now now' : now <= now' -> tracks f l now -> tracks f l now'.
Proof.
  intros Hn [Hs Hp Hl Hv]. split; auto.
  - intros k x Hx. specialize (Hp k x Hx). lia.
  - by eapply Ledger.le_all_weaken.
  - intros k c Hc. rewrite (Ledger.between_after l k c now' now) by done. apply Hv. lia.
Qed.

(** Dropping what is outside the window changes nothing the ledger can see. *)
Lemma tracks_drop f g l now :
  tracks f l now ->
  (forall k, sorted_vec (g k)) -> (forall k x, x ∈ g k -> at_ x <= now) ->
  (forall k, live (now - 60000) (g k) = live (now - 60000) (f k)) ->
  tracks g l now.
Proof.
  intros [Hs Hp Hl Hv] Hs' Hp' Hlive. split; auto.
  intros k c Hc. rewrite <- Hv by done.
  rewrite <- (live_idem (now - 60000) c (g k)), Hlive, live_idem by done. done.
Qed.

(** An admitted charge of weight [w] at [now]. *)
Lemma tracks_charge f l now key v w :
  tracks f l now -> sorted_vec v -> (forall x, x ∈ v -> at_ x <= now) ->
  (forall c, now - 60000 <= c -> wsum (live c v) = wsum (live c (f key)) + if c <? now then w else 0) ->
  tracks (fun k => if decide (key = k) then v else f k) (l ++ [Ledger.Entry key now w]) now.
Proof.
  intros [Hs Hp Hl Hv] Hsv Hpv Hlv. split.
  - intros k. case_decide; auto.
  - intros k x. case_decide; eauto.
  - apply Forall_app. split; [done|]. repeat constructor. simpl. lia.
  - intros k c Hc. rewrite Ledger.between_app, Ledger.between_single, <- Hv by done.
    unfold Ledger.in_window; simpl. rewrite (proj2 (Z.leb_le now now)), andb_true_r by lia.
    case_decide as E; [subst k; rewrite Hlv by done|].
    + by rewrite bool_decide_eq_true_2 by done.
    + rewrite bool_decide_eq_false_2 by done. simpl. lia.
Qed.

Lemma sorted_push l x :
  sorted_vec l -> (forall y, y ∈ l -> at_ y <= at_ x) -> sorted_vec (l ++ [x]).
Proof.
  intros Hs Hx. unfold sorted_vec. rewrite map_app. simpl.
  apply StronglySorted_snoc; [done|]. intros y Hy.
  apply list_elem_of_fmap in Hy as (z & -> & Hz). auto.
Qed.

Lemma live_elem c l x : x ∈ live c l -> x ∈ l.
Proof. unfold live. intros Hx. by apply list_elem_of_filter in Hx as [_ Hx]. Qed.

(** Pushing one item at [now] onto the live part of a vector. *)
Lemma tracks_push f l now key x :
  tracks f l now -> at_ x = now ->
  tracks (fun k => if decide (key = k) then live (now - 60000) (f key) ++ [x] else f k)
    (l ++ [Ledger.Entry key now (weight x)]) now.
Proof.
  intros T Hx. pose proof (tr_sorted _ _ _ T key). pose proof (tr_past _ _ _ T key) as Hp.
  apply tracks_charge; [done| | |].
  - apply sorted_push; [by apply live_sorted|]. intros y Hy%live_elem. rewrite Hx. auto.
  - intros y [Hy%live_elem|Hy]%elem_of_app; [auto|]. apply list_elem_of_singleton in Hy. subst. lia.
  - intros c Hc. rewrite live_app, wsum_app, live_idem by done. f_equal.
    unfold live. rewrite filter_cons, filter_nil, Hx.
    destruct (c <? now) eqn:E; reflect_bools; case_decide; simpl; unfold wsum; simpl; lia.
Qed.

(** Replacing a vector by its live part. *)
Lemma tracks_keep f l now key :
  tracks f l now ->
  tracks (fun k => if decide (key = k) then live (now - 60000) (f key) else f k) l now.
Proof.
  intros T. pose proof (tr_sorted _ _ _ T). pose proof (tr_past _ _ _ T) as Hp.
  eapply tracks_drop; [done| | |]; intros k; case_decide as E; subst; auto.
  - by apply live_sorted.
  - intros x Hx%live_elem. eauto.
  - eauto.
  - by rewrite live_idem by lia.
Qed.

Lemma tracks_ext f g l now : (forall k, f k = g k) -> tracks f l now -> tracks g l now.
Proof.
  intros E T. pose proof (tr_sorted _ _ _ T). pose proof (tr_past _ _ _ T).
  eapply tracks_drop; [done| | |]; intros k; rewrite <- E; eauto.
Qed.

(** The periodic sweep of an insertion-ordered table. *)
Lemma tracks_sweep cap m l now :
  IndexMap.wf m -> len m <= cap -> tracks (vec m) l now ->
  tracks (vec (evict cap (retain_keys (now - 60000) m))) l now.
Proof.
  intros Hwf Hcap T. pose proof (tr_sorted _ _ _ T). pose proof (tr_past _ _ _ T).
  rewrite evict_small.
  - eapply tracks_drop; [done| | |].
    + intros k. by apply vec_retain_sorted.
    + intros k x Hx%vec_retain_elem; eauto.
    + intros k. by apply retain_live.
  - unfold retain_keys.
    pose proof (length_filter (fun p => Is_true (keeps (now - 60000) p.2)) m). lia.
Qed.

Lemma retain_length cutoff m : len (retain_keys cutoff m) <= len m.
Proof.
  unfold retain_keys. pose proof (length_filter (fun p => Is_true (keeps cutoff p.2)) m). lia.
Qed.

Lemma sweep_keys consumed cap c m k :
  k ∈ IndexMap.keys (sweep consumed cap c m) -> k ∈ IndexMap.keys m.
Proof.
  unfold sweep. case_match; [|done]. unfold IndexMap.keys.
  rewrite !list_elem_of_fmap. intros (p & -> & Hp%evict_sub).
  unfold retain_keys in Hp. apply list_elem_of_filter in Hp as [_ Hp]. eauto.
Qed.

Lemma sweep_tracks consumed cap m l now :
  IndexMap.wf m -> len m <= cap -> tracks (vec m) l now ->
  IndexMap.wf (sweep consumed cap (now - 60000) m) /\
  tracks (vec (sweep consumed cap (now - 60000) m)) l now.
Proof.
  intros Hwf Hlen T. unfold sweep. case_match; [|done].
  split; [|by apply tracks_sweep]. pose proof (retain_length (now - 60000) m).
  rewrite evict_small by lia. by apply IndexMap.wf_filter.
Qed.

Lemma insert_keys key v (m : list (string * list A)) (K : string -> Prop) k :
  (forall k, k ∈ IndexMap.keys m -> K k) ->
  k ∈ IndexMap.keys (IndexMap.insert key v m) -> k = key \/ K k.
Proof.
  intros Hm Hk. unfold IndexMap.keys in Hk. apply list_elem_of_fmap in Hk as (p & -> & Hp).
  apply IndexMap.elem_of_insert in Hp as [->|Hp]; [by left|right].
  apply Hm, list_elem_of_fmap. eauto.
Qed.

(** A table whose keys all come from [K] is no larger than [K]. *)
Lemma keys_bound (m : list (string * list A)) (K : list string) :
  IndexMap.wf m -> (forall k, k ∈ IndexMap.keys m -> k ∈ K) -> len m <= len (remove_dups K).
Proof.
  intros Hwf HK.
  assert (length (IndexMap.keys m) <= length (remove_dups K))%nat as Hle.
  { apply submseteq_length, NoDup_submseteq; [done|].
    intros k Hk. apply elem_of_remove_dups. auto. }
  unfold IndexMap.keys in Hle. rewrite length_fmap in Hle. lia.
Qed.

End retention.

(** ** The API and pairing limiter *)
Module SlidingWindow.

Record t := Make {
  attempts : list (string * list Z);
  consumed : Z;
  limit : Z
}.

Definition new (limit : Z) : t := {| attempts := []; consumed := 0; limit := limit |}.

(** [SlidingWindow::consume]; [None] admits, [Some s] asks to retry in [s]
    seconds. [times[0]] panics when the limit is zero and nothing is live. *)
Definition consume (w : t) (key : string) (now : Z) : outcome (option Z * t) :=
  let cutoff := now - 60000 in
  let attempts := sweep id (consumed w) 20000 cutoff (attempts w) in
  let times := live id cutoff (vec attempts key) in
  let store v :=
    {| attempts := IndexMap.insert key v attempts;
       consumed := wrapping_add_u64 (consumed w) 1; limit := limit w |} in
  if limit w <=? len times then
    match times with
    | [] => Panicked
    | first :: _ => Returned (Some (Z.max (ceil_seconds (first + 60000 - now)) 1), store times)
    end
  else Returned (None, store (times ++ [now])).

(** A sequence of calls; [true] is an admitted call, [None] a panic. *)
Fixpoint run (w : t) (calls : list (string * Z)) : option (list bool) :=
  match calls with
  | [] => Some []
  | (key, now) :: calls =>
      match consume w key now with
      | Panicked => None
      | Returned (r, w') =>
          match run w' calls with
          | None => None
          | Some ds => Some (bool_decide (r = None) :: ds)
          end
      end
  end.

Definition call_entry (c : string * Z) : Ledger.entry := Ledger.Entry c.1 c.2 1.

Definition inv (w : t) (l : list Ledger.entry) (now : Z) : Prop :=
  IndexMap.wf (attempts w) /\ tracks id (fun _ => 1) (vec (attempts w)) l now.

Lemma wsum_one (l : list Z) : wsum (fun _ : Z => 1) l = len l.
Proof. unfold wsum. induction l; simpl in *; lia. Qed.

(** One call takes the ledger's decision and keeps agreeing with it. *)
Lemma consume_spec w l now key :
  0 < limit w -> inv w l now -> len (attempts w) <= 20000 ->
  exists r w',
    consume w key now = Returned (r, w') /\
    bool_decide (r = None) = Ledger.admits (limit w) l key 1 now /\
    inv w' (Ledger.step (limit w) l (Ledger.Entry key now 1)) now /\
    limit w' = limit w /\
    (forall k, k ∈ IndexMap.keys (attempts w') -> k = key \/ k ∈ IndexMap.keys (attempts w)).
Proof.
  intros Hlim [Hwf0 T0] Hlen.
  destruct (sweep_tracks id (fun _ => 1) (consumed w) 20000 _ l now Hwf0 Hlen T0) as [Hwf T].
  set (m := sweep id (consumed w) 20000 (now - 60000) (attempts w)) in *.
  assert (Hn : len (live id (now - 60000) (vec m key)) = Ledger.usage l key now).
  { rewrite <- wsum_one. unfold Ledger.usage. apply (tr_live _ _ _ _ _ T). lia. }
  assert (Hkeys : forall v k, k ∈ IndexMap.keys (IndexMap.insert key v m) ->
                  k = key \/ k ∈ IndexMap.keys (attempts w)).
  { intros v k. apply (insert_keys _ _ _ (fun k => k ∈ IndexMap.keys (attempts w))).
    intros k'. apply sweep_keys. }
  unfold consume, Ledger.step, Ledger.admits; simpl. fold m. rewrite Hn.
  destruct (limit w <=? Ledger.usage l key now) eqn:E; reflect_bools.
  - destruct (live id (now - 60000) (vec m key)) as [|t0 ts] eqn:Ets; [simpl in Hn; lia|].
    eexists _, _. split; [reflexivity|].
    rewrite (proj2 (Z.leb_gt _ _)) by lia. rewrite bool_decide_eq_false_2 by done.
    split_and!; simpl; eauto. split; [by apply IndexMap.wf_insert|].
    eapply tracks_ext; [|apply (tracks_keep _ _ _ _ _ key T)].
    intros k; simpl. by rewrite vec_insert, Ets.
  - eexists _, _. split; [reflexivity|].
    rewrite (proj2 (Z.leb_le _ _)) by lia. rewrite bool_decide_eq_true_2 by done.
    split_and!; simpl; eauto. split; [by apply IndexMap.wf_insert|].
    eapply tracks_ext; [|apply (tracks_push id (fun _ => 1) _ _ _ key now T eq_refl)].
    intros k; simpl. by rewrite vec_insert.
Qed.

(** A positive limit excludes the panic, whatever the window holds. *)
Lemma consume_safe w key now : 0 < limit w -> exists r w', consume w key now = Returned (r, w') /\ limit w' = limit w.
Proof.
  intros Hl. unfold consume. cbn zeta. case_match eqn:E; [|by eexists _, _]. reflect_bools.
  destruct (live id _ _); [simpl in E; lia|]. by eexists _, _.
Qed.

Lemma run_spec (K : list string) calls : forall w l from,
  0 < limit w -> inv w l from -> Ledger.ordered from (map call_entry calls) ->
  len (remove_dups K) <= 20000 ->
  (forall k, k ∈ IndexMap.keys (attempts w) -> k ∈ K) -> (forall k, k ∈ calls.*1 -> k ∈ K) ->
  run w calls = Some (Ledger.run (limit w) l (map call_entry calls)).1.
Proof.
  induction calls as [|[key now] calls IH]; intros w l from Hlim Hinv Hord Hcap HK Hcalls;
    [done|].
  destruct Hord as [Hfrom Hord]; simpl in *.
  assert (inv w l now) as Hinv' by (destruct Hinv; split; [done|]; by eapply tracks_later).
  destruct (consume_spec w l now key) as (r & w' & E & Hr & Hi & Hl & Hk); [done|done| |].
  { destruct Hinv. pose proof (keys_bound (attempts w) K). naive_solver lia. }
  rewrite E, (IH w' (Ledger.step (limit w) l (call_entry (key, now))) now); rewrite ?Hl; auto.
  - destruct (Ledger.run _ _ _). simpl. by rewrite Hr.
  - intros k [->|?]%Hk; [apply Hcalls; by left|auto].
  - intros k ?. apply Hcalls. by right.
Qed.

Lemma inv_new limit now : inv (new limit) [] now.
Proof. split; [apply IndexMap.wf_nil|]. apply tracks_empty. Qed.

Lemma run_new limit calls start :
  0 < limit -> Ledger.ordered start (map call_entry calls) ->
  len (remove_dups calls.*1) <= 20000 ->
  run (new limit) calls = Some (Ledger.run limit [] (map call_entry calls)).1.
Proof.
  intros. apply (run_spec calls.*1 calls (new limit) [] start); auto using inv_new.
  intros k Hk. by apply elem_of_nil in Hk.
Qed.

(** C33: For a limit above zero, over any sequence of calls whose clock never goes back and that uses at
    most 20000 distinct keys, the shared API limiter never panics and takes
    exactly the decisions of the abstract 60 second ledger. *)
Theorem sliding_window_refines_ledger (limit start : Z) (calls : list (string * Z)) :
  0 < limit -> Ledger.ordered start (map call_entry calls) ->
  len (remove_dups calls.*1) <= 20000 ->
  run (new limit) calls = Some (Ledger.run limit [] (map call_entry calls)).1.
Proof. apply run_new. Qed.

Lemma sliding_window_refines_ledger_witness :
  run (new 2) [("a", 0); ("a", 10); ("a", 20); ("b", 21); ("a", 60001)]%string =
    Some [true; true; false; true; true].
Proof.
  rewrite (sliding_window_refines_ledger 2 0) by (try lia; vm_compute; repeat split; congruence).
  vm_compute. reflexivity.
Defined.

Lemma nonneg_calls calls : Ledger.nonneg (map call_entry calls).
Proof. apply Forall_forall. intros e He. apply list_elem_of_fmap in He as (c & -> & _). done. Qed.

(** The limiter is a rate limit: whatever the alignment of a 60 second
    interval, at most [limit] calls of one key are admitted inside it. *)
Theorem sliding_window_rate (limit start : Z) (calls : list (string * Z)) :
  0 < limit -> Ledger.ordered start (map call_entry calls) ->
  len (remove_dups calls.*1) <= 20000 ->
  exists ds, run (new limit) calls = Some ds /\
    forall key a, Ledger.between (Ledger.admitted ds (map call_entry calls)) key a (a + 60000) <= limit.
Proof.
  intros Hlim Hord Hcap. eexists. split; [by eapply run_new|].
  pose proof (Ledger.run_admitted limit (map call_entry calls) []) as Ha. simpl in Ha.
  rewrite <- Ha. eapply (Ledger.run_bounded limit _ [] start); auto using nonneg_calls.
  - lia.
  - constructor.
  - constructor.
  - apply Ledger.bounded_nil. lia.
Qed.

Lemma sliding_window_rate_witness :
  exists ds, run (new 1) [("a", 0); ("a", 59999); ("a", 60000)]%string = Some ds /\
    forall key a, Ledger.between (Ledger.admitted ds
      (map call_entry [("a", 0); ("a", 59999); ("a", 60000)]%string)) key a (a + 60000) <= 1.
Proof. apply (sliding_window_rate 1 0); [lia|..]; vm_compute; repeat split; congruence. Defined.

(** A rejected call is told to wait a positive number of seconds, long
    enough for the oldest live attempt to leave the window; an admitted one is
    recorded at [now]. The only panic is a zero limit with nothing live. *)
Theorem sliding_window_consume_cases (w : t) (key : string) (now : Z) :
  match consume w key now with
  | Panicked => limit w <= 0
  | Returned (None, w') => last (vec (attempts w') key) = Some now
  | Returned (Some s, w') =>
      1 <= s /\
      exists first, head (vec (attempts w') key) = Some first /\
        now - 60000 < first <= now - 60000 + 1000 * s
  end.
Proof.
  unfold consume. destruct (limit w <=? _) eqn:E; reflect_bools.
  - destruct (live id _ _) as [|t0 ts] eqn:L; simpl in *; [lia|].
    pose proof (ceil_seconds_spec (t0 + 60000 - now)). split; [lia|].
    exists t0. rewrite vec_insert, decide_True by done. split; [done|].
    assert (t0 ∈ live id (now - 60000) (vec (sweep id (consumed w) 20000 (now - 60000) (attempts w)) key)) as Ht by (rewrite L; left).
    apply list_elem_of_filter in Ht as [Ht _]. unfold id in Ht. lia.
  - simpl. rewrite vec_insert, decide_True by done. apply last_snoc.
Qed.

End SlidingWindow.

(** ** The byte quota *)
Module ByteWindow.

Record t := Make {
  buckets : list (string * list (Z * Z));
  consumed : Z;
  limit : Z
}.

Definition new (limit : Z) : t := {| buckets := []; consumed := 0; limit := limit |}.

(** [try_fold(0, checked_add)] over the byte counts. *)
Fixpoint total (acc : Z) (l : list (Z * Z)) : option Z :=
  match l with
  | [] => Some acc
  | (_, bytes) :: l =>
      match checked_add_u64 acc bytes with Some acc => total acc l | None => None end
  end.

(** [ByteWindow::retry_after]: [None] when the charge fits. *)
Definition retry_after (w : t) (key : string) (bytes now : Z) : option Z :=
  if bytes =? 0 then None
  else
    let lv := live fst (now - 60000) (vec (buckets w) key) in
    let fits :=
      match total 0 lv with
      | None => false
      | Some sum =>
          match checked_add_u64 sum bytes with None => false | Some sum => sum <=? limit w end
      end in
    if (bytes <=? limit w) && fits then None
    else
      let first := match lv with [] => now | (at_, _) :: _ => at_ end in
      Some (Z.max (ceil_seconds (first + 60000 - now)) 1).

(** Merge into the bucket of the same millisecond or open a new one;
    [*total += bytes] is checked arithmetic. *)
Definition add_bucket (l : list (Z * Z)) (bytes now : Z) : outcome (list (Z * Z)) :=
  match last l with
  | Some (at_, total) =>
      if at_ =? now then
        match checked_add_u64 total bytes with
        | Some total => Returned (removelast l ++ [(at_, total)])
        | None => Panicked
        end
      else Returned (l ++ [(now, bytes)])
  | None => Returned (l ++ [(now, bytes)])
  end.

Definition consume (w : t) (key : string) (bytes now : Z) : outcome (option Z * t) :=
  if bytes =? 0 then Returned (None, w)
  else
    match retry_after w key bytes now with
    | Some retry => Returned (Some retry, w)
    | None =>
        let cutoff := now - 60000 in
        let m := sweep fst (consumed w) 20000 cutoff (buckets w) in
        match add_bucket (live fst cutoff (vec m key)) bytes now with
        | Panicked => Panicked
        | Returned v =>
            Returned (None,
              {| buckets := IndexMap.insert key v m;
                 consumed := wrapping_add_u64 (consumed w) 1; limit := limit w |})
        end
    end.

Fixpoint run (w : t) (calls : list Ledger.entry) : option (list bool) :=
  match calls with
  | [] => Some []
  | c :: calls =>
      match consume w (Ledger.e_key c) (Ledger.e_weight c) (Ledger.e_at c) with
      | Panicked => None
      | Returned (r, w') =>
          match run w' calls with
          | None => None
          | Some ds => Some (bool_decide (r = None) :: ds)
          end
      end
  end.

(** Byte counts are unsigned. *)
Definition unsigned (w : t) : Prop :=
  forall k b, b ∈ vec (buckets w) k -> 0 <= b.2.

Definition inv (w : t) (l : list Ledger.entry) (now : Z) : Prop :=
  IndexMap.wf (buckets w) /\ unsigned w /\ 0 <= limit w <= U64_MAX /\
  Ledger.nonneg l /\ Ledger.bounded (limit w) l /\
  tracks fst snd (vec (buckets w)) l now.

Lemma wsum_nonneg (l : list (Z * Z)) :
  (forall b, b ∈ l -> 0 <= b.2) -> 0 <= wsum snd l.
Proof.
  intros H. apply sumZ_nonneg, Forall_forall. intros z (b & -> & Hb)%list_elem_of_fmap. auto.
Qed.

Lemma total_spec l acc :
  0 <= acc <= U64_MAX -> (forall b, b ∈ l -> 0 <= b.2) ->
  total acc l = if acc + wsum snd l <=? U64_MAX then Some (acc + wsum snd l) else None.
Proof.
  revert acc. induction l as [|[a b] l IH]; intros acc Hacc Hl; simpl.
  - unfold wsum; simpl. by rewrite Z.add_0_r, (proj2 (Z.leb_le _ _)) by lia.
  - assert (0 <= b) by (apply (Hl (a, b)); left).
    assert (0 <= wsum snd l) by (apply wsum_nonneg; intros; apply Hl; by right).
    unfold checked_add_u64. change (wsum snd ((a, b) :: l)) with (b + wsum snd l).
    destruct (acc + b <=? U64_MAX) eqn:E; reflect_bools.
    + rewrite IH by (try lia; intros; apply Hl; by right). by rewrite Z.add_assoc.
    + by rewrite (proj2 (Z.leb_gt _ _)) by lia.
Qed.

(** The quota test is the ledger's test, overflow included. *)
Lemma retry_after_spec w l now key bytes :
  inv w l now -> 0 <= bytes ->
  bool_decide (retry_after w key bytes now = None) =
    Ledger.admits (limit w) l key bytes now.
Proof.
  intros (_ & Hu & Hlim & Hn & Hb & T) Hbytes. unfold retry_after, Ledger.admits, Ledger.usage.
  rewrite <- (tr_live _ _ _ _ _ T key (now - 60000)) by lia.
  assert (Hpos : 0 <= wsum snd (live fst (now - 60000) (vec (buckets w) key))).
  { apply wsum_nonneg. intros b Hb'%live_elem. eapply Hu; eauto. }
  destruct (bytes =? 0) eqn:E0; reflect_bools.
  - rewrite bool_decide_eq_true_2 by done. symmetry. apply Z.leb_le.
    rewrite (tr_live _ _ _ _ _ T) by lia. specialize (Hb key (now - 60000)).
    rewrite (Ledger.between_after l key _ _ now (tr_log_past _ _ _ _ _ T)) in Hb by lia. lia.
  - rewrite total_spec by (unfold U64_MAX; try lia; intros b Hb'%live_elem; eapply Hu; eauto).
    rewrite Z.add_0_l. set (u := wsum snd _) in *. unfold checked_add_u64.
    destruct (u + bytes <=? limit w) eqn:E1; reflect_bools.
    + rewrite (proj2 (Z.leb_le u _)), (proj2 (Z.leb_le (u + bytes) U64_MAX)),
        (proj2 (Z.leb_le bytes _)), (proj2 (Z.leb_le (u + bytes) (limit w))) by lia. done.
    + apply bool_decide_eq_false_2.
      destruct (u <=? U64_MAX), (u + bytes <=? U64_MAX);
        rewrite ?andb_false_r, ?(proj2 (Z.leb_gt (u + bytes) (limit w))), ?andb_false_r by lia; done.
Qed.

Lemma removelast_snoc {A} (l : list A) x : removelast (l ++ [x]) = l.
Proof. apply removelast_last. Qed.

(** Adding a charge to a bucket vector that has room for it. *)
Lemma add_bucket_spec l bytes now :
  sorted_vec fst l -> (forall b, b ∈ l -> b.1 <= now) -> (forall b, b ∈ l -> 0 <= b.2) ->
  0 <= bytes -> wsum snd l + bytes <= U64_MAX ->
  exists v, add_bucket l bytes now = Returned v /\
    sorted_vec fst v /\ (forall b, b ∈ v -> b.1 <= now) /\ (forall b, b ∈ v -> 0 <= b.2) /\
    (forall c, wsum snd (live fst c v) = wsum snd (live fst c l) + if c <? now then bytes else 0).
Proof.
  intros Hs Hp Hu Hb Hsum. unfold add_bucket.
  assert (Hone : forall c x, x.1 = now ->
    wsum snd (live fst c [x]) = if c <? now then x.2 else 0).
  { intros c x <-. unfold live. rewrite filter_cons, filter_nil.
    destruct (c <? x.1) eqn:E; reflect_bools; case_decide; unfold wsum; simpl; lia. }
  assert (Hpush : exists v, Returned (l ++ [(now, bytes)]) = Returned v /\
    sorted_vec fst v /\ (forall b, b ∈ v -> b.1 <= now) /\ (forall b, b ∈ v -> 0 <= b.2) /\
    (forall c, wsum snd (live fst c v) = wsum snd (live fst c l) + if c <? now then bytes else 0)).
  { eexists. split; [done|]. split_and!.
    - apply sorted_push; auto.
    - intros b [?|Hin]%elem_of_app; [auto|]. apply list_elem_of_singleton in Hin; subst; simpl; lia.
    - intros b [?|Hin]%elem_of_app; [auto|]. apply list_elem_of_singleton in Hin; subst; simpl; lia.
    - intros c. rewrite live_app, wsum_app, Hone by done. done. }
  destruct (last l) as [[at_ tot]|] eqn:Hl; [|done].
  destruct (at_ =? now) eqn:E; [|done]. reflect_bools. subst at_.
  apply last_Some in Hl as [l' ->]. rewrite removelast_snoc.
  rewrite wsum_app in Hsum. unfold wsum at 2 in Hsum; simpl in Hsum.
  assert (0 <= wsum snd l') by (apply wsum_nonneg; intros; apply Hu; set_solver).
  assert (0 <= tot) by (apply (Hu (now, tot)); set_solver).
  unfold checked_add_u64. rewrite (proj2 (Z.leb_le _ _)) by lia.
  eexists. split; [done|]. split_and!.
  - unfold sorted_vec in *. by rewrite map_app in *.
  - intros b [?|Hin]%elem_of_app; [apply Hp; set_solver|].
    apply list_elem_of_singleton in Hin; subst; simpl; lia.
  - intros b [?|Hin]%elem_of_app; [apply Hu; set_solver|].
    apply list_elem_of_singleton in Hin; subst; simpl; lia.
  - intros c. rewrite !live_app, !wsum_app, !Hone by done. simpl. case_match; lia.
Qed.

(** A charge of nothing leaves every window as it was. *)
Lemma tracks_zero f l key now :
  tracks (A:=Z*Z) fst snd f l now -> tracks fst snd f (l ++ [Ledger.Entry key now 0]) now.
Proof.
  intros [Hs Hp Hl Hv]. split; auto.
  - apply Forall_app. split; [done|]. repeat constructor. simpl; lia.
  - intros k c Hc. rewrite Ledger.between_app, Ledger.between_single, Hv by done.
    simpl. case_match; lia.
Qed.

Lemma byte_consume_spec w l now key bytes :
  inv w l now -> 0 <= bytes -> len (buckets w) <= 20000 ->
  exists r w',
    consume w key bytes now = Returned (r, w') /\
    bool_decide (r = None) = Ledger.admits (limit w) l key bytes now /\
    inv w' (Ledger.step (limit w) l (Ledger.Entry key now bytes)) now /\
    limit w' = limit w /\
    (forall k, k ∈ IndexMap.keys (buckets w') -> k = key \/ k ∈ IndexMap.keys (buckets w)).
Proof.
  intros Hinv Hbytes Hlen.
  pose proof (retry_after_spec w l now key bytes Hinv Hbytes) as Hret.
  destruct Hinv as (Hwf0 & Hu & Hlim & Hn & Hb & T0).
  assert (Hb' : Ledger.bounded (limit w) (Ledger.step (limit w) l (Ledger.Entry key now bytes))).
  { apply Ledger.step_bounded; simpl; try done; try lia. apply (tr_log_past _ _ _ _ _ T0). }
  assert (Hn' : Ledger.nonneg (Ledger.step (limit w) l (Ledger.Entry key now bytes))).
  { by apply Ledger.step_nonneg. }
  unfold consume. destruct (bytes =? 0) eqn:E0; reflect_bools.
  { subst bytes. eexists _, _. split; [done|]. rewrite <- Hret, bool_decide_eq_true_2 by done.
    unfold retry_after in Hret; simpl in Hret. split_and!; auto.
    unfold inv. split_and!; auto; try lia. unfold Ledger.step; simpl. rewrite <- Hret. simpl.
    by apply tracks_zero. }
  destruct (retry_after w key bytes now) as [retry|] eqn:Er.
  { eexists _, _. split; [done|]. split_and!; auto. unfold Ledger.step in *; simpl in *.
    rewrite <- Hret in *. done. }
  rewrite bool_decide_eq_true_2 in Hret by done.
  destruct (sweep_tracks fst snd (consumed w) 20000 _ l now Hwf0 Hlen T0) as [Hwf T].
  set (m := sweep fst (consumed w) 20000 (now - 60000) (buckets w)) in *.
  assert (Hum : forall k b, b ∈ vec m k -> 0 <= b.2).
  { intros k b Hb0. subst m. unfold sweep in Hb0. case_match; [|by eapply Hu].
    pose proof (retain_length fst (now - 60000) (buckets w)).
    rewrite evict_small in Hb0 by lia. apply vec_retain_elem in Hb0; [|done]. by eapply Hu. }
  destruct (add_bucket_spec (live fst (now - 60000) (vec m key)) bytes now)
    as (v & Ev & Hsv & Hpv & Huv & Hlv).
  - apply live_sorted, (tr_sorted _ _ _ _ _ T).
  - intros b Hx%live_elem. by eapply (tr_past _ _ _ _ _ T).
  - intros b Hx%live_elem. by eapply Hum.
  - done.
  - rewrite (tr_live _ _ _ _ _ T) by lia. symmetry in Hret. unfold Ledger.admits in Hret.
    reflect_bools. unfold Ledger.usage in Hret. lia.
  - rewrite Ev. eexists _, _. split; [done|]. rewrite bool_decide_eq_true_2 by done.
    split_and!; auto; simpl.
    + unfold inv; simpl. split_and!; auto; try lia.
      * by apply IndexMap.wf_insert.
      * intros k b; simpl. rewrite vec_insert. case_decide; eauto.
      * unfold Ledger.step; simpl. rewrite <- Hret.
        eapply tracks_ext; [|apply (tracks_charge fst snd _ _ _ key v bytes T)]; auto.
        -- intros k. by rewrite vec_insert.
        -- intros c Hc. rewrite Hlv, live_idem by done. done.
    + intros k. apply (insert_keys _ _ _ (fun k => k ∈ IndexMap.keys (buckets w))).
      intros k'. apply sweep_keys.
Qed.

(** *** Charges never panic, whatever the clock and the number of keys *)

Definition sane (w : t) : Prop :=
  IndexMap.wf (buckets w) /\ unsigned w /\ 0 <= limit w <= U64_MAX.

Lemma sane_new limit : 0 <= limit <= U64_MAX -> sane (new limit).
Proof. intros Hl. split_and!; simpl; [apply IndexMap.wf_nil| |lia..]. by intros k b Hb%elem_of_nil. Qed.

Lemma retry_after_room w key bytes now :
  sane w -> 0 < bytes -> retry_after w key bytes now = None ->
  wsum snd (live fst (now - 60000) (vec (buckets w) key)) + bytes <= U64_MAX.
Proof.
  intros (_ & Hu & Hl) Hb. unfold retry_after. rewrite (proj2 (Z.eqb_neq _ _)) by lia.
  rewrite total_spec by (unfold U64_MAX; try lia; intros b Hb'%live_elem; eapply Hu; eauto).
  rewrite Z.add_0_l. set (u := wsum snd _). unfold checked_add_u64.
  destruct (u <=? U64_MAX); [|by rewrite andb_false_r].
  destruct (u + bytes <=? U64_MAX) eqn:E; [by reflect_bools|by rewrite andb_false_r].
Qed.

Lemma add_bucket_safe l bytes now :
  (forall b, b ∈ l -> 0 <= b.2) -> 0 <= bytes -> wsum snd l + bytes <= U64_MAX ->
  exists v, add_bucket l bytes now = Returned v /\ (forall b, b ∈ v -> 0 <= b.2).
Proof.
  intros Hu Hb Hsum. unfold add_bucket.
  assert (Hpush : forall (l' : list (Z * Z)) x, (forall b, b ∈ l' -> 0 <= b.2) -> 0 <= x.2 ->
    exists v, Returned (l' ++ [x]) = Returned v /\ (forall b, b ∈ v -> 0 <= b.2)).
  { intros l' x Hl' Hx. eexists. split; [done|]. intros b [?|Hin]%elem_of_app; [auto|].
    apply list_elem_of_singleton in Hin. by subst. }
  destruct (last l) as [[at_ tot]|] eqn:Hl; [|by apply Hpush].
  destruct (at_ =? now); [|by apply Hpush].
  apply last_Some in Hl as [l' ->]. rewrite removelast_snoc.
  rewrite wsum_app in Hsum. unfold wsum at 2 in Hsum; simpl in Hsum.
  assert (0 <= wsum snd l') by (apply wsum_nonneg; intros; apply Hu; set_solver).
  assert (0 <= tot) by (apply (Hu (at_, tot)); set_solver).
  unfold checked_add_u64. rewrite (proj2 (Z.leb_le _ _)) by lia.
  apply Hpush; [|simpl; lia]. intros b Hb'. apply Hu. set_solver.
Qed.

Lemma byte_consume_safe w key bytes now :
  sane w -> 0 <= bytes -> exists r w', consume w key bytes now = Returned (r, w') /\ sane w'.
Proof.
  intros Hs Hb. pose proof Hs as (Hwf & Hu & Hl). unfold consume.
  destruct (bytes =? 0) eqn:E0; [by eexists _, _|]. reflect_bools.
  destruct (retry_after w key bytes now) eqn:Er; [by eexists _, _|].
  apply retry_after_room in Er; [|done|lia].
  pose proof (sweep_sublist fst (consumed w) 20000 (now - 60000) (buckets w)) as Hsub.
  set (m := sweep fst (consumed w) 20000 (now - 60000) (buckets w)) in *.
  assert (Hvec : forall k, vec m k = [] \/ vec m k = vec (buckets w) k).
  { intros k. unfold vec. destruct (IndexMap.sublist_get m _ k Hsub Hwf) as [-> | ->]; auto. }
  assert (Hum : forall k b, b ∈ vec m k -> 0 <= b.2).
  { intros k b. destruct (Hvec k) as [-> | ->]; [by intros ?%elem_of_nil|apply Hu]. }
  destruct (add_bucket_safe (live fst (now - 60000) (vec m key)) bytes now) as (v & -> & Hv).
  - intros b Hx%live_elem. by eapply Hum.
  - done.
  - destruct (Hvec key) as [-> | ->]; [|done]. unfold wsum. simpl.
    assert (0 <= wsum snd (live fst (now - 60000) (vec (buckets w) key))); [|lia].
    apply wsum_nonneg. intros b Hb'%live_elem. by eapply Hu.
  - eexists _, _. split; [done|]. split_and!; simpl; [|intros k b; simpl; rewrite vec_insert|lia..].
    + by eapply IndexMap.wf_insert, IndexMap.sublist_wf.
    + case_decide; [apply Hv|apply Hum].
Qed.

Lemma run_spec_bytes (K : list string) calls : forall w l from,
  inv w l from -> Ledger.ordered from calls -> Ledger.nonneg calls ->
  len (remove_dups K) <= 20000 ->
  (forall k, k ∈ IndexMap.keys (buckets w) -> k ∈ K) ->
  (forall c, c ∈ calls -> Ledger.e_key c ∈ K) ->
  run w calls = Some (Ledger.run (limit w) l calls).1.
Proof.
  induction calls as [|[key now bytes] calls IH];
    intros w l from Hinv Hord Hpos Hcap HK Hcalls; [done|].
  destruct Hord as [Hfrom Hord]; simpl in *. inversion_clear Hpos.
  assert (inv w l now) as Hinv'.
  { destruct Hinv as (? & ? & ? & ? & ? & ?). unfold inv. split_and!; try tauto. by eapply tracks_later. }
  destruct (byte_consume_spec w l now key bytes) as (r & w' & E & Hr & Hi & Hl & Hk); [done|done| |].
  { destruct Hinv. pose proof (keys_bound (buckets w) K). naive_solver lia. }
  rewrite E, (IH w' (Ledger.step (limit w) l (Ledger.Entry key now bytes)) now); rewrite ?Hl; auto.
  - destruct (Ledger.run _ _ _). simpl. by rewrite Hr.
  - intros k [->|?]%Hk; [|auto]. change key with (Ledger.e_key (Ledger.Entry key now bytes)).
    apply Hcalls. by left.
  - intros c ?. apply Hcalls. by right.
Qed.

Lemma inv_new_bytes limit now : 0 <= limit <= U64_MAX -> inv (new limit) [] now.
Proof.
  intros. unfold inv; simpl. split_and!; try lia.
  - apply IndexMap.wf_nil.
  - intros k b Hb. by apply elem_of_nil in Hb.
  - constructor.
  - apply Ledger.bounded_nil. lia.
  - apply tracks_empty.
Qed.

Lemma run_new_bytes limit calls start :
  0 <= limit <= U64_MAX -> Ledger.ordered start calls -> Ledger.nonneg calls ->
  len (remove_dups (map Ledger.e_key calls)) <= 20000 ->
  run (new limit) calls = Some (Ledger.run limit [] calls).1.
Proof.
  intros. apply (run_spec_bytes (map Ledger.e_key calls) calls (new limit) [] start);
    auto using inv_new_bytes.
  - intros k Hk. by apply elem_of_nil in Hk.
  - intros c Hc. apply list_elem_of_fmap. eauto.
Qed.

(** The byte quota takes exactly the decisions of the abstract ledger over
    any sequence of charges with a monotone clock and at most 20000 keys; the
    checked additions of the test and the unchecked addition into the current
    bucket never overflow, so no call panics. *)
Theorem byte_window_refines_ledger (limit start : Z) (calls : list Ledger.entry) :
  0 <= limit <= U64_MAX -> Ledger.ordered start calls -> Ledger.nonneg calls ->
  len (remove_dups (map Ledger.e_key calls)) <= 20000 ->
  run (new limit) calls = Some (Ledger.run limit [] calls).1.
Proof. apply run_new_bytes. Qed.

Lemma byte_window_refines_ledger_witness :
  run (new 100) [Ledger.Entry "a" 0 60; Ledger.Entry "a" 0 40; Ledger.Entry "a" 5 1;
                 Ledger.Entry "b" 6 101; Ledger.Entry "a" 60000 100] =
    Some [true; true; false; false; true].
Proof.
  rewrite (byte_window_refines_ledger 100 0);
    [vm_compute; reflexivity|vm_compute; split; congruence|vm_compute; repeat split; congruence| |
     vm_compute; congruence].
  repeat constructor; simpl; lia.
Defined.

(** No interval of 60 seconds, whatever its alignment, carries more than
    [limit] admitted bytes for one key. *)
Theorem byte_window_rate (limit start : Z) (calls : list Ledger.entry) :
  0 <= limit <= U64_MAX -> Ledger.ordered start calls -> Ledger.nonneg calls ->
  len (remove_dups (map Ledger.e_key calls)) <= 20000 ->
  exists ds, run (new limit) calls = Some ds /\
    forall key a, Ledger.between (Ledger.admitted ds calls) key a (a + 60000) <= limit.
Proof.
  intros Hlim Hord Hn Hcap. eexists. split; [by eapply run_new_bytes|].
  pose proof (Ledger.run_admitted limit calls []) as Ha. simpl in Ha. rewrite <- Ha.
  eapply (Ledger.run_bounded limit _ [] start); auto; try lia; try constructor.
  apply Ledger.bounded_nil. lia.
Qed.

Lemma byte_window_rate_witness :
  exists ds, run (new 10) [Ledger.Entry "a" 0 6; Ledger.Entry "a" 1 6] = Some ds /\
    forall key a, Ledger.between
      (Ledger.admitted ds [Ledger.Entry "a" 0 6; Ledger.Entry "a" 1 6]) key a (a + 60000) <= 10.
Proof.
  apply (byte_window_rate 10 0);
    [vm_compute; split; congruence|vm_compute; repeat split; congruence| |vm_compute; congruence].
  repeat constructor; simpl; lia.
Defined.

End ByteWindow.

(** ** Concurrent holders of a key *)
Module ActiveLimit.

Record t := Make { counts : gmap string Z; limit : Z }.

Definition new (limit : Z) : t := {| counts := ∅; limit := limit |}.

Definition count (a : t) (key : string) : Z := default 0 (counts a !! key).

Definition acquire (a : t) (key : string) : bool * t :=
  let n := count a key in
  if limit a <=? n then (false, a)
  else (true, {| counts := <[key := n + 1]> (counts a); limit := limit a |}).

Definition release (a : t) (key : string) : t :=
  if default 1 (counts a !! key) <=? 1
  then {| counts := delete key (counts a); limit := limit a |}
  else {| counts := <[key := default 0 (counts a !! key) - 1]> (counts a); limit := limit a |}.

Definition total (a : t) : Z := map_fold (fun _ n acc => n + acc) 0 (counts a).

(** Every stored count is between one and the limit. *)
Definition wf (a : t) : Prop := map_Forall (fun _ n => 1 <= n <= limit a) (counts a).

Lemma count_bounds a key : wf a -> 0 <= limit a -> 0 <= count a key <= limit a.
Proof.
  intros Hwf Hl. unfold count. destruct (counts a !! key) eqn:E; simpl; [|lia].
  specialize (Hwf _ _ E). simpl in Hwf. lia.
Qed.

Lemma wf_new limit : wf (new limit).
Proof. apply map_Forall_empty. Qed.

Lemma wf_acquire a key : wf a -> 0 <= limit a -> wf (acquire a key).2.
Proof.
  intros Hwf Hl. pose proof (count_bounds a key Hwf Hl). unfold acquire.
  case_match eqn:E; [done|]. reflect_bools. simpl. unfold wf; simpl.
  apply map_Forall_insert_2; [lia|done].
Qed.

Lemma wf_release a key : wf a -> wf (release a key).
Proof.
  intros Hwf. unfold release. destruct (counts a !! key) as [n|] eqn:E; simpl.
  - pose proof (Hwf _ _ E) as Hn. simpl in Hn. case_match eqn:E1; reflect_bools; unfold wf; simpl.
    + by apply map_Forall_delete.
    + apply map_Forall_insert_2; [lia|done].
  - unfold wf; simpl. by apply map_Forall_delete.
Qed.

Lemma acquire_count a key k ok a' :
  acquire a key = (ok, a') ->
  limit a' = limit a /\
  (ok = bool_decide (count a key < limit a)) /\
  count a' k = count a k + if ok && bool_decide (k = key) then 1 else 0.
Proof.
  unfold acquire. case_match eqn:E; intros; simplify_eq; reflect_bools.
  - rewrite bool_decide_eq_false_2 by lia. simpl. split_and!; [done..|lia].
  - rewrite bool_decide_eq_true_2 by lia. split_and!; [done..|]. simpl. unfold count at 1; simpl.
    rewrite lookup_insert. case_decide; subst.
    + rewrite bool_decide_eq_true_2 by done. done.
    + rewrite bool_decide_eq_false_2 by congruence. unfold count. lia.
Qed.

Lemma release_count a key k :
  wf a ->
  count (release a key) k =
    count a k - if bool_decide (k = key /\ 0 < count a key) then 1 else 0.
Proof.
  intros Hwf. unfold release, count.
  destruct (decide (k = key)) as [->|Hne].
  - destruct (counts a !! key) as [n|] eqn:E; simpl.
    + pose proof (Hwf _ _ E) as Hn; simpl in Hn.
      rewrite bool_decide_eq_true_2 by (split; [done|lia]).
      case_match eqn:E1; reflect_bools; simpl.
      * rewrite lookup_delete_eq. simpl. lia.
      * by rewrite lookup_insert_eq.
    + rewrite lookup_delete_eq. simpl. by rewrite bool_decide_eq_false_2 by lia.
  - rewrite bool_decide_eq_false_2 by tauto. case_match; simpl.
    + rewrite lookup_delete_ne by done. lia.
    + rewrite lookup_insert_ne by done. lia.
Qed.

End ActiveLimit.

(** ** The authentication limiter *)
Module AuthRateLimiter.

Record t := Make {
  attempts : gmap string (list Z);
  order : list string;
  consumed : Z;
  limit : Z;
  window_ms : Z
}.

Definition new (limit : Z) : t :=
  {| attempts := ∅; order := []; consumed := 0; limit := limit; window_ms := 60000 |}.

(** [while attempts.len() > 10000 { ... attempts.remove(order.pop_front()) }]. *)
Fixpoint evict_order (order : list string) (m : gmap string (list Z)) :
  list string * gmap string (list Z) :=
  match order with
  | [] => ([], m)
  | k :: rest =>
      if 10000 <? Z.of_nat (size m) then
        if bool_decide (k = "")%string then (order, m) else evict_order rest (delete k m)
      else (order, m)
  end.

Definition sweep_auth (a : t) (cutoff : Z) : list string * gmap string (list Z) :=
  if wrapping_add_u64 (consumed a) 1 mod 256 =? 0 then
    let m := filter (fun p => cutoff < default 0 (last p.2)) (attempts a) in
    evict_order (filter (fun k => is_Some (m !! k)) (order a)) m
  else (order a, attempts a).

Definition consume (a : t) (key : string) (now : Z) : outcome (option Z * t) :=
  let cutoff := now - window_ms a in
  let '(order1, m1) := sweep_auth a cutoff in
  let '(order2, m2) :=
    match m1 !! key with
    | Some _ => (order1, m1)
    | None => (order1 ++ [key], <[key := []]> m1)
    end in
  let times := live id cutoff (default [] (m2 !! key)) in
  let store v :=
    {| attempts := <[key := v]> m2; order := order2;
       consumed := wrapping_add_u64 (consumed a) 1; limit := limit a;
       window_ms := window_ms a |} in
  if limit a <=? len times then
    match times with
    | [] => Panicked
    | first :: _ =>
        Returned (Some (Z.max (ceil_seconds (first + window_ms a - now)) 1), store times)
    end
  else Returned (None, store (times ++ [now])).

(** The queue lists exactly the keys of the table, once each. *)
Definition queue_wf (order : list string) (m : gmap string (list Z)) : Prop :=
  NoDup order /\ forall k, k ∈ order <-> is_Some (m !! k).

Definition vecs (m : gmap string (list Z)) (k : string) : list Z := default [] (m !! k).

Definition inv (a : t) (l : list Ledger.entry) (now : Z) : Prop :=
  queue_wf (order a) (attempts a) /\ window_ms a = 60000 /\
  tracks id (fun _ => 1) (vecs (attempts a)) l now.

Lemma queue_length order m : queue_wf order m -> length order = size m.
Proof.
  intros [Hn Hd]. rewrite <- size_dom, <- (size_list_to_set (C:=gset string) order) by done.
  f_equal. apply leibniz_equiv. intros k. rewrite elem_of_list_to_set, elem_of_dom. apply Hd.
Qed.

Lemma evict_order_wf order m :
  queue_wf order m ->
  queue_wf (evict_order order m).1 (evict_order order m).2.
Proof.
  revert m. induction order as [|k rest IH]; intros m Hq; simpl; [done|].
  case_match; [|done]. case_match; [done|]. apply IH.
  destruct Hq as [Hn Hd]. apply NoDup_cons in Hn as [Hk Hn]. split; [done|].
  intros k'. destruct (decide (k = k')) as [<-|Hne].
  - rewrite lookup_delete_eq. split; [done|by intros [? ?]].
  - rewrite lookup_delete_ne by done. rewrite <- Hd, elem_of_cons. naive_solver.
Qed.

Lemma sweep_auth_wf a cutoff :
  queue_wf (order a) (attempts a) ->
  queue_wf (sweep_auth a cutoff).1 (sweep_auth a cutoff).2.
Proof.
  intros [Hn Hd]. unfold sweep_auth. case_match; [|done]. apply evict_order_wf. split.
  - by apply NoDup_filter.
  - intros k. rewrite list_elem_of_filter. split; [tauto|]. intros Hs. split; [done|].
    apply Hd. destruct Hs as [v Hv]. apply map_lookup_filter_Some in Hv as [Hv _]. eauto.
Qed.

Lemma sweep_auth_tracks a l now :
  inv a l now -> Z.of_nat (size (attempts a)) <= 10000 ->
  tracks id (fun _ => 1) (vecs (sweep_auth a (now - 60000)).2) l now.
Proof.
  intros (Hq & _ & T) Hsz. pose proof (tr_sorted _ _ _ _ _ T) as Hs.
  pose proof (tr_past _ _ _ _ _ T) as Hp. unfold sweep_auth. case_match; [|done].
  set (m := filter (fun p => now - 60000 < default 0 (last p.2)) (attempts a)).
  assert (Z.of_nat (size m) <= 10000) as Hm.
  { enough (size m <= size (attempts a))%nat by lia.
    rewrite <- !size_dom. apply subseteq_size, dom_filter_subseteq. }
  assert (evict_order (filter (fun k => is_Some (m !! k)) (order a)) m =
          (filter (fun k => is_Some (m !! k)) (order a), m)) as ->.
  { destruct (filter _ (order a)); simpl; [done|]. by rewrite (proj2 (Z.ltb_ge _ _)) by lia. }
  assert (Hc : forall k, vecs m k = vecs (attempts a) k \/
               vecs m k = [] /\ live id (now - 60000) (vecs (attempts a) k) = []).
  { intros k. unfold vecs, m. destruct (attempts a !! k) as [v|] eqn:E.
    - rewrite map_lookup_filter, E; simpl.
      destruct (decide (now - 60000 < default 0 (last v))) as [Hk|Hk].
      + left. by rewrite option_guard_True.
      + right. rewrite option_guard_False by done. split; [done|]. simpl.
        apply dropped_not_live; [specialize (Hs k); unfold vecs in Hs; by rewrite E in Hs|].
        unfold keeps. destruct (last v) eqn:Hl; simpl in *; [|done]. apply Z.ltb_ge. unfold id. lia.
    - left. rewrite map_lookup_filter, E. done. }
  eapply tracks_drop; [done| | |]; simpl.
  - intros k. destruct (Hc k) as [->|[-> _]]; [auto|constructor].
  - intros k x. destruct (Hc k) as [->|[-> _]]; [eauto|by intros ?%elem_of_nil].
  - intros k. destruct (Hc k) as [->|[-> ->]]; done.
Qed.

(** One call of the authentication limiter. *)
Lemma auth_consume_spec a l now key :
  0 < limit a -> inv a l now -> Z.of_nat (size (attempts a)) <= 10000 ->
  exists r a',
    consume a key now = Returned (r, a') /\
    bool_decide (r = None) = Ledger.admits (limit a) l key 1 now /\
    inv a' (Ledger.step (limit a) l (Ledger.Entry key now 1)) now /\
    limit a' = limit a.
Proof.
  intros Hlim Hinv Hsz. pose proof (sweep_auth_tracks a l now Hinv Hsz) as T.
  destruct Hinv as (Hq & Hw & _). pose proof (sweep_auth_wf a (now - 60000) Hq) as Hq1.
  unfold consume. rewrite Hw. destruct (sweep_auth a (now - 60000)) as [order1 m1]; simpl in *.
  destruct (match m1 !! key with Some _ => (order1, m1) | None => (order1 ++ [key], <[key:=[]]> m1) end)
    as [order2 m2] eqn:E2.
  assert (Hq2 : queue_wf order2 m2 /\ key ∈ order2 /\ forall k, vecs m2 k = vecs m1 k).
  { destruct Hq1 as [Hn Hd]. destruct (m1 !! key) as [v|] eqn:Em; simplify_eq.
    - split_and!; [done| |done]. apply Hd. by rewrite Em.
    - assert (key ∉ order1) as Hk by (rewrite Hd, Em; by intros [? ?]).
      split_and!; [split| |].
      + apply NoDup_app. split_and!; [done| |apply NoDup_singleton].
        intros x Hx Hx'. apply list_elem_of_singleton in Hx' as ->. done.
      + intros k. rewrite elem_of_app, list_elem_of_singleton, lookup_insert_is_Some, Hd. naive_solver.
      + apply elem_of_app. right. by apply list_elem_of_singleton.
      + intros k. unfold vecs. rewrite lookup_insert. case_decide; subst; [by rewrite Em|done]. }
  destruct Hq2 as (Hq2 & Hkey & Hvec). clear E2.
  change (default [] (m2 !! key)) with (vecs m2 key).
  assert (T2 : tracks id (fun _ => 1) (vecs m2) l now) by (eapply tracks_ext; [|done]; done).
  assert (Hn : len (live id (now - 60000) (vecs m2 key)) = Ledger.usage l key now).
  { rewrite <- SlidingWindow.wsum_one. unfold Ledger.usage. apply (tr_live _ _ _ _ _ T2). lia. }
  assert (Hstore : forall v, queue_wf order2 (<[key:=v]> m2)).
  { intros v. destruct Hq2 as [Hn2 Hd2]. split; [done|]. intros k.
    rewrite lookup_insert_is_Some, Hd2. split; [destruct (decide (key = k)); tauto|].
    intros [<-|[_ ?]]; [by apply Hd2|done]. }
  assert (Hins : forall v k, (if decide (key = k) then v else vecs m2 k) = vecs (<[key:=v]> m2) k).
  { intros v k. unfold vecs. rewrite lookup_insert. by case_decide. }
  unfold Ledger.step, Ledger.admits; simpl. rewrite Hn.
  destruct (limit a <=? Ledger.usage l key now) eqn:E; reflect_bools.
  - destruct (live id (now - 60000) (vecs m2 key)) as [|t0 ts] eqn:Ets; [simpl in Hn; lia|].
    eexists _, _. split; [done|]. rewrite (proj2 (Z.leb_gt _ _)) by lia.
    rewrite bool_decide_eq_false_2 by done. unfold inv; split_and!; simpl; auto.
    eapply tracks_ext; [|apply (tracks_keep _ _ _ _ _ key T2)]. intros k; simpl. by rewrite Ets.
  - eexists _, _. split; [done|]. rewrite (proj2 (Z.leb_le _ _)) by lia.
    rewrite bool_decide_eq_true_2 by done. unfold inv; split_and!; simpl; auto.
    eapply tracks_ext; [|apply (tracks_push id (fun _ => 1) _ _ _ key now T2 eq_refl)].
    intros k; simpl. auto.
Qed.

(** One call of the authentication limiter, on a table within its 10000
    key capacity that agrees with a log of admissions, takes the decision of
    the abstract ledger, keeps agreeing with the extended log, and keeps the
    eviction queue listing exactly the keys of the table, once each. *)
Theorem auth_limiter_refines_ledger (a : t) (l : list Ledger.entry) (now : Z) (key : string) :
  0 < limit a -> inv a l now -> Z.of_nat (size (attempts a)) <= 10000 ->
  exists r a',
    consume a key now = Returned (r, a') /\
    bool_decide (r = None) = Ledger.admits (limit a) l key 1 now /\
    inv a' (Ledger.step (limit a) l (Ledger.Entry key now 1)) now /\
    limit a' = limit a.
Proof. apply auth_consume_spec. Qed.

Lemma auth_limiter_refines_ledger_witness :
  exists r a',
    consume (new 3) "login" 5 = Returned (r, a') /\
    bool_decide (r = None) = Ledger.admits 3 [] "login" 1 5 /\
    inv a' (Ledger.step 3 [] (Ledger.Entry "login" 5 1)) 5 /\
    limit a' = 3.
Proof.
  apply (auth_limiter_refines_ledger (new 3) [] 5 "login"); [vm_compute; done| |vm_compute; congruence].
  unfold inv; simpl. split_and!; [|done|].
  - split; [apply NoDup_nil_2|]. intros k. rewrite lookup_empty, elem_of_nil. split; [done|by intros [? ?]].
  - eapply tracks_ext; [|apply tracks_empty]. intros k. unfold vecs. by rewrite lookup_empty.
Defined.

End AuthRateLimiter.
