(* ===== verification/Quotas.v ===== *)
(** * Relay quotas

    [RelayQuotas] models src/cantrip_server_rs/src/relay/quotas.rs: the account
    and worker byte windows for relayed and uploaded bytes, and the account and
    worker counts of live Remote Surface permits. A [SurfacePermit] is the pair
    it releases when dropped. *)
From S2P Require Import Prelude Limits.
From stdpp Require Import base numbers gmap strings sorting list.
Open Scope Z_scope.

Module RelayQuotas.

Record RelayLimitError := LimitError {
  message : string;
  retry_after_seconds : Z;
  not_dispatched : bool
}.

Definition new_error (message : string) (retry : Z) : RelayLimitError :=
  {| message := message; retry_after_seconds := retry; not_dispatched := false |}.

Definition before_dispatch (e : RelayLimitError) : RelayLimitError :=
  {| message := message e; retry_after_seconds := retry_after_seconds e; not_dispatched := true |}.

Record RelayQuotaStats := Stats {
  active_remote_surfaces : Z;
  rejected_relay_bandwidth : Z;
  rejected_remote_surfaces : Z;
  rejected_uploads : Z;
  relay_bytes : Z;
  upload_bytes : Z
}.

Record State := Make {
  account_relay : ByteWindow.t;
  worker_relay : ByteWindow.t;
  account_upload : ByteWindow.t;
  worker_upload : ByteWindow.t;
  account_surfaces : ActiveLimit.t;
  worker_surfaces : ActiveLimit.t;
  stats : RelayQuotaStats
}.

Record SurfacePermit := Permit { p_owner : string; p_worker : string }.

Definition with_limits (ar wr au wu asf wsf : Z) : State :=
  {| account_relay := ByteWindow.new ar; worker_relay := ByteWindow.new wr;
     account_upload := ByteWindow.new au; worker_upload := ByteWindow.new wu;
     account_surfaces := ActiveLimit.new asf; worker_surfaces := ActiveLimit.new wsf;
     stats := Stats 0 0 0 0 0 0 |}.

Definition set_surfaces (s : State) (a w : ActiveLimit.t) (st : RelayQuotaStats) : State :=
  {| account_relay := account_relay s; worker_relay := worker_relay s;
     account_upload := account_upload s; worker_upload := worker_upload s;
     account_surfaces := a; worker_surfaces := w; stats := st |}.

Definition set_stats (s : State) (st : RelayQuotaStats) : State :=
  set_surfaces s (account_surfaces s) (worker_surfaces s) st.

Definition reject_surface (st : RelayQuotaStats) : RelayQuotaStats :=
  {| active_remote_surfaces := active_remote_surfaces st;
     rejected_relay_bandwidth := rejected_relay_bandwidth st;
     rejected_remote_surfaces := rejected_remote_surfaces st + 1;
     rejected_uploads := rejected_uploads st;
     relay_bytes := relay_bytes st; upload_bytes := upload_bytes st |}.

(** [RelayQuotas::acquire_surface]: the account slot first, given back when the
    worker has none. *)
Definition acquire_surface (s : State) (owner worker : string) :
  (SurfacePermit + RelayLimitError) * State :=
  let '(ok_a, a) := ActiveLimit.acquire (account_surfaces s) owner in
  if negb ok_a then
    (inr (new_error "Account Remote Surface connection quota reached." 1),
     set_surfaces s a (worker_surfaces s) (reject_surface (stats s)))
  else
    let '(ok_w, w) := ActiveLimit.acquire (worker_surfaces s) worker in
    if negb ok_w then
      (inr (new_error "Worker Remote Surface connection quota reached." 1),
       set_surfaces s (ActiveLimit.release a owner) w (reject_surface (stats s)))
    else (inl (Permit owner worker), set_surfaces s a w (stats s)).

(** [Drop for SurfacePermit]. *)
Definition drop_permit (s : State) (p : SurfacePermit) : State :=
  let w := ActiveLimit.release (worker_surfaces s) (p_worker p) in
  let a := ActiveLimit.release (account_surfaces s) (p_owner p) in
  set_surfaces s a w (stats s).

Definition consume_upload_at (s : State) (owner worker : string) (bytes now : Z) :
  outcome ((unit + RelayLimitError) * State) :=
  let account := default 0 (ByteWindow.retry_after (account_upload s) owner bytes now) in
  let worker_retry := default 0 (ByteWindow.retry_after (worker_upload s) worker bytes now) in
  let retry := Z.max account worker_retry in
  let st := stats s in
  if 0 <? retry then
    Returned (inr (new_error "Attachment upload byte quota reached. Retry later." retry),
      set_stats s
        {| active_remote_surfaces := active_remote_surfaces st;
           rejected_relay_bandwidth := rejected_relay_bandwidth st;
           rejected_remote_surfaces := rejected_remote_surfaces st;
           rejected_uploads := rejected_uploads st + 1;
           relay_bytes := relay_bytes st; upload_bytes := upload_bytes st |})
  else
    let! (_, a) := ByteWindow.consume (account_upload s) owner bytes now in
    let! (_, w) := ByteWindow.consume (worker_upload s) worker bytes now in
    Returned (inl tt,
      {| account_relay := account_relay s; worker_relay := worker_relay s;
         account_upload := a; worker_upload := w;
         account_surfaces := account_surfaces s; worker_surfaces := worker_surfaces s;
         stats := {| active_remote_surfaces := active_remote_surfaces st;
                     rejected_relay_bandwidth := rejected_relay_bandwidth st;
                     rejected_remote_surfaces := rejected_remote_surfaces st;
                     rejected_uploads := rejected_uploads st;
                     relay_bytes := relay_bytes st; upload_bytes := upload_bytes st + bytes |} |}).

Definition consume_relay_at (s : State) (owner worker : string) (bytes now : Z) :
  outcome (bool * State) :=
  let st := stats s in
  if match ByteWindow.retry_after (account_relay s) owner bytes now with
     | Some _ => true
     | None =>
         match ByteWindow.retry_after (worker_relay s) worker bytes now with
         | Some _ => true
         | None => false
         end
     end
  then
    Returned (false,
      set_stats s
        {| active_remote_surfaces := active_remote_surfaces st;
           rejected_relay_bandwidth := rejected_relay_bandwidth st + 1;
           rejected_remote_surfaces := rejected_remote_surfaces st;
           rejected_uploads := rejected_uploads st;
           relay_bytes := relay_bytes st; upload_bytes := upload_bytes st |})
  else
    let! (_, a) := ByteWindow.consume (account_relay s) owner bytes now in
    let! (_, w) := ByteWindow.consume (worker_relay s) worker bytes now in
    Returned (true,
      {| account_relay := a; worker_relay := w;
         account_upload := account_upload s; worker_upload := worker_upload s;
         account_surfaces := account_surfaces s; worker_surfaces := worker_surfaces s;
         stats := {| active_remote_surfaces := active_remote_surfaces st;
                     rejected_relay_bandwidth := rejected_relay_bandwidth st;
                     rejected_remote_surfaces := rejected_remote_surfaces st;
                     rejected_uploads := rejected_uploads st;
                     relay_bytes := relay_bytes st + bytes; upload_bytes := upload_bytes st |} |}).

(** [RelayQuotas::stats]. *)
Definition get_stats (s : State) : RelayQuotaStats :=
  {| active_remote_surfaces := ActiveLimit.total (account_surfaces s);
     rejected_relay_bandwidth := rejected_relay_bandwidth (stats s);
     rejected_remote_surfaces := rejected_remote_surfaces (stats s);
     rejected_uploads := rejected_uploads (stats s);
     relay_bytes := relay_bytes (stats s); upload_bytes := upload_bytes (stats s) |}.

(** ** Permits *)

Definition held_by (f : SurfacePermit -> string) (k : string) (P : list SurfacePermit) : Z :=
  len (filter (fun p => f p = k) P).

(** The two counters count the live permits [P]. *)
Record permits (s : State) (P : list SurfacePermit) : Prop := {
  pm_awf : ActiveLimit.wf (account_surfaces s);
  pm_wwf : ActiveLimit.wf (worker_surfaces s);
  pm_alim : 0 <= ActiveLimit.limit (account_surfaces s);
  pm_wlim : 0 <= ActiveLimit.limit (worker_surfaces s);
  pm_account : forall k, ActiveLimit.count (account_surfaces s) k = held_by p_owner k P;
  pm_worker : forall k, ActiveLimit.count (worker_surfaces s) k = held_by p_worker k P
}.

(** Live permits as the operations produce and drop them. *)
Inductive reachable (ar wr au wu asf wsf : Z) : State -> list SurfacePermit -> Prop :=
| reach_new : reachable ar wr au wu asf wsf (with_limits ar wr au wu asf wsf) []
| reach_acquire s P owner worker r s' :
    reachable ar wr au wu asf wsf s P ->
    acquire_surface s owner worker = (r, s') ->
    reachable ar wr au wu asf wsf s' (match r with inl p => p :: P | inr _ => P end)
| reach_drop s P1 p P2 :
    reachable ar wr au wu asf wsf s (P1 ++ p :: P2) ->
    reachable ar wr au wu asf wsf (drop_permit s p) (P1 ++ P2)
| reach_relay s P owner worker bytes now r s' :
    reachable ar wr au wu asf wsf s P ->
    consume_relay_at s owner worker bytes now = Returned (r, s') ->
    reachable ar wr au wu asf wsf s' P
| reach_upload s P owner worker bytes now r s' :
    reachable ar wr au wu asf wsf s P ->
    consume_upload_at s owner worker bytes now = Returned (r, s') ->
    reachable ar wr au wu asf wsf s' P.

Lemma held_by_cons f k p P :
  held_by f k (p :: P) = held_by f k P + if bool_decide (k = f p) then 1 else 0.
Proof.
  unfold held_by. rewrite filter_cons. case_decide; case_bool_decide; simpl; try congruence; lia.
Qed.

Lemma held_by_middle f k P1 p P2 : held_by f k (P1 ++ p :: P2) = held_by f k (p :: P1 ++ P2).
Proof.
  unfold held_by. f_equal. apply Permutation_length. by rewrite Permutation_middle.
Qed.

Lemma release_held a f P k p :
  ActiveLimit.wf a -> (forall k, ActiveLimit.count a k = held_by f k (p :: P)) ->
  ActiveLimit.count (ActiveLimit.release a (f p)) k = held_by f k P.
Proof.
  intros Hwf Hc. rewrite ActiveLimit.release_count, Hc by done.
  assert (0 < ActiveLimit.count a (f p)).
  { rewrite Hc, held_by_cons, bool_decide_eq_true_2 by done. unfold held_by. lia. }
  rewrite held_by_cons. repeat case_bool_decide; try lia; naive_solver.
Qed.

Lemma acquire_permits s P owner worker r s' :
  permits s P -> acquire_surface s owner worker = (r, s') ->
  permits s' (match r with inl p => p :: P | inr _ => P end).
Proof.
  intros [Haw Hww Hal Hwl Ha Hw] Hacq. unfold acquire_surface in Hacq.
  pose proof (ActiveLimit.wf_acquire (account_surfaces s) owner Haw Hal) as Haw'.
  pose proof (ActiveLimit.wf_acquire (worker_surfaces s) worker Hww Hwl) as Hww'.
  destruct (ActiveLimit.acquire (account_surfaces s) owner) as [ok_a a] eqn:Ea.
  pose proof (fun k => ActiveLimit.acquire_count _ _ k _ _ Ea) as Ca.
  destruct (Ca owner) as (La & Ra & _).
  destruct ok_a; simpl in *; simplify_eq.
  - destruct (ActiveLimit.acquire (worker_surfaces s) worker) as [ok_w w] eqn:Ew.
    pose proof (fun k => ActiveLimit.acquire_count _ _ k _ _ Ew) as Cw.
    destruct (Cw worker) as (Lw & Rw & _).
    assert (Hcons : forall k, ActiveLimit.count a k = held_by p_owner k (Permit owner worker :: P)).
    { intros k. destruct (Ca k) as (_ & _ & ->). rewrite Ha, held_by_cons. done. }
    destruct ok_w; simpl in *; simplify_eq; split; simpl; auto; rewrite ?La, ?Lw; auto.
    + intros k. destruct (Cw k) as (_ & _ & ->). rewrite Hw, held_by_cons. done.
    + by apply ActiveLimit.wf_release.
    + unfold ActiveLimit.release. case_match; simpl; rewrite La; lia.
    + intros k. by apply (release_held a p_owner P k (Permit owner worker)).
    + intros k. destruct (Cw k) as (_ & _ & ->). rewrite Hw. simpl. lia.
  - split; simpl; auto; rewrite ?La; auto.
    intros k. destruct (Ca k) as (_ & _ & ->). rewrite Ha. simpl. lia.
Qed.

Lemma drop_permits s P1 p P2 :
  permits s (P1 ++ p :: P2) -> permits (drop_permit s p) (P1 ++ P2).
Proof.
  intros [Haw Hww Hal Hwl Ha Hw]. split; simpl.
  - by apply ActiveLimit.wf_release.
  - by apply ActiveLimit.wf_release.
  - unfold ActiveLimit.release. case_match; done.
  - unfold ActiveLimit.release. case_match; done.
  - intros k. apply release_held; [done|]. intros k'. by rewrite Ha, held_by_middle.
  - intros k. apply release_held; [done|]. intros k'. by rewrite Hw, held_by_middle.
Qed.

Lemma byte_ops_surfaces s owner worker bytes now :
  (forall r s', consume_relay_at s owner worker bytes now = Returned (r, s') ->
     account_surfaces s' = account_surfaces s /\ worker_surfaces s' = worker_surfaces s) /\
  (forall r s', consume_upload_at s owner worker bytes now = Returned (r, s') ->
     account_surfaces s' = account_surfaces s /\ worker_surfaces s' = worker_surfaces s).
Proof.
  split; intros r s'; unfold consume_relay_at, consume_upload_at, obind;
    intros; hyp_cases; simplify_eq; done.
Qed.

Lemma permits_perm s P Q : P ≡ₚ Q -> permits s P -> permits s Q.
Proof.
  intros HPQ [Haw Hww Hal Hwl Ha Hw].
  assert (E : forall f k, held_by f k P = held_by f k Q).
  { intros f k. unfold held_by. by rewrite HPQ. }
  split; auto; intros k; rewrite <- E; auto.
Qed.

(** The surface limits never change. *)
Definition surface_limits (s : State) : Z * Z :=
  (ActiveLimit.limit (account_surfaces s), ActiveLimit.limit (worker_surfaces s)).

Lemma limit_release a k : ActiveLimit.limit (ActiveLimit.release a k) = ActiveLimit.limit a.
Proof. unfold ActiveLimit.release. by case_match. Qed.

Lemma limit_acquire a k : ActiveLimit.limit (ActiveLimit.acquire a k).2 = ActiveLimit.limit a.
Proof.
  destruct (ActiveLimit.acquire a k) as [ok a'] eqn:E.
  by destruct (ActiveLimit.acquire_count _ _ k _ _ E) as (? & _).
Qed.

Lemma acquire_limits s o k : surface_limits (acquire_surface s o k).2 = surface_limits s.
Proof.
  unfold acquire_surface, surface_limits.
  pose proof (limit_acquire (account_surfaces s) o) as La.
  pose proof (limit_acquire (worker_surfaces s) k) as Lw.
  destruct (ActiveLimit.acquire (account_surfaces s) o) as [[] a]; simpl in *; [|by rewrite La].
  destruct (ActiveLimit.acquire (worker_surfaces s) k) as [[] w]; simpl in *; by rewrite ?limit_release, La, Lw.
Qed.

Lemma drop_limits s p : surface_limits (drop_permit s p) = surface_limits s.
Proof. unfold surface_limits. simpl. by rewrite !limit_release. Qed.

Lemma reachable_permits ar wr au wu asf wsf s P :
  0 <= asf -> 0 <= wsf -> reachable ar wr au wu asf wsf s P -> permits s P.
Proof.
  intros Ha Hw. induction 1 as [|s P owner worker r s' _ IH Hacq|s P1 p P2 _ IH|
    s P owner worker bytes now r s' _ IH Hc|s P owner worker bytes now r s' _ IH Hc].
  - split; simpl; auto using ActiveLimit.wf_new; intros k; unfold ActiveLimit.count; simpl;
      by rewrite lookup_empty.
  - by eapply acquire_permits.
  - by apply drop_permits.
  - destruct (byte_ops_surfaces s owner worker bytes now) as [E _].
    destruct (E _ _ Hc) as [Ea Ew]. destruct IH. split; by rewrite ?Ea, ?Ew.
  - destruct (byte_ops_surfaces s owner worker bytes now) as [_ E].
    destruct (E _ _ Hc) as [Ea Ew]. destruct IH. split; by rewrite ?Ea, ?Ew.
Qed.

(** After any sequence of acquisitions, drops and byte charges, each account
    and worker counter equals the number of live permits it backs, and never
    exceeds its limit; in particular a permit refused by the worker quota has
    returned its account slot. *)
Theorem permits_counted_and_bounded (ar wr au wu asf wsf : Z) (s : State) (P : list SurfacePermit) :
  0 <= asf -> 0 <= wsf -> reachable ar wr au wu asf wsf s P ->
  (forall k, ActiveLimit.count (account_surfaces s) k = held_by p_owner k P /\
             held_by p_owner k P <= ActiveLimit.limit (account_surfaces s)) /\
  (forall k, ActiveLimit.count (worker_surfaces s) k = held_by p_worker k P /\
             held_by p_worker k P <= ActiveLimit.limit (worker_surfaces s)).
Proof.
  intros Ha Hw Hr. destruct (reachable_permits _ _ _ _ _ _ _ _ Ha Hw Hr) as [Haw Hww Hal Hwl Ea Ew].
  split; intros k.
  - rewrite <- Ea. pose proof (ActiveLimit.count_bounds _ k Haw Hal). lia.
  - rewrite <- Ew. pose proof (ActiveLimit.count_bounds _ k Hww Hwl). lia.
Qed.

Lemma permits_counted_and_bounded_witness :
  exists s P, reachable 0 0 0 0 2 1 s P /\
    ActiveLimit.count (account_surfaces s) "o" = held_by p_owner "o" P.
Proof.
  pose (s0 := with_limits 0 0 0 0 2 1).
  pose (s1 := (acquire_surface s0 "o" "w").2).
  pose (s2 := (acquire_surface s1 "o" "w").2).
  exists s2, [Permit "o" "w"].
  assert (reachable 0 0 0 0 2 1 s1 [Permit "o" "w"]) as Hr1.
  { exact (reach_acquire 0 0 0 0 2 1 s0 [] "o" "w" (inl (Permit "o" "w")) s1
             (reach_new 0 0 0 0 2 1) eq_refl). }
  assert (reachable 0 0 0 0 2 1 s2 [Permit "o" "w"]) as Hr.
  { exact (reach_acquire 0 0 0 0 2 1 s1 _ "o" "w" (acquire_surface s1 "o" "w").1 s2 Hr1 eq_refl). }
  split; [exact Hr|].
  exact (proj1 (proj1 (permits_counted_and_bounded 0 0 0 0 2 1 _ _ ltac:(lia) ltac:(lia) Hr) "o"%string)).
Defined.

(** ** Byte quotas *)

(** Charging a window whose own test accepts. *)
Lemma charge_accepted w l now key bytes :
  ByteWindow.inv w l now -> 0 <= bytes -> len (ByteWindow.buckets w) <= 20000 ->
  ByteWindow.retry_after w key bytes now = None ->
  exists w', ByteWindow.consume w key bytes now = Returned (None, w') /\
    ByteWindow.inv w' (l ++ [Ledger.Entry key now bytes]) now.
Proof.
  intros Hinv Hb Hlen Hret.
  destruct (ByteWindow.byte_consume_spec w l now key bytes Hinv Hb Hlen) as (r & w' & E & Hr & Hi & _ & _).
  pose proof (ByteWindow.retry_after_spec w l now key bytes Hinv Hb) as Ha.
  rewrite bool_decide_eq_true_2 in Ha by done. rewrite <- Ha in Hr. reflect_bools. subst r.
  exists w'. split; [done|]. unfold Ledger.step in Hi; simpl in Hi. by rewrite <- Ha in Hi.
Qed.

Lemma retry_positive w key bytes now s :
  ByteWindow.retry_after w key bytes now = Some s -> 1 <= s.
Proof. unfold ByteWindow.retry_after. intros. hyp_cases; simplify_eq; lia. Qed.

(** A relay charge does not panic, whatever the clock and however many keys. *)
Lemma consume_relay_safe s owner worker bytes now :
  ByteWindow.sane (account_relay s) -> ByteWindow.sane (worker_relay s) -> 0 <= bytes ->
  exists ok s', consume_relay_at s owner worker bytes now = Returned (ok, s') /\
    ByteWindow.sane (account_relay s') /\ ByteWindow.sane (worker_relay s').
Proof.
  intros Sa Sw Hb. unfold consume_relay_at.
  destruct (match ByteWindow.retry_after _ owner _ _ with Some _ => _ | None => _ end); [by eexists _, _|].
  destruct (ByteWindow.byte_consume_safe _ owner bytes now Sa Hb) as (r & a & -> & Sa').
  destruct (ByteWindow.byte_consume_safe _ worker bytes now Sw Hb) as (r' & w & -> & Sw').
  simpl. by eexists _, _.
Qed.

(** A relay charge is atomic over the account and the worker window: it is
    accepted exactly when both ledgers admit it and then charges both; when
    refused, neither window changes and one rejection is counted. *)
Theorem relay_charge_atomic (s : State) (la lw : list Ledger.entry) (owner worker : string)
    (bytes now : Z) :
  ByteWindow.inv (account_relay s) la now -> ByteWindow.inv (worker_relay s) lw now ->
  len (ByteWindow.buckets (account_relay s)) <= 20000 ->
  len (ByteWindow.buckets (worker_relay s)) <= 20000 -> 0 <= bytes ->
  exists ok s', consume_relay_at s owner worker bytes now = Returned (ok, s') /\
    ok = Ledger.admits (ByteWindow.limit (account_relay s)) la owner bytes now &&
         Ledger.admits (ByteWindow.limit (worker_relay s)) lw worker bytes now /\
    if ok then
      ByteWindow.inv (account_relay s') (la ++ [Ledger.Entry owner now bytes]) now /\
      ByteWindow.inv (worker_relay s') (lw ++ [Ledger.Entry worker now bytes]) now /\
      relay_bytes (stats s') = relay_bytes (stats s) + bytes
    else
      account_relay s' = account_relay s /\ worker_relay s' = worker_relay s /\
      relay_bytes (stats s') = relay_bytes (stats s) /\
      rejected_relay_bandwidth (stats s') = rejected_relay_bandwidth (stats s) + 1.
Proof.
  intros Ia Iw La Lw Hb.
  pose proof (ByteWindow.retry_after_spec _ _ _ owner bytes Ia Hb) as Ra.
  pose proof (ByteWindow.retry_after_spec _ _ _ worker bytes Iw Hb) as Rw.
  unfold consume_relay_at. rewrite <- Ra, <- Rw.
  destruct (ByteWindow.retry_after (account_relay s) owner bytes now) eqn:Ea; [eexists _, _; done|].
  destruct (ByteWindow.retry_after (worker_relay s) worker bytes now) eqn:Ew; [eexists _, _; done|].
  destruct (charge_accepted _ _ _ _ _ Ia Hb La Ea) as (a & -> & Ia').
  destruct (charge_accepted _ _ _ _ _ Iw Hb Lw Ew) as (w & -> & Iw').
  simpl. eexists _, _. split; [done|]. done.
Qed.

Lemma relay_charge_atomic_witness :
  exists ok s', consume_relay_at (with_limits 10 5 0 0 1 1) "o" "w" 7 0 = Returned (ok, s') /\
    ok = false.
Proof.
  destruct (relay_charge_atomic (with_limits 10 5 0 0 1 1) [] [] "o" "w" 7 0)
    as (ok & s' & E & Hok & _).
  - apply ByteWindow.inv_new_bytes. vm_compute. split; congruence.
  - apply ByteWindow.inv_new_bytes. vm_compute. split; congruence.
  - vm_compute. congruence.
  - vm_compute. congruence.
  - lia.
  - exists ok, s'. split; [exact E|]. rewrite Hok. vm_compute. reflexivity.
Defined.

(** An upload charge behaves the same, and a refusal carries the larger of
    the two retry delays, which is positive. *)
Theorem upload_charge_atomic (s : State) (la lw : list Ledger.entry) (owner worker : string)
    (bytes now : Z) :
  ByteWindow.inv (account_upload s) la now -> ByteWindow.inv (worker_upload s) lw now ->
  len (ByteWindow.buckets (account_upload s)) <= 20000 ->
  len (ByteWindow.buckets (worker_upload s)) <= 20000 -> 0 <= bytes ->
  exists r s', consume_upload_at s owner worker bytes now = Returned (r, s') /\
    match r with
    | inl _ =>
        Ledger.admits (ByteWindow.limit (account_upload s)) la owner bytes now = true /\
        Ledger.admits (ByteWindow.limit (worker_upload s)) lw worker bytes now = true /\
        ByteWindow.inv (account_upload s') (la ++ [Ledger.Entry owner now bytes]) now /\
        ByteWindow.inv (worker_upload s') (lw ++ [Ledger.Entry worker now bytes]) now
    | inr e =>
        (Ledger.admits (ByteWindow.limit (account_upload s)) la owner bytes now = false \/
         Ledger.admits (ByteWindow.limit (worker_upload s)) lw worker bytes now = false) /\
        1 <= retry_after_seconds e /\
        account_upload s' = account_upload s /\ worker_upload s' = worker_upload s
    end.
Proof.
  intros Ia Iw La Lw Hb.
  pose proof (ByteWindow.retry_after_spec _ _ _ owner bytes Ia Hb) as Ra.
  pose proof (ByteWindow.retry_after_spec _ _ _ worker bytes Iw Hb) as Rw.
  pose proof (retry_positive (account_upload s) owner bytes now) as Pa.
  pose proof (retry_positive (worker_upload s) worker bytes now) as Pw.
  unfold consume_upload_at. rewrite <- Ra, <- Rw.
  destruct (ByteWindow.retry_after (account_upload s) owner bytes now) as [ra|] eqn:Ea; simpl.
  { specialize (Pa ra eq_refl). rewrite (proj2 (Z.ltb_lt _ _)) by lia.
    eexists _, _. split; [done|]. simpl. split_and!; auto; lia. }
  destruct (ByteWindow.retry_after (worker_upload s) worker bytes now) as [rw|] eqn:Ew; simpl.
  { specialize (Pw rw eq_refl). rewrite (proj2 (Z.ltb_lt _ _)) by lia.
    eexists _, _. split; [done|]. simpl. split_and!; auto; lia. }
  destruct (charge_accepted _ _ _ _ _ Ia Hb La Ea) as (a & -> & Ia').
  destruct (charge_accepted _ _ _ _ _ Iw Hb Lw Ew) as (w & -> & Iw').
  simpl. eexists _, _. split; [done|]. done.
Qed.

Lemma upload_charge_atomic_witness :
  exists r s', consume_upload_at (with_limits 0 0 10 5 1 1) "o" "w" 4 0 = Returned (r, s').
Proof.
  destruct (upload_charge_atomic (with_limits 0 0 10 5 1 1) [] [] "o" "w" 4 0)
    as (r & s' & E & _);
    [apply ByteWindow.inv_new_bytes; vm_compute; split; congruence
    |apply ByteWindow.inv_new_bytes; vm_compute; split; congruence
    |vm_compute; congruence|vm_compute; congruence|lia|].
  exists r, s'. exact E.
Defined.

End RelayQuotas.
