(* ===== verification/Frames.v ===== *)
(** * Binary carrier frames

    The four length-prefixed carriers of the server:
    [WorkerLinkFrame] and [RemoteChunk] ([Assembler]) model
    src/cantrip_server_rs/src/worker_links/frame.rs, [TunnelFrame] models
    src/cantrip_server_rs/src/tunnels/frame.rs and [SurfaceFrame] models
    src/cantrip_server_rs/src/remote_surfaces/frame.rs. A frame is four magic
    bytes, a big-endian [u32] header length, the JSON header and the payload.

    The JSON text of a header and its schema belong to the wire layer, which the
    codecs use through the interface [HeaderCodec]. Nothing is assumed of it: the
    round trips of the carriers are for headers whose text reads back
    ([reads_back]); that of JSON text is [WireRead]. *)
From S2P Require Import Prelude.
From stdpp Require Import base numbers gmap strings sorting list.
From Stdlib Require Import Strings.Byte.
Open Scope Z_scope.

#[export] Instance byte_eq_decision : EqDecision byte := Byte.byte_eq_dec.

(** ** Bytes and big-endian words *)

Definition byte_of_Z (z : Z) : byte :=
  match Byte.of_N (Z.to_N (z mod 256)) with Some b => b | None => x00 end.
Definition Z_of_byte (b : byte) : Z := Z.of_N (Byte.to_N b).

(** [(v as u32).to_be_bytes()]. *)
Definition to_be_bytes (v : Z) : list byte :=
  [byte_of_Z (v / 2 ^ 24); byte_of_Z (v / 2 ^ 16); byte_of_Z (v / 2 ^ 8); byte_of_Z v].

(** [u32::from_be_bytes]. *)
Definition from_be_bytes (l : list byte) : Z :=
  foldl (fun acc b => acc * 256 + Z_of_byte b) 0 l.

(** [&bytes[a..b]], used only behind the length checks of the callers. *)
Definition slice {A} (a b : nat) (l : list A) : list A := take (b - a) (drop a l).

Definition starts_with (magic l : list byte) : bool :=
  bool_decide (take (length magic) l = magic).

Lemma Z_of_byte_range b : 0 <= Z_of_byte b < 256.
Proof. unfold Z_of_byte. pose proof (Byte.to_N_bounded b). lia. Qed.

Lemma Z_of_byte_of_Z z : Z_of_byte (byte_of_Z z) = z mod 256.
Proof.
  unfold Z_of_byte, byte_of_Z. pose proof (Z.mod_pos_bound z 256 ltac:(lia)).
  destruct (Byte.of_N (Z.to_N (z mod 256))) as [b|] eqn:E.
  - apply Byte.to_of_N in E. rewrite E. lia.
  - apply Byte.of_N_None_iff in E. lia.
Qed.

Lemma byte_of_Z_of_byte b : byte_of_Z (Z_of_byte b) = b.
Proof. destruct b; reflexivity. Qed.

Lemma length_to_be_bytes v : length (to_be_bytes v) = 4%nat.
Proof. done. Qed.

Lemma from_to_be_bytes v : 0 <= v < 2 ^ 32 -> from_be_bytes (to_be_bytes v) = v.
Proof.
  intros Hv. unfold from_be_bytes, to_be_bytes; simpl foldl. rewrite !Z_of_byte_of_Z.
  Z.to_euclidean_division_equations. lia.
Qed.

Lemma from_be_bytes_range l : length l = 4%nat -> 0 <= from_be_bytes l < 2 ^ 32.
Proof.
  intros Hl. do 5 (destruct l as [|? l]; try done).
  unfold from_be_bytes; simpl foldl.
  pose proof (Z_of_byte_range b). pose proof (Z_of_byte_range b0).
  pose proof (Z_of_byte_range b1). pose proof (Z_of_byte_range b2). lia.
Qed.

Lemma to_from_be_bytes l : length l = 4%nat -> to_be_bytes (from_be_bytes l) = l.
Proof.
  intros Hl. do 5 (destruct l as [|? l]; try done).
  unfold from_be_bytes, to_be_bytes; simpl foldl.
  pose proof (Z_of_byte_range b). pose proof (Z_of_byte_range b0).
  pose proof (Z_of_byte_range b1). pose proof (Z_of_byte_range b2).
  assert (Hm : forall x y, x mod 256 = Z_of_byte y -> byte_of_Z x = y).
  { intros x y E. rewrite <- (byte_of_Z_of_byte y), <- E. unfold byte_of_Z.
    by rewrite Zmod_mod. }
  repeat f_equal; apply Hm; Z.to_euclidean_division_equations; lia.
Qed.

Lemma slice_app_mid {A} (l1 l2 l3 : list A) :
  slice (length l1) (length l1 + length l2) (l1 ++ l2 ++ l3) = l2.
Proof.
  unfold slice. rewrite drop_app_length. rewrite Nat.add_comm, Nat.add_sub.
  apply take_app_length.
Qed.

Lemma slice_tail {A} (l1 l2 : list A) :
  slice (length l1) (length (l1 ++ l2)) (l1 ++ l2) = l2.
Proof.
  unfold slice. rewrite drop_app_length, length_app, Nat.add_comm, Nat.add_sub. by rewrite take_ge.
Qed.

Lemma starts_with_app magic l : starts_with magic (magic ++ l) = true.
Proof. unfold starts_with. apply bool_decide_eq_true_2. apply take_app_length. Qed.

(** ** The header interface *)

Class HeaderCodec (H : Type) := {
  schema : H -> option H;           (* the generated header contract *)
  stringify : H -> list byte;       (* [Value::stringify] as UTF-8 *)
  parse_text : list byte -> option H; (* lossy UTF-8, optional BOM, JSON text *)
  is_data : H -> bool;              (* [header["kind"] == "data"] *)
  is_protected : H -> bool          (* [header.get("protection").is_some()] *)
}.

(** The header's text is read and accepted as the header itself. *)
Definition reads_back {H} `{HeaderCodec H} (h : H) : Prop :=
  stringify h <> [] /\ parse_text (stringify h) = Some h /\ schema h = Some h.

Record Frame (H : Type) := MkFrame {
  f_header : H;
  f_bytes : list byte;
  f_payload_start : nat;
  f_payload_end : nat
}.
Arguments MkFrame {H} _ _ _ _.
Arguments f_header {H} _.
Arguments f_bytes {H} _.
Arguments f_payload_start {H} _.
Arguments f_payload_end {H} _.

(** [Frame::payload]. *)
Definition f_payload {H} (f : Frame H) : list byte :=
  slice (f_payload_start f) (f_payload_end f) (f_bytes f).

Inductive FrameError :=
| Truncated | InvalidMagic | HeaderLengthInvalid | HeaderTruncated | NotJson | SchemaRejected
| PayloadTooLarge | DataRequiresPayload | ControlHasPayload | HeaderTooLarge
| ProtectedTooShort | PlaintextTooLarge.

(** The byte layout every carrier shares. *)
Definition layout (magic encoded payload : list byte) : list byte :=
  magic ++ to_be_bytes (len encoded) ++ encoded ++ payload.

Section layout.
Context (magic : list byte) (Hmagic : length magic = 4%nat).

Lemma layout_length encoded payload :
  len (layout magic encoded payload) = 8 + len encoded + len payload.
Proof. unfold layout. rewrite !length_app, length_to_be_bytes, Hmagic. lia. Qed.

Lemma layout_word encoded payload :
  len encoded < 2 ^ 32 ->
  from_be_bytes (slice 4 8 (layout magic encoded payload)) = len encoded.
Proof.
  intros Hl. unfold layout.
  pose proof (slice_app_mid magic (to_be_bytes (len encoded)) (encoded ++ payload)) as E.
  rewrite Hmagic, length_to_be_bytes in E. simpl (4 + 4)%nat in E. rewrite E.
  apply from_to_be_bytes. lia.
Qed.

Lemma layout_header encoded payload :
  slice 8 (8 + length encoded) (layout magic encoded payload) = encoded.
Proof.
  unfold layout.
  pose proof (slice_app_mid (magic ++ to_be_bytes (len encoded)) encoded payload) as E.
  rewrite length_app, length_to_be_bytes, Hmagic, <- app_assoc in E. exact E.
Qed.

Lemma layout_payload encoded payload :
  slice (8 + length encoded) (length (layout magic encoded payload)) (layout magic encoded payload)
    = payload.
Proof.
  unfold layout.
  pose proof (slice_tail (magic ++ to_be_bytes (len encoded) ++ encoded) payload) as E.
  rewrite <- !app_assoc in E.
  assert (length (magic ++ to_be_bytes (len encoded) ++ encoded) = (8 + length encoded)%nat) as El.
  { rewrite !length_app, length_to_be_bytes, Hmagic. lia. }
  rewrite El in E. exact E.
Qed.

(** A byte string that passes the length checks has the shared layout. *)
Lemma layout_of_bytes b (n : nat) :
  (8 + n <= length b)%nat -> starts_with magic b = true ->
  from_be_bytes (slice 4 8 b) = Z.of_nat n ->
  b = layout magic (slice 8 (8 + n) b) (slice (8 + n) (length b) b) /\
  length (slice 8 (8 + n) b) = n.
Proof.
  intros Hlen Hm Hw. unfold starts_with in Hm. reflect_bools. rewrite Hmagic in Hm.
  assert (Hn : length (slice 8 (8 + n) b) = n).
  { unfold slice. rewrite length_take, length_drop. lia. }
  split; [|done]. unfold layout. rewrite Hn, <- Hw, to_from_be_bytes.
  - unfold slice. rewrite (take_ge (drop (8 + n) b)) by (rewrite length_drop; lia).
    replace (8 + n - 8)%nat with n by lia.
    replace (drop (8 + n) b) with (drop n (drop 8 b)) by (by rewrite drop_drop).
    rewrite take_drop. replace (drop 8 b) with (drop 4 (drop 4 b)) by (by rewrite drop_drop).
    simpl (8 - 4)%nat. rewrite take_drop, <- Hm at 1. by rewrite take_drop.
  - unfold slice. rewrite length_take, length_drop. lia.
Qed.
End layout.

(** ** WorkerLink frames *)
Module WorkerLinkFrame.
Section codec.
Context {H : Type} `{HeaderCodec H}.

Definition MAX_HEADER_BYTES : Z := 8 * 1024.
Definition MAX_PAYLOAD_BYTES : Z := 8 + 8 * 1024 + 64 * 1024 + 16.
Definition MAGIC : list byte := [x43; x57; x4c; x4b].

Definition is_frame (b : list byte) : bool := starts_with MAGIC b.

Definition validate_payload (header : H) (payload : list byte) : option FrameError :=
  if MAX_PAYLOAD_BYTES <? len payload then Some PayloadTooLarge
  else if is_data header && bool_decide (payload = []) then Some DataRequiresPayload
  else if negb (is_data header) && negb (bool_decide (payload = [])) then Some ControlHasPayload
  else None.

Definition create (header : H) (payload : list byte) : FrameError + Frame H :=
  match schema header with
  | None => inl SchemaRejected
  | Some header =>
      match validate_payload header payload with
      | Some e => inl e
      | None =>
          let encoded := stringify header in
          if MAX_HEADER_BYTES <? len encoded then inl HeaderTooLarge
          else
            let b := layout MAGIC encoded payload in
            inr (MkFrame header b (8 + length encoded) (length b))
      end
  end.

Definition decode (b : list byte) : FrameError + Frame H :=
  if (len b <? 8) || negb (is_frame b) then inl InvalidMagic
  else
    let length_ := from_be_bytes (slice 4 8 b) in
    if negb ((1 <=? length_) && (length_ <=? MAX_HEADER_BYTES)) then inl HeaderLengthInvalid
    else
      let start := (8 + Z.to_nat length_)%nat in
      if len b <? Z.of_nat start then inl HeaderTruncated
      else
        match parse_text (slice 8 start b) with
        | None => inl NotJson
        | Some value =>
            match schema value with
            | None => inl SchemaRejected
            | Some header =>
                match validate_payload header (slice start (length b) b) with
                | Some e => inl e
                | None => inr (MkFrame header b start (length b))
                end
            end
        end.
End codec.
End WorkerLinkFrame.

(** ** Tunnel data-plane frames *)
Module TunnelFrame.
Section codec.
Context {H : Type} `{HeaderCodec H}.

Definition MAX_HEADER_BYTES : Z := 8 * 1024.
Definition MAX_PLAINTEXT_BYTES : Z := 64 * 1024.
Definition AUTH_TAG_BYTES : Z := 16.
Definition MAX_PAYLOAD_BYTES : Z := MAX_PLAINTEXT_BYTES + AUTH_TAG_BYTES.
Definition MAX_CREDIT_BYTES : Z := 8 * 1024 * 1024.
Definition MAGIC : list byte := [x43; x54; x54; x4e].

Definition is_frame (b : list byte) : bool := starts_with MAGIC b.

Definition validate_payload (header : H) (payload : list byte) : option FrameError :=
  if MAX_PAYLOAD_BYTES <? len payload then Some PayloadTooLarge
  else if is_data header && bool_decide (payload = []) then Some DataRequiresPayload
  else if negb (is_data header) && negb (bool_decide (payload = [])) then Some ControlHasPayload
  else if is_data header then
    if is_protected header && (len payload <=? AUTH_TAG_BYTES) then Some ProtectedTooShort
    else if negb (is_protected header) && (MAX_PLAINTEXT_BYTES <? len payload)
         then Some PlaintextTooLarge
    else None
  else None.

Definition create (header : H) (payload : list byte) : FrameError + Frame H :=
  match schema header with
  | None => inl SchemaRejected
  | Some header =>
      match validate_payload header payload with
      | Some e => inl e
      | None =>
          let encoded := stringify header in
          if MAX_HEADER_BYTES <? len encoded then inl HeaderTooLarge
          else
            let b := layout MAGIC encoded payload in
            inr (MkFrame header b (8 + length encoded) (length b))
      end
  end.

Definition decode (b : list byte) : FrameError + Frame H :=
  if (len b <? 8) || negb (is_frame b) then inl InvalidMagic
  else
    let length_ := from_be_bytes (slice 4 8 b) in
    if negb ((1 <=? length_) && (length_ <=? MAX_HEADER_BYTES)) then inl HeaderLengthInvalid
    else
      let start := (8 + Z.to_nat length_)%nat in
      if len b <? Z.of_nat start then inl HeaderTruncated
      else
        match parse_text (slice 8 start b) with
        | None => inl NotJson
        | Some value =>
            match schema value with
            | None => inl SchemaRejected
            | Some header =>
                match validate_payload header (slice start (length b) b) with
                | Some e => inl e
                | None => inr (MkFrame header b start (length b))
                end
            end
        end.
End codec.
End TunnelFrame.

(** ** Remote Surface frames *)
Module SurfaceFrame.
Section codec.
Context {H : Type} `{HeaderCodec H}.

Definition MAX_HEADER_BYTES : Z := 64 * 1024.
Definition MAX_PAYLOAD_BYTES : Z := 4 * 1024 * 1024.
Definition MAGIC : list byte := [x43; x54; x52; x53].

Definition create (header : H) (payload : list byte) : FrameError + Frame H :=
  match schema header with
  | None => inl SchemaRejected
  | Some header =>
      if MAX_PAYLOAD_BYTES <? len payload then inl PayloadTooLarge
      else
        let encoded := stringify header in
        if MAX_HEADER_BYTES <? len encoded then inl HeaderTooLarge
        else
          let b := layout MAGIC encoded payload in
          inr (MkFrame header b (8 + length encoded) (length b))
  end.

Definition decode (b : list byte) : FrameError + Frame H :=
  if len b <? 8 then inl Truncated
  else if negb (bool_decide (take 4 b = MAGIC)) then inl InvalidMagic
  else
    let length_ := from_be_bytes (slice 4 8 b) in
    if negb ((1 <=? length_) && (length_ <=? MAX_HEADER_BYTES)) then inl HeaderLengthInvalid
    else
      let start := (8 + Z.to_nat length_)%nat in
      let end_ := length b in
      if Z.of_nat end_ <? Z.of_nat start then inl HeaderTruncated
      else if MAX_PAYLOAD_BYTES <? Z.of_nat (end_ - start) then inl PayloadTooLarge
      else
        match parse_text (slice 8 start b) with
        | None => inl NotJson
        | Some value =>
            match schema value with
            | None => inl SchemaRejected
            | Some header => inr (MkFrame header b start end_)
            end
        end.
End codec.
End SurfaceFrame.

(** ** Round trips *)
Section roundtrip.
Context {H : Type} `{HeaderCodec H}.

(** The prefix checks accept a frame built by [layout]. *)
Lemma prefix_accepts magic (h' : H) payload cap :
  length magic = 4%nat -> reads_back h' -> cap < 2 ^ 32 -> len (stringify h') <= cap ->
  let b := layout magic (stringify h') payload in
  (len b <? 8) = false /\ starts_with magic b = true /\
  from_be_bytes (slice 4 8 b) = len (stringify h') /\
  ((1 <=? len (stringify h')) && (len (stringify h') <=? cap)) = true /\
  (len b <? Z.of_nat (8 + Z.to_nat (len (stringify h')))) = false /\
  parse_text (slice 8 (8 + Z.to_nat (len (stringify h'))) b) = Some h' /\
  slice (8 + Z.to_nat (len (stringify h'))) (length b) b = payload.
Proof.
  intros Hm (Hne & Hp & _) Hcap Hlen b.
  assert (1 <= len (stringify h')).
  { destruct (stringify h'); simpl; [done|lia]. }
  rewrite !Nat2Z.id. subst b. split_and!.
  - apply Z.ltb_ge. rewrite layout_length by done. lia.
  - apply starts_with_app.
  - apply layout_word; [done|lia].
  - apply andb_true_iff. rewrite !Z.leb_le. lia.
  - apply Z.ltb_ge. rewrite layout_length by done. lia.
  - by rewrite layout_header.
  - by apply layout_payload.
Qed.

Lemma worker_link_create_decode h payload f :
  WorkerLinkFrame.create h payload = inr f -> reads_back (f_header f) -> WorkerLinkFrame.decode (f_bytes f) = inr f.
Proof.
  unfold WorkerLinkFrame.create. intros E Hb.
  destruct (schema h) as [h'|] eqn:Es; [|done].
  destruct (WorkerLinkFrame.validate_payload h' payload) eqn:Ev; [done|].
  destruct (_ <? _) eqn:El; [done|]. reflect_bools. simplify_eq/=.
  destruct (prefix_accepts WorkerLinkFrame.MAGIC h' payload WorkerLinkFrame.MAX_HEADER_BYTES)
    as (P1 & P2 & P3 & P4 & P5 & P6 & P7); [done|done|vm_compute; done|done|].
  unfold WorkerLinkFrame.decode, WorkerLinkFrame.is_frame.
  rewrite P1, P2, P3; cbn [orb negb]. rewrite P4; cbn [negb]. rewrite P5, P6, (proj2 (proj2 Hb)), P7, Ev.
  by rewrite Nat2Z.id.
Qed.

Lemma tunnel_create_decode h payload f :
  TunnelFrame.create h payload = inr f -> reads_back (f_header f) -> TunnelFrame.decode (f_bytes f) = inr f.
Proof.
  unfold TunnelFrame.create. intros E Hb.
  destruct (schema h) as [h'|] eqn:Es; [|done].
  destruct (TunnelFrame.validate_payload h' payload) eqn:Ev; [done|].
  destruct (_ <? _) eqn:El; [done|]. reflect_bools. simplify_eq/=.
  destruct (prefix_accepts TunnelFrame.MAGIC h' payload TunnelFrame.MAX_HEADER_BYTES)
    as (P1 & P2 & P3 & P4 & P5 & P6 & P7); [done|done|vm_compute; done|done|].
  unfold TunnelFrame.decode, TunnelFrame.is_frame.
  rewrite P1, P2, P3; cbn [orb negb]. rewrite P4; cbn [negb]. rewrite P5, P6, (proj2 (proj2 Hb)), P7, Ev.
  by rewrite Nat2Z.id.
Qed.

Lemma surface_create_decode h payload f :
  SurfaceFrame.create h payload = inr f -> reads_back (f_header f) -> SurfaceFrame.decode (f_bytes f) = inr f.
Proof.
  unfold SurfaceFrame.create. intros E Hb.
  destruct (schema h) as [h'|] eqn:Es; [|done].
  destruct (SurfaceFrame.MAX_PAYLOAD_BYTES <? len payload) eqn:Ep; [done|].
  destruct (SurfaceFrame.MAX_HEADER_BYTES <? len (stringify h')) eqn:El; [done|]. reflect_bools. simplify_eq/=.
  destruct (prefix_accepts SurfaceFrame.MAGIC h' payload SurfaceFrame.MAX_HEADER_BYTES)
    as (P1 & P2 & P3 & P4 & P5 & P6 & P7); [done|done|vm_compute; done|lia|].
  unfold SurfaceFrame.decode. unfold starts_with in P2. simpl (length SurfaceFrame.MAGIC) in P2.
  rewrite P1, P2, P3; cbn [negb]. rewrite P4; cbn [negb]. rewrite P5.
  assert ((SurfaceFrame.MAX_PAYLOAD_BYTES <?
    Z.of_nat (length (layout SurfaceFrame.MAGIC (stringify h') payload) -
              (8 + Z.to_nat (len (stringify h'))))) = false) as ->.
  { apply Z.ltb_ge. pose proof (layout_length SurfaceFrame.MAGIC eq_refl (stringify h') payload). lia. }
  rewrite P6, (proj2 (proj2 Hb)). by rewrite Nat2Z.id.
Qed.

(** WorkerLink frames round trip: a frame [create] produces decodes to the same
    frame, with the same header, bytes and payload range, when the text of its
    header reads back. *)
Theorem worker_link_frame_roundtrip (h : H) (payload : list byte) (f : Frame H) :
  WorkerLinkFrame.create h payload = inr f -> reads_back (f_header f) ->
  WorkerLinkFrame.decode (f_bytes f) = inr f /\ f_payload f = payload /\
  len (f_bytes f) <= 8 + WorkerLinkFrame.MAX_HEADER_BYTES + WorkerLinkFrame.MAX_PAYLOAD_BYTES.
Proof.
  intros E Hb. split; [by eapply worker_link_create_decode|].
  unfold WorkerLinkFrame.create in E. destruct (schema h) as [h'|]; [|done].
  destruct (WorkerLinkFrame.validate_payload h' payload) eqn:Ev; [done|].
  destruct (_ <? _) eqn:El; [done|]. reflect_bools. simplify_eq. split.
  - unfold f_payload; simpl. by apply (layout_payload WorkerLinkFrame.MAGIC).
  - cbn [f_bytes]. rewrite (layout_length WorkerLinkFrame.MAGIC) by done.
    unfold WorkerLinkFrame.validate_payload in Ev. case_match eqn:Ep; [done|]. reflect_bools. lia.
Qed.

(** Tunnel data-plane frames round trip. *)
Theorem tunnel_frame_roundtrip (h : H) (payload : list byte) (f : Frame H) :
  TunnelFrame.create h payload = inr f -> reads_back (f_header f) ->
  TunnelFrame.decode (f_bytes f) = inr f /\ f_payload f = payload /\
  (is_data (f_header f) = true -> is_protected (f_header f) = true ->
     TunnelFrame.AUTH_TAG_BYTES < len payload).
Proof.
  intros E Hb. split; [by eapply tunnel_create_decode|].
  unfold TunnelFrame.create in E. destruct (schema h) as [h'|]; [|done].
  destruct (TunnelFrame.validate_payload h' payload) eqn:Ev; [done|].
  destruct (_ <? _) eqn:El; [done|]. simplify_eq. split.
  - unfold f_payload; simpl. by apply (layout_payload TunnelFrame.MAGIC).
  - simpl. intros Hd Hp. unfold TunnelFrame.validate_payload in Ev. rewrite Hd, Hp in Ev.
    simpl in Ev. hyp_cases. reflect_bools. done.
Qed.

(** Remote Surface frames round trip. *)
Lemma surface_frame_roundtrip (h : H) (payload : list byte) (f : Frame H) :
  SurfaceFrame.create h payload = inr f -> reads_back (f_header f) ->
  SurfaceFrame.decode (f_bytes f) = inr f /\ f_payload f = payload.
Proof.
  intros E Hb. split; [by eapply surface_create_decode|].
  unfold SurfaceFrame.create in E. hyp_cases. simplify_eq.
  unfold f_payload; simpl. by apply (layout_payload SurfaceFrame.MAGIC).
Qed.

(** Sound decoding, shared by the three carriers. *)
Lemma decoded_layout magic b (n : Z) :
  length magic = 4%nat -> starts_with magic b = true -> 1 <= n ->
  from_be_bytes (slice 4 8 b) = n -> Z.of_nat (8 + Z.to_nat n) <= len b ->
  b = layout magic (slice 8 (8 + Z.to_nat n) b) (slice (8 + Z.to_nat n) (length b) b) /\
  len (slice 8 (8 + Z.to_nat n) b) = n.
Proof.
  intros Hm Hs Hn Hw Hl.
  destruct (layout_of_bytes magic Hm b (Z.to_nat n)) as [E1 E2]; [lia|done|lia|].
  split; [done|]. rewrite E2. lia.
Qed.

Lemma worker_link_payload_ok (h : H) payload :
  WorkerLinkFrame.validate_payload h payload = None ->
  (is_data h = true <-> payload <> []) /\ len payload <= WorkerLinkFrame.MAX_PAYLOAD_BYTES.
Proof.
  unfold WorkerLinkFrame.validate_payload.
  destruct (_ <? _) eqn:E; [done|]. reflect_bools.
  destruct (is_data h), (bool_decide (payload = [])) eqn:Ep; simpl; try done; reflect_bools;
    intros _; split; try done; split; done.
Qed.

(** A WorkerLink frame is accepted only when the bytes are the magic, the
    length word of a header of 1 to 8192 bytes, that header, and a payload
    that the header's kind allows; the frame keeps exactly those bytes. *)
Theorem worker_link_decode_sound (b : list byte) (f : Frame H) :
  WorkerLinkFrame.decode b = inr f ->
  f_bytes f = b /\
  exists encoded value,
    b = layout WorkerLinkFrame.MAGIC encoded (f_payload f) /\
    1 <= len encoded <= WorkerLinkFrame.MAX_HEADER_BYTES /\
    parse_text encoded = Some value /\ schema value = Some (f_header f) /\
    (is_data (f_header f) = true <-> f_payload f <> []) /\
    len (f_payload f) <= WorkerLinkFrame.MAX_PAYLOAD_BYTES.
Proof.
  unfold WorkerLinkFrame.decode. intros E. hyp_cases; simplify_eq; reflect_bools.
  split; [done|]. unfold f_payload; simpl.
  destruct (decoded_layout WorkerLinkFrame.MAGIC b (from_be_bytes (slice 4 8 b)))
    as [El Hl]; [done|done|lia|done|lia|].
  eexists _, _. split; [exact El|]. rewrite Hl. split_and!; try done.
  all: match goal with Ev : WorkerLinkFrame.validate_payload _ _ = None |- _ =>
         apply worker_link_payload_ok in Ev; tauto end.
Qed.

(** The three carriers are disjoint: bytes one decoder accepts are refused
    by the two others on the magic value. *)
Theorem carriers_disjoint (b : list byte) :
  (forall f, WorkerLinkFrame.decode b = inr f ->
     TunnelFrame.decode b = inl InvalidMagic /\ SurfaceFrame.decode b = inl InvalidMagic) /\
  (forall f, TunnelFrame.decode b = inr f ->
     WorkerLinkFrame.decode b = inl InvalidMagic /\ SurfaceFrame.decode b = inl InvalidMagic) /\
  (forall f, SurfaceFrame.decode b = inr f ->
     WorkerLinkFrame.decode b = inl InvalidMagic /\ TunnelFrame.decode b = inl InvalidMagic).
Proof.
  unfold WorkerLinkFrame.decode, TunnelFrame.decode, SurfaceFrame.decode,
    WorkerLinkFrame.is_frame, TunnelFrame.is_frame, starts_with.
  simpl (length WorkerLinkFrame.MAGIC). simpl (length TunnelFrame.MAGIC).
  destruct (len b <? 8); simpl; [done|].
  split_and!; intros f; repeat (case_bool_decide; simpl); try done;
    unfold WorkerLinkFrame.MAGIC, TunnelFrame.MAGIC, SurfaceFrame.MAGIC in *; congruence.
Qed.
End roundtrip.

(** ** Remote Surface chunks inside WorkerLink payloads *)
Module RemoteChunk.

Definition REMOTE_CHUNK_HEADER_BYTES : Z := 16.
Definition REMOTE_CHUNK_PAYLOAD_BYTES : Z :=
  WorkerLinkFrame.MAX_PAYLOAD_BYTES - REMOTE_CHUNK_HEADER_BYTES.
Definition REMOTE_MAX_FRAME_BYTES : Z := 8 + 64 * 1024 + 4 * 1024 * 1024.
Definition REMOTE_MAGIC : list byte := [x43; x54; x52; x4c].

Record Chunk := MkChunk {
  frame_id : Z;
  frame_length : Z;
  offset : Z;
  payload : list byte
}.

Inductive ChunkError := OutOfBounds | InvalidChunk | Restarted | NotContiguous.

(** [validate_chunk]; the fields are [u64], so the sum is reached only with
    both terms below [2^32] and cannot overflow. *)
Definition validate_chunk (c : Chunk) : bool :=
  negb ((U32_MAX <? frame_id c)
        || negb ((1 <=? frame_length c) && (frame_length c <=? REMOTE_MAX_FRAME_BYTES))
        || (frame_length c <=? offset c)
        || bool_decide (payload c = [])
        || (REMOTE_CHUNK_PAYLOAD_BYTES <? len (payload c))
        || (frame_length c <? offset c + len (payload c))).

Definition encode_chunk (c : Chunk) : ChunkError + list byte :=
  if validate_chunk c then
    inr (REMOTE_MAGIC ++ to_be_bytes (frame_id c) ++ to_be_bytes (frame_length c) ++
         to_be_bytes (offset c) ++ payload c)
  else inl OutOfBounds.

Definition decode_chunk (b : list byte) : ChunkError + Chunk :=
  if (len b <=? REMOTE_CHUNK_HEADER_BYTES) || (WorkerLinkFrame.MAX_PAYLOAD_BYTES <? len b)
     || negb (starts_with REMOTE_MAGIC b)
  then inl InvalidChunk
  else
    let read at_ := from_be_bytes (slice at_ (at_ + 4) b) in
    let c := {| frame_id := read 4%nat; frame_length := read 8%nat; offset := read 12%nat;
                payload := drop 16 b |} in
    if validate_chunk c then inr c else inl OutOfBounds.

(** The chunks the sender of one frame cuts from it. *)
Definition unsigned_chunk (c : Chunk) : Prop :=
  0 <= frame_id c /\ 0 <= frame_length c /\ 0 <= offset c.

(** [Assembler]: the frame being received. [active.bytes] is allocated at full
    length and filled from the front. *)
Record ActiveFrame := MkActive { a_bytes : list byte; a_frame_id : Z; a_offset : Z }.
Record Assembler := MkAssembler { active : option ActiveFrame; replace_incomplete : bool }.

Definition new_assembler (replace_incomplete : bool) : Assembler :=
  {| active := None; replace_incomplete := replace_incomplete |}.
Definition reset (a : Assembler) : Assembler :=
  {| active := None; replace_incomplete := replace_incomplete a |}.
Definition set_active (a : Assembler) (x : option ActiveFrame) : Assembler :=
  {| active := x; replace_incomplete := replace_incomplete a |}.

(** [bytes[offset..end].copy_from_slice(payload)]. *)
Definition copy_from_slice (dst : list byte) (at_ : nat) (src : list byte) : list byte :=
  take at_ dst ++ src ++ drop (at_ + length src) dst.

Definition fill (a : Assembler) (c : Chunk) : (ChunkError + option (list byte)) * Assembler :=
  match active a with
  | Some f =>
      if (a_frame_id f =? frame_id c) && (len (a_bytes f) =? frame_length c)
         && (a_offset f =? offset c)
      then
        let end_ := a_offset f + len (payload c) in
        let bytes := copy_from_slice (a_bytes f) (Z.to_nat (a_offset f)) (payload c) in
        if end_ =? len bytes then (inr (Some bytes), set_active a None)
        else (inr None, set_active a (Some (MkActive bytes (a_frame_id f) end_)))
      else (inl NotContiguous, a)
  | None => (inl NotContiguous, a)
  end.

Definition push (a : Assembler) (b : list byte) : (ChunkError + option (list byte)) * Assembler :=
  match decode_chunk b with
  | inl e => (inl e, a)
  | inr c =>
      if offset c =? 0 then
        if bool_decide (is_Some (active a)) && negb (replace_incomplete a)
        then (inl Restarted, a)
        else
          fill (set_active a
            (Some (MkActive (replicate (Z.to_nat (frame_length c)) x00) (frame_id c) 0))) c
      else fill a c
  end.

Lemma validate_chunk_spec c :
  validate_chunk c = true ->
  frame_id c <= U32_MAX /\ 1 <= frame_length c <= REMOTE_MAX_FRAME_BYTES /\
  offset c < frame_length c /\ 1 <= len (payload c) <= REMOTE_CHUNK_PAYLOAD_BYTES /\
  offset c + len (payload c) <= frame_length c.
Proof.
  unfold validate_chunk. intros V. reflect_bools.
  assert (1 <= len (payload c)) by (destruct (payload c); simpl; [done|lia]). lia.
Qed.

Lemma validate_chunk_intro c :
  frame_id c <= U32_MAX -> 1 <= frame_length c <= REMOTE_MAX_FRAME_BYTES ->
  offset c < frame_length c -> 1 <= len (payload c) <= REMOTE_CHUNK_PAYLOAD_BYTES ->
  offset c + len (payload c) <= frame_length c -> validate_chunk c = true.
Proof.
  intros. unfold validate_chunk. apply negb_true_iff. rewrite !orb_false_iff, negb_false_iff,
    andb_true_iff, !Z.ltb_ge, !Z.leb_le, Z.leb_gt.
  split_and!; try lia. apply bool_decide_eq_false_2. intros E. rewrite E in *. simpl in *. lia.
Qed.

Lemma be_fields (w1 w2 w3 w4 rest : list byte) :
  length w1 = 4%nat -> length w2 = 4%nat -> length w3 = 4%nat -> length w4 = 4%nat ->
  let b := w1 ++ w2 ++ w3 ++ w4 ++ rest in
  slice 4 8 b = w2 /\ slice 8 12 b = w3 /\ slice 12 16 b = w4 /\ drop 16 b = rest.
Proof.
  intros. do 4 (destruct w1 as [|? w1]; [done|]). destruct w1; [|done].
  do 4 (destruct w2 as [|? w2]; [done|]). destruct w2; [|done].
  do 4 (destruct w3 as [|? w3]; [done|]). destruct w3; [|done].
  do 4 (destruct w4 as [|? w4]; [done|]). destruct w4; [|done]. done.
Qed.

Lemma decode_encode_chunk c b :
  unsigned_chunk c -> encode_chunk c = inr b -> decode_chunk b = inr c.
Proof.
  intros (? & ? & ?) E. unfold encode_chunk in E.
  destruct (validate_chunk c) eqn:V; [|done]. simplify_eq.
  destruct (validate_chunk_spec c V) as (? & ? & ? & ? & ?).
  unfold decode_chunk. rewrite starts_with_app.
  assert (len (REMOTE_MAGIC ++ to_be_bytes (frame_id c) ++ to_be_bytes (frame_length c) ++
    to_be_bytes (offset c) ++ payload c) = 16 + len (payload c)) as Hlen
    by (rewrite !length_app, !length_to_be_bytes; simpl; lia).
  rewrite Hlen. unfold REMOTE_CHUNK_PAYLOAD_BYTES, REMOTE_CHUNK_HEADER_BYTES,
    REMOTE_MAX_FRAME_BYTES, U32_MAX in *.
  rewrite (proj2 (Z.leb_gt _ _)), (proj2 (Z.ltb_ge _ _)) by lia. simpl orb. simpl negb. cbv iota zeta.
  destruct (be_fields REMOTE_MAGIC (to_be_bytes (frame_id c)) (to_be_bytes (frame_length c))
    (to_be_bytes (offset c)) (payload c)) as (F1 & F2 & F3 & F4); [done..|].
  simpl (4 + 4)%nat. simpl (8 + 4)%nat. simpl (12 + 4)%nat. rewrite F1, F2, F3, F4.
  rewrite !from_to_be_bytes by lia. destruct c; simpl in *. by rewrite V.
Qed.

Lemma encode_decode_chunk b c : decode_chunk b = inr c -> encode_chunk c = inr b.
Proof.
  unfold decode_chunk. destruct (_ || _) eqn:G; [done|]. reflect_bools.
  destruct (validate_chunk _) eqn:V; [|done]. intros E. simplify_eq.
  unfold encode_chunk. rewrite V. f_equal. cbn [frame_id frame_length offset payload].
  unfold REMOTE_CHUNK_HEADER_BYTES in *.
  assert (forall n, (n + 4 <= 16)%nat -> length (slice n (n + 4) b) = 4%nat) as Hs.
  { intros n Hn. unfold slice. rewrite length_take, length_drop. lia. }
  rewrite !to_from_be_bytes by (apply Hs; lia).
  match goal with G : starts_with _ _ = true |- _ => unfold starts_with in G; reflect_bools;
    simpl (length REMOTE_MAGIC) in G; rewrite <- G end.
  unfold slice. simpl (4 + 4 - 4)%nat. simpl (8 + 4 - 8)%nat. simpl (12 + 4 - 12)%nat.
  replace (drop 16 b) with (drop 4 (drop 12 b)) by (by rewrite drop_drop). rewrite take_drop.
  replace (drop 12 b) with (drop 4 (drop 8 b)) by (by rewrite drop_drop). rewrite take_drop.
  replace (drop 8 b) with (drop 4 (drop 4 b)) by (by rewrite drop_drop). by rewrite !take_drop.
Qed.

Lemma decode_chunk_unsigned b c : decode_chunk b = inr c -> unsigned_chunk c.
Proof.
  unfold decode_chunk. destruct (_ || _) eqn:G; [done|]. reflect_bools.
  destruct (validate_chunk _) eqn:V; [|done]. intros E. simplify_eq.
  unfold REMOTE_CHUNK_HEADER_BYTES in *. unfold unsigned_chunk; cbn [frame_id frame_length offset].
  split_and!; eapply from_be_bytes_range; unfold slice; rewrite length_take, length_drop; lia.
Qed.

(** Chunk encoding and decoding are inverse: an encoded chunk decodes to
    itself, and bytes that decode are exactly the encoding of the result. *)
Theorem chunk_codec_bijective (c : Chunk) (b : list byte) :
  unsigned_chunk c -> (encode_chunk c = inr b <-> decode_chunk b = inr c).
Proof.
  intros Hu. split; [by apply decode_encode_chunk|apply encode_decode_chunk].
Qed.

Lemma chunk_codec_bijective_witness :
  decode_chunk (REMOTE_MAGIC ++ to_be_bytes 7 ++ to_be_bytes 3 ++ to_be_bytes 1 ++ [x01; x02])
    = inr (MkChunk 7 3 1 [x01; x02]).
Proof.
  apply (chunk_codec_bijective (MkChunk 7 3 1 [x01; x02])); [|vm_compute; reflexivity].
  vm_compute. repeat split; congruence.
Defined.

(** ** Reassembly *)

(** The partially received frame keeps its cursor strictly inside its buffer,
    so the copy of a contiguous chunk stays in range. *)
Definition wf_assembler (a : Assembler) : Prop :=
  match active a with
  | None => True
  | Some f => 0 <= a_offset f < len (a_bytes f) /\ len (a_bytes f) <= REMOTE_MAX_FRAME_BYTES
  end.

Lemma copy_length dst at_ src :
  (at_ + length src <= length dst)%nat -> length (copy_from_slice dst at_ src) = length dst.
Proof.
  intros. unfold copy_from_slice. rewrite !length_app, length_take, length_drop. lia.
Qed.

Lemma fill_wf a f c :
  validate_chunk c = true -> active a = Some f ->
  0 <= a_offset f -> len (a_bytes f) <= REMOTE_MAX_FRAME_BYTES ->
  match fill a c with
  | (inr (Some bytes), a') => len bytes = frame_length c /\ active a' = None
  | (inr None, a') => wf_assembler a'
  | (inl _, a') =>
      a' = a /\ ~ (a_frame_id f = frame_id c /\ len (a_bytes f) = frame_length c /\
                   a_offset f = offset c)
  end.
Proof.
  intros V Ef H0 Hmax. destruct (validate_chunk_spec c V) as (_ & ? & ? & ? & ?). unfold fill.
  rewrite Ef. destruct (_ && _) eqn:G.
  - reflect_bools.
    assert (length (copy_from_slice (a_bytes f) (Z.to_nat (a_offset f)) (payload c))
            = length (a_bytes f)) as Hl by (apply copy_length; lia).
    rewrite Hl. destruct (_ =? len (a_bytes f)) eqn:E; reflect_bools; cbn.
    + split; [|done]. lia.
    + unfold wf_assembler; cbn. rewrite Hl. lia.
  - split; [done|]. intros (E1 & E2 & E3). rewrite E1, E2, E3, !Z.eqb_refl in G. done.
Qed.

(** Whatever bytes arrive, in any order, the assembler keeps its buffer
    cursor in range and its buffer within the protocol's frame limit, a frame
    it completes has exactly the length its chunks declared, and a refused
    chunk leaves it unchanged. *)
Theorem assembler_push_safe (a : Assembler) (b : list byte) :
  wf_assembler a ->
  match push a b with
  | (inr (Some bytes), a') =>
      active a' = None /\ exists c, decode_chunk b = inr c /\ len bytes = frame_length c
  | (inr None, a') => wf_assembler a'
  | (inl _, a') => a' = a
  end.
Proof.
  intros Hwf. unfold push. destruct (decode_chunk b) as [e|c] eqn:D; [done|].
  assert (validate_chunk c = true) as V.
  { unfold decode_chunk in D. hyp_cases; by simplify_eq. }
  pose proof (decode_chunk_unsigned b c D) as (? & ? & ?).
  destruct (validate_chunk_spec c V) as (_ & ? & ? & ? & ?).
  destruct (offset c =? 0) eqn:E0; reflect_bools.
  - destruct (_ && _); [done|].
    match goal with |- context [fill (set_active a (Some ?f)) c] =>
      pose proof (fill_wf (set_active a (Some f)) f c V eq_refl) as F end.
    simpl in F. rewrite length_replicate in F.
    specialize (F ltac:(lia) ltac:(lia)).
    destruct (fill _ c) as [[e|[bytes|]] a']; [|naive_solver|done].
    destruct F as [_ []]. lia.
  - unfold wf_assembler in Hwf. destruct (active a) as [f|] eqn:Ef.
    + pose proof (fill_wf a f c V Ef ltac:(lia) ltac:(lia)) as F.
      destruct (fill a c) as [[e|[bytes|]] a']; naive_solver.
    + unfold fill. by rewrite Ef.
Qed.

Lemma assembler_push_safe_witness :
  push (new_assembler false) [x43; x54; x52; x4c; x00] = (inl InvalidChunk, new_assembler false) /\
  match push (new_assembler false) [x43; x54; x52; x4c; x00] with
  | (inl _, a') => a' = new_assembler false
  | _ => False
  end.
Proof.
  split; [vm_compute; reflexivity|].
  pose proof (assembler_push_safe (new_assembler false) [x43; x54; x52; x4c; x00] I) as P.
  exact P.
Defined.

(** The chunks that carry the pieces of one frame, in order. *)
Fixpoint chunks_from (id total off : Z) (pieces : list (list byte)) : list Chunk :=
  match pieces with
  | [] => []
  | p :: rest => MkChunk id total off p :: chunks_from id total (off + len p) rest
  end.

Fixpoint push_all (a : Assembler) (bs : list (list byte)) :
  list (ChunkError + option (list byte)) * Assembler :=
  match bs with
  | [] => ([], a)
  | b :: bs =>
      let '(r, a1) := push a b in
      let '(rs, a2) := push_all a1 bs in
      (r :: rs, a2)
  end.

(** The bytes on the wire, when every chunk is acceptable. *)
Fixpoint encode_all (cs : list Chunk) : option (list (list byte)) :=
  match cs with
  | [] => Some []
  | c :: cs =>
      match encode_chunk c, encode_all cs with
      | inr b, Some bs => Some (b :: bs)
      | _, _ => None
      end
  end.

Definition piece_ok (p : list byte) : Prop := 1 <= len p <= REMOTE_CHUNK_PAYLOAD_BYTES.

Definition partial (r : bool) (id total : Z) (received : list byte) : Assembler :=
  MkAssembler (Some (MkActive (received ++ replicate (Z.to_nat (total - len received)) x00)
    id (len received))) r.

Lemma copy_partial received rest p :
  (length p <= length rest)%nat ->
  copy_from_slice (received ++ rest) (length received) p = (received ++ p) ++ drop (length p) rest.
Proof.
  intros. unfold copy_from_slice. rewrite take_app_length, <- app_assoc. f_equal. f_equal.
  rewrite <- drop_drop, drop_app_length. done.
Qed.

Lemma fill_partial r id total received p :
  len received + len p <= total ->
  fill (partial r id total received) (MkChunk id total (len received) p) =
    if len received + len p =? total
    then (inr (Some (received ++ p)), MkAssembler None r)
    else (inr None, partial r id total (received ++ p)).
Proof.
  intros Hle. unfold fill, partial. cbn [active a_frame_id a_bytes a_offset frame_id frame_length
    offset payload]. rewrite length_app, length_replicate.
  rewrite !Z.eqb_refl, (proj2 (Z.eqb_eq (Z.of_nat _) total)) by lia. cbn [andb].
  rewrite Nat2Z.id, copy_partial by (rewrite length_replicate; lia).
  rewrite drop_replicate.
  replace (Z.to_nat (total - len received) - length p)%nat
    with (Z.to_nat (total - len (received ++ p))) by (rewrite length_app; lia).
  rewrite !length_app, length_replicate.
  destruct (len received + len p =? total) eqn:E; reflect_bools.
  - rewrite (proj2 (Z.eqb_eq _ _)) by lia.
    replace (Z.to_nat _) with 0%nat by lia. simpl. by rewrite app_nil_r.
  - rewrite (proj2 (Z.eqb_neq _ _)) by lia. unfold set_active; cbn.
    do 4 f_equal. lia.
Qed.

Lemma encode_all_ok id total pieces : forall off,
  0 <= id <= U32_MAX -> 0 <= off -> 1 <= total <= REMOTE_MAX_FRAME_BYTES ->
  Forall piece_ok pieces -> off + len (concat pieces) = total ->
  exists bs, encode_all (chunks_from id total off pieces) = Some bs /\
    Forall2 (fun b c => decode_chunk b = inr c) bs (chunks_from id total off pieces).
Proof.
  induction pieces as [|p pieces IH]; intros off Hid Hoff Htot Hp Hsum; simpl.
  { by exists []. }
  inversion_clear Hp as [|? ? [Hp1 Hp2] Hps]. simpl in Hsum. rewrite length_app in Hsum.
  destruct (IH (off + len p)) as (bs & E & F); [done|lia|done|done|lia|].
  assert (validate_chunk (MkChunk id total off p) = true) as V by (apply validate_chunk_intro; cbn; lia).
  unfold encode_chunk at 1. rewrite V, E. eexists. split; [done|]. constructor; [|done].
  apply decode_encode_chunk; [unfold unsigned_chunk; cbn; lia|]. unfold encode_chunk. by rewrite V.
Qed.

Lemma push_rest r id total pieces : forall received bs,
  received <> [] -> pieces <> [] -> Forall piece_ok pieces ->
  len received + len (concat pieces) = total ->
  Forall2 (fun b c => decode_chunk b = inr c) bs (chunks_from id total (len received) pieces) ->
  push_all (partial r id total received) bs =
    (replicate (length pieces - 1) (inr None) ++ [inr (Some (received ++ concat pieces))],
     MkAssembler None r).
Proof.
  induction pieces as [|p pieces IH]; intros received bs Hr Hne Hok Hsum F; [done|].
  simpl in F, Hsum. rewrite length_app in Hsum. inversion F as [|b c bs' cs' Hb Hbs]; subst.
  inversion_clear Hok as [|? ? [Hp1 Hp2] Hps].
  assert (0 < len received) by (destruct received; simpl; [done|lia]).
  cbn [push_all]. unfold push. rewrite Hb. cbn [offset].
  rewrite (proj2 (Z.eqb_neq _ _)) by lia. rewrite fill_partial by lia.
  destruct pieces as [|q pieces].
  - simpl in *. inversion Hbs; subst. rewrite (proj2 (Z.eqb_eq _ _)) by lia. simpl.
    by rewrite app_nil_r.
  - assert (1 <= len q) by (inversion Hps as [|? ? [? ?]]; done).
    rewrite (proj2 (Z.eqb_neq _ _)) by (simpl; rewrite length_app; lia).
    rewrite IH; [|destruct received; done|done|done| |].
    + rewrite <- app_assoc. simpl. by rewrite Nat.sub_0_r.
    + rewrite length_app. lia.
    + replace (len (received ++ p)) with (len received + len p) by (rewrite length_app; lia).
      exact Hbs.
Qed.

Lemma push_first r id total p b a :
  replace_incomplete a = r -> active a = None \/ r = true ->
  decode_chunk b = inr (MkChunk id total 0 p) ->
  push a b = fill (partial r id total []) (MkChunk id total 0 p).
Proof.
  intros Hr Ha D. unfold push. rewrite D. cbn [offset]. rewrite Z.eqb_refl.
  assert (bool_decide (is_Some (active a)) && negb (replace_incomplete a) = false) as ->.
  { destruct Ha as [->| ->]; [done|]. by rewrite Hr, andb_false_r. }
  unfold partial, set_active; cbn. by rewrite Z.sub_0_r, Hr.
Qed.

(** C34: reassembly is exact: a frame cut into any non-empty pieces within the
    chunk limit, encoded and pushed in order, completes on its last chunk with
    exactly the bytes of the frame, every earlier push asks for more, and the
    assembler is ready for the next frame. When [replace_incomplete] is set this
    holds even if a previous frame was left unfinished. *)
Theorem reassembly_exact (id : Z) (pieces : list (list byte)) (a : Assembler) :
  0 <= id <= U32_MAX -> pieces <> [] -> Forall piece_ok pieces ->
  len (concat pieces) <= REMOTE_MAX_FRAME_BYTES ->
  active a = None \/ replace_incomplete a = true ->
  exists bs,
    encode_all (chunks_from id (len (concat pieces)) 0 pieces) = Some bs /\
    push_all a bs =
      (replicate (length pieces - 1) (inr None) ++ [inr (Some (concat pieces))],
       MkAssembler None (replace_incomplete a)).
Proof.
  intros Hid Hne Hok Hmax Ha. set (total := len (concat pieces)) in *.
  assert (1 <= total).
  { destruct pieces as [|p ps]; [done|]. inversion Hok as [|? ? [? ?]]. subst total. simpl.
    rewrite length_app. lia. }
  destruct (encode_all_ok id total pieces 0) as (bs & E & F); [done|lia|lia|done|done|].
  exists bs. split; [done|].
  destruct pieces as [|p pieces]; [done|]. simpl in F. inversion F as [|b c bs' cs' Hb Hbs]; subst.
  inversion_clear Hok as [|? ? [Hp1 Hp2] Hps].
  cbn [push_all]. rewrite (push_first (replace_incomplete a) id total p b a) by done.
  change 0 with (len (@nil byte)) at 1. subst total. simpl concat in *. rewrite length_app in *.
  rewrite fill_partial by (simpl; lia). simpl app.
  destruct pieces as [|q pieces].
  - simpl in *. inversion Hbs; subst. rewrite (proj2 (Z.eqb_eq _ _)) by lia. simpl.
    by rewrite app_nil_r.
  - assert (1 <= len q) by (inversion Hps as [|? ? [? ?]]; done).
    rewrite (proj2 (Z.eqb_neq _ _)) by (simpl; rewrite length_app; lia).
    rewrite (push_rest _ _ _ (q :: pieces)); [|by destruct p|done|done|lia|exact Hbs].
    simpl. by rewrite Nat.sub_0_r.
Qed.

Lemma reassembly_exact_witness :
  exists bs,
    encode_all (chunks_from 9 3 0 [[x01]; [x02; x03]]) = Some bs /\
    push_all (new_assembler false) bs =
      ([inr None; inr (Some [x01; x02; x03])], new_assembler false).
Proof.
  apply (reassembly_exact 9 [[x01]; [x02; x03]] (new_assembler false)).
  - vm_compute. split; congruence.
  - discriminate.
  - repeat constructor; vm_compute; congruence.
  - vm_compute. congruence.
  - left. reflexivity.
Defined.

End RemoteChunk.

(** ** A concrete header codec

    Used to evaluate the codecs: a header is a kind, a protection flag and a
    text; its contract bounds the text and its encoding is injective. *)
Module SampleHeader.

Record t := Make { data : bool; protection : bool; text : list byte }.

Definition flag (b : bool) : byte := if b then x31 else x30.
Definition unflag (b : byte) : option bool :=
  if bool_decide (b = x31) then Some true else if bool_decide (b = x30) then Some false else None.

#[global] Instance codec : HeaderCodec t := {
  schema h := if len (text h) <=? 100 then Some h else None;
  stringify h := flag (data h) :: flag (protection h) :: text h;
  parse_text b :=
    match b with
    | d :: p :: rest =>
        match unflag d, unflag p with
        | Some d, Some p => Some (Make d p rest)
        | _, _ => None
        end
    | _ => None
    end;
  is_data := data;
  is_protected := protection
}.

Definition data_header : t := Make true true [x61].
Definition data_payload : list byte := replicate 17 x07.

End SampleHeader.

Lemma worker_link_frame_roundtrip_witness :
  exists f, WorkerLinkFrame.create SampleHeader.data_header SampleHeader.data_payload = inr f /\
    WorkerLinkFrame.decode (f_bytes f) = inr f.
Proof.
  eexists. split; [vm_compute; reflexivity|].
  apply (worker_link_frame_roundtrip SampleHeader.data_header SampleHeader.data_payload); [vm_compute; reflexivity|].
  by vm_compute.
Defined.

Lemma tunnel_frame_roundtrip_witness :
  exists f, TunnelFrame.create SampleHeader.data_header SampleHeader.data_payload = inr f /\
    TunnelFrame.decode (f_bytes f) = inr f.
Proof.
  eexists. split; [vm_compute; reflexivity|].
  apply (tunnel_frame_roundtrip SampleHeader.data_header SampleHeader.data_payload); [vm_compute; reflexivity|].
  by vm_compute.
Defined.

Lemma worker_link_decode_sound_witness :
  exists f, WorkerLinkFrame.decode
      (layout WorkerLinkFrame.MAGIC [x31; x30; x61] [x09]) = inr f /\
    f_bytes f = layout WorkerLinkFrame.MAGIC [x31; x30; x61] [x09].
Proof.
  eexists. split; [vm_compute; reflexivity|].
  apply (worker_link_decode_sound (H := SampleHeader.t)
    (layout WorkerLinkFrame.MAGIC [x31; x30; x61] [x09])).
  vm_compute. reflexivity.
Defined.
