(* ===== verification/Ownership.v ===== *)
(** * Input ownership

    [Ownership] models src/cantrip_interaction/src/ownership.rs: sessions of
    participants, the controls each session holds with the prepared release of
    each, and the index of owners per collision domain and control. [Spec] is
    the contract: no index, and the holds of a session as a stack. *)
From S2P Require Import Prelude.
From stdpp Require Import base numbers gmap strings sorting list.
Open Scope Z_scope.

Module Ownership.

Record TargetIdentity := Identity { id : string; generation : Z }.
Record Participant := Token { registry : Z; sequence : Z }.

#[global] Instance target_eq_dec : EqDecision TargetIdentity.
Proof. solve_decision. Defined.
#[global] Instance participant_eq_dec : EqDecision Participant.
Proof. solve_decision. Defined.
#[global] Program Instance participant_countable : Countable Participant :=
  inj_countable' (fun p => (registry p, sequence p)) (fun q => Token q.1 q.2) _.
Next Obligation. by intros []. Qed.

(** The derived order of [Participant]. *)
Definition participant_le (p q : Participant) : Prop :=
  registry p < registry q \/ (registry p = registry q /\ sequence p <= sequence q).
#[global] Instance participant_le_dec : RelDecision participant_le.
Proof. intros p q. unfold participant_le. apply _. Defined.

Inductive OwnershipError :=
| SessionNotFound | Capacity | AlreadyHeld | Conflict | NotHeld | StaleInput.

#[global] Instance ownership_error_eq_dec : EqDecision OwnershipError.
Proof. solve_decision. Defined.

Section ownership.
Context {C : Type} `{Countable C} (control_le : relation C) `{!RelDecision control_le}.
Context {R : Type}.

Record Hold := MkHold { h_release : R; h_ordinal : Z }.
Record Session := MkSession {
  s_target : TargetIdentity;
  s_domain : string;
  s_holds : gmap C Hold;
  s_ordinal : Z;
  s_last_sequence : option Z
}.
Record t := Make {
  sessions : gmap Participant Session;
  owners : gmap (string * C) Participant;
  o_registry : Z;
  next : Z;
  max_sessions : Z;
  max_held : Z
}.

Definition set_sessions (o : t) (m : gmap Participant Session) : t :=
  Make m (owners o) (o_registry o) (next o) (max_sessions o) (max_held o).
Definition set_maps (o : t) (m : gmap Participant Session)
    (w : gmap (string * C) Participant) : t :=
  Make m w (o_registry o) (next o) (max_sessions o) (max_held o).
Definition set_holds (s : Session) (m : gmap C Hold) : Session :=
  MkSession (s_target s) (s_domain s) m (s_ordinal s) (s_last_sequence s).

(** [Ownership::new]; the process-wide registry counter is passed and returned. *)
Definition new (next_registry max_sessions max_held : Z) : t * Z :=
  let '(registry, counter) :=
    match checked_add_u64 next_registry 1 with
    | Some counter => (next_registry, counter)
    | None => (0, next_registry)
    end in
  (Make ∅ ∅ registry 0 max_sessions max_held, counter).

Definition open (o : t) (target : TargetIdentity) (domain : string) :
  (Participant + OwnershipError) * t :=
  if (o_registry o =? 0) || (max_sessions o <=? Z.of_nat (size (sessions o)))
  then (inr Capacity, o)
  else
    match checked_add_u64 (next o) 1 with
    | None => (inr Capacity, o)
    | Some n =>
        let owner := Token (o_registry o) n in
        (inl owner,
         Make (<[owner := MkSession target domain ∅ 0 None]> (sessions o))
           (owners o) (o_registry o) n (max_sessions o) (max_held o))
    end.

Definition target (o : t) (owner : Participant) : TargetIdentity + OwnershipError :=
  match sessions o !! owner with
  | Some s => inl (s_target s)
  | None => inr SessionNotFound
  end.

Definition accept_sequence (o : t) (owner : Participant) (sequence : Z) :
  (unit + OwnershipError) * t :=
  match sessions o !! owner with
  | None => (inr SessionNotFound, o)
  | Some s =>
      if match s_last_sequence s with Some previous => sequence <=? previous | None => false end
      then (inr StaleInput, o)
      else
        (inl tt,
         set_sessions o (<[owner := MkSession (s_target s) (s_domain s) (s_holds s)
                             (s_ordinal s) (Some sequence)]> (sessions o)))
  end.

Definition available (o : t) (owner : Participant) (control : C) : unit + OwnershipError :=
  match sessions o !! owner with
  | None => inr SessionNotFound
  | Some s =>
      match owners o !! (s_domain s, control) with
      | Some current => if decide (current = owner) then inr AlreadyHeld else inr Conflict
      | None => inl tt
      end
  end.

Definition hold (o : t) (owner : Participant) (control : C) (release : R) :
  (unit + OwnershipError) * t :=
  match sessions o !! owner with
  | None => (inr SessionNotFound, o)
  | Some s =>
      if bool_decide (is_Some (s_holds s !! control)) then (inr AlreadyHeld, o)
      else if max_held o <=? Z.of_nat (size (s_holds s)) then (inr Capacity, o)
      else if bool_decide (is_Some (owners o !! (s_domain s, control)))
      then (inr Conflict, o)
      else
        match checked_add_u64 (s_ordinal s) 1 with
        | None => (inr Capacity, o)
        | Some ordinal =>
            (inl tt,
             set_maps o
               (<[owner := MkSession (s_target s) (s_domain s)
                             (<[control := MkHold release ordinal]> (s_holds s))
                             ordinal (s_last_sequence s)]> (sessions o))
               (<[(s_domain s, control) := owner]> (owners o)))
        end
  end.

Definition held (o : t) (owner : Participant) (control : C) : R + OwnershipError :=
  match sessions o !! owner with
  | None => inr SessionNotFound
  | Some s =>
      match s_holds s !! control with
      | Some h => inl (h_release h)
      | None => inr NotHeld
      end
  end.

Definition key_le (a b : C * Hold) : Prop := control_le a.1 b.1.
#[global] Instance key_le_dec : RelDecision key_le.
Proof. intros a b. unfold key_le. apply _. Defined.

(** [Ownership::holds]: the iterator of a [BTreeMap], in key order. *)
Definition holds (o : t) (owner : Participant) : list (C * R) + OwnershipError :=
  match sessions o !! owner with
  | None => inr SessionNotFound
  | Some s =>
      inl ((fun ch => (ch.1, h_release ch.2)) <$>
             merge_sort key_le (map_to_list (s_holds s)))
  end.

Definition replace_release (o : t) (owner : Participant) (control : C) (release : R) :
  (R + OwnershipError) * t :=
  match sessions o !! owner with
  | None => (inr SessionNotFound, o)
  | Some s =>
      match s_holds s !! control with
      | None => (inr NotHeld, o)
      | Some h =>
          (inl (h_release h),
           set_sessions o
             (<[owner := set_holds s (<[control := MkHold release (h_ordinal h)]> (s_holds s))]>
                (sessions o)))
      end
  end.

Definition update_release (o : t) (owner : Participant) (control : C) (release : R) :
  (unit + OwnershipError) * t :=
  let '(r, o') := replace_release o owner control release in
  (match r with inl _ => inl tt | inr e => inr e end, o').

Definition release (o : t) (owner : Participant) (control : C) :
  (R + OwnershipError) * t :=
  match sessions o !! owner with
  | None => (inr SessionNotFound, o)
  | Some s =>
      match s_holds s !! control with
      | None => (inr NotHeld, o)
      | Some h =>
          (inl (h_release h),
           set_maps o (<[owner := set_holds s (delete control (s_holds s))]> (sessions o))
             (delete (s_domain s, control) (owners o)))
      end
  end.

Definition later (h1 h2 : Hold) : Prop := h_ordinal h2 <= h_ordinal h1.
#[global] Instance later_dec : RelDecision later.
Proof. intros h1 h2. unfold later. apply _. Defined.

Definition disown (domain : string) (cs : list (C * Hold))
    (w : gmap (string * C) Participant) : gmap (string * C) Participant :=
  foldr (fun ch w => delete (domain, ch.1) w) w cs.

Definition close (o : t) (owner : Participant) : list R * t :=
  match sessions o !! owner with
  | None => ([], o)
  | Some s =>
      let cs := map_to_list (s_holds s) in
      (h_release <$> merge_sort later cs.*2,
       set_maps o (delete owner (sessions o)) (disown (s_domain s) cs (owners o)))
  end.

Definition participants (o : t) : list Participant :=
  merge_sort participant_le (map_to_list (sessions o)).*1.

Definition held_count (o : t) (owner : Participant) : Z + OwnershipError :=
  match sessions o !! owner with
  | Some s => inl (Z.of_nat (size (s_holds s)))
  | None => inr SessionNotFound
  end.

(** ** Calls and runs *)

Inductive call :=
| Open (target : TargetIdentity) (domain : string)
| AcceptSequence (owner : Participant) (sequence : Z)
| HoldControl (owner : Participant) (control : C) (release : R)
| ReplaceRelease (owner : Participant) (control : C) (release : R)
| Release (owner : Participant) (control : C)
| Close (owner : Participant).

Inductive answer :=
| Opened (p : Participant)
| Done
| Handed (rs : list R)
| Refused (e : OwnershipError).

Definition step (o : t) (c : call) : answer * t :=
  match c with
  | Open tg d =>
      let '(r, o') := open o tg d in
      (match r with inl p => Opened p | inr e => Refused e end, o')
  | AcceptSequence p n =>
      let '(r, o') := accept_sequence o p n in
      (match r with inl _ => Done | inr e => Refused e end, o')
  | HoldControl p k x =>
      let '(r, o') := hold o p k x in
      (match r with inl _ => Done | inr e => Refused e end, o')
  | ReplaceRelease p k x =>
      let '(r, o') := replace_release o p k x in
      (match r with inl x => Handed [x] | inr e => Refused e end, o')
  | Release p k =>
      let '(r, o') := release o p k in
      (match r with inl x => Handed [x] | inr e => Refused e end, o')
  | Close p => let '(xs, o') := close o p in (Handed xs, o')
  end.

Fixpoint run (o : t) (cs : list call) : list answer * t :=
  match cs with
  | [] => ([], o)
  | c :: cs =>
      let '(a, o1) := step o c in
      let '(l, o2) := run o1 cs in
      (a :: l, o2)
  end.

(** ** The contract

    The same calls over sessions alone: the holds of a session are a stack,
    newest first, and a control is refused when any session of the domain
    holds it. *)
Record SpecSession := SpecS {
  a_target : TargetIdentity;
  a_domain : string;
  a_stack : list (C * R);
  a_taken : Z;
  a_last : option Z
}.
Record SpecState := SpecMk {
  a_sessions : gmap Participant SpecSession;
  a_registry : Z;
  a_issued : Z;
  a_max_sessions : Z;
  a_max_held : Z
}.

Definition spec_set (a : SpecState) (m : gmap Participant SpecSession) : SpecState :=
  SpecMk m (a_registry a) (a_issued a) (a_max_sessions a) (a_max_held a).

Definition holds_control (domain : string) (k : C) (s : SpecSession) : Prop :=
  a_domain s = domain /\ k ∈ (a_stack s).*1.

Definition set_top (k : C) (x : R) (p : C * R) : C * R :=
  if decide (p.1 = k) then (p.1, x) else p.

Definition spec_hold (a : SpecState) (p : Participant) (k : C) (x : R) : answer * SpecState :=
  match a_sessions a !! p with
  | None => (Refused SessionNotFound, a)
  | Some s =>
      if bool_decide (k ∈ (a_stack s).*1) then (Refused AlreadyHeld, a)
      else if a_max_held a <=? len (a_stack s) then (Refused Capacity, a)
      else if bool_decide (map_Exists (fun _ => holds_control (a_domain s) k) (a_sessions a))
      then (Refused Conflict, a)
      else if a_taken s =? U64_MAX then (Refused Capacity, a)
      else
        (Done, spec_set a
           (<[p := SpecS (a_target s) (a_domain s) ((k, x) :: a_stack s)
                     (a_taken s + 1) (a_last s)]> (a_sessions a)))
  end.

Definition spec_step (a : SpecState) (c : call) : answer * SpecState :=
  match c with
  | Open tg d =>
      if (a_registry a =? 0) ||
         (a_max_sessions a <=? Z.of_nat (size (a_sessions a))) || (a_issued a =? U64_MAX)
      then (Refused Capacity, a)
      else
        let p := Token (a_registry a) (a_issued a + 1) in
        (Opened p,
         SpecMk (<[p := SpecS tg d [] 0 None]> (a_sessions a)) (a_registry a)
           (a_issued a + 1) (a_max_sessions a) (a_max_held a))
  | AcceptSequence p n =>
      match a_sessions a !! p with
      | None => (Refused SessionNotFound, a)
      | Some s =>
          if match a_last s with Some m => n <=? m | None => false end then (Refused StaleInput, a)
          else (Done, spec_set a
                  (<[p := SpecS (a_target s) (a_domain s) (a_stack s) (a_taken s) (Some n)]>
                     (a_sessions a)))
      end
  | HoldControl p k x => spec_hold a p k x
  | ReplaceRelease p k x =>
      match a_sessions a !! p with
      | None => (Refused SessionNotFound, a)
      | Some s =>
          match IndexMap.get k (a_stack s) with
          | None => (Refused NotHeld, a)
          | Some old =>
              (Handed [old], spec_set a
                 (<[p := SpecS (a_target s) (a_domain s) (set_top k x <$> a_stack s)
                           (a_taken s) (a_last s)]> (a_sessions a)))
          end
      end
  | Release p k =>
      match a_sessions a !! p with
      | None => (Refused SessionNotFound, a)
      | Some s =>
          match IndexMap.get k (a_stack s) with
          | None => (Refused NotHeld, a)
          | Some old =>
              (Handed [old], spec_set a
                 (<[p := SpecS (a_target s) (a_domain s) (IndexMap.shift_remove k (a_stack s))
                           (a_taken s) (a_last s)]> (a_sessions a)))
          end
      end
  | Close p =>
      match a_sessions a !! p with
      | None => (Handed [], a)
      | Some s => (Handed (a_stack s).*2, spec_set a (delete p (a_sessions a)))
      end
  end.

Fixpoint spec_run (a : SpecState) (cs : list call) : list answer * SpecState :=
  match cs with
  | [] => ([], a)
  | c :: cs =>
      let '(x, a1) := spec_step a c in
      let '(l, a2) := spec_run a1 cs in
      (x :: l, a2)
  end.

(** ** The representation *)

(** Holds listed newest first. *)
Definition newer (a b : C * Hold) : Prop := h_ordinal b.2 < h_ordinal a.2.

Definition session_repr (s : Session) (a : SpecSession) : Prop :=
  exists hs : list (C * Hold),
    hs ≡ₚ map_to_list (s_holds s) /\
    StronglySorted newer hs /\
    Forall (fun ch => h_ordinal ch.2 <= s_ordinal s) hs /\
    0 <= s_ordinal s <= U64_MAX /\
    a = SpecS (s_target s) (s_domain s)
          ((fun ch => (ch.1, h_release ch.2)) <$> hs) (s_ordinal s) (s_last_sequence s).

Definition owners_exact (m : gmap Participant Session)
    (w : gmap (string * C) Participant) : Prop :=
  forall d k p, w !! (d, k) = Some p <->
    exists s, m !! p = Some s /\ s_domain s = d /\ is_Some (s_holds s !! k).

Record repr (o : t) (a : SpecState) : Prop := Repr {
  r_sessions : forall p, option_Forall2 session_repr (sessions o !! p) (a_sessions a !! p);
  r_owners : owners_exact (sessions o) (owners o);
  r_config : (a_registry a, a_issued a, a_max_sessions a, a_max_held a) =
             (o_registry o, next o, max_sessions o, max_held o);
  r_next : 0 <= next o <= U64_MAX;
  r_tokens : forall p s, sessions o !! p = Some s ->
    registry p = o_registry o /\ sequence p <= next o
}.

Lemma stack_keys (hs : list (C * Hold)) :
  ((fun ch => (ch.1, h_release ch.2)) <$> hs).*1 = hs.*1.
Proof. rewrite <- list_fmap_compose. by apply list_fmap_ext. Qed.

Lemma repr_key (hs : list (C * Hold)) (m : gmap C Hold) k :
  hs ≡ₚ map_to_list m -> k ∈ hs.*1 <-> is_Some (m !! k).
Proof.
  intros Hp. rewrite Hp, list_elem_of_fmap. split.
  - intros ([k' h] & -> & Hin%elem_of_map_to_list). eauto.
  - intros [h Hh]. exists (k, h). by rewrite elem_of_map_to_list.
Qed.

Lemma repr_get (hs : list (C * Hold)) (m : gmap C Hold) k :
  hs ≡ₚ map_to_list m ->
  IndexMap.get k ((fun ch => (ch.1, h_release ch.2)) <$> hs) = h_release <$> m !! k.
Proof.
  intros Hp. destruct (m !! k) as [h|] eqn:E; simpl.
  - apply IndexMap.In_get.
    + unfold IndexMap.wf, IndexMap.keys. rewrite stack_keys, Hp. apply NoDup_fst_map_to_list.
    + apply list_elem_of_fmap. exists (k, h). split; [done|].
      by rewrite Hp, elem_of_map_to_list.
  - apply IndexMap.get_None. unfold IndexMap.keys.
    rewrite stack_keys, repr_key by done. rewrite E. by intros [? ?].
Qed.

Lemma stack_remove (hs : list (C * Hold)) k :
  IndexMap.shift_remove k ((fun ch => (ch.1, h_release ch.2)) <$> hs) =
  (fun ch => (ch.1, h_release ch.2)) <$> filter (fun ch => ch.1 <> k) hs.
Proof.
  unfold IndexMap.shift_remove. induction hs as [|[c h] hs IH]; [done|].
  rewrite fmap_cons, !filter_cons, IH. simpl. by case_decide.
Qed.

Lemma repr_size (hs : list (C * Hold)) (m : gmap C Hold) :
  hs ≡ₚ map_to_list m -> len hs = Z.of_nat (size m).
Proof. intros ->. by rewrite length_map_to_list. Qed.

Lemma filter_map_to_list (m : gmap C Hold) k :
  filter (fun ch => ch.1 <> k) (map_to_list m) ≡ₚ map_to_list (delete k m).
Proof.
  apply NoDup_Permutation.
  - apply NoDup_filter, NoDup_map_to_list.
  - apply NoDup_map_to_list.
  - intros [k' h]. rewrite list_elem_of_filter, !elem_of_map_to_list, lookup_delete_Some.
    simpl. naive_solver.
Qed.

Lemma Forall_filter_gen {A} (Q P : A -> Prop) `{!forall x, Decision (P x)} l :
  Forall Q l -> Forall Q (filter P l).
Proof. rewrite !Forall_forall. intros Hl y [_ Hy]%list_elem_of_filter. auto. Qed.

Lemma StronglySorted_filter_gen {A} (le : relation A) (P : A -> Prop)
    `{!forall x, Decision (P x)} l :
  StronglySorted le l -> StronglySorted le (filter P l).
Proof.
  induction 1 as [|x l Hs IH Hall]; [constructor|].
  rewrite filter_cons. case_decide; [|done]. constructor; [done|].
  by apply Forall_filter_gen.
Qed.

Lemma StronglySorted_fmap_gen {A B} (le : relation A) (le' : relation B) (f : A -> B) l :
  (forall x y, le x y -> le' (f x) (f y)) ->
  StronglySorted le l -> StronglySorted le' (f <$> l).
Proof.
  intros Hf. induction 1 as [|x l Hs IH Hall]; simpl; constructor; [done|].
  apply Forall_fmap. eapply Forall_impl; [done|]. auto.
Qed.

(** The releases handed out by [close] are the stack, newest first. *)
Lemma close_order (hs : list (C * Hold)) (m : gmap C Hold) :
  hs ≡ₚ map_to_list m -> StronglySorted newer hs ->
  merge_sort later (map_to_list m).*2 = hs.*2.
Proof.
  intros Hp Hs.
  assert (Hs' : StronglySorted later hs.*2).
  { eapply StronglySorted_fmap_gen; [|done]. unfold newer, later. lia. }
  assert (Ht : Transitive later) by (intros ???; unfold later; lia).
  assert (Hto : Total later) by (intros x y; unfold later; lia).
  eapply (StronglySorted_unique_strong later).
  - intros x y Hx Hy ??. rewrite merge_sort_Permutation, <- Hp in Hx.
    apply list_elem_of_fmap in Hx as (x' & -> & Hx), Hy as (y' & -> & Hy).
    unfold later in *. clear Hp Hs'. revert Hx Hy.
    induction Hs as [|z l Hs IH Hall]; [by intros ?%elem_of_nil|].
    rewrite Forall_forall in Hall. unfold newer in Hall.
    intros [->|Hx]%elem_of_cons [->|Hy]%elem_of_cons; auto.
    + specialize (Hall _ Hy). lia.
    + specialize (Hall _ Hx). lia.
  - by apply StronglySorted_merge_sort.
  - done.
  - by rewrite merge_sort_Permutation, <- Hp.
Qed.

Lemma lookup_disown d (cs : list (C * Hold)) w d' k :
  disown d cs w !! (d', k) = if decide (d' = d /\ k ∈ cs.*1) then None else w !! (d', k).
Proof.
  induction cs as [|[c h] cs IH]; simpl.
  - rewrite decide_False; [done|]. intros [_ ?%elem_of_nil]. done.
  - destruct (decide ((d, c) = (d', k))) as [?|Hne]; simplify_eq.
    + rewrite lookup_delete_eq, decide_True; [done|]. split; [done|left].
    + rewrite lookup_delete_ne, IH by done. apply decide_ext. set_solver.
Qed.

(** ** Simulation *)

Lemma repr_lookup o a p :
  repr o a ->
  match sessions o !! p with
  | Some s => exists b, a_sessions a !! p = Some b /\ session_repr s b
  | None => a_sessions a !! p = None
  end.
Proof.
  intros Hr. pose proof (r_sessions _ _ Hr p) as Hp.
  destruct Hp as [s b|]; [eauto|done].
Qed.

Lemma repr_insert o a p s s' b' w :
  repr o a -> sessions o !! p = Some s -> session_repr s' b' ->
  owners_exact (<[p := s']> (sessions o)) w ->
  repr (set_maps o (<[p := s']> (sessions o)) w) (spec_set a (<[p := b']> (a_sessions a))).
Proof.
  intros Hr Hs Hb Hw. destruct Hr as [Hm _ Hc Hn Ht]. constructor; simpl; try done.
  - intros q. destruct (decide (p = q)) as [<-|].
    + rewrite !lookup_insert_eq. by constructor.
    + by rewrite !lookup_insert_ne.
  - intros q s'' [[<- <-]|[_ Hq]]%lookup_insert_Some; eauto.
Qed.

Lemma owners_exact_same m w p s s' :
  owners_exact m w -> m !! p = Some s -> s_domain s' = s_domain s ->
  (forall k, is_Some (s_holds s' !! k) <-> is_Some (s_holds s !! k)) ->
  owners_exact (<[p := s']> m) w.
Proof.
  intros Hw Hs Hd Hk d k q. rewrite (Hw d k q).
  destruct (decide (p = q)) as [<-|].
  - rewrite lookup_insert_eq, Hs. split.
    + intros (? & [= <-] & <- & ?). exists s'. by rewrite Hk.
    + intros (? & [= <-] & <- & ?). exists s. by rewrite <- Hk.
  - by rewrite lookup_insert_ne.
Qed.

Lemma owners_exact_hold m w p s s' k :
  owners_exact m w -> m !! p = Some s -> s_domain s' = s_domain s ->
  w !! (s_domain s, k) = None ->
  (forall k', is_Some (s_holds s' !! k') <-> k' = k \/ is_Some (s_holds s !! k')) ->
  owners_exact (<[p := s']> m) (<[(s_domain s, k) := p]> w).
Proof.
  intros Hw Hs Hd Hfree Hk d k' q.
  destruct (decide ((s_domain s, k) = (d, k'))) as [[= <- <-]|Hne].
  - rewrite lookup_insert_eq. split.
    + intros [= <-]. exists s'. rewrite lookup_insert_eq, Hk. auto.
    + intros (s'' & Hq & Hdq & Hkq). f_equal.
      apply lookup_insert_Some in Hq as [[? _]|[_ Hq]]; [done|].
      assert (w !! (s_domain s, k) = Some q) by (apply Hw; eauto). congruence.
  - rewrite lookup_insert_ne, (Hw d k' q) by done.
    destruct (decide (p = q)) as [<-|].
    + rewrite lookup_insert_eq, Hs. split.
      * intros (? & [= <-] & <- & ?). exists s'. rewrite Hk. auto.
      * intros (? & [= <-] & <- & [->|?]%Hk); [|exists s; auto]. destruct Hne. by rewrite Hd.
    + by rewrite lookup_insert_ne.
Qed.

Lemma owners_exact_release m w p s s' k :
  owners_exact m w -> m !! p = Some s -> s_domain s' = s_domain s ->
  is_Some (s_holds s !! k) ->
  (forall k', is_Some (s_holds s' !! k') <-> k' <> k /\ is_Some (s_holds s !! k')) ->
  owners_exact (<[p := s']> m) (delete (s_domain s, k) w).
Proof.
  intros Hw Hs Hd Hheld Hk d k' q.
  destruct (decide ((s_domain s, k) = (d, k'))) as [[= <- <-]|Hne].
  - rewrite lookup_delete_eq. split; [done|].
    intros (s'' & Hq & Hdq & Hkq). exfalso.
    apply lookup_insert_Some in Hq as [[<- <-]|[Hpq Hq]]; [by apply Hk in Hkq as [? _]|].
    assert (w !! (s_domain s, k) = Some q) by (apply Hw; eauto).
    assert (w !! (s_domain s, k) = Some p) by (apply Hw; eauto). congruence.
  - rewrite lookup_delete_ne, (Hw d k' q) by done.
    destruct (decide (p = q)) as [<-|].
    + rewrite lookup_insert_eq, Hs. split.
      * intros (? & [= <-] & <- & ?). exists s'. rewrite Hk. naive_solver.
      * intros (? & [= <-] & <- & [??]%Hk). exists s. auto.
    + by rewrite lookup_insert_ne.
Qed.

Lemma owners_exact_close m w p s :
  owners_exact m w -> m !! p = Some s ->
  owners_exact (delete p m) (disown (s_domain s) (map_to_list (s_holds s)) w).
Proof.
  intros Hw Hs d k q. rewrite lookup_disown.
  pose proof (repr_key (map_to_list (s_holds s)) (s_holds s) k (reflexivity _)) as Hk.
  destruct (decide (p = q)) as [<-|Hpq].
  - rewrite lookup_delete_eq. split; [|naive_solver].
    case_decide as Hd; [done|]. rewrite (Hw d k p), Hs.
    intros (? & [= <-] & <- & ?). tauto.
  - rewrite lookup_delete_ne, <- (Hw d k q) by done.
    case_decide as Hd; [|done]. split; [done|]. destruct Hd as [-> Hh%Hk].
    assert (w !! (s_domain s, k) = Some p) by (apply Hw; eauto). congruence.
Qed.

Definition sim (c : call) : Prop := forall o a, repr o a ->
  (step o c).1 = (spec_step a c).1 /\ repr (step o c).2 (spec_step a c).2.

Lemma repr_sessions_size o a : repr o a -> size (a_sessions a) = size (sessions o).
Proof.
  intros Hr. rewrite <- !(size_dom (D := gset Participant)). f_equal. apply set_eq. intros p.
  rewrite !elem_of_dom. destruct (r_sessions _ _ Hr p); split; intros [? ?]; simplify_eq; eauto.
Qed.

Lemma set_maps_owners o m : set_sessions o m = set_maps o m (owners o).
Proof. done. Qed.

Lemma session_repr_new tg d : session_repr (MkSession tg d ∅ 0 None) (SpecS tg d [] 0 None).
Proof.
  exists []. simpl. rewrite map_to_list_empty. unfold U64_MAX.
  split_and!; done || lia || constructor.
Qed.

Lemma owners_exact_open m w p s :
  owners_exact m w -> m !! p = None -> s_holds s = ∅ -> owners_exact (<[p := s]> m) w.
Proof.
  intros Hw Hp Hs d k q. rewrite (Hw d k q). destruct (decide (p = q)) as [<-|].
  - rewrite lookup_insert_eq, Hp. split; [naive_solver|].
    intros (? & [= <-] & _ & Hk). rewrite Hs, lookup_empty in Hk. by destruct Hk.
  - by rewrite lookup_insert_ne.
Qed.

Lemma open_sim tg d : sim (Open tg d).
Proof.
  intros o a Hr. pose proof (repr_sessions_size _ _ Hr) as Hsz.
  pose proof Hr as [Hm Hw Hc Hn Ht]. injection Hc as H1 H2 H3 H4.
  simpl. unfold open, checked_add_u64. rewrite Hsz, H1, H2, H3.
  destruct (_ || _); simpl; [done|].
  destruct (next o + 1 <=? U64_MAX) eqn:E, (next o =? U64_MAX) eqn:E'; reflect_bools; try lia;
    simpl; [|done].
  split; [done|].
  assert (Hfresh : sessions o !! Token (o_registry o) (next o + 1) = None).
  { destruct (sessions o !! _) as [s|] eqn:Hs; [|done]. apply Ht in Hs as [_ Hs].
    simpl in Hs. lia. }
  constructor; simpl; [| | |lia|].
  - intros q. destruct (decide (Token (o_registry o) (next o + 1) = q)) as [<-|].
    + rewrite !lookup_insert_eq. constructor. apply session_repr_new.
    + by rewrite !lookup_insert_ne.
  - by apply owners_exact_open.
  - by rewrite H4.
  - intros q s [[<- _]|[_ Hq]]%lookup_insert_Some; simpl; [lia|]. apply Ht in Hq. lia.
Qed.

Lemma accept_sequence_sim p n : sim (AcceptSequence p n).
Proof.
  intros o a Hr. pose proof (repr_lookup _ _ p Hr) as Hp. simpl. unfold accept_sequence.
  destruct (sessions o !! p) as [s|] eqn:Hs; [|by rewrite Hp].
  destruct Hp as (b & -> & Hb). pose proof Hb as (hs & Hperm & Hsort & Hall & Hord & ->).
  simpl. destruct (s_last_sequence s) as [m|]; [destruct (n <=? m)|]; simpl; try done;
    (split; [done|]; rewrite set_maps_owners; eapply repr_insert; [done|done| |];
     [exists hs; done|eapply owners_exact_same; eauto using r_owners]).
Qed.

Lemma holds_control_owner o a d k :
  repr o a ->
  map_Exists (fun _ => holds_control d k) (a_sessions a) <-> is_Some (owners o !! (d, k)).
Proof.
  intros Hr. split.
  - intros (p & b & Hb & Hd & Hk). pose proof (repr_lookup _ _ p Hr) as Hp.
    destruct (sessions o !! p) as [s|] eqn:Hs; [|congruence].
    destruct Hp as (b' & Hb' & hs & Hperm & _ & _ & _ & ->). simplify_eq/=.
    rewrite stack_keys, repr_key in Hk by done.
    exists p. apply (r_owners _ _ Hr). eauto.
  - intros [p (s & Hs & Hd & Hk)%(r_owners _ _ Hr)]. pose proof (repr_lookup _ _ p Hr) as Hp.
    rewrite Hs in Hp. destruct Hp as (b & Hb & hs & Hperm & _ & _ & _ & ->).
    eexists p, _. split; [done|]. split; simpl; [done|]. by rewrite stack_keys, repr_key.
Qed.

Lemma hold_sim p k x : sim (HoldControl p k x).
Proof.
  intros o a Hr. pose proof (repr_lookup _ _ p Hr) as Hp. simpl. unfold hold, spec_hold.
  destruct (sessions o !! p) as [s|] eqn:Hs; [|by rewrite Hp].
  destruct Hp as (b & -> & Hb). pose proof Hb as (hs & Hperm & Hsort & Hall & Hord & ->).
  simpl. pose proof (r_config _ _ Hr) as Hc. injection Hc as _ _ _ Hmh.
  rewrite stack_keys, length_fmap, (repr_size _ _ Hperm), Hmh.
  rewrite (bool_decide_ext _ _ (repr_key _ _ k Hperm)).
  rewrite (bool_decide_ext _ _ (holds_control_owner _ _ (s_domain s) k Hr)).
  case_bool_decide as Hheld; simpl; [done|]. destruct (max_held o <=? _); simpl; [done|].
  case_bool_decide as Hown; simpl; [done|]. unfold checked_add_u64.
  destruct (s_ordinal s + 1 <=? U64_MAX) eqn:E, (s_ordinal s =? U64_MAX) eqn:E';
    reflect_bools; try lia; simpl; [|done].
  apply eq_None_not_Some in Hheld, Hown. split; [done|].
  eapply repr_insert; [done|done| |].
  - exists ((k, MkHold x (s_ordinal s + 1)) :: hs). simpl.
    split_and!; [by rewrite map_to_list_insert, Hperm| | |lia|lia|done].
    + constructor; [done|]. eapply Forall_impl; [done|]. unfold newer. simpl. lia.
    + constructor; simpl; [lia|]. eapply Forall_impl; [done|]. simpl. lia.
  - apply owners_exact_hold; [apply Hr|done|done|done|]. intros k'. simpl.
    rewrite lookup_insert_is_Some. split; [|destruct (decide (k' = k)); naive_solver].
    naive_solver.
Qed.

Lemma replace_release_sim p k x : sim (ReplaceRelease p k x).
Proof.
  intros o a Hr. pose proof (repr_lookup _ _ p Hr) as Hp. simpl. unfold replace_release.
  destruct (sessions o !! p) as [s|] eqn:Hs; [|by rewrite Hp].
  destruct Hp as (b & -> & Hb). pose proof Hb as (hs & Hperm & Hsort & Hall & Hord & ->).
  simpl. rewrite (repr_get _ _ k Hperm).
  destruct (s_holds s !! k) as [h|] eqn:Hk; simpl; [|done]. split; [done|].
  rewrite set_maps_owners. eapply repr_insert; [done|done| |].
  - set (f := fun ch : C * Hold => if decide (ch.1 = k) then (ch.1, MkHold x (h_ordinal ch.2)) else ch).
    exists (f <$> hs). simpl. split_and!; [|eapply StronglySorted_fmap_gen; [|done]| |lia|lia|].
    + rewrite Hperm. apply NoDup_Permutation; [|apply NoDup_map_to_list|].
      * apply NoDup_fmap_2_strong; [|apply NoDup_map_to_list]. intros [k1 h1] [k2 h2].
        rewrite !elem_of_map_to_list. unfold f. simpl. repeat case_decide; naive_solver.
      * intros [k' h']. rewrite list_elem_of_fmap, elem_of_map_to_list, lookup_insert_Some.
        unfold f. split.
        -- intros ([k1 h1] & Heq & Hin%elem_of_map_to_list). simpl in *.
           case_decide; simplify_eq; auto.
        -- intros [[-> <-]|[Hne Hh']].
           ++ exists (k', h). rewrite elem_of_map_to_list. simpl. by rewrite decide_True.
           ++ exists (k', h'). rewrite elem_of_map_to_list. simpl. by rewrite decide_False.
    + intros [k1 h1] [k2 h2]. unfold newer, f. simpl. repeat case_decide; done.
    + apply Forall_fmap. eapply Forall_impl; [done|]. intros [k1 h1]. unfold f. simpl.
      case_decide; done.
    + f_equal. rewrite <- !list_fmap_compose. apply list_fmap_ext. intros _ [k1 h1] _.
      unfold f, set_top. simpl. by case_decide.
  - eapply owners_exact_same; [apply Hr|done|done|]. intros k'. simpl.
    rewrite lookup_insert_is_Some. split; [|destruct (decide (k = k')); naive_solver].
    intros [<-|[_ ?]]; [rewrite Hk; eauto|done].
Qed.

Lemma release_sim p k : sim (Release p k).
Proof.
  intros o a Hr. pose proof (repr_lookup _ _ p Hr) as Hp. simpl. unfold release.
  destruct (sessions o !! p) as [s|] eqn:Hs; [|by rewrite Hp].
  destruct Hp as (b & -> & Hb). pose proof Hb as (hs & Hperm & Hsort & Hall & Hord & ->).
  simpl. rewrite (repr_get _ _ k Hperm).
  destruct (s_holds s !! k) as [h|] eqn:Hk; simpl; [|done]. split; [done|].
  eapply repr_insert; [done|done| |].
  - exists (filter (fun ch => ch.1 <> k) hs). simpl.
    split_and!; [| |by apply Forall_filter_gen|lia|lia|].
    + by rewrite Hperm, filter_map_to_list.
    + by apply StronglySorted_filter_gen.
    + f_equal. apply stack_remove.
  - eapply owners_exact_release; [apply Hr|done|done|eauto|]. intros k'. simpl.
    rewrite lookup_delete_is_Some. naive_solver.
Qed.

Lemma close_sim p : sim (Close p).
Proof.
  intros o a Hr. pose proof (repr_lookup _ _ p Hr) as Hp. simpl. unfold close.
  destruct (sessions o !! p) as [s|] eqn:Hs; [|by rewrite Hp].
  destruct Hp as (b & -> & hs & Hperm & Hsort & Hall & Hord & ->). simpl. split.
  - f_equal. rewrite (close_order _ _ Hperm Hsort), <- !list_fmap_compose. done.
  - destruct Hr as [Hm Hw Hc Hn Ht]. constructor; simpl; [| |done|done|].
    + intros q. destruct (decide (p = q)) as [<-|].
      * rewrite !lookup_delete_eq. constructor.
      * by rewrite !lookup_delete_ne.
    + by apply owners_exact_close.
    + intros q s' [_ Hq]%lookup_delete_Some. eauto.
Qed.

Lemma step_sim c : sim c.
Proof.
  destruct c; auto using open_sim, accept_sequence_sim, hold_sim, replace_release_sim,
    release_sim, close_sim.
Qed.

Definition spec_new (n ms mh : Z) : SpecState :=
  SpecMk ∅ (if n + 1 <=? U64_MAX then n else 0) 0 ms mh.

Lemma repr_empty r ms mh : repr (Make ∅ ∅ r 0 ms mh) (SpecMk ∅ r 0 ms mh).
Proof.
  constructor; simpl; [| |done|unfold U64_MAX; lia|].
  - intros p. rewrite !lookup_empty. constructor.
  - intros d k p. rewrite lookup_empty. split; [done|].
    intros (s & Hs & _). by rewrite lookup_empty in Hs.
  - intros p s Hs. by rewrite lookup_empty in Hs.
Qed.

Lemma repr_new n ms mh : repr (new n ms mh).1 (spec_new n ms mh).
Proof.
  unfold new, checked_add_u64, spec_new. destruct (n + 1 <=? U64_MAX); apply repr_empty.
Qed.

Lemma run_sim cs : forall o a, repr o a ->
  (run o cs).1 = (spec_run a cs).1 /\ repr (run o cs).2 (spec_run a cs).2.
Proof.
  induction cs as [|c cs IH]; intros o a Hr; simpl; [done|].
  pose proof (step_sim c o a Hr) as [Ha Hr'].
  destruct (step o c) as [x o1], (spec_step a c) as [y a1]; simpl in *; subst.
  destruct (IH _ _ Hr') as [Hl Hr2].
  destruct (run o1 cs), (spec_run a1 cs); simpl in *. by subst.
Qed.

(** ** Bounds *)

Definition bounded (o : t) : Prop :=
  Z.of_nat (size (sessions o)) <= Z.max 0 (max_sessions o) /\
  forall p s, sessions o !! p = Some s ->
    Z.of_nat (size (s_holds s)) <= Z.max 0 (max_held o).

Lemma bounded_insert o p s s' w :
  bounded o -> sessions o !! p = Some s ->
  Z.of_nat (size (s_holds s')) <= Z.max 0 (max_held o) ->
  bounded (set_maps o (<[p := s']> (sessions o)) w).
Proof.
  intros [Hm Hh] Hs Hs'. split; simpl.
  - by rewrite map_size_insert_Some by eauto.
  - intros q s'' [[<- <-]|[_ Hq]]%lookup_insert_Some; eauto.
Qed.

Lemma step_keeps_limits o c : bounded o -> bounded (step o c).2.
Proof.
  intros Hb. pose proof Hb as [Hm Hh]. destruct c as [tg d|p n|p k x|p k x|p k|p]; simpl.
  - unfold open. destruct (_ || _) eqn:E; [done|]. apply orb_false_iff in E as [_ E].
    destruct (checked_add_u64 _ _); [|done]. reflect_bools. split; simpl.
    + rewrite map_size_insert. case_match; simpl; lia.
    + intros q s [[_ <-]|[_ Hq]]%lookup_insert_Some; [|eauto]. simpl.
      rewrite map_size_empty. lia.
  - unfold accept_sequence. destruct (sessions o !! p) as [s|] eqn:Hs; [|done].
    destruct (match s_last_sequence s with Some m => n <=? m | None => false end); [done|].
    simpl. rewrite set_maps_owners. eapply bounded_insert; [done|done|]. exact (Hh _ _ Hs).
  - unfold hold. destruct (sessions o !! p) as [s|] eqn:Hs; [|done].
    case_bool_decide as Hk; [done|]. destruct (max_held o <=? _) eqn:E; [done|].
    case_bool_decide; [done|]. destruct (checked_add_u64 _ _); [|done].
    eapply bounded_insert; [done|done|]. simpl. reflect_bools.
    rewrite map_size_insert_None by (by apply eq_None_not_Some). lia.
  - unfold replace_release. destruct (sessions o !! p) as [s|] eqn:Hs; [|done].
    destruct (s_holds s !! k) as [h|] eqn:Hk; [|done]. simpl. rewrite set_maps_owners.
    eapply bounded_insert; [done|done|]. simpl. specialize (Hh _ _ Hs). rewrite map_size_insert_Some; eauto.
  - unfold release. destruct (sessions o !! p) as [s|] eqn:Hs; [|done].
    destruct (s_holds s !! k) as [h|] eqn:Hk; [|done]. simpl.
    eapply bounded_insert; [done|done|]. simpl.
    specialize (Hh _ _ Hs). rewrite map_size_delete, Hk. lia.
  - unfold close. destruct (sessions o !! p) as [s|] eqn:Hs; [|done]. split; simpl.
    + rewrite map_size_delete, Hs. lia.
    + intros q s' [_ Hq]%lookup_delete_Some. eauto.
Qed.

Lemma run_keeps_limits cs : forall o, bounded o -> bounded (run o cs).2.
Proof.
  induction cs as [|c cs IH]; intros o Hb; simpl; [done|].
  pose proof (step_keeps_limits o c Hb) as Hs. destruct (step o c) as [x o1].
  specialize (IH o1 Hs). by destruct (run o1 cs).
Qed.

(** ** Conservation of releases *)

Definition session_releases (s : Session) : list R := h_release <$> (map_to_list (s_holds s)).*2.

(** The prepared releases the registry keeps. *)
Definition retained (o : t) : list R :=
  map_to_list (sessions o) ≫= (fun ps => session_releases ps.2).

Definition accepted (c : call) (a : answer) : list R :=
  match c, a with
  | HoldControl _ _ x, Done | ReplaceRelease _ _ x, Handed _ => [x]
  | _, _ => []
  end.

Definition handed (a : answer) : list R := match a with Handed xs => xs | _ => [] end.

Lemma retained_split o p s :
  sessions o !! p = Some s ->
  retained o ≡ₚ session_releases s ++ retained (set_sessions o (delete p (sessions o))).
Proof.
  intros Hs. unfold retained. simpl. by rewrite <- (map_to_list_delete _ _ _ Hs), bind_cons.
Qed.

Lemma retained_insert o p s s' w :
  sessions o !! p = Some s ->
  retained (set_maps o (<[p := s']> (sessions o)) w) ≡ₚ
  session_releases s' ++ retained (set_sessions o (delete p (sessions o))).
Proof.
  intros Hs. rewrite (retained_split _ p s') by (simpl; by rewrite lookup_insert_eq).
  unfold retained; simpl. by rewrite delete_insert_eq.
Qed.

Lemma releases_split s k h :
  s_holds s !! k = Some h ->
  session_releases s ≡ₚ h_release h :: session_releases (set_holds s (delete k (s_holds s))).
Proof. intros Hk. unfold session_releases. by rewrite <- (map_to_list_delete _ _ _ Hk). Qed.

Lemma releases_insert s k h :
  session_releases (set_holds s (<[k := h]> (s_holds s))) ≡ₚ
  h_release h :: session_releases (set_holds s (delete k (s_holds s))).
Proof.
  rewrite (releases_split _ k h) by (simpl; by rewrite lookup_insert_eq).
  simpl. by rewrite delete_insert_eq.
Qed.

Lemma open_fresh o a p tg d :
  repr o a -> (open o tg d).1 = inl p -> sessions o !! p = None.
Proof.
  intros Hr. unfold open, checked_add_u64. repeat case_match; simpl; try done. intros; simplify_eq.
  destruct (sessions o !! _) as [s|] eqn:Hs; [|done].
  apply (r_tokens _ _ Hr) in Hs as [_ Hs]. simpl in Hs. lia.
Qed.

Lemma step_conserves o a c :
  repr o a ->
  accepted c (step o c).1 ++ retained o ≡ₚ handed (step o c).1 ++ retained (step o c).2.
Proof.
  intros Hr. destruct c as [tg d|p n|p k x|p k x|p k|p]; simpl.
  - pose proof (fun p => open_fresh _ _ p tg d Hr) as Hf. unfold open in *.
    destruct (_ || _); [done|]. destruct (checked_add_u64 _ _); [|done]. simpl in *.
    unfold retained; simpl. rewrite map_to_list_insert, bind_cons by auto.
    unfold session_releases at 2. simpl. by rewrite map_to_list_empty.
  - unfold accept_sequence. destruct (sessions o !! p) as [s|] eqn:Hs; [|done].
    destruct (match s_last_sequence s with Some m => n <=? m | None => false end); [done|].
    simpl. rewrite set_maps_owners, (retained_insert _ _ _ _ _ Hs). exact (retained_split _ _ _ Hs).
  - unfold hold. destruct (sessions o !! p) as [s|] eqn:Hs; [|done].
    case_bool_decide as Hk; [done|]. destruct (max_held o <=? _); [done|].
    case_bool_decide; [done|]. destruct (checked_add_u64 _ _) as [n|]; [|done]. simpl.
    rewrite (retained_insert _ _ _ _ _ Hs), (retained_split _ _ _ Hs).
    unfold session_releases at 2. simpl.
    by rewrite map_to_list_insert by (by apply eq_None_not_Some).
  - unfold replace_release. destruct (sessions o !! p) as [s|] eqn:Hs; [|done].
    destruct (s_holds s !! k) as [h|] eqn:Hk; [|done]. simpl.
    rewrite set_maps_owners, (retained_insert _ _ _ _ _ Hs), (retained_split _ _ _ Hs).
    rewrite (releases_split _ _ _ Hk), releases_insert. simpl. apply Permutation_swap.
  - unfold release. destruct (sessions o !! p) as [s|] eqn:Hs; [|done].
    destruct (s_holds s !! k) as [h|] eqn:Hk; [|done]. simpl.
    by rewrite (retained_insert _ _ _ _ _ Hs), (retained_split _ _ _ Hs), (releases_split _ _ _ Hk).
  - unfold close. destruct (sessions o !! p) as [s|] eqn:Hs; [|done]. simpl.
    rewrite (retained_split _ _ _ Hs). apply Permutation_app; [|done].
    unfold session_releases. apply Permutation_map. by rewrite merge_sort_Permutation.
Qed.

Fixpoint accepted_all (cs : list call) (l : list answer) : list R :=
  match cs, l with
  | c :: cs, a :: l => accepted c a ++ accepted_all cs l
  | _, _ => []
  end.

Lemma run_conserves cs : forall o a, repr o a ->
  accepted_all cs (run o cs).1 ++ retained o ≡ₚ
  ((run o cs).1 ≫= handed) ++ retained (run o cs).2.
Proof.
  induction cs as [|c cs IH]; intros o a Hr; simpl; [done|].
  pose proof (step_conserves _ _ c Hr) as Hc. pose proof (step_sim c _ _ Hr) as [_ Hr'].
  destruct (step o c) as [x o1]; simpl in *. specialize (IH _ _ Hr').
  destruct (run o1 cs) as [l o2]; simpl in *. rewrite <- !app_assoc, <- IH.
  rewrite (Permutation_app_comm (accepted_all cs l)), app_assoc, Hc.
  rewrite <- !app_assoc. by rewrite (Permutation_app_comm (accepted_all cs l)).
Qed.

(** ** Tokens and sequence numbers *)

Definition issued (o : t) (p : Participant) : Prop :=
  registry p = o_registry o /\ sequence p <= next o.

Lemma step_issued o a c p :
  repr o a -> issued o p ->
  issued (step o c).2 p /\ (sessions o !! p = None -> sessions (step o c).2 !! p = None).
Proof.
  intros Hr Hi. destruct c as [tg d|q n|q k x|q k x|q k|q]; simpl.
  - unfold open, checked_add_u64. destruct (_ || _); [done|].
    destruct (next o + 1 <=? U64_MAX); [|done]. destruct Hi as [Hi1 Hi2]. simpl. split.
    + split; simpl; [done|lia].
    + intros Hp. rewrite lookup_insert_ne; [done|]. intros <-. simpl in Hi2. lia.
  - unfold accept_sequence. destruct (sessions o !! q) as [s|] eqn:Hs; [|done].
    destruct (match s_last_sequence s with Some m => n <=? m | None => false end); [done|].
    simpl. split; [done|]. intros Hp. rewrite lookup_insert_ne; congruence.
  - unfold hold. destruct (sessions o !! q) as [s|] eqn:Hs; [|done].
    case_bool_decide; [done|]. destruct (max_held o <=? _); [done|].
    case_bool_decide; [done|]. destruct (checked_add_u64 _ _) as [n|]; [|done]. simpl.
    split; [done|]. intros Hp. rewrite lookup_insert_ne; congruence.
  - unfold replace_release. destruct (sessions o !! q) as [s|] eqn:Hs; [|done].
    destruct (s_holds s !! k); [|done]. simpl.
    split; [done|]. intros Hp. rewrite lookup_insert_ne; congruence.
  - unfold release. destruct (sessions o !! q) as [s|] eqn:Hs; [|done].
    destruct (s_holds s !! k); [|done]. simpl.
    split; [done|]. intros Hp. rewrite lookup_insert_ne; congruence.
  - unfold close. destruct (sessions o !! q) as [s|] eqn:Hs; [|done]. simpl. split; [done|].
    intros Hp. rewrite lookup_delete_None. auto.
Qed.

Lemma run_issued cs : forall o a p, repr o a -> issued o p -> sessions o !! p = None ->
  issued (run o cs).2 p /\ sessions (run o cs).2 !! p = None.
Proof.
  induction cs as [|c cs IH]; intros o a p Hr Hi Hp; simpl; [done|].
  pose proof (step_issued _ _ c p Hr Hi) as [Hi' Hp']. pose proof (step_sim c _ _ Hr) as [_ Hr'].
  destruct (step o c) as [x o1]; simpl in *. specialize (IH _ _ _ Hr' Hi' (Hp' Hp)).
  by destruct (run o1 cs).
Qed.

(** The sequence numbers of [p] a run accepts, in order. *)
Fixpoint accepted_sequences (p : Participant) (cs : list call) (l : list answer) : list Z :=
  match cs, l with
  | AcceptSequence q n :: cs, Done :: l =>
      if decide (q = p) then n :: accepted_sequences p cs l else accepted_sequences p cs l
  | _ :: cs, _ :: l => accepted_sequences p cs l
  | _, _ => []
  end.

(** What a participant's next accepted sequence number must exceed. *)
Definition above (o : t) (p : Participant) (n : Z) : Prop :=
  match sessions o !! p with
  | Some s => match s_last_sequence s with Some m => m < n | None => True end
  | None => True
  end.

Lemma insert_last (m : gmap Participant Session) p q s s1 s2 s' :
  m !! p = Some s -> m !! q = Some s1 -> s_last_sequence s2 = s_last_sequence s1 ->
  <[q := s2]> m !! p = Some s' -> s_last_sequence s' = s_last_sequence s.
Proof. intros ? ? ? [[-> <-]|[_ ?]]%lookup_insert_Some; congruence. Qed.

Lemma step_last o a c p s s' :
  repr o a -> sessions o !! p = Some s -> sessions (step o c).2 !! p = Some s' ->
  s_last_sequence s' = s_last_sequence s \/
  exists n, c = AcceptSequence p n /\ s_last_sequence s' = Some n /\ above o p n.
Proof.
  intros Hr Hs. unfold above. rewrite Hs. destruct c as [tg d|q n|q k x|q k x|q k|q]; simpl.
  - pose proof (fun p => open_fresh _ _ p tg d Hr) as Hf. unfold open in *.
    destruct (_ || _); simpl; [naive_solver|]. destruct (checked_add_u64 _ _); simpl; [|naive_solver].
    simpl in Hf. specialize (Hf _ eq_refl). rewrite lookup_insert_ne; naive_solver.
  - unfold accept_sequence. destruct (sessions o !! q) as [sq|] eqn:Hq; [|naive_solver].
    destruct (match s_last_sequence sq with Some m => n <=? m | None => false end) eqn:E;
      simpl; [naive_solver|].
    intros [[-> <-]|[_ ?]]%lookup_insert_Some; [|naive_solver]. right. exists n. simplify_eq.
    destruct (s_last_sequence s); [|done]. reflect_bools. done.
  - unfold hold. destruct (sessions o !! q) as [sq|] eqn:Hq; [|naive_solver].
    case_bool_decide; [naive_solver|]. destruct (max_held o <=? _); [naive_solver|].
    case_bool_decide; [naive_solver|]. destruct (checked_add_u64 _ _) as [n|]; [|naive_solver].
    simpl. intros ?. left. by eapply insert_last; [exact Hs|exact Hq| |eassumption].
  - unfold replace_release. destruct (sessions o !! q) as [sq|] eqn:Hq; [|naive_solver].
    destruct (s_holds sq !! k); [|naive_solver].
    simpl. intros ?. left. by eapply insert_last; [exact Hs|exact Hq| |eassumption].
  - unfold release. destruct (sessions o !! q) as [sq|] eqn:Hq; [|naive_solver].
    destruct (s_holds sq !! k); [|naive_solver].
    simpl. intros ?. left. by eapply insert_last; [exact Hs|exact Hq| |eassumption].
  - unfold close. destruct (sessions o !! q) as [sq|] eqn:Hq; [|naive_solver]. simpl.
    intros [_ ?]%lookup_delete_Some. naive_solver.
Qed.

Lemma accept_done o p n :
  (step o (AcceptSequence p n)).1 = Done ->
  above o p n /\
  exists s, sessions (step o (AcceptSequence p n)).2 !! p = Some s /\ s_last_sequence s = Some n.
Proof.
  simpl. unfold accept_sequence, above. destruct (sessions o !! p) as [s|] eqn:Hs; [|done].
  destruct (match s_last_sequence s with Some m => n <=? m | None => false end) eqn:E; [done|].
  simpl. intros _. split; [|eexists; by rewrite lookup_insert_eq].
  destruct (s_last_sequence s); [|done]. by reflect_bools.
Qed.

Lemma above_step o a c p l :
  repr o a -> Forall (above (step o c).2 p) l ->
  (issued (step o c).2 p -> sessions (step o c).2 !! p = None -> l = []) ->
  Forall (above o p) l.
Proof.
  intros Hr Hl Hd. unfold above at 1.
  destruct (sessions o !! p) as [s|] eqn:Hs; [|by apply Forall_true].
  pose proof (step_issued o a c p Hr (r_tokens _ _ Hr _ _ Hs)) as [Hi _].
  destruct (sessions (step o c).2 !! p) as [s'|] eqn:Hs'; [|by rewrite Hd].
  eapply Forall_impl; [exact Hl|]. intros n. unfold above. rewrite Hs'.
  destruct (step_last _ _ _ _ _ _ Hr Hs Hs') as [->|(m & _ & -> & Hm)]; [done|].
  unfold above in Hm. rewrite Hs in Hm. destruct (s_last_sequence s); [lia|done].
Qed.

Lemma run_sequences cs p : forall o a, repr o a ->
  let acc := accepted_sequences p cs (run o cs).1 in
  StronglySorted Z.lt acc /\ Forall (above o p) acc /\
  (issued o p -> sessions o !! p = None -> acc = []).
Proof.
  induction cs as [|c cs IH]; intros o a Hr; simpl; [split_and!; constructor|].
  pose proof (step_sim c _ _ Hr) as [_ Hr'].
  pose proof (fun Hi => step_issued _ _ c p Hr Hi) as Hiss.
  pose proof (fun l => above_step o a c p l Hr) as Habove.
  assert (Hacc : forall n, c = AcceptSequence p n -> (step o c).1 = Done -> above o p n /\
    exists s, sessions (step o c).2 !! p = Some s /\ s_last_sequence s = Some n)
    by (intros n ->; apply accept_done).
  destruct (step o c) as [x o1] eqn:Hst; simpl in *. destruct (IH _ _ Hr') as (Hso & Hab & Hde).
  destruct (run o1 cs) as [l o2]; simpl in *.
  assert (Hrest : StronglySorted Z.lt (accepted_sequences p cs l) /\
    Forall (above o p) (accepted_sequences p cs l) /\
    (issued o p -> sessions o !! p = None -> accepted_sequences p cs l = [])).
  { split_and!; [done|by apply Habove|]. intros Hi Hp. apply Hde; by apply Hiss. }
  destruct c as [| q n | | | |]; try exact Hrest. destruct x; try exact Hrest.
  case_decide as Hq; [subst q|exact Hrest].
  destruct (Hacc n eq_refl eq_refl) as (Hn & s' & Hs' & Hl'). destruct Hrest as (_ & Ho & _). split_and!.
  - constructor; [done|]. eapply Forall_impl; [exact Hab|]. intros m. unfold above.
    by rewrite Hs', Hl'.
  - by constructor.
  - intros Hi Hp. destruct (Hiss Hi) as [_ Hnone]. specialize (Hnone Hp). congruence.
Qed.

(** ** What a call of one participant leaves alone *)

Definition caller (c : call) : option Participant :=
  match c with
  | Open _ _ => None
  | AcceptSequence p _ | HoldControl p _ _ | ReplaceRelease p _ _ | Release p _ | Close p => Some p
  end.

Lemma insert_frame (m : gmap Participant Session) p q s s' :
  m !! p = Some s -> (q <> p -> <[p := s']> m !! q = m !! q) /\
  (is_Some (<[p := s']> m !! q) <-> is_Some (m !! q)).
Proof.
  intros Hs. split; [intros; by rewrite lookup_insert_ne|].
  destruct (decide (p = q)) as [<-|]; [|by rewrite lookup_insert_ne].
  rewrite lookup_insert_eq, Hs. split; eauto.
Qed.

Lemma step_frame o c p q :
  caller c = Some p ->
  (q <> p -> sessions (step o c).2 !! q = sessions o !! q) /\
  (c <> Close p -> is_Some (sessions (step o c).2 !! q) <-> is_Some (sessions o !! q)).
Proof.
  destruct c as [tg d|p' n|p' k x|p' k x|p' k|p']; simpl; intros [= ->].
  - unfold accept_sequence. destruct (sessions o !! p) as [s|] eqn:Hs; [|done].
    destruct (match s_last_sequence s with Some m => n <=? m | None => false end); [done|].
    simpl. eapply insert_frame in Hs as [? ?]. eauto.
  - unfold hold. destruct (sessions o !! p) as [s|] eqn:Hs; [|done].
    case_bool_decide; [done|]. destruct (max_held o <=? _); [done|].
    case_bool_decide; [done|]. destruct (checked_add_u64 _ _) as [n|]; [|done].
    simpl. eapply insert_frame in Hs as [? ?]. eauto.
  - unfold replace_release. destruct (sessions o !! p) as [s|] eqn:Hs; [|done].
    destruct (s_holds s !! k); [|done]. simpl. eapply insert_frame in Hs as [? ?]. eauto.
  - unfold release. destruct (sessions o !! p) as [s|] eqn:Hs; [|done].
    destruct (s_holds s !! k); [|done]. simpl. eapply insert_frame in Hs as [? ?]. eauto.
  - unfold close. destruct (sessions o !! p) as [s|] eqn:Hs; [|done]. simpl.
    split; [|done]. intros. by rewrite lookup_delete_ne.
Qed.

Lemma close_gone o p : sessions (close o p).2 !! p = None.
Proof.
  unfold close. destruct (sessions o !! p) eqn:Hs; [|done]. simpl. by rewrite lookup_delete_eq.
Qed.

(** C2: every sequence of calls on a fresh registry is answered exactly as the
    contract answers it: [close] hands out a session's releases newest first,
    a control is refused precisely when some session of the same domain holds
    it, and every refusal carries the error the contract gives. *)
Theorem ownership_refines_spec (n ms mh : Z) (cs : list call) :
  (run (new n ms mh).1 cs).1 = (spec_run (spec_new n ms mh) cs).1.
Proof. by apply run_sim, repr_new. Qed.

(** C3: after any calls, the owner index holds exactly the controls the live
    sessions hold, so no control of a domain has two owners, and neither the
    session limit nor a session's hold limit is exceeded. *)
Theorem ownership_exclusive (n ms mh : Z) (cs : list call) :
  let o := (run (new n ms mh).1 cs).2 in
  owners_exact (sessions o) (owners o) /\ bounded o /\
  forall (p q : Participant) (s s' : Session) (k : C),
    sessions o !! p = Some s -> sessions o !! q = Some s' ->
    s_domain s = s_domain s' -> is_Some (s_holds s !! k) -> is_Some (s_holds s' !! k) -> p = q.
Proof.
  intros o. assert (Hr : repr o (spec_run (spec_new n ms mh) cs).2) by apply run_sim, repr_new.
  pose proof (r_owners _ _ Hr) as Hw. split_and!; [done| |].
  2: intros p q s s' k Hs Hs' Hd Hk Hk'.
  2: assert (owners o !! (s_domain s, k) = Some p) by (apply Hw; eauto).
  2: assert (owners o !! (s_domain s, k) = Some q) by (apply Hw; eauto); congruence.
  - apply run_keeps_limits. unfold new, bounded.
    destruct (checked_add_u64 n 1); simpl; rewrite map_size_empty; (split; [lia|]);
      intros ? ?; by rewrite lookup_empty.
Qed.

(** Prepared releases are neither lost nor duplicated. Over any calls on a
    fresh registry, the releases it accepted are, as a multiset, those it
    handed back (by [release], [replace_release] and [close]) and those it
    still keeps; with no session left, all of them have been handed back. *)
Theorem releases_conserved (n ms mh : Z) (cs : list call) :
  let '(l, o) := run (new n ms mh).1 cs in
  accepted_all cs l ≡ₚ (l ≫= handed) ++ retained o /\
  (sessions o = ∅ -> accepted_all cs l ≡ₚ l ≫= handed).
Proof.
  pose proof (run_conserves cs _ _ (repr_new n ms mh)) as Hc.
  destruct (run (new n ms mh).1 cs) as [l o]; simpl in *.
  assert (Hn : retained (new n ms mh).1 = []).
  { unfold new, retained. destruct (checked_add_u64 n 1); simpl; by rewrite map_to_list_empty. }
  rewrite Hn, app_nil_r in Hc. split; [done|]. intros Ho. rewrite Hc.
  unfold retained. by rewrite Ho, map_to_list_empty, app_nil_r.
Qed.

(** Delayed input cannot enter a session. The sequence numbers accepted for
    a token strictly increase over any calls, and once a token's session is
    closed no later call makes it live again. *)
Theorem tokens_fence_input (n ms mh : Z) (cs cs' : list call) (p : Participant) (s : Session) :
  let o := (run (new n ms mh).1 cs).2 in
  sessions o !! p = Some s ->
  StronglySorted Z.lt (accepted_sequences p (cs ++ cs') (run (new n ms mh).1 (cs ++ cs')).1) /\
  target (run (close o p).2 cs').2 p = inr SessionNotFound /\
  accepted_sequences p cs' (run (close o p).2 cs').1 = [].
Proof.
  intros o Hs.
  assert (Hr : repr o (spec_run (spec_new n ms mh) cs).2) by apply run_sim, repr_new.
  pose proof (step_sim (Close p) _ _ Hr) as [_ Hr'].
  pose proof (step_issued _ _ (Close p) p Hr (r_tokens _ _ Hr _ _ Hs)) as [Hi _].
  pose proof (close_gone o p) as Hnone.
  simpl in Hr', Hi. destruct (close o p) as [xs o1]; simpl in *. split_and!.
  - eapply run_sequences, repr_new.
  - unfold target. by rewrite (proj2 (run_issued cs' _ _ _ Hr' Hi Hnone)).
  - by eapply run_sequences.
Qed.

End ownership.

Definition sample_calls : list (call (C := Z) (R := string)) :=
  [Open (Identity "window" 1) "pid"; HoldControl (Token 7 1) 3 "up3"; AcceptSequence (Token 7 1) 5;
   HoldControl (Token 7 1) 4 "up4"; ReplaceRelease (Token 7 1) 3 "up3b"].

Definition sample_session : Session (C := Z) (R := string) :=
  MkSession (Identity "window" 1) "pid" {[3 := MkHold "up3b" 1; 4 := MkHold "up4" 2]} 2 (Some 5).

Lemma ownership_exclusive_witness :
  bounded (run (new 7 2 8).1 sample_calls).2.
Proof.
  apply (ownership_exclusive (C := Z) (R := string) 7 2 8 sample_calls).
Defined.

Lemma tokens_fence_input_witness :
  target (run (close (run (new 7 2 8).1 sample_calls).2 (Token 7 1)).2
            [AcceptSequence (Token 7 1) 9]).2 (Token 7 1) = inr SessionNotFound.
Proof.
  apply (tokens_fence_input 7 2 8 sample_calls [AcceptSequence (Token 7 1) 9] (Token 7 1)
           sample_session). vm_compute. reflexivity.
Defined.

Lemma releases_conserved_witness :
  accepted_all (sample_calls ++ [Close (Token 7 1)])
    (run (new 7 2 8).1 (sample_calls ++ [Close (Token 7 1)])).1 ≡ₚ
  ["up3"; "up4"; "up3b"].
Proof.
  pose proof (releases_conserved 7 2 8 (sample_calls ++ [Close (Token 7 1)])) as Hc.
  vm_compute in Hc. vm_compute. apply Hc. reflexivity.
Defined.

End Ownership.
