(* ===== verification/InputHost.v ===== *)
(** * Input validation and delivery

    [Input] models src/cantrip_interaction/src/input.rs: the typed events and
    their structural validation. [InputHost] models host.rs beside it: the host
    that prepares, dispatches and cleans up held input through a backend. The
    backend is the code's [InputBackend] trait, here a class of the operations
    it must supply; each may fail or panic, and keeps its own state. *)
From S2P Require Import Prelude Ownership.
From stdpp Require Import base numbers gmap strings sorting list.
From Stdlib Require Import Floats.SpecFloat.
Open Scope Z_scope.

Module Input.
Import Text.

(** [f64], as IEEE values. *)
Record Point := MkPoint { x : spec_float; y : spec_float }.

Inductive Modifier := Shift | Control | Alt | Meta.
Inductive MouseButton := Left | Right | Middle | Back | Forward.
Inductive MediaKey :=
| PlayPause | NextTrack | PreviousTrack | FastForward | Rewind
| VolumeUp | VolumeDown | VolumeMute.
Inductive InputScope := Surface | HostFocus | System.

#[global] Instance modifier_eq_dec : EqDecision Modifier.
Proof. solve_decision. Defined.

Inductive TextInput :=
| Commit (s : text)
| Composition (s : text) (selection_start selection_end : Z)
| CancelComposition.

Inductive InputEvent :=
| PointerMove (point : Point) (modifiers : list Modifier)
| PointerDown (point : Point) (button : MouseButton) (modifiers : list Modifier)
| PointerUp (point : Point) (button : MouseButton)
| KeyDown (key : text) (modifiers : list Modifier) (repeat : bool)
| KeyUp (key : text)
| Scroll (point : Point) (delta_x delta_y : Z) (modifiers : list Modifier)
| Text (input : TextInput)
| PrepareSurface
| RequestHostFocus
| Media (key : MediaKey) (modifiers : list Modifier).

(** [!modifiers[..i].contains(m)] for every index [i]. *)
Fixpoint no_earlier (seen modifiers : list Modifier) : bool :=
  match modifiers with
  | [] => true
  | m :: ms => bool_decide (m ∉ seen) && no_earlier (seen ++ [m]) ms
  end.

Definition valid_modifiers (modifiers : list Modifier) : bool :=
  (len modifiers <=? 4) && no_earlier [] modifiers.

(** [char::is_control]: general category Cc. *)
Definition is_control (c : Z) : bool := (c <? 0x20) || ((0x7f <=? c) && (c <? 0xa0)).

Definition is_ascii_lowercase (c : Z) : bool := (97 <=? c) && (c <=? 122).

Definition normalize_key (key : text) : text :=
  match key with
  | [c] => if is_ascii_lowercase c then [c - 32] else key
  | _ => key
  end.

Definition is_finite (f : spec_float) : bool :=
  match f with S754_zero _ | S754_finite _ _ _ => true | _ => false end.

Definition valid_point (p : Point) : bool :=
  is_finite (x p) && is_finite (y p) &&
  SFleb (S754_zero false) (x p) && SFleb (S754_zero false) (y p).

Definition valid_key (k : text) : bool :=
  negb (bool_decide (k = [])) && (byte_len k <=? 256) && negb (existsb is_control k).

Definition scope (e : InputEvent) : InputScope :=
  match e with
  | RequestHostFocus => HostFocus
  | Media _ _ => System
  | _ => Surface
  end.

Definition valid_event (e : InputEvent) : bool :=
  match e with
  | PointerMove p m | PointerDown p _ m | Scroll p _ _ m => valid_point p && valid_modifiers m
  | PointerUp p _ => valid_point p
  | KeyDown k m _ => valid_key k && valid_modifiers m
  | KeyUp k => valid_key k
  | Media _ m => valid_modifiers m
  | Text (Composition s a b) => (a <=? b) && (b <=? utf16_count s)
  | _ => true
  end.

Definition validate (e : InputEvent) : unit + string :=
  if valid_event e then inl tt else inr "Invalid input event.".

Lemma no_earlier_spec ms : forall seen, NoDup seen ->
  no_earlier seen ms = true <-> NoDup (seen ++ ms).
Proof.
  induction ms as [|m ms IH]; intros seen Hs; simpl.
  - by rewrite app_nil_r.
  - rewrite andb_true_iff, bool_decide_eq_true. split.
    + intros [Hm Hr]. apply IH in Hr; [by rewrite <- app_assoc in Hr|].
      apply NoDup_app. split_and!; [done| |apply NoDup_singleton].
      intros z Hz ->%list_elem_of_singleton. done.
    + intros Hn. assert (Hm : m ∉ seen).
      { apply NoDup_app in Hn as (_ & Hd & _). intros Hin. eapply Hd; [done|left]. }
      split; [done|]. apply IH; [|by rewrite <- app_assoc].
      apply NoDup_app. split_and!; [done| |apply NoDup_singleton].
      intros z Hz ->%list_elem_of_singleton. done.
Qed.

(** With only four modifiers, the length guard of the code never decides. *)
Lemma valid_modifiers_spec ms : valid_modifiers ms = true <-> NoDup ms.
Proof.
  unfold valid_modifiers. rewrite andb_true_iff, (no_earlier_spec ms []) by constructor.
  split; [naive_solver|]. intros Hn. split; [|done]. apply Z.leb_le.
  change 4 with (len [Shift; Control; Alt; Meta]). apply Nat2Z.inj_le.
  apply submseteq_length, NoDup_submseteq; [done|]. intros [] _; set_solver.
Qed.

Lemma normalize_key_idempotent k : normalize_key (normalize_key k) = normalize_key k.
Proof.
  destruct k as [|c [|? ?]]; [done| |done]. simpl.
  destruct (is_ascii_lowercase c) eqn:E; simpl; [|by rewrite E].
  unfold is_ascii_lowercase in *. reflect_bools.
  by rewrite (proj2 (Z.leb_gt 97 (c - 32))) by lia.
Qed.

End Input.

Module InputHost.
Import Ownership.

Inductive Prepared (C P : Type) :=
| Down (control : C) (packet release : P)
| Up (control : C) (packet : option P)
| Repeat (control : C) (packet : P)
| MoveHeld (control : C) (packet release : P)
| Action (controls : list C) (packet : P).
Arguments Down {C P}. Arguments Up {C P}. Arguments Repeat {C P}.
Arguments MoveHeld {C P}. Arguments Action {C P}.

Inductive Delivery := DispatchedUnverified.

Inductive PostFailure (E : Type) :=
| NotDispatched (e : E)
| Uncertain (e : E)
| BackendPanicked.
Arguments NotDispatched {E}. Arguments Uncertain {E}. Arguments BackendPanicked {E}.

Inductive InputFailure (E : Type) :=
| OwnershipFailure (e : OwnershipError)
| Invalid (message : string)
| PrepareFailure (e : E)
| Post (failure : PostFailure E) (cleanup : list (PostFailure E)).
Arguments OwnershipFailure {E}. Arguments Invalid {E}. Arguments PrepareFailure {E}.
Arguments Post {E}.

(** The [InputBackend] trait: the backend's state [B] goes through every call,
    also through one that panics. *)
Class InputBackend (B Target C P E : Type) := {
  prepare_event : B -> Target -> Input.InputEvent -> list (C * P) ->
    outcome (Prepared C P + E) * B;
  post : B -> Target -> P -> outcome (Delivery + PostFailure E) * B;
  closed : B -> Target -> outcome unit * B;
  refreshed : B -> Target -> Target -> outcome unit * B
}.

Section host.
Context {B Target C P E : Type} `{!EqDecision C, !Countable C}.
Context (control_le : relation C) `{!RelDecision control_le}.
Context {backend_ops : InputBackend B Target C P E}.

Let Own := Ownership.t (C := C) (R := P).

Record Host := MkHost {
  backend : B;
  ownership : Own;
  targets : gmap Participant Target
}.

Definition set_backend (h : Host) (b : B) : Host := MkHost b (ownership h) (targets h).
Definition set_ownership (h : Host) (o : Own) : Host := MkHost (backend h) o (targets h).
Definition set_targets (h : Host) (m : gmap Participant Target) : Host :=
  MkHost (backend h) (ownership h) m.

(** A method: it may panic, and leaves a host in either case. *)
Definition M (A : Type) : Type := Host -> outcome A * Host.

Definition new_host (b : B) (registry max_sessions max_held : Z) : Host :=
  MkHost b (Ownership.new registry max_sessions max_held).1 ∅.

Definition open_session (h : Host) (identity : TargetIdentity) (domain : string)
    (target : Target) : (Participant + OwnershipError) * Host :=
  match Ownership.open (ownership h) identity domain with
  | (inl owner, o) => (inl owner, MkHost (backend h) o (<[owner := target]> (targets h)))
  | (inr e, o) => (inr e, set_ownership h o)
  end.

(** The cleanup loop of [close]: every release is attempted, a panic is one
    more failure. *)
Fixpoint post_all (b : B) (target : Target) (packets : list P) : list (PostFailure E) * B :=
  match packets with
  | [] => ([], b)
  | packet :: rest =>
      let '(r, b1) := post b target packet in
      let '(fs, b2) := post_all b1 target rest in
      (match r with
       | Returned (inl _) => fs
       | Returned (inr error) => error :: fs
       | Panicked => BackendPanicked :: fs
       end, b2)
  end.

Definition close_session (h : Host) (owner : Participant) : list (PostFailure E) * Host :=
  let '(releases, o) := Ownership.close (ownership h) owner in
  match targets h !! owner with
  | None => ([], set_ownership h o)
  | Some target =>
      let '(failures, b1) := post_all (backend h) target releases in
      let '(r, b2) := closed b1 target in
      (match r with Returned _ => failures | Panicked => failures ++ [BackendPanicked] end,
       MkHost b2 o (delete owner (targets h)))
  end.

(** [InputHost::unwind_scoped]: a panic of the operation closes the owner
    before it is resumed. *)
Definition unwind_scoped {A} (owner : Participant) (operation : M A) : M A := fun h =>
  match operation h with
  | (Returned a, h1) => (Returned a, h1)
  | (Panicked, h1) => (Panicked, (close_session h1 owner).2)
  end.

(** [host.targets[&owner]], which panics when there is none. *)
Definition with_target {A} (owner : Participant) (k : Target -> M A) : M A := fun h =>
  match targets h !! owner with
  | Some target => k target h
  | None => (Panicked, h)
  end.

Definition update_destination (h : Host) (owner : Participant) (identity : TargetIdentity)
    (target : Target) : outcome (unit + OwnershipError) * Host :=
  match Ownership.target (ownership h) owner with
  | inr e => (Returned (inr e), h)
  | inl current =>
      if decide (current = identity) then
        unwind_scoped owner
          (with_target owner (fun old h =>
             match refreshed (backend h) old target with
             | (Returned _, b) =>
                 (Returned (inl tt), MkHost b (ownership h) (<[owner := target]> (targets h)))
             | (Panicked, b) => (Panicked, set_backend h b)
             end)) h
      else (Returned (inr StaleInput), h)
  end.

(** The call of the backend's [prepare] both entry points share. *)
Definition prepare_in (owner : Participant) (event : Input.InputEvent) :
  M (Prepared C P + InputFailure E) :=
  with_target owner (fun target h =>
    match Ownership.holds control_le (ownership h) owner with
    | inr e => (Returned (inr (OwnershipFailure e)), h)
    | inl held =>
        match prepare_event (backend h) target event held with
        | (Returned (inl packet), b) => (Returned (inl packet), set_backend h b)
        | (Returned (inr e), b) => (Returned (inr (PrepareFailure e)), set_backend h b)
        | (Panicked, b) => (Panicked, set_backend h b)
        end
    end).

Definition prepare (h : Host) (owner : Participant) (event : Input.InputEvent) :
  outcome (Prepared C P + InputFailure E) * Host :=
  match Ownership.target (ownership h) owner with
  | inr e => (Returned (inr (OwnershipFailure e)), h)
  | inl _ =>
      match Input.validate event with
      | inr m => (Returned (inr (Invalid m)), h)
      | inl _ => unwind_scoped owner (prepare_in owner event) h
      end
  end.

(** [InputHost::compile]; the callback runs on the backend. *)
Definition compile {T} (h : Host) (owner : Participant)
    (callback : B -> Target -> outcome (T + E) * B) : outcome (T + InputFailure E) * Host :=
  match Ownership.target (ownership h) owner with
  | inr e => (Returned (inr (OwnershipFailure e)), h)
  | inl _ =>
      unwind_scoped owner
        (with_target owner (fun target h =>
           match callback (backend h) target with
           | (Returned (inl v), b) => (Returned (inl v), set_backend h b)
           | (Returned (inr e), b) => (Returned (inr (PrepareFailure e)), set_backend h b)
           | (Panicked, b) => (Panicked, set_backend h b)
           end)) h
  end.

Definition accept (h : Host) (owner : Participant) (identity : TargetIdentity) (sequence : Z) :
  (unit + OwnershipError) * Host :=
  match Ownership.target (ownership h) owner with
  | inr e => (inr e, h)
  | inl current =>
      if decide (current = identity) then
        let '(r, o) := Ownership.accept_sequence (ownership h) owner sequence in
        (r, set_ownership h o)
      else (inr StaleInput, h)
  end.

Fixpoint all_available (o : Own) (owner : Participant) (controls : list C) :
  unit + OwnershipError :=
  match controls with
  | [] => inl tt
  | control :: rest =>
      match Ownership.available o owner control with
      | inl _ => all_available o owner rest
      | inr e => inr e
      end
  end.

(** The first half of [dispatch]: what ownership does before the post, and what
    is remembered to undo it. *)
Record Staged := Stage {
  st_packet : P;
  st_down : option C;
  st_moved : option (C * P);
  st_up : bool
}.

Definition stage (o : Own) (owner : Participant) (prepared : Prepared C P) :
  (Staged + OwnershipError) * Own :=
  match prepared with
  | Down control packet release =>
      match Ownership.hold o owner control release with
      | (inl _, o) => (inl (Stage packet (Some control) None false), o)
      | (inr e, o) => (inr e, o)
      end
  | Up control packet =>
      match Ownership.release o owner control with
      | (inl release, o) => (inl (Stage (default release packet) None None true), o)
      | (inr e, o) => (inr e, o)
      end
  | Repeat control packet =>
      match Ownership.held o owner control with
      | inl _ => (inl (Stage packet None None false), o)
      | inr e => (inr e, o)
      end
  | MoveHeld control packet release =>
      match Ownership.replace_release o owner control release with
      | (inl old, o) => (inl (Stage packet None (Some (control, old)) false), o)
      | (inr e, o) => (inr e, o)
      end
  | Action controls packet =>
      match all_available o owner controls with
      | inl _ => (inl (Stage packet None None false), o)
      | inr e => (inr e, o)
      end
  end.

(** What a post that certainly did not happen undoes. *)
Definition roll_back (o : Own) (owner : Participant) (s : Staged) : Own :=
  let o := match st_down s with
           | Some control => (Ownership.release o owner control).2
           | None => o
           end in
  match st_moved s with
  | Some (control, old) => (Ownership.update_release o owner control old).2
  | None => o
  end.

Definition dispatch (owner : Participant) (prepared : Prepared C P) :
  M (Delivery + InputFailure E) := fun h =>
  match stage (ownership h) owner prepared with
  | (inr e, o) => (Returned (inr (OwnershipFailure e)), set_ownership h o)
  | (inl s, o) =>
      with_target owner (fun target h =>
        match post (backend h) target (st_packet s) with
        | (Panicked, b) => (Panicked, set_backend h b)
        | (Returned (inl receipt), b) => (Returned (inl receipt), set_backend h b)
        | (Returned (inr failure), b) =>
            let finish cleanup h :=
              let '(fs, h) := close_session h owner in
              (Returned (inr (Post failure (cleanup ++ fs))), h) in
            match failure with
            | NotDispatched _ =>
                let h := MkHost b (roll_back (ownership h) owner s) (targets h) in
                if st_up s then
                  with_target owner (fun target h =>
                    match post (backend h) target (st_packet s) with
                    | (Panicked, b) => (Panicked, set_backend h b)
                    | (Returned (inl _), b) => finish [] (set_backend h b)
                    | (Returned (inr error), b) => finish [error] (set_backend h b)
                    end) h
                else finish [] h
            | _ => finish [] (set_backend h b)
            end
        end) (set_ownership h o)
  end.

Definition submit (h : Host) (owner : Participant) (identity : TargetIdentity) (sequence : Z)
    (event : Input.InputEvent) : outcome (Delivery + InputFailure E) * Host :=
  match accept h owner identity sequence with
  | (inr e, h) => (Returned (inr (OwnershipFailure e)), h)
  | (inl _, h) =>
      match Input.validate event with
      | inr m => (Returned (inr (Invalid m)), h)
      | inl _ =>
          unwind_scoped owner (fun h =>
            match prepare_in owner event h with
            | (Returned (inl packet), h) => dispatch owner packet h
            | (Returned (inr e), h) => (Returned (inr e), h)
            | (Panicked, h) => (Panicked, h)
            end) h
      end
  end.

Definition submit_prepared (h : Host) (owner : Participant) (identity : TargetIdentity)
    (sequence : Z) (packet : Prepared C P) : outcome (Delivery + InputFailure E) * Host :=
  match accept h owner identity sequence with
  | (inr e, h) => (Returned (inr (OwnershipFailure e)), h)
  | (inl _, h) => unwind_scoped owner (dispatch owner packet) h
  end.

Definition submit_action {T} (h : Host) (owner : Participant) (identity : TargetIdentity)
    (sequence : Z) (controls : list C)
    (action : B -> Target -> outcome (T + PostFailure E) * B) :
  outcome (T + InputFailure E) * Host :=
  match accept h owner identity sequence with
  | (inr e, h) => (Returned (inr (OwnershipFailure e)), h)
  | (inl _, h) =>
      match all_available (ownership h) owner controls with
      | inr e => (Returned (inr (OwnershipFailure e)), h)
      | inl _ =>
          unwind_scoped owner
            (with_target owner (fun target h =>
               match action (backend h) target with
               | (Returned (inl v), b) => (Returned (inl v), set_backend h b)
               | (Returned (inr failure), b) =>
                   let '(cleanup, h) := close_session (set_backend h b) owner in
                   (Returned (inr (Post failure cleanup)), h)
               | (Panicked, b) => (Panicked, set_backend h b)
               end)) h
      end
  end.

Fixpoint close_all (h : Host) (owners : list Participant) : Host :=
  match owners with
  | [] => h
  | owner :: rest => close_all (close_session h owner).2 rest
  end.

(** [Drop for InputHost]. *)
Definition drop_host (h : Host) : Host := close_all h (Ownership.participants (ownership h)).

(** ** What a participant's call leaves alone *)

(** Ownership calls of [owner] other than opening and closing. *)
Definition moves (owner : Participant) (o o' : Own) : Prop :=
  (forall a, repr o a -> exists a', repr o' a') /\
  (forall q, q <> owner -> sessions o' !! q = sessions o !! q) /\
  (forall q, is_Some (sessions o' !! q) <-> is_Some (sessions o !! q)).

Lemma moves_refl owner o : moves owner o o.
Proof. split_and!; eauto. Qed.

Lemma moves_trans owner o1 o2 o3 : moves owner o1 o2 -> moves owner o2 o3 -> moves owner o1 o3.
Proof.
  intros (H1 & H2 & H3) (K1 & K2 & K3). split_and!.
  - intros a [a' Ha']%H1. eauto.
  - intros q Hq. by rewrite K2, H2.
  - intros q. by rewrite K3.
Qed.

Lemma moves_step owner o c :
  caller c = Some owner -> c <> Close owner -> moves owner o (step o c).2.
Proof.
  intros Hc Hn. split_and!.
  - intros a Ha. eexists. by apply step_sim.
  - intros q Hq. by apply (step_frame o c owner q Hc).
  - intros q. by apply (step_frame o c owner q Hc).
Qed.

Lemma moves_hold owner o k x : moves owner o (Ownership.hold o owner k x).2.
Proof.
  pose proof (moves_step owner o (HoldControl owner k x) eq_refl ltac:(done)) as Hm.
  simpl in Hm. by destruct (Ownership.hold o owner k x).
Qed.

Lemma moves_release owner o k : moves owner o (Ownership.release o owner k).2.
Proof.
  pose proof (moves_step owner o (Release owner k) eq_refl ltac:(done)) as Hm.
  simpl in Hm. by destruct (Ownership.release o owner k).
Qed.

Lemma moves_replace owner o k x : moves owner o (Ownership.replace_release o owner k x).2.
Proof.
  pose proof (moves_step owner o (ReplaceRelease owner k x) eq_refl ltac:(done)) as Hm.
  simpl in Hm. by destruct (Ownership.replace_release o owner k x).
Qed.

Lemma moves_accept owner o n : moves owner o (Ownership.accept_sequence o owner n).2.
Proof.
  pose proof (moves_step owner o (AcceptSequence owner n) eq_refl ltac:(done)) as Hm.
  simpl in Hm. by destruct (Ownership.accept_sequence o owner n).
Qed.

Lemma moves_stage owner o prepared : moves owner o (stage o owner prepared).2.
Proof.
  destruct prepared as [k pk x|k pk|k pk|k pk x|ks pk]; simpl.
  - pose proof (moves_hold owner o k x) as Hm. by destruct (Ownership.hold o owner k x) as [[] ?].
  - pose proof (moves_release owner o k) as Hm. by destruct (Ownership.release o owner k) as [[] ?].
  - destruct (Ownership.held o owner k); apply moves_refl.
  - pose proof (moves_replace owner o k x) as Hm.
    by destruct (Ownership.replace_release o owner k x) as [[] ?].
  - destruct (all_available o owner ks); apply moves_refl.
Qed.

Lemma moves_roll_back owner o s : moves owner o (roll_back o owner s).
Proof.
  unfold roll_back. destruct (st_down s) as [k|].
  all: destruct (st_moved s) as [[k' x]|]; auto using moves_release, moves_refl.
  - eapply moves_trans; [apply moves_release|]. unfold Ownership.update_release.
    pose proof (moves_replace owner (Ownership.release o owner k).2 k' x) as Hm.
    by destruct (Ownership.replace_release _ owner k' x).
  - unfold Ownership.update_release. pose proof (moves_replace owner o k' x) as Hm.
    by destruct (Ownership.replace_release _ owner k' x).
Qed.

(** ** The host invariant *)

Definition good (h : Host) : Prop :=
  (exists a, repr (ownership h) a) /\
  (forall p, is_Some (targets h !! p) <-> is_Some (sessions (ownership h) !! p)).

(** From a good host, [h'] is good and no other participant has changed. *)
Definition local_to (owner : Participant) (h h' : Host) : Prop :=
  good h ->
  good h' /\
  forall q, q <> owner ->
    sessions (ownership h') !! q = sessions (ownership h) !! q /\
    targets h' !! q = targets h !! q.

Definition gone (owner : Participant) (h : Host) : Prop :=
  sessions (ownership h) !! owner = None /\ targets h !! owner = None.

Lemma local_refl owner h : local_to owner h h.
Proof. by intros. Qed.

Lemma local_trans owner h1 h2 h3 :
  local_to owner h1 h2 -> local_to owner h2 h3 -> local_to owner h1 h3.
Proof.
  intros H12 H23 Hg. destruct (H12 Hg) as [Hg2 Hq2]. destruct (H23 Hg2) as [Hg3 Hq3].
  split; [done|]. intros q Hq. destruct (Hq2 q Hq), (Hq3 q Hq). split; congruence.
Qed.

Lemma local_moves owner h o b :
  moves owner (ownership h) o -> local_to owner h (MkHost b o (targets h)).
Proof.
  intros (Hm1 & Hm2 & Hm3) [[a Ha] Hd]. split; [|auto]. split; [eauto|].
  intros p. simpl. by rewrite Hm3.
Qed.

Lemma local_backend owner h b : local_to owner h (set_backend h b).
Proof. apply local_moves, moves_refl. Qed.

Lemma local_ownership owner h o :
  moves owner (ownership h) o -> local_to owner h (set_ownership h o).
Proof. by apply local_moves. Qed.

Lemma local_close owner h : local_to owner h (close_session h owner).2.
Proof.
  intros [[a Ha] Hd]. unfold close_session.
  pose proof (step_frame (ownership h) (Close owner) owner) as Hf. simpl in Hf.
  pose proof (step_sim (Close owner) _ _ Ha) as [_ Hr]. simpl in Hr.
  pose proof (close_gone (ownership h) owner) as Hg.
  destruct (Ownership.close (ownership h) owner) as [rs o]; simpl in *.
  assert (Hq : forall q, q <> owner -> sessions o !! q = sessions (ownership h) !! q)
    by (intros q Hne; by apply (Hf q eq_refl)).
  destruct (targets h !! owner) as [tg|] eqn:Ht.
  - destruct (post_all (backend h) tg rs) as [fs b1], (closed b1 tg) as [r b2]. simpl. split.
    + split; [eauto|]. intros p. simpl. destruct (decide (p = owner)) as [->|Hne].
      * rewrite lookup_delete_eq, Hg. done.
      * rewrite lookup_delete_ne, Hq; auto.
    + intros q Hne. rewrite lookup_delete_ne; auto.
  - simpl. split; [|auto]. split; [eauto|]. intros p. simpl.
    destruct (decide (p = owner)) as [->|Hne]; [by rewrite Ht, Hg|]. rewrite Hq; auto.
Qed.

Lemma close_session_gone owner h : gone owner (close_session h owner).2.
Proof.
  unfold close_session, gone. pose proof (close_gone (ownership h) owner) as Hg.
  destruct (Ownership.close (ownership h) owner) as [rs o]; simpl in *.
  destruct (targets h !! owner) as [tg|] eqn:Ht; [|done].
  destruct (post_all (backend h) tg rs) as [fs b1], (closed b1 tg) as [r b2]. simpl.
  by rewrite lookup_delete_eq.
Qed.

(** [operation] is local to [owner], and a reported post failure means that
    the owner was closed. *)
Definition contained {T} (owner : Participant) (operation : M (T + InputFailure E)) : Prop :=
  forall h, local_to owner h (operation h).2 /\
    (forall f c, (operation h).1 = Returned (inr (Post f c)) -> gone owner (operation h).2).

Lemma unwind_local {A} owner (operation : M A) h :
  local_to owner h (operation h).2 -> local_to owner h (unwind_scoped owner operation h).2.
Proof.
  intros Hl. unfold unwind_scoped. destruct (operation h) as [[a|] h1]; [done|].
  eapply local_trans; [done|apply local_close].
Qed.

Lemma unwind_panicked {A} owner (operation : M A) h :
  (unwind_scoped owner operation h).1 = Panicked ->
  gone owner (unwind_scoped owner operation h).2.
Proof.
  unfold unwind_scoped. destruct (operation h) as [[a|] h1]; [done|].
  intros _. apply close_session_gone.
Qed.

Lemma unwind_contained {T} owner (operation : M (T + InputFailure E)) :
  contained owner operation -> contained owner (unwind_scoped owner operation).
Proof.
  intros Hc h. destruct (Hc h) as [Hl Hf]. split; [by apply unwind_local|].
  unfold unwind_scoped. by destruct (operation h) as [[a|] h1].
Qed.

Lemma with_target_contained {T} owner (k : Target -> M (T + InputFailure E)) :
  (forall tg, contained owner (k tg)) -> contained owner (with_target owner k).
Proof.
  intros Hk h. unfold with_target. destruct (targets h !! owner); [apply Hk|].
  split; [apply local_refl|done].
Qed.

Lemma prepare_in_contained owner event : contained owner (prepare_in owner event).
Proof.
  apply with_target_contained. intros tg h.
  destruct (Ownership.holds control_le (ownership h) owner) as [held|e];
    [|split; [apply local_refl|done]].
  destruct (prepare_event (backend h) tg event held) as [[[pk|e]|] b]; simpl;
    (split; [apply local_backend|done]).
Qed.

Lemma finish_contained owner failure (cleanup : list (PostFailure E)) h h1 :
  local_to owner h h1 ->
  let res := (let '(fs, h2) := close_session h1 owner in
              (Returned (@inr Delivery _ (Post failure (cleanup ++ fs))), h2)) in
  local_to owner h res.2 /\ gone owner res.2.
Proof.
  intros Hl. pose proof (local_close owner h1) as Hc.
  pose proof (close_session_gone owner h1) as Hg.
  destruct (close_session h1 owner) as [fs h2]; simpl in *.
  split; [by eapply local_trans|done].
Qed.

Lemma dispatch_contained owner prepared : contained owner (dispatch owner prepared).
Proof.
  intros h. unfold dispatch. pose proof (moves_stage owner (ownership h) prepared) as Hs.
  destruct (stage (ownership h) owner prepared) as [[s|e] o]; simpl in Hs;
    [|split; [by apply local_ownership|done]].
  unfold with_target. simpl. destruct (targets h !! owner) as [tg|] eqn:Ht;
    [|split; [by apply local_ownership|done]].
  assert (Hb : forall b, local_to owner h (MkHost b o (targets h))).
  { intros b. by apply local_moves. }
  assert (Hrb : forall b, local_to owner h (MkHost b (roll_back o owner s) (targets h))).
  { intros b. apply local_moves. eapply moves_trans; [done|apply moves_roll_back]. }
  destruct (post (backend h) tg (st_packet s)) as [[[rc|[e|e|]]|] b];
    [by split; [apply Hb|]| | | |by split; [apply Hb|]].
  - destruct (st_up s).
    + simpl. destruct (post b tg (st_packet s)) as [[[rc|e']|] b2].
      * pose proof (finish_contained owner (NotDispatched e) [] h _ (Hrb b2)) as [? ?]. by split.
      * pose proof (finish_contained owner (NotDispatched e) [e'] h _ (Hrb b2)) as [? ?]. by split.
      * split; [apply Hrb|done].
    + pose proof (finish_contained owner (NotDispatched e) [] h _ (Hrb b)) as [? ?]. by split.
  - pose proof (finish_contained owner (Uncertain e) [] h _ (Hb b)) as [? ?]. by split.
  - pose proof (finish_contained owner BackendPanicked [] h _ (Hb b)) as [? ?]. by split.
Qed.

Lemma accept_local owner h identity n : local_to owner h (accept h owner identity n).2.
Proof.
  unfold accept. destruct (Ownership.target (ownership h) owner); [|apply local_refl].
  case_decide; [|apply local_refl]. pose proof (moves_accept owner (ownership h) n) as Hm.
  destruct (Ownership.accept_sequence (ownership h) owner n). by apply local_ownership.
Qed.

(** ** Requests of participants *)

Inductive request :=
| UpdateDestination (owner : Participant) (identity : TargetIdentity) (target : Target)
| PrepareEvent (owner : Participant) (event : Input.InputEvent)
| Compile (owner : Participant) (callback : B -> Target -> outcome (unit + E) * B)
| Submit (owner : Participant) (identity : TargetIdentity) (sequence : Z)
    (event : Input.InputEvent)
| SubmitPrepared (owner : Participant) (identity : TargetIdentity) (sequence : Z)
    (packet : Prepared C P)
| SubmitAction (owner : Participant) (identity : TargetIdentity) (sequence : Z)
    (controls : list C) (action : B -> Target -> outcome (unit + PostFailure E) * B)
| CloseSession (owner : Participant).

Definition requester (r : request) : Participant :=
  match r with
  | UpdateDestination p _ _ | PrepareEvent p _ | Compile p _ | Submit p _ _ _
  | SubmitPrepared p _ _ _ | SubmitAction p _ _ _ _ | CloseSession p => p
  end.

Definition forget {T} (r : outcome (T + InputFailure E)) : outcome (unit + InputFailure E) :=
  match r with
  | Returned (inl _) => Returned (inl tt)
  | Returned (inr e) => Returned (inr e)
  | Panicked => Panicked
  end.

Definition serve (h : Host) (r : request) : outcome (unit + InputFailure E) * Host :=
  match r with
  | UpdateDestination p i tg =>
      let '(x, h) := update_destination h p i tg in
      (match x with
       | Returned (inl _) => Returned (inl tt)
       | Returned (inr e) => Returned (inr (OwnershipFailure e))
       | Panicked => Panicked
       end, h)
  | PrepareEvent p e => let '(x, h) := prepare h p e in (forget x, h)
  | Compile p f => let '(x, h) := compile h p f in (forget x, h)
  | Submit p i n e => let '(x, h) := submit h p i n e in (forget x, h)
  | SubmitPrepared p i n pk => let '(x, h) := submit_prepared h p i n pk in (forget x, h)
  | SubmitAction p i n ks f => let '(x, h) := submit_action h p i n ks f in (forget x, h)
  | CloseSession p => (Returned (inl tt), (close_session h p).2)
  end.

(** The outcomes after which the host has closed the requester. *)
Definition fatal {T} (r : outcome (T + InputFailure E)) : Prop :=
  r = Panicked \/ exists f c, r = Returned (inr (Post f c)).

Definition sealed {T} (owner : Participant) (h : Host) (res : outcome (T + InputFailure E) * Host)
  : Prop := local_to owner h res.2 /\ (fatal res.1 -> gone owner res.2).

Lemma unwind_sealed {T} owner (operation : M (T + InputFailure E)) h :
  contained owner operation -> sealed owner h (unwind_scoped owner operation h).
Proof.
  intros Hc. destruct (unwind_contained owner operation Hc h) as [Hl Hf]. split; [done|].
  intros [Hp|(f & c & Hp)]; [by apply unwind_panicked|by eapply Hf].
Qed.

Lemma sealed_refused {T} owner h e :
  (forall f c, e <> Post f c) -> sealed (T := T) owner h (Returned (inr e), h).
Proof. intros He. split; [apply local_refl|]. intros [|(f & c & ?)]; simplify_eq. naive_solver. Qed.

Lemma sealed_after {T} owner h h1 (res : outcome (T + InputFailure E) * Host) :
  local_to owner h h1 -> sealed owner h1 res -> sealed owner h res.
Proof. intros Hl [Hr Hf]. split; [by eapply local_trans|done]. Qed.

Lemma sealed_forget {T} owner h (res : outcome (T + InputFailure E) * Host) :
  sealed owner h res -> sealed owner h (let '(x, h) := res in (forget x, h)).
Proof.
  destruct res as [[[v|e]|] h1]; intros [Hl Hf]; (split; [done|]); intros [?|(f & c & ?)];
    simplify_eq/=; apply Hf; unfold fatal; eauto.
Qed.

Lemma backend_call_contained {T} owner (call : B -> Target -> outcome (T + E) * B) :
  contained owner (with_target owner (fun target h =>
    match call (backend h) target with
    | (Returned (inl v), b) => (Returned (inl v), set_backend h b)
    | (Returned (inr e), b) => (Returned (inr (PrepareFailure e)), set_backend h b)
    | (Panicked, b) => (Panicked, set_backend h b)
    end)).
Proof.
  apply with_target_contained. intros tg h.
  destruct (call (backend h) tg) as [[[v|e]|] b]; simpl; (split; [apply local_backend|done]).
Qed.

Lemma action_contained {T} owner (action : B -> Target -> outcome (T + PostFailure E) * B) :
  contained owner (with_target owner (fun target h =>
    match action (backend h) target with
    | (Returned (inl v), b) => (Returned (inl v), set_backend h b)
    | (Returned (inr failure), b) =>
        let '(cleanup, h) := close_session (set_backend h b) owner in
        (Returned (inr (Post failure cleanup)), h)
    | (Panicked, b) => (Panicked, set_backend h b)
    end)).
Proof.
  apply with_target_contained. intros tg h.
  destruct (action (backend h) tg) as [[[v|e]|] b]; simpl; try (split; [apply local_backend|done]).
  pose proof (local_close owner (set_backend h b)) as Hc.
  pose proof (close_session_gone owner (set_backend h b)) as Hg.
  destruct (close_session (set_backend h b) owner) as [fs h2]; simpl in *. split; [|done].
  eapply local_trans; [apply local_backend|done].
Qed.

Lemma submit_body_contained owner event :
  contained owner (fun h =>
    match prepare_in owner event h with
    | (Returned (inl packet), h) => dispatch owner packet h
    | (Returned (inr e), h) => (Returned (inr e), h)
    | (Panicked, h) => (Panicked, h)
    end).
Proof.
  intros h. destruct (prepare_in_contained owner event h) as [Hl Hf].
  destruct (prepare_in owner event h) as [[[pk|e]|] h1]; simpl in *; [|split; [done|naive_solver]..].
  destruct (dispatch_contained owner pk h1) as [Hd Hg]. split; [by eapply local_trans|done].
Qed.

Lemma update_destination_sealed owner identity target h :
  let '(x, h') := update_destination h owner identity target in
  local_to owner h h' /\ (x = Panicked -> gone owner h').
Proof.
  unfold update_destination. destruct (Ownership.target (ownership h) owner) as [cur|e];
    [|split; [apply local_refl|done]].
  case_decide; [|split; [apply local_refl|done]].
  match goal with |- context [unwind_scoped owner ?op h] => set (body := op) end.
  assert (Hl : local_to owner h (body h).2).
  { unfold body, with_target. destruct (targets h !! owner) as [old|] eqn:Ht; [|apply local_refl].
    destruct (refreshed (backend h) old target) as [[?|] b]; [|apply local_backend].
    intros [Hr Hd]. split.
    - split; [done|]. intros p. simpl. destruct (decide (owner = p)) as [<-|].
      + rewrite lookup_insert_eq, <- Hd, Ht. split; eauto.
      + by rewrite lookup_insert_ne.
    - intros q Hq. simpl. by rewrite lookup_insert_ne. }
  pose proof (unwind_local owner body h Hl) as Hu.
  pose proof (unwind_panicked owner body h) as Hp.
  destruct (unwind_scoped owner body h) as [x h']; done.
Qed.

Lemma serve_sealed h r : sealed (requester r) h (serve h r).
Proof.
  destruct r as [p i tg|p e|p f|p i n e|p i n pk|p i n ks f|p]; simpl.
  - pose proof (update_destination_sealed p i tg h) as Hu.
    destruct (update_destination h p i tg) as [x h']. destruct Hu as [Hl Hp]. split; [done|].
    destruct x as [[?|?]|]; intros [?|(f & c & ?)]; simplify_eq/=; auto.
  - apply sealed_forget. unfold prepare.
    destruct (Ownership.target (ownership h) p); [|by apply sealed_refused].
    destruct (Input.validate e); [|by apply sealed_refused].
    apply unwind_sealed, prepare_in_contained.
  - apply sealed_forget. unfold compile.
    destruct (Ownership.target (ownership h) p); [|by apply sealed_refused].
    apply unwind_sealed, backend_call_contained.
  - apply sealed_forget. unfold submit. pose proof (accept_local p h i n) as Ha.
    destruct (accept h p i n) as [[?|?] h1]; simpl in Ha.
    + eapply sealed_after; [done|]. destruct (Input.validate e); [|by apply sealed_refused].
      apply unwind_sealed, submit_body_contained.
    + eapply sealed_after; [done|]. by apply sealed_refused.
  - apply sealed_forget. unfold submit_prepared. pose proof (accept_local p h i n) as Ha.
    destruct (accept h p i n) as [[?|?] h1]; simpl in Ha; (eapply sealed_after; [done|]).
    + apply unwind_sealed, dispatch_contained.
    + by apply sealed_refused.
  - apply sealed_forget. unfold submit_action. pose proof (accept_local p h i n) as Ha.
    destruct (accept h p i n) as [[?|?] h1]; simpl in Ha; (eapply sealed_after; [done|]).
    + destruct (all_available _ p ks); [|by apply sealed_refused].
      apply unwind_sealed, action_contained.
    + by apply sealed_refused.
  - split; [apply local_close|]. intros [|(f & c & ?)]; simplify_eq.
Qed.

Lemma good_new b registry ms mh : good (new_host b registry ms mh).
Proof.
  split; [eexists; apply repr_new|]. intros p. unfold new_host, Ownership.new. simpl.
  destruct (checked_add_u64 registry 1); simpl; by rewrite !lookup_empty.
Qed.

Lemma good_open h identity domain target :
  good h -> good (open_session h identity domain target).2.
Proof.
  intros [[a Ha] Hd]. unfold open_session.
  pose proof (step_sim (Open identity domain) _ _ Ha) as [_ Hr]. simpl in Hr.
  unfold Ownership.open in *.
  destruct (_ || _); [by split; [eauto|]|].
  destruct (checked_add_u64 _ _); [|by split; [eauto|]]. simpl in *.
  split; [eauto|]. intros p. simpl. rewrite !lookup_insert_is_Some'. naive_solver.
Qed.

(** Hosts that a new host becomes through sessions opened and requests served,
    whatever they answer. *)
Inductive reachable : Host -> Prop :=
| reach_new b registry ms mh : reachable (new_host b registry ms mh)
| reach_open h identity domain target :
    reachable h -> reachable (open_session h identity domain target).2
| reach_serve h r : reachable h -> reachable (serve h r).2.

Lemma reachable_good h : reachable h -> good h.
Proof.
  induction 1; auto using good_new, good_open.
  destruct (serve_sealed h r) as [Hl _]. by apply Hl.
Qed.

(** C31: a participant's request never touches another participant: their
    sessions, held controls and destinations are as before, whatever the
    backend answers and even if it panics. A post failure or a panic leaves
    the requester with no session, no destination and no owned control. *)
Theorem host_isolation (h : Host) (r : request) :
  reachable h ->
  (forall q, q <> requester r ->
     sessions (ownership (serve h r).2) !! q = sessions (ownership h) !! q /\
     targets (serve h r).2 !! q = targets h !! q) /\
  (fatal (serve h r).1 ->
     gone (requester r) (serve h r).2 /\
     forall d k, owners (ownership (serve h r).2) !! (d, k) <> Some (requester r)).
Proof.
  intros Hh. destruct (serve_sealed h r) as [Hl Hf].
  destruct (Hl (reachable_good h Hh)) as [[[a Ha] _] Hq]. split; [done|].
  intros Hfatal. destruct (Hf Hfatal) as [Hs Ht]. split; [done|].
  intros d k Ho. apply (r_owners _ _ Ha) in Ho as (s & ? & _). congruence.
Qed.

(** ** Stacks through a dispatch *)

(** The stack of the owner once [prepared] is staged. *)
Definition staged_stack (prepared : Prepared C P) (stack : list (C * P)) : list (C * P) :=
  match prepared with
  | Down k _ x => (k, x) :: stack
  | Up k _ => IndexMap.shift_remove k stack
  | MoveHeld k _ x => set_top k x <$> stack
  | Repeat _ _ | Action _ _ => stack
  end.

(** The stack once a staged packet was certainly not posted. *)
Definition rolled_back_stack (prepared : Prepared C P) (stack : list (C * P)) : list (C * P) :=
  match prepared with
  | Up k _ => IndexMap.shift_remove k stack
  | _ => stack
  end.

Definition has_stack (o : Own) (owner : Participant) (stack : list (C * P)) : Prop :=
  exists a s, repr o a /\ a_sessions a !! owner = Some s /\ a_stack s = stack.

Lemma step_stack o a c owner s' :
  repr o a -> a_sessions (spec_step a c).2 !! owner = Some s' ->
  has_stack (step o c).2 owner (a_stack s').
Proof. intros Hr Hs. exists (spec_step a c).2, s'. split_and!; [by apply step_sim|done|done]. Qed.

Lemma stack_wf o owner stack : has_stack o owner stack -> IndexMap.wf stack.
Proof.
  intros (a & s & Hr & Hs & <-). pose proof (repr_lookup _ _ owner Hr) as Hp.
  destruct (sessions o !! owner) as [t|]; [|congruence].
  destruct Hp as (b & Hb & hs & Hperm & _ & _ & _ & ->). simplify_eq/=.
  unfold IndexMap.wf, IndexMap.keys. rewrite stack_keys, Hperm. apply NoDup_fst_map_to_list.
Qed.

Lemma hold_stack o owner k x stack o' :
  has_stack o owner stack -> Ownership.hold o owner k x = (inl tt, o') ->
  (k ∉ stack.*1) /\ has_stack o' owner ((k, x) :: stack).
Proof.
  intros (a & s & Hr & Hs & <-) Hh.
  pose proof (step_sim (HoldControl owner k x) _ _ Hr) as [Ha _].
  pose proof (fun s' => step_stack o a (HoldControl owner k x) owner s' Hr) as Hst.
  simpl in *. rewrite Hh in *. simpl in *. unfold spec_hold in *. rewrite Hs in *.
  case_bool_decide as Hk; [done|]. destruct (_ <=? _); [done|].
  case_bool_decide; [done|]. destruct (_ =? _); [done|]. split; [done|]. simpl in Hst.
  eapply (Hst (SpecS _ _ _ _ _)). by rewrite lookup_insert_eq.
Qed.

Lemma release_stack o owner k x stack o' :
  has_stack o owner stack -> Ownership.release o owner k = (inl x, o') ->
  IndexMap.get k stack = Some x /\ has_stack o' owner (IndexMap.shift_remove k stack).
Proof.
  intros (a & s & Hr & Hs & <-) Hh.
  pose proof (step_sim (Release owner k) _ _ Hr) as [Ha _].
  pose proof (fun s' => step_stack o a (Release owner k) owner s' Hr) as Hst.
  simpl in *. rewrite Hh in *. simpl in *. rewrite Hs in *.
  destruct (IndexMap.get k (a_stack s)); simplify_eq/=. split; [done|].
  eapply (Hst (SpecS _ _ _ _ _)). by rewrite lookup_insert_eq.
Qed.

Lemma replace_stack o owner k x old stack o' :
  has_stack o owner stack -> Ownership.replace_release o owner k x = (inl old, o') ->
  IndexMap.get k stack = Some old /\ has_stack o' owner (set_top k x <$> stack).
Proof.
  intros (a & s & Hr & Hs & <-) Hh.
  pose proof (step_sim (ReplaceRelease owner k x) _ _ Hr) as [Ha _].
  pose proof (fun s' => step_stack o a (ReplaceRelease owner k x) owner s' Hr) as Hst.
  simpl in *. rewrite Hh in *. simpl in *. rewrite Hs in *.
  destruct (IndexMap.get k (a_stack s)); simplify_eq/=. split; [done|].
  eapply (Hst (SpecS _ _ _ _ _)). by rewrite lookup_insert_eq.
Qed.

Lemma set_top_restore (stack : list (C * P)) k x old :
  IndexMap.wf stack -> IndexMap.get k stack = Some old ->
  (set_top k old <$> (set_top k x <$> stack)) = stack.
Proof.
  intros Hwf Hk. rewrite <- list_fmap_compose. rewrite <- (list_fmap_id stack) at 2.
  apply list_fmap_ext. intros i [k' x'] Hi%list_elem_of_lookup_2.
  unfold set_top, compose. apply (IndexMap.In_get _ _ _ Hwf) in Hi.
  repeat (case_decide; simplify_eq/=); done.
Qed.

Lemma remove_fresh (stack : list (C * P)) k x :
  k ∉ stack.*1 -> IndexMap.shift_remove k ((k, x) :: stack) = stack.
Proof.
  intros Hk. unfold IndexMap.shift_remove. rewrite filter_cons_False by (simpl; tauto).
  apply IndexMap.remove_absent, IndexMap.get_None. done.
Qed.

Lemma release_known o owner k stack :
  has_stack o owner stack -> is_Some (IndexMap.get k stack) ->
  exists x o', Ownership.release o owner k = (inl x, o').
Proof.
  intros (a & s & Hr & Hs & <-) [x Hx].
  pose proof (step_sim (Release owner k) _ _ Hr) as [Ha _]. simpl in Ha.
  rewrite Hs, Hx in Ha. simpl in Ha. destruct (Ownership.release o owner k) as [[y|e] o']; [eauto|done].
Qed.

Lemma replace_known o owner k y stack :
  has_stack o owner stack -> is_Some (IndexMap.get k stack) ->
  exists x o', Ownership.replace_release o owner k y = (inl x, o').
Proof.
  intros (a & s & Hr & Hs & <-) [x Hx].
  pose proof (step_sim (ReplaceRelease owner k y) _ _ Hr) as [Ha _]. simpl in Ha.
  rewrite Hs, Hx in Ha. simpl in Ha.
  destruct (Ownership.replace_release o owner k y) as [[z|e] o']; [eauto|done].
Qed.

Lemma stage_stack o owner prepared stack s o' :
  has_stack o owner stack -> stage o owner prepared = (inl s, o') ->
  has_stack o' owner (staged_stack prepared stack) /\
  has_stack (roll_back o' owner s) owner (rolled_back_stack prepared stack) /\
  st_up s = match prepared with Up _ _ => true | _ => false end.
Proof.
  intros Hst. pose proof (stack_wf _ _ _ Hst) as Hwf.
  destruct prepared as [k pk x|k pk|k pk|k pk x|ks pk]; simpl.
  - destruct (Ownership.hold o owner k x) as [[[]|e] o1] eqn:Hh; intros; simplify_eq.
    destruct (hold_stack _ _ _ _ _ _ Hst Hh) as [Hk Hst']. split_and!; [done| |done].
    destruct (release_known _ _ k _ Hst') as (y & o2 & Hy); [simpl; rewrite decide_True; eauto|].
    unfold roll_back. simpl. rewrite Hy. simpl.
    destruct (release_stack _ _ _ _ _ _ Hst' Hy) as [_ Hst2]. rewrite (remove_fresh stack k x Hk) in Hst2. exact Hst2.
  - destruct (Ownership.release o owner k) as [[x|e] o1] eqn:Hh; intros; simplify_eq.
    destruct (release_stack _ _ _ _ _ _ Hst Hh) as [Hk Hst']. done.
  - destruct (Ownership.held o owner k); intros; simplify_eq. done.
  - destruct (Ownership.replace_release o owner k x) as [[old|e] o1] eqn:Hh; intros; simplify_eq.
    destruct (replace_stack _ _ _ _ _ _ _ Hst Hh) as [Hk Hst']. split_and!; [done| |done].
    destruct (replace_known _ _ k old _ Hst') as (y & o2 & Hy).
    { exists x. apply IndexMap.In_get.
      - unfold IndexMap.wf, IndexMap.keys in *. rewrite <- list_fmap_compose.
        erewrite list_fmap_ext; [exact Hwf|]. intros ? [k' x'] _. unfold set_top. simpl.
        by case_decide.
      - apply list_elem_of_fmap. exists (k, old). split; [|by apply IndexMap.get_In].
        unfold set_top. simpl. by rewrite decide_True. }
    unfold roll_back, Ownership.update_release. simpl. rewrite Hy. simpl.
    destruct (replace_stack _ _ _ _ _ _ _ Hst' Hy) as [_ Hst2].
    rewrite (set_top_restore stack k x old Hwf Hk) in Hst2. exact Hst2.
  - destruct (all_available o owner ks); intros; simplify_eq. done.
Qed.

End host.

(** ** What reaches the backend

    Any backend, with the posts and closings it receives recorded. *)
Section logged.
Context {B Target C P E : Type} `{!EqDecision C, !Countable C}.
Context (control_le : relation C) `{!RelDecision control_le}.
Context (base : InputBackend B Target C P E).

Inductive effect :=
| Posted (target : Target) (packet : P)
| Closed (target : Target).

Definition logged : InputBackend (B * list effect) Target C P E := {|
  prepare_event b tg e held :=
    let '(r, b') := prepare_event b.1 tg e held in (r, (b', b.2));
  post b tg pk := let '(r, b') := post b.1 tg pk in (r, (b', b.2 ++ [Posted tg pk]));
  closed b tg :=
    let '(r, b') := closed (InputBackend := base) b.1 tg in (r, (b', b.2 ++ [Closed tg]));
  refreshed b tg tg' :=
    let '(r, b') := refreshed (InputBackend := base) b.1 tg tg' in (r, (b', b.2))
|}.

Existing Instance logged.
Let LHost := Host (B := B * list effect) (Target := Target) (C := C) (P := P).
Definition log (h : LHost) : list effect := (backend h).2.

Lemma post_logged b tg pk : (post b tg pk).2.2 = b.2 ++ [Posted tg pk].
Proof. simpl. by destruct (post b.1 tg pk). Qed.

Lemma post_all_logged ps : forall b tg, (post_all b tg ps).2.2 = b.2 ++ (Posted tg <$> ps).
Proof.
  induction ps as [|p ps IH]; intros b tg; [by rewrite app_nil_r|]. cbn [post_all].
  pose proof (post_logged b tg p) as Hp. destruct (post b tg p) as [r b1]. cbn in Hp.
  specialize (IH b1 tg). destruct (post_all b1 tg ps) as [fs b2]. simpl in *.
  rewrite IH, Hp, <- app_assoc. done.
Qed.

(** A session's cleanup: its releases newest first, then its closing. *)
Definition cleanup_log (tg : Target) (stack : list (C * P)) : list effect :=
  (Posted tg <$> stack.*2) ++ [Closed tg].

Lemma close_logged (h : LHost) owner tg stack :
  targets h !! owner = Some tg -> has_stack (ownership h) owner stack ->
  log (close_session h owner).2 = log h ++ cleanup_log tg stack.
Proof.
  intros Ht (a & s & Hr & Hs & <-). unfold close_session.
  pose proof (step_sim (Close owner) _ _ Hr) as [Ha _]. simpl in Ha. rewrite Hs in Ha.
  destruct (Ownership.close (ownership h) owner) as [rs o]. simpl in Ha. simplify_eq.
  rewrite Ht. pose proof (post_all_logged (a_stack s).*2 (backend h) tg) as Hp.
  destruct (post_all (backend h) tg (a_stack s).*2) as [fs [b1 l1]]. cbn in Hp. cbn.
  destruct (closed b1 tg). simpl. unfold log. simpl. rewrite Hp, <- app_assoc. done.
Qed.

(** The packet a dispatch posts. *)
Definition packet_of (prepared : Prepared C P) (stack : list (C * P)) : option P :=
  match prepared with
  | Up k pk => match pk with Some pk => Some pk | None => IndexMap.get k stack end
  | Down _ pk _ | Repeat _ pk | MoveHeld _ pk _ | Action _ pk => Some pk
  end.

(** What a dispatch posts, by its outcome. *)
Definition expected (tg : Target) (prepared : Prepared C P) (stack : list (C * P)) (pk : P)
    (r : outcome (Delivery + InputFailure E)) : list (list effect) :=
  let twice := match prepared with Up _ _ => [Posted tg pk] | _ => [] end in
  match r with
  | Returned (inl _) => [[Posted tg pk]]
  | Returned (inr (Post (NotDispatched _) _)) =>
      [Posted tg pk :: twice ++ cleanup_log tg (rolled_back_stack prepared stack)]
  | Returned (inr (Post _ _)) =>
      [Posted tg pk :: cleanup_log tg (staged_stack prepared stack)]
  | Returned (inr _) => [[]]
  | Panicked => [[Posted tg pk]; Posted tg pk :: twice]
  end.

Lemma stage_packet (o : Ownership.t) owner prepared stack s o' :
  has_stack o owner stack -> stage o owner prepared = (inl s, o') ->
  packet_of prepared stack = Some (st_packet s).
Proof.
  intros Hst. destruct prepared as [k pk x|k pk|k pk|k pk x|ks pk]; simpl.
  - destruct (Ownership.hold o owner k x) as [[[]|e] o1]; intros; by simplify_eq.
  - destruct (Ownership.release o owner k) as [[x|e] o1] eqn:Hh; intros; simplify_eq.
    destruct (release_stack _ _ _ _ _ _ Hst Hh) as [Hk _]. simpl. by destruct pk.
  - destruct (Ownership.held o owner k); intros; by simplify_eq.
  - destruct (Ownership.replace_release o owner k x) as [[old|e] o1]; intros; by simplify_eq.
  - destruct (all_available o owner ks); intros; by simplify_eq.
Qed.

Lemma finish_logged (h : LHost) owner tg stack failure (cleanup : list (PostFailure E)) :
  targets h !! owner = Some tg -> has_stack (ownership h) owner stack ->
  let res := (let '(fs, h2) := close_session h owner in
              (Returned (@inr Delivery _ (Post failure (cleanup ++ fs))), h2)) in
  log res.2 = log h ++ cleanup_log tg stack /\
  exists c, res.1 = Returned (inr (Post failure c)).
Proof.
  intros Ht Hst. pose proof (close_logged h owner tg stack Ht Hst) as Hl.
  destruct (close_session h owner) as [fs h2]. simpl in *. eauto.
Qed.

(** The cleanup at the end of a failed dispatch, with the post that failed. *)
Ltac finish_dispatch failure cleanup Ht Hst :=
  match goal with |- context [close_session ?h2 ?owner] =>
    let Hl := fresh in let Hc := fresh in let c := fresh in
    pose proof (finish_logged h2 owner _ _ failure cleanup Ht Hst) as [Hl [c Hc]];
    destruct (close_session h2 owner) as [? ?]; simpl in *; simplify_eq;
    eexists; (split; [left|]); rewrite Hl; unfold log; simpl; by rewrite <- ?app_assoc
  end.

Lemma dispatch_logged (h : LHost) owner tg stack prepared s o :
  targets h !! owner = Some tg -> has_stack (ownership h) owner stack ->
  stage (ownership h) owner prepared = (inl s, o) ->
  let '(r, h') := dispatch owner prepared h in
  exists posts, posts ∈ expected tg prepared stack (st_packet s) r /\ log h' = log h ++ posts.
Proof.
  intros Ht Hst Hsg. destruct (stage_stack _ _ _ _ _ _ Hst Hsg) as (Hst1 & Hst2 & Hup).
  unfold dispatch. rewrite Hsg. unfold with_target. cbn [targets set_ownership backend].
  rewrite Ht. pose proof (post_logged (backend h) tg (st_packet s)) as Hp.
  destruct (post (backend h) tg (st_packet s)) as [r [b l]]. cbn in Hp. subst l.
  destruct r as [[rc|[e|e|]]|]; cbn [targets backend ownership set_backend].
  - exists [Posted tg (st_packet s)]. split; [left|done].
  - destruct (st_up s).
    + destruct prepared; try done.
      pose proof (post_logged (b, (backend h).2 ++ [Posted tg (st_packet s)]) tg (st_packet s)) as Hp.
      destruct (post (b, _) tg (st_packet s)) as [r2 [b2 l2]]. cbn in Hp. subst l2.
      destruct r2 as [[rc|e2]|].
      * finish_dispatch (NotDispatched e) (@nil (PostFailure E)) Ht Hst2.
      * finish_dispatch (NotDispatched e) [e2] Ht Hst2.
      * eexists. split; [right; left|]. unfold log. simpl. by rewrite <- !app_assoc.
    + destruct prepared; try done;
        finish_dispatch (NotDispatched e) (@nil (PostFailure E)) Ht Hst2.
  - finish_dispatch (Uncertain e) (@nil (PostFailure E)) Ht Hst1.
  - finish_dispatch (@BackendPanicked E) (@nil (PostFailure E)) Ht Hst1.
  - exists [Posted tg (st_packet s)]. split; [left|done].
Qed.

(** What closing [p] on [h] sends to the backend. *)
Definition cleanup_of (h : LHost) (p : Participant) : list effect :=
  match targets h !! p with
  | Some tg => (Posted tg <$> (Ownership.close (ownership h) p).1) ++ [Closed tg]
  | None => []
  end.

Lemma close_session_logged (h : LHost) p :
  log (close_session h p).2 = log h ++ cleanup_of h p.
Proof.
  unfold close_session, cleanup_of.
  destruct (Ownership.close (ownership h) p) as [rs o]. simpl.
  destruct (targets h !! p) as [tg|]; [|by rewrite app_nil_r].
  pose proof (post_all_logged rs (backend h) tg) as Hp.
  destruct (post_all (backend h) tg rs) as [fs [b1 l1]]. cbn in Hp. cbn.
  destruct (closed b1 tg). simpl. unfold log. simpl. rewrite Hp, <- app_assoc. done.
Qed.

Lemma cleanup_of_ext (h h' : LHost) q :
  sessions (ownership h') !! q = sessions (ownership h) !! q -> targets h' !! q = targets h !! q ->
  cleanup_of h' q = cleanup_of h q.
Proof.
  intros Hs Ht. unfold cleanup_of, Ownership.close. rewrite Ht, Hs.
  destruct (targets h !! q); [|done]. by destruct (sessions (ownership h) !! q).
Qed.

Lemma close_all_logged ps : forall h : LHost, good h -> NoDup ps ->
  let h' := close_all h ps in
  log h' = log h ++ (ps ≫= cleanup_of h) /\ good h' /\
  (forall p, sessions (ownership h') !! p =
     if decide (p ∈ ps) then None else sessions (ownership h) !! p).
Proof.
  induction ps as [|p ps IH]; intros h Hg Hn; cbn [close_all].
  - rewrite app_nil_r. split_and!; [done|done|]. intros p. rewrite decide_False; [done|].
    apply not_elem_of_nil.
  - apply NoDup_cons in Hn as [Hp Hn]. destruct (local_close p h Hg) as [Hg1 Hq].
    destruct (IH _ Hg1 Hn) as (Hl & Hg2 & Hs). split_and!; [|done|].
    + rewrite Hl, close_session_logged, bind_cons, <- app_assoc. do 2 f_equal.
      apply list_bind_ext_in. intros q Hin. apply cleanup_of_ext; apply Hq; congruence.
    + intros q. rewrite Hs. destruct (decide (q = p)) as [->|Hqp].
      * rewrite (decide_True (P := p ∈ p :: ps)) by left.
        case_decide; [done|]. apply close_session_gone.
      * destruct (Hq q Hqp) as [-> _]. apply decide_ext. set_solver.
Qed.

Lemma participants_spec (o : Ownership.t (C := C) (R := P)) :
  NoDup (participants o) /\ forall p, p ∈ participants o <-> is_Some (sessions o !! p).
Proof.
  unfold participants. split.
  - rewrite merge_sort_Permutation. apply NoDup_fst_map_to_list.
  - intros p. rewrite merge_sort_Permutation, list_elem_of_fmap. split.
    + intros ([q s] & -> & Hin%elem_of_map_to_list). eauto.
    + intros [s Hs]. exists (p, s). by rewrite elem_of_map_to_list.
Qed.

(** On every branch, what one dispatch posts is exactly determined by the
    owner's holds and the outcome: one post on success; after a certified
    non-delivery, the releases of the holds as they were before (the new hold
    or the new drag position undone, an undelivered Up posted once more); after
    an uncertain one, the releases including the new hold or position; each
    release once, newest first, then the closing of the target. *)
Theorem dispatch_posts (h : LHost) (owner : Participant) (tg : Target) (stack : list (C * P))
    (prepared : Prepared C P) (pk : P) :
  targets h !! owner = Some tg -> has_stack (ownership h) owner stack ->
  packet_of prepared stack = Some pk ->
  let '(r, h') := dispatch owner prepared h in
  exists posts, posts ∈ expected tg prepared stack pk r /\ log h' = log h ++ posts.
Proof.
  intros Ht Hst Hpk. destruct (stage (ownership h) owner prepared) as [[s|e] o] eqn:Hsg.
  - pose proof (stage_packet _ _ _ _ _ _ Hst Hsg) as Hs. rewrite Hpk in Hs. injection Hs as ->.
    by apply (dispatch_logged h owner tg stack prepared s o).
  - unfold dispatch. rewrite Hsg. exists []. split; [left|]. unfold log. simpl. by rewrite app_nil_r.
Qed.

(** Dropping a host releases everything: for each live participant in order,
    every retained release is posted once, newest first, and its target is
    closed, whatever the posts answer; no session or destination is left. *)
Theorem drop_releases_everything (h : LHost) :
  good h ->
  log (drop_host h) = log h ++ (participants (ownership h) ≫= cleanup_of h) /\
  (forall p, gone p (drop_host h)) /\
  (forall p, is_Some (sessions (ownership h) !! p) -> exists tg, targets h !! p = Some tg /\
     cleanup_of h p = (Posted tg <$> (Ownership.close (ownership h) p).1) ++ [Closed tg]).
Proof.
  intros Hg. destruct (participants_spec (ownership h)) as [Hn Hin].
  destruct (close_all_logged _ h Hg Hn) as (Hl & Hg' & Hs). split_and!; [done| |].
  - intros p. assert (Hp : sessions (ownership (drop_host h)) !! p = None).
    { unfold drop_host. rewrite Hs. case_decide as Hd; [done|].
      apply eq_None_not_Some. by rewrite <- Hin. }
    split; [done|]. destruct Hg' as [_ Hd]. apply eq_None_not_Some.
    unfold drop_host in *. rewrite Hd, Hp. by intros [? ?].
  - intros p Hp. destruct Hg as [_ Hd]. apply Hd in Hp as [tg Ht]. exists tg. split; [done|].
    unfold cleanup_of. by rewrite Ht.
Qed.

End logged.

(** A backend over numbered packets: negative packets are certainly not
    delivered, packet 0 panics, packets above 99 are uncertain. *)
Definition sample_backend : InputBackend unit Z Z Z Z := {|
  prepare_event b _ _ _ := (Returned (inl (Repeat 1 1)), b);
  post b _ pk :=
    (if pk =? 0 then Panicked
     else if pk <? 0 then Returned (inr (NotDispatched pk))
     else if 99 <? pk then Returned (inr (Uncertain pk))
     else Returned (inl DispatchedUnverified), b);
  closed b _ := (Returned tt, b);
  refreshed b _ _ := (Returned tt, b)
|}.

Definition sample_host :=
  let h := new_host (Target := Z) (C := Z) (P := Z) (tt, @nil (effect (Target := Z) (P := Z))) 3 4 4 in
  let h := (open_session h (Identity "a" 1) "pid" 10).2 in
  let h := (open_session h (Identity "b" 1) "pid" 20).2 in
  (serve (backend_ops := logged sample_backend) Z.le h
     (SubmitPrepared (Token 3 1) (Identity "a" 1) 1 (Down 1 5 6))).2.

(** The ownership calls behind [sample_host]. *)
Definition sample_calls : list (call (C := Z) (R := Z)) :=
  [Open (Identity "a" 1) "pid"; Open (Identity "b" 1) "pid";
   AcceptSequence (Token 3 1) 1; HoldControl (Token 3 1) 1 6].

Lemma host_isolation_witness :
  gone (Token 3 1)
    (serve (backend_ops := logged sample_backend) Z.le sample_host
       (SubmitPrepared (Token 3 1) (Identity "a" 1) 2 (Down 2 100 7))).2.
Proof.
  refine (proj1 (proj2 (host_isolation (backend_ops := logged sample_backend) Z.le sample_host
           (SubmitPrepared (Token 3 1) (Identity "a" 1) 2 (Down 2 100 7)) _) _)).
  - unfold sample_host. apply reach_serve, reach_open, reach_open, reach_new.
  - right. do 2 eexists. vm_compute. reflexivity.
Defined.

Lemma dispatch_posts_witness :
  exists posts,
    posts ∈ [[Posted 10 100; Posted 10 7; Posted 10 6; Closed (P := Z) 10]] /\
    log (dispatch (backend_ops := logged sample_backend) (Token 3 1) (Down 2 100 7)
           sample_host).2 = log sample_host ++ posts.
Proof.
  pose proof (dispatch_posts sample_backend sample_host (Token 3 1) 10 [(1, 6)] (Down 2 100 7) 100
    ltac:(vm_compute; reflexivity)) as Hd.
  assert (Hst : has_stack (ownership sample_host) (Token 3 1) [(1, 6)]).
  { exists (spec_run (spec_new 3 4 4) sample_calls).2,
      (SpecS (Identity "a" 1) "pid" [(1, 6)] 1 (Some 1)).
    assert (Ho : ownership sample_host = (run (new 3 4 4).1 sample_calls).2)
      by (vm_compute; reflexivity).
    rewrite Ho. split_and!; [apply run_sim, repr_new|vm_compute; reflexivity|reflexivity]. }
  specialize (Hd Hst eq_refl).
  destruct (dispatch (backend_ops := logged sample_backend) (Token 3 1) (Down 2 100 7)
              sample_host) as [r h'] eqn:E.
  assert (Hr : r = (dispatch (backend_ops := logged sample_backend) (Token 3 1) (Down 2 100 7)
              sample_host).1) by (by rewrite E).
  vm_compute in Hr. subst r. exact Hd.
Defined.

Lemma drop_releases_everything_witness :
  log (drop_host (backend_ops := logged sample_backend) sample_host) =
  [Posted 10 5; Posted 10 6; Closed 10; Closed 20].
Proof.
  rewrite (proj1 (drop_releases_everything sample_backend sample_host
    ltac:(apply (reachable_good (backend_ops := logged sample_backend) Z.le);
          apply reach_serve, reach_open, reach_open, reach_new))).
  vm_compute. reflexivity.
Defined.

End InputHost.
