(* ===== verification/Schedule.v ===== *)
(** * Timeline dispatch

    [Schedule] models [dispatch_fallible] and [dispatch] of
    src/cantrip_interaction/src/schedule.rs: frames in order, late cosmetic
    moves skipped, a held-key table with its cleanup in reverse index order.
    The caller's callbacks (clock, cancellation, preparation, delivery) are a
    record of functions on the caller's state. Durations are nanoseconds. *)
From S2P Require Import Prelude.
From stdpp Require Import base numbers gmap strings sorting list.
Open Scope Z_scope.

Module Schedule.

Section schedule.
Context {Point W E : Type}.

Inductive Transition :=
| Down (i : nat)
| Up (i : nat)
| Move (p : Point).

Record Frame := MkFrame { at_time : Z; events : list Transition }.

Record DispatchFailure := Failure { source : E; input_began : bool }.

Record Callbacks := MkCallbacks {
  check : W -> (unit + E) * W;
  post : W -> Transition -> (unit + E) * W;
  prepare : W -> Transition -> (unit + E) * W;
  wait : W -> Z -> (Z + E) * W
}.

Context (cb : Callbacks).

Definition saturating_sub (a b : Z) : Z := Z.max 0 (a - b).
Definition LATE : Z := 16 * 1000000.

(** [Held::release_all], from index [n - 1] down: every set key is cleared and
    its Up posted; the first error is kept. *)
Fixpoint release_from (n : nat) (keys : list bool) (w : W) : (unit + E) * list bool * W :=
  match n with
  | O => (inl tt, keys, w)
  | S i =>
      match keys !! i with
      | Some true =>
          let '(r, w1) := post cb w (Up i) in
          let '(rest, keys2, w2) := release_from i (<[i := false]> keys) w1 in
          (match r with inr e => inr e | inl _ => rest end, keys2, w2)
      | _ => release_from i keys w
      end
  end.

Definition release_all (keys : list bool) (w : W) : (unit + E) * list bool * W :=
  release_from (length keys) keys w.

(** How the event loop of a frame ends; [Crashed] is an index out of range. *)
Inductive status := Running | Failed (e : E) | Crashed.

Record Loop := MkLoop { l_status : status; l_keys : list bool; l_began : bool; l_world : W }.

Definition stop (s : Loop) (st : status) (w : W) : Loop :=
  MkLoop st (l_keys s) (l_began s) w.

(** The assignment to the key table before the post. *)
Definition arm (s : Loop) (event : Transition) : Loop :=
  let set i b :=
    if decide (i < length (l_keys s))%nat
    then MkLoop Running (<[i := b]> (l_keys s)) true (l_world s)
    else stop s Crashed (l_world s) in
  match event with
  | Down i => set i true
  | Up i => set i false
  | Move _ => s
  end.

Definition post_event (s : Loop) (event : Transition) : Loop :=
  let s := arm s event in
  match l_status s with
  | Running =>
      match post cb (l_world s) event with
      | (inl _, w) => stop s Running w
      | (inr e, w) => stop s (Failed e) w
      end
  | _ => s
  end.

Definition run_event (late : bool) (s : Loop) (event : Transition) : Loop :=
  if late && (match event with Move _ => true | _ => false end) then s
  else
    match check cb (l_world s) with
    | (inr e, w) => stop s (Failed e) w
    | (inl _, w) =>
        match prepare cb w event with
        | (inr e, w) => stop s (Failed e) w
        | (inl _, w) => post_event (stop s Running w) event
        end
    end.

Fixpoint run_events (late : bool) (s : Loop) (es : list Transition) : Loop :=
  match es with
  | [] => s
  | e :: es =>
      let s1 := run_event late s e in
      match l_status s1 with Running => run_events late s1 es | _ => s1 end
  end.

Definition run_frame (s : Loop) (f : Frame) : Loop :=
  match wait cb (l_world s) (at_time f) with
  | (inr e, w) => stop s (Failed e) w
  | (inl elapsed, w) =>
      match check cb w with
      | (inr e, w) => stop s (Failed e) w
      | (inl _, w) =>
          run_events (LATE <? saturating_sub elapsed (at_time f)) (stop s Running w) (events f)
      end
  end.

Fixpoint run_frames (s : Loop) (fs : list Frame) : Loop :=
  match fs with
  | [] => s
  | f :: fs =>
      let s1 := run_frame s f in
      match l_status s1 with Running => run_frames s1 fs | _ => s1 end
  end.

(** [dispatch_fallible]. After the loop: the cleanup, then the drop of the
    held keys, which cleans up again; a crash only drops them. *)
Definition dispatch_fallible (frames : list Frame) (count : nat) (w : W) :
  outcome (unit + DispatchFailure) * W :=
  let s := run_frames (MkLoop Running (replicate count false) false w) frames in
  match l_status s with
  | Crashed => (Panicked, (release_all (l_keys s) (l_world s)).2)
  | st =>
      let '(cleanup, keys, w1) := release_all (l_keys s) (l_world s) in
      let result := match st with Failed e => inr e | _ => cleanup end in
      let '(_, _, w2) := release_all keys w1 in
      (Returned (match result with
                 | inl _ => inl tt
                 | inr e => inr (Failure e (l_began s))
                 end), w2)
  end.

End schedule.
Arguments Transition Point : clear implicits.
Arguments Callbacks Point W E : clear implicits.

(** [dispatch]: delivery that cannot fail. *)
Definition dispatch {Point W E} (check : W -> (unit + E) * W) (post : W -> Transition Point -> W)
    (prepare : W -> Transition Point -> (unit + E) * W) (wait : W -> Z -> (Z + E) * W)
    (frames : list Frame) (count : nat) (w : W) : outcome (unit + DispatchFailure) * W :=
  dispatch_fallible (MkCallbacks check (fun w e => (inl tt, post w e)) prepare wait) frames count w.

(** ** Recorded posts *)
Section logged.
Context {Point W E : Type} (base : Callbacks Point W E).

(** What was posted, each with whether the delivery succeeded. *)
Definition World : Type := W * list (Transition Point * bool).
Definition posts (w : World) : list (Transition Point) := w.2.*1.
Definition succeeded {A} (r : A + E) : bool := match r with inl _ => true | inr _ => false end.

Definition lift {A} (f : W -> A * W) (w : World) : A * World :=
  let '(r, w') := f w.1 in (r, (w', w.2)).

Definition logged : Callbacks Point World E := {|
  check := lift (check base);
  post w e := let '(r, w') := post base w.1 e in (r, (w', w.2 ++ [(e, succeeded r)]));
  prepare w e := lift (fun w => prepare base w e) w;
  wait w t := lift (fun w => wait base w t) w
|}.

(** The state of key [i] that a sequence of transitions leaves. *)
Definition holds_key (i : nat) (b : bool) (e : Transition Point) : bool :=
  match e with
  | Down j => if decide (i = j) then true else b
  | Up j => if decide (i = j) then false else b
  | Move _ => b
  end.
Definition pressed (i : nat) (log : list (Transition Point)) : bool :=
  fold_left (holds_key i) log false.

(** The state of key [i] after posts of which the failed ones had no effect. *)
Definition stays_down (i : nat) (log : list (Transition Point * bool)) : bool :=
  pressed i (filter (fun x => x.2 = true) log).*1.

(** A transition of key [i]. *)
Definition about (i : nat) (e : Transition Point) : bool :=
  match e with Down j | Up j => bool_decide (i = j) | Move _ => false end.

Definition native (e : Transition Point) : bool :=
  match e with Move _ => false | _ => true end.

Definition timeline (fs : list Frame) : list (Transition Point) := fs ≫= events.

Lemma pressed_snoc i log e : pressed i (log ++ [e]) = holds_key i (pressed i log) e.
Proof. unfold pressed. by rewrite fold_left_app. Qed.

(** A key that all posts together lift stays down only when the last of them
    about it is an Up that failed. *)
Lemma stays_down_last i log : pressed i log.*1 = false -> stays_down i log = true ->
  exists before after, log = before ++ (Up i, false) :: after /\ Forall (fun x => about i x.1 = false) after.
Proof.
  unfold stays_down. induction log as [|[e ok] log IH] using rev_ind; [done|].
  assert (E1 : (log ++ [(e, ok)]).*1 = log.*1 ++ [e]) by (by rewrite fmap_app). rewrite E1, pressed_snoc, filter_app, fmap_app, filter_cons, filter_nil. intros Hp Hd.
  assert (Hskip : about i e = false -> pressed i log.*1 = false -> pressed i (filter (fun x => x.2 = true) log).*1 = true ->
    exists before after, log ++ [(e, ok)] = before ++ (Up i, false) :: after /\ Forall (fun x => about i x.1 = false) after).
  { intros Ha H1 H2. destruct (IH H1 H2) as (b & a & -> & Hf). exists b, (a ++ [(e, ok)]). split; [by rewrite <- app_assoc|]. apply Forall_app. auto. }
  assert (Hkeep : about i e = false -> forall b, holds_key i b e = b).
  { destruct e as [j|j|p]; simpl; [intros ?%bool_decide_eq_false b; by rewrite decide_False|intros ?%bool_decide_eq_false b; by rewrite decide_False|done]. }
  destruct (about i e) eqn:Ea.
  - destruct e as [j|j|p]; simpl in Ea; [..|done]; apply bool_decide_eq_true in Ea as <-; simpl in Hp; rewrite decide_True in Hp by done; [done|].
    destruct ok; [|by exists log, []]. rewrite (decide_True (P := (Up i, true).2 = true)) in Hd by done. change ([(Up i, true)].*1) with [@Up Point i] in Hd. rewrite pressed_snoc in Hd. simpl in Hd. by rewrite decide_True in Hd.
  - apply Hskip; [done|by rewrite Hkeep in Hp|]. destruct ok.
    + rewrite (decide_True (P := (e, true).2 = true)) in Hd by done. change ([(e, true)].*1) with [e] in Hd. by rewrite pressed_snoc, Hkeep in Hd.
    + rewrite (decide_False (P := (e, false).2 = true)) in Hd by done. change (fmap fst []) with (@nil (Transition Point)) in Hd. by rewrite app_nil_r in Hd.
Qed.

Lemma stays_down_delivered i log : Forall (fun x => x.2 = true) log -> stays_down i log = pressed i log.*1.
Proof. intros H. unfold stays_down. f_equal. f_equal. induction H as [|x log Hx _ IH]; [done|]. by rewrite filter_cons_True, IH. Qed.

(** The Ups of the keys still set, highest index first. *)
Fixpoint ups_from (n : nat) (keys : list bool) : list (Transition Point) :=
  match n with
  | O => []
  | S i => match keys !! i with Some true => [Up i] | _ => [] end ++ ups_from i keys
  end.

Lemma ups_from_insert n i keys b : (n <= i)%nat -> ups_from n (<[i := b]> keys) = ups_from n keys.
Proof.
  induction n as [|n IH]; intros Hn; [done|]. simpl.
  rewrite list_lookup_insert_ne by lia. rewrite IH by lia. done.
Qed.

Lemma release_from_logged n : forall keys w,
  let '(r, keys', w') := release_from logged n keys w in
  posts w' = posts w ++ ups_from n keys /\
  (succeeded r = true -> Forall (fun x => x.2 = true) w.2 -> Forall (fun x => x.2 = true) w'.2) /\
  (forall i, keys' !! i = if decide (i < n)%nat then (fun _ => false) <$> keys !! i else keys !! i).
Proof.
  induction n as [|n IH]; intros keys w; cbn [release_from ups_from].
  - rewrite app_nil_r. split_and!; [done|done|]. intros i. by rewrite decide_False by lia.
  - assert (Hclear : forall i, keys !! n <> Some true ->
      (if decide (i < n)%nat then (fun _ => false) <$> keys !! i else keys !! i) =
      if decide (i < S n)%nat then (fun _ => false) <$> keys !! i else keys !! i).
    { intros i Hn. destruct (decide (i < n)%nat); [by rewrite decide_True by lia|].
      case_decide; [|done]. replace i with n by lia. by destruct (keys !! n) as [[]|]. }
    destruct (keys !! n) as [[]|] eqn:Hk.
    + cbn [post logged]. destruct (post base w.1 (Up n)) as [r w1].
      specialize (IH (<[n := false]> keys) (w1, w.2 ++ [(Up n, succeeded r)])).
      destruct (release_from logged n _ _) as [[rest keys2] w2]. cbn [snd] in *.
      destruct IH as (-> & Hok & Hi). split_and!.
      * rewrite ups_from_insert by lia. unfold posts. cbn [snd]. rewrite fmap_app. by rewrite <- app_assoc.
      * destruct r as [u|x]; [|done]. intros Hr Hall. apply Hok; [done|]. apply Forall_app. split; [done|by repeat constructor].
      * intros i. rewrite Hi. destruct (decide (i = n)) as [->|Hne].
        -- rewrite decide_False, decide_True, Hk by lia. rewrite list_lookup_insert_eq; [done|].
           by eapply lookup_lt_Some.
        -- rewrite !list_lookup_insert_ne by done.
           destruct (decide (i < n)%nat), (decide (i < S n)%nat); done || lia.
    + specialize (IH keys w). destruct (release_from logged n keys w) as [[rest keys2] w2].
      destruct IH as (-> & Hok & Hi). split_and!; [done|done|]. intros i. rewrite Hi. by apply Hclear.
    + specialize (IH keys w). destruct (release_from logged n keys w) as [[rest keys2] w2].
      destruct IH as (-> & Hok & Hi). split_and!; [done|done|]. intros i. rewrite Hi. by apply Hclear.
Qed.

(** ** The loop *)

Let LoopS := Loop (W := World) (E := E).

(** The key table is the state the posts so far leave, and [began] says
    whether any of them was a native event. *)
Definition tracks (count : nat) (s : LoopS) : Prop :=
  length (l_keys s) = count /\
  (forall i, (i < count)%nat -> l_keys s !! i = Some (pressed i (posts (l_world s)))) /\
  (forall i, (count <= i)%nat -> pressed i (posts (l_world s)) = false) /\
  l_began s = existsb native (posts (l_world s)) /\
  (l_status s = Running -> Forall (fun x => x.2 = true) (l_world s).2).

(** [d] is what is posted of the events [es], all of the native ones unless
    the loop stopped. *)
Definition delivers (es d : list (Transition Point)) (running : bool) : Prop :=
  sublist d es /\ filter native d `prefix_of` filter native es /\
  (running = true -> filter native d = filter native es).

Definition is_running (s : LoopS) : bool := match l_status s with Running => true | _ => false end.

Definition advances (count : nat) (s s' : LoopS) (es : list (Transition Point)) : Prop :=
  tracks count s ->
  tracks count s' /\
  exists d, posts (l_world s') = posts (l_world s) ++ d /\ delivers es d (is_running s').

Lemma delivers_app es1 es2 d1 d2 r :
  delivers es1 d1 true -> delivers es2 d2 r -> delivers (es1 ++ es2) (d1 ++ d2) r.
Proof.
  intros (Hs1 & _ & Hr1) (Hs2 & Hp2 & Hr2). unfold delivers. rewrite !filter_app, Hr1 by done.
  split_and!; [by apply sublist_app|by apply prefix_app|]. intros ->. by rewrite Hr2.
Qed.

Lemma delivers_stop es1 es2 d : delivers es1 d false -> delivers (es1 ++ es2) d false.
Proof.
  intros (Hs & Hp & _). split_and!; [by apply sublist_inserts_r| |done].
  rewrite filter_app. by apply prefix_app_r.
Qed.

Lemma tracks_world count s st w :
  w.2 = (l_world s).2 -> (st = Running -> l_status s = Running) -> tracks count s -> tracks count (stop s st w).
Proof. intros Hw Hst. unfold tracks, posts. simpl. rewrite Hw. intuition. Qed.

Lemma tracks_post count s st w e ok :
  tracks count s -> l_status s = Running -> l_status (arm s e) = Running ->
  w.2 = (l_world s).2 ++ [(e, ok)] -> (st = Running -> ok = true) -> tracks count (stop (arm s e) st w).
Proof.
  intros (Hl & Hk & Ho & Hb & Hf) Hrun Ha Hw Hst. unfold tracks. simpl.
  assert (Hp : posts w = posts (l_world s) ++ [e]) by (unfold posts; by rewrite Hw, fmap_app).
  assert (Hall : st = Running -> Forall (fun x => x.2 = true) w.2).
  { intros E1. rewrite Hw. apply Forall_app. split; [by apply Hf|]. rewrite (Hst E1). by repeat constructor. }
  rewrite Hp, existsb_app, <- Hb. enough (Hmain : length (l_keys (arm s e)) = count /\
    (forall j, (j < count)%nat -> l_keys (arm s e) !! j = Some (pressed j (posts (l_world s) ++ [e]))) /\
    (forall j, (count <= j)%nat -> pressed j (posts (l_world s) ++ [e]) = false) /\
    l_began (arm s e) = l_began s || existsb native [e]) by (intuition). clear Hp Hw Hall.
  assert (Hset : forall i b, arm s e = (if decide (i < length (l_keys s))%nat
      then MkLoop Running (<[i := b]> (l_keys s)) true (l_world s)
      else stop s Crashed (l_world s)) ->
    (forall j v, holds_key j v e = if decide (j = i) then b else v) -> native e = true ->
    length (l_keys (arm s e)) = count /\
    (forall j, (j < count)%nat -> l_keys (arm s e) !! j = Some (pressed j (posts (l_world s) ++ [e]))) /\
    (forall j, (count <= j)%nat -> pressed j (posts (l_world s) ++ [e]) = false) /\
    l_began (arm s e) = l_began s || existsb native [e]).
  { intros i b He Hh Hn. rewrite He in *. destruct (decide (i < length (l_keys s))%nat) as [Hi|];
      [|done]. simpl. rewrite length_insert, Hn, !orb_true_r. split_and!; [done| | |done].
    - intros j Hj. rewrite pressed_snoc, Hh. case_decide as Hji; [subst j|].
      + rewrite list_lookup_insert_eq; done.
      + rewrite list_lookup_insert_ne by done. auto.
    - intros j Hj. rewrite pressed_snoc, Hh. rewrite decide_False by lia. auto. }
  destruct e as [i|i|p].
  - by apply (Hset i true).
  - by apply (Hset i false).
  - simpl. rewrite orb_false_r. split_and!; [done| | |done]; intros i Hi; rewrite pressed_snoc;
      [exact (Hk i Hi)|exact (Ho i Hi)].
Qed.

Lemma post_event_advances count s e :
  is_running s = true -> advances count s (post_event logged s e) [e].
Proof.
  intros Hr Ht. unfold post_event. destruct (l_status (arm s e)) eqn:Ha.
  - assert (Hw : l_world (arm s e) = l_world s).
    { destruct e as [i|i|p]; simpl in *; [by case_decide..|done]. }
    rewrite Hw. cbn [post logged]. assert (Hs : l_status s = Running) by (unfold is_running in Hr; by destruct (l_status s)).
    destruct (post base (l_world s).1 e) as [[u|x] w]; (split; [by eapply tracks_post|]; exists [e]; split; [unfold posts; simpl; by rewrite fmap_app|done]).
  - destruct e as [i|i|p]; simpl in *; [case_decide; done..|].
    unfold is_running in Hr. by rewrite Ha in Hr.
  - assert (Hs : arm s e = stop s Crashed (l_world s)).
    { destruct e as [i|i|p]; simpl in *; [case_decide; done..|].
      unfold is_running in Hr. by rewrite Ha in Hr. }
    rewrite Hs. split; [by apply tracks_world|]. exists []. unfold posts. simpl. rewrite app_nil_r.
    split; [done|]. split_and!; [apply sublist_nil_l|apply prefix_nil|done].
Qed.

Lemma stop_advances count s st w es :
  w.2 = (l_world s).2 -> st <> Running -> advances count s (stop s st w) es.
Proof.
  intros Hw Hst Ht. split; [by apply tracks_world|]. exists []. unfold posts. simpl. rewrite app_nil_r, Hw.
  split; [done|]. split_and!; [apply sublist_nil_l|apply prefix_nil|].
  unfold is_running. simpl. by destruct st.
Qed.

Lemma advances_world count s w s' es :
  is_running s = true -> w.2 = (l_world s).2 -> advances count (stop s Running w) s' es -> advances count s s' es.
Proof.
  intros Hr Hw Ha Ht. assert (Hs : l_status s = Running) by (unfold is_running in Hr; by destruct (l_status s)).
  destruct (Ha (tracks_world _ _ Running _ Hw (fun _ => Hs) Ht)) as [Ht' Hd]. unfold posts in *. simpl in Hd. by rewrite Hw in Hd.
Qed.

Lemma run_event_advances count late s e :
  is_running s = true -> advances count s (run_event logged late s e) [e].
Proof.
  intros Hr. unfold run_event. destruct (late && _) eqn:El.
  - intros Ht. split; [done|]. exists []. rewrite app_nil_r. split; [done|].
    apply andb_true_iff in El as [_ El]. destruct e; try done.
    split_and!; [apply sublist_nil_l|apply prefix_nil|done].
  - cbn [check prepare logged]. unfold lift.
    destruct (check base (l_world s).1) as [[u|x] w1]; [|by apply stop_advances].
    cbn [fst snd]. destruct (prepare base w1 e) as [[u2|x] w2]; [|by apply stop_advances].
    eapply advances_world; [done| |by apply post_event_advances]. done.
Qed.

Lemma run_events_advances count late es : forall s,
  is_running s = true -> advances count s (run_events logged late s es) es.
Proof.
  induction es as [|e es IH]; intros s Hr; cbn [run_events].
  - intros Ht. split; [done|]. exists []. by rewrite app_nil_r.
  - intros Ht. destruct (run_event_advances count late s e Hr Ht) as [Ht1 (d1 & Hd1 & Hv1)].
    destruct (is_running (run_event logged late s e)) eqn:Hr1.
    + assert (Hst : l_status (run_event logged late s e) = Running)
        by (unfold is_running in Hr1; by destruct (l_status _)).
      rewrite Hst. destruct (IH _ Hr1 Ht1) as [Ht2 (d2 & Hd2 & Hv2)]. split; [done|].
      exists (d1 ++ d2). rewrite Hd2, Hd1, app_assoc. split; [done|].
      by apply (delivers_app [e] es).
    + assert (Hs : (match l_status (run_event logged late s e) with
               | Running => run_events logged late (run_event logged late s e) es
               | _ => run_event logged late s e end) = run_event logged late s e)
        by (unfold is_running in Hr1; by destruct (l_status _)).
      rewrite Hs, Hr1. split; [done|]. exists d1. split; [done|]. by apply (delivers_stop [e] es).
Qed.

Lemma run_frame_advances count s f : is_running s = true -> advances count s (run_frame logged s f) (events f).
Proof.
  intros Hr. unfold run_frame. cbn [wait check logged]. unfold lift.
  destruct (wait base (l_world s).1 (at_time f)) as [[elapsed|x] w1]; [|by apply stop_advances].
  cbn [fst snd]. destruct (check base w1) as [[u|x] w2]; [|by apply stop_advances].
  eapply advances_world; [done| |by apply run_events_advances]. done.
Qed.

Lemma run_frames_advances count fs : forall s,
  is_running s = true -> advances count s (run_frames logged s fs) (timeline fs).
Proof.
  induction fs as [|f fs IH]; intros s Hr; cbn [run_frames].
  - intros Ht. split; [done|]. exists []. by rewrite app_nil_r.
  - intros Ht. destruct (run_frame_advances count s f Hr Ht) as [Ht1 (d1 & Hd1 & Hv1)].
    unfold timeline. rewrite bind_cons. fold (timeline fs).
    destruct (is_running (run_frame logged s f)) eqn:Hr1.
    + assert (Hst : l_status (run_frame logged s f) = Running)
        by (unfold is_running in Hr1; by destruct (l_status _)).
      rewrite Hst. destruct (IH _ Hr1 Ht1) as [Ht2 (d2 & Hd2 & Hv2)]. split; [done|].
      exists (d1 ++ d2). rewrite Hd2, Hd1, app_assoc. split; [done|]. by apply delivers_app.
    + assert (Hs : (match l_status (run_frame logged s f) with
               | Running => run_frames logged (run_frame logged s f) fs
               | _ => run_frame logged s f end) = run_frame logged s f)
        by (unfold is_running in Hr1; by destruct (l_status _)).
      rewrite Hs, Hr1. split; [done|]. exists d1. split; [done|]. by apply delivers_stop.
Qed.

(** The Ups that undo what [d] leaves pressed, highest index first. *)
Definition ups_of (count : nat) (d : list (Transition Point)) : list (Transition Point) :=
  Up <$> filter (fun i => pressed i d = true) (reverse (seq 0 count)).

Lemma ups_from_of n keys d :
  (forall i, (i < n)%nat -> keys !! i = Some (pressed i d)) -> ups_from n keys = ups_of n d.
Proof.
  unfold ups_of. induction n as [|n IH]; intros Hk; [done|].
  cbn [ups_from]. rewrite seq_S, reverse_snoc, filter_cons, Hk, IH by (auto with lia).
  simpl. by destruct (pressed n d).
Qed.

Lemma release_from_clear n : forall keys w, (forall i, keys !! i <> Some true) -> (release_from logged n keys w).2 = w.
Proof. induction n as [|n IH]; intros keys w Hk; [done|]. cbn [release_from]. destruct (keys !! n) as [[]|] eqn:Ek; [by apply Hk in Ek|by apply IH..]. Qed.

Lemma pressed_ups (l : list nat) i : forall d,
  pressed i (d ++ (Up <$> l)) = if decide (i ∈ l) then false else pressed i d.
Proof.
  induction l as [|j l IH]; intros d; [by rewrite app_nil_r|].
  - rewrite fmap_cons. change (Up j :: (Up <$> l)) with ([Up j] ++ (Up <$> l) : list (Transition Point)).
    rewrite app_assoc, IH, pressed_snoc. simpl. destruct (decide (i = j)) as [->|].
    + rewrite (decide_True (P := j ∈ j :: l)) by left. by case_decide.
    + apply decide_ext. set_solver.
Qed.

Lemma tracks_init count w :
  tracks count (MkLoop (E := E) Running (replicate count false) false (w, [])).
Proof.
  split_and!; simpl; [apply length_replicate| |done|done|done].
  intros i Hi. by apply lookup_replicate_2.
Qed.

Lemma dispatch_log frames count w :
  let s := run_frames logged (MkLoop Running (replicate count false) false (w, [])) frames in
  let d := posts (l_world s) in
  posts (dispatch_fallible logged frames count (w, [])).2 = d ++ ups_of count d /\
  (forall i, pressed i (d ++ ups_of count d) = false) /\ tracks count s /\
  delivers (timeline frames) d (is_running s) /\
  ((dispatch_fallible logged frames count (w, [])).1 = Returned (inl tt) ->
   is_running s = true /\ Forall (fun x => x.2 = true) (dispatch_fallible logged frames count (w, [])).2.2).
Proof.
  intros s d. destruct (run_frames_advances count frames _ (eq_refl : is_running
    (MkLoop Running (replicate count false) false (w, [])) = true) (tracks_init count w))
    as [Ht (d' & Hd & Hv)]. fold s in Ht, Hd, Hv. simpl in Hd. fold d in Hd. subst d'.
  pose proof Ht as (Hl & Hk & Ho & Hb & Hf).
  assert (Hp : forall i, pressed i (d ++ ups_of count d) = false).
  { intros i. unfold ups_of. rewrite pressed_ups. case_decide as Hi; [done|].
    destruct (decide (i < count)%nat) as [Hc|Hc]; [|apply Ho; lia].
    destruct (pressed i d) eqn:Hi'; [|done]. destruct Hi. apply list_elem_of_filter. split; [done|].
    rewrite elem_of_reverse, elem_of_seq. lia. }
  unfold dispatch_fallible. cbv zeta.
  match goal with |- context [run_frames ?a ?b frames] => change (run_frames a b frames) with s end.
  unfold release_all. rewrite Hl.
  pose proof (release_from_logged count (l_keys s) (l_world s)) as Hr.
  destruct (release_from logged count (l_keys s) (l_world s)) as [[cleanup keys] w1].
  destruct Hr as (Hw & Hok & Hkeys). rewrite (ups_from_of _ _ d) in Hw by done. fold d in Hw.
  assert (Hclear : forall i, keys !! i <> Some true).
  { intros i. rewrite Hkeys. case_decide; [by destruct (l_keys s !! i)|].
    rewrite (proj2 (lookup_ge_None _ _)) by lia. done. }
  pose proof (release_from_clear (length keys) keys w1 Hclear) as Hr2.
  destruct (release_from logged (length keys) keys w1) as [[c2 k2] w2]. cbn [snd] in Hr2. subst w2.
  unfold is_running in *. destruct (l_status s) eqn:Es; simpl; split_and!; try done. destruct cleanup as [u|x]; [|done].
  intros _. split; [done|]. apply Hok; [done|by apply Hf].
Qed.

(** C32: whatever the callbacks answer, on success, failure or an index out of
    range, the posts are a part [d] of the timeline (a sublist with every native
    event of it in order up to the first failure, late moves left out) followed
    by exactly one Up, highest index first, for each key that [d] leaves pressed.
    A failed post is taken to have no effect and is not repeated: a key stays
    down only when the last post about it is an Up that failed. On success every
    post succeeded, [d] has every native event and no key stays down; a failure
    reports whether any native event was posted before the cleanup. *)
Theorem dispatch_releases_keys (frames : list Frame) (count : nat) (w : W) :
  let '(r, w') := dispatch_fallible logged frames count (w, []) in
  (forall i, stays_down i w'.2 = true ->
     exists before after, w'.2 = before ++ (Up i, false) :: after /\ Forall (fun x => about i x.1 = false) after) /\
  exists d, posts w' = d ++ ups_of count d /\
    sublist d (timeline frames) /\
    filter native d `prefix_of` filter native (timeline frames) /\
    match r with
    | Returned (inl _) =>
        filter native d = filter native (timeline frames) /\ Forall (fun x => x.2 = true) w'.2 /\ forall i, stays_down i w'.2 = false
    | Returned (inr f) => input_began f = existsb native d
    | Panicked => True
    end.
Proof.
  destruct (dispatch_log frames count w) as (Hw & Hp & (_ & _ & _ & Hb & _) & (Hs & Hpre & Hall) & Hgood).
  set (s := run_frames logged _ frames) in *. assert (Hbegan : forall f, (dispatch_fallible logged frames count (w, [])).1 = Returned (inr f) -> input_began f = l_began s).
  { intros f. unfold dispatch_fallible. cbv zeta. change (run_frames logged _ frames) with s. destruct (l_status s) eqn:Es; [| |by simpl]; destruct (release_all logged (l_keys s) (l_world s)) as [[cleanup keys] w1];
      destruct (release_all logged keys w1) as [[c2 k2] w2]; simpl; [destruct cleanup; [done|]|]; by intros [= <-]. }
  destruct (dispatch_fallible logged frames count (w, [])) as [r w']. cbn [fst snd] in *. rewrite <- Hw in Hp. split; [intros i; apply stays_down_last, Hp|].
  eexists. split_and!; [exact Hw|done|done|]. destruct r as [[[]|f]|]; [|by rewrite (Hbegan f)|done]. destruct (Hgood eq_refl) as [Hr Hok].
  split_and!; [by apply Hall|done|]. intros i. rewrite stays_down_delivered by done. apply Hp.
Qed.

(** Callbacks that never fail. *)
Definition reliable : Prop :=
  (forall w, exists w', check base w = (inl tt, w')) /\
  (forall w e, exists w', post base w e = (inl tt, w')) /\
  (forall w e, exists w', prepare base w e = (inl tt, w')) /\
  (forall w t, exists n w', wait base w t = (inl n, w')).

Definition in_range (count : nat) (e : Transition Point) : Prop :=
  match e with Down i | Up i => (i < count)%nat | Move _ => True end.

Lemma run_event_runs count late s e :
  reliable -> in_range count e -> length (l_keys s) = count -> is_running s = true ->
  is_running (run_event logged late s e) = true /\
  length (l_keys (run_event logged late s e)) = count.
Proof.
  intros (Hc & Hp & Hpr & _) Hr Hl Hrun. unfold run_event. destruct (late && _); [done|].
  cbn [check prepare logged]. unfold lift. destruct (Hc (l_world s).1) as [w1 ->].
  cbn [fst snd]. destruct (Hpr w1 e) as [w2 ->]. unfold post_event.
  assert (Ha : l_status (arm (stop s Running (w2, (l_world s).2)) e) = Running /\
    length (l_keys (arm (stop s Running (w2, (l_world s).2)) e)) = count).
  { destruct e as [i|i|p]; simpl in *; [..|done].
    all: rewrite decide_True by lia; simpl; by rewrite length_insert. }
  destruct Ha as [-> Hk]. cbn [post logged].
  destruct (Hp (l_world (arm (stop s Running (w2, (l_world s).2)) e)).1 e) as [w3 ->]. done.
Qed.

Lemma run_events_runs count late es : forall s,
  reliable -> Forall (in_range count) es -> length (l_keys s) = count -> is_running s = true ->
  is_running (run_events logged late s es) = true /\
  length (l_keys (run_events logged late s es)) = count.
Proof.
  induction es as [|e es IH]; intros s Hrel Hr Hl Hrun; [done|]. cbn [run_events].
  inversion_clear Hr. destruct (run_event_runs count late s e) as [Hrun1 Hl1]; [done..|].
  assert (Hst : l_status (run_event logged late s e) = Running)
    by (unfold is_running in Hrun1; by destruct (l_status _)).
  rewrite Hst. by apply IH.
Qed.

Lemma run_frames_runs count fs : forall s,
  reliable -> Forall (in_range count) (timeline fs) -> length (l_keys s) = count ->
  is_running s = true -> is_running (run_frames logged s fs) = true.
Proof.
  induction fs as [|f fs IH]; intros s Hrel Hr Hl Hrun; [done|]. cbn [run_frames].
  unfold timeline in Hr. rewrite bind_cons in Hr. apply Forall_app in Hr as [Hr1 Hr2].
  assert (Hf : is_running (run_frame logged s f) = true /\
    length (l_keys (run_frame logged s f)) = count).
  { pose proof Hrel as (Hc & _ & _ & Hw). unfold run_frame. cbn [wait check logged]. unfold lift.
    destruct (Hw (l_world s).1 (at_time f)) as (n & w1 & ->). cbn [fst snd].
    destruct (Hc w1) as [w2 ->]. by apply run_events_runs. }
  destruct Hf as [Hrun1 Hl1].
  assert (Hst : l_status (run_frame logged s f) = Running)
    by (unfold is_running in Hrun1; by destruct (l_status _)).
  rewrite Hst. by apply IH.
Qed.

Lemma release_from_reliable n : forall keys w,
  reliable -> (release_from logged n keys w).1.1 = inl tt.
Proof.
  induction n as [|n IH]; intros keys w Hrel; [done|]. cbn [release_from].
  destruct (keys !! n) as [[]|]; [|by apply IH..].
  cbn [post logged]. pose proof Hrel as (_ & Hp & _). destruct (Hp w.1 (Up n)) as [w1 ->].
  specialize (IH (<[n := false]> keys) (w1, w.2 ++ [(Up n, true)]) Hrel).
  by destruct (release_from logged n _ _) as [[? ?] ?].
Qed.

(** with callbacks that do not fail and key indices below the count, a
    dispatch returns success, whatever the lateness of the frames. *)
Theorem dispatch_completes (frames : list Frame) (count : nat) (w : W) :
  reliable -> Forall (in_range count) (timeline frames) ->
  (dispatch_fallible logged frames count (w, [])).1 = Returned (inl tt).
Proof.
  intros Hrel Hr.
  pose proof (run_frames_runs count frames (MkLoop Running (replicate count false) false (w, []))
    Hrel Hr (length_replicate _ _) eq_refl) as Hrun.
  unfold dispatch_fallible. cbv zeta. set (s := run_frames _ _ _) in *.
  unfold is_running in Hrun. destruct (l_status s); try done. unfold release_all.
  pose proof (release_from_reliable (length (l_keys s)) (l_keys s) (l_world s) Hrel) as Hc.
  destruct (release_from logged _ (l_keys s) (l_world s)) as [[cleanup keys] w1]. simpl in Hc.
  subst cleanup. by destruct (release_from logged _ keys w1) as [[? ?] ?].
Qed.

End logged.

Definition sample_callbacks : Callbacks Z unit string := {|
  check w := (inl tt, w);
  post w _ := (inl tt, w);
  prepare w _ := (inl tt, w);
  wait w t := (inl (t + 20 * 1000000), w)
|}.

Lemma dispatch_completes_witness :
  (dispatch_fallible (logged sample_callbacks)
     [MkFrame 5 [Move 3; Down 0]; MkFrame 9 [Down 1; Up 0]] 2 (tt, [])).1 = Returned (inl tt).
Proof.
  apply (dispatch_completes sample_callbacks [MkFrame 5 [Move 3; Down 0]; MkFrame 9 [Down 1; Up 0]]
           2 tt).
  - repeat split; intros; simpl; eauto.
  - repeat constructor.
Defined.

(** The delivery of an Up fails: its key stays down, and the cleanup does not
    post it again. *)
Definition failing_callbacks : Callbacks Z nat string := {|
  check w := (inl tt, w);
  post w _ := (if decide (w = 1)%nat then inr "lost" else inl tt, S w);
  prepare w _ := (inl tt, w);
  wait w t := (inl t, w)
|}.
Example failed_up_stays_down :
  let '(r, w') := dispatch_fallible (logged failing_callbacks) [MkFrame 5 [Down 0; Up 0; Down 1]] 2 (0%nat, []) in
  r = Returned (inr (Failure "lost" true)) /\ w'.2 = [(Down 0, true); (Up 0, false)] /\ stays_down 0 w'.2 = true.
Proof. by vm_compute. Qed.

End Schedule.
