(* ===== verification/CenterTree.v ===== *)
(** * Center layout trees

    The split tree of a project's center region: [Tree] models the tree code of
    src/cantrip_server_rs/src/pane_layouts/center.rs (reorder, resize, replace),
    project_layout/center.rs (leaf_ids, remove_first) and
    workspace_layouts/tree.rs. [Layout] models the operations that read and
    write the tree and the panes it must match: exact, persist, append, remove,
    center_order and the order and resize mutations of pane_layouts/mod.rs.

    A [Node] is a value the layout schema accepts; [option Node] is such a
    value or [null]. Identities are strings; an identity is compared, never
    inspected. *)
From S2P Require Import Prelude.
From stdpp Require Import base numbers gmap strings sorting list.
From Stdlib Require Import Floats.SpecFloat.
Open Scope Z_scope.

Module Tree.

Inductive Direction := Horizontal | Vertical.

Inductive Node :=
| Pane (paneId : string)
| Split (id : string) (direction : Direction) (fraction : spec_float) (first second : Node).

#[global] Instance direction_eq_dec : EqDecision Direction.
Proof. solve_decision. Defined.
#[global] Instance spec_float_eq_dec : EqDecision spec_float.
Proof. solve_decision. Defined.
#[global] Instance node_eq_dec : EqDecision Node.
Proof. solve_decision. Defined.

(** The JSON number 0.5. *)
Definition half : spec_float := S754_finite false 4503599627370496 (-53).

(** Panes left to right, splits in preorder, and the size of a tree: the
    reference definitions. *)
Fixpoint leaves (n : Node) : list string :=
  match n with
  | Pane p => [p]
  | Split _ _ _ a b => leaves a ++ leaves b
  end.
Fixpoint splits (n : Node) : list string :=
  match n with
  | Pane _ => []
  | Split i _ _ a b => i :: splits a ++ splits b
  end.
Fixpoint nodes (n : Node) : nat :=
  match n with Pane _ => 1 | Split _ _ _ a b => S (nodes a + nodes b) end.
Fixpoint depth (n : Node) : nat :=
  match n with Pane _ => 1 | Split _ _ _ a b => S (Nat.max (depth a) (depth b)) end.

Inductive LayoutError :=
| TopologyBounds
| DuplicatePane (id : string)
| DuplicateSplit (id : string)
| IncompleteOrder
| MissingRoot
| MissingPane (id : string)
| NotExact
| SplitNotFound
| OrderMismatch.

(** ** project_layout::leaf_ids

    The explicit stack of pending nodes with their depths, popped from the
    front. The node budget stops the loop, so [256] rounds are always enough. *)
Record Walk := MkWalk {
  w_count : nat;
  w_splits : gset string;
  w_panes : gset string;
  w_result : list string
}.

Fixpoint walk (fuel : nat) (pending : list (Node * nat)) (s : Walk) :
  option (list string + LayoutError) :=
  match pending with
  | [] => Some (inl (w_result s))
  | (node, depth) :: rest =>
      match fuel with
      | O => None
      | S fuel =>
          let count := S (w_count s) in
          if negb ((depth <=? 32)%nat && (count <=? 255)%nat) then Some (inr TopologyBounds)
          else
            match node with
            | Pane id =>
                if decide (id ∈ w_panes s) then Some (inr (DuplicatePane id))
                else
                  walk fuel rest
                    (MkWalk count (w_splits s) ({[id]} ∪ w_panes s) (w_result s ++ [id]))
            | Split id _ _ first second =>
                if decide (id ∈ w_splits s) then Some (inr (DuplicateSplit id))
                else
                  walk fuel ((first, S depth) :: (second, S depth) :: rest)
                    (MkWalk count ({[id]} ∪ w_splits s) (w_panes s) (w_result s))
            end
      end
  end.

Definition leaf_ids (root : option Node) : option (list string + LayoutError) :=
  match root with
  | None => Some (inl [])
  | Some root => walk 256 [(root, 1%nat)] (MkWalk 0 ∅ ∅ [])
  end.

(** ** pane_layouts/center.rs *)

(** [reorder]: the order is a list of JSON values, [None] for one that is not a
    string; the iterator is threaded through. *)
Fixpoint reorder_visit (root : Node) (order : list (option string)) :
  (Node + LayoutError) * list (option string) :=
  match root with
  | Pane _ =>
      match order with
      | Some id :: rest =>
          (if decide (id = EmptyString) then inr IncompleteOrder else inl (Pane id), rest)
      | None :: rest => (inr IncompleteOrder, rest)
      | [] => (inr IncompleteOrder, [])
      end
  | Split i d f a b =>
      match reorder_visit a order with
      | (inr e, order) => (inr e, order)
      | (inl a', order) =>
          match reorder_visit b order with
          | (inr e, order) => (inr e, order)
          | (inl b', order) => (inl (Split i d f a' b'), order)
          end
      end
  end.

Definition reorder (root : Node) (order : list (option string)) : Node + LayoutError :=
  (reorder_visit root order).1.

Fixpoint resize (root : Node) (id : string) (fraction : spec_float) : Node * bool :=
  match root with
  | Pane p => (Pane p, false)
  | Split i d f a b =>
      if decide (i = id) then (Split i d fraction a b, true)
      else
        let '(a', changed) := resize a id fraction in
        if changed then (Split i d f a' b, true)
        else
          let '(b', changed) := resize b id fraction in
          if changed then (Split i d f a b', true) else (Split i d f a b, false)
  end.

(** [replace]: a null replacement gives the parent to the sibling. *)
Fixpoint replace (root : Node) (pane : string) (replacement : option Node) :
  option Node * bool :=
  match root with
  | Pane p => if decide (p = pane) then (replacement, true) else (Some (Pane p), false)
  | Split i d f a b =>
      let '(child, changed) := replace a pane replacement in
      if changed then
        match child with
        | None => (Some b, true)
        | Some a' => (Some (Split i d f a' b), true)
        end
      else
        let '(child, changed) := replace b pane replacement in
        if changed then
          match child with
          | None => (Some a, true)
          | Some b' => (Some (Split i d f a b'), true)
          end
        else (Some (Split i d f a b), false)
  end.

(** ** project_layout/center.rs *)

Fixpoint remove_first (node : Node) (pane : string) : option Node * bool :=
  match node with
  | Pane p => if decide (p = pane) then (None, true) else (Some (Pane p), false)
  | Split i d f a b =>
      let '(first, removed) := remove_first a pane in
      if removed then
        match first with
        | None => (Some b, true)
        | Some first => (Some (Split i d f first b), true)
        end
      else
        let '(second, removed) := remove_first b pane in
        if removed then
          match second with
          | None => (Some a, true)
          | Some second => (Some (Split i d f a second), true)
          end
        else (Some (Split i d f a b), false)
  end.

(** ** workspace_layouts/tree.rs *)

Fixpoint remove_leaf_node (node : Node) (pane : string) : option Node :=
  match node with
  | Pane p => if decide (p = pane) then None else Some (Pane p)
  | Split i d f a b =>
      match remove_leaf_node a pane, remove_leaf_node b pane with
      | None, second => second
      | first, None => first
      | Some first, Some second => Some (Split i d f first second)
      end
  end.

Definition remove_leaf (node : option Node) (pane : string) : option Node :=
  match node with None => None | Some n => remove_leaf_node n pane end.

Fixpoint replace_leaf (node : Node) (pane : string) (replacement : Node) : Node :=
  match node with
  | Pane p => if decide (p = pane) then replacement else Pane p
  | Split i d f a b => Split i d f (replace_leaf a pane replacement) (replace_leaf b pane replacement)
  end.

(** [tree::resize] on a mutable node: the node it leaves and whether it hit. *)
Fixpoint resize_node (node : Node) (id : string) (fraction : spec_float) : Node * bool :=
  match node with
  | Pane p => (Pane p, false)
  | Split i d f a b =>
      if decide (i = id) then (Split i d fraction a b, true)
      else
        let '(a, hit) := resize_node a id fraction in
        if hit then (Split i d f a b, true)
        else let '(b, hit) := resize_node b id fraction in (Split i d f a b, hit)
  end.

(** [tree::reorder]: indexing past the end panics. *)
Fixpoint reorder_node (node : Node) (ids : list string) (at_ : nat) : outcome (Node * nat) :=
  match node with
  | Pane _ => match ids !! at_ with Some id => Returned (Pane id, S at_) | None => Panicked end
  | Split i d f a b =>
      let! (a, at1) := reorder_node a ids at_ in
      let! (b, at2) := reorder_node b ids at1 in
      Returned (Split i d f a b, at2)
  end.

(** ** The walk is the reference *)

Definition pending_leaves (l : list (Node * nat)) : list string := l ≫= (fun p => leaves p.1).
Definition pending_splits (l : list (Node * nat)) : list string := l ≫= (fun p => splits p.1).
Definition pending_nodes (l : list (Node * nat)) : nat := sum_list (nodes ∘ fst <$> l).

Definition fits (pending : list (Node * nat)) (s : Walk) : Prop :=
  NoDup (pending_leaves pending) /\ NoDup (pending_splits pending) /\
  (forall x, x ∈ pending_leaves pending -> x ∉ w_panes s) /\
  (forall x, x ∈ pending_splits pending -> x ∉ w_splits s) /\
  (pending_nodes pending + w_count s <= 255 \/ pending = [])%nat /\
  Forall (fun p => p.2 + depth p.1 <= 33)%nat pending.

Lemma nodes_pos n : (1 <= nodes n)%nat.
Proof. destruct n; simpl; lia. Qed.
Lemma depth_pos n : (1 <= depth n)%nat.
Proof. destruct n; simpl; lia. Qed.

Lemma pending_split i d f a b k rest :
  pending_leaves ((Split i d f a b, k) :: rest) = pending_leaves ((a, S k) :: (b, S k) :: rest) /\
  pending_splits ((Split i d f a b, k) :: rest) =
    i :: pending_splits ((a, S k) :: (b, S k) :: rest) /\
  pending_nodes ((Split i d f a b, k) :: rest) =
    S (pending_nodes ((a, S k) :: (b, S k) :: rest)).
Proof.
  unfold pending_leaves, pending_splits, pending_nodes. simpl. rewrite <- !app_assoc.
  split_and!; [done|done|lia].
Qed.

Lemma pending_pane p k rest : pending_leaves ((Pane p, k) :: rest) = [p] ++ pending_leaves rest.
Proof. done. Qed.

Lemma fits_nil s : fits [] s.
Proof.
  split_and!; [apply NoDup_nil_2|apply NoDup_nil_2| | |by right|by apply Forall_nil].
  all: intros ? ?%elem_of_nil; done.
Qed.

Lemma fits_pane p k rest s :
  fits ((Pane p, k) :: rest) s <->
  (k <= 32)%nat /\ (S (w_count s) <= 255)%nat /\ (p ∉ w_panes s) /\
  fits rest (MkWalk (S (w_count s)) (w_splits s) ({[p]} ∪ w_panes s) (w_result s ++ [p])).
Proof.
  unfold fits. change (pending_leaves ((Pane p, k) :: rest)) with (p :: pending_leaves rest).
  change (pending_splits ((Pane p, k) :: rest)) with (pending_splits rest).
  change (pending_nodes ((Pane p, k) :: rest)) with (S (pending_nodes rest)).
  rewrite NoDup_cons, Forall_cons. simpl. split.
  - intros ([Hp Hl] & Hs & Hpl & Hsp & Hn & [Hk Hd]).
    split_and!; [lia|destruct Hn; [lia|done]|apply Hpl; left|done|done|set_solver|done| |done].
    destruct Hn; [left; lia|done].
  - intros (Hk & Hc & Hp & Hl & Hs & Hpl & Hsp & Hn & Hd).
    split_and!; [|done|done| |done| |lia|done].
    + intros Hin. by apply Hpl in Hin; set_solver.
    + intros x [->|Hin]%elem_of_cons; [done|]. apply Hpl in Hin. set_solver.
    + left. destruct Hn as [?| ->]; simpl; lia.
Qed.

Lemma fits_split i d f a b k rest s :
  fits ((Split i d f a b, k) :: rest) s <->
  (k <= 32)%nat /\ (S (w_count s) <= 255)%nat /\ (i ∉ w_splits s) /\
  fits ((a, S k) :: (b, S k) :: rest)
    (MkWalk (S (w_count s)) ({[i]} ∪ w_splits s) (w_panes s) (w_result s)).
Proof.
  destruct (pending_split i d f a b k rest) as (Hl & Hs & Hn).
  pose proof (depth_pos a). pose proof (depth_pos b).
  unfold fits. rewrite Hl, Hs, Hn, NoDup_cons, !Forall_cons. simpl. split.
  - intros (H1 & [H2 H3] & H4 & H5 & H6 & [H7 H8]).
    split_and!; [lia|destruct H6; [lia|done]|apply H5; left|done|done|done| | |lia|lia|done].
    + intros x Hx. assert (x ∉ w_splits s) by (apply H5; by right). set_solver.
    + destruct H6; [left; lia|done].
  - intros (H1 & H2 & H3 & H4 & H5 & H6 & H7 & H8 & H9 & H10 & H11).
    split_and!; [done| |done|done| | |lia|done].
    + intros Hin. apply H7 in Hin. set_solver.
    + intros x [->|Hx]%elem_of_cons; [done|]. apply H7 in Hx. set_solver.
    + left. destruct H8 as [?|?]; [lia|done].
Qed.

Lemma walk_sound fuel : forall pending s l,
  walk fuel pending s = Some (inl l) ->
  l = w_result s ++ pending_leaves pending /\ fits pending s.
Proof.
  induction fuel as [|fuel IH]; intros [|[[p|i d f a b] k] rest] s l; cbn [walk]; intros Hw;
    simplify_eq.
  1, 2: rewrite app_nil_r; split; [done|apply fits_nil].
  - destruct (k <=? 32)%nat eqn:Hk, (S (w_count s) <=? 255)%nat eqn:Hc; cbn in Hw; try done.
    apply Nat.leb_le in Hk, Hc. case_decide as Hp; [done|].
    apply IH in Hw as [-> Hf]. split; [by rewrite pending_pane, app_assoc|].
    apply fits_pane. split_and!; done || lia.
  - destruct (k <=? 32)%nat eqn:Hk, (S (w_count s) <=? 255)%nat eqn:Hc; cbn in Hw; try done.
    apply Nat.leb_le in Hk, Hc. case_decide as Hp; [done|]. apply IH in Hw as [-> Hf].
    split; [by rewrite (proj1 (pending_split i d f a b k rest))|]. apply fits_split. split_and!; done || lia.
Qed.

Lemma walk_complete fuel : forall pending s,
  (256 <= fuel + w_count s)%nat -> fits pending s ->
  walk fuel pending s = Some (inl (w_result s ++ pending_leaves pending)).
Proof.
  induction fuel as [|fuel IH]; intros [|[[p|i d f a b] k] rest] s Hf Hfit; cbn [walk];
    try (by rewrite app_nil_r).
  - apply fits_pane in Hfit. lia.
  - apply fits_split in Hfit. lia.
  - apply fits_pane in Hfit as (Hk & Hc & Hp & Hfit).
    rewrite (proj2 (Nat.leb_le k 32)), (proj2 (Nat.leb_le (S (w_count s)) 255)) by lia.
    cbn [andb negb].
    rewrite decide_False by done. rewrite IH by (simpl; done || lia). by rewrite pending_pane, app_assoc.
  - apply fits_split in Hfit as (Hk & Hc & Hp & Hfit).
    rewrite (proj2 (Nat.leb_le k 32)), (proj2 (Nat.leb_le (S (w_count s)) 255)) by lia.
    cbn [andb negb].
    rewrite decide_False by done. rewrite IH by (simpl; done || lia).
    by rewrite (proj1 (pending_split i d f a b k rest)).
Qed.

Lemma walk_total fuel : forall pending s,
  (256 <= fuel + w_count s)%nat -> (w_count s <= 255)%nat -> is_Some (walk fuel pending s).
Proof.
  induction fuel as [|fuel IH]; intros [|[[p|i d f a b] k] rest] s Hf Hs; simpl; eauto; try lia.
  - destruct (k <=? 32)%nat, (w_count s <=? 254)%nat eqn:Hc; simpl; eauto.
    apply Nat.leb_le in Hc. case_decide; eauto. apply IH; simpl; lia.
  - destruct (k <=? 32)%nat, (w_count s <=? 254)%nat eqn:Hc; simpl; eauto.
    apply Nat.leb_le in Hc. case_decide; eauto. apply IH; simpl; lia.
Qed.

(** What [leaf_ids] accepts. *)
Definition well_formed (n : Node) : Prop :=
  NoDup (leaves n) /\ NoDup (splits n) /\ (depth n <= 32)%nat /\ (nodes n <= 255)%nat.

Lemma fits_root n : fits [(n, 1%nat)] (MkWalk 0 ∅ ∅ []) <-> well_formed n.
Proof.
  unfold fits, well_formed, pending_leaves, pending_splits, pending_nodes. simpl.
  rewrite !app_nil_r, Forall_singleton. simpl. split.
  - intros (? & ? & _ & _ & [?|?] & ?); [|done]. split_and!; done || lia.
  - intros (? & ? & ? & ?). split_and!; set_solver || lia || done || (left; lia).
Qed.

#[local] Opaque walk.

Lemma leaf_ids_spec n l :
  leaf_ids (Some n) = Some (inl l) <-> l = leaves n /\ well_formed n.
Proof.
  unfold leaf_ids. rewrite <- fits_root. split.
  - intros Hw. destruct (walk_sound 256 _ _ _ Hw) as [-> Hf].
    unfold pending_leaves. simpl. by rewrite app_nil_r.
  - intros [-> Hf]. rewrite (walk_complete 256 _ _ ltac:(done || simpl; lia) Hf).
    unfold pending_leaves. simpl. by rewrite app_nil_r.
Qed.

Lemma leaf_ids_total root : is_Some (leaf_ids root).
Proof. destruct root as [n|]; [|by eexists]. apply (walk_total 256); simpl; lia. Qed.

#[local] Transparent walk.

(** ** Removal and replacement *)

Definition oleaves (n : option Node) : list string := match n with Some n => leaves n | None => [] end.
Definition osplits (n : option Node) : list string := match n with Some n => splits n | None => [] end.
Definition odepth (n : option Node) : nat := match n with Some n => depth n | None => 0 end.
Definition onodes (n : option Node) : nat := match n with Some n => nodes n | None => 0 end.

Lemma replace_absent root pane r :
  pane ∉ leaves root -> replace root pane r = (Some root, false).
Proof.
  induction root as [p|i d f a IHa b IHb]; simpl; intros Hp.
  - rewrite decide_False; [done|]. set_solver.
  - rewrite IHa, IHb by set_solver. done.
Qed.

(** The first occurrence of the pane is replaced, in its place. *)
Lemma replace_present root pane r :
  pane ∈ leaves root ->
  (replace root pane r).2 = true /\
  exists l1 l2, leaves root = l1 ++ pane :: l2 /\ (pane ∉ l1) /\
    oleaves (replace root pane r).1 = l1 ++ oleaves r ++ l2.
Proof.
  induction root as [p|i d f a IHa b IHb]; simpl; intros Hp.
  - apply list_elem_of_singleton in Hp as ->. rewrite decide_True by done. split; [done|].
    exists [], []. simpl. split_and!; [done|apply not_elem_of_nil|by rewrite app_nil_r].
  - destruct (decide (pane ∈ leaves a)) as [Ha|Ha].
    + destruct (IHa Ha) as [Hc (l1 & l2 & Hl & Hn & Hr)].
      destruct (replace a pane r) as [ch c]; simpl in *; subst c.
      split; [by destruct ch|]. exists l1, (l2 ++ leaves b).
      rewrite Hl, <- app_assoc. split_and!; [done|done|].
      destruct ch; simpl in *; rewrite ?Hr, ?app_assoc; [done|].
      by rewrite <- (app_assoc l1), <- Hr.
    + rewrite replace_absent by done.
      destruct (IHb) as [Hc (l1 & l2 & Hl & Hn & Hr)]; [set_solver|].
      destruct (replace b pane r) as [ch c]; simpl in *; subst c.
      split; [by destruct ch|]. exists (leaves a ++ l1), l2.
      rewrite Hl, <- app_assoc. split_and!; [done|set_solver|].
      destruct ch; simpl in *; rewrite <- ?app_assoc, <- Hr; [done|by rewrite app_nil_r].
Qed.

Lemma remove_shrinks root pane :
  osplits (replace root pane None).1 `sublist_of` splits root /\
  (odepth (replace root pane None).1 <= depth root)%nat /\
  (onodes (replace root pane None).1 <= nodes root)%nat.
Proof.
  induction root as [p|i d f a IHa b IHb]; simpl.
  - case_decide; simpl; split_and!; lia || apply sublist_nil_l || done.
  - destruct IHa as (Sa & Da & Na), IHb as (Sb & Db & Nb).
    destruct (replace a pane None) as [[a'|] []]; simpl in *.
    + split_and!; [|lia|lia]. by apply sublist_skip, sublist_app.
    + destruct (replace b pane None) as [[b'|] []]; simpl in *.
      * split_and!; [|lia|lia]. by apply sublist_skip, sublist_app.
      * split_and!; [done|lia|lia].
      * split_and!; [|lia|lia]. by apply sublist_cons, sublist_inserts_r.
      * split_and!; [done|lia|lia].
    + split_and!; [|lia|lia]. by apply sublist_cons, sublist_inserts_l.
    + destruct (replace b pane None) as [[b'|] []]; simpl in *.
      * split_and!; [|lia|lia]. by apply sublist_skip, sublist_app.
      * split_and!; [done|lia|lia].
      * split_and!; [|lia|lia]. by apply sublist_cons, sublist_inserts_r.
      * split_and!; [done|lia|lia].
Qed.

Lemma remove_first_replace root pane : remove_first root pane = replace root pane None.
Proof. induction root as [p|i d f a IHa b IHb]; simpl; [done|]. by rewrite IHa, IHb. Qed.

Lemma remove_leaf_absent root pane : pane ∉ leaves root -> remove_leaf_node root pane = Some root.
Proof.
  induction root as [p|i d f a IHa b IHb]; simpl; intros Hp.
  - rewrite decide_False; [done|]. set_solver.
  - rewrite IHa, IHb by set_solver. done.
Qed.

Lemma remove_leaf_replace root pane :
  NoDup (leaves root) -> remove_leaf_node root pane = (replace root pane None).1.
Proof.
  induction root as [p|i d f a IHa b IHb]; simpl; intros Hn; [by case_decide|].
  apply NoDup_app in Hn as (Ha & Hd & Hb). destruct (decide (pane ∈ leaves a)) as [Hp|Hp].
  - rewrite IHa by done. rewrite (remove_leaf_absent b) by auto.
    destruct (replace_present a pane None Hp) as [Hc _].
    destruct (replace a pane None) as [[a'|] c]; simpl in *; by subst.
  - rewrite remove_leaf_absent, replace_absent, IHb by done.
    destruct (decide (pane ∈ leaves b)) as [Hpb|Hpb].
    + destruct (replace_present b pane None Hpb) as [Hc _].
      destruct (replace b pane None) as [[b'|] c]; simpl in *; by subst.
    + by rewrite replace_absent.
Qed.

Lemma replace_leaf_absent root pane r : pane ∉ leaves root -> replace_leaf root pane r = root.
Proof.
  induction root as [p|i d f a IHa b IHb]; simpl; intros Hp.
  - rewrite decide_False; [done|]. set_solver.
  - rewrite IHa, IHb by set_solver. done.
Qed.

Lemma replace_some root pane r : is_Some (replace root pane (Some r)).1.
Proof.
  induction root as [p|i d f a IHa b IHb]; simpl; [case_decide; by eexists|].
  destruct (replace a pane (Some r)) as [[a'|] []], (replace b pane (Some r)) as [[b'|] []];
    simpl in *; eauto; by destruct IHa, IHb.
Qed.

Lemma replace_leaf_replace root pane r :
  NoDup (leaves root) -> (replace root pane (Some r)).1 = Some (replace_leaf root pane r).
Proof.
  induction root as [p|i d f a IHa b IHb]; simpl; intros Hn; [by case_decide|].
  apply NoDup_app in Hn as (Ha & Hd & Hb). destruct (decide (pane ∈ leaves a)) as [Hp|Hp].
  - rewrite (replace_leaf_absent b) by auto.
    destruct (replace_present a pane (Some r) Hp) as [Hc _]. specialize (IHa Ha).
    destruct (replace a pane (Some r)) as [[a'|] c]; simpl in *; simplify_eq; done.
  - rewrite replace_absent, replace_leaf_absent by done. specialize (IHb Hb).
    destruct (decide (pane ∈ leaves b)) as [Hpb|Hpb].
    + destruct (replace_present b pane (Some r) Hpb) as [Hc _].
      destruct (replace b pane (Some r)) as [[b'|] c]; simpl in *; simplify_eq; done.
    + rewrite replace_absent, replace_leaf_absent by done. done.
Qed.

Lemma resize_miss n id f : (resize n id f).2 = false -> (resize n id f).1 = n.
Proof.
  induction n as [p|i d g a IHa b IHb]; simpl; [done|]. case_decide; [done|].
  destruct (resize a id f) as [a' []]; [done|]. by destruct (resize b id f) as [b' []].
Qed.

Lemma resize_node_eq root id f : resize_node root id f = resize root id f.
Proof.
  induction root as [p|i d g a IHa b IHb]; simpl; [done|]. rewrite IHa, IHb.
  case_decide; [done|]. pose proof (resize_miss a id f) as Ma. pose proof (resize_miss b id f) as Mb.
  destruct (resize a id f) as [a' []]; [done|]. simpl in Ma. rewrite Ma by done.
  destruct (resize b id f) as [b' []]; simpl in *; [done|]. by rewrite Mb.
Qed.

(** ** Shapes: everything but the pane identities, or but the fractions *)

(** The tree with its panes replaced in order; [None] when there are too few. *)
Fixpoint set_leaves (n : Node) (ids : list string) : option (Node * list string) :=
  match n with
  | Pane _ => match ids with id :: rest => Some (Pane id, rest) | [] => None end
  | Split i d f a b =>
      '(a', ids1) ← set_leaves a ids; '(b', ids2) ← set_leaves b ids1;
      Some (Split i d f a' b', ids2)
  end.

Definition same_shape (m n : Node) : Prop :=
  splits m = splits n /\ depth m = depth n /\ nodes m = nodes n /\
  length (leaves m) = length (leaves n).

Lemma set_leaves_spec n : forall ids,
  match set_leaves n ids with
  | Some (m, rest) => ids = leaves m ++ rest /\ same_shape m n
  | None => (length ids < length (leaves n))%nat
  end.
Proof.
  induction n as [p|i d f a IHa b IHb]; intros ids; simpl.
  - destruct ids; simpl; [lia|done].
  - specialize (IHa ids). destruct (set_leaves a ids) as [[a' ids1]|]; simpl.
    + destruct IHa as (-> & Sa & Da & Na & La). specialize (IHb ids1).
      destruct (set_leaves b ids1) as [[b' ids2]|]; simpl.
      * destruct IHb as (-> & Sb & Db & Nb & Lb). split; [by rewrite app_assoc|].
        unfold same_shape. simpl. rewrite Sa, Sb, Da, Db, Na, Nb, !length_app. split_and!; done || lia.
      * rewrite !length_app. lia.
    + rewrite length_app. lia.
Qed.

Lemma set_leaves_self n rest : set_leaves n (leaves n ++ rest) = Some (n, rest).
Proof.
  revert rest. induction n as [p|i d f a IHa b IHb]; intros rest; simpl; [done|].
  rewrite <- app_assoc, IHa. simpl. by rewrite IHb.
Qed.

Lemma reorder_visit_spec n : forall ids,
  Forall (fun id => id <> EmptyString) ids ->
  match set_leaves n ids with
  | Some (m, rest) => reorder_visit n (Some <$> ids) = (inl m, Some <$> rest)
  | None => (reorder_visit n (Some <$> ids)).1 = inr IncompleteOrder
  end.
Proof.
  induction n as [p|i d f a IHa b IHb]; intros ids Hids; simpl.
  - destruct Hids; simpl; [done|]. by rewrite decide_False.
  - pose proof (set_leaves_spec a ids) as Ha. specialize (IHa ids Hids).
    destruct (set_leaves a ids) as [[a' ids1]|]; simpl.
    + rewrite IHa. destruct Ha as [-> _]. apply Forall_app in Hids as [_ Hids].
      specialize (IHb ids1 Hids). destruct (set_leaves b ids1) as [[b' ids2]|]; simpl.
      * by rewrite IHb.
      * destruct (reorder_visit b (Some <$> ids1)) as [[?|?] ?]; simpl in *; congruence.
    + destruct (reorder_visit a (Some <$> ids)) as [[?|?] ?]; simpl in *; congruence.
Qed.

Lemma reorder_node_spec n ids : forall at_, (at_ <= length ids)%nat ->
  reorder_node n ids at_ =
  match set_leaves n (drop at_ ids) with
  | Some (m, _) => Returned (m, (at_ + length (leaves n))%nat)
  | None => Panicked
  end.
Proof.
  induction n as [p|i d f a IHa b IHb]; intros k Hk; simpl.
  - destruct (ids !! k) as [id|] eqn:Hi.
    + rewrite (drop_S _ _ _ Hi). by rewrite Nat.add_1_r.
    + apply lookup_ge_None in Hi. by rewrite drop_ge.
  - rewrite IHa by done. pose proof (set_leaves_spec a (drop k ids)) as Ha.
    destruct (set_leaves a (drop k ids)) as [[a' rest]|]; simpl; [|done].
    destruct Ha as (Hd & _ & _ & _ & La).
    assert (Hlen : (k + length (leaves a) <= length ids)%nat).
    { apply (f_equal length) in Hd. rewrite length_drop, length_app in Hd. lia. }
    rewrite IHb by done.
    assert (Hrest : drop (k + length (leaves a)) ids = rest).
    { rewrite <- drop_drop, Hd, <- La. apply drop_app_length. }
    rewrite Hrest. destruct (set_leaves b rest) as [[b' rest2]|]; simpl; [|done].
    by rewrite length_app, Nat.add_assoc.
Qed.

(** Every fraction but the one of split [id] is kept. *)
Fixpoint fractions (n : Node) : list (string * spec_float) :=
  match n with
  | Pane _ => []
  | Split i _ f a b => (i, f) :: fractions a ++ fractions b
  end.

Lemma fractions_splits n : (fractions n).*1 = splits n.
Proof.
  induction n as [p|i d f a IHa b IHb]; simpl; [done|]. by rewrite fmap_app, IHa, IHb.
Qed.

Lemma resize_spec n id f :
  leaves (resize n id f).1 = leaves n /\ same_shape (resize n id f).1 n /\
  ((resize n id f).2 = true <-> id ∈ splits n) /\
  (NoDup (splits n) -> fractions (resize n id f).1 =
     ((fun p => if decide (p.1 = id) then (p.1, f) else p) <$> fractions n)).
Proof.
  assert (Hkeep : forall l : list (string * spec_float), id ∉ l.*1 ->
    ((fun p => if decide (p.1 = id) then (p.1, f) else p) <$> l) = l).
  { intros l Hl. rewrite <- (list_fmap_id l) at 2. apply list_fmap_ext.
    intros k [x g] Hin%list_elem_of_lookup_2. simpl. rewrite decide_False; [done|].
    intros ->. apply Hl, list_elem_of_fmap. by exists (id, g). }
  unfold same_shape. induction n as [p|i d g a IHa b IHb]; simpl.
  - split_and!; try done. set_solver.
  - destruct IHa as (La & (Sa & Da & Na & Ka) & Ra & Fa), IHb as (Lb & (Sb & Db & Nb & Kb) & Rb & Fb).
    pose proof (resize_miss a id f) as Ma. pose proof (resize_miss b id f) as Mb.
    case_decide as Hi; [subst i|].
    + simpl. split_and!; try done. { set_solver. }
      rewrite NoDup_cons, not_elem_of_app. intros [[Ha Hb] _].
      by rewrite fmap_app, !Hkeep by (by rewrite fractions_splits).
    + destruct (resize a id f) as [a' []]; simpl in *.
      * rewrite La, Sa, Da, Na. split_and!; try done; [set_solver|].
        rewrite NoDup_cons, NoDup_app. intros (_ & Ha & Hd & Hb). rewrite fmap_app, Fa by done.
        rewrite (Hkeep (fractions b)); [done|]. rewrite fractions_splits. set_solver.
      * rewrite Ma in * by done. destruct (resize b id f) as [b' []]; simpl in *.
        -- rewrite Lb, Sb, Db, Nb. split_and!; try done; [set_solver|].
           rewrite NoDup_cons, NoDup_app. intros (_ & Ha & Hd & Hb). rewrite fmap_app, Fb by done.
           rewrite (Hkeep (fractions a)); [done|]. rewrite fractions_splits. set_solver.
        -- rewrite Mb in * by done. split_and!; try done; [set_solver|]. intros _.
           rewrite fmap_app, !Hkeep; [done|rewrite fractions_splits; set_solver..].
Qed.

End Tree.

Module Layout.
Import Tree.

Inductive Region := Center | Right | Bottom | Left.
#[global] Instance region_eq_dec : EqDecision Region.
Proof. solve_decision. Defined.

(** The rows of one project: its center root and its tab groups. *)
Record Group := MkGroup { region : Region; position : Z }.
Record Db := MkDb { center_root : option Node; groups : gmap string Group }.

(** The ids the query [center_panes] returns for a region. *)
Definition region_ids (db : Db) (r : Region) : gset string :=
  dom (filter (fun kv => region kv.2 = r) (groups db)).

Definition set_position (i : Z) (g : Group) : Group := MkGroup (region g) i.

(** [group_positions]: one UPDATE per id, in order. *)
Fixpoint group_positions (gs : gmap string Group) (i : Z) (ids : list string) :
  gmap string Group :=
  match ids with
  | [] => gs
  | id :: rest => group_positions (alter (set_position i) id gs) (i + 1) rest
  end.

(** [center::exact]. The walk always ends ([leaf_ids_total]), so the last case
    is never taken. *)
Definition exact (db : Db) (root : option Node) : list string + LayoutError :=
  match leaf_ids root with
  | Some (inl ids) =>
      let panes := region_ids db Center in
      if negb (bool_decide (length ids = size panes)) || existsb (fun id => bool_decide (id ∉ panes)) ids
      then inr NotExact
      else inl ids
  | Some (inr e) => inr e
  | None => inr TopologyBounds
  end.

Definition persist (db : Db) (root : option Node) : Db + LayoutError :=
  match exact db root with
  | inr e => inr e
  | inl ids => inl (MkDb root (group_positions (groups db) 0 ids))
  end.

(** [pane_layouts::center::remove] and [append]; [uuid] is the fresh split id. *)
Definition remove (db : Db) (pane : string) : Db + LayoutError :=
  match center_root db with
  | None => inr MissingRoot
  | Some root =>
      let '(next, removed) := replace root pane None in
      if negb removed then inr (MissingPane pane) else persist db next
  end.

Definition append (db : Db) (pane uuid : string) : Db + LayoutError :=
  let leaf := Pane pane in
  let next := match center_root db with
              | None => leaf
              | Some current => Split uuid Horizontal half current leaf
              end in
  persist db (Some next).

(** [project_layout::center::remove]. *)
Definition project_remove (db : Db) (pane : string) : Db + LayoutError :=
  match center_root db with
  | None => inr MissingRoot
  | Some root =>
      let '(next, removed) := remove_first root pane in
      if negb removed then inr (MissingPane pane) else persist db next
  end.

Definition order_matches (expected : gset string) (input : list (option string)) : bool :=
  bool_decide (size expected = length input) &&
  forallb (fun id => match id with Some s => bool_decide (s ∈ expected) | None => false end) input.

Definition center_order (db : Db) (order : list (option string)) : Db + LayoutError :=
  match center_root db with
  | None => inr MissingRoot
  | Some root =>
      match exact db (Some root) with
      | inr e => inr e
      | inl _ =>
          match reorder root order with
          | inr e => inr e
          | inl next => persist db (Some next)
          end
      end
  end.

(** A JSON value bound as a text parameter: only strings name a group. *)
Definition named (order : list (option string)) : list string := omap (fun id => id) order.

(** The ["pane-order"] mutation. *)
Definition pane_order (db : Db) (r : Region) (order : list (option string)) : Db + LayoutError :=
  if negb (order_matches (region_ids db r) order) then inr OrderMismatch
  else if decide (r = Center) then center_order db order
  else inl (MkDb (center_root db) (group_positions (groups db) 0 (named order))).

(** The ["legacy-order"] mutation: one order over all regions. *)
Definition in_region (db : Db) (r : Region) (id : option string) : Prop :=
  match id with
  | Some s => match groups db !! s with Some g => region g = r | None => False end
  | None => False
  end.
#[global] Instance in_region_dec db r id : Decision (in_region db r id).
Proof. destruct id as [s|]; simpl; [destruct (groups db !! s)|]; apply _. Defined.

Fixpoint legacy_regions (db0 db : Db) (rs : list Region) (order : list (option string)) :
  Db + LayoutError :=
  match rs with
  | [] => inl db
  | r :: rest =>
      let ids := filter (in_region db0 r) order in
      if decide (r = Center /\ ids <> []) then
        match center_order db ids with
        | inr e => inr e
        | inl db => legacy_regions db0 db rest order
        end
      else
        legacy_regions db0
          (MkDb (center_root db) (group_positions (groups db) 0 (named ids))) rest order
  end.

Definition legacy_order (db : Db) (order : list (option string)) : Db + LayoutError :=
  if negb (order_matches (dom (groups db)) order) then inr OrderMismatch
  else legacy_regions db db [Center; Right; Bottom; Left] order.

(** The ["resize"] mutation. *)
Definition resize_split (db : Db) (subject : string) (fraction : spec_float) : Db + LayoutError :=
  match center_root db with
  | None => inr MissingRoot
  | Some root =>
      match exact db (Some root) with
      | inr e => inr e
      | inl _ =>
          let '(next, resized) := resize root subject fraction in
          if negb resized then inr SplitNotFound else persist db (Some next)
      end
  end.

(** ** The layout invariant *)

Definition oleaf_wf (root : option Node) : Prop :=
  match root with Some n => well_formed n | None => True end.

(** The leaves are the center panes, each at its position. *)
Definition synced (db : Db) : Prop :=
  oleaf_wf (center_root db) /\
  (forall id, id ∈ oleaves (center_root db) <-> id ∈ region_ids db Center) /\
  (forall i id, oleaves (center_root db) !! i = Some id ->
     exists g, groups db !! id = Some g /\ position g = Z.of_nat i).

Lemma group_positions_lookup ids : forall gs i id,
  NoDup ids ->
  group_positions gs i ids !! id =
  match list_find (fun x => x = id) ids with
  | Some (k, _) => set_position (i + Z.of_nat k) <$> gs !! id
  | None => gs !! id
  end.
Proof.
  induction ids as [|x ids IH]; intros gs i id Hn; [done|]. cbn [group_positions].
  apply NoDup_cons in Hn as [Hx Hn]. rewrite IH by done. simpl.
  destruct (decide (x = id)) as [->|Hne].
  - assert (Hf : list_find (fun x => x = id) ids = None).
    { apply list_find_None, Forall_forall. intros y Hy ->. done. }
    rewrite Hf, lookup_alter_eq. by rewrite Z.add_0_r.
  - rewrite lookup_alter_ne by done. destruct (list_find _ ids) as [[k y]|]; simpl; [|done].
    f_equal. f_equal. lia.
Qed.

Lemma group_positions_region gs i ids id :
  NoDup ids -> region <$> group_positions gs i ids !! id = region <$> gs !! id.
Proof.
  intros Hn. rewrite group_positions_lookup by done.
  destruct (list_find _ ids) as [[k y]|]; [|done]. by destruct (gs !! id).
Qed.

Lemma elem_of_region db r id :
  id ∈ region_ids db r <-> region <$> groups db !! id = Some r.
Proof.
  unfold region_ids. rewrite elem_of_dom. split.
  - intros [g Hg]. apply map_lookup_filter_Some in Hg as [Hg Hr]. rewrite Hg. simpl in *. by subst.
  - intros Hr. destruct (groups db !! id) as [g|] eqn:Hg; simplify_eq/=.
    exists g. by apply map_lookup_filter_Some.
Qed.

Lemma region_ids_positions db root i ids r :
  NoDup ids -> region_ids (MkDb root (group_positions (groups db) i ids)) r = region_ids db r.
Proof.
  intros Hn. apply set_eq. intros id. rewrite !elem_of_region. simpl.
  by rewrite group_positions_region.
Qed.

Lemma leaf_ids_wf root l :
  leaf_ids root = Some (inl l) <-> l = oleaves root /\ oleaf_wf root.
Proof. destruct root as [n|]; [apply leaf_ids_spec|]. simpl. naive_solver. Qed.

Lemma oleaves_NoDup root : oleaf_wf root -> NoDup (oleaves root).
Proof. destruct root as [n|]; [by intros [? _]|intros _; apply NoDup_nil_2]. Qed.

Lemma exact_spec db root l :
  exact db root = inl l <->
  l = oleaves root /\ oleaf_wf root /\
  (forall id, id ∈ oleaves root <-> id ∈ region_ids db Center).
Proof.
  unfold exact. destruct (leaf_ids_total root) as [[ids|e] Hl]; rewrite Hl.
  - apply leaf_ids_wf in Hl as [-> Hw]. pose proof (oleaves_NoDup _ Hw) as Hn.
    pose proof (size_list_to_set (C := gset string) _ Hn) as Hsz.
    case_bool_decide as Hlen; simpl.
    + destruct (existsb _ (oleaves root)) eqn:He.
      * split; [done|]. intros (_ & _ & Hin). apply existsb_exists in He as (x & Hx & Hb).
        apply bool_decide_eq_true in Hb. apply list_elem_of_In in Hx. by apply Hin in Hx.
      * split; [|naive_solver]. intros [= <-]. split_and!; [done|done|].
        assert (Hsub : list_to_set (oleaves root) ⊆ region_ids db Center).
        { intros x Hx%elem_of_list_to_set. destruct (decide (x ∈ region_ids db Center)); [done|].
          assert (existsb (fun id => bool_decide (id ∉ region_ids db Center)) (oleaves root) = true);
            [|congruence].
          apply existsb_exists. exists x. by rewrite <- list_elem_of_In, bool_decide_eq_true. }
        intros id. rewrite <- (elem_of_list_to_set (C := gset string)).
        rewrite (set_subseteq_size_eq (list_to_set (oleaves root)) (region_ids db Center)); [done|done|lia].
    + split; [done|]. intros (_ & _ & Hin). destruct Hlen.
      rewrite <- Hsz. f_equal. apply set_eq. intros x. by rewrite elem_of_list_to_set, Hin.
  - split; [done|]. intros (-> & Hw & _).
    assert (leaf_ids root = Some (inl (oleaves root))) by (by apply leaf_ids_wf). congruence.
Qed.

Lemma persist_spec db root db' :
  persist db root = inl db' <->
  oleaf_wf root /\ (forall id, id ∈ oleaves root <-> id ∈ region_ids db Center) /\
  db' = MkDb root (group_positions (groups db) 0 (oleaves root)).
Proof.
  unfold persist. destruct (exact db root) as [l|e] eqn:He.
  - apply exact_spec in He as (-> & Hw & Hin). naive_solver.
  - split; [done|]. intros (Hw & Hin & _).
    assert (exact db root = inl (oleaves root)) by (by apply exact_spec). congruence.
Qed.

Lemma persist_synced db root db' :
  persist db root = inl db' ->
  synced db' /\ center_root db' = root /\ region_ids db' Center = region_ids db Center.
Proof.
  intros (Hw & Hin & ->)%persist_spec. pose proof (oleaves_NoDup _ Hw) as Hn.
  rewrite region_ids_positions by done. split_and!; [|done|done].
  split_and!; simpl; [done|by rewrite region_ids_positions|].
  intros i id Hi. rewrite group_positions_lookup by done.
  assert (Hf : list_find (fun x => x = id) (oleaves root) = Some (i, id)).
  { apply list_find_Some. split_and!; [done|done|]. intros j y Hj Hlt ->.
    pose proof (NoDup_lookup _ _ _ _ Hn Hj Hi). lia. }
  rewrite Hf. apply list_elem_of_lookup_2, Hin, elem_of_region in Hi.
  destruct (groups db !! id) as [g|]; [|done]. eexists. split; [done|]. simpl. lia.
Qed.

(** Deleting the row of a tab group. *)
Definition delete_group (db : Db) (pane : string) : Db :=
  MkDb (center_root db) (delete pane (groups db)).
(** Inserting the row of a new center tab group. *)
Definition insert_group (db : Db) (pane : string) (pos : Z) : Db :=
  MkDb (center_root db) (<[pane := MkGroup Center pos]> (groups db)).

Lemma region_delete db pane r id :
  id ∈ region_ids (delete_group db pane) r <-> id <> pane /\ id ∈ region_ids db r.
Proof.
  rewrite !elem_of_region. simpl. destruct (decide (id = pane)) as [->|].
  - rewrite lookup_delete_eq. naive_solver.
  - rewrite lookup_delete_ne by done. naive_solver.
Qed.

Lemma region_insert db pane pos id :
  id ∈ region_ids (insert_group db pane pos) Center <-> id = pane \/ id ∈ region_ids db Center.
Proof.
  rewrite !elem_of_region. simpl. destruct (decide (id = pane)) as [->|].
  - rewrite lookup_insert_eq. naive_solver.
  - rewrite lookup_insert_ne by done. naive_solver.
Qed.

Lemma filter_split (l1 l2 : list string) pane :
  NoDup (l1 ++ pane :: l2) -> filter (fun x => x <> pane) (l1 ++ pane :: l2) = l1 ++ l2.
Proof.
  intros Hn. rewrite filter_app, filter_cons_False by tauto.
  apply NoDup_app in Hn as (_ & Hd & [Hp _]%NoDup_cons).
  assert (Hkeep : forall l : list string, pane ∉ l -> filter (fun x => x <> pane) l = l).
  { induction l as [|x l IH]; intros Hl; [done|]. rewrite filter_cons_True by set_solver.
    f_equal. apply IH. set_solver. }
  rewrite !Hkeep; [done|done|]. intros Hin. eapply Hd; [done|left].
Qed.

Lemma remove_wf root pane :
  well_formed root -> pane ∈ leaves root ->
  oleaf_wf (replace root pane None).1 /\ (replace root pane None).2 = true /\
  oleaves (replace root pane None).1 = filter (fun x => x <> pane) (leaves root).
Proof.
  intros (Hl & Hs & Hd & Hn) Hp. destruct (replace_present root pane None Hp)
    as [Hc (l1 & l2 & He & Hnot & Hr)].
  destruct (remove_shrinks root pane) as (Hss & Hdd & Hnn).
  assert (Hf : oleaves (replace root pane None).1 = filter (fun x => x <> pane) (leaves root)).
  { rewrite Hr, He. simpl. rewrite He in Hl. by rewrite filter_split. }
  split_and!; [|done|done].
  destruct (replace root pane None).1 as [n|]; [|done]. simpl in *. split_and!.
  - rewrite Hf. by apply NoDup_filter.
  - by eapply sublist_NoDup.
  - lia.
  - lia.
Qed.

Lemma append_wf root pane uuid :
  well_formed root -> pane ∉ leaves root -> uuid ∉ splits root ->
  (depth root < 32)%nat -> (nodes root <= 253)%nat ->
  well_formed (Split uuid Horizontal half root (Pane pane)).
Proof.
  intros (Hl & Hs & _ & _) Hp Hu Hd Hn. unfold well_formed. simpl.
  rewrite app_nil_r, NoDup_cons. split_and!; [|done|done|lia|lia].
  apply NoDup_app. split_and!; [done| |apply NoDup_singleton].
  intros x Hx ->%list_elem_of_singleton. done.
Qed.

Lemma order_matches_spec expected ids :
  NoDup ids -> order_matches expected (Some <$> ids) = true ->
  forall id, id ∈ ids <-> id ∈ expected.
Proof.
  unfold order_matches. rewrite length_fmap, andb_true_iff, bool_decide_eq_true.
  intros Hn [Hsz Hall].
  assert (Hsub : list_to_set ids ⊆ expected).
  { intros x Hx%elem_of_list_to_set. rewrite forallb_forall in Hall.
    specialize (Hall (Some x)). rewrite <- list_elem_of_In in Hall.
    specialize (Hall (list_elem_of_fmap_2 _ _ _ Hx)). by apply bool_decide_eq_true in Hall. }
  intros id. rewrite <- (elem_of_list_to_set (C := gset string)).
  pose proof (size_list_to_set (C := gset string) _ Hn) as Hl.
  rewrite (set_subseteq_size_eq (list_to_set ids) expected); [done|done|lia].
Qed.

(** the iterative walk is the recursive traversal. [leaf_ids] always returns,
    and returns the panes left to right exactly for trees whose panes and
    splits are distinct, at most 32 deep and of at most 255 nodes. *)
Theorem leaf_ids_exact (n : Node) (l : list string) :
  is_Some (leaf_ids (Some n)) /\
  (leaf_ids (Some n) = Some (inl l) <->
   l = leaves n /\ NoDup (leaves n) /\ NoDup (splits n) /\ (depth n <= 32)%nat /\ (nodes n <= 255)%nat).
Proof. split; [apply leaf_ids_total|apply leaf_ids_spec]. Qed.

(** the three removals of the code agree on a tree without repeated panes
    ([replace] with null, [remove_first] and [remove_leaf]): the pane is gone,
    the others keep their order, and the bounds and distinct splits are kept. *)
Theorem removals_agree (root : Node) (pane : string) :
  well_formed root -> pane ∈ leaves root ->
  remove_first root pane = replace root pane None /\
  remove_leaf (Some root) pane = (replace root pane None).1 /\
  (replace root pane None).2 = true /\
  oleaves (replace root pane None).1 = filter (fun x => x <> pane) (leaves root) /\
  oleaf_wf (replace root pane None).1.
Proof.
  intros Hw Hp. destruct (remove_wf root pane Hw Hp) as (H1 & H2 & H3).
  split_and!; [apply remove_first_replace|apply remove_leaf_replace; apply Hw|done..].
Qed.

(** both reorderings put the given identities on the leaves, left to right,
    and change nothing else; a tree reordered by its own leaves is itself. With
    too few identities [reorder] reports it and [tree::reorder] panics. *)
Theorem reorders_agree (root : Node) (ids : list string) :
  Forall (fun id => id <> EmptyString) ids ->
  match set_leaves root ids with
  | Some (m, rest) =>
      reorder root (Some <$> ids) = inl m /\
      reorder_node root ids 0 = Returned (m, length (leaves root)) /\
      ids = leaves m ++ rest /\ same_shape m root /\
      (ids = leaves root -> m = root)
  | None =>
      reorder root (Some <$> ids) = inr IncompleteOrder /\ reorder_node root ids 0 = Panicked
  end.
Proof.
  intros Hids. pose proof (reorder_visit_spec root ids Hids) as Hr.
  pose proof (reorder_node_spec root ids 0 ltac:(lia)) as Hn. rewrite drop_0 in Hn.
  pose proof (set_leaves_spec root ids) as Hs. unfold reorder.
  pose proof (set_leaves_self root []) as Hself. rewrite app_nil_r in Hself.
  destruct (set_leaves root ids) as [[m rest]|] eqn:E.
  - rewrite Hr, Hn. destruct Hs as [Hi Hsh]. split_and!; [done|done|done|done|].
    intros ->. congruence.
  - by rewrite Hr, Hn.
Qed.

(** Closing a center pane. When the tree matches the center panes and the
    pane's row is deleted, [remove] succeeds, the tree again matches the panes
    that are left, in order and at consecutive positions, and the same holds of
    the other implementation. *)
Theorem remove_keeps_layout (db : Db) (root : Node) (pane : string) :
  synced db -> center_root db = Some root -> pane ∈ leaves root ->
  exists db', remove (delete_group db pane) pane = inl db' /\
    project_remove (delete_group db pane) pane = inl db' /\
    synced db' /\
    oleaves (center_root db') = filter (fun x => x <> pane) (leaves root).
Proof.
  intros (Hw & Hin & _) Hr Hp. rewrite Hr in Hw, Hin. simpl in Hw, Hin.
  destruct (remove_wf root pane Hw Hp) as (H1 & H2 & H3).
  assert (Hpers : persist (delete_group db pane) (replace root pane None).1 =
    inl (MkDb (replace root pane None).1
      (group_positions (groups (delete_group db pane)) 0 (oleaves (replace root pane None).1)))).
  { apply persist_spec. split_and!; [done| |done]. intros id.
    rewrite H3, list_elem_of_filter, region_delete, Hin. done. }
  destruct (persist_synced _ _ _ Hpers) as (Hsync & Hroot & _).
  unfold remove, project_remove. simpl. rewrite Hr, remove_first_replace.
  destruct (replace root pane None) as [next c]; simpl in *; subst c. simpl.
  eexists. rewrite Hpers. split_and!; [reflexivity|reflexivity|exact Hsync|exact H3].
Qed.

(** opening a center pane. With the pane's row inserted and a fresh split
    identity, [append] succeeds up to the topology bounds and puts the pane
    last; the tree matches the panes again. *)
Theorem append_keeps_layout (db : Db) (root : Node) (pane uuid : string) (pos : Z) :
  synced db -> center_root db = Some root -> pane ∉ leaves root -> uuid ∉ splits root ->
  (depth root < 32)%nat -> (nodes root <= 253)%nat ->
  exists db', append (insert_group db pane pos) pane uuid = inl db' /\ synced db' /\
    oleaves (center_root db') = leaves root ++ [pane].
Proof.
  intros (Hw & Hin & _) Hr Hp Hu Hd Hn. rewrite Hr in Hw, Hin. simpl in Hw, Hin.
  set (next := Split uuid Horizontal half root (Pane pane)).
  assert (Hpers : persist (insert_group db pane pos) (Some next) =
    inl (MkDb (Some next) (group_positions (groups (insert_group db pane pos)) 0 (leaves next)))).
  { apply persist_spec. split_and!; [by apply append_wf| |done]. intros id.
    rewrite region_insert, <- Hin. simpl. set_solver. }
  destruct (persist_synced _ _ _ Hpers) as (Hsync & Hroot & _).
  eexists. unfold append. simpl. rewrite Hr. fold next. rewrite Hpers.
  split_and!; [reflexivity|exact Hsync|done].
Qed.

(** an order of the center panes, without repetitions, is accepted and
    becomes the order of the leaves and the positions; the splits, their
    fractions and the shape stay. *)
Theorem center_order_applies (db : Db) (root : Node) (ids : list string) :
  synced db -> center_root db = Some root -> NoDup ids ->
  Forall (fun id => id <> EmptyString) ids ->
  order_matches (region_ids db Center) (Some <$> ids) = true ->
  exists db' m, pane_order db Center (Some <$> ids) = inl db' /\ synced db' /\
    center_root db' = Some m /\ leaves m = ids /\ same_shape m root.
Proof.
  intros (Hw & Hin & _) Hr Hn Hids Hm. rewrite Hr in Hw, Hin. simpl in Hw, Hin.
  pose proof (order_matches_spec _ _ Hn Hm) as Hexp.
  assert (Hlen : length ids = length (leaves root)).
  { apply Permutation_length, NoDup_Permutation; [done|apply Hw|].
    intros x. by rewrite Hexp, Hin. }
  pose proof (set_leaves_spec root ids) as Hs. pose proof (reorder_visit_spec root ids Hids) as Hv.
  destruct (set_leaves root ids) as [[m rest]|]; [|lia]. destruct Hs as [He Hsh].
  assert (rest = []) as ->.
  { pose proof Hsh as (_ & _ & _ & Hl). apply (f_equal length) in He.
    rewrite length_app in He. destruct rest; [done|simpl in *; lia]. }
  rewrite app_nil_r in He. subst ids.
  assert (Hpers : persist db (Some m) =
    inl (MkDb (Some m) (group_positions (groups db) 0 (leaves m)))).
  { apply persist_spec. split_and!; [|by intros; apply Hexp|done].
    destruct Hsh as (S1 & S2 & S3 & S4), Hw as (_ & W2 & W3 & W4). simpl. unfold well_formed.
    rewrite S1, S2, S3. done. }
  destruct (persist_synced _ _ _ Hpers) as (Hsync & Hroot & _).
  assert (Hex : exact db (Some root) = inl (leaves root)) by (by apply exact_spec).
  eexists _, m. unfold pane_order, center_order, reorder.
  rewrite Hm, Hr, Hex, Hv. simpl. rewrite Hpers. split_and!; [reflexivity|exact Hsync|done..].
Qed.

(** resizing changes the fraction of one split and nothing else, and
    succeeds exactly when the split is in the tree; both implementations of
    the tree walk agree. *)
Theorem resize_is_local (db : Db) (root : Node) (id : string) (f : spec_float) :
  synced db -> center_root db = Some root ->
  resize_node root id f = resize root id f /\
  (id ∉ splits root -> resize_split db id f = inr SplitNotFound) /\
  (id ∈ splits root -> exists db' m,
     resize_split db id f = inl db' /\ synced db' /\ center_root db' = Some m /\
     leaves m = leaves root /\ same_shape m root /\
     fractions m = ((fun p => if decide (p.1 = id) then (p.1, f) else p) <$> fractions root)).
Proof.
  intros (Hw & Hin & _) Hr. rewrite Hr in Hw, Hin. simpl in Hw, Hin.
  destruct (resize_spec root id f) as (Hl & Hsh & Hhit & Hf).
  assert (Hex : exact db (Some root) = inl (leaves root)) by (by apply exact_spec).
  split_and!; [apply resize_node_eq| |].
  - intros Hno. unfold resize_split. rewrite Hr, Hex.
    destruct (resize root id f) as [m []]; simpl in *; [|done]. by destruct Hno; apply Hhit.
  - intros Hid. apply Hhit in Hid.
    assert (Hpers : persist db (Some (resize root id f).1) =
      inl (MkDb (Some (resize root id f).1) (group_positions (groups db) 0 (leaves root)))).
    { apply persist_spec. simpl. rewrite Hl. split_and!; [|done|done].
      destruct Hsh as (S1 & S2 & S3 & _), Hw as (W1 & W2 & W3 & W4). unfold well_formed.
      rewrite Hl, S1, S2, S3. done. }
    destruct (persist_synced _ _ _ Hpers) as (Hsync & Hroot & _).
    exists (MkDb (Some (resize root id f).1) (group_positions (groups db) 0 (leaves root))),
      (resize root id f).1.
    unfold resize_split. rewrite Hr, Hex.
    specialize (Hf (proj1 (proj2 Hw))).
    destruct (resize root id f) as [m c]; simpl in *; subst c. simpl. rewrite Hpers.
    split_and!; done.
Qed.

Definition sample_tree : Node :=
  Split "s1" Horizontal half (Pane "a") (Split "s2" Vertical half (Pane "b") (Pane "c")).
Definition sample_db : Db :=
  MkDb (Some sample_tree)
    {[ "a" := MkGroup Center 0; "b" := MkGroup Center 1; "c" := MkGroup Center 2;
       "d" := MkGroup Left 0 ]}.

Lemma sample_wf : well_formed sample_tree.
Proof. split_and!; [apply (bool_decide_unpack _); by vm_compute..|simpl; lia|simpl; lia]. Qed.

Lemma sample_synced : synced sample_db.
Proof.
  split_and!.
  - apply sample_wf.
  - intros id. assert (Hs : list_to_set (leaves sample_tree) = region_ids sample_db Center)
      by (apply (bool_decide_unpack _); by vm_compute).
    by rewrite <- Hs, elem_of_list_to_set.
  - intros [|[|[|i]]] id Hi; simplify_eq/=; eexists; (split; [reflexivity|done]).
Qed.

Lemma removals_agree_witness :
  remove_leaf (Some sample_tree) "b" = (replace sample_tree "b" None).1.
Proof. apply (removals_agree sample_tree "b" sample_wf). set_solver. Defined.

Lemma reorders_agree_witness :
  reorder sample_tree [Some "c"; Some "a"; Some "b"] =
    inl (Split "s1" Horizontal half (Pane "c") (Split "s2" Vertical half (Pane "a") (Pane "b"))).
Proof.
  refine (proj1 (reorders_agree sample_tree ["c"; "a"; "b"] _)). repeat constructor; done.
Defined.

Lemma remove_keeps_layout_witness :
  exists db', remove (delete_group sample_db "b") "b" = inl db' /\
    oleaves (center_root db') = ["a"; "c"].
Proof.
  destruct (remove_keeps_layout sample_db sample_tree "b" sample_synced eq_refl)
    as (db' & Hr & _ & _ & Hl); [set_solver|]. exists db'. split; [exact Hr|]. by rewrite Hl.
Defined.

Lemma append_keeps_layout_witness :
  exists db', append (insert_group sample_db "e" 9) "e" "s3" = inl db' /\
    oleaves (center_root db') = ["a"; "b"; "c"; "e"].
Proof.
  destruct (append_keeps_layout sample_db sample_tree "e" "s3" 9 sample_synced eq_refl)
    as (db' & Hr & _ & Hl); [apply (bool_decide_unpack _); by vm_compute..|simpl; lia|simpl; lia|].
  exists db'. split; [exact Hr|]. by rewrite Hl.
Defined.

Lemma center_order_applies_witness :
  exists db', pane_order sample_db Center [Some "c"; Some "a"; Some "b"] = inl db' /\ synced db'.
Proof.
  destruct (center_order_applies sample_db sample_tree ["c"; "a"; "b"] sample_synced eq_refl)
    as (db' & m & Hr & Hs & _).
  - apply (bool_decide_unpack _); by vm_compute.
  - repeat constructor; done.
  - by vm_compute.
  - exists db'. done.
Defined.

Lemma resize_is_local_witness :
  resize_split sample_db "s9" half = inr SplitNotFound.
Proof.
  apply (resize_is_local sample_db sample_tree "s9" half sample_synced eq_refl).
  apply (bool_decide_unpack _); by vm_compute.
Defined.

End Layout.
