(* ===== verification/Meter.v ===== *)
(** * Account usage metering

    [Meter] models src/cantrip_server_rs/src/usage/meter.rs, the bounded
    accounting buffer; [Store] models [flush_bandwidth] of usage/repository.rs,
    the transaction that applies a captured batch once; [Service] models
    [record], [flush] and [close] of usage/meter_service.rs, which put them
    together around failures of the store and lost answers.

    Counters are big integers as in the code. Instants are milliseconds. The
    key of a buffered entry is the tuple its string joins with NUL characters
    (channel, direction and the formatted hour contain none). *)
From S2P Require Import Prelude.
From stdpp Require Import base numbers gmap strings sorting list.
From Stdlib Require Import Floats.SpecFloat.
Open Scope Z_scope.

Definition I64_MAX : Z := 2 ^ 63 - 1.
Definition I32_MAX : Z := 2 ^ 31 - 1.

Module Meter.
Import Text.

Definition CHANNELS : list string :=
  ["http"; "client-live-websocket"; "worker-control-websocket"; "worker-log-stream";
   "terminal-relay"; "remote-surface-relay"; "tunnel-relay"; "attachment-transfer";
   "code-relay"; "project-share-relay"; "other"].
Definition MAX_SAFE_INTEGER : Z := 9007199254740991.

Inductive Counter :=
| Number (value : spec_float)
| Integer (value : Z).

(** The integer a finite [f64] with [fract() == 0] is. *)
Definition float_integer (f : spec_float) : option Z :=
  match f with
  | S754_zero _ => Some 0
  | S754_finite s m e =>
      let sign v := if s then - v else v in
      if 0 <=? e then Some (sign (Z.pos m * 2 ^ e))
      else if Z.pos m mod 2 ^ (- e) =? 0 then Some (sign (Z.pos m / 2 ^ (- e)))
      else None
  | _ => None
  end.

Definition checked (c : Counter) : option Z :=
  match c with
  | Number f =>
      match float_integer f with
      | Some v => if (0 <=? v) && (v <=? MAX_SAFE_INTEGER) then Some v else None
      | None => None
      end
  | Integer v => if (0 <=? v) && (v <=? I64_MAX) then Some v else None
  end.

Record Measurement := MkMeasurement {
  m_owner_id : text;
  m_bytes : Counter;
  m_operation_count : option Counter;
  m_channel : string;
  m_direction : string;
  m_notify_change : option bool
}.

Record NormalizedMeasurement := MkNormalized {
  n_owner_id : text;
  n_bytes : Z;
  n_operation_count : Z;
  n_channel : string;
  n_direction : string;
  n_notify_change : option bool
}.

Record Options := MkOptions {
  meter_id : text;
  max_buffered_entries : Z;
  flush_threshold_bytes : Z;
  flush_interval_ms : Z
}.

Definition Key : Type := text * Z * string * string.

Record BandwidthEntry := MkEntry {
  bucket_start : Z;
  bytes : Z;
  channel : string;
  direction : string;
  operation_count : Z;
  owner_id : text
}.
Definition entry_key (e : BandwidthEntry) : Key :=
  (owner_id e, bucket_start e, channel e, direction e).

Record FlushBatch := MkBatch {
  b_entries : list BandwidthEntry;
  flushed_at : Z;
  b_meter_id : text;
  b_sequence : Z
}.
Record FlushResult := MkResult { applied : bool; owner_ids : list text }.

Record BufferedEntry := MkBuffered { entry : BandwidthEntry; notify_measurements : Z }.
Record Pending := MkPending { batch : FlushBatch; p_entries : list (Key * BufferedEntry) }.

Record Stats := MkStats {
  buffered_bytes : Z;
  dropped_bytes : Z;
  dropped_measurements : Z;
  flush_count : Z;
  flush_failure_count : Z;
  last_flush_duration_ms : option Z;
  last_flushed_at : option Z
}.

Inductive RecordOutcome := Rejected | Noop | Recorded.

Record State := MkState {
  options : Options;
  buffer : list (Key * BufferedEntry);
  pending : option Pending;
  sequence : Z;
  closed : bool;
  stats : Stats
}.

Definition new (o : Options) : option State :=
  if negb (bool_decide (trim (meter_id o) = [])) && (0 <? max_buffered_entries o)
     && (max_buffered_entries o <=? MAX_SAFE_INTEGER) && (0 <? flush_threshold_bytes o)
     && (0 <? flush_interval_ms o) && (flush_interval_ms o <=? MAX_SAFE_INTEGER)
  then Some (MkState o [] None 0 false (MkStats 0 0 0 0 0 None None))
  else None.

Definition set_buffer (s : State) (b : list (Key * BufferedEntry)) (st : Stats) : State :=
  MkState (options s) b (pending s) (sequence s) (closed s) st.

Definition drop_measurement (st : Stats) (n : Z) : Stats :=
  MkStats (buffered_bytes st) (dropped_bytes st + n) (dropped_measurements st + 1)
    (flush_count st) (flush_failure_count st) (last_flush_duration_ms st) (last_flushed_at st).

Definition add_buffered (st : Stats) (n : Z) : Stats :=
  MkStats (buffered_bytes st + n) (dropped_bytes st) (dropped_measurements st)
    (flush_count st) (flush_failure_count st) (last_flush_duration_ms st) (last_flushed_at st).

(** The validation of [record_with_hooks]: what becomes of an input. *)
Inductive Checked := Refused | Nothing | Normal (n : NormalizedMeasurement) (now : Z).

Definition normalize (m : Measurement) (now : option Z) : Checked :=
  let owner := trim (m_owner_id m) in
  match checked (m_bytes m),
        match m_operation_count m with Some c => checked c | None => Some 1 end, now with
  | Some n, Some operations, Some now =>
      if bool_decide (owner = []) || (200 <? utf16_count owner)
         || negb (bool_decide (m_channel m ∈ CHANNELS))
         || negb (bool_decide (m_direction m ∈ ["ingress"; "egress"]))
      then Refused
      else if (n =? 0) && (operations =? 0) then Nothing
      else Normal (MkNormalized owner n operations (m_channel m) (m_direction m)
                     (m_notify_change m)) now
  | _, _, _ => Refused
  end.

Definition notifies (n : NormalizedMeasurement) : Z :=
  if decide (n_notify_change n = Some false) then 0 else 1.

Definition bucket_of (now : Z) : Z := now / 3600000 * 3600000.

Definition key_of (n : NormalizedMeasurement) (bucket : Z) : Key :=
  (n_owner_id n, bucket, n_channel n, n_direction n).

(** The buffering half, for a normalized measurement in an hour. *)
Definition buffer_measurement (s : State) (n : NormalizedMeasurement) (bucket : Z) :
  RecordOutcome * State :=
  let key := key_of n bucket in
  let recorded b := (Recorded, set_buffer s b (add_buffered (stats s) (n_bytes n))) in
  match IndexMap.get key (buffer s) with
  | None =>
      if max_buffered_entries (options s) <=? len (buffer s)
      then (Rejected, set_buffer s (buffer s) (drop_measurement (stats s) (n_bytes n)))
      else
        recorded (IndexMap.insert key
          (MkBuffered (MkEntry bucket (n_bytes n) (n_channel n) (n_direction n)
                         (n_operation_count n) (n_owner_id n)) (notifies n)) (buffer s))
  | Some current =>
      let e := entry current in
      if (I64_MAX <? bytes e + n_bytes n) || (I64_MAX <? operation_count e + n_operation_count n)
      then (Rejected, set_buffer s (buffer s) (drop_measurement (stats s) (n_bytes n)))
      else
        recorded (IndexMap.insert key
          (MkBuffered (MkEntry (bucket_start e) (bytes e + n_bytes n) (channel e) (direction e)
                         (operation_count e + n_operation_count n) (owner_id e))
             (notify_measurements current + notifies n)) (buffer s))
  end.

(** [record_with_hooks]: the outcome, the measurement the observer sees, and
    the state. [from_timestamp_millis] is chrono's, [None] out of its range. *)
Definition record_with_hooks (from_timestamp_millis : Z -> option Z) (s : State)
    (m : Measurement) (now : option Z) : RecordOutcome * option NormalizedMeasurement * State :=
  if closed s then (Rejected, None, s)
  else
    match normalize m now with
    | Refused => (Rejected, None, s)
    | Nothing => (Noop, None, s)
    | Normal n now =>
        match from_timestamp_millis (bucket_of now) with
        | None => (Rejected, Some n, s)
        | Some bucket => let '(r, s') := buffer_measurement s n bucket in (r, Some n, s')
        end
    end.

Definition flush_due (s : State) : bool :=
  flush_threshold_bytes (options s) <=? buffered_bytes (stats s).

Definition has_work (s : State) : bool :=
  match pending s with Some _ => true | None => negb (bool_decide (buffer s = [])) end.

Definition pending_batch (s : State) : option FlushBatch := batch <$> pending s.

Definition capture (s : State) (at_ : Z) : option FlushBatch * State :=
  match pending s with
  | Some p => (Some (batch p), s)
  | None =>
      if bool_decide (buffer s = []) then (None, s)
      else
        let sequence := sequence s + 1 in
        let b := MkBatch ((fun kv => entry kv.2) <$> buffer s) at_ (meter_id (options s)) sequence in
        (Some b,
         MkState (options s) (buffer s) (Some (MkPending b (buffer s))) sequence (closed s) (stats s))
  end.

Definition failed (s : State) (duration : Z) : State :=
  let st := stats s in
  set_buffer s (buffer s)
    (MkStats (buffered_bytes st) (dropped_bytes st) (dropped_measurements st) (flush_count st)
       (flush_failure_count st + 1) (Some duration) (last_flushed_at st)).

(** The loop of [committed] over the captured entries. *)
Definition subtract (current flushed : BufferedEntry) : BufferedEntry :=
  let e := entry current in
  MkBuffered (MkEntry (bucket_start e) (bytes e - bytes (entry flushed)) (channel e) (direction e)
                (operation_count e - operation_count (entry flushed)) (owner_id e))
    (notify_measurements current - notify_measurements flushed).

(** What is left of an entry stays, unless nothing is left of it. *)
Definition put_back (key : Key) (c : BufferedEntry) (b : list (Key * BufferedEntry)) :
  list (Key * BufferedEntry) :=
  if (bytes (entry c) =? 0) && (operation_count (entry c) =? 0) && (notify_measurements c =? 0)
  then IndexMap.shift_remove key b
  else IndexMap.insert key c b.

Fixpoint settle (es : list (Key * BufferedEntry)) (b : list (Key * BufferedEntry)) (buffered : Z) :
  list (Key * BufferedEntry) * Z :=
  match es with
  | [] => (b, buffered)
  | (key, flushed) :: es =>
      match IndexMap.get key b with
      | None => settle es b buffered
      | Some current =>
          settle es (put_back key (subtract current flushed) b) (buffered - bytes (entry flushed))
      end
  end.

Definition notifying (es : list (Key * BufferedEntry)) : gset text :=
  list_to_set ((fun kv => owner_id (entry kv.2)) <$>
                 filter (fun kv => 0 < notify_measurements kv.2) es).

Definition committed (s : State) (result : FlushResult) (at_ duration : Z) :
  option (list text) * State :=
  match pending s with
  | None => (None, s)
  | Some p =>
      let st := stats s in
      let '(b, buffered) := settle (p_entries p) (buffer s) (buffered_bytes st) in
      (Some (filter (fun o => o ∈ notifying (p_entries p)) (owner_ids result)),
       MkState (options s) b None (sequence s) (closed s)
         (MkStats buffered (dropped_bytes st) (dropped_measurements st) (flush_count st + 1)
            (flush_failure_count st) (Some duration) (Some at_)))
  end.

(** The public snapshot: the totals, the entries and the pending sequence. *)
Definition get_stats (s : State) : Stats * Z * option Z :=
  (stats s, len (buffer s), (fun p => b_sequence (batch p)) <$> pending s).

(** ** Invariant *)

Definition total_bytes (b : list (Key * BufferedEntry)) : Z :=
  sumZ ((fun kv => bytes (entry kv.2)) <$> b).

Definition entry_ok (kv : Key * BufferedEntry) : Prop :=
  entry_key (entry kv.2) = kv.1 /\
  0 <= bytes (entry kv.2) <= I64_MAX /\ 0 <= operation_count (entry kv.2) <= I64_MAX /\
  0 <= notify_measurements kv.2 /\ 0 < bytes (entry kv.2) + operation_count (entry kv.2).

(** A captured entry is still covered by the buffered one. *)
Definition covered (b : list (Key * BufferedEntry)) (kv : Key * BufferedEntry) : Prop :=
  exists c, IndexMap.get kv.1 b = Some c /\
    bytes (entry kv.2) <= bytes (entry c) /\
    operation_count (entry kv.2) <= operation_count (entry c) /\
    notify_measurements kv.2 <= notify_measurements c /\
    (notify_measurements kv.2 < notify_measurements c ->
     bytes (entry kv.2) + operation_count (entry kv.2) < bytes (entry c) + operation_count (entry c)).

Definition pending_ok (s : State) (p : Pending) : Prop :=
  b_entries (batch p) = (fun kv => entry kv.2) <$> p_entries p /\
  b_sequence (batch p) = sequence s /\ b_meter_id (batch p) = meter_id (options s) /\
  p_entries p <> [] /\ IndexMap.wf (p_entries p) /\
  Forall entry_ok (p_entries p) /\ Forall (covered (buffer s)) (p_entries p).

Record inv (s : State) : Prop := Inv {
  i_wf : IndexMap.wf (buffer s);
  i_entries : Forall entry_ok (buffer s);
  i_bound : len (buffer s) <= max_buffered_entries (options s);
  i_total : buffered_bytes (stats s) = total_bytes (buffer s);
  i_pending : forall p, pending s = Some p -> pending_ok s p
}.

(** What the buffer holds for a key. *)
Definition amount (b : list (Key * BufferedEntry)) (k : Key) : Z * Z :=
  match IndexMap.get k b with
  | Some c => (bytes (entry c), operation_count (entry c))
  | None => (0, 0)
  end.

Definition plus2 (x y : Z * Z) : Z * Z := (x.1 + y.1, x.2 + y.2).
Definition minus2 (x y : Z * Z) : Z * Z := (x.1 - y.1, x.2 - y.2).

Lemma amount_insert b k c k' :
  amount (IndexMap.insert k c b) k' =
  if decide (k' = k) then (bytes (entry c), operation_count (entry c)) else amount b k'.
Proof.
  unfold amount. case_decide as E; [subst; by rewrite IndexMap.get_insert_eq|].
  by rewrite IndexMap.get_insert_ne.
Qed.

Lemma amount_remove b k k' :
  amount (IndexMap.shift_remove k b) k' = if decide (k' = k) then (0, 0) else amount b k'.
Proof.
  unfold amount. case_decide as E; [subst; by rewrite IndexMap.get_remove_eq|].
  by rewrite IndexMap.get_remove_ne.
Qed.

Lemma total_cons k c b : total_bytes ((k, c) :: b) = bytes (entry c) + total_bytes b.
Proof. done. Qed.

Lemma total_insert_present b k c c0 :
  IndexMap.get k b = Some c0 ->
  total_bytes (IndexMap.insert k c b) = total_bytes b - bytes (entry c0) + bytes (entry c).
Proof.
  induction b as [|[k' c'] b IH]; cbn [IndexMap.get IndexMap.insert]; [done|].
  case_decide; intros; simplify_eq; rewrite !total_cons; [lia|]. rewrite IH by done. lia.
Qed.

Lemma total_insert_absent b k c :
  IndexMap.get k b = None -> total_bytes (IndexMap.insert k c b) = total_bytes b + bytes (entry c).
Proof.
  intros. rewrite IndexMap.insert_absent by done. unfold total_bytes.
  rewrite fmap_app, sumZ_app. simpl. lia.
Qed.

Lemma total_remove b k c0 :
  IndexMap.wf b -> IndexMap.get k b = Some c0 ->
  total_bytes (IndexMap.shift_remove k b) = total_bytes b - bytes (entry c0).
Proof.
  induction b as [|[k' c'] b IH]; [done|]. intros Hw.
  unfold IndexMap.wf in Hw. simpl in Hw. apply NoDup_cons in Hw as [Hk Hw].
  rewrite IndexMap.remove_cons. cbn [IndexMap.get].
  destruct (decide (k = k')) as [<-|Hne]; intros; simplify_eq; rewrite !total_cons.
  - rewrite (IndexMap.remove_absent k b); [lia|]. by apply IndexMap.get_None.
  - rewrite IH by done. lia.
Qed.

Lemma get_entry_ok b k c : Forall entry_ok b -> IndexMap.get k b = Some c -> entry_ok (k, c).
Proof. intros Hf Hg%IndexMap.get_In. rewrite Forall_forall in Hf. auto. Qed.

Lemma Forall_insert_map b k c :
  Forall entry_ok b -> entry_ok (k, c) -> Forall entry_ok (IndexMap.insert k c b).
Proof.
  rewrite !Forall_forall. intros Hf Hc x [->|Hx]%IndexMap.elem_of_insert; auto.
Qed.

(** ** Recording *)

Definition measured (n : NormalizedMeasurement) : Z * Z := (n_bytes n, n_operation_count n).

Definition normal_ok (n : NormalizedMeasurement) : Prop :=
  0 <= n_bytes n <= I64_MAX /\ 0 <= n_operation_count n <= I64_MAX /\
  0 < n_bytes n + n_operation_count n.

Lemma checked_range c v : checked c = Some v -> 0 <= v <= I64_MAX.
Proof.
  destruct c as [f|z]; simpl.
  - destruct (float_integer f) as [z|]; [|done].
    destruct ((0 <=? z) && (z <=? MAX_SAFE_INTEGER)) eqn:E; intros; simplify_eq. reflect_bools.
    unfold MAX_SAFE_INTEGER, I64_MAX in *. lia.
  - destruct ((0 <=? z) && (z <=? I64_MAX)) eqn:E; intros; simplify_eq. reflect_bools. lia.
Qed.

Lemma normalize_ok m now n t : normalize m now = Normal n t -> normal_ok n /\ now = Some t.
Proof.
  unfold normalize. destruct (checked (m_bytes m)) as [b|] eqn:Hb; [|done].
  destruct (match m_operation_count m with Some c => checked c | None => Some 1 end) as [o|] eqn:Ho;
    [|done].
  destruct now as [now|]; [|done]. destruct (_ || _); [done|].
  destruct ((b =? 0) && (o =? 0)) eqn:Hz; intros; simplify_eq. split; [|done].
  apply checked_range in Hb.
  assert (0 <= o <= I64_MAX).
  { destruct (m_operation_count m); [by eapply checked_range|]. simplify_eq.
    unfold I64_MAX. lia. }
  unfold normal_ok. simpl. split_and!; lia.
Qed.

Lemma notifies_nonneg n : 0 <= notifies n <= 1.
Proof. unfold notifies. case_decide; lia. Qed.

Definition keyed (k' : Key) (x : Z * Z) (k : Key) : Z * Z := if decide (k = k') then x else (0, 0).

(** A recorded measurement goes to its key; a rejected one only to the drop
    counters. *)
Lemma buffer_measurement_spec s n bucket :
  inv s -> normal_ok n -> 0 < max_buffered_entries (options s) ->
  let '(r, s') := buffer_measurement s n bucket in
  inv s' /\ options s' = options s /\ pending s' = pending s /\ sequence s' = sequence s /\
  match r with
  | Recorded =>
      dropped_bytes (stats s') = dropped_bytes (stats s) /\
      forall k, amount (buffer s') k = plus2 (amount (buffer s) k) (keyed (key_of n bucket) (measured n) k)
  | _ =>
      r = Rejected /\ dropped_bytes (stats s') = dropped_bytes (stats s) + n_bytes n /\
      buffer s' = buffer s
  end.
Proof.
  intros [Hw He Hb Ht Hp] (Hn1 & Hn2 & Hn3) Hmax. unfold buffer_measurement.
  pose proof (notifies_nonneg n) as Hno.
  assert (Hdrop : inv (set_buffer s (buffer s) (drop_measurement (stats s) (n_bytes n)))).
  { constructor; simpl; auto. }
  assert (Hcov : forall c, 
    (forall c0, IndexMap.get (key_of n bucket) (buffer s) = Some c0 ->
       bytes (entry c0) <= bytes (entry c) /\ operation_count (entry c0) <= operation_count (entry c) /\
       notify_measurements c0 <= notify_measurements c /\
       bytes (entry c0) + operation_count (entry c0) < bytes (entry c) + operation_count (entry c)) ->
    forall p, pending s = Some p ->
      Forall (covered (IndexMap.insert (key_of n bucket) c (buffer s))) (p_entries p)).
  { intros c Hc p Hpend. destruct (Hp p Hpend) as (_ & _ & _ & _ & _ & _ & Hcv).
    eapply Forall_impl; [exact Hcv|]. intros [k f] (c0 & Hg & H1 & H2 & H3 & H4).
    unfold covered. simpl in *. destruct (decide (k = key_of n bucket)) as [->|Hne].
    - rewrite IndexMap.get_insert_eq. destruct (Hc c0 Hg) as (K1 & K2 & K3 & K4).
      exists c. split_and!; [done|lia|lia|lia|]. intros _. lia.
    - rewrite IndexMap.get_insert_ne by done. eauto 10. }
  destruct (IndexMap.get (key_of n bucket) (buffer s)) as [cur|] eqn:Hg.
  - pose proof (get_entry_ok _ _ _ He Hg) as (Hk & Hk1 & Hk2 & Hk3 & Hk4). simpl in *.
    destruct (_ || _) eqn:Hov; [by split_and!|]. reflect_bools. split_and!; try done.
    + constructor; simpl.
      * by apply IndexMap.wf_insert.
      * apply Forall_insert_map; [done|]. unfold entry_ok. simpl. split_and!; try lia. done.
      * erewrite IndexMap.length_insert_present; done.
      * rewrite (total_insert_present _ _ _ _ Hg). simpl. lia.
      * intros p Hpend. destruct (Hp p Hpend) as (P1 & P2 & P3 & P4 & P5 & P6 & _).
        split_and!; try done. apply Hcov; [|done]. intros c0 [= <-]. simpl. lia.
    + intros k. simpl. rewrite amount_insert. unfold keyed, plus2, measured. simpl.
      case_decide; simpl; [subst; unfold amount; rewrite Hg; done|].
      destruct (amount (buffer s) k). simpl. f_equal; lia.
  - destruct (max_buffered_entries (options s) <=? len (buffer s)) eqn:Hfull; [by split_and!|].
    reflect_bools. split_and!; try done.
    + constructor; simpl.
      * by apply IndexMap.wf_insert.
      * apply Forall_insert_map; [done|]. unfold entry_ok. simpl. split_and!; try lia. done.
      * rewrite IndexMap.length_insert_absent by done. lia.
      * rewrite total_insert_absent by done. simpl. lia.
      * intros p Hpend. destruct (Hp p Hpend) as (P1 & P2 & P3 & P4 & P5 & P6 & _).
        split_and!; try done. apply Hcov; [|done]. done.
    + intros k. simpl. rewrite amount_insert. unfold keyed, plus2, measured. simpl.
      case_decide; simpl; [subst; unfold amount; rewrite Hg; done|].
      destruct (amount (buffer s) k). simpl. f_equal; lia.
Qed.

(** ** Capturing and committing *)

Lemma covered_self b : IndexMap.wf b -> Forall (covered b) b.
Proof.
  intros Hw. rewrite Forall_forall. intros [k c] Hin. exists c. simpl.
  split_and!; [by apply IndexMap.In_get|lia..].
Qed.

Lemma capture_spec s at_ :
  inv s ->
  let '(r, s') := capture s at_ in
  inv s' /\ options s' = options s /\ buffer s' = buffer s /\ stats s' = stats s /\
  match pending s with
  | Some p => r = Some (batch p) /\ s' = s
  | None =>
      if bool_decide (buffer s = []) then r = None /\ s' = s
      else sequence s' = sequence s + 1 /\
        exists p, pending s' = Some p /\ r = Some (batch p) /\ p_entries p = buffer s
  end.
Proof.
  intros Hinv. unfold capture. destruct (pending s) as [p|] eqn:Hp; [done|].
  case_bool_decide as Hb; [done|]. pose proof Hinv as [Hw He Hbd Ht _].
  split_and!; try done; [|eexists; split_and!; done].
  constructor; simpl; try done. intros p [= <-]. split_and!; simpl; try done. by apply covered_self.
Qed.

Lemma put_back_spec b k c c0 :
  IndexMap.wf b -> IndexMap.get k b = Some c0 ->
  0 <= notify_measurements c -> 0 <= bytes (entry c) -> 0 <= operation_count (entry c) ->
  IndexMap.wf (put_back k c b) /\
  (length (put_back k c b) <= length b)%nat /\
  total_bytes (put_back k c b) = total_bytes b - bytes (entry c0) + bytes (entry c) /\
  (forall k', amount (put_back k c b) k' =
     if decide (k' = k) then (bytes (entry c), operation_count (entry c)) else amount b k') /\
  (forall k', k' <> k -> IndexMap.get k' (put_back k c b) = IndexMap.get k' b).
Proof.
  intros Hw Hg N1 N2 N3. unfold put_back. destruct (_ && _) eqn:Hz; split_and!; auto with cantrip.
  - pose proof (IndexMap.length_remove_present _ _ _ Hw Hg). lia.
  - rewrite (total_remove _ _ _ Hw Hg). lia.
  - intros k'. rewrite amount_remove. case_decide; [|done]. f_equal; lia.
  - intros. by rewrite IndexMap.get_remove_ne.
  - by erewrite IndexMap.length_insert_present.
  - by rewrite (total_insert_present _ _ _ _ Hg).
  - intros k'. apply amount_insert.
  - intros. by rewrite IndexMap.get_insert_ne.
Qed.

Lemma put_back_ok b k f c :
  Forall entry_ok b -> IndexMap.get k b = Some c -> entry_ok (k, f) ->
  bytes (entry f) <= bytes (entry c) -> operation_count (entry f) <= operation_count (entry c) ->
  notify_measurements f <= notify_measurements c ->
  (notify_measurements f < notify_measurements c ->
   bytes (entry f) + operation_count (entry f) < bytes (entry c) + operation_count (entry c)) ->
  Forall entry_ok (put_back k (subtract c f) b).
Proof.
  intros Hb Hg (_ & F1 & F2 & F3 & F4) C1 C2 C3 C4. simpl in *.
  pose proof (get_entry_ok _ _ _ Hb Hg) as (E1 & E2 & E3 & E4 & E5). simpl in *.
  unfold put_back. destruct (_ && _) eqn:Hz.
  - rewrite Forall_forall in *. intros y [_ Hy]%IndexMap.elem_of_remove. auto.
  - apply Forall_insert_map; [done|]. unfold entry_ok. simpl in *.
    split_and!; [done|lia..].
Qed.

Lemma settle_spec es : forall b n,
  IndexMap.wf b -> IndexMap.wf es -> Forall entry_ok b -> Forall entry_ok es ->
  Forall (covered b) es ->
  let '(b', n') := settle es b n in
  IndexMap.wf b' /\ Forall entry_ok b' /\ (length b' <= length b)%nat /\
  total_bytes b' = total_bytes b - total_bytes es /\ n' = n - total_bytes es /\
  (forall k, amount b' k = minus2 (amount b k) (amount es k)).
Proof.
  induction es as [|[k f] es IH]; intros b n Hw Hes Hb Hok Hc; cbn [settle].
  - change (total_bytes []) with 0. split_and!; [done|done|done|lia|lia|].
    intros k. unfold minus2. change (amount [] k) with (0, 0).
    destruct (amount b k). simpl. f_equal; lia.
  - apply NoDup_cons in Hes as [Hk Hes]. apply Forall_cons in Hc as [Hcf Hcs].
    apply Forall_cons in Hok as [Hokf Hoks].
    destruct Hcf as (c & Hg & C1 & C2 & C3 & C4). simpl in Hg, C1, C2, C3, C4. rewrite Hg.
    destruct (put_back_spec b k (subtract c f) c Hw Hg) as (P1 & P2 & P3 & P4 & P5);
      [simpl; lia..|].
    pose proof (put_back_ok b k f c Hb Hg Hokf C1 C2 C3 C4) as P6.
    assert (Hcov : Forall (covered (put_back k (subtract c f) b)) es).
    { rewrite Forall_forall in *. intros [k' f'] Hin.
      destruct (Hcs _ Hin) as (c' & Hg' & Hrest). exists c'. split; [|exact Hrest].
      simpl in *. rewrite P5; [done|]. intros ->. apply Hk, list_elem_of_fmap. by exists (k, f'). }
    specialize (IH _ (n - bytes (entry f)) P1 Hes P6 Hoks Hcov).
    destruct (settle es _ _) as [b' n']. destruct IH as (I1 & I2 & I3 & I4 & I5 & I6).
    rewrite total_cons. simpl in P3. split_and!; [done|done|lia|lia|lia|].
    intros k'. rewrite I6, P4. unfold minus2.
    assert (Hf : amount ((k, f) :: es) k' = if decide (k' = k) then
      (bytes (entry f), operation_count (entry f)) else amount es k').
    { unfold amount. simpl. by case_decide. }
    rewrite Hf. case_decide; [subst k'|done].
    assert (Hno : amount es k = (0, 0)) by (unfold amount; by rewrite (proj2 (IndexMap.get_None k es))).
    unfold amount at 3 4. rewrite Hno, Hg. simpl. f_equal; lia.
Qed.

Lemma committed_spec s p result at_ duration :
  inv s -> pending s = Some p ->
  let '(r, s') := committed s result at_ duration in
  inv s' /\ is_Some r /\ pending s' = None /\ options s' = options s /\
  sequence s' = sequence s /\ dropped_bytes (stats s') = dropped_bytes (stats s) /\
  forall k, amount (buffer s') k = minus2 (amount (buffer s) k) (amount (p_entries p) k).
Proof.
  intros [Hw He Hb Ht Hp] Hpend. destruct (Hp p Hpend) as (P1 & P2 & P3 & P4 & P5 & P6 & P7).
  unfold committed. rewrite Hpend.
  pose proof (settle_spec (p_entries p) (buffer s) (buffered_bytes (stats s)) Hw P5 He P6 P7) as Hs.
  destruct (settle (p_entries p) (buffer s) (buffered_bytes (stats s))) as [b n].
  destruct Hs as (S1 & S2 & S3 & S4 & S5 & S6).
  split_and!; [|by eexists|done|done|done|done|done].
  constructor; simpl; [done|done|lia|lia|done].
Qed.

Lemma failed_spec s duration :
  inv s -> inv (failed s duration) /\ buffer (failed s duration) = buffer s /\
  pending (failed s duration) = pending s /\ sequence (failed s duration) = sequence s.
Proof. intros [Hw He Hb Ht Hp]. split_and!; [|done..]. constructor; auto. Qed.

Lemma new_inv o s : new o = Some s -> inv s /\ 0 < max_buffered_entries (options s).
Proof.
  unfold new. destruct (_ && _) eqn:E; [|done]. intros [= <-]. reflect_bools.
  split; [|done]. constructor; simpl; try done; try lia; apply NoDup_nil_2 || by apply Forall_nil.
Qed.

End Meter.

(** ** The durable store *)
Module Store.
Import Text Meter.

Record Store := MkStore {
  users : gset text;
  receipts : gset (text * Z);
  buckets : gmap Key (Z * Z)
}.

(** UTF-16 code units, and their order. *)
Definition utf16 (s : text) : list Z :=
  s ≫= (fun c => if c <? 0x10000 then [c]
                 else [0xd800 + (c - 0x10000) / 0x400; 0xdc00 + (c - 0x10000) mod 0x400]).
Fixpoint lex_le (a b : list Z) : bool :=
  match a, b with
  | [], _ => true
  | _ :: _, [] => false
  | x :: a, y :: b => (x <? y) || ((x =? y) && lex_le a b)
  end.
Definition owner_le (a b : text) : Prop := lex_le (utf16 a) (utf16 b) = true.
#[global] Instance owner_le_dec : RelDecision owner_le.
Proof. intros a b. unfold owner_le. apply _. Defined.

(** [owner_ids] of the rows of the users query, which are distinct. *)
Definition sorted_owners (owners : gset text) : list text := merge_sort owner_le (elements owners).

Definition bucket (b : gmap Key (Z * Z)) (k : Key) : Z * Z := default (0, 0) (b !! k).

(** The upsert: sums are [bigint], so an overflow aborts the transaction. *)
Fixpoint upsert (es : list BandwidthEntry) (b : gmap Key (Z * Z)) : option (gmap Key (Z * Z)) :=
  match es with
  | [] => Some b
  | e :: es =>
      let v := plus2 (bucket b (entry_key e)) (bytes e, operation_count e) in
      if (v.1 <=? I64_MAX) && (v.2 <=? I64_MAX) then upsert es (<[entry_key e := v]> b) else None
  end.

(** [flush_bandwidth]; [None] is an error, with the transaction rolled back. *)
Definition flush_bandwidth (st : Store) (b : FlushBatch) : option FlushResult * Store :=
  if bool_decide (b_entries b = []) then (Some (MkResult false []), st)
  else
    let owners := users st ∩ list_to_set (owner_id <$> b_entries b) in
    let total := sumZ (bytes <$> b_entries b) in
    if (I64_MAX <? total) || (I32_MAX <? len (b_entries b)) then (None, st)
    else if decide ((b_meter_id b, b_sequence b) ∈ receipts st)
    then (Some (MkResult false (sorted_owners owners)), st)
    else
      let entries := filter (fun e => owner_id e ∈ owners) (b_entries b) in
      if bool_decide (NoDup (entry_key <$> entries)) then
        match upsert entries (buckets st) with
        | None => (None, st)
        | Some bs =>
            (Some (MkResult true (sorted_owners owners)),
             MkStore (users st) ({[(b_meter_id b, b_sequence b)]} ∪ receipts st) bs)
        end
      else (None, st).

Lemma upsert_bucket es : forall b b' k,
  NoDup (entry_key <$> es) -> upsert es b = Some b' ->
  bucket b' k = plus2 (bucket b k)
    (match list_find (fun e => entry_key e = k) es with
     | Some (_, e) => (bytes e, operation_count e)
     | None => (0, 0)
     end).
Proof.
  induction es as [|e es IH]; intros b b' k Hn Hu; cbn [upsert] in Hu.
  - simplify_eq. simpl. unfold plus2. destruct (bucket b' k). simpl. f_equal; lia.
  - rewrite fmap_cons in Hn. apply NoDup_cons in Hn as [He Hn].
    destruct (_ && _); [|done]. rewrite (IH _ _ k Hn Hu). cbn [list_find].
    unfold bucket at 1. destruct (decide (entry_key e = k)) as [<-|Hk].
    + rewrite lookup_insert_eq. simpl.
      assert (Hf : list_find (fun e' => entry_key e' = entry_key e) es = None).
      { apply list_find_None, Forall_forall. intros e' He' Heq. apply He.
        rewrite <- Heq. by apply list_elem_of_fmap_2. }
      rewrite Hf. unfold plus2. simpl. f_equal; lia.
    + rewrite lookup_insert_ne by done. fold (bucket b k).
      destruct (list_find _ es) as [[i e']|]; done.
Qed.

(** Looking an owner's entry up in the captured rows. *)
Lemma entries_amount (ps : list (Key * BufferedEntry)) (owners : gset text) k :
  Forall entry_ok ps -> (IndexMap.get k ps <> None -> k.1.1.1 ∈ owners) ->
  match list_find (fun e => entry_key e = k)
          (filter (fun e => owner_id e ∈ owners) ((fun kv => entry kv.2) <$> ps)) with
  | Some (_, e) => (bytes e, operation_count e)
  | None => (0, 0)
  end = amount ps k.
Proof.
  intros Hok. induction Hok as [|[k' c] ps (Hkey & _) Hps IH]; [done|].
  rewrite fmap_cons, filter_cons. unfold amount. simpl in Hkey. intros Hk. simpl in Hk.
  cbn [IndexMap.get]. destruct (decide (k = k')) as [->|Hne].
  - rewrite decide_True by (rewrite <- Hkey in Hk; by apply Hk).
    cbn [list_find]. by rewrite decide_True.
  - fold (amount ps k). rewrite <- IH by done. case_decide; [|done].
    cbn [list_find]. rewrite decide_False by (simpl; congruence).
    by destruct (list_find _ _) as [[? ?]|].
Qed.

(** One transaction: nothing happens, or the receipt was new and every row of
    an existing user is added to its bucket. *)
Lemma flush_bandwidth_spec st b ps :
  IndexMap.wf ps -> Forall entry_ok ps -> ps <> [] ->
  b_entries b = (fun kv => entry kv.2) <$> ps ->
  let '(r, st') := flush_bandwidth st b in
  let receipt := (b_meter_id b, b_sequence b) in
  users st' = users st /\
  ((st' = st /\ (r = None \/ receipt ∈ receipts st)) \/
   ((receipt ∉ receipts st) /\ is_Some r /\ receipts st' = {[receipt]} ∪ receipts st /\
    forall k, k.1.1.1 ∈ users st -> bucket (buckets st') k = plus2 (bucket (buckets st) k) (amount ps k))).
Proof.
  intros Hw Hok Hne Hb. unfold flush_bandwidth.
  case_bool_decide as He; [rewrite Hb in He; by apply fmap_nil_inv in He|].
  destruct (_ || _); [by split; [|left; auto]|]. case_decide as Hr; [by split; [|left; auto]|].
  case_bool_decide as Hn; [|by split; [|left; auto]].
  destruct (upsert _ (buckets st)) as [bs|] eqn:Hup; [|by split; [|left; auto]].
  split; [done|]. right. split_and!; [done|by eexists|done|]. intros k Hk. simpl.
  rewrite (upsert_bucket _ _ _ k Hn Hup), Hb. f_equal. apply entries_amount; [done|].
  intros Hg. apply elem_of_intersection. split; [done|]. apply elem_of_list_to_set.
  destruct (IndexMap.get k ps) as [c|] eqn:Hc; [|done].
  pose proof (get_entry_ok _ _ _ Hok Hc) as (Hkey & _). simpl in Hkey.
  apply IndexMap.get_In in Hc. rewrite <- list_fmap_compose. apply list_elem_of_fmap.
  exists (k, c). split; [|done]. simpl. by rewrite <- Hkey.
Qed.

End Store.

(** ** The service *)
Module Service.
Import Text Meter Store.

Section service.
Context (from_timestamp_millis : Z -> option Z).

(** The meter behind its lock, the flush in flight, the store; and, for the
    specification only, the measurements recorded so far with their keys. *)
Record System := MkSystem {
  meter : State;
  in_flight : option FlushBatch;
  store : Store;
  recorded : list (Key * (Z * Z))
}.

(** How one call of the sink ends: answered, executed with the answer lost, or
    failed before it was executed. *)
Inductive Sink := Answered | Lost | Failed.

(** [Meter::record]. *)
Definition record (y : System) (m : Measurement) (now : Z) : System :=
  match record_with_hooks from_timestamp_millis (meter y) m (Some now) with
  | (Recorded, Some n, s) =>
      MkSystem s (in_flight y) (store y)
        (match from_timestamp_millis (bucket_of now) with
         | Some b => recorded y ++ [(key_of n b, measured n)]
         | None => recorded y
         end)
  | (_, _, s) => MkSystem s (in_flight y) (store y) (recorded y)
  end.

(** [Meter::flush], up to the call of the sink: one flush at a time; a pending
    batch is sent again. *)
Definition flush (y : System) (now : Z) : System :=
  match in_flight y with
  | Some _ => y
  | None =>
      if has_work (meter y) then
        match pending_batch (meter y) with
        | Some b => MkSystem (meter y) (Some b) (store y) (recorded y)
        | None =>
            let '(b, s) := capture (meter y) now in MkSystem s b (store y) (recorded y)
        end
      else y
  end.

(** The completion of the flush. *)
Definition complete (y : System) (sink : Sink) (now duration : Z) : System :=
  match in_flight y with
  | None => y
  | Some b =>
      let '(r, st) :=
        match sink with Failed => (None, store y) | _ => flush_bandwidth (store y) b end in
      let r := match sink with Answered => r | _ => None end in
      match r with
      | Some result => MkSystem (committed (meter y) result now duration).2 None st (recorded y)
      | None => MkSystem (Meter.failed (meter y) duration) None st (recorded y)
      end
  end.

(** [Meter::close] marks the meter; its flushes are the two steps above. *)
Definition close (y : System) : System :=
  let s := meter y in
  MkSystem (MkState (options s) (buffer s) (pending s) (sequence s) true (stats s))
    (in_flight y) (store y) (recorded y).

Inductive step : System -> System -> Prop :=
| step_record y m now : step y (record y m now)
| step_flush y now : step y (flush y now)
| step_complete y sink now duration : step y (complete y sink now duration)
| step_close y : step y (close y).

Inductive reachable (y0 : System) : System -> Prop :=
| reach_start : reachable y0 y0
| reach_step y y' : reachable y0 y -> step y y' -> reachable y0 y'.

Definition start (s : State) (st : Store) : System := MkSystem s None st [].

(** The sum of the measurements recorded for a key. *)
Fixpoint recorded_for (l : list (Key * (Z * Z))) (k : Key) : Z * Z :=
  match l with
  | [] => (0, 0)
  | (k', x) :: l => plus2 (keyed k' x k) (recorded_for l k)
  end.

Lemma recorded_snoc l k' x k :
  recorded_for (l ++ [(k', x)]) k = plus2 (recorded_for l k) (keyed k' x k).
Proof.
  induction l as [|[k0 x0] l IH]; simpl.
  - unfold plus2. simpl. destruct (keyed k' x k). simpl. f_equal; lia.
  - rewrite IH. unfold plus2. simpl. f_equal; lia.
Qed.

(** The captured rows that the store has applied but the meter still holds. *)
Definition applied_pending (y : System) (k : Key) : Z * Z :=
  match pending (meter y) with
  | Some p =>
      if decide ((meter_id (options (meter y)), sequence (meter y)) ∈ receipts (store y))
      then amount (p_entries p) k
      else (0, 0)
  | None => (0, 0)
  end.

Record sys_inv (base : gmap Key (Z * Z)) (us : gset text) (y : System) : Prop := SysInv {
  si_meter : inv (meter y);
  si_limit : 0 < max_buffered_entries (options (meter y));
  si_users : users (store y) = us;
  si_flight : forall b, in_flight y = Some b -> exists p, pending (meter y) = Some p /\ batch p = b;
  si_receipts : forall n, (meter_id (options (meter y)), n) ∈ receipts (store y) ->
    n <= sequence (meter y);
  si_books : forall k, k.1.1.1 ∈ us ->
    plus2 (bucket (buckets (store y)) k) (amount (buffer (meter y)) k) =
    plus2 (plus2 (bucket base k) (recorded_for (recorded y) k)) (applied_pending y k)
}.

Lemma record_inv base us y m now : sys_inv base us y -> sys_inv base us (record y m now).
Proof.
  intros [Hm Hl Hu Hf Hr Hb]. unfold record, record_with_hooks.
  destruct (Meter.closed (meter y)); [by constructor|].
  destruct (normalize m (Some now)) as [| |n t] eqn:Hn; [by constructor..|].
  apply normalize_ok in Hn as [Hok [= <-]].
  destruct (from_timestamp_millis (bucket_of now)) as [bk|]; [|by constructor].
  pose proof (buffer_measurement_spec (meter y) n bk Hm Hok Hl) as Hs.
  destruct (buffer_measurement (meter y) n bk) as [r s'].
  destruct Hs as (Hi & Ho & Hp & Hq & Hcase). destruct r.
  1, 2: destruct Hcase as (_ & _ & Hbuf); constructor; simpl; rewrite ?Ho, ?Hq, ?Hbuf; try done;
    [by rewrite Hp|]; intros k Hk; unfold applied_pending; simpl; rewrite Hp, Ho, Hq; by apply Hb.
  destruct Hcase as (_ & Ham). constructor; simpl; rewrite ?Ho, ?Hq; try done; [by rewrite Hp|].
  intros k Hk. specialize (Hb k Hk). rewrite Ham, recorded_snoc. unfold applied_pending in *.
  simpl. rewrite Hp, Ho, Hq. unfold plus2 in *. simpl in *. injection Hb as Hb1 Hb2. f_equal; lia.
Qed.

Lemma flush_inv base us y now : sys_inv base us y -> sys_inv base us (flush y now).
Proof.
  intros Hinv. pose proof Hinv as [Hm Hl Hu Hf Hr Hb]. unfold flush.
  destruct (in_flight y) as [b|] eqn:Hin; [done|].
  destruct (has_work (meter y)) eqn:Hwk; [|done]. unfold pending_batch.
  destruct (pending (meter y)) as [p|] eqn:Hp; simpl.
  - constructor; simpl; try done. intros b [= <-]. eauto.
  - pose proof (capture_spec (meter y) now Hm) as Hc.
    destruct (capture (meter y) now) as [r s']. destruct Hc as (Hi & Ho & Hbuf & Hst & Hcase).
    unfold has_work in Hwk. rewrite Hp in Hwk, Hcase. apply negb_true_iff in Hwk. rewrite Hwk in Hcase.
    destruct Hcase as (Hseq & p & Hp' & -> & Hpe).
    constructor; simpl; rewrite ?Ho, ?Hbuf; try done.
    + intros b [= <-]. eauto.
    + intros n Hn%Hr. lia.
    + intros k Hk. rewrite (Hb k Hk). unfold applied_pending. simpl. rewrite Hp, Hp', Ho, Hseq.
      rewrite decide_False; [done|]. intros Hn%Hr. lia.
Qed.

(** What a call of the sink does to the store, for the batch in flight. *)
Definition sink_effect (y : System) (p : Pending) (us : gset text) (r : option FlushResult)
    (st' : Store) : Prop :=
  let receipt := (meter_id (options (meter y)), sequence (meter y)) in
  users st' = us /\
  ((st' = store y /\ (r = None \/ receipt ∈ receipts (store y))) \/
   ((receipt ∉ receipts (store y)) /\ receipts st' = {[receipt]} ∪ receipts (store y) /\
    forall k, k.1.1.1 ∈ us ->
      bucket (buckets st') k = plus2 (bucket (buckets (store y)) k) (amount (p_entries p) k))).

Definition call_sink (y : System) (sink : Sink) (b : FlushBatch) : option FlushResult * Store :=
  match sink with Failed => (None, store y) | _ => flush_bandwidth (store y) b end.

Lemma call_sink_effect base us y sink p :
  sys_inv base us y -> pending (meter y) = Some p ->
  sink_effect y p us (call_sink y sink (batch p)).1 (call_sink y sink (batch p)).2.
Proof.
  intros [Hm Hl Hu Hf Hr Hb] Hp.
  destruct (i_pending _ Hm p Hp) as (P1 & P2 & P3 & P4 & P5 & P6 & P7).
  pose proof (flush_bandwidth_spec (store y) (batch p) (p_entries p) P5 P6 P4 P1) as Hs.
  rewrite P2, P3, Hu in Hs. unfold call_sink, sink_effect.
  destruct sink; [..|split; [done|left; auto]];
    destruct (flush_bandwidth (store y) (batch p)) as [r st']; naive_solver.
Qed.

Lemma receipts_after base us y p r st' n :
  sys_inv base us y -> sink_effect y p us r st' ->
  (meter_id (options (meter y)), n) ∈ receipts st' -> n <= sequence (meter y).
Proof.
  intros Hinv (_ & [(-> & _)|(_ & -> & _)]); [apply (si_receipts _ _ _ Hinv)|].
  intros [Hin|Hin]%elem_of_union; [|by apply (si_receipts _ _ _ Hinv)].
  apply elem_of_singleton in Hin. simplify_eq. lia.
Qed.

Lemma failed_inv base us y p r st' duration :
  sys_inv base us y -> pending (meter y) = Some p -> sink_effect y p us r st' ->
  sys_inv base us (MkSystem (Meter.failed (meter y) duration) None st' (recorded y)).
Proof.
  intros Hinv Hp He. destruct (failed_spec (meter y) duration (si_meter _ _ _ Hinv)) as (F1 & F2 & F3 & F4).
  constructor; simpl; try done.
  - apply (si_limit _ _ _ Hinv).
  - apply He.
  - intros n. by eapply receipts_after.
  - intros k Hk. pose proof (si_books _ _ _ Hinv k Hk) as Hb. unfold applied_pending in *. simpl.
    rewrite Hp in *. destruct He as (_ & [(-> & _)|(Hno & -> & Hbk)]); [exact Hb|].
    rewrite decide_False in Hb by done. rewrite decide_True by set_solver.
    rewrite (Hbk k Hk). unfold plus2 in *. simpl in *. injection Hb as Hb1 Hb2. f_equal; lia.
Qed.

Lemma committed_inv base us y p result st' now duration :
  sys_inv base us y -> pending (meter y) = Some p -> sink_effect y p us (Some result) st' ->
  sys_inv base us (MkSystem (committed (meter y) result now duration).2 None st' (recorded y)).
Proof.
  intros Hinv Hp He.
  pose proof (committed_spec (meter y) p result now duration (si_meter _ _ _ Hinv) Hp) as Hc.
  destruct (committed (meter y) result now duration) as [o s'].
  destruct Hc as (C1 & _ & C2 & C3 & C4 & _ & C5). constructor; simpl; try done.
  - rewrite C3. apply (si_limit _ _ _ Hinv).
  - apply He.
  - intros n. rewrite C3, C4. by eapply receipts_after.
  - intros k Hk. pose proof (si_books _ _ _ Hinv k Hk) as Hb. unfold applied_pending in *. simpl.
    rewrite C2, C5. rewrite Hp in Hb.
    destruct He as (_ & [(-> & [?|Hin])|(Hno & _ & Hbk)]); [done| |].
    + rewrite decide_True in Hb by done. unfold plus2, minus2 in *. simpl in *.
      injection Hb as Hb1 Hb2. f_equal; lia.
    + rewrite decide_False in Hb by done. rewrite (Hbk k Hk). unfold plus2, minus2 in *.
      simpl in *. injection Hb as Hb1 Hb2. f_equal; lia.
Qed.

Lemma complete_inv base us y sink now duration :
  sys_inv base us y -> sys_inv base us (complete y sink now duration).
Proof.
  intros Hinv. unfold complete. destruct (in_flight y) as [b|] eqn:Hin; [|done].
  destruct (si_flight _ _ _ Hinv b Hin) as (p & Hp & <-).
  pose proof (call_sink_effect base us y sink p Hinv Hp) as He. fold (call_sink y sink (batch p)).
  destruct (call_sink y sink (batch p)) as [r st']. simpl in He.
  destruct sink, r as [result|]; by (eapply committed_inv || eapply failed_inv).
Qed.

Lemma reachable_inv base us y0 y : sys_inv base us y0 -> reachable y0 y -> sys_inv base us y.
Proof.
  intros H0. induction 1 as [|y y' _ IH Hs]; [done|].
  destruct Hs; auto using record_inv, flush_inv, complete_inv.
  destruct IH as [[Hw He Hb Ht Hp] Hl Hu Hf Hr Hbk]. constructor; auto. by constructor.
Qed.

Lemma start_inv o s st :
  new o = Some s -> (forall n, (meter_id o, n) ∉ receipts st) ->
  sys_inv (buckets st) (users st) (start s st).
Proof.
  intros Hn Hr. destruct (new_inv o s Hn) as [Hi Hm].
  unfold new in Hn. destruct (_ && _); [|done]. injection Hn as <-. constructor; simpl; try done.
  - intros n Hin. by apply Hr in Hin.
  - intros k _. unfold plus2, applied_pending. simpl. destruct (bucket (buckets st) k). simpl.
    f_equal; lia.
Qed.

(** C1: every recorded byte and operation reaches the store exactly once. From
    a new meter, through any records, flushes, failures, lost answers and
    retries, each key's bucket has grown by what was recorded minus what is
    still buffered (plus the batch that was applied while its answer is
    unknown). With no flush outstanding and an empty buffer it has grown by
    exactly what was recorded. *)
Theorem metering_exactly_once (o : Options) (s : State) (st : Store) (y : System) (k : Key) :
  new o = Some s -> (forall n, (meter_id o, n) ∉ receipts st) -> k.1.1.1 ∈ users st ->
  reachable (start s st) y ->
  plus2 (bucket (buckets (store y)) k) (amount (buffer (meter y)) k) =
    plus2 (plus2 (bucket (buckets st) k) (recorded_for (recorded y) k)) (applied_pending y k) /\
  (has_work (meter y) = false ->
   bucket (buckets (store y)) k = plus2 (bucket (buckets st) k) (recorded_for (recorded y) k)).
Proof.
  intros Hn Hr Hk Hreach.
  pose proof (reachable_inv _ _ _ _ (start_inv o s st Hn Hr) Hreach) as Hinv.
  pose proof (si_books _ _ _ Hinv k Hk) as Hb. split; [done|]. unfold has_work, applied_pending in *.
  destruct (pending (meter y)); [done|]. intros Hw. apply negb_false_iff, bool_decide_eq_true in Hw.
  rewrite Hw in Hb. unfold plus2 in *. simpl in *. injection Hb as Hb1 Hb2.
  destruct (bucket (buckets (store y)) k). simpl in *. f_equal; lia.
Qed.

(** the buffer is bounded and its totals are exact: never more entries than
    the limit, each within the database's integer range and for its own key,
    and the reported buffered bytes are their sum. *)
Theorem meter_totals_exact (o : Options) (s : State) (st : Store) (y : System) :
  new o = Some s -> (forall n, (meter_id o, n) ∉ receipts st) -> reachable (start s st) y ->
  len (buffer (meter y)) <= max_buffered_entries (options (meter y)) /\
  buffered_bytes (stats (meter y)) = total_bytes (buffer (meter y)) /\
  NoDup (buffer (meter y)).*1 /\ Forall entry_ok (buffer (meter y)).
Proof.
  intros Hn Hr Hreach.
  pose proof (si_meter _ _ _ (reachable_inv _ _ _ _ (start_inv o s st Hn Hr) Hreach)) as [? ? ? ? _].
  done.
Qed.

(** a failed or unanswered flush is retried with the identical batch: the
    same rows, capture time, meter and sequence, whatever was recorded since. *)
Theorem retry_sends_same_batch (o : Options) (s : State) (st : Store) (y : System)
    (b : FlushBatch) (sink : Sink) (now duration now' : Z) (ms : list (Measurement * Z)) :
  new o = Some s -> (forall n, (meter_id o, n) ∉ receipts st) -> reachable (start s st) y ->
  in_flight y = Some b -> sink <> Answered ->
  in_flight (flush (foldl (fun y mn => record y mn.1 mn.2) (complete y sink now duration) ms) now')
    = Some b.
Proof.
  intros Hn Hr Hreach Hin Hsink.
  pose proof (reachable_inv _ _ _ _ (start_inv o s st Hn Hr) Hreach) as Hinv.
  destruct (si_flight _ _ _ Hinv b Hin) as (p & Hp & Hb).
  assert (Hrec : forall z m t, pending (meter z) = Some p -> in_flight z = None ->
    pending (meter (record z m t)) = Some p /\ in_flight (record z m t) = None).
  { intros z m t Hz Hi. unfold record, record_with_hooks.
    destruct (Meter.closed (meter z)); [done|]. destruct (normalize m (Some t)); [done..|].
    destruct (from_timestamp_millis _); [|done]. unfold buffer_measurement.
    destruct (IndexMap.get _ _); [destruct (_ || _)|destruct (_ <=? _)]; done. }
  assert (Hall : forall l z, pending (meter z) = Some p -> in_flight z = None ->
    let z' := foldl (fun y mn => record y mn.1 mn.2) z l in
    pending (meter z') = Some p /\ in_flight z' = None).
  { induction l as [|[m t] l IH]; intros z Hz Hi; [done|]. simpl.
    destruct (Hrec z m t Hz Hi). by apply IH. }
  destruct (Hall ms (complete y sink now duration)) as [H1 H2].
  { unfold complete. rewrite Hin. destruct sink; [done| |]; simpl;
      [destruct (flush_bandwidth (store y) b)|]; done. }
  { unfold complete. rewrite Hin. destruct sink; [done| |]; simpl;
      [destruct (flush_bandwidth (store y) b)|]; done. }
  unfold flush. rewrite H2. unfold has_work, pending_batch. rewrite H1. simpl. by rewrite Hb.
Qed.

End service.

(** A run: two measurements, a flush whose answer is lost, a third
    measurement, and two more flushes. *)
Definition sample_options : Options := MkOptions [109] 10 1000 1000.
Definition sample_state : State := MkState sample_options [] None 0 false (MkStats 0 0 0 0 0 None None).
Definition sample_store : Store := MkStore {[ [111] ]} ∅ ∅.
Definition sample_measurement (n : Z) : Measurement :=
  MkMeasurement [32; 111] (Integer n) None "http" "ingress" None.
Definition sample_key : Key := ([111], 0, "http"%string, "ingress"%string).
Definition sample_lost : System :=
  let y := record Some (start sample_state sample_store) (sample_measurement 5) 10 in
  let y := flush (record Some y (sample_measurement 7) 20) 30 in
  record Some (complete y Lost 40 1) (sample_measurement 11) 50.
Definition sample_run : System :=
  let y := complete (flush sample_lost 60) Answered 70 1 in
  complete (flush y 80) Answered 90 1.

Lemma sample_lost_reachable : reachable Some (start sample_state sample_store) sample_lost.
Proof.
  unfold sample_lost. cbv zeta. refine (reach_step _ _ _ _ _ (step_record _ _ _ _)).
  refine (reach_step _ _ _ _ _ (step_complete _ _ _ _ _)).
  refine (reach_step _ _ _ _ _ (step_flush _ _ _)).
  do 2 refine (reach_step _ _ _ _ _ (step_record _ _ _ _)). apply reach_start.
Qed.

Lemma sample_run_reachable : reachable Some (start sample_state sample_store) sample_run.
Proof.
  unfold sample_run. cbv zeta. refine (reach_step _ _ _ _ _ (step_complete _ _ _ _ _)).
  refine (reach_step _ _ _ _ _ (step_flush _ _ _)).
  refine (reach_step _ _ _ _ _ (step_complete _ _ _ _ _)).
  refine (reach_step _ _ _ _ _ (step_flush _ _ _)). exact sample_lost_reachable.
Qed.

Lemma sample_receipts n : (meter_id sample_options, n) ∉ receipts sample_store.
Proof. apply not_elem_of_empty. Qed.

Lemma metering_exactly_once_witness :
  bucket (buckets (store sample_run)) sample_key = (23, 3).
Proof.
  rewrite (proj2 (metering_exactly_once Some sample_options sample_state sample_store sample_run
    sample_key eq_refl sample_receipts ltac:(reflexivity) sample_run_reachable)).
  - vm_compute. reflexivity.
  - vm_compute. reflexivity.
Defined.

Lemma meter_totals_exact_witness :
  buffered_bytes (stats (meter sample_lost)) = total_bytes (buffer (meter sample_lost)).
Proof.
  apply (meter_totals_exact Some sample_options sample_state sample_store sample_lost eq_refl
           sample_receipts sample_lost_reachable).
Defined.

Lemma retry_sends_same_batch_witness :
  in_flight (flush (foldl (fun y mn => record Some y mn.1 mn.2)
                      (complete (flush sample_lost 60) Failed 61 1) [(sample_measurement 4, 62)]) 63)
  = in_flight (flush sample_lost 60).
Proof.
  assert (Hr : reachable Some (start sample_state sample_store) (flush sample_lost 60)).
  { exact (reach_step _ _ _ _ sample_lost_reachable (step_flush _ _ _)). }
  destruct (in_flight (flush sample_lost 60)) as [b|] eqn:Hb; [|vm_compute in Hb; discriminate].
  exact (retry_sends_same_batch Some sample_options sample_state sample_store (flush sample_lost 60)
    b Failed 61 1 63 [(sample_measurement 4, 62)] eq_refl sample_receipts Hr Hb ltac:(discriminate)).
Defined.

End Service.
