(* ===== verification/LiveTraffic.v ===== *)
(** * Live traffic samples

    [LiveTraffic] models src/cantrip_server_rs/src/usage/live_traffic.rs: per owner,
    the traffic of the last ten minutes in samples of a quarter of a second, and
    the snapshots clients poll with a cursor. Proved: the tables stay within their
    limits, and a client that merges what it polls has the samples of the server.
    Clocks are whole milliseconds; the constants are those of
    contracts/resource-usage.json. *)
From S2P Require Import Prelude Meter.
From stdpp Require Import base numbers strings gmap option list.
Open Scope Z_scope.

Module LiveTraffic.
Import Text Meter.

Definition INTERVAL_MS : Z := 250.
Definition MAX_SAMPLES : Z := 2400.
Definition WINDOW_SECONDS : Z := 600.
Definition ROUTE : text := lit "/api/account/live-traffic".

Record Options := MkOptions { o_epoch : text; o_instance_id : text; o_max_owners : Z; o_retention : Z }.
Record Query := MkQuery { after : option text; q_epoch : option text }.

Record Bucket := MkBucket { download : Z; http : Z; b_revision : Z; upload : Z; websocket_download : Z; websocket_upload : Z }.
Definition empty : Bucket := MkBucket 0 0 0 0 0 0.
Record Owner := MkOwner { buckets : list (Z * Bucket); last_access_second : Z; last_pruned : Z; revision : Z }.
Record LiveTrafficMeter := MkMeter { epoch : text; instance_id : text; owners : list (text * Owner); max_owners : Z; retention : Z; last_eviction_second : Z }.
Definition set_owners (x : list (text * Owner)) (s : LiveTrafficMeter) : LiveTrafficMeter :=
  MkMeter (epoch s) (instance_id s) x (max_owners s) (retention s) (last_eviction_second s).

Definition add (current increment : Z) : Z := Z.min (current + increment) MAX_SAFE_INTEGER.
Definition safe (c : Counter) : option Z :=
  match c with
  | Integer v => if 0 <=? v then Some (Z.min v MAX_SAFE_INTEGER) else None
  | Number f => match float_integer f with Some v => if (0 <=? v) && (v <=? MAX_SAFE_INTEGER) then Some v else None | None => None end
  end.
Definition valid_owner (o : text) : bool := negb (bool_decide (o = [])) && (utf16_count o <=? 200).

(** The first colon. *)
Fixpoint split_colon (s : text) : option (text * text) :=
  match s with [] => None | c :: s => if c =? 58 then Some ([], s) else '(a, b) ← split_colon s; Some (c :: a, b) end.
Definition line_terminator (c : Z) : bool := (c =? 10) || (c =? 13) || (c =? 0x2028) || (c =? 0x2029).
Definition strip_terminator (s : text) : text := match last s with Some c => if line_terminator c then take (length s - 1) s else s | None => s end.
Definition all_digits (s : text) : bool := negb (bool_decide (s = [])) && forallb is_digit s.
(** Integers above the safe ones read as [f64] stay above them. *)
Definition cursor (value : text) : option (Z * Z) :=
  '(sample, rev) ← split_colon (strip_terminator value);
  if all_digits sample && all_digits rev && (digits_value sample <=? MAX_SAFE_INTEGER) && (digits_value rev <=? MAX_SAFE_INTEGER)
  then Some (digits_value sample, digits_value rev) else None.
Definition print_cursor (index rev : Z) : text := decimal index ++ 58 :: decimal rev.

Definition new (o : Options) : option LiveTrafficMeter :=
  let id := trim (o_instance_id o) in
  if valid_owner id && (utf16_count id <=? 100) && (0 <? o_max_owners o) && (o_max_owners o <=? MAX_SAFE_INTEGER)
     && (WINDOW_SECONDS <=? o_retention o) && (o_retention o <=? MAX_SAFE_INTEGER)
  then Some (MkMeter (o_epoch o) id [] (o_max_owners o) (o_retention o) (-1)) else None.

Definition index_of (now : Z) : Z := now / INTERVAL_MS.
Definition second_of (index : Z) : Z := index * INTERVAL_MS / 1000.

(** ** Owners *)

Definition evict (second : Z) (s : LiveTrafficMeter) : LiveTrafficMeter :=
  if last_eviction_second s =? second then s
  else MkMeter (epoch s) (instance_id s) (filter (fun p => second - retention s <= last_access_second p.2) (owners s)) (max_owners s) (retention s) second.

(** The owner that was not seen for longest, the first of them. *)
Fixpoint oldest (best : option (text * Z)) (os : list (text * Owner)) : option (text * Z) :=
  match os with
  | [] => best
  | (o, x) :: os => oldest (match best with Some (_, t) => if last_access_second x <? t then Some (o, last_access_second x) else best | None => Some (o, last_access_second x) end) os
  end.

(** The owners that stay when one is asked for. *)
Definition make_room (o : text) (index : Z) (s : LiveTrafficMeter) : LiveTrafficMeter :=
  let s := evict (second_of index) s in
  if negb (IndexMap.contains_key o (owners s)) && (max_owners s <=? len (owners s))
  then match oldest None (owners s) with Some (victim, _) => set_owners (IndexMap.shift_remove victim (owners s)) s | None => s end
  else s.

Definition touch (second : Z) (x : Owner) : Owner := MkOwner (buckets x) second (last_pruned x) (revision x).
Definition fresh_owner : Owner := MkOwner [] 0 (-1) 0.

(** [owner]: the entry and the meter without its changes. *)
Definition owner (o : text) (index : Z) (s : LiveTrafficMeter) : option (Owner * LiveTrafficMeter) :=
  if valid_owner o then
    let s := make_room o index s in
    let x := touch (second_of index) (default fresh_owner (IndexMap.get o (owners s))) in
    Some (x, set_owners (IndexMap.insert o x (owners s)) s)
  else None.

Definition prune (index : Z) (x : Owner) : Owner :=
  if last_pruned x =? index then x
  else MkOwner (filter (fun p => index - MAX_SAMPLES + 1 <= p.1 /\ p.1 <= index) (buckets x)) (last_access_second x) index (revision x).

(** A change of the bucket of a sample, with a new revision. *)
Definition hit (index : Z) (f : Bucket -> Bucket) (x : Owner) : Owner :=
  let rev := add (revision x) 1 in
  let x := prune index x in
  let b := default empty (IndexMap.get index (buckets x)) in
  let b := f (MkBucket (download b) (http b) rev (upload b) (websocket_download b) (websocket_upload b)) in
  MkOwner (IndexMap.insert index b (buckets x)) (last_access_second x) (last_pruned x) rev.

Inductive Refusal := InvalidClock | InvalidOwner | InvalidTime.

Definition hit_owner (o : text) (index : Z) (f : Bucket -> Bucket) (s : LiveTrafficMeter) : (bool + Refusal) * LiveTrafficMeter :=
  match owner o index s with
  | None => (inr InvalidOwner, s)
  | Some (x, s) => (inl true, set_owners (IndexMap.insert o (hit index f x) (owners s)) s)
  end.

Definition is_websocket (channel : string) : bool := bool_decide (channel = "client-live-websocket"%string) || bool_decide (channel = "worker-control-websocket"%string).
Definition count (ingress websocket : bool) (bytes operations : Z) (b : Bucket) : Bucket :=
  if ingress
  then MkBucket (download b) (http b) (b_revision b) (add (upload b) bytes) (websocket_download b) (if websocket then add (websocket_upload b) operations else websocket_upload b)
  else MkBucket (add (download b) bytes) (http b) (b_revision b) (upload b) (if websocket then add (websocket_download b) operations else websocket_download b) (websocket_upload b).

Definition record (m : Measurement) (now : Z) (s : LiveTrafficMeter) : (bool + Refusal) * LiveTrafficMeter :=
  let o := trim (m_owner_id m) in
  match safe (m_bytes m), from_option safe (Some 1) (m_operation_count m) with
  | Some bytes, Some operations =>
      if negb (valid_owner o) || negb (bool_decide (m_direction m = "ingress"%string) || bool_decide (m_direction m = "egress"%string)) then (inl false, s)
      else if (bytes =? 0) && (operations =? 0) then (inl true, s)
      else if now <? 0 then (inr InvalidClock, s)
      else hit_owner o (index_of now) (count (bool_decide (m_direction m = "ingress"%string)) (is_websocket (m_channel m)) bytes operations) s
  | _, _ => (inl false, s)
  end.

Definition count_request (b : Bucket) : Bucket := MkBucket (download b) (add (http b) 1) (b_revision b) (upload b) (websocket_download b) (websocket_upload b).
Definition record_http_request (o route : text) (now : Z) (s : LiveTrafficMeter) : (bool + Refusal) * LiveTrafficMeter :=
  let o := trim o in
  if negb (valid_owner o) || bool_decide (route = ROUTE) then (inl false, s)
  else if now <? 0 then (inr InvalidClock, s)
  else hit_owner o (index_of now) count_request s.

Definition owner_count (now : Z) (s : LiveTrafficMeter) : (Z + Refusal) * LiveTrafficMeter :=
  if now <? 0 then (inr InvalidClock, s) else let s := evict (now / 1000) s in (inl (len (owners s)), s).

(** ** Snapshots *)

Record Sample := MkSample { s_upload : Z; s_download : Z; s_http : Z; s_websocket_upload : Z; s_websocket_download : Z; s_websocket_total : Z }.
Definition sample (b : option Bucket) : Sample :=
  let b := default empty b in MkSample (upload b) (download b) (http b) (websocket_upload b) (websocket_download b) (add (websocket_upload b) (websocket_download b)).

(** The answer without its constants; [samples] has the sample a timestamp stands
    for, and [generated_at] the milliseconds. *)
Record Snapshot := MkSnapshot { s_epoch : text; s_instance_id : text; generated_at : Z; reset : bool; at_cursor : text; current : Sample; samples : list (Z * Sample) }.

Definition iso_ok (ms : Z) : bool := Z.abs ms <=? 8640000000000000.

(** The samples from [start] on; one may be left out. *)
Fixpoint collect (n : nat) (start : Z) (skip : Z -> bool) (x : Owner) : list (Z * Sample) :=
  match n with
  | O => []
  | S n => (if skip start then [] else [(start, sample (IndexMap.get start (buckets x)))]) ++ collect n (start + 1) skip x
  end.

Definition requested (q : Query) : option text := match after q with Some v => if bool_decide (v = []) then None else Some v | None => None end.

Definition view (q : Query) (now : Z) (x : Owner) (s : LiveTrafficMeter) : Snapshot :=
  let index := index_of now in
  let e := epoch s in
  let window_start := index - MAX_SAMPLES + 1 in
  let wanted := requested q ≫= cursor in
  let stale := match wanted with Some (k, rev) => (k <? window_start - 1) || (index <? k) || (revision x <? rev) | None => true end in
  let reset := match q_epoch q with Some v => negb (bool_decide (v = [])) && negb (bool_decide (v = e)) | None => false end || (bool_decide (is_Some (requested q)) && stale) in
  let incremental := bool_decide (is_Some (requested q)) && bool_decide (q_epoch q = Some e) && bool_decide (is_Some wanted) && negb reset in
  let start := if incremental then Z.max window_start (from_option fst 0 wanted) else window_start in
  let skip k := incremental && match wanted with Some (k0, rev) => (k =? k0) && (from_option b_revision 0 (IndexMap.get k (buckets x)) <=? rev) | None => false end in
  MkSnapshot e (instance_id s) now reset (print_cursor index (revision x)) (sample (IndexMap.get index (buckets x))) (collect (Z.to_nat (index - start + 1)) start skip x).

Definition snapshot (o : text) (q : Query) (now : Z) (s : LiveTrafficMeter) : (Snapshot + Refusal) * LiveTrafficMeter :=
  if now <? 0 then (inr InvalidClock, s)
  else
    match owner (trim o) (index_of now) s with
    | None => (inr InvalidOwner, s)
    | Some (x, s) => if iso_ok now then (inl (view q now x s), s) else (inr InvalidTime, s)
    end.
(** ** The limits *)

Definition counters (b : Bucket) : list Z := [download b; http b; upload b; websocket_download b; websocket_upload b].
Definition fits (x : Owner) (p : Z * Bucket) : Prop :=
  last_pruned x - MAX_SAMPLES < p.1 <= last_pruned x /\ b_revision p.2 <= revision x /\ Forall (fun v => 0 <= v <= MAX_SAFE_INTEGER) (counters p.2).
Record owner_wf (x : Owner) : Prop := MkOwnerWf {
  ow_keys : IndexMap.wf (buckets x);
  ow_fits : Forall (fits x) (buckets x);
  ow_revision : 0 <= revision x <= MAX_SAFE_INTEGER }.
Record wf (s : LiveTrafficMeter) : Prop := MkWf {
  w_keys : IndexMap.wf (owners s);
  w_owners : Forall (fun p => owner_wf p.2) (owners s);
  w_room : len (owners s) <= max_owners s;
  w_some : 0 < max_owners s;
  w_retention : WINDOW_SECONDS <= retention s }.

(** Changes that keep the counters in range. *)
Definition bounded_change (f : Bucket -> Bucket) : Prop :=
  forall b, Forall (fun v => 0 <= v <= MAX_SAFE_INTEGER) (counters b) -> Forall (fun v => 0 <= v <= MAX_SAFE_INTEGER) (counters (f b)) /\ b_revision (f b) = b_revision b.

Lemma add_range a b : 0 <= a <= MAX_SAFE_INTEGER -> 0 <= b -> 0 <= add a b <= MAX_SAFE_INTEGER.
Proof. unfold add, MAX_SAFE_INTEGER. lia. Qed.

Lemma safe_range c v : safe c = Some v -> 0 <= v <= MAX_SAFE_INTEGER.
Proof.
  unfold safe. destruct c as [f|z]; [|destruct (0 <=? z) eqn:E; [|done]; intros [= <-]; unfold MAX_SAFE_INTEGER; lia].
  destruct (float_integer f) as [z|]; [|done]. destruct (_ && _) eqn:E; [|done]. intros [= <-]. reflect_bools. lia.
Qed.

Lemma count_bounded i w n k : 0 <= n -> 0 <= k -> bounded_change (count i w n k).
Proof.
  intros Hn Hk b Hb. split; [|by destruct i]. unfold counters in *. rewrite !Forall_cons in Hb. destruct Hb as (H1 & H2 & H3 & H4 & H5 & _).
  pose proof (add_range (upload b) n H3 Hn). pose proof (add_range (download b) n H1 Hn).
  pose proof (add_range (websocket_upload b) k H5 Hk). pose proof (add_range (websocket_download b) k H4 Hk).
  destruct i, w; simpl; rewrite !Forall_cons; auto 10.
Qed.

Lemma request_bounded : bounded_change count_request.
Proof.
  intros b Hb. split; [|done]. unfold counters in *. rewrite !Forall_cons in Hb. destruct Hb as (H1 & H2 & H3 & H4 & H5 & _).
  simpl. rewrite !Forall_cons. pose proof (add_range (http b) 1 H2). auto 10 with lia.
Qed.

Lemma prune_wf i x : owner_wf x -> IndexMap.wf (buckets (prune i x)) /\ Forall (fits (prune i x)) (buckets (prune i x)) /\ last_pruned (prune i x) = i /\ revision (prune i x) = revision x.
Proof.
  intros [Hk Hf Hr]. unfold prune. destruct (last_pruned x =? i) eqn:E; [reflect_bools; done|]. cbn. split; [by apply IndexMap.wf_filter|]. split; [|done].
  rewrite Forall_forall in *. intros p [Hp Hin]%list_elem_of_filter. destruct (Hf p Hin) as (_ & H2 & H3). split; [|done]. cbn. lia.
Qed.

Lemma hit_wf i f x : bounded_change f -> owner_wf x -> owner_wf (hit i f x).
Proof.
  intros Hf Hx. pose proof Hx as [_ _ Hr]. destruct (prune_wf i x Hx) as (Hk & Hp & El & Er).
  assert (revision x <= add (revision x) 1 <= MAX_SAFE_INTEGER) as Hup by (unfold add; lia).
  unfold hit. split; cbn; [by apply IndexMap.wf_insert| |lia]. rewrite Forall_forall in *. intros p [->|Hin]%IndexMap.elem_of_insert.
  - split; [cbn; unfold MAX_SAMPLES; lia|]. cbn [snd revision].
    set (b := default empty _). destruct (Hf (MkBucket (download b) (http b) (add (revision x) 1) (upload b) (websocket_download b) (websocket_upload b))) as [H1 H2]; [|by rewrite H2].
    subst b. destruct (IndexMap.get i (buckets (prune i x))) as [b|] eqn:G; cbn; [|unfold counters; cbn; repeat constructor; unfold MAX_SAFE_INTEGER; lia].
    by destruct (Hp _ (IndexMap.get_In _ _ _ G)) as (_ & _ & H3).
  - destruct (Hp p Hin) as (H1 & H2 & H3). split; [exact H1|]. split; [cbn; lia|done].
Qed.

Lemma touch_wf t x : owner_wf x -> owner_wf (touch t x).
Proof. intros [H1 H2 H3]. by split. Qed.

Lemma fresh_wf : owner_wf fresh_owner.
Proof. split; cbn; [apply IndexMap.wf_nil|constructor|unfold MAX_SAFE_INTEGER; lia]. Qed.

Lemma fits_length x : owner_wf x -> len (buckets x) <= MAX_SAMPLES.
Proof.
  intros [Hk Hf _]. assert (IndexMap.keys (buckets x) ⊆+ seqZ (last_pruned x - MAX_SAMPLES + 1) MAX_SAMPLES) as Hs.
  { apply NoDup_submseteq; [exact Hk|]. intros k ([k' b] & -> & Hin)%list_elem_of_fmap. rewrite Forall_forall in Hf. destruct (Hf _ Hin) as [H _]. apply elem_of_seqZ. cbn in *. lia. }
  apply submseteq_length in Hs. unfold IndexMap.keys in Hs. rewrite length_fmap, length_seqZ in Hs. unfold MAX_SAMPLES in *. lia.
Qed.

(** ** What the meter does to its owners *)

Lemma filter_keeps_all {A} (P Q : A -> Prop) `{!forall x, Decision (P x)} l : Forall Q l -> Forall Q (filter P l).
Proof. rewrite !Forall_forall. intros HQ x [_ Hx]%list_elem_of_filter. auto. Qed.

Lemma traffic_new_wf o s : new o = Some s -> wf s.
Proof. unfold new. destruct (_ && _) eqn:E; [|done]. intros [= <-]. reflect_bools. split; cbn; [apply IndexMap.wf_nil|constructor|lia|done|done]. Qed.

Lemma evict_wf t s : wf s -> wf (evict t s).
Proof.
  intros [H1 H2 H3 H4 H5]. unfold evict. destruct (_ =? _); [done|]. split; cbn; [by apply IndexMap.wf_filter|by apply filter_keeps_all| |done|done].
  match goal with |- context [filter ?P ?l] => pose proof (length_filter P l) end. lia.
Qed.

Lemma oldest_in os : forall best v t, oldest best os = Some (v, t) -> best = Some (v, t) \/ v ∈ IndexMap.keys os.
Proof.
  induction os as [|[o x] os IH]; cbn; intros best v t H; [by left|]. apply IH in H as [H|H]; [|right; set_solver].
  destruct best as [[o' t']|]; [|simplify_eq; right; set_solver]. destruct (_ <? _); simplify_eq; [right; set_solver|by left].
Qed.

Lemma oldest_some os : forall best, (is_Some best \/ os <> []) -> is_Some (oldest best os).
Proof.
  induction os as [|[o x] os IH]; cbn; intros best H; [by destruct H|]. apply IH. left. destruct best as [[o' t']|]; [|done]. by destruct (_ <? _).
Qed.

(** There is a place for [o] afterwards, and nothing but the clocks and the victim changed. *)
Lemma make_room_wf o i s : wf s -> wf (make_room o i s) /\ (IndexMap.get o (owners (make_room o i s)) = None -> len (owners (make_room o i s)) < max_owners (make_room o i s)).
Proof.
  intros Hw. apply (evict_wf (second_of i)) in Hw. unfold make_room. generalize dependent (evict (second_of i) s). clear s. intros s Hw. pose proof Hw as [H1 H2 H3 H4 H5].
  unfold IndexMap.contains_key. destruct (IndexMap.get o (owners s)) as [x|] eqn:G; cbn; [by rewrite G|].
  destruct (max_owners s <=? len (owners s)) eqn:E; [|split; [done|reflect_bools; lia]]. reflect_bools.
  destruct (oldest None (owners s)) as [[v t]|] eqn:O.
  - apply oldest_in in O as [|O]; [done|]. destruct (IndexMap.get v (owners s)) as [x|] eqn:Gv; [|by apply IndexMap.get_None in Gv].
    pose proof (IndexMap.length_remove_present v x (owners s) H1 Gv) as L. split; [|cbn; lia].
    split; cbn; [by apply IndexMap.wf_remove|by apply filter_keeps_all|lia|done|done].
  - exfalso. destruct (oldest_some (owners s) None) as [z Hz]; [|congruence]. right. intros Hn. rewrite Hn in E. cbn in E. lia.
Qed.

Lemma put_wf o x s : wf s -> owner_wf x -> (IndexMap.get o (owners s) = None -> len (owners s) < max_owners s) -> wf (set_owners (IndexMap.insert o x (owners s)) s).
Proof.
  intros [H1 H2 H3 H4 H5] Hx Hn. split; cbn; [by apply IndexMap.wf_insert| | |done|done].
  - rewrite Forall_forall in *. intros p [->|Hp]%IndexMap.elem_of_insert; auto.
  - destruct (IndexMap.get o (owners s)) eqn:G; [by erewrite IndexMap.length_insert_present|]. specialize (Hn eq_refl). rewrite IndexMap.length_insert_absent by done. lia.
Qed.

Lemma traffic_entry_wf o x s : wf s -> IndexMap.get o (owners s) = Some x -> owner_wf x.
Proof. intros [_ H _ _ _] G. rewrite Forall_forall in H. exact (H _ (IndexMap.get_In _ _ _ G)). Qed.

Lemma owner_keeps_wf o i s x s' : wf s -> owner o i s = Some (x, s') -> wf s' /\ owner_wf x /\ IndexMap.get o (owners s') = Some x.
Proof.
  intros Hw. unfold owner. destruct (valid_owner o); [|done]. intros [= <- <-]. destruct (make_room_wf o i s Hw) as [Hw' Hn].
  assert (owner_wf (touch (second_of i) (default fresh_owner (IndexMap.get o (owners (make_room o i s)))))) as Hx.
  { apply touch_wf. destruct (IndexMap.get o _) eqn:G; [by eapply traffic_entry_wf|apply fresh_wf]. }
  split; [by apply put_wf|]. split; [done|]. apply IndexMap.get_insert_eq.
Qed.

Lemma hit_owner_wf o i f s : bounded_change f -> wf s -> wf (hit_owner o i f s).2.
Proof.
  intros Hf Hw. unfold hit_owner. destruct (owner o i s) as [[x s']|] eqn:E; [|done]. destruct (owner_keeps_wf _ _ _ _ _ Hw E) as (Hw' & Hx & G).
  cbn. apply put_wf; [done|by apply hit_wf|congruence].
Qed.

(** ** Events, and what they should amount to *)

Inductive Change := Traffic (ingress websocket : bool) (bytes operations : Z) | HttpRequest.
Definition apply (c : Change) : Bucket -> Bucket :=
  match c with Traffic i w n k => count i w n k | HttpRequest => count_request end.
Definition sound (c : Change) : Prop := match c with Traffic _ _ n k => 0 <= n /\ 0 <= k | HttpRequest => True end.

Inductive Event := RecordEvent (m : Measurement) | RequestEvent (o route : text) | CountEvent | SnapshotEvent (o : text) (q : Query).
Definition step (ev : Event) (now : Z) (s : LiveTrafficMeter) : LiveTrafficMeter :=
  match ev with
  | RecordEvent m => (record m now s).2
  | RequestEvent o route => (record_http_request o route now s).2
  | CountEvent => (owner_count now s).2
  | SnapshotEvent o q => (snapshot o q now s).2
  end.

(** What an event adds to the traffic of [o], with its sample. *)
Definition noted (o : text) (ev : Event) (now : Z) (s : LiveTrafficMeter) : list (Z * Change) :=
  match ev with
  | RecordEvent m =>
      match safe (m_bytes m), from_option safe (Some 1) (m_operation_count m), (record m now s).1 with
      | Some n, Some k, inl true =>
          if bool_decide (trim (m_owner_id m) = o) && (0 <? n + k) then [(index_of now, Traffic (bool_decide (m_direction m = "ingress"%string)) (is_websocket (m_channel m)) n k)] else []
      | _, _, _ => []
      end
  | RequestEvent o' route =>
      match (record_http_request o' route now s).1 with inl true => if bool_decide (trim o' = o) then [(index_of now, HttpRequest)] else [] | _ => [] end
  | _ => []
  end.

Definition cap (v : Z) : Z := Z.min v MAX_SAFE_INTEGER.
Definition total (f : Change -> Z) (log : list (Z * Change)) (k : Z) : Z := sumZ ((fun p => if p.1 =? k then f p.2 else 0) <$> log).
Definition uploaded (c : Change) : Z := match c with Traffic true _ n _ => n | _ => 0 end.
Definition downloaded (c : Change) : Z := match c with Traffic false _ n _ => n | _ => 0 end.
Definition requests (c : Change) : Z := match c with HttpRequest => 1 | _ => 0 end.
Definition sent_up (c : Change) : Z := match c with Traffic true true _ k => k | _ => 0 end.
Definition sent_down (c : Change) : Z := match c with Traffic false true _ k => k | _ => 0 end.
(** The sample a log gives. *)
Definition spent (log : list (Z * Change)) (k : Z) : Sample :=
  MkSample (cap (total uploaded log k)) (cap (total downloaded log k)) (cap (total requests log k)) (cap (total sent_up log k)) (cap (total sent_down log k)) (cap (total sent_up log k + total sent_down log k)).

Lemma total_snoc f log j c k : total f (log ++ [(j, c)]) k = total f log k + (if j =? k then f c else 0).
Proof. unfold total. rewrite fmap_app, sumZ_app. cbn. lia. Qed.

Lemma change_total_cons f log i c k : total f ((i, c) :: log) k = (if i =? k then f c else 0) + total f log k.
Proof. done. Qed.

Lemma total_nonneg f log k : (forall c, sound c -> 0 <= f c) -> Forall (fun p => sound p.2) log -> 0 <= total f log k.
Proof. intros Hf H. induction H as [|[i c] log Hc _ IH]; [done|]. rewrite change_total_cons. specialize (Hf c Hc). destruct (i =? k); lia. Qed.

Lemma total_past f log k : Forall (fun p => p.1 <> k) log -> total f log k = 0.
Proof. intros H. induction H as [|[i c] log Hc _ IH]; [done|]. rewrite change_total_cons, IH. destruct (i =? k) eqn:E; [reflect_bools; done|lia]. Qed.

Lemma spent_past log k : Forall (fun p => p.1 <> k) log -> spent log k = sample None.
Proof. intros H. unfold spent. by rewrite !total_past by done. Qed.

Lemma spent_other log j c k : j <> k -> spent (log ++ [(j, c)]) k = spent log k.
Proof. intros. unfold spent. rewrite !total_snoc. destruct (j =? k) eqn:E; [reflect_bools; done|]. by rewrite !Z.add_0_r. Qed.

(** A change of a bucket is a change of the log. *)
Lemma apply_spent log k c r b :
  Forall (fun p => sound p.2) log -> sound c -> sample b = spent log k ->
  let b := default empty b in
  sample (Some (apply c (MkBucket (download b) (http b) r (upload b) (websocket_download b) (websocket_upload b)))) = spent (log ++ [(k, c)]) k.
Proof.
  intros Hl Hc Hs. unfold spent in *. rewrite !total_snoc, Z.eqb_refl. unfold sample in Hs. cbn zeta in *. generalize dependent (default empty b). clear b. intros b Hs.
  injection Hs as E1 E2 E3 E4 E5 _.
  pose proof (total_nonneg sent_up log k ltac:(intros [[] [] ? ?|]; cbn; intros; lia) Hl). pose proof (total_nonneg sent_down log k ltac:(intros [[] [] ? ?|]; cbn; intros; lia) Hl).
  destruct c as [[] [] n m|]; cbn in *; rewrite E1, E2, E3, E4, E5; unfold sample; cbn; unfold add, cap, MAX_SAFE_INTEGER; f_equal; lia.
Qed.

(** ** The entry of one owner through an operation *)

Definition entry (o : text) (s : LiveTrafficMeter) : option Owner := IndexMap.get o (owners s).
Definition bucket_at (k : Z) (e : option Owner) : option Bucket := e ≫= fun x => IndexMap.get k (buckets x).

(** The place of [o] is given to [o']. *)
Definition crowded_out (o o' : text) (index : Z) (s : LiveTrafficMeter) : bool :=
  let s := evict (second_of index) s in
  negb (IndexMap.contains_key o' (owners s)) && (max_owners s <=? len (owners s)) && match oldest None (owners s) with Some (v, _) => bool_decide (v = o) | None => false end.
Definition subject (ev : Event) : option text :=
  match ev with RecordEvent m => Some (trim (m_owner_id m)) | RequestEvent o _ | SnapshotEvent o _ => Some (trim o) | CountEvent => None end.

Definition aged (j : Z) (e e' : option Owner) : Prop :=
  e' = e \/ exists x, e = Some x /\ e' = None /\ last_access_second x + WINDOW_SECONDS < second_of j.

Lemma evict_entry o j s : wf s -> aged j (entry o s) (entry o (evict (second_of j) s)).
Proof.
  intros [Hk _ _ _ Hr]. unfold evict, entry. destruct (_ =? _); [by left|]. cbn. rewrite IndexMap.get_filter by done.
  destruct (IndexMap.get o (owners s)) as [x|]; [|by left]. cbn. destruct (decide _) as [|Hn]; [by left|]. right. exists x. split; [done|]. split; [done|]. cbn in Hn. lia.
Qed.

Lemma room_entry o o' j s : crowded_out o o' j s = false -> entry o (make_room o' j s) = entry o (evict (second_of j) s).
Proof.
  unfold crowded_out, make_room, entry. cbn zeta. destruct (negb _ && _); [|done]. cbn. destruct (oldest _ _) as [[v t]|]; [|done]. intros Hv. cbn. apply bool_decide_eq_false in Hv. by apply IndexMap.get_remove_ne.
Qed.

Lemma owner_entry o o' j s x s' : wf s -> crowded_out o o' j s = false -> owner o' j s = Some (x, s') ->
  exists e', aged j (entry o s) e' /\ if decide (o = o') then x = touch (second_of j) (default fresh_owner e') /\ entry o s' = Some x else entry o s' = e'.
Proof.
  intros Hw Hc. unfold owner. destruct (valid_owner o'); [|done]. intros [= <- <-]. exists (entry o (evict (second_of j) s)).
  split; [by apply evict_entry|]. rewrite <- (room_entry o o' j s Hc). destruct (decide (o = o')) as [->|Hn]; unfold entry; cbn; [|by apply IndexMap.get_insert_ne].
  split; [done|]. apply IndexMap.get_insert_eq.
Qed.

(** What an operation at sample [j] leaves of an entry: it aged, was touched, or was changed. *)
Inductive moved (j : Z) (e : option Owner) : list (Z * Change) -> option Owner -> Prop :=
| moved_not : moved j e [] e
| moved_aged e' : aged j e e' -> moved j e [] e'
| moved_touched e' : aged j e e' -> moved j e [] (Some (touch (second_of j) (default fresh_owner e')))
| moved_hit e' c : aged j e e' -> sound c -> moved j e [(j, c)] (Some (hit j (apply c) (touch (second_of j) (default fresh_owner e')))).

Lemma hit_owner_entry o o' j c s : wf s -> crowded_out o o' j s = false -> sound c ->
  match (hit_owner o' j (apply c) s).1 with
  | inl true => moved j (entry o s) (if decide (o = o') then [(j, c)] else []) (entry o (hit_owner o' j (apply c) s).2)
  | _ => (hit_owner o' j (apply c) s).2 = s
  end.
Proof.
  intros Hw Hc Hs. unfold hit_owner. destruct (owner o' j s) as [[x s']|] eqn:E; [|done]. cbn.
  destruct (owner_entry o o' j s x s' Hw Hc E) as (e' & Ha & H). unfold entry. cbn. destruct (decide (o = o')) as [->|Hn].
  - rewrite IndexMap.get_insert_eq. destruct H as [-> _]. by apply moved_hit.
  - rewrite IndexMap.get_insert_ne by done. unfold entry in H. rewrite H. by apply moved_aged.
Qed.

Definition spared (o : text) (ev : Event) (now : Z) (s : LiveTrafficMeter) : Prop :=
  match subject ev with Some o' => crowded_out o o' (index_of now) s = false | None => True end.

Lemma second_now now : second_of (index_of now) = now / 1000.
Proof. unfold second_of, index_of, INTERVAL_MS. Z.to_euclidean_division_equations. lia. Qed.

Lemma measured_range m n k : safe (m_bytes m) = Some n -> from_option safe (Some 1) (m_operation_count m) = Some k -> 0 <= n /\ 0 <= k.
Proof.
  intros Hn%safe_range Hk. split; [lia|]. destruct (m_operation_count m); cbn in Hk; [apply safe_range in Hk; lia|simplify_eq; lia].
Qed.

Lemma record_moved o m now s : wf s -> spared o (RecordEvent m) now s -> moved (index_of now) (entry o s) (noted o (RecordEvent m) now s) (entry o (step (RecordEvent m) now s)).
Proof.
  intros Hw Hc. unfold spared in Hc. cbn [subject step noted] in *. unfold record. destruct (safe (m_bytes m)) as [n|] eqn:En; [|apply moved_not].
  destruct (from_option safe (Some 1) (m_operation_count m)) as [k|] eqn:Ek; [|apply moved_not].
  destruct (measured_range m n k En Ek) as [Hn Hk].
  destruct (negb (valid_owner _) || _) eqn:E1; [apply moved_not|]. destruct ((n =? 0) && (k =? 0)) eqn:E2.
  { reflect_bools. subst. cbn. rewrite andb_false_r. apply moved_not. }
  destruct (now <? 0); [apply moved_not|]. set (c := Traffic (bool_decide (m_direction m = "ingress"%string)) (is_websocket (m_channel m)) n k).
  pose proof (hit_owner_entry o _ _ c s Hw Hc (conj Hn Hk)) as H. change (count _ _ n k) with (apply c). replace (0 <? n + k) with true by (symmetry; apply Z.ltb_lt; apply andb_false_iff in E2; lia).
  destruct (hit_owner _ _ (apply c) s) as [[[]|r] s'] eqn:E; cbn in *; [|subst; apply moved_not|subst; apply moved_not].
  rewrite andb_true_r. destruct (decide (o = trim (m_owner_id m))); [rewrite bool_decide_true by done|rewrite bool_decide_false by done]; done.
Qed.

Lemma request_moved o o' route now s : wf s -> spared o (RequestEvent o' route) now s -> moved (index_of now) (entry o s) (noted o (RequestEvent o' route) now s) (entry o (step (RequestEvent o' route) now s)).
Proof.
  intros Hw Hc. unfold spared in Hc. cbn [subject step noted] in *. unfold record_http_request.
  destruct (negb (valid_owner _) || _); [apply moved_not|]. destruct (now <? 0); [apply moved_not|].
  pose proof (hit_owner_entry o _ _ HttpRequest s Hw Hc I) as H. change count_request with (apply HttpRequest).
  destruct (hit_owner _ _ (apply HttpRequest) s) as [[[]|r] s'] eqn:E; cbn in *; [|subst; apply moved_not|subst; apply moved_not].
  destruct (decide (o = trim o')); [rewrite bool_decide_true by done|rewrite bool_decide_false by done]; done.
Qed.

Lemma step_moved o ev now s : wf s -> spared o ev now s -> moved (index_of now) (entry o s) (noted o ev now s) (entry o (step ev now s)).
Proof.
  intros Hw Hc. destruct ev as [m|o' route| |o' q]; [by apply record_moved|by apply request_moved| |].
  - cbn. unfold owner_count. destruct (now <? 0); [apply moved_not|]. cbn. rewrite <- second_now. by apply moved_aged, evict_entry.
  - unfold spared in Hc. cbn in *. unfold snapshot. destruct (now <? 0); [apply moved_not|].
    destruct (owner (trim o') (index_of now) s) as [[x s']|] eqn:E; [|apply moved_not].
    destruct (owner_entry o _ _ s x s' Hw Hc E) as (e' & Ha & H). assert (entry o s' = entry o (if iso_ok now then (inl (view q now x s') : Snapshot + Refusal, s') else (inr InvalidTime, s')).2) as <- by (by destruct (iso_ok now)).
    destruct (decide (o = trim o')); [destruct H as [-> ->]; by apply moved_touched|rewrite H; by apply moved_aged].
Qed.

Lemma step_wf ev now s : wf s -> wf (step ev now s).
Proof.
  intros Hw. destruct ev as [m|o' route| |o' q]; cbn.
  - unfold record. destruct (safe (m_bytes m)) as [n|] eqn:En; [|done]. destruct (from_option safe (Some 1) (m_operation_count m)) as [k|] eqn:Ek; [|done].
    destruct (_ || _); [done|]. destruct (_ && _); [done|]. destruct (now <? 0); [done|]. destruct (measured_range m n k En Ek). apply hit_owner_wf; [by apply count_bounded|done].
  - unfold record_http_request. destruct (_ || _); [done|]. destruct (now <? 0); [done|]. apply hit_owner_wf; [apply request_bounded|done].
  - unfold owner_count. destruct (now <? 0); [done|]. by apply evict_wf.
  - unfold snapshot. destruct (now <? 0); [done|]. destruct (owner _ _ s) as [[x s']|] eqn:E; [|done]. apply owner_keeps_wf in E as [? _]; [|done]. by destruct (iso_ok now).
Qed.

Lemma step_epoch ev now s : epoch (step ev now s) = epoch s.
Proof.
  assert (forall t, epoch (evict t s) = epoch s) as He by (intros t; unfold evict; by destruct (_ =? _)).
  assert (forall o i x s', owner o i s = Some (x, s') -> epoch s' = epoch s) as Ho.
  { intros o i x s'. unfold owner. destruct (valid_owner o); [|done]. intros [= <- <-]. cbn. unfold make_room. cbn zeta. destruct (_ && _); [|apply He]. destruct (oldest _ _) as [[]|]; apply He. }
  assert (forall o i f, epoch (hit_owner o i f s).2 = epoch s) as Hh by (intros o i f; unfold hit_owner; destruct (owner o i s) as [[]|] eqn:E; [exact (Ho _ _ _ _ E)|done]).
  destruct ev as [m|o' route| |o' q]; cbn.
  - unfold record. repeat case_match; cbn; auto.
  - unfold record_http_request. repeat case_match; cbn; auto.
  - unfold owner_count. destruct (now <? 0); cbn; auto.
  - unfold snapshot. destruct (now <? 0); [done|]. destruct (owner _ _ s) as [[x s']|] eqn:E; [|done]. apply Ho in E. by destruct (iso_ok now).
Qed.

(** ** The log of an entry *)

Definition in_window (i k : Z) : Prop := i - MAX_SAMPLES < k.
Record logged (i : Z) (e : option Owner) (log : list (Z * Change)) : Prop := MkLogged {
  l_sound : Forall (fun p => sound p.2) log;
  l_past : forall p, p ∈ log -> p.1 <= i;
  l_alive : forall p, p ∈ log -> in_window i p.1 -> exists x, e = Some x /\ second_of p.1 <= last_access_second x;
  l_exact : forall k, in_window i k -> sample (bucket_at k e) = spent log k }.

Lemma second_gap j k t : second_of k <= t -> t + WINDOW_SECONDS < second_of j -> k + MAX_SAMPLES < j.
Proof. unfold second_of, INTERVAL_MS, WINDOW_SECONDS, MAX_SAMPLES. Z.to_euclidean_division_equations. lia. Qed.

Lemma second_mono i j : i <= j -> second_of i <= second_of j.
Proof. unfold second_of, INTERVAL_MS. intros. apply Z.div_le_mono; lia. Qed.

Lemma logged_aged i j e e' log : i <= j -> logged i e log -> aged j e e' -> logged j e' log.
Proof.
  intros Hij [H1 H2 H3 H4] Ha. unfold in_window in *.
  assert (forall p, p ∈ log -> p.1 <= j) as Hp by (intros p Hp; specialize (H2 p Hp); lia).
  destruct Ha as [->|(x & -> & -> & Ht)]; [split; [done|done| |]; unfold in_window in *; intros; [apply H3|apply H4]; [done|lia|lia]|].
  assert (forall p, p ∈ log -> ~ in_window j p.1) as Hold.
  { intros p Hin Hw. destruct (H3 p Hin) as (x' & [= <-] & Hx); [unfold in_window in *; lia|]. pose proof (second_gap _ _ _ Hx Ht). unfold in_window in *. lia. }
  split; [done|done| |]; intros; [exfalso; by eapply Hold|]. cbn. symmetry. apply spent_past, Forall_forall. intros p Hin <-. by eapply Hold.
Qed.

Lemma logged_touch j e log : logged j e log -> logged j (Some (touch (second_of j) (default fresh_owner e))) log.
Proof.
  intros [H1 H2 H3 H4]. split; [done|done| |].
  - intros p Hp Hw. eexists. split; [done|]. cbn. by apply second_mono, H2.
  - intros k Hk. rewrite <- (H4 k Hk). by destruct e.
Qed.

Lemma prune_get j k x : in_window j k -> k <= j -> IndexMap.get k (buckets (prune j x)) = IndexMap.get k (buckets x).
Proof. intros Hk Hj. unfold prune, in_window in *. destruct (_ =? _); [done|]. cbn. exact (IndexMap.get_filter_key (fun k => j - MAX_SAMPLES + 1 <= k <= j) k (buckets x) ltac:(cbv beta; lia)). Qed.

Lemma prune_later j k x : owner_wf x -> j < k -> IndexMap.get k (buckets (prune j x)) = None.
Proof.
  intros Hx Hk. apply IndexMap.get_None. intros ([k' b] & -> & Hin)%list_elem_of_fmap. destruct (prune_wf j x Hx) as (_ & Hf & El & _). rewrite Forall_forall in Hf. destruct (Hf _ Hin) as [H _]. rewrite El in H. cbn in *. lia.
Qed.

Lemma logged_hit j x c log : owner_wf x -> sound c -> last_access_second x = second_of j -> logged j (Some x) log -> logged j (Some (hit j (apply c) x)) (log ++ [(j, c)]).
Proof.
  intros Hx Hc Ht [H1 H2 H3 H4]. split.
  - rewrite Forall_app, Forall_singleton. done.
  - intros p [Hp| ->%list_elem_of_singleton]%elem_of_app; [auto|done].
  - intros p Hp Hw. exists (hit j (apply c) x). split; [done|]. unfold hit. cbn.
    replace (last_access_second (prune j x)) with (last_access_second x) by (unfold prune; by destruct (_ =? _)). rewrite Ht.
    apply second_mono. apply elem_of_app in Hp as [Hp| ->%list_elem_of_singleton]; [by apply H2|done].
  - intros k Hk. specialize (H4 k Hk). cbn. unfold bucket_at in H4. cbn in H4. destruct (decide (j = k)) as [<-|Hn].
    + rewrite IndexMap.get_insert_eq, prune_get by done. by apply apply_spent.
    + rewrite IndexMap.get_insert_ne by done. rewrite spent_other by done. destruct (decide (k <= j)); [by rewrite prune_get|].
      rewrite prune_later by (done || lia). symmetry. apply spent_past, Forall_forall. intros p Hp <-. specialize (H2 p Hp). lia.
Qed.

Lemma aged_wf j e e' : (forall x, e = Some x -> owner_wf x) -> aged j e e' -> owner_wf (touch (second_of j) (default fresh_owner e')).
Proof. intros He [->|(x & _ & -> & _)]; apply touch_wf; [destruct e; cbn; [by apply He|apply fresh_wf]|apply fresh_wf]. Qed.

Lemma logged_moved i j e log new e' : i <= j -> (forall x, e = Some x -> owner_wf x) -> moved j e new e' -> logged i e log -> logged j e' (log ++ new).
Proof.
  intros Hij He Hm Hl. destruct Hm as [|e' Ha|e' Ha|e' c Ha Hc]; rewrite ?app_nil_r.
  - eapply logged_aged; [done|done|by left].
  - by eapply logged_aged.
  - eapply logged_touch, logged_aged; done.
  - apply logged_hit; [by eapply aged_wf|done|done|]. by eapply logged_touch, logged_aged.
Qed.

(** ** What a client knows of an entry *)

(** [x] is what became of the entry [x1] a client saw at sample [i1]. *)
Record follows (i1 : Z) (x1 : Owner) (i : Z) (x : Owner) : Prop := MkFollows {
  f_rev : revision x1 <= revision x;
  f_old : forall k, in_window i k -> k < i1 -> IndexMap.get k (buckets x) = IndexMap.get k (buckets x1);
  f_last : in_window i i1 -> revision x < MAX_SAFE_INTEGER ->
    IndexMap.get i1 (buckets x) = IndexMap.get i1 (buckets x1) \/ revision x1 < from_option b_revision 0 (IndexMap.get i1 (buckets x));
  f_access : second_of i1 <= last_access_second x }.
(** The entry is still that one, or what the client saw is out of the window. *)
Definition linked (i1 : Z) (x1 : Owner) (i : Z) (e : option Owner) : Prop :=
  i1 + MAX_SAMPLES < i \/ exists x, e = Some x /\ follows i1 x1 i x.

Lemma follows_later i1 x1 i j x : i <= j -> follows i1 x1 i x -> follows i1 x1 j x.
Proof. intros Hij [H1 H2 H3 H4]. split; [done| | |done]; unfold in_window in *; intros; [apply H2|apply H3]; (done || lia). Qed.

Lemma follows_touch i1 x1 j x : i1 <= j -> follows i1 x1 j x -> follows i1 x1 j (touch (second_of j) x).
Proof. intros Hij [H1 H2 H3 H4]. split; [done|done|done|]. by apply second_mono. Qed.

Lemma apply_revision c b : b_revision (apply c b) = b_revision b.
Proof. by destruct c as [[] [] ? ?|]. Qed.

Lemma follows_hit i1 x1 j c x : i1 <= j -> owner_wf x -> follows i1 x1 j x -> follows i1 x1 j (hit j (apply c) x).
Proof.
  intros Hij [_ _ Hr] [H1 H2 H3 H4]. unfold hit, add. split; cbn.
  - lia.
  - intros k Hk Hlt. rewrite IndexMap.get_insert_ne, prune_get by (done || lia). auto.
  - intros Hk Hm. destruct (decide (j = i1)) as [->|Hn].
    + right. rewrite IndexMap.get_insert_eq. cbn. rewrite apply_revision. cbn. lia.
    + rewrite IndexMap.get_insert_ne, prune_get by (done || lia). apply H3; [done|lia].
  - unfold prune. by destruct (_ =? _).
Qed.

Lemma linked_aged i1 x1 i j e e' : i <= j -> linked i1 x1 i e -> aged j e e' -> linked i1 x1 j e'.
Proof.
  intros Hij [Hl|(x & -> & Hf)]; [left; lia|]. intros [->|(x' & [= <-] & -> & Ht)].
  - right. exists x. split; [done|]. by eapply follows_later.
  - left. eapply second_gap; [apply Hf|done].
Qed.

Lemma linked_touch i1 x1 j e : i1 <= j -> linked i1 x1 j e -> linked i1 x1 j (Some (touch (second_of j) (default fresh_owner e))).
Proof. intros Hij [Hl|(x & -> & Hf)]; [by left|]. right. eexists. split; [done|]. by apply follows_touch. Qed.

Lemma linked_moved i1 x1 i j e new e' : i1 <= i -> i <= j -> (forall x, e = Some x -> owner_wf x) -> moved j e new e' -> linked i1 x1 i e -> linked i1 x1 j e'.
Proof.
  intros Hi Hij He Hm Hl. destruct Hm as [|e' Ha|e' Ha|e' c Ha Hc].
  - eapply linked_aged; [done|done|by left].
  - by eapply linked_aged.
  - apply linked_touch; [lia|]. by eapply linked_aged.
  - destruct (linked_touch i1 x1 j e') as [Hg|(x & [= <-] & Hf)]; [lia|by eapply linked_aged|by left|]. right. eexists. split; [done|].
    apply follows_hit; [lia|by eapply aged_wf|done].
Qed.

(** ** Snapshots *)

(** A client keeps its samples and writes those of an answer over them. *)
Definition overlay (v : Z -> Sample) (l : list (Z * Sample)) (k : Z) : Sample := default (v k) (IndexMap.get k l).

Lemma collect_get n skip x k : forall start,
  IndexMap.get k (collect n start skip x) = if (start <=? k) && (k <? start + Z.of_nat n) && negb (skip k) then Some (sample (IndexMap.get k (buckets x))) else None.
Proof.
  induction n as [|n IH]; intros start; cbn [collect].
  - replace ((start <=? k) && (k <? start + Z.of_nat 0)) with false; [done|]. symmetry. apply andb_false_iff. rewrite Z.leb_gt, Z.ltb_ge. lia.
  - assert (forall l : list (Z * Sample), IndexMap.get k ((if skip start then [] else [(start, sample (IndexMap.get start (buckets x)))]) ++ l)
      = if (k =? start) && negb (skip k) then Some (sample (IndexMap.get k (buckets x))) else IndexMap.get k l) as Hh.
    { intros l. destruct (k =? start) eqn:E; reflect_bools.
      - subst. destruct (skip start); cbn; [done|]. by rewrite decide_True by done.
      - destruct (skip start); cbn; [done|]. by rewrite decide_False by done. }
    rewrite Hh, IH. destruct (skip k); rewrite ?andb_false_r, ?andb_true_r; [done|]. destruct (k =? start) eqn:E; reflect_bools.
    + replace ((start <=? k) && (k <? start + Z.of_nat (S n))) with true; [done|]. symmetry. apply andb_true_iff. rewrite Z.leb_le, Z.ltb_lt. lia.
    + replace ((start <=? k) && (k <? start + Z.of_nat (S n))) with ((start + 1 <=? k) && (k <? start + 1 + Z.of_nat n)); [done|]. apply eq_true_iff_eq. rewrite !andb_true_iff, !Z.leb_le, !Z.ltb_lt. lia.
Qed.

Lemma split_decimal a b : numeral a -> split_colon (a ++ 58 :: b) = Some (a, b).
Proof.
  induction a as [|c a IH]; intros Ha; [done|]. apply Forall_cons in Ha as [Hc Ha]. cbn. destruct (c =? 58) eqn:E; [reflect_bools; subst; by vm_compute in Hc|]. by rewrite IH.
Qed.

Lemma numeral_digits a : numeral a -> a <> [] -> all_digits a = true.
Proof. intros Ha Hn. unfold all_digits. rewrite bool_decide_false by done. unfold numeral in Ha. rewrite Forall_forall in Ha. apply forallb_forall. intros c Hc. by apply Ha, list_elem_of_In. Qed.

Lemma cursor_roundtrip i r : 0 <= i <= MAX_SAFE_INTEGER -> 0 <= r <= MAX_SAFE_INTEGER -> cursor (print_cursor i r) = Some (i, r).
Proof.
  intros Hi Hr. destruct (decimal_spec i) as (Ni & Ei & Vi & _); [lia|]. destruct (decimal_spec r) as (Nr & Er & Vr & _); [lia|].
  assert (strip_terminator (print_cursor i r) = print_cursor i r) as Hs.
  { unfold strip_terminator, print_cursor. destruct (exists_last Er) as (ds & c & E). rewrite E. rewrite E in Nr. replace (decimal i ++ 58 :: ds ++ [c]) with ((decimal i ++ 58 :: ds) ++ [c]) by (by rewrite <- app_assoc).
    rewrite last_snoc. apply Forall_app in Nr as [_ Hc]. unfold is_digit in Hc. rewrite Forall_singleton in Hc. unfold line_terminator.
    destruct (_ || _) eqn:Et; [|done]. exfalso. rewrite !orb_true_iff, !Z.eqb_eq in Et. reflect_bools. lia. }
  unfold cursor. rewrite Hs. unfold print_cursor. rewrite split_decimal by done. unfold mbind, option_bind. cbv beta iota. rewrite !numeral_digits, Vi, Vr by done. cbn [andb].
  by rewrite !(proj2 (Z.leb_le _ _)) by lia.
Qed.

Definition next_query (sn : Snapshot) : Query := MkQuery (Some (at_cursor sn)) (Some (s_epoch sn)).

(** An answer to an earlier cursor completes the samples of a client. *)
Lemma view_completes i1 x1 now x s q v :
  q = MkQuery (Some (print_cursor i1 (revision x1))) (Some (epoch s)) -> 0 <= i1 <= MAX_SAFE_INTEGER -> i1 <= index_of now ->
  owner_wf x1 -> linked i1 x1 (index_of now) (Some x) -> revision x < MAX_SAFE_INTEGER ->
  (revision x1 < MAX_SAFE_INTEGER -> forall k, in_window i1 k -> k <= i1 -> v k = sample (IndexMap.get k (buckets x1))) ->
  forall k, in_window (index_of now) k -> k <= index_of now -> overlay v (samples (view q now x s)) k = sample (IndexMap.get k (buckets x)).
Proof.
  intros -> Hi Hn Hx1 Hl Hm Hv k Hk Hkn. unfold overlay, view. cbn zeta. set (i := index_of now) in *. cbn [samples after q_epoch requested].
  assert (print_cursor i1 (revision x1) <> []) as Hne by (unfold print_cursor; by destruct (decimal i1)).
  rewrite (bool_decide_false (print_cursor _ _ = [])) by done. cbn [mbind option_bind]. rewrite cursor_roundtrip by (done || apply Hx1).
  rewrite !bool_decide_true by (done || eauto). rewrite (bool_decide_true (epoch s = epoch s)) by done. rewrite andb_false_r. cbn [orb andb negb from_option fst].
  rewrite collect_get. unfold in_window in *. destruct ((i1 <? i - MAX_SAMPLES + 1 - 1) || (i <? i1) || (revision x <? revision x1)) eqn:Er; cbn [negb orb andb].
  - rewrite (proj2 (Z.leb_le _ _)), (proj2 (Z.ltb_lt _ _)) by lia. done.
  - reflect_bools. destruct Hl as [Hl|(x' & [= <-] & [F1 F2 F3 _])]; [lia|]. unfold in_window in *.
    destruct (Z.max (i - MAX_SAMPLES + 1) i1 <=? k) eqn:Es; reflect_bools; cbn [andb].
    + rewrite (proj2 (Z.ltb_lt _ _)) by lia. cbn [andb]. destruct (k =? i1) eqn:Ek; [|done]. cbn [andb]. reflect_bools. subst k.
      destruct (_ <=? _) eqn:Eb; [|done]. reflect_bools. cbn. rewrite (Hv ltac:(lia)) by (unfold MAX_SAMPLES; lia). destruct (F3 Hk Hm) as [->|]; [done|]. destruct (IndexMap.get i1 (buckets x)); cbn in *; lia.
    + cbn. rewrite (Hv ltac:(lia)) by lia. by rewrite F2 by lia.
Qed.

(** A first answer, or one after another server, has the whole window. *)
Lemma view_whole now x s q v : q_epoch q <> Some (epoch s) \/ requested q = None ->
  forall k, in_window (index_of now) k -> k <= index_of now -> overlay v (samples (view q now x s)) k = sample (IndexMap.get k (buckets x)).
Proof.
  intros Hq k Hk Hkn. unfold overlay, view. cbn zeta. cbn [samples]. rewrite collect_get.
  replace (bool_decide (is_Some (requested q)) && bool_decide (q_epoch q = Some (epoch s))) with false.
  2:{ symmetry. apply andb_false_iff. destruct Hq as [Hq| ->]; [right|left]; apply bool_decide_false; [done|]. by intros []. }
  cbn [andb negb]. unfold in_window in Hk. rewrite (proj2 (Z.leb_le _ _)), (proj2 (Z.ltb_lt _ _)) by lia. done.
Qed.

(** ** Polling *)

(** The meter, the traffic of [o] so far, and the samples and the last answer of a
    client that polls them, while no other owner takes the place of [o]. *)
Definition query_of (last : option Snapshot) : Query := match last with Some sn => next_query sn | None => MkQuery None None end.
Inductive polling (o : text) : Z -> LiveTrafficMeter -> list (Z * Change) -> (Z -> Sample) -> option Snapshot -> Prop :=
| polling_start opts s t v : new opts = Some s -> polling o t s [] v None
| polling_event t s log v last ev now :
    polling o t s log v last -> t <= now -> spared (trim o) ev now s ->
    polling o now (step ev now s) (log ++ noted (trim o) ev now s) v last
| polling_poll t s log v last now sn s' :
    polling o t s log v last -> t <= now -> crowded_out (trim o) (trim o) (index_of now) s = false ->
    snapshot o (query_of last) now s = (inl sn, s') ->
    polling o now s' log (overlay v (samples sn)) (Some sn).

(** The last answer and the samples of the client are those of an entry at [i1]. *)
Record informed (i : Z) (s : LiveTrafficMeter) (e : option Owner) (v : Z -> Sample) (sn : Snapshot) (i1 : Z) (x1 : Owner) : Prop := MkInformed {
  i_cursor : at_cursor sn = print_cursor i1 (revision x1);
  i_epoch : s_epoch sn = epoch s;
  i_range : 0 <= i1 <= MAX_SAFE_INTEGER;
  i_past : i1 <= i;
  i_wf : owner_wf x1;
  i_linked : linked i1 x1 i e;
  i_exact : revision x1 < MAX_SAFE_INTEGER -> forall k, in_window i1 k -> k <= i1 -> v k = sample (IndexMap.get k (buckets x1)) }.
Definition tracked (o : text) (t : Z) (s : LiveTrafficMeter) (log : list (Z * Change)) (v : Z -> Sample) (last : option Snapshot) : Prop :=
  wf s /\ logged (index_of t) (entry (trim o) s) log /\
  forall sn, last = Some sn -> exists i1 x1, informed (index_of t) s (entry (trim o) s) v sn i1 x1.

Lemma index_mono t now : t <= now -> index_of t <= index_of now.
Proof. unfold index_of, INTERVAL_MS. intros. apply Z.div_le_mono; lia. Qed.

Lemma snapshot_inv o q now s sn s' : wf s -> snapshot o q now s = (inl sn, s') ->
  s' = step (SnapshotEvent o q) now s /\ 0 <= index_of now <= MAX_SAFE_INTEGER /\
  exists x, entry (trim o) s' = Some x /\ owner_wf x /\ last_access_second x = second_of (index_of now) /\ sn = view q now x s'.
Proof.
  intros Hw E. split; [cbn; by rewrite E|]. revert E. unfold snapshot. destruct (now <? 0) eqn:En; [done|]. destruct (owner (trim o) (index_of now) s) as [[x s1]|] eqn:Eo; [|done].
  destruct (iso_ok now) eqn:Ei; [|done]. intros [= <- <-]. unfold iso_ok in Ei. reflect_bools. split.
  - unfold index_of, INTERVAL_MS, MAX_SAFE_INTEGER. Z.to_euclidean_division_equations. lia.
  - exists x. destruct (owner_keeps_wf _ _ _ _ _ Hw Eo) as (_ & Hx & G). repeat split; [done|apply Hx|apply Hx|apply Hx|apply Hx|].
    revert Eo. unfold owner. destruct (valid_owner _); [|done]. by intros [= <- _].
Qed.

Lemma moved_tracked o t now s log new v last s' :
  t <= now -> wf s' -> epoch s' = epoch s -> moved (index_of now) (entry (trim o) s) new (entry (trim o) s') ->
  tracked o t s log v last -> tracked o now s' (log ++ new) v last.
Proof.
  intros Ht Hw' He Hm (Hw & Hl & Hi). pose proof (index_mono t now Ht) as Hij. assert (forall x, entry (trim o) s = Some x -> owner_wf x) as Hx by (intros x; by apply traffic_entry_wf).
  split; [done|]. split; [by eapply logged_moved|]. intros sn ->. destruct (Hi sn eq_refl) as (i1 & x1 & [E1 E2 R P W L A]). exists i1, x1. split; [done|congruence|done|lia|done| |done].
  by eapply linked_moved.
Qed.

Lemma follows_self i x : second_of i <= last_access_second x -> follows i x i x.
Proof. intros H. split; [done|done|by left|done]. Qed.

(** The answer to a poll makes the samples of the client those of the entry. *)
Lemma poll_completes o t s log v last now sn s' x :
  tracked o t s log v last -> t <= now -> crowded_out (trim o) (trim o) (index_of now) s = false ->
  snapshot o (query_of last) now s = (inl sn, s') -> entry (trim o) s' = Some x -> revision x < MAX_SAFE_INTEGER ->
  forall k, in_window (index_of now) k -> k <= index_of now -> overlay v (samples sn) k = sample (IndexMap.get k (buckets x)).
Proof.
  intros Ht Hn Hc E Ex Hm. pose proof Ht as (Hw & _ & _). destruct (snapshot_inv _ _ _ _ _ _ Hw E) as (-> & _ & x' & Ex' & _ & _ & ->).
  rewrite Ex in Ex'. injection Ex' as <-. destruct last as [sn|]; [|apply view_whole; by right].
  set (q := query_of (Some sn)) in *. assert (tracked o now (step (SnapshotEvent o q) now s) (log ++ []) v (Some sn)) as (Hw' & _ & Hi).
  { eapply moved_tracked; [exact Hn|by apply step_wf|apply step_epoch| |done]. by apply (step_moved _ (SnapshotEvent o q)). }
  destruct (Hi sn eq_refl) as (i1 & x1 & [E1 E2 R P W L A]). rewrite Ex in L. apply (view_completes i1 x1); try done. unfold q, query_of, next_query. rewrite E1, E2, !step_epoch. done.
Qed.

Lemma poll_tracked o t s log v last now sn s' :
  tracked o t s log v last -> t <= now -> crowded_out (trim o) (trim o) (index_of now) s = false ->
  snapshot o (query_of last) now s = (inl sn, s') -> tracked o now s' log (overlay v (samples sn)) (Some sn).
Proof.
  intros Ht Hn Hc E. pose proof Ht as (Hw & _ & _). destruct (snapshot_inv _ _ _ _ _ _ Hw E) as (Es & Hr & x & Ex & Hx & Ha & Ev).
  assert (tracked o now s' (log ++ []) v last) as (Hw' & Hl & _).
  { subst s'. eapply moved_tracked; [exact Hn|by apply step_wf|apply step_epoch| |done]. by apply (step_moved _ (SnapshotEvent o _)). }
  rewrite app_nil_r in Hl. split; [done|]. split; [done|]. intros sn' [= <-]. exists (index_of now), x. split.
  - by rewrite Ev.
  - by rewrite Ev.
  - done.
  - done.
  - done.
  - right. exists x. split; [done|]. apply follows_self. lia.
  - intros Hm k Hk Hkn. by eapply poll_completes.
Qed.

Lemma polling_tracked o t s log v last : polling o t s log v last -> tracked o t s log v last.
Proof.
  induction 1 as [opts s t v E|t s log v last ev now _ IH Hn Hc|t s log v last now sn s' _ IH Hn Hc E].
  - split; [by eapply traffic_new_wf|]. split; [|done]. revert E. unfold new. destruct (_ && _); [|done]. intros [= <-].
    split; [constructor|set_solver|set_solver|]. intros k _. symmetry. apply spent_past. constructor.
  - pose proof IH as (Hw & _ & _). eapply moved_tracked; [exact Hn|by apply step_wf|apply step_epoch| |exact IH]. by apply step_moved.
  - by eapply poll_tracked.
Qed.

(** ** Theorems *)

Inductive reach : LiveTrafficMeter -> Prop :=
| reach_new opts s : new opts = Some s -> reach s
| reach_step s ev now : reach s -> reach (step ev now s).

Lemma traffic_reach_wf s : reach s -> wf s.
Proof. induction 1 as [opts s E|s ev now _ IH]; [by eapply traffic_new_wf|by apply step_wf]. Qed.

(** Whatever is recorded and polled, with any clock, the owners stay within their
    limit, an owner has at most 2400 buckets, one per sample, and no counter or
    revision passes the safe integers. *)
Theorem traffic_bounded s :
  reach s ->
  len (owners s) <= max_owners s /\
  forall o x, entry o s = Some x ->
    len (buckets x) <= MAX_SAMPLES /\ NoDup (IndexMap.keys (buckets x)) /\ revision x <= MAX_SAFE_INTEGER /\
    forall k b, IndexMap.get k (buckets x) = Some b -> last_pruned x - MAX_SAMPLES < k <= last_pruned x /\ Forall (fun v => 0 <= v <= MAX_SAFE_INTEGER) (counters b).
Proof.
  intros Hw%traffic_reach_wf. split; [apply Hw|]. intros o x E. pose proof (traffic_entry_wf o x s Hw E) as Hx. split; [by apply fits_length|]. destruct Hx as [Hk Hf Hr]. split; [done|]. split; [lia|].
  intros k b G. rewrite Forall_forall in Hf. destruct (Hf _ (IndexMap.get_In _ _ _ G)) as (? & _ & ?). done.
Qed.

(** C37: a client that polls the live traffic of its owner with the cursor of the
    last answer, and writes the samples it gets over those it has, has after every
    answer in each of the last 2400 samples exactly the traffic recorded for the
    owner in that quarter of a second, capped at the safe integers, and the current
    sample of the answer is that of now; whatever else is recorded, polled or
    counted between, however long it pauses (an owner that was dropped for its age
    has nothing left in the window), as long as clocks do not go back, no other
    owner takes its place, and fewer than 2^53 - 1 changes were made. *)
Theorem polled_traffic_exact o t s log v last now sn s' x :
  polling o t s log v last -> t <= now -> crowded_out (trim o) (trim o) (index_of now) s = false ->
  snapshot o (query_of last) now s = (inl sn, s') -> entry (trim o) s' = Some x -> revision x < MAX_SAFE_INTEGER ->
  current sn = spent log (index_of now) /\
  forall k, index_of now - MAX_SAMPLES < k <= index_of now -> overlay v (samples sn) k = spent log k.
Proof.
  intros Hp%polling_tracked Hn Hc E Ex Hm. pose proof Hp as (Hw & _ & _). destruct (poll_tracked _ _ _ _ _ _ _ _ _ Hp Hn Hc E) as (_ & [_ _ _ Hl] & _). rewrite Ex in Hl.
  destruct (snapshot_inv _ _ _ _ _ _ Hw E) as (_ & _ & x' & Ex' & _ & _ & Ev). rewrite Ex in Ex'. injection Ex' as <-. split.
  - rewrite Ev. cbn. apply (Hl (index_of now)). unfold in_window, MAX_SAMPLES. lia.
  - intros k Hk. rewrite <- Hl by (unfold in_window; lia). cbn. eapply poll_completes; try done; unfold in_window; lia.
Qed.

(** A poll is answered whenever the owner is valid and the clock is one a date has. *)
Lemma snapshot_answers o q now s : valid_owner (trim o) = true -> 0 <= now -> iso_ok now = true -> exists sn s', snapshot o q now s = (inl sn, s').
Proof.
  intros Ho Hn Hi. unfold snapshot. rewrite (proj2 (Z.ltb_ge _ _)) by lia. unfold owner. rewrite Ho, Hi. eauto.
Qed.

Module Sample.
Definition opts : Options := MkOptions (lit "e") (lit "i") 2 600.
Definition meter : LiveTrafficMeter := default (MkMeter [] [] [] 0 0 0) (new opts).
Definition upload_of (o : string) (n : Z) : Event := RecordEvent (MkMeasurement (lit o) (Integer n) None "client-live-websocket"%string "ingress"%string None).
Definition zero : Z -> LiveTraffic.Sample := fun _ => sample None.
Definition after1 : LiveTrafficMeter := step (upload_of "a" 7) 1000 meter.
Definition poll1 := snapshot (lit "a") (query_of None) 1000 after1.
Definition answer1 : Snapshot := match poll1.1 with inl sn => sn | inr _ => MkSnapshot [] [] 0 false [] (sample None) [] end.
Definition after2 : LiveTrafficMeter := step (upload_of "a" 5) 1100 poll1.2.
Definition after3 : LiveTrafficMeter := step (upload_of "b" 9) 1200 after2.
Definition log : list (Z * Change) := [(4, Traffic true true 7 1); (4, Traffic true true 5 1)].

Lemma polled : polling (lit "a") 1200 after3 log (overlay zero (samples answer1)) (Some answer1).
Proof.
  change log with ((([] ++ noted (trim (lit "a")) (upload_of "a" 7) 1000 meter) ++ noted (trim (lit "a")) (upload_of "a" 5) 1100 poll1.2) ++ noted (trim (lit "a")) (upload_of "b" 9) 1200 after2).
  apply (polling_event _ 1100); [|lia|vm_compute; reflexivity]. apply (polling_event _ 1000); [|lia|vm_compute; reflexivity].
  apply (polling_poll _ 1000 after1 _ zero None); [|lia|vm_compute; reflexivity|vm_compute; reflexivity].
  apply (polling_event _ 0); [|lia|vm_compute; reflexivity]. by apply (polling_start _ opts).
Qed.

Lemma polled_traffic_exact_witness :
  let p := snapshot (lit "a") (query_of (Some answer1)) 1300 after3 in
  exists sn x, p.1 = inl sn /\ entry (lit "a") p.2 = Some x /\ (len (samples sn) = 2 /\ s_upload (overlay (overlay zero (samples answer1)) (samples sn) 4) = 12) /\
  (current sn = spent log 5 /\ forall k, 5 - MAX_SAMPLES < k <= 5 -> overlay (overlay zero (samples answer1)) (samples sn) k = spent log k).
Proof.
  intros p. eexists _, _. split; [vm_compute; reflexivity|]. split; [vm_compute; reflexivity|]. split; [vm_compute; done|].
  eapply (polled_traffic_exact (lit "a") 1200 after3 log (overlay zero (samples answer1)) (Some answer1) 1300); [exact polled|lia|vm_compute; reflexivity|vm_compute; reflexivity|vm_compute; reflexivity|vm_compute; reflexivity].
Defined.
End Sample.
End LiveTraffic.
