(* ===== verification/Broker.v ===== *)
(** * The tunnel broker

    [Broker] models src/cantrip_server_rs/src/tunnels/broker/mod.rs and
    receive.rs: routes between two endpoints, the connections multiplexed on
    them with their sequence numbers, credits and half-closes, and the ways a
    connection or a route ends.

    The endpoints' send callbacks, the activity, consumption and cleanup
    callbacks are parameters: they run on the whole system, so they may
    reenter the broker; [CallbackLaws] says what they may do there, namely
    revoke. Headers are values the frame schema accepts. Counters and instants
    are integers; a shared [Arc<Mutex<Connection>>] is a reference into a heap,
    and [Arc::ptr_eq] compares references. *)
From S2P Require Import Prelude Frames.
From Stdlib Require Import Strings.Byte.
From stdpp Require Import base numbers gmap strings sorting list.
Open Scope Z_scope.

Module Broker.
Import Text.

Inductive Side := Source | Destination.
#[global] Instance side_eq_dec : EqDecision Side.
Proof. solve_decision. Defined.

Definition other (s : Side) : Side := match s with Source => Destination | Destination => Source end.

Inductive Direction := SourceToDestination | DestinationToSource.
#[global] Instance direction_eq_dec : EqDecision Direction.
Proof. solve_decision. Defined.

Inductive Reason :=
| Normal | Revoked | EndpointDisconnected | IdleTimeout | LifetimeExpired
| Congested | BandwidthLimit | ProtocolError.
#[global] Instance reason_eq_dec : EqDecision Reason.
Proof. solve_decision. Defined.

Section broker.
Context {Target Sys0 : Type}.

Inductive Body :=
| Open (initialCreditBytes : Z)
| Connect (target : Target) (initialCreditBytes : Z) (diagnosticTraceId : option text)
| Accepted (initialCreditBytes : Z)
| Rejected (code : string)
| Data (direction : Direction) (protected : bool)
| Credit (direction : Direction) (bytes : Z)
| HalfClose (direction : Direction)
| Close (code : Reason)
| Error (code : string).

Record Header := MkHeader {
  tunnelId : text;
  attachmentId : text;
  sourceEndpointId : text;
  destinationEndpointId : text;
  connectionId : text;
  sequence : Z;
  body : Body
}.

(** What the frame schema guarantees of a header: identifiers without control
    characters, bounded numbers. *)
Definition credit_ok (n : Z) : Prop := 1 <= n <= TunnelFrame.MAX_CREDIT_BYTES.
Definition plain (t : text) : Prop := 0 ∉ t.
Definition valid_header (h : Header) : Prop :=
  0 <= sequence h /\
  (plain (tunnelId h) /\ plain (attachmentId h) /\ plain (connectionId h)) /\
  match body h with
  | Open n | Connect _ n _ | Accepted n | Credit _ n => credit_ok n
  | _ => True
  end.

Record Options := MkOptions {
  idle_ms : Z;
  lifetime_ms : Z;
  bytes_per_second : Z;
  max_connections : Z;
  max_connections_per_tunnel : Z;
  max_routes : Z
}.

Record Registration := MkRegistration {
  tunnel : text;
  attachment : text;
  source : text;
  destination : text;
  target : Target;
  owner : option text;
  worker : option text;
  diagnostic : option text
}.

Record Route := MkRoute { r_id : nat; r_key : text; registration : Registration }.

Record Connection := MkConnection {
  route : Route;
  c_id : text;
  created : Z;
  last_seen : Z;
  window : Z;
  bandwidth : Z;
  source_sequence : Z;
  destination_sequence : Z;
  source_credit : Z;
  destination_credit : Z;
  source_half : bool;
  destination_half : bool;
  is_open : bool
}.

Abbreviation Ref := nat (only parsing).

Record State := MkState {
  routes : list (text * Route);
  connections : list (text * Ref);
  heap : gmap Ref Connection;
  next_ref : nat;
  cleanups : gmap nat (list nat);
  bytes_from : Z;
  bytes_to : Z;
  closed : Z;
  opened : Z;
  rejected : Z;
  terminations : list (Reason * Z)
}.

(** The system a callback runs on: the callers' own state and the broker's. *)
Definition Sys : Type := Sys0 * State.

Class Callbacks := {
  send_frame : Route -> Side -> Header -> list byte -> Sys -> bool * Sys;
  activity_cb : text -> text -> Sys -> bool * Sys;
  consume_cb : text -> text -> Z -> Sys -> bool * Sys;
  unsubscribe_cb : nat -> Sys -> Sys;
  clock_cb : Sys -> Z * Sys
}.

Definition REASONS : list Reason :=
  [Normal; Revoked; EndpointDisconnected; IdleTimeout; LifetimeExpired; Congested;
   BandwidthLimit; ProtocolError].

Definition new_state : State :=
  MkState [] [] ∅ 0 ∅ 0 0 0 0 0 ((fun r => (r, 0)) <$> REASONS).

(** Field updates. *)
Definition set_routes (s : State) (rs : list (text * Route)) : State :=
  MkState rs (connections s) (heap s) (next_ref s) (cleanups s) (bytes_from s) (bytes_to s)
    (closed s) (opened s) (rejected s) (terminations s).
Definition set_heap (s : State) (h : gmap Ref Connection) : State :=
  MkState (routes s) (connections s) h (next_ref s) (cleanups s) (bytes_from s) (bytes_to s)
    (closed s) (opened s) (rejected s) (terminations s).
Definition set_cleanups (s : State) (c : gmap nat (list nat)) : State :=
  MkState (routes s) (connections s) (heap s) (next_ref s) c (bytes_from s) (bytes_to s)
    (closed s) (opened s) (rejected s) (terminations s).
Definition set_terminations (s : State) (t : list (Reason * Z)) : State :=
  MkState (routes s) (connections s) (heap s) (next_ref s) (cleanups s) (bytes_from s) (bytes_to s)
    (closed s) (opened s) (rejected s) t.
Definition add_rejected (s : State) : State :=
  MkState (routes s) (connections s) (heap s) (next_ref s) (cleanups s) (bytes_from s) (bytes_to s)
    (closed s) (opened s) (rejected s + 1) (terminations s).
Definition add_bytes (s : State) (sender : Side) (n : Z) : State :=
  MkState (routes s) (connections s) (heap s) (next_ref s) (cleanups s)
    (match sender with Source => bytes_from s + n | Destination => bytes_from s end)
    (match sender with Source => bytes_to s | Destination => bytes_to s + n end)
    (closed s) (opened s) (rejected s) (terminations s).

Definition upd {A} (f : State -> A) (y : Sys) : A := f y.2.
Definition put (y : Sys) (s : State) : Sys := (y.1, s).

(** [key]: the parts joined with NUL. *)
Definition join (a b : text) : text := a ++ [0] ++ b.
Definition route_key (r : Registration) : text := join (tunnel r) (attachment r).
Definition connection_key (r : Route) (id : text) : text := join (r_key r) id.

Context (options : Options) {callbacks : Callbacks}.

Inductive RegisterError := SameEndpoints | AlreadyRegistered | RouteLimit.

(** [Broker::register]; [id] is the identity of the new allocation. *)
Definition register (s : State) (id : nat) (r : Registration) : (Route + RegisterError) * State :=
  if bool_decide (source r = destination r) then (inr SameEndpoints, s)
  else if IndexMap.contains_key (route_key r) (routes s) then (inr AlreadyRegistered, s)
  else if max_routes options <=? len (routes s) then (inr RouteLimit, s)
  else
    let rt := MkRoute id (route_key r) r in
    (inl rt, set_routes s (IndexMap.insert (route_key r) rt (routes s))).

Definition current_route (s : State) (rt : Route) : bool :=
  match IndexMap.get (r_key rt) (routes s) with
  | Some r => bool_decide (r_id r = r_id rt)
  | None => false
  end.

Definition activity (rt : Route) (y : Sys) : bool * Sys :=
  let '(ok, y) := activity_cb (tunnel (registration rt)) (attachment (registration rt)) y in
  (ok && current_route y.2 rt, y).

Definition identities (rt : Route) (id : text) (seq : Z) (b : Body) : Header :=
  let r := registration rt in
  MkHeader (tunnel r) (attachment r) (source r) (destination r) id seq b.

(** [Broker::finish]: the entry of the connection's key, whichever it is. *)
Definition finish (s : State) (c : Connection) : State :=
  let k := connection_key (route c) (c_id c) in
  if IndexMap.contains_key k (connections s) then
    MkState (routes s) (IndexMap.shift_remove k (connections s)) (heap s) (next_ref s) (cleanups s)
      (bytes_from s) (bytes_to s) (closed s + 1) (opened s) (rejected s) (terminations s)
  else s.

Definition count_reason (reason : Reason) (p : Reason * Z) : Reason * Z :=
  if decide (p.1 = reason) then (p.1, p.2 + 1) else p.

(** [Broker::terminate]: both ends get a close frame with their next sequence. *)
Definition terminate (ref : Ref) (reason : Reason) (y : Sys) : Sys :=
  match heap y.2 !! ref with
  | None => y
  | Some c =>
      if IndexMap.contains_key (connection_key (route c) (c_id c)) (connections y.2) then
        let y := put y (set_terminations y.2 (count_reason reason <$> terminations y.2)) in
        let close seq := identities (route c) (c_id c) seq (Close reason) in
        let '(_, y) := send_frame (route c) Source (close (destination_sequence c)) [] y in
        let '(_, y) := send_frame (route c) Destination (close (source_sequence c)) [] y in
        put y (finish y.2 c)
      else y
  end.

Definition forward (ref : Ref) (recipient : Side) (h : Header) (payload : list byte) (y : Sys) : Sys :=
  match heap y.2 !! ref with
  | None => y
  | Some c =>
      let '(ok, y) := send_frame (route c) recipient h payload y in
      if ok then y else terminate ref Congested y
  end.

Fixpoint terminate_all (refs : list Ref) (reason : Reason) (y : Sys) : Sys :=
  match refs with
  | [] => y
  | r :: refs => terminate_all refs reason (terminate r reason y)
  end.

Fixpoint unsubscribe_all (l : list nat) (y : Sys) : Sys :=
  match l with
  | [] => y
  | u :: l => unsubscribe_all l (unsubscribe_cb u y)
  end.

Definition on_route (s : State) (rt : Route) (kr : text * Ref) : Prop :=
  match heap s !! kr.2 with Some c => r_id (route c) = r_id rt | None => False end.
#[global] Instance on_route_dec s rt kr : Decision (on_route s rt kr).
Proof. unfold on_route. destruct (heap s !! kr.2); apply _. Defined.

(** [Broker::remove]. *)
Definition remove (rt : Route) (reason : Reason) (y : Sys) : Sys :=
  if current_route y.2 rt then
    let refs := (filter (on_route y.2 rt) (connections y.2)).*2 in
    let y := put y (set_routes y.2 (IndexMap.shift_remove (r_key rt) (routes y.2))) in
    let y := terminate_all refs reason y in
    let cleanup := default [] (cleanups y.2 !! r_id rt) in
    unsubscribe_all cleanup (put y (set_cleanups y.2 (delete (r_id rt) (cleanups y.2))))
  else y.

Fixpoint remove_all (rs : list Route) (reason : Reason) (y : Sys) : Sys :=
  match rs with
  | [] => y
  | r :: rs => remove_all rs reason (remove r reason y)
  end.

Definition record_activity (t a : text) (y : Sys) : bool * Sys :=
  match IndexMap.get (join t a) (routes y.2) with
  | Some rt => activity rt y
  | None => (false, y)
  end.

Definition revoke_attachment (a : text) (y : Sys) : Z * Sys :=
  let rs := filter (fun r => attachment (registration r) = a) (IndexMap.values (routes y.2)) in
  (len rs, remove_all rs Revoked y).

Definition close_broker (y : Sys) : Sys :=
  remove_all (IndexMap.values (routes y.2)) EndpointDisconnected y.

Definition expiry (now : Z) (c : Connection) : option Reason :=
  if lifetime_ms options <=? now - created c then Some LifetimeExpired
  else if idle_ms options <=? now - last_seen c then Some IdleTimeout
  else None.

Fixpoint sweep_all (refs : list Ref) (now : Z) (y : Sys) : Sys :=
  match refs with
  | [] => y
  | r :: refs =>
      let y :=
        match heap y.2 !! r ≫= expiry now with
        | Some reason => terminate r reason y
        | None => y
        end in
      sweep_all refs now y
  end.

Definition sweep (now : option Z) (y : Sys) : Sys :=
  let '(now, y) := match now with Some n => (n, y) | None => clock_cb y end in
  sweep_all (IndexMap.values (connections y.2)) now y.

(** [Handle::retain], [is_active], [close], [disconnect]. *)
Definition retain (rt : Route) (u : nat) (y : Sys) : Sys :=
  if current_route y.2 rt then
    put y (set_cleanups y.2
             (<[r_id rt := default [] (cleanups y.2 !! r_id rt) ++ [u]]> (cleanups y.2)))
  else unsubscribe_cb u y.
Definition is_active (rt : Route) (y : Sys) : bool := current_route y.2 rt.
Definition close_route (rt : Route) (y : Sys) : Sys := remove rt Normal y.
Definition disconnect (rt : Route) (y : Sys) : Sys := remove rt EndpointDisconnected y.

(** [Broker::stats]. *)
Record Stats := MkStats {
  activeConnections : Z;
  activeRoutes : Z;
  bytesFromSource : Z;
  bytesToSource : Z;
  closedConnections : Z;
  openedConnections : Z;
  rejectedConnections : Z;
  terminationsByReason : list (Reason * Z)
}.
Definition stats (s : State) : Stats :=
  MkStats (len (connections s)) (len (routes s)) (bytes_from s) (bytes_to s) (closed s) (opened s)
    (rejected s) (terminations s).

(** ** receive.rs *)

Definition reject (rt : Route) (h : Header) (code : string) (y : Sys) : Sys :=
  let y := put y (add_rejected y.2) in
  (send_frame rt Source (identities rt (connectionId h) 0 (Rejected code)) [] y).2.

Definition truthy (v : option text) : bool := match v with Some (_ :: _) => true | _ => false end.

Definition is_protected (h : Header) : bool := match body h with Data _ p => p | _ => false end.

Definition payload_valid (h : Header) (payload : list byte) : bool :=
  match body h with
  | Data _ protected =>
      negb (bool_decide (payload = [])) && (len payload <=? TunnelFrame.MAX_PAYLOAD_BYTES)
      && (if protected then TunnelFrame.AUTH_TAG_BYTES <? len payload
          else len payload <=? TunnelFrame.MAX_PLAINTEXT_BYTES)
  | _ => bool_decide (payload = [])
  end.

(** [Broker::allowed]. *)
Definition allowed (sender : Side) (c : Connection) (h : Header) : bool :=
  match body h, sender with
  | (Connect _ _ _ | Open _), _ => false
  | (Accepted _ | Rejected _), Source => false
  | Data d _, Source =>
      is_open c && negb (source_half c) && bool_decide (d = SourceToDestination)
  | Credit d _, Source => bool_decide (d = DestinationToSource)
  | HalfClose d, Source => negb (source_half c) && bool_decide (d = SourceToDestination)
  | (Accepted _ | Rejected _), Destination => negb (is_open c)
  | Data d _, Destination =>
      is_open c && negb (destination_half c) && bool_decide (d = DestinationToSource)
  | Credit d _, Destination => bool_decide (d = SourceToDestination)
  | HalfClose d, Destination => negb (destination_half c) && bool_decide (d = DestinationToSource)
  | _, _ => true
  end.

(** Updates of the connection under its lock. *)
Definition expected (sender : Side) (c : Connection) : Z :=
  match sender with Source => source_sequence c | Destination => destination_sequence c end.
Definition bump (sender : Side) (c : Connection) : Connection :=
  MkConnection (route c) (c_id c) (created c) (last_seen c) (window c) (bandwidth c)
    (match sender with Source => source_sequence c + 1 | Destination => source_sequence c end)
    (match sender with Source => destination_sequence c | Destination => destination_sequence c + 1 end)
    (source_credit c) (destination_credit c) (source_half c) (destination_half c) (is_open c).
Definition touch (now : Z) (c : Connection) : Connection :=
  MkConnection (route c) (c_id c) (created c) now (window c) (bandwidth c)
    (source_sequence c) (destination_sequence c) (source_credit c) (destination_credit c)
    (source_half c) (destination_half c) (is_open c).
Definition accept (n : Z) (c : Connection) : Connection :=
  MkConnection (route c) (c_id c) (created c) (last_seen c) (window c) (bandwidth c)
    (source_sequence c) (destination_sequence c) n (destination_credit c)
    (source_half c) (destination_half c) true.
Definition meter (now n : Z) (c : Connection) : Connection :=
  let fresh := 1000 <=? now - window c in
  MkConnection (route c) (c_id c) (created c) (last_seen c) (if fresh then now else window c)
    ((if fresh then 0 else bandwidth c) + n)
    (source_sequence c) (destination_sequence c) (source_credit c) (destination_credit c)
    (source_half c) (destination_half c) (is_open c).
Definition credit_of (side : Side) (c : Connection) : Z :=
  match side with Source => source_credit c | Destination => destination_credit c end.
Definition set_credit (side : Side) (n : Z) (c : Connection) : Connection :=
  MkConnection (route c) (c_id c) (created c) (last_seen c) (window c) (bandwidth c)
    (source_sequence c) (destination_sequence c)
    (match side with Source => n | Destination => source_credit c end)
    (match side with Source => destination_credit c | Destination => n end)
    (source_half c) (destination_half c) (is_open c).
Definition half_close (side : Side) (c : Connection) : Connection :=
  MkConnection (route c) (c_id c) (created c) (last_seen c) (window c) (bandwidth c)
    (source_sequence c) (destination_sequence c) (source_credit c) (destination_credit c)
    (match side with Source => true | Destination => source_half c end)
    (match side with Source => destination_half c | Destination => true end) (is_open c).

Definition write (ref : Ref) (f : Connection -> Connection) (y : Sys) : Sys :=
  put y (set_heap y.2 (alter f ref (heap y.2))).

Definition same_tunnel (s : State) (t : text) (kr : text * Ref) : Prop :=
  match heap s !! kr.2 with
  | Some c => tunnel (registration (route c)) = t
  | None => False
  end.
#[global] Instance same_tunnel_dec s t kr : Decision (same_tunnel s t kr).
Proof. unfold same_tunnel. destruct (heap s !! kr.2); apply _. Defined.

Definition at_limit (s : State) (t : text) : bool :=
  (max_connections options <=? len (connections s))
  || (max_connections_per_tunnel options <=? len (filter (same_tunnel s t) (connections s))).

(** The branch of [receive] for an unknown connection. *)
Definition open_connection (rt : Route) (h : Header) (n now : Z) (y : Sys) : Ref * Sys :=
  let s := y.2 in
  let ref := next_ref s in
  let c := MkConnection rt (connectionId h) now now now 0 1 0 0 n false false false in
  (ref,
   put y (MkState (routes s)
            (IndexMap.insert (connection_key rt (connectionId h)) ref (connections s))
            (<[ref := c]> (heap s)) (S ref) (cleanups s) (bytes_from s) (bytes_to s)
            (closed s) (opened s + 1) (rejected s) (terminations s))).

Definition receive_open (rt : Route) (h : Header) (n : Z) (payload : list byte) (y : Sys) : Sys :=
  if negb (sequence h =? 0) || negb (payload_valid h payload) then reject rt h "protocol-error" y
  else if at_limit y.2 (tunnel (registration rt)) then reject rt h "limit-exceeded" y
  else
    let '(ok, y) := activity rt y in
    if negb ok then (if current_route y.2 rt then reject rt h "unauthorized" y else y)
    else if negb (current_route y.2 rt) then y
    else
      let '(now, y) := clock_cb y in
      let '(ref, y) := open_connection rt h n now y in
      let r := registration rt in
      let trace := if truthy (diagnostic r) then diagnostic r else None in
      let connect := identities rt (connectionId h) 0 (Connect (target r) n trace) in
      let '(sent, y) := send_frame rt Destination connect [] y in
      if sent then y else terminate ref Congested y.

(** The account's quota, when the route has an owner and a worker. *)
Definition charge (rt : Route) (n : Z) (y : Sys) : bool * Sys :=
  let r := registration rt in
  match owner r, worker r with
  | Some o, Some w =>
      if truthy (owner r) && truthy (worker r) then consume_cb o w n y else (true, y)
  | _, _ => (true, y)
  end.

(** The data branch: the rate of the connection, the account's quota, then the
    receiver's credit. *)
Definition receive_data (rt : Route) (ref : Ref) (sender : Side) (h : Header) (payload : list byte)
    (y : Sys) : Sys :=
  let flow := len payload - (if is_protected h then TunnelFrame.AUTH_TAG_BYTES else 0) in
  let '(now, y) := clock_cb y in
  let y := write ref (meter now (len payload)) y in
  match heap y.2 !! ref with
  | None => y
  | Some c =>
      if negb (bandwidth c <=? bytes_per_second options) then terminate ref BandwidthLimit y
      else
        let '(charged, y) := charge rt (len payload) y in
        if negb charged then terminate ref BandwidthLimit y
        else
          match heap y.2 !! ref with
          | None => y
          | Some c =>
              if credit_of sender c <? flow then terminate ref ProtocolError y
              else
                let y := write ref (set_credit sender (credit_of sender c - flow)) y in
                let y := put y (add_bytes y.2 sender (len payload)) in
                forward ref (other sender) h payload y
          end
  end.

(** The effect of an allowed frame on a live connection. *)
Definition apply_frame (rt : Route) (ref : Ref) (sender : Side) (h : Header) (payload : list byte)
    (y : Sys) : Sys :=
  match body h with
  | Accepted n => forward ref Source h payload (write ref (accept n) y)
  | Rejected _ =>
      let y := forward ref Source h payload (put y (add_rejected y.2)) in
      match heap y.2 !! ref with Some c => put y (finish y.2 c) | None => y end
  | Data _ _ => receive_data rt ref sender h payload y
  | Credit _ n =>
      match heap y.2 !! ref with
      | None => y
      | Some c =>
          if TunnelFrame.MAX_CREDIT_BYTES <? credit_of (other sender) c + n
          then terminate ref ProtocolError y
          else
            forward ref (other sender) h payload
              (write ref (set_credit (other sender) (credit_of (other sender) c + n)) y)
      end
  | HalfClose _ => forward ref (other sender) h payload (write ref (half_close sender) y)
  | Close _ | Error _ =>
      let y := forward ref (other sender) h payload y in
      match heap y.2 !! ref with Some c => put y (finish y.2 c) | None => y end
  | Open _ | Connect _ _ _ => y
  end.

(** The rest of [receive] once the frame's sequence number was consumed. *)
Definition receive_numbered (rt : Route) (ref : Ref) (sender : Side) (h : Header) (payload : list byte)
    (y : Sys) : Sys :=
  let '(now, y) := clock_cb y in
  let y := write ref (touch now) y in
  match heap y.2 !! ref with
  | None => y
  | Some c =>
      if negb (allowed sender c h) then terminate ref ProtocolError y
      else
        let '(ok, y) := activity rt y in
        if negb ok then terminate ref EndpointDisconnected y
        else if negb (current_route y.2 rt)
                || negb (bool_decide (IndexMap.get (connection_key rt (connectionId h)) (connections y.2)
                                      = Some ref))
        then y
        else apply_frame rt ref sender h payload y
  end.

Definition receive (rt : Route) (sender : Side) (h : Header) (payload : list byte) (y : Sys) : Sys :=
  let r := registration rt in
  if negb (bool_decide (tunnelId h = tunnel r)) || negb (bool_decide (attachmentId h = attachment r))
     || negb (bool_decide (sourceEndpointId h = source r))
     || negb (bool_decide (destinationEndpointId h = destination r))
  then y
  else
    match IndexMap.get (connection_key rt (connectionId h)) (connections y.2) with
    | None =>
        match sender, body h with
        | Source, Open n => receive_open rt h n payload y
        | _, _ => y
        end
    | Some ref =>
        match heap y.2 !! ref with
        | None => y
        | Some c =>
            if negb (payload_valid h payload) then terminate ref ProtocolError y
            else if negb (sequence h =? expected sender c) then terminate ref ProtocolError y
            else receive_numbered rt ref sender h payload (write ref (bump sender) y)
        end
    end.

(** ** Revocation *)

(** What may happen to the broker while a callback runs: connections and
    routes end, and are counted; nothing else changes, and a connection that
    is left keeps its route. *)
Record revokes (s s' : State) : Prop := Revokes {
  rv_heap : heap s' = heap s;
  rv_next : next_ref s' = next_ref s;
  rv_connections : connections s' `sublist_of` connections s;
  rv_routes : routes s' `sublist_of` routes s;
  rv_opened : opened s' = opened s;
  rv_closed : closed s' + len (connections s') = closed s + len (connections s);
  rv_homed : forall k r c, (k, r) ∈ connections s' -> heap s !! r = Some c ->
    current_route s (route c) = true -> current_route s' (route c) = true
}.

(** A connection is filed under its own key. *)
Definition keyed (s : State) : Prop :=
  forall k r, (k, r) ∈ connections s ->
    exists c, heap s !! r = Some c /\ k = connection_key (route c) (c_id c).

Definition tidy (s : State) : Prop :=
  keyed s /\ IndexMap.wf (connections s) /\ IndexMap.wf (routes s).

(** The promise of the callbacks. *)
Class CallbackLaws : Prop := {
  send_revokes : forall rt side h p y, tidy y.2 -> revokes y.2 (send_frame rt side h p y).2.2;
  activity_revokes : forall t a y, tidy y.2 -> revokes y.2 (activity_cb t a y).2.2;
  consume_revokes : forall o w n y, tidy y.2 -> revokes y.2 (consume_cb o w n y).2.2;
  unsubscribe_revokes : forall u y, tidy y.2 -> revokes y.2 (unsubscribe_cb u y).2;
  clock_pure : forall y, (clock_cb y).2.2 = y.2
}.

Lemma revokes_refl s : revokes s s.
Proof. constructor; auto. Qed.

Lemma revokes_trans s1 s2 s3 : revokes s1 s2 -> revokes s2 s3 -> revokes s1 s3.
Proof.
  intros [H1 H2 H3 H4 H5 H6 H7] [K1 K2 K3 K4 K5 K6 K7]. constructor; try congruence; try lia.
  - by etrans.
  - by etrans.
  - intros k r c Hin Hc Hr. eapply K7; [done|by rewrite H1|]. eapply H7; [|done|done].
    eapply elem_of_submseteq; [done|by apply sublist_submseteq].
Qed.

Lemma revokes_tidy s s' : revokes s s' -> tidy s -> tidy s'.
Proof.
  intros [H1 H2 H3 H4 H5 H6 H7] (Hk & Hw & Hr). split_and!.
  - intros k r Hin. rewrite H1. apply Hk. eapply elem_of_submseteq; [done|by apply sublist_submseteq].
  - eapply sublist_NoDup; [exact Hw|by apply fmap_sublist].
  - eapply sublist_NoDup; [exact Hr|by apply fmap_sublist].
Qed.

Lemma finish_revokes s c : tidy s -> revokes s (finish s c).
Proof.
  intros (_ & Hw & _). unfold finish, IndexMap.contains_key.
  destruct (IndexMap.get _ (connections s)) as [r|] eqn:Hg; [|apply revokes_refl].
  constructor; simpl; try done.
  - apply IndexMap.remove_sublist.
  - pose proof (IndexMap.length_remove_present _ _ _ Hw Hg). lia.
Qed.

Section lawful.
Context {laws : CallbackLaws}.

Lemma revokes_then s s1 s2 : tidy s -> revokes s s1 -> (tidy s1 -> revokes s1 s2) -> revokes s s2.
Proof. intros Ht H1 H2. eapply revokes_trans; [done|]. apply H2. by eapply revokes_tidy. Qed.

Lemma terminate_revokes ref reason y : tidy y.2 -> revokes y.2 (terminate ref reason y).2.
Proof.
  intros Ht. unfold terminate. destruct (heap y.2 !! ref) as [c|]; [|apply revokes_refl].
  destruct (IndexMap.contains_key _ _); [|apply revokes_refl].
  set (y1 := put y (set_terminations y.2 _)).
  assert (H1 : revokes y.2 y1.2) by (by constructor).
  eapply revokes_then; [done|done|]. intros T1.
  pose proof (send_revokes (route c) Source (identities (route c) (c_id c) (destination_sequence c)
    (Close reason)) [] y1 T1) as H2.
  destruct (send_frame _ Source _ _ y1) as [ok2 y2]. eapply revokes_then; [done|exact H2|]. intros T2.
  pose proof (send_revokes (route c) Destination (identities (route c) (c_id c) (source_sequence c)
    (Close reason)) [] y2 T2) as H3.
  destruct (send_frame _ Destination _ _ y2) as [ok3 y3]. eapply revokes_then; [done|exact H3|].
  intros T3. by apply finish_revokes.
Qed.

(** After [terminate], nothing is filed under the connection's key. *)
Lemma terminate_gone ref reason y c :
  tidy y.2 -> heap y.2 !! ref = Some c ->
  IndexMap.get (connection_key (route c) (c_id c)) (connections (terminate ref reason y).2) = None.
Proof.
  intros Ht Hc. unfold terminate. rewrite Hc. unfold IndexMap.contains_key.
  destruct (IndexMap.get _ (connections y.2)) as [r|] eqn:Hg; [|done].
  destruct (send_frame _ Source _ _ _) as [ok2 y2]. destruct (send_frame _ Destination _ _ y2) as [ok3 y3].
  simpl. unfold finish, IndexMap.contains_key.
  destruct (IndexMap.get _ (connections y3.2)) eqn:Hg3; [|done]. simpl. apply IndexMap.get_remove_eq.
Qed.

Lemma gone_stays s s' k :
  revokes s s' -> IndexMap.get k (connections s) = None -> IndexMap.get k (connections s') = None.
Proof.
  rewrite !IndexMap.get_None. intros Hr Hn Hin. apply Hn. unfold IndexMap.keys in *.
  eapply elem_of_submseteq; [exact Hin|]. apply sublist_submseteq, fmap_sublist, Hr.
Qed.

Lemma terminate_all_revokes refs reason : forall y, tidy y.2 -> revokes y.2 (terminate_all refs reason y).2.
Proof.
  induction refs as [|r refs IH]; intros y Ht; [apply revokes_refl|]. cbn [terminate_all].
  eapply revokes_then; [done|by apply terminate_revokes|auto].
Qed.

Lemma terminate_all_gone refs reason : forall y r c,
  tidy y.2 -> r ∈ refs -> heap y.2 !! r = Some c ->
  IndexMap.get (connection_key (route c) (c_id c)) (connections (terminate_all refs reason y).2) = None.
Proof.
  induction refs as [|r' refs IH]; intros y r c Ht Hin Hc; [by apply elem_of_nil in Hin|].
  cbn [terminate_all]. pose proof (terminate_revokes r' reason y Ht) as Hr.
  assert (Ht' : tidy (terminate r' reason y).2) by (by eapply revokes_tidy).
  apply elem_of_cons in Hin as [<-|Hin].
  - eapply gone_stays; [by apply terminate_all_revokes|]. by apply terminate_gone.
  - eapply IH; [done|done|]. by rewrite (rv_heap _ _ Hr).
Qed.

Lemma unsubscribe_all_revokes l : forall y, tidy y.2 -> revokes y.2 (unsubscribe_all l y).2.
Proof.
  induction l as [|u l IH]; intros y Ht; [apply revokes_refl|]. cbn [unsubscribe_all].
  eapply revokes_then; [done|by apply unsubscribe_revokes|auto].
Qed.

Lemma current_route_other s rt rt' k :
  current_route s rt' = true -> current_route s rt = true -> r_key rt = k -> r_id rt <> r_id rt' ->
  current_route (set_routes s (IndexMap.shift_remove k (routes s))) rt' = true.
Proof.
  unfold current_route. simpl. intros H1 H2 <- Hne.
  destruct (decide (r_key rt = r_key rt')) as [He|He].
  - rewrite He in H2. destruct (IndexMap.get (r_key rt') (routes s)) as [r|]; [|done].
    apply bool_decide_eq_true in H1, H2. congruence.
  - by rewrite IndexMap.get_remove_ne.
Qed.

(** Removing a route ends every connection on it. *)
Lemma remove_revokes rt reason y :
  tidy y.2 ->
  revokes y.2 (remove rt reason y).2 /\
  current_route (remove rt reason y).2 rt = false /\
  (current_route y.2 rt = true -> forall k r c, (k, r) ∈ connections (remove rt reason y).2 ->
     heap y.2 !! r = Some c -> r_id (route c) <> r_id rt).
Proof.
  intros Ht. unfold remove. destruct (current_route y.2 rt) eqn:Hcur; [|by split_and!; [apply revokes_refl|..]].
  set (refs := (filter (on_route y.2 rt) (connections y.2)).*2).
  set (y1 := put y (set_routes y.2 _)). pose proof Ht as (Hk & Hw & Hr).
  assert (T1 : tidy y1.2).
  { split_and!; [exact Hk|exact Hw|]. by apply IndexMap.wf_remove. }
  pose proof (terminate_all_revokes refs reason y1 T1) as R2.
  set (y2 := terminate_all refs reason y1) in *.
  assert (T2 : tidy y2.2) by (by eapply revokes_tidy).
  set (y3 := put y2 (set_cleanups y2.2 _)).
  assert (R3 : revokes y2.2 y3.2) by (by constructor).
  pose proof (unsubscribe_all_revokes (default [] (cleanups y2.2 !! r_id rt)) y3
    (revokes_tidy _ _ R3 T2)) as R4.
  set (y4 := unsubscribe_all _ y3) in *.
  pose proof (revokes_trans _ _ _ R2 (revokes_trans _ _ _ R3 R4)) as R.
  assert (Hsub : forall k r, (k, r) ∈ connections y4.2 -> (k, r) ∈ connections y.2).
  { intros k r Hin. eapply elem_of_submseteq; [exact Hin|]. apply sublist_submseteq.
    exact (rv_connections _ _ R). }
  assert (Hgone : forall k r c, (k, r) ∈ connections y4.2 -> heap y.2 !! r = Some c ->
    r_id (route c) <> r_id rt).
  { intros k r c Hin Hc Hid. pose proof (Hsub k r Hin) as Hin0.
    destruct (Hk k r Hin0) as (c' & Hc' & ->). simplify_eq.
    assert (Hg : IndexMap.get (connection_key (route c) (c_id c)) (connections y4.2) = None).
    { eapply gone_stays; [exact (revokes_trans _ _ _ R3 R4)|].
      eapply (terminate_all_gone refs reason y1 r c T1); [|done].
      apply list_elem_of_fmap. eexists (_, r). split; [done|]. apply list_elem_of_filter.
      split; [|exact Hin0]. unfold on_route. simpl. by rewrite Hc. }
    apply IndexMap.get_None in Hg. apply Hg. apply list_elem_of_fmap. eexists (_, r). by split. }
  assert (Hcur4 : current_route y4.2 rt = false).
  { unfold current_route. destruct (IndexMap.get (r_key rt) (routes y4.2)) eqn:Hg4; [|done].
    apply IndexMap.get_In in Hg4. eapply elem_of_submseteq in Hg4; [|apply sublist_submseteq, R].
    simpl in Hg4. apply IndexMap.elem_of_remove in Hg4 as [Hne _]. by destruct Hne. }
  split_and!; [|done|intros _; exact Hgone]. destruct R as [A1 A2 A3 A4 A5 A6 A7]. constructor; try done.
  - etrans; [exact A4|]. apply IndexMap.remove_sublist.
  - intros k r c Hin Hc Hcr. apply (A7 k r c Hin Hc).
    by apply (current_route_other _ rt); [..|eapply not_eq_sym, Hgone].
Qed.

(** ** The invariant *)

(** [A] is the table of the routes ever allocated: the identity of a route
    decides it. *)
Definition named (rt : Route) (id : text) : Prop :=
  plain (tunnel (registration rt)) /\ plain (attachment (registration rt)) /\ plain id.

Definition conn_ok (A : gmap nat Route) (c : Connection) : Prop :=
  A !! r_id (route c) = Some (route c) /\
  named (route c) (c_id c) /\
  (0 <= source_credit c /\ source_credit c <= TunnelFrame.MAX_CREDIT_BYTES) /\
  (0 <= destination_credit c /\ destination_credit c <= TunnelFrame.MAX_CREDIT_BYTES) /\
  0 <= source_sequence c /\ 0 <= destination_sequence c.

Record inv (A : gmap nat Route) (s : State) : Prop := Inv {
  inv_tidy : tidy s;
  inv_homed : forall k r c, (k, r) ∈ connections s -> heap s !! r = Some c ->
    current_route s (route c) = true;
  inv_filed : forall k rt, (k, rt) ∈ routes s -> k = r_key rt /\ A !! r_id rt = Some rt;
  inv_heap : forall r c, heap s !! r = Some c -> conn_ok A c;
  inv_fresh : forall r c, heap s !! r = Some c -> (r < next_ref s)%nat;
  inv_routes : len (routes s) <= Z.max 0 (max_routes options);
  inv_connections : len (connections s) <= Z.max 0 (max_connections options);
  inv_tunnels : forall t, len (filter (same_tunnel s t) (connections s)) <=
    Z.max 0 (max_connections_per_tunnel options);
  inv_count : opened s = closed s + len (connections s);
  inv_table : forall id rt, A !! id = Some rt -> r_key rt = route_key (registration rt)
}.

Lemma filter_same_tunnel s s' t (l : list (text * Ref)) : heap s' = heap s ->
  filter (same_tunnel s' t) l = filter (same_tunnel s t) l.
Proof. intros H. apply list_filter_iff. intros x. unfold same_tunnel. by rewrite H. Qed.

Lemma inv_revokes A s s' : inv A s -> revokes s s' -> inv A s'.
Proof.
  intros I R. pose proof (revokes_tidy _ _ R (inv_tidy _ _ I)) as T.
  destruct R as [H1 H2 H3 H4 H5 H6 H7], I as [I1 I2 I3 I4 I5 I6 I7 I8 I9]. constructor.
  - done.
  - intros k r c Hin Hc. rewrite H1 in Hc. eapply H7; [done|done|].
    eapply I2; [by eapply sublist_elem|done].
  - intros k rt Hin. apply I3. by eapply sublist_elem.
  - by rewrite H1.
  - rewrite H1, H2. done.
  - apply sublist_len in H4. lia.
  - apply sublist_len in H3. lia.
  - intros t. rewrite (filter_same_tunnel s) by done.
    pose proof (sublist_len _ _ (sublist_filter_mono (same_tunnel s t) _ _ H3)). specialize (I8 t). lia.
  - lia.
  - done.
Qed.

(** Updating a connection in place. *)
Record faithful (A : gmap nat Route) (f : Connection -> Connection) : Prop := {
  ff_route : forall c, route (f c) = route c;
  ff_id : forall c, c_id (f c) = c_id c;
  ff_ok : forall c, conn_ok A c -> conn_ok A (f c)
}.

Lemma heap_alter s ref f r c : alter f ref (heap s) !! r = Some c ->
  exists c0, heap s !! r = Some c0 /\ (c = c0 \/ c = f c0).
Proof.
  destruct (decide (ref = r)) as [->|Hne].
  - rewrite lookup_alter_eq. destruct (heap s !! r); simpl; intros; simplify_eq. eauto.
  - rewrite lookup_alter_ne by done. eauto.
Qed.

Lemma alter_heap s ref f r c0 : heap s !! r = Some c0 ->
  exists c, alter f ref (heap s) !! r = Some c /\ (c = c0 \/ c = f c0).
Proof.
  intros H. destruct (decide (ref = r)) as [->|Hne].
  - rewrite lookup_alter_eq, H. simpl. eauto.
  - rewrite lookup_alter_ne by done. eauto.
Qed.

Lemma same_tunnel_write A s ref f t (l : list (text * Ref)) : faithful A f ->
  filter (same_tunnel (set_heap s (alter f ref (heap s))) t) l = filter (same_tunnel s t) l.
Proof.
  intros F. apply list_filter_iff. intros [k r]. unfold same_tunnel. simpl.
  destruct (decide (ref = r)) as [->|Hne].
  - rewrite lookup_alter_eq. destruct (heap s !! r); simpl; [by rewrite (ff_route _ _ F)|done].
  - by rewrite lookup_alter_ne.
Qed.

Lemma inv_write A ref f y : faithful A f -> inv A y.2 -> inv A (write ref f y).2.
Proof.
  intros F [I1 I2 I3 I4 I5 I6 I7 I8 I9]. destruct F as [F1 F2 F3] eqn:HF. unfold write. simpl.
  constructor; simpl; try done.
  - destruct I1 as (Hk & Hw & Hr). split_and!; [|done|done]. intros k r Hin.
    destruct (Hk k r Hin) as (c0 & Hc0 & ->).
    destruct (alter_heap y.2 ref f r c0 Hc0) as (c & Hc & [->| ->]); eexists; (split; [exact Hc|]);
      [done|]. by rewrite F1, F2.
  - intros k r c Hin Hc. destruct (heap_alter _ _ _ _ _ Hc) as (c0 & Hc0 & [->| ->]).
    + by eapply I2.
    + rewrite F1. by eapply I2.
  - intros r c Hc. destruct (heap_alter _ _ _ _ _ Hc) as (c0 & Hc0 & [->| ->]); eauto.
  - intros r c Hc. destruct (heap_alter _ _ _ _ _ Hc) as (c0 & Hc0 & _); eauto.
  - intros t. rewrite (same_tunnel_write A); [apply I8|done].
Qed.

Ltac ok_fields := intros []; unfold conn_ok, credit_ok; simpl; intros (? & ? & ? & ? & ? & ?); split_and!; auto; lia.

Lemma faithful_bump A side : faithful A (bump side).
Proof. constructor; [done|done|]. destruct side; ok_fields. Qed.
Lemma faithful_touch A now : faithful A (touch now).
Proof. constructor; [done|done|]. ok_fields. Qed.
Lemma faithful_accept A n : credit_ok n -> faithful A (accept n).
Proof. intros [? ?]. constructor; [done|done|]. ok_fields. Qed.
Lemma faithful_meter A now n : faithful A (meter now n).
Proof. constructor; [done|done|]. ok_fields. Qed.
Lemma faithful_half_close A side : faithful A (half_close side).
Proof. constructor; [done|done|]. ok_fields. Qed.
Lemma faithful_set_credit A side n :
  0 <= n <= TunnelFrame.MAX_CREDIT_BYTES -> faithful A (set_credit side n).
Proof. intros [? ?]. constructor; [done|done|]. destruct side; ok_fields. Qed.

Lemma inv_send A rt side h p y : inv A y.2 -> inv A (send_frame rt side h p y).2.2.
Proof. intros I. eapply inv_revokes; [done|]. apply send_revokes, I. Qed.
Lemma inv_activity A rt y : inv A y.2 -> inv A (activity rt y).2.2.
Proof.
  intros I. unfold activity. pose proof (activity_revokes (tunnel (registration rt))
    (attachment (registration rt)) y (inv_tidy _ _ I)) as R.
  destruct (activity_cb _ _ y) as [ok y1]. by eapply inv_revokes.
Qed.
Lemma inv_finish A s c : inv A s -> inv A (finish s c).
Proof. intros I. eapply inv_revokes; [done|]. apply finish_revokes, I. Qed.
Lemma inv_terminate A ref reason y : inv A y.2 -> inv A (terminate ref reason y).2.
Proof. intros I. eapply inv_revokes; [done|]. apply terminate_revokes, I. Qed.
Lemma inv_add_rejected A s : inv A s -> inv A (add_rejected s).
Proof. intros I. eapply inv_revokes; [done|]. by constructor. Qed.
Lemma inv_add_bytes A s side n : inv A s -> inv A (add_bytes s side n).
Proof. intros I. eapply inv_revokes; [done|]. by constructor. Qed.
Lemma inv_remove A rt reason y : inv A y.2 -> inv A (remove rt reason y).2.
Proof. intros I. eapply inv_revokes; [done|]. apply remove_revokes, I. Qed.

Lemma inv_forward A ref side h p y : inv A y.2 -> inv A (forward ref side h p y).2.
Proof.
  intros I. unfold forward. destruct (heap y.2 !! ref) as [c|]; [|done].
  pose proof (inv_send A (route c) side h p y I) as I1.
  destruct (send_frame _ _ _ _ y) as [[] y1]; [done|]. by apply inv_terminate.
Qed.

Lemma inv_finish_ref A ref y : inv A y.2 ->
  inv A (match heap y.2 !! ref with Some c => put y (finish y.2 c) | None => y end).2.
Proof. intros I. destruct (heap y.2 !! ref); [by apply inv_finish|done]. Qed.

Lemma inv_reject A rt h code y : inv A y.2 -> inv A (reject rt h code y).2.
Proof. intros I. by apply inv_send, inv_add_rejected. Qed.

Lemma inv_remove_all A rs reason : forall y, inv A y.2 -> inv A (remove_all rs reason y).2.
Proof. induction rs; intros y I; [done|]. by apply IHrs, inv_remove. Qed.

Lemma inv_sweep_all A refs now : forall y, inv A y.2 -> inv A (sweep_all refs now y).2.
Proof.
  induction refs as [|r refs IH]; intros y I; [done|]. cbn [sweep_all]. apply IH.
  destruct (heap y.2 !! r ≫= expiry now); [by apply inv_terminate|done].
Qed.

Lemma inv_clock A y : inv A y.2 -> inv A (clock_cb y).2.2.
Proof. by rewrite clock_pure. Qed.

Lemma inv_sweep A now y : inv A y.2 -> inv A (sweep now y).2.
Proof.
  intros I. unfold sweep. destruct now as [now|]; [by apply inv_sweep_all|].
  pose proof (inv_clock A y I). destruct (clock_cb y) as [now y1]. by apply inv_sweep_all.
Qed.

Lemma inv_retain A rt u y : inv A y.2 -> inv A (retain rt u y).2.
Proof.
  intros I. unfold retain. destruct (current_route y.2 rt); eapply inv_revokes; [done|..|done|].
  - by constructor.
  - apply unsubscribe_revokes, I.
Qed.

(** Growing the allocation table. *)
Lemma inv_alloc A s id rt :
  A !! id = None -> r_key rt = route_key (registration rt) -> inv A s -> inv (<[id := rt]> A) s.
Proof.
  intros Hn Hkey [I1 I2 I3 I4 I5 I6 I7 I8 I9 I10]. constructor; try done.
  - intros k rt' Hin. destruct (I3 k rt' Hin) as [-> Ha]. split; [done|].
    rewrite lookup_insert_ne; [done|]. congruence.
  - intros r c Hc. destruct (I4 r c Hc) as [Ha Hrest]. split; [|done].
    rewrite lookup_insert_ne; [done|]. congruence.
  - intros id' rt'. destruct (decide (id = id')) as [<-|Hne].
    + rewrite lookup_insert_eq. congruence.
    + rewrite lookup_insert_ne by done. apply I10.
Qed.

Lemma inv_register A s id r rt s' :
  inv A s -> A !! id = None -> register s id r = (inl rt, s') -> inv (<[id := rt]> A) s'.
Proof.
  unfold register. intros I Hn. case_bool_decide; [done|]. unfold IndexMap.contains_key.
  destruct (IndexMap.get (route_key r) (routes s)) eqn:Hg; [done|].
  destruct (max_routes options <=? len (routes s)) eqn:Hl; [done|]. intros Heq. simplify_eq.
  apply Z.leb_gt in Hl. set (rt := MkRoute id (route_key r) r).
  destruct (inv_alloc A s id rt Hn eq_refl I) as [I1 I2 I3 I4 I5 I6 I7 I8 I9]. constructor; simpl; try done.
  - destruct I1 as (Hk & Hw & Hr). split_and!; [done|done|]. by apply IndexMap.wf_insert.
  - intros k r' c Hin Hc. pose proof (I2 k r' c Hin Hc) as Hcur. unfold current_route in *. simpl.
    rewrite IndexMap.get_insert_ne; [done|]. intros He. rewrite <- He, Hg in Hcur. done.
  - intros k rt' Hin. apply IndexMap.elem_of_insert in Hin as [Heq|Hin]; [|by apply I3].
    simplify_eq. simpl. by rewrite lookup_insert_eq.
  - rewrite IndexMap.length_insert_absent by done. lia.
Qed.

Lemma at_limit_revokes s s' t : revokes s s' -> at_limit s t = false -> at_limit s' t = false.
Proof.
  intros R. unfold at_limit. rewrite !orb_false_iff, !Z.leb_gt. intros [H1 H2].
  rewrite (filter_same_tunnel s s') by apply R.
  pose proof (sublist_len _ _ (rv_connections _ _ R)).
  pose proof (sublist_len _ _ (sublist_filter_mono (same_tunnel s t) _ _ (rv_connections _ _ R))). lia.
Qed.

Lemma inv_open_connection A rt h n now y :
  inv A y.2 -> A !! r_id rt = Some rt -> current_route y.2 rt = true ->
  IndexMap.get (connection_key rt (connectionId h)) (connections y.2) = None ->
  at_limit y.2 (tunnel (registration rt)) = false -> credit_ok n -> named rt (connectionId h) ->
  inv A (open_connection rt h n now y).2.2.
Proof.
  intros [I1 I2 I3 I4 I5 I6 I7 I8 I9] Ha Hcur Hg Hl [Hn1 Hn2] Hnm. unfold open_connection. simpl.
  unfold at_limit in Hl. rewrite orb_false_iff, !Z.leb_gt in Hl. destruct Hl as [Hl1 Hl2].
  set (c := MkConnection rt _ _ _ _ _ _ _ _ _ _ _ _). set (ref := next_ref (snd y)).
  rewrite IndexMap.insert_absent by done. destruct I1 as (Hk & Hw & Hr).
  assert (Hold : forall k r, (k, r) ∈ connections y.2 -> <[ref := c]> (heap y.2) !! r = heap y.2 !! r).
  { intros k r Hin. destruct (Hk k r Hin) as (c0 & Hc0 & _). pose proof (I5 _ _ Hc0).
    rewrite lookup_insert_ne; [done|]. unfold ref. lia. }
  assert (Hheap : forall r c', <[ref := c]> (heap y.2) !! r = Some c' ->
    (r = ref /\ c' = c) \/ heap y.2 !! r = Some c').
  { intros r c'. destruct (decide (ref = r)) as [<-|Hne].
    - rewrite lookup_insert_eq. intros. simplify_eq. by left.
    - rewrite lookup_insert_ne by done. by right. }
  constructor; simpl; try done.
  - split_and!; [|rewrite <- (IndexMap.insert_absent (connection_key rt (connectionId h))) by done;
      by apply IndexMap.wf_insert|done].
    intros k r Hin. simpl in *. apply elem_of_app in Hin as [Hin|Hin].
    + rewrite (Hold k r Hin). by apply Hk.
    + apply list_elem_of_singleton in Hin. simplify_eq. rewrite lookup_insert_eq. by exists c.
  - intros k r c' Hin Hc'. unfold current_route in *. simpl. apply elem_of_app in Hin as [Hin|Hin].
    + rewrite (Hold k r Hin) in Hc'. by apply (I2 k r).
    + apply list_elem_of_singleton in Hin. simplify_eq. rewrite lookup_insert_eq in Hc'.
      by simplify_eq.
  - intros r c' Hc'. destruct (Hheap r c' Hc') as [[-> ->]|Hc0]; [|by eapply I4].
    unfold conn_ok. simpl. assert (0 <= TunnelFrame.MAX_CREDIT_BYTES) by done.
    split; [done|]. split; [done|]. split_and!; lia.
  - intros r c' Hc'. destruct (Hheap r c' Hc') as [[-> ->]|Hc0]; [lia|]. apply I5 in Hc0. lia.
  - rewrite length_app. cbn [length]. lia.
  - intros t. specialize (I8 t). rewrite filter_app, length_app.
    rewrite (filter_iff_in _ (same_tunnel y.2 t) (connections y.2)).
    2: { intros [k r] Hin. unfold same_tunnel. simpl. by rewrite (Hold k r Hin). }
    rewrite filter_cons, filter_nil. case_decide as Ht; cbn [length]; [|lia].
    unfold same_tunnel in Ht. simpl in Ht. rewrite lookup_insert_eq in Ht. simpl in Ht. subst t. lia.
  - rewrite length_app. cbn [length]. lia.
Qed.

Lemma inv_receive_open A rt h n payload y :
  inv A y.2 -> A !! r_id rt = Some rt -> credit_ok n -> named rt (connectionId h) ->
  IndexMap.get (connection_key rt (connectionId h)) (connections y.2) = None ->
  inv A (receive_open rt h n payload y).2.
Proof.
  intros I Ha Hn Hnm Hg. unfold receive_open.
  destruct (_ || _); [by apply inv_reject|].
  destruct (at_limit y.2 _) eqn:Hl; [by apply inv_reject|].
  pose proof (inv_activity A rt y I) as I1. unfold activity in *.
  pose proof (activity_revokes (tunnel (registration rt)) (attachment (registration rt)) y
    (inv_tidy _ _ I)) as R.
  destruct (activity_cb _ _ y) as [ok y1]. cbn [snd] in *.
  destruct (negb _); [destruct (current_route y1.2 rt); [by apply inv_reject|done]|].
  destruct (current_route y1.2 rt) eqn:Hcur; [|done]. cbn [negb].
  pose proof (clock_pure y1) as Hp. destruct (clock_cb y1) as [now y2]. simpl in Hp.
  assert (I3 : inv A (open_connection rt h n now y2).2.2).
  { apply inv_open_connection; rewrite ?Hp; try done.
    - by eapply gone_stays.
    - by eapply at_limit_revokes. }
  destruct (open_connection rt h n now y2) as [ref y3]. simpl in I3.
  pose proof (inv_send A rt Destination (identities rt (connectionId h) 0
    (Connect (target (registration rt)) n
       (if truthy (diagnostic (registration rt)) then diagnostic (registration rt) else None)))
    [] y3 I3) as I4.
  destruct (send_frame rt Destination _ [] y3) as [[] y4]; [done|]. by apply inv_terminate.
Qed.

Lemma credit_of_ok A s ref c side : inv A s -> heap s !! ref = Some c ->
  0 <= credit_of side c <= TunnelFrame.MAX_CREDIT_BYTES.
Proof. intros I Hc. destruct (inv_heap _ _ I _ _ Hc) as (_ & _ & ? & ? & _). destruct side; simpl; lia. Qed.

Lemma payload_valid_flow h payload :
  payload_valid h payload = true -> 0 <= len payload - (if is_protected h then TunnelFrame.AUTH_TAG_BYTES else 0).
Proof.
  unfold payload_valid, is_protected. destruct (body h); try lia.
  rewrite !andb_true_iff. intros [_ Hp]. destruct protected; [|lia]. apply Z.ltb_lt in Hp. lia.
Qed.

Lemma charge_revokes rt n y : tidy y.2 -> revokes y.2 (charge rt n y).2.2.
Proof.
  intros T. unfold charge. destruct (owner (registration rt)), (worker (registration rt)); try apply revokes_refl.
  destruct (truthy _ && truthy _); [by apply consume_revokes|apply revokes_refl].
Qed.
Lemma inv_charge A rt n y : inv A y.2 -> inv A (charge rt n y).2.2.
Proof. intros I. eapply inv_revokes; [done|]. apply charge_revokes, I. Qed.

Lemma inv_receive_data A rt ref sender h payload y :
  inv A y.2 -> payload_valid h payload = true -> inv A (receive_data rt ref sender h payload y).2.
Proof.
  intros I Hv%payload_valid_flow. unfold receive_data.
  set (flow := len payload - _) in *. pose proof (inv_clock A y I) as I1.
  destruct (clock_cb y) as [now y1]. cbn [snd] in I1.
  pose proof (inv_write A ref (meter now (len payload)) y1 (faithful_meter A _ _) I1) as I2.
  destruct (heap (write ref _ y1).2 !! ref) as [c|]; [|done].
  destruct (negb (bandwidth c <=? _)); [by apply inv_terminate|].
  set (y2 := write ref _ y1) in *.
  pose proof (inv_charge A rt (len payload) y2 I2) as I3.
  destruct (charge rt _ y2) as [[] y3]; [|by apply inv_terminate]. cbn [snd negb] in *.
  destruct (heap y3.2 !! ref) as [c'|] eqn:Hc'; [|done].
  destruct (credit_of sender c' <? flow) eqn:Hf; [by apply inv_terminate|]. apply Z.ltb_ge in Hf.
  pose proof (credit_of_ok A y3.2 ref c' sender I3 Hc') as Hcr.
  apply inv_forward, inv_add_bytes, inv_write; [|done]. apply faithful_set_credit. lia.
Qed.

Lemma inv_apply_frame A rt ref sender h payload y :
  inv A y.2 -> valid_header h -> payload_valid h payload = true ->
  inv A (apply_frame rt ref sender h payload y).2.
Proof.
  intros I (_ & _ & Hh) Hv. unfold apply_frame. destruct (body h) eqn:Hb; try done.
  - apply inv_forward, inv_write; [by apply faithful_accept|done].
  - apply inv_finish_ref, inv_forward. by apply inv_add_rejected.
  - by apply inv_receive_data.
  - destruct (heap y.2 !! ref) as [c|] eqn:Hc; [|done].
    destruct (_ <? _) eqn:Hl; [by apply inv_terminate|]. apply Z.ltb_ge in Hl.
    pose proof (credit_of_ok A y.2 ref c (other sender) I Hc). destruct Hh.
    apply inv_forward, inv_write; [|done]. apply faithful_set_credit. lia.
  - apply inv_forward, inv_write; [apply faithful_half_close|done].
  - by apply inv_finish_ref, inv_forward.
  - by apply inv_finish_ref, inv_forward.
Qed.

Lemma inv_receive_numbered A rt ref sender h payload y :
  inv A y.2 -> valid_header h -> payload_valid h payload = true ->
  inv A (receive_numbered rt ref sender h payload y).2.
Proof.
  intros I Hh Hv. unfold receive_numbered.
  pose proof (inv_clock A _ I) as I2. destruct (clock_cb _) as [now y2]. cbn [snd] in I2.
  pose proof (inv_write A ref (touch now) y2 (faithful_touch A now) I2) as I3.
  destruct (heap (write ref (touch now) y2).2 !! ref) as [c'|]; [|done].
  destruct (negb (allowed sender c' h)); [by apply inv_terminate|].
  pose proof (inv_activity A rt _ I3) as I4. destruct (activity rt _) as [ok y4]. cbn [snd] in I4.
  destruct (negb ok); [by apply inv_terminate|]. destruct (_ || _); [done|]. by apply inv_apply_frame.
Qed.

Lemma inv_receive A rt sender h payload y :
  inv A y.2 -> A !! r_id rt = Some rt -> valid_header h ->
  inv A (receive rt sender h payload y).2.
Proof.
  intros I Ha Hh. unfold receive. destruct (_ || _) eqn:E; [done|].
  rewrite !orb_false_iff, !negb_false_iff, !bool_decide_eq_true in E.
  destruct E as (((Et & Ea) & _) & _).
  destruct (IndexMap.get _ _) as [ref|] eqn:Hg.
  - destruct (heap y.2 !! ref) as [c|]; [|done].
    destruct (payload_valid h payload) eqn:Hv; [cbn [negb]|by apply inv_terminate].
    destruct (negb (sequence h =? _)); [by apply inv_terminate|].
    pose proof (inv_write A ref (bump sender) y (faithful_bump A sender) I) as I1.
    by apply inv_receive_numbered.
  - destruct sender; [|done]. destruct (body h) eqn:Hb; try done. 
    unfold valid_header in Hh. rewrite Hb, Et, Ea in Hh.
    destruct Hh as (_ & Hnm & Hn). by apply inv_receive_open.
Qed.

Lemma join_inj a a' b b' : plain a -> plain a' -> join a b = join a' b' -> a = a' /\ b = b'.
Proof.
  unfold join, plain. revert a'. induction a as [|x a IH]; intros [|x' a'] Ha Ha' He; simplify_list_eq.
  - done.
  - set_solver.
  - set_solver.
  - destruct (IH a') as [-> ->]; set_solver.
Qed.

Lemma connection_key_inj rt rt' id id' :
  r_key rt = route_key (registration rt) -> r_key rt' = route_key (registration rt') ->
  named rt id -> named rt' id' -> connection_key rt id = connection_key rt' id' ->
  r_key rt = r_key rt' /\ id = id'.
Proof.
  unfold connection_key. intros -> -> (H1 & H2 & _) (H1' & H2' & _). unfold route_key.
  assert (Hassoc : forall a b c, join (join a b) c = join a (join b c)).
  { intros a b c. unfold join. by rewrite <- !app_assoc. }
  rewrite !Hassoc. intros He. apply join_inj in He as [-> He]; [|done..].
  by apply join_inj in He as [-> ->].
Qed.

(** The operations of the broker, in any order, and the changes [E] outside of
    it. *)
Inductive step (E : Sys0 -> Sys0 -> Prop) : gmap nat Route * Sys -> gmap nat Route * Sys -> Prop :=
| step_register A y id r rt s' :
    A !! id = None -> register y.2 id r = (inl rt, s') ->
    step E (A, y) (<[id := rt]> A, put y s')
| step_receive A rt sender h payload y :
    A !! r_id rt = Some rt -> valid_header h ->
    step E (A, y) (A, receive rt sender h payload y)
| step_sweep A now y : step E (A, y) (A, sweep now y)
| step_activity A t a y : step E (A, y) (A, (record_activity t a y).2)
| step_revoke A a y : step E (A, y) (A, (revoke_attachment a y).2)
| step_close A y : step E (A, y) (A, close_broker y)
| step_retain A rt u y : step E (A, y) (A, retain rt u y)
| step_close_route A rt y : step E (A, y) (A, close_route rt y)
| step_disconnect A rt y : step E (A, y) (A, disconnect rt y)
| step_outside A x x' s : E x x' -> step E (A, (x, s)) (A, (x', s)).

Definition reachable (E : Sys0 -> Sys0 -> Prop) (A : gmap nat Route) (y : Sys) : Prop :=
  exists x0, rtc (step E) (∅, (x0, new_state)) (A, y).

Lemma reachable_ind E (P : gmap nat Route -> Sys -> Prop) :
  (forall x, P ∅ (x, new_state)) ->
  (forall A y A' y', reachable E A y -> P A y -> step E (A, y) (A', y') -> P A' y') ->
  forall A y, reachable E A y -> P A y.
Proof.
  intros H0 Hs A y [x0 Hr].
  apply (rtc_ind_r (fun q => P q.1 q.2) (∅, (x0, new_state)) (H0 x0)) in Hr; [done|].
  intros [A1 y1] [A2 y2] Hr1 Hst IH. eapply Hs; [by exists x0|exact IH|exact Hst].
Qed.

Lemma inv_new_broker : inv ∅ new_state.
Proof.
  constructor; simpl; try lia.
  - split_and!; [intros ? ? Hin; by apply elem_of_nil in Hin|apply IndexMap.wf_nil..].
  - intros ? ? ? Hin. by apply elem_of_nil in Hin.
  - intros ? ? Hin. by apply elem_of_nil in Hin.
  - intros ? ?. by rewrite lookup_empty.
  - intros ? ?. by rewrite lookup_empty.
  - intros ? ?. by rewrite lookup_empty.
Qed.

Lemma inv_record_activity A t a y : inv A y.2 -> inv A (record_activity t a y).2.2.
Proof.
  intros I. unfold record_activity. destruct (IndexMap.get _ _); [by apply inv_activity|done].
Qed.

Lemma inv_step E A y A' y' : inv A y.2 -> step E (A, y) (A', y') -> inv A' y'.2.
Proof.
  intros I Hs. inversion Hs; subst; simpl in *.
  - by eapply inv_register.
  - by apply inv_receive.
  - by apply inv_sweep.
  - by apply inv_record_activity.
  - by apply inv_remove_all.
  - by apply inv_remove_all.
  - by apply inv_retain.
  - by apply inv_remove.
  - by apply inv_remove.
  - done.
Qed.

Lemma inv_reachable E A y : reachable E A y -> inv A y.2.
Proof.
  revert A y. apply reachable_ind; [intros x; apply inv_new_broker|].
  intros A y A' y' _ I Hs. by eapply inv_step.
Qed.

(** C4: Whatever the callbacks do (they may revoke routes and connections from
    inside any call), every state the broker reaches keeps its limits on
    routes, connections and connections per tunnel; the statistics balance,
    opened = closed + active; and a connection that is still filed sits under
    its own key, on the very route that is registered, with both credits
    between 0 and the largest window. *)
Theorem broker_invariant E A y :
  reachable E A y ->
  activeRoutes (stats y.2) <= Z.max 0 (max_routes options) /\
  activeConnections (stats y.2) <= Z.max 0 (max_connections options) /\
  (forall t, len (filter (same_tunnel y.2 t) (connections y.2)) <=
     Z.max 0 (max_connections_per_tunnel options)) /\
  openedConnections (stats y.2) = closedConnections (stats y.2) + activeConnections (stats y.2) /\
  (forall k ref, IndexMap.get k (connections y.2) = Some ref ->
     exists c, heap y.2 !! ref = Some c /\ k = connection_key (route c) (c_id c) /\
       IndexMap.get (r_key (route c)) (routes y.2) = Some (route c) /\
       0 <= source_credit c <= TunnelFrame.MAX_CREDIT_BYTES /\
       0 <= destination_credit c <= TunnelFrame.MAX_CREDIT_BYTES).
Proof.
  intros I%inv_reachable. pose proof I as [I1 I2 I3 I4 I5 I6 I7 I8 I9].
  repeat (split; [done|]). intros k ref Hg%IndexMap.get_In.
  destruct I1 as (Hk & _). destruct (Hk k ref Hg) as (c & Hc & ->). exists c.
  destruct (I4 _ _ Hc) as (Ha & _ & H1 & H2 & _). repeat (split; [done|]). split; [|done].
  pose proof (I2 _ _ _ Hg Hc) as Hcur. unfold current_route in Hcur.
  destruct (IndexMap.get (r_key (route c)) (routes y.2)) as [rt|] eqn:Hr; [|done].
  apply bool_decide_eq_true in Hcur. apply IndexMap.get_In, I3 in Hr as [_ Hr]. congruence.
Qed.


Lemma revokes_current s s' rt :
  tidy s -> revokes s s' -> current_route s' rt = true -> current_route s rt = true.
Proof.
  intros (_ & _ & Hr) R. unfold current_route.
  destruct (IndexMap.get (r_key rt) (routes s')) as [r|] eqn:Hg; [|done].
  apply IndexMap.get_In in Hg. eapply sublist_elem in Hg; [|apply R].
  by rewrite (IndexMap.In_get _ _ _ Hr Hg).
Qed.

Lemma remove_all_spec rs reason : forall y,
  tidy y.2 ->
  revokes y.2 (remove_all rs reason y).2 /\
  (forall rt, rt ∈ rs -> current_route (remove_all rs reason y).2 rt = false).
Proof.
  induction rs as [|rt0 rs IH]; intros y T; [split; [apply revokes_refl|set_solver]|].
  cbn [remove_all]. destruct (remove_revokes rt0 reason y T) as (R0 & H0 & _).
  pose proof (revokes_tidy _ _ R0 T) as T1. destruct (IH _ T1) as [R1 H1].
  split; [by eapply revokes_trans|]. intros rt [->|Hin]%elem_of_cons; [|by apply H1].
  apply not_true_is_false. intros Hc. apply (revokes_current _ _ _ T1 R1) in Hc. congruence.
Qed.

Lemma registered_current A s k rt : inv A s -> (k, rt) ∈ routes s -> current_route s rt = true.
Proof.
  intros I Hin. destruct (inv_tidy _ _ I) as (_ & _ & Hw). destruct (inv_filed _ _ I _ _ Hin) as [-> _].
  unfold current_route. rewrite (IndexMap.In_get _ _ _ Hw Hin). by apply bool_decide_eq_true.
Qed.

(** What is left after removing every route that satisfies [P]. *)
Lemma remove_all_complete A (P : Route -> Prop) `{!forall r, Decision (P r)} reason y :
  inv A y.2 -> let y' := remove_all (filter P (IndexMap.values (routes y.2))) reason y in
  (forall k rt, (k, rt) ∈ routes y'.2 -> ~ P rt) /\
  (forall k ref c, (k, ref) ∈ connections y'.2 -> heap y'.2 !! ref = Some c -> ~ P (route c)).
Proof.
  intros I y'. destruct (remove_all_spec (filter P (IndexMap.values (routes y.2))) reason y
    (inv_tidy _ _ I)) as [R Hgone]. fold y' in R, Hgone.
  pose proof (inv_remove_all A (filter P (IndexMap.values (routes y.2))) reason y I) as I'. fold y' in I'.
  assert (Hroutes : forall k rt, (k, rt) ∈ routes y'.2 -> ~ P rt).
  { intros k rt Hin HP. pose proof (registered_current _ _ _ _ I' Hin) as Hc.
    rewrite Hgone in Hc; [done|]. apply list_elem_of_filter. split; [done|].
    apply list_elem_of_fmap. exists (k, rt). split; [done|]. eapply sublist_elem; [done|apply R]. }
  split; [done|]. intros k ref c Hin Hc HP. pose proof (inv_homed _ _ I' _ _ _ Hin Hc) as Hcur.
  unfold current_route in Hcur. destruct (IndexMap.get _ (routes y'.2)) as [rt|] eqn:Hg; [|done].
  apply bool_decide_eq_true in Hcur. apply IndexMap.get_In in Hg.
  destruct (inv_filed _ _ I' _ _ Hg) as [_ Ha]. destruct (inv_heap _ _ I' _ _ Hc) as [Ha' _].
  apply (Hroutes _ _ Hg). congruence.
Qed.

(** C5: Revocation is complete: after [revoke_attachment a] no route of the
    attachment is registered and no connection of such a route is left, even
    when the callbacks revoke other routes meanwhile; and closing the broker
    leaves neither route nor connection. *)
Theorem revocation_complete E A y a :
  reachable E A y ->
  (let y' := (revoke_attachment a y).2 in
   (forall k rt, (k, rt) ∈ routes y'.2 -> attachment (registration rt) <> a) /\
   (forall k ref c, (k, ref) ∈ connections y'.2 -> heap y'.2 !! ref = Some c ->
      attachment (registration (route c)) <> a)) /\
  routes (close_broker y).2 = [] /\ connections (close_broker y).2 = [].
Proof.
  intros I%inv_reachable. split; [exact (remove_all_complete A _ Revoked y I)|].
  pose proof (remove_all_complete A (fun _ => True) EndpointDisconnected y I) as [H1 H2].
  rewrite filter_all in H1, H2. fold (close_broker y) in H1, H2. split.
  - destruct (routes (close_broker y).2) as [|[k rt] l]; [done|]. destruct (H1 k rt); [set_solver|done].
  - pose proof (inv_remove_all A (IndexMap.values (routes y.2)) EndpointDisconnected y I) as I'.
    fold (close_broker y) in I'. destruct (inv_tidy _ _ I') as (Hk & _).
    destruct (connections (close_broker y).2) as [|[k ref] l] eqn:Hl; [done|].
    destruct (Hk k ref) as (c & Hc & _); [rewrite Hl; set_solver|].
    destruct (H2 k ref c); [set_solver|done|done].
Qed.
End lawful.

(** ** The stream of one connection

    The specification: what each end of a connection may send, independent of
    tables, clocks and callbacks, the same for both sides. *)

(** A frame handed to an endpoint. *)
Record Sent := MkSent { s_route : nat; s_to : Side; s_header : Header; s_payload : list byte }.

Record Stream := MkStream {
  next_sequence : Side -> Z;
  credit : Side -> Z;
  half_closed : Side -> bool;
  accepted : bool
}.

Definition view (c : Connection) : Stream :=
  MkStream (fun side => expected side c) (fun side => credit_of side c)
    (fun side => match side with Source => source_half c | Destination => destination_half c end)
    (is_open c).

Definition direction_of (side : Side) : Direction :=
  match side with Source => SourceToDestination | Destination => DestinationToSource end.

Definition update {X} (f : Side -> X) (side : Side) (x : X) : Side -> X :=
  fun s => if decide (s = side) then x else f s.

Definition flow_of (h : Header) (payload : list byte) : Z :=
  len payload - (if is_protected h then TunnelFrame.AUTH_TAG_BYTES else 0).

(** One frame from [sender]; [None] when the stream does not go on after it. *)
Definition stream_step (sender : Side) (h : Header) (payload : list byte) (s : Stream) : option Stream :=
  if payload_valid h payload && (sequence h =? next_sequence s sender) then
    let sequences := update (next_sequence s) sender (next_sequence s sender + 1) in
    match body h with
    | Accepted n =>
        if bool_decide (sender = Destination) && negb (accepted s)
        then Some (MkStream sequences (update (credit s) Source n) (half_closed s) true) else None
    | Data d _ =>
        if accepted s && negb (half_closed s sender) && bool_decide (d = direction_of sender)
           && (flow_of h payload <=? credit s sender)
        then Some (MkStream sequences (update (credit s) sender (credit s sender - flow_of h payload))
                     (half_closed s) (accepted s))
        else None
    | Credit d n =>
        let granted := credit s (other sender) + n in
        if bool_decide (d = direction_of (other sender)) && (granted <=? TunnelFrame.MAX_CREDIT_BYTES)
        then Some (MkStream sequences (update (credit s) (other sender) granted) (half_closed s)
                     (accepted s))
        else None
    | HalfClose d =>
        if negb (half_closed s sender) && bool_decide (d = direction_of sender)
        then Some (MkStream sequences (credit s) (update (half_closed s) sender true) (accepted s))
        else None
    | _ => None
    end
  else None.

(** Two streams that agree side by side. *)
Definition stream_eq (s s' : Stream) : Prop :=
  (forall side, next_sequence s side = next_sequence s' side /\ credit s side = credit s' side /\
     half_closed s side = half_closed s' side) /\
  accepted s = accepted s'.

(** The frames of [c] among those sent. *)
Definition on_stream (c : Connection) (e : Sent) : Prop :=
  s_route e = r_id (route c) /\ connectionId (s_header e) = c_id c.
#[local] Instance on_stream_dec c e : Decision (on_stream c e).
Proof. unfold on_stream. apply _. Defined.

(** A frame of no connection that is filed. *)
Definition stray (s : State) (e : Sent) : Prop :=
  forall k r c, (k, r) ∈ connections s -> heap s !! r = Some c -> ~ on_stream c e.

(** What the stream argument needs of a state; it also holds between the steps
    of [remove]. *)
Definition sound (A : gmap nat Route) (s : State) : Prop :=
  tidy s /\ forall r c, heap s !! r = Some c -> A !! r_id (route c) = Some (route c).

(** The log went on with [l], and besides only with frames of connections that are
    not filed any more. *)
Definition adds (l : list Sent) (s' : State) (old new : list Sent) : Prop :=
  exists pre post, new = old ++ pre ++ l ++ post /\ Forall (stray s') (pre ++ post).

(** The routes of [P] and their connections are left alone. *)
Definition spares (P : nat -> Prop) (s s' : State) : Prop :=
  (forall k rt, (k, rt) ∈ routes s -> P (r_id rt) -> (k, rt) ∈ routes s') /\
  (forall k r c, (k, r) ∈ connections s -> heap s !! r = Some c -> P (r_id (route c)) ->
     (k, r) ∈ connections s').

(** Endpoints whose frames are logged. A callback may revoke from inside any call:
    what it sends meanwhile is sent on connections that it ends. The routes of
    [spared] are those it does not revoke; there may be none. *)
Class Logged := {
  log : Sys0 -> list Sent;
  spared : nat -> Prop;
  send_logged : forall A rt side h p y, sound A y.2 ->
    adds [MkSent (r_id rt) side h p] (send_frame rt side h p y).2.2 (log y.1)
      (log (send_frame rt side h p y).2.1) /\
    spares spared y.2 (send_frame rt side h p y).2.2;
  activity_logged : forall A t a y, sound A y.2 ->
    adds [] (activity_cb t a y).2.2 (log y.1) (log (activity_cb t a y).2.1) /\
    spares spared y.2 (activity_cb t a y).2.2;
  consume_logged : forall A o w n y, sound A y.2 ->
    adds [] (consume_cb o w n y).2.2 (log y.1) (log (consume_cb o w n y).2.1) /\
    spares spared y.2 (consume_cb o w n y).2.2;
  unsubscribe_logged : forall A u y, sound A y.2 ->
    adds [] (unsubscribe_cb u y).2 (log y.1) (log (unsubscribe_cb u y).1) /\
    spares spared y.2 (unsubscribe_cb u y).2;
  clock_logged : forall y, log (clock_cb y).2.1 = log y.1
}.

Section logged.
Context {laws : CallbackLaws} {logged : Logged}.

(** [s'] differs from [s] in the connection at [ref], in counters, and in what the
    callbacks revoked; the entry of the key [dropped] may be gone too. *)
Record moved (ref : Ref) (dropped : option text) (s s' : State) : Prop := Moved {
  mv_connections : connections s' `sublist_of` connections s;
  mv_routes : routes s' `sublist_of` routes s;
  mv_heap : forall r, r <> ref -> heap s' !! r = heap s !! r;
  mv_ref : (fun c => (route c, c_id c)) <$> heap s' !! ref = (fun c => (route c, c_id c)) <$> heap s !! ref;
  mv_spared_routes : forall k rt, (k, rt) ∈ routes s -> spared (r_id rt) -> (k, rt) ∈ routes s';
  mv_spared : forall k r c, (k, r) ∈ connections s -> heap s !! r = Some c ->
    spared (r_id (route c)) -> Some k <> dropped -> (k, r) ∈ connections s'
}.

Lemma moved_self ref d s : moved ref d s s.
Proof. by constructor. Qed.

Lemma moved_heap ref d s s' r c' :
  moved ref d s s' -> heap s' !! r = Some c' ->
  exists c, heap s !! r = Some c /\ route c' = route c /\ c_id c' = c_id c.
Proof.
  intros M Hc. destruct (decide (r = ref)) as [->|Hr].
  - pose proof (mv_ref _ _ _ _ M) as E. rewrite Hc in E. destruct (heap s !! ref) as [c|]; [|done].
    simpl in E. exists c. split; [done|]. split; congruence.
  - rewrite (mv_heap _ _ _ _ M r Hr) in Hc. by exists c'.
Qed.
Lemma moved_heap_to ref d s s' r c :
  moved ref d s s' -> heap s !! r = Some c ->
  exists c', heap s' !! r = Some c' /\ route c' = route c /\ c_id c' = c_id c.
Proof.
  intros M Hc. destruct (decide (r = ref)) as [->|Hr].
  - pose proof (mv_ref _ _ _ _ M) as E. rewrite Hc in E. destruct (heap s' !! ref) as [c'|]; [|done].
    simpl in E. exists c'. split; [done|]. split; congruence.
  - exists c. by rewrite (mv_heap _ _ _ _ M r Hr).
Qed.

Lemma moved_along ref d s1 s2 s3 : moved ref d s1 s2 -> moved ref d s2 s3 -> moved ref d s1 s3.
Proof.
  intros M N. pose proof M as [M1 M2 M3 M4 M5 M6]. pose proof N as [N1 N2 N3 N4 N5 N6]. constructor.
  - by etrans.
  - by etrans.
  - intros r Hr. rewrite N3, M3; done.
  - congruence.
  - auto.
  - intros k r c Hin Hc Hs Hd. destruct (moved_heap_to _ _ _ _ _ _ M Hc) as (c' & Hc' & Er & _).
    apply (N6 k r c'); [by eapply M6|done|by rewrite Er|done].
Qed.
Lemma moved_weaken ref d s s' : moved ref None s s' -> moved ref d s s'.
Proof. intros [M1 M2 M3 M4 M5 M6]. constructor; try done. intros. by eapply M6. Qed.
Lemma moved_revokes ref s s' : revokes s s' -> spares spared s s' -> moved ref None s s'.
Proof. intros [R1 R2 R3 R4 R5 R6 R7] [S1 S2]. constructor; rewrite ?R1; try done. intros. by eapply S2. Qed.
Lemma moved_write ref f s :
  (forall c, route (f c) = route c /\ c_id (f c) = c_id c) -> moved ref None s (set_heap s (alter f ref (heap s))).
Proof.
  intros Hf. constructor; simpl; try done.
  - intros r Hr. by rewrite lookup_alter_ne.
  - rewrite lookup_alter_eq. destruct (heap s !! ref) as [c|]; [|done]. simpl. by destruct (Hf c) as [-> ->].
Qed.

Lemma moved_sound ref d A s s' : moved ref d s s' -> sound A s -> sound A s'.
Proof.
  intros M [(Hk & Hw & Hr) Ht]. split; [split_and!|].
  - intros k r Hin. destruct (Hk k r) as (c & Hc & ->); [by eapply sublist_elem; [|apply M]|].
    destruct (moved_heap_to _ _ _ _ _ _ M Hc) as (c' & Hc' & Er & Ei). exists c'. by rewrite Er, Ei.
  - eapply sublist_NoDup; [exact Hw|]. apply fmap_sublist, M.
  - eapply sublist_NoDup; [exact Hr|]. apply fmap_sublist, M.
  - intros r c Hc. destruct (moved_heap _ _ _ _ _ _ M Hc) as (c0 & Hc0 & -> & _). by eapply Ht.
Qed.

Lemma moved_stray ref d s s' e : moved ref d s s' -> stray s e -> stray s' e.
Proof.
  intros M Hs k r c' Hin Hc'. destruct (moved_heap _ _ _ _ _ _ M Hc') as (c & Hc & Er & Ei).
  unfold on_stream. rewrite Er, Ei. eapply Hs; [|done]. by eapply sublist_elem; [|apply M].
Qed.

Lemma moved_gone ref d s s' k :
  moved ref d s s' -> IndexMap.get k (connections s) = None -> IndexMap.get k (connections s') = None.
Proof.
  rewrite !IndexMap.get_None. intros M Hn Hin. apply Hn. unfold IndexMap.keys in *.
  eapply elem_of_submseteq; [exact Hin|]. apply sublist_submseteq, fmap_sublist, M.
Qed.

(** An entry that is not there any more left nothing under its key. *)
Lemma moved_entry ref d A s s' k r :
  sound A s -> moved ref d s s' -> IndexMap.get k (connections s) = Some r ->
  IndexMap.get k (connections s') = Some r \/ IndexMap.get k (connections s') = None.
Proof.
  intros [(_ & Hw & _) _] M Hg. destruct (IndexMap.get k (connections s')) as [r'|] eqn:Hg'; [left|by right].
  apply IndexMap.get_In in Hg'. eapply sublist_elem in Hg'; [|apply M].
  apply IndexMap.In_get in Hg'; [|done]. congruence.
Qed.

(** What the log went on with. *)
Lemma adds_refl s l : adds [] s l l.
Proof. exists [], []. by rewrite !app_nil_r. Qed.
Lemma adds_later ref d l s1 s2 a b c :
  adds [] s1 a b -> moved ref d s1 s2 -> adds l s2 b c -> adds l s2 a c.
Proof.
  intros (p1 & q1 & -> & F1) M (p2 & q2 & -> & F2). exists (p1 ++ q1 ++ p2), q2.
  split; [by rewrite <- !app_assoc|]. rewrite <- !app_assoc. rewrite app_assoc. apply Forall_app. split; [|done].
  eapply Forall_impl; [exact F1|]. intros e. by eapply moved_stray.
Qed.
Lemma adds_more ref d l s1 s2 a b c :
  adds l s1 a b -> moved ref d s1 s2 -> adds [] s2 b c -> adds l s2 a c.
Proof.
  intros (p1 & q1 & -> & F1) M (p2 & q2 & -> & F2). exists p1, (q1 ++ p2 ++ q2).
  split; [by rewrite <- !app_assoc|]. rewrite app_assoc. apply Forall_app. split; [|done].
  eapply Forall_impl; [exact F1|]. intros e. by eapply moved_stray.
Qed.

(** The log went on with frames of [c], and besides only with frames of connections
    that are not filed any more. *)
Definition owns (c : Connection) (s' : State) (old new : list Sent) : Prop :=
  exists ext, new = old ++ ext /\ Forall (fun e => on_stream c e \/ stray s' e) ext.

Lemma owns_adds c l s a b : Forall (on_stream c) l -> adds l s a b -> owns c s a b.
Proof.
  intros Hl (p & q & -> & [F1 F2]%Forall_app). exists (p ++ l ++ q). split; [done|].
  rewrite !Forall_app. split_and!; (eapply Forall_impl; [eassumption|]); auto.
Qed.
Lemma owns_trans ref d c s1 s2 x y z : owns c s1 x y -> moved ref d s1 s2 -> owns c s2 y z -> owns c s2 x z.
Proof.
  intros (e1 & -> & F1) M (e2 & -> & F2). exists (e1 ++ e2). split; [by rewrite app_assoc|].
  apply Forall_app. split; [|done]. eapply Forall_impl; [exact F1|].
  intros e [He|He]; [by left|right]. by eapply moved_stray.
Qed.
Lemma owns_same c c' s a b : route c' = route c -> c_id c' = c_id c -> owns c' s a b -> owns c s a b.
Proof. intros Er Ei. unfold owns, on_stream. by rewrite Er, Ei. Qed.

(** What a callback may do. *)
Definition called (l : list Sent) (y y' : Sys) : Prop :=
  revokes y.2 y'.2 /\ spares spared y.2 y'.2 /\ adds l y'.2 (log y.1) (log y'.1).

Lemma called_moved ref l y y' : called l y y' -> moved ref None y.2 y'.2.
Proof. intros (R & S & _). by apply moved_revokes. Qed.
Lemma called_refl y y' : y'.2 = y.2 -> log y'.1 = log y.1 -> called [] y y'.
Proof. intros H1 H2. unfold called. rewrite H1, H2. split; [apply revokes_refl|]. split; [by split|apply adds_refl]. Qed.
Lemma send_called A rt side h p y :
  sound A y.2 -> called [MkSent (r_id rt) side h p] y (send_frame rt side h p y).2.
Proof. intros S. destruct (send_logged A rt side h p y S). split; [apply send_revokes, S|done]. Qed.
Lemma activity_called A rt y : sound A y.2 -> called [] y (activity rt y).2.
Proof.
  intros S. unfold activity. set (t := tunnel _). set (a := attachment _).
  destruct (activity_logged A t a y S). pose proof (activity_revokes t a y (proj1 S)).
  destruct (activity_cb t a y). done.
Qed.
Lemma charge_called A rt n y : sound A y.2 -> called [] y (charge rt n y).2.
Proof.
  intros S. unfold charge. destruct (owner (registration rt)) as [o|], (worker (registration rt)) as [w|];
    try by apply called_refl. destruct (truthy _ && truthy _); [|by apply called_refl].
  destruct (consume_logged A o w n y S). split; [apply consume_revokes, S|done].
Qed.
Lemma unsubscribe_called A u y : sound A y.2 -> called [] y (unsubscribe_cb u y).
Proof. intros S. destruct (unsubscribe_logged A u y S). split; [apply unsubscribe_revokes, S|done]. Qed.
Lemma clock_called y : (clock_cb y).2.2 = y.2 /\ log (clock_cb y).2.1 = log y.1.
Proof. split; [apply clock_pure|apply clock_logged]. Qed.

(** [y'] differs from [y] in the connection at [ref], in counters, and in what the
    callbacks revoked. *)
Definition near (ref : Ref) (y y' : Sys) : Prop :=
  moved ref None y.2 y'.2 /\ adds [] y'.2 (log y.1) (log y'.1).

(** The connection [c] at [ref] has ended: its entry is gone, what was sent
    meanwhile was sent on it or on other connections that ended, and nothing else
    changed but what the callbacks revoked. *)
Record ended (ref : Ref) (c : Connection) (y y' : Sys) : Prop := Ended {
  ended_moved : moved ref (Some (connection_key (route c) (c_id c))) y.2 y'.2;
  ended_gone : IndexMap.get (connection_key (route c) (c_id c)) (connections y'.2) = None;
  ended_log : owns c y'.2 (log y.1) (log y'.1)
}.

(** The frame was handed on and the connection, still filed, went from [c] to [c']:
    the frame is all that was sent on it, and nothing else changed but what the
    callbacks revoked. *)
Record forwarded (ref : Ref) (c c' : Connection) (to : Side) (h : Header) (payload : list byte)
    (y y' : Sys) : Prop := Forwarded {
  fw_moved : moved ref None y.2 y'.2;
  fw_filed : IndexMap.get (connection_key (route c) (c_id c)) (connections y'.2) = Some ref;
  fw_conn : heap y'.2 !! ref = Some c';
  fw_same : route c' = route c /\ c_id c' = c_id c;
  fw_log : adds [MkSent (r_id (route c)) to h payload] y'.2 (log y.1) (log y'.1)
}.

Lemma near_refl ref y : near ref y y.
Proof. split; [apply moved_self|apply adds_refl]. Qed.
Lemma near_trans ref y1 y2 y3 : near ref y1 y2 -> near ref y2 y3 -> near ref y1 y3.
Proof. intros [M1 L1] [M2 L2]. split; [by eapply moved_along|by eapply adds_later]. Qed.
Lemma near_write ref f y : (forall c, route (f c) = route c /\ c_id (f c) = c_id c) -> near ref y (write ref f y).
Proof. intros Hf. split; [by apply moved_write|apply adds_refl]. Qed.
Lemma near_called ref y y' : called [] y y' -> near ref y y'.
Proof. intros C. split; [by eapply called_moved|apply C]. Qed.
Lemma near_same ref y y' : y'.2 = y.2 -> log y'.1 = log y.1 -> near ref y y'.
Proof. intros. by apply near_called, called_refl. Qed.
Lemma near_counters ref y s' :
  connections s' = connections y.2 -> routes s' = routes y.2 -> heap s' = heap y.2 -> near ref y (put y s').
Proof. intros E1 E2 E3. split; [|apply adds_refl]. by constructor; simpl; rewrite ?E1, ?E2, ?E3. Qed.

Lemma ended_near ref c c1 y y1 y' :
  near ref y y1 -> route c1 = route c -> c_id c1 = c_id c -> ended ref c1 y1 y' -> ended ref c y y'.
Proof.
  intros [M L] Er Ei [E1 E2 E3]. rewrite Er, Ei in E1, E2. constructor.
  - eapply moved_along; [by apply moved_weaken|done].
  - done.
  - eapply owns_trans; [by apply (owns_adds c [])|exact E1|by eapply owns_same].
Qed.

Lemma finish_moves ref s c : moved ref (Some (connection_key (route c) (c_id c))) s (finish s c).
Proof.
  unfold finish. destruct (IndexMap.contains_key _ _); [|apply moved_self]. constructor; simpl; try done.
  - apply IndexMap.remove_sublist.
  - intros k r c' Hin _ _ Hd. apply IndexMap.elem_of_remove. split; [simpl; congruence|done].
Qed.

(** What [terminate] does to a connection. *)
Lemma terminate_ended A ref reason y c :
  sound A y.2 -> heap y.2 !! ref = Some c -> ended ref c y (terminate ref reason y).
Proof.
  intros S Hc. pose proof (terminate_gone ref reason y c (proj1 S) Hc) as Hgone.
  split; [|exact Hgone|]; clear Hgone; unfold terminate; rewrite Hc;
    (destruct (IndexMap.contains_key _ _); [|first [apply moved_self|by apply (owns_adds c []), adds_refl]]);
    set (y1 := put y _);
    (assert (S1 : sound A y1.2) by exact S);
    (assert (N1 : near ref y y1) by (by apply near_counters));
    pose proof (send_called A (route c) Source (identities (route c) (c_id c) (destination_sequence c)
      (Close reason)) [] y1 S1) as C2;
    destruct (send_frame (route c) Source _ _ y1) as [ok2 y2]; cbn [snd] in C2;
    (assert (S2 : sound A y2.2) by (eapply moved_sound; [by apply (called_moved ref) in C2|done]));
    pose proof (send_called A (route c) Destination (identities (route c) (c_id c) (source_sequence c)
      (Close reason)) [] y2 S2) as C3;
    destruct (send_frame (route c) Destination _ _ y2) as [ok3 y3]; cbn [snd] in C3; cbn [snd put].
  - eapply moved_along; [apply moved_weaken, N1|]. eapply moved_along; [apply moved_weaken; by eapply called_moved|].
    eapply moved_along; [apply moved_weaken; by eapply called_moved|]. apply finish_moves.
  - assert (O3 : owns c y3.2 (log y.1) (log y3.1)).
    { destruct C2 as (R2 & P2 & L2), C3 as (R3 & P3 & L3).
      eapply (owns_trans ref None); [eapply owns_adds; [|exact L2]|by apply moved_revokes|eapply owns_adds; [|exact L3]];
        by repeat constructor. }
    eapply (owns_trans ref); [exact O3|apply finish_moves|]. exists []. by rewrite app_nil_r.
Qed.

Lemma terminate_near A ref reason y y2 c c2 :
  sound A y.2 -> near ref y y2 -> heap y2.2 !! ref = Some c2 -> route c2 = route c -> c_id c2 = c_id c ->
  ended ref c y (terminate ref reason y2).
Proof.
  intros S N H2 Er Ei. eapply (ended_near _ c c2); [exact N|done|done|].
  eapply terminate_ended; [|done]. by eapply moved_sound; [apply N|].
Qed.

(** A connection that a callback ended. *)
Lemma revoked_ended A ref c y y' :
  sound A y.2 -> near ref y y' -> IndexMap.get (connection_key (route c) (c_id c)) (connections y.2) = Some ref ->
  heap y.2 !! ref = Some c ->
  IndexMap.get (connection_key (route c) (c_id c)) (connections y'.2) <> Some ref ->
  ended ref c y y' /\ ~ spared (r_id (route c)).
Proof.
  intros S [M L] Hg Hc Hn. split.
  - destruct (moved_entry _ _ _ _ _ _ _ S M Hg) as [?|Hg']; [done|].
    split; [by apply moved_weaken|done|by apply (owns_adds c [])].
  - intros Hs. apply Hn. apply IndexMap.In_get.
    + by destruct (moved_sound _ _ _ _ _ M S) as [(_ & Hw & _) _].
    + eapply (mv_spared _ _ _ _ M); [by apply IndexMap.get_In|done|done|done].
Qed.

(** Handing a frame on after the connection was updated to [c']. *)
Lemma forward_cases A ref to h payload y y1 c c' :
  sound A y.2 -> near ref y y1 -> heap y.2 !! ref = Some c ->
  heap y1.2 !! ref = Some c' -> route c' = route c -> c_id c' = c_id c ->
  IndexMap.get (connection_key (route c) (c_id c)) (connections y.2) = Some ref ->
  connectionId h = c_id c ->
  ended ref c y (forward ref to h payload y1) /\
    ((send_frame (route c) to h payload y1).1 = true -> ~ spared (r_id (route c))) \/
  forwarded ref c c' to h payload y (forward ref to h payload y1).
Proof.
  intros S N Hc0 Hc Er Ei Hg Hid. unfold forward. rewrite Hc, Er.
  assert (S1 : sound A y1.2) by (by eapply moved_sound; [apply N|]).
  pose proof (send_called A (route c) to h payload y1 S1) as C.
  destruct (send_frame (route c) to h payload y1) as [ok y2]. cbn [fst snd] in *.
  assert (S2 : sound A y2.2) by (eapply moved_sound; [by apply (called_moved ref) in C|done]).
  assert (M2 : moved ref None y.2 y2.2) by (eapply moved_along; [apply N|by eapply called_moved]).
  assert (Hc2 : heap y2.2 !! ref = Some c') by (by rewrite (rv_heap _ _ (proj1 C))).
  assert (L2 : adds [MkSent (r_id (route c)) to h payload] y2.2 (log y.1) (log y2.1))
    by (eapply (adds_later ref); [apply N|by eapply called_moved|apply C]).
  assert (O2 : owns c y2.2 (log y.1) (log y2.1)) by (eapply owns_adds; [|exact L2]; by repeat constructor).
  destruct ok.
  - destruct (moved_entry _ _ _ _ _ _ _ S M2 Hg) as [Hf|Hf]; [by right; constructor|]. left. split.
    + split; [by apply moved_weaken|done|done].
    + intros _ Hs. apply IndexMap.get_None in Hf. apply Hf. apply list_elem_of_fmap.
      exists (connection_key (route c) (c_id c), ref). split; [done|].
      eapply (mv_spared _ _ _ _ M2); [by apply IndexMap.get_In|done|done|done].
  - left. split; [|done]. destruct (terminate_ended A ref Congested y2 c' S2 Hc2) as [E1 E2 E3].
    rewrite Er, Ei in E1, E2. split; [eapply moved_along; [by apply moved_weaken|done]|done|].
    eapply owns_trans; [exact O2|exact E1|by eapply owns_same].
Qed.

(** Closing after the last frame: however the send went, the entry is gone. *)
Lemma forward_finish_ended A ref to h payload y y1 c c' :
  sound A y.2 -> near ref y y1 -> heap y.2 !! ref = Some c ->
  heap y1.2 !! ref = Some c' -> route c' = route c -> c_id c' = c_id c ->
  IndexMap.get (connection_key (route c) (c_id c)) (connections y.2) = Some ref ->
  connectionId h = c_id c ->
  let y2 := forward ref to h payload y1 in
  ended ref c y (match heap y2.2 !! ref with Some c => put y2 (finish y2.2 c) | None => y2 end).
Proof.
  intros S N Hc0 Hc Er Ei Hg Hid y2.
  assert (Hy2 : exists c2, heap y2.2 !! ref = Some c2 /\ route c2 = route c /\ c_id c2 = c_id c /\
    moved ref (Some (connection_key (route c) (c_id c))) y.2 y2.2 /\ owns c y2.2 (log y.1) (log y2.1)).
  { destruct (forward_cases A ref to h payload y y1 c c' S N Hc0 Hc Er Ei Hg Hid) as [[[E1 E2 E3] _]|[F1 F2 F3 F4 F5]].
    - destruct (moved_heap_to _ _ _ _ _ _ E1 Hc0) as (c2 & ? & ? & ?). by exists c2.
    - exists c'. split_and!; try apply F4; [done|by apply moved_weaken|]. eapply owns_adds; [|exact F5]. by repeat constructor. }
  clearbody y2. destruct Hy2 as (c2 & Hc2 & Er2 & Ei2 & M & O). rewrite Hc2.
  pose proof (finish_moves ref y2.2 c2) as Mf. rewrite Er2, Ei2 in Mf. split; cbn [snd put].
  - by eapply moved_along.
  - unfold finish. rewrite Er2, Ei2. unfold IndexMap.contains_key.
    destruct (IndexMap.get _ (connections y2.2)) eqn:Hg2; [|done]. simpl. apply IndexMap.get_remove_eq.
  - eapply owns_trans; [exact O|exact Mf|]. exists []. by rewrite app_nil_r.
Qed.

(** Callbacks that agree to the frame and do not revoke the route. *)
Definition obliging (rt : Route) (c : Connection) (payload : list byte) : Prop :=
  spared (r_id rt) /\
  (forall side h p y, (send_frame rt side h p y).1 = true) /\
  (forall y, (activity_cb (tunnel (registration rt)) (attachment (registration rt)) y).1 = true) /\
  (forall o w n y, (consume_cb o w n y).1 = true) /\
  Z.max 0 (bandwidth c) + len payload <= bytes_per_second options.

(** The two outcomes of a frame on a live connection. *)
Definition settled (rt : Route) (ref : Ref) (c : Connection) (sender : Side) (h : Header)
    (payload : list byte) (y y' : Sys) : Prop :=
  (ended ref c y y' /\
   (obliging rt c payload -> current_route y.2 rt = true -> stream_step sender h payload (view c) = None)) \/
  (exists c' st, forwarded ref c c' (other sender) h payload y y' /\ route c = rt /\
     stream_step sender h payload (view c) = Some st /\ stream_eq st (view c')).

Ltac same_stream := split; [intros []; repeat split; simpl; try done; try lia|done].

Section frame.
Context (A : gmap nat Route).
Context (rt : Route) (ref : Ref) (c : Connection) (sender : Side) (h : Header) (payload : list byte).
Context (y y1 : Sys) (now : Z).
Hypothesis Hsound : sound A y.2.
Hypothesis Hnear : near ref y y1.
Hypothesis Hroute : route c = rt.
Hypothesis Hc0 : heap y.2 !! ref = Some c.
Hypothesis Hfiled : IndexMap.get (connection_key (route c) (c_id c)) (connections y.2) = Some ref.
Hypothesis Hid : connectionId h = c_id c.
Hypothesis Hvalid : payload_valid h payload = true.
Hypothesis Hseq : sequence h = expected sender c.
Let c1 := touch now (bump sender c).
Hypothesis Hc1 : heap y1.2 !! ref = Some c1.
Hypothesis Hallowed : allowed sender c1 h = true.

Lemma stream_step_live : stream_step sender h payload (view c) =
  let s := view c in
  let sequences := update (next_sequence s) sender (next_sequence s sender + 1) in
  match body h with
  | Accepted n => Some (MkStream sequences (update (credit s) Source n) (half_closed s) true)
  | Data d _ =>
      if flow_of h payload <=? credit s sender
      then Some (MkStream sequences (update (credit s) sender (credit s sender - flow_of h payload))
                   (half_closed s) (accepted s))
      else None
  | Credit d n =>
      let granted := credit s (other sender) + n in
      if granted <=? TunnelFrame.MAX_CREDIT_BYTES
      then Some (MkStream sequences (update (credit s) (other sender) granted) (half_closed s)
                   (accepted s))
      else None
  | HalfClose d =>
      Some (MkStream sequences (credit s) (update (half_closed s) sender true) (accepted s))
  | _ => None
  end.
Proof.
  unfold stream_step. rewrite Hvalid. simpl next_sequence. rewrite Hseq, Z.eqb_refl. cbn [andb].
  unfold allowed, c1 in Hallowed. destruct (body h); try done; simpl in *.
  - destruct sender; [done|]. simpl. by rewrite Hallowed.
  - destruct sender; simpl in *; by rewrite Hallowed.
  - destruct sender; simpl in *; by rewrite Hallowed.
  - destruct sender; simpl in *; by rewrite Hallowed.
Qed.

Lemma terminate_frame reason ok :
  (ok = true -> stream_step sender h payload (view c) = None) ->
  (obliging rt c payload -> ok = true) ->
  forall y2 c2, near ref y1 y2 -> heap y2.2 !! ref = Some c2 -> route c2 = route c -> c_id c2 = c_id c ->
  settled rt ref c sender h payload y (terminate ref reason y2).
Proof.
  intros Hs Hok y2 c2 N Hc2 Er Ei. left. split; [|intros Ho _; by apply Hs, Hok].
  eapply terminate_near; [exact Hsound|by eapply near_trans|done..].
Qed.

Lemma forward_frame y2 c2 st :
  near ref y1 y2 -> heap y2.2 !! ref = Some c2 -> route c2 = route c -> c_id c2 = c_id c ->
  stream_step sender h payload (view c) = Some st -> stream_eq st (view c2) ->
  settled rt ref c sender h payload y (forward ref (other sender) h payload y2).
Proof.
  intros N Hc2 Er Ei Hst Heq. pose proof (near_trans _ _ _ _ Hnear N) as N'.
  destruct (forward_cases A ref (other sender) h payload y y2 c c2 Hsound N' Hc0 Hc2 Er Ei Hfiled Hid) as [[E Hs]|F].
  - left. split; [done|]. intros (Hsp & Ho & _) _. rewrite Hroute in Hs. destruct Hs; [apply Ho|done].
  - right. by exists c2, st.
Qed.

Lemma settled_data d p : body h = Data d p ->
  settled rt ref c sender h payload y (receive_data rt ref sender h payload y1).
Proof.
  intros Hb. pose proof stream_step_live as Hst. rewrite Hb in Hst. cbv zeta in Hst.
  unfold receive_data. fold (flow_of h payload). pose proof (clock_called y1) as [K1 K2].
  destruct (clock_cb y1) as [now2 y2]. cbn [fst snd] in *. set (c2 := meter now2 (len payload) c1).
  set (y3 := write ref _ y2).
  assert (N3 : near ref y1 y3) by (eapply near_trans; [by apply near_same|by apply near_write]).
  assert (Hc3 : heap y3.2 !! ref = Some c2) by (unfold y3; simpl; by rewrite lookup_alter_eq, K1, Hc1).
  rewrite Hc3. destruct (bandwidth c2 <=? _) eqn:Hbw; cbn [negb].
  2: { eapply (terminate_frame BandwidthLimit false); [done| |done..]. intros (_ & _ & _ & _ & Hr).
       apply Z.leb_gt in Hbw. simpl in Hbw. destruct (1000 <=? _); lia. }
  assert (S3 : sound A y3.2) by (eapply moved_sound; [apply N3|]; by eapply moved_sound; [apply Hnear|]).
  pose proof (charge_called A rt (len payload) y3 S3) as C4.
  assert (Hch : obliging rt c payload -> (charge rt (len payload) y3).1 = true).
  { intros (_ & _ & _ & Hc & _). unfold charge.
    destruct (owner (registration rt)), (worker (registration rt)); try done.
    destruct (truthy _ && truthy _); [apply Hc|done]. }
  destruct (charge rt (len payload) y3) as [ok y4]. cbn [fst snd] in *.
  assert (N4 : near ref y1 y4) by (eapply near_trans; [exact N3|by apply near_called]).
  assert (Hc4 : heap y4.2 !! ref = Some c2) by (by rewrite (rv_heap _ _ (proj1 C4))).
  destruct ok; cbn [negb]; [|by eapply (terminate_frame BandwidthLimit false)].
  rewrite Hc4. change (credit_of sender c2) with (credit_of sender c).
  replace (credit_of sender c <? flow_of h payload) with (negb (flow_of h payload <=? credit_of sender c))
    by (rewrite Z.ltb_antisym; done).
  simpl in Hst. destruct (flow_of h payload <=? credit_of sender c); cbn [negb].
  - eapply (forward_frame _ (set_credit sender (credit_of sender c - flow_of h payload) c2));
      [|simpl; by rewrite lookup_alter_eq, Hc4|done|done|exact Hst|].
    + eapply near_trans; [exact N4|]. by eapply near_trans; [apply (near_write ref (set_credit sender (credit_of sender c - flow_of h payload)))|apply near_counters].
    + destruct sender; same_stream.
  - eapply (terminate_frame ProtocolError true); done.
Qed.

Lemma settled_finish to y2 :
  near ref y1 y2 -> heap y2.2 !! ref = Some c1 -> stream_step sender h payload (view c) = None ->
  let y3 := forward ref to h payload y2 in
  settled rt ref c sender h payload y
    (match heap y3.2 !! ref with Some c => put y3 (finish y3.2 c) | None => y3 end).
Proof.
  intros N Hc2 Hst y3. left. split; [|done].
  by eapply (forward_finish_ended A ref to h payload y y2 c c1); [exact Hsound|eapply near_trans|..].
Qed.

Lemma settled_frame : settled rt ref c sender h payload y (apply_frame rt ref sender h payload y1).
Proof.
  pose proof stream_step_live as Hst. cbv zeta in Hst. unfold apply_frame.
  destruct (body h) eqn:Hb.
  - unfold allowed in Hallowed. by rewrite Hb in Hallowed.
  - unfold allowed in Hallowed. by rewrite Hb in Hallowed.
  - assert (sender = Destination) as Hs.
    { unfold allowed in Hallowed. rewrite Hb in Hallowed. by destruct sender. }
    replace Source with (other sender) by (by rewrite Hs).
    eapply (forward_frame _ (accept initialCreditBytes c1)); [by apply near_write| |done|done|exact Hst|].
    + simpl. by rewrite lookup_alter_eq, Hc1.
    + rewrite Hs. unfold c1. rewrite Hs. same_stream.
  - apply settled_finish; [by apply near_counters|done|done].
  - by eapply settled_data.
  - rewrite Hc1. change (credit_of (other sender) c1) with (credit_of (other sender) c).
    rewrite Z.ltb_antisym. simpl in Hst.
    destruct (credit_of (other sender) c + bytes <=? TunnelFrame.MAX_CREDIT_BYTES); cbn [negb].
    + eapply (forward_frame _ (set_credit (other sender) (credit_of (other sender) c + bytes) c1));
        [by apply near_write|simpl; by rewrite lookup_alter_eq, Hc1|done|done|exact Hst|].
      destruct sender; same_stream.
    + eapply (terminate_frame ProtocolError true); [done|done|apply near_refl|done|done|done].
  - eapply (forward_frame _ (half_close sender c1));
      [by apply near_write|simpl; by rewrite lookup_alter_eq, Hc1|done|done|exact Hst|].
    destruct sender; same_stream.
  - apply settled_finish; [apply near_refl|done|done].
  - apply settled_finish; [apply near_refl|done|done].
Qed.
End frame.

(** The header names the route of the handle. *)
Definition addressed (rt : Route) (h : Header) : Prop :=
  tunnelId h = tunnel (registration rt) /\ attachmentId h = attachment (registration rt) /\
  sourceEndpointId h = source (registration rt) /\
  destinationEndpointId h = destination (registration rt).
#[global] Instance addressed_dec rt h : Decision (addressed rt h).
Proof. apply _. Defined.

Lemma receive_addressed rt sender h payload y :
  receive rt sender h payload y =
  if decide (addressed rt h) then receive rt sender h payload y else y.
Proof.
  destruct (decide (addressed rt h)) as [|Hn]; [done|]. unfold receive.
  destruct (_ || _) eqn:E; [done|]. destruct Hn. unfold addressed.
  rewrite !orb_false_iff, !negb_false_iff, !bool_decide_eq_true in E. naive_solver.
Qed.

Lemma filed_key A s rt id ref c :
  inv A s -> IndexMap.get (connection_key rt id) (connections s) = Some ref -> heap s !! ref = Some c ->
  connection_key rt id = connection_key (route c) (c_id c).
Proof.
  intros I Hg%IndexMap.get_In Hc. destruct (inv_tidy _ _ I) as (Hk & _).
  destruct (Hk _ _ Hg) as (c' & Hc' & ->). congruence.
Qed.

Lemma current_route_unique A s rt c k ref :
  inv A s -> A !! r_id rt = Some rt -> current_route s rt = true ->
  (k, ref) ∈ connections s -> heap s !! ref = Some c -> r_key rt = r_key (route c) -> route c = rt.
Proof.
  intros I Ha Hcur Hin Hc Hkey. pose proof (inv_homed _ _ I _ _ _ Hin Hc) as Hcur'.
  destruct (inv_heap _ _ I _ _ Hc) as [Ha' _]. unfold current_route in *. rewrite Hkey in Hcur.
  destruct (IndexMap.get (r_key (route c)) (routes s)); [|done].
  apply bool_decide_eq_true in Hcur, Hcur'. congruence.
Qed.

Lemma inv_sound A s : inv A s -> sound A s.
Proof. intros I. split; [apply I|]. intros r c Hc. by destruct (inv_heap _ _ I _ _ Hc). Qed.

Lemma moved_current ref d A s s' rt : sound A s -> moved ref d s s' -> current_route s' rt = true -> current_route s rt = true.
Proof.
  intros [(_ & _ & Hr) _] M. unfold current_route.
  destruct (IndexMap.get (r_key rt) (routes s')) as [r|] eqn:Hg; [|done].
  apply IndexMap.get_In in Hg. eapply sublist_elem in Hg; [|apply M].
  by rewrite (IndexMap.In_get _ _ _ Hr Hg).
Qed.
Lemma spared_current ref d A s s' rt : sound A s -> moved ref d s s' -> spared (r_id rt) -> current_route s rt = true -> current_route s' rt = true.
Proof.
  intros [(_ & _ & Hr) _] M Hs. unfold current_route.
  destruct (IndexMap.get (r_key rt) (routes s)) as [r|] eqn:Hg; [|done]. intros He%bool_decide_eq_true.
  apply IndexMap.get_In in Hg. apply (mv_spared_routes _ _ _ _ M) in Hg; [|by rewrite He].
  assert (Hw : IndexMap.wf (routes s')) by (eapply sublist_NoDup; [exact Hr|apply fmap_sublist, M]). rewrite (IndexMap.In_get _ _ _ Hw Hg). by apply bool_decide_eq_true.
Qed.

(** The activity callback agrees only while the route is registered. *)
Lemma activity_outcome A ref rt (y y1 : Sys) :
  sound A y.2 -> near ref y y1 ->
  ((activity rt y1).1 = true -> current_route (activity rt y1).2.2 rt = true) /\
  (forall c payload, obliging rt c payload -> current_route y.2 rt = true -> (activity rt y1).1 = true).
Proof.
  intros S N. assert (S1 : sound A y1.2) by (by eapply moved_sound; [apply N|]).
  pose proof (activity_called A rt y1 S1) as C. unfold activity in *. split.
  - destruct (activity_cb _ _ y1) as [ok y2]. cbn [fst snd]. by intros [_ ?]%andb_true_iff.
  - intros c payload (Hs & _ & Ho & _) Hc. specialize (Ho y1). destruct (activity_cb _ _ y1) as [ok y2].
    cbn [fst snd] in *. rewrite Ho. cbn [andb]. eapply (spared_current ref None); [exact S1|by eapply called_moved|done|].
    by eapply spared_current; [exact S|apply N|..].
Qed.

Lemma numbered_settled A rt sender h payload y ref c :
  inv A y.2 -> A !! r_id rt = Some rt -> connectionId h = c_id c -> r_key rt = r_key (route c) ->
  IndexMap.get (connection_key rt (connectionId h)) (connections y.2) = Some ref ->
  heap y.2 !! ref = Some c -> payload_valid h payload = true -> sequence h = expected sender c ->
  settled rt ref c sender h payload y (receive_numbered rt ref sender h payload (write ref (bump sender) y)).
Proof.
  intros I Ha Hid Hkey Hg Hc Hv Hseq. pose proof (IndexMap.get_In _ _ _ Hg) as Hin.
  pose proof (inv_sound _ _ I) as S.
  assert (Hk : connection_key rt (connectionId h) = connection_key (route c) (c_id c))
    by (by eapply filed_key). rewrite Hk in Hg.
  unfold receive_numbered. pose proof (clock_called (write ref (bump sender) y)) as [K1 K2].
  destruct (clock_cb (write ref (bump sender) y)) as [now y2]. cbn [fst snd] in *.
  set (y3 := write ref (touch now) y2). set (c1 := touch now (bump sender c)).
  assert (N3 : near ref y y3).
  { eapply near_trans; [by apply (near_write ref (bump sender))|].
    eapply near_trans; [by apply near_same|by apply near_write]. }
  assert (Hc3 : heap y3.2 !! ref = Some c1).
  { unfold y3. simpl. rewrite lookup_alter_eq, K1. simpl. by rewrite lookup_alter_eq, Hc. }
  rewrite Hc3. destruct (allowed sender c1 h) eqn:Hal; cbn [negb].
  2: { left. split; [by eapply terminate_near|]. intros _ _. unfold stream_step. rewrite Hv. simpl.
       rewrite Hseq, Z.eqb_refl. unfold allowed, c1 in Hal.
       destruct (body h); try done; destruct sender; simpl in *; try done; by rewrite Hal. }
  assert (S3 : sound A y3.2) by (by eapply moved_sound; [apply N3|]).
  pose proof (activity_called A rt y3 S3) as C4.
  destruct (activity_outcome A ref rt y y3 S N3) as [Hcurr Hact].
  destruct (activity rt y3) as [ok y4]. cbn [fst snd] in *.
  assert (N4 : near ref y y4) by (eapply near_trans; [exact N3|by apply near_called]).
  assert (Hc4 : heap y4.2 !! ref = Some c1) by (by rewrite (rv_heap _ _ (proj1 C4))).
  destruct ok; cbn [negb].
  2: { left. split; [by eapply terminate_near|]. intros Ho Hcur. by specialize (Hact c payload Ho Hcur). }
  rewrite Hcurr by done. cbn [negb orb].
  assert (Hcur : current_route y.2 rt = true) by (eapply moved_current; [exact S|apply N4|by apply Hcurr]).
  assert (Hrt : route c = rt) by (by eapply current_route_unique).
  rewrite Hk. case_bool_decide as Hf; cbn [negb].
  - by apply (settled_frame A rt ref c sender h payload y y4 now).
  - left. destruct (revoked_ended A ref c y y4 S N4 Hg Hc Hf) as [E Hn]. split; [done|].
    intros (Hsp & _) _. by rewrite Hrt in Hn.
Qed.

Lemma receive_settled A rt sender h payload y ref c :
  inv A y.2 -> A !! r_id rt = Some rt -> valid_header h -> addressed rt h ->
  IndexMap.get (connection_key rt (connectionId h)) (connections y.2) = Some ref ->
  heap y.2 !! ref = Some c ->
  c_id c = connectionId h /\ r_key rt = r_key (route c) /\
  settled rt ref c sender h payload y (receive rt sender h payload y).
Proof.
  intros I Ha (Hs0 & Hp & Hh) (E1 & E2 & E3 & E4) Hg Hc.
  destruct (inv_heap _ _ I _ _ Hc) as (Ha' & Hnm & _).
  assert (Hk : connection_key rt (connectionId h) = connection_key (route c) (c_id c))
    by (by eapply filed_key).
  destruct (connection_key_inj rt (route c) (connectionId h) (c_id c)) as [Hkey Hid];
    [by eapply inv_table|by eapply inv_table|by rewrite E1, E2 in Hp|done|done|].
  split; [done|]. split; [done|]. unfold receive.
  rewrite !bool_decide_eq_true_2 by done. cbn [negb orb]. rewrite Hg, Hc.
  assert (Hend : ended ref c y (terminate ref ProtocolError y)).
  { eapply (terminate_ended A); [by apply inv_sound|done]. }
  destruct (payload_valid h payload) eqn:Hv; cbn [negb].
  2: { left. split; [done|]. intros _ _. unfold stream_step. by rewrite Hv. }
  destruct (sequence h =? expected sender c) eqn:Hseq; cbn [negb].
  - apply Z.eqb_eq in Hseq. by eapply numbered_settled.
  - left. split; [done|]. intros _ _. unfold stream_step. rewrite Hv. simpl. by rewrite Hseq.
Qed.


(** ** What an endpoint sees of a connection *)

#[local] Instance stream_eq_equivalence : Equivalence stream_eq.
Proof.
  split.
  - intros s. by split.
  - intros s s' [H1 H2]. split; [|done]. intros side. destruct (H1 side) as (? & ? & ?). done.
  - intros s1 s2 s3 [H1 H2] [K1 K2]. split; [|congruence]. intros side.
    destruct (H1 side) as (? & ? & ?), (K1 side) as (? & ? & ?). split_and!; congruence.
Qed.

Lemma update_eq {X} (f g : Side -> X) side x x' :
  (forall s, f s = g s) -> x = x' -> forall s, update f side x s = update g side x' s.
Proof. intros H -> s. unfold update. by case_decide. Qed.

#[local] Instance stream_step_proper sender h payload :
  Proper (stream_eq ==> option_Forall2 stream_eq) (stream_step sender h payload).
Proof.
  intros s s' [H1 H2]. unfold stream_step.
  assert (Hn : forall side, next_sequence s side = next_sequence s' side) by (intros; apply H1).
  assert (Hc : forall side, credit s side = credit s' side) by (intros; apply H1).
  assert (Hh : forall side, half_closed s side = half_closed s' side) by (intros; apply H1).
  rewrite !Hn, H2. destruct (_ && _); [|constructor].
  destruct (body h); try constructor; rewrite ?Hc, ?Hh;
    repeat match goal with |- context [if ?b then _ else _] => destruct b end; try constructor;
    (split; [|done]); intros side; split_and!; simpl; auto; by apply update_eq.
Qed.

Fixpoint run (l : list Sent) (s : Stream) : option Stream :=
  match l with
  | [] => Some s
  | e :: l => stream_step (other (s_to e)) (s_header e) (s_payload e) s ≫= run l
  end.

Definition start (n : Z) : Stream :=
  MkStream (fun side => match side with Source => 1 | Destination => 0 end)
    (fun side => match side with Source => 0 | Destination => n end) (fun _ => false) false.

(** The frames sent for [c] since its connect frame, with the credit it carried. *)
Definition since_connect (sent : list Sent) (c : Connection) (n : Z) (l : list Sent) : Prop :=
  exists pre e after t d, sent = pre ++ e :: after /\ on_stream c e /\ s_to e = Destination /\
    body (s_header e) = Connect t n d /\ l = filter (on_stream c) after.

Definition tracked (sent : list Sent) (c : Connection) : Prop :=
  exists n l st, since_connect sent c n l /\ (0 <= n /\ Forall (fun e => valid_header (s_header e)) l) /\
    run l (start n) = Some st /\ stream_eq st (view c).

Definition streams (y : Sys) : Prop :=
  forall k ref c, (k, ref) ∈ connections y.2 -> heap y.2 !! ref = Some c -> tracked (log y.1) c.

Lemma run_app l1 l2 s : run (l1 ++ l2) s = run l1 s ≫= run l2.
Proof.
  revert s. induction l1 as [|e l1 IH]; intros s; [done|]. simpl.
  destruct (stream_step _ _ _ s); simpl; [apply IH|done].
Qed.

Lemma since_connect_app sent ext c n l :
  since_connect sent c n l -> since_connect (sent ++ ext) c n (l ++ filter (on_stream c) ext).
Proof.
  intros (pre & e & after & t & d & -> & He & Hto & Hb & ->). exists pre, e, (after ++ ext), t, d.
  rewrite filter_app, <- app_assoc. done.
Qed.

Lemma tracked_other sent ext c :
  Forall (fun e => ~ on_stream c e) ext -> tracked sent c -> tracked (sent ++ ext) c.
Proof.
  intros Hf (n & l & st & Hs & Hv & Hr & He). exists n, l, st. split; [|done].
  apply (since_connect_app _ ext) in Hs.
  replace (filter (on_stream c) ext) with (@nil Sent) in Hs; [by rewrite app_nil_r in Hs|].
  clear Hs. induction Hf; [done|]. by rewrite filter_cons_False.
Qed.

Lemma tracked_step sent c c' to h payload st :
  tracked sent c -> valid_header h -> connectionId h = c_id c -> route c' = route c -> c_id c' = c_id c ->
  stream_step (other to) h payload (view c) = Some st -> stream_eq st (view c') ->
  tracked (sent ++ [MkSent (r_id (route c)) to h payload]) c'.
Proof.
  intros (n & l & st0 & Hs & [Hn Hv] & Hr & He) Hh Hid Er Ei Hst Heq.
  pose proof (stream_step_proper (other to) h payload _ _ He) as Hp. rewrite Hst in Hp.
  inversion Hp as [st1 ? Heq1 Hst1|]; simplify_eq.
  exists n, (l ++ [MkSent (r_id (route c)) to h payload]), st1. split_and!.
  - apply (since_connect_app _ [MkSent (r_id (route c)) to h payload]) in Hs.
    rewrite filter_cons_True, filter_nil in Hs by (by split).
    destruct Hs as (pre & e & after & t & d & H1 & [H2 H3] & H4 & H5 & H6).
    exists pre, e, after, t, d. split_and!; try done; [unfold on_stream; by rewrite Er, Ei|].
    rewrite H6. apply list_filter_iff. intros e'. unfold on_stream. by rewrite Er, Ei.
  - done.
  - apply Forall_app. split; [done|]. by constructor.
  - rewrite run_app, Hr. simpl. by rewrite <- Hst1.
  - by rewrite Heq1.
Qed.

Lemma same_stream_key A s r c r' c' e :
  sound A s -> heap s !! r = Some c -> heap s !! r' = Some c' -> on_stream c e -> on_stream c' e ->
  connection_key (route c) (c_id c) = connection_key (route c') (c_id c').
Proof.
  intros [_ Ht] Hc Hc' [E1 E2] [E1' E2']. pose proof (Ht _ _ Hc). pose proof (Ht _ _ Hc').
  assert (route c = route c') as -> by congruence. congruence.
Qed.

Lemma tracked_same sent c c' : route c' = route c -> c_id c' = c_id c -> view c' = view c -> tracked sent c -> tracked sent c'.
Proof.
  intros Er Ei Ev (n & l & st & (pre & e & after & t & d & H1 & H2 & H3 & H4 & H5) & Hv & Hr & He). exists n, l, st. rewrite Ev.
  split; [|done]. exists pre, e, after, t, d. split_and!; try done; [unfold on_stream; by rewrite Er, Ei|].
  rewrite H5. apply list_filter_iff. intros e'. unfold on_stream. by rewrite Er, Ei.
Qed.

(** Frames of connections that are gone do not matter to those that are left. *)
Lemma tracked_stray s sent ext k r c :
  (k, r) ∈ connections s -> heap s !! r = Some c -> Forall (stray s) ext -> tracked sent c -> tracked (sent ++ ext) c.
Proof.
  intros Hin Hc Hf. apply tracked_other. eapply Forall_impl; [exact Hf|]. intros e He. by eapply He.
Qed.

Lemma streams_called y y' : called [] y y' -> streams y -> streams y'.
Proof.
  intros (R & _ & (pre & post & Hl & Hf)) St k r c Hin Hc. rewrite Hl. simpl.
  eapply tracked_stray; [exact Hin|exact Hc|exact Hf|]. eapply St; [|by rewrite <- (rv_heap _ _ R)].
  eapply sublist_elem; [exact Hin|apply R].
Qed.

Lemma streams_ended A y y' ref c :
  sound A y.2 -> heap y.2 !! ref = Some c -> ended ref c y y' -> streams y -> streams y'.
Proof.
  intros S Hc [M Hgone (ext & Hl & Hf)] St k r c' Hin Hc'. pose proof (moved_sound _ _ _ _ _ M S) as S'.
  destruct (proj1 (proj1 S') k r Hin) as (c0 & Hc0 & Hk). simplify_eq.
  assert (Hr : r <> ref).
  { intros ->. destruct (moved_heap _ _ _ _ _ _ M Hc') as (c1 & Hc1 & Er & Ei). simplify_eq.
    rewrite Er, Ei in Hin. apply IndexMap.In_get in Hin; [|apply S']. congruence. }
  pose proof Hc' as Hc1. rewrite (mv_heap _ _ _ _ M r Hr) in Hc1. rewrite Hl.
  apply tracked_other; [|eapply St; [|done]; by eapply sublist_elem; [|apply M]].
  eapply Forall_impl; [exact Hf|]. intros e [He|He] He'; [|by eapply He].
  apply IndexMap.get_None in Hgone. apply Hgone. apply list_elem_of_fmap. eexists (_, r). split; [|exact Hin].
  simpl. by eapply (same_stream_key A y.2).
Qed.

Lemma streams_forwarded A y y' ref c c' to h payload st :
  sound A y.2 -> heap y.2 !! ref = Some c ->
  IndexMap.get (connection_key (route c) (c_id c)) (connections y.2) = Some ref ->
  valid_header h -> connectionId h = c_id c -> stream_step (other to) h payload (view c) = Some st ->
  stream_eq st (view c') -> forwarded ref c c' to h payload y y' -> streams y -> streams y'.
Proof.
  intros S Hc Hg Hh Hid Hst Heq [M Hf Hc' [Er Ei] (pre & post & Hl & [F1 F2]%Forall_app)] St k r c0 Hin Hc0.
  pose proof (moved_sound _ _ _ _ _ M S) as S'. rewrite Hl, !app_assoc.
  assert (Hin0 : (k, r) ∈ connections y.2) by (by eapply sublist_elem; [|apply M]).
  eapply tracked_stray; [exact Hin|exact Hc0|exact F2|].
  destruct (decide (r = ref)) as [->|Hr].
  - rewrite Hc' in Hc0. simplify_eq. eapply tracked_step; try done.
    eapply (tracked_same _ c); [done..|]. apply tracked_other; [|by eapply St].
    eapply Forall_impl; [exact F1|]. intros e He. specialize (He _ _ _ Hin Hc'). unfold on_stream in *. by rewrite Er, Ei in He.
  - pose proof Hc0 as Hc1. rewrite (mv_heap _ _ _ _ M r Hr) in Hc1. apply tracked_other.
    + constructor; [|done]. intros He. apply Hr.
      assert (connection_key (route c) (c_id c) = connection_key (route c0) (c_id c0)) as Hkey
        by (eapply (same_stream_key A y.2); [done|done|exact Hc1| |exact He]; by split).
      destruct S as [(Hk & Hw & _) _]. destruct (Hk k r Hin0) as (c2 & Hc2 & ->). simplify_eq.
      apply IndexMap.In_get in Hin0; [|done]. congruence.
    + eapply tracked_stray; [exact Hin|exact Hc0|exact F1|by eapply St].
Qed.

(** Nothing changed but counters, routes and the outside. *)
Lemma streams_same y y' :
  connections y'.2 = connections y.2 -> heap y'.2 = heap y.2 -> log y'.1 = log y.1 ->
  streams y -> streams y'.
Proof. unfold streams. by intros -> -> ->. Qed.

Lemma streams_terminate A ref reason y : sound A y.2 -> streams y -> streams (terminate ref reason y).
Proof.
  intros S St. destruct (heap y.2 !! ref) as [c|] eqn:Hc.
  - eapply (streams_ended A); [done|done|by eapply terminate_ended|done].
  - unfold terminate. by rewrite Hc.
Qed.

Lemma sound_revokes A s s' : revokes s s' -> sound A s -> sound A s'.
Proof. intros R [T Ht]. split; [by eapply revokes_tidy|]. by rewrite (rv_heap _ _ R). Qed.

Lemma streams_terminate_all A refs reason : forall y,
  sound A y.2 -> streams y -> streams (terminate_all refs reason y).
Proof.
  induction refs as [|r refs IH]; intros y S St; [done|]. cbn [terminate_all].
  apply IH; [|by eapply streams_terminate]. eapply sound_revokes; [|done]. apply terminate_revokes, S.
Qed.

Lemma streams_unsubscribe_all A l : forall y, sound A y.2 -> streams y -> streams (unsubscribe_all l y).
Proof.
  induction l as [|u l IH]; intros y S St; [done|]. cbn [unsubscribe_all].
  pose proof (unsubscribe_called A u y S) as C. apply IH; [|by eapply streams_called]. eapply sound_revokes; [apply C|done].
Qed.

Lemma streams_remove A rt reason y : sound A y.2 -> streams y -> streams (remove rt reason y).
Proof.
  intros S St. unfold remove. destruct (current_route y.2 rt); [|done].
  set (y1 := put y (set_routes _ _)). set (y2 := terminate_all _ _ y1).
  assert (S1 : sound A y1.2).
  { destruct S as [(Hk & Hw & Hr) Ht]. split; [|done]. split_and!; [done|done|].
    by apply IndexMap.wf_remove. }
  assert (St2 : streams y2) by (apply (streams_terminate_all A); done).
  assert (S2 : sound A y2.2) by (eapply sound_revokes; [apply terminate_all_revokes, S1|done]).
  apply (streams_unsubscribe_all A); done.
Qed.

Lemma streams_remove_all A rs reason : forall y,
  inv A y.2 -> streams y -> streams (remove_all rs reason y).
Proof.
  induction rs as [|rt rs IH]; intros y I St; [done|]. cbn [remove_all].
  apply IH; [by apply inv_remove|]. eapply streams_remove; [by apply inv_sound|done].
Qed.

Lemma streams_sweep A now y : inv A y.2 -> streams y -> streams (sweep now y).
Proof.
  intros I St. unfold sweep.
  assert (H : forall refs now y, inv A y.2 -> streams y -> streams (sweep_all refs now y)).
  { clear y now I St. intros refs now. induction refs as [|r refs IH]; intros y I St; [done|]. cbn [sweep_all].
    destruct (heap y.2 !! r ≫= expiry now); [|by apply IH].
    apply IH; [by apply inv_terminate|]. eapply streams_terminate; [by apply inv_sound|done]. }
  destruct now as [now|]; [by apply H|]. pose proof (clock_called y) as [K1 K2].
  destruct (clock_cb y) as [now y1]. cbn [fst snd] in *. apply H; [by rewrite K1|].
  by eapply streams_same; [..|exact St]; rewrite ?K1.
Qed.

(** A frame for an identity that has no connection. *)
Lemma not_on_stream A s rt id k r c e :
  sound A s -> A !! r_id rt = Some rt -> IndexMap.get (connection_key rt id) (connections s) = None ->
  (k, r) ∈ connections s -> heap s !! r = Some c -> s_route e = r_id rt ->
  connectionId (s_header e) = id -> ~ on_stream c e.
Proof.
  intros [(Hk & _) Ht] Ha Hg Hin Hc E1 E2 [E3 E4]. pose proof (Ht _ _ Hc) as Hr.
  assert (route c = rt) as Hrt by congruence. destruct (Hk k r Hin) as (c' & Hc' & ->). simplify_eq.
  apply IndexMap.get_None in Hg. apply Hg. rewrite E4. apply list_elem_of_fmap. by eexists (_, r).
Qed.

Lemma streams_reject A rt h code y :
  sound A y.2 -> A !! r_id rt = Some rt ->
  IndexMap.get (connection_key rt (connectionId h)) (connections y.2) = None ->
  streams y -> streams (reject rt h code y).
Proof.
  intros S Ha Hg St. unfold reject. set (y1 := put y (add_rejected y.2)).
  assert (S1 : sound A y1.2) by exact S.
  pose proof (send_called A rt Source (identities rt (connectionId h) 0 (Rejected code)) [] y1 S1) as C.
  assert (St1 : streams y1) by (by eapply streams_same; [..|exact St]).
  eapply (streams_called y1); [|done]. destruct C as (R & P & (pre & post & Hl & [F1 F2]%Forall_app)).
  split; [done|]. split; [done|]. exists pre, (MkSent (r_id rt) Source (identities rt (connectionId h) 0 (Rejected code)) [] :: post).
  split; [exact Hl|]. apply Forall_app. split; [done|]. constructor; [|done]. intros k r c Hin Hc.
  rewrite (rv_heap _ _ R) in Hc. eapply sublist_elem in Hin; [|apply R]. by eapply (not_on_stream A y1.2).
Qed.

Lemma streams_open A rt h n now y e t d :
  sound A y.2 -> A !! r_id rt = Some rt -> (forall r c, heap y.2 !! r = Some c -> (r < next_ref y.2)%nat) ->
  IndexMap.get (connection_key rt (connectionId h)) (connections y.2) = None ->
  s_route e = r_id rt -> s_to e = Destination -> connectionId (s_header e) = connectionId h ->
  body (s_header e) = Connect t n d -> 0 <= n -> streams y ->
  forall y', called [e] (open_connection rt h n now y).2 y' -> streams y'.
Proof.
  intros S Ha Hf Hg E1 E2 E3 E4 Hn St y' (R & _ & (pre & post & Hl & [F1 F2]%Forall_app)) k r c Hin Hc. rewrite Hl.
  pose proof Hc as Hc'. rewrite (rv_heap _ _ R) in Hc'. pose proof Hin as Hin'. eapply sublist_elem in Hin'; [|apply R].
  simpl in Hin', Hc'. apply IndexMap.elem_of_insert in Hin' as [Heq|Hin'].
  - simplify_eq. rewrite lookup_insert_eq in Hc'. simplify_eq. exists n, [], (start n).
    split_and!; [|done|done|done|by split; [intros []|]]. exists (log y.1 ++ pre), e, post, t, d. split_and!; try done.
    + simpl. by rewrite <- app_assoc.
    + assert (Hpost : Forall (fun e' => ~ on_stream (MkConnection rt (connectionId h) now now now 0 1 0 0 n false false false) e') post)
        by (eapply Forall_impl; [exact F2|]; intros e' He'; by eapply He').
      clear -Hpost. induction Hpost; [done|]. by rewrite filter_cons_False.
  - destruct (proj1 (proj1 S) k r Hin') as (c0 & Hc0 & Hk0). pose proof (Hf _ _ Hc0).
    rewrite lookup_insert_ne in Hc' by lia. apply tracked_other; [|by eapply St].
    rewrite !Forall_app. split_and!; [by eapply Forall_impl; [exact F1|]; intros e' He'; eapply He'| |by eapply Forall_impl; [exact F2|]; intros e' He'; eapply He'].
    constructor; [|done]. by eapply (not_on_stream A y.2).
Qed.

Lemma streams_receive_open A rt h n payload y :
  inv A y.2 -> A !! r_id rt = Some rt -> credit_ok n -> named rt (connectionId h) ->
  IndexMap.get (connection_key rt (connectionId h)) (connections y.2) = None ->
  streams y -> streams (receive_open rt h n payload y).
Proof.
  intros I Ha Hn Hnm Hg St. unfold receive_open. pose proof (inv_sound _ _ I) as S.
  destruct (_ || _); [by apply (streams_reject A)|].
  destruct (at_limit y.2 _) eqn:Hlim; [by apply (streams_reject A)|].
  pose proof (activity_called A rt y S) as C1. pose proof (inv_activity A rt y I) as I1.
  destruct (activity rt y) as [ok y1]. cbn [fst snd] in *.
  assert (St1 : streams y1) by (by eapply streams_called). pose proof (inv_sound _ _ I1) as S1.
  assert (Hg1 : IndexMap.get (connection_key rt (connectionId h)) (connections y1.2) = None)
    by (eapply gone_stays; [apply C1|done]).
  destruct (negb ok).
  { destruct (current_route y1.2 rt); [|done]. by apply (streams_reject A). }
  destruct (current_route y1.2 rt) eqn:Hcur; [|done]. cbn [negb].
  pose proof (clock_called y1) as [H2 L2]. destruct (clock_cb y1) as [now y2]. cbn [fst snd] in *.
  assert (St2 : streams y2) by (eapply streams_same; [..|exact St1]; by rewrite ?H2).
  assert (I3 : inv A (open_connection rt h n now y2).2.2).
  { apply inv_open_connection; rewrite ?H2; try done. eapply at_limit_revokes; [apply C1|done]. }
  pose proof (streams_open A rt h n now y2) as Hopen.
  destruct (open_connection rt h n now y2) as [ref y3]. cbn [fst snd] in *.
  set (connect := identities rt (connectionId h) 0 (Connect _ n _)).
  pose proof (send_called A rt Destination connect [] y3 (inv_sound _ _ I3)) as C4.
  destruct (send_frame rt Destination connect [] y3) as [sent y4]. cbn [fst snd] in *.
  assert (St4 : streams y4).
  { eapply (Hopen (MkSent (r_id rt) Destination connect [])); rewrite ?H2; try done.
    - apply I1.
    - destruct Hn. lia. }
  destruct sent; [done|]. eapply streams_terminate; [|done]. eapply sound_revokes; [apply C4|by apply inv_sound].
Qed.

Lemma streams_receive A rt sender h payload y :
  inv A y.2 -> A !! r_id rt = Some rt -> valid_header h -> streams y ->
  streams (receive rt sender h payload y).
Proof.
  intros I Ha Hh St. rewrite receive_addressed. destruct (decide (addressed rt h)) as [Had|]; [|done].
  destruct (IndexMap.get (connection_key rt (connectionId h)) (connections y.2)) as [ref|] eqn:Hg.
  - pose proof (IndexMap.get_In _ _ _ Hg) as Hin.
    destruct (inv_tidy _ _ I) as (Hk & _). destruct (Hk _ _ Hin) as (c & Hc & Hkey).
    destruct (receive_settled A rt sender h payload y ref c) as (Hid & _ & [[E _]|(c' & st & F & _ & Hst & Heq)]);
      try done.
    + by eapply (streams_ended A); [apply inv_sound|..].
    + eapply (streams_forwarded A _ _ ref c c' (other sender)); try done; [by apply inv_sound|by rewrite <- Hkey|].
      by destruct sender.
  - unfold receive. destruct Had as (E1 & E2 & E3 & E4). rewrite !bool_decide_eq_true_2 by done.
    cbn [negb orb]. rewrite Hg. destruct sender; [|done]. destruct (body h) eqn:Hb; try done.
    unfold valid_header in Hh. rewrite Hb, E1, E2 in Hh. destruct Hh as (_ & Hnm & Hn).
    by eapply streams_receive_open.
Qed.

(** The outside leaves what was sent alone. *)
Definition keeps_log (x x' : Sys0) : Prop := log x' = log x.

Lemma streams_reachable A y : reachable keeps_log A y -> streams y.
Proof.
  revert A y. apply reachable_ind.
  - intros x k r c Hin. by apply elem_of_nil in Hin.
  - intros A y A' y' Hr St Hs. pose proof (inv_reachable _ _ _ Hr) as I. pose proof (inv_sound _ _ I) as S. inversion Hs; subst.
    + unfold register in *. case_bool_decide; [done|].
      destruct (IndexMap.contains_key _ _); [done|]. destruct (_ <=? _); [done|]. simplify_eq.
      by eapply streams_same; [..|exact St].
    + by eapply streams_receive.
    + by eapply streams_sweep.
    + unfold record_activity. destruct (IndexMap.get _ _) as [rt|]; [|done].
      eapply streams_called; [by eapply activity_called|done].
    + by eapply streams_remove_all.
    + by eapply streams_remove_all.
    + unfold retain. destruct (current_route _ _); [by eapply streams_same; [..|exact St]|].
      eapply streams_called; [by eapply unsubscribe_called|done].
    + by eapply streams_remove.
    + by eapply streams_remove.
    + by eapply streams_same; [..|exact St].
Qed.

(** *** The discipline *)

Definition to (side : Side) (l : list Sent) : list Sent := filter (fun e => s_to e = side) l.

Definition is_data (e : Sent) : Prop := match body (s_header e) with Data _ _ => True | _ => False end.
Definition is_accepted (e : Sent) : Prop := match body (s_header e) with Accepted _ => True | _ => False end.
Definition is_half_close (e : Sent) : Prop :=
  match body (s_header e) with HalfClose _ => True | _ => False end.

Definition flow (e : Sent) : Z :=
  match body (s_header e) with Data _ _ => flow_of (s_header e) (s_payload e) | _ => 0 end.
Definition grant (e : Sent) : Z :=
  match body (s_header e) with Accepted n | Credit _ n => n | _ => 0 end.
Definition total (f : Sent -> Z) (l : list Sent) : Z := foldr (fun e acc => f e + acc) 0 l.

(** What [side] has sent among [l] when the stream is in state [s]: its frames
    are numbered without gap from where it starts; the bytes of its data plus
    the credit it has left are within what the other end granted ([n] to begin
    with); it sends data only after the acceptance and before it half-closes. *)
Record side_ok (n : Side -> Z) (l : list Sent) (s : Stream) (side : Side) : Prop := SideOk {
  so_sequences : (fun e => sequence (s_header e)) <$> to (other side) l =
    seqZ (next_sequence (start 0) side) (next_sequence s side - next_sequence (start 0) side);
  so_next : next_sequence (start 0) side <= next_sequence s side;
  so_credit : 0 <= credit s side;
  so_window : total flow (to (other side) l) + credit s side <= n side + total grant (to side l);
  so_half : half_closed s side = false ->
    forall e, e ∈ l -> s_to e = other side -> ~ is_half_close e;
  so_accepted : accepted s = true -> exists e, e ∈ l /\ is_accepted e;
  so_data : forall l1 e l2, l = l1 ++ e :: l2 -> is_data e -> s_to e = other side ->
    (exists a, a ∈ l1 /\ is_accepted a) /\
    (forall a, a ∈ l1 -> s_to a = s_to e -> ~ is_half_close a)
}.

Lemma to_app side l1 l2 : to side (l1 ++ l2) = to side l1 ++ to side l2.
Proof. apply filter_app. Qed.
Lemma to_one side e : to side [e] = if decide (s_to e = side) then [e] else [].
Proof. unfold to. by rewrite filter_cons, filter_nil. Qed.
Lemma total_app f l1 l2 : total f (l1 ++ l2) = total f l1 + total f l2.
Proof. induction l1; simpl; lia. Qed.

(** The ways a stream goes on. *)
Lemma stream_step_inv sd h payload s s' :
  stream_step sd h payload s = Some s' ->
  sequence h = next_sequence s sd /\
  next_sequence s' = update (next_sequence s) sd (next_sequence s sd + 1) /\
  match body h with
  | Accepted n => sd = Destination /\ credit s' = update (credit s) Source n /\
      half_closed s' = half_closed s /\ accepted s' = true
  | Data _ _ => accepted s = true /\ half_closed s sd = false /\ flow_of h payload <= credit s sd /\
      credit s' = update (credit s) sd (credit s sd - flow_of h payload) /\
      half_closed s' = half_closed s /\ accepted s' = accepted s
  | Credit _ n => credit s' = update (credit s) (other sd) (credit s (other sd) + n) /\
      half_closed s' = half_closed s /\ accepted s' = accepted s
  | HalfClose _ => credit s' = credit s /\ half_closed s' = update (half_closed s) sd true /\
      accepted s' = accepted s
  | _ => False
  end.
Proof.
  unfold stream_step. destruct (payload_valid h payload); [|done]. cbn [andb].
  destruct (sequence h =? _) eqn:Hs; [|done]. apply Z.eqb_eq in Hs.
  destruct (body h); try done; destruct (_ && _) eqn:Hc; intros; simplify_eq/=; (split; [done|]); (split; [done|]).
  - apply andb_true_iff in Hc as [Hc _]. by apply bool_decide_eq_true in Hc.
  - rewrite !andb_true_iff, negb_true_iff in Hc. destruct Hc as (((? & ?) & _) & Hl%Z.leb_le). done.
  - done.
  - done.
Qed.

Lemma other_other side : other (other side) = side.
Proof. by destruct side. Qed.

Lemma update_same {X} (f : Side -> X) side x : update f side x side = x.
Proof. unfold update. by rewrite decide_True. Qed.
Lemma update_other {X} (f : Side -> X) side x : update f side x (other side) = f (other side).
Proof. unfold update. rewrite decide_False; [done|]. by destruct side. Qed.

Lemma sent_from e side :
  (s_to e = other side /\ other (s_to e) = side) \/ (s_to e = side /\ other (s_to e) = other side).
Proof. destruct (s_to e), side; auto. Qed.

Section discipline.
Context (n : Side -> Z) (l : list Sent) (e : Sent) (s s' : Stream) (side : Side).
Hypothesis Hstep : stream_step (other (s_to e)) (s_header e) (s_payload e) s = Some s'.
Hypothesis Hvalid : valid_header (s_header e).
Hypothesis Hok : side_ok n l s side.

Lemma step_sequences :
  (fun e => sequence (s_header e)) <$> to (other side) (l ++ [e]) =
    seqZ (next_sequence (start 0) side) (next_sequence s' side - next_sequence (start 0) side) /\
  next_sequence (start 0) side <= next_sequence s' side.
Proof.
  destruct (stream_step_inv _ _ _ _ _ Hstep) as (Hseq & -> & _). pose proof (so_next _ _ _ _ Hok) as Hn.
  rewrite to_app, fmap_app, (so_sequences _ _ _ _ Hok), to_one.
  destruct (sent_from e side) as [[Hto Hsd]|[Hto Hsd]]; rewrite Hsd in *.
  - rewrite decide_True, update_same by done. split; [|lia]. simpl fmap. rewrite Hseq.
    set (m := next_sequence (start 0) side) in *. set (k := next_sequence s side) in *.
    replace (k + 1 - m) with (k - m + 1) by lia. rewrite seqZ_app by lia.
    rewrite (seqZ_cons _ 1) by lia. do 2 f_equal. lia.
  - rewrite decide_False by (rewrite Hto; by destruct side).
    unfold update. rewrite decide_False by (by destruct side). by rewrite app_nil_r.
Qed.

Lemma step_window :
  0 <= credit s' side /\
  total flow (to (other side) (l ++ [e])) + credit s' side <= n side + total grant (to side (l ++ [e])).
Proof.
  destruct (stream_step_inv _ _ _ _ _ Hstep) as (_ & _ & Hb). destruct Hvalid as (_ & _ & Hh).
  pose proof (so_window _ _ _ _ Hok) as Hw. pose proof (so_credit _ _ _ _ Hok) as Hc.
  rewrite !to_app, !to_one, !total_app. revert Hw.
  generalize (total flow (to (other side) l)) (total grant (to side l)). intros F G Hw.
  destruct (sent_from e side) as [[Hto Hsd]|[Hto Hsd]]; rewrite Hsd, Hto in *;
    [rewrite (decide_True (P := other side = other side)) by done;
     rewrite (decide_False (P := other side = side)) by (by destruct side)
    |rewrite (decide_True (P := side = side)) by done;
     rewrite (decide_False (P := side = other side)) by (by destruct side)];
    simpl; unfold flow, grant; destruct (body (s_header e)); try done.
  - destruct Hb as (-> & -> & _). rewrite (update_other _ Source). simpl in *. lia.
  - destruct Hb as (_ & _ & ? & -> & _). rewrite update_same. lia.
  - destruct Hb as (-> & _). unfold update. rewrite decide_False by (by destruct side). lia.
  - destruct Hb as (-> & _). lia.
  - destruct Hb as (Hs & -> & _), Hh. destruct side; [|done]. rewrite update_same. lia.
  - destruct Hb as (_ & _ & _ & -> & _). unfold update. rewrite decide_False by (by destruct side). lia.
  - destruct Hb as (-> & _), Hh. rewrite other_other, update_same. lia.
  - destruct Hb as (-> & _). lia.
Qed.

Lemma step_half : half_closed s' side = false ->
  forall a, a ∈ l ++ [e] -> s_to a = other side -> ~ is_half_close a.
Proof.
  destruct (stream_step_inv _ _ _ _ _ Hstep) as (_ & _ & Hb). intros Hf a [Ha| ->%list_elem_of_singleton]%elem_of_app Hto.
  - eapply (so_half _ _ _ _ Hok); [|done|done]. destruct (body (s_header e)); try done.
    1-3: destruct_and? Hb; congruence.
    destruct Hb as (_ & Hh & _). rewrite Hh in Hf. unfold update in Hf. by case_decide.
  - unfold is_half_close. destruct (body (s_header e)); [intros []..| |intros []|intros []].
    destruct Hb as (_ & Hh & _).
    rewrite Hh, Hto, other_other, update_same in Hf. done.
Qed.

Lemma step_accepted : accepted s' = true -> exists a, a ∈ l ++ [e] /\ is_accepted a.
Proof.
  destruct (stream_step_inv _ _ _ _ _ Hstep) as (_ & _ & Hb). intros Ht.
  destruct (body (s_header e)) eqn:Hbody; try done.
  1: { exists e. split; [set_solver|]. unfold is_accepted. by rewrite Hbody. }
  all: destruct (so_accepted _ _ _ _ Hok) as (a & ? & ?); [destruct_and? Hb; congruence|];
    exists a; set_solver.
Qed.

Lemma step_data l1 d l2 : l ++ [e] = l1 ++ d :: l2 -> is_data d -> s_to d = other side ->
  (exists a, a ∈ l1 /\ is_accepted a) /\ (forall a, a ∈ l1 -> s_to a = s_to d -> ~ is_half_close a).
Proof.
  intros [[-> ->]|[l2' ->]]%snoc_split Hd Hto; [|by eapply (so_data _ _ _ _ Hok)].
  destruct (stream_step_inv _ _ _ _ _ Hstep) as (_ & _ & Hb). unfold is_data in Hd.
  destruct (body (s_header e)); try done. destruct Hb as (Hac & Hhalf & _).
  split; [by apply (so_accepted _ _ _ _ Hok)|]. rewrite Hto. apply (so_half _ _ _ _ Hok).
  by rewrite Hto, other_other in Hhalf.
Qed.

Lemma side_ok_step : side_ok n (l ++ [e]) s' side.
Proof.
  destruct step_sequences, step_window. constructor; try done.
  - apply step_half.
  - apply step_accepted.
  - apply step_data.
Qed.
End discipline.

Lemma run_discipline n l st side :
  0 <= n -> Forall (fun e => valid_header (s_header e)) l -> run l (start n) = Some st ->
  side_ok (credit (start n)) l st side.
Proof.
  intros Hn. revert st. induction l as [|e l IH] using rev_ind; intros st Hv Hr.
  - simplify_eq/=. constructor; simpl; try done.
    + by rewrite Z.sub_diag.
    + destruct side; lia.
    + destruct side; lia.
    + intros _ ? Hin. by apply elem_of_nil in Hin.
    + intros l1 ? ? Hl. by destruct l1.
  - apply Forall_app in Hv as [Hv Hv1]. apply Forall_cons in Hv1 as [Hv1 _].
    rewrite run_app in Hr. destruct (run l (start n)) as [st0|] eqn:Hr0; [|done]. simpl in Hr.
    destruct (stream_step _ _ _ st0) as [st1|] eqn:Hs; [|done]. simplify_eq/=.
    eapply side_ok_step; [exact Hs|exact Hv1|by apply IH].
Qed.

#[local] Instance side_ok_proper n l : Proper (stream_eq ==> (=) ==> impl) (side_ok n l).
Proof.
  intros s s' [H1 H2] side ? <- [S1 S2 S3 S4 S5 S6 S7]. destruct (H1 side) as (E1 & E2 & E3).
  constructor; rewrite <- ?E1, <- ?E2, <- ?E3, <- ?H2; done.
Qed.

(** C7: What the two ends of a live connection were sent since its connect
    frame obeys the stream discipline, after any sequence of operations of the
    broker on any connections and whatever its callbacks revoke from inside them:
    in both directions the frames are contiguous in sequence and end where the
    connection stands, the data forwarded plus the credit left is within the credit
    granted, and there is no data before the acceptance or after a half-close of its
    direction. *)
Theorem stream_discipline A y k ref :
  reachable keeps_log A y -> IndexMap.get k (connections y.2) = Some ref ->
  exists c n l, heap y.2 !! ref = Some c /\ since_connect (log y.1) c n l /\
    forall side, side_ok (credit (start n)) l (view c) side.
Proof.
  intros Hr Hg%IndexMap.get_In. pose proof (inv_reachable _ _ _ Hr) as I.
  destruct (inv_tidy _ _ I) as (Hk & _). destruct (Hk _ _ Hg) as (c & Hc & _).
  destruct (streams_reachable _ _ Hr _ _ _ Hg Hc) as (n & l & st & Hs & [Hn Hv] & Hrun & Heq).
  exists c, n, l. split; [done|]. split; [done|]. intros side. rewrite <- Heq. by apply run_discipline.
Qed.

(** *** Revoking from inside a callback

    What an operation that revokes sends is sent on connections that it ends, so that
    a callback that runs one keeps the promise. *)
Lemma ended_adds A ref c y y' : sound A y.2 -> heap y.2 !! ref = Some c -> ended ref c y y' -> adds [] y'.2 (log y.1) (log y'.1).
Proof.
  intros S Hc [M Hgone (ext & -> & Hf)]. exists ext, []. rewrite !app_nil_r. split; [done|].
  pose proof (moved_sound _ _ _ _ _ M S) as S'. eapply Forall_impl; [exact Hf|]. intros e [He|He]; [|done].
  intros k r c' Hin Hc' He'. destruct (moved_heap_to _ _ _ _ _ _ M Hc) as (c1 & Hc1 & Er & Ei).
  destruct (proj1 (proj1 S') k r Hin) as (c2 & Hc2 & ->). simplify_eq.
  apply IndexMap.get_None in Hgone. apply Hgone. apply list_elem_of_fmap. eexists (_, r). split; [|exact Hin].
  simpl. rewrite <- Er, <- Ei. eapply (same_stream_key A y'.2); [done|done|done| |done]. unfold on_stream in *. by rewrite Er, Ei.
Qed.

Lemma stray_revokes s s' e : revokes s s' -> stray s e -> stray s' e.
Proof. intros R Hs k r c Hin Hc. eapply Hs; [by eapply sublist_elem; [|apply R]|by rewrite <- (rv_heap _ _ R)]. Qed.
Lemma adds_trans s1 s2 a b c : adds [] s1 a b -> revokes s1 s2 -> adds [] s2 b c -> adds [] s2 a c.
Proof.
  intros (p1 & q1 & -> & F1) R (p2 & q2 & -> & F2). exists (p1 ++ q1), (p2 ++ q2). simpl.
  split; [by rewrite <- !app_assoc|]. apply Forall_app. split; [|done]. eapply Forall_impl; [exact F1|]. intros e. by apply stray_revokes.
Qed.

Lemma terminate_adds A ref reason y : sound A y.2 -> adds [] (terminate ref reason y).2 (log y.1) (log (terminate ref reason y).1).
Proof.
  intros S. destruct (heap y.2 !! ref) as [c|] eqn:Hc; [by eapply ended_adds; [..|eapply terminate_ended]|].
  unfold terminate. rewrite Hc. apply adds_refl.
Qed.
Lemma terminate_all_adds A refs reason : forall y, sound A y.2 -> adds [] (terminate_all refs reason y).2 (log y.1) (log (terminate_all refs reason y).1).
Proof.
  induction refs as [|r refs IH]; intros y S; [apply adds_refl|]. cbn [terminate_all].
  assert (S1 : sound A (terminate r reason y).2) by (eapply sound_revokes; [apply terminate_revokes, S|done]).
  eapply adds_trans; [by eapply terminate_adds|apply terminate_all_revokes, S1|by apply IH].
Qed.
Lemma unsubscribe_all_adds A l : forall y, sound A y.2 -> adds [] (unsubscribe_all l y).2 (log y.1) (log (unsubscribe_all l y).1).
Proof.
  induction l as [|u l IH]; intros y S; [apply adds_refl|]. cbn [unsubscribe_all].
  pose proof (unsubscribe_called A u y S) as C. assert (S1 : sound A (unsubscribe_cb u y).2) by (eapply sound_revokes; [apply C|done]).
  eapply adds_trans; [apply C|apply unsubscribe_all_revokes, S1|by apply IH].
Qed.
Lemma remove_adds A rt reason y : sound A y.2 -> adds [] (remove rt reason y).2 (log y.1) (log (remove rt reason y).1).
Proof.
  intros S. unfold remove. destruct (current_route y.2 rt); [|apply adds_refl].
  set (y1 := put y (set_routes _ _)).
  assert (S1 : sound A y1.2).
  { destruct S as [(Hk & Hw & Hr) Ht]. split; [|done]. split_and!; [done|done|]. by apply IndexMap.wf_remove. }
  match goal with |- context [terminate_all ?refs reason y1] => pose proof (terminate_all_adds A refs reason y1 S1) as L2;
    pose proof (terminate_all_revokes refs reason y1 (proj1 S1)) as R2; set (y2 := terminate_all refs reason y1) in * end.
  assert (S2 : sound A y2.2) by (by eapply sound_revokes). set (y3 := put y2 (set_cleanups y2.2 _)).
  assert (S3 : sound A y3.2) by exact S2.
  eapply (adds_trans y3.2); [|apply unsubscribe_all_revokes, S3|by eapply unsubscribe_all_adds]. exact L2.
Qed.
Lemma remove_all_adds A rs reason : forall y, sound A y.2 -> adds [] (remove_all rs reason y).2 (log y.1) (log (remove_all rs reason y).1).
Proof.
  induction rs as [|rt rs IH]; intros y S; [apply adds_refl|]. cbn [remove_all].
  destruct (remove_revokes rt reason y (proj1 S)) as (R & _). assert (S1 : sound A (remove rt reason y).2) by (by eapply sound_revokes).
  eapply adds_trans; [by eapply remove_adds|by apply (remove_all_spec rs reason), S1|by apply IH].
Qed.
End logged.
End broker.

(** ** A concrete broker *)
Module Sample.

Abbreviation log_t := (list (Sent (Target := unit))).
Abbreviation system := (Sys (Target := unit) (Sys0 := log_t)).
Abbreviation endpoints := (Callbacks (Target := unit) (Sys0 := log_t)).

Definition options : Options := MkOptions 300000 43200000 67108864 1024 64 2048.

(** Endpoints that take every frame and log it. *)
#[export] Instance logging : endpoints := {
  send_frame rt side h p y := (true, (y.1 ++ [MkSent (r_id rt) side h p], y.2));
  activity_cb _ _ y := (true, y);
  consume_cb _ _ _ y := (true, y);
  unsubscribe_cb _ y := y;
  clock_cb y := (len y.1, y)
}.

Lemma logging_laws : CallbackLaws (callbacks := logging).
Proof. constructor; intros; simpl; done || apply revokes_refl. Qed.

Lemma logging_logged : Logged (callbacks := logging).
Proof.
  refine {| log := fun x => x; spared := fun _ => True |}; intros; simpl; try done; (split; [|by split]).
  - exists [], []. done.
  - apply adds_refl.
  - apply adds_refl.
  - apply adds_refl.
Defined.

(** The same, but the activity callback revokes the attachment from inside the
    broker once three frames were sent. *)
Definition revoking : endpoints := {|
  send_frame := send_frame;
  activity_cb t a y :=
    if 3 <=? len y.1 then (false, (revoke_attachment (callbacks := logging) a y).2) else (true, y);
  consume_cb := consume_cb;
  unsubscribe_cb := unsubscribe_cb;
  clock_cb := clock_cb
|}.

Lemma revoking_laws : CallbackLaws (callbacks := revoking).
Proof.
  constructor; intros; simpl; try apply revokes_refl; [|done].
  destruct (3 <=? len y.1); [|apply revokes_refl].
  by apply (remove_all_spec (laws := logging_laws)).
Qed.

(** It spares no route. *)
Lemma revoking_logged : Logged (callbacks := revoking).
Proof.
  refine {| log := fun x => x; spared := fun _ => False |}; intros; simpl; try done; (split; [|by split]).
  - exists [], []. done.
  - destruct (3 <=? len y.1); [|apply adds_refl]. by eapply (remove_all_adds (laws := logging_laws) (logged := logging_logged)).
  - apply adds_refl.
  - apply adds_refl.
Defined.

Definition registration0 : Registration := MkRegistration [116] [97] [115] [100] tt None None None.
Definition route0 : Route := MkRoute 0 (route_key registration0) registration0.
Definition header0 (sequence : Z) (b : Body (Target := unit)) : Header := MkHeader [116] [97] [115] [100] [99] sequence b.

Definition frames : list (Side * Header (Target := unit) * list byte) :=
  [(Source, header0 0 (Open 100), []);
   (Destination, header0 0 (Accepted 10), []);
   (Source, header0 1 (Data SourceToDestination false), [x61; x62; x63]);
   (Source, header0 2 (HalfClose SourceToDestination), [])].

Definition deliver (callbacks : endpoints) (y : system) (f : Side * Header * list byte) : system :=
  receive options (callbacks := callbacks) route0 f.1.1 f.1.2 f.2 y.

Definition registered : system := ([], (register options new_state 0 registration0).2).
Definition delivered (callbacks : endpoints) (k : nat) : system :=
  fold_left (deliver callbacks) (take k frames) registered.

Lemma reach callbacks E k :
  reachable options (callbacks := callbacks) E {[0%nat := route0]} (delivered callbacks k).
Proof.
  exists []. eapply rtc_l.
  { refine (step_register _ E ∅ ([], new_state) 0 registration0 route0 _ _ _); [done|]. reflexivity. }
  change (put _ _) with registered. rewrite insert_empty. unfold delivered.
  assert (Hv : Forall (fun f => valid_header f.1.2) frames).
  { repeat constructor; simpl; try done; unfold plain; set_solver by lia. }
  apply (Forall_take _ k) in Hv. revert Hv. generalize (take k frames) registered.
  induction l as [|f l IH]; intros y Hv; [done|]. apply Forall_cons in Hv as [Hf Hv].
  eapply rtc_l; [|by apply IH]. by refine (step_receive _ E _ route0 _ _ _ _ _ Hf).
Qed.

Lemma broker_invariant_witness :
  opened (delivered revoking 4).2 = 1 /\ closed (delivered revoking 4).2 = 1 /\
  openedConnections (stats (delivered revoking 4).2) =
    closedConnections (stats (delivered revoking 4).2) + activeConnections (stats (delivered revoking 4).2).
Proof.
  split; [vm_compute; reflexivity|]. split; [vm_compute; reflexivity|].
  exact (proj1 (proj2 (proj2 (proj2 (broker_invariant options (laws := revoking_laws) (fun _ _ => True) _ _
    (reach revoking _ 4)))))).
Defined.

Lemma revocation_complete_witness :
  length (connections (delivered revoking 3).2) = 1%nat /\
  connections (close_broker (callbacks := revoking) (delivered revoking 3)).2 = [].
Proof.
  split; [vm_compute; reflexivity|].
  exact (proj2 (proj2 (revocation_complete options (laws := revoking_laws) (fun _ _ => True) _ _ [97]
    (reach revoking _ 3)))).
Defined.



Lemma stream_discipline_witness :
  exists c n l, heap (delivered revoking 3).2 !! 0%nat = Some c /\
    since_connect (delivered revoking 3).1 c n l /\ side_ok (credit (start n)) l (view c) Source.
Proof.
  destruct (stream_discipline options (laws := revoking_laws) (logged := revoking_logged) {[0%nat := route0]} (delivered revoking 3)
    (connection_key route0 [99]) 0 (reach revoking _ 3) ltac:(vm_compute; reflexivity))
    as (c & n & l & H1 & H2 & H3).
  exists c, n, l. split; [exact H1|]. split; [exact H2|]. exact (H3 Source).
Defined.

End Sample.

End Broker.
