(* ===== verification/Relay.v ===== *)
(** * The WorkerLink relay

    [Relay] models src/cantrip_server_rs/src/worker_links/relay/: the relay
    connections of WorkerLink sessions (mod.rs, lifecycle.rs), the channels
    multiplexed on them with their sequence numbers and Remote Surface permits
    (channels.rs), and the bounded output queues, one per lane (queue.rs).

    A connection is a reference into a heap, so that [Arc::ptr_eq] compares
    references. Sockets, the worker bridge, quotas, the clock and the recorder
    are the class [Ports] over a world of their own: none of them calls back
    into the relay. The operations on frames hold the operation lock of their
    connection; [retire] does not, so that [fine_step] cuts operations into their
    critical sections and lets retirements come between them, while [step] runs
    operations as a whole. A retirement itself is one step. A timer is the flag that
    one is pending; the step that fires it is [drain]. *)
From S2P Require Import Prelude Frames.
From Stdlib Require Import Strings.Byte.
From stdpp Require Import base numbers gmap strings sorting list.
Open Scope Z_scope.

Module Relay.
Import Text.

Inductive Lane := Interactive | Realtime | Events | Stream | Bulk.
#[global] Instance lane_eq_dec : EqDecision Lane.
Proof. solve_decision. Defined.
Definition LANES : list Lane := [Interactive; Realtime; Events; Stream; Bulk].
Definition MAX_BUFFERED : Z := 8 * 1024 * 1024.
Definition MAX_CLOSING : Z := 1024.

Inductive Resource := Terminal | Browser | RemoteDesktop | ProjectShare | Tunnel | Observations.
#[global] Instance resource_eq_dec : EqDecision Resource.
Proof. solve_decision. Defined.

Inductive Kind :=
| Open (grantId : text) (resource : Resource)
| Accept | Reject | Data | Credit | HalfClose | Close (code : string) | Error.
#[global] Instance kind_eq_dec : EqDecision Kind.
Proof. solve_decision. Defined.

(** The identity of a channel: its id and the generations the frame repeats. *)
Record ChannelIdentity := MkIdentity { channelId : text; generations : text }.
#[global] Instance identity_eq_dec : EqDecision ChannelIdentity.
Proof. solve_decision. Defined.

Record Header := MkHeader {
  protocolVersion : Z;
  sessionId : text;
  routeGeneration : Z;
  effectiveRoute : string;
  channel : ChannelIdentity;
  lane : Lane;
  sequence : Z;
  kind : Kind
}.

Record Limit := MkLimit { maxQueuedFrames : Z; maxQueuedBytes : Z }.

Definition KB : Z := 1024.
(** [Options::default]: the limits of the lanes. *)
Definition default_limits (l : Lane) : Limit :=
  match l with
  | Events => MkLimit 256 (4 * KB * KB)
  | Interactive => MkLimit 128 (2 * KB * KB)
  | Stream => MkLimit 256 (16 * KB * KB)
  | Realtime => MkLimit 64 (4 * KB * KB)
  | Bulk => MkLimit 128 (16 * KB * KB)
  end.

Section relay.
Context {W Permit : Type} `{HeaderCodec Header}.
Abbreviation RFrame := (Frame Header).

(** ** State *)

Record Channel := MkChannel {
  bandwidth : string;
  delivered : Z;
  client_sequence : Z;
  worker_sequence : Z;
  grant : text;
  header : Header
}.

Record Queued := MkQueued { q_bandwidth : string; q_frame : RFrame }.
Record LaneQueue := MkLane { l_bytes : Z; l_frames : list Queued }.
Record Surface := MkSurface { s_channels : gset text; s_permit : option Permit }.

Record Session := MkSession {
  s_id : text;
  s_generation : Z;
  s_owner : text;
  s_worker : text;
  s_account : text;
  s_relay_enabled : bool
}.

Record ConnectionState := MkConnection {
  session : Session;
  closed : bool;
  channels : list (text * Channel);
  closing : list (text * Channel);
  lanes : Lane -> LaneQueue;
  surfaces : list (text * Surface);
  bytes : Z;
  frames : Z;
  stalled_at : option Z;
  drain_scheduled : bool;
  timer : bool;
  bindings : bool
}.

Record State := MkState {
  r_closed : bool;
  connections : list (text * nat);
  heap : gmap nat ConnectionState;
  next_ref : nat
}.

Definition Sys : Type := W * State.

(** What the relay calls. *)
Class Ports := {
  is_open : nat -> W -> bool;
  buffered_amount : nat -> W -> Z;
  send : nat -> RFrame -> W -> bool * W;
  close_socket : nat -> Z -> string -> W -> W;
  send_worker_link_frame : text -> RFrame -> W -> bool * W;
  subscribe : nat -> text -> W -> W;
  unsubscribe : nat -> text -> W -> W;
  acquire_remote_surface : option (text -> text -> W -> option Permit * W);
  drop_permit : Permit -> W -> W;
  consume_relay : option (text -> text -> Z -> W -> bool * W);
  record_port : option (text -> string -> bool -> Z -> W -> W);
  now : W -> Z
}.

Context (limits : Lane -> Limit) (auto_drain : bool) {ports : Ports}.

Definition new_state : State := MkState false [] ∅ 0.

(** ** Field updates *)

Definition set_channels (c : ConnectionState) (chs : list (text * Channel)) : ConnectionState :=
  MkConnection (session c) (closed c) chs (closing c) (lanes c) (surfaces c) (bytes c) (frames c)
    (stalled_at c) (drain_scheduled c) (timer c) (bindings c).
Definition set_closing (c : ConnectionState) (chs : list (text * Channel)) : ConnectionState :=
  MkConnection (session c) (closed c) (channels c) chs (lanes c) (surfaces c) (bytes c) (frames c)
    (stalled_at c) (drain_scheduled c) (timer c) (bindings c).
Definition set_surfaces (c : ConnectionState) (s : list (text * Surface)) : ConnectionState :=
  MkConnection (session c) (closed c) (channels c) (closing c) (lanes c) s (bytes c) (frames c)
    (stalled_at c) (drain_scheduled c) (timer c) (bindings c).
Definition set_lane (c : ConnectionState) (l : Lane) (q : LaneQueue) (b n : Z) : ConnectionState :=
  MkConnection (session c) (closed c) (channels c) (closing c)
    (fun l' => if decide (l' = l) then q else lanes c l') (surfaces c) b n
    (stalled_at c) (drain_scheduled c) (timer c) (bindings c).
Definition set_stalled (c : ConnectionState) (at_ : option Z) : ConnectionState :=
  MkConnection (session c) (closed c) (channels c) (closing c) (lanes c) (surfaces c) (bytes c)
    (frames c) at_ (drain_scheduled c) (timer c) (bindings c).
Definition set_timer (c : ConnectionState) (scheduled pending : bool) : ConnectionState :=
  MkConnection (session c) (closed c) (channels c) (closing c) (lanes c) (surfaces c) (bytes c)
    (frames c) (stalled_at c) scheduled pending (bindings c).

Definition write (ref : nat) (c : ConnectionState) (y : Sys) : Sys :=
  (y.1, MkState (r_closed y.2) (connections y.2) (<[ref := c]> (heap y.2)) (next_ref y.2)).
Definition on_world (f : W -> W) (y : Sys) : Sys := (f y.1, y.2).
Definition close (ref : nat) (code : Z) (reason : string) : Sys -> Sys :=
  on_world (close_socket ref code reason).

(** ** mod.rs *)

Definition canonical (h : Header) : ChannelIdentity * Lane := (channel h, lane h).

Definition bandwidth_of (r : Resource) : string :=
  match r with
  | Terminal => "terminal-relay"
  | Browser | RemoteDesktop => "remote-surface-relay"
  | ProjectShare => "project-share-relay"
  | Tunnel => "tunnel-relay"
  | Observations => "other"
  end.

Definition current (s : State) (ref : nat) (c : ConnectionState) : bool :=
  bool_decide (IndexMap.get (s_id (session c)) (connections s) = Some ref).

Definition record (c : ConnectionState) (channel : string) (ingress : bool) (n : Z) (w : W) : W :=
  match record_port with
  | Some f => f (s_owner (session c)) channel ingress n w
  | None => w
  end.

(** [Relay::consume]. *)
Definition consume (ref : nat) (c : ConnectionState) (n : Z) (w : W) : bool * W :=
  let '(ok, w) :=
    if n =? 0 then (true, w)
    else match consume_relay with
         | Some f => f (s_owner (session c)) (s_worker (session c)) n w
         | None => (true, w)
         end in
  if ok then (true, w)
  else (false, close_socket ref 1013 "WorkerLink relay bandwidth quota reached" w).

Record Stats := MkStats {
  n_channels : Z;
  n_connections : Z;
  queuedBytes : Z;
  queuedFrames : Z;
  queuedFramesByLane : list (Lane * Z)
}.

Definition attached (s : State) : list ConnectionState :=
  omap (fun kr : text * nat => heap s !! kr.2) (connections s).

Definition stats (s : State) : Stats :=
  MkStats (sumZ ((fun c => len (channels c)) <$> attached s)) (len (connections s))
    (sumZ (bytes <$> attached s)) (sumZ (frames <$> attached s))
    ((fun l => (l, sumZ ((fun c => len (l_frames (lanes c l))) <$> attached s))) <$> LANES).

(** ** queue.rs

    The functions of one connection take it by value and give it back. *)

Definition send_now (ref : nat) (c : ConnectionState) (bw : string) (f : RFrame) (w : W) : bool * W :=
  let '(ok, w) := send ref f w in
  if ok then (true, record c bw false (len (f_bytes f)) w)
  else (false, close_socket ref 1011 "WorkerLink relay send failed" w).

Definition schedule (c : ConnectionState) : ConnectionState :=
  if closed c || drain_scheduled c then c
  else set_timer c true (if auto_drain then true else timer c).

Definition congested (ref : nat) (q : LaneQueue) (w : W) : bool :=
  negb (bool_decide (l_frames q = [])) || (MAX_BUFFERED <? buffered_amount ref w).

Definition over_limit (l : Lane) (q : LaneQueue) (n : Z) : bool :=
  (maxQueuedFrames (limits l) <=? len (l_frames q)) || (maxQueuedBytes (limits l) <? l_bytes q + n).

Definition enqueue (l : Lane) (item : Queued) (at_ : Z) (c : ConnectionState) : ConnectionState :=
  let q := lanes c l in
  let n := len (f_bytes (q_frame item)) in
  let c := set_lane c l (MkLane (l_bytes q + n) (l_frames q ++ [item])) (bytes c + n) (frames c + 1) in
  schedule (set_stalled c (Some (default at_ (stalled_at c)))).

Definition send_or_queue (ref : nat) (l : Lane) (bw : string) (f : RFrame) (c : ConnectionState) (w : W)
    : bool * (ConnectionState * W) :=
  if negb (is_open ref w) then (false, (c, w))
  else if congested ref (lanes c l) w then
    if over_limit l (lanes c l) (len (f_bytes f))
    then (false, (c, close_socket ref 1013 "WorkerLink relay lane is congested" w))
    else (true, (enqueue l (MkQueued bw f) (now w) c, w))
  else
    let '(ok, w) := send_now ref c bw f w in (ok, (c, w)).

(** [pop_front] of a lane with its accounting. *)
Definition dequeue (l : Lane) (c : ConnectionState) : option (Queued * ConnectionState) :=
  match l_frames (lanes c l) with
  | [] => None
  | next :: rest =>
      let n := len (f_bytes (q_frame next)) in
      Some (next, set_lane c l (MkLane (l_bytes (lanes c l) - n) rest) (bytes c - n) (frames c - 1))
  end.

(** How the pass over the lanes ended. *)
Inductive Pass := Failed | Passed (sent : bool).

Fixpoint drain_lanes (ref : nat) (ls : list Lane) (sent : bool) (c : ConnectionState) (w : W)
    : Pass * (ConnectionState * W) :=
  match ls with
  | [] => (Passed sent, (c, w))
  | l :: ls =>
      match dequeue l c with
      | None => drain_lanes ref ls sent c w
      | Some (next, c) =>
          let '(ok, w) := send_now ref c (q_bandwidth next) (q_frame next) w in
          if ok then
            let c := set_stalled c (Some (now w)) in
            if MAX_BUFFERED <? buffered_amount ref w then (Passed true, (c, w))
            else drain_lanes ref ls true c w
          else (Failed, (c, w))
      end
  end.

Fixpoint drain_loop (fuel : nat) (ref : nat) (c : ConnectionState) (w : W) : bool * (ConnectionState * W) :=
  match fuel with
  | O => (true, (c, w))
  | S fuel =>
      if buffered_amount ref w <=? MAX_BUFFERED then
        match drain_lanes ref LANES false c w with
        | (Failed, r) => (false, r)
        | (Passed true, (c, w)) => drain_loop fuel ref c w
        | (Passed false, r) => (true, r)
        end
      else (true, (c, w))
  end.

Definition queued (c : ConnectionState) : nat :=
  sum_list ((fun l => length (l_frames (lanes c l))) <$> LANES).

(** ** lifecycle.rs *)

Definition close_header (ch : Channel) : Header :=
  let h := header ch in
  MkHeader (protocolVersion h) (sessionId h) (routeGeneration h) (effectiveRoute h) (channel h) (lane h)
    (delivered ch + 1) (Close "endpoint-disconnected").

Definition close_channel (worker : text) (ch : Channel) (w : W) : W :=
  if delivered ch <? 0 then w
  else match WorkerLinkFrame.create (close_header ch) [] with
       | inr f => (send_worker_link_frame worker f w).2
       | inl _ => w
       end.

Definition drop_surface (s : Surface) (w : W) : W :=
  match s_permit s with Some p => drop_permit p w | None => w end.

Definition retired (c : ConnectionState) : ConnectionState :=
  MkConnection (session c) true [] [] (fun _ => MkLane 0 []) [] 0 0 (stalled_at c) false false false.

Definition retire (ref : nat) (y : Sys) : Sys :=
  match heap y.2 !! ref with
  | None => y
  | Some c =>
      if closed c then y
      else
        let s := y.2 in
        let table :=
          if current s ref c then IndexMap.shift_remove (s_id (session c)) (connections s)
          else connections s in
        let w := if bindings c then unsubscribe ref (s_worker (session c)) y.1 else y.1 in
        let w := fold_left (fun w s => drop_surface s w) (IndexMap.values (surfaces c)) w in
        let w := fold_left (fun w ch => close_channel (s_worker (session c)) ch w)
                   (IndexMap.values (channels c)) w in
        (w, MkState (r_closed s) table (<[ref := retired c]> (heap s)) (next_ref s))
  end.

Definition attach (sess : Session) (y : Sys) : option nat * Sys :=
  let s := y.2 in
  let ref := next_ref s in
  if r_closed s || negb (is_open ref y.1) || negb (s_relay_enabled sess) then
    (None, (close_socket ref 1013 "WorkerLink relay is unavailable" y.1,
            MkState (r_closed s) (connections s) (heap s) (S ref)))
  else
    let w := match IndexMap.get (s_id sess) (connections s) with
             | Some previous => close_socket previous 1012 "WorkerLink relay was replaced" y.1
             | None => y.1
             end in
    let c := MkConnection sess false [] [] (fun _ => MkLane 0 []) [] 0 0 None false false true in
    (Some ref, (subscribe ref (s_worker sess) w,
                MkState (r_closed s) (IndexMap.insert (s_id sess) ref (connections s))
                  (<[ref := c]> (heap s)) (S ref))).

Definition revoke_session (id : text) (reason : string) (y : Sys) : Sys :=
  match IndexMap.get id (connections y.2) with
  | Some ref => close ref 1008 reason y
  | None => y
  end.

Definition revoke_where (P : Session -> bool) (reason : string) (y : Sys) : Sys :=
  fold_left (fun y ref =>
    match heap y.2 !! ref with
    | Some c => if P (session c) then close ref 1008 reason y else y
    | None => y
    end) (IndexMap.values (connections y.2)) y.
Definition revoke_account (account : text) : Sys -> Sys :=
  revoke_where (fun s => bool_decide (s_account s = account)) "Account session ended".
Definition revoke_owner (owner : text) : Sys -> Sys :=
  revoke_where (fun s => bool_decide (s_owner s = owner)) "Account sessions ended".

Definition close_relay (y : Sys) : Sys :=
  let s := y.2 in
  if r_closed s then y
  else
    fold_left (fun y ref => retire ref (close ref 1001 "Server is shutting down" y))
      (IndexMap.values (connections s))
      (y.1, MkState true (connections s) (heap s) (next_ref s)).

(** [Relay::release]; the permit of a surface that lost its last channel. *)
Definition release (id : text) (await_close : bool) (c : ConnectionState) (w : W) : ConnectionState * W :=
  match IndexMap.get id (channels c) with
  | None => (c, w)
  | Some ch =>
      let c := set_channels c (IndexMap.shift_remove id (channels c)) in
      let c :=
        if await_close then
          let waiting := IndexMap.insert id ch (closing c) in
          set_closing c (if MAX_CLOSING <? len waiting then drop 1 waiting else waiting)
        else c in
      match IndexMap.get (grant ch) (surfaces c) with
      | None => (c, w)
      | Some s =>
          let left := s_channels s ∖ {[id]} in
          if decide (left = ∅)
          then (set_surfaces c (IndexMap.shift_remove (grant ch) (surfaces c)), drop_surface s w)
          else (set_surfaces c (IndexMap.insert (grant ch) (MkSurface left (s_permit s)) (surfaces c)), w)
      end
  end.

Definition drain (ref : nat) (y : Sys) : Sys :=
  match heap y.2 !! ref with
  | None => y
  | Some c =>
      if negb (current y.2 ref c) || closed c then y
      else
        let c := set_timer c false false in
        if negb (is_open ref y.1) then retire ref (write ref c y)
        else if MAX_BUFFERED <? buffered_amount ref y.1 then
          if match stalled_at c with Some t => 5000 <=? now y.1 - t | None => false end
          then close ref 1013 "WorkerLink relay client is too slow" (write ref c y)
          else write ref (schedule c) y
        else
          let '(finished, (c, w)) := drain_loop (S (queued c)) ref c y.1 in
          let c :=
            if finished then (if frames c =? 0 then set_stalled c None else schedule c) else c in
          write ref c (w, y.2)
  end.

(** ** channels.rs *)

Definition is_surface (r : Resource) : bool :=
  match r with Browser | RemoteDesktop => true | _ => false end.

(** [Relay::retain_surface]: the first channel of a Remote Surface grant takes
    its permit. *)
Definition retain_surface (c : ConnectionState) (id g : text) (r : Resource) (w : W)
    : option ConnectionState * W :=
  if negb (is_surface r) then (Some c, w)
  else
    match IndexMap.get g (surfaces c) with
    | Some s =>
        (Some (set_surfaces c
                 (IndexMap.insert g (MkSurface ({[id]} ∪ s_channels s) (s_permit s)) (surfaces c))), w)
    | None =>
        let fresh p := set_surfaces c (IndexMap.insert g (MkSurface {[id]} p) (surfaces c)) in
        match acquire_remote_surface with
        | None => (Some (fresh None), w)
        | Some acquire =>
            match acquire (s_owner (session c)) (s_worker (session c)) w with
            | (Some p, w) => (Some (fresh (Some p)), w)
            | (None, w) => (None, w)
            end
        end
    end.

Inductive Admission := Refused (code : Z) (reason : string) | Taken (id : text) (ch : Channel).

(** The channel of a client frame: opened, or found and advanced. *)
Definition open_channel (c : ConnectionState) (h : Header) (g : text) (r : Resource) (w : W)
    : Admission * (ConnectionState * W) :=
  let id := channelId (channel h) in
  if IndexMap.contains_key id (channels c) || IndexMap.contains_key id (closing c)
  then (Refused 1008 "WorkerLink channel was replayed", (c, w))
  else
    match retain_surface c id g r w with
    | (None, w) => (Refused 1013 "WorkerLink Remote Surface relay quota reached", (c, w))
    | (Some c, w) =>
        let ch := MkChannel (bandwidth_of r) (-1) (sequence h) (-1) g h in
        (Taken id ch, (set_channels c (IndexMap.insert id ch (channels c)), w))
    end.

Definition advance_client (c : ConnectionState) (h : Header) (w : W) : Admission * (ConnectionState * W) :=
  let id := channelId (channel h) in
  match IndexMap.get id (channels c) with
  | None => (Refused 1008 "WorkerLink channel sequence is invalid", (c, w))
  | Some ch =>
      if negb (sequence h =? client_sequence ch + 1)
      then (Refused 1008 "WorkerLink channel sequence is invalid", (c, w))
      else
        let ch := MkChannel (bandwidth ch) (delivered ch) (sequence h) (worker_sequence ch) (grant ch)
                    (header ch) in
        (Taken id ch, (set_channels c (IndexMap.insert id ch (channels c)), w))
  end.

Definition client_channel (c : ConnectionState) (h : Header) (w : W) : Admission * (ConnectionState * W) :=
  match kind h with
  | Open g r => open_channel c h g r w
  | _ => advance_client c h w
  end.

Definition is_close (k : Kind) : bool := match k with Close _ => true | _ => false end.
Definition is_reject (k : Kind) : bool := match k with Reject => true | _ => false end.
Definition is_accept (k : Kind) : bool := match k with Accept => true | _ => false end.

(** The frame's session, generation and route are those of the connection. *)
Definition matches (c : ConnectionState) (h : Header) : bool :=
  bool_decide (sessionId h = s_id (session c)) && (routeGeneration h =? s_generation (session c))
  && bool_decide (effectiveRoute h = "relay"%string).

(** The rest of [receive_client], for the channel [ch] filed under [id]. *)
Definition forward_client (ref : nat) (id : text) (ch : Channel) (f : RFrame) (c : ConnectionState) (w : W)
    : ConnectionState * W :=
  let h := f_header f in
  let n := len (f_bytes f) in
  let w := record c (bandwidth ch) true n w in
  let '(ok, w) := consume ref c (len (f_payload f)) w in
  if negb ok then (c, w)
  else
    let '(sent, w) := send_worker_link_frame (s_worker (session c)) f w in
    if negb sent then (c, close_socket ref 1013 "WorkerLink worker route is unavailable" w)
    else
      let ch := MkChannel (bandwidth ch) (sequence h) (client_sequence ch) (worker_sequence ch) (grant ch)
                  (header ch) in
      let c := set_channels c (IndexMap.insert id ch (channels c)) in
      let w := record c (bandwidth ch) false n w in
      if is_close (kind h) then release id true c w else (c, w).

Definition receive_client (ref : nat) (data : list byte) (binary : bool) (y : Sys) : Sys :=
  if negb binary then close ref 1003 "WorkerLink relay requires binary frames" y
  else
    match heap y.2 !! ref with
    | None => y
    | Some c =>
        if closed c || negb (current y.2 ref c) then y
        else
          match WorkerLinkFrame.decode data with
          | inl _ => close ref 1003 "WorkerLink frame is invalid" y
          | inr f =>
              if negb (matches c (f_header f)) then close ref 1008 "WorkerLink frame identity is stale" y
              else
                match client_channel c (f_header f) y.1 with
                | (Refused code reason, (c, w)) => close ref code reason (write ref c (w, y.2))
                | (Taken id ch, (c, w)) =>
                    let '(c, w) := forward_client ref id ch f c w in write ref c (w, y.2)
                end
          end
    end.

(** The checks of a worker frame against its channel. *)
Definition in_sequence (ch : Channel) (h : Header) : bool :=
  bool_decide (canonical (header ch) = canonical h)
  && (sequence h =? worker_sequence ch + 1)
  && (if worker_sequence ch <? 0 then is_accept (kind h) || is_reject (kind h)
      else negb (is_accept (kind h) || is_reject (kind h))).

Definition forward_worker (ref : nat) (id : text) (ch : Channel) (f : RFrame) (c : ConnectionState) (w : W)
    : ConnectionState * W :=
  let h := f_header f in
  let w := record c (bandwidth ch) true (len (f_bytes f)) w in
  let '(ok, w) := consume ref c (len (f_payload f)) w in
  if negb ok then (c, w)
  else
    let '(taken, (c, w)) := send_or_queue ref (lane h) (bandwidth ch) f c w in
    if taken && (is_close (kind h) || is_reject (kind h)) then release id false c w else (c, w).

Definition receive_worker (ref : nat) (f : RFrame) (y : Sys) : Sys :=
  match heap y.2 !! ref with
  | None => y
  | Some c =>
      let h := f_header f in
      if negb (current y.2 ref c) || negb (matches c h) then y
      else
        let id := channelId (channel h) in
        let out_of_sequence := close ref 1008 "WorkerLink worker frame is out of sequence" y in
        let advance ch := MkChannel (bandwidth ch) (delivered ch) (client_sequence ch) (sequence h)
                            (grant ch) (header ch) in
        match IndexMap.get id (channels c), IndexMap.get id (closing c) with
        | None, None => out_of_sequence
        | Some ch, None =>
            if negb (in_sequence ch h) then out_of_sequence
            else
              let c := set_channels c (IndexMap.insert id (advance ch) (channels c)) in
              let '(c, w) := forward_worker ref id (advance ch) f c y.1 in
              write ref c (w, y.2)
        | Some ch, Some _ =>
            (* the lookup prefers [channels]; the frame is swallowed as closing *)
            if negb (in_sequence ch h) then out_of_sequence
            else
              let c := set_channels c (IndexMap.insert id (advance ch) (channels c)) in
              write ref (if is_close (kind h) || is_reject (kind h)
                         then set_closing c (IndexMap.shift_remove id (closing c)) else c) y
        | None, Some ch =>
            if negb (in_sequence ch h) then out_of_sequence
            else
              let c := set_closing c (IndexMap.insert id (advance ch) (closing c)) in
              write ref (if is_close (kind h) || is_reject (kind h)
                         then set_closing c (IndexMap.shift_remove id (closing c)) else c) y
        end
  end.

(** ** The invariant of a connection *)

Definition queue_bytes (fs : list Queued) : Z := sumZ ((fun q => len (f_bytes (q_frame q))) <$> fs).
Definition over_lanes (f : LaneQueue -> Z) (ls : Lane -> LaneQueue) : Z := sumZ ((fun l => f (ls l)) <$> LANES).
Definition lane_len (q : LaneQueue) : Z := len (l_frames q).

Record queues_ok (c : ConnectionState) : Prop := QueuesOk {
  qo_bytes : forall l, l_bytes (lanes c l) = queue_bytes (l_frames (lanes c l));
  qo_max_frames : forall l, len (l_frames (lanes c l)) <= Z.max 0 (maxQueuedFrames (limits l));
  qo_max_bytes : forall l, l_bytes (lanes c l) <= Z.max 0 (maxQueuedBytes (limits l));
  qo_total_bytes : bytes c = over_lanes l_bytes (lanes c);
  qo_total_frames : frames c = over_lanes lane_len (lanes c)
}.

Definition surface_channel (ch : Channel) : Prop :=
  match kind (header ch) with Open _ r => is_surface r = true | _ => False end.

(** A channel under its id, with the open frame it came from. *)
Definition channel_ok (id : text) (ch : Channel) : Prop :=
  channelId (channel (header ch)) = id /\
  (exists r, kind (header ch) = Open (grant ch) r /\ bandwidth ch = bandwidth_of r).

Record channels_ok (c : ConnectionState) : Prop := ChannelsOk {
  co_wf : IndexMap.wf (channels c) /\ IndexMap.wf (closing c) /\ IndexMap.wf (surfaces c);
  co_disjoint : forall id ch, IndexMap.get id (channels c) = Some ch -> IndexMap.get id (closing c) = None;
  co_closing : len (closing c) <= MAX_CLOSING;
  co_channel : forall id ch, IndexMap.get id (channels c) = Some ch -> channel_ok id ch;
  co_surface : forall g s, IndexMap.get g (surfaces c) = Some s -> s_channels s <> ∅ /\
    forall id, id ∈ s_channels s <->
      exists ch, IndexMap.get id (channels c) = Some ch /\ grant ch = g /\ surface_channel ch;
  co_held : forall id ch, IndexMap.get id (channels c) = Some ch -> surface_channel ch ->
    is_Some (IndexMap.get (grant ch) (surfaces c))
}.

Definition holds_nothing (c : ConnectionState) : Prop :=
  channels c = [] /\ closing c = [] /\ surfaces c = [] /\ forall l, l_frames (lanes c l) = [].

Definition conn_ok (c : ConnectionState) : Prop := queues_ok c /\ channels_ok c.

Lemma over_lanes_set f ls l q :
  over_lanes f (fun l' => if decide (l' = l) then q else ls l') = over_lanes f ls - f (ls l) + f q.
Proof. unfold over_lanes. destruct l; simpl; lia. Qed.

Lemma queue_bytes_app l1 l2 : queue_bytes (l1 ++ l2) = queue_bytes l1 + queue_bytes l2.
Proof. unfold queue_bytes. by rewrite fmap_app, sumZ_app. Qed.

Lemma queue_bytes_cons q l : queue_bytes (q :: l) = len (f_bytes (q_frame q)) + queue_bytes l.
Proof. done. Qed.

Lemma queue_bytes_nonneg l : 0 <= queue_bytes l.
Proof. apply sumZ_nonneg, Forall_fmap, Forall_true. intros x. simpl. lia. Qed.

Lemma lane_len_snoc b q item : lane_len (MkLane b (l_frames q ++ [item])) = lane_len q + 1.
Proof. unfold lane_len. simpl. rewrite length_app. cbn [length]. lia. Qed.

Lemma lane_len_cons b q item rest :
  l_frames q = item :: rest -> lane_len q = lane_len (MkLane b rest) + 1.
Proof. unfold lane_len. intros ->. cbn [length l_frames]. lia. Qed.

(** Only the queues and their totals matter to one, the rest to the other. *)
Lemma queues_ok_same c c' :
  lanes c' = lanes c -> bytes c' = bytes c -> frames c' = frames c -> queues_ok c -> queues_ok c'.
Proof. intros E1 E2 E3 [H1 H2 H3 H4 H5]. constructor; rewrite ?E1, ?E2, ?E3; done. Qed.

Lemma channels_ok_same c c' :
  channels c' = channels c -> closing c' = closing c -> surfaces c' = surfaces c ->
  channels_ok c -> channels_ok c'.
Proof. intros E1 E2 E3 [H1 H2 H3 H4 H5 H6]. constructor; rewrite ?E1, ?E2, ?E3; done. Qed.

Lemma schedule_fields c :
  session (schedule c) = session c /\ closed (schedule c) = closed c /\ channels (schedule c) = channels c /\
  closing (schedule c) = closing c /\ lanes (schedule c) = lanes c /\ surfaces (schedule c) = surfaces c /\
  bytes (schedule c) = bytes c /\ frames (schedule c) = frames c.
Proof. unfold schedule. by destruct (_ || _). Qed.

Lemma queues_ok_enqueue l item at_ c :
  queues_ok c -> over_limit l (lanes c l) (len (f_bytes (q_frame item))) = false ->
  queues_ok (enqueue l item at_ c).
Proof.
  intros [H1 H2 H3 H4 H5] Hl. unfold over_limit in Hl. rewrite orb_false_iff, Z.leb_gt, Z.ltb_ge in Hl.
  destruct Hl as [Hl1 Hl2]. unfold enqueue. set (c1 := set_stalled _ _).
  apply (queues_ok_same c1); [apply schedule_fields..|]. constructor; simpl.
  - intros l'. case_decide; subst; simpl; [|done]. rewrite queue_bytes_app, H1. unfold queue_bytes at 3.
    simpl. lia.
  - intros l'. case_decide; subst; simpl; [|done]. rewrite length_app. cbn [length]. lia.
  - intros l'. case_decide; subst; simpl; [lia|done].
  - rewrite over_lanes_set. simpl. lia.
  - rewrite over_lanes_set, lane_len_snoc. lia.
Qed.

Lemma queues_ok_dequeue l c next c' : queues_ok c -> dequeue l c = Some (next, c') -> queues_ok c'.
Proof.
  intros [H1 H2 H3 H4 H5]. unfold dequeue. destruct (l_frames (lanes c l)) as [|q rest] eqn:Hq; [done|].
  intros; simplify_eq. pose proof (H1 l) as Hb. pose proof (H2 l) as Hf. pose proof (H3 l) as Hm.
  rewrite Hq in Hb, Hf. rewrite queue_bytes_cons in Hb.
  pose proof (queue_bytes_nonneg rest).
  constructor; simpl.
  - intros l'. case_decide; subst; simpl; [lia|done].
  - intros l'. case_decide; subst; simpl; [|done]. cbn [length] in Hf. lia.
  - intros l'. case_decide; subst; simpl; [|done]. lia.
  - rewrite over_lanes_set. simpl. lia.
  - rewrite over_lanes_set, (lane_len_cons (l_bytes (lanes c l) - len (f_bytes (q_frame next))) _ _ _ Hq). lia.
Qed.

(** A channel advances in place. *)
Lemma channels_ok_update c id ch ch' :
  IndexMap.get id (channels c) = Some ch -> header ch' = header ch -> grant ch' = grant ch ->
  bandwidth ch' = bandwidth ch -> channels_ok c ->
  channels_ok (set_channels c (IndexMap.insert id ch' (channels c))).
Proof.
  intros Hg Eh Eg Eb [(H1 & H1' & H1'') H2 H3 H4 H5 H6].
  assert (Hs : surface_channel ch' <-> surface_channel ch) by (unfold surface_channel; by rewrite Eh).
  assert (Hk : channel_ok id ch') by (unfold channel_ok; rewrite Eh, Eg, Eb; by apply H4).
  constructor; simpl.
  - split_and!; [by apply IndexMap.wf_insert|done|done].
  - intros id' ch0. rewrite IndexMap.get_insert. case_decide; intros; simplify_eq; [by eapply H2|by eapply H2].
  - done.
  - intros id' ch0. rewrite IndexMap.get_insert. case_decide; intros; simplify_eq; [done|by apply H4].
  - intros g s Hgs. destruct (H5 g s Hgs) as [Hne Hiff]. split; [done|]. intros id'. rewrite Hiff, IndexMap.get_insert.
    case_decide; subst; [|done]. split.
    + intros (ch0 & ? & ? & ?). simplify_eq. exists ch'. rewrite Hs. naive_solver congruence.
    + intros (ch0 & ? & ? & ?). simplify_eq. exists ch. rewrite <- Hs. naive_solver congruence.
  - intros id' ch0. rewrite IndexMap.get_insert. case_decide; intros; simplify_eq; [|by eapply H6].
    rewrite Eg. eapply H6; [done|by apply Hs].
Qed.

(** The channels that wait for the worker's close change freely. *)
Lemma channels_ok_closing c m :
  IndexMap.wf m -> len m <= MAX_CLOSING ->
  (forall id ch, IndexMap.get id (channels c) = Some ch -> IndexMap.get id m = None) ->
  channels_ok c -> channels_ok (set_closing c m).
Proof. intros Hw Hl Hd [(H1 & H1' & H1'') H2 H3 H4 H5 H6]. by constructor. Qed.

(** The surfaces [sf] after a channel [id] of grant [g] was retained. *)
Record retains (c : ConnectionState) (id g : text) (r : Resource) (sf : list (text * Surface)) : Prop := {
  rt_wf : IndexMap.wf sf;
  rt_surface : forall g' s, IndexMap.get g' sf = Some s ->
    if decide (g' = g /\ is_surface r = true)
    then s_channels s = {[id]} ∪ default ∅ (s_channels <$> IndexMap.get g (surfaces c))
    else IndexMap.get g' (surfaces c) = Some s;
  rt_kept : forall g', is_Some (IndexMap.get g' (surfaces c)) -> is_Some (IndexMap.get g' sf);
  rt_held : is_surface r = true -> is_Some (IndexMap.get g sf)
}.

Lemma retains_insert c id g r s' :
  IndexMap.wf (surfaces c) -> is_surface r = true ->
  s_channels s' = {[id]} ∪ default ∅ (s_channels <$> IndexMap.get g (surfaces c)) ->
  retains c id g r (IndexMap.insert g s' (surfaces c)).
Proof.
  intros Hw Hs Hc. constructor.
  - by apply IndexMap.wf_insert.
  - intros g' s. rewrite IndexMap.get_insert. repeat case_decide; naive_solver.
  - intros g' Hg'. rewrite IndexMap.get_insert. case_decide; [by eexists|done].
  - intros _. rewrite IndexMap.get_insert. case_decide; [by eexists|done].
Qed.

Lemma retain_surface_spec c id g r w c' w' :
  IndexMap.wf (surfaces c) -> retain_surface c id g r w = (Some c', w') ->
  exists sf, c' = set_surfaces c sf /\ retains c id g r sf.
Proof.
  intros Hw Hr. unfold retain_surface in Hr. destruct (is_surface r) eqn:Hs; simpl in Hr.
  2: { simplify_eq. exists (surfaces c'). split; [by destruct c'|]. constructor; try done; [|congruence].
       intros g' s Hg. rewrite decide_False; [done|]. intros [_ ?]. congruence. }
  destruct (IndexMap.get g (surfaces c)) as [s|] eqn:Hg; [|destruct acquire_remote_surface as [acquire|]].
  - simplify_eq. eexists. split; [done|]. apply retains_insert; [done|done|]. by rewrite Hg.
  - destruct (acquire _ _ w) as [[p|] w1]; simplify_eq. eexists. split; [done|].
    apply retains_insert; [done|done|]. rewrite Hg. simpl. set_solver.
  - simplify_eq. eexists. split; [done|]. apply retains_insert; [done|done|]. rewrite Hg. simpl. set_solver.
Qed.

Lemma channels_ok_open c id h g r sf :
  channels_ok c -> channelId (channel h) = id -> kind h = Open g r ->
  IndexMap.get id (channels c) = None -> IndexMap.get id (closing c) = None -> retains c id g r sf ->
  channels_ok (set_channels (set_surfaces c sf)
    (IndexMap.insert id (MkChannel (bandwidth_of r) (-1) (sequence h) (-1) g h) (channels c))).
Proof.
  set (ch := MkChannel _ _ _ _ _ _). intros [(H1 & H1' & H1'') H2 H3 H4 H5 H6] Hid Hk Hn Hnc [R1 R2 R3 R4].
  assert (Hsf : surface_channel ch <-> is_surface r = true) by (unfold surface_channel, ch; simpl; by rewrite Hk).
  constructor; simpl.
  - split_and!; [by apply IndexMap.wf_insert|done|done].
  - intros id' ch0. rewrite IndexMap.get_insert. destruct (decide (id = id')) as [<-|]; [done|apply H2].
  - done.
  - intros id' ch0. rewrite IndexMap.get_insert. destruct (decide (id = id')) as [<-|]; [|apply H4].
    intros [= <-]. split; [done|]. by exists r.
  - intros g' s Hg'. specialize (R2 _ _ Hg'). destruct (decide (g' = g /\ is_surface r = true)) as [Hd|Hd].
    + destruct Hd as [-> Hs]. rewrite R2. split; [set_solver|]. intros id'. rewrite IndexMap.get_insert.
      rewrite elem_of_union, elem_of_singleton. destruct (decide (id = id')) as [<-|Hne].
      * split; [|by left]. intros _. exists ch. split_and!; [done|done|by apply Hsf].
      * destruct (IndexMap.get g (surfaces c)) as [s0|] eqn:Hg0; simpl.
        { destruct (H5 _ _ Hg0) as [_ Hiff]. rewrite <- Hiff. naive_solver. }
        split; [set_solver|]. intros (ch0 & Hc0 & Hgr & Hs0). destruct (H6 _ _ Hc0 Hs0) as [? Hx]. congruence.
    + destruct (H5 _ _ R2) as [Hne Hiff]. split; [done|]. intros id'. rewrite Hiff, IndexMap.get_insert.
      destruct (decide (id = id')) as [<-|Hne']; [|done]. split; [naive_solver congruence|].
      intros (ch0 & ? & Hgr & Hs0). simplify_eq. destruct Hd. split; [done|by apply Hsf].
  - intros id' ch0. rewrite IndexMap.get_insert. destruct (decide (id = id')) as [<-|]; intros Hg0 Hs0.
    + injection Hg0 as <-. by apply R4, Hsf.
    + apply R3. by eapply H6.
Qed.

(** Taking a channel away leaves the surfaces exact when its surface loses it. *)
Definition unretain (id : text) (ch : Channel) (sf : list (text * Surface)) : list (text * Surface) :=
  match IndexMap.get (grant ch) sf with
  | None => sf
  | Some s =>
      if decide (s_channels s ∖ {[id]} = ∅) then IndexMap.shift_remove (grant ch) sf
      else IndexMap.insert (grant ch) (MkSurface (s_channels s ∖ {[id]}) (s_permit s)) sf
  end.

Lemma unretain_get id ch sf g s' :
  IndexMap.get g (unretain id ch sf) = Some s' ->
  exists s, IndexMap.get g sf = Some s /\
    if decide (g = grant ch) then s_channels s' = s_channels s ∖ {[id]} /\ s_channels s' <> ∅ else s' = s.
Proof.
  unfold unretain. destruct (IndexMap.get (grant ch) sf) as [s|] eqn:Hg.
  - destruct (decide (s_channels s ∖ {[id]} = ∅)) as [He|He]; rewrite ?IndexMap.get_remove, ?IndexMap.get_insert;
      destruct (decide (grant ch = g)) as [<-|Hne]; intros; simplify_eq.
    + exists s'. by rewrite decide_False.
    + exists s. by rewrite decide_True.
    + exists s'. by rewrite decide_False.
  - intros Hs. exists s'. split; [done|]. rewrite decide_False; congruence.
Qed.

Lemma unretain_held id ch sf g s id' :
  IndexMap.get g sf = Some s -> id' ∈ s_channels s -> id' <> id ->
  is_Some (IndexMap.get g (unretain id ch sf)).
Proof.
  intros Hg Hin Hne. unfold unretain. destruct (IndexMap.get (grant ch) sf) as [s0|] eqn:Hg0; [|by eexists].
  destruct (decide (s_channels s0 ∖ {[id]} = ∅)) as [He|He]; rewrite ?IndexMap.get_remove, ?IndexMap.get_insert;
    destruct (decide (grant ch = g)) as [<-|]; [set_solver|by eexists..].
Qed.

Lemma unretain_wf id ch sf : IndexMap.wf sf -> IndexMap.wf (unretain id ch sf).
Proof.
  intros Hw. unfold unretain. destruct (IndexMap.get (grant ch) sf); [|done].
  destruct (decide _); [by apply IndexMap.wf_remove|by apply IndexMap.wf_insert].
Qed.

Lemma channels_ok_remove c id ch :
  IndexMap.get id (channels c) = Some ch -> channels_ok c ->
  channels_ok (set_surfaces (set_channels c (IndexMap.shift_remove id (channels c)))
                 (unretain id ch (surfaces c))).
Proof.
  intros Hg [(H1 & H1' & H1'') H2 H3 H4 H5 H6]. constructor; simpl.
  - split_and!; [by apply IndexMap.wf_remove|done|by apply unretain_wf].
  - intros id' ch'. rewrite IndexMap.get_remove. destruct (decide (id = id')); [done|apply H2].
  - done.
  - intros id' ch'. rewrite IndexMap.get_remove. destruct (decide (id = id')); [done|apply H4].
  - intros g s' Hs'. apply unretain_get in Hs' as (s & Hs & Hcase). destruct (H5 _ _ Hs) as [Hne Hiff].
    destruct (decide (g = grant ch)) as [->|Hgr].
    + destruct Hcase as [-> Hne']. split; [done|]. intros id'. rewrite IndexMap.get_remove, elem_of_difference, Hiff.
      rewrite elem_of_singleton. destruct (decide (id = id')); naive_solver.
    + subst s'. split; [done|]. intros id'. rewrite Hiff, IndexMap.get_remove.
      destruct (decide (id = id')) as [<-|]; naive_solver.
  - intros id' ch'. rewrite IndexMap.get_remove. destruct (decide (id = id')) as [|Hne]; [done|]. intros Hg' Hs'.
    destruct (H6 _ _ Hg' Hs') as [s Hs]. destruct (H5 _ _ Hs) as [_ Hiff].
    eapply unretain_held; [exact Hs| |by apply not_eq_sym]. apply Hiff. by exists ch'.
Qed.

Lemma release_shape id aw c w ch :
  IndexMap.get id (channels c) = Some ch ->
  exists m, (release id aw c w).1 =
    set_closing (set_surfaces (set_channels c (IndexMap.shift_remove id (channels c)))
                   (unretain id ch (surfaces c))) m /\
    m = if aw then (if MAX_CLOSING <? len (IndexMap.insert id ch (closing c))
                    then drop 1 (IndexMap.insert id ch (closing c)) else IndexMap.insert id ch (closing c))
        else closing c.
Proof.
  intros Hg. unfold release, unretain. rewrite Hg. eexists. split; [|done].
  destruct aw; simpl; (destruct (IndexMap.get (grant ch) (surfaces c)); [|done]); by destruct (decide _).
Qed.

Lemma channels_ok_release id aw c w : channels_ok c -> channels_ok (release id aw c w).1.
Proof.
  intros Hc. destruct (IndexMap.get id (channels c)) as [ch|] eqn:Hg.
  2: { unfold release. by rewrite Hg. }
  destruct (release_shape id aw c w ch Hg) as (m & -> & ->).
  pose proof (channels_ok_remove c id ch Hg Hc) as Hr. pose proof Hc as [(H1 & H1' & H1'') H2 H3 H4 H5 H6].
  assert (Hd : forall id' ch', IndexMap.get id' (IndexMap.shift_remove id (channels c)) = Some ch' ->
    IndexMap.get id' (IndexMap.insert id ch (closing c)) = None).
  { intros id' ch'. rewrite IndexMap.get_remove, IndexMap.get_insert. destruct (decide (id = id')); [done|apply H2]. }
  assert (Hw : IndexMap.wf (IndexMap.insert id ch (closing c))) by (by apply IndexMap.wf_insert).
  pose proof (IndexMap.length_insert_le id ch (closing c)).
  destruct aw; [|by apply channels_ok_closing; [..|exact Hr]; [done|done|apply (co_disjoint _ Hr)]].
  destruct (MAX_CLOSING <? _) eqn:Hl; apply channels_ok_closing; try done.
  - by apply IndexMap.wf_drop.
  - rewrite length_drop. apply Z.ltb_lt in Hl. unfold MAX_CLOSING in *. lia.
  - intros id' ch' Hx. apply IndexMap.get_drop. by eapply Hd.
  - by apply Z.ltb_ge in Hl.
Qed.

(** ** Operations on one connection keep it in shape *)

Record steady (c c' : ConnectionState) : Prop := Steady {
  st_session : session c' = session c;
  st_closed : closed c' = closed c;
  st_ok : conn_ok c -> conn_ok c'
}.

#[local] Instance steady_preorder : PreOrder steady.
Proof.
  split; [by constructor|]. intros c1 c2 c3 [H1 H2 H3] [K1 K2 K3]. constructor; [congruence..|auto].
Qed.

Lemma steady_queues c c' :
  session c' = session c -> closed c' = closed c -> channels c' = channels c -> closing c' = closing c ->
  surfaces c' = surfaces c -> (queues_ok c -> queues_ok c') -> steady c c'.
Proof.
  intros ? ? ? ? ? Hq. constructor; [done..|]. intros [Q1 Q2]. split; [auto|]. by eapply channels_ok_same.
Qed.

Lemma steady_channels c c' :
  session c' = session c -> closed c' = closed c -> lanes c' = lanes c -> bytes c' = bytes c ->
  frames c' = frames c -> (channels_ok c -> channels_ok c') -> steady c c'.
Proof.
  intros ? ? ? ? ? Hq. constructor; [done..|]. intros [Q1 Q2]. split; [|auto]. by eapply queues_ok_same.
Qed.

Lemma steady_schedule c : steady c (schedule c).
Proof.
  destruct (schedule_fields c) as (? & ? & ? & ? & ? & ? & ? & ?). apply steady_queues; try done.
  by apply queues_ok_same.
Qed.
Lemma steady_stalled c t : steady c (set_stalled c t).
Proof. apply steady_queues; try done. by apply queues_ok_same. Qed.
Lemma steady_timer c a b : steady c (set_timer c a b).
Proof. apply steady_queues; try done. by apply queues_ok_same. Qed.

Lemma enqueue_fields l item at_ c :
  session (enqueue l item at_ c) = session c /\ closed (enqueue l item at_ c) = closed c /\
  channels (enqueue l item at_ c) = channels c /\ closing (enqueue l item at_ c) = closing c /\
  surfaces (enqueue l item at_ c) = surfaces c.
Proof.
  unfold enqueue. match goal with |- context [schedule ?x] =>
    destruct (schedule_fields x) as (-> & -> & -> & -> & _ & -> & _) end. done.
Qed.

Lemma steady_send_or_queue ref l bw f c w : steady c (send_or_queue ref l bw f c w).2.1.
Proof.
  unfold send_or_queue. destruct (negb _); [done|]. destruct (congested _ _ _).
  - destruct (over_limit _ _ _) eqn:Hl; [done|].
    destruct (enqueue_fields l (MkQueued bw f) (now w) c) as (? & ? & ? & ? & ?).
    apply steady_queues; try done. intros Hq. by apply queues_ok_enqueue.
  - by destruct (send_now _ _ _ _ _).
Qed.

Lemma steady_dequeue l c next c' : dequeue l c = Some (next, c') -> steady c c'.
Proof.
  intros Hd. apply steady_queues; [..|intros Hq; by eapply queues_ok_dequeue];
    unfold dequeue in Hd; destruct (l_frames _); by simplify_eq.
Qed.

Lemma steady_drain_lanes ref ls : forall sent c w, steady c (drain_lanes ref ls sent c w).2.1.
Proof.
  induction ls as [|l ls IH]; intros sent c w; [done|]. cbn [drain_lanes].
  destruct (dequeue l c) as [[next c1]|] eqn:Hd; [|apply IH]. apply steady_dequeue in Hd.
  destruct (send_now _ _ _ _ w) as [[] w1]; [|done].
  pose proof (steady_stalled c1 (Some (now w1))). destruct (_ <? _); etrans; try done; simpl; etrans; try done.
Qed.

Lemma steady_drain_loop fuel ref : forall c w, steady c (drain_loop fuel ref c w).2.1.
Proof.
  induction fuel as [|fuel IH]; intros c w; [done|]. cbn [drain_loop]. destruct (_ <=? _); [|done].
  pose proof (steady_drain_lanes ref LANES false c w) as Hs.
  destruct (drain_lanes ref LANES false c w) as [[|[]] [c1 w1]]; [done| |done]. by etrans.
Qed.

Lemma steady_release id aw c w : steady c (release id aw c w).1.
Proof.
  destruct (IndexMap.get id (channels c)) as [ch|] eqn:Hg.
  - apply steady_channels; [..|apply channels_ok_release];
      by destruct (release_shape id aw c w ch Hg) as (m & -> & _).
  - unfold release. by rewrite Hg.
Qed.

Lemma steady_update c id ch ch' :
  IndexMap.get id (channels c) = Some ch -> header ch' = header ch -> grant ch' = grant ch ->
  bandwidth ch' = bandwidth ch -> steady c (set_channels c (IndexMap.insert id ch' (channels c))).
Proof. intros. apply steady_channels; try done. by eapply channels_ok_update. Qed.

(** The channel a client frame is taken on is filed under its id. *)
Definition taken_ok (c : ConnectionState) (r : Admission * (ConnectionState * W)) : Prop :=
  steady c r.2.1 /\
  match r.1 with
  | Taken id ch => IndexMap.get id (channels r.2.1) = Some ch
  | Refused _ _ => True
  end.

Lemma advance_client_taken c h w : taken_ok c (advance_client c h w).
Proof.
  unfold advance_client. destruct (IndexMap.get _ (channels c)) as [ch|] eqn:Hg; [|done].
  destruct (negb _); [done|]. split; [by eapply steady_update|]. apply IndexMap.get_insert_eq.
Qed.

Lemma retain_surface_fields c id g r w c1 w1 :
  retain_surface c id g r w = (Some c1, w1) ->
  session c1 = session c /\ closed c1 = closed c /\ lanes c1 = lanes c /\ bytes c1 = bytes c /\
  frames c1 = frames c /\ channels c1 = channels c.
Proof.
  unfold retain_surface. destruct (negb _); [by intros; simplify_eq|].
  destruct (IndexMap.get g (surfaces c)); [by intros; simplify_eq|].
  destruct acquire_remote_surface as [acquire|]; [|by intros; simplify_eq].
  by destruct (acquire _ _ w) as [[]]; intros; simplify_eq.
Qed.

Lemma open_channel_taken c h g r w : kind h = Open g r -> taken_ok c (open_channel c h g r w).
Proof.
  intros Hk. unfold open_channel, IndexMap.contains_key.
  destruct (IndexMap.get _ (channels c)) eqn:Hg; [done|].
  destruct (IndexMap.get _ (closing c)) eqn:Hgc; [done|]. cbn [orb].
  destruct (retain_surface c _ g r w) as [[c1|] w1] eqn:Hr; [|done]. split; [|apply IndexMap.get_insert_eq].
  destruct (retain_surface_fields _ _ _ _ _ _ _ Hr) as (F1 & F2 & F3 & F4 & F5 & F6).
  apply steady_channels; try done. intros Hok.
  apply retain_surface_spec in Hr as (sf & -> & Hsf); [|apply Hok].
  by apply (channels_ok_open c (channelId (channel h)) h g r sf).
Qed.

Lemma client_channel_taken c h w : taken_ok c (client_channel c h w).
Proof.
  unfold client_channel. destruct (kind h) eqn:Hk; try apply advance_client_taken. by apply open_channel_taken.
Qed.

Lemma steady_forward_client ref id ch f c w :
  IndexMap.get id (channels c) = Some ch -> steady c (forward_client ref id ch f c w).1.
Proof.
  intros Hg. unfold forward_client. destruct (consume _ _ _ _) as [[] w1]; [|done]. cbn [negb].
  destruct (send_worker_link_frame _ _ w1) as [[] w2]; [|done]. cbn [negb].
  set (ch' := MkChannel _ _ _ _ _ _).
  assert (Hs : steady c (set_channels c (IndexMap.insert id ch' (channels c)))) by (by eapply steady_update).
  destruct (is_close _); [|done]. etrans; [exact Hs|apply steady_release].
Qed.

Lemma steady_forward_worker ref id ch f c w : steady c (forward_worker ref id ch f c w).1.
Proof.
  unfold forward_worker. destruct (consume _ _ _ _) as [[] w1]; [|done]. cbn [negb].
  pose proof (steady_send_or_queue ref (lane (f_header f)) (bandwidth ch) f c w1) as Hs.
  destruct (send_or_queue _ _ _ _ _ _) as [taken [c1 w2]]. cbn [fst snd] in Hs.
  destruct (taken && _); [|done]. etrans; [exact Hs|apply steady_release].
Qed.

(** ** The invariant of the relay *)

Record inv (s : State) : Prop := Inv {
  inv_wf : IndexMap.wf (connections s);
  inv_attached : forall k ref, IndexMap.get k (connections s) = Some ref ->
    exists c, heap s !! ref = Some c /\ s_id (session c) = k /\ closed c = false;
  inv_conn : forall ref c, heap s !! ref = Some c -> conn_ok c;
  inv_fresh : forall ref c, heap s !! ref = Some c -> (ref < next_ref s)%nat
}.

(** A relay that is shut down serves nobody. *)
Definition shut (s : State) : Prop := r_closed s = true -> connections s = [].

(** Every entry point, and the changes [E] outside. *)
Inductive step (E : W -> W -> Prop) : Sys -> Sys -> Prop :=
| step_attach sess y : step E y (attach sess y).2
| step_client ref data binary y : step E y (receive_client ref data binary y)
| step_worker ref f y : step E y (receive_worker ref f y)
| step_drain ref y : step E y (drain ref y)
| step_retire ref y : step E y (retire ref y)
| step_revoke_session id reason y : step E y (revoke_session id reason y)
| step_revoke_account account y : step E y (revoke_account account y)
| step_revoke_owner owner y : step E y (revoke_owner owner y)
| step_close y : step E y (close_relay y)
| step_world w w' s : E w w' -> step E (w, s) (w', s).

Definition reachable (E : W -> W -> Prop) (y : Sys) : Prop := exists w, rtc (step E) (w, new_state) y.

Lemma queues_ok_empty c : (forall l, lanes c l = MkLane 0 []) -> bytes c = 0 -> frames c = 0 -> queues_ok c.
Proof.
  intros Hl Hb Hf. constructor; intros; rewrite ?Hl; simpl; try done; try lia.
  - rewrite Hb. unfold over_lanes. simpl. by rewrite !Hl.
  - rewrite Hf. unfold over_lanes. simpl. by rewrite !Hl.
Qed.

Lemma channels_ok_empty c : channels c = [] -> closing c = [] -> surfaces c = [] -> channels_ok c.
Proof.
  intros H1 H2 H3. constructor; rewrite ?H1, ?H2, ?H3; try done. split_and!; apply IndexMap.wf_nil.
Qed.

Lemma inv_new_relay : inv new_state.
Proof. constructor; try done. apply IndexMap.wf_nil. Qed.

Lemma relay_write_inv ref c c' y :
  inv y.2 -> heap y.2 !! ref = Some c -> steady c c' -> inv (write ref c' y).2.
Proof.
  intros [I1 I2 I3 I4] Hc [S1 S2 S3]. constructor; simpl; try done.
  - intros k r Hg. destruct (I2 k r Hg) as (c0 & Hc0 & Hk & Hcl0).
    destruct (decide (ref = r)) as [<-|]; [|rewrite lookup_insert_ne by done; eauto].
    rewrite lookup_insert_eq. exists c'. simplify_eq. rewrite S1, S2. done.
  - intros r c0. destruct (decide (ref = r)) as [<-|]; [|rewrite lookup_insert_ne by done; eauto].
    rewrite lookup_insert_eq. intros; simplify_eq. by apply S3, (I3 _ _ Hc).
  - intros r c0. destruct (decide (ref = r)) as [<-|]; [intros _; eauto|].
    rewrite lookup_insert_ne by done. eauto.
Qed.

Lemma current_open s ref c : inv s -> heap s !! ref = Some c -> current s ref c = true -> closed c = false.
Proof.
  intros I Hc Hcur. apply bool_decide_eq_true in Hcur. destruct (inv_attached _ I _ _ Hcur) as (c' & ? & _ & ?).
  congruence.
Qed.

Lemma inv_client ref data binary y : inv y.2 -> inv (receive_client ref data binary y).2.
Proof.
  intros I. unfold receive_client. destruct (negb binary); [done|].
  destruct (heap y.2 !! ref) as [c|] eqn:Hc; [|done].
  destruct (closed c) eqn:Hcl; [done|]. destruct (current y.2 ref c) eqn:Hcur; [|done]. cbn [orb negb].
  destruct (WorkerLinkFrame.decode data) as [|f]; [done|]. destruct (negb (matches c _)); [done|].
  pose proof (client_channel_taken c (f_header f) y.1) as [Hs Ht].
  destruct (client_channel c (f_header f) y.1) as [[code reason|id ch] [c1 w1]]; cbn [fst snd] in *.
  - by eapply relay_write_inv.
  - pose proof (steady_forward_client ref id ch f c1 w1 Ht) as Hs2.
    destruct (forward_client ref id ch f c1 w1) as [c2 w2]. eapply relay_write_inv; [done|done|].
    by etrans.
Qed.

Lemma steady_closing c id m :
  IndexMap.wf m -> len m <= len (closing c) ->
  (forall k, k <> id -> IndexMap.get k (closing c) = None -> IndexMap.get k m = None) ->
  IndexMap.get id (channels c) = None \/ IndexMap.get id m = None -> steady c (set_closing c m).
Proof.
  intros Hw Hl Hk Hid. apply steady_channels; try done. intros Hok. apply channels_ok_closing; try done.
  - pose proof (co_closing _ Hok). lia.
  - intros k ch Hg. destruct (decide (k = id)) as [->|Hne].
    + destruct Hid; congruence.
    + apply Hk; [done|]. by eapply (co_disjoint _ Hok).
Qed.

Lemma steady_closing_remove c id : IndexMap.wf (closing c) ->
  steady c (set_closing c (IndexMap.shift_remove id (closing c))).
Proof.
  intros Hw. apply (steady_closing c id).
  - by apply IndexMap.wf_remove.
  - apply IndexMap.length_remove_le.
  - intros k Hne Hg. by rewrite IndexMap.get_remove_ne.
  - right. apply IndexMap.get_remove_eq.
Qed.

Lemma inv_worker ref f y : inv y.2 -> inv (receive_worker ref f y).2.
Proof.
  intros I. unfold receive_worker. destruct (heap y.2 !! ref) as [c|] eqn:Hc; [|done].
  destruct (current y.2 ref c) eqn:Hcur; [|done]. pose proof (current_open _ _ _ I Hc Hcur) as Hcl.
  destruct (matches c _); [|done]. cbn [negb orb]. set (h := f_header f). set (id := channelId (channel h)).
  destruct (inv_conn _ I _ _ Hc) as [_ Hok]. destruct (co_wf _ Hok) as (_ & Hw & _).
  destruct (IndexMap.get id (channels c)) as [ch|] eqn:Hg.
  - rewrite (co_disjoint _ Hok _ _ Hg). destruct (in_sequence ch h); [|done]. cbn [negb].
    set (ch' := MkChannel _ _ _ _ _ _). set (c1 := set_channels c _).
    pose proof (steady_forward_worker ref id ch' f c1 y.1) as Hs.
    destruct (forward_worker ref id ch' f c1 y.1) as [c2 w2]. eapply relay_write_inv; [done|done|].
    etrans; [|exact Hs]. by eapply steady_update.
  - destruct (IndexMap.get id (closing c)) as [ch|] eqn:Hgc; [|done].
    destruct (in_sequence ch h); [|done]. cbn [negb]. set (ch' := MkChannel _ _ _ _ _ _).
    assert (Hs : steady c (set_closing c (IndexMap.insert id ch' (closing c)))).
    { apply (steady_closing c id); [by apply IndexMap.wf_insert| | |by left].
      - erewrite IndexMap.length_insert_present by done. lia.
      - intros k Hne Hk. by rewrite IndexMap.get_insert_ne by (by apply not_eq_sym). }
    eapply relay_write_inv; [done|done|]. destruct (_ || _); [|done]. etrans; [exact Hs|].
    apply steady_closing_remove. by apply IndexMap.wf_insert.
Qed.

(** What [retire] does to the relay's own state. *)
Lemma retire_state ref y c : heap y.2 !! ref = Some c -> closed c = false ->
  (retire ref y).2 =
    MkState (r_closed y.2)
      (if current y.2 ref c then IndexMap.shift_remove (s_id (session c)) (connections y.2)
       else connections y.2)
      (<[ref := retired c]> (heap y.2)) (next_ref y.2).
Proof. intros Hc Hcl. unfold retire. by rewrite Hc, Hcl. Qed.

Lemma retired_ok c : conn_ok (retired c).
Proof. split; [by apply queues_ok_empty|by apply channels_ok_empty]. Qed.

Definition table_after (s : State) (ref : nat) (c : ConnectionState) : list (text * nat) :=
  if current s ref c then IndexMap.shift_remove (s_id (session c)) (connections s) else connections s.

Lemma table_after_get s ref c k r :
  inv s -> heap s !! ref = Some c -> IndexMap.get k (table_after s ref c) = Some r ->
  IndexMap.get k (connections s) = Some r /\ r <> ref.
Proof.
  intros I Hc Hg. unfold table_after in Hg. destruct (current s ref c) eqn:Hcur.
  - apply bool_decide_eq_true in Hcur. rewrite IndexMap.get_remove in Hg.
    destruct (decide (s_id (session c) = k)) as [|Hne]; [done|]. split; [done|]. intros ->.
    destruct (inv_attached _ I _ _ Hg) as (c' & Hc' & Hk & _). congruence.
  - split; [done|]. intros ->. apply bool_decide_eq_false in Hcur.
    destruct (inv_attached _ I _ _ Hg) as (c' & Hc' & Hk & _). congruence.
Qed.

Lemma inv_retire ref y : inv y.2 -> inv (retire ref y).2.
Proof.
  intros I. destruct (heap y.2 !! ref) as [c|] eqn:Hc; [|unfold retire; by rewrite Hc].
  destruct (closed c) eqn:Hcl; [unfold retire; by rewrite Hc, Hcl|].
  rewrite (retire_state ref y c Hc Hcl). fold (table_after y.2 ref c). constructor; simpl.
  - unfold table_after. destruct (current _ _ _); [apply IndexMap.wf_remove|]; apply I.
  - intros k r Hg. apply table_after_get in Hg as [Hg Hne]; [|done|done].
    rewrite lookup_insert_ne by done. by apply (inv_attached _ I).
  - intros r c0. destruct (decide (ref = r)) as [<-|]; [|rewrite lookup_insert_ne by done; apply I].
    rewrite lookup_insert_eq. intros; simplify_eq. apply retired_ok.
  - intros r c0. destruct (decide (ref = r)) as [<-|]; [intros _; by eapply (inv_fresh _ I)|].
    rewrite lookup_insert_ne by done. apply (inv_fresh _ I).
Qed.

Lemma inv_drain ref y : inv y.2 -> inv (drain ref y).2.
Proof.
  intros I. unfold drain. destruct (heap y.2 !! ref) as [c|] eqn:Hc; [|done].
  destruct (current y.2 ref c) eqn:Hcur; [|done]. destruct (closed c) eqn:Hcl; [done|]. cbn [negb orb].
  set (c1 := set_timer c false false). assert (S1 : steady c c1) by apply steady_timer.
  destruct (negb (is_open ref y.1)); [by eapply inv_retire, relay_write_inv|].
  destruct (MAX_BUFFERED <? buffered_amount ref y.1).
  { destruct (match stalled_at c1 with Some t => _ | None => _ end); [by eapply relay_write_inv|].
    eapply relay_write_inv; [done..|]. etrans; [exact S1|apply steady_schedule]. }
  pose proof (steady_drain_loop (S (queued c1)) ref c1 y.1) as S2.
  destruct (drain_loop _ ref c1 y.1) as [fin [c2 w2]]. cbn [fst snd] in S2.
  eapply (relay_write_inv ref c _ (w2, y.2)); [done..|]. etrans; [exact S1|]. etrans; [exact S2|].
  destruct fin; [|done]. destruct (frames c2 =? 0); [apply steady_stalled|apply steady_schedule].
Qed.

Lemma inv_attach sess y : inv y.2 -> inv (attach sess y).2.2.
Proof.
  intros [I1 I2 I3 I4]. unfold attach. destruct (_ || _) eqn:Hok; simpl.
  - constructor; simpl; try done. intros r c Hr. apply I4 in Hr. lia.
  - rewrite !orb_false_iff in Hok. destruct Hok as [[Hcl _] _].
    set (c := MkConnection _ _ _ _ _ _ _ _ _ _ _ _). constructor; simpl.
    + by apply IndexMap.wf_insert.
    + intros k r. rewrite IndexMap.get_insert. destruct (decide (s_id sess = k)) as [<-|Hne].
      * intros; simplify_eq. rewrite lookup_insert_eq. by exists c.
      * intros Hg. destruct (I2 _ _ Hg) as (c0 & Hc0 & Hk & Hcl0). pose proof (I4 _ _ Hc0).
        rewrite lookup_insert_ne by lia. by exists c0.
    + intros r c0. destruct (decide (next_ref y.2 = r)) as [<-|].
      * rewrite lookup_insert_eq. intros; simplify_eq.
        split; [by apply queues_ok_empty|by apply channels_ok_empty].
      * rewrite lookup_insert_ne by done. apply I3.
    + intros r c0. destruct (decide (next_ref y.2 = r)) as [<-|]; [lia|].
      rewrite lookup_insert_ne by done. intros Hc0. apply I4 in Hc0. lia.
Qed.

Lemma revoke_where_state P reason y : (revoke_where P reason y).2 = y.2.
Proof.
  unfold revoke_where. generalize (IndexMap.values (connections y.2)). intros l. revert y.
  induction l as [|r l IH]; intros y; [done|]. simpl. rewrite IH.
  destruct (heap y.2 !! r); [by destruct (P _)|done].
Qed.

(** Retiring the connections of a list: none of them is attached afterwards, and
    nothing is attached that was not. *)
Definition shut_down (l : list nat) (y : Sys) : Sys :=
  fold_left (fun y ref => retire ref (close ref 1001 "Server is shutting down" y)) l y.

Lemma shut_down_spec l : forall y, inv y.2 ->
  inv (shut_down l y).2 /\
  forall k r, IndexMap.get k (connections (shut_down l y).2) = Some r ->
    IndexMap.get k (connections y.2) = Some r /\ r ∉ l.
Proof.
  induction l as [|ref l IH]; intros y I; [split; [done|]; intros k r Hg; split; [done|apply not_elem_of_nil]|].
  cbn [shut_down fold_left]. set (y1 := close ref 1001 _ y).
  assert (I1 : inv (retire ref y1).2) by (by apply inv_retire). destruct (IH _ I1) as [I2 H2].
  split; [exact I2|]. intros k r Hg. apply H2 in Hg as [Hg Hnin].
  rewrite not_elem_of_cons. destruct (heap y1.2 !! ref) as [c|] eqn:Hc.
  - destruct (closed c) eqn:Hcl.
    + unfold retire in Hg. rewrite Hc, Hcl in Hg. split; [done|]. split; [|done]. intros ->.
      destruct (inv_attached _ I _ _ Hg) as (c' & Hc' & _ & Hcl'). simpl in Hc. congruence.
    + rewrite (retire_state ref y1 c Hc Hcl) in Hg. fold (table_after y1.2 ref c) in Hg.
      apply table_after_get in Hg as [Hg Hne]; done.
  - unfold retire in Hg. rewrite Hc in Hg. split; [done|]. split; [|done]. intros ->.
    destruct (inv_attached _ I _ _ Hg) as (c' & Hc' & _). simpl in Hc. congruence.
Qed.

Lemma retire_tables ref y :
  r_closed (retire ref y).2 = r_closed y.2 /\
  (connections y.2 = [] -> connections (retire ref y).2 = []).
Proof.
  unfold retire. destruct (heap y.2 !! ref) as [c|]; [|done]. destruct (closed c); [done|]. simpl.
  split; [done|]. intros ->. by destruct (current _ _ _).
Qed.

Lemma shut_down_closed l : forall y, r_closed (shut_down l y).2 = r_closed y.2.
Proof.
  induction l as [|r l IH]; intros y; [done|]. cbn [shut_down fold_left].
  etrans; [apply IH|]. apply (proj1 (retire_tables r (close r 1001 "Server is shutting down" y))).
Qed.

Lemma close_relay_spec y : inv y.2 -> shut y.2 ->
  inv (close_relay y).2 /\ r_closed (close_relay y).2 = true /\ connections (close_relay y).2 = [].
Proof.
  intros I Hs. unfold close_relay. destruct (r_closed y.2) eqn:Hcl; [by split_and!; auto|].
  set (y1 := (y.1, MkState true _ _ _)). fold (shut_down (IndexMap.values (connections y.2)) y1).
  assert (I1 : inv y1.2) by (destruct I; by constructor).
  destruct (shut_down_spec (IndexMap.values (connections y.2)) y1 I1) as [I2 H2]. split_and!; [done| |].
  - by rewrite shut_down_closed.
  - destruct (connections (shut_down _ y1).2) as [|[k r] m] eqn:Hm; [done|].
    destruct (H2 k r) as [Hg Hn]; [simpl; by rewrite decide_True|]. destruct Hn.
    apply IndexMap.get_In in Hg. apply list_elem_of_fmap. by exists (k, r).
Qed.

Lemma relay_step_inv E y y' : inv y.2 -> shut y.2 -> step E y y' -> inv y'.2.
Proof.
  intros I Hs Hst. destruct Hst.
  - by apply inv_attach.
  - by apply inv_client.
  - by apply inv_worker.
  - by apply inv_drain.
  - by apply inv_retire.
  - unfold revoke_session. by destruct (IndexMap.get _ _).
  - unfold revoke_account. by rewrite revoke_where_state.
  - unfold revoke_owner. by rewrite revoke_where_state.
  - by apply close_relay_spec.
  - done.
Qed.

Lemma client_tables ref data binary y :
  r_closed (receive_client ref data binary y).2 = r_closed y.2 /\
  connections (receive_client ref data binary y).2 = connections y.2.
Proof.
  unfold receive_client. destruct (negb binary); [done|]. destruct (heap y.2 !! ref) as [c|]; [|done].
  destruct (_ || _); [done|]. destruct (WorkerLinkFrame.decode data); [done|]. destruct (negb _); [done|].
  destruct (client_channel _ _ _) as [[] [c1 w1]]; [done|]. by destruct (forward_client _ _ _ _ _ _).
Qed.

Lemma worker_tables ref f y :
  r_closed (receive_worker ref f y).2 = r_closed y.2 /\
  connections (receive_worker ref f y).2 = connections y.2.
Proof.
  unfold receive_worker. destruct (heap y.2 !! ref) as [c|]; [|done]. destruct (_ || _); [done|].
  destruct (IndexMap.get _ (channels c)), (IndexMap.get _ (closing c)); try done;
    (destruct (negb _); [done|]); try done. by destruct (forward_worker _ _ _ _ _ _).
Qed.

Lemma drain_tables ref y :
  r_closed (drain ref y).2 = r_closed y.2 /\ (connections y.2 = [] -> connections (drain ref y).2 = []).
Proof.
  unfold drain. destruct (heap y.2 !! ref) as [c|]; [|done]. destruct (_ || _); [done|].
  destruct (negb _); [apply (retire_tables ref (write ref (set_timer c false false) y))|].
  destruct (_ <? _); [by destruct (match stalled_at _ with Some t => _ | None => _ end)|].
  by destruct (drain_loop _ _ _ _) as [? [? ?]].
Qed.

Lemma shut_step E y y' : inv y.2 -> shut y.2 -> step E y y' -> shut y'.2.
Proof.
  intros I Hs Hst. unfold shut in *. destruct Hst.
  - unfold attach. destruct (_ || _) eqn:Hok; simpl; [done|].
    rewrite !orb_false_iff in Hok. destruct Hok as [[Hcl _] _]. congruence.
  - destruct (client_tables ref data binary y) as [-> ->]. done.
  - destruct (worker_tables ref f y) as [-> ->]. done.
  - destruct (drain_tables ref y) as [-> ?]. auto.
  - destruct (retire_tables ref y) as [-> ?]. auto.
  - unfold revoke_session. by destruct (IndexMap.get _ _).
  - unfold revoke_account. by rewrite revoke_where_state.
  - unfold revoke_owner. by rewrite revoke_where_state.
  - by intros _; apply close_relay_spec.
  - done.
Qed.

Lemma relay_reachable_inv E y : reachable E y -> inv y.2 /\ shut y.2.
Proof.
  intros [w Hr]. apply (rtc_ind_r (fun y => inv y.2 /\ shut y.2) (w, new_state)) in Hr; [done| |].
  - split; [apply inv_new_relay|done].
  - intros y1 y2 _ Hst [I Hs]. split; [by eapply relay_step_inv|by eapply shut_step].
Qed.

Lemma reachable_step_ind E (P : Sys -> Prop) :
  (forall w, P (w, new_state)) ->
  (forall y y', inv y.2 -> P y -> step E y y' -> P y') -> forall y, reachable E y -> P y.
Proof.
  intros H0 Hs y [w Hr]. apply (rtc_ind_r P (w, new_state) (H0 w)) in Hr; [done|].
  intros y1 y2 Hr1 Hst HP. eapply Hs; [|exact HP|exact Hst]. apply (relay_reachable_inv E). by exists w.
Qed.

(** ** Critical sections

    [retire] takes the state lock of a connection but not its operation lock, so that
    it may come between any two critical sections of an operation under way on the
    same connection. A section is what an operation does under the state lock at
    once, or one call of a port. *)

(** [channel.delivered = sequence]; a channel that was retired is not in the table. *)
Definition deliver (id : text) (n : Z) (c : ConnectionState) : ConnectionState :=
  match IndexMap.get id (channels c) with
  | Some ch => set_channels c (IndexMap.insert id
      (MkChannel (bandwidth ch) n (client_sequence ch) (worker_sequence ch) (grant ch) (header ch)) (channels c))
  | None => c
  end.
Definition advanced (n : Z) (ch : Channel) : Channel :=
  MkChannel (bandwidth ch) (delivered ch) (client_sequence ch) n (grant ch) (header ch).
(** [channel.worker_sequence = sequence], of an open or a closing channel. *)
Definition advance_worker (id : text) (n : Z) (c : ConnectionState) : ConnectionState :=
  match IndexMap.get id (channels c), IndexMap.get id (closing c) with
  | Some ch, _ => set_channels c (IndexMap.insert id (advanced n ch) (channels c))
  | None, Some ch => set_closing c (IndexMap.insert id (advanced n ch) (closing c))
  | None, None => c
  end.

Inductive section (ref : nat) : ConnectionState * W -> ConnectionState * W -> Prop :=
| s_channel h c w : section ref (c, w) (client_channel c h w).2
| s_delivered id n c w : section ref (c, w) (deliver id n c, w)
| s_release id aw c w : section ref (c, w) (release id aw c w)
| s_advance id n c w : section ref (c, w) (advance_worker id n c, w)
| s_swallow id c w : section ref (c, w) (set_closing c (IndexMap.shift_remove id (closing c)), w)
| s_queue l bw f c w : congested ref (lanes c l) w = true -> over_limit l (lanes c l) (len (f_bytes f)) = false ->
    section ref (c, w) (enqueue l (MkQueued bw f) (now w) c, w)
| s_pop l next c c' w : dequeue l c = Some (next, c') -> section ref (c, w) (c', w)
| s_undrain c w : section ref (c, w) (set_timer c false false, w)
| s_stalled t c w : section ref (c, w) (set_stalled c t, w)
| s_schedule c w : section ref (c, w) (schedule c, w)
| s_record bw b n c w : section ref (c, w) (c, record c bw b n w)
| s_consume n c w : 0 <= n -> section ref (c, w) (c, (consume ref c n w).2)
| s_bridge f c w : section ref (c, w) (c, (send_worker_link_frame (s_worker (session c)) f w).2)
| s_send bw f c w : section ref (c, w) (c, (send_now ref c bw f w).2)
| s_close code reason c w : section ref (c, w) (c, close_socket ref code reason w).

(** Sections of all connections in any order, with retirements, attachments, revocations
    and the shutdown between any two of them. *)
Inductive fine_step (E : W -> W -> Prop) : Sys -> Sys -> Prop :=
| fine_section ref c c' w' y : heap y.2 !! ref = Some c -> section ref (c, y.1) (c', w') -> fine_step E y (write ref c' (w', y.2))
| fine_socket ref code reason y : fine_step E y (close ref code reason y)
| fine_attach sess y : fine_step E y (attach sess y).2
| fine_retire ref y : fine_step E y (retire ref y)
| fine_revoke_session id reason y : fine_step E y (revoke_session id reason y)
| fine_revoke_account account y : fine_step E y (revoke_account account y)
| fine_revoke_owner owner y : fine_step E y (revoke_owner owner y)
| fine_close y : fine_step E y (close_relay y)
| fine_world w w' s : E w w' -> fine_step E (w, s) (w', s).
Definition fine_reachable (E : W -> W -> Prop) (y : Sys) : Prop := exists w, rtc (fine_step E) (w, new_state) y.

(** *** Operations are runs of sections *)

Abbreviation run ref := (rtc (section ref)).

Lemma write_same ref c (y : Sys) (w : W) : heap y.2 !! ref = Some c -> write ref c (w, y.2) = (w, y.2).
Proof. intros Hc. unfold write. simpl. rewrite insert_id by done. by destruct y.2. Qed.

Lemma run_fine E ref c (y : Sys) (p : ConnectionState * W) : heap y.2 !! ref = Some c -> run ref (c, y.1) p -> rtc (fine_step E) y (write ref p.1 (p.2, y.2)).
Proof.
  intros Hc Hr. remember (c, y.1) as q eqn:Eq. revert c y Hc Eq. induction Hr as [q|q [c1 w1] q3 Hs _ IH]; intros c y Hc ->.
  - simpl. rewrite write_same by done. by destruct y.
  - eapply rtc_l; [by apply (fine_section E ref c c1 w1 y)|].
    specialize (IH c1 (write ref c1 (w1, y.2))). cbn in IH. rewrite lookup_insert_eq in IH.
    specialize (IH eq_refl eq_refl). unfold write in *. cbn in *. by rewrite insert_insert_eq in IH.
Qed.

Lemma forward_client_run ref id ch f c w :
  IndexMap.get id (channels c) = Some ch -> run ref (c, w) (forward_client ref id ch f c w).
Proof.
  intros Hg. unfold forward_client. set (w1 := record _ _ _ _ w).
  eapply rtc_l; [by apply s_record|]. fold w1.
  pose proof (s_consume ref (len (f_payload f)) c w1 (len_nonneg _)) as H2.
  destruct (consume ref c (len (f_payload f)) w1) as [[] w2]; cbn [negb fst snd] in *; [|by apply rtc_once].
  eapply rtc_l; [exact H2|]. pose proof (s_bridge ref f c w2) as H3.
  destruct (send_worker_link_frame _ f w2) as [[] w3]; cbn [negb fst snd] in *.
  2: { eapply rtc_l; [exact H3|]. apply rtc_once, s_close. }
  eapply rtc_l; [exact H3|]. pose proof (s_delivered ref id (sequence (f_header f)) c w3) as H4.
  unfold deliver in H4. rewrite Hg in H4. eapply rtc_l; [exact H4|]. set (c1 := set_channels c _).
  eapply rtc_l; [by apply s_record|]. destruct (is_close _); [|done]. apply rtc_once, s_release.
Qed.

Lemma client_run E ref data binary y : rtc (fine_step E) y (receive_client ref data binary y).
Proof.
  unfold receive_client. destruct (negb binary); [by apply rtc_once, fine_socket|].
  destruct (heap y.2 !! ref) as [c|] eqn:Hc; [|done]. destruct (_ || _); [done|].
  destruct (WorkerLinkFrame.decode data) as [|f]; [by apply rtc_once, fine_socket|].
  destruct (negb _); [by apply rtc_once, fine_socket|].
  pose proof (s_channel ref (f_header f) c y.1) as H1. pose proof (client_channel_taken c (f_header f) y.1) as [_ Ht].
  destruct (client_channel c (f_header f) y.1) as [[code reason|id ch] [c1 w1]]; cbn [fst snd] in *.
  - eapply rtc_r; [apply (run_fine E ref c y (c1, w1)); [done|by apply rtc_once]|]. apply fine_socket.
  - pose proof (forward_client_run ref id ch f c1 w1 Ht) as H2. destruct (forward_client ref id ch f c1 w1) as [c2 w2].
    apply (run_fine E ref c y (c2, w2)); [done|]. by eapply rtc_l.
Qed.

Lemma send_or_queue_run ref l bw f c w : run ref (c, w) (send_or_queue ref l bw f c w).2.
Proof.
  unfold send_or_queue. destruct (negb _); [done|]. destruct (congested _ _ _) eqn:Hq.
  - destruct (over_limit _ _ _) eqn:Hl; apply rtc_once; [apply s_close|by apply s_queue].
  - pose proof (s_send ref bw f c w) as Hx. destruct (send_now _ _ _ _ _). by apply rtc_once.
Qed.

Lemma forward_worker_run ref id ch f c w : run ref (c, w) (forward_worker ref id ch f c w).
Proof.
  unfold forward_worker. set (w1 := record _ _ _ _ w). eapply rtc_l; [by apply s_record|]. fold w1.
  pose proof (s_consume ref (len (f_payload f)) c w1 (len_nonneg _)) as H2.
  destruct (consume ref c (len (f_payload f)) w1) as [[] w2]; cbn [negb fst snd] in *; [|by apply rtc_once].
  eapply rtc_l; [exact H2|]. pose proof (send_or_queue_run ref (lane (f_header f)) (bandwidth ch) f c w2) as H3.
  destruct (send_or_queue _ _ _ _ _ _) as [taken [c1 w3]]; cbn [snd] in H3.
  destruct (taken && _); [|done]. etrans; [exact H3|]. apply rtc_once, s_release.
Qed.

Lemma worker_run E ref f y : inv y.2 -> rtc (fine_step E) y (receive_worker ref f y).
Proof.
  intros I. unfold receive_worker. destruct (heap y.2 !! ref) as [c|] eqn:Hc; [|done]. destruct (_ || _); [done|].
  set (h := f_header f). set (id := channelId (channel h)). destruct (inv_conn _ I _ _ Hc) as [_ Hok].
  pose proof (s_advance ref id (sequence h) c y.1) as H1. unfold advance_worker in H1.
  destruct (IndexMap.get id (channels c)) as [ch|] eqn:Hg.
  - rewrite (co_disjoint _ Hok _ _ Hg). destruct (negb _); [by apply rtc_once, fine_socket|]. fold (advanced (sequence h) ch).
    set (c1 := set_channels c _) in *. pose proof (forward_worker_run ref id (advanced (sequence h) ch) f c1 y.1) as H2.
    destruct (forward_worker ref id _ f c1 y.1) as [c2 w2]. apply (run_fine E ref c y (c2, w2)); [done|]. by eapply rtc_l.
  - destruct (IndexMap.get id (closing c)) as [ch|]; [|by apply rtc_once, fine_socket].
    destruct (negb _); [by apply rtc_once, fine_socket|]. fold (advanced (sequence h) ch). rewrite (surjective_pairing y) at 2.
    destruct (_ || _).
    + apply (run_fine E ref c y (_, y.1)); [done|]. eapply rtc_l; [exact H1|]. apply rtc_once, s_swallow.
    + apply (run_fine E ref c y (_, y.1)); [done|]. by apply rtc_once.
Qed.

Lemma drain_lanes_run ref ls : forall sent c w, run ref (c, w) (drain_lanes ref ls sent c w).2.
Proof.
  induction ls as [|l ls IH]; intros sent c w; [done|]. cbn [drain_lanes].
  destruct (dequeue l c) as [[next c1]|] eqn:Hd; [|apply IH]. eapply rtc_l; [by eapply s_pop|].
  pose proof (s_send ref (q_bandwidth next) (q_frame next) c1 w) as Hx.
  destruct (send_now _ _ _ _ w) as [[] w1]; cbn [snd] in Hx; [|by apply rtc_once]. eapply rtc_l; [exact Hx|].
  eapply rtc_l; [apply (s_stalled ref (Some (now w1)))|]. destruct (_ <? _); [done|apply IH].
Qed.
Lemma drain_loop_run fuel ref : forall c w, run ref (c, w) (drain_loop fuel ref c w).2.
Proof.
  induction fuel as [|fuel IH]; intros c w; [done|]. cbn [drain_loop]. destruct (_ <=? _); [|done].
  pose proof (drain_lanes_run ref LANES false c w) as Hr.
  destruct (drain_lanes ref LANES false c w) as [[|[]] [c1 w1]]; [done| |done]. etrans; [exact Hr|apply IH].
Qed.

Lemma drain_run E ref y : rtc (fine_step E) y (drain ref y).
Proof.
  unfold drain. destruct (heap y.2 !! ref) as [c|] eqn:Hc; [|done]. destruct (_ || _); [done|].
  set (c1 := set_timer c false false). assert (H1 : rtc (fine_step E) y (write ref c1 y)).
  { rewrite (surjective_pairing y) at 2. apply (run_fine E ref c y (c1, y.1)); [done|]. apply rtc_once, s_undrain. }
  destruct (negb (is_open ref y.1)); [eapply rtc_r; [exact H1|apply fine_retire]|].
  destruct (MAX_BUFFERED <? buffered_amount ref y.1).
  { destruct (match stalled_at c1 with Some t => _ | None => _ end); [eapply rtc_r; [exact H1|apply fine_socket]|].
    rewrite (surjective_pairing y) at 2. apply (run_fine E ref c y (schedule c1, y.1)); [done|].
    eapply rtc_l; [apply s_undrain|]. apply rtc_once, s_schedule. }
  pose proof (drain_loop_run (S (queued c1)) ref c1 y.1) as H2.
  destruct (drain_loop _ ref c1 y.1) as [fin [c2 w2]]. cbn [snd] in H2.
  eapply (run_fine E ref c y (_, w2)); [done|]. eapply rtc_l; [apply s_undrain|]. etrans; [exact H2|].
  destruct fin; [|done]. apply rtc_once. destruct (frames c2 =? 0); [apply s_stalled|apply s_schedule].
Qed.

(** Operations that run without interruption are among the interleavings. *)
Lemma step_fine E y y' : inv y.2 -> step E y y' -> rtc (fine_step E) y y'.
Proof.
  intros I Hst. destruct Hst; try (apply rtc_once; by constructor).
  - apply client_run.
  - by apply worker_run.
  - apply drain_run.
Qed.

(** *** What every section keeps *)

Lemma steady_deliver id n c : steady c (deliver id n c).
Proof. unfold deliver. destruct (IndexMap.get id (channels c)) as [ch|] eqn:Hg; [by eapply steady_update|done]. Qed.
Lemma steady_advance id n c : conn_ok c -> steady c (advance_worker id n c).
Proof.
  intros [_ Hok]. destruct (co_wf _ Hok) as (_ & Hw & _). unfold advance_worker. destruct (IndexMap.get id (channels c)) as [ch|] eqn:Hg; [by eapply steady_update|].
  destruct (IndexMap.get id (closing c)) as [ch|] eqn:Hgc; [|done].
  apply (steady_closing c id); [by apply IndexMap.wf_insert| | |by left].
  - erewrite IndexMap.length_insert_present by done. lia.
  - intros k Hne Hk. by rewrite IndexMap.get_insert_ne by (by apply not_eq_sym).
Qed.

Lemma section_steady ref p q : section ref p q -> conn_ok p.1 -> steady p.1 q.1.
Proof.
  intros Hs Hok. destruct Hs; cbn [fst] in *; try done.
  - apply client_channel_taken.
  - apply steady_deliver.
  - apply steady_release.
  - by apply steady_advance.
  - apply steady_closing_remove. apply (co_wf _ (proj2 Hok)).
  - destruct (enqueue_fields l (MkQueued bw f) (now w) c) as (? & ? & ? & ? & ?). apply steady_queues; try done. intros Hq. by apply queues_ok_enqueue.
  - by eapply steady_dequeue.
  - apply steady_timer.
  - apply steady_stalled.
  - apply steady_schedule.
Qed.

Lemma fine_inv E y y' : inv y.2 -> shut y.2 -> fine_step E y y' -> inv y'.2 /\ shut y'.2.
Proof.
  intros I Hs Hst. destruct Hst as [ref c c' w' y Hc Hsec| | | | | | | |].
  - split; [|done]. apply (relay_write_inv ref c c' (w', y.2)); [done|done|].
    exact (section_steady ref _ _ Hsec (inv_conn _ I _ _ Hc)).
  - done.
  - split; [by apply inv_attach|exact (shut_step E _ _ I Hs (step_attach E sess y))].
  - split; [by apply inv_retire|exact (shut_step E _ _ I Hs (step_retire E ref y))].
  - split; [|exact (shut_step E _ _ I Hs (step_revoke_session E id reason y))]. unfold revoke_session. by destruct (IndexMap.get _ _).
  - unfold revoke_account. by rewrite revoke_where_state.
  - unfold revoke_owner. by rewrite revoke_where_state.
  - split; [by apply close_relay_spec|]. intros _. by apply close_relay_spec.
  - done.
Qed.

Lemma fine_reachable_inv E y : fine_reachable E y -> inv y.2 /\ shut y.2.
Proof.
  intros [w Hr]. apply (rtc_ind_r (fun y => inv y.2 /\ shut y.2) (w, new_state)) in Hr; [done| |].
  - split; [apply inv_new_relay|done].
  - intros y1 y2 _ Hst [I Hs]. by eapply fine_inv.
Qed.

(** *** Retired connections *)

Lemma retire_other ref r y : r <> ref -> heap (retire ref y).2 !! r = heap y.2 !! r.
Proof.
  intros Hn. unfold retire. destruct (heap y.2 !! ref) as [c|]; [|done]. destruct (closed c); [done|]. simpl. by rewrite lookup_insert_ne.
Qed.
Lemma retire_closed ref r c y : heap y.2 !! r = Some c -> closed c = true -> heap (retire ref y).2 !! r = Some c.
Proof.
  intros Hc Hcl. destruct (decide (r = ref)) as [->|Hn]; [|by rewrite retire_other]. unfold retire. by rewrite Hc, Hcl.
Qed.
Lemma shut_down_retired l r c : forall y, heap y.2 !! r = Some c -> closed c = true -> heap (shut_down l y).2 !! r = Some c.
Proof. induction l as [|ref l IH]; intros y Hc Hcl; [done|]. cbn [shut_down fold_left]. apply IH; [|done]. by apply retire_closed. Qed.

(** Operations that begin after the retirement leave the connection as it is. *)
Lemma step_retired E y y' ref c : inv y.2 -> step E y y' -> heap y.2 !! ref = Some c -> closed c = true -> heap y'.2 !! ref = Some c.
Proof.
  intros I Hst Hc Hcl. assert (Hcur : forall r c0, heap y.2 !! r = Some c0 -> current y.2 r c0 = true -> ref <> r).
  { intros r c0 H0 Hcur ->. pose proof (current_open _ _ _ I H0 Hcur). congruence. }
  destruct Hst.
  - unfold attach. destruct (_ || _); simpl; [done|]. rewrite lookup_insert_ne; [done|]. intros <-. pose proof (inv_fresh _ I _ _ Hc). lia.
  - unfold receive_client. destruct (negb binary); [done|]. destruct (heap y.2 !! ref0) as [c0|] eqn:H0; [|done].
    destruct (closed c0) eqn:H1; [done|]. cbn [orb]. destruct (negb _); [done|]. destruct (WorkerLinkFrame.decode data); [done|]. destruct (negb _); [done|].
    assert (ref0 <> ref) by congruence.
    destruct (client_channel _ _ _) as [[] [c1 w1]]; [by simpl; rewrite lookup_insert_ne|]. destruct (forward_client _ _ _ _ _ _). simpl. by rewrite lookup_insert_ne.
  - unfold receive_worker. destruct (heap y.2 !! ref0) as [c0|] eqn:H0; [|done]. destruct (current y.2 ref0 c0) eqn:H1; [|done].
    pose proof (Hcur _ _ H0 H1) as Hn. destruct (negb (matches _ _)); [done|]. cbn [negb orb].
    destruct (IndexMap.get _ (channels c0)), (IndexMap.get _ (closing c0)); try done; (destruct (negb _); [done|]);
      try (simpl; by rewrite lookup_insert_ne). destruct (forward_worker _ _ _ _ _ _). simpl. by rewrite lookup_insert_ne.
  - unfold drain. destruct (heap y.2 !! ref0) as [c0|] eqn:H0; [|done]. destruct (current y.2 ref0 c0) eqn:H1; [|done].
    pose proof (Hcur _ _ H0 H1) as Hn. destruct (closed c0); [done|]. cbn [negb orb].
    destruct (negb _); [rewrite retire_other by done; simpl; by rewrite lookup_insert_ne|]. destruct (_ <? _).
    { destruct (match stalled_at _ with Some t => _ | None => _ end); simpl; by rewrite lookup_insert_ne. }
    destruct (drain_loop _ _ _ _) as [? [? ?]]. simpl. by rewrite lookup_insert_ne.
  - by apply retire_closed.
  - unfold revoke_session. by destruct (IndexMap.get _ _).
  - unfold revoke_account. by rewrite revoke_where_state.
  - unfold revoke_owner. by rewrite revoke_where_state.
  - unfold close_relay. destruct (r_closed y.2); [done|]. by apply shut_down_retired.
  - done.
Qed.

(** C8: In every state that the critical sections of the relay reach, in whatever
    order those of different operations come and with retirements between any two of
    them: a lane's byte count is exactly that of its queued frames, both within the
    lane's limits, and the connection's totals are the sums over the lanes; channel ids
    are not shared between open and closing channels, of which at most 1,024 wait; a
    Remote Surface is held exactly while a channel of its grant is open, and it knows
    exactly those channels. Retiring an open connection leaves it detached with
    nothing held, and operations that begin later leave it so (one that was under way
    may still file a channel, see [Sample.retired_holds_permit]); a relay that was shut
    down has no connections. *)
Theorem relay_invariant E y ref c :
  fine_reachable E y -> heap y.2 !! ref = Some c ->
  queues_ok c /\ channels_ok c /\
  (closed c = false -> exists c', heap (retire ref y).2 !! ref = Some c' /\ closed c' = true /\ holds_nothing c' /\
     ref ∉ IndexMap.values (connections (retire ref y).2)) /\
  (closed c = true -> forall y', step E y y' -> heap y'.2 !! ref = Some c) /\
  (r_closed y.2 = true -> connections y.2 = []).
Proof.
  intros [I Hs]%fine_reachable_inv Hc. destruct (inv_conn _ I _ _ Hc) as [Hq Hch].
  split; [done|]. split; [done|]. split; [|split; [intros Hcl y' Hst; by eapply step_retired|done]].
  intros Hcl. pose proof (inv_retire ref y I) as I'. exists (retired c). rewrite (retire_state ref y c Hc Hcl) in *. simpl.
  rewrite lookup_insert_eq. split; [done|]. split; [done|]. split; [done|].
  intros Hin. apply list_elem_of_fmap in Hin as ([k r] & -> & Hin). apply IndexMap.In_get in Hin; [|apply I'].
  destruct (inv_attached _ I' _ _ Hin) as (c' & Hc' & _ & Hcl'). simpl in Hc'. rewrite lookup_insert_eq in Hc'. by simplify_eq.
Qed.

(** ** What the client is sent

    [sent] is what a socket took, in order. Nothing but [send] adds to it, and
    a socket that was closed stays closed. *)
Class PortLaws := {
  sent : nat -> W -> list RFrame;
  benign (w w' : W) := forall r, sent r w' = sent r w /\ (is_open r w' = true -> is_open r w = true);
  send_sent : forall ref f w,
    let '(ok, w') := send ref f w in
    (forall r, sent r w' = sent r w ++ (if decide (ok = true /\ r = ref) then [f] else [])) /\
    (forall r, is_open r w' = true -> is_open r w = true);
  close_benign : forall ref code reason w,
    benign w (close_socket ref code reason w) /\ is_open ref (close_socket ref code reason w) = false;
  bridge_benign : forall worker f w, benign w (send_worker_link_frame worker f w).2;
  subscribe_benign : forall ref worker w,
    benign w (subscribe ref worker w) /\ benign w (unsubscribe ref worker w);
  acquire_benign : forall acquire o k w, acquire_remote_surface = Some acquire -> benign w (acquire o k w).2;
  drop_benign : forall p w, benign w (drop_permit p w);
  consume_benign : forall f o k n w, consume_relay = Some f -> benign w (f o k n w).2;
  record_benign : forall f o ch b n w, record_port = Some f -> benign w (f o ch b n w)
}.

Section lanes.
Context {laws : PortLaws}.

#[local] Instance benign_preorder : PreOrder benign.
Proof.
  split; [by intros w r|]. intros w1 w2 w3 H1 H2 r. destruct (H1 r) as [E1 M1], (H2 r) as [E2 M2].
  split; [congruence|auto].
Qed.

Lemma record_keeps c ch b n w : benign w (record c ch b n w).
Proof. unfold record. destruct record_port eqn:Hr; [by eapply record_benign|done]. Qed.

Lemma consume_keeps ref c n w :
  benign w (consume ref c n w).2 /\ ((consume ref c n w).1 = false -> is_open ref (consume ref c n w).2 = false).
Proof.
  unfold consume. set (r := if n =? 0 then _ else _).
  assert (Hb : benign w r.2).
  { unfold r. destruct (n =? 0); [done|]. destruct consume_relay eqn:Hc; [by eapply consume_benign|done]. }
  destruct r as [[] w1]; [done|]. destruct (close_benign ref 1013 "WorkerLink relay bandwidth quota reached" w1).
  split; [by etrans|done].
Qed.

Lemma send_now_sent ref c bw f w :
  let '(ok, w') := send_now ref c bw f w in
  (forall r, is_open r w' = true -> is_open r w = true) /\
  (forall r, r <> ref -> sent r w' = sent r w) /\
  (if ok then sent ref w' = sent ref w ++ [f] else is_open ref w' = false).
Proof.
  unfold send_now. pose proof (send_sent ref f w) as Hs. destruct (send ref f w) as [[] w1].
  - destruct Hs as [Hs Hm]. pose proof (record_keeps c bw false (len (f_bytes f)) w1) as Hr. split_and!.
    + intros r Ho. by apply Hm, Hr.
    + intros r Hne. rewrite (proj1 (Hr r)), Hs, decide_False by naive_solver. by rewrite app_nil_r.
    + rewrite (proj1 (Hr ref)), Hs. by rewrite decide_True.
  - destruct Hs as [Hs Hm]. destruct (close_benign ref 1011 "WorkerLink relay send failed" w1) as [Hb Hc].
    split_and!; [intros r Ho; by apply Hm, Hb| |done].
    intros r Hne. rewrite (proj1 (Hb r)), Hs, decide_False by naive_solver. by rewrite app_nil_r.
Qed.

Lemma drop_surface_keeps s w : benign w (drop_surface s w).
Proof. unfold drop_surface. destruct (s_permit s); [apply drop_benign|done]. Qed.

Lemma release_keeps id aw c w : benign w (release id aw c w).2.
Proof.
  unfold release. destruct (IndexMap.get id (channels c)) as [ch|]; [|done].
  set (c1 := if aw then _ else _). destruct (IndexMap.get (grant ch) (surfaces c1)) as [s|]; [|done].
  destruct (decide _); [apply drop_surface_keeps|done].
Qed.

Lemma fold_benign {X} (f : W -> X -> W) (l : list X) w :
  (forall w x, benign w (f w x)) -> benign w (fold_left f l w).
Proof. intros Hf. revert w. induction l as [|x l IH]; intros w; [done|]. simpl. etrans; [apply Hf|apply IH]. Qed.

Lemma retire_keeps ref y : benign y.1 (retire ref y).1.
Proof.
  unfold retire. destruct (heap y.2 !! ref) as [c|]; [|done]. destruct (closed c); [done|]. simpl.
  etrans; [|apply fold_benign; intros w ch; unfold close_channel; destruct (_ <? _); [done|];
            destruct (WorkerLinkFrame.create _ _); [done|apply bridge_benign]].
  etrans; [|apply fold_benign; intros; apply drop_surface_keeps].
  destruct (bindings c); [apply subscribe_benign|done].
Qed.

Lemma client_channel_keeps c h w : benign w (client_channel c h w).2.2.
Proof.
  unfold client_channel.
  assert (Ha : benign w (advance_client c h w).2.2).
  { unfold advance_client. destruct (IndexMap.get _ _); [|done]. by destruct (negb _). }
  destruct (kind h) as [g r| | | | | | |]; try done. unfold open_channel. destruct (_ || _); [done|].
  assert (Hr : benign w (retain_surface c (channelId (channel h)) g r w).2).
  { unfold retain_surface. destruct (negb _); [done|]. destruct (IndexMap.get g _); [done|].
    destruct acquire_remote_surface as [acquire|] eqn:Hacq; [|done].
    pose proof (acquire_benign acquire (s_owner (session c)) (s_worker (session c)) w Hacq).
    by destruct (acquire _ _ w) as [[]]. }
  by destruct (retain_surface _ _ _ _ _) as [[]].
Qed.

(** What a lane has been given: what the socket took of it, then what waits. *)
Definition out (ref : nat) (l : Lane) (w : W) (c : ConnectionState) : list RFrame :=
  filter (fun f => lane (f_header f) = l) (sent ref w) ++ (q_frame <$> l_frames (lanes c l)).

Definition lanes_kept (c : ConnectionState) : Prop :=
  forall l q, q ∈ l_frames (lanes c l) -> lane (f_header (q_frame q)) = l.

Definition of_channel (id : text) (f : RFrame) : Prop := channelId (channel (f_header f)) = id.
#[global] Instance of_channel_dec id f : Decision (of_channel id f).
Proof. unfold of_channel. apply _. Defined.

(** The frames of a channel since it was opened: contiguous from 0, up to the
    last one the worker sent. *)
Record tracked (ref : nat) (w : W) (c : ConnectionState) (id : text) (ch : Channel) : Prop := Tracked {
  tr_next : -1 <= worker_sequence ch;
  tr_frames : exists old new,
    filter (of_channel id) (out ref (lane (header ch)) w c) = old ++ new /\
    (fun f => sequence (f_header f)) <$> new = seqZ 0 (worker_sequence ch + 1) /\
    Forall (fun f => channel (f_header f) = channel (header ch)) new
}.

Definition stream_ok (ref : nat) (w : W) (c : ConnectionState) : Prop :=
  lanes_kept c /\ forall id ch, IndexMap.get id (channels c) = Some ch -> tracked ref w c id ch.

Definition streams (y : Sys) : Prop :=
  forall ref c, heap y.2 !! ref = Some c -> closed c = false -> is_open ref y.1 = true ->
    stream_ok ref y.1 c.

(** Nothing was added to any lane, and the channels are as they were. *)
Record same_out (ref : nat) (w : W) (c : ConnectionState) (w' : W) (c' : ConnectionState) : Prop := {
  so_out : forall l, out ref l w' c' = out ref l w c;
  so_kept : lanes_kept c -> lanes_kept c';
  so_channels : channels c' = channels c
}.

Lemma same_out_refl ref w c : same_out ref w c w c.
Proof. by constructor. Qed.

Lemma same_out_trans ref w1 c1 w2 c2 w3 c3 :
  same_out ref w1 c1 w2 c2 -> same_out ref w2 c2 w3 c3 -> same_out ref w1 c1 w3 c3.
Proof.
  intros [H1 H2 H3] [K1 K2 K3]. constructor; [|auto|congruence]. intros l. by rewrite K1.
Qed.

Lemma same_out_fields ref w w' c c' :
  sent ref w' = sent ref w -> lanes c' = lanes c -> channels c' = channels c -> same_out ref w c w' c'.
Proof.
  intros E1 E2 E3. constructor; [|unfold lanes_kept; by rewrite E2|done].
  intros l. unfold out. by rewrite E1, E2.
Qed.

Lemma stream_ok_same ref w c w' c' : same_out ref w c w' c' -> stream_ok ref w c -> stream_ok ref w' c'.
Proof.
  intros [H1 H2 H3] [Hk Ht]. split; [auto|]. intros id ch Hg. rewrite H3 in Hg.
  destruct (Ht id ch Hg) as [Hn Hf]. constructor; [done|]. by rewrite H1.
Qed.

(** Channels may go, or change in ways the worker's frames do not see. *)
Lemma stream_ok_channels ref w c c' :
  lanes c' = lanes c ->
  (forall id ch', IndexMap.get id (channels c') = Some ch' ->
     worker_sequence ch' = -1 \/
     exists ch, IndexMap.get id (channels c) = Some ch /\ header ch' = header ch /\
       worker_sequence ch' = worker_sequence ch) ->
  stream_ok ref w c -> stream_ok ref w c'.
Proof.
  intros El Hch [Hk Ht]. split; [unfold lanes_kept; by rewrite El|]. intros id ch' Hg.
  assert (Ho : forall l, out ref l w c' = out ref l w c) by (intros l; unfold out; by rewrite El).
  destruct (Hch id ch' Hg) as [Hw|(ch & Hg0 & Eh & Ew)].
  - constructor; [lia|]. eexists _, []. rewrite app_nil_r, Hw. split_and!; done.
  - destruct (Ht id ch Hg0) as [Hn Hf]. constructor; rewrite Ew; [done|]. by rewrite Eh, Ho.
Qed.

Lemma filter_lane_snoc l (fs : list RFrame) f :
  filter (fun f => lane (f_header f) = l) (fs ++ [f]) =
  filter (fun f => lane (f_header f) = l) fs ++ (if decide (lane (f_header f) = l) then [f] else []).
Proof. by rewrite filter_app, filter_cons, filter_nil. Qed.

(** Moving the front of a lane to the socket adds nothing. *)
Lemma dequeue_same_out ref l c next c1 w w' :
  dequeue l c = Some (next, c1) -> sent ref w' = sent ref w ++ [q_frame next] -> lanes_kept c ->
  same_out ref w c w' c1.
Proof.
  unfold dequeue. destruct (l_frames (lanes c l)) as [|q rest] eqn:Hq; [done|]. intros [= -> <-] Hs Hk.
  assert (Hl : lane (f_header (q_frame next)) = l) by (apply (Hk l); rewrite Hq; set_solver).
  constructor; [|intros _|done].
  - intros l'. unfold out. rewrite Hs, filter_lane_snoc, Hl, <- app_assoc. simpl.
    destruct (decide (l = l')) as [<-|Hne].
    + rewrite decide_True by done. by rewrite Hq.
    + by rewrite (decide_False (P := l' = l)) by congruence.
  - intros l' q'. simpl. destruct (decide (l' = l)) as [->|Hne]; simpl; [|apply Hk].
    intros Hin. apply (Hk l). rewrite Hq. set_solver.
Qed.

(** The effect of queue operations on one socket. *)
Record sock_step (ref : nat) (w w' : W) : Prop := {
  ss_open : forall r, is_open r w' = true -> is_open r w = true;
  ss_other : forall r, r <> ref -> sent r w' = sent r w
}.
#[local] Instance sock_step_preorder ref : PreOrder (sock_step ref).
Proof.
  split; [by constructor|]. intros w1 w2 w3 [H1 H2] [K1 K2]. constructor; [auto|].
  intros r Hr. rewrite K2, H2; done.
Qed.
Lemma sock_step_benign ref w w' : benign w w' -> sock_step ref w w'.
Proof. intros Hb. constructor; intros r; [|intros _]; by destruct (Hb r). Qed.

Lemma drain_lanes_out ref ls : forall sent_any c w,
  let r := drain_lanes ref ls sent_any c w in
  sock_step ref w r.2.2 /\
  (r.1 = Failed /\ is_open ref r.2.2 = false \/
   r.1 <> Failed /\ (lanes_kept c -> same_out ref w c r.2.2 r.2.1)).
Proof.
  induction ls as [|l ls IH]; intros b c w; [split; [done|]; right; by split; [|intros; apply same_out_refl]|].
  cbn [drain_lanes]. destruct (dequeue l c) as [[next c1]|] eqn:Hd; [|by apply IH].
  pose proof (send_now_sent ref c1 (q_bandwidth next) (q_frame next) w) as Hs.
  destruct (send_now _ _ _ _ w) as [[] w1]; destruct Hs as (Hm & Ho & Hr).
  2: { split; [by constructor|]. left. by split. }
  set (c2 := set_stalled c1 (Some (now w1))).
  assert (So2 : lanes_kept c -> same_out ref w c w1 c2).
  { intros Hk. eapply same_out_trans; [exact (dequeue_same_out ref l c next c1 w w1 Hd Hr Hk)|].
    by apply same_out_fields. }
  assert (Ss : sock_step ref w w1) by (by constructor).
  destruct (MAX_BUFFERED <? _); [split; [exact Ss|]; right; by split|].
  destruct (IH true c2 w1) as [Ss2 Hc]. split; [by etrans|].
  destruct Hc as [?|[? So3]]; [by left|right]. split; [done|]. intros Hk.
  eapply same_out_trans; [by apply So2|]. apply So3. by apply (so_kept _ _ _ _ _ (So2 Hk)).
Qed.

Lemma drain_loop_out fuel ref : forall c w,
  let r := drain_loop fuel ref c w in
  sock_step ref w r.2.2 /\
  (r.1 = false /\ is_open ref r.2.2 = false \/
   r.1 = true /\ (lanes_kept c -> same_out ref w c r.2.2 r.2.1)).
Proof.
  induction fuel as [|fuel IH]; intros c w; [split; [done|]; right; by split; [|intros; apply same_out_refl]|].
  cbn [drain_loop]. destruct (_ <=? _); [|split; [done|]; right; by split; [|intros; apply same_out_refl]].
  destruct (drain_lanes_out ref LANES false c w) as [Ss Hc].
  destruct (drain_lanes ref LANES false c w) as [[|[]] [c1 w1]]; cbn [fst snd] in *.
  - split; [done|]. left. by destruct Hc as [[_ ?]|[? _]].
  - destruct Hc as [[? _]|[_ So]]; [done|]. destruct (IH c1 w1) as [Ss2 Hc2]. split; [by etrans|].
    destruct Hc2 as [?|[? So2]]; [by left|right]. split; [done|]. intros Hk.
    eapply same_out_trans; [by apply So|]. apply So2. by apply (so_kept _ _ _ _ _ (So Hk)).
  - split; [done|]. right. by destruct Hc as [[? _]|[_ So]].
Qed.

(** A frame that was taken is the last one of its lane. *)
Definition appended (ref : nat) (f : RFrame) (w : W) (c : ConnectionState) (w' : W) (c' : ConnectionState)
    : Prop :=
  lanes_kept c' /\
  forall l, out ref l w' c' = out ref l w c ++ (if decide (lane (f_header f) = l) then [f] else []).

Lemma enqueue_appended ref bw f w c :
  lanes_kept c -> appended ref f w c w (enqueue (lane (f_header f)) (MkQueued bw f) (now w) c).
Proof.
  intros Hk. unfold enqueue. set (c1 := set_stalled _ _). destruct (schedule_fields c1) as (_ & _ & _ & _ & El & _).
  split.
  - intros l q. rewrite El. unfold c1. simpl.
    destruct (decide (l = lane (f_header f))) as [->|Hne]; simpl; [|apply Hk].
    intros [Hin| ->%list_elem_of_singleton]%elem_of_app; [by apply Hk|done].
  - intros l. unfold out. rewrite El. unfold c1. simpl.
    destruct (decide (l = lane (f_header f))) as [->|Hne]; simpl.
    + by rewrite decide_True, fmap_app, app_assoc.
    + rewrite decide_False by congruence. by rewrite app_nil_r.
Qed.

Lemma send_appended ref f w w' c :
  lanes_kept c -> l_frames (lanes c (lane (f_header f))) = [] -> sent ref w' = sent ref w ++ [f] ->
  appended ref f w c w' c.
Proof.
  intros Hk Hq Hs. split; [done|]. intros l. unfold out. rewrite Hs, filter_lane_snoc.
  destruct (decide (lane (f_header f) = l)) as [<-|Hne]; [|by rewrite !app_nil_r].
  rewrite Hq. simpl. by rewrite !app_nil_r.
Qed.

Lemma send_or_queue_out ref bw f c w :
  let r := send_or_queue ref (lane (f_header f)) bw f c w in
  sock_step ref w r.2.2 /\ channels r.2.1 = channels c /\
  (if r.1 then lanes_kept c -> appended ref f w c r.2.2 r.2.1 else is_open ref r.2.2 = false).
Proof.
  unfold send_or_queue. destruct (is_open ref w) eqn:Ho; [|done]. cbn [negb].
  destruct (congested _ _ _) eqn:Hcg.
  - destruct (over_limit _ _ _); simpl.
    + destruct (close_benign ref 1013 "WorkerLink relay lane is congested" w).
      split_and!; [by apply sock_step_benign|done|done].
    + split_and!; [done|apply enqueue_fields|apply enqueue_appended].
  - pose proof (send_now_sent ref c bw f w) as Hs. destruct (send_now ref c bw f w) as [[] w1]; simpl;
      destruct Hs as (Hm & Hoth & Hr); (split; [by constructor|]); (split; [done|]); [|done].
    intros Hk. apply send_appended; [done| |done]. unfold congested in Hcg. apply orb_false_iff in Hcg as [Hq _].
    by apply negb_false_iff, bool_decide_eq_true in Hq.
Qed.

(** The channel of the frame advances, the others keep what they had. *)
Lemma stream_ok_appended ref f w c w' c' id ch ch' :
  appended ref f w c w' c' -> stream_ok ref w c -> IndexMap.get id (channels c) = Some ch ->
  id = channelId (channel (f_header f)) -> in_sequence ch (f_header f) = true ->
  header ch' = header ch -> worker_sequence ch' = sequence (f_header f) ->
  channels c' = IndexMap.insert id ch' (channels c) -> stream_ok ref w' c'.
Proof.
  intros [Hk' Ho] [Hk Ht] Hg Hid Hseq Eh Ew Ec. split; [done|]. intros id' ch0 Hg0. rewrite Ec, IndexMap.get_insert in Hg0.
  unfold in_sequence in Hseq. rewrite !andb_true_iff, bool_decide_eq_true, Z.eqb_eq in Hseq.
  destruct Hseq as [[Hcan Hnext] _]. unfold canonical in Hcan. injection Hcan as Hch Hl.
  destruct (decide (id = id')) as [<-|Hne].
  - injection Hg0 as <-. destruct (Ht id ch Hg) as [Hn (old & new & H1 & H2 & H3)].
    constructor; [lia|]. exists old, (new ++ [f]). rewrite Eh, Ho, filter_app, H1. split_and!.
    + rewrite (decide_True (P := lane (f_header f) = lane (header ch))) by done.
      rewrite filter_cons_True, filter_nil by done. by rewrite <- app_assoc.
    + rewrite fmap_app, H2, Ew, Hnext. simpl.
      replace (worker_sequence ch + 1 + 1) with ((worker_sequence ch + 1) + 1) by lia.
      rewrite (seqZ_app 0 (worker_sequence ch + 1) 1) by lia. rewrite (seqZ_cons _ 1) by lia.
      do 2 f_equal. lia.
    + apply Forall_app. split; [done|]. by constructor.
  - destruct (Ht id' ch0 Hg0) as [Hn (old & new & H1 & H2 & H3)]. constructor; [done|].
    exists old, new. rewrite Ho, filter_app, H1. split_and!; [|done|done].
    destruct (decide _); [|by rewrite filter_nil, app_nil_r].
    rewrite filter_cons_False; [by rewrite filter_nil, app_nil_r|]. unfold of_channel. congruence.
Qed.

Lemma stream_ok_release ref id aw c w w' :
  sent ref w' = sent ref w -> stream_ok ref w c -> stream_ok ref w' (release id aw c w).1.
Proof.
  intros Es Hok. apply (stream_ok_same ref w (release id aw c w).1); [by apply same_out_fields|].
  destruct (IndexMap.get id (channels c)) as [ch|] eqn:Hg; [|unfold release; by rewrite Hg].
  destruct (release_shape id aw c w ch Hg) as (m & -> & _). apply (stream_ok_channels ref w c); [done| |exact Hok].
  intros id' ch'. simpl. rewrite IndexMap.get_remove. destruct (decide (id = id')); [done|]. intros Hg'. right.
  by exists ch'.
Qed.

(** One connection changed; the world moved for it alone. *)
Lemma streams_write ref c c' y w' :
  streams y -> heap y.2 !! ref = Some c -> closed c = false -> closed c' = false -> sock_step ref y.1 w' ->
  (stream_ok ref y.1 c -> is_open ref w' = true -> stream_ok ref w' c') ->
  streams (write ref c' (w', y.2)).
Proof.
  intros St Hc Hcl Hcl' [Hm Ho] Hok r c0. simpl. destruct (decide (ref = r)) as [<-|Hne].
  - rewrite lookup_insert_eq. intros; simplify_eq. apply Hok; [|done]. apply St; [done|done|by apply Hm].
  - rewrite lookup_insert_ne by done. intros Hr Hcl0 Hopen.
    apply (stream_ok_same r y.1 c0); [by apply same_out_fields; [apply Ho|..]|]. apply St; auto.
Qed.

Lemma streams_benign y w' : streams y -> benign y.1 w' -> streams (w', y.2).
Proof.
  intros St Hb r c Hc Hcl Hopen. destruct (Hb r) as [Es Hm].
  apply (stream_ok_same r y.1 c); [by apply same_out_fields|]. apply St; auto.
Qed.

Lemma forward_client_out ref id ch f c w :
  IndexMap.get id (channels c) = Some ch ->
  benign w (forward_client ref id ch f c w).2 /\
  (stream_ok ref w c -> stream_ok ref (forward_client ref id ch f c w).2 (forward_client ref id ch f c w).1).
Proof.
  intros Hg. unfold forward_client. set (n := len (f_bytes f)).
  pose proof (record_keeps c (bandwidth ch) true n w) as B1. set (w1 := record _ _ _ _ _) in *.
  destruct (consume_keeps ref c (len (f_payload f)) w1) as [B2 _].
  assert (Hsame : forall w' c', benign w w' -> lanes c' = lanes c -> channels c' = channels c ->
    stream_ok ref w c -> stream_ok ref w' c').
  { intros w' c' Hb El Ec. apply stream_ok_same, same_out_fields; try done. apply Hb. }
  destruct (consume ref c _ w1) as [[] w2]; cbn [negb fst snd] in *.
  2: { assert (B : benign w w2) by (by etrans). split; [done|]. by apply Hsame. }
  pose proof (bridge_benign (s_worker (session c)) f w2) as B3.
  destruct (send_worker_link_frame _ f w2) as [[] w3]; cbn [negb fst snd] in *.
  2: { destruct (close_benign ref 1013 "WorkerLink worker route is unavailable" w3) as [B4 _].
       assert (B : benign w (close_socket ref 1013 "WorkerLink worker route is unavailable" w3))
         by (etrans; [exact B1|]; etrans; [exact B2|]; by etrans).
       split; [done|]. by apply Hsame. }
  set (ch' := MkChannel _ _ _ _ _ _). set (c1 := set_channels c _).
  pose proof (record_keeps c1 (bandwidth ch') false n w3) as B4. set (w4 := record c1 _ _ _ _) in *.
  assert (B : benign w w4) by (etrans; [exact B1|]; etrans; [exact B2|]; by etrans).
  assert (Hok : stream_ok ref w c -> stream_ok ref w4 c1).
  { intros Hok. apply (stream_ok_same ref w c1); [by apply same_out_fields; [apply B|..]|].
    apply (stream_ok_channels ref w c); [done| |exact Hok]. intros id' ch0. simpl. rewrite IndexMap.get_insert.
    destruct (decide (id = id')) as [<-|]; intros; simplify_eq; right; [by exists ch|by exists ch0]. }
  destruct (is_close _); [|by split]. split; [etrans; [exact B|apply release_keeps]|].
  intros Hs. apply stream_ok_release; [apply release_keeps|auto].
Qed.

Lemma client_channel_out ref c h w :
  stream_ok ref w c -> stream_ok ref (client_channel c h w).2.2 (client_channel c h w).2.1.
Proof.
  intros Hok. pose proof (client_channel_keeps c h w) as Hb.
  apply (stream_ok_same ref w (client_channel c h w).2.1); [by apply same_out_fields; [apply Hb|..]|].
  unfold client_channel.
  assert (Ha : stream_ok ref w (advance_client c h w).2.1).
  { unfold advance_client. destruct (IndexMap.get _ (channels c)) as [ch|] eqn:Hg; [|done].
    destruct (negb _); [done|]. apply (stream_ok_channels ref w c); [done| |done]. intros id' ch0. simpl.
    rewrite IndexMap.get_insert. destruct (decide _) as [<-|]; intros; simplify_eq; right; [by exists ch|by exists ch0]. }
  destruct (kind h) as [g r| | | | | | |]; try done. unfold open_channel. destruct (_ || _); [done|].
  destruct (retain_surface c _ g r w) as [[c1|] w1] eqn:Hr; [|done].
  destruct (retain_surface_fields _ _ _ _ _ _ _ Hr) as (_ & _ & El & _ & _ & Ec).
  apply (stream_ok_channels ref w c); [done| |done]. intros id' ch0. simpl.
  rewrite IndexMap.get_insert, Ec. destruct (decide _) as [<-|]; intros; simplify_eq; [by left|right; by exists ch0].
Qed.

Lemma streams_client ref data binary y : inv y.2 -> streams y -> streams (receive_client ref data binary y).
Proof.
  intros I St. unfold receive_client.
  assert (Hclose : forall code reason y0, streams y0 -> streams (close ref code reason y0)).
  { intros code reason y0 St0. apply (streams_benign y0); [done|]. apply close_benign. }
  destruct (negb binary); [by apply Hclose|]. destruct (heap y.2 !! ref) as [c|] eqn:Hc; [|done].
  destruct (closed c) eqn:Hcl; [done|]. destruct (current y.2 ref c); [|done]. cbn [orb negb].
  destruct (WorkerLinkFrame.decode data) as [|f]; [by apply Hclose|].
  destruct (negb (matches c _)); [by apply Hclose|].
  pose proof (client_channel_taken c (f_header f) y.1) as [[_ S1 _] Ht].
  pose proof (client_channel_keeps c (f_header f) y.1) as B1.
  pose proof (client_channel_out ref c (f_header f) y.1) as O1.
  destruct (client_channel c (f_header f) y.1) as [[code reason|id ch] [c1 w1]]; cbn [fst snd] in *.
  - apply Hclose. eapply streams_write; [done|done|done|by rewrite S1| |auto]. by apply sock_step_benign.
  - destruct (forward_client_out ref id ch f c1 w1 Ht) as [B2 O2].
    pose proof (steady_forward_client ref id ch f c1 w1 Ht) as [_ S2 _].
    destruct (forward_client ref id ch f c1 w1) as [c2 w2]; cbn [fst snd] in *.
    eapply streams_write; [done|done|done|by rewrite S2, S1| |auto].
    apply sock_step_benign. by etrans.
Qed.

Lemma forward_worker_out ref id ch ch' f c w :
  IndexMap.get id (channels c) = Some ch ->
  id = channelId (channel (f_header f)) -> in_sequence ch (f_header f) = true ->
  header ch' = header ch -> worker_sequence ch' = sequence (f_header f) ->
  let r := forward_worker ref id ch' f (set_channels c (IndexMap.insert id ch' (channels c))) w in
  sock_step ref w r.2 /\ (stream_ok ref w c -> is_open ref r.2 = true -> stream_ok ref r.2 r.1).
Proof.
  intros Hg Hid Hseq Eh Ew. unfold forward_worker. set (c1 := set_channels c _).
  pose proof (record_keeps c1 (bandwidth ch') true (len (f_bytes f)) w) as B1. set (w1 := record _ _ _ _ _) in *.
  destruct (consume_keeps ref c1 (len (f_payload f)) w1) as [B2 Hcl].
  assert (B : benign w (consume ref c1 (len (f_payload f)) w1).2) by (by etrans).
  destruct (consume ref c1 _ w1) as [[] w2]; cbn [negb fst snd] in *.
  2: { split; [by apply sock_step_benign|]. intros _ Ho. by rewrite Hcl in Ho. }
  destruct (send_or_queue_out ref (bandwidth ch') f c1 w2) as (Ss & Ec & Hr).
  destruct (send_or_queue ref (lane (f_header f)) (bandwidth ch') f c1 w2) as [[] [c2 w3]]; cbn [fst snd andb] in *.
  2: { split; [etrans; [by apply sock_step_benign|done]|]. intros _ Ho. congruence. }
  assert (Hok2 : stream_ok ref w c -> stream_ok ref w3 c2).
  { intros Hok. eapply (stream_ok_appended ref f w2 c); [|by eapply stream_ok_same; [apply same_out_fields; [apply B|done|done]|]|
      exact Hg|done|done|exact Eh|exact Ew|exact Ec].
    destruct (Hr (proj1 Hok)) as [Hk2 Hr2]. split; [done|]. intros l. by rewrite Hr2. }
  destruct (_ || _).
  - split; [etrans; [by apply sock_step_benign|]; etrans; [exact Ss|apply sock_step_benign, release_keeps]|].
    intros Hs _. apply stream_ok_release; [apply release_keeps|auto].
  - split; [etrans; [by apply sock_step_benign|done]|auto].
Qed.

Lemma streams_worker ref f y : inv y.2 -> streams y -> streams (receive_worker ref f y).
Proof.
  intros I St. unfold receive_worker. destruct (heap y.2 !! ref) as [c|] eqn:Hc; [|done].
  destruct (current y.2 ref c) eqn:Hcur; [|done]. pose proof (current_open _ _ _ I Hc Hcur) as Hcl.
  destruct (matches c _); [|done]. cbn [negb orb]. set (h := f_header f). set (id := channelId (channel h)).
  assert (Hclose : streams (close ref 1008 "WorkerLink worker frame is out of sequence" y)).
  { apply (streams_benign y); [done|]. apply close_benign. }
  destruct (inv_conn _ I _ _ Hc) as [_ Hok]. destruct (IndexMap.get id (channels c)) as [ch|] eqn:Hg.
  - rewrite (co_disjoint _ Hok _ _ Hg). destruct (in_sequence ch h) eqn:Hs; [|done]. cbn [negb].
    set (ch' := MkChannel _ _ _ _ _ _). set (c1 := set_channels c _).
    assert (Hcl2 : closed (forward_worker ref id ch' f c1 y.1).1 = false).
    { rewrite (st_closed _ _ (steady_forward_worker ref id ch' f c1 y.1)). done. }
    pose proof (forward_worker_out ref id ch ch' f c y.1 Hg eq_refl Hs eq_refl eq_refl) as [Ss Hf].
    fold c1 in Ss, Hf. destruct (forward_worker ref id ch' f c1 y.1) as [c2 w2]. by eapply streams_write.
  - destruct (IndexMap.get id (closing c)) as [ch|] eqn:Hgc; [|done].
    destruct (in_sequence ch h); [|done]. cbn [negb].
    eapply (streams_write ref c _ y y.1); [done|done|done| |done|].
    + by destruct (_ || _).
    + intros Hs _. eapply stream_ok_channels; [| |exact Hs]; [by destruct (_ || _)|].
      intros id' ch0 Hg0. right. exists ch0. split; [|done]. by destruct (_ || _).
Qed.

Lemma streams_retire ref y : streams y -> streams (retire ref y).
Proof.
  intros St. pose proof (retire_keeps ref y) as Hb. pose proof (streams_benign y _ St Hb) as St1.
  unfold retire in *. destruct (heap y.2 !! ref) as [c|]; [|done]. destruct (closed c); [done|].
  intros r c0. simpl in *. destruct (decide (ref = r)) as [<-|Hne].
  - rewrite lookup_insert_eq. by intros; simplify_eq.
  - rewrite lookup_insert_ne by done. apply St1.
Qed.

Lemma streams_same_world y c c' ref :
  streams y -> heap y.2 !! ref = Some c -> closed c = false -> closed c' = false -> lanes c' = lanes c ->
  channels c' = channels c -> streams (write ref c' y).
Proof.
  intros St Hc Hcl Hcl' El Ec. rewrite (surjective_pairing y).
  apply (streams_write ref c c' y y.1); try done. intros Hs _. eapply stream_ok_same; [|exact Hs].
  by apply same_out_fields.
Qed.

Lemma streams_drain ref y : streams y -> streams (drain ref y).
Proof.
  intros St. unfold drain. destruct (heap y.2 !! ref) as [c|] eqn:Hc; [|done].
  destruct (negb _ || _) eqn:Hcl; [done|]. apply orb_false_iff in Hcl as [_ Hcl].
  set (c1 := set_timer c false false).
  assert (St1 : streams (write ref c1 y)) by (by eapply streams_same_world).
  destruct (negb (is_open ref y.1)); [by apply streams_retire|].
  destruct (MAX_BUFFERED <? buffered_amount ref y.1).
  { destruct (match stalled_at c1 with Some t => _ | None => _ end).
    - apply (streams_benign (write ref c1 y)); [done|]. apply close_benign.
    - destruct (schedule_fields c1) as (_ & E2 & E3 & _ & E5 & _).
      by eapply streams_same_world; [done|exact Hc|exact Hcl|rewrite E2|rewrite E5|rewrite E3]. }
  pose proof (st_closed _ _ (steady_drain_loop (S (queued c1)) ref c1 y.1)) as Hcl2.
  destruct (drain_loop_out (S (queued c1)) ref c1 y.1) as [Ss Ho].
  destruct (drain_loop (S (queued c1)) ref c1 y.1) as [fin [c2 w2]]. cbn [fst snd] in *.
  set (c3 := if fin then if frames c2 =? 0 then set_stalled c2 None else schedule c2 else c2).
  assert (Hf : closed c3 = closed c2 /\ lanes c3 = lanes c2 /\ channels c3 = channels c2).
  { unfold c3. destruct fin; [|done]. destruct (frames c2 =? 0); [done|].
    destruct (schedule_fields c2) as (_ & ? & ? & _ & ? & _). done. }
  destruct Hf as (F1 & F2 & F3). eapply streams_write; [exact St|exact Hc|exact Hcl| |exact Ss|].
  - by rewrite F1, Hcl2.
  - intros Hs Hopen. destruct Ho as [[_ Hno]|[_ So]]; [congruence|].
    assert (Hk1 : lanes_kept c1) by apply Hs.
    eapply stream_ok_same; [|exact Hs]. eapply same_out_trans; [|by apply same_out_fields].
    eapply same_out_trans; [by apply (same_out_fields ref y.1 y.1 c c1)|by apply So].
Qed.

Lemma revoke_where_keeps P reason y : benign y.1 (revoke_where P reason y).1.
Proof.
  unfold revoke_where. generalize (IndexMap.values (connections y.2)). intros l. revert y.
  induction l as [|r l IH]; intros y; [done|]. simpl. etrans; [|apply IH].
  destruct (heap y.2 !! r); [|done]. destruct (P _); [apply close_benign|done].
Qed.

Lemma streams_revoke P reason y : streams y -> streams (revoke_where P reason y).
Proof.
  intros St. rewrite (surjective_pairing (revoke_where P reason y)), revoke_where_state.
  apply streams_benign; [done|apply revoke_where_keeps].
Qed.

Lemma streams_shut_down l : forall y, streams y -> streams (shut_down l y).
Proof.
  induction l as [|r l IH]; intros y St; [done|]. cbn [shut_down fold_left]. apply IH, streams_retire.
  apply (streams_benign y); [done|]. apply close_benign.
Qed.

(** The world moves on without sending on a socket or opening a closed one. *)
Lemma streams_step y y' : inv y.2 -> streams y -> step benign y y' -> streams y'.
Proof.
  intros I St Hst. destruct Hst.
  - unfold attach. destruct (_ || _); simpl.
    + apply (streams_benign y) ; [done|]. apply close_benign.
    + set (w1 := match IndexMap.get _ _ with Some _ => _ | None => _ end).
      assert (B1 : benign y.1 w1).
      { unfold w1. destruct (IndexMap.get _ _); [apply close_benign|done]. }
      assert (B : benign y.1 (subscribe (next_ref y.2) (s_worker sess) w1))
        by (etrans; [exact B1|apply subscribe_benign]).
      pose proof (streams_benign y _ St B) as St1. intros r c0. simpl.
      destruct (decide (next_ref y.2 = r)) as [<-|Hne].
      * rewrite lookup_insert_eq. intros; simplify_eq. split; [|done]. intros l q Hq. by apply elem_of_nil in Hq.
      * rewrite lookup_insert_ne by done. apply St1.
  - by apply streams_client.
  - by apply streams_worker.
  - by apply streams_drain.
  - by apply streams_retire.
  - unfold revoke_session. destruct (IndexMap.get _ _); [|done].
    apply (streams_benign y); [done|]. apply close_benign.
  - by apply streams_revoke.
  - by apply streams_revoke.
  - unfold close_relay. destruct (r_closed y.2); [done|]. by apply streams_shut_down.
  - by eapply (streams_benign (w, s)).
Qed.

(** C9: On a connection whose socket is open, the frames of an open channel
    that the client was sent since the channel was opened, followed by those
    that wait in its lane, are the worker's frames in order: numbered 0, 1,
    2, ... up to the last one the worker sent, all of this very channel. No
    frame is lost, doubled or reordered, however the lanes are drained. *)
Theorem worker_frames_in_order y ref c id ch :
  reachable benign y -> heap y.2 !! ref = Some c -> closed c = false -> is_open ref y.1 = true ->
  IndexMap.get id (channels c) = Some ch ->
  exists old new,
    filter (of_channel id)
      (filter (fun f => lane (f_header f) = lane (header ch)) (sent ref y.1) ++
       (q_frame <$> l_frames (lanes c (lane (header ch))))) = old ++ new /\
    (fun f => sequence (f_header f)) <$> new = seqZ 0 (worker_sequence ch + 1) /\
    Forall (fun f => channel (f_header f) = channel (header ch)) new.
Proof.
  intros Hr Hc Hcl Hopen Hg.
  assert (St : streams y).
  { clear Hc Hopen. revert y Hr. apply reachable_step_ind.
    - intros w r c0 Hc0. simpl in Hc0. by rewrite lookup_empty in Hc0.
    - intros y y' I St Hst. by eapply streams_step. }
  exact (tr_frames _ _ _ _ _ (proj2 (St _ _ Hc Hcl Hopen) _ _ Hg)).
Qed.

(** *** Draining finishes *)

Lemma queued_set c l q b n :
  (queued (set_lane c l q b n) + length (l_frames (lanes c l)) = queued c + length (l_frames q))%nat.
Proof. unfold queued. destruct l; simpl; lia. Qed.

Lemma queued_dequeue l c next c' : dequeue l c = Some (next, c') -> queued c = S (queued c').
Proof.
  unfold dequeue. destruct (l_frames (lanes c l)) as [|q rest] eqn:Hq; [done|]. intros [= -> <-].
  match goal with |- context [set_lane c l ?q ?b ?n] => pose proof (queued_set c l q b n) as Hs end.
  rewrite Hq in Hs. simpl in Hs. lia.
Qed.

Lemma drain_lanes_progress ref ls : forall sent_any c w c' w' b,
  drain_lanes ref ls sent_any c w = (Passed b, (c', w')) ->
  (queued c' <= queued c)%nat /\ (sent_any = false -> b = true -> (queued c' < queued c)%nat) /\
  (b = false -> c' = c /\ w' = w /\ sent_any = false /\ forall l, l ∈ ls -> l_frames (lanes c l) = []).
Proof.
  induction ls as [|l ls IH]; intros sa c w c' w' b; cbn [drain_lanes].
  { intros [= <- <- <-]. split_and!; [lia|congruence|]. intros ->. split_and!; try done. set_solver. }
  destruct (dequeue l c) as [[next c1]|] eqn:Hd.
  - destruct (send_now _ _ _ _ w) as [[] w1]; [|done]. pose proof (queued_dequeue _ _ _ _ Hd) as Hq.
    assert (Hq1 : queued (set_stalled c1 (Some (now w1))) = queued c1) by done.
    destruct (MAX_BUFFERED <? _).
    + intros [= <- <- <-]. rewrite Hq1. split_and!; [lia|lia|done].
    + intros Hr. apply IH in Hr as (H1 & _ & H3). rewrite Hq1 in H1. split_and!; [lia|lia|].
      intros Hb. by destruct (H3 Hb) as (_ & _ & ? & _).
  - intros Hr. apply IH in Hr as (H1 & H2 & H3). split_and!; [done|done|]. intros Hb.
    destruct (H3 Hb) as (-> & -> & -> & Hl). split_and!; try done. intros l' [->|Hin]%elem_of_cons; [|auto].
    unfold dequeue in Hd. by destruct (l_frames (lanes c l)).
Qed.

(** With more fuel than frames the loop stops only for a reason. *)
Lemma drain_loop_exit fuel ref : forall c w, (queued c < fuel)%nat ->
  let r := drain_loop fuel ref c w in
  r.1 = false \/ MAX_BUFFERED < buffered_amount ref r.2.2 \/ forall l, l_frames (lanes r.2.1 l) = [].
Proof.
  induction fuel as [|fuel IH]; intros c w Hf; [lia|]. cbn [drain_loop].
  destruct (buffered_amount ref w <=? MAX_BUFFERED) eqn:Hb; [|right; left; by apply Z.leb_gt in Hb].
  destruct (drain_lanes ref LANES false c w) as [[|[]] [c1 w1]] eqn:Hd; [by left| |].
  - destruct (drain_lanes_progress _ _ _ _ _ _ _ _ Hd) as (_ & Hlt & _). apply IH. specialize (Hlt eq_refl eq_refl). lia.
  - destruct (drain_lanes_progress _ _ _ _ _ _ _ _ Hd) as (_ & _ & He).
    destruct (He eq_refl) as (-> & _ & _ & Hl). right. right. intros l. apply Hl. destruct l; set_solver.
Qed.

Lemma no_frames c : queues_ok c -> frames c = 0 -> forall l, l_frames (lanes c l) = [].
Proof.
  intros Hq Hf l. rewrite (qo_total_frames _ Hq) in Hf. unfold over_lanes, LANES, lane_len in Hf. simpl in Hf.
  apply length_zero_iff_nil. destruct l; lia.
Qed.

Lemma no_bytes c : queues_ok c -> (forall l, l_frames (lanes c l) = []) -> bytes c = 0 /\ frames c = 0.
Proof.
  intros Hq Hl. rewrite (qo_total_frames _ Hq), (qo_total_bytes _ Hq). unfold over_lanes, lane_len. simpl.
  rewrite !(qo_bytes _ Hq), !Hl. done.
Qed.

(** C10: A drain of an attached connection whose socket can take more ends, and
    ends well: either the socket failed and is closed; or every lane is empty,
    the totals are zero and the stall clock is reset; or the socket is full
    and another drain is scheduled. It never stops with frames waiting and
    nothing to move them. *)
Theorem drain_complete E y ref c :
  reachable E y -> heap y.2 !! ref = Some c -> current y.2 ref c = true -> is_open ref y.1 = true ->
  buffered_amount ref y.1 <= MAX_BUFFERED ->
  exists c', heap (drain ref y).2 !! ref = Some c' /\
    (is_open ref (drain ref y).1 = false \/
     ((forall l, l_frames (lanes c' l) = []) /\ bytes c' = 0 /\ frames c' = 0 /\ stalled_at c' = None) \/
     (MAX_BUFFERED < buffered_amount ref (drain ref y).1 /\ drain_scheduled c' = true)).
Proof.
  intros [I _]%relay_reachable_inv Hc Hcur Hopen Hb. pose proof (current_open _ _ _ I Hc Hcur) as Hcl.
  unfold drain. rewrite Hc, Hcur, Hcl, Hopen. cbn [negb orb]. apply Z.ltb_ge in Hb. rewrite Hb.
  set (c1 := set_timer c false false). pose proof (inv_conn _ I _ _ Hc) as Hok.
  pose proof (steady_drain_loop (S (queued c1)) ref c1 y.1) as [_ S2 S3].
  destruct (drain_loop_out (S (queued c1)) ref c1 y.1) as [_ Ho].
  pose proof (drain_loop_exit (S (queued c1)) ref c1 y.1 ltac:(lia)) as He.
  destruct (drain_loop (S (queued c1)) ref c1 y.1) as [fin [c2 w2]]. cbn [fst snd] in *.
  eexists. split; [apply lookup_insert_eq|]. cbn [fst write].
  destruct Ho as [[-> Hno]|[-> _]]; [by left|]. right. destruct (S3 (st_ok _ _ (steady_timer c false false) Hok)) as [Hq2 _].
  destruct (frames c2 =? 0) eqn:Hf.
  - left. apply Z.eqb_eq in Hf. pose proof (no_frames _ Hq2 Hf) as Hl. destruct (no_bytes _ Hq2 Hl). done.
  - right. apply Z.eqb_neq in Hf. destruct He as [?|[He|He]]; [done| |by destruct (no_bytes _ Hq2 He)].
    split; [done|]. unfold schedule. rewrite S2. change (closed c1) with (closed c). rewrite Hcl. cbn [orb].
    by destruct (drain_scheduled c2) eqn:Hd.
Qed.

(** *** Revocation closes what it names *)
Lemma revoke_fold_spec (P : Session -> bool) reason (l : list nat) : forall y : Sys,
  let y' := fold_left (fun (y : Sys) ref =>
    match heap y.2 !! ref with
    | Some c => if P (session c) then close ref 1008 reason y else y
    | None => y
    end) l y in
  y'.2 = y.2 /\ benign y.1 y'.1 /\
  forall ref c, ref ∈ l -> heap y.2 !! ref = Some c -> P (session c) = true -> is_open ref y'.1 = false.
Proof.
  induction l as [|r l IH]; intros y; cbn [fold_left].
  { split; [done|]. split; [reflexivity|]. by intros ref c ?%elem_of_nil. }
  set (y1 := match heap y.2 !! r with Some c => _ | None => _ end).
  assert (H1 : y1.2 = y.2 /\ benign y.1 y1.1 /\
    forall c, heap y.2 !! r = Some c -> P (session c) = true -> is_open r y1.1 = false).
  { unfold y1. destruct (heap y.2 !! r) as [c0|]; [|by split].
    destruct (P (session c0)) eqn:HP; [|split; [done|]; split; [reflexivity|]; intros; simplify_eq; congruence].
    destruct (close_benign r 1008 reason y.1) as [Hb Hc]. done. }
  destruct H1 as (E1 & B1 & C1). destruct (IH y1) as (E2 & B2 & C2). split; [by rewrite E2|].
  split; [by etrans|]. intros ref c [->|Hin]%elem_of_cons Hc HP.
  - specialize (C1 c Hc HP). destruct (is_open r (fold_left _ l y1).1) eqn:Ho; [|done].
    apply (B2 r) in Ho. congruence.
  - apply (C2 ref c); [done| |done]. by rewrite E1.
Qed.

Lemma revoke_where_closes P reason y k ref c :
  IndexMap.get k (connections y.2) = Some ref -> heap y.2 !! ref = Some c -> P (session c) = true ->
  is_open ref (revoke_where P reason y).1 = false /\ (revoke_where P reason y).2 = y.2.
Proof.
  intros Hg Hc HP. destruct (revoke_fold_spec P reason (IndexMap.values (connections y.2)) y) as (E & _ & C).
  split; [|exact E]. apply (C ref c); [|done..]. apply IndexMap.get_In in Hg.
  unfold IndexMap.values. apply list_elem_of_fmap. by exists (k, ref).
Qed.
End lanes.

(** ** Remote Surface permits

    The interface to the quotas: they keep a book of the permits that are out,
    with the owner and the worker each was issued to. *)

Class PermitBook := {
  book : W -> list (text * text * Permit) -> Prop;
  book_perm : forall w, Proper ((≡ₚ) ==> impl) (book w);
  book_acquire : forall acquire o k w P, acquire_remote_surface = Some acquire -> book w P ->
    let '(p, w') := acquire o k w in book w' ((pair (o, k) <$> option_list p) ++ P);
  book_drop : forall o k p w P, book w ((o, k, p) :: P) -> book (drop_permit p w) P;
  book_send : forall ref f w P, book w P -> book (send ref f w).2 P;
  book_close : forall ref code reason w P, book w P -> book (close_socket ref code reason w) P;
  book_bridge : forall worker f w P, book w P -> book (send_worker_link_frame worker f w).2 P;
  book_subscribe : forall ref worker w P, book w P ->
    book (subscribe ref worker w) P /\ book (unsubscribe ref worker w) P;
  book_consume : forall f o k n w P, consume_relay = Some f -> 0 <= n -> book w P ->
    book (f o k n w).2 P;
  book_record : forall f o ch b n w P, record_port = Some f -> book w P -> book (f o ch b n w) P
}.

Section permits.
Context {permit_book : PermitBook}.
#[local] Existing Instance book_perm.

Definition permits_of (sf : list (text * Surface)) : list Permit := omap s_permit (IndexMap.values sf).
Definition party (c : ConnectionState) : text * text := (s_owner (session c), s_worker (session c)).
Definition held (c : ConnectionState) : list (text * text * Permit) :=
  pair (party c) <$> permits_of (surfaces c).

(** The permits of every connection. *)
Definition all_held (h : gmap nat ConnectionState) : list (text * text * Permit) := (map_to_list h).*2 ≫= held.

(** From [c] in [w] to [c'] in [w'] the book moves with what is held. *)
Definition books (c : ConnectionState) (w : W) (c' : ConnectionState) (w' : W) : Prop :=
  forall R, book w (held c ++ R) -> book w' (held c' ++ R).

Lemma books_refl c w : books c w c w.
Proof. by intros R. Qed.
Lemma books_trans c1 w1 c2 w2 c3 w3 : books c1 w1 c2 w2 -> books c2 w2 c3 w3 -> books c1 w1 c3 w3.
Proof. intros H1 H2 R HR. auto. Qed.

(** Calls that do not touch permits. *)
Lemma books_world c c' w w' :
  surfaces c' = surfaces c -> session c' = session c ->
  (forall P, book w P -> book w' P) -> books c w c' w'.
Proof. intros Es Ep Hb R. unfold held, party. rewrite Es, Ep. apply Hb. Qed.

Lemma permits_app l1 l2 : permits_of (l1 ++ l2) = permits_of l1 ++ permits_of l2.
Proof. unfold permits_of, IndexMap.values. by rewrite fmap_app, omap_app. Qed.

Lemma permits_insert_absent g s sf :
  IndexMap.get g sf = None -> permits_of (IndexMap.insert g s sf) = permits_of sf ++ option_list (s_permit s).
Proof.
  intros Hg. rewrite IndexMap.insert_absent, permits_app by done. unfold permits_of at 2. simpl.
  by destruct (s_permit s).
Qed.

Lemma permits_cons g s sf : permits_of ((g, s) :: sf) = option_list (s_permit s) ++ permits_of sf.
Proof. unfold permits_of. simpl. by destruct (s_permit s). Qed.

Lemma permits_insert_present g s s' sf :
  IndexMap.get g sf = Some s -> s_permit s' = s_permit s -> permits_of (IndexMap.insert g s' sf) = permits_of sf.
Proof.
  intros Hg Hp. induction sf as [|[g0 s0] sf IH]; [done|]. simpl in Hg. cbn [IndexMap.insert].
  destruct (decide (g = g0)) as [->|Hne]; rewrite !permits_cons; [|by rewrite IH].
  simplify_eq. by rewrite Hp.
Qed.

Lemma permits_remove g s sf :
  IndexMap.wf sf -> IndexMap.get g sf = Some s ->
  permits_of sf ≡ₚ option_list (s_permit s) ++ permits_of (IndexMap.shift_remove g sf).
Proof.
  unfold IndexMap.wf. induction sf as [|[g0 s0] sf IH]; [done|]. intros Hw Hg. simpl in Hg.
  apply NoDup_cons in Hw as [Hn Hw]. rewrite IndexMap.remove_cons.
  destruct (decide (g = g0)) as [->|Hne]; rewrite !permits_cons.
  - simplify_eq. rewrite IndexMap.remove_absent; [done|]. by apply IndexMap.get_None.
  - rewrite (IH Hw Hg). by rewrite !(assoc_L (++)), (Permutation_app_comm (option_list (s_permit s0))).
Qed.

Lemma retain_surface_books c id g r w :
  let '(c', w') := retain_surface c id g r w in books c w (default c c') w'.
Proof.
  unfold retain_surface. destruct (negb _); [apply books_refl|].
  destruct (IndexMap.get g (surfaces c)) as [s|] eqn:Hg.
  - intros R. unfold held. simpl. by erewrite permits_insert_present.
  - destruct acquire_remote_surface as [acquire|] eqn:Hacq.
    + pose proof (fun P => book_acquire acquire (s_owner (session c)) (s_worker (session c)) w P Hacq) as Hb.
      destruct (acquire _ _ w) as [[p|] w']; simpl in *; intros R HR; specialize (Hb _ HR); [|done].
      unfold held in *. simpl. rewrite permits_insert_absent, fmap_app by done. simpl.
      eapply (book_perm w'); [|exact Hb]. rewrite <- (assoc_L (++)). apply Permutation_middle.
    + intros R. unfold held. simpl. rewrite permits_insert_absent by done. simpl. by rewrite app_nil_r.
Qed.

Lemma book_drop_surface pt s w P :
  book w ((pair pt <$> option_list (s_permit s)) ++ P) -> book (drop_surface s w) P.
Proof. unfold drop_surface. destruct pt, (s_permit s); [apply book_drop|done]. Qed.

Lemma release_books id aw c w : channels_ok c ->
  books c w (release id aw c w).1 (release id aw c w).2.
Proof.
  intros [(_ & _ & Hw) _ _ _ _ _]. unfold release. destruct (IndexMap.get id (channels c)) as [ch|]; [|apply books_refl].
  set (c1 := if aw then _ else _).
  assert (Es : surfaces c1 = surfaces c) by (unfold c1; by destruct aw).
  assert (Ep : session c1 = session c) by (unfold c1; by destruct aw).
  rewrite Es. destruct (IndexMap.get (grant ch) (surfaces c)) as [s|] eqn:Hg.
  - destruct (decide _); intros R; unfold held, party; simpl; rewrite Ep.
    + rewrite (permits_remove _ _ _ Hw Hg), fmap_app, <- (assoc_L (++)). apply book_drop_surface.
    + by erewrite permits_insert_present.
  - by apply books_world.
Qed.

Lemma book_record_call c ch b n w P : book w P -> book (record c ch b n w) P.
Proof. unfold record. destruct record_port eqn:Hr; [by apply book_record|done]. Qed.

Lemma book_consume_call ref c n w P : 0 <= n -> book w P -> book (consume ref c n w).2 P.
Proof.
  intros Hn Hb. unfold consume. set (r := if n =? 0 then _ else _).
  assert (Hr : book r.2 P).
  { unfold r. destruct (n =? 0); [done|]. destruct consume_relay eqn:Hc; [by apply book_consume|done]. }
  destruct r as [[] w1]; [done|]. by apply book_close.
Qed.

Lemma book_send_now ref c bw f w P : book w P -> book (send_now ref c bw f w).2 P.
Proof.
  intros Hb. unfold send_now. pose proof (book_send ref f w P Hb) as Hs.
  destruct (send ref f w) as [[] w1]; [by apply book_record_call|by apply book_close].
Qed.

Lemma dequeue_surfaces l c next c' :
  dequeue l c = Some (next, c') -> surfaces c' = surfaces c /\ session c' = session c.
Proof. unfold dequeue. destruct (l_frames _); by intros; simplify_eq. Qed.

Lemma drain_lanes_books ref ls : forall sent_any c w,
  books c w (drain_lanes ref ls sent_any c w).2.1 (drain_lanes ref ls sent_any c w).2.2.
Proof.
  induction ls as [|l ls IH]; intros b c w; [apply books_refl|]. cbn [drain_lanes].
  destruct (dequeue l c) as [[next c1]|] eqn:Hd; [|apply IH]. apply dequeue_surfaces in Hd as [Es Ep].
  pose proof (book_send_now ref c1 (q_bandwidth next) (q_frame next) w) as Hs.
  destruct (send_now _ _ _ _ w) as [[] w1]; cbn [fst snd] in Hs; [|by apply books_world].
  destruct (_ <? _); [by apply books_world|]. eapply books_trans; [|apply IH]. by apply books_world.
Qed.

Lemma drain_loop_books fuel ref : forall c w,
  books c w (drain_loop fuel ref c w).2.1 (drain_loop fuel ref c w).2.2.
Proof.
  induction fuel as [|fuel IH]; intros c w; [apply books_refl|]. cbn [drain_loop].
  destruct (_ <=? _); [|apply books_refl]. pose proof (drain_lanes_books ref LANES false c w) as Hb.
  destruct (drain_lanes ref LANES false c w) as [[|[]] [c1 w1]]; [done| |done].
  by eapply books_trans.
Qed.

Lemma send_or_queue_books ref l bw f c w :
  books c w (send_or_queue ref l bw f c w).2.1 (send_or_queue ref l bw f c w).2.2.
Proof.
  unfold send_or_queue. destruct (negb _); [apply books_refl|]. destruct (congested _ _ _).
  - destruct (over_limit _ _ _); apply books_world; try done; [apply book_close|apply enqueue_fields..].
  - pose proof (book_send_now ref c bw f w) as Hs. destruct (send_now _ _ _ _ w). by apply books_world.
Qed.

Lemma client_channel_books c h w :
  books c w (client_channel c h w).2.1 (client_channel c h w).2.2.
Proof.
  unfold client_channel.
  assert (Ha : books c w (advance_client c h w).2.1 (advance_client c h w).2.2).
  { unfold advance_client. destruct (IndexMap.get _ _); [|apply books_refl].
    destruct (negb _); [apply books_refl|by apply books_world]. }
  destruct (kind h) as [g r| | | | | | |]; try done. unfold open_channel. destruct (_ || _); [apply books_refl|].
  pose proof (retain_surface_books c (channelId (channel h)) g r w) as Hb.
  destruct (retain_surface _ _ _ _ _) as [[c1|] w1]; [|done]. simpl in *.
  eapply books_trans; [exact Hb|]. by apply books_world.
Qed.

Lemma forward_client_books ref id ch f c w :
  conn_ok c -> IndexMap.get id (channels c) = Some ch ->
  books c w (forward_client ref id ch f c w).1 (forward_client ref id ch f c w).2.
Proof.
  intros Hok Hg. unfold forward_client. set (w1 := record _ _ _ _ w).
  assert (B1 : forall P, book w P -> book w1 P) by (intros; by apply book_record_call).
  pose proof (fun P => book_consume_call ref c (len (f_payload f)) w1 P (len_nonneg _)) as B2.
  destruct (consume ref c _ w1) as [[] w2]; cbn [negb fst snd] in *; [|apply books_world; auto].
  pose proof (book_bridge (s_worker (session c)) f w2) as B3.
  destruct (send_worker_link_frame _ f w2) as [[] w3]; cbn [negb fst snd] in *.
  2: { apply books_world; [done|done|]. intros P HP. apply book_close. auto. }
  set (ch' := MkChannel _ _ _ _ _ _). set (c1 := set_channels c _).
  assert (B4 : books c w c1 (record c1 (bandwidth ch') false (len (f_bytes f)) w3)).
  { apply books_world; [done|done|]. intros P HP. apply book_record_call. auto. }
  destruct (is_close _); [|done]. eapply books_trans; [exact B4|]. apply release_books.
  by apply (channels_ok_update c id ch ch'); [..|apply Hok].
Qed.

Lemma forward_worker_books ref id ch f c w :
  conn_ok c -> books c w (forward_worker ref id ch f c w).1 (forward_worker ref id ch f c w).2.
Proof.
  intros Hok. unfold forward_worker. set (w1 := record _ _ _ _ w).
  assert (B1 : forall P, book w P -> book w1 P) by (intros; by apply book_record_call).
  pose proof (fun P => book_consume_call ref c (len (f_payload f)) w1 P (len_nonneg _)) as B2.
  destruct (consume ref c _ w1) as [[] w2]; cbn [negb fst snd] in *; [|apply books_world; auto].
  pose proof (send_or_queue_books ref (lane (f_header f)) (bandwidth ch) f c w2) as B3.
  pose proof (steady_send_or_queue ref (lane (f_header f)) (bandwidth ch) f c w2) as [_ _ S3].
  destruct (send_or_queue _ _ _ f c w2) as [taken [c1 w3]]. cbn [fst snd] in *.
  assert (B4 : books c w c1 w3) by (eapply books_trans; [apply (books_world c c w w2)|]; auto).
  destruct (taken && _); [|done]. eapply books_trans; [exact B4|]. apply release_books. by apply S3.
Qed.

Lemma drop_all_books pt (l : list Surface) : forall w R,
  book w ((pair pt <$> omap s_permit l) ++ R) -> book (fold_left (fun w s => drop_surface s w) l w) R.
Proof.
  induction l as [|s l IH]; intros w R Hb; [done|]. cbn [fold_left]. apply IH, (book_drop_surface pt).
  simpl in Hb. by destruct (s_permit s).
Qed.

Lemma close_all_books worker (l : list Channel) : forall w P,
  book w P -> book (fold_left (fun w ch => close_channel worker ch w) l w) P.
Proof.
  induction l as [|ch l IH]; intros w P Hb; [done|]. cbn [fold_left]. apply IH. unfold close_channel.
  destruct (_ <? _); [done|]. destruct (WorkerLinkFrame.create _ _); [done|by apply book_bridge].
Qed.

(** *** The book of the whole relay *)
Definition accounted (y : Sys) : Prop := book y.1 (all_held (heap y.2)).

Lemma all_held_fresh h ref c : h !! ref = None -> all_held (<[ref := c]> h) ≡ₚ held c ++ all_held h.
Proof. intros Hn. unfold all_held. by rewrite map_to_list_insert. Qed.

Lemma all_held_update h ref c c' : h !! ref = Some c ->
  exists R, all_held h ≡ₚ held c ++ R /\ all_held (<[ref := c']> h) ≡ₚ held c' ++ R.
Proof.
  intros Hc. exists (all_held (delete ref h)). split.
  - rewrite <- (insert_delete_id h ref c Hc) at 1. apply all_held_fresh, lookup_delete_eq.
  - rewrite <- insert_delete_eq. apply all_held_fresh, lookup_delete_eq.
Qed.

Lemma accounted_write ref c c' y w' :
  accounted y -> heap y.2 !! ref = Some c -> books c y.1 c' w' ->
  book w' (all_held (<[ref := c']> (heap y.2))).
Proof.
  intros Ha Hc Hb. destruct (all_held_update _ ref c c' Hc) as (R & H1 & H2).
  eapply (book_perm w'); [symmetry; exact H2|]. apply Hb. eapply (book_perm y.1); [exact H1|exact Ha].
Qed.

Lemma accounted_close ref code reason y : accounted y -> accounted (close ref code reason y).
Proof. intros Ha. by apply book_close. Qed.

Lemma accounted_retire ref y : accounted y -> accounted (retire ref y).
Proof.
  intros Ha. unfold retire. destruct (heap y.2 !! ref) as [c|] eqn:Hc; [|done]. destruct (closed c); [done|].
  set (w1 := if bindings c then _ else _).
  assert (B1 : forall P, book y.1 P -> book w1 P).
  { intros P HP. unfold w1. destruct (bindings c); [by apply book_subscribe|done]. }
  eapply (accounted_write ref c (retired c) y); [done|done|]. intros R HR.
  apply close_all_books, (drop_all_books (party c)). by apply B1.
Qed.

Lemma accounted_attach sess y : inv y.2 -> accounted y -> accounted (attach sess y).2.
Proof.
  intros I Ha. unfold attach. destruct (_ || _); [by apply book_close|]. simpl.
  set (w1 := match IndexMap.get _ _ with Some _ => _ | None => _ end).
  assert (Hw1 : book w1 (all_held (heap y.2))) by (unfold w1; destruct (IndexMap.get _ _); [by apply book_close|done]).
  unfold accounted. simpl. eapply book_perm; [symmetry; apply all_held_fresh|by apply book_subscribe].
  destruct (heap y.2 !! next_ref y.2) eqn:Hn; [|done]. apply (inv_fresh _ I) in Hn. lia.
Qed.

Lemma accounted_revoke P reason y : accounted y -> accounted (revoke_where P reason y).
Proof.
  unfold revoke_where. generalize (IndexMap.values (connections y.2)). intros l. revert y.
  induction l as [|r l IH]; intros y Ha; [done|]. simpl. apply IH.
  destruct (heap y.2 !! r); [|done]. destruct (P _); [by apply accounted_close|done].
Qed.

Lemma accounted_shut_down l : forall y, accounted y -> accounted (shut_down l y).
Proof.
  induction l as [|r l IH]; intros y Ha; [done|]. cbn [shut_down fold_left].
  by apply IH, accounted_retire, accounted_close.
Qed.

Lemma advance_books id n c w : books c w (advance_worker id n c) w.
Proof. unfold advance_worker. destruct (IndexMap.get id (channels c)), (IndexMap.get id (closing c)); by apply books_world. Qed.
Lemma deliver_books id n c w : books c w (deliver id n c) w.
Proof. unfold deliver. destruct (IndexMap.get id (channels c)); by apply books_world. Qed.

Lemma section_books ref p q : section ref p q -> conn_ok p.1 -> books p.1 p.2 q.1 q.2.
Proof.
  intros Hs Hok. destruct Hs; cbn [fst snd] in *; try (by apply books_world).
  - apply client_channel_books.
  - apply deliver_books.
  - apply release_books, Hok.
  - apply advance_books.
  - destruct (enqueue_fields l (MkQueued bw f) (now w) c) as (? & ? & ? & ? & ?). by apply books_world.
  - destruct (dequeue_surfaces _ _ _ _ H0). by apply books_world.
  - destruct (schedule_fields c) as (? & ? & ? & ? & ? & ? & ? & ?). by apply books_world.
  - apply books_world; [done|done|]. intros P. apply book_record_call.
  - apply books_world; [done|done|]. intros P. by apply book_consume_call.
  - apply books_world; [done|done|]. apply book_bridge.
  - apply books_world; [done|done|]. intros P. apply book_send_now.
  - apply books_world; [done|done|]. apply book_close.
Qed.

Lemma accounted_fine E y y' :
  (forall w w' P, E w w' -> book w P -> book w' P) ->
  inv y.2 -> accounted y -> fine_step E y y' -> accounted y'.
Proof.
  intros HE I Ha Hst. destruct Hst as [ref c c' w' y Hc Hsec| | | | | | | |].
  - apply (accounted_write ref c c' y w'); [done|done|]. exact (section_books ref _ _ Hsec (inv_conn _ I _ _ Hc)).
  - by apply accounted_close.
  - by apply accounted_attach.
  - by apply accounted_retire.
  - unfold revoke_session. destruct (IndexMap.get _ _); [by apply accounted_close|done].
  - by apply accounted_revoke.
  - by apply accounted_revoke.
  - unfold close_relay. destruct (r_closed y.2); [done|]. by apply accounted_shut_down.
  - by eapply HE.
Qed.

(** What the book says in every state the sections reach. *)
Lemma reachable_accounted E w y :
  (forall w w' P, E w w' -> book w P -> book w' P) ->
  book w [] -> rtc (fine_step E) (w, new_state) y -> accounted y.
Proof.
  intros HE H0 Hr. cut (accounted y /\ inv y.2 /\ shut y.2); [tauto|].
  apply (rtc_ind_r (fun y => accounted y /\ inv y.2 /\ shut y.2) (w, new_state)) in Hr; [done| |].
  - split; [exact H0|]. split; [apply inv_new_relay|done].
  - intros y1 y2 _ Hst (Ha & I & Hs). split; [by eapply accounted_fine|by eapply fine_inv].
Qed.
End permits.
End relay.

(** ** A concrete relay *)
Module Sample.

Definition header0 (n : Z) (k : Kind) : Header :=
  MkHeader 1 [115] 7 "relay" (MkIdentity [99] [49]) Interactive n k.
Definition open0 : Header := header0 0 (Open [103] Browser).

(** One letter stands for the open frame's JSON text. *)
#[export] Instance codec : HeaderCodec Header := {
  schema h := Some h;
  stringify _ := [x6f];
  parse_text b := if bool_decide (b = [x6f]) then Some open0 else None;
  is_data h := match kind h with Data => true | _ => false end;
  is_protected _ := false
}.

(** What was sent on which socket, the sockets that were closed, and whether
    the client is slow. *)
Record World := MkWorld { w_sent : list (nat * Frame Header); w_closed : list nat; w_full : bool }.

Definition open_socket (r : nat) (w : World) : bool := negb (bool_decide (r ∈ w_closed w)).

#[export] Instance ports : Ports (W := World) (Permit := unit) := {
  is_open := open_socket;
  buffered_amount _ w := if w_full w then MAX_BUFFERED + 1 else 0;
  send r f w := (true, MkWorld (w_sent w ++ [(r, f)]) (w_closed w) (w_full w));
  close_socket r _ _ w := MkWorld (w_sent w) (r :: w_closed w) (w_full w);
  send_worker_link_frame _ _ w := (true, w);
  subscribe _ _ w := w;
  unsubscribe _ _ w := w;
  acquire_remote_surface := Some (fun _ _ w => (Some tt, w));
  drop_permit _ w := w;
  consume_relay := None;
  record_port := None;
  now _ := 0
}.

Definition sent_on (r : nat) (w : World) : list (Frame Header) :=
  (filter (fun p : nat * Frame Header => p.1 = r) (w_sent w)).*2.

Lemma close_open r r' w : open_socket r (MkWorld (w_sent w) (r' :: w_closed w) (w_full w)) = true ->
  open_socket r w = true.
Proof.
  unfold open_socket. rewrite !negb_true_iff, !bool_decide_eq_false. simpl. set_solver.
Qed.

#[export] Instance laws : PortLaws (ports := ports).
Proof.
  refine {| sent := sent_on |}; simpl; intros; simplify_eq; try done.
  - split; [|done]. intros r. unfold sent_on. simpl. rewrite filter_app, fmap_app, filter_cons, filter_nil.
    simpl. destruct (decide (ref = r)) as [->|Hne]; [by rewrite decide_True|].
    rewrite decide_False by naive_solver. done.
  - split; [intros r; split; [done|apply close_open]|]. unfold open_socket. simpl.
    apply negb_false_iff, bool_decide_eq_true. set_solver.
Defined.

Definition session0 : Session := MkSession [115] 7 [111] [119] [97] true.
Definition opening : list byte := layout WorkerLinkFrame.MAGIC [x6f] [].
Definition accept0 : Frame Header := MkFrame (header0 0 Accept) [x01; x02] 2 2.
Definition data1 : Frame Header := MkFrame (header0 1 Data) [x01; x02; x03] 2 3.
Definition flag (b : bool) (w : World) : World := MkWorld (w_sent w) (w_closed w) b.

Definition start : World := MkWorld [] [] false.
Definition y1 := (attach session0 (start, new_state)).2.
Definition y2 := receive_client 0 opening true y1.
Definition y3 := (flag true y2.1, y2.2).
Definition y4 := receive_worker default_limits true 0 accept0 y3.
Definition y5 := receive_worker default_limits true 0 data1 y4.
Definition y6 := (flag false y5.1, y5.2).
Definition y7 := drain true 0 y6.

Lemma step_flag b y : step default_limits true benign y (flag b y.1, y.2).
Proof. destruct y as [w s]. apply step_world. by intros r. Qed.

Lemma sample_reach : reachable default_limits true benign y2 /\ reachable default_limits true benign y5 /\
  reachable default_limits true benign y6.
Proof.
  assert (R2 : reachable default_limits true benign y2).
  { exists start. eapply rtc_r; [eapply rtc_r; [apply rtc_refl|]|].
    - exact (step_attach _ _ _ session0 (start, new_state)).
    - exact (step_client _ _ _ 0 opening true y1). }
  assert (R5 : reachable default_limits true benign y5).
  { destruct R2 as [w R2]. exists w. eapply rtc_r; [eapply rtc_r; [eapply rtc_r; [exact R2|]|]|].
    - exact (step_flag true y2).
    - exact (step_worker _ _ _ 0 accept0 y3).
    - exact (step_worker _ _ _ 0 data1 y4). }
  split; [done|]. split; [done|]. destruct R5 as [w R5]. exists w. eapply rtc_r; [exact R5|].
  exact (step_flag false y5).
Qed.

Definition conn (y : World * State (Permit := unit)) : ConnectionState :=
  default (retired (MkConnection session0 true [] [] (fun _ => MkLane 0 []) [] 0 0 None false false false))
    (heap y.2 !! 0%nat).

(** The socket task retires the connection while the open frame is handled, before the
    channel is filed: the permit is taken for a connection that is retired. *)
Definition r1 := retire 0 y1.
Definition r2 := write 0 (client_channel (conn r1) open0 r1.1).2.1 ((client_channel (conn r1) open0 r1.1).2.2, r1.2).

Lemma race_reach : fine_reachable default_limits true benign r2.
Proof.
  exists start. eapply rtc_l; [exact (fine_attach default_limits true benign session0 (start, new_state))|]. fold y1.
  eapply rtc_l; [exact (fine_retire default_limits true benign 0 y1)|]. fold r1. apply rtc_once.
  refine (fine_section default_limits true benign 0 (conn r1) _ _ r1 _ _); [vm_compute; reflexivity|].
  pose proof (s_channel default_limits true 0 open0 (conn r1) r1.1) as H. rewrite <- surjective_pairing. exact H.
Qed.

Theorem retired_holds_permit : fine_reachable default_limits true benign r2 /\
  closed (conn r2) = true /\ connections r2.2 = [] /\ len (channels (conn r2)) = 1 /\
  s_permit <$> IndexMap.values (surfaces (conn r2)) = [Some tt].
Proof. split; [exact race_reach|]. vm_compute. done. Qed.

Lemma relay_invariant_witness :
  len (surfaces (conn r2)) = 1 /\ channels_ok (conn r2) /\ retire 0 r2 = r2.
Proof.
  split; [vm_compute; reflexivity|]. split; [|vm_compute; reflexivity].
  exact (proj1 (proj2 (relay_invariant default_limits true benign r2 0 (conn r2) race_reach ltac:(vm_compute; reflexivity)))).
Defined.

Definition channel0 : Channel := default (MkChannel "" 0 0 0 [] open0) (IndexMap.get [99] (channels (conn y5))).

Lemma worker_frames_in_order_witness :
  worker_sequence channel0 = 1 /\
  exists old new,
    filter (of_channel [99])
      (filter (fun f => lane (f_header f) = lane (header channel0)) (sent 0 y5.1) ++
       (q_frame <$> l_frames (lanes (conn y5) (lane (header channel0))))) = old ++ new /\
    (fun f => sequence (f_header f)) <$> new = [0; 1].
Proof.
  split; [vm_compute; reflexivity|].
  destruct (worker_frames_in_order default_limits true y5 0 (conn y5) [99] channel0 (proj1 (proj2 sample_reach))
    ltac:(vm_compute; reflexivity) ltac:(vm_compute; reflexivity) ltac:(vm_compute; reflexivity)
    ltac:(vm_compute; reflexivity)) as (old & new & H1 & H2 & _).
  exists old, new. split; [exact H1|]. rewrite H2. vm_compute. reflexivity.
Defined.

Lemma drain_complete_witness :
  length (w_sent y7.1) = 2%nat /\
  exists c', heap y7.2 !! 0%nat = Some c' /\
    (is_open 0 y7.1 = false \/
     ((forall l, l_frames (lanes c' l) = []) /\ bytes c' = 0 /\ frames c' = 0 /\ stalled_at c' = None) \/
     (MAX_BUFFERED < buffered_amount 0 y7.1 /\ drain_scheduled c' = true)).
Proof.
  split; [vm_compute; reflexivity|].
  exact (drain_complete default_limits true benign y6 0 (conn y6) (proj2 (proj2 sample_reach))
    ltac:(vm_compute; reflexivity) ltac:(vm_compute; reflexivity) ltac:(vm_compute; reflexivity)
    ltac:(vm_compute; congruence)).
Defined.
End Sample.

End Relay.
