(* ===== verification/RelaySystem.v ===== *)
(** * The WorkerLink service: the relay on the shared quotas

    [RelaySystem] models the composition in
    src/cantrip_server_rs/src/worker_links/service.rs: [with_coordination] hands
    the relay its ports (Remote Surface slots and relayed bytes come from the
    [RelayQuotas] that all transports share), [compose] subscribes the relay to
    revocations, [close] ends both. The sockets, the worker bridge and the usage
    meter are the environment [Outside].

    The quotas discharge [Relay.PermitBook], so that the slots they count are
    the permits the connections hold, in every state the two reach together. *)
From S2P Require Import Prelude Limits Quotas Frames Relay.
From stdpp Require Import base numbers gmap strings sorting list relations pretty.
From Stdlib Require Import Strings.Byte.
Open Scope Z_scope.

Module RelaySystem.
Import Text.

Section system.
Context {X : Type} `{codec : HeaderCodec Relay.Header}.

(** The bytes of an identifier, [Value::as_str]. *)
Context (name : text -> string) {name_inj : Inj (=) (=) name}.

(** What the composed service still calls. *)
Class Outside := {
  o_open : nat -> X -> bool;
  o_buffered : nat -> X -> Z;
  o_send : nat -> Frame Relay.Header -> X -> bool * X;
  o_close : nat -> Z -> string -> X -> X;
  o_worker : text -> Frame Relay.Header -> X -> bool * X;
  o_subscribe : nat -> text -> X -> X;
  o_unsubscribe : nat -> text -> X -> X;
  o_now : X -> Z;
  usage_alive : X -> bool;
  usage_record : string -> string -> bool -> Z -> Z -> bool -> X -> X
}.
Context {out : Outside}.

Record World := MkWorld { quotas : RelayQuotas.State; clock : Z; outside : X }.

Definition set_quotas (w : World) (q : RelayQuotas.State) : World := MkWorld q (clock w) (outside w).
Definition set_outside (w : World) (x : X) : World := MkWorld (quotas w) (clock w) x.

(** *** The ports [with_coordination] builds *)

Definition acquire_port (owner worker : text) (w : World) : option RelayQuotas.SurfacePermit * World :=
  match RelayQuotas.acquire_surface (quotas w) (name owner) (name worker) with
  | (inl p, q) => (Some p, set_quotas w q)
  | (inr _, q) => (None, set_quotas w q)
  end.

(** A panic of the charge would refuse the frame; [charge_never_panics] shows
    there is none. *)
Definition consume_port (owner worker : text) (n : Z) (w : World) : bool * World :=
  match RelayQuotas.consume_relay_at (quotas w) (name owner) (name worker) n (clock w) with
  | Returned (ok, q) => (ok, set_quotas w q)
  | Panicked => (false, w)
  end.

Definition usage_port (owner : text) (channel : string) (ingress : bool) (n : Z) (w : World) : World :=
  if usage_alive (outside w)
  then set_outside w (usage_record (name owner) channel ingress n 1 true (outside w))
  else w.

#[export] Instance system_ports : Relay.Ports (W := World) (Permit := RelayQuotas.SurfacePermit) := {
  is_open r w := o_open r (outside w);
  buffered_amount r w := o_buffered r (outside w);
  send r f w := let '(ok, x) := o_send r f (outside w) in (ok, set_outside w x);
  close_socket r code reason w := set_outside w (o_close r code reason (outside w));
  send_worker_link_frame k f w := let '(ok, x) := o_worker k f (outside w) in (ok, set_outside w x);
  subscribe r k w := set_outside w (o_subscribe r k (outside w));
  unsubscribe r k w := set_outside w (o_unsubscribe r k (outside w));
  acquire_remote_surface := Some acquire_port;
  drop_permit p w := set_quotas w (RelayQuotas.drop_permit (quotas w) p);
  consume_relay := Some consume_port;
  record_port := Some usage_port;
  now w := o_now (outside w)
}.

Context (limits : Relay.Lane -> Relay.Limit) (auto_drain : bool).
Abbreviation RelaySys := (Relay.Sys (W := World) (Permit := RelayQuotas.SurfacePermit)).

(** What the other users of the quotas, the clock and the environment do
    between two calls of the relay. *)
Inductive elsewhere : World -> World -> Prop :=
| el_relay w o k n at_ ok q : 0 <= n ->
    RelayQuotas.consume_relay_at (quotas w) o k n at_ = Returned (ok, q) -> elsewhere w (set_quotas w q)
| el_upload w o k n at_ r q :
    RelayQuotas.consume_upload_at (quotas w) o k n at_ = Returned (r, q) -> elsewhere w (set_quotas w q)
| el_time q t t' x : elsewhere (MkWorld q t x) (MkWorld q t' x)
| el_outside q t x x' : elsewhere (MkWorld q t x) (MkWorld q t x').

(** *** [compose] and [close] *)

Inductive Scope :=
| SessionScope (session : option text)
| AccountScope (account : text)
| OwnerScope (owner : text)
| OtherScope.

Record Service := MkService { relay : RelaySys; relay_revocations : bool }.

Definition compose (w : World) : Service := MkService (w, Relay.new_state) true.

(** The subscription of [compose]. *)
Definition on_revocation (scope : Scope) (s : Service) : Service :=
  if relay_revocations s then
    MkService
      match scope with
      | SessionScope (Some id) => Relay.revoke_session id "WorkerLink session ended" (relay s)
      | SessionScope None => relay s
      | AccountScope account => Relay.revoke_account account (relay s)
      | OwnerScope owner => Relay.revoke_owner owner (relay s)
      | OtherScope => relay s
      end true
  else s.

Definition close_service (s : Service) : Service := MkService (Relay.close_relay (relay s)) false.

(** The critical sections of the relay in any order, revocations and the shutdown. *)
Inductive service_step : Service -> Service -> Prop :=
| sv_relay s y : Relay.fine_step limits auto_drain elsewhere (relay s) y ->
    service_step s (MkService y (relay_revocations s))
| sv_revoked scope s : service_step s (on_revocation scope s)
| sv_close s : service_step s (close_service s).

Lemma service_step_relay s s' :
  service_step s s' -> rtc (Relay.fine_step limits auto_drain elsewhere) (relay s) (relay s').
Proof.
  destruct 1 as [s y Hy|scope s|s]; simpl.
  - by apply rtc_once.
  - unfold on_revocation. destruct (relay_revocations s); [|done].
    destruct scope as [[id|]|account|owner|]; simpl; try done; apply rtc_once; constructor.
  - apply rtc_once. constructor.
Qed.

Lemma service_relay s s' :
  rtc service_step s s' -> rtc (Relay.fine_step limits auto_drain elsewhere) (relay s) (relay s').
Proof. induction 1 as [|s1 s2 s3 H1 _ IH]; [done|]. etrans; [by apply service_step_relay|done]. Qed.

(** ** The quotas keep the relay's book *)
Section slots.
Context (asf wsf : Z).

Abbreviation held_permit := (text * text * RelayQuotas.SurfacePermit)%type.

Definition issued (h : held_permit) : Prop := h.2 = RelayQuotas.Permit (name h.1.1) (name h.1.2).

Record ledger (w : World) (P : list held_permit) : Prop := Ledger {
  lg_issued : Forall issued P;
  lg_permits : RelayQuotas.permits (quotas w) P.*2;
  lg_limits : RelayQuotas.surface_limits (quotas w) = (asf, wsf);
  lg_account : ByteWindow.sane (RelayQuotas.account_relay (quotas w));
  lg_worker : ByteWindow.sane (RelayQuotas.worker_relay (quotas w))
}.

Lemma charge_never_panics w P o k n at_ :
  ledger w P -> 0 <= n ->
  exists ok q, RelayQuotas.consume_relay_at (quotas w) o k n at_ = Returned (ok, q) /\
    ledger (set_quotas w q) P.
Proof.
  intros [L1 L2 L3 L4 L5] Hn.
  destruct (RelayQuotas.consume_relay_safe (quotas w) o k n at_ L4 L5 Hn) as (ok & q & E & Sa & Sw).
  exists ok, q. split; [exact E|].
  destruct (proj1 (RelayQuotas.byte_ops_surfaces (quotas w) o k n at_) _ _ E) as [Ea Ew].
  constructor; simpl; [done| | |done..].
  - destruct L2. split; by rewrite ?Ea, ?Ew.
  - rewrite <- L3. unfold RelayQuotas.surface_limits. by rewrite Ea, Ew.
Qed.

Lemma ledger_outside w x t P : ledger w P -> ledger (MkWorld (quotas w) t x) P.
Proof. by intros []; constructor. Qed.

Lemma ledger_upload w o k n at_ r q P :
  RelayQuotas.consume_upload_at (quotas w) o k n at_ = Returned (r, q) ->
  ledger w P -> ledger (set_quotas w q) P.
Proof.
  intros E [L1 L2 L3 L4 L5].
  destruct (proj2 (RelayQuotas.byte_ops_surfaces (quotas w) o k n at_) _ _ E) as [Ea Ew].
  assert (Er : RelayQuotas.account_relay q = RelayQuotas.account_relay (quotas w) /\
               RelayQuotas.worker_relay q = RelayQuotas.worker_relay (quotas w)).
  { unfold RelayQuotas.consume_upload_at, obind in E. hyp_cases; simplify_eq; done. }
  destruct Er as [Er1 Er2]. constructor; simpl; [done| | |by rewrite ?Er1, ?Er2..].
  - destruct L2. split; by rewrite ?Ea, ?Ew.
  - rewrite <- L3. unfold RelayQuotas.surface_limits. by rewrite Ea, Ew.
Qed.

Lemma ledger_acquire o k w P : ledger w P ->
  let '(p, w') := acquire_port o k w in ledger w' ((pair (o, k) <$> option_list p) ++ P).
Proof.
  intros [L1 L2 L3 L4 L5]. unfold acquire_port.
  pose proof (RelayQuotas.acquire_limits (quotas w) (name o) (name k)) as El.
  destruct (RelayQuotas.acquire_surface (quotas w) (name o) (name k)) as [r q] eqn:E. simpl in El.
  pose proof (RelayQuotas.acquire_permits _ _ _ _ _ _ L2 E) as Hp.
  assert (Hq : RelayQuotas.account_relay q = RelayQuotas.account_relay (quotas w) /\
               RelayQuotas.worker_relay q = RelayQuotas.worker_relay (quotas w) /\
               forall p, r = inl p -> p = RelayQuotas.Permit (name o) (name k)).
  { unfold RelayQuotas.acquire_surface in E. hyp_cases; simplify_eq; split_and!; intros; by simplify_eq. }
  destruct Hq as (Q1 & Q2 & Q3). destruct r as [p|e]; simpl in *; constructor; simpl; rewrite ?Q1, ?Q2; try done.
  - constructor; [exact (Q3 p eq_refl)|done].
  - by rewrite El.
  - by rewrite El.
Qed.

Lemma ledger_drop o k p w P :
  ledger w ((o, k, p) :: P) -> ledger (set_quotas w (RelayQuotas.drop_permit (quotas w) p)) P.
Proof.
  intros [L1 L2 L3 L4 L5]. constructor; simpl; try done.
  - by apply Forall_cons in L1 as [_ L1].
  - exact (RelayQuotas.drop_permits (quotas w) [] p P.*2 L2).
  - by rewrite RelayQuotas.drop_limits.
Qed.

#[export] Instance quota_book : Relay.PermitBook (ports := system_ports).
Proof.
  refine {| Relay.book := ledger |}; simpl.
  - intros w P Q HPQ [L1 L2 L3 L4 L5]. constructor; try done; [by rewrite <- HPQ|].
    eapply RelayQuotas.permits_perm; [|done]. by rewrite HPQ.
  - intros acquire o k w P [= <-]. apply ledger_acquire.
  - apply ledger_drop.
  - intros ref f w P. destruct (o_send _ _ _). apply ledger_outside.
  - intros. by apply ledger_outside.
  - intros k f w P. destruct (o_worker _ _ _). apply ledger_outside.
  - intros. split; by apply ledger_outside.
  - intros f o k n w P [= <-] Hn HP. unfold consume_port.
    destruct (charge_never_panics w P (name o) (name k) n (clock w) HP Hn) as (ok & q & -> & Hq). exact Hq.
  - intros f o ch b n w P [= <-] HP. unfold usage_port. destruct (usage_alive _); [by apply ledger_outside|done].
Defined.

Lemma ledger_elsewhere w w' P : elsewhere w w' -> ledger w P -> ledger w' P.
Proof.
  intros [w0 o k n at_ ok q Hn E|w0 o k n at_ r q E|q t t' x|q t x x'] HP.
  - destruct (charge_never_panics w0 P o k n at_ HP Hn) as (ok' & q' & E' & Hq). rewrite E in E'.
    by simplify_eq.
  - by eapply ledger_upload.
  - by apply (ledger_outside (MkWorld q t x)).
  - by apply (ledger_outside (MkWorld q t x)).
Qed.

Definition start (ar wr au wu t : Z) (x : X) : World :=
  MkWorld (RelayQuotas.with_limits ar wr au wu asf wsf) t x.

Lemma ledger_start ar wr au wu t x :
  0 <= asf -> 0 <= wsf -> 0 <= ar <= U64_MAX -> 0 <= wr <= U64_MAX -> ledger (start ar wr au wu t x) [].
Proof.
  intros. constructor; simpl; try done; try (by apply ByteWindow.sane_new).
Qed.

(** The permits the connections of the relay hold. *)
Definition live_slots (y : RelaySys) : list held_permit := Relay.all_held (Relay.heap y.2).

Lemma service_ledger ar wr au wu t x s :
  0 <= asf -> 0 <= wsf -> 0 <= ar <= U64_MAX -> 0 <= wr <= U64_MAX ->
  rtc service_step (compose (start ar wr au wu t x)) s -> ledger (relay s).1 (live_slots (relay s)).
Proof.
  intros H1 H2 H3 H4 Hr. apply service_relay in Hr.
  apply (Relay.reachable_accounted (permit_book := quota_book) limits auto_drain elsewhere _ (relay s)
    (fun w w' P => ledger_elsewhere w w' P)) in Hr; [exact Hr|]. by apply ledger_start.
Qed.

Lemma issued_count (f : RelayQuotas.SurfacePermit -> string) (g : held_permit -> text) P o :
  (forall h, issued h -> f h.2 = name (g h)) -> Forall issued P ->
  RelayQuotas.held_by f (name o) P.*2 = len (filter (fun h => g h = o) P).
Proof using name_inj.
  intros Hf. induction 1 as [|h P Hh _ IH]; [done|]. cbn [fmap list_fmap].
  rewrite RelayQuotas.held_by_cons, (Hf h Hh), filter_cons, IH.
  destruct (decide (g h = o)) as [<-|Hne]; [rewrite bool_decide_eq_true_2 by done; simpl; lia|].
  rewrite bool_decide_eq_false_2; [lia|]. by intros ?%(inj name).
Qed.

(** Retiring a connection gives back exactly what it held. *)
Lemma live_slots_retire (y : RelaySys) ref c : Relay.heap y.2 !! ref = Some c -> Relay.closed c = false ->
  live_slots y ≡ₚ Relay.held c ++ live_slots (Relay.retire ref y).
Proof.
  intros Hc Hcl. unfold live_slots. rewrite (Relay.retire_state ref y c Hc Hcl). simpl.
  destruct (Relay.all_held_update (Relay.heap y.2) ref c (Relay.retired c) Hc) as (R & H1 & H2). by rewrite H1, H2.
Qed.

(** C26: In every state the service reaches, in whatever order the critical sections
    of the relay come and with retirements between any two of them, the account and
    worker counters of the shared quotas are exactly the Remote Surface permits the
    connections of the relay hold for that owner and that worker, and they stay within
    the configured limits; retiring a connection gives back exactly the slots it held.
    A connection that was retired while a frame of it was handled may hold one until
    it is dropped ([Relay.Sample.retired_holds_permit]); it is counted. *)
Theorem surface_slots_exact (ar wr au wu t : Z) (x : X) (s : Service) :
  0 <= asf -> 0 <= wsf -> 0 <= ar <= U64_MAX -> 0 <= wr <= U64_MAX ->
  rtc service_step (compose (start ar wr au wu t x)) s ->
  let q := quotas (relay s).1 in
  (forall o, ActiveLimit.count (RelayQuotas.account_surfaces q) (name o) =
       len (filter (fun h => h.1.1 = o) (live_slots (relay s))) /\
     len (filter (fun h => h.1.1 = o) (live_slots (relay s))) <= asf) /\
  (forall k, ActiveLimit.count (RelayQuotas.worker_surfaces q) (name k) =
       len (filter (fun h => h.1.2 = k) (live_slots (relay s))) /\
     len (filter (fun h => h.1.2 = k) (live_slots (relay s))) <= wsf) /\
  forall ref c, Relay.heap (relay s).2 !! ref = Some c -> Relay.closed c = false ->
    let q' := quotas (Relay.retire ref (relay s)).1 in
    (forall o, ActiveLimit.count (RelayQuotas.account_surfaces q) (name o) =
       ActiveLimit.count (RelayQuotas.account_surfaces q') (name o) + len (filter (fun h => h.1.1 = o) (Relay.held c))) /\
    (forall k, ActiveLimit.count (RelayQuotas.worker_surfaces q) (name k) =
       ActiveLimit.count (RelayQuotas.worker_surfaces q') (name k) + len (filter (fun h => h.1.2 = k) (Relay.held c))).
Proof using name_inj.
  intros H1 H2 H3 H4 Hr q.
  assert (Hx : forall s, rtc service_step (compose (start ar wr au wu t x)) s ->
    (forall o, ActiveLimit.count (RelayQuotas.account_surfaces (quotas (relay s).1)) (name o) = len (filter (fun h => h.1.1 = o) (live_slots (relay s))) /\
       len (filter (fun h => h.1.1 = o) (live_slots (relay s))) <= asf) /\
    (forall k, ActiveLimit.count (RelayQuotas.worker_surfaces (quotas (relay s).1)) (name k) = len (filter (fun h => h.1.2 = k) (live_slots (relay s))) /\
       len (filter (fun h => h.1.2 = k) (live_slots (relay s))) <= wsf)).
  { clear s Hr q. intros s Hr. destruct (service_ledger ar wr au wu t x s H1 H2 H3 H4 Hr) as [L1 [Aw Ww Al Wl Pa Pw] L3 _ _].
    injection L3 as La Lw. split.
    - intros o. rewrite <- (issued_count RelayQuotas.p_owner) by (done || by intros h ->).
      rewrite <- Pa. split; [done|]. rewrite <- La. by apply ActiveLimit.count_bounds.
    - intros k. rewrite <- (issued_count RelayQuotas.p_worker) by (done || by intros h ->).
      rewrite <- Pw. split; [done|]. rewrite <- Lw. by apply ActiveLimit.count_bounds. }
  destruct (Hx s Hr) as [Ha Hw]. split; [exact Ha|]. split; [exact Hw|]. intros ref c Hc Hcl q'. unfold q, q'.
  destruct (Hx (MkService (Relay.retire ref (relay s)) (relay_revocations s))) as [Ha' Hw'];
    [eapply rtc_r; [exact Hr|]; apply sv_relay, Relay.fine_retire|]. cbn [relay] in Ha', Hw'.
  pose proof (live_slots_retire (relay s) ref c Hc Hcl) as Hp.
  split; [intros o; destruct (Ha o) as [-> _], (Ha' o) as [-> _]|intros k; destruct (Hw k) as [-> _], (Hw' k) as [-> _]];
    rewrite Hp, filter_app, length_app; lia.
Qed.
End slots.

(** ** Revocations reach the sockets *)

(** Sockets: only [o_send] adds to what one took, and a closed one stays closed. *)
Class OutsideLaws := {
  o_sent : nat -> X -> list (Frame Relay.Header);
  o_quiet (x x' : X) := forall r, o_sent r x' = o_sent r x /\ (o_open r x' = true -> o_open r x = true);
  o_send_sent : forall ref f x,
    let '(ok, x') := o_send ref f x in
    (forall r, o_sent r x' = o_sent r x ++ (if decide (ok = true /\ r = ref) then [f] else [])) /\
    (forall r, o_open r x' = true -> o_open r x = true);
  o_close_quiet : forall ref code reason x,
    o_quiet x (o_close ref code reason x) /\ o_open ref (o_close ref code reason x) = false;
  o_worker_quiet : forall k f x, o_quiet x (o_worker k f x).2;
  o_subscribe_quiet : forall ref k x, o_quiet x (o_subscribe ref k x) /\ o_quiet x (o_unsubscribe ref k x);
  o_usage_quiet : forall o ch b n m e x, o_quiet x (usage_record o ch b n m e x)
}.
Context {out_laws : OutsideLaws}.

#[export] Instance system_laws : Relay.PortLaws (ports := system_ports).
Proof using out_laws.
  refine {| Relay.sent r w := o_sent r (outside w) |}; simpl.
  - intros ref f w. pose proof (o_send_sent ref f (outside w)) as Hs. by destruct (o_send _ _ _).
  - intros ref code reason w. exact (o_close_quiet ref code reason (outside w)).
  - intros k f w. pose proof (o_worker_quiet k f (outside w)) as Hs. by destruct (o_worker _ _ _).
  - intros ref k w. exact (o_subscribe_quiet ref k (outside w)).
  - intros acquire o k w [= <-] r. unfold acquire_port. by destruct (RelayQuotas.acquire_surface _ _ _) as [[] ?].
  - by intros p w r.
  - intros f o k n w [= <-] r. unfold consume_port. by destruct (RelayQuotas.consume_relay_at _ _ _ _ _) as [[]|].
  - intros f o ch b n w [= <-]. unfold usage_port. destruct (usage_alive _); [|by intros r].
    exact (o_usage_quiet (name o) ch b n 1 true (outside w)).
Defined.

(** The sessions a revocation names. *)
Definition named (scope : Scope) (s : Relay.Session) : Prop :=
  match scope with
  | SessionScope (Some id) => Relay.s_id s = id
  | SessionScope None => False
  | AccountScope account => Relay.s_account s = account
  | OwnerScope owner => Relay.s_owner s = owner
  | OtherScope => False
  end.

(** While the service is up, delivering a revocation closes the socket of
    every attached connection whose session it names, and leaves the
    attachments for the sockets' own close events to retire. *)
Theorem revocation_closes_sockets (w : World) (s : Service) (scope : Scope) (k : text) (ref : nat)
    (c : Relay.ConnectionState) :
  rtc service_step (compose w) s -> relay_revocations s = true ->
  IndexMap.get k (Relay.connections (relay s).2) = Some ref ->
  Relay.heap (relay s).2 !! ref = Some c -> named scope (Relay.session c) ->
  o_open ref (outside (relay (on_revocation scope s)).1) = false /\
  (relay (on_revocation scope s)).2 = (relay s).2.
Proof using out_laws.
  intros Hr Hup Hk Hc Hn. unfold on_revocation. rewrite Hup. cbn [relay].
  destruct scope as [[id|]|account|owner|]; simpl in Hn; try done.
  - apply service_relay in Hr. assert (Hi : Relay.inv limits (relay s).2).
    { eapply Relay.fine_reachable_inv. by exists w. }
    destruct (Relay.inv_attached _ _ Hi k ref Hk) as (c' & Hc' & Hid & _). simplify_eq.
    unfold Relay.revoke_session. rewrite Hk. split; [|done].
    exact (proj2 (o_close_quiet ref 1008 "WorkerLink session ended" (outside (relay s).1))).
  - apply (Relay.revoke_where_closes (laws := system_laws) _ _ _ k ref c Hk Hc). by apply bool_decide_eq_true.
  - apply (Relay.revoke_where_closes (laws := system_laws) _ _ _ k ref c Hk Hc). by apply bool_decide_eq_true.
Qed.

End system.

(** ** A concrete service *)
Module Sample.
#[local] Existing Instance Relay.Sample.codec.

Definition name (t : text) : string := pretty (Npos (encode t)).

#[export] Instance name_inj : Inj (=) (=) name.
Proof. intros a b E. unfold name in E. apply (inj (pretty (A := N))) in E. apply (inj encode). congruence. Qed.

Abbreviation SW := Relay.Sample.World.

#[export] Instance sample_outside : Outside (X := SW) := {
  o_open := Relay.Sample.open_socket;
  o_buffered _ _ := 0;
  o_send r f x := (true, Relay.Sample.MkWorld (Relay.Sample.w_sent x ++ [(r, f)]) (Relay.Sample.w_closed x) (Relay.Sample.w_full x));
  o_close r _ _ x := Relay.Sample.MkWorld (Relay.Sample.w_sent x) (r :: Relay.Sample.w_closed x) (Relay.Sample.w_full x);
  o_worker _ _ x := (true, x);
  o_subscribe _ _ x := x;
  o_unsubscribe _ _ x := x;
  o_now _ := 0;
  usage_alive _ := true;
  usage_record _ _ _ _ _ _ x := x
}.

#[export] Instance sample_laws : OutsideLaws (out := sample_outside).
Proof.
  refine {| o_sent := Relay.Sample.sent_on |}; simpl; intros; try done.
  - exact (Relay.send_sent (PortLaws := Relay.Sample.laws) ref f x).
  - exact (Relay.close_benign (PortLaws := Relay.Sample.laws) ref code reason x).
Defined.

Definition w0 : World (X := SW) := start 1 2 1000 1000 0 0 5 Relay.Sample.start.
Abbreviation Srv := (Service (X := SW)).
Abbreviation srv_step := (service_step name Relay.default_limits true).
Definition s0 : Srv := compose w0.
Definition s1 : Srv := MkService (Relay.attach (ports := system_ports name) Relay.Sample.session0 (relay s0)).2 true.
Definition s2 : Srv := MkService (Relay.receive_client (ports := system_ports name) 0 Relay.Sample.opening true (relay s1)) true.

Lemma srv_run (s : Srv) y : rtc (Relay.fine_step (ports := system_ports name) Relay.default_limits true elsewhere) (relay s) y -> rtc srv_step s (MkService y (relay_revocations s)).
Proof.
  intros Hr. remember (relay s) as y0 eqn:E. revert s E. induction Hr as [y0|y0 y1 y2 Hs _ IH]; intros s ->; [by destruct s|].
  eapply rtc_l; [by apply (sv_relay name Relay.default_limits true s y1)|]. exact (IH (MkService y1 (relay_revocations s)) eq_refl).
Qed.

Lemma srv_reach : rtc srv_step s0 s2.
Proof.
  eapply rtc_l; [exact (sv_relay name Relay.default_limits true s0 _ (Relay.fine_attach _ _ _ Relay.Sample.session0 (relay s0)))|].
  exact (srv_run s1 _ (Relay.client_run (ports := system_ports name) Relay.default_limits true elsewhere 0 Relay.Sample.opening true (relay s1))).
Qed.

Lemma surface_slots_exact_witness :
  len (live_slots (relay s2)) = 1 /\
  ActiveLimit.count (RelayQuotas.account_surfaces (quotas (relay s2).1)) (name [111]) = 1.
Proof.
  split; [vm_compute; reflexivity|].
  destruct (surface_slots_exact name Relay.default_limits true 1 2 1000 1000 0 0 5 Relay.Sample.start s2)
    as [Ha _]; [lia|lia|vm_compute; split; congruence|vm_compute; split; congruence|exact srv_reach|].
  destruct (Ha [111]) as [E _]. rewrite E. vm_compute. reflexivity.
Defined.

Lemma revocation_closes_sockets_witness :
  o_open 0 (outside (relay s2).1) = true /\
  o_open 0 (outside (relay (on_revocation name (OwnerScope [111]) s2)).1) = false.
Proof.
  split; [vm_compute; reflexivity|].
  destruct (Relay.heap (relay s2).2 !! 0%nat) as [c|] eqn:E; [|vm_compute in E; discriminate E].
  apply (revocation_closes_sockets name Relay.default_limits true w0 s2 (OwnerScope [111]) [115] 0 c srv_reach);
    [reflexivity|vm_compute; reflexivity|exact E|]. vm_compute in E. injection E as <-. reflexivity.
Defined.
End Sample.
End RelaySystem.
