(* ===== verification/Calendar.v ===== *)
(** * The proleptic Gregorian calendar

    [Calendar] models [days], [utc_fields] and [utc_milliseconds] of
    src/cantrip_server_rs/src/wire/js_date.rs: the conversions between a count of milliseconds and a civil date, over the whole
    ECMAScript range. The reference calendar ([leap], [month_length], [valid])
    is the Gregorian rule; the closed formulas are proved to invert each other
    on it. *)
From S2P Require Import Prelude.
From stdpp Require Import base numbers list.
Open Scope Z_scope.

Module Calendar.

Definition DAY : Z := 86400000.
Definition DATE_LIMIT : Z := 8640000000000000.

(** [js_date::days]: days since 1970-01-01 of a date with month [1..12]. *)
Definition days (year month day : Z) : Z :=
  let year := year - (if month <=? 2 then 1 else 0) in
  let era := year / 400 in
  let part := year - era * 400 in
  let month := month + (if 2 <? month then -3 else 9) in
  era * 146097 + part * 365 + part / 4 - part / 100 + (153 * month + 2) / 5 + day - 1 - 719468.

(** The body of [js_date::utc_fields] on a day count. *)
Definition of_days (n : Z) : Z * Z * Z :=
  let shifted := n + 719468 in
  let era := shifted / 146097 in
  let day_of_era := shifted - era * 146097 in
  let year_of_era :=
    (day_of_era - day_of_era / 1460 + day_of_era / 36524 - day_of_era / 146096) / 365 in
  let year := year_of_era + era * 400 in
  let day_of_year := day_of_era - (365 * year_of_era + year_of_era / 4 - year_of_era / 100) in
  let march_month := (5 * day_of_year + 2) / 153 in
  let day := day_of_year - (153 * march_month + 2) / 5 + 1 in
  let month := march_month + (if march_month <? 10 then 3 else -9) in
  (year + (if month <=? 2 then 1 else 0), month, day).

#[global] Arguments days : simpl never.
#[global] Arguments of_days : simpl never.

(** [js_date::utc_fields]. *)
Definition utc_fields (value : Z) : option (Z * Z * Z) :=
  if DATE_LIMIT <? Z.abs value then None else Some (of_days (value / 86400000)).

(** [js_date::utc_milliseconds], [Date.UTC] with a zero-based month. *)
Definition utc_milliseconds (year month day : Z) : option Z :=
  let year := if (0 <=? year) && (year <=? 99) then year + 1900 else year in
  let year := year + month / 12 in
  let value := days year (month mod 12 + 1) day * 86400000 in
  if Z.abs value <=? DATE_LIMIT then Some value else None.

(** ** The reference calendar *)

Definition leap (y : Z) : bool := (y mod 4 =? 0) && (negb (y mod 100 =? 0) || (y mod 400 =? 0)).

Definition month_length (y m : Z) : Z :=
  if m =? 2 then if leap y then 29 else 28
  else if (m =? 4) || (m =? 6) || (m =? 9) || (m =? 11) then 30 else 31.

Definition valid (d : Z * Z * Z) : Prop :=
  let '(y, m, d) := d in 1 <= m <= 12 /\ 1 <= d <= month_length y m.

(** The day after. *)
Definition tomorrow (d : Z * Z * Z) : Z * Z * Z :=
  let '(y, m, d) := d in
  if d <? month_length y m then (y, m, d + 1)
  else if m <? 12 then (y, m + 1, 1) else (y + 1, 1, 1).

(** Case analysis on a month, and the constants of each case. *)
Ltac month_cases m :=
  let H := fresh in
  assert (H : m = 1 \/ m = 2 \/ m = 3 \/ m = 4 \/ m = 5 \/ m = 6 \/ m = 7 \/ m = 8 \/ m = 9 \/ m = 10 \/
              m = 11 \/ m = 12) by lia;
  destruct_or! H; subst m.
Ltac eval_Z t := let v := eval vm_compute in t in change t with v in *.

(** *** Years of an era: 400 years starting in March *)

Definition year_start (y : Z) : Z := 365 * y + y / 4 - y / 100.
Definition year_end (y : Z) : Z := if y =? 399 then 146097 else year_start (y + 1).
Definition year_of (doe : Z) : Z := (doe - doe / 1460 + doe / 36524 - doe / 146096) / 365.

Lemma quotient_lipschitz k a b : 0 < k -> a <= b -> b / k - a / k <= b - a.
Proof.
  intros Hk Hab. assert (b / k < a / k + (b - a) + 1); [|lia].
  apply Z.div_lt_upper_bound; [done|]. pose proof (Z.div_mod a k ltac:(lia)).
  pose proof (Z.mod_pos_bound a k Hk). nia.
Qed.

Lemma year_of_mono a b : 0 <= a <= b -> b < 146097 -> year_of a <= year_of b.
Proof.
  intros Hab Hb. unfold year_of. apply Z.div_le_mono; [lia|].
  pose proof (Z.div_le_mono a b 36524 ltac:(lia) ltac:(lia)).
  assert (b / 1460 + b / 146096 - (a / 1460 + a / 146096) <= b - a) as H0; [|lia].
  destruct (decide (b = 146096)) as [->|].
  - change (146096 / 1460) with 100. change (146096 / 146096) with 1.
    pose proof (Z.div_mod a 1460 ltac:(lia)). pose proof (Z.mod_pos_bound a 1460 ltac:(lia)).
    assert (0 <= a / 146096) by (apply Z.div_pos; lia).
    destruct (decide (a = 146096)) as [->|]; [vm_compute; congruence|].
    assert (a / 1460 < 101) by (apply Z.div_lt_upper_bound; lia).
    destruct (decide (a / 1460 = 100)); lia.
  - rewrite !(Z.div_small _ 146096) by lia. pose proof (quotient_lipschitz 1460 a b). lia.
Qed.

(** The formula is right at both ends of each of the 400 years. *)
Lemma year_of_ends y : 0 <= y < 400 ->
  year_of (year_start y) = y /\ year_of (year_end y - 1) = y.
Proof.
  intros Hy.
  assert (Hall : forallb (fun y => (year_of (year_start y) =? y) && (year_of (year_end y - 1) =? y))
                   (seqZ 0 400) = true) by (vm_compute; reflexivity).
  rewrite forallb_forall in Hall. specialize (Hall y). rewrite <- list_elem_of_In, elem_of_seqZ in Hall.
  specialize (Hall ltac:(lia)). reflect_bools. done.
Qed.

Lemma year_start_bounds y : 0 <= y < 400 -> 0 <= year_start y /\ year_start y < year_end y <= 146097.
Proof.
  intros Hy. unfold year_end, year_start. destruct (y =? 399) eqn:E; reflect_bools; [subst; vm_compute; split; [|split]; congruence|].
  Z.to_euclidean_division_equations. lia.
Qed.

Lemma year_exists doe : 0 <= doe < 146097 ->
  exists y, 0 <= y < 400 /\ year_start y <= doe < year_end y.
Proof.
  intros Hdoe.
  assert (Hn : forall n : nat, Z.of_nat n < 400 -> doe < year_end (Z.of_nat n) ->
    exists y, 0 <= y < 400 /\ year_start y <= doe < year_end y).
  { induction n as [|n IH]; intros Hn Hlt.
    - exists 0. change (year_start 0) with 0. change (Z.of_nat 0) with 0 in Hlt. lia.
    - destruct (decide (doe < year_end (Z.of_nat n))); [apply IH; [lia|done]|].
      exists (Z.of_nat (S n)). split; [lia|]. split; [|done].
      unfold year_end in *. replace (Z.of_nat n =? 399) with false in * by (symmetry; apply Z.eqb_neq; lia).
      replace (Z.of_nat (S n)) with (Z.of_nat n + 1) by lia. lia. }
  apply (Hn 399%nat); [lia|]. change (year_end (Z.of_nat 399)) with 146097. lia.
Qed.

(** [year_of] finds the year a day of the era belongs to. *)
Lemma year_of_spec doe : 0 <= doe < 146097 ->
  0 <= year_of doe < 400 /\ year_start (year_of doe) <= doe < year_end (year_of doe).
Proof.
  intros Hdoe. destruct (year_exists doe Hdoe) as (y & Hy & Hs).
  destruct (year_start_bounds y Hy). destruct (year_of_ends y Hy) as [E1 E2].
  pose proof (year_of_mono (year_start y) doe ltac:(lia) ltac:(lia)).
  pose proof (year_of_mono doe (year_end y - 1) ltac:(lia) ltac:(lia)).
  replace (year_of doe) with y by lia. lia.
Qed.

Lemma year_of_unique doe y : 0 <= y < 400 -> year_start y <= doe < year_end y -> year_of doe = y.
Proof.
  intros Hy Hs. destruct (year_start_bounds y Hy). destruct (year_of_ends y Hy) as [E1 E2].
  pose proof (year_of_mono (year_start y) doe ltac:(lia) ltac:(lia)).
  pose proof (year_of_mono doe (year_end y - 1) ltac:(lia) ltac:(lia)). lia.
Qed.

(** A March year has a leap day when the next civil year is leap. *)
Lemma year_length y era : 0 <= y < 400 ->
  year_end y - year_start y = 365 + if leap (y + era * 400 + 1) then 1 else 0.
Proof.
  intros Hy. unfold year_end, year_start, leap.
  destruct (y =? 399) eqn:E; reflect_bools.
  - subst. replace ((399 + era * 400 + 1) mod 4) with 0 by (Z.to_euclidean_division_equations; lia).
    replace ((399 + era * 400 + 1) mod 400) with 0 by (Z.to_euclidean_division_equations; lia).
    rewrite orb_true_r. reflexivity.
  - destruct ((y + era * 400 + 1) mod 4 =? 0) eqn:E4, ((y + era * 400 + 1) mod 100 =? 0) eqn:E100,
      ((y + era * 400 + 1) mod 400 =? 0) eqn:E400; reflect_bools; simpl;
      Z.to_euclidean_division_equations; lia.
Qed.

(** *** Months of a March year *)

Definition march_length (mp : Z) : Z :=
  if mp =? 11 then 29 else if (mp =? 1) || (mp =? 3) || (mp =? 6) || (mp =? 8) then 30 else 31.
Definition month_start (mp : Z) : Z := (153 * mp + 2) / 5.
Definition month_of (doy : Z) : Z := (5 * doy + 2) / 153.
Definition civil_month (mp : Z) : Z := mp + (if mp <? 10 then 3 else -9).
Definition march_month (m : Z) : Z := m + (if 2 <? m then -3 else 9).

Lemma month_of_spec doy : 0 <= doy < 366 ->
  0 <= month_of doy <= 11 /\
  1 <= doy - month_start (month_of doy) + 1 <= march_length (month_of doy) /\
  (month_of doy = 11 -> doy - month_start (month_of doy) + 1 = 29 -> doy = 365).
Proof.
  intros Hd.
  assert (Hall : forallb (fun doy => let mp := month_of doy in let d := doy - month_start mp + 1 in
      (0 <=? mp) && (mp <=? 11) && (1 <=? d) && (d <=? march_length mp) &&
      (negb (mp =? 11) || negb (d =? 29) || (doy =? 365))) (seqZ 0 366) = true) by (vm_compute; reflexivity).
  rewrite forallb_forall in Hall. specialize (Hall doy). rewrite <- list_elem_of_In, elem_of_seqZ in Hall.
  specialize (Hall ltac:(lia)). simpl in Hall. reflect_bools. split_and!; auto. intros E1 E2.
  rewrite E1, E2 in *. simpl in *. by reflect_bools.
Qed.

Lemma month_of_start mp d : 0 <= mp <= 11 -> 1 <= d <= march_length mp ->
  month_of (month_start mp + d - 1) = mp /\ 0 <= month_start mp + d - 1 < 366 /\
  (month_start mp + d - 1 = 365 -> mp = 11 /\ d = 29).
Proof.
  intros Hm Hd. assert (E : mp ∈ seqZ 0 12) by (apply elem_of_seqZ; lia).
  repeat (apply elem_of_cons in E as [->|E]; [unfold march_length, month_start, month_of in *; simpl in *;
    Z.to_euclidean_division_equations; lia|]). by apply elem_of_nil in E.
Qed.

Lemma month_length_march y mp : 0 <= mp <= 11 ->
  month_length (y + if civil_month mp <=? 2 then 1 else 0) (civil_month mp) =
    (if (mp =? 11) && negb (leap (y + 1)) then 28 else march_length mp) /\
  1 <= civil_month mp <= 12 /\ march_month (civil_month mp) = mp.
Proof.
  intros Hm. assert (E : mp ∈ seqZ 0 12) by (apply elem_of_seqZ; lia).
  repeat (apply elem_of_cons in E as [->|E];
    [split; [unfold month_length, march_length; simpl; by destruct (leap (y + 1))|split; [vm_compute; split; congruence|done]]|]).
  by apply elem_of_nil in E.
Qed.

Lemma march_month_range m : 1 <= m <= 12 -> 0 <= march_month m <= 11 /\ civil_month (march_month m) = m.
Proof.
  intros Hm. unfold civil_month, march_month. destruct (2 <? m) eqn:E; reflect_bools.
  - destruct (m + -3 <? 10) eqn:E2; reflect_bools; lia.
  - destruct (m + 9 <? 10) eqn:E2; reflect_bools; lia.
Qed.

(** ** The two conversions are inverse *)

Lemma of_days_valid n : valid (of_days n) /\ (let '(y, m, d) := of_days n in days y m d = n).
Proof.
  unfold of_days. set (era := (n + 719468) / 146097). set (doe := n + 719468 - era * 146097).
  assert (Hdoe : 0 <= doe < 146097) by (unfold doe, era; Z.to_euclidean_division_equations; lia).
  change ((doe - doe / 1460 + doe / 36524 - doe / 146096) / 365) with (year_of doe).
  destruct (year_of_spec doe Hdoe) as [Hy Hs]. set (y := year_of doe) in *.
  change (365 * y + y / 4 - y / 100) with (year_start y). set (doy := doe - year_start y).
  pose proof (year_length y era Hy) as Hlen. change (((5 * doy + 2) / 153)) with (month_of doy).
  assert (Hdoy : 0 <= doy < 365 + if leap (y + era * 400 + 1) then 1 else 0) by (unfold doy; lia).
  destruct (month_of_spec doy) as (Hmp & Hd & H29); [destruct (leap _); lia|]. set (mp := month_of doy) in *.
  change ((153 * mp + 2) / 5) with (month_start mp).
  change (mp + (if mp <? 10 then 3 else -9)) with (civil_month mp).
  destruct (month_length_march (y + era * 400) mp Hmp) as (El & Hc & Em). split.
  - split; [done|]. rewrite El. split; [lia|]. destruct (mp =? 11) eqn:E11; simpl; [|lia]. reflect_bools.
    specialize (H29 E11). assert (E29 : march_length mp = 29) by (by rewrite E11).
    destruct (leap _) eqn:El'; simpl; [lia|].
    destruct (decide (doy - month_start mp + 1 = 29)); [|lia]. specialize (H29 e). lia.
  - unfold days. change (civil_month mp + (if 2 <? civil_month mp then -3 else 9)) with (march_month (civil_month mp)).
    rewrite Em. replace (y + era * 400 + (if civil_month mp <=? 2 then 1 else 0)
      - (if civil_month mp <=? 2 then 1 else 0)) with (y + era * 400) by lia.
    replace ((y + era * 400) / 400) with era by (Z.to_euclidean_division_equations; lia).
    replace (y + era * 400 - era * 400) with y by lia. fold (month_start mp).
    replace (y * 365 + y / 4 - y / 100) with (year_start y) by (unfold year_start; lia).
    unfold doy, doe. unfold year_start. lia.
Qed.

(** [days] without eras. *)
Lemma days_linear y m d : 1 <= m <= 12 ->
  days y m d =
    let y := y - (if m <=? 2 then 1 else 0) in
    365 * y + y / 4 - y / 100 + y / 400 + month_start (march_month m) + d - 719469.
Proof.
  intros Hm. unfold days. set (y' := y - _). fold (march_month m). fold (month_start (march_month m)).
  cut (y' / 400 * 146097 + (y' - y' / 400 * 400) * 365 + (y' - y' / 400 * 400) / 4 - (y' - y' / 400 * 400) / 100 =
       365 * y' + y' / 4 - y' / 100 + y' / 400); [cbv zeta; lia|].
  replace ((y' - y' / 400 * 400) / 4) with (y' / 4 - y' / 400 * 100) by (Z.to_euclidean_division_equations; lia).
  replace ((y' - y' / 400 * 400) / 100) with (y' / 100 - y' / 400 * 4) by (Z.to_euclidean_division_equations; lia).
  lia.
Qed.

Lemma march_length_valid y m d : 1 <= m <= 12 -> 1 <= d <= month_length y m ->
  1 <= d <= march_length (march_month m) /\
  (march_month m = 11 -> d = 29 -> leap y = true).
Proof.
  intros Hm Hd. assert (E : m ∈ seqZ 1 12) by (apply elem_of_seqZ; lia).
  repeat (apply elem_of_cons in E as [->|E];
    [unfold march_length, march_month, month_length in *; simpl in *; destruct (leap y); split; try done; lia|]).
  by apply elem_of_nil in E.
Qed.

Lemma of_days_days y m d : valid (y, m, d) -> of_days (days y m d) = (y, m, d).
Proof.
  intros [Hm Hd]. destruct (march_month_range m Hm) as [Hmp Ec].
  destruct (march_length_valid y m d Hm Hd) as [Hd' Hleap].
  destruct (month_of_start (march_month m) d Hmp Hd') as (Emp & Hdoy & H365).
  assert (Hfeb : march_month m = 11 -> m = 2) by (unfold march_month; destruct (2 <? m) eqn:E; reflect_bools; lia).
  unfold days. set (y' := y - (if m <=? 2 then 1 else 0)). set (era := y' / 400). set (part := y' - era * 400).
  fold (march_month m). set (mp := march_month m) in *. fold (month_start mp). set (doy := month_start mp + d - 1) in *.
  assert (Hpart : 0 <= part < 400) by (unfold part, era; Z.to_euclidean_division_equations; lia).
  pose proof (year_length part era Hpart) as Hlen.
  assert (Hin : year_start part <= year_start part + doy < year_end part).
  { destruct (decide (doy = 365)); [|destruct (leap (part + era * 400 + 1)); lia]. destruct (H365 e) as [E11 E29].
    replace (part + era * 400 + 1) with y in Hlen; [rewrite (Hleap E11 E29) in Hlen; lia|].
    unfold part, y'. rewrite (proj2 (Z.leb_le m 2)) by (specialize (Hfeb E11); lia). lia. }
  pose proof (year_start_bounds part Hpart).
  replace (era * 146097 + part * 365 + part / 4 - part / 100 + month_start mp + d - 1 - 719468)
    with (era * 146097 + (year_start part + doy) - 719468) by (unfold doy, year_start; lia).
  unfold of_days. replace (era * 146097 + (year_start part + doy) - 719468 + 719468)
    with (era * 146097 + (year_start part + doy)) by lia.
  replace ((era * 146097 + (year_start part + doy)) / 146097) with era by (Z.to_euclidean_division_equations; lia).
  replace (era * 146097 + (year_start part + doy) - era * 146097) with (year_start part + doy) by lia.
  set (doe := year_start part + doy) in *.
  change ((doe - doe / 1460 + doe / 36524 - doe / 146096) / 365) with (year_of doe).
  rewrite (year_of_unique doe part Hpart Hin). change (365 * part + part / 4 - part / 100) with (year_start part).
  replace (doe - year_start part) with doy by (unfold doe; lia). change ((5 * doy + 2) / 153) with (month_of doy).
  rewrite Emp. fold (month_start mp). fold (civil_month mp). rewrite Ec.
  f_equal; [f_equal|]; unfold doy, part, y'; lia.
Qed.

(** Days of a civil year up to its end of February. *)
Lemma leap_days y :
  (365 * y + y / 4 - y / 100 + y / 400) -
  (365 * (y - 1) + (y - 1) / 4 - (y - 1) / 100 + (y - 1) / 400) = 365 + if leap y then 1 else 0.
Proof.
  unfold leap.
  destruct (y mod 4 =? 0) eqn:E4, (y mod 100 =? 0) eqn:E100, (y mod 400 =? 0) eqn:E400; reflect_bools; simpl;
    Z.to_euclidean_division_equations; lia.
Qed.

Ltac month_consts :=
  cbv zeta;
  repeat match goal with
  | |- context [month_start (march_month ?k)] => eval_Z (month_start (march_month k))
  | |- context [if ?a <=? ?b then 1 else 0] => eval_Z (if a <=? b then 1 else 0)
  | |- context [?a =? ?b] => eval_Z (a =? b)
  end; cbn [orb]; rewrite ?Z.sub_0_r.

(** Consecutive days. *)
Lemma days_tomorrow y m d : valid (y, m, d) ->
  valid (tomorrow (y, m, d)) /\ (let '(y', m', d') := tomorrow (y, m, d) in days y' m' d' = days y m d + 1).
Proof.
  intros [Hm Hd]. unfold tomorrow. destruct (d <? month_length y m) eqn:E; reflect_bools.
  { split; [simpl; lia|]. unfold days. lia. }
  assert (Hpos : forall y m, 28 <= month_length y m) by (intros y0 m0; unfold month_length; repeat case_match; lia).
  destruct (m <? 12) eqn:E12; reflect_bools.
  - split; [simpl; pose proof (Hpos y (m + 1)); lia|]. assert (Ed : d = month_length y m) by lia. subst d. clear E Hd.
    rewrite !days_linear by lia. unfold month_length. month_cases m; month_consts; try lia.
    pose proof (leap_days y). destruct (leap y); lia.
  - split; [simpl; pose proof (Hpos (y + 1) 1); lia|]. assert (m = 12) by lia. subst m.
    assert (d = 31) by (unfold month_length in *; simpl in *; lia). subst d.
    rewrite !days_linear by lia. month_consts. replace (y + 1 - 1) with y by lia. lia.
Qed.

(** *** Dates are ordered by their day counts *)

Lemma days_day y m d : days y m d = days y m 1 + (d - 1).
Proof. unfold days. lia. Qed.

Lemma month_length_range y m : 28 <= month_length y m <= 31.
Proof. unfold month_length. repeat case_match; lia. Qed.

Lemma days_next_month y m : 1 <= m <= 11 -> days y (m + 1) 1 = days y m 1 + month_length y m.
Proof.
  intros Hm. pose proof (month_length_range y m).
  destruct (days_tomorrow y m (month_length y m)) as [_ E]; [simpl; lia|]. unfold tomorrow in E.
  rewrite Z.ltb_irrefl, (proj2 (Z.ltb_lt m 12)) in E by lia. rewrite E, (days_day y m (month_length y m)). lia.
Qed.

Lemma days_next_year y : days (y + 1) 1 1 = days y 12 31 + 1.
Proof. destruct (days_tomorrow y 12 31) as [_ E]; [simpl; unfold month_length; simpl; lia|]. done. Qed.

Lemma days_month_lt y m d m' d' :
  1 <= m -> m < m' <= 12 -> d <= month_length y m -> 1 <= d' -> days y m d < days y m' d'.
Proof.
  intros Hm Hlt Hd Hd'. rewrite (days_day y m d), (days_day y m' d').
  assert (Hk : forall k : nat, m + 1 + Z.of_nat k <= 12 ->
    days y m 1 + month_length y m <= days y (m + 1 + Z.of_nat k) 1).
  { induction k as [|k IH]; intros Hk; [rewrite Z.add_0_r, days_next_month by lia; lia|].
    replace (m + 1 + Z.of_nat (S k)) with (m + 1 + Z.of_nat k + 1) by lia.
    rewrite days_next_month by lia. pose proof (month_length_range y (m + 1 + Z.of_nat k)). lia. }
  specialize (Hk (Z.to_nat (m' - m - 1))). rewrite Z2Nat.id in Hk by lia.
  replace (m + 1 + (m' - m - 1)) with m' in Hk by lia. lia.
Qed.

Lemma days_year_bounds y m d : valid (y, m, d) -> days y 1 1 <= days y m d < days (y + 1) 1 1.
Proof.
  intros [Hm Hd]. rewrite days_next_year. split.
  - destruct (decide (m = 1)) as [->|]; [rewrite (days_day y 1 d); lia|].
    pose proof (days_month_lt y 1 1 m d ltac:(lia) ltac:(lia)). pose proof (month_length_range y 1). lia.
  - destruct (decide (m = 12)) as [->|]; [unfold month_length in Hd; simpl in Hd; rewrite (days_day y 12 d), (days_day y 12 31); lia|].
    pose proof (days_month_lt y m d 12 31 ltac:(lia) ltac:(lia)). lia.
Qed.

Lemma days_year_mono y y' : y <= y' -> days y 1 1 <= days y' 1 1.
Proof.
  intros Hy. rewrite !days_linear by lia. month_consts. Z.to_euclidean_division_equations. lia.
Qed.

(** The order of dates, as the code compares fields. *)
Definition date_lt (a b : Z * Z * Z) : Prop :=
  let '(y, m, d) := a in let '(y', m', d') := b in
  y < y' \/ (y = y' /\ (m < m' \/ (m = m' /\ d < d'))).

Lemma days_lt y m d y' m' d' : valid (y, m, d) -> valid (y', m', d') ->
  date_lt (y, m, d) (y', m', d') -> days y m d < days y' m' d'.
Proof.
  intros Hv Hv' [Hy|[<- [Hm|[<- Hd]]]].
  - pose proof (days_year_bounds _ _ _ Hv). pose proof (days_year_bounds _ _ _ Hv').
    pose proof (days_year_mono (y + 1) y' ltac:(lia)). lia.
  - destruct Hv, Hv'. apply days_month_lt; lia.
  - rewrite (days_day y m d), (days_day y m d'). lia.
Qed.

(** ** The calendar of the code is the Gregorian calendar *)

(** The fields of every instant form a Gregorian date containing it, the
    fields of any instant of a valid date are that date, and [Date.UTC] of the
    date is its midnight: the two conversions are inverse over the whole range
    of instants. *)
Theorem civil_roundtrip :
  (forall v y m d, utc_fields v = Some (y, m, d) ->
     valid (y, m, d) /\ days y m d * DAY <= v < days y m d * DAY + DAY) /\
  (forall y m d r, valid (y, m, d) -> 0 <= r < DAY ->
     Z.abs (days y m d * DAY + r) <= DATE_LIMIT -> utc_fields (days y m d * DAY + r) = Some (y, m, d)) /\
  (forall y m d, valid (y, m, d) -> ~ 0 <= y <= 99 -> Z.abs (days y m d * DAY) <= DATE_LIMIT ->
     utc_milliseconds y (m - 1) d = Some (days y m d * DAY)).
Proof.
  split_and!.
  - intros v y m d. unfold utc_fields. case_match; [done|]. intros E%(inj Some).
    destruct (of_days_valid (v / 86400000)) as [Hv Hd]. rewrite E in Hv, Hd. split; [done|]. rewrite Hd.
    unfold DAY. Z.to_euclidean_division_equations. lia.
  - intros y m d r Hv Hr Hl. unfold utc_fields. rewrite (proj2 (Z.ltb_ge _ _)) by lia. f_equal.
    rewrite <- (of_days_days y m d Hv). f_equal. unfold DAY in *. Z.to_euclidean_division_equations. lia.
  - intros y m d [Hm Hd] Hy Hl. unfold utc_milliseconds.
    replace ((0 <=? y) && (y <=? 99)) with false by (destruct (0 <=? y) eqn:E1, (y <=? 99) eqn:E2; reflect_bools; simpl; lia || done).
    rewrite (Z.div_small (m - 1)), (Z.mod_small (m - 1)) by lia. replace (m - 1 + 1) with m by lia.
    rewrite Z.add_0_r. change 86400000 with DAY. by rewrite (proj2 (Z.leb_le _ _)).
Qed.

(** 29 February 2024 and the last millisecond of it. *)
Lemma civil_roundtrip_witness :
  days 2024 2 29 = 19782 /\ utc_fields (19782 * DAY + 86399999) = Some (2024, 2, 29) /\
  utc_milliseconds 2024 1 29 = Some (19782 * DAY).
Proof.
  destruct civil_roundtrip as (_ & H2 & H3). split; [reflexivity|]. split.
  - apply (H2 2024 2 29 86399999); vm_compute; intuition congruence.
  - apply (H3 2024 2 29); vm_compute; intuition congruence.
Defined.

(** Instant 0 is 1970-01-01, and the fields of the next day are the next
    Gregorian date, so that the closed formulas agree with counting days, leap
    years included. *)
Theorem calendar_counts_days (n : Z) :
  of_days 0 = (1970, 1, 1) /\ of_days (n + 1) = tomorrow (of_days n).
Proof.
  split; [reflexivity|]. destruct (of_days_valid n) as [Hv Hd].
  destruct (of_days n) as [[y m] d]. destruct (days_tomorrow y m d Hv) as [Hv' Hd'].
  destruct (tomorrow (y, m, d)) as [[y' m'] d']. rewrite <- Hd, <- Hd'. by apply of_days_days.
Qed.
End Calendar.
