(* ===== verification/JsDate.v ===== *)
(** * Date strings

    [JsDate] models the parser and the printer of date strings of
    src/cantrip_server_rs/src/wire/js_date.rs: the scanner of UTF-16 units into
    tokens, the strict ISO grammar ([iso]), the tolerant grammar it falls back
    to ([step], [loop]), and [iso_milliseconds]. The instant that the server's
    time zone gives to a civil time is a parameter ([resolve]). *)
From S2P Require Import Prelude Calendar.
From stdpp Require Import base numbers strings option list.
Open Scope Z_scope.

Module JsDate.
Import Text Calendar.

(** ** Tokens *)

Inductive Keyword := UnknownWord | MonthName | ZoneName | Separator | AmPm.
#[export] Instance keyword_eq_dec : EqDecision Keyword.
Proof. solve_decision. Defined.

Inductive Token :=
| Number (value size : Z)
| Symbol (unit : Z)
| Word (kind : Keyword) (value size : Z)
| Space
| Unknown
| End_.
#[export] Instance token_eq_dec : EqDecision Token.
Proof. solve_decision. Defined.

Definition fixed (n : Z) (t : Token) : option Z :=
  match t with Number value size => if size =? n then Some value else None | _ => None end.
Definition number (t : Token) : option Z :=
  match t with Number value _ => Some value | _ => None end.
Definition sign (t : Token) : option Z :=
  match t with Symbol u => if u =? 43 then Some 1 else if u =? 45 then Some (-1) else None | _ => None end.
Definition z (t : Token) : bool :=
  match t with Word ZoneName value size => (value =? 0) && (size =? 1) | _ => false end.

(** ** The scanner

    [input] and [position] are the units still to read; [current] is 0 at the
    end. *)

Definition current (s : list Z) : Z := match s with c :: _ => c | [] => 0 end.

Definition surrogate (c : Z) : bool := (0xd800 <=? c) && (c <=? 0xdfff).
Definition space (c : Z) : bool := negb (surrogate c) && whitespace c.
Definition word_space (c : Z) : bool :=
  space c && negb ((c =? 10) || (c =? 13) || (c =? 0x2028) || (c =? 0x2029)).

Fixpoint skip_zeros (s : list Z) : list Z :=
  match s with
  | c :: r => if c =? 48 then skip_zeros r else s
  | [] => []
  end.

Fixpoint read_digits (s : list Z) (value digits : Z) : Z * list Z :=
  match s with
  | c :: r => if is_digit c then read_digits r (if digits <? 9 then value * 10 + (c - 48) else value) (digits + 1) else (value, s)
  | [] => (value, [])
  end.

Definition scan_number (s : list Z) : Token * list Z :=
  let '(value, r) := read_digits (skip_zeros s) 0 0 in (Number value (len s - len r), r).

Definition word_unit (c : Z) : bool := (65 <=? c) && negb (word_space c).

Fixpoint read_word (s : list Z) : list Z * list Z :=
  match s with
  | c :: r => if word_unit c then let '(w, r) := read_word r in (c :: w, r) else ([], s)
  | [] => ([], [])
  end.

(** The first three units in lower case, padded with 0. *)
Definition pad3 (w : list Z) : list Z := take 3 (w ++ [0; 0; 0]).
Definition prefix (w : list Z) : list Z := pad3 (to_lower <$> take 3 w).

Definition MONTHS : list (string * Z) :=
  [("jan", 1); ("feb", 2); ("mar", 3); ("apr", 4); ("may", 5); ("jun", 6); ("jul", 7); ("aug", 8); ("sep", 9); ("oct", 10);
   ("nov", 11); ("dec", 12)]%string.
Definition WORDS : list (string * (Keyword * Z)) :=
  [("am", (AmPm, 0)); ("pm", (AmPm, 12)); ("ut", (ZoneName, 0)); ("utc", (ZoneName, 0)); ("z", (ZoneName, 0));
   ("gmt", (ZoneName, 0)); ("cdt", (ZoneName, -5)); ("cst", (ZoneName, -6)); ("edt", (ZoneName, -4)); ("est", (ZoneName, -5));
   ("mdt", (ZoneName, -6)); ("mst", (ZoneName, -7)); ("pdt", (ZoneName, -7)); ("pst", (ZoneName, -8)); ("t", (Separator, 0))]%string.

Definition lookup_word {A} (table : list (string * A)) (key : list Z) : option A :=
  snd <$> List.find (fun p => bool_decide (pad3 (lit p.1) = key)) table.

Definition keyword (w : list Z) : Token :=
  match lookup_word MONTHS (prefix w) with
  | Some month => Word MonthName month (len w)
  | None =>
      match (if len w <=? 3 then lookup_word WORDS (prefix w) else None) with
      | Some (kind, value) => Word kind value (len w)
      | None => Word UnknownWord 0 (len w)
      end
  end.

(** A parenthesis up to its match, or to the end. *)
Fixpoint skip_parens (balance : Z) (s : list Z) : list Z :=
  match s with
  | c :: r =>
      let balance := if c =? 40 then balance + 1 else if c =? 41 then balance - 1 else balance in
      if (balance =? 0) || (current r =? 0) then r else skip_parens balance r
  | [] => []
  end.

Definition is_symbol (c : Z) : bool := (c =? 58) || (c =? 45) || (c =? 43) || (c =? 46) || (c =? 41).

Definition scan (s : list Z) : Token * list Z :=
  let first := current s in
  if first =? 0 then (End_, s)
  else if is_digit first then scan_number s
  else if is_symbol first then (Symbol first, tail s)
  else if word_unit first then let '(w, r) := read_word s in (keyword w, r)
  else if space first then (Space, tail s)
  else if first =? 40 then (Unknown, skip_parens 0 s)
  else (Unknown, tail s).

Record Scanner := MkScanner { rest : list Z; next : Token }.

Definition new_scanner (input : list Z) : Scanner := let '(t, r) := scan input in MkScanner r t.
Definition take (s : Scanner) : Token * Scanner := (next s, new_scanner (rest s)).
Definition skip (symbol : Z) (s : Scanner) : bool * Scanner :=
  if decide (next s = Symbol symbol) then (true, (take s).2) else (false, s).

(** ** Composers *)

Record Day := MkDay { d_parts : list Z; d_month : option Z; d_iso : bool }.
Record Time := MkTime { t_parts : list Z; t_offset : option Z }.
Record Zone := MkZone { z_sign : option Z; z_hour : option Z; z_minute : option Z }.

Definition within (a b v : Z) : bool := (a <=? v) && (v <=? b).

Definition day_add (value : Z) (d : Day) : bool * Day :=
  if (length (d_parts d) =? 3)%nat then (false, d) else (true, MkDay (d_parts d ++ [value]) (d_month d) (d_iso d)).

(** The list with a default in place of the missing parts. *)
Definition padded (n : nat) (fill : Z) (parts : list Z) (i : nat) : Z :=
  default 0 ((parts ++ replicate (n - length parts) fill) !! i).

Definition day_fields (d : Day) : option (Z * Z * Z) :=
  if (length (d_parts d) =? 0)%nat then None
  else
    let f := padded 3 1 (d_parts d) in
    let '(year, month, day) :=
      match d_month d with
      | Some month => if negb (within 1 31 (f 0%nat)) then (f 0%nat, month, f 1%nat) else (f 1%nat, month, f 0%nat)
      | None =>
          if d_iso d || negb (within 1 31 (f 0%nat)) then (f 0%nat, f 1%nat, f 2%nat) else (f 2%nat, f 0%nat, f 1%nat)
      end in
    let year :=
      if negb (d_iso d) then
        if within 0 49 year then year + 2000 else if within 50 99 year then year + 1900 else year
      else year in
    if within 1 12 month && within 1 31 day then Some (year, month, day) else None.

Definition time_add (value : Z) (t : Time) : bool * Time :=
  if (length (t_parts t) =? 4)%nat then (false, t) else (true, MkTime (t_parts t ++ [value]) (t_offset t)).

Definition time_expecting (value : Z) (t : Time) : bool :=
  match length (t_parts t) with
  | 1%nat | 2%nat => within 0 59 value
  | 3%nat => within 0 999 value
  | _ => false
  end.

Definition time_finish (value : Z) (t : Time) : Time :=
  let '(added, t) := time_add value t in
  if (added : bool) then MkTime (t_parts t ++ replicate (4 - length (t_parts t)) 0) (t_offset t) else t.

Definition time_fields (t : Time) : option (Z * Z * Z * Z) :=
  let f := padded 4 0 (t_parts t) in
  hour ←
    match t_offset t with
    | Some offset => if negb (within 0 12 (f 0%nat)) then None else Some (Z.rem (f 0%nat) 12 + offset)
    | None => Some (f 0%nat)
    end;
  let '(minute, second, millis) := (f 1%nat, f 2%nat, f 3%nat) in
  if (within 0 23 hour && within 0 59 minute && within 0 59 second && within 0 999 millis)
     || ((hour =? 24) && (minute =? 0) && (second =? 0) && (millis =? 0))
  then Some (hour, minute, second, millis) else None.

Definition zone_set (offset : Z) : Zone := MkZone (Some (if offset <? 0 then -1 else 1)) (Some (Z.abs offset)) (Some 0).
Definition zone_utc (zn : Zone) : bool := bool_decide (z_hour zn = Some 0) && bool_decide (z_minute zn = Some 0).
Definition zone_expecting (value : Z) (zn : Zone) : bool :=
  bool_decide (is_Some (z_hour zn)) && negb (bool_decide (is_Some (z_minute zn))) && within 0 59 value.

Definition u32 (v : Z) : Z := v mod 2 ^ 32.

(** [None] is the failure; [Some None] means that no zone was named. *)
Definition zone_seconds (zn : Zone) : option (option Z) :=
  match z_sign zn with
  | None => Some None
  | Some sg =>
      let total := u32 (u32 (u32 (default 0 (z_hour zn)) * 3600) + u32 (u32 (default 0 (z_minute zn)) * 60)) in
      if total <=? 2 ^ 31 - 1 then Some (Some (total * sg)) else None
  end.

Definition milliseconds (value size : Z) : Z :=
  if size =? 1 then value * 100
  else if size =? 2 then value * 10
  else if size =? 3 then value
  else Z.quot value (10 ^ (Z.min size 9 - 3)).

(** ** The parser *)

Record Parser := MkParser { scanner : Scanner; day : Day; time : Time; zone : Zone }.

Definition peek (p : Parser) : Token := next (scanner p).
Definition take_token (p : Parser) : Token * Parser :=
  let '(t, s) := take (scanner p) in (t, MkParser s (day p) (time p) (zone p)).
Definition advance (p : Parser) : Parser := (take_token p).2.
Definition skip_symbol (symbol : Z) (p : Parser) : bool * Parser :=
  let '(b, s) := skip symbol (scanner p) in (b, MkParser s (day p) (time p) (zone p)).
Definition set_day (d : Day) (p : Parser) : Parser := MkParser (scanner p) d (time p) (zone p).
Definition set_time (t : Time) (p : Parser) : Parser := MkParser (scanner p) (day p) t (zone p).
Definition set_zone (zn : Zone) (p : Parser) : Parser := MkParser (scanner p) (day p) (time p) zn.
Definition add_day (value : Z) (p : Parser) : Parser := set_day (day_add value (day p)).2 p.
Definition add_time (value : Z) (p : Parser) : Parser := set_time (time_add value (time p)).2 p.

Definition filtered (P : Z -> bool) (v : option Z) : option Z :=
  n ← v; if P n then Some n else None.

(** *** The strict grammar: [None] is the error of [iso] *)

Definition iso_end (p : Parser) : Token * Parser :=
  let p :=
    if bool_decide (z_hour (zone p) = None) && (length (t_parts (time p)) =? 0)%nat then set_zone (zone_set 0) p else p in
  (End_, set_day (MkDay (d_parts (day p)) (d_month (day p)) true) p).

Definition iso_zone (p : Parser) : option Parser :=
  if z (peek p) then Some (set_zone (zone_set 0) (advance p))
  else
    match sign (peek p) with
    | None => Some p
    | Some sg =>
        let p := advance p in
        let p := set_zone (MkZone (Some sg) (z_hour (zone p)) (z_minute (zone p))) p in
        match fixed 4 (peek p) with
        | Some value =>
            let '(hour, minute) := (Z.quot value 100, Z.rem value 100) in
            if (23 <? hour) || (59 <? minute) then None
            else Some (set_zone (MkZone (Some sg) (Some hour) (Some minute)) (advance p))
        | None =>
            hour ← filtered (fun n => n <=? 23) (fixed 2 (peek p));
            let '(colon, p) := skip_symbol 58 (advance p) in
            if negb colon then None
            else
              minute ← filtered (fun n => n <=? 59) (fixed 2 (peek p));
              Some (set_zone (MkZone (Some sg) (Some hour) (Some minute)) (advance p))
        end
    end.

Definition iso_seconds (hour : Z) (p : Parser) : option Parser :=
  let '(colon, p) := skip_symbol 58 p in
  if negb colon then Some p
  else
    second ← filtered (fun n => within 0 59 n && (negb (hour =? 24) || (n =? 0))) (fixed 2 (peek p));
    let p := advance (add_time second p) in
    let '(dot, p) := skip_symbol 46 p in
    if negb dot then Some p
    else
      _ ← filtered (fun n => negb (hour =? 24) || (n =? 0)) (number (peek p));
      match take_token p with
      | (Number value size, p) => Some (add_time (milliseconds value size) p)
      | _ => None
      end.

Definition iso_time (p : Parser) : option (Token * Parser) :=
  match peek p with
  | Word Separator _ _ =>
      let p := advance p in
      hour ← filtered (within 0 24) (fixed 2 (peek p));
      let p := advance (add_time hour p) in
      let '(colon, p) := skip_symbol 58 p in
      if negb colon then None
      else
        minute ← filtered (fun n => within 0 59 n && (negb (hour =? 24) || (n =? 0))) (fixed 2 (peek p));
        let p := advance (add_time minute p) in
        p ← iso_seconds hour p;
        p ← iso_zone p;
        if decide (peek p = End_) then Some (iso_end p) else None
  | t => if decide (t = End_) then Some (iso_end p) else Some (take_token p)
  end.

Definition iso_month (p : Parser) : option (Token * Parser) :=
  let '(dash, p) := skip_symbol 45 p in
  if negb dash then iso_time p
  else
    match filtered (within 1 12) (fixed 2 (peek p)) with
    | None => Some (take_token p)
    | Some month =>
        let p := advance (add_day month p) in
        let '(dash, p) := skip_symbol 45 p in
        if negb dash then iso_time p
        else
          match filtered (within 1 31) (fixed 2 (peek p)) with
          | None => Some (take_token p)
          | Some date => iso_time (advance (add_day date p))
          end
    end.

Definition iso (p : Parser) : option (Token * Parser) :=
  match sign (peek p) with
  | Some sg =>
      let '(sign_token, p) := take_token p in
      match fixed 6 (peek p) with
      | None => Some (sign_token, p)
      | Some year =>
          let p := advance p in
          if (sg <? 0) && (year =? 0) then Some (sign_token, p) else iso_month (add_day (sg * year) p)
      end
  | None =>
      match fixed 4 (peek p) with
      | Some year => iso_month (advance (add_day year p))
      | None => Some (take_token p)
      end
  end.

(** *** The tolerant grammar: one token, [None] ends the parse without a date *)

Definition step_number (value : Z) (p : Parser) : option Parser :=
  let '(colon, p) := skip_symbol 58 p in
  if (colon : bool) then
    let '(colon, p) := skip_symbol 58 p in
    if (colon : bool) then
      if negb (length (t_parts (time p)) =? 0)%nat then None else Some (add_time 0 (add_time value p))
    else
      let '(added, t) := time_add value (time p) in
      if negb added then None else Some (skip_symbol 46 (set_time t p)).2
  else
    let '(dot, p) := skip_symbol 46 p in
    if dot && time_expecting value (time p) then
      let p := add_time value p in
      match take_token p with
      | (Number n size, p) => Some (set_time (time_finish (milliseconds n size) (time p)) p)
      | _ => None
      end
    else if zone_expecting value (zone p) then
      Some (set_zone (MkZone (z_sign (zone p)) (z_hour (zone p)) (Some value)) p)
    else if time_expecting value (time p) then
      let p := set_time (time_finish value (time p)) p in
      if bool_decide (peek p = End_) || bool_decide (peek p = Space) || z (peek p) || bool_decide (is_Some (sign (peek p)))
      then Some p else None
    else
      let '(added, d) := day_add value (day p) in
      if negb added then None else Some (skip_symbol 45 (set_day d p)).2.

Definition step_word (kind : Keyword) (value : Z) (has_number : bool) (p : Parser) : option Parser :=
  if bool_decide (kind = AmPm) && negb (length (t_parts (time p)) =? 0)%nat then
    Some (set_time (MkTime (t_parts (time p)) (Some value)) p)
  else if bool_decide (kind = MonthName) then
    Some (skip_symbol 45 (set_day (MkDay (d_parts (day p)) (Some value) (d_iso (day p))) p)).2
  else if bool_decide (kind = ZoneName) && has_number then Some (set_zone (zone_set value) p)
  else if has_number || bool_decide (is_Some (number (peek p))) then None
  else Some p.

Definition step_sign (sg : Z) (p : Parser) : option Parser :=
  let '(n, size, p) :=
    match peek p with Number n size => (n, size, advance p) | _ => (0, 0, p) end in
  let zone_of h m := Some (set_zone (MkZone (Some sg) h m) p) in
  if decide (peek p = Symbol 58) then zone_of (Some n) None
  else if (size =? 1) || (size =? 2) then zone_of (Some n) (Some 0)
  else if (size =? 3) || (size =? 4) then zone_of (Some (Z.quot n 100)) (Some (Z.rem n 100))
  else None.

Definition step (token : Token) (has_number : bool) (p : Parser) : option (bool * Parser) :=
  match token with
  | Number value _ => p ← step_number value p; Some (true, p)
  | Word kind value _ => p ← step_word kind value has_number p; Some (has_number, p)
  | _ =>
      match sign token with
      | Some sg =>
          if zone_utc (zone p) || negb (length (t_parts (time p)) =? 0)%nat then p ← step_sign sg p; Some (true, p)
          else if has_number then None else Some (has_number, p)
      | None => if has_number && bool_decide (token = Symbol 41) then None else Some (has_number, p)
      end
  end.

(** The loop: the outer [None] is the fuel running out, which [loop_ends]
    excludes. *)
Fixpoint loop (fuel : nat) (token : Token) (has_number : bool) (p : Parser) : option (option Parser) :=
  match fuel with
  | O => None
  | S fuel =>
      if decide (token = End_) then Some (Some p)
      else
        match step token has_number p with
        | None => Some None
        | Some (has_number, p) => let '(token, p) := take_token p in loop fuel token has_number p
        end
  end.

Definition i64 (v : Z) : option Z := if (- 2 ^ 63 <=? v) && (v <? 2 ^ 63) then Some v else None.

Section environment.
(** The instant the server's zone gives a civil time, both in milliseconds. *)
Context (resolve : Z -> option Z).

Definition clock_of (c : Z * Z * Z * Z) : Z :=
  let '(hour, minute, second, millis) := c in hour * 3600000 + minute * 60000 + second * 1000 + millis.

Definition local (value year month day : Z) (clock : Z * Z * Z * Z) : option Z :=
  let lookup_year :=
    if 9998 <? year then year mod 400 + 2400 else if year <? -9998 then year mod 400 - 9600 else year in
  lookup_millis ← i64 (days lookup_year month day * 86400000 + clock_of clock);
  utc ← resolve lookup_millis;
  let offset := lookup_millis - utc in
  value ← i64 value;
  i64 (value - offset).

Definition finish (p : Parser) : option Z :=
  '(year, month, date) ← day_fields (day p);
  clock ← time_fields (time p);
  let value := days year month date * 86400000 + clock_of clock in
  seconds ← zone_seconds (zone p);
  value ←
    match seconds with
    | Some offset => i64 (value - offset * 1000)
    | None => local value year month date clock
    end;
  if Z.abs value <=? DATE_LIMIT then Some value else None.

Definition new_parser (input : list Z) : Parser :=
  MkParser (new_scanner input) (MkDay [] None false) (MkTime [] None) (MkZone None None None).

Definition parse (input : list Z) : option Z :=
  '(token, p) ← iso (new_parser input);
  p ← mjoin (loop (S (S (length input))) token (negb (length (d_parts (day p)) =? 0)%nat) p);
  finish p.
End environment.

(** ** Printing *)

Definition iso_year (year : Z) : text :=
  if within 0 9999 year then zero_padded 4 year
  else if year <? 0 then 45 :: zero_padded 6 (- year) else 43 :: zero_padded 6 year.

Definition iso_milliseconds (value : Z) : option text :=
  '(year, month, day) ← utc_fields value;
  let clock := value mod 86400000 in
  Some (iso_year year ++ 45 :: zero_padded 2 month ++ 45 :: zero_padded 2 day ++ 84 ::
    zero_padded 2 (clock / 3600000) ++ 58 :: zero_padded 2 (clock / 60000 mod 60) ++ 58 ::
    zero_padded 2 (clock / 1000 mod 60) ++ 46 :: zero_padded 3 (clock mod 1000) ++ [90]).

(** ** Every token consumes input *)

Lemma skip_zeros_length s : (length (skip_zeros s) <= length s)%nat.
Proof. induction s as [|c s IH]; [done|]. simpl. destruct (c =? 48); simpl; lia. Qed.

Lemma read_digits_length s : forall v d, (length (read_digits s v d).2 <= length s)%nat.
Proof.
  induction s as [|c s IH]; intros v d; [done|]. simpl. destruct (is_digit c); [|done].
  pose proof (IH (if d <? 9 then v * 10 + (c - 48) else v) (d + 1)). lia.
Qed.

Lemma scan_number_length s : is_digit (current s) = true -> (length (scan_number s).2 < length s)%nat.
Proof.
  destruct s as [|c s]; [done|]. simpl. intros Hc. unfold scan_number. simpl. destruct (c =? 48) eqn:E.
  - pose proof (read_digits_length (skip_zeros s) 0 0). pose proof (skip_zeros_length s).
    destruct (read_digits (skip_zeros s) 0 0) as [v r]. simpl in *. lia.
  - simpl. rewrite Hc. pose proof (read_digits_length s (0 * 10 + (c - 48)) (0 + 1)) as Hl.
    destruct (read_digits s (0 * 10 + (c - 48)) (0 + 1)) as [v r]. cbn [snd] in *. lia.
Qed.

Lemma read_word_length s : (length (read_word s).2 <= length s)%nat.
Proof.
  induction s as [|c s IH]; [done|]. simpl. destruct (word_unit c); [|done]. destruct (read_word s) as [w r]. simpl in *. lia.
Qed.

Lemma skip_parens_length s : forall b, (length (skip_parens b s) <= pred (length s))%nat.
Proof.
  induction s as [|c s IH]; intros b; [done|]. cbn [skip_parens length pred]. cbv zeta. case_match; [done|].
  etrans; [apply IH|lia].
Qed.

Lemma scan_progress s t r : scan s = (t, r) -> t = End_ \/ (length r < length s)%nat.
Proof.
  unfold scan. destruct (current s =? 0) eqn:E0; [by intros [= <- _]; left|]. destruct s as [|c s]; [done|]. simpl current in *.
  intros H. right. destruct (is_digit c) eqn:Ed.
  { pose proof (scan_number_length (c :: s) Ed) as Hl. rewrite H in Hl. done. }
  destruct (is_symbol c); [by injection H as _ <-; simpl; lia|].
  destruct (word_unit c) eqn:Ew.
  { simpl in H. rewrite Ew in H. pose proof (read_word_length s). destruct (read_word s) as [w r']. injection H as _ <-. simpl in *. lia. }
  destruct (space c); [by injection H as _ <-; simpl; lia|].
  destruct (c =? 40); [|by injection H as _ <-; simpl; lia].
  apply (f_equal snd) in H. pose proof (skip_parens_length (c :: s) 0) as Hl. change (skip_parens 0 (c :: s) = r) in H.
  rewrite H in Hl. cbn [length pred] in *. lia.
Qed.

Lemma scan_end s r : scan s = (End_, r) -> r = s /\ current s = 0.
Proof.
  unfold scan. destruct (current s =? 0) eqn:E0; [intros [= <-]; split; [done|lia]|]. intros H. exfalso. revert H.
  destruct (is_digit _); [unfold scan_number; by destruct (read_digits _ _ _)|]. destruct (is_symbol _); [done|].
  destruct (word_unit _); [|by repeat case_match].
  destruct (read_word s) as [w r']. unfold keyword. by repeat case_match.
Qed.

(** What is left to read: nothing once the end has been scanned. *)
Definition weight (p : Parser) : nat :=
  if decide (peek p = End_ /\ current (rest (scanner p)) = 0) then 0 else S (length (rest (scanner p))).

Lemma weight_scanned s d t zn : (weight (MkParser (new_scanner s) d t zn) <= length s)%nat.
Proof.
  unfold weight, peek, new_scanner. destruct (scan s) as [tk r] eqn:E. cbn [scanner next rest].
  destruct (decide _) as [|Hn]; [lia|]. destruct (scan_progress _ _ _ E) as [->|Hl]; [|lia].
  apply scan_end in E as [-> Hc]. by destruct Hn.
Qed.

Lemma advance_weight p : (weight (advance p) <= pred (weight p))%nat.
Proof.
  unfold advance, take_token, take. cbn [snd fst]. destruct (decide (weight p = 0%nat)) as [Hz|Hz].
  - unfold weight in Hz at 1. case_decide as Hd; [|done]. destruct Hd as [_ Hc].
    assert (E : scan (rest (scanner p)) = (End_, rest (scanner p))) by (unfold scan; by rewrite Hc).
    unfold weight at 1, peek, new_scanner. rewrite E. cbn [scanner next rest]. rewrite decide_True by done. lia.
  - etrans; [apply weight_scanned|]. unfold weight in *. case_decide; simpl; lia.
Qed.

Lemma take_token_eq p : take_token p = (peek p, advance p).
Proof. done. Qed.

Lemma skip_symbol_eq c p : skip_symbol c p = if decide (peek p = Symbol c) then (true, advance p) else (false, p).
Proof. unfold skip_symbol, skip, peek. case_decide; [done|]. by destruct p. Qed.

Lemma skip_weight c p : (weight (skip_symbol c p).2 <= weight p)%nat.
Proof. rewrite skip_symbol_eq. case_decide; simpl; [|done]. pose proof (advance_weight p). lia. Qed.

Lemma set_day_weight d p : weight (set_day d p) = weight p.
Proof. done. Qed.
Lemma set_time_weight t p : weight (set_time t p) = weight p.
Proof. done. Qed.
Lemma set_zone_weight zn p : weight (set_zone zn p) = weight p.
Proof. done. Qed.
Lemma add_day_weight v p : weight (add_day v p) = weight p.
Proof. done. Qed.
Lemma add_time_weight v p : weight (add_time v p) = weight p.
Proof. done. Qed.
Create Rewrite HintDb weight.
#[local] Hint Rewrite set_day_weight set_time_weight set_zone_weight add_day_weight add_time_weight : weight.

(** Bounds the weight of a parser built by the operations. *)
Ltac weigh :=
  cbn [snd] in *; autorewrite with weight in *;
  repeat match goal with
  | |- context [weight (advance ?p)] =>
      lazymatch goal with H : (weight (advance p) <= _)%nat |- _ => fail | _ => pose proof (advance_weight p); autorewrite with weight in * end
  | H : context [weight (advance ?p)] |- _ =>
      lazymatch goal with H : (weight (advance p) <= _)%nat |- _ => fail | _ => pose proof (advance_weight p); autorewrite with weight in * end
  end; lia.

(** Splits the next test of the parser call [H], drops the failing branches
    and keeps the weights of what is skipped. *)
Ltac next_branch H :=
  lazymatch type of H with
  | None = Some _ => discriminate H
  | Some _ = Some _ => apply (inj Some) in H
  | (_, _) = (_, _) => injection H as ? H
  | (_ ≫= _) = Some _ => let x := fresh "x" in let E := fresh "E" in apply bind_Some in H as (x & E & H)
  | context [skip_symbol ?c ?p] =>
      let b := fresh "b" in let q := fresh "q" in let W := fresh "W" in
      pose proof (skip_weight c p) as W; destruct (skip_symbol c p) as [b q]; cbn [snd] in W
  | context [take_token ?p] => rewrite (take_token_eq p) in H
  | context [match ?x with _ => _ end] => destruct x eqn:?
  end; cbv beta iota zeta in H.

Lemma iso_zone_weight p q : iso_zone p = Some q -> (weight q <= weight p)%nat.
Proof. unfold iso_zone. intros H. repeat next_branch H; subst; weigh. Qed.

Lemma iso_seconds_weight h p q : iso_seconds h p = Some q -> (weight q <= weight p)%nat.
Proof. unfold iso_seconds. intros H. repeat next_branch H; subst; weigh. Qed.

Lemma iso_end_weight p t q : iso_end p = (t, q) -> weight q = weight p.
Proof. unfold iso_end. by destruct (_ && _); intros [= _ <-]. Qed.

Lemma iso_time_weight p t q : iso_time p = Some (t, q) -> (weight q <= weight p)%nat.
Proof.
  assert (He : (if decide (peek p = End_) then Some (iso_end p) else Some (take_token p)) = Some (t, q) -> (weight q <= weight p)%nat).
  { intros H. case_decide; [apply (inj Some), iso_end_weight in H|rewrite take_token_eq in H; injection H as _ <-]; weigh. }
  unfold iso_time. intros H. destruct (peek p) as [| |[] ? ?| | |]; try exact (He H). clear He.
  repeat next_branch H. apply iso_end_weight in H.
  repeat match goal with E : iso_zone _ = Some _ |- _ => apply iso_zone_weight in E
    | E : iso_seconds _ _ = Some _ |- _ => apply iso_seconds_weight in E end. weigh.
Qed.

Lemma iso_month_weight p t q : iso_month p = Some (t, q) -> (weight q <= weight p)%nat.
Proof.
  unfold iso_month. intros H. repeat next_branch H; subst; try apply iso_time_weight in H; weigh.
Qed.

Lemma iso_weight p t q : iso p = Some (t, q) -> (weight q <= weight p)%nat.
Proof.
  unfold iso. intros H. repeat next_branch H; subst; try apply iso_month_weight in H; weigh.
Qed.

Lemma step_number_weight v p q : step_number v p = Some q -> (weight q <= weight p)%nat.
Proof. unfold step_number. intros H. repeat next_branch H; subst; weigh. Qed.

Lemma step_word_weight k v h p q : step_word k v h p = Some q -> (weight q <= weight p)%nat.
Proof. unfold step_word. intros H. repeat next_branch H; subst; weigh. Qed.

Lemma step_sign_weight sg p q : step_sign sg p = Some q -> (weight q <= weight p)%nat.
Proof. unfold step_sign. intros H. destruct (peek p); cbv beta iota zeta in H; repeat next_branch H; subst; weigh. Qed.

Lemma step_weight t h p h' q : step t h p = Some (h', q) -> (weight q <= weight p)%nat.
Proof.
  unfold step. intros H.
  repeat next_branch H; subst;
    repeat match goal with E : step_number _ _ = Some _ |- _ => apply step_number_weight in E
    | E : step_word _ _ _ _ = Some _ |- _ => apply step_word_weight in E
    | E : step_sign _ _ = Some _ |- _ => apply step_sign_weight in E end; weigh.
Qed.

Lemma loop_ends n : forall t h p, (weight p + 2 <= n)%nat -> exists r, loop n t h p = Some r.
Proof.
  induction n as [|n IH]; intros t h p Hn; [lia|]. cbn [loop]. case_decide; [eauto|].
  destruct (step t h p) as [[h' q]|] eqn:E; [|eauto]. apply step_weight in E. rewrite take_token_eq.
  destruct (decide (peek q = End_)) as [He|Hne].
  - rewrite He. destruct n as [|n]; [lia|]. cbn [loop]. rewrite decide_True by done. eauto.
  - apply IH. assert (weight q <> 0%nat) by (unfold weight; rewrite decide_False by tauto; lia).
    pose proof (advance_weight q). lia.
Qed.

(** The parser of date strings terminates on every input: the loop over
    the tokens reaches the end of the input or a failure before the bound of
    the model, which the length of the input gives, because every token but
    the last consumes some of it. *)
Theorem date_parse_terminates (input : list Z) :
  match iso (new_parser input) with
  | Some (t, p) => exists r, loop (S (S (length input))) t (negb (length (d_parts (day p)) =? 0)%nat) p = Some r
  | None => True
  end.
Proof.
  destruct (iso (new_parser input)) as [[t p]|] eqn:E; [|done]. apply iso_weight in E. apply loop_ends.
  pose proof (weight_scanned input (MkDay [] None false) (MkTime [] None) (MkZone None None None)) as Hw.
  unfold new_parser in E. lia.
Qed.

(** ** Scanning what is printed *)

Lemma read_digits_spec ds : forall v k r, numeral ds -> 0 <= k -> k + len ds <= 9 -> is_digit (current r) = false ->
  read_digits (ds ++ r) v k = (foldl (fun n c => n * 10 + (c - 48)) v ds, r).
Proof.
  induction ds as [|c ds IH]; intros v k r Hn Hk Hl Hr; simpl.
  - destruct r as [|c r]; [done|]. simpl in *. by rewrite Hr.
  - apply Forall_cons in Hn as [Hc Hn]. rewrite Hc. cbn [length] in Hl. rewrite (proj2 (Z.ltb_lt k 9)) by lia. apply IH; [done|lia|lia|done].
Qed.

Lemma digits_skip ds r : numeral ds -> len ds <= 9 -> is_digit (current r) = false ->
  read_digits (skip_zeros (ds ++ r)) 0 0 = (digits_value ds, r).
Proof.
  intros Hn Hl Hr. induction ds as [|c ds IH].
  - destruct r as [|c r]; [done|]. simpl in *. destruct (c =? 48) eqn:E; reflect_bools; [by subst|]. simpl. by rewrite Hr.
  - cbn [app skip_zeros]. destruct (c =? 48) eqn:E; reflect_bools.
    + subst c. apply Forall_cons in Hn as [_ Hn]. rewrite IH; [done|done|simpl in Hl; lia].
    + change (c :: ds ++ r) with ((c :: ds) ++ r). by rewrite read_digits_spec by (done || lia).
Qed.

Lemma scan_numeral ds r : numeral ds -> ds <> [] -> len ds <= 9 -> is_digit (current r) = false ->
  scan (ds ++ r) = (Number (digits_value ds) (len ds), r).
Proof.
  intros Hn Hne Hl Hr. destruct ds as [|c ds]; [done|]. unfold scan. cbn [app current].
  apply Forall_cons in Hn as [Hc Hn]. pose proof Hc as Hc'. unfold is_digit in Hc'. rewrite (proj2 (Z.eqb_neq c 0)) by (reflect_bools; lia).
  rewrite Hc. unfold scan_number. change (c :: ds ++ r) with ((c :: ds) ++ r).
  rewrite digits_skip by (done || by apply Forall_cons). f_equal. f_equal. rewrite length_app. lia.
Qed.

(** The parser at the start of a text. *)
Definition at_ (s : text) (d : Day) (t : Time) (zn : Zone) : Parser := MkParser (new_scanner s) d t zn.

Lemma at_scan s tk r : scan s = (tk, r) -> forall d t zn,
  peek (at_ s d t zn) = tk /\ advance (at_ s d t zn) = at_ r d t zn.
Proof. intros E d t zn. unfold at_, peek, advance, take_token, take, new_scanner. cbn [scanner]. rewrite E. done. Qed.

Lemma at_padded w n r : (1 <= w <= 9)%nat -> 0 <= n < 10 ^ Z.of_nat w -> is_digit (current r) = false -> forall d t zn,
  peek (at_ (zero_padded w n ++ r) d t zn) = Number n (Z.of_nat w) /\ advance (at_ (zero_padded w n ++ r) d t zn) = at_ r d t zn.
Proof.
  intros Hw Hn Hr d t zn. destruct (zero_padded_spec w n ltac:(lia) Hn) as (Hl & Hd & Hv). apply at_scan.
  rewrite scan_numeral; [by rewrite Hl, Hv|done| |rewrite Hl; lia|done]. intros E. rewrite E in Hl. simpl in Hl. lia.
Qed.

Lemma at_symbol c r d t zn : is_symbol c = true -> skip_symbol c (at_ (c :: r) d t zn) = (true, at_ r d t zn).
Proof.
  intros Hc. destruct (at_scan (c :: r) (Symbol c) r) with (d := d) (t := t) (zn := zn) as [E1 E2].
  { unfold scan. cbn [current tail]. unfold is_symbol in Hc. assert (c <> 0 /\ is_digit c = false) as [H0 Hd].
    { unfold is_digit. split; [intros ->; done|]. destruct (48 <=? c) eqn:?, (c <=? 57) eqn:?; reflect_bools; try done; lia. }
    rewrite (proj2 (Z.eqb_neq c 0) H0), Hd. unfold is_symbol. by rewrite Hc. }
  rewrite skip_symbol_eq, E1, E2. by rewrite decide_True.
Qed.

Lemma at_sign (negative : bool) r d t zn : let c := if negative then 45 else 43 in
  sign (peek (at_ (c :: r) d t zn)) = Some (if negative then -1 else 1) /\ z (peek (at_ (c :: r) d t zn)) = false /\
  advance (at_ (c :: r) d t zn) = at_ r d t zn.
Proof. by destruct negative. Qed.

Lemma current_padded w n r : (1 <= w <= 9)%nat -> 0 <= n < 10 ^ Z.of_nat w ->
  is_digit (current (zero_padded w n ++ r)) = true.
Proof.
  intros Hw Hn. destruct (zero_padded_spec w n ltac:(lia) Hn) as (Hl & Hd & _). destruct (zero_padded w n) as [|c ds].
  - simpl in Hl. lia.
  - by apply Forall_cons in Hd as [Hc _].
Qed.

Lemma at_separator r d t zn : is_digit (current r) = true ->
  peek (at_ (84 :: r) d t zn) = Word Separator 0 1 /\ advance (at_ (84 :: r) d t zn) = at_ r d t zn.
Proof.
  intros Hr. apply at_scan. unfold scan. cbn [current]. change (84 =? 0) with false. change (is_digit 84) with false.
  change (is_symbol 84) with false. change (word_unit 84) with true. cbv iota. cbn [read_word]. change (word_unit 84) with true. cbv iota.
  assert (E : read_word r = ([], r)).
  { destruct r as [|c r]; [done|]. cbn [current] in Hr. cbn [read_word]. unfold word_unit, is_digit in *. reflect_bools.
    by rewrite (proj2 (Z.leb_gt 65 c)) by lia. }
  rewrite E. reflexivity.
Qed.

(** ** Time stamps *)

Inductive ZoneText := Zulu | Offset (negative : bool) (hour minute : Z) | Unzoned.
Record Stamp := MkStamp { year : Z; month : Z; date : Z; hour : Z; minute : Z; second : Z; millis : Z; zone_text : ZoneText }.

Definition show_zone (zt : ZoneText) : text :=
  match zt with
  | Zulu => [90]
  | Offset negative h m => (if negative then 45 else 43) :: zero_padded 2 h ++ 58 :: zero_padded 2 m
  | Unzoned => []
  end.
Definition show_clock (c : Stamp) : text :=
  zero_padded 2 (hour c) ++ 58 :: zero_padded 2 (minute c) ++ 58 :: zero_padded 2 (second c) ++ 46 :: zero_padded 3 (millis c) ++
  show_zone (zone_text c).
Definition show_stamp (c : Stamp) : text :=
  iso_year (year c) ++ 45 :: zero_padded 2 (month c) ++ 45 :: zero_padded 2 (date c) ++ 84 :: show_clock c.

Definition zone_ok (zt : ZoneText) : Prop :=
  match zt with Offset _ h m => 0 <= h <= 23 /\ 0 <= m <= 59 | _ => True end.
Definition zone_of (zt : ZoneText) : Zone :=
  match zt with
  | Zulu => zone_set 0
  | Offset negative h m => MkZone (Some (if negative then -1 else 1)) (Some h) (Some m)
  | Unzoned => MkZone None None None
  end.

Record stamp_ok (c : Stamp) : Prop := StampOk {
  so_year : -999999 <= year c <= 999999;
  so_month : 1 <= month c <= 12;
  so_date : 1 <= date c <= 31;
  so_clock : 0 <= hour c <= 23 \/ hour c = 24 /\ minute c = 0 /\ second c = 0 /\ millis c = 0;
  so_minute : 0 <= minute c <= 59;
  so_second : 0 <= second c <= 59;
  so_millis : 0 <= millis c <= 999;
  so_zone : zone_ok (zone_text c)
}.

Lemma zone_digit zt : is_digit (current (show_zone zt)) = false.
Proof. by destruct zt as [|[] ? ?|]. Qed.

Lemma iso_zone_text zt d t : zone_ok zt ->
  iso_zone (at_ (show_zone zt) d t (MkZone None None None)) = Some (at_ [] d t (zone_of zt)).
Proof.
  destruct zt as [|neg h m|]; [done| |done]. intros [Hh Hm]. cbn [show_zone].
  destruct (at_sign neg (zero_padded 2 h ++ 58 :: zero_padded 2 m) d t (MkZone None None None)) as (E1 & E2 & E3).
  unfold iso_zone. rewrite E2, E1, E3. cbv beta iota zeta. cbn [zone at_ z_hour z_minute].
  change (set_zone ?q (at_ ?s ?d ?t _)) with (at_ s d t q).
  destruct (at_padded 2 h (58 :: zero_padded 2 m) ltac:(lia) ltac:(lia) eq_refl d t
    (MkZone (Some (if neg then -1 else 1)) None None)) as [F1 F2].
  rewrite F1, F2. change (fixed 4 (Number h (Z.of_nat 2))) with (@None Z). change (fixed 2 (Number h (Z.of_nat 2))) with (Some h). cbv iota. unfold filtered. rewrite !bind_value. cbv beta.
  rewrite (proj2 (Z.leb_le h 23)), bind_value by lia. rewrite at_symbol by done. cbn [negb].
  destruct (at_padded 2 m [] ltac:(lia) ltac:(lia) eq_refl d t (MkZone (Some (if neg then -1 else 1)) None None)) as [G1 G2].
  rewrite app_nil_r in G1, G2. rewrite G1, G2. change (fixed 2 (Number m (Z.of_nat 2))) with (Some m). rewrite bind_value. cbv beta.
  rewrite (proj2 (Z.leb_le m 59)), bind_value by lia. done.
Qed.

Lemma fixed_padded w k n r d t zn : k = Z.of_nat w -> (1 <= w <= 9)%nat -> 0 <= n < 10 ^ Z.of_nat w -> is_digit (current r) = false ->
  fixed k (peek (at_ (zero_padded w n ++ r) d t zn)) = Some n.
Proof. intros -> Hw Hn Hr. destruct (at_padded w n r Hw Hn Hr d t zn) as [-> _]. simpl. by rewrite Z.eqb_refl. Qed.

Lemma advance_padded w n r d t zn : (1 <= w <= 9)%nat -> 0 <= n < 10 ^ Z.of_nat w -> is_digit (current r) = false ->
  advance (at_ (zero_padded w n ++ r) d t zn) = at_ r d t zn.
Proof. intros Hw Hn Hr. by destruct (at_padded w n r Hw Hn Hr d t zn) as [_ ->]. Qed.

Lemma add_time_at v s d l o zn : (length l < 4)%nat -> add_time v (at_ s d (MkTime l o) zn) = at_ s d (MkTime (l ++ [v]) o) zn.
Proof. intros Hl. unfold add_time, time_add. cbn [at_ time t_parts]. rewrite (proj2 (Nat.eqb_neq _ 4)) by lia. done. Qed.

Lemma add_day_at v s l mo i t zn : (length l < 3)%nat -> add_day v (at_ s (MkDay l mo i) t zn) = at_ s (MkDay (l ++ [v]) mo i) t zn.
Proof. intros Hl. unfold add_day, day_add. cbn [at_ day d_parts]. rewrite (proj2 (Nat.eqb_neq _ 3)) by lia. done. Qed.

Lemma filtered_some (P : Z -> bool) n : P n = true -> filtered P (Some n) = Some n.
Proof. intros H. unfold filtered. rewrite bind_value. by rewrite H. Qed.

Lemma iso_seconds_text h s ms zt d l zn :
  (length l = 2)%nat -> 0 <= s <= 59 -> 0 <= ms <= 999 -> (h = 24 -> s = 0 /\ ms = 0) ->
  iso_seconds h (at_ (58 :: zero_padded 2 s ++ 46 :: zero_padded 3 ms ++ show_zone zt) d (MkTime l None) zn) =
  Some (at_ (show_zone zt) d (MkTime (l ++ [s; ms]) None) zn).
Proof.
  intros Hl Hs Hms H24. unfold iso_seconds. rewrite at_symbol by done. cbn [negb].
  rewrite fixed_padded by (done || (simpl; lia)). rewrite filtered_some, bind_value.
  2: { unfold within. rewrite !(proj2 (Z.leb_le _ _)) by lia. destruct (h =? 24) eqn:E; reflect_bools; [|done].
       destruct (H24 E) as [-> _]. done. }
  cbv beta zeta. rewrite add_time_at by lia. rewrite advance_padded by (done || (simpl; lia)).
  rewrite at_symbol by done. cbn [negb].
  destruct (at_padded 3 ms (show_zone zt) ltac:(lia) ltac:(simpl; lia) (zone_digit zt) d (MkTime (l ++ [s]) None) zn) as [E1 E2].
  rewrite take_token_eq, E1, E2. cbn [number]. rewrite filtered_some, bind_value.
  2: { destruct (h =? 24) eqn:E; reflect_bools; [|done]. destruct (H24 E) as [_ ->]. done. }
  change (milliseconds ms (Z.of_nat 3)) with ms. rewrite add_time_at by (rewrite length_app; simpl; lia). rewrite <- app_assoc. done.
Qed.

(** What [iso] leaves behind for a time stamp. *)
Definition parsed (c : Stamp) : Parser :=
  at_ [] (MkDay [year c; month c; date c] None true) (MkTime [hour c; minute c; second c; millis c] None) (zone_of (zone_text c)).

Lemma iso_time_text c : stamp_ok c ->
  iso_time (at_ (84 :: show_clock c) (MkDay [year c; month c; date c] None false) (MkTime [] None) (MkZone None None None)) =
  Some (End_, parsed c).
Proof.
  intros [_ _ _ Hc Hm Hs Hms Hz]. unfold iso_time, show_clock.
  assert (Hh : 0 <= hour c <= 24) by lia.
  set (r := 58 :: zero_padded 2 (second c) ++ 46 :: zero_padded 3 (millis c) ++ show_zone (zone_text c)).
  match goal with |- context [at_ (84 :: ?r) ?d ?t ?zn] =>
    destruct (at_separator r d t zn) as [E1 E2]; [apply current_padded; simpl; lia|] end.
  rewrite E1, E2. cbv beta zeta. rewrite fixed_padded by (done || (simpl; lia)).
  rewrite filtered_some, bind_value by (unfold within; by rewrite !(proj2 (Z.leb_le _ _)) by lia).
  rewrite add_time_at by (simpl; lia). rewrite advance_padded by (done || (simpl; lia)). rewrite at_symbol by done. cbn [negb].
  rewrite fixed_padded by (done || (simpl; lia)). rewrite filtered_some, bind_value.
  2: { unfold within. rewrite !(proj2 (Z.leb_le _ _)) by lia. destruct (hour c =? 24) eqn:E; reflect_bools; [|done].
       destruct Hc as [|(_ & -> & _)]; [lia|done]. }
  rewrite add_time_at by (simpl; lia). rewrite advance_padded by (done || (simpl; lia)). cbn [app].
  unfold r. rewrite iso_seconds_text, bind_value by (done || lia). rewrite iso_zone_text, bind_value by done.
  rewrite decide_True by done. unfold iso_end. cbn [zone at_ time t_parts length Nat.eqb]. rewrite andb_false_r. done.
Qed.

Lemma iso_month_text c : stamp_ok c ->
  iso_month (at_ (45 :: zero_padded 2 (month c) ++ 45 :: zero_padded 2 (date c) ++ 84 :: show_clock c) (MkDay [year c] None false)
    (MkTime [] None) (MkZone None None None)) = Some (End_, parsed c).
Proof.
  intros Hok. pose proof Hok as [_ Hm Hd _ _ _ _ _]. unfold iso_month. rewrite at_symbol by done. cbn [negb].
  rewrite (fixed_padded 2) by (done || (simpl; lia)).
  rewrite filtered_some by (unfold within; by rewrite !(proj2 (Z.leb_le _ _)) by lia).
  rewrite add_day_at by (simpl; lia). rewrite advance_padded by (done || (simpl; lia)). cbv zeta. rewrite at_symbol by done. cbn [negb].
  rewrite (fixed_padded 2) by (done || (simpl; lia)).
  rewrite filtered_some by (unfold within; by rewrite !(proj2 (Z.leb_le _ _)) by lia).
  rewrite add_day_at by (simpl; lia). rewrite advance_padded by (done || (simpl; lia)). by apply iso_time_text.
Qed.

Lemma iso_text c : stamp_ok c -> iso (new_parser (show_stamp c)) = Some (End_, parsed c).
Proof.
  intros Hok. pose proof (iso_month_text c Hok) as Hmonth. pose proof (so_year c Hok) as Hy. unfold show_stamp.
  set (r := 45 :: zero_padded 2 (month c) ++ 45 :: zero_padded 2 (date c) ++ 84 :: show_clock c) in *.
  assert (Hr : is_digit (current r) = false) by done.
  change (new_parser ?s) with (at_ s (MkDay [] None false) (MkTime [] None) (MkZone None None None)).
  assert (Hsigned : forall neg : bool, year c = (if neg then -1 else 1) * Z.abs (year c) -> (neg = true -> year c <> 0) ->
    iso (at_ ((if neg then 45 else 43) :: zero_padded 6 (Z.abs (year c)) ++ r) (MkDay [] None false) (MkTime [] None) (MkZone None None None))
    = Some (End_, parsed c)).
  { intros neg Hn H0. unfold iso. destruct (at_sign neg (zero_padded 6 (Z.abs (year c)) ++ r) (MkDay [] None false) (MkTime [] None)
      (MkZone None None None)) as (E1 & _ & E3). rewrite E1, take_token_eq, E3.
    rewrite (fixed_padded 6) by (done || (simpl; lia)). rewrite advance_padded by (done || (simpl; lia)). cbv zeta.
    rewrite add_day_at by (simpl; lia). rewrite <- Hn. cbn [app]. rewrite Hmonth.
    destruct neg; [|done]. rewrite (proj2 (Z.eqb_neq _ 0)); [done|]. specialize (H0 eq_refl). lia. }
  unfold iso_year. destruct (within 0 9999 (year c)) eqn:Ew.
  - unfold within in Ew. reflect_bools. unfold iso.
    destruct (at_padded 4 (year c) r ltac:(lia) ltac:(simpl; lia) Hr (MkDay [] None false) (MkTime [] None) (MkZone None None None)) as [E1 _].
    rewrite E1. cbn [sign]. rewrite <- E1, (fixed_padded 4) by (done || (simpl; lia)). rewrite add_day_at by (simpl; lia).
    rewrite advance_padded by (done || (simpl; lia)). cbn [app]. exact Hmonth.
  - assert (Hout : year c < 0 \/ 9999 < year c) by (unfold within in Ew; destruct (0 <=? year c) eqn:?, (year c <=? 9999) eqn:?; reflect_bools; try done; lia).
    destruct (year c <? 0) eqn:E0; reflect_bools.
    + rewrite <- (Z.abs_neq (year c)) by lia. apply (Hsigned true); lia.
    + rewrite <- (Z.abs_eq (year c)) at 1 by lia. apply (Hsigned false); [lia|done].
Qed.

(** The instant a time stamp denotes. *)
Definition denoted (resolve : Z -> option Z) (c : Stamp) : option Z :=
  let clock := (hour c, minute c, second c, millis c) in
  let value := days (year c) (month c) (date c) * DAY + clock_of clock in
  v ← match zone_text c with
      | Zulu => Some value
      | Offset negative h m => Some (value - (if negative then -1 else 1) * (h * 3600 + m * 60) * 1000)
      | Unzoned => local resolve value (year c) (month c) (date c) clock
      end;
  if Z.abs v <=? DATE_LIMIT then Some v else None.

Lemma days_wide y m d : Z.abs y <= 1000000 -> 1 <= m <= 12 -> 1 <= d <= 31 -> Z.abs (days y m d) <= 400000000.
Proof.
  intros Hy Hm Hd. rewrite days_linear by done. set (y' := y - _).
  assert (-1000001 <= y' <= 1000000) by (unfold y'; destruct (m <=? 2); lia).
  assert (0 <= month_start (march_month m) <= 400).
  { destruct (march_month_range m Hm). unfold month_start. Z.to_euclidean_division_equations. lia. }
  cbv zeta. Z.to_euclidean_division_equations. lia.
Qed.

Lemma zone_seconds_of zt : zone_ok zt ->
  zone_seconds (zone_of zt) =
  Some (match zt with Zulu => Some 0 | Offset negative h m => Some ((h * 3600 + m * 60) * (if negative then -1 else 1)) | Unzoned => None end).
Proof.
  destruct zt as [|neg h m|]; [done| |done]. intros [Hh Hm]. unfold zone_seconds. cbn [zone_of z_sign z_hour z_minute default].
  unfold u32. rewrite !(Z.mod_small h), !(Z.mod_small m), !(Z.mod_small (h * 3600)), !(Z.mod_small (m * 60)), Z.mod_small by lia.
  by rewrite (proj2 (Z.leb_le _ _)) by lia.
Qed.

Lemma finish_parsed resolve c : stamp_ok c -> finish resolve (parsed c) = denoted resolve c.
Proof.
  intros [Hy Hmo Hd Hc Hm Hs Hms Hz]. unfold finish, parsed, denoted. cbn [day time zone at_].
  assert (E1 : day_fields (MkDay [year c; month c; date c] None true) = Some (year c, month c, date c)).
  { unfold day_fields. cbn. unfold within. by rewrite !(proj2 (Z.leb_le _ _)) by lia. }
  assert (E2 : time_fields (MkTime [hour c; minute c; second c; millis c] None) = Some (hour c, minute c, second c, millis c)).
  { unfold time_fields. cbn. unfold within. rewrite !(proj2 (Z.leb_le _ _)) by lia. cbn [andb].
    destruct Hc as [Hc|(-> & -> & -> & ->)]; [|done]. by rewrite !(proj2 (Z.leb_le _ _)) by lia. }
  rewrite E1, bind_value. cbv beta iota. rewrite E2, bind_value. cbv beta zeta. rewrite zone_seconds_of, bind_value by done. cbv beta.
  pose proof (days_wide (year c) (month c) (date c) ltac:(lia) Hmo Hd).
  assert (0 <= clock_of (hour c, minute c, second c, millis c) <= 86400000) by (unfold clock_of; lia). unfold DAY.
  destruct (zone_text c) as [|neg h m|]; [| |done].
  - unfold i64. rewrite (proj2 (Z.leb_le _ _)), (proj2 (Z.ltb_lt _ _)) by lia. cbn [andb]. by rewrite Z.sub_0_r.
  - destruct Hz as [Hh Hmi]. rewrite (Z.mul_comm (h * 3600 + m * 60)). unfold i64.
    destruct neg; rewrite (proj2 (Z.leb_le _ _)), (proj2 (Z.ltb_lt _ _)) by lia; done.
Qed.

Lemma parse_stamp resolve c : stamp_ok c -> parse resolve (show_stamp c) = denoted resolve c.
Proof.
  intros Hok. unfold parse. rewrite iso_text, bind_value by done. cbv beta iota. cbn [loop]. rewrite decide_True by done.
  cbn [mjoin option_join]. rewrite bind_value. by apply finish_parsed.
Qed.

(** The parser reads ISO time stamps as they are written: every printed stamp
    with a year of four digits, or a sign and six, a month, a day up to 31, a
    time of day up to 24:00, milliseconds and [Z], a numeric offset or no zone
    is accepted and denotes its civil time less its offset, taken in the
    server's zone when it names none, if that lies in the range of dates. *)
Theorem iso_stamp_denotes (resolve : Z -> option Z) (c : Stamp) :
  stamp_ok c -> parse resolve (show_stamp c) = denoted resolve c.
Proof. apply parse_stamp. Qed.

Lemma iso_stamp_denotes_witness :
  let c := MkStamp 2024 2 29 23 59 59 999 (Offset true 5 30) in
  show_stamp c = lit "2024-02-29T23:59:59.999-05:30" /\ parse (fun _ => None) (show_stamp c) = Some 1709270999999.
Proof.
  cbv zeta. split; [vm_compute; reflexivity|]. rewrite iso_stamp_denotes; [vm_compute; reflexivity|].
  constructor; vm_compute; intuition congruence.
Defined.

(** ** Printing and reading back *)

(** The fields of an instant. *)
Definition stamp_of (v : Z) : Stamp :=
  let '(y, m, d) := of_days (v / DAY) in
  let clock := v mod 86400000 in
  MkStamp y m d (clock / 3600000) (clock / 60000 mod 60) (clock / 1000 mod 60) (clock mod 1000) Zulu.

Lemma iso_milliseconds_stamp v : Z.abs v <= DATE_LIMIT -> iso_milliseconds v = Some (show_stamp (stamp_of v)).
Proof.
  intros Hv. unfold iso_milliseconds, utc_fields. rewrite (proj2 (Z.ltb_ge _ _)), bind_value by lia.
  unfold stamp_of. change DAY with 86400000. destruct (of_days (v / 86400000)) as [[y m] d]. done.
Qed.

Lemma day_in_range v : Z.abs v <= DATE_LIMIT -> let '(y, m, d) := of_days (v / DAY) in
  valid (y, m, d) /\ days y m d = v / DAY /\ -999999 <= y <= 999999.
Proof.
  intros Hv. destruct (of_days_valid (v / DAY)) as [Hd Ed]. destruct (of_days (v / DAY)) as [[y m] d]. split; [done|]. split; [done|].
  assert (Hr : -100000000 <= v / DAY <= 100000000) by (unfold DAY, DATE_LIMIT in *; Z.to_euclidean_division_equations; lia).
  destruct Hd as [Hm Hd]. pose proof (month_length_range y m). rewrite days_linear in Ed by done. set (y' := y - _) in Ed.
  assert (y - 1 <= y' <= y) by (unfold y'; destruct (m <=? 2); lia).
  assert (0 <= month_start (march_month m) <= 400).
  { destruct (march_month_range m Hm). unfold month_start. Z.to_euclidean_division_equations. lia. }
  cbv zeta in Ed. Z.to_euclidean_division_equations. lia.
Qed.

Lemma parse_iso resolve v : Z.abs v <= DATE_LIMIT -> parse resolve (show_stamp (stamp_of v)) = Some v.
Proof.
  intros Hv.
  pose proof (day_in_range v Hv) as Hd. unfold stamp_of. destruct (of_days (v / DAY)) as [[y m] d].
  destruct Hd as ([Hm Hd] & Ed & Hy). pose proof (month_length_range y m).
  set (c := v mod 86400000). assert (Hc : 0 <= c < 86400000) by (apply Z.mod_pos_bound; lia).
  rewrite parse_stamp.
  - unfold denoted. cbn [year month date hour minute second millis zone_text]. rewrite bind_value, Ed. cbv beta zeta.
    assert (Ev : v / DAY * DAY + clock_of (c / 3600000, c / 60000 mod 60, c / 1000 mod 60, c mod 1000) = v).
    { unfold clock_of, DAY. pose proof (Z.div_mod v 86400000 ltac:(lia)). fold c in H0. Z.to_euclidean_division_equations. lia. }
    rewrite Ev. by rewrite (proj2 (Z.leb_le _ _)).
  - constructor; cbn [year month date hour minute second millis zone_text zone_ok]; try done;
      try (Z.to_euclidean_division_equations; lia).
Qed.

(** Printing and parsing are inverse: for every instant of the range of
    dates, [iso_milliseconds] gives a text, and the parser reads the very same
    instant back from it, whatever the zone of the server. *)
Theorem iso_roundtrip (resolve : Z -> option Z) (v : Z) :
  Z.abs v <= DATE_LIMIT -> exists s, iso_milliseconds v = Some s /\ parse resolve s = Some v.
Proof.
  intros Hv. exists (show_stamp (stamp_of v)). split; [by apply iso_milliseconds_stamp|by apply parse_iso].
Qed.

(** The last instant of the range. *)
Lemma iso_roundtrip_witness :
  exists s, iso_milliseconds 8640000000000000 = Some s /\ parse (fun _ => None) s = Some 8640000000000000 /\
    s = lit "+275760-09-13T00:00:00.000Z".
Proof.
  destruct (iso_roundtrip (fun _ => None) 8640000000000000) as (s & E1 & E2); [vm_compute; congruence|].
  exists s. split; [exact E1|]. split; [exact E2|]. vm_compute in E1. injection E1 as <-. vm_compute. reflexivity.
Defined.

(** ** Examples of the tolerant grammar *)

Example tolerant_http : parse (fun _ => None) (lit "Thu, 01 Jan 1970 00:00:10 GMT") = Some 10000.
Proof. vm_compute. reflexivity. Qed.
Example tolerant_twelve_hours : parse (fun _ => None) (lit "Jan 5, 2024 5:07 PM -0500 (home)") = Some 1704492420000.
Proof. vm_compute. reflexivity. Qed.
Example tolerant_slashes : parse Some (lit "1/2/24") = Some 1704153600000.
Proof. vm_compute. reflexivity. Qed.
Example tolerant_rejects : parse Some (lit "5 tomorrow") = None.
Proof. vm_compute. reflexivity. Qed.
End JsDate.
