(* ===== verification/Cron.v ===== *)
(** * Cron expressions

    [Cron] models src/cantrip_server_rs/src/project_automations/cron.rs, the
    five-part grammar: the masks of a [Pattern], the setters and the parser with
    its order of diagnostics. A diagnostic is a constructor of [CronError] with
    the values its message interpolates. Numbers are the [f64] integers of the
    code, rounding and infinity included. *)
From S2P Require Import Prelude.
From stdpp Require Import base numbers strings sets list.
From Stdlib Require Import Ascii.
Open Scope Z_scope.

Module Cron.
Import Text.

(** ** Text *)

Definition contains (c : Z) (s : text) : bool := bool_decide (c ∈ s).
Definition eq_ignore_case (a b : text) : bool := bool_decide (to_lower <$> a = to_lower <$> b).

(** [str::split] on a set of separators. *)
Fixpoint split_go (sep : Z -> bool) (acc : text) (s : text) : list text :=
  match s with
  | [] => [reverse acc]
  | c :: s => if sep c then reverse acc :: split_go sep [] s else split_go sep (c :: acc) s
  end.
Definition split (sep : Z -> bool) (s : text) : list text := split_go sep [] s.
Definition split_on (c : Z) : text -> list text := split (Z.eqb c).

(** [replace] of single characters. *)
Definition replace_char (from to : Z) (s : text) : text := (fun c => if c =? from then to else c) <$> s.
Definition remove_chars (p : Z -> bool) (s : text) : text := filter (fun c => negb (p c)) s.

(** [replace_ci]: the occurrences of [from], compared in lower case, from left
    to right. [skip] counts the characters of an occurrence still to drop. *)
Fixpoint replace_go (from to : text) (skip : nat) (s : text) : text :=
  match s with
  | [] => []
  | c :: r =>
      match skip with
      | S skip => replace_go from to skip r
      | O => if bool_decide (take (length from) (to_lower <$> s) = from)
             then to ++ replace_go from to (length from - 1) r
             else c :: replace_go from to 0 r
      end
  end.
Definition replace_ci (s : text) (from to : text) : text := replace_go from to 0 s.

(** [encoded] and [decoded]: UTF-16 units as characters and back. *)
Definition encoded (units : list Z) : text :=
  (fun u => if (0xd800 <=? u) && (u <=? 0xdfff) then 0xf0000 + (u - 0xd800) else u) <$> units.
Definition encode_utf16 (c : Z) : list Z :=
  if c <? 0x10000 then [c] else [0xd800 + (c - 0x10000) / 0x400; 0xdc00 + (c - 0x10000) mod 0x400].
Definition decoded (s : text) : list Z :=
  s ≫= fun c => if (0xf0000 <=? c) && (c <=? 0xf07ff) then [c - 0xf0000 + 0xd800] else encode_utf16 c.

(** ** Numbers: the [f64] values that are integers *)

Inductive num := NaN | Fin (z : Z) | Inf.
#[export] Instance num_eq_dec : EqDecision num.
Proof. solve_decision. Defined.

(** Round to 53 significant bits, ties to even. *)
Definition rnd (z : Z) : Z :=
  let a := Z.abs z in
  if a <=? 2 ^ 53 then z
  else
    let e := Z.log2 a - 52 in
    let q := a / 2 ^ e in
    let r := a mod 2 ^ e in
    let half := 2 ^ (e - 1) in
    let q := if (half <? r) || ((r =? half) && Z.odd q) then q + 1 else q in
    Z.sgn z * (q * 2 ^ e).

Definition f64_of (z : Z) : num := if 2 ^ 1024 - 2 ^ 970 <=? Z.abs z then Inf else Fin (rnd z).

Definition add (a b : num) : num :=
  match a, b with
  | Fin a, Fin b => Fin (rnd (a + b))
  | NaN, _ | _, NaN => NaN
  | _, _ => Inf
  end.
Definition le (a b : num) : bool :=
  match a, b with
  | NaN, _ | _, NaN => false
  | _, Inf => true
  | Inf, Fin _ => false
  | Fin a, Fin b => a <=? b
  end.
Definition lt (a b : num) : bool :=
  match a, b with
  | NaN, _ | _, NaN | Inf, _ => false
  | Fin _, Inf => true
  | Fin a, Fin b => a <? b
  end.
Definition is_nan (a : num) : bool := match a with NaN => true | _ => false end.

Fixpoint take_digits (s : text) : text :=
  match s with
  | c :: s => if is_digit c then c :: take_digits s else []
  | [] => []
  end.

(** [integer]: the leading digits. *)
Definition integer (s : text) : num :=
  match take_digits s with [] => NaN | ds => f64_of (digits_value ds) end.

(** [coercion::number] on the characters the parser lets through. *)
Definition js_number (s : text) : num :=
  match s with
  | [] => Fin 0
  | c :: r =>
      let '(sign, ds) := if c =? 45 then (-1, r) else (1, s) in
      if forallb is_digit ds && negb (bool_decide (ds = [])) then
        match f64_of (digits_value ds) with Fin z => Fin (sign * z) | _ => if sign =? 1 then Inf else NaN end
      else NaN
  end.

(** ** Patterns *)

Record Pattern := MkPattern {
  fields : list (list Z);
  nearest : list Z;
  last : bool;
  last_weekday : bool;
  star_dom : bool;
  star_dow : bool;
  and : bool
}.

Definition LENGTHS (field : nat) : Z :=
  match field with
  | 0%nat => 60 | 1%nat => 60 | 2%nat => 24 | 3%nat => 31 | 4%nat => 12 | 5%nat => 7 | 6%nat => 10000
  | _ => 31
  end.

Inductive CronError :=
| Reboot
| PartCount (value : text)
| Mode (value : text) (parts : Z)
| EmptyAfterPlus
| IllegalCharacters (i : nat) (part : text)
| EmptyEntry (field : nat) (input : text)
| InvalidValue (field : nat) (value : num)
| NthRange (nth : text)
| NthField
| LField
| FromLarger (input : text)
| StepZero
| StepLarge (field : nat)
| WNotAllowed (range stepping : bool)
| IllegalRangeStepping (input : text)
| IllegalRange (input : text)
| LowerNaN
| UpperNaN
| IllegalStepping (input : text)
| StepPrefix (missing : bool) (input : text)
| StepNaN
| WField
| NotANumber (field : nat) (input : text).

Abbreviation Result A := (A + CronError)%type.
Definition rbind {A B} (x : Result A) (k : A -> Result B) : Result B :=
  match x with inl a => k a | inr e => inr e end.
Notation "'let?' p := x 'in' k" := (rbind x (fun p => k))
  (at level 10, p pattern, x at level 100, k at level 200) : cantrip_scope.

Definition mask (p : Pattern) (field : nat) : list Z :=
  if (field =? 7)%nat then nearest p else default [] (fields p !! field).
Definition set_mask (p : Pattern) (field : nat) (m : list Z) : Pattern :=
  if (field =? 7)%nat
  then MkPattern (fields p) m (last p) (last_weekday p) (star_dom p) (star_dow p) (and p)
  else MkPattern (<[field := m]> (fields p)) (nearest p) (last p) (last_weekday p) (star_dom p) (star_dow p) (and p).

(** [Pattern::set]. *)
Definition set (p : Pattern) (field : nat) (value : num) (nth : option text) : Result Pattern :=
  let value := if (field =? 5)%nat && bool_decide (value = Fin 7) then Fin 0 else value in
  if lt value (Fin (if (field =? 6)%nat then 1 else 0)) || le (Fin (LENGTHS field)) value
  then inr (InvalidValue field value)
  else
    match value with
    | Fin v =>
        let i := Z.to_nat v in
        let m := mask p field in
        if (field =? 5)%nat then
          let old := default 0 (m !! i) in
          match nth with
          | None | Some [] => inl (set_mask p field (<[i := 63]> m))
          | Some nth =>
              if eq_ignore_case nth (lit "L") then inl (set_mask p field (<[i := Z.lor old 32]> m))
              else
                match js_number nth with
                | Fin n =>
                    if (0 <? n) && (n <? 6)
                    then inl (set_mask p field (<[i := Z.lor old (Z.shiftl 1 (n - 1))]> m))
                    else inr (NthRange nth)
                | _ => inr (NthRange nth)
                end
          end
        else inl (set_mask p field (<[i := 1]> m))
    | _ => inr (InvalidValue field value)
    end.

(** [Pattern::nth]. *)
Definition nth_of (value : text) (field : nat) : Result (text * option text) :=
  if contains (ch "#") value then
    if negb (field =? 5)%nat then inr NthField
    else match split_on (ch "#") value with
         | a :: b :: _ => inl (a, Some b)
         | a :: [] => inl (a, None)
         | [] => inl ([], None)
         end
  else
    match list.last value with
    | Some c =>
        if (c =? ch "L") || (c =? ch "l") then
          if negb (field =? 5)%nat then inr LField else inl (removelast value, Some (lit "L"))
        else inl (value, None)
    | None => inl (value, None)
    end.

(** [Pattern::range]. *)
Definition check_range (from to : num) (step : option num) (field : nat) (input : text) : Result unit :=
  if lt to from then inr (FromLarger input)
  else
    match step with
    | Some step =>
        if bool_decide (step = Fin 0) then inr StepZero
        else if lt (Fin (LENGTHS field)) step then inr (StepLarge field) else inl tt
    | None => inl tt
    end.

(** [while at <= to { set(at)?; at += step }]. *)
Fixpoint set_range (fuel : nat) (p : Pattern) (field : nat) (at_ to step : num) (nth : option text) : Result Pattern :=
  match fuel with
  | O => inl p
  | S fuel =>
      if le at_ to then
        let? p := set p field at_ nth in set_range fuel p field (add at_ step) to step nth
      else inl p
  end.

Definition range_fuel (field : nat) : nat := Z.to_nat (LENGTHS field + 2).

Definition all_digits (s : text) : bool := negb (bool_decide (s = [])) && forallb is_digit s.

(** The bounds of a range, a stepping or both. *)
Definition bounds (field : nat) (offset : num) (range stepping : bool) (input value : text) :
  Result (num * num * option num) :=
  if range && stepping then
    match split (fun c => (c =? ch "-") || (c =? ch "/")) value with
    | [a; b; c] =>
        if all_digits a && all_digits b && all_digits c
        then inl (add (integer a) offset, add (integer b) offset, Some (integer c))
        else inr (IllegalRangeStepping input)
    | _ => inr (IllegalRangeStepping input)
    end
  else if range then
    match split_on (ch "-") value with
    | [a; b] =>
        let from := add (integer a) offset in
        let to := add (integer b) offset in
        if is_nan from then inr LowerNaN else if is_nan to then inr UpperNaN else inl (from, to, None)
    | _ => inr (IllegalRange input)
    end
  else
    match split_on (ch "/") value with
    | [a; b] =>
        if negb (bool_decide (a = lit "*")) then inr (StepPrefix (bool_decide (a = [])) input)
        else if is_nan (integer b) then inr StepNaN
        else inl (Fin 0, Fin (LENGTHS field - 1), Some (integer b))
    | _ => inr (IllegalStepping input)
    end.

Definition offset_of (field : nat) : num := Fin (if (field =? 3)%nat || (field =? 4)%nat then -1 else 0).

Definition contains_w (s : text) : bool := contains (ch "W") (to_upper <$> s).

(** [Pattern::part] on an entry without a comma. *)
Definition part_piece (p : Pattern) (field : nat) (input : text) : Result Pattern :=
  if bool_decide (input = []) && negb ((field =? 3)%nat && (last p || last_weekday p))
  then inr (EmptyEntry field input)
  else if bool_decide (input = lit "*")
  then inl (set_mask p field ((fun _ => if (field =? 5)%nat then 63 else 1) <$> mask p field))
  else
    let range := contains (ch "-") input in
    let stepping := contains (ch "/") input in
    if range || stepping then
      if contains_w input then inr (WNotAllowed range stepping)
      else
        let? (value, nth) := nth_of input field in
        let? (from, to, step) := bounds field (offset_of field) range stepping input value in
        let? _ := check_range from to step field input in
        set_range (range_fuel field) p field from to (default (Fin 1) step) nth
    else if bool_decide (input = []) then inl p
    else
      let? (value, nth) := nth_of input field in
      let near := contains_w input in
      if near && negb (field =? 3)%nat then inr WField
      else
        let offset := offset_of field in
        let field := if near then 7%nat else field in
        let value := add (integer value) offset in
        if is_nan value then inr (NotANumber field input) else set p field value nth.

Fixpoint parts_go (p : Pattern) (field : nat) (l : list text) : Result Pattern :=
  match l with
  | [] => inl p
  | input :: l => let? p := part_piece p field input in parts_go p field l
  end.

(** [Pattern::part]: the entries between commas have none, so one level of
    recursion is all there is. *)
Definition part (p : Pattern) (field : nat) (input : text) : Result Pattern :=
  if contains (ch ",") input then parts_go p field (split_on (ch ",") input) else part_piece p field input.

(** ** The parser *)

Definition nickname (value : text) : Result text :=
  let name := to_lower <$> trim value in
  let named (s : string) := bool_decide (name = lit s) in
  if named "@yearly"%string || named "@annually"%string then inl (lit "0 0 1 1 *")
  else if named "@monthly"%string then inl (lit "0 0 1 * *")
  else if named "@weekly"%string then inl (lit "0 0 * * 0")
  else if named "@daily"%string || named "@midnight"%string then inl (lit "0 0 * * *")
  else if named "@hourly"%string then inl (lit "0 * * * *")
  else if named "@reboot"%string then inr Reboot
  else inl value.

Definition MONTHS : list (string * string) :=
  [("jan", "1"); ("feb", "2"); ("mar", "3"); ("apr", "4"); ("may", "5"); ("jun", "6"); ("jul", "7"); ("aug", "8");
   ("sep", "9"); ("oct", "10"); ("nov", "11"); ("dec", "12")]%string.
Definition WEEKDAYS : list (string * string) :=
  [("-sun", "-7"); ("sun", "0"); ("mon", "1"); ("tue", "2"); ("wed", "3"); ("thu", "4"); ("fri", "5");
   ("sat", "6")]%string.

Definition replace_names (names : list (string * string)) (s : text) : text :=
  fold_left (fun s p => replace_ci s (lit p.1) (lit p.2)) names s.

Definition empty_pattern : Pattern :=
  MkPattern ((fun i => replicate (Z.to_nat (LENGTHS i)) 0) <$> seq 0 7) (replicate 31 0) false false false false false.

(** The flags of the day and weekday entries, and the entries they leave. *)
Record Flags := MkFlags { fl_last : bool; fl_last_weekday : bool; fl_and : bool }.

Definition day_entry (s : text) : text * bool * bool :=
  if eq_ignore_case s (lit "LW") then ([], false, true)
  else if contains (ch "L") (to_upper <$> s)
  then (remove_chars (fun c => (c =? ch "L") || (c =? ch "l")) s, true, false)
  else (s, false, false).

Definition weekday_entry (s : text) : Result (text * bool) :=
  match s with
  | c :: r => if c =? ch "+" then match r with [] => inr EmptyAfterPlus | _ => inl (r, true) end else inl (s, false)
  | [] => inl (s, false)
  end.

Definition allowed (i : nat) (c : Z) : bool :=
  is_digit c || contains c (lit "/*,-")
  || (i =? 3)%nat && contains c (lit "WwLl")
  || (i =? 5)%nat && contains c (lit "#Ll").

Fixpoint check_characters (i : nat) (parts : list text) : Result unit :=
  match parts with
  | [] => inl tt
  | part :: parts =>
      if negb (forallb (allowed i) part) then inr (IllegalCharacters i part) else check_characters (S i) parts
  end.

Fixpoint fill (p : Pattern) (i : nat) (parts : list text) : Result Pattern :=
  match parts with
  | [] => inl p
  | input :: parts => let? p := part p i input in fill p (S i) parts
  end.

(** [parse_inner]. *)
Definition parse_inner (input : list Z) : Result Pattern :=
  let? value := nickname (encoded input) in
  let parts := filter (fun s => s <> []) (split whitespace value) in
  if negb ((5 <=? len parts) && (len parts <=? 7)) then inr (PartCount value)
  else
    match parts with
    | [minute; hour; day; month; weekday] =>
        let '(day, last, last_weekday) := day_entry day in
        let star_dom := bool_decide (day = lit "*") in
        let month := replace_names MONTHS month in
        let weekday := replace_names WEEKDAYS weekday in
        let? (weekday, and) := weekday_entry weekday in
        let star_dow := bool_decide (weekday = lit "*") in
        let parts := replace_char (ch "?") (ch "*") <$>
          [lit "0"; minute; hour; day; month; weekday; lit "*"] in
        let? _ := check_characters 0 parts in
        fill (MkPattern (fields empty_pattern) (nearest empty_pattern) last last_weekday star_dom star_dow and)
          0 parts
    | _ => inr (Mode value (len parts))
    end.

(** [parse]: the characters of a diagnostic go back to the units they stand for. *)
Definition decode_error (e : CronError) : CronError :=
  match e with
  | PartCount v => PartCount (decoded v)
  | Mode v n => Mode (decoded v) n
  | IllegalCharacters i v => IllegalCharacters i (decoded v)
  | EmptyEntry i v => EmptyEntry i (decoded v)
  | NthRange v => NthRange (decoded v)
  | FromLarger v => FromLarger (decoded v)
  | IllegalRangeStepping v => IllegalRangeStepping (decoded v)
  | IllegalRange v => IllegalRange (decoded v)
  | IllegalStepping v => IllegalStepping (decoded v)
  | StepPrefix b v => StepPrefix b (decoded v)
  | NotANumber i v => NotANumber i (decoded v)
  | e => e
  end.

Definition parse (input : list Z) : Result Pattern :=
  match parse_inner input with inl p => inl p | inr e => inr (decode_error e) end.

(** The values a mask selects. *)
Definition selected (m : list Z) : list nat := fst <$> filter (fun x => x.2 <> 0) (imap pair m).

(** ** Well-formed patterns *)

(** The bits an entry of a mask may carry. *)
Definition entry_ok (field : nat) (x : Z) : Prop := if (field =? 5)%nat then 0 <= x < 64 else x = 0 \/ x = 1.

Definition mask_ok (field : nat) (m : list Z) : Prop := len m = LENGTHS field /\ Forall (entry_ok field) m.

Record wf (p : Pattern) : Prop := Wf {
  wf_fields : length (fields p) = 7%nat;
  wf_mask : forall field, (field <= 7)%nat -> mask_ok field (mask p field)
}.

Definition nonempty (m : list Z) : Prop := Exists (fun x => x <> 0) m.

Lemma mask_set_eq p field m : length (fields p) = 7%nat -> (field <= 7)%nat -> mask (set_mask p field m) field = m.
Proof.
  intros Hl Hf. unfold mask, set_mask. destruct (field =? 7)%nat eqn:E; [done|]. simpl.
  apply Nat.eqb_neq in E. rewrite list_lookup_insert_eq by lia. done.
Qed.

Lemma mask_set_ne p field field' m : field <> field' -> mask (set_mask p field m) field' = mask p field'.
Proof.
  intros Hne. unfold mask, set_mask. destruct (field =? 7)%nat eqn:E, (field' =? 7)%nat eqn:E'; simpl; try done.
  - apply Nat.eqb_eq in E, E'. lia.
  - by rewrite list_lookup_insert_ne.
Qed.

Lemma set_mask_fields p field m : length (fields (set_mask p field m)) = length (fields p).
Proof. unfold set_mask. destruct (field =? 7)%nat; simpl; [done|]. apply length_insert. Qed.

Lemma wf_set_mask p field m : wf p -> (field <= 7)%nat -> mask_ok field m -> wf (set_mask p field m).
Proof.
  intros [W1 W2] Hf Hm. constructor; [by rewrite set_mask_fields|]. intros f Hf'.
  destruct (decide (field = f)) as [<-|Hne]; [by rewrite mask_set_eq|]. rewrite mask_set_ne by done. auto.
Qed.

Lemma mask_ok_insert field m i x : mask_ok field m -> entry_ok field x -> mask_ok field (<[i := x]> m).
Proof. intros [Hl Hm] Hx. split; [by rewrite length_insert|]. by apply Forall_insert. Qed.

Lemma lor_bits x b : 0 <= x < 64 -> 0 <= b < 64 -> 0 <= Z.lor x b < 64.
Proof.
  intros Hx Hb. split; [apply Z.lor_nonneg; lia|]. destruct (decide (Z.lor x b = 0)) as [->|Hne]; [lia|].
  assert (0 <= Z.lor x b) by (apply Z.lor_nonneg; lia).
  change 64 with (2 ^ 6). apply Z.log2_lt_pow2; [lia|]. rewrite Z.log2_lor by lia.
  assert (Hlog : forall z, 0 <= z < 64 -> Z.log2 z < 6).
  { intros z Hz. destruct (decide (z = 0)) as [->|]; [done|]. apply Z.log2_lt_pow2; [lia|]. change (2 ^ 6) with 64. lia. }
  pose proof (Hlog x Hx). pose proof (Hlog b Hb). lia.
Qed.

(** What an entry adds to a mask is never removed. *)
Definition grows (p p' : Pattern) : Prop :=
  forall field, (field <= 7)%nat -> nonempty (mask p field) -> nonempty (mask p' field).

#[export] Instance grows_preorder : PreOrder grows.
Proof. split; [by intros p f|]. intros p1 p2 p3 H1 H2 f Hf Hn. auto. Qed.

Lemma nonempty_insert m i x : (i < length m)%nat -> x <> 0 -> nonempty (<[i := x]> m).
Proof.
  intros Hi Hx. apply Exists_exists. exists x. split; [|done]. by apply list_elem_of_insert.
Qed.

Lemma grows_set_mask p field m : wf p -> (field <= 7)%nat -> nonempty m -> grows p (set_mask p field m).
Proof.
  intros [W1 W2] Hf Hm f Hf' Hn. destruct (decide (field = f)) as [<-|Hne]; [by rewrite mask_set_eq|].
  by rewrite mask_set_ne.
Qed.

(** The three facts about a step that fills [field]. *)
Record filled (field : nat) (p p' : Pattern) : Prop := Filled {
  fi_wf : wf p';
  fi_grows : grows p p';
  fi_nonempty : nonempty (mask p' field)
}.

Lemma filled_mask p field m :
  wf p -> (field <= 7)%nat -> mask_ok field m -> nonempty m -> filled field p (set_mask p field m).
Proof.
  intros Hw Hf Hm Hn. constructor; [by apply wf_set_mask|by apply grows_set_mask|].
  rewrite mask_set_eq; [done|apply Hw|done].
Qed.

Lemma set_filled p field v nth p' :
  wf p -> (field <= 7)%nat -> set p field v nth = inl p' -> filled field p p'.
Proof.
  intros Hw Hf. unfold set.
  set (v' := if (field =? 5)%nat && bool_decide (v = Fin 7) then Fin 0 else v).
  destruct (lt v' _ || le (Fin (LENGTHS field)) v') eqn:Er; [done|]. apply orb_false_iff in Er as [Elo Ehi].
  destruct v' as [|z|]; try done. simpl in Elo, Ehi. reflect_bools.
  pose proof (wf_mask p Hw field Hf) as Hm. pose proof Hm as [Hlen Hent].
  assert (Hi : (Z.to_nat z < length (mask p field))%nat) by (destruct (field =? 6)%nat; lia).
  assert (Hset : forall x, entry_ok field x -> x <> 0 -> inl (set_mask p field (<[Z.to_nat z := x]> (mask p field))) = inl (B := CronError) p' ->
    filled field p p').
  { intros x Hx Hx0 [= <-]. apply filled_mask; [done..|by apply mask_ok_insert|by apply nonempty_insert]. }
  destruct (field =? 5)%nat eqn:E5; [|apply Hset; unfold entry_ok; rewrite ?E5; lia].
  assert (Hold : 0 <= default 0 (mask p field !! Z.to_nat z) < 64).
  { destruct (mask p field !! Z.to_nat z) as [x|] eqn:Ex; simpl; [|lia].
    rewrite Forall_forall in Hent. specialize (Hent x (list_elem_of_lookup_2 _ _ _ Ex)).
    unfold entry_ok in Hent. by rewrite E5 in Hent. }
  assert (Hbit : forall b, 0 < b < 64 -> entry_ok field (Z.lor (default 0 (mask p field !! Z.to_nat z)) b) /\
    Z.lor (default 0 (mask p field !! Z.to_nat z)) b <> 0).
  { intros b Hb. split; [unfold entry_ok; rewrite E5; apply lor_bits; lia|]. intros E0%Z.lor_eq_0_iff. lia. }
  assert (Hall : inl (set_mask p field (<[Z.to_nat z := 63]> (mask p field))) = inl (B := CronError) p' -> filled field p p').
  { apply Hset; [unfold entry_ok; rewrite E5|]; lia. }
  destruct nth as [[|c nth]|]; [exact Hall| |exact Hall].
  destruct (eq_ignore_case _ _); [apply Hset; by apply Hbit|].
  destruct (js_number _) as [|n|]; try done. destruct ((0 <? n) && (n <? 6)) eqn:En; [|done]. reflect_bools.
  apply Hset; apply Hbit; rewrite Z.shiftl_mul_pow2 by lia; assert (Hn : n = 1 \/ n = 2 \/ n = 3 \/ n = 4 \/ n = 5) by lia;
    destruct_or! Hn; subst n; simpl; lia.
Qed.

Lemma set_range_filled field to step nth fuel : forall p at_ p',
  wf p -> (field <= 7)%nat -> set_range fuel p field at_ to step nth = inl p' ->
  wf p' /\ grows p p' /\ (le at_ to = true -> (0 < fuel)%nat -> nonempty (mask p' field)).
Proof.
  induction fuel as [|fuel IH]; intros p at_ p' Hw Hf; cbn [set_range].
  { intros [= <-]. split_and!; [done|reflexivity|lia]. }
  destruct (le at_ to); [|intros [= <-]; by split_and!].
  destruct (set p field at_ nth) as [p1|e] eqn:Es; [|done]. cbn [rbind]. intros Hr.
  destruct (set_filled p field at_ nth p1 Hw Hf Es) as [F1 F2 F3].
  destruct (IH p1 _ p' F1 Hf Hr) as (W & G & _). split_and!; [done|by etrans|].
  intros _ _. by apply G.
Qed.

Lemma le_total a b : a <> NaN -> b <> NaN -> lt b a = false -> le a b = true.
Proof. destruct a, b; simpl; try done. intros _ _ ?. apply Z.leb_le. reflect_bools. lia. Qed.

Lemma f64_number z : f64_of z <> NaN.
Proof. unfold f64_of. by destruct (_ <=? _). Qed.

Lemma integer_number s : all_digits s = true -> integer s <> NaN.
Proof.
  unfold all_digits, integer. destruct s as [|c s]; [done|]. simpl. intros H. reflect_bools.
  destruct (is_digit c); [|done]. apply f64_number.
Qed.

Lemma add_number a z : a <> NaN -> add a (Fin z) <> NaN.
Proof. by destruct a. Qed.

Lemma bounds_numbers field z range stepping input value from to step :
  bounds field (Fin z) range stepping input value = inl (from, to, step) -> from <> NaN /\ to <> NaN.
Proof.
  unfold bounds. destruct (range && stepping).
  { destruct (split _ _) as [|a [|b [|c [|]]]]; try done.
    destruct (all_digits a && all_digits b && all_digits c) eqn:E; [|done]. intros [= <- <- <-]. reflect_bools.
    split; apply add_number; by apply integer_number. }
  destruct range.
  - destruct (split_on _ _) as [|a [|b [|]]]; try done.
    destruct (add (integer a) (Fin z)) eqn:Ea, (add (integer b) (Fin z)) eqn:Eb; simpl; try done; by intros [= <- <- <-].
  - destruct (split_on _ _) as [|a [|b [|]]]; try done. destruct (negb _); [done|].
    destruct (is_nan _); [done|]. by intros [= <- <- <-].
Qed.

Lemma star_filled p field : wf p -> (field <= 6)%nat ->
  filled field p (set_mask p field ((fun _ => if (field =? 5)%nat then 63 else 1) <$> mask p field)).
Proof.
  intros Hw Hf. destruct (wf_mask p Hw field ltac:(lia)) as [Hl Hm]. apply filled_mask; [done|lia| |].
  - split; [by rewrite length_fmap|]. apply Forall_fmap, Forall_true. intros x. unfold entry_ok; simpl.
    destruct (field =? 5)%nat; lia.
  - destruct (mask p field) as [|x m]; [|left; by destruct (field =? 5)%nat].
    simpl in Hl. do 7 (destruct field as [|field]; [done|]). lia.
Qed.

Lemma part_piece_filled p field input p' :
  wf p -> (field <= 6)%nat -> part_piece p field input = inl p' ->
  wf p' /\ grows p p' /\ (field <> 3%nat -> nonempty (mask p' field)).
Proof.
  intros Hw Hf. unfold part_piece.
  destruct (bool_decide (input = []) && _) eqn:Ee; [done|].
  destruct (bool_decide (input = lit "*")).
  { intros [= <-]. by destruct (star_filled p field Hw Hf). }
  destruct (contains (ch "-") input || contains (ch "/") input).
  - destruct (contains_w input); [done|].
    destruct (nth_of input field) as [[value nth]|]; [|done]. cbn [rbind]. unfold offset_of.
    destruct (bounds _ _ _ _ _ _) as [[[from to] step]|] eqn:Eb; [|done]. apply bounds_numbers in Eb as [Nf Nt].
    cbn [rbind]. unfold check_range. destruct (lt to from) eqn:El; [done|]. pose proof (le_total _ _ Nf Nt El) as Hle.
    intros Hr. assert (Hs : set_range (range_fuel field) p field from to (default (Fin 1) step) nth = inl p').
    { revert Hr. destruct step as [step|]; [|done]. destruct (bool_decide (step = Fin 0)); cbn [rbind]; [done|]. by destruct (lt (Fin (LENGTHS field)) step). }
    destruct (set_range_filled field to _ nth _ p from p' Hw ltac:(lia) Hs) as (W & G & N). split_and!; [done..|].
    intros _. apply N; [done|]. unfold range_fuel. do 7 (destruct field as [|field]; [simpl; lia|]). lia.
  - destruct (bool_decide (input = [])) eqn:E0.
    { intros [= <-]. split_and!; [done|reflexivity|]. intros H3. simpl in Ee.
      rewrite (proj2 (Nat.eqb_neq field 3) H3) in Ee. done. }
    destruct (nth_of input field) as [[value nth]|]; [|done]. cbn [rbind].
    destruct (contains_w input) eqn:Ew; simpl.
    + destruct (field =? 3)%nat eqn:E3; simpl; [|done]. apply Nat.eqb_eq in E3. destruct (is_nan _); [done|].
      intros Hs. destruct (set_filled p 7 _ nth p' Hw ltac:(lia) Hs) as [F1 F2 F3]. by split_and!.
    + destruct (is_nan _); [done|]. intros Hs.
      by destruct (set_filled p field _ nth p' Hw ltac:(lia) Hs) as [F1 F2 F3].
Qed.

Lemma split_nonempty sep s : forall acc, split_go sep acc s <> [].
Proof. induction s as [|c s IH]; intros acc; simpl; [done|]. destruct (sep c); [done|apply IH]. Qed.

Lemma part_filled p field input p' :
  wf p -> (field <= 6)%nat -> part p field input = inl p' ->
  wf p' /\ grows p p' /\ (field <> 3%nat -> nonempty (mask p' field)).
Proof.
  intros Hw Hf. unfold part. destruct (contains _ input); [|by apply part_piece_filled].
  pose proof (split_nonempty (Z.eqb (ch ",")) input []) as Hne.
  unfold split_on, split. destruct (split_go _ [] input) as [|i l]; [done|]. clear Hne. cbn [parts_go].
  destruct (part_piece p field i) as [p1|] eqn:E1; [|done]. cbn [rbind].
  destruct (part_piece_filled p field i p1 Hw Hf E1) as (W1 & G1 & N1). clear E1.
  revert p1 W1 G1 N1. induction l as [|j l IH]; intros p1 W1 G1 N1; cbn [parts_go]; [by intros [= <-]|].
  destruct (part_piece p1 field j) as [p2|] eqn:E2; [|done]. cbn [rbind].
  destruct (part_piece_filled p1 field j p2 W1 Hf E2) as (W2 & G2 & N2). apply IH; [done|by etrans|done].
Qed.

Lemma fill_filled l : forall p i p',
  wf p -> (i + length l <= 7)%nat -> fill p i l = inl p' ->
  wf p' /\ grows p p' /\ (forall f, (i <= f < i + length l)%nat -> f <> 3%nat -> nonempty (mask p' f)).
Proof.
  induction l as [|input l IH]; intros p i p' Hw Hi; cbn [fill].
  { intros [= <-]. split_and!; [done|reflexivity|]. simpl. lia. }
  destruct (part p i input) as [p1|] eqn:E1; [|done]. cbn [rbind]. intros Hr. simpl in Hi.
  destruct (part_filled p i input p1 Hw ltac:(lia) E1) as (W1 & G1 & N1).
  destruct (IH p1 (S i) p' W1 ltac:(lia) Hr) as (W2 & G2 & N2). split_and!; [done|by etrans|].
  intros f Hf H3. destruct (decide (f = i)) as [->|]; [apply G2; [lia|auto]|]. apply N2; [simpl in Hf; lia|done].
Qed.

Lemma wf_empty flags_last flags_lw sdom sdow conj :
  wf (MkPattern (fields empty_pattern) (nearest empty_pattern) flags_last flags_lw sdom sdow conj).
Proof.
  constructor; [done|]. intros f Hf.
  assert (Hr : forall n, LENGTHS f = Z.of_nat n -> mask_ok f (replicate n 0)).
  { intros n Hn. split; [by rewrite length_replicate|]. apply Forall_replicate. unfold entry_ok. destruct (f =? 5)%nat; lia. }
  do 8 (destruct f as [|f]; [by apply Hr|]). lia.
Qed.

Lemma parse_wf (input : list Z) (p : Pattern) :
  parse input = inl p ->
  wf p /\ forall f, (f <= 6)%nat -> f <> 3%nat -> nonempty (mask p f).
Proof.
  unfold parse, parse_inner. intros Hp.
  destruct (nickname (encoded input)) as [value|]; [|done]. cbn [rbind] in Hp.
  set (parts := filter _ _) in Hp. destruct (negb _); [done|].
  destruct parts as [|minute [|hour [|day [|month [|weekday [|]]]]]]; try done.
  destruct (day_entry day) as [[day' fl] flw].
  destruct (weekday_entry _) as [[weekday' conj]|]; [|done]. cbn [rbind] in Hp.
  destruct (check_characters _ _) as [|]; [|done]. cbn [rbind] in Hp.
  destruct (fill _ _ _) as [p1|] eqn:Ef; [|done]. injection Hp as ->.
  apply fill_filled in Ef as (W & _ & N); [|apply wf_empty|simpl; lia]. split; [done|].
  intros f Hf H3. apply N; [simpl; lia|done].
Qed.

(** C30: Every pattern the parser returns is well typed: each mask has exactly
    the length of its field, a weekday entry is six bits and every other entry
    is 0 or 1, whatever the expression; and the masks of seconds, minutes,
    hours, months and weekdays are not empty. *)
Theorem parse_well_typed (input : list Z) (p : Pattern) :
  parse input = inl p ->
  wf p /\ forall f, (f <= 6)%nat -> f <> 3%nat -> nonempty (mask p f).
Proof. apply parse_wf. Qed.

Lemma parse_well_typed_witness :
  exists p, parse (lit "*/15 0-6/2 L jan-mar mon#2,fri#L") = inl p /\ wf p /\ nonempty (mask p 4).
Proof.
  destruct (parse (lit "*/15 0-6/2 L jan-mar mon#2,fri#L")) as [p|e] eqn:E;
    [|exfalso; vm_compute in E; discriminate E].
  exists p. split; [reflexivity|]. destruct (parse_well_typed _ p E) as [W N]. split; [exact W|]. apply N; lia.
Defined.

(** ** What an expression denotes

    The grammar of one field without its extensions ([L], [W], [#], names), as
    printed, and the values an entry stands for. *)

Inductive entry := Star | One (n : Z) | Span (a b : Z) | Every (s : Z) | SpanEvery (a b s : Z).

Definition show_num (n : Z) : text := if n <? 10 then [48 + n] else [48 + n / 10; 48 + n mod 10].

Definition show_entry (e : entry) : text :=
  match e with
  | Star => [42]
  | One n => show_num n
  | Span a b => show_num a ++ 45 :: show_num b
  | Every s => 42 :: 47 :: show_num s
  | SpanEvery a b s => show_num a ++ 45 :: show_num b ++ 47 :: show_num s
  end.

Fixpoint join (sep : Z) (l : list text) : text :=
  match l with
  | [] => []
  | [x] => x
  | x :: l => x ++ sep :: join sep l
  end.

Definition show_field (es : list entry) : text := join 44 (show_entry <$> es).

(** Days and months count from 1; Sunday is 0 and 7. *)
Definition base (field : nat) : Z := if (field =? 3)%nat || (field =? 4)%nat then 1 else 0.
Definition top (field : nat) : Z := if (field =? 5)%nat then 7 else LENGTHS field - 1 + base field.

Definition entry_in (field : nat) (e : entry) : Prop :=
  match e with
  | Star => True
  | One n => base field <= n <= top field
  | Span a b => base field <= a <= b /\ b <= top field
  | Every s => 1 <= s <= LENGTHS field
  | SpanEvery a b s => base field <= a <= b /\ b <= top field /\ 1 <= s <= LENGTHS field
  end.

Definition stride (a b s v : Z) : bool := (a <=? v) && (v <=? b) && ((v - a) mod s =? 0).

Definition denotes (field : nat) (e : entry) (v : Z) : bool :=
  match e with
  | Star => true
  | One n => v =? n
  | Span a b => (a <=? v) && (v <=? b)
  | Every s => (v - base field) mod s =? 0
  | SpanEvery a b s => stride a b s v
  end.

(** The index [i] of a mask is the value [i + base]; index 0 of the weekdays
    is also the value 7. *)
Definition selects (field : nat) (D : Z -> bool) (i : Z) : bool :=
  D (i + base field) || ((field =? 5)%nat && (i =? 0) && D 7).

Definition full (field : nat) : Z := if (field =? 5)%nat then 63 else 1.
Definition upd (field : nat) (D : Z -> bool) (m : list Z) : list Z :=
  imap (fun i x => if D (Z.of_nat i) then full field else x) m.
Definition select (p : Pattern) (field : nat) (D : Z -> bool) : Pattern :=
  set_mask p field (upd field D (mask p field)).

Lemma length_upd field D m : length (upd field D m) = length m.
Proof. apply length_imap. Qed.

Lemma upd_ext field D D' m :
  (forall i, 0 <= i < len m -> D i = D' i) -> upd field D m = upd field D' m.
Proof.
  intros HD. apply list_eq. intros i. unfold upd. rewrite !list_lookup_imap.
  destruct (m !! i) eqn:E; [|done]. simpl. apply lookup_lt_Some in E. by rewrite HD by lia.
Qed.

Lemma upd_upd field D D' m : upd field D' (upd field D m) = upd field (fun i => D i || D' i) m.
Proof.
  apply list_eq. intros i. unfold upd. rewrite !list_lookup_imap. destruct (m !! i); simpl; [|done].
  by destruct (D (Z.of_nat i)), (D' (Z.of_nat i)).
Qed.

Lemma upd_none field m : upd field (fun _ => false) m = m.
Proof. apply list_eq. intros i. unfold upd. rewrite list_lookup_imap. by destruct (m !! i). Qed.

Lemma insert_upd field m z : 0 <= z < len m -> <[Z.to_nat z := full field]> m = upd field (Z.eqb z) m.
Proof.
  intros Hz. apply list_eq. intros i. unfold upd. rewrite list_lookup_imap, list_lookup_insert by lia.
  destruct (decide (Z.to_nat z = i)) as [<-|Hne].
  - rewrite Z2Nat.id, Z.eqb_refl by lia. destruct (lookup_lt_is_Some_2 m (Z.to_nat z) ltac:(lia)) as [x ->].
    rewrite decide_True by lia. done.
  - rewrite decide_False by lia. destruct (m !! i); simpl; [|done].
    by rewrite (proj2 (Z.eqb_neq z (Z.of_nat i))) by lia.
Qed.

Lemma set_mask_twice p field m m' : set_mask (set_mask p field m) field m' = set_mask p field m'.
Proof. unfold set_mask. destruct (field =? 7)%nat eqn:E; simpl; rewrite ?E; [done|]. by rewrite list_insert_insert_eq. Qed.

Lemma set_mask_id p field : length (fields p) = 7%nat -> (field <= 6)%nat -> set_mask p field (mask p field) = p.
Proof.
  intros Hl Hf. unfold set_mask, mask. rewrite (proj2 (Nat.eqb_neq field 7)) by lia. destruct p as [fs ? ? ? ? ? ?]; simpl in *.
  destruct (lookup_lt_is_Some_2 fs field ltac:(lia)) as [x E]. rewrite E. simpl. by rewrite list_insert_id.
Qed.

Lemma select_select p field D D' : length (fields p) = 7%nat -> (field <= 6)%nat ->
  select (select p field D) field D' = select p field (fun i => D i || D' i).
Proof.
  intros Hl Hf. unfold select. rewrite mask_set_eq, set_mask_twice, upd_upd by (done || lia). done.
Qed.

Lemma select_ext p field D D' : wf p -> (field <= 6)%nat ->
  (forall i, 0 <= i < LENGTHS field -> D i = D' i) -> select p field D = select p field D'.
Proof.
  intros Hw Hf HD. unfold select. f_equal. apply upd_ext. destruct (wf_mask p Hw field ltac:(lia)) as [-> _]. done.
Qed.

Lemma wf_select p field D : wf p -> (field <= 6)%nat -> wf (select p field D).
Proof.
  intros Hw Hf. apply wf_set_mask; [done|lia|]. destruct (wf_mask p Hw field ltac:(lia)) as [Hl Hm]. split.
  - by rewrite length_upd.
  - apply Forall_lookup. intros i x. unfold upd. rewrite list_lookup_imap.
    destruct (mask p field !! i) as [y|] eqn:E; [|done]. simpl. intros [= <-].
    rewrite Forall_lookup in Hm. specialize (Hm i y E). destruct (D (Z.of_nat i)); [|done].
    unfold entry_ok, full. destruct (field =? 5)%nat; lia.
Qed.

(** *** Setting one value, and every value of a stride *)

Lemma rnd_small z : Z.abs z <= 2 ^ 53 -> rnd z = z.
Proof. intros Hz. unfold rnd. by rewrite (proj2 (Z.leb_le _ _)). Qed.

Lemma LENGTHS_range field : 1 <= LENGTHS field <= 10000.
Proof. do 7 (destruct field as [|field]; [simpl; lia|]). simpl. lia. Qed.

Lemma set_value p field z : wf p -> (field <= 5)%nat -> 0 <= z <= top field - base field ->
  set p field (Fin z) None = inl (select p field (selects field (Z.eqb (z + base field)))).
Proof.
  intros Hw Hf Hz. destruct (wf_mask p Hw field ltac:(lia)) as [Hl _].
  assert (Hin : forall i, 0 <= i < LENGTHS field ->
    inl (B := CronError) (set_mask p field (<[Z.to_nat i := full field]> (mask p field))) =
    inl (select p field (Z.eqb i))).
  { intros i Hi. unfold select. by rewrite insert_upd by lia. }
  assert (Hsel : forall i, (forall j, 0 <= j < LENGTHS field -> Z.eqb i j = selects field (Z.eqb (z + base field)) j) ->
    0 <= i < LENGTHS field ->
    inl (B := CronError) (set_mask p field (<[Z.to_nat i := full field]> (mask p field))) =
    inl (select p field (selects field (Z.eqb (z + base field))))).
  { intros i Hij Hi. rewrite Hin by done. f_equal. by apply select_ext; [|lia|]. }
  unfold set. destruct (field =? 5)%nat eqn:E5; cbn [andb].
  - apply Nat.eqb_eq in E5. subst field. change (top 5 - base 5) with 7 in Hz. change (LENGTHS 5) with 7 in Hsel, Hin. destruct (bool_decide (Fin z = Fin 7)) eqn:E7; reflect_bools.
    + simplify_eq. change (lt (Fin 0) (Fin (if (5 =? 6)%nat then 1 else 0)) || le (Fin (LENGTHS 5)) (Fin 0)) with false.
      apply (Hsel 0); [|lia]. intros j Hj. unfold selects. change (base 5) with 0. change (5 =? 5)%nat with true.
      destruct (0 =? j) eqn:E0, (7 + 0 =? j + 0) eqn:E7, (j =? 0) eqn:E, (7 + 0 =? 7) eqn:E77; reflect_bools; cbn; lia || done.
    + assert (z < 7) by (destruct (decide (z = 7)); [congruence|lia]).
      assert (Hr : lt (Fin z) (Fin (if (5 =? 6)%nat then 1 else 0)) || le (Fin (LENGTHS 5)) (Fin z) = false).
      { apply orb_false_iff. simpl. split; [apply Z.ltb_ge|apply Z.leb_gt]; lia. }
      rewrite Hr. apply (Hsel z); [|lia]. intros j Hj. unfold selects. change (base 5) with 0. change (5 =? 5)%nat with true.
      destruct (z =? j) eqn:E0, (z + 0 =? j + 0) eqn:E00, (j =? 0) eqn:E, (z + 0 =? 7) eqn:Ez; reflect_bools; cbn; lia || done.
  - assert (Hr : lt (Fin z) (Fin (if (field =? 6)%nat then 1 else 0)) || le (Fin (LENGTHS field)) (Fin z) = false).
    { rewrite (proj2 (Nat.eqb_neq field 6)) by lia. apply orb_false_iff. simpl. unfold top in Hz. rewrite E5 in Hz.
      split; [apply Z.ltb_ge|apply Z.leb_gt]; lia. }
    rewrite Hr. unfold top in Hz. rewrite E5 in Hz. unfold full in Hsel. rewrite E5 in Hsel. apply (Hsel z); [|lia].
    intros j Hj. unfold selects. rewrite E5. simpl. rewrite orb_false_r.
    destruct (z =? j) eqn:E0, (z + base field =? j + base field) eqn:E; reflect_bools; lia || done.
Qed.

Lemma stride_cons a b s v : 1 <= s -> a <= b -> stride a b s v = (a =? v) || stride (a + s) b s v.
Proof.
  intros Hs Hab. unfold stride.
  assert (Hm : (v - (a + s)) mod s = (v - a) mod s).
  { replace (v - a) with (v - (a + s) + 1 * s) by lia. by rewrite Z.mod_add by lia. }
  rewrite Hm. destruct (a =? v) eqn:E; reflect_bools; simpl.
  - subst v. rewrite Z.sub_diag, Z.mod_0_l, Z.leb_refl, (proj2 (Z.leb_le _ _)) by lia. done.
  - destruct (a + s <=? v) eqn:E2; reflect_bools; simpl; [by rewrite (proj2 (Z.leb_le a v)) by lia|].
    destruct (a <=? v) eqn:E3; reflect_bools; simpl; [|done].
    rewrite (Z.mod_small (v - a)) by lia. rewrite (proj2 (Z.eqb_neq (v - a) 0)) by lia. by rewrite andb_false_r.
Qed.

Lemma stride_empty a b s v : b < a -> stride a b s v = false.
Proof.
  intros Hab. unfold stride. destruct (a <=? v) eqn:E1, (v <=? b) eqn:E2; reflect_bools; simpl; lia || done.
Qed.

Lemma set_stride field b s fuel : forall p a,
  wf p -> (field <= 5)%nat -> base field <= a -> b <= top field -> 1 <= s <= 10000 ->
  b - a < Z.of_nat fuel * s ->
  set_range fuel p field (Fin (a - base field)) (Fin (b - base field)) (Fin s) None =
    inl (select p field (selects field (stride a b s))).
Proof.
  assert (Ht : top field <= 20000) by (unfold top, base; pose proof (LENGTHS_range field); repeat case_match; lia).
  assert (Hdone : forall p a, wf p -> (field <= 5)%nat -> b < a ->
    inl (B := CronError) p = inl (select p field (selects field (stride a b s)))).
  { intros p a Hw Hf Hba. f_equal. unfold select. rewrite (upd_ext field _ (fun _ => false)), upd_none.
    - symmetry. apply set_mask_id; [apply Hw|lia].
    - intros i Hi. unfold selects. by rewrite !stride_empty, andb_false_r by done. }
  induction fuel as [|fuel IH]; intros p a Hw Hf Ha Hb Hs Hfuel; cbn [set_range].
  { apply Hdone; [done..|lia]. }
  simpl. destruct (a - base field <=? b - base field) eqn:E; reflect_bools; [|apply Hdone; [done..|lia]].
  rewrite set_value by (done || lia). cbn [rbind]. rewrite rnd_small by (unfold base in *; repeat case_match; lia).
  replace (a - base field + s) with (a + s - base field) by lia. replace (a - base field + base field) with a by lia.
  rewrite IH; [|by apply wf_select; [|lia]|lia..].
  f_equal. rewrite select_select by (apply Hw || lia). apply select_ext; [done|lia|].
  intros i Hi. unfold selects. rewrite !(stride_cons a b s) by lia. destruct (stride (a + s) b s (i + base field)); 
    rewrite ?orb_true_r, ?orb_false_r; [done|]. 
  destruct (a =? i + base field); simpl; [done|]. by destruct ((field =? 5)%nat && (i =? 0)).
Qed.

(** *** Reading back what is printed *)

Definition digits (s : text) : Prop := Forall (fun c => is_digit c = true) s.

Lemma contains_false c s : c ∉ s -> contains c s = false.
Proof. apply bool_decide_eq_false_2. Qed.

Lemma contains_true c s : c ∈ s -> contains c s = true.
Proof. apply bool_decide_eq_true_2. Qed.

Lemma digits_not c s : digits s -> is_digit c = false -> c ∉ s.
Proof. intros Hs Hc Hin. unfold digits in Hs. rewrite Forall_forall in Hs. rewrite (Hs c Hin) in Hc. done. Qed.

Lemma split_go_none sep s : forall acc,
  Forall (fun c => sep c = false) s -> split_go sep acc s = [reverse acc ++ s].
Proof.
  induction s as [|c s IH]; intros acc Hs; simpl; [by rewrite app_nil_r|].
  apply Forall_cons in Hs as [-> Hs]. rewrite IH by done. by rewrite reverse_cons, <- (assoc_L (++)).
Qed.

Lemma split_go_first sep s c r : forall acc,
  Forall (fun c => sep c = false) s -> sep c = true ->
  split_go sep acc (s ++ c :: r) = (reverse acc ++ s) :: split_go sep [] r.
Proof.
  induction s as [|d s IH]; intros acc Hs Hc; simpl; [by rewrite Hc, app_nil_r|].
  apply Forall_cons in Hs as [-> Hs]. rewrite IH by done. by rewrite reverse_cons, <- (assoc_L (++)).
Qed.

Lemma digits_sep sep s : digits s -> (forall c, is_digit c = true -> sep c = false) -> Forall (fun c => sep c = false) s.
Proof. intros Hs Hsep. eapply Forall_impl; [exact Hs|auto]. Qed.

Lemma digit_eqb c d : is_digit c = true -> is_digit d = false -> (d =? c) = false.
Proof. intros Hc Hd. apply Z.eqb_neq. congruence. Qed.

Lemma show_num_digits n : 0 <= n < 100 -> digits (show_num n) /\ show_num n <> [] /\ all_digits (show_num n) = true /\
  integer (show_num n) = Fin n.
Proof.
  intros Hn. assert (Hv : f64_of n = Fin n).
  { unfold f64_of. rewrite (proj2 (Z.leb_gt _ _)), rnd_small by lia. done. }
  assert (Hd : forall d, 0 <= d < 10 -> is_digit (48 + d) = true).
  { intros d Hd. unfold is_digit. rewrite !(proj2 (Z.leb_le _ _)) by lia. done. }
  unfold show_num, all_digits, integer. destruct (n <? 10) eqn:E; reflect_bools.
  - pose proof (Hd n ltac:(lia)) as D. split_and!; [by repeat constructor|done|by cbn; rewrite D|].
    cbn [take_digits]. rewrite D. unfold digits_value. cbn [foldl]. rewrite <- Hv. f_equal. lia.
  - assert (0 <= n / 10 < 10) by (Z.to_euclidean_division_equations; lia).
    assert (0 <= n mod 10 < 10) by (Z.to_euclidean_division_equations; lia).
    pose proof (Hd (n / 10) ltac:(lia)) as D1. pose proof (Hd (n mod 10) ltac:(lia)) as D2.
    split_and!; [by repeat constructor|done|by cbn; rewrite D1, D2|].
    cbn [take_digits]. rewrite D1, D2. unfold digits_value. cbn [foldl]. rewrite <- Hv. f_equal.
    Z.to_euclidean_division_equations. lia.
Qed.

(** The characters of an entry. *)
Definition entry_char (c : Z) : Prop := is_digit c = true \/ c = 42 \/ c = 45 \/ c = 47.

Definition small (e : entry) : Prop :=
  match e with
  | Star => True
  | One n => 0 <= n < 100
  | Span a b => 0 <= a < 100 /\ 0 <= b < 100
  | Every s => 0 <= s < 100
  | SpanEvery a b s => 0 <= a < 100 /\ 0 <= b < 100 /\ 0 <= s < 100
  end.

Lemma entry_small field e : (field <= 5)%nat -> entry_in field e -> small e.
Proof.
  intros Hf. assert (LENGTHS field <= 60 /\ top field <= 60 /\ 0 <= base field) as (? & ? & ?).
  { do 6 (destruct field as [|field]; [vm_compute; split_and!; congruence|]). lia. }
  destruct e; simpl; lia.
Qed.

Lemma show_entry_chars e : small e -> Forall entry_char (show_entry e) /\ show_entry e <> [].
Proof.
  assert (Hd : forall n, 0 <= n < 100 -> Forall entry_char (show_num n) /\ show_num n <> []).
  { intros n Hn. destruct (show_num_digits n Hn) as (H1 & H2 & _). split; [|done].
    eapply Forall_impl; [exact H1|]. intros c Hc. by left. }
  assert (Hc : forall c, c = 42 \/ c = 45 \/ c = 47 -> entry_char c) by (intros c Hc; by right).
  destruct e as [|n|a b|s|a b s]; simpl.
  - intros _. split; [|done]. apply Forall_singleton. auto.
  - intros Hn. by apply Hd.
  - intros [Ha Hb]. destruct (Hd a Ha) as [A1 A2], (Hd b Hb) as [B1 B2]. split; [|by destruct (show_num a)].
    apply Forall_app. split; [done|]. constructor; auto.
  - intros Hs. destruct (Hd s Hs) as [S1 _]. split; [|done]. constructor; [auto|]. constructor; auto.
  - intros (Ha & Hb & Hs). destruct (Hd a Ha) as [A1 A2], (Hd b Hb) as [B1 B2], (Hd s Hs) as [S1 S2].
    split; [|by destruct (show_num a)]. apply Forall_app. split; [done|]. constructor; [auto|].
    apply Forall_app. split; [done|]. constructor; auto.
Qed.

Lemma entry_chars_not (s : text) c : Forall entry_char s -> ~ entry_char c -> c ∉ s.
Proof. intros Hs Hc Hin. rewrite Forall_forall in Hs. auto. Qed.

(** No letter, comma or blank is an entry character. *)
Lemma entry_char_range c : entry_char c -> 42 <= c <= 57 /\ c <> 44.
Proof. unfold entry_char, is_digit. intros [Hd|Hc]; reflect_bools; lia. Qed.

Lemma upper_entry s : Forall entry_char s -> to_upper <$> s = s.
Proof.
  induction 1 as [|c s Hc _ IH]; [done|]. csimpl. rewrite IH. f_equal. apply entry_char_range in Hc.
  unfold to_upper. by rewrite (proj2 (Z.leb_gt 97 c)) by lia.
Qed.

Lemma nth_of_entry s field : Forall entry_char s -> nth_of s field = inl (s, None).
Proof.
  intros Hs. assert (Hno : forall c, ~ 42 <= c <= 57 -> c ∉ s).
  { intros c Hc. apply entry_chars_not; [done|]. intros ?%entry_char_range. lia. }
  unfold nth_of. rewrite contains_false by (apply Hno; vm_compute; intros [H1 H2]; congruence).
  destruct (list.last s) as [c|] eqn:E; [|done]. apply last_Some in E as [s' ->].
  apply Forall_app in Hs as [_ Hc]. apply Forall_cons in Hc as [Hc _]. apply entry_char_range in Hc.
  change (ch "L") with 76. change (ch "l") with 108.
  by rewrite !(proj2 (Z.eqb_neq _ _)) by lia.
Qed.

Lemma contains_w_entry s : Forall entry_char s -> contains_w s = false.
Proof.
  intros Hs. unfold contains_w. rewrite upper_entry by done. apply contains_false, entry_chars_not; [done|].
  intros Hc%entry_char_range. vm_compute in Hc. destruct Hc as [[H1 H2] _]. congruence.
Qed.

Lemma offset_base field : offset_of field = Fin (- base field).
Proof. unfold offset_of, base. by destruct ((field =? 3)%nat || (field =? 4)%nat). Qed.

Lemma base_range field : 0 <= base field <= 1.
Proof. unfold base. destruct (_ || _); lia. Qed.

Lemma shifted field n : 0 <= n < 100 -> add (integer (show_num n)) (Fin (- base field)) = Fin (n - base field).
Proof.
  intros Hn. destruct (show_num_digits n Hn) as (_ & _ & _ & ->). simpl. pose proof (base_range field).
  rewrite rnd_small by lia. f_equal.
Qed.

Lemma minus_not_digit c : is_digit c = true -> (45 =? c) = false /\ (47 =? c) = false /\ (c =? 45) = false /\ (c =? 47) = false.
Proof. unfold is_digit. intros H. reflect_bools. rewrite !(proj2 (Z.eqb_neq _ _)) by lia. done. Qed.

Lemma split_span (sep : Z -> bool) a b c :
  (forall d, is_digit d = true -> sep d = false) -> sep c = true -> 0 <= a < 100 -> 0 <= b < 100 ->
  split sep (show_num a ++ c :: show_num b) = [show_num a; show_num b].
Proof.
  intros Hd Hc Ha Hb. destruct (show_num_digits a Ha) as [Da _], (show_num_digits b Hb) as [Db _]. unfold split.
  rewrite split_go_first, split_go_none by (done || by apply digits_sep). done.
Qed.

Lemma check_step p field from to s nth input :
  from <= to -> 1 <= s <= LENGTHS field ->
  rbind (check_range (Fin from) (Fin to) (Some (Fin s)) field input)
    (fun _ => set_range (range_fuel field) p field (Fin from) (Fin to) (Fin s) nth) =
  set_range (range_fuel field) p field (Fin from) (Fin to) (Fin s) nth.
Proof.
  intros Hft Hs. unfold check_range. simpl. rewrite (proj2 (Z.ltb_ge to from)) by lia.
  rewrite bool_decide_eq_false_2 by (intros [= ->]; lia). rewrite (proj2 (Z.ltb_ge (LENGTHS field) s)) by lia. done.
Qed.

Lemma fuel_enough field a b s : (field <= 5)%nat -> base field <= a -> b <= top field -> 1 <= s ->
  b - a < Z.of_nat (range_fuel field) * s.
Proof.
  intros Hf Ha Hb Hs. pose proof (LENGTHS_range field). unfold range_fuel. rewrite Z2Nat.id by lia.
  unfold top in Hb. destruct (field =? 5)%nat eqn:E; [apply Nat.eqb_eq in E; subst field; unfold base in *; simpl in *; nia|].
  pose proof (base_range field). nia.
Qed.

Lemma piece_star p field : wf p -> (field <= 6)%nat ->
  part_piece p field (show_entry Star) = inl (select p field (selects field (denotes field Star))).
Proof.
  intros Hw Hf. unfold part_piece. rewrite (bool_decide_eq_true_2 (show_entry Star = lit "*")) by done.
  simpl. f_equal. unfold select. f_equal. unfold upd. rewrite <- imap_const. by apply imap_ext.
Qed.

Lemma piece_one p field n : wf p -> (field <= 5)%nat -> entry_in field (One n) ->
  part_piece p field (show_entry (One n)) = inl (select p field (selects field (denotes field (One n)))).
Proof.
  intros Hw Hf Hin. pose proof (entry_small field _ Hf Hin) as Hs. simpl in Hs, Hin. cbn [show_entry].
  destruct (show_entry_chars (One n) Hs) as [Hc Hne]. cbn [show_entry] in Hc, Hne.
  destruct (show_num_digits n Hs) as (Hd & _ & _ & Hi). unfold part_piece.
  rewrite (bool_decide_eq_false_2 (show_num n = [])) by done. cbn [andb].
  rewrite bool_decide_eq_false_2.
  2: { intros E. rewrite E in Hd. apply Forall_cons in Hd as [Hd _]. done. }
  rewrite !contains_false by (by apply digits_not). cbn [orb]. rewrite nth_of_entry by done. cbn [rbind].
  rewrite contains_w_entry by done. cbn [andb negb]. rewrite offset_base, shifted by done. cbn [is_nan].
  rewrite set_value by (done || lia). f_equal. apply select_ext; [done|lia|]. intros i Hi'.
  unfold selects, denotes. replace (n - base field + base field) with n by lia.
  by rewrite (Z.eqb_sym n (i + base field)), (Z.eqb_sym n 7).
Qed.

(** The opening of [part_piece] on a range or a stepping. *)
Lemma piece_range p field e range stepping :
  (field <= 5)%nat -> small e -> (1 < length (show_entry e))%nat ->
  contains (ch "-") (show_entry e) = range -> contains (ch "/") (show_entry e) = stepping -> range || stepping = true ->
  part_piece p field (show_entry e) =
    rbind (bounds field (Fin (- base field)) range stepping (show_entry e) (show_entry e))
      (fun '(from, to, step) =>
         rbind (check_range from to step field (show_entry e))
           (fun _ => set_range (range_fuel field) p field from to (default (Fin 1) step) None)).
Proof.
  intros Hf Hs Hlen Hr Hst Hrs. destruct (show_entry_chars e Hs) as [Hc Hne]. unfold part_piece.
  rewrite (bool_decide_eq_false_2 (show_entry e = [])) by done. cbn [andb].
  rewrite bool_decide_eq_false_2 by (intros E; rewrite E in Hlen; simpl in Hlen; lia).
  rewrite Hr, Hst, Hrs, contains_w_entry, nth_of_entry by done. cbn [rbind]. by rewrite offset_base.
Qed.

Lemma show_num_length n : (1 <= length (show_num n))%nat.
Proof. unfold show_num. destruct (_ <? _); simpl; lia. Qed.

Lemma piece_span p field a b : wf p -> (field <= 5)%nat -> entry_in field (Span a b) ->
  part_piece p field (show_entry (Span a b)) = inl (select p field (selects field (denotes field (Span a b)))).
Proof.
  intros Hw Hf Hin. pose proof (entry_small field _ Hf Hin) as Hs. pose proof Hs as [Ha Hb]. pose proof Hin as [Hab Hbt].
  destruct (show_num_digits a Ha) as [Da _], (show_num_digits b Hb) as [Db _].
  rewrite (piece_range p field (Span a b) true false); [|done|done| | | |done].
  - cbn [show_entry]. unfold bounds. cbn [andb]. unfold split_on. change (ch "-") with 45.
    rewrite split_span by (done || (intros d Hd; by apply minus_not_digit)). rewrite !shifted by done. cbn [is_nan rbind].
    unfold check_range. simpl lt. rewrite (proj2 (Z.ltb_ge _ _)) by lia. cbn [rbind default].
    rewrite set_stride; [|done|done|lia|lia|lia|apply fuel_enough; [done|lia..]].
    f_equal. apply select_ext; [done|lia|]. intros i Hi. unfold selects, stride, denotes.
    rewrite !Z.mod_1_r. by rewrite !andb_true_r.
  - simpl. rewrite length_app. simpl. pose proof (show_num_length a). pose proof (show_num_length b). lia.
  - apply contains_true. simpl. change (ch "-") with 45. set_solver.
  - apply contains_false. simpl. change (ch "/") with 47. rewrite elem_of_app, elem_of_cons.
    pose proof (digits_not 47 _ Da eq_refl). pose proof (digits_not 47 _ Db eq_refl). naive_solver lia.
Qed.

Lemma piece_every p field s : wf p -> (field <= 5)%nat -> entry_in field (Every s) ->
  part_piece p field (show_entry (Every s)) = inl (select p field (selects field (denotes field (Every s)))).
Proof.
  intros Hw Hf Hin. pose proof (entry_small field _ Hf Hin) as Hs. simpl in Hs, Hin.
  destruct (show_num_digits s Hs) as (Ds & _ & _ & Hi). pose proof (base_range field). pose proof (LENGTHS_range field).
  rewrite (piece_range p field (Every s) false true); [|done|done| | | |done].
  - cbn [show_entry]. unfold bounds. cbn [andb]. unfold split_on, split. change (ch "/") with 47.
    change (42 :: 47 :: show_num s) with ([42] ++ 47 :: show_num s).
    rewrite split_go_first, split_go_none by (done || (apply digits_sep; [done|]; intros d Hd; by apply minus_not_digit) || (by apply Forall_singleton)).
    change (reverse [] ++ [42]) with (lit "*"). rewrite bool_decide_eq_true_2 by done. cbn [negb].
    change (reverse [] ++ show_num s) with (show_num s). rewrite Hi. cbn [is_nan rbind default].
    rewrite check_step by lia.
    replace 0 with (base field - base field) at 1 by lia.
    replace (LENGTHS field - 1) with (LENGTHS field - 1 + base field - base field) by lia.
    assert (Htop : LENGTHS field - 1 + base field <= top field).
    { unfold top. destruct (field =? 5)%nat eqn:E; [|lia]. apply Nat.eqb_eq in E. subst field. vm_compute. congruence. }
    rewrite set_stride; [|done|done|lia|lia|lia|apply fuel_enough; [done|lia..]].
    f_equal. apply select_ext; [done|lia|]. intros i Hi'. unfold selects, stride, denotes.
    rewrite (proj2 (Z.leb_le (base field) (i + base field))), (proj2 (Z.leb_le (i + base field) _)) by lia. cbn [andb].
    destruct (i =? 0) eqn:E0; [|by rewrite !andb_false_r]. reflect_bools. subst i.
    replace (0 + base field - base field) with 0 by lia. by rewrite Z.mod_0_l by lia.
  - simpl. pose proof (show_num_length s). lia.
  - apply contains_false. simpl. change (ch "-") with 45. pose proof (digits_not 45 _ Ds eq_refl). 
    rewrite !elem_of_cons. naive_solver lia.
  - apply contains_true. simpl. change (ch "/") with 47. set_solver.
Qed.

Lemma piece_span_every p field a b s : wf p -> (field <= 5)%nat -> entry_in field (SpanEvery a b s) ->
  part_piece p field (show_entry (SpanEvery a b s)) =
    inl (select p field (selects field (denotes field (SpanEvery a b s)))).
Proof.
  intros Hw Hf Hin. pose proof (entry_small field _ Hf Hin) as Hs. pose proof Hs as (Ha & Hb & Hst).
  pose proof Hin as (Hab & Hbt & Hsl). pose proof (LENGTHS_range field).
  destruct (show_num_digits a Ha) as (Da & _ & Aa & _), (show_num_digits b Hb) as (Db & _ & Ab & _),
    (show_num_digits s Hst) as (Ds & _ & As & Hi).
  rewrite (piece_range p field (SpanEvery a b s) true true); [|done|done| | | |done].
  - cbn [show_entry]. unfold bounds. cbn [andb]. unfold split. change (ch "-") with 45. change (ch "/") with 47.
    assert (Hsep : forall d, is_digit d = true -> (d =? 45) || (d =? 47) = false).
    { intros d Hd. destruct (minus_not_digit d Hd) as (_ & _ & -> & ->). done. }
    rewrite split_go_first by (done || by apply digits_sep). cbn [reverse app].
    pose proof (split_span (fun c => (c =? 45) || (c =? 47)) b s 47 Hsep eq_refl Hb Hst) as E. unfold split in E. rewrite E.
    change (reverse [] ++ show_num a) with (show_num a).
    rewrite Aa, Ab, As, !shifted, Hi by done. cbn [andb rbind default].
    rewrite check_step by lia. rewrite set_stride; [done|done|done|lia|lia|lia|apply fuel_enough; [done|lia..]].
  - simpl. rewrite length_app. simpl. pose proof (show_num_length a). lia.
  - apply contains_true. simpl. change (ch "-") with 45. set_solver.
  - apply contains_true. simpl. change (ch "/") with 47. set_solver.
Qed.

Lemma piece_entry p field e : wf p -> (field <= 5)%nat -> entry_in field e ->
  part_piece p field (show_entry e) = inl (select p field (selects field (denotes field e))).
Proof.
  destruct e; [intros; apply piece_star; [done|lia]|apply piece_one|apply piece_span|apply piece_every|apply piece_span_every].
Qed.

(** *** Lists of entries *)

Definition any (field : nat) (es : list entry) (v : Z) : bool := existsb (fun e => denotes field e v) es.

Lemma selects_or field D D' i : selects field D i || selects field D' i = selects field (fun v => D v || D' v) i.
Proof.
  unfold selects. destruct (D (i + base field)), (D' (i + base field)), ((field =? 5)%nat && (i =? 0)), (D 7), (D' 7); done.
Qed.

Lemma select_none p field D : wf p -> (field <= 6)%nat -> (forall i, 0 <= i < LENGTHS field -> D i = false) ->
  select p field D = p.
Proof.
  intros Hw Hf HD. rewrite (select_ext p field D (fun _ => false)) by done. unfold select. rewrite upd_none.
  apply set_mask_id; [apply Hw|done].
Qed.

Lemma parts_entries field es : forall p, wf p -> (field <= 5)%nat -> Forall (entry_in field) es ->
  parts_go p field (show_entry <$> es) = inl (select p field (selects field (any field es))).
Proof.
  induction es as [|e es IH]; intros p Hw Hf He; cbn [fmap list_fmap parts_go].
  { f_equal. symmetry. apply select_none; [done|lia|]. intros i Hi. unfold selects, any. simpl. by rewrite andb_false_r. }
  apply Forall_cons in He as [He Hes]. rewrite piece_entry by done. cbn [rbind].
  rewrite IH; [|by apply wf_select; [|lia]|done..]. f_equal. rewrite select_select by (apply Hw || lia).
  apply select_ext; [done|lia|]. intros i Hi. by rewrite selects_or.
Qed.

Lemma split_join sep c l : l <> [] -> sep c = true -> Forall (Forall (fun d => sep d = false)) l ->
  split sep (join c l) = l.
Proof.
  intros Hl Hc. unfold split. induction l as [|x l IH]; [done|]. intros Hall. apply Forall_cons in Hall as [Hx Hall].
  destruct l as [|y l]; [cbn [join]; by rewrite split_go_none|].
  change (join c (x :: y :: l)) with (x ++ c :: join c (y :: l)). rewrite split_go_first by done. by rewrite IH.
Qed.

Lemma entries_chars es : Forall small es -> Forall (Forall entry_char) (show_entry <$> es).
Proof. intros Hs. apply Forall_fmap. eapply Forall_impl; [exact Hs|]. intros e He. by apply show_entry_chars. Qed.

Lemma part_field p field es : wf p -> (field <= 5)%nat -> es <> [] -> Forall (entry_in field) es ->
  part p field (show_field es) = inl (select p field (selects field (any field es))).
Proof.
  intros Hw Hf Hne He. assert (Hc : Forall (Forall entry_char) (show_entry <$> es)).
  { apply entries_chars. eapply Forall_impl; [exact He|]. intros e. by apply entry_small. }
  unfold part, show_field. destruct (contains (ch ",") _) eqn:E.
  - unfold split_on. rewrite split_join; [by apply parts_entries|by destruct es|done|].
    eapply Forall_impl; [exact Hc|]. intros x Hx. eapply Forall_impl; [exact Hx|]. intros d Hd%entry_char_range.
    apply Z.eqb_neq. change (ch ",") with 44. lia.
  - destruct es as [|e [|e' es]]; [done| |].
    + apply (parts_entries field [e] p Hw Hf) in He. cbn [fmap list_fmap parts_go] in He.
      cbn [fmap list_fmap join]. rewrite <- He. by destruct (part_piece _ _ _).
    + exfalso. apply bool_decide_eq_false in E. apply E. cbn [fmap list_fmap join]. change (ch ",") with 44. set_solver.
Qed.

Definition field_char (c : Z) : Prop := entry_char c \/ c = 44.

Lemma show_field_chars es : es <> [] -> Forall small es -> Forall field_char (show_field es) /\ show_field es <> [].
Proof.
  intros Hne Hs. unfold show_field. induction es as [|e es IH]; [done|]. apply Forall_cons in Hs as [He Hs].
  destruct (show_entry_chars e He) as [Hc Hn].
  assert (Hf : Forall field_char (show_entry e)) by (eapply Forall_impl; [exact Hc|]; by left).
  destruct es as [|e' es]; [done|]. destruct (IH ltac:(done) Hs) as [Hi _].
  change (join 44 (show_entry <$> e :: e' :: es)) with (show_entry e ++ 44 :: join 44 (show_entry <$> e' :: es)).
  split; [|by destruct (show_entry e)]. apply Forall_app. split; [done|]. constructor; [by right|done].
Qed.

Lemma field_char_range c : field_char c -> 42 <= c <= 57 /\ c <> 43.
Proof. intros [Hc| ->]; [|lia]. apply entry_char_range in Hc as Hr. unfold entry_char, is_digit in Hc.
  destruct Hc as [Hd|Hc]; reflect_bools; lia. Qed.

(** Characters the rewriting steps of the parser leave alone. *)
Definition plain (s : text) : Prop := Forall (fun c => 32 <= c <= 57) s.

Lemma plain_case s : plain s -> to_lower <$> s = s /\ to_upper <$> s = s.
Proof.
  induction 1 as [|c s Hc _ [IH1 IH2]]; [done|]. csimpl. rewrite IH1, IH2. unfold to_lower, to_upper.
  rewrite (proj2 (Z.leb_gt 65 c)), (proj2 (Z.leb_gt 97 c)) by lia. done.
Qed.

Lemma plain_field s : Forall field_char s -> plain s.
Proof. intros Hs. eapply Forall_impl; [exact Hs|]. intros c Hc%field_char_range. lia. Qed.

Lemma plain_not s c : plain s -> 57 < c -> c ∉ s.
Proof. intros Hs Hc Hin. unfold plain in Hs. rewrite Forall_forall in Hs. specialize (Hs c Hin). simpl in Hs. lia. Qed.

Lemma replace_plain from to c s : plain s -> c ∈ from -> 57 < c -> replace_ci s from to = s.
Proof.
  intros Hs Hin Hc. unfold replace_ci. induction Hs as [|d s Hd Hs IH]; [done|]. cbn [replace_go].
  rewrite bool_decide_eq_false_2; [by rewrite IH|]. intros E. rewrite <- E in Hin.
  assert (Hp : plain (d :: s)) by (by constructor). destruct (plain_case _ Hp) as [El _]. rewrite El in Hin.
  apply (plain_not _ c Hp Hc). rewrite <- (take_drop (length from) (d :: s)). set_solver.
Qed.

Definition lettered (names : list (string * string)) : bool :=
  forallb (fun p => existsb (fun c => 57 <? c) (lit p.1)) names.

Lemma replace_names_plain names s : plain s -> lettered names = true -> replace_names names s = s.
Proof.
  intros Hs. unfold replace_names. induction names as [|p names IH]; [done|]. cbn [fold_left]. intros Hl.
  change (existsb (fun c => 57 <? c) (lit p.1) && lettered names = true) in Hl. reflect_bools.
  apply existsb_exists in H as (c & Hc%list_elem_of_In & Hlt). reflect_bools. rewrite (replace_plain _ _ c) by done. auto.
Qed.

Lemma day_entry_plain s : plain s -> day_entry s = (s, false, false).
Proof.
  intros Hs. unfold day_entry. destruct (plain_case s Hs) as [El Eu].
  assert (Hno : eq_ignore_case s (lit "LW") = false).
  { apply bool_decide_eq_false_2. rewrite El. intros ->. apply (plain_not _ 108 Hs); [lia|]. by left. }
  rewrite Hno, Eu, contains_false; [done|]. apply plain_not; [done|]. by vm_compute.
Qed.

Lemma replace_question s : plain s -> replace_char (ch "?") (ch "*") s = s.
Proof.
  unfold replace_char. induction 1 as [|c s Hc _ IH]; [done|]. csimpl. rewrite IH. change (ch "?") with 63.
  by rewrite (proj2 (Z.eqb_neq c 63)) by lia.
Qed.

Lemma weekday_entry_field s : Forall field_char s -> weekday_entry s = inl (s, false).
Proof.
  destruct 1 as [|c s Hc _]; [done|]. apply field_char_range in Hc. unfold weekday_entry. change (ch "+") with 43.
  by rewrite (proj2 (Z.eqb_neq c 43)) by lia.
Qed.

Lemma allowed_field i s : Forall field_char s -> forallb (allowed i) s = true.
Proof.
  induction 1 as [|c s Hc _ IH]; [done|]. cbn [forallb]. rewrite IH, andb_true_r. unfold allowed.
  destruct Hc as [[-> | [-> | [-> | ->]]]| ->]; done.
Qed.

Lemma trim_elem c s : c ∈ trim s -> c ∈ s.
Proof.
  assert (Hskip : forall s, c ∈ skip_whitespace s -> c ∈ s).
  { induction s0 as [|d s0 IH]; [done|]. simpl. destruct (whitespace d); [|done]. intros Hc. right. by apply IH. }
  unfold trim. rewrite elem_of_reverse. intros Hc%Hskip. rewrite elem_of_reverse in Hc. by apply Hskip.
Qed.

Lemma nickname_plain s : plain s -> nickname s = inl s.
Proof.
  intros Hs. assert (Ht : plain (trim s)).
  { apply Forall_forall. intros c Hc%trim_elem. unfold plain in Hs. rewrite Forall_forall in Hs. auto. }
  destruct (plain_case _ Ht) as [El _]. unfold nickname. rewrite El.
  assert (Hn : forall x, 64 ∈ lit x -> bool_decide (trim s = lit x) = false).
  { intros x Hx. apply bool_decide_eq_false_2. intros E. apply (plain_not _ 64 Ht); [lia|]. by rewrite E. }
  rewrite !Hn by (by left). done.
Qed.

Lemma encoded_plain s : plain s -> encoded s = s.
Proof.
  induction 1 as [|c s Hc _ IH]; [done|]. unfold encoded in *. csimpl. rewrite IH.
  by rewrite (proj2 (Z.leb_gt 0xd800 c)) by lia.
Qed.

Lemma field_char_whitespace c : field_char c -> whitespace c = false.
Proof.
  intros Hc%field_char_range. unfold whitespace.
  repeat match goal with
  | |- context [?a <=? ?b] => destruct (a <=? b) eqn:?; reflect_bools; simpl; try lia
  | |- context [?a =? ?b] => destruct (a =? b) eqn:?; reflect_bools; simpl; try lia
  end; done.
Qed.

Lemma upd_star field n : upd field (selects field (denotes field Star)) (replicate n 0) = replicate n (full field).
Proof.
  apply list_eq. intros i. unfold upd. rewrite list_lookup_imap. destruct (decide (i < n)%nat).
  - by rewrite !lookup_replicate_2.
  - assert (Hn : forall x : Z, replicate n x !! i = None) by (intros x; apply lookup_replicate_None; lia).
    by rewrite !Hn.
Qed.

(** *** Expressions *)

Record Spec := MkSpec {
  sp_minute : list entry; sp_hour : list entry; sp_day : list entry; sp_month : list entry; sp_weekday : list entry
}.

(** The entries of field [1..5]. *)
Definition entries (c : Spec) : list (list entry) :=
  [sp_minute c; sp_hour c; sp_day c; sp_month c; sp_weekday c].
Definition show_spec (c : Spec) : text := join 32 (show_field <$> entries c).
Definition field_ok (field : nat) (es : list entry) : Prop := es <> [] /\ Forall (entry_in field) es.
Record spec_ok (c : Spec) : Prop := SpecOk {
  so_minute : field_ok 1 (sp_minute c);
  so_hour : field_ok 2 (sp_hour c);
  so_day : field_ok 3 (sp_day c);
  so_month : field_ok 4 (sp_month c);
  so_weekday : field_ok 5 (sp_weekday c)
}.

Lemma field_ok_text field es : (field <= 5)%nat -> field_ok field es ->
  Forall field_char (show_field es) /\ show_field es <> [] /\ plain (show_field es).
Proof.
  intros Hf [Hne He]. destruct (show_field_chars es Hne) as [H1 H2].
  { eapply Forall_impl; [exact He|]. intros e. by apply entry_small. }
  split_and!; [done..|by apply plain_field].
Qed.

Lemma fill_fields p c : wf p -> spec_ok c ->
  fill p 0 [[48]; show_field (sp_minute c); show_field (sp_hour c); show_field (sp_day c);
            show_field (sp_month c); show_field (sp_weekday c); [42]] =
  inl (select (select (select (select (select (select (select p 0 (selects 0 (any 0 [One 0])))
    1 (selects 1 (any 1 (sp_minute c)))) 2 (selects 2 (any 2 (sp_hour c)))) 3 (selects 3 (any 3 (sp_day c))))
    4 (selects 4 (any 4 (sp_month c)))) 5 (selects 5 (any 5 (sp_weekday c)))) 6 (selects 6 (denotes 6 Star))).
Proof.
  intros Hw [[M1 M2] [H1 H2] [D1 D2] [O1 O2] [W1 W2]]. cbn [fill].
  change [48] with (show_field [One 0]). rewrite (part_field p 0 [One 0]) by (try lia; try done; by repeat constructor).
  cbn [rbind].
  do 5 (match goal with |- context [part ?q ?f _] =>
    assert (wf q) by (repeat (apply wf_select; [|lia]); done); rewrite (part_field q f) by (done || lia); cbn [rbind] end).
  change [42] with (show_entry Star).
  match goal with |- context [part ?q 6 _] => assert (wf q) by (repeat (apply wf_select; [|lia]); done);
    change (part q 6 (show_entry Star)) with (part_piece q 6 (show_entry Star)); rewrite piece_star by (done || lia) end.
  done.
Qed.

Lemma mask_select_ne p field field' D : field <> field' -> mask (select p field D) field' = mask p field'.
Proof. apply mask_set_ne. Qed.
Lemma mask_select_eq p field D : length (fields p) = 7%nat -> (field <= 7)%nat ->
  mask (select p field D) field = upd field D (mask p field).
Proof. apply mask_set_eq. Qed.
Lemma select_fields p field D : length (fields (select p field D)) = length (fields p).
Proof. apply set_mask_fields. Qed.

(** The flags of a pattern. *)
Definition flags (p : Pattern) : bool * bool * bool * bool * bool :=
  (last p, last_weekday p, star_dom p, star_dow p, and p).
Lemma flags_select p field D : flags (select p field D) = flags p.
Proof. unfold select, set_mask. by destruct (field =? 7)%nat. Qed.

Lemma parse_spec (c : Spec) :
  spec_ok c -> exists p, parse (show_spec c) = inl p /\
    (forall k es, entries c !! k = Some es ->
       mask p (S k) = upd (S k) (selects (S k) (any (S k) es)) (replicate (Z.to_nat (LENGTHS (S k))) 0)) /\
    mask p 0 = upd 0 (Z.eqb 0) (replicate 60 0) /\ mask p 6 = replicate (Z.to_nat 10000) 1 /\ nearest p = replicate 31 0 /\
    flags p = (false, false, bool_decide (show_field (sp_day c) = [42]),
               bool_decide (show_field (sp_weekday c) = [42]), false).
Proof.
  intros Hok. pose proof Hok as [F1 F2 F3 F4 F5].
  destruct (field_ok_text 1 _ ltac:(lia) F1) as (C1 & N1 & P1), (field_ok_text 2 _ ltac:(lia) F2) as (C2 & N2 & P2),
    (field_ok_text 3 _ ltac:(lia) F3) as (C3 & N3 & P3), (field_ok_text 4 _ ltac:(lia) F4) as (C4 & N4 & P4),
    (field_ok_text 5 _ ltac:(lia) F5) as (C5 & N5 & P5).
  assert (Hall : Forall (Forall field_char) (show_field <$> entries c))
    by (repeat (apply Forall_cons; split; [done|]); by apply Forall_nil_2).
  assert (Hplain : plain (show_spec c)).
  { unfold show_spec. cbn [entries fmap list_fmap join].
    repeat (apply Forall_app; split; [done|]; apply Forall_cons; split; [lia|]). done. }
  unfold parse, parse_inner. rewrite encoded_plain, nickname_plain by done. cbn [rbind].
  unfold show_spec. rewrite (split_join whitespace 32); [|done|done|].
  2: { eapply Forall_impl; [exact Hall|]. intros x Hx. eapply Forall_impl; [exact Hx|]. apply field_char_whitespace. }
  cbn [entries fmap list_fmap]. rewrite !filter_cons_True, filter_nil by done. simpl negb. cbv iota.
  rewrite day_entry_plain by done. rewrite !replace_names_plain by (done || reflexivity).
  rewrite weekday_entry_field by done. cbn [rbind fmap list_fmap].
  change (replace_char (ch "?") (ch "*") (lit "0")) with [48]. change (replace_char (ch "?") (ch "*") (lit "*")) with [42].
  rewrite !replace_question by done.
  cbn [check_characters]. rewrite !(allowed_field _ (show_field _)) by done. 
  change (forallb (allowed 0) [48]) with true. change (forallb (allowed 6) [42]) with true. cbn [negb rbind].
  set (p0 := MkPattern _ _ _ _ _ _ _). assert (W0 : wf p0) by apply wf_empty. rewrite fill_fields by done.
  eexists. split; [reflexivity|]. assert (L0 : length (fields p0) = 7%nat) by done. split_and!.
  - intros k es Hk. do 5 (destruct k as [|k]; [injection Hk as <-; 
      repeat (rewrite mask_select_ne by lia); rewrite mask_select_eq by (rewrite ?select_fields; done || lia);
      repeat (rewrite mask_select_ne by lia); done|]). done.
  - repeat (rewrite mask_select_ne by lia). rewrite mask_select_eq by (done || lia).
    apply upd_ext. intros i Hi. unfold selects, any. simpl. rewrite Z.add_0_r, !orb_false_r. apply Z.eqb_sym.
  - rewrite mask_select_eq by (rewrite ?select_fields; done || lia). repeat (rewrite mask_select_ne by lia).
    apply (upd_star 6).
  - change (nearest ?q) with (mask q 7). repeat (rewrite mask_select_ne by lia). reflexivity.
  - rewrite !flags_select. reflexivity.
Qed.

(** C29: The parser agrees with the denotation of the grammar: every printed
    five-field expression whose entries lie in their ranges is accepted, the
    mask of each field selects exactly the values its entries denote (Sunday as
    0 and as 7), seconds are 0, every year is allowed, and the wildcard flags
    tell whether the day and weekday fields are a bare star. *)
Theorem parse_denotes (c : Spec) :
  spec_ok c -> exists p, parse (show_spec c) = inl p /\
    (forall k es, entries c !! k = Some es ->
       mask p (S k) = upd (S k) (selects (S k) (any (S k) es)) (replicate (Z.to_nat (LENGTHS (S k))) 0)) /\
    mask p 0 = upd 0 (Z.eqb 0) (replicate 60 0) /\ mask p 6 = replicate (Z.to_nat 10000) 1 /\ nearest p = replicate 31 0 /\
    flags p = (false, false, bool_decide (show_field (sp_day c) = [42]),
               bool_decide (show_field (sp_weekday c) = [42]), false).
Proof. apply parse_spec. Qed.

Definition workdays : Spec :=
  MkSpec [One 0; One 30] [SpanEvery 9 17 2] [Star] [Star] [Span 1 5; One 7].

Lemma parse_denotes_witness :
  show_spec workdays = lit "0,30 9-17/2 * * 1-5,7" /\
  exists p, parse (show_spec workdays) = inl p /\ mask p 5 = [63; 63; 63; 63; 63; 63; 0] /\ star_dow p = false.
Proof.
  split; [vm_compute; reflexivity|].
  destruct (parse_denotes workdays) as (p & Hp & Hm & _ & _ & _ & Hf).
  { constructor; (split; [discriminate|]); repeat (apply Forall_cons; split; [vm_compute; repeat split; congruence|]);
      apply Forall_nil_2. }
  exists p. split; [exact Hp|]. split; [rewrite (Hm 4%nat _ eq_refl); vm_compute; reflexivity|].
  injection Hf as _ _ _ -> _. vm_compute. reflexivity.
Defined.
End Cron.
