(* ===== verification/CronDate.v ===== *)
(** * The next occurrence of a cron pattern

    [CronDate] models src/cantrip_server_rs/src/project_automations/cron_date.rs:
    civil fields and instants ([utc], [utc_fields], [local], [from_tz]), the day
    test of a pattern, and the search of [next]. A time zone is the offset from
    UTC in seconds it assigns to each instant, which is what the zone database
    provides; the civil fields of an instant are those of the shifted instant.
    A [Result] is an [option] whose [None] is the error. *)
From S2P Require Import Prelude Calendar Cron.
From stdpp Require Import base numbers strings option list.
Open Scope Z_scope.

Module CronDate.
Import Text Calendar.

(** Year, zero-based month, day, hour, minute, second. *)
Record Fields := F { year : Z; month : Z; day : Z; hour : Z; minute : Z; second : Z }.

#[export] Instance fields_eq_dec : EqDecision Fields.
Proof. solve_decision. Defined.

Definition MONTH (m : Z) : Z := default 0 ([31; 28; 31; 30; 31; 30; 31; 31; 30; 31; 30; 31] !! Z.to_nat m).

Definition utc (f : Fields) : option Z :=
  midnight ← utc_milliseconds (year f) (month f) (day f);
  let value := midnight + (hour f * 3600 + minute f * 60 + second f) * 1000 in
  if Z.abs value <=? DATE_LIMIT then Some value else None.

(** The clock of an instant of day [(y, m, d)]. *)
Definition with_clock (date : Z * Z * Z) (ms : Z) : Fields :=
  let '(y, m, d) := date in
  let c := ms mod DAY in
  F y (m - 1) d (c / 3600000) (c / 60000 mod 60) (c / 1000 mod 60).

Definition utc_fields (ms : Z) : option Fields :=
  date ← Calendar.utc_fields ms;
  Some (with_clock date ms).

Section zone.
Context (zone : Z -> Z).

(** The civil fields of [Timestamp::to_zoned]. *)
Definition to_zoned (ms : Z) : Fields :=
  let shifted := ms + zone ms * 1000 in
  with_clock (of_days (shifted / DAY)) shifted.

Definition set_year (f : Fields) (y : Z) : Fields := F y (month f) (day f) (hour f) (minute f) (second f).

Definition local (ms : Z) (intl : bool) : option Fields :=
  f ← utc_fields ms;
  let y :=
    if 9998 <? year f then year f mod 400 + 2400
    else if year f <? -9998 then year f mod 400 - 9600
    else year f in
  representative ← (if y =? year f then Some ms else utc (set_year f y));
  let value := to_zoned representative in
  let y := year value + year f - y in
  Some (set_year value (if intl && (y <=? 0) then 1 - y else y)).

Definition from_tz (f : Fields) : option Z :=
  t ← utc f;
  r ← local t true;
  ur ← utc r;
  let first := t + t - ur in
  h ← local first true;
  if decide (h = f) then
    let earlier := first - 3600000 in
    e ← local earlier true;
    Some (if decide (e = f) then earlier else first)
  else
    uh ← utc h;
    let second := first + t - uh in
    s ← local second true;
    Some (if decide (s = f) then second else Z.max first second).
End zone.

Section once.
(** [wire::date_milliseconds] and the zone of the server. *)
Context (date_milliseconds : list Z -> option Z) (environment : Z -> Z).

Definition explicit_zone (expression : list Z) : bool :=
  existsb (fun u => (u =? 0x5a) || (u =? 0x2b) || (u =? 0x2d)) (drop 9 expression).

Definition once_fields (expression : list Z) (zone : Z -> Z) : option Fields :=
  parsed ← date_milliseconds expression;
  let explicit := explicit_zone expression in
  fields ← (if explicit then utc_fields parsed else local environment parsed false);
  timestamp ← from_tz (if explicit then fun _ => 0 else zone) fields;
  local zone timestamp true.

Definition once (expression : list Z) (zone : Z -> Z) (after : Z) : option (option Z) :=
  f ← once_fields expression zone;
  once ← from_tz zone f;
  a ← local zone after true;
  after ← from_tz zone a;
  Some (if after <? once then Some once else None).
End once.

Definition last_day (year month : Z) : option Z :=
  if negb (month =? 1) then Some (MONTH month)
  else
    ms ← utc_milliseconds year (month + 1) 0;
    f ← utc_fields ms;
    Some (day f).

Definition weekday (year month day : Z) : option Z :=
  ms ← utc (F year month day 0 0 0);
  Some ((ms / DAY + 4) mod 7).

(** The loop over the nearest-weekday mask. *)
Fixpoint nearest_match (f : Fields) (last day : Z) (at_ : Z) (mask : list Z) : option bool :=
  match mask with
  | [] => Some false
  | bit :: mask =>
      if bit =? 0 then nearest_match f last day (at_ + 1) mask
      else if last <? at_ then nearest_match f last day (at_ + 1) mask
      else
        w ← weekday (year f) (month f) at_;
        let nearest :=
          if w =? 0 then if at_ =? last then at_ - 2 else at_ + 1
          else if w =? 6 then if at_ =? 1 then at_ + 2 else at_ - 1
          else at_ in
        if day =? nearest then Some true else nearest_match f last day (at_ + 1) mask
  end.

Definition bit (mask i : Z) : bool := negb (Z.land mask (Z.shiftl 1 i) =? 0).

Definition field_mask (p : Cron.Pattern) (field : nat) (i : Z) : Z := default 0 (Cron.mask p field !! Z.to_nat i).

Definition day_match (p : Cron.Pattern) (f : Fields) (day : Z) : option bool :=
  last ← last_day (year f) (month f);
  let matched := negb (field_mask p 3 (day - 1) =? 0) in
  matched ← (if matched then Some true else nearest_match f last day 1 (Cron.nearest p));
  matched ←
    (if Cron.last_weekday p then
       w ← weekday (year f) (month f) last;
       let nearest := if w =? 0 then last - 2 else if w =? 6 then last - 1 else last in
       Some (matched || (day =? nearest))
     else Some matched);
  let matched := matched || (Cron.last p && (day =? last)) in
  if negb (Cron.star_dow p) then
    w ← weekday (year f) (month f) 1;
    let dow := (w + day - 1) mod 7 in
    let mask := field_mask p 5 dow in
    let selected := bit mask ((day - 1) / 7) || (bit mask 5 && (last <? day + 7)) in
    Some (if Cron.and p || Cron.star_dom p then matched && selected else matched || selected)
  else Some matched.

Definition normalize (f : Fields) : option (Fields * bool) :=
  if negb ((0 <=? month f) && (month f <=? 11))
     || (day f <? 1) || (MONTH (month f) <? day f)
     || (59 <? hour f) || (59 <? minute f) || (59 <? second f)
     || (hour f <? 0) || (minute f <? 0) || (second f <? 0)
  then
    ms ← utc f;
    f ← utc_fields ms;
    Some (f, true)
  else Some (f, false).

(** ** The search *)

(** The field a stage moves, and the fields below it reset. *)
Definition get (stage : nat) (f : Fields) : Z :=
  match stage with
  | 0%nat => month f | 1%nat => day f | 2%nat => hour f | 3%nat => minute f | _ => second f
  end.
Definition put (stage : nat) (v : Z) (f : Fields) : Fields :=
  match stage with
  | 0%nat => F (year f) v (day f) (hour f) (minute f) (second f)
  | 1%nat => F (year f) (month f) v (hour f) (minute f) (second f)
  | 2%nat => F (year f) (month f) (day f) v (minute f) (second f)
  | 3%nat => F (year f) (month f) (day f) (hour f) v (second f)
  | _ => F (year f) (month f) (day f) (hour f) (minute f) v
  end.
Definition offset (stage : nat) : Z := if (stage =? 1)%nat then -1 else 0.
Definition mask_of (stage : nat) : nat := (4 - stage)%nat.

Definition reset_below (stage : nat) (f : Fields) : Fields :=
  fold_left (fun f lower => put lower (- offset lower) f) (seq (S stage) (4 - stage)) f.

(** [f[if stage == 0 { 0 } else { field[stage - 1] }] += 1]. *)
Definition carry (stage : nat) (f : Fields) : Fields :=
  match stage with
  | O => F (year f + 1) (month f) (day f) (hour f) (minute f) (second f)
  | S s => put s (get s f + 1) f
  end.

(** The first value from [value] on, among [n], that the stage accepts. *)
Fixpoint scan (test : Z -> option bool) (n : nat) (value : Z) : option (option Z) :=
  match n with
  | O => Some None
  | S n =>
      if value <? 0 then scan test n (value + 1)
      else
        ok ← test value;
        if (ok : bool) then Some (Some value) else scan test n (value + 1)
  end.

Definition test (p : Cron.Pattern) (f : Fields) (stage : nat) (value : Z) : option bool :=
  if (stage =? 1)%nat then day_match p f (value - offset stage)
  else Some (negb (field_mask p (mask_of stage) value =? 0)).

Definition select (p : Cron.Pattern) (f : Fields) (stage : nat) : option (option Z) :=
  let from := get stage f + offset stage in
  found ← scan (test p f stage) (Z.to_nat (len (Cron.mask p (mask_of stage)) - from)) from;
  Some (match found with Some v => Some (v - offset stage) | None => None end).

Inductive Exit := Failed | NotFound | Found (f : Fields).

(** The end of an iteration that settled its stage. *)
Definition advance (f : Fields) (stage : nat) : (Fields * nat) + Exit :=
  let stage := S stage in
  if (stage =? 5)%nat then inr (Found f)
  else if 3000 <=? year f then inr NotFound
  else inl (f, stage).

(** One iteration of the loop. *)
Definition iterate (p : Cron.Pattern) (s : Fields * nat) : (Fields * nat) + Exit :=
  let '(f, stage) := s in
  match select p f stage with
  | None => inr Failed
  | Some selected =>
      if decide (selected = Some (get stage f)) then advance f stage
      else
        let f := reset_below stage f in
        match selected with
        | None =>
            let f := carry stage (put stage (- offset stage) f) in
            match normalize f with
            | None => inr Failed
            | Some (f, _) => inl (f, 0%nat)
            end
        | Some value =>
            match normalize (put stage value f) with
            | None => inr Failed
            | Some (f, true) => inl (f, (stage - 1)%nat)
            | Some (f, false) => advance f stage
            end
        end
  end.

Definition start (zone : Z -> Z) (after : Z) : option Fields :=
  f ← local zone after true;
  '(f, _) ← normalize (put 4 (second f + 1) f);
  Some f.

(** [next], with a bound of [2 ^ 50] on the iterations that is never reached. *)
Definition LOOP : nat := 50.

Definition next (p : Cron.Pattern) (zone : Z -> Z) (after : Z) : option (option Z) :=
  f ← start zone after;
  match Loop.run (iterate p) LOOP (f, 0%nat) with
  | inr (Found f) => t ← from_tz zone f; Some (Some t)
  | inr NotFound => Some None
  | inr Failed => None
  | inl _ => None
  end.

(** ** Civil seconds *)

(** The seconds from 1970 of civil fields read on one clock; month 12 is the
    first month of the next year. *)
Definition T (f : Fields) : Z :=
  days (year f + month f / 12) (month f mod 12 + 1) (day f) * 86400 + hour f * 3600 + minute f * 60 + second f.

Definition of_seconds (n : Z) : Fields := with_clock (of_days (n / 86400)) (n * 1000).

(** Fields that name a second. *)
Record valid_fields (f : Fields) : Prop := Valid {
  vf_month : 0 <= month f <= 11;
  vf_day : 1 <= day f <= month_length (year f) (month f + 1);
  vf_hour : 0 <= hour f < 24;
  vf_minute : 0 <= minute f < 60;
  vf_second : 0 <= second f < 60
}.

(** Years in which [Date.UTC] reads the year as written. *)
Definition in_range (y : Z) : Prop := 100 <= y <= 9000.

Lemma days_range y m d : -100 <= y <= 10000 -> 1 <= m <= 12 -> -100 <= d <= 200 -> Z.abs (days y m d) <= 4000000.
Proof.
  intros Hy Hm Hd. rewrite days_linear by done. set (y' := y - _).
  assert (-101 <= y' <= 10000) by (unfold y'; destruct (m <=? 2); lia).
  assert (0 <= month_start (march_month m) <= 400).
  { destruct (march_month_range m Hm). unfold month_start. Z.to_euclidean_division_equations. lia. }
  cbv zeta. Z.to_euclidean_division_equations. lia.
Qed.

Lemma utc_milliseconds_days y m d : in_range y -> 0 <= m <= 12 -> -10 <= d <= 60 ->
  utc_milliseconds y m d = Some (days (y + m / 12) (m mod 12 + 1) d * 86400000).
Proof.
  intros Hy Hm Hd. unfold in_range in Hy. unfold utc_milliseconds.
  rewrite (proj2 (Z.leb_gt y 99)), andb_false_r by lia.
  assert (0 <= m / 12 <= 1) by (Z.to_euclidean_division_equations; lia).
  assert (0 <= m mod 12 <= 11) by (Z.to_euclidean_division_equations; lia).
  pose proof (days_range (y + m / 12) (m mod 12 + 1) d ltac:(lia) ltac:(lia) ltac:(lia)).
  rewrite (proj2 (Z.leb_le _ _)); [done|]. unfold DATE_LIMIT. lia.
Qed.

(** The fields [normalize] may be given. *)
Record loose (f : Fields) : Prop := Loose {
  lo_year : in_range (year f);
  lo_month : 0 <= month f <= 12;
  lo_day : 0 <= day f <= 60;
  lo_clock : 0 <= hour f <= 60 /\ 0 <= minute f <= 60 /\ 0 <= second f <= 60
}.

Lemma T_range f : loose f -> Z.abs (T f) <= 400000000000.
Proof.
  intros [Hy Hm Hd Hc]. unfold T, in_range in *.
  assert (0 <= month f / 12 <= 1) by (Z.to_euclidean_division_equations; lia).
  assert (0 <= month f mod 12 <= 11) by (Z.to_euclidean_division_equations; lia).
  pose proof (days_range (year f + month f / 12) (month f mod 12 + 1) (day f) ltac:(lia) ltac:(lia) ltac:(lia)). lia.
Qed.

Lemma utc_T f : loose f -> utc f = Some (T f * 1000).
Proof.
  intros Hl. pose proof (T_range f Hl). destruct Hl as [Hy Hm Hd Hc]. unfold utc.
  rewrite utc_milliseconds_days by (done || lia). simpl.
  replace (days _ _ _ * 86400000 + _) with (T f * 1000) by (unfold T; lia).
  rewrite (proj2 (Z.leb_le _ _)); [done|]. unfold DATE_LIMIT. lia.
Qed.

Lemma of_seconds_valid n : valid_fields (of_seconds n) /\ T (of_seconds n) = n.
Proof.
  unfold of_seconds, with_clock. destruct (of_days_valid (n / 86400)) as [Hv Hd].
  destruct (of_days (n / 86400)) as [[y m] d]. destruct Hv as [Hm Hd']. unfold DAY.
  assert (Ec : (n * 1000) mod 86400000 = n mod 86400 * 1000).
  { change 86400000 with (86400 * 1000). by rewrite Z.mul_mod_distr_r. }
  rewrite Ec. set (c := n mod 86400). assert (0 <= c < 86400) by (unfold c; apply Z.mod_pos_bound; lia).
  replace (c * 1000 / 3600000) with (c / 3600) by (Z.to_euclidean_division_equations; lia).
  replace (c * 1000 / 60000) with (c / 60) by (Z.to_euclidean_division_equations; lia).
  replace (c * 1000 / 1000) with c by (Z.to_euclidean_division_equations; lia). split.
  - constructor; simpl; [lia| |Z.to_euclidean_division_equations; lia..]. by replace (m - 1 + 1) with m by lia.
  - unfold T. simpl. rewrite (Z.div_small (m - 1)), (Z.mod_small (m - 1)) by lia.
    replace (m - 1 + 1) with m by lia. rewrite Z.add_0_r, Hd.
    assert (c / 3600 * 3600 + c / 60 mod 60 * 60 + c mod 60 = c) by (Z.to_euclidean_division_equations; lia).
    pose proof (Z.div_mod n 86400 ltac:(lia)) as Hn. fold c in Hn. lia.
Qed.

Lemma with_clock_seconds ms : with_clock (of_days (ms / 86400000)) ms = of_seconds (ms / 1000).
Proof.
  unfold of_seconds, with_clock.
  replace (ms / 1000 / 86400) with (ms / 86400000) by (rewrite Z.div_div by lia; done).
  destruct (of_days (ms / 86400000)) as [[y m] d]. unfold DAY.
  assert (E : (ms / 1000 * 1000) mod 86400000 = ms mod 86400000 / 1000 * 1000) by (Z.to_euclidean_division_equations; lia).
  rewrite E. set (c := ms mod 86400000).
  assert (Hq : forall k, 0 < k -> c / 1000 * 1000 / (k * 1000) = c / (k * 1000)).
  { intros k Hk. rewrite Z.div_mul_cancel_r, (Z.mul_comm k), <- Z.div_div by lia. done. }
  pose proof (Hq 3600 ltac:(lia)) as H1. pose proof (Hq 60 ltac:(lia)) as H2. pose proof (Hq 1 ltac:(lia)) as H3.
  change (3600 * 1000) with 3600000 in H1. change (60 * 1000) with 60000 in H2. change (1 * 1000) with 1000 in H3.
  by rewrite H1, H2, H3.
Qed.

Lemma utc_fields_seconds ms : Z.abs ms <= DATE_LIMIT -> utc_fields ms = Some (of_seconds (ms / 1000)).
Proof.
  intros Hm. unfold utc_fields, Calendar.utc_fields. rewrite (proj2 (Z.ltb_ge _ _)) by lia.
  change (Some (with_clock (of_days (ms / 86400000)) ms) = Some (of_seconds (ms / 1000))). by rewrite with_clock_seconds.
Qed.

(** The order of civil seconds is the order of the fields. *)
Definition date (f : Fields) : Z * Z * Z := (year f, month f + 1, day f).
Definition clock (f : Fields) : Z := hour f * 3600 + minute f * 60 + second f.

Lemma T_date f : 0 <= month f <= 11 -> T f = days (year f) (month f + 1) (day f) * 86400 + clock f.
Proof. intros Hm. unfold T, clock. rewrite Z.div_small, Z.mod_small, Z.add_0_r by lia. lia. Qed.

Lemma valid_date f : valid_fields f -> valid (date f).
Proof. intros [Hm Hd _ _ _]. simpl. lia. Qed.

Lemma T_date_lt f g : valid_fields f -> 0 <= month g <= 11 -> valid (date g) -> 0 <= clock g ->
  date_lt (date f) (date g) -> T f < T g.
Proof.
  intros Hf Hm Hg Hc Hlt. pose proof (valid_date f Hf) as Hv. destruct Hf as [Hfm Hfd Hfh Hfmi Hfs].
  rewrite !T_date by done. pose proof (days_lt _ _ _ _ _ _ Hv Hg Hlt). unfold clock in *. lia.
Qed.

Lemma date_trichotomy a b : date_lt a b \/ a = b \/ date_lt b a.
Proof.
  destruct a as [[y m] d], b as [[y' m'] d']. simpl.
  destruct (Z.lt_trichotomy y y') as [?|[<-|?]]; [by left; left| |by right; right; left].
  destruct (Z.lt_trichotomy m m') as [?|[<-|?]]; [left; right; lia| |right; right; right; lia].
  destruct (Z.lt_trichotomy d d') as [?|[<-|?]]; [left; right; lia|by right; left|right; right; right; lia].
Qed.

Lemma T_inj f g : valid_fields f -> valid_fields g -> T f = T g -> f = g.
Proof.
  intros Hf Hg E. pose proof (valid_date f Hf) as Vf. pose proof (valid_date g Hg) as Vg.
  assert (Cf : 0 <= clock f < 86400) by (destruct Hf; unfold clock; lia).
  assert (Cg : 0 <= clock g < 86400) by (destruct Hg; unfold clock; lia).
  assert (Ed : date f = date g).
  { destruct (date_trichotomy (date f) (date g)) as [Hlt|[E'|Hlt]]; [|done|].
    - pose proof (T_date_lt f g Hf (vf_month g Hg) Vg ltac:(lia) Hlt). lia.
    - pose proof (T_date_lt g f Hg (vf_month f Hf) Vf ltac:(lia) Hlt). lia. }
  rewrite !T_date in E by (apply Hf || apply Hg). unfold date in Ed.
  assert (Ec : clock f = clock g) by (injection Ed as Ey Em Edd; rewrite Ey, Em, Edd in E; lia).
  destruct f as [y1 m1 d1 h1 i1 s1], g as [y2 m2 d2 h2 i2 s2], Hf, Hg. unfold clock in *. simpl in *.
  injection Ed as -> Em ->. f_equal; lia.
Qed.

Lemma of_seconds_T f : valid_fields f -> of_seconds (T f) = f.
Proof. intros Hf. destruct (of_seconds_valid (T f)) as [Hv E]. by apply T_inj. Qed.

(** ** The day test is total *)

Lemma last_day_length y m : in_range y -> 0 <= m <= 11 -> last_day y m = Some (month_length y (m + 1)).
Proof.
  intros Hy Hm. unfold last_day. destruct (decide (m = 1)) as [->|Hne].
  - change (negb (1 =? 1)) with false. cbv iota. rewrite utc_milliseconds_days by (done || lia).
    change ((1 + 1) / 12) with 0. change ((1 + 1) mod 12 + 1) with 3. rewrite Z.add_0_r. rewrite ?bind_value; cbv beta zeta.
    pose proof (month_length_range y 2). unfold in_range in Hy.
    assert (E : days y 3 0 = days y 2 (month_length y 2)).
    { pose proof (days_next_month y 2 ltac:(lia)) as En. change (2 + 1) with 3 in En.
      rewrite (days_day y 3 0), (days_day y 2 (month_length y 2)). lia. }
    pose proof (days_range y 3 0 ltac:(lia) ltac:(lia) ltac:(lia)).
    rewrite utc_fields_seconds by (unfold DATE_LIMIT; lia). rewrite ?bind_value; cbv beta zeta. f_equal.
    set (g := F y 1 (month_length y 2) 0 0 0). assert (Hg : valid_fields g) by (constructor; unfold g; cbn [year month day hour minute second]; change (1 + 1) with 2; lia).
    replace (days y 3 0 * 86400000 / 1000) with (T g).
    + by rewrite of_seconds_T.
    + rewrite T_date by (simpl; lia). unfold clock, g. cbn [year month day hour minute second]. change (1 + 1) with 2.
      rewrite E. Z.to_euclidean_division_equations. lia.
  - replace (m =? 1) with false by (symmetry; by apply Z.eqb_neq). simpl negb. cbv iota. f_equal.
    assert (Hm' : m = 0 \/ m = 2 \/ m = 3 \/ m = 4 \/ m = 5 \/ m = 6 \/ m = 7 \/ m = 8 \/ m = 9 \/ m = 10 \/ m = 11) by lia.
    destruct_or! Hm'; subst m; reflexivity.
Qed.

Lemma weekday_days y m d : in_range y -> 0 <= m <= 11 -> 0 <= d <= 60 ->
  weekday y m d = Some ((days y (m + 1) d + 4) mod 7).
Proof.
  intros Hy Hm Hd. unfold weekday. rewrite utc_T by (constructor; simpl; lia || done). rewrite ?bind_value; cbv beta zeta. do 2 f_equal.
  f_equal. rewrite T_date by (simpl; lia). unfold clock, DAY. simpl. Z.to_euclidean_division_equations. lia.
Qed.

Lemma nearest_total f last d mask : in_range (year f) -> 0 <= month f <= 11 -> last <= 31 ->
  forall at_, 1 <= at_ -> exists b, nearest_match f last d at_ mask = Some b.
Proof.
  intros Hy Hm Hl. induction mask as [|x mask IH]; intros at_ Ha; cbn [nearest_match]; [eauto|].
  destruct (x =? 0); [apply IH; lia|]. destruct (last <? at_) eqn:E; [apply IH; lia|]. reflect_bools.
  rewrite weekday_days by (done || lia). rewrite ?bind_value; cbv beta zeta. destruct (d =? _); [eauto|apply IH; lia].
Qed.

Lemma nearest_match_ym f f' last d mask : year f = year f' -> month f = month f' ->
  forall at_, nearest_match f last d at_ mask = nearest_match f' last d at_ mask.
Proof.
  intros Ey Em. induction mask as [|x mask IH]; intros at_; cbn [nearest_match]; [done|]. rewrite Ey, Em, !IH. done.
Qed.

(** The day test as a function of the month and the day. *)
Definition day_ok (p : Cron.Pattern) (y m d : Z) : bool := default false (day_match p (F y m 1 0 0 0) d).

Lemma day_match_ok p f d : in_range (year f) -> 0 <= month f <= 11 ->
  day_match p f d = Some (day_ok p (year f) (month f) d).
Proof.
  intros Hy Hm. assert (Ht : forall g, in_range (year g) -> 0 <= month g <= 11 -> exists b, day_match p g d = Some b).
  { intros g Hgy Hgm. unfold day_match. rewrite last_day_length by done. rewrite ?bind_value; cbv beta zeta.
    pose proof (month_length_range (year g) (month g + 1)).
    assert (Hn : exists b, (if negb (field_mask p 3 (d - 1) =? 0) then Some true
      else nearest_match g (month_length (year g) (month g + 1)) d 1 (Cron.nearest p)) = Some b).
    { destruct (negb _); [eauto|]. apply nearest_total; done || lia. }
    destruct Hn as [b ->]. rewrite ?bind_value; cbv beta zeta.
    destruct (Cron.last_weekday p), (negb (Cron.star_dow p)); rewrite ?bind_value; cbv beta zeta;
      repeat (rewrite weekday_days by (done || lia); rewrite ?bind_value; cbv beta zeta); eauto. }
  destruct (Ht f Hy Hm) as [b E]. unfold day_ok. rewrite E. f_equal.
  assert (E' : day_match p f d = day_match p (F (year f) (month f) 1 0 0 0) d).
  { unfold day_match. cbn [year month]. destruct (last_day (year f) (month f)); [|done]. rewrite ?bind_value; cbv beta zeta.
    by rewrite (nearest_match_ym f (F (year f) (month f) 1 0 0 0)). }
  rewrite <- E', E. done.
Qed.

(** ** Scanning *)

Lemma scan_spec (ok : Z -> bool) test n : forall v,
  0 <= v -> (forall u, v <= u < v + Z.of_nat n -> test u = Some (ok u)) ->
  exists r, scan test n v = Some r /\
    match r with
    | Some u => v <= u < v + Z.of_nat n /\ ok u = true /\ forall x, v <= x < u -> ok x = false
    | None => forall x, v <= x < v + Z.of_nat n -> ok x = false
    end.
Proof.
  induction n as [|n IH]; intros v Hv Ht; cbn [scan].
  - exists None. split; [done|]. intros x Hx. lia.
  - rewrite (proj2 (Z.ltb_ge v 0)) by lia. rewrite Ht by lia. rewrite ?bind_value; cbv beta zeta. destruct (ok v) eqn:E.
    + exists (Some v). split; [done|]. split; [lia|]. split; [done|]. lia.
    + destruct (IH (v + 1)) as (r & Er & Hr); [lia|intros u Hu; apply Ht; lia|]. exists r. split; [done|].
      destruct r as [u|].
      * destruct Hr as (H1 & H2 & H3). split; [lia|]. split; [done|]. intros x Hx.
        destruct (decide (x = v)) as [->|]; [done|]. apply H3. lia.
      * intros x Hx. destruct (decide (x = v)) as [->|]; [done|]. apply Hr. lia.
Qed.

(** What a stage accepts, in the units of the fields. *)
Definition stage_ok (p : Cron.Pattern) (f : Fields) (stage : nat) (v : Z) : bool :=
  if (stage =? 1)%nat then day_ok p (year f) (month f) v
  else negb (field_mask p (mask_of stage) v =? 0).

(** The values above which a stage has none left. *)
Definition limit (stage : nat) : Z :=
  match stage with 0%nat => 12 | 1%nat => 32 | 2%nat => 24 | _ => 60 end.

Lemma select_spec p f stage :
  Cron.wf p -> (stage <= 4)%nat -> in_range (year f) -> 0 <= month f <= 11 -> 0 <= get stage f + offset stage ->
  exists r, select p f stage = Some r /\
    match r with
    | Some v => get stage f <= v < limit stage /\ stage_ok p f stage v = true /\
        forall x, get stage f <= x < v -> stage_ok p f stage x = false
    | None => forall x, get stage f <= x < limit stage -> stage_ok p f stage x = false
    end.
Proof.
  intros Hw Hst Hy Hm H0. unfold select. set (from := get stage f + offset stage) in *.
  assert (Hlen : len (Cron.mask p (mask_of stage)) = limit stage + offset stage).
  { destruct (Cron.wf_mask p Hw (mask_of stage) ltac:(unfold mask_of; lia)) as [-> _].
    do 5 (destruct stage as [|stage]; [reflexivity|]). lia. }
  rewrite Hlen.
  destruct (scan_spec (fun v => stage_ok p f stage (v - offset stage)) (test p f stage)
    (Z.to_nat (limit stage + offset stage - from)) from H0) as (r & -> & Hr).
  - intros u Hu. unfold test, stage_ok. destruct (stage =? 1)%nat eqn:E1; [by apply day_match_ok|].
    unfold offset. rewrite E1. by rewrite Z.sub_0_r.
  - rewrite ?bind_value; cbv beta zeta. eexists. split; [reflexivity|]. unfold from in *. destruct r as [u|].
    + destruct Hr as (H1 & H2 & H3). split; [lia|]. split; [done|]. intros x Hx.
      specialize (H3 (x + offset stage)). replace (x + offset stage - offset stage) with x in H3 by lia. apply H3. lia.
    + intros x Hx. specialize (Hr (x + offset stage)). replace (x + offset stage - offset stage) with x in Hr by lia.
      apply Hr. lia.
Qed.

(** ** The search *)

(** The fields of the loop: an hour of 24 stands for the next midnight. *)
Record fit (f : Fields) : Prop := Fit {
  ft_month : 0 <= month f <= 11;
  ft_day : 1 <= day f <= month_length (year f) (month f + 1);
  ft_hour : 0 <= hour f <= 24;
  ft_minute : 0 <= minute f < 60;
  ft_second : 0 <= second f < 60;
  ft_midnight : hour f = 24 -> minute f = 0 /\ second f = 0
}.

Lemma fit_valid f : valid_fields f -> fit f.
Proof. intros []. constructor; lia. Qed.

Lemma fit_date f : fit f -> valid (date f).
Proof. intros []. simpl. lia. Qed.

(** The day count of a date. *)
Definition D (f : Fields) : Z := days (year f) (month f + 1) (day f).

Lemma T_D f : 0 <= month f <= 11 -> T f = D f * 86400 + clock f.
Proof. apply T_date. Qed.

Lemma date_le f g : valid (date f) -> valid (date g) -> D f <= D g -> ~ date_lt (date g) (date f).
Proof. intros Hf Hg Hle Hlt. pose proof (days_lt _ _ _ _ _ _ Hg Hf Hlt). unfold D in Hle. lia. Qed.

Lemma days_next y m : 0 <= m <= 11 ->
  days (y + (m + 1) / 12) ((m + 1) mod 12 + 1) 1 = days y (m + 1) 1 + month_length y (m + 1).
Proof.
  intros Hm. destruct (decide (m = 11)) as [->|Hne].
  - change ((11 + 1) / 12) with 1. change ((11 + 1) mod 12 + 1) with 1. change (11 + 1) with 12.
    rewrite days_next_year, (days_day y 12 31). unfold month_length. simpl. lia.
  - rewrite Z.div_small, Z.mod_small, Z.add_0_r by lia. apply days_next_month. lia.
Qed.

(** *** Normalizing *)

Lemma valid_year f : valid_fields f -> days (year f) 1 1 * 86400 <= T f < days (year f + 1) 1 1 * 86400.
Proof.
  intros Hf. pose proof (days_year_bounds _ _ _ (valid_date f Hf)) as Hb. rewrite T_D by apply Hf.
  assert (0 <= clock f < 86400) by (destruct Hf; unfold clock; lia). unfold D. lia.
Qed.

Lemma days_year_lt y y' : days y 1 1 < days y' 1 1 -> y < y'.
Proof. intros Hlt. destruct (Z.le_gt_cases y' y) as [Hle|]; [|done]. apply days_year_mono in Hle. lia. Qed.

Lemma MONTH_length y m : 0 <= m <= 11 -> 28 <= MONTH m <= month_length y (m + 1).
Proof.
  intros Hm. assert (Hm' : m = 0 \/ m = 1 \/ m = 2 \/ m = 3 \/ m = 4 \/ m = 5 \/ m = 6 \/ m = 7 \/ m = 8 \/ m = 9 \/ m = 10 \/ m = 11) by lia.
  destruct_or! Hm'; subst m; unfold month_length; simpl; try destruct (leap y); vm_compute; split; congruence.
Qed.

Lemma loose_year f : loose f -> 1 <= day f ->
  days (year f) 1 1 * 86400 <= T f < days (year f + 2) 1 1 * 86400.
Proof.
  intros [Hy Hm Hd Hc] H1. unfold T.
  assert (Hyear : forall y, days y 1 1 + 365 <= days (y + 1) 1 1).
  { intros y. rewrite days_next_year. rewrite !days_linear by lia. month_consts.
    pose proof (leap_days y). destruct (leap y); lia. }
  destruct (decide (month f = 12)) as [E|Hne].
  - rewrite E. change (12 / 12) with 1. change (12 mod 12 + 1) with 1. rewrite (days_day (year f + 1) 1 (day f)).
    pose proof (Hyear (year f)). pose proof (Hyear (year f + 1)) as H2. replace (year f + 1 + 1) with (year f + 2) in H2 by lia. lia.
  - rewrite Z.div_small, Z.mod_small, Z.add_0_r, (days_day (year f) (month f + 1) (day f)) by lia.
    assert (V : valid (year f, month f + 1, 1)) by (pose proof (month_length_range (year f) (month f + 1)); simpl; lia).
    pose proof (days_year_bounds _ _ _ V). pose proof (Hyear (year f + 1)) as H2.
    replace (year f + 1 + 1) with (year f + 2) in H2 by lia. lia.
Qed.

Lemma renormalize f : loose f -> utc f ≫= utc_fields = Some (of_seconds (T f)).
Proof.
  intros Hl. rewrite utc_T by done. pose proof (T_range f Hl). rewrite ?bind_value; cbv beta zeta.
  rewrite utc_fields_seconds by (unfold DATE_LIMIT; lia). by rewrite Z.div_mul by lia.
Qed.

Lemma renormalize_year f : loose f -> 1 <= day f -> year f <= year (of_seconds (T f)) <= year f + 1.
Proof.
  intros Hl Hd. destruct (of_seconds_valid (T f)) as [Hv ET]. pose proof (valid_year _ Hv) as B1.
  rewrite ET in B1. pose proof (loose_year f Hl Hd) as B2.
  pose proof (days_year_lt (year f) (year (of_seconds (T f)) + 1) ltac:(lia)).
  pose proof (days_year_lt (year (of_seconds (T f))) (year f + 2) ltac:(lia)). lia.
Qed.

(** When the code leaves the fields alone. *)
Definition in_place (f : Fields) : bool :=
  negb (negb ((0 <=? month f) && (month f <=? 11))
     || (day f <? 1) || (MONTH (month f) <? day f)
     || (59 <? hour f) || (59 <? minute f) || (59 <? second f)
     || (hour f <? 0) || (minute f <? 0) || (second f <? 0)).

Lemma normalize_eq f : loose f ->
  normalize f = if in_place f then Some (f, false) else Some (of_seconds (T f), true).
Proof.
  intros Hl. unfold normalize, in_place. destruct (_ || (second f <? 0)); [|done]. cbn [negb].
  pose proof (renormalize f Hl) as E. destruct (utc f) as [ms|]; [|done]. rewrite ?bind_value in *; cbv beta zeta in *.
  by rewrite E.
Qed.

Lemma in_place_fit f :
  in_place f = true -> hour f <= 24 -> (hour f = 24 -> minute f = 0 /\ second f = 0) -> fit f.
Proof.
  unfold in_place. intros E Hh H24. reflect_bools. assert (Hm : 0 <= month f <= 11) by lia.
  pose proof (MONTH_length (year f) (month f) Hm). constructor; lia || done.
Qed.

Lemma normalize_spec f :
  loose f -> 1 <= day f -> hour f <= 24 -> (hour f = 24 -> minute f = 0 /\ second f = 0) ->
  exists f' b, normalize f = Some (f', b) /\ fit f' /\ T f' = T f /\ (b = false -> f' = f) /\
    year f <= year f' <= year f + 1 /\ (hour f' = 24 -> f' = f).
Proof.
  intros Hl Hd Hh H24. rewrite normalize_eq by done. destruct (in_place f) eqn:E.
  - exists f, false. split; [reflexivity|]. split; [by apply in_place_fit|]. split; [reflexivity|].
    split; [reflexivity|]. split; [lia|reflexivity].
  - destruct (of_seconds_valid (T f)) as [Hv ET]. pose proof (renormalize_year f Hl Hd) as Hyr.
    exists (of_seconds (T f)), true. split; [reflexivity|]. split; [by apply fit_valid|]. split; [exact ET|].
    split; [discriminate|]. split; [exact Hyr|]. intros H. destruct Hv. lia.
Qed.

Lemma T_midnight y m d : 0 <= m <= 11 -> T (F y m d 0 0 0) = days y (m + 1) d * 86400.
Proof. intros Hm. rewrite T_D by done. unfold D, clock. simpl. lia. Qed.

Lemma T_next_month y m : 0 <= m <= 11 ->
  T (F y (m + 1) 1 0 0 0) = (days y (m + 1) 1 + month_length y (m + 1)) * 86400.
Proof. intros Hm. rewrite <- days_next by done. unfold T. simpl. lia. Qed.

Section search.
Context (p : Cron.Pattern) (Hwf : Cron.wf p) (Hmonths : Cron.nonempty (Cron.mask p 4)).

(** The fields a pattern selects. *)
Definition matches (g : Fields) : Prop := forall stage, (stage <= 4)%nat -> stage_ok p g stage (get stage g) = true.

(** The date of day [u] counted from the first of a month, past its end. *)
Definition real_ok (y m u : Z) : bool :=
  let '(y', m', d') := of_days (days y (m + 1) u) in day_ok p y' (m' - 1) d'.

(** Scanning past the end of February meets no selected day later than one it
    overlooks. *)
Definition tame : Prop :=
  forall y m u v, in_range y -> 0 <= m <= 11 -> month_length y (m + 1) < u < v -> v <= 31 ->
    day_ok p y m v = true -> real_ok y m u = true -> day_ok p y m u = true.

Lemma stage_ok_limit f stage v : (stage <= 4)%nat -> stage <> 1%nat -> 0 <= v -> stage_ok p f stage v = true -> v < limit stage.
Proof.
  intros Hs H1 Hv. unfold stage_ok. rewrite (proj2 (Nat.eqb_neq stage 1) H1). unfold field_mask.
  destruct (Cron.wf_mask p Hwf (mask_of stage) ltac:(unfold mask_of; lia)) as [Hl _].
  assert (El : len (Cron.mask p (mask_of stage)) = limit stage).
  { rewrite Hl. destruct stage as [|[|stage]]; [done|done|]. do 3 (destruct stage as [|stage]; [done|]). lia. }
  destruct (Cron.mask p (mask_of stage) !! Z.to_nat v) eqn:E; [|done]. intros _. apply lookup_lt_Some in E. lia.
Qed.

Lemma months_found f : fit f -> month f = 0 -> exists v, 0 <= v < 12 /\ stage_ok p f 0 v = true.
Proof.
  intros Hf Hm. apply Exists_exists in Hmonths as (x & [i Hi]%list_elem_of_lookup & Hx).
  destruct (Cron.wf_mask p Hwf 4 ltac:(lia)) as [Hl _]. apply lookup_lt_Some in Hi as Hlt. simpl in Hl.
  exists (Z.of_nat i). split; [lia|]. unfold stage_ok, field_mask, mask_of. simpl.
  rewrite Nat2Z.id, Hi. simpl. by rewrite (proj2 (Z.eqb_neq _ _)).
Qed.

(** *** Where a stage moves to *)

Definition moved (f : Fields) (stage : nat) (v : Z) : Fields := put stage v (reset_below stage f).
Definition carried (f : Fields) (stage : nat) : Fields := carry stage (put stage (- offset stage) (reset_below stage f)).

(** Nothing between [f] and [f1] is selected. *)
Definition skips (f f1 : Fields) : Prop :=
  forall g, valid_fields g -> matches g -> T f <= T g -> T f1 <= T g.

Lemma same_day f g n : fit f -> valid_fields g -> T f <= T g -> T g < (D f + 1) * 86400 + n -> n <= 0 ->
  year g = year f /\ month g = month f /\ day g = day f /\ clock f <= clock g.
Proof.
  intros Hf Hg H1 H2 Hn. pose proof (fit_date f Hf) as Vf. pose proof (valid_date g Hg) as Vg.
  rewrite T_D in H1, H2 by (apply Hf || apply Hg). rewrite (T_D g) in * by apply Hg.
  assert (0 <= clock f) by (destruct Hf; unfold clock; lia). assert (0 <= clock g < 86400) by (destruct Hg; unfold clock; lia).
  assert (E : D g = D f) by lia. pose proof (date_le f g Vf Vg ltac:(lia)) as N1.
  pose proof (date_le g f Vg Vf ltac:(lia)) as N2. unfold date, date_lt in N1, N2. lia.
Qed.

Lemma D_bounds f g n : fit f -> valid_fields g -> T f <= T g -> T g < n * 86400 -> D f <= D g < n.
Proof.
  intros Hf Hg H1 H2. rewrite T_D in H1 by apply Hf. rewrite (T_D g) in * by apply Hg.
  assert (0 <= clock f) by (destruct Hf; unfold clock; lia). assert (0 <= clock g < 86400) by (destruct Hg; unfold clock; lia).
  lia.
Qed.

(** A month found later in the year. *)
Lemma moved_month f g v :
  fit f -> valid_fields g -> 0 <= v <= 11 -> T f <= T g -> T g < T (F (year f) v 1 0 0 0) ->
  year g = year f /\ month f <= month g < v.
Proof.
  intros Hf Hg Hv Hle Hlt. pose proof (fit_date f Hf) as Vf. pose proof (valid_date g Hg) as Vg.
  rewrite (T_D (F _ _ _ _ _ _)) in Hlt by (cbn; lia). unfold clock, D in Hlt. cbn in Hlt.
  destruct (D_bounds f g (days (year f) (v + 1) 1) Hf Hg Hle ltac:(lia)) as [B1 B2].
  pose proof (date_le f g Vf Vg B1) as N1. unfold date, date_lt in N1.
  assert (V1 : valid (year f, v + 1, 1)) by (pose proof (month_length_range (year f) (v + 1)); simpl; lia).
  assert (N2 : ~ date_lt (year f, v + 1, 1) (date g))
    by (intros H2; pose proof (days_lt _ _ _ _ _ _ V1 Vg H2); unfold D in B2; lia).
  unfold date, date_lt in N2. assert (month g = v -> day g = 1 -> year g = year f -> False).
  { intros E1 E2 E3. unfold D in B2. rewrite E1, E2, E3 in B2. lia. }
  destruct Hg. lia.
Qed.

(** A day found later in the month, or counted past its end. *)
Lemma moved_day f g v :
  fit f -> valid_fields g -> T f <= T g -> T g < T (F (year f) (month f) v 0 0 0) ->
  (year g = year f /\ month g = month f /\ day f <= day g < v) \/
  (exists u, month_length (year f) (month f + 1) < u < v /\ days (year f) (month f + 1) u = D g).
Proof.
  intros Hf Hg Hle Hlt. pose proof (fit_date f Hf) as Vf. pose proof (valid_date g Hg) as Vg.
  rewrite (T_D (F _ _ _ _ _ _)) in Hlt by apply Hf. unfold clock in Hlt. unfold D in Hlt. cbn in Hlt.
  destruct (D_bounds f g (days (year f) (month f + 1) v) Hf Hg Hle ltac:(lia)) as [B1 B2].
  pose proof (date_le f g Vf Vg B1) as N1. unfold date, date_lt in N1.
  rewrite (days_day _ _ v) in B2. set (sz := month_length (year f) (month f + 1)).
  destruct (decide (year g = year f /\ month g = month f)) as [[Ey Em]|Hne].
  - left. unfold D in B2. rewrite Ey, Em, days_day in B2. lia.
  - right. exists (D g - days (year f) (month f + 1) 1 + 1). split; [|rewrite days_day; lia]. split; [|lia].
    assert (days (year f) (month f + 1) sz < D g); [|rewrite days_day in *; lia].
    pose proof (month_length_range (year f) (month f + 1)).
    apply days_lt; [destruct Hf; simpl; lia|exact Vg|]. unfold date, date_lt. lia.
Qed.

Lemma moved_skips f stage v :
  fit f -> in_range (year f) -> (stage <= 4)%nat -> ((3 <= stage)%nat -> hour f < 24) -> tame ->
  get stage f <= v < limit stage -> stage_ok p f stage v = true ->
  (forall x, get stage f <= x < v -> stage_ok p f stage x = false) ->
  skips f (moved f stage v).
Proof.
  intros Hf Hy Hs Hh Ht Hv Hok Hx g Hg Hm Hle. destruct (Z.le_gt_cases (T (moved f stage v)) (T g)) as [|Hlt]; [done|exfalso].
  specialize (Hm stage Hs). pose proof Hf as [F1 F2 F3 F4 F5 F6]. pose proof Hg as [G1 G2 G3 G4 G5].
  assert (Hno : year g = year f -> month g = month f -> get stage f <= get stage g < v -> False).
  { intros Ey Em Hr. unfold stage_ok in Hm, Hx. rewrite Ey, Em, Hx in Hm by done. done. }
  assert (Hclock : forall h mi sc, 0 <= h < 24 -> 0 <= mi < 60 -> 0 <= sc < 60 ->
    T g < T (F (year f) (month f) (day f) h mi sc) ->
    year g = year f /\ month g = month f /\ clock f <= clock g < h * 3600 + mi * 60 + sc).
  { intros h mi sc H1 H2 H3 Hlt'. rewrite (T_D (F _ _ _ _ _ _)) in Hlt' by done. unfold clock in Hlt' at 1.
    change (D (F (year f) (month f) (day f) h mi sc)) with (D f) in Hlt'. cbn in Hlt'.
    destruct (same_day f g 0 Hf Hg Hle ltac:(lia) ltac:(lia)) as (Ey & Em & Ed & Hc). split_and!; [done..|].
    rewrite T_D in Hlt' by done. unfold D in Hlt'. rewrite Ey, Em, Ed in Hlt'. lia. }
  destruct stage as [|[|[|[|[|stage]]]]]; [| | | | |lia]; cbn in Hv, Hno, Hh.
  - destruct (moved_month f g v Hf Hg ltac:(lia) Hle Hlt) as [Ey Hmm].
    unfold stage_ok in Hm, Hx. cbn in Hm, Hx. rewrite Hx in Hm by lia. done.
  - destruct (moved_day f g v Hf Hg Hle Hlt) as [(Ey & Em & Hd)|(u & Hu & Eu)]; [by apply Hno|].
    assert (Hu' : day_ok p (year f) (month f) u = true).
    { apply (Ht _ _ u v); [done|lia|done|lia|exact Hok|]. unfold real_ok. rewrite Eu. unfold D.
      pose proof (of_days_days _ _ _ (valid_date g Hg)) as Eg. cbn in Eg. rewrite Eg. unfold stage_ok in Hm. cbn in Hm.
      by replace (month g + 1 - 1) with (month g) by lia. }
    unfold stage_ok in Hx. cbn in Hx. rewrite Hx in Hu' by lia. done.
  - destruct (Hclock v 0 0) as (Ey & Em & Hc); [lia..|exact Hlt|]. unfold clock in Hc. apply Hno; [done..|lia].
  - destruct (Hclock (hour f) v 0) as (Ey & Em & Hc); [lia..|exact Hlt|]. unfold clock in Hc. apply Hno; [done..|lia].
  - destruct (Hclock (hour f) (minute f) v) as (Ey & Em & Hc); [lia..|exact Hlt|]. unfold clock in Hc. apply Hno; [done..|lia].
Qed.

Lemma carried_0 f : carried f 0 = F (year f + 1) 0 1 0 0 0.
Proof. done. Qed.
Lemma carried_1 f : carried f 1 = F (year f) (month f + 1) 1 0 0 0.
Proof. done. Qed.
Lemma carried_2 f : carried f 2 = F (year f) (month f) (day f + 1) 0 0 0.
Proof. done. Qed.
Lemma carried_3 f : carried f 3 = F (year f) (month f) (day f) (hour f + 1) 0 0.
Proof. done. Qed.
Lemma carried_4 f : carried f 4 = F (year f) (month f) (day f) (hour f) (minute f + 1) 0.
Proof. done. Qed.

Lemma carried_skips f stage :
  fit f -> (stage <= 4)%nat -> ((3 <= stage)%nat -> hour f < 24) ->
  (forall x, get stage f <= x < limit stage -> stage_ok p f stage x = false) ->
  skips f (carried f stage).
Proof.
  intros Hf Hs Hh Hx g Hg Hm Hle. destruct (Z.le_gt_cases (T (carried f stage)) (T g)) as [|Hlt]; [done|exfalso].
  specialize (Hm stage Hs). pose proof Hf as [F1 F2 F3 F4 F5 F6]. pose proof Hg as [G1 G2 G3 G4 G5].
  pose proof (fit_date f Hf) as Vf. pose proof (valid_date g Hg) as Vg.
  assert (Hno : year g = year f -> month g = month f -> get stage f <= get stage g < limit stage -> False).
  { intros Ey Em Hr. unfold stage_ok in Hm, Hx. rewrite Ey, Em, Hx in Hm by done. done. }
  assert (Hclock : forall n, T g < D f * 86400 + n -> n <= 86400 ->
    year g = year f /\ month g = month f /\ clock f <= clock g < n).
  { intros n Hlt' Hn. destruct (same_day f g 0 Hf Hg Hle ltac:(lia) ltac:(lia)) as (Ey & Em & Ed & Hc). split_and!; [done..|].
    rewrite T_D in Hlt' by done. unfold D in Hlt'. rewrite Ey, Em, Ed in Hlt'. lia. }
  destruct stage as [|[|[|[|[|stage]]]]]; [| | | | |lia]; cbn in Hno, Hh.
  - assert (Hy : D f <= D g < days (year f + 1) 1 1).
    { apply D_bounds; [done..|]. rewrite (carried_0 f) in Hlt.
      rewrite (T_D (F _ _ _ _ _ _)) in Hlt by (cbn; lia). unfold clock, D in Hlt.
      cbn [year month day hour minute second] in Hlt. change (0 + 1) with 1 in Hlt. lia. }
    pose proof (date_le f g Vf Vg ltac:(lia)) as N1. unfold date, date_lt in N1.
    pose proof (days_year_bounds _ _ _ Vg). pose proof (days_year_mono (year f + 1) (year g)). unfold D in Hy.
    assert (Ey : year g = year f /\ month f <= month g) by lia.
    unfold stage_ok in Hm, Hx. cbn in Hm, Hx. rewrite Hx in Hm by lia. done.
  - assert (Hd : D f <= D g < days (year f) (month f + 1) 1 + month_length (year f) (month f + 1)).
    { apply D_bounds; [done..|]. rewrite (carried_1 f), T_next_month in Hlt by done. lia. }
    destruct (moved_day f g (month_length (year f) (month f + 1) + 1) Hf Hg Hle) as [(Ey & Em & Hdd)|(u & Hu & Eu)]; [| |lia].
    + rewrite T_midnight, days_day, T_D by done. assert (clock g < 86400) by (unfold clock; lia). lia.
    + pose proof (month_length_range (year f) (month f + 1)). apply Hno; [done..|lia].
  - destruct (Hclock 86400) as (Ey & Em & Hc); [|lia|unfold clock in Hc; apply Hno; [done..|lia]].
    rewrite (carried_2 f) in Hlt.
    rewrite (T_D (F _ _ _ _ _ _)) in Hlt by done. unfold D at 1, clock at 1 in Hlt. cbn [year month day hour minute second] in Hlt.
    unfold D. rewrite days_day in Hlt. rewrite (days_day _ _ (day f)). lia.
  - destruct (Hclock ((hour f + 1) * 3600)) as (Ey & Em & Hc); [|lia|unfold clock in Hc; apply Hno; [done..|lia]].
    rewrite (carried_3 f) in Hlt.
    rewrite (T_D (F _ _ _ _ _ _)) in Hlt by done. unfold D at 1, clock at 1 in Hlt. cbn [year month day hour minute second] in Hlt. unfold D. lia.
  - destruct (Hclock (hour f * 3600 + (minute f + 1) * 60)) as (Ey & Em & Hc); [|lia|unfold clock in Hc; apply Hno; [done..|lia]].
    rewrite (carried_4 f) in Hlt.
    rewrite (T_D (F _ _ _ _ _ _)) in Hlt by done. unfold D at 1, clock at 1 in Hlt. cbn [year month day hour minute second] in Hlt. unfold D. lia.
Qed.

(** *** Progress *)

(** Twice the seconds, plus one unless the hour is 24: every move adds to it. *)
Definition kappa (f : Fields) : Z := 2 * T f + if hour f =? 24 then 0 else 1.

Lemma moved_progress f stage v :
  fit f -> (stage <= 4)%nat -> ((3 <= stage)%nat -> hour f < 24) -> get stage f < v < limit stage ->
  T f <= T (moved f stage v) /\ kappa f < kappa (moved f stage v).
Proof.
  intros Hf Hs Hh Hv. pose proof Hf as [F1 F2 F3 F4 F5 F6].
  assert (Hc : clock f <= 86400 /\ (hour f < 24 -> clock f < 86400)) by (unfold clock; lia).
  assert (Hcut : forall f1, T f <= T f1 -> (hour f <> 24 -> T f < T f1) -> hour f1 <> 24 ->
    T f <= T f1 /\ kappa f < kappa f1).
  { intros f1 H1 H2 H3. split; [done|]. unfold kappa. rewrite (proj2 (Z.eqb_neq (hour f1) 24)) by done.
    destruct (hour f =? 24) eqn:E; reflect_bools; [lia|]. specialize (H2 E). lia. }
  assert (Hd : forall f1, 0 <= month f1 <= 11 -> D f < D f1 -> clock f1 = 0 -> hour f1 = 0 ->
    T f <= T f1 /\ kappa f < kappa f1).
  { intros f1 M1 D1 C1 H1. apply Hcut; [| |lia]; rewrite !T_D, C1 by done; lia. }
  assert (Ht : forall h mi sc, clock f < h * 3600 + mi * 60 + sc -> h < 24 ->
    let f1 := F (year f) (month f) (day f) h mi sc in T f <= T f1 /\ kappa f < kappa f1).
  { intros h mi sc Hc1 Hh1 f1. apply Hcut; [| |cbn; lia]; rewrite !T_D by done; unfold D, f1, clock in *; cbn in *; lia. }
  destruct stage as [|[|[|[|[|stage]]]]]; [| | | | |lia]; cbn in Hv, Hh.
  - apply (Hd (F (year f) v 1 0 0 0)); [cbn; lia| |done..]. unfold D. cbn. apply days_month_lt; lia.
  - apply (Hd (F (year f) (month f) v 0 0 0)); [done| |done..]. unfold D. cbn.
    rewrite (days_day _ _ (day f)), (days_day _ _ v). lia.
  - apply (Ht v 0 0); unfold clock; lia.
  - apply (Ht (hour f) v 0); unfold clock; lia.
  - apply (Ht (hour f) (minute f) v); unfold clock; lia.
Qed.

Lemma carried_progress f stage :
  fit f -> (stage <= 4)%nat -> ((3 <= stage)%nat -> hour f < 24) ->
  T f <= T (carried f stage) /\ kappa f < kappa (carried f stage).
Proof.
  intros Hf Hs Hh. pose proof Hf as [F1 F2 F3 F4 F5 F6]. pose proof (fit_date f Hf) as Vf.
  assert (Hc : 0 <= clock f <= 86400 /\ (hour f < 24 -> clock f < 86400)) by (unfold clock; lia).
  assert (Hcut : forall f1, D f * 86400 + 86400 <= T f1 -> hour f1 = 0 -> T f <= T f1 /\ kappa f < kappa f1).
  { intros f1 H1 H2. unfold kappa. rewrite H2, T_D by done. simpl. destruct (hour f =? 24) eqn:E; reflect_bools; lia. }
  assert (Ht : forall h mi, clock f < h * 3600 + mi * 60 ->
    let f1 := F (year f) (month f) (day f) h mi 0 in T f <= T f1 /\ kappa f < kappa f1).
  { intros h mi Hc1 f1. assert (T f < T f1) by (rewrite !T_D by done; unfold D, f1, clock in *; cbn in *; lia).
    unfold kappa. destruct (hour f =? 24), (hour f1 =? 24); lia. }
  destruct stage as [|[|[|[|[|stage]]]]]; [| | | | |lia]; cbn in Hh.
  - apply (Hcut (F (year f + 1) 0 1 0 0 0)); [|done]. rewrite (T_D (F _ _ _ _ _ _)) by (cbn; lia). unfold clock, D. cbn [year month day hour minute second].
    change (0 + 1) with 1. pose proof (days_year_bounds _ _ _ Vf). lia.
  - apply (Hcut (F (year f) (month f + 1) 1 0 0 0)); [|done]. unfold T. cbn [year month day hour minute second].
    rewrite days_next by done. unfold D. rewrite days_day. lia.
  - apply (Hcut (F (year f) (month f) (day f + 1) 0 0 0)); [|done]. rewrite (T_D (F _ _ _ _ _ _)) by done.
    unfold clock, D. cbn [year month day hour minute second]. rewrite (days_day _ _ (day f)), (days_day _ _ (day f + 1)). lia.
  - apply (Ht (hour f + 1) 0). unfold clock. lia.
  - apply (Ht (hour f) (minute f + 1)). unfold clock. lia.
Qed.

(** *** The invariant of the loop *)

(** Nothing selected from [t0] on precedes [f]. *)
Definition first_from (t0 : Z) (f : Fields) : Prop :=
  tame -> forall g, valid_fields g -> matches g -> t0 <= T g -> T f <= T g.

Record settled (t0 : Z) (f : Fields) (stage : nat) : Prop := Settled {
  se_fit : fit f;
  se_year : 100 <= year f;
  se_ok : forall j, (j < stage)%nat -> stage_ok p f j (get j f) = true;
  se_from : t0 <= T f;
  se_first : first_from t0 f
}.

Definition inv (t0 : Z) (s : Fields * nat) : Prop :=
  settled t0 s.1 s.2 /\ (s.2 <= 4)%nat /\
  (year s.1 <= 3000 \/ (year s.1 = 3001 /\ month s.1 = 0)) /\ ((1 <= s.2)%nat -> year s.1 <= 2999).

Definition measure (s : Fields * nat) : Z := 5 * (200000000000 - kappa s.1) + (4 - Z.of_nat s.2).

(** What the loop returns. *)
Definition result_ok (t0 : Z) (e : Exit) : Prop :=
  match e with
  | Failed => False
  | NotFound => exists f, fit f /\ 3000 <= year f /\ first_from t0 f
  | Found f => valid_fields f /\ matches f /\ t0 <= T f /\ 100 <= year f <= 2999 /\ first_from t0 f
  end.

Lemma first_skips t0 f f1 : T f <= T f1 -> (tame -> skips f f1) -> first_from t0 f -> first_from t0 f1.
Proof. intros Hle Hs Hf Ht g Hg Hm H0. apply Hs; [done..|]. by apply Hf. Qed.

Lemma first_eq t0 f f1 : T f1 = T f -> first_from t0 f -> first_from t0 f1.
Proof. intros E Hf Ht g Hg Hm H0. rewrite E. by apply Hf. Qed.

Lemma advance_ok t0 f stage :
  settled t0 f (S stage) -> (stage <= 4)%nat -> ((1 <= stage)%nat -> year f <= 2999) ->
  match advance f stage with
  | inl s' => inv t0 s' /\ s' = (f, S stage)
  | inr e => result_ok t0 e
  end.
Proof.
  intros [S1 S2 S3 S4 S5] Hs Hy. unfold advance. destruct (S stage =? 5)%nat eqn:E5.
  - apply Nat.eqb_eq in E5. assert (stage = 4)%nat by lia. subst stage. simpl.
    assert (Hh : hour f < 24) by (apply (stage_ok_limit f 2); [lia|lia|apply S1|apply (S3 2%nat); lia]).
    split_and!; try done; try lia. destruct S1. constructor; lia. intros j Hj. apply S3. lia.
  - apply Nat.eqb_neq in E5. destruct (3000 <=? year f) eqn:Ey; reflect_bools; simpl.
    + exists f. done.
    + split; [|done]. split; [by constructor|]. simpl. split_and!; [lia| |lia]. left. lia.
Qed.

Lemma moved_get f stage v j : (stage <= 4)%nat -> (j < stage)%nat ->
  get j (moved f stage v) = get j f /\ year (moved f stage v) = year f /\ ((1 <= stage)%nat -> month (moved f stage v) = month f).
Proof.
  intros Hs Hj. destruct stage as [|[|[|[|[|stage]]]]]; try lia; destruct j as [|[|[|[|j]]]]; try lia; cbn; done.
Qed.

Lemma moved_stage_ok f stage v : (stage <= 4)%nat ->
  (forall j, (j < stage)%nat -> stage_ok p f j (get j f) = true) -> stage_ok p f stage v = true ->
  forall j, (j < S stage)%nat -> stage_ok p (moved f stage v) j (get j (moved f stage v)) = true.
Proof.
  intros Hs Hok Hv j Hj. destruct (decide (j = stage)) as [->|Hne].
  - destruct stage as [|[|[|[|[|stage]]]]]; try lia; exact Hv.
  - destruct (moved_get f stage v j Hs ltac:(lia)) as (Eg & Ey & Em). rewrite Eg.
    unfold stage_ok in *. rewrite Ey, (Em ltac:(lia)). apply Hok. lia.
Qed.

Lemma moved_shape f stage v : fit f -> in_range (year f) -> (stage <= 4)%nat -> ((3 <= stage)%nat -> hour f < 24) ->
  get stage f <= v < limit stage ->
  loose (moved f stage v) /\ 1 <= day (moved f stage v) /\ hour (moved f stage v) < 24 /\ year (moved f stage v) = year f /\
  (stage <> 1%nat -> fit (moved f stage v)).
Proof.
  intros [F1 F2 F3 F4 F5 F6] Hy Hs Hh Hv. pose proof (month_length_range (year f) (month f + 1)).
  destruct stage as [|[|[|[|[|stage]]]]]; try lia; cbn in Hv, Hh; split_and!; cbn; try lia;
    try (constructor; cbn; done || lia); intros _; constructor; cbn; try lia.
  pose proof (month_length_range (year f) (v + 1)). lia.
Qed.

Lemma carried_shape f stage : fit f -> in_range (year f) -> year f < 9000 -> (stage <= 4)%nat -> ((3 <= stage)%nat -> hour f < 24) ->
  loose (carried f stage) /\ 1 <= day (carried f stage) /\ hour (carried f stage) <= 24 /\
  (hour (carried f stage) = 24 -> minute (carried f stage) = 0 /\ second (carried f stage) = 0) /\
  ((1 <= stage)%nat -> year (carried f stage) = year f).
Proof.
  intros [F1 F2 F3 F4 F5 F6] Hy Hy' Hs Hh. pose proof (month_length_range (year f) (month f + 1)). unfold in_range in *.
  destruct stage as [|[|[|[|[|stage]]]]]; try lia; cbn in Hh; split_and!; cbn; try lia;
    constructor; unfold in_range; cbn; lia.
Qed.

Lemma kappa_normal f f' : T f' = T f -> (hour f' = 24 -> f' = f) -> kappa f <= kappa f'.
Proof.
  intros ET Hh. unfold kappa. rewrite ET. destruct (hour f' =? 24) eqn:E; reflect_bools.
  { specialize (Hh E). subst f'. rewrite (proj2 (Z.eqb_eq _ _) E). lia. }
  destruct (hour f =? 24); lia.
Qed.

Lemma in_place_month f v : 0 <= v <= 11 -> in_place (moved f 0 v) = true.
Proof.
  intros Hv. pose proof (MONTH_length 2000 v Hv).
  change (negb (negb ((0 <=? v) && (v <=? 11)) || false || (MONTH v <? 1) || false || false || false || false || false || false) = true).
  rewrite !(proj2 (Z.leb_le _ _)), (proj2 (Z.ltb_ge (MONTH v) 1)) by lia. done.
Qed.

Lemma iterate_moved t0 f stage v :
  inv t0 (f, stage) -> get stage f < v < limit stage -> stage_ok p f stage v = true ->
  (forall x, get stage f <= x < v -> stage_ok p f stage x = false) ->
  match (match normalize (moved f stage v) with
         | None => inr Failed
         | Some (f, true) => inl (f, (stage - 1)%nat)
         | Some (f, false) => advance f stage
         end) with
  | inl s' => inv t0 s' /\ measure s' < measure (f, stage)
  | inr e => result_ok t0 e
  end.
Proof.
  intros ([S1 S2 S3 S4 S5] & Hs & Hy & Hy') Hv Hok Hx. simpl in *.
  assert (Hr : in_range (year f)) by (unfold in_range; lia).
  assert (Hh : (3 <= stage)%nat -> hour f < 24).
  { intros H3. apply (stage_ok_limit f 2); [lia|lia|apply S1|apply (S3 2%nat); lia]. }
  destruct (moved_shape f stage v S1 Hr Hs Hh ltac:(lia)) as (Hl & Hd & Hho & Hye & Hfit).
  destruct (moved_progress f stage v S1 Hs Hh Hv) as [HT Hk].
  assert (Hfirst : first_from t0 (moved f stage v)).
  { eapply first_skips; [exact HT| |exact S5]. intros Ht. apply moved_skips; done || lia. }
  destruct (normalize_spec (moved f stage v) Hl Hd ltac:(lia) ltac:(lia)) as (f' & b & En & Hf' & ET & Eb & Hyr & H24).
  rewrite En. pose proof (kappa_normal _ f' ET H24) as Hk'. destruct b.
  - assert (H1 : (1 <= stage)%nat).
    { destruct stage as [|stage]; [|lia]. rewrite normalize_eq, in_place_month in En by (done || (cbn in Hv; destruct S1; lia)). done. }
    assert (E : (2 <= stage)%nat -> f' = moved f stage v).
    { intros H2. apply T_inj; [..|done].
      - destruct Hf'. constructor; try lia. destruct (decide (hour f' = 24)) as [E24|]; [|lia]. specialize (H24 E24). subst f'. lia.
      - destruct (Hfit ltac:(lia)). constructor; lia. }
    specialize (Hy' H1). split; [|unfold measure; cbn [fst snd]; lia]. split; [|cbn [fst snd]; split; [lia|]; split; [lia|]].
    + constructor; cbn [fst snd]; [done|lia| |lia|by eapply first_eq]. intros j Hj. rewrite E by lia.
      apply (moved_stage_ok f stage v Hs S3 Hok). lia.
    + intros H2. rewrite E by lia. lia.
  - rewrite (Eb eq_refl) in *. pose proof (advance_ok t0 (moved f stage v) stage) as Ha.
    destruct (advance (moved f stage v) stage) as [s'|e].
    + destruct Ha as [Hi ->]; [|done|lia|split; [done|unfold measure; simpl; lia]].
      constructor; [done|lia|by apply moved_stage_ok|lia|done].
    + apply Ha; [|done|lia]. constructor; [done|lia|by apply moved_stage_ok|lia|done].
Qed.

Lemma iterate_carried t0 f stage :
  inv t0 (f, stage) -> (forall x, get stage f <= x < limit stage -> stage_ok p f stage x = false) ->
  match (match normalize (carried f stage) with
         | None => inr Failed
         | Some (f, _) => inl (f, 0%nat)
         end) with
  | inl s' => inv t0 s' /\ measure s' < measure (f, stage)
  | inr e => result_ok t0 e
  end.
Proof.
  intros ([S1 S2 S3 S4 S5] & Hs & Hy & Hy') Hx. simpl in *.
  assert (Hr : in_range (year f)) by (unfold in_range; lia).
  assert (Hh : (3 <= stage)%nat -> hour f < 24).
  { intros H3. apply (stage_ok_limit f 2); [lia|lia|apply S1|apply (S3 2%nat); lia]. }
  assert (H3000 : stage = 0%nat -> year f <= 3000).
  { intros ->. destruct Hy as [|[Ey Em]]; [done|]. destruct (months_found f S1 Em) as (v & Hv & Hok).
    rewrite Hx in Hok by (cbn; lia). done. }
  destruct (carried_shape f stage S1 Hr ltac:(lia) Hs Hh) as (Hl & Hd & Hho & Hmid & Hye).
  destruct (carried_progress f stage S1 Hs Hh) as [HT Hk].
  assert (Hfirst : first_from t0 (carried f stage)).
  { eapply first_skips; [exact HT| |exact S5]. intros Ht. by apply carried_skips. }
  destruct (normalize_spec (carried f stage) Hl Hd Hho Hmid) as (f' & b & En & Hf' & ET & Eb & Hyr & H24).
  rewrite En. pose proof (kappa_normal _ f' ET H24) as Hk'.
  split; [|unfold measure; simpl; lia]. split; [|cbn [fst snd]; split; [lia|]; split; [|lia]].
  - constructor; cbn [fst snd]; [done| |lia|lia|by eapply first_eq].
    destruct stage as [|stage]; [cbn in Hyr; lia|]. rewrite Hye in Hyr by lia. lia.
  - destruct stage as [|stage]; [|left; rewrite Hye in Hyr by lia; lia].
    assert (Hin : in_place (carried f 0) = true).
    { unfold in_place. cbn. reflexivity. }
    rewrite normalize_eq, Hin in En by done. injection En as <- _. cbn. specialize (H3000 eq_refl). lia.
Qed.

Lemma iterate_ok t0 s : inv t0 s ->
  match iterate p s with
  | inl s' => inv t0 s' /\ measure s' < measure s
  | inr e => result_ok t0 e
  end.
Proof.
  destruct s as [f stage]. intros Hi. pose proof Hi as ([S1 S2 S3 S4 S5] & Hs & Hy & Hy'). cbn [fst snd] in *.
  assert (Hr : in_range (year f)) by (unfold in_range; lia). unfold iterate.
  assert (H0 : 0 <= get stage f + offset stage).
  { destruct S1. destruct stage as [|[|[|[|stage]]]]; cbn; lia. }
  destruct (select_spec p f stage Hwf Hs Hr (ft_month f S1) H0) as (r & -> & Hsel).
  destruct r as [v|].
  - destruct Hsel as (Hv & Hok & Hx). destruct (decide (Some v = Some (get stage f))) as [E|Hne].
    + simplify_eq. pose proof (advance_ok t0 f stage) as Ha. destruct (advance f stage) as [s'|e].
      * destruct Ha as [Ha ->]; [|done|done|split; [done|unfold measure; simpl; lia]].
        constructor; [done..| |done|done]. intros j Hj. destruct (decide (j = stage)) as [->|]; [done|apply S3; lia].
      * apply Ha; [|done..]. constructor; [done..| |done|done]. intros j Hj.
        destruct (decide (j = stage)) as [->|]; [done|apply S3; lia].
    + apply iterate_moved; [done| |done..]. assert (v <> get stage f) by congruence. lia.
  - rewrite decide_False by done. by apply iterate_carried.
Qed.

(** *** The loop ends *)

Lemma fit_T f : fit f -> days (year f) 1 1 * 86400 <= T f <= days (year f + 1) 1 1 * 86400.
Proof.
  intros Hf. pose proof (days_year_bounds _ _ _ (fit_date f Hf)) as Hb. rewrite T_D by apply Hf.
  assert (0 <= clock f <= 86400) by (destruct Hf; unfold clock; lia). unfold D. lia.
Qed.

Lemma measure_bounds t0 s : inv t0 s -> 0 <= measure s < 2 ^ 50.
Proof.
  intros ([S1 S2 _ _ _] & Hs & Hy & _). pose proof (fit_T _ S1) as HT.
  pose proof (days_year_mono 100 (year s.1) S2) as H1. pose proof (days_year_mono (year s.1 + 1) 3002 ltac:(lia)) as H2.
  change (days 100 1 1) with (-683003) in H1. change (days 3002 1 1) with 376930 in H2.
  change (2 ^ 50) with 1125899906842624. unfold measure, kappa. destruct (hour s.1 =? 24); lia.
Qed.

Lemma search_ends t0 f :
  inv t0 (f, 0%nat) -> exists e, Loop.run (iterate p) LOOP (f, 0%nat) = inr e /\ result_ok t0 e.
Proof.
  intros Hi. destruct (Loop.run_exits (iterate p) (inv t0) measure) with (k := LOOP) (s := (f, 0%nat)) as [e He].
  - intros s s' Hs Hst. pose proof (iterate_ok t0 s Hs) as Hok. rewrite Hst in Hok. destruct Hok as [Hok Hm].
    split; [done|]. pose proof (measure_bounds t0 s' Hok). lia.
  - done.
  - pose proof (measure_bounds t0 _ Hi). change (Z.of_nat LOOP) with 50. lia.
  - exists e. split; [done|].
    pose proof (Loop.run_inv (iterate p) (inv t0) (result_ok t0)) as Hr.
    specialize (Hr ltac:(intros s Hs; pose proof (iterate_ok t0 s Hs) as Hok; destruct (iterate p s); [apply Hok|done]) LOOP _ Hi).
    by rewrite He in Hr.
Qed.
End search.

(** ** Instants *)

(** The instants considered: the years 102 to 2998. *)
Definition in_era (ms : Z) : Prop := days 102 1 1 * DAY <= ms < days 2999 1 1 * DAY.

(** The offsets a zone may have. *)
Definition MAX_OFFSET : Z := 93600.

Lemma local_seconds zone ms intl : days 101 1 1 * DAY <= ms < days 3001 1 1 * DAY -> Z.abs (zone ms) <= MAX_OFFSET ->
  local zone ms intl = Some (of_seconds (ms / 1000 + zone ms)).
Proof.
  intros He Hz. unfold MAX_OFFSET, DAY in *. change (days 101 1 1) with (-682638) in He.
  change (days 3001 1 1) with 376565 in He. unfold local. rewrite utc_fields_seconds by (unfold DATE_LIMIT; lia). rewrite ?bind_value; cbv beta zeta.
  set (f := of_seconds (ms / 1000)). destruct (of_seconds_valid (ms / 1000)) as [Hv ET]. fold f in Hv, ET.
  pose proof (valid_year f Hv) as Hyr. rewrite ET in Hyr.
  assert (Hq : -682638 * 86400 <= ms / 1000 < 376565 * 86400) by (Z.to_euclidean_division_equations; lia).
  assert (Hy : 50 <= year f <= 9000).
  { pose proof (days_year_lt 50 (year f + 1)) as L1. change (days 50 1 1) with (-701265) in L1.
    pose proof (days_year_lt (year f) 9000) as L2. change (days 9000 1 1) with 2567655 in L2. lia. }
  rewrite (proj2 (Z.ltb_ge 9998 (year f))), (proj2 (Z.ltb_ge (year f) (-9998))), Z.eqb_refl by lia. rewrite ?bind_value; cbv beta zeta.
  assert (Ez : to_zoned zone ms = of_seconds (ms / 1000 + zone ms)).
  { unfold to_zoned. change DAY with 86400000. rewrite with_clock_seconds. f_equal. rewrite Z.div_add by lia. done. }
  rewrite Ez. set (g := of_seconds (ms / 1000 + zone ms)).
  destruct (of_seconds_valid (ms / 1000 + zone ms)) as [Gv EG]. fold g in Gv, EG.
  pose proof (valid_year g Gv) as Gyr. rewrite EG in Gyr.
  assert (Hgy : 1 <= year g).
  { pose proof (days_year_lt 50 (year g + 1)) as L1. change (days 50 1 1) with (-701265) in L1. lia. }
  replace (year g + year f - year f) with (year g) by lia. rewrite (proj2 (Z.leb_gt (year g) 0)), andb_false_r by lia.
  by destruct g.
Qed.

Lemma start_seconds zone after : in_era after -> Z.abs (zone after) <= MAX_OFFSET ->
  start zone after = Some (of_seconds (after / 1000 + zone after + 1)) /\
  101 <= year (of_seconds (after / 1000 + zone after + 1)) <= 2999.
Proof.
  intros He Hz. pose proof He as He'. unfold in_era, MAX_OFFSET, DAY in *.
  change (days 102 1 1) with (-682273) in *. change (days 2999 1 1) with 375835 in *.
  set (n := after / 1000 + zone after). assert (Hn : -682273 * 86400 - 93600 <= n < 375835 * 86400 + 93600).
  { unfold n. Z.to_euclidean_division_equations; lia. }
  assert (Hyear : forall k, n <= k <= n + 1 -> 101 <= year (of_seconds k) <= 2999).
  { intros k Hk. destruct (of_seconds_valid k) as [Hv ET]. pose proof (valid_year _ Hv) as Hyr. rewrite ET in Hyr.
    pose proof (days_year_lt 101 (year (of_seconds k) + 1)) as L1. change (days 101 1 1) with (-682638) in L1.
    pose proof (days_year_lt (year (of_seconds k)) 3000) as L2. change (days 3000 1 1) with 376200 in L2. lia. }
  split; [|apply Hyear; lia]. unfold start.
  rewrite local_seconds; [|unfold DAY; change (days 101 1 1) with (-682638); change (days 3001 1 1) with 376565; lia|done].
  fold n. rewrite ?bind_value; cbv beta zeta. set (f := of_seconds n). destruct (of_seconds_valid n) as [Hv ET]. fold f in Hv, ET.
  pose proof (Hyear n ltac:(lia)) as Hy. fold f in Hy. set (f1 := put 4 (second f + 1) f).
  pose proof Hv as [V1 V2 V3 V4 V5]. pose proof (month_length_range (year f) (month f + 1)).
  assert (Hl : loose f1) by (constructor; unfold in_range; cbn; lia).
  assert (E1 : T f1 = n + 1) by (rewrite <- ET; unfold T; cbn [f1 put year month day hour minute second]; lia).
  destruct (normalize_spec f1 Hl ltac:(cbn; lia) ltac:(cbn; lia) ltac:(cbn; lia)) as (f' & b & -> & Hf' & ET' & _ & _ & H24).
  rewrite ?bind_value; cbv beta zeta. f_equal. rewrite <- (of_seconds_T f').
  - by rewrite ET', E1.
  - destruct Hf'. constructor; try lia. destruct (decide (hour f' = 24)) as [E24|]; [|lia]. specialize (H24 E24). subst f'. cbn in E24. lia.
Qed.

Lemma search_start_inv p n : 101 <= year (of_seconds n) <= 2999 -> inv p n (of_seconds n, 0%nat).
Proof.
  intros Hy. destruct (of_seconds_valid n) as [Hv ET]. split; [|cbn [fst snd]; lia].
  constructor; cbn [fst snd]; [by apply fit_valid|lia|lia|lia|]. intros _ g _ _ Hg. by rewrite ET.
Qed.

(** The search of [next] always ends: for every pattern the parser
    accepts, every instant of the years 102 to 2998 and every zone, the loop
    leaves with an answer within the bound, and none of its calendar
    conversions fails. *)
Theorem cron_search_terminates (input : list Z) (p : Cron.Pattern) (zone : Z -> Z) (after : Z) :
  Cron.parse input = inl p -> in_era after -> Z.abs (zone after) <= MAX_OFFSET ->
  exists f e, start zone after = Some f /\ Loop.run (iterate p) LOOP (f, 0%nat) = inr e /\ e <> Failed.
Proof.
  intros Hp He Hz. destruct (Cron.parse_wf input p Hp) as [Hw Hn].
  destruct (start_seconds zone after He Hz) as [Es Hy]. exists (of_seconds (after / 1000 + zone after + 1)).
  destruct (search_ends p Hw (Hn 4%nat ltac:(lia) ltac:(lia)) _ _ (search_start_inv p _ Hy)) as (e & Ee & He').
  exists e. split; [done|]. split; [done|]. by intros ->.
Qed.

(** *** Zones with one offset *)

Definition fixed (off : Z) : Z -> Z := fun _ => off.

Lemma from_tz_fixed off f :
  valid_fields f -> Z.abs off <= MAX_OFFSET -> days 102 1 1 * 86400 - 2 * MAX_OFFSET <= T f < days 3000 1 1 * 86400 ->
  from_tz (fixed off) f = Some ((T f - off) * 1000).
Proof.
  intros Hv Hoff HT. unfold MAX_OFFSET in *. change (days 102 1 1) with (-682273) in HT. change (days 3000 1 1) with 376200 in HT.
  assert (Hloc : forall n, -682273 * 86400 - 400000 <= n <= 376200 * 86400 + 400000 ->
    local (fixed off) (n * 1000) true = Some (of_seconds (n + off))).
  { intros n Hn. rewrite local_seconds; [by rewrite Z.div_mul by lia|unfold DAY|exact Hoff].
    change (days 101 1 1) with (-682638). change (days 3001 1 1) with 376565. lia. }
  assert (Hutc : forall n, -682273 * 86400 - 400000 <= n <= 376200 * 86400 + 400000 -> utc (of_seconds n) = Some (n * 1000)).
  { intros n Hn. destruct (of_seconds_valid n) as [Nv ET]. rewrite utc_T, ET; [done|]. pose proof (valid_year _ Nv) as Hyr. rewrite ET in Hyr.
    pose proof (days_year_lt 101 (year (of_seconds n) + 1)) as L1. change (days 101 1 1) with (-682638) in L1.
    pose proof (days_year_lt (year (of_seconds n)) 3001) as L2. change (days 3001 1 1) with 376565 in L2.
    destruct Nv as [N1 N2 N3 N4 N5]. pose proof (month_length_range (year (of_seconds n)) (month (of_seconds n) + 1)).
    constructor; unfold in_range; lia. }
  unfold from_tz. rewrite <- (of_seconds_T f Hv) at 1. rewrite Hutc, bind_value by lia. cbv beta.
  rewrite Hloc, bind_value by lia. cbv beta. rewrite Hutc, bind_value by lia. cbv beta zeta.
  replace (T f * 1000 + T f * 1000 - (T f + off) * 1000) with ((T f - off) * 1000) by lia.
  rewrite Hloc, bind_value by lia. cbv beta. replace (T f - off + off) with (T f) by lia. rewrite of_seconds_T by done.
  rewrite decide_True by done. replace ((T f - off) * 1000 - 3600000) with ((T f - off - 3600) * 1000) by lia.
  rewrite Hloc, bind_value by lia. cbv beta. rewrite decide_False; [done|]. intros E.
  destruct (of_seconds_valid (T f - off - 3600 + off)) as [_ ET]. rewrite E in ET. lia.
Qed.

(** The local fields of an instant given in seconds. *)
Definition civil (off n : Z) : Fields := of_seconds (n + off).

Lemma next_fixed p off after :
  Cron.wf p -> Cron.nonempty (Cron.mask p 4) -> in_era after -> Z.abs off <= MAX_OFFSET ->
  exists r, next p (fixed off) after = Some r /\
    match r with
    | Some t => exists n, t = n * 1000 /\ after < t /\ matches p (civil off n) /\
        (tame p -> forall n', after < n' * 1000 -> matches p (civil off n') -> t <= n' * 1000)
    | None => tame p -> forall n', after < n' * 1000 -> matches p (civil off n') -> 3000 <= year (civil off n')
    end.
Proof.
  intros Hw Hn He Hoff. destruct (start_seconds (fixed off) after He Hoff) as [Es Hy]. change (fixed off after) with off in *.
  set (t0 := after / 1000 + off + 1) in *. destruct (search_ends p Hw Hn t0 _ (search_start_inv p t0 Hy)) as (e & Ee & He').
  assert (Hlater : forall n', after < n' * 1000 <-> t0 <= n' + off) by (intros n'; unfold t0; Z.to_euclidean_division_equations; lia).
  assert (Hciv : forall n', valid_fields (civil off n') /\ T (civil off n') = n' + off) by (intros n'; apply of_seconds_valid).
  unfold next. rewrite Es, bind_value, Ee. cbv beta. destruct e as [| |f]; [done| |].
  - exists None. split; [done|]. destruct He' as (f & Hf & Hyf & Hfirst). intros Ht n' H1 H2. destruct (Hciv n') as [V ET].
    specialize (Hfirst Ht _ V H2). rewrite ET in Hfirst. specialize (Hfirst ltac:(by apply Hlater)).
    pose proof (fit_T f Hf). pose proof (valid_year _ V) as Hv'. rewrite ET in Hv'.
    pose proof (days_year_mono 3000 (year f) Hyf). pose proof (days_year_lt 3000 (year (civil off n') + 1) ltac:(lia)). lia.
  - destruct He' as (Hv & Hm & HT & Hyf & Hfirst). pose proof (valid_year f Hv) as Hyr.
    rewrite from_tz_fixed, bind_value; [|done|done|].
    + exists (Some ((T f - off) * 1000)). split; [done|]. exists (T f - off).
      assert (Ef : civil off (T f - off) = f).
      { unfold civil. replace (T f - off + off) with (T f) by lia. by apply of_seconds_T. }
      split; [done|]. split; [apply Hlater; lia|]. split; [by rewrite Ef|].
      intros Ht n' H1 H2. destruct (Hciv n') as [V ET]. specialize (Hfirst Ht _ V H2). rewrite ET in Hfirst.
      specialize (Hfirst ltac:(by apply Hlater)). lia.
    + pose proof (days_year_mono (year f + 1) 3000 ltac:(lia)). split; [|lia]. unfold in_era, DAY, MAX_OFFSET, t0 in *.
      change (days 102 1 1) with (-682273) in *. Z.to_euclidean_division_equations; lia.
Qed.

(** *** Tame patterns *)

Lemma nearest_not_past f last d mask : in_range (year f) -> 0 <= month f <= 11 -> 28 <= last <= 31 -> last < d ->
  forall at_, 1 <= at_ -> nearest_match f last d at_ mask = Some false.
Proof.
  intros Hy Hm Hl Hd. induction mask as [|x mask IH]; intros at_ Ha; cbn [nearest_match]; [done|].
  destruct (x =? 0); [apply IH; lia|]. destruct (last <? at_) eqn:E; [apply IH; lia|]. reflect_bools.
  rewrite weekday_days, bind_value by (done || lia). cbv beta zeta.
  rewrite (proj2 (Z.eqb_neq d _)); [apply IH; lia|]. repeat case_match; reflect_bools; lia.
Qed.

(** A pattern without a weekday field and without the days 30 and 31. *)
Lemma tame_days p : Cron.star_dow p = true -> field_mask p 3 29 = 0 -> field_mask p 3 30 = 0 -> tame p.
Proof.
  intros Hs H29 H30 y m u v Hy Hm Huv Hv Hok _. exfalso. pose proof (month_length_range y (m + 1)).
  unfold day_ok, day_match in Hok. cbn [year month] in Hok. rewrite last_day_length, bind_value in Hok by done. cbv beta zeta in Hok.
  assert (E : field_mask p 3 (v - 1) = 0).
  { assert (v = 30 \/ v = 31) as [-> | ->] by lia; done. }
  rewrite E, nearest_not_past in Hok by (done || lia). cbn [Z.eqb negb] in Hok. rewrite bind_value in Hok. cbv beta in Hok.
  assert (Hl : (v =? month_length y (m + 1)) = false) by (apply Z.eqb_neq; lia).
  rewrite Hs in Hok. destruct (Cron.last_weekday p); cbv iota in Hok.
  - rewrite (weekday_days y m (month_length y (m + 1))), !bind_value in Hok by (done || lia). cbn [negb] in Hok. cbv beta iota in Hok.
    rewrite Hl, andb_false_r, orb_false_r in Hok. simpl in Hok. apply Z.eqb_eq in Hok. repeat case_match; lia.
  - rewrite bind_value in Hok. cbn [negb] in Hok. cbv beta iota in Hok. rewrite Hl, andb_false_r in Hok. done.
Qed.

(** C28: In a zone with a fixed offset and from an instant between the years 102 and 2999, [next] answers for every accepted
    pattern: an answer is a whole second strictly after [after] whose local
    fields the pattern selects and, for a tame pattern, no earlier second after
    [after] is selected; without an answer, a tame pattern selects nothing
    before the year 3000. *)
Theorem cron_next_least (input : list Z) (p : Cron.Pattern) (off after : Z) :
  Cron.parse input = inl p -> in_era after -> Z.abs off <= MAX_OFFSET ->
  exists r, next p (fixed off) after = Some r /\
    match r with
    | Some t => exists n, t = n * 1000 /\ after < t /\ matches p (civil off n) /\
        (tame p -> forall n', after < n' * 1000 -> matches p (civil off n') -> t <= n' * 1000)
    | None => tame p -> forall n', after < n' * 1000 -> matches p (civil off n') -> 3000 <= year (civil off n')
    end.
Proof.
  intros Hp He Hoff. destruct (Cron.parse_wf input p Hp) as [Hw Hn]. apply next_fixed; [done| |done..].
  apply Hn; lia.
Qed.

(** ** Examples *)
Module Sample.

(** An instant in UTC. *)
Definition at_ (y m d h mi : Z) : Z := default 0 (utc (F y (m - 1) d h mi 0)).
Definition pattern (s : string) : Cron.Pattern :=
  match Cron.parse (lit s) with inl p => p | inr _ => Cron.empty_pattern end.

Lemma pattern_parse s : (match Cron.parse (lit s) with inl _ => true | inr _ => false end) = true ->
  Cron.parse (lit s) = inl (pattern s).
Proof. unfold pattern. by destruct (Cron.parse (lit s)). Qed.

Lemma cron_search_terminates_witness :
  in_era (at_ 2026 2 23 9 0) /\
  exists f e, start (fixed 7200) (at_ 2026 2 23 9 0) = Some f /\
    Loop.run (iterate (pattern "0 9 30 2 *")) LOOP (f, 0%nat) = inr e /\ e <> Failed.
Proof.
  split; [vm_compute; split; congruence|].
  apply (cron_search_terminates (lit "0 9 30 2 *") (pattern "0 9 30 2 *") (fixed 7200));
    [apply pattern_parse; vm_compute; reflexivity|vm_compute; split; congruence|vm_compute; congruence].
Defined.

Lemma cron_next_least_witness :
  exists t, next (pattern "30 9 1,15 * *") (fixed (-18000)) (at_ 2026 1 15 14 30) = Some (Some t) /\
    t = at_ 2026 2 1 14 30 /\
    forall n', at_ 2026 1 15 14 30 < n' * 1000 -> matches (pattern "30 9 1,15 * *") (civil (-18000) n') -> t <= n' * 1000.
Proof.
  destruct (cron_next_least (lit "30 9 1,15 * *") (pattern "30 9 1,15 * *") (-18000) (at_ 2026 1 15 14 30))
    as (r & Er & Hr);
    [apply pattern_parse; vm_compute; reflexivity|vm_compute; split; congruence|vm_compute; congruence|].
  assert (E : next (pattern "30 9 1,15 * *") (fixed (-18000)) (at_ 2026 1 15 14 30) = Some (Some (at_ 2026 2 1 14 30)))
    by (vm_compute; reflexivity).
  rewrite E in Er. injection Er as <-. destruct Hr as (n & _ & _ & _ & Hl). exists (at_ 2026 2 1 14 30).
  split; [exact E|]. split; [reflexivity|]. apply Hl. apply tame_days; vm_compute; reflexivity.
Defined.

(** Outside tame patterns the search can step over a selected day: for
    the first and thirty-first of each month, asked on 2 February 2023, it
    counts past the end of February, lands on 3 March and answers 31 March,
    although 1 March is selected. *)
Theorem cron_skips_first_of_march :
  let p := pattern "0 0 1,31 * *" in
  next p (fixed 0) (at_ 2023 2 2 0 0) = Some (Some (at_ 2023 3 31 0 0)) /\
  matches p (civil 0 (at_ 2023 3 1 0 0 / 1000)) /\
  at_ 2023 2 2 0 0 < at_ 2023 3 1 0 0 < at_ 2023 3 31 0 0 /\ ~ tame p.
Proof.
  cbv zeta.
  assert (En : next (pattern "0 0 1,31 * *") (fixed 0) (at_ 2023 2 2 0 0) = Some (Some (at_ 2023 3 31 0 0)))
    by (vm_compute; reflexivity).
  assert (Hm : matches (pattern "0 0 1,31 * *") (civil 0 (at_ 2023 3 1 0 0 / 1000))).
  { intros stage Hs. destruct stage as [|[|[|[|[|stage]]]]]; [vm_compute; reflexivity..|lia]. }
  split; [exact En|]. split; [exact Hm|]. split; [vm_compute; split; reflexivity|]. intros Ht.
  assert (Hp : Cron.parse (lit "0 0 1,31 * *") = inl (pattern "0 0 1,31 * *"))
    by (apply pattern_parse; vm_compute; reflexivity).
  destruct (Cron.parse_wf _ _ Hp) as [Hw Hn].
  destruct (next_fixed (pattern "0 0 1,31 * *") 0 (at_ 2023 2 2 0 0)) as (r & Er & Hr);
    [done|apply Hn; lia|vm_compute; split; congruence|vm_compute; congruence|].
  rewrite En in Er. injection Er as <-. destruct Hr as (n & _ & _ & _ & Hl).
  specialize (Hl Ht (at_ 2023 3 1 0 0 / 1000) ltac:(vm_compute; reflexivity) Hm). vm_compute in Hl. by apply Hl.
Qed.
End Sample.
End CronDate.
