(* ===== verification/Automation.v ===== *)
(** * Automation schedules

    [Automation] models src/cantrip_server_rs/src/project_automations/schedule.rs:
    interval schedules on their anchor ([interval], [add_calendar]), weekly and
    cron schedules through the cron parser and search ([next], [first]), and the
    time zones a schedule may name. A schedule has passed its contract: numbers
    and strings are where the code expects them. The zone database and the zone
    of the server are parameters. *)
From S2P Require Import Prelude Calendar JsDate Cron CronDate.
From stdpp Require Import base numbers strings option list.
Open Scope Z_scope.

Module Automation.
Import Text.
Import Calendar.

Definition clipped (value : Z) : option Z := if Z.abs value <=? DATE_LIMIT then Some value else None.

(** ** Intervals *)

Inductive Unit_ := Minute | Hour | Day | Week | Month | Year.
#[export] Instance unit_eq_dec : EqDecision Unit_.
Proof. solve_decision. Defined.

Definition add_calendar (start count : Z) (year_unit : bool) : option Z :=
  '(year, month, day) ← utc_fields start;
  let target_month := month - 1 + count * (if year_unit then 12 else 1) in
  let target_year := year + target_month / 12 in
  let normalized_month := target_month mod 12 in
  if 275000 <? target_year then None
  else
    last ← utc_milliseconds target_year (normalized_month + 1) 0;
    '(_, _, last_day) ← utc_fields last;
    midnight ← utc_milliseconds target_year normalized_month (Z.min day last_day);
    clipped (midnight + start mod DAY).

(** The four attempts of the calendar units. *)
Fixpoint attempts (n : nat) (start every after occurrence : Z) (year_unit : bool) : option Z :=
  match n with
  | O => None
  | S n =>
      candidate ← add_calendar start (occurrence * every) year_unit;
      if after <? candidate then Some candidate else attempts n start every after (occurrence + 1) year_unit
  end.

Definition fixed_unit (u : Unit_) : option Z :=
  match u with
  | Minute => Some 60000
  | Hour => Some 3600000
  | Day => Some DAY
  | Week => Some (7 * DAY)
  | Month | Year => None
  end.

Definition interval (starts_at : option Z) (every : Z) (u : Unit_) (after : Z) : option Z :=
  start ← starts_at;
  if after <? start then Some start
  else
    match fixed_unit u with
    | Some unit =>
        let interval := unit * every in
        let occurrence := Z.max (Z.quot (after - start) interval + 1) 1 in
        clipped (start + occurrence * interval)
    | None =>
        let year_unit := match u with Year => true | _ => false end in
        '(start_year, start_month, _) ← utc_fields start;
        '(after_year, after_month, _) ← utc_fields after;
        let rough :=
          if year_unit then after_year - start_year
          else (after_year - start_year) * 12 + after_month - start_month in
        attempts 4 start every after (Z.max (rough / every) 1) year_unit
    end.

(** ** Time zones *)

Definition Zone : Type := Z -> Z.

Section zones.
(** The zone database, and the zone files compiled into the server. *)
Context (named_zone : text -> option Zone) (tzif : text -> Zone).

Definition digits (l : list Z) : option Z :=
  foldl (fun n c => n ← n; if is_digit c then Some (n * 10 + (c - 48)) else None) (Some 0) l.

(** Numeric offsets, [+hh], [+hhmm] and [+hh:mm]. *)
Definition offset_zone (name : text) : option Zone :=
  match name with
  | sign :: rest =>
      s ← (if sign =? 43 then Some 1 else if sign =? 45 then Some (-1) else None);
      '(hour, minute) ←
        match rest with
        | [a; b] => Some (digits [a; b], Some 0)
        | [a; b; c; d] => Some (digits [a; b], digits [c; d])
        | [a; b; colon; c; d] => if colon =? 58 then Some (digits [a; b], digits [c; d]) else None
        | _ => None
        end;
      hour ← hour;
      hour ← (if hour <=? 23 then Some hour else None);
      minute ← minute;
      minute ← (if minute <=? 59 then Some minute else None);
      Some (CronDate.fixed (s * (hour * 3600 + minute * 60)))
  | [] => None
  end.

Definition REJECTED : list string := ["etc/unknown"; "factory"; "posixrules"]%string.
Definition FIXED : list (string * Z) :=
  [("systemv/ast4", -4); ("systemv/cst6", -6); ("systemv/est5", -5); ("systemv/hst10", -10); ("systemv/mst7", -7);
   ("systemv/pst8", -8); ("systemv/yst9", -9)]%string.
Definition EMBEDDED : list string :=
  ["systemv/ast4adt"; "systemv/cst6cdt"; "systemv/est5edt"; "systemv/mst7mdt"; "systemv/pst8pdt"; "systemv/yst9ydt"]%string.

Definition timezone (name : text) : option Zone :=
  let lower := to_lower <$> name in
  let named (s : string) := bool_decide (lower = lit s) in
  if existsb named REJECTED then None
  else if named "us/pacific-new"%string then named_zone (lit "America/Los_Angeles")
  else
    match List.find (fun p => named p.1) FIXED with
    | Some p => Some (CronDate.fixed (p.2 * 3600))
    | None =>
        if existsb named EMBEDDED then Some (tzif name)
        else match named_zone name with Some z => Some z | None => offset_zone name end
    end.

(** ** Schedules *)

Inductive Schedule :=
| Interval (starts_at : option (list Z)) (every : Z) (unit : Unit_)
| Weekly (weekdays : list Z) (hour minute : Z) (zone : text)
| CronExpression (expression : list Z) (zone : text).

(** The expression [next] writes for a weekly schedule. *)
Definition weekly_spec (weekdays : list Z) (hour minute : Z) : Cron.Spec :=
  Cron.MkSpec [Cron.One minute] [Cron.One hour] [Cron.Star] [Cron.Star] (Cron.One <$> weekdays).

(** The zone of the server: the instants of its civil times, and its offsets. *)
Context (resolve : Z -> option Z) (environment : Zone).

Definition date_milliseconds : list Z -> option Z := JsDate.parse resolve.
Definition start (starts_at : option (list Z)) : option Z := starts_at ≫= date_milliseconds.

(** A colon after the first character makes the expression a date. *)
Definition is_date (expression : list Z) : bool :=
  match list_find (fun u => u = 58) expression with Some (S _, _) => true | _ => false end.

(** The answer of a schedule: [None] is an error. *)
Definition by_expression (expression : list Z) (zone : text) (after : Z) : option (option Z) :=
  z ← timezone zone;
  if is_date expression then CronDate.once date_milliseconds environment expression z after
  else match Cron.parse expression with inl p => CronDate.next p z after | inr _ => None end.

(** The contract's check of an expression. *)
Inductive Rejection := NotADate | NotAPattern (e : Cron.CronError).
Definition cron_error (expression : list Z) (zone : Zone) : option Rejection :=
  if is_date expression then
    match CronDate.once_fields date_milliseconds environment expression zone with Some _ => None | None => Some NotADate end
  else match Cron.parse expression with inl _ => None | inr e => Some (NotAPattern e) end.

Definition next (s : Schedule) (after : Z) : option (option Z) :=
  match s with
  | Interval starts_at every unit => Some (interval (start starts_at) every unit after)
  | Weekly weekdays hour minute zone => by_expression (Cron.show_spec (weekly_spec weekdays hour minute)) zone after
  | CronExpression expression zone => by_expression expression zone after
  end.

Definition first (s : Schedule) (now : Z) : option (option Z) :=
  match s with
  | Interval starts_at _ _ =>
      match start starts_at with
      | Some t => if now <=? t then Some (Some t) else next s now
      | None => next s now
      end
  | _ => next s now
  end.
End zones.

(** ** Interval schedules keep to their anchor *)

(** A schedule of minutes, hours, days or weeks answers the first instant
    after [after] that lies a whole number of intervals after its start: the
    start itself before it, else the least [start + k * interval] above [after]
    with [k >= 1]. *)
Theorem interval_least (start every after unit : Z) (u : Unit_) :
  fixed_unit u = Some unit -> 1 <= every ->
  Z.abs start + Z.abs after + 2 * (unit * every) <= DATE_LIMIT ->
  exists t, interval (Some start) every u after = Some t /\ after < t /\
    (after < start -> t = start) /\
    (start <= after -> exists k, 1 <= k /\ t = start + k * (unit * every) /\ t <= after + unit * every) /\
    forall k, 0 <= k -> after < start + k * (unit * every) -> t <= start + k * (unit * every).
Proof.
  intros Hu He Hlim. assert (Hpos : 0 < unit * every).
  { destruct u; simplify_eq/=; unfold DAY; lia. }
  unfold interval. rewrite bind_value. cbv beta. rewrite Hu. set (iv := unit * every) in *. clearbody iv.
  destruct (after <? start) eqn:E; reflect_bools.
  - exists start. split; [done|]. split_and!; try done; lia.
  - rewrite Z.quot_div_nonneg by lia. set (q := (after - start) / iv).
    assert (Hq : 0 <= q /\ q * iv <= after - start < q * iv + iv).
    { unfold q. pose proof (Z.div_mod (after - start) iv ltac:(lia)). pose proof (Z.mod_pos_bound (after - start) iv Hpos).
      split; [apply Z.div_pos; lia|lia]. }
    rewrite Z.max_l by lia. exists (start + (q + 1) * iv). split.
    + unfold clipped. rewrite (proj2 (Z.leb_le _ _)); [done|]. lia.
    + split_and!; [lia|lia| |].
      * intros _. exists (q + 1). split_and!; [lia|done|lia].
      * intros k Hk Hlt. assert (q < k) by nia. nia.
Qed.

Lemma interval_least_witness :
  exists t, interval (Some 1000) 15 Minute 5000000 = Some t /\ t = 5401000.
Proof.
  destruct (interval_least 1000 15 5000000 60000 Minute eq_refl ltac:(lia) ltac:(vm_compute; congruence)) as (t & E & _).
  exists t. split; [exact E|]. vm_compute in E. injection E as <-. reflexivity.
Defined.

(** *** Months and years *)

(** Months since year 0. *)
Definition month_index (ms : Z) : Z := let '(y, m, _) := of_days (ms / DAY) in y * 12 + (m - 1).

Lemma date_of ms : Z.abs ms <= DATE_LIMIT -> utc_fields ms = Some (of_days (ms / DAY)).
Proof. intros Hm. unfold utc_fields. by rewrite (proj2 (Z.ltb_ge _ _)) by lia. Qed.

Lemma instant_of ms : let '(y, m, d) := of_days (ms / DAY) in
  valid (y, m, d) /\ days y m d * DAY <= ms < days y m d * DAY + DAY.
Proof.
  pose proof (of_days_valid (ms / DAY)) as [Hv Hd]. destruct (of_days (ms / DAY)) as [[y m] d]. split; [done|].
  rewrite Hd. unfold DAY. Z.to_euclidean_division_equations. lia.
Qed.

(** An instant in an earlier month is earlier. *)
Lemma month_index_lt a b : month_index a < month_index b -> a < b.
Proof.
  unfold month_index. pose proof (instant_of a) as Ha. pose proof (instant_of b) as Hb.
  destruct (of_days (a / DAY)) as [[y m] d], (of_days (b / DAY)) as [[y' m'] d']. destruct Ha as [Va Ia], Hb as [Vb Ib].
  intros Hlt. assert (date_lt (y, m, d) (y', m', d')) as H by (destruct Va, Vb; unfold date_lt; lia).
  pose proof (days_lt _ _ _ _ _ _ Va Vb H). unfold DAY in *. lia.
Qed.

Lemma days_big y m d : 0 <= y <= 255000 -> 1 <= m <= 12 -> 0 <= d <= 31 -> Z.abs (days y m d) <= 94000000.
Proof.
  intros Hy Hm Hd. rewrite days_linear by done. set (y' := y - _).
  assert (-1 <= y' <= 255000) by (unfold y'; destruct (m <=? 2); lia).
  assert (0 <= month_start (march_month m) <= 400).
  { destruct (march_month_range m Hm). unfold month_start. Z.to_euclidean_division_equations. lia. }
  cbv zeta. Z.to_euclidean_division_equations. lia.
Qed.

Lemma utc_big y m d : 100 <= y <= 250000 -> 0 <= m <= 12 -> 0 <= d <= 31 ->
  utc_milliseconds y m d = Some (days (y + m / 12) (m mod 12 + 1) d * DAY) /\
  Z.abs (days (y + m / 12) (m mod 12 + 1) d * DAY) <= 94000000 * DAY.
Proof.
  intros Hy Hm Hd. unfold utc_milliseconds. rewrite (proj2 (Z.leb_gt y 99)), andb_false_r by lia.
  assert (0 <= m / 12 <= 1 /\ 0 <= m mod 12 <= 11) as [? ?] by (Z.to_euclidean_division_equations; lia).
  pose proof (days_big (y + m / 12) (m mod 12 + 1) d ltac:(lia) ltac:(lia) ltac:(lia)). unfold DAY, DATE_LIMIT.
  rewrite (proj2 (Z.leb_le _ _)) by lia. split; [done|lia].
Qed.

(** The candidates of a calendar schedule: the same day of the month, or its
    last, in the month [count] units later. *)
Lemma add_calendar_month (start count : Z) (year_unit : bool) :
  Z.abs start <= DATE_LIMIT ->
  let t := month_index start + count * (if year_unit then 12 else 1) in
  100 <= t / 12 <= 250000 ->
  exists c, add_calendar start count year_unit = Some c /\ month_index c = t /\ c mod DAY = start mod DAY.
Proof.
  intros Hs t Ht. unfold add_calendar. rewrite date_of, bind_value by done. cbv beta.
  pose proof (instant_of start) as Hi. unfold t, month_index in *. destruct (of_days (start / DAY)) as [[y m] d].
  destruct Hi as [[Hm Hd] _]. set (tm := m - 1 + count * (if year_unit then 12 else 1)).
  assert (Ey : y + tm / 12 = (y * 12 + (m - 1) + count * (if year_unit then 12 else 1)) / 12).
  { replace (y * 12 + (m - 1) + count * (if year_unit then 12 else 1)) with (tm + y * 12) by (unfold tm; lia).
    rewrite Z.div_add by lia. lia. }
  set (ty := y + tm / 12) in *. set (nm := tm mod 12). rewrite <- Ey in Ht.
  assert (Hnm : 0 <= nm <= 11) by (unfold nm; Z.to_euclidean_division_equations; lia).
  rewrite (proj2 (Z.ltb_ge 275000 ty)) by lia.
  destruct (utc_big ty (nm + 1) 0 Ht ltac:(lia) ltac:(lia)) as [E1 B1]. rewrite E1, bind_value. cbv beta.
  pose proof (month_length_range ty (nm + 1)) as Hlen. set (sz := month_length ty (nm + 1)) in *.
  assert (El : days (ty + (nm + 1) / 12) ((nm + 1) mod 12 + 1) 0 = days ty (nm + 1) sz).
  { pose proof (CronDate.days_next ty nm Hnm) as En. rewrite (days_day _ _ 0), En, (days_day ty (nm + 1) sz). unfold sz. lia. }
  rewrite El in *. rewrite date_of, bind_value by (unfold DAY, DATE_LIMIT in *; lia).
  replace (days ty (nm + 1) sz * DAY / DAY) with (days ty (nm + 1) sz) by (unfold DAY; rewrite Z.div_mul; lia).
  rewrite of_days_days by (simpl; unfold sz in *; lia). cbv beta iota.
  destruct (utc_big ty nm (Z.min d sz) Ht ltac:(lia) ltac:(lia)) as [E2 B2]. rewrite E2, bind_value. cbv beta.
  rewrite (Z.div_small nm), (Z.mod_small nm), Z.add_0_r in * by lia.
  assert (Hr : 0 <= start mod DAY < DAY) by (apply Z.mod_pos_bound; unfold DAY; lia).
  unfold clipped. rewrite (proj2 (Z.leb_le _ _)) by (unfold DAY, DATE_LIMIT in *; lia).
  eexists. split; [reflexivity|].
  set (r := start mod DAY) in *. set (dd := days ty (nm + 1) (Z.min d sz)) in *.
  assert (Eq : (dd * DAY + r) / DAY = dd) by (unfold DAY in *; Z.to_euclidean_division_equations; lia).
  rewrite Eq. unfold dd. rewrite of_days_days by (simpl; fold sz; lia). split.
  - rewrite <- Z.add_assoc. fold tm. unfold ty, nm. pose proof (Z.div_mod tm 12 ltac:(lia)). lia.
  - rewrite Z.add_comm, Z.mod_add by (unfold DAY; lia). apply Z.mod_small. done.
Qed.

(** The search from a first guess that is not beyond the answer. *)
Lemma attempts_two start every after j year_unit c0 c1 n :
  add_calendar start (j * every) year_unit = Some c0 ->
  add_calendar start ((j + 1) * every) year_unit = Some c1 -> after < c1 ->
  attempts (S (S n)) start every after j year_unit = Some (if after <? c0 then c0 else c1).
Proof.
  intros E0 E1 Hlt. cbn [attempts]. rewrite E0, bind_value. cbv beta. destruct (after <? c0); [done|].
  rewrite E1, bind_value. cbv beta. by rewrite (proj2 (Z.ltb_lt _ _)).
Qed.

(** Calendar units, in months. *)
Definition months_of (u : Unit_) : Z := match u with Year => 12 | _ => 1 end.

(** The first guess counts months or years between the two dates. *)
Lemma interval_calendar start every after u :
  u = Month \/ u = Year -> start <= after -> Z.abs start <= DATE_LIMIT -> Z.abs after <= DATE_LIMIT ->
  interval (Some start) every u after =
  attempts 4 start every after
    (Z.max ((month_index after / months_of u - month_index start / months_of u) / every) 1) (bool_decide (u = Year)).
Proof.
  intros Hu Hle Hs Ha. unfold interval. rewrite bind_value. cbv beta. rewrite (proj2 (Z.ltb_ge after start)) by lia.
  rewrite !date_of by done. pose proof (instant_of start) as Is. pose proof (instant_of after) as Ia.
  unfold month_index. destruct (of_days (start / DAY)) as [[y m] d], (of_days (after / DAY)) as [[y' m'] d'].
  destruct Is as [[? _] _], Ia as [[? _] _].
  destruct Hu as [-> | ->]; cbn [fixed_unit months_of]; rewrite ?bind_value; cbv beta iota;
    rewrite ?bind_value; cbv beta iota zeta;
    (match goal with |- attempts _ _ _ _ (Z.max (?a / _) _) _ = attempts _ _ _ _ (Z.max (?b / _) _) _ => replace b with a; [reflexivity|] end).
  - rewrite !Z.div_1_r. lia.
  - Z.to_euclidean_division_equations; lia.
Qed.

(** A schedule of months or years that has started answers one of its
    occurrences (the same day and time every so many months or years, or the
    last day of a shorter month), after [after], and every earlier occurrence
    is at or before [after]; four attempts always suffice. *)
Theorem calendar_interval_least (start every after : Z) (u : Unit_) :
  u = Month \/ u = Year -> 1 <= every -> start <= after ->
  Z.abs start <= DATE_LIMIT -> Z.abs after <= DATE_LIMIT ->
  100 <= month_index start / 12 -> (month_index after + 2 * every * months_of u) / 12 <= 250000 ->
  exists t j, interval (Some start) every u after = Some t /\ 1 <= j /\ after < t /\
    add_calendar start (j * every) (bool_decide (u = Year)) = Some t /\
    forall i, 1 <= i < j -> exists c, add_calendar start (i * every) (bool_decide (u = Year)) = Some c /\ c <= after.
Proof.
  intros Hu He Hle Hs Ha H100 Hmax. set (S0 := month_index start) in *. set (A := month_index after) in *.
  set (U := months_of u) in *. set (yu := bool_decide (u = Year)).
  assert (EU : (if yu then 12 else 1) = U) by (unfold yu, U; destruct Hu as [-> | ->]; reflexivity).
  assert (HU : U = 1 \/ U = 12) by (unfold U; destruct Hu as [-> | ->]; auto).
  assert (HSA : S0 <= A) by (destruct (Z.le_gt_cases S0 A) as [|Hlt]; [done|]; apply month_index_lt in Hlt; lia).
  set (rough := A / U - S0 / U). assert (Hrough : 0 <= rough) by (unfold rough; destruct HU as [-> | ->]; Z.to_euclidean_division_equations; lia).
  set (j := Z.max (rough / every) 1).
  pose proof (interval_calendar start every after u Hu Hle Hs Ha) as Ei. fold U S0 A rough j yu in Ei.
  assert (Hq : rough / every * every <= rough < rough / every * every + every).
  { pose proof (Z.div_mod rough every ltac:(lia)). pose proof (Z.mod_pos_bound rough every ltac:(lia)). lia. }
  assert (Hcand : forall i, 1 <= i <= j + 1 -> exists c, add_calendar start (i * every) yu = Some c /\ month_index c = S0 + i * every * U).
  { intros i Hi. destruct (add_calendar_month start (i * every) yu Hs) as (c & Ec & Ei' & _).
    - rewrite EU. fold S0. assert (i * every <= rough + 2 * every) by (unfold j in Hi; nia).
      assert (0 <= i * every * U <= (rough + 2 * every) * U) by nia. unfold rough in *.
      destruct HU as [-> | ->]; Z.to_euclidean_division_equations; lia.
    - exists c. split; [done|]. by rewrite Ei', EU. }
  destruct (Hcand j ltac:(unfold j; lia)) as (c0 & E0 & I0). destruct (Hcand (j + 1) ltac:(unfold j; lia)) as (c1 & E1 & I1).
  assert (Hc1 : after < c1).
  { apply month_index_lt. fold A. rewrite I1. assert (rough < (j + 1) * every) by (unfold j; nia). unfold rough in *.
    destruct HU as [-> | ->]; Z.to_euclidean_division_equations; lia. }
  assert (Hearly : forall i, 1 <= i < j -> exists c, add_calendar start (i * every) yu = Some c /\ c <= after).
  { intros i Hi. destruct (Hcand i ltac:(lia)) as (c & Ec & Ic). exists c. split; [done|]. apply Z.lt_le_incl, month_index_lt.
    fold A. rewrite Ic. assert (i * every < rough) by (unfold j in Hi; nia). unfold rough in *.
    destruct HU as [-> | ->]; Z.to_euclidean_division_equations; lia. }
  rewrite Ei, (attempts_two _ _ _ _ _ c0 c1 2 E0 E1 Hc1). destruct (after <? c0) eqn:Ec; reflect_bools.
  - exists c0, j. split_and!; [done|unfold j; lia|done|done|done].
  - exists c1, (j + 1). split_and!; [done|unfold j; lia|done|done|]. intros i Hi.
    destruct (decide (i = j)) as [->|]; [by exists c0|]. apply Hearly. lia.
Qed.

(** The last day of January, monthly. *)
Lemma calendar_interval_least_witness :
  exists t j, interval (Some 1706659200000) 1 Month 1706745600000 = Some t /\ 1 <= j /\ t = 1709164800000.
Proof.
  destruct (calendar_interval_least 1706659200000 1 1706745600000 Month (or_introl eq_refl)) as (t & j & E & Hj & _);
    [lia|lia|vm_compute; congruence|vm_compute; congruence|vm_compute; congruence|vm_compute; congruence|].
  exists t, j. split; [exact E|]. split; [exact Hj|]. vm_compute in E. injection E as <-. reflexivity.
Defined.

(** An expression the contract accepts, other than a date, is never an error
    at run time in a zone with one offset. *)
Lemma accepted_answers named_zone tzif resolve environment expression zone off after :
  timezone named_zone tzif zone = Some (CronDate.fixed off) -> Z.abs off <= CronDate.MAX_OFFSET -> CronDate.in_era after ->
  is_date expression = false -> cron_error resolve environment expression (CronDate.fixed off) = None ->
  exists r, next named_zone tzif resolve environment (CronExpression expression zone) after = Some r.
Proof.
  intros Hz Hoff He Hd Hc. cbn [next]. unfold by_expression, cron_error in *. rewrite Hz, bind_value, Hd in *. cbv beta.
  destruct (Cron.parse expression) as [p|] eqn:Ep; [|done]. destruct (Cron.parse_wf _ _ Ep) as [Hw Hn].
  destruct (CronDate.next_fixed p off after Hw) as (r & Er & _); [by apply Hn; lia|done..|eauto].
Qed.

(** ** Weekly schedules *)
Section weekly.
Import CronDate.
Context (weekdays : list Z) (hour_ minute_ : Z).
Context (Hwd : weekdays <> []) (Hin : Forall (fun d => 0 <= d <= 6) weekdays).
Context (Hh : 0 <= hour_ <= 23) (Hmi : 0 <= minute_ <= 59).

(** The weekday of a day counted from 1 January 1970, a Thursday. *)
Definition day_of_week (n : Z) : Z := (n + 4) mod 7.

(** A local second at which the schedule is due. *)
Definition weekly_at (s : Z) : Prop :=
  day_of_week (s / 86400) ∈ weekdays /\ s mod 86400 = hour_ * 3600 + minute_ * 60.

Lemma weekly_spec_ok : Cron.spec_ok (weekly_spec weekdays hour_ minute_).
Proof.
  constructor; (split; [done || by destruct weekdays|]).
  1-4: apply Forall_cons; (split; [|by apply Forall_nil_2]); done.
  apply Forall_fmap. eapply Forall_impl; [exact Hin|]. intros d Hd. cbv beta in Hd. change (0 <= d <= 7). lia.
Qed.

Lemma weekday_field_not_star : Cron.show_field (Cron.One <$> weekdays) <> [42].
Proof.
  destruct weekdays as [|d ds]; [done|]. apply Forall_cons in Hin as [Hd _]. unfold Cron.show_field. cbn -[Cron.join].
  unfold Cron.show_num. rewrite (proj2 (Z.ltb_lt d 10)) by lia. destruct (Cron.show_entry <$> (Cron.One <$> ds)); simpl; intros [= E]; lia.
Qed.

(** What the parser makes of the expression of a weekly schedule. *)
Record weekly_pattern (p : Cron.Pattern) : Prop := WeeklyPattern {
  wp_wf : Cron.wf p;
  wp_months : Cron.nonempty (Cron.mask p 4);
  wp_seconds : forall v, 0 <= v < 60 -> field_mask p 0 v = if v =? 0 then 1 else 0;
  wp_minutes : forall v, 0 <= v < 60 -> field_mask p 1 v = if v =? minute_ then 1 else 0;
  wp_hours : forall v, 0 <= v < 24 -> field_mask p 2 v = if v =? hour_ then 1 else 0;
  wp_days : forall v, 0 <= v < 31 -> field_mask p 3 v = 1;
  wp_all_months : forall v, 0 <= v < 12 -> field_mask p 4 v = 1;
  wp_weekdays : forall v, 0 <= v < 7 -> field_mask p 5 v = if bool_decide (v ∈ weekdays) then 63 else 0;
  wp_flags : Cron.flags p = (false, false, true, false, false)
}.

Lemma upd_lookup field D n v : 0 <= v < n ->
  default 0 (Cron.upd field D (replicate (Z.to_nat n) 0) !! Z.to_nat v) = if (D v : bool) then Cron.full field else 0.
Proof.
  intros Hv. unfold Cron.upd. rewrite list_lookup_imap, lookup_replicate_2 by lia. simpl. by rewrite Z2Nat.id by lia.
Qed.

Lemma weekly_parses : exists p, Cron.parse (Cron.show_spec (weekly_spec weekdays hour_ minute_)) = inl p /\ weekly_pattern p.
Proof.
  destruct (Cron.parse_spec _ weekly_spec_ok) as (p & Ep & Hm & H0 & _ & _ & Hf). exists p. split; [done|].
  destruct (Cron.parse_wf _ _ Ep) as [Hw Hn]. constructor; [done|by apply Hn; lia|..].
  - intros v Hv. unfold field_mask. rewrite H0, (upd_lookup 0 _ 60) by done. by rewrite Z.eqb_sym.
  - intros v Hv. unfold field_mask. rewrite (Hm 0%nat _ eq_refl), upd_lookup by done. unfold Cron.selects, Cron.any. simpl.
    by rewrite Z.add_0_r, !orb_false_r.
  - intros v Hv. unfold field_mask. rewrite (Hm 1%nat _ eq_refl), upd_lookup by done. unfold Cron.selects, Cron.any. simpl.
    by rewrite Z.add_0_r, !orb_false_r.
  - intros v Hv. unfold field_mask. by rewrite (Hm 2%nat _ eq_refl), upd_lookup by done.
  - intros v Hv. unfold field_mask. by rewrite (Hm 3%nat _ eq_refl), upd_lookup by done.
  - intros v Hv. unfold field_mask. rewrite (Hm 4%nat _ eq_refl), upd_lookup by done. unfold Cron.selects. rewrite Z.add_0_r.
    assert (E : forall x, Cron.any 5 (Cron.sp_weekday (weekly_spec weekdays hour_ minute_)) x = bool_decide (x ∈ weekdays)).
    { intros x. unfold Cron.any. cbn [weekly_spec Cron.sp_weekday]. clear. induction weekdays as [|d ds IH]; [done|]. cbn.
      rewrite IH. destruct (x =? d) eqn:Ed; reflect_bools.
      - subst. symmetry. apply bool_decide_eq_true. by left.
      - apply bool_decide_ext. rewrite elem_of_cons. intuition congruence. }
    rewrite !E. rewrite (bool_decide_eq_false_2 (7 ∈ weekdays)), andb_false_r, orb_false_r; [done|].
    intros H7. rewrite Forall_forall in Hin. specialize (Hin 7 H7). simpl in Hin. lia.
  - rewrite Hf. cbn [weekly_spec Cron.sp_day Cron.sp_weekday]. by rewrite (bool_decide_eq_false_2 _ weekday_field_not_star).
Qed.

Lemma weekly_day p y m d : weekly_pattern p -> in_range y -> 0 <= m <= 11 -> 1 <= d <= 31 ->
  day_ok p y m d = bool_decide (day_of_week (days y (m + 1) d) ∈ weekdays).
Proof.
  intros Hp Hy Hm Hd. pose proof (wp_flags p Hp) as Hf. injection Hf as F1 F2 F3 F4 F5.
  unfold day_ok, day_match. cbn [year month]. rewrite last_day_length, bind_value by done. cbv beta zeta.
  rewrite (wp_days p Hp) by lia. cbn [Z.eqb negb]. rewrite bind_value, F1, F2, F3, F4, F5. cbv beta iota. rewrite bind_value.
  cbv beta iota. cbn [negb orb andb]. rewrite weekday_days, bind_value by (done || lia). cbv beta.
  replace (((days y (m + 1) 1 + 4) mod 7 + d - 1) mod 7) with (day_of_week (days y (m + 1) d))
    by (unfold day_of_week; rewrite (days_day y (m + 1) d); Z.to_euclidean_division_equations; lia).
  assert (0 <= day_of_week (days y (m + 1) d) < 7) by (apply Z.mod_pos_bound; lia).
  rewrite (wp_weekdays p Hp) by done. cbn [default]. destruct (bool_decide _).
  - assert (0 <= (d - 1) / 7 < 5) by (Z.to_euclidean_division_equations; lia). set (k := (d - 1) / 7) in *.
    assert (k = 0 \/ k = 1 \/ k = 2 \/ k = 3 \/ k = 4) as Hk by lia. by destruct_or! Hk; rewrite Hk.
  - unfold bit. rewrite Z.land_0_l. done.
Qed.

(** The date reached by counting past the end of a month. *)
Lemma days_past y m u : 0 <= m < 11 ->
  days y (m + 1) u = days y (m + 1 + 1) (u - month_length y (m + 1)).
Proof.
  intros Hm. pose proof (days_next y m ltac:(lia)) as En. rewrite (Z.div_small (m + 1)), (Z.mod_small (m + 1)), Z.add_0_r in En by lia.
  rewrite (days_day y (m + 1) u), (days_day y (m + 1 + 1)). lia.
Qed.

Lemma real_ok_past p y m u : 0 <= m < 11 -> month_length y (m + 1) < u <= 31 ->
  real_ok p y m u = day_ok p y (m + 1) (u - month_length y (m + 1)).
Proof.
  intros Hm Hu. pose proof (month_length_range y (m + 1)). pose proof (month_length_range y (m + 1 + 1)).
  unfold real_ok. rewrite days_past by done. rewrite of_days_days by (split; lia). cbv beta iota. by replace (m + 1 + 1 - 1) with (m + 1) by lia.
Qed.

(** Days past the end of a month have the weekday of the date they reach. *)
Lemma weekly_tame p : weekly_pattern p -> tame p.
Proof.
  intros Hp y m u v Hy Hm Huv Hv _ Hr. pose proof (month_length_range y (m + 1)).
  assert (Hm11 : m < 11). { destruct (Z.eq_dec m 11) as [->|]; [change (month_length y (11 + 1)) with 31 in *|]; lia. }
  rewrite real_ok_past, weekly_day in Hr by (done || lia). rewrite weekly_day, days_past by (done || lia). exact Hr.
Qed.

Lemma weekly_matches p n : weekly_pattern p -> in_range (year (of_seconds n)) ->
  matches p (of_seconds n) <-> weekly_at n.
Proof.
  intros Hp Hy. destruct (of_seconds_valid n) as [[V1 V2 V3 V4 V5] ET]. rewrite T_D in ET by done.
  pose proof (month_length_range (year (of_seconds n)) (month (of_seconds n) + 1)).
  assert (Hc : 0 <= clock (of_seconds n) < 86400) by (unfold clock; lia).
  assert (ED : D (of_seconds n) = n / 86400 /\ clock (of_seconds n) = n mod 86400) by (Z.to_euclidean_division_equations; lia).
  destruct ED as [ED EC]. unfold weekly_at. rewrite <- ED, <- EC. set (g := of_seconds n) in *.
  assert (S1 : stage_ok p g 1 (day g) = bool_decide (day_of_week (D g) ∈ weekdays)) by (apply weekly_day; done || lia).
  assert (S0 : stage_ok p g 0 (month g) = true) by (unfold stage_ok; cbn; rewrite (wp_all_months p Hp) by lia; done).
  assert (S2 : stage_ok p g 2 (hour g) = (hour g =? hour_)) by (unfold stage_ok; cbn; rewrite (wp_hours p Hp) by lia; by destruct (hour g =? hour_)).
  assert (S3 : stage_ok p g 3 (minute g) = (minute g =? minute_)) by (unfold stage_ok; cbn; rewrite (wp_minutes p Hp) by lia; by destruct (minute g =? minute_)).
  assert (S4 : stage_ok p g 4 (second g) = (second g =? 0)) by (unfold stage_ok; cbn; rewrite (wp_seconds p Hp) by lia; by destruct (second g =? 0)).
  split.
  - intros Hall. pose proof (Hall 1%nat ltac:(lia)) as A1. pose proof (Hall 2%nat ltac:(lia)) as A2.
    pose proof (Hall 3%nat ltac:(lia)) as A3. pose proof (Hall 4%nat ltac:(lia)) as A4. cbn [get] in *.
    rewrite S1 in A1. rewrite S2 in A2. rewrite S3 in A3. rewrite S4 in A4. apply bool_decide_eq_true in A1.
    reflect_bools. split; [done|]. unfold clock. lia.
  - intros [Hd Ec]. unfold clock in Ec. intros stage Hs.
    do 5 (destruct stage as [|stage]; [cbn [get]; rewrite ?S0, ?S1, ?S2, ?S3, ?S4; done || (by apply bool_decide_eq_true) || (apply Z.eqb_eq; lia)|]).
    lia.
Qed.

(** The next day after [s] with a weekday of the schedule is within a week. *)
Lemma weekly_soon s : exists n, s < n <= s + 8 * 86400 /\ weekly_at n.
Proof.
  destruct weekdays as [|w ws] eqn:Ew; [done|]. set (d0 := s / 86400 + 1). set (d := d0 + (w - 4 - d0) mod 7).
  assert (Hr : 0 <= (w - 4 - d0) mod 7 < 7) by (apply Z.mod_pos_bound; lia).
  apply Forall_cons in Hin as [Hw _]. set (c := hour_ * 3600 + minute_ * 60). assert (0 <= c < 86400) by (unfold c; lia).
  assert (Ed : (d * 86400 + c) / 86400 = d /\ (d * 86400 + c) mod 86400 = c) by (Z.to_euclidean_division_equations; lia).
  exists (d * 86400 + c). split.
  - unfold d, d0 in *. Z.to_euclidean_division_equations; lia.
  - unfold weekly_at. destruct Ed as [-> ->]. split; [|done]. rewrite Ew. assert (day_of_week d = w) as ->; [|by left].
    unfold day_of_week, d. replace (d0 + (w - 4 - d0) mod 7 + 4) with (w + (d0 + 4 - w + (w - 4 - d0) mod 7)) by lia.
    Z.to_euclidean_division_equations; lia.
Qed.

Lemma era_year after off n : in_era after -> Z.abs off <= MAX_OFFSET ->
  after / 1000 < n <= after / 1000 + 9 * 86400 -> 100 <= year (civil off n) < 3000.
Proof.
  intros He Hoff Hn. destruct (of_seconds_valid (n + off)) as [V ET]. pose proof (valid_year _ V) as Hy. rewrite ET in Hy.
  unfold civil. set (y := year (of_seconds (n + off))) in *. unfold in_era, DAY, MAX_OFFSET in *.
  change (days 102 1 1) with (-682273) in He. change (days 2999 1 1) with 375835 in He.
  pose proof (days_year_lt 100 (y + 1)) as L1. change (days 100 1 1) with (-683003) in L1.
  pose proof (days_year_lt y 3000) as L2. change (days 3000 1 1) with 376200 in L2.
  Z.to_euclidean_division_equations; lia.
Qed.

Lemma weekly_search p off after : weekly_pattern p -> in_era after -> Z.abs off <= MAX_OFFSET ->
  exists n, CronDate.next p (fixed off) after = Some (Some (n * 1000)) /\ after < n * 1000 /\
    weekly_at (n + off) /\ forall n', after < n' * 1000 -> weekly_at (n' + off) -> n <= n'.
Proof.
  intros Hp He Hoff. destruct (weekly_soon (after / 1000 + off)) as (s & Hs & Ws). set (c := s - off).
  assert (Hc : after / 1000 < c <= after / 1000 + 8 * 86400) by (unfold c; lia).
  assert (Hw : forall n, after < n * 1000 -> n <= c -> in_range (year (civil off n)) /\ (matches p (civil off n) <-> weekly_at (n + off))).
  { intros n H1 H2. assert (Hy : in_range (year (civil off n))).
    { unfold in_range. pose proof (era_year after off n He Hoff). Z.to_euclidean_division_equations; lia. }
    split; [done|]. by apply weekly_matches. }
  assert (Hcs : after < c * 1000) by (clear -Hc; Z.to_euclidean_division_equations; lia).
  assert (Mc : matches p (civil off c)). { apply (Hw c Hcs ltac:(lia)). unfold c. by replace (s - off + off) with s by lia. }
  destruct (next_fixed p off after (wp_wf p Hp) (wp_months p Hp) He Hoff) as (r & Er & Hr).
  pose proof (weekly_tame p Hp) as Ht. destruct r as [t|].
  - destruct Hr as (n & -> & Hlt & Mn & Hleast). exists n. pose proof (Hleast Ht c Hcs Mc).
    split_and!; [done|done|by apply Hw; [done|lia|]|]. intros n' H1 H2. destruct (Z.le_gt_cases n' c) as [Hle|]; [|lia].
    pose proof (Hleast Ht n' H1 (proj2 (proj2 (Hw n' H1 Hle)) H2)). lia.
  - specialize (Hr Ht c Hcs Mc). pose proof (era_year after off c He Hoff ltac:(lia)). lia.
Qed.

(** No printed expression has a colon. *)
Lemma weekly_no_colon : is_date (Cron.show_spec (weekly_spec weekdays hour_ minute_)) = false.
Proof.
  unfold is_date. rewrite (proj2 (list_find_None _ _)); [done|]. pose proof weekly_spec_ok as [F1 F2 F3 F4 F5].
  unfold Cron.show_spec. cbn [Cron.entries fmap list_fmap Cron.join].
  assert (Hf : forall k es, (k <= 5)%nat -> Cron.field_ok k es -> Forall (fun x => x <> 58) (Cron.show_field es)).
  { intros k es Hk Hes. destruct (Cron.field_ok_text k es Hk Hes) as (Hc & _). eapply Forall_impl; [exact Hc|].
    intros x Hx%Cron.field_char_range. lia. }
  repeat (apply Forall_app; split; [eapply Hf; [|eassumption]; lia|]; apply Forall_cons; split; [lia|]).
  eapply Hf; [|eassumption]. lia.
Qed.
End weekly.

(** A weekly schedule in a zone with a fixed offset always has a next
    occurrence, and it is exactly the first second after [after] whose local
    weekday is one of the schedule's and whose local time of day is its hour
    and minute: the expression the code writes is accepted by its own parser,
    and the search finds the right second. *)
Theorem weekly_next_exact named_zone tzif resolve environment
    (weekdays : list Z) (hour_ minute_ : Z) (zone : text) (off after : Z) :
  weekdays <> [] -> Forall (fun d => 0 <= d <= 6) weekdays -> 0 <= hour_ <= 23 -> 0 <= minute_ <= 59 ->
  timezone named_zone tzif zone = Some (CronDate.fixed off) -> Z.abs off <= CronDate.MAX_OFFSET -> CronDate.in_era after ->
  exists n, next named_zone tzif resolve environment (Weekly weekdays hour_ minute_ zone) after = Some (Some (n * 1000)) /\
    after < n * 1000 /\ weekly_at weekdays hour_ minute_ (n + off) /\
    forall n', after < n' * 1000 -> weekly_at weekdays hour_ minute_ (n' + off) -> n <= n'.
Proof.
  intros Hne Hin Hh Hmi Hz Hoff He. destruct (weekly_parses weekdays hour_ minute_ Hne Hin Hh Hmi) as (p & Ep & Hp).
  cbn [next]. unfold by_expression. rewrite Hz, bind_value. cbv beta. rewrite weekly_no_colon, Ep by done.
  by apply weekly_search.
Qed.

(** Monday and Saturday at 09:30, two hours east, from Monday 23 February 2026
    at 07:30 UTC. *)
Lemma weekly_next_exact_witness :
  exists n, next (fun _ => None) (fun _ => CronDate.fixed 0) (fun _ => None) (CronDate.fixed 0)
      (Weekly [1; 6] 9 30 (lit "+02:00")) 1771831800000 = Some (Some (n * 1000)) /\
    n = 1772263800 /\ 1771831800000 < n * 1000.
Proof.
  destruct (weekly_next_exact (fun _ => None) (fun _ => CronDate.fixed 0) (fun _ => None) (CronDate.fixed 0)
    [1; 6] 9 30 (lit "+02:00") 7200 1771831800000) as (n & E & Hlt & _).
  - discriminate.
  - apply Forall_cons. split; [lia|]. apply Forall_cons. split; [lia|]. apply Forall_nil_2.
  - lia.
  - lia.
  - vm_compute. reflexivity.
  - vm_compute. congruence.
  - vm_compute. split; congruence.
  - exists n. split; [exact E|]. split; [|exact Hlt].
    assert (E' : next (fun _ => None) (fun _ => CronDate.fixed 0) (fun _ => None) (CronDate.fixed 0)
      (Weekly [1; 6] 9 30 (lit "+02:00")) 1771831800000 = Some (Some (1772263800 * 1000))) by (vm_compute; reflexivity).
    rewrite E' in E. injection E as E. lia.
Defined.
End Automation.
