(* ===== verification/JsString.v ===== *)
(** * JavaScript strings in JSON

    [JsString] models the strings of src/cantrip_server_rs/src/wire/value.rs:
    sequences of UTF-16 units, possibly with unpaired surrogates, their JSON
    text ([write_json]) and their reading from the WTF-8 bytes serde_json hands
    over ([visit_bytes]). serde_json's decoding of a quoted string is a parameter
    with its documented behaviour ([JsonStrings]). *)
From S2P Require Import Prelude.
From stdpp Require Import base numbers strings option list.
Open Scope Z_scope.

Module JsString.
Import Text.

Definition units := list Z.

(** ** Writing *)

Definition hex_digit (n : Z) : Z := if n <? 10 then 48 + n else 87 + n.
Definition hex4 (u : Z) : text :=
  [hex_digit (u / 4096 mod 16); hex_digit (u / 256 mod 16); hex_digit (u / 16 mod 16); hex_digit (u mod 16)].
Definition escape_unit (u : Z) : text := 92 :: 117 :: hex4 u.

Definition high (u : Z) : bool := (0xd800 <=? u) && (u <=? 0xdbff).
Definition low (u : Z) : bool := (0xdc00 <=? u) && (u <=? 0xdfff).
Definition surrogate (u : Z) : bool := (0xd800 <=? u) && (u <=? 0xdfff).
Definition scalar_of (h l : Z) : Z := 0x10000 + Z.shiftl (h - 0xd800) 10 + (l - 0xdc00).

(** The escapes with a letter of their own. *)
Definition short_escape (u : Z) : option Z :=
  if u =? 34 then Some 34 else if u =? 92 then Some 92 else if u =? 8 then Some 98 else if u =? 9 then Some 116
  else if u =? 10 then Some 110 else if u =? 12 then Some 102 else if u =? 13 then Some 114 else None.

Fixpoint write_units (s : units) : text :=
  match s with
  | [] => []
  | u :: r =>
      match short_escape u with
      | Some e => 92 :: e :: write_units r
      | None =>
          if (0 <=? u) && (u <=? 31) then escape_unit u ++ write_units r
          else if surrogate u then
            match r with
            | l :: r' => if high u && low l then scalar_of u l :: write_units r' else escape_unit u ++ write_units r
            | [] => escape_unit u
            end
          else u :: write_units r
      end
  end.

Definition write_json (s : units) : text := 34 :: write_units s ++ [34].

(** ** Reading bytes *)

Definition width (first : Z) : nat :=
  if first <? 0x80 then 1 else if first <? 0xe0 then 2 else if first <? 0xf0 then 3 else 4.
Definition lead_mask (w : nat) : Z := match w with 1%nat => 0x7f | 2%nat => 0x1f | 3%nat => 0x0f | _ => 7 end.

Definition push_scalar (scalar : Z) : units :=
  if scalar <=? 0xffff then [scalar]
  else let value := scalar - 0x10000 in [0xd800 + Z.shiftr value 10; 0xdc00 + Z.land value 1023].

(** One round per character: the bytes still to read, and what has been read. *)
Fixpoint visit (fuel : nat) (bytes : list Z) : option units :=
  match fuel with
  | O => None
  | S fuel =>
      match bytes with
      | [] => Some []
      | first :: _ =>
          let w := width first in
          if (length bytes <? w)%nat then None
          else
            let slice := take w bytes in
            let scalar :=
              fold_left (fun scalar byte => Z.lor (Z.shiftl scalar 6) (Z.land byte 63)) (tail slice) (Z.land first (lead_mask w)) in
            rest ← visit fuel (drop w bytes);
            Some (push_scalar scalar ++ rest)
      end
  end.
Definition visit_bytes (bytes : list Z) : option units := visit (S (length bytes)) bytes.

(** ** The bytes of code points

    UTF-8, and its extension to unpaired surrogates. *)
Definition wtf8 (c : Z) : list Z :=
  if c <? 0x80 then [c]
  else if c <? 0x800 then [0xc0 + c / 64; 0x80 + c mod 64]
  else if c <? 0x10000 then [0xe0 + c / 4096; 0x80 + c / 64 mod 64; 0x80 + c mod 64]
  else [0xf0 + c / 262144; 0x80 + c / 4096 mod 64; 0x80 + c / 64 mod 64; 0x80 + c mod 64].

(** serde_json's decoding of what follows the opening quote, up to and with the
    closing one, into WTF-8 bytes. *)
Class JsonStrings := decode : text -> option (list Z).

Class JsonStringLaws `{JsonStrings} : Prop := {
  decode_end : decode [34] = Some [];
  decode_plain : forall c s, 32 <= c <= 0x10ffff -> c <> 34 -> c <> 92 -> surrogate c = false ->
    decode (c :: s) = (app (wtf8 c)) <$> decode s;
  decode_short : forall u e s, short_escape u = Some e -> decode (92 :: e :: s) = (app (wtf8 u)) <$> decode s;
  decode_unit : forall u s, 0 <= u <= 0xffff ->
    (high u = true -> forall l, low l = true -> ~ (escape_unit l `prefix_of` s)) ->
    decode (escape_unit u ++ s) = (app (wtf8 u)) <$> decode s
}.

(** [JsString::deserialize] of a quoted string. *)
Definition from_json `{JsonStrings} (quoted : text) : option units := bytes ← decode (tail quoted); visit_bytes bytes.

(** ** Bytes and code points *)

Lemma lor_low a b : 0 <= b < 64 -> Z.lor (Z.shiftl a 6) b = a * 64 + b.
Proof.
  intros Hb. assert (E : Z.land (Z.shiftl a 6) b = 0).
  { apply Z.bits_inj'. intros n Hn. rewrite Z.land_spec, Z.bits_0. destruct (Z.lt_ge_cases n 6).
    - by rewrite Z.shiftl_spec_low.
    - destruct (decide (b = 0)) as [->|]; [by rewrite Z.bits_0, andb_false_r|].
      rewrite (Z.bits_above_log2 b n), andb_false_r; [done|lia|]. apply Z.log2_lt_pow2; [lia|]. apply Z.lt_le_trans with (2 ^ 6); [lia|].
      apply Z.pow_le_mono_r; lia. }
  pose proof (Z.add_lor_land (Z.shiftl a 6) b) as Ha. rewrite E, Z.shiftl_mul_pow2 in Ha by lia. rewrite Z.shiftl_mul_pow2 by lia.
  change (2 ^ 6) with 64 in *. lia.
Qed.

Lemma land_mod x n : 0 <= n -> Z.land x (2 ^ n - 1) = x mod 2 ^ n.
Proof. intros Hn. rewrite <- Z.land_ones, Z.ones_equiv by lia. f_equal. Qed.

(** A continuation byte adds six bits. *)
Lemma continue_byte a c : Z.lor (Z.shiftl a 6) (Z.land (0x80 + c mod 64) 63) = a * 64 + c mod 64.
Proof.
  change 63 with (2 ^ 6 - 1). rewrite land_mod by lia. change (2 ^ 6) with 64.
  pose proof (Z.mod_pos_bound c 64 ltac:(lia)).
  replace ((0x80 + c mod 64) mod 64) with (c mod 64) by (Z.to_euclidean_division_equations; lia). by apply lor_low.
Qed.

Lemma lead_byte (n m b x : Z) : m = 2 ^ n - 1 -> 0 <= n -> b mod 2 ^ n = 0 -> 0 <= x < 2 ^ n -> Z.land (b + x) m = x.
Proof.
  intros -> Hn Hb Hx. rewrite land_mod by done. rewrite Z.add_mod, Hb, Z.add_0_l by lia. rewrite Z.mod_mod by lia. by apply Z.mod_small.
Qed.

Lemma visit_wtf8 c bytes n : 0 <= c <= 0x10ffff ->
  visit (S n) (wtf8 c ++ bytes) = app (push_scalar c) <$> visit n bytes.
Proof.
  intros Hc. unfold wtf8. destruct (c <? 0x80) eqn:E1; [|destruct (c <? 0x800) eqn:E2; [|destruct (c <? 0x10000) eqn:E3]]; reflect_bools;
    cbn [visit app]; unfold width.
  - rewrite (proj2 (Z.ltb_lt c 0x80)) by lia. cbn [length Nat.ltb Nat.leb firstn tail fold_left skipn lead_mask]. rewrite take_0, drop_0. cbn [fold_left].
    replace (Z.land c 0x7f) with c by (symmetry; apply (lead_byte 7 0x7f 0 c); [done|lia|reflexivity|change (2 ^ 7) with 128; lia]). by destruct (visit n bytes).
  - assert (Hq : 2 <= c / 64 < 32) by (Z.to_euclidean_division_equations; lia).
    rewrite (proj2 (Z.ltb_ge _ 0x80)), (proj2 (Z.ltb_lt _ 0xe0)) by lia.
    cbn [length Nat.ltb Nat.leb firstn tail fold_left skipn lead_mask]. rewrite take_0, drop_0. cbn [fold_left].
    rewrite (lead_byte 5 0x1f 0xc0 (c / 64)) by (done || lia). rewrite continue_byte.
    replace (c / 64 * 64 + c mod 64) with c by (pose proof (Z.div_mod c 64 ltac:(lia)); lia). by destruct (visit n bytes).
  - assert (Hq : 0 <= c / 4096 < 16) by (Z.to_euclidean_division_equations; lia).
    rewrite (proj2 (Z.ltb_ge _ 0x80)), (proj2 (Z.ltb_ge _ 0xe0)), (proj2 (Z.ltb_lt _ 0xf0)) by lia.
    cbn [length Nat.ltb Nat.leb firstn tail fold_left skipn lead_mask]. rewrite take_0, drop_0. cbn [fold_left].
    rewrite (lead_byte 4 0x0f 0xe0 (c / 4096)) by (done || lia). rewrite !continue_byte.
    replace ((c / 4096 * 64 + (c / 64) mod 64) * 64 + c mod 64) with c by (Z.to_euclidean_division_equations; lia). by destruct (visit n bytes).
  - assert (Hq : 0 <= c / 262144 < 8) by (Z.to_euclidean_division_equations; lia).
    rewrite (proj2 (Z.ltb_ge _ 0x80)), (proj2 (Z.ltb_ge _ 0xe0)), (proj2 (Z.ltb_ge _ 0xf0)) by lia.
    cbn [length Nat.ltb Nat.leb firstn tail fold_left skipn lead_mask]. rewrite take_0, drop_0. cbn [fold_left].
    rewrite (lead_byte 3 7 0xf0 (c / 262144)) by (done || lia). rewrite !continue_byte.
    replace (((c / 262144 * 64 + (c / 4096) mod 64) * 64 + (c / 64) mod 64) * 64 + c mod 64) with c by (Z.to_euclidean_division_equations; lia).
    by destruct (visit n bytes).
Qed.

Lemma width_pos b : (1 <= width b <= 4)%nat.
Proof. unfold width. repeat case_match; lia. Qed.

(** Enough rounds give the same answer. *)
Lemma visit_fuel n : forall m bytes, (length bytes < n)%nat -> (length bytes < m)%nat -> visit n bytes = visit m bytes.
Proof.
  induction n as [|n IH]; intros m bytes Hn Hm; [lia|]. destruct m as [|m]; [lia|]. cbn [visit]. destruct bytes as [|b bytes]; [done|].
  pose proof (width_pos b). case_match; [done|]. rewrite (IH m); [done|..]; rewrite length_drop; cbn [length] in *; lia.
Qed.

Lemma visit_bytes_wtf8 c bytes : 0 <= c <= 0x10ffff ->
  visit_bytes (wtf8 c ++ bytes) = app (push_scalar c) <$> visit_bytes bytes.
Proof.
  intros Hc. unfold visit_bytes. rewrite visit_wtf8 by done. f_equal. apply visit_fuel; [|lia].
  rewrite length_app. unfold wtf8. repeat case_match; simpl; lia.
Qed.

(** ** Writing and reading back *)

Definition unit_ok (u : Z) : Prop := 0 <= u <= 0xffff.

Lemma hex_digit_inj a b : 0 <= a < 16 -> 0 <= b < 16 -> hex_digit a = hex_digit b -> a = b.
Proof. unfold hex_digit. intros Ha Hb. destruct (a <? 10) eqn:?, (b <? 10) eqn:?; reflect_bools; lia. Qed.

Lemma hex4_inj u v : unit_ok u -> unit_ok v -> hex4 u = hex4 v -> u = v.
Proof.
  intros Hu Hv E. unfold hex4 in E. injection E as E1 E2 E3 E4. unfold unit_ok in *.
  apply hex_digit_inj in E1, E2, E3, E4; try (apply Z.mod_pos_bound; lia). Z.to_euclidean_division_equations. lia.
Qed.

Lemma short_escape_letter u e : short_escape u = Some e -> e <> 117 /\ 0 <= u <= 92.
Proof. unfold short_escape. repeat case_match; intros [= <-]; reflect_bools; lia. Qed.

Lemma push_pair h l : high h = true -> low l = true -> push_scalar (scalar_of h l) = [h; l] /\ 0x10000 <= scalar_of h l <= 0x10ffff.
Proof.
  unfold high, low, push_scalar, scalar_of. intros Hh Hl. reflect_bools. rewrite Z.shiftl_mul_pow2 by lia. change (2 ^ 10) with 1024.
  split; [|lia]. rewrite (proj2 (Z.leb_gt _ _)) by lia. cbv zeta. rewrite Z.shiftr_div_pow2 by lia.
  change 1023 with (2 ^ 10 - 1). rewrite land_mod by lia. change (2 ^ 10) with 1024.
  f_equal; [|f_equal]; Z.to_euclidean_division_equations; lia.
Qed.

(** What follows a high surrogate does not start with the escape of a low one. *)
Lemma not_low_escape s l : Forall unit_ok s -> match s with u :: _ => low u = false | [] => True end -> low l = true ->
  ~ (escape_unit l `prefix_of` write_units s ++ [34]).
Proof.
  intros Hs Hu Hl [k E]. unfold escape_unit in E. cbn [app] in E.
  assert (Hlok : unit_ok l) by (unfold low, unit_ok in *; reflect_bools; lia).
  assert (Hesc : forall u r, unit_ok u -> low u = false -> escape_unit u ++ r = 92 :: 117 :: hex4 l ++ k -> False).
  { intros u r Hu' Hlow H. unfold escape_unit in H. cbn [app] in H. injection H as E1 E2 E3 E4 _.
    assert (u = l) by (apply hex4_inj; [done..|unfold hex4; congruence]). congruence. }
  destruct s as [|u r]; [done|]. apply Forall_cons in Hs as [Hok Hs]. cbn [write_units] in E.
  destruct (short_escape u) as [e|] eqn:Es.
  { apply short_escape_letter in Es as [He _]. injection E as E _. congruence. }
  assert (Hnot : (escape_unit u ++ write_units r) ++ [34] = 92 :: 117 :: hex4 l ++ k -> False).
  { rewrite <- app_assoc. by apply Hesc. }
  destruct ((0 <=? u) && (u <=? 31)); [exact (Hnot E)|].
  destruct (surrogate u) eqn:Esu.
  - destruct r as [|l' r]; [by apply (Hesc u [34])|]. destruct (high u && low l') eqn:Ep; [|exact (Hnot E)].
    apply andb_true_iff in Ep as [Hh Hl']. destruct (push_pair u l' Hh Hl') as [_ Hr]. injection E as E _. lia.
  - injection E as E _. subst u. done.
Qed.

Section laws.
Context `{JsonStringLaws}.

Lemma decode_write n : forall s, (length s <= n)%nat -> Forall unit_ok s ->
  exists bytes, decode (write_units s ++ [34]) = Some bytes /\ visit_bytes bytes = Some s.
Proof.
  induction n as [|n IH]; intros s Hn Hs.
  { destruct s; [|simpl in Hn; lia]. exists []. by rewrite decode_end. }
  destruct s as [|u r]; [exists []; by rewrite decode_end|]. apply Forall_cons in Hs as [Hu Hr]. cbn [length] in Hn.
  assert (Hstep : forall c t t', 0 <= c <= 0x10ffff -> (length t <= n)%nat -> Forall unit_ok t ->
    t' = app (wtf8 c) <$> decode (write_units t ++ [34]) ->
    exists bytes, t' = Some bytes /\ visit_bytes bytes = Some (push_scalar c ++ t)).
  { intros c t t' Hc Ht Ht' ->. destruct (IH t Ht Ht') as (bytes & -> & Ev). exists (wtf8 c ++ bytes). split; [done|].
    by rewrite visit_bytes_wtf8, Ev. }
  assert (Hpush : push_scalar u = [u]) by (unfold push_scalar, unit_ok in *; by rewrite (proj2 (Z.leb_le u _)) by lia).
  unfold unit_ok in Hu. cbn [write_units]. destruct (short_escape u) as [e|] eqn:Es.
  { destruct (Hstep u r _ ltac:(lia) ltac:(lia) Hr (decode_short u e _ Es)) as (b & E & Ev). exists b. split; [exact E|]. by rewrite Ev, Hpush. }
  assert (Hunit : (high u = true -> match r with v :: _ => low v = false | [] => True end) ->
    exists bytes, decode ((escape_unit u ++ write_units r) ++ [34]) = Some bytes /\ visit_bytes bytes = Some (u :: r)).
  { intros Hlow. rewrite <- app_assoc. destruct (Hstep u r _ ltac:(lia) ltac:(lia) Hr (decode_unit u (write_units r ++ [34]) Hu (fun Hh l Hl => not_low_escape r l Hr (Hlow Hh) Hl)))
      as (b & E & Ev). exists b. split; [exact E|]. by rewrite Ev, Hpush. }
  destruct ((0 <=? u) && (u <=? 31)) eqn:Ec; [apply Hunit; unfold high; reflect_bools; lia|].
  destruct (surrogate u) eqn:Esu.
  - destruct r as [|l r].
    { cbn [write_units] in Hunit. rewrite app_nil_r in Hunit. by apply Hunit. }
    destruct (high u && low l) eqn:Ep.
    + apply andb_true_iff in Ep as [Hh Hl]. destruct (push_pair u l Hh Hl) as [Hp Hb]. apply Forall_cons in Hr as [_ Hr].
      cbn [length] in Hn. edestruct (Hstep (scalar_of u l) r) as (b & E & Ev); [lia|lia|done| |].
      { apply decode_plain; [lia..|]. unfold surrogate. rewrite (proj2 (Z.leb_gt (scalar_of u l) _)), andb_false_r by lia. done. }
      exists b. split; [exact E|]. by rewrite Ev, Hp.
    + apply Hunit. intros Hh. rewrite Hh in Ep. done.
  - destruct (Hstep u r (decode (u :: write_units r ++ [34])) ltac:(lia) ltac:(lia) Hr) as (b & E & Ev).
    { apply decode_plain; [|intros ->; done|intros ->; done|done].
      destruct (0 <=? u) eqn:?, (u <=? 31) eqn:?; reflect_bools; try done; lia. }
    exists b. split; [exact E|]. by rewrite Ev, Hpush.
Qed.

(** A string written as JSON is read back unit by unit. *)
Lemma json_string s : Forall unit_ok s -> from_json (write_json s) = Some s.
Proof.
  intros Hs. unfold from_json, write_json. cbn [tail]. destruct (decode_write (length s) s ltac:(lia) Hs) as (b & -> & E).
  rewrite bind_value. exact E.
Qed.
End laws.
End JsString.
