(* ===== verification/Wire.v ===== *)
(** * Wire values

    [Wire] models the JSON values of src/cantrip_server_rs/src/wire: the value
    tree of value.rs, the traversals of value/operations.rs that keep their own
    stack ([stringify], [stringify_pretty], [clone], [eq]), the reader of
    value/parser.rs and the key order of coercion.rs. Numbers and their text are
    parameters ([Numbers]), as are serde_json's strings ([JsonStrings]). A Rust
    string is the list of its characters: every byte the reader compares is
    ASCII. *)
From S2P Require Import Prelude JsString.
From stdpp Require Import base numbers strings option list sorting.
Open Scope Z_scope.

Module Wire.
Import Text JsString.

(** ** Numbers

    f64 with its IEEE equality, the ECMAScript text of a finite number (ryu_js)
    and the parser of the standard library. *)
Class Numbers := {
  num : Type;
  is_finite : num -> bool;
  format_finite : num -> text;
  parse_number : text -> option num;
  num_eq : num -> num -> bool
}.

Definition number_char (c : Z) : bool :=
  is_digit c || (c =? 45) || (c =? 43) || (c =? 46) || (c =? 101) || (c =? 69).

Class NumberLaws `{Numbers} : Prop := {
  parse_empty : parse_number [] = None;
  format_chars : forall n, is_finite n = true -> format_finite n <> [] /\ Forall (fun c => number_char c = true) (format_finite n);
  parse_format : forall n, is_finite n = true ->
    exists m, parse_number (format_finite n) = Some m /\ num_eq m n = true /\ is_finite m = true /\ format_finite m = format_finite n
}.

Section wire.
Context `{Numbers, JsonStrings}.

(** ** Values *)

Inductive Value :=
| Null
| Bool (b : bool)
| Number (n : num)
| String_ (s : units)
| Array (values : list Value)
| Object (entries : list (units * Value)).

(** *** Key order

    [coercion::keys]: array indices first, by value, then the other keys in
    insertion order; [sort_by_key] is stable. *)
Definition parse_u32 (s : text) : option Z :=
  let ds := match s with 43 :: r => r | _ => s end in
  if bool_decide (ds = []) then None
  else if forallb is_digit ds then
    let n := digits_value ds in if n <? 2 ^ 32 then Some n else None
  else None.

Definition index_key (k : units) : option Z :=
  n ← parse_u32 k;
  if (n <? 2 ^ 32 - 1) && bool_decide (decimal n = k) then Some n else None.

Definition rank (k : units) : Z * Z := match index_key k with Some n => (0, n) | None => (1, 0) end.
Definition rank_le (a b : units) : bool :=
  (fst (rank a) <? fst (rank b)) || ((fst (rank a) =? fst (rank b)) && (snd (rank a) <=? snd (rank b))).

Fixpoint insert_key (k : units) (l : list units) : list units :=
  match l with
  | [] => [k]
  | k' :: l' => if rank_le k k' then k :: l else k' :: insert_key k l'
  end.
Definition sort_keys (l : list units) : list units := foldr insert_key [] l.
Definition keys (o : list (units * Value)) : list units := sort_keys (IndexMap.keys o).

(** *** [stringify] *)

Inductive Part := PValue (v : Value) | PKey (k : units) | PText (s : text).

Definition push_array (values : list Value) (stack : list Part) : list Part :=
  fold_left (fun stack '(i, v) =>
      let stack := PValue v :: stack in
      if (0 <? i)%nat then PText [44] :: stack else stack)
    (reverse (imap pair values)) (PText [93] :: stack).

(** [object[key]] is the value under a key of the object. *)
Definition index (o : list (units * Value)) (k : units) : Value := default Null (IndexMap.get k o).

Definition push_object (o : list (units * Value)) (stack : list Part) : list Part :=
  fold_left (fun stack '(i, k) =>
      let stack := PKey k :: PText [58] :: PValue (index o k) :: stack in
      if (0 <? i)%nat then PText [44] :: stack else stack)
    (reverse (imap pair (keys o))) (PText [125] :: stack).

Definition write_part (part : Part) (stack : list Part) : text * list Part :=
  match part with
  | PText s => (s, stack)
  | PKey k => (write_json k, stack)
  | PValue v =>
      match v with
      | Null => (lit "null", stack)
      | Bool b => (lit (if b then "true" else "false"), stack)
      | Number n => (if is_finite n then format_finite n else lit "null", stack)
      | String_ s => (write_json s, stack)
      | Array values => ([91], push_array values stack)
      | Object o => ([123], push_object o stack)
      end
  end.

(** The loop; [None] is the fuel running out, which [stringify_show] excludes. *)
Fixpoint write_parts (fuel : nat) (stack : list Part) (output : text) : option text :=
  match stack, fuel with
  | [], _ => Some output
  | _, O => None
  | part :: stack, S fuel => let '(s, stack) := write_part part stack in write_parts fuel stack (output ++ s)
  end.

(** The parts a value makes. *)
Fixpoint cost (v : Value) : nat :=
  match v with
  | Array values => 2 + list_sum (map (fun v => S (cost v)) values)
  | Object o => 2 + list_sum (map (fun kv => 3 + cost kv.2)%nat o)
  | _ => 1
  end.

Definition stringify (v : Value) : text := default [] (write_parts (cost v) [PValue v] []).

(** *** [stringify_pretty] *)

Definition indent (depth : nat) : text := concat (replicate depth [32; 32]).
Definition new_line (depth : nat) : text := 10 :: indent depth.
Definition closing (c : Z) : bool := (c =? 125) || (c =? 93).
Definition opening (c : Z) : bool := (c =? 123) || (c =? 91).

(** The rest of the compact text, and the state of the loop. *)
Fixpoint layout (s : text) (quoted escaped : bool) (depth : nat) (previous : Z) : text :=
  match s with
  | [] => []
  | ch :: r =>
      if quoted then
        ch :: (if escaped then layout r true false depth ch
               else if ch =? 92 then layout r true true depth ch
               else if ch =? 34 then layout r false false depth ch
               else layout r true false depth ch)
      else if ch =? 34 then ch :: layout r true escaped depth ch
      else if opening ch then
        ch :: (match r with next :: _ => if negb (closing next) then new_line (S depth) else [] | [] => [] end)
           ++ layout r false escaped (S depth) ch
      else if closing ch then
        (if negb (opening previous) then new_line (pred depth) else []) ++ ch :: layout r false escaped (pred depth) ch
      else if ch =? 44 then ch :: new_line depth ++ layout r false escaped depth ch
      else if ch =? 58 then [58; 32] ++ layout r false escaped depth ch
      else ch :: layout r false escaped depth ch
  end.

Definition stringify_pretty (v : Value) : text := layout (stringify v) false false 0 32.

(** *** [Clone] *)

Inductive Step := Visit (v : Value) | StepArray (n : nat) | StepObject (ks : list units).

(** [Vec::split_off] at the last [n] values. *)
Definition split_off (n : nat) (values : list Value) : list Value * list Value :=
  (take (length values - n) values, drop (length values - n) values).

Definition clone_step (step : Step) (pending : list Step) (values : list Value) : list Step * list Value :=
  match step with
  | Visit v =>
      match v with
      | Array array => (map Visit array ++ StepArray (length array) :: pending, values)
      | Object o => (map Visit (IndexMap.values o) ++ StepObject (IndexMap.keys o) :: pending, values)
      | v => (pending, values ++ [v])
      end
  | StepArray n => let '(values, children) := split_off n values in (pending, values ++ [Array children])
  | StepObject ks =>
      let '(values, children) := split_off (length ks) values in
      (pending, values ++ [Object (fold_left (fun o kv => IndexMap.insert kv.1 kv.2 o) (zip ks children) [])])
  end.

Fixpoint clone_loop (fuel : nat) (pending : list Step) (values : list Value) : option (list Value) :=
  match pending, fuel with
  | [], _ => Some values
  | _, O => None
  | step :: pending, S fuel => let '(pending, values) := clone_step step pending values in clone_loop fuel pending values
  end.

(** [None] is a panic, or the fuel running out. *)
Definition clone (v : Value) : option Value := values ← clone_loop (cost v) [Visit v] []; last values.

(** *** [PartialEq] *)

Fixpoint match_entries (a b : list (units * Value)) (pending : list (Value * Value)) : option (list (Value * Value)) :=
  match a with
  | [] => Some pending
  | (k, v) :: a => other ← IndexMap.get k b; match_entries a b ((v, other) :: pending)
  end.

(** [None] returns false. *)
Definition eq_step (left right : Value) (pending : list (Value * Value)) : option (list (Value * Value)) :=
  match left, right with
  | Null, Null => Some pending
  | Bool a, Bool b => if Bool.eqb a b then Some pending else None
  | Number a, Number b => if num_eq a b then Some pending else None
  | String_ a, String_ b => if bool_decide (a = b) then Some pending else None
  | Array a, Array b => if (length a =? length b)%nat then Some (reverse (zip a b) ++ pending) else None
  | Object a, Object b => if (length a =? length b)%nat then match_entries a b pending else None
  | _, _ => None
  end.

Fixpoint eq_loop (fuel : nat) (pending : list (Value * Value)) : option bool :=
  match pending, fuel with
  | [], _ => Some true
  | _, O => None
  | (l, r) :: pending, S fuel => match eq_step l r pending with Some pending => eq_loop fuel pending | None => Some false end
  end.

Definition eq (a b : Value) : bool := default false (eq_loop (cost a) [(a, b)]).

(** *** The reader *)

Inductive Container := CArray (values : list Value) | CObject (o : list (units * Value)) (key : option units).

(** From the opening quote to the closing one; [None] is an index out of range. *)
Fixpoint string_body (s : text) : option (text * text) :=
  match s with
  | [] => None
  | c :: r =>
      if c =? 92 then
        match r with
        | [] => None
        | e :: r => '(body, rest) ← string_body r; Some (c :: e :: body, rest)
        end
      else if c =? 34 then Some ([c], r)
      else '(body, rest) ← string_body r; Some (c :: body, rest)
  end.

Fixpoint span_number (s : text) : text * text :=
  match s with
  | c :: r => if number_char c then let '(n, rest) := span_number r in (c :: n, rest) else ([], s)
  | [] => ([], [])
  end.

(** The end of a parse: a value, an error, or a panic. *)
Inductive Parsed := Ok_ (v : Value) | Failed | Panics.

Record Reader := MkReader { raw : text; containers : list Container }.

(** A value goes into the innermost container, or is the answer. *)
Definition deliver (v : Value) (raw : text) (stack : list Container) : Reader + Parsed :=
  match stack with
  | [] => inr (Ok_ v)
  | CArray values :: stack => inl (MkReader raw (CArray (values ++ [v]) :: stack))
  | CObject o (Some k) :: stack => inl (MkReader raw (CObject (IndexMap.insert k v o) None :: stack))
  | CObject o None :: _ => inr Panics
  end.

Definition blank (c : Z) : bool := (c =? 32) || (c =? 9) || (c =? 13) || (c =? 10) || (c =? 44) || (c =? 58).

Definition read_step (rd : Reader) : Reader + Parsed :=
  match raw rd with
  | [] => inr Panics
  | c :: r =>
      if blank c then inl (MkReader r (containers rd))
      else if c =? 91 then inl (MkReader r (CArray [] :: containers rd))
      else if c =? 123 then inl (MkReader r (CObject [] None :: containers rd))
      else if closing c then
        match containers rd with
        | [] => inr Panics
        | CArray values :: stack => deliver (Array values) r stack
        | CObject o _ :: stack => deliver (Object o) r stack
        end
      else if c =? 34 then
        match string_body r with
        | None => inr Panics
        | Some (body, r) =>
            match from_json (c :: body) with
            | None => inr Failed
            | Some s =>
                match containers rd with
                | CObject o None :: stack => inl (MkReader r (CObject o (Some s) :: stack))
                | stack => deliver (String_ s) r stack
                end
            end
        end
      else if c =? 110 then deliver Null (drop 4 (c :: r)) (containers rd)
      else if c =? 116 then deliver (Bool true) (drop 4 (c :: r)) (containers rd)
      else if c =? 102 then deliver (Bool false) (drop 5 (c :: r)) (containers rd)
      else
        let '(n, r) := span_number (c :: r) in
        match parse_number n with
        | Some n => deliver (Number n) r (containers rd)
        | None => inr Failed
        end
  end.

Fixpoint read (fuel : nat) (rd : Reader) : option Parsed :=
  match fuel with
  | O => None
  | S fuel => match read_step rd with inl rd => read fuel rd | inr p => Some p end
  end.

(** Every round consumes a character; the last one finds none. *)
Definition parse (s : text) : option Parsed := read (S (length s)) (MkReader s []).
End wire.
End Wire.
