(* ===== verification/WirePrint.v ===== *)
(** * Printing wire values

    The reference printers [show] and [show_pretty], recursive on the value, and
    the proofs that the loops of [Wire] with their own stack and their own
    character automaton compute the same text. *)
From S2P Require Import Prelude JsString Wire.
From stdpp Require Import base numbers strings option list sorting.
Open Scope Z_scope.

Module WirePrint.
Import Text JsString Wire.

Section print.
Context `{Numbers, JsonStrings}.
Implicit Types (v w : Value) (o : list (units * Value)).

(** ** Induction on values *)

Lemma value_nested (P : Value -> Prop) :
  P Null -> (forall b, P (Bool b)) -> (forall n, P (Number n)) -> (forall s, P (String_ s)) ->
  (forall l, Forall P l -> P (Array l)) -> (forall o, Forall (fun kv => P kv.2) o -> P (Object o)) -> forall v, P v.
Proof.
  intros Hn Hb Hnum Hs Ha Ho. fix IH 1. intros [|b|n|s|l|o]; [done..| |].
  - apply Ha. induction l as [|v l IHl]; [apply Forall_nil_2|]. apply Forall_cons. split; [apply IH|exact IHl].
  - apply Ho. induction o as [|[k v] o IHo]; [apply Forall_nil_2|]. apply Forall_cons. split; [apply IH|exact IHo].
Qed.

(** A property of every node. *)
Fixpoint every (P : Value -> Prop) (v : Value) : Prop :=
  P v /\ match v with
         | Array l => foldr (fun v acc => every P v /\ acc) True l
         | Object o => foldr (fun kv acc => every P kv.2 /\ acc) True o
         | _ => True
         end.

Lemma every_array P l : every P (Array l) <-> P (Array l) /\ Forall (every P) l.
Proof. cbn [every]. f_equiv. induction l as [|v l IH]; simpl; [by split; intros; [apply Forall_nil_2|]|]. by rewrite Forall_cons, IH. Qed.
Lemma every_object P o : every P (Object o) <-> P (Object o) /\ Forall (fun kv => every P kv.2) o.
Proof. cbn [every]. f_equiv. induction o as [|v l IH]; simpl; [by split; intros; [apply Forall_nil_2|]|]. by rewrite Forall_cons, IH. Qed.
Lemma every_here P v : every P v -> P v.
Proof. destruct v; intros Hv; apply Hv. Qed.

(** What the Rust types give: unique keys and 16-bit units. *)
Definition node_ok (v : Value) : Prop :=
  match v with
  | String_ s => Forall unit_ok s
  | Object o => IndexMap.wf o /\ Forall (Forall unit_ok) (IndexMap.keys o)
  | _ => True
  end.
Definition wf : Value -> Prop := every node_ok.

Definition finite : Value -> Prop := every (fun v => match v with Number n => is_finite n = true | _ => True end).

(** ** Sorted keys *)

Lemma insert_key_perm k l : insert_key k l ≡ₚ k :: l.
Proof. induction l as [|k' l IH]; simpl; [done|]. case_match; [done|]. rewrite IH. by constructor. Qed.
Lemma sort_keys_perm l : sort_keys l ≡ₚ l.
Proof. induction l as [|k l IH]; simpl; [done|]. rewrite insert_key_perm. by rewrite IH. Qed.
Lemma keys_perm o : keys o ≡ₚ IndexMap.keys o.
Proof. apply sort_keys_perm. Qed.

(** ** The reference printer *)

Fixpoint commas (l : list text) : text :=
  match l with
  | [] => []
  | [x] => x
  | x :: r => x ++ 44 :: commas r
  end.

Definition show_values (show : Value -> text) (o : list (units * Value)) : list (units * text) := map (fun kv => (kv.1, show kv.2)) o.

Fixpoint show (v : Value) : text :=
  match v with
  | Null => lit "null"
  | Bool b => lit (if b then "true" else "false")
  | Number n => if is_finite n then format_finite n else lit "null"
  | String_ s => write_json s
  | Array l => 91 :: commas (map show l) ++ [93]
  | Object o =>
      let texts := map (fun kv => (kv.1, show kv.2)) o in
      123 :: commas (map (fun k => write_json k ++ 58 :: default (lit "null") (IndexMap.get k texts)) (sort_keys (map fst o))) ++ [125]
  end.

Lemma get_map {A B} (f : A -> B) k (o : list (units * A)) :
  IndexMap.get k (map (fun kv => (kv.1, f kv.2)) o) = f <$> IndexMap.get k o.
Proof. induction o as [|[k' v] o IH]; simpl; [done|]. case_decide; [done|]. exact IH. Qed.

Lemma show_object o :
  show (Object o) = 123 :: commas (map (fun k => write_json k ++ 58 :: show (index o k)) (keys o)) ++ [125].
Proof.
  cbn [show]. do 2 f_equal. unfold keys, IndexMap.keys. change (o.*1) with (map fst o). f_equal. apply map_ext. intros k.
  do 2 f_equal. rewrite get_map. unfold index. by destruct (IndexMap.get k o).
Qed.

(** ** The stack of [stringify] *)

Definition part_text (p : Part) : text :=
  match p with PValue v => show v | PKey k => write_json k | PText s => s end.
Definition part_cost (p : Part) : nat := match p with PValue v => cost v | _ => 1 end.
Definition stack_text (l : list Part) : text := concat (map part_text l).
Definition stack_cost (l : list Part) : nat := list_sum (map part_cost l).

(** The stack of an array or of an object: items with commas between. *)
Fixpoint between (items : list (list Part)) (stack : list Part) : list Part :=
  match items with
  | [] => stack
  | [x] => x ++ stack
  | x :: r => x ++ PText [44] :: between r stack
  end.

Lemma fold_left_imap {X} (item : X -> list Part) (l : list X) (stack : list Part) :
  fold_left (fun stack '(i, x) => if (0 <? i)%nat then PText [44] :: item x ++ stack else item x ++ stack)
    (reverse (imap pair l)) stack = between (map item l) stack.
Proof.
  unfold reverse. rewrite <- rev_alt, <- fold_left_rev_right, rev_involutive.
  assert (Hoff : forall l n, (0 < n)%nat ->
    foldr (fun '(i, x) stack => if (0 <? i)%nat then PText [44] :: item x ++ stack else item x ++ stack) stack
      (imap (fun i x => (n + i, x)%nat) l) =
    match l with [] => stack | _ => PText [44] :: between (map item l) stack end).
  { induction l0 as [|x l0 IH]; intros n Hn; [done|]. rewrite imap_cons. cbn [foldr]. rewrite (proj2 (Nat.ltb_lt 0 (n + 0))) by lia.
    f_equal. cbn [map between]. specialize (IH (S n) ltac:(lia)). rewrite (imap_ext _ (fun i x => (S n + i, x)%nat)) by (intros; simpl; f_equal; lia).
    rewrite IH. by destruct l0. }
  destruct l as [|x l]; [done|]. rewrite imap_cons. cbn [foldr map between]. cbn [Nat.ltb Nat.leb].
  specialize (Hoff l 1%nat ltac:(lia)). rewrite (imap_ext _ (fun i x => (1 + i, x)%nat)) by done.
  match goal with |- item x ++ ?a = _ => assert (a = match l with [] => stack | _ => PText [44] :: between (map item l) stack end) as -> end.
  { rewrite <- Hoff. apply foldr_ext; [by intros [[|i] y] b|done|done]. }
  by destruct l.
Qed.

Lemma push_array_between l stack : push_array l stack = between (map (fun v => [PValue v]) l) (PText [93] :: stack).
Proof. unfold push_array. rewrite <- (fold_left_imap (fun v => [PValue v])). done. Qed.
Lemma push_object_between o stack :
  push_object o stack = between (map (fun k => [PKey k; PText [58]; PValue (index o k)]) (keys o)) (PText [125] :: stack).
Proof. unfold push_object. rewrite <- (fold_left_imap (fun k => [PKey k; PText [58]; PValue (index o k)])). done. Qed.

Lemma stack_text_app a b : stack_text (a ++ b) = stack_text a ++ stack_text b.
Proof. unfold stack_text. by rewrite map_app, concat_app. Qed.
Lemma stack_cost_app a b : stack_cost (a ++ b) = (stack_cost a + stack_cost b)%nat.
Proof. unfold stack_cost. by rewrite map_app, list_sum_app. Qed.

Lemma between_text items stack : stack_text (between items stack) = commas (map stack_text items) ++ stack_text stack.
Proof.
  induction items as [|x items IH]; [done|]. cbn [between map]. destruct items as [|y items].
  - apply stack_text_app.
  - rewrite stack_text_app. change (PText [44] :: ?r) with ([PText [44]] ++ r). rewrite stack_text_app, IH.
    change (commas (stack_text x :: map stack_text (y :: items))) with (stack_text x ++ 44 :: commas (map stack_text (y :: items))).
    by rewrite <- app_assoc.
Qed.

Lemma between_cost items stack :
  (stack_cost (between items stack) <= list_sum (map (fun x => S (stack_cost x)) items) + stack_cost stack)%nat.
Proof.
  induction items as [|x items IH]; [done|]. cbn [between map list_sum foldr]. destruct items as [|y items].
  - rewrite stack_cost_app. simpl. lia.
  - rewrite stack_cost_app. change (PText [44] :: ?r) with ([PText [44]] ++ r). rewrite stack_cost_app.
    change (stack_cost [PText [44]]) with 1%nat. unfold list_sum in *. cbn [map foldr] in *. lia.
Qed.

(** *** Objects have every value under its key *)

Lemma index_cons k v o k' : k <> k' -> index ((k, v) :: o) k' = index o k'.
Proof. intros Hne. unfold index. cbn [IndexMap.get]. by rewrite decide_False by congruence. Qed.

Lemma index_values {A} (f : Value -> A) o : IndexMap.wf o -> map (fun k => f (index o k)) (IndexMap.keys o) = map (fun kv => f kv.2) o.
Proof.
  unfold IndexMap.wf. change (IndexMap.keys o) with (map fst o). induction o as [|[k v] o IH]; [done|]. cbn [map fst].
  intros [Hk Hn]%NoDup_cons. f_equal.
  - unfold index. cbn [IndexMap.get]. by rewrite decide_True.
  - cbn [snd]. rewrite <- IH by done. apply map_ext_in. intros k' Hin%list_elem_of_In. rewrite index_cons; [done|]. congruence.
Qed.

Lemma index_in o k : k ∈ IndexMap.keys o -> exists v, IndexMap.get k o = Some v /\ index o k = v /\ (k, v) ∈ o.
Proof.
  intros Hk. destruct (IndexMap.get k o) as [v|] eqn:E; [|by apply IndexMap.get_None in E].
  exists v. unfold index. rewrite E. split_and!; [done..|]. by apply IndexMap.get_In.
Qed.

Definition part_wf (p : Part) : Prop := match p with PValue v => wf v | _ => True end.

Lemma between_wf items stack : Forall (Forall part_wf) items -> Forall part_wf stack -> Forall part_wf (between items stack).
Proof.
  intros Hi Hs. induction items as [|x items IH]; [done|]. apply Forall_cons in Hi as [Hx Hi]. cbn [between].
  destruct items as [|y items]; [by apply Forall_app|]. apply Forall_app. split; [done|]. apply Forall_cons. split; [done|]. by apply IH.
Qed.

Lemma push_array_ok l stack : wf (Array l) -> Forall part_wf stack ->
  Forall part_wf (push_array l stack) /\ stack_text (push_array l stack) = commas (map show l) ++ 93 :: stack_text stack /\
  (S (stack_cost (push_array l stack)) <= cost (Array l) + stack_cost stack)%nat.
Proof.
  intros [_ Hl]%every_array Hs. rewrite push_array_between. split_and!.
  - apply between_wf; [|by apply Forall_cons]. apply Forall_fmap. eapply Forall_impl; [exact Hl|]. intros v Hv. by apply Forall_singleton.
  - rewrite between_text, map_map. f_equal. f_equal. apply map_ext. intros v. apply app_nil_r.
  - pose proof (between_cost (map (fun v => [PValue v]) l) (PText [93] :: stack)) as Hc. rewrite map_map in Hc.
    change (stack_cost (PText [93] :: stack)) with (S (stack_cost stack)) in Hc. cbn [cost].
    rewrite (map_ext _ (fun v => S (cost v))) in Hc by (intros v; unfold stack_cost; simpl; lia). lia.
Qed.

Lemma push_object_ok o stack : wf (Object o) -> Forall part_wf stack ->
  Forall part_wf (push_object o stack) /\
  stack_text (push_object o stack) = commas (map (fun k => write_json k ++ 58 :: show (index o k)) (keys o)) ++ 125 :: stack_text stack /\
  (S (stack_cost (push_object o stack)) <= cost (Object o) + stack_cost stack)%nat.
Proof.
  intros [[Hwf _] Ho]%every_object Hs. rewrite push_object_between. split_and!.
  - apply between_wf; [|by apply Forall_cons]. apply Forall_fmap, Forall_forall. intros k Hk. rewrite keys_perm in Hk.
    destruct (index_in o k Hk) as (v & _ & E & Hin). rewrite Forall_forall in Ho. specialize (Ho _ Hin).
    apply Forall_cons. split; [done|]. apply Forall_cons. split; [done|]. apply Forall_singleton. by rewrite E.
  - rewrite between_text, map_map. f_equal. f_equal. apply map_ext. intros k. unfold stack_text. simpl. by rewrite app_nil_r.
  - pose proof (between_cost (map (fun k => [PKey k; PText [58]; PValue (index o k)]) (keys o)) (PText [125] :: stack)) as Hc. rewrite map_map in Hc.
    change (stack_cost (PText [125] :: stack)) with (S (stack_cost stack)) in Hc. cbn [cost].
    rewrite (map_ext _ (fun k => 3 + cost (index o k))%nat) in Hc by (intros v; unfold stack_cost; simpl; lia).
    assert (E : list_sum (map (fun k => 3 + cost (index o k))%nat (keys o)) = list_sum (map (fun kv => 3 + cost kv.2)%nat o)).
    { rewrite <- (index_values (fun v => 3 + cost v)%nat) by done. apply Permutation_list_sum, Permutation_map, keys_perm. }
    rewrite E in Hc. lia.
Qed.

Lemma write_parts_text fuel : forall stack out, Forall part_wf stack -> (stack_cost stack <= fuel)%nat ->
  write_parts fuel stack out = Some (out ++ stack_text stack).
Proof.
  assert (Hpos : forall p, (1 <= part_cost p)%nat) by (intros [[]| |]; simpl; lia).
  induction fuel as [|fuel IH]; intros stack out Hs Hc.
  { destruct stack as [|p stack]; [by rewrite app_nil_r|]. unfold stack_cost in Hc. simpl in Hc. pose proof (Hpos p). lia. }
  destruct stack as [|p stack]; [by rewrite app_nil_r|]. apply Forall_cons in Hs as [Hp Hs].
  assert (Hflat : forall s, part_text p = s -> write_part p stack = (s, stack) ->
    (let '(s, stack) := write_part p stack in write_parts fuel stack (out ++ s)) = Some (out ++ stack_text (p :: stack))).
  { intros s E ->. unfold stack_cost in Hc. simpl in Hc. pose proof (Hpos p). rewrite IH by (done || (unfold stack_cost; lia)).
    unfold stack_text. simpl. by rewrite E, <- app_assoc. }
  cbn [write_parts]. destruct p as [v|k|s]; [|by eapply Hflat..].
  change (stack_cost (PValue v :: stack)) with (cost v + stack_cost stack)%nat in Hc.
  destruct v as [|b|n|s|l|o]; try (by eapply Hflat); cbn [write_part].
  - destruct (push_array_ok l stack Hp Hs) as (H1 & H2 & H3). rewrite IH by (done || lia). rewrite H2.
    unfold stack_text. cbn [map concat part_text show]. rewrite <- !app_assoc. cbn [app]. by rewrite <- app_assoc.
  - destruct (push_object_ok o stack Hp Hs) as (H1 & H2 & H3). rewrite IH by (done || lia). rewrite H2.
    unfold stack_text. cbn [map concat part_text]. rewrite show_object, <- !app_assoc. cbn [app]. by rewrite <- app_assoc.
Qed.

Lemma stringify_show v : wf v -> stringify v = show v.
Proof.
  intros Hv. unfold stringify. rewrite write_parts_text; [|by apply Forall_singleton|].
  - unfold stack_text. simpl. by rewrite app_nil_r.
  - unfold stack_cost. simpl. lia.
Qed.

(** [stringify], which keeps its own stack so that deep values cannot
    overflow the call stack, writes exactly the recursive JSON text: containers
    with commas between their members, keys in ECMAScript order, strings
    escaped, numbers that are not finite as null; its loop always ends. *)
Theorem stringify_is_show v : wf v ->
  write_parts (cost v) [PValue v] [] = Some (show v) /\ stringify v = show v.
Proof.
  intros Hv. split; [|by apply stringify_show]. rewrite write_parts_text; [|by apply Forall_singleton|].
  - unfold stack_text. simpl. by rewrite app_nil_r.
  - unfold stack_cost. simpl. lia.
Qed.

(** ** Quoted strings *)

(** The inside of a quoted string: a backslash takes the next character with it. *)
Inductive body : text -> Prop :=
| body_nil : body []
| body_plain c s : c <> 34 -> c <> 92 -> body s -> body (c :: s)
| body_escape e s : body s -> body (92 :: e :: s).

Lemma hex_plain n s : 0 <= n < 16 -> body s -> body (hex_digit n :: s).
Proof. intros Hn Hs. unfold hex_digit. destruct (n <? 10) eqn:E; reflect_bools; apply body_plain; (done || lia). Qed.

Lemma escape_unit_body u s : body s -> body (escape_unit u ++ s).
Proof. intros Hs. apply body_escape. unfold hex4. repeat (apply hex_plain; [apply Z.mod_pos_bound; lia|]). done. Qed.

Lemma write_units_body n : forall s, (length s <= n)%nat -> body (write_units s).
Proof.
  induction n as [|n IH]; intros s Hn; (destruct s as [|u r]; [constructor|]); [simpl in Hn; lia|]. cbn [length] in Hn.
  cbn [write_units]. assert (Hr : body (write_units r)) by (apply IH; lia).
  destruct (short_escape u) as [e|] eqn:Es; [by apply body_escape|].
  destruct ((0 <=? u) && (u <=? 31)); [by apply escape_unit_body|]. destruct (surrogate u) eqn:Esu.
  - destruct r as [|l r]; [rewrite <- (app_nil_r (escape_unit u)); by apply escape_unit_body, body_nil|].
    destruct (high u && low l) eqn:Ep; [|by apply escape_unit_body].
    apply andb_true_iff in Ep as [Hh Hl]. destruct (push_pair u l Hh Hl) as [_ ?]. cbn [length] in Hn. apply body_plain; [lia|lia|]. apply IH. lia.
  - apply body_plain; [by intros ->|by intros ->|done].
Qed.

(** ** The automaton of [stringify_pretty] *)

Lemma layout_body s : body s -> forall depth prev rest,
  layout (s ++ 34 :: rest) true false depth prev = s ++ 34 :: layout rest false false depth 34.
Proof.
  induction 1 as [|c s H1 H2 Hs IH|e s Hs IH]; intros depth prev rest; [done| |].
  - cbn [app layout]. rewrite (proj2 (Z.eqb_neq c 92)), (proj2 (Z.eqb_neq c 34)) by done. by rewrite IH.
  - cbn [app layout]. cbn [Z.eqb Pos.eqb]. by rewrite IH.
Qed.

Definition plain_char (c : Z) : bool := negb ((c =? 34) || opening c || closing c || (c =? 44) || (c =? 58)).

(** [t], read at this depth outside a string, comes out as [u]. *)
Definition prints (depth : nat) (t u : text) : Prop :=
  t <> [] /\ closing (hd 0 t) = false /\
  exists p, opening p = false /\ forall prev rest, layout (t ++ rest) false false depth prev = u ++ layout rest false false depth p.

Lemma prints_plain depth t : t <> [] -> Forall (fun c => plain_char c = true) t -> prints depth t t.
Proof.
  intros Hne Ht. assert (Hstep : forall c r prev, plain_char c = true -> layout (c :: r) false false depth prev = c :: layout r false false depth c).
  { intros c r prev Hc. unfold plain_char in Hc. apply negb_true_iff in Hc. rewrite !orb_false_iff in Hc. destruct Hc as ((((E1 & E2) & E3) & E4) & E5).
    cbn [layout]. by rewrite E1, E2, E3, E4, E5. }
  assert (Hp : forall c, plain_char c = true -> opening c = false /\ closing c = false).
  { intros c Hc. unfold plain_char in Hc. apply negb_true_iff in Hc. rewrite !orb_false_iff in Hc. tauto. }
  split; [done|]. destruct t as [|c t]; [done|]. apply Forall_cons in Ht as [Hc Ht]. split; [apply Hp, Hc|].
  clear Hne. revert c Hc. induction t as [|d t IH]; intros c Hc.
  - exists c. split; [apply Hp, Hc|]. intros prev rest. by apply Hstep.
  - apply Forall_cons in Ht as [Hd Ht]. destruct (IH Ht d Hd) as (p & Hop & Hl). exists p. split; [done|]. intros prev rest.
    change ((c :: d :: t) ++ rest) with (c :: (d :: t) ++ rest). rewrite Hstep by done. by rewrite Hl.
Qed.

Lemma layout_string s depth prev rest :
  layout (write_json s ++ rest) false false depth prev = write_json s ++ layout rest false false depth 34.
Proof.
  unfold write_json. cbn [app layout]. cbn [Z.eqb Pos.eqb]. rewrite <- app_assoc. cbn [app].
  rewrite layout_body by (by eapply write_units_body). by rewrite <- app_assoc.
Qed.

Lemma prints_string depth s : prints depth (write_json s) (write_json s).
Proof. split; [done|]. split; [done|]. exists 34. split; [done|]. intros. apply layout_string. Qed.

Lemma prints_entry depth k t u : prints depth t u -> prints depth (write_json k ++ 58 :: t) (write_json k ++ [58; 32] ++ u).
Proof.
  intros (Hne & Hc & p & Hp & Hl). split; [done|]. split; [done|]. exists p. split; [done|]. intros prev rest.
  rewrite <- !app_assoc, layout_string. f_equal. cbn [app layout]. change (58 =? 34) with false. change (opening 58) with false.
  change (closing 58) with false. cbn [Z.eqb Pos.eqb app]. by rewrite Hl.
Qed.

(** *** Containers *)

Fixpoint lines (depth : nat) (items : list text) : text :=
  match items with
  | [] => []
  | [x] => x
  | x :: r => x ++ 44 :: new_line depth ++ lines depth r
  end.
Definition block (o c : Z) (depth : nat) (items : list text) : text :=
  match items with
  | [] => [o; c]
  | _ => o :: new_line (S depth) ++ lines (S depth) items ++ new_line depth ++ [c]
  end.

Lemma commas_prints depth ts us : Forall2 (prints depth) ts us -> ts <> [] -> prints depth (commas ts) (lines depth us).
Proof.
  induction 1 as [|t u ts us Ht Hts IH]; [done|]. intros _. destruct Hts as [|t' u' ts us Ht' Hts]; [done|].
  destruct (IH ltac:(done)) as (_ & _ & p & Hp & Hl). destruct Ht as (Hne & Hc & q & Hq & Hl1).
  assert (Hhd : hd 0 (commas (t :: t' :: ts)) = hd 0 t) by (by destruct t).
  split; [by destruct t|]. split; [by rewrite Hhd|]. exists p. split; [done|]. intros prev rest.
  change (commas (t :: t' :: ts)) with (t ++ 44 :: commas (t' :: ts)). change (lines depth (u :: u' :: us)) with (u ++ 44 :: new_line depth ++ lines depth (u' :: us)).
  rewrite <- !app_assoc, Hl1. f_equal. cbn [app layout]. change (44 =? 34) with false. change (opening 44) with false. change (closing 44) with false.
  cbn [Z.eqb Pos.eqb]. rewrite Hl, <- app_assoc. done.
Qed.

Lemma block_prints (o c : Z) depth ts us : (o = 91 /\ c = 93) \/ (o = 123 /\ c = 125) ->
  Forall2 (prints (S depth)) ts us -> prints depth (o :: commas ts ++ [c]) (block o c depth us).
Proof.
  intros Hoc Hts. assert (Ho : (o =? 34) = false /\ opening o = true /\ closing o = false) by (by destruct Hoc as [[-> _] | [-> _]]).
  assert (Hc : (c =? 34) = false /\ opening c = false /\ closing c = true) by (by destruct Hoc as [[_ ->] | [_ ->]]).
  destruct Ho as (O1 & O2 & O3), Hc as (C1 & C2 & C3).
  split; [done|]. split; [done|]. exists c. split; [done|]. intros prev rest. destruct ts as [|t ts].
  - inversion Hts; subst. cbn [commas app layout block]. rewrite O1, O2, C3. cbn [negb app layout]. by rewrite C1, C2.
  - destruct (commas_prints (S depth) (t :: ts) us Hts ltac:(done)) as (Hne & Hhd & p & Hp & Hl).
    set (ct := commas (t :: ts)) in *. destruct us as [|u us]; [by inversion Hts|].
    cbn [app layout]. rewrite O1, O2. rewrite <- app_assoc. unfold block.
    assert (Hpeek : (match ct ++ [c] ++ rest with next :: _ => if negb (closing next) then new_line (S depth) else [] | [] => [] end) = new_line (S depth)).
    { destruct ct as [|x ct]; [done|]. cbn [hd] in Hhd. cbn [app]. by rewrite Hhd. }
    rewrite Hpeek, Hl. cbn [app layout]. rewrite C1, C2, C3, Hp. cbn [negb pred]. rewrite <- !app_assoc. done.
Qed.

(** The reference: containers indented by their depth, empty ones on one line. *)
Fixpoint show_pretty (depth : nat) (v : Value) : text :=
  match v with
  | Array l => block 91 93 depth (map (show_pretty (S depth)) l)
  | Object o =>
      let texts := map (fun kv => (kv.1, show_pretty (S depth) kv.2)) o in
      block 123 125 depth
        (map (fun k => write_json k ++ [58; 32] ++ default (lit "null") (IndexMap.get k texts)) (sort_keys (map fst o)))
  | v => show v
  end.

Context `{!NumberLaws}.

Lemma plain_number c : number_char c = true -> plain_char c = true.
Proof.
  unfold number_char, plain_char, is_digit, opening, closing. intros Hc. apply negb_true_iff.
  destruct (c =? 34) eqn:E1, (c =? 123) eqn:E2, (c =? 91) eqn:E3, (c =? 125) eqn:E4, (c =? 93) eqn:E5, (c =? 44) eqn:E6, (c =? 58) eqn:E7;
    try done; reflect_bools; subst; done.
Qed.

Lemma show_prints v : forall depth, wf v -> prints depth (show v) (show_pretty depth v).
Proof.
  assert (Hplain : forall depth (s : string), s <> ""%string -> forallb plain_char (lit s) = true -> prints depth (lit s) (lit s)).
  { intros depth s Hs Hf. apply prints_plain; [by destruct s|]. apply Forall_forall. intros c Hc.
    rewrite forallb_forall in Hf. by apply Hf, list_elem_of_In. }
  induction v as [|b|n|s|l IH|o IH] using value_nested; intros depth Hv.
  - by apply Hplain.
  - destruct b; by apply Hplain.
  - cbn [show show_pretty]. destruct (is_finite n) eqn:E; [|by apply Hplain]. destruct (format_chars n E) as [Hne Hch].
    apply prints_plain; [done|]. eapply Forall_impl; [exact Hch|]. apply plain_number.
  - apply prints_string.
  - apply every_array in Hv as [_ Hv]. cbn [show show_pretty]. apply block_prints; [by left|]. apply Forall2_fmap_2.
    induction l as [|v l IHl]; [constructor|]. apply Forall_cons in IH as [Iv IH]. apply Forall_cons in Hv as [Wv Hv].
    constructor; [by apply Iv|by apply IHl].
  - rewrite show_object. apply every_object in Hv as [[Hwf _] Hv].
    assert (E : show_pretty depth (Object o) =
      block 123 125 depth (map (fun k => write_json k ++ [58; 32] ++ show_pretty (S depth) (index o k)) (keys o))).
    { cbn [show_pretty]. f_equal. unfold keys, IndexMap.keys. change (o.*1) with (map fst o). apply map_ext. intros k.
      do 3 f_equal. rewrite get_map. unfold index. by destruct (IndexMap.get k o). }
    rewrite E. apply block_prints; [by right|]. apply Forall2_fmap_2. 
    assert (Hk : Forall (fun k => prints (S depth) (show (index o k)) (show_pretty (S depth) (index o k))) (keys o)).
    { apply Forall_forall. intros k Hk. rewrite keys_perm in Hk. destruct (index_in o k Hk) as (v & _ & -> & Hin).
      rewrite Forall_forall in IH, Hv. apply (IH _ Hin), (Hv _ Hin). }
    clear E. induction (keys o) as [|k ks IHk]; [constructor|]. apply Forall_cons in Hk as [Hk Hks]. constructor; [by apply prints_entry|by apply IHk].
Qed.

(** [stringify_pretty], which re-lays the compact text with a character
    automaton, gives exactly the recursive two-space indented form: the text
    inside strings is never touched, and brackets, commas and colons outside
    them are the only places where white space is added. *)
Theorem pretty_is_show_pretty v : wf v -> stringify_pretty v = show_pretty 0 v.
Proof.
  intros Hv. unfold stringify_pretty. rewrite stringify_show by done. destruct (show_prints v 0 Hv) as (_ & _ & p & _ & Hl).
  specialize (Hl 32 []). rewrite !app_nil_r in Hl. exact Hl.
Qed.

(** ** Cloning *)

Lemma clone_flat v fuel pending values : (match v with Array _ | Object _ => False | _ => True end) ->
  clone_loop (S fuel) (Visit v :: pending) values = clone_loop fuel pending (values ++ [v]).
Proof. by destruct v. Qed.

Lemma split_off_app values children : split_off (length children) (values ++ children) = (values, children).
Proof.
  unfold split_off. rewrite length_app. replace (length values + length children - length children)%nat with (length values) by lia.
  by rewrite take_app_length, drop_app_length.
Qed.

Lemma collect_wf o : IndexMap.wf o -> fold_left (fun o kv => IndexMap.insert kv.1 kv.2 o) (zip (IndexMap.keys o) (IndexMap.values o)) [] = o.
Proof.
  intros Hw. assert (Ez : zip (IndexMap.keys o) (IndexMap.values o) = o).
  { unfold IndexMap.keys, IndexMap.values. clear. induction o as [|[k v] o IH]; [done|]. cbn. by rewrite IH. }
  rewrite Ez. assert (G : forall done_ o, IndexMap.wf (done_ ++ o) -> fold_left (fun o kv => IndexMap.insert kv.1 kv.2 o) o done_ = done_ ++ o).
  { clear. intros done_ o. revert done_. induction o as [|[k v] o IH]; intros done_ Hw; [by rewrite app_nil_r|]. cbn [fold_left fst snd].
    rewrite IndexMap.insert_absent.
    - rewrite IH by (by rewrite <- app_assoc). by rewrite <- app_assoc.
    - unfold IndexMap.wf, IndexMap.keys in Hw. rewrite fmap_app in Hw. apply NoDup_app in Hw as (_ & Hd & _).
      apply IndexMap.get_None. intros Hin. apply (Hd k Hin). by left. }
  by rewrite G.
Qed.

Lemma clone_loop_S fuel step pending values :
  clone_loop (S fuel) (step :: pending) values = let '(p, v) := clone_step step pending values in clone_loop fuel p v.
Proof. done. Qed.

(** Running one item of a stack, in at most [bound] rounds. *)
Definition clones (bound : nat) (items : list Step) (vs : list Value) : Prop :=
  exists k, (k <= bound)%nat /\ forall n pending values,
    clone_loop (k + n) (items ++ pending) values = clone_loop n pending (values ++ vs).

Lemma clones_list l : Forall (fun v => clones (cost v) [Visit v] [v]) l -> clones (list_sum (map (fun v => S (cost v)) l)) (map Visit l) l.
Proof.
  induction 1 as [|v l (k & Hk & Hv) Hl (k' & Hk' & IH)].
  - exists 0%nat. split; [done|]. intros. by rewrite app_nil_r.
  - exists (k + k')%nat. split; [unfold list_sum in *; cbn [map foldr]; lia|]. intros n pending values.
    cbn [map app]. rewrite <- Nat.add_assoc. cbn [app] in Hv. rewrite Hv, IH. by rewrite <- app_assoc.
Qed.

Lemma clones_value v : wf v -> clones (cost v) [Visit v] [v].
Proof.
  induction v as [|b|n|s|l IH|o IH] using value_nested; intros Hv; try (by exists 1%nat).
  - apply every_array in Hv as [_ Hv]. destruct (clones_list l) as (k & Hk & Hl).
    { apply Forall_forall. intros v Hin. rewrite Forall_forall in IH, Hv. by apply IH, Hv. }
    exists (2 + k)%nat. split; [cbn [cost]; lia|]. intros n pending values. replace (2 + k + n)%nat with (S (k + S n)) by lia.
    cbn [app]. rewrite clone_loop_S. cbn [clone_step]. rewrite Hl, clone_loop_S. cbn [clone_step]. by rewrite split_off_app.
  - apply every_object in Hv as [[Hwf _] Hv]. destruct (clones_list (IndexMap.values o)) as (k & Hk & Hl).
    { unfold IndexMap.values. apply Forall_fmap, Forall_forall. intros kv Hin. rewrite Forall_forall in IH, Hv. by apply IH, Hv. }
    exists (2 + k)%nat. split.
    + cbn [cost]. assert (E : forall o, (list_sum (map (fun v => S (cost v)) (IndexMap.values o)) <= list_sum (map (fun kv => 3 + cost kv.2)%nat o))%nat).
      { clear. induction o as [|[k v] o IH]; [done|]. unfold list_sum, IndexMap.values in *. cbn in *. lia. }
      specialize (E o). lia.
    + intros n pending values. replace (2 + k + n)%nat with (S (k + S n)) by lia.
      cbn [app]. rewrite clone_loop_S. cbn [clone_step]. rewrite Hl, clone_loop_S. cbn [clone_step].
      assert (El : length (IndexMap.keys o) = length (IndexMap.values o)) by (unfold IndexMap.keys, IndexMap.values; by rewrite !length_fmap).
      rewrite El, split_off_app, collect_wf by done. done.
Qed.

(** [Clone], which keeps its own stacks of pending steps and finished
    values, always ends without a panic and gives back the value itself, keys
    in the same order. *)
Theorem clone_is_identity v : wf v -> clone v = Some v.
Proof.
  intros Hv. unfold clone. destruct (clones_value v Hv) as (k & Hk & Hc). specialize (Hc (cost v - k)%nat [] []).
  replace (k + (cost v - k))%nat with (cost v) in Hc by lia. cbn [app] in Hc. rewrite Hc. by destruct (cost v - k)%nat.
Qed.

(** ** Equality *)

(** The recursive equality: objects are compared by key. *)
Fixpoint equal (v w : Value) : bool :=
  match v, w with
  | Null, Null => true
  | Bool a, Bool b => Bool.eqb a b
  | Number a, Number b => num_eq a b
  | String_ a, String_ b => bool_decide (a = b)
  | Array a, Array b =>
      (fix go a b := match a, b with [], [] => true | x :: a, y :: b => equal x y && go a b | _, _ => false end) a b
  | Object a, Object b =>
      (length a =? length b)%nat &&
      forallb (fun kv => match IndexMap.get kv.1 b with Some w => equal kv.2 w | None => false end) a
  | _, _ => false
  end.

Lemma equal_array a b : equal (Array a) (Array b) = (length a =? length b)%nat && forallb (fun p => equal p.1 p.2) (zip a b).
Proof.
  cbn [equal]. revert b. induction a as [|x a IH]; intros [|y b]; try done. cbn [length zip zip_with forallb fst snd].
  rewrite IH. change (S (length a) =? S (length b))%nat with (length a =? length b)%nat. by destruct (equal x y), (length a =? length b)%nat.
Qed.

Definition pairs_cost (l : list (Value * Value)) : nat := list_sum (map (fun p => cost p.1) l).
Definition all_equal (l : list (Value * Value)) : bool := forallb (fun p => equal p.1 p.2) l.

Lemma match_entries_spec a b : forall pending,
  match match_entries a b pending with
  | Some pending' =>
      all_equal pending' = forallb (fun kv => match IndexMap.get kv.1 b with Some w => equal kv.2 w | None => false end) a && all_equal pending /\
      (pairs_cost pending' <= list_sum (map (fun kv => cost kv.2) a) + pairs_cost pending)%nat
  | None => forallb (fun kv => match IndexMap.get kv.1 b with Some w => equal kv.2 w | None => false end) a = false
  end.
Proof.
  induction a as [|[k v] a IH]; intros pending; cbn [match_entries]; [done|]. cbn [forallb fst snd].
  destruct (IndexMap.get k b) as [w|]; [|done]. rewrite bind_value. specialize (IH ((v, w) :: pending)).
  destruct (match_entries a b ((v, w) :: pending)) as [p|].
  - destruct IH as [E Hc]. split.
    + rewrite E. unfold all_equal. cbn [forallb fst snd]. by destruct (equal v w), (forallb _ a).
    + unfold pairs_cost, list_sum in *. cbn in *. lia.
  - rewrite IH. apply andb_false_r.
Qed.

Lemma list_sum_perm l k : l ≡ₚ k -> list_sum l = list_sum k.
Proof. apply Permutation_list_sum. Qed.

Lemma eq_step_spec l r pending :
  match eq_step l r pending with
  | Some pending' => all_equal pending' = equal l r && all_equal pending /\ (S (pairs_cost pending') <= cost l + pairs_cost pending)%nat
  | None => equal l r = false
  end.
Proof.
  destruct l as [|a|a|a|a|a], r as [|b|b|b|b|b]; try done; cbn [eq_step].
  - cbn [equal]. by destruct (Bool.eqb a b).
  - cbn [equal]. by destruct (num_eq a b).
  - cbn [equal]. by destruct (bool_decide (a = b)).
  - rewrite equal_array. destruct (length a =? length b)%nat; [|done]. cbn [andb]. split.
    + unfold all_equal. rewrite forallb_app. f_equal. generalize (zip a b). intros z. induction z as [|p z IH]; [done|].
      rewrite reverse_cons, forallb_app, IH. cbn. rewrite andb_true_r. apply andb_comm.
    + unfold pairs_cost. rewrite map_app, list_sum_app. rewrite (list_sum_perm (map _ (reverse (zip a b))) (map (fun p => cost p.1) (zip a b)))
        by (apply Permutation_map, reverse_Permutation).
      cbn [cost]. assert (Hz : forall a b : list Value, (list_sum (map (fun p => cost p.1) (zip a b)) <= list_sum (map (fun v => S (cost v)) a))%nat).
      { clear. induction a as [|x a IH]; intros [|y b]; unfold list_sum in *; cbn in *; [lia..|]. specialize (IH b). lia. }
      specialize (Hz a b). lia.
  - cbn [equal]. destruct (length a =? length b)%nat; [|done]. cbn [andb]. pose proof (match_entries_spec a b pending) as Hm.
    destruct (match_entries a b pending) as [p|]; [|done]. destruct Hm as [E Hc]. split; [done|]. cbn [cost].
    assert (Hz : forall a : list (units * Value), (list_sum (map (fun kv => cost kv.2) a) <= list_sum (map (fun kv => 3 + cost kv.2) a))%nat).
    { clear. induction a as [|x a IH]; unfold list_sum in *; cbn in *; lia. }
    specialize (Hz a). lia.
Qed.

Lemma eq_loop_equal v w : eq_loop (cost v) [(v, w)] = Some (equal v w) /\ eq v w = equal v w.
Proof.
  assert (G : forall fuel pending, (pairs_cost pending <= fuel)%nat -> eq_loop fuel pending = Some (all_equal pending)).
  { assert (Hpos : forall v, (1 <= cost v)%nat) by (intros []; simpl; lia).
    induction fuel as [|fuel IH]; intros [|[l r] pending] Hc; try done.
    - unfold pairs_cost, list_sum in Hc. cbn in Hc. specialize (Hpos l). lia.
    - cbn [eq_loop]. pose proof (eq_step_spec l r pending) as Hs. change (pairs_cost ((l, r) :: pending)) with (cost l + pairs_cost pending)%nat in Hc.
      destruct (eq_step l r pending) as [p|].
      + destruct Hs as [E Hle]. rewrite IH by lia. by rewrite E.
      + unfold all_equal. cbn [forallb fst snd]. by rewrite Hs. }
  assert (E : eq_loop (cost v) [(v, w)] = Some (equal v w)).
  { rewrite G; [|unfold pairs_cost, list_sum; cbn; lia]. unfold all_equal. cbn. by rewrite andb_true_r. }
  split; [done|]. unfold eq. by rewrite E.
Qed.

Lemma eq_equal v w : eq v w = equal v w.
Proof. apply eq_loop_equal. Qed.

(** [PartialEq], which keeps its own stack, always ends and answers the
    recursive equality: same shape, strings unit by unit, numbers by IEEE
    equality, objects by key whatever their order. *)
Theorem eq_is_equal v w : eq_loop (cost v) [(v, w)] = Some (equal v w) /\ eq v w = equal v w.
Proof. apply eq_loop_equal. Qed.
End print.
End WirePrint.
