(* ===== verification/WireRead.v ===== *)
(** * Reading wire values

    The reader of [Wire] against the printer: reading back what [stringify]
    wrote gives the value with its keys in ECMAScript order and its numbers
    reread ([canon]), which is equal to the value as the code compares. *)
From S2P Require Import Prelude JsString Wire WirePrint.
From stdpp Require Import base numbers strings option list sorting.
Open Scope Z_scope.

Module WireRead.
Import Text JsString Wire WirePrint.

Section read.
Context `{NumberLaws, JsonStringLaws}.
Implicit Types (v w : Value) (o : list (units * Value)).

(** What reading the text of a value gives. *)
Fixpoint canon (v : Value) : Value :=
  match v with
  | Number n => if is_finite n then Number (default n (parse_number (format_finite n))) else Null
  | Array l => Array (map canon l)
  | Object o =>
      let vs := map (fun kv => (kv.1, canon kv.2)) o in
      Object (map (fun k => (k, default Null (IndexMap.get k vs))) (sort_keys (map fst o)))
  | v => v
  end.

Lemma canon_object o : canon (Object o) = Object (map (fun k => (k, canon (index o k))) (keys o)).
Proof.
  cbn [canon]. f_equal. unfold keys, IndexMap.keys. change (o.*1) with (map fst o). apply map_ext. intros k. f_equal.
  rewrite get_map. unfold index. by destruct (IndexMap.get k o).
Qed.

(** ** One value *)

Definition settle (n : nat) (x : Reader + Parsed) : option Parsed :=
  match x with inl rd => read n rd | inr p => Some p end.

Lemma read_S n rd : read (S n) rd = settle n (read_step rd).
Proof. done. Qed.

Definition wants_key (stack : list Container) : bool := match stack with CObject _ None :: _ => true | _ => false end.

(** [t] is read as [v] in at most as many rounds as it has characters. *)
Definition reads (t : text) (v : Value) : Prop :=
  exists k, (k <= length t)%nat /\ forall n rest stack, wants_key stack = false -> number_char (hd 0 rest) = false ->
    read (k + n) (MkReader (t ++ rest) stack) = settle n (deliver v rest stack).

Lemma string_body_body s : body s -> forall rest, string_body (s ++ 34 :: rest) = Some (s ++ [34], rest).
Proof.
  induction 1 as [|c s H1' H2' Hs IH|e s Hs IH]; intros rest; [done| |].
  - cbn [app string_body]. rewrite (proj2 (Z.eqb_neq c 92)), (proj2 (Z.eqb_neq c 34)) by done. by rewrite IH.
  - cbn [app string_body]. cbn [Z.eqb Pos.eqb]. by rewrite IH.
Qed.

Lemma read_string s rest stack n : Forall unit_ok s ->
  read (S n) (MkReader (write_json s ++ rest) stack) =
  match stack with
  | CObject o None :: stack => read n (MkReader rest (CObject o (Some s) :: stack))
  | stack => settle n (deliver (String_ s) rest stack)
  end.
Proof.
  intros Hs. rewrite read_S. unfold read_step. cbn [raw containers write_json app]. change (blank 34) with false. change (closing 34) with false.
  cbn [Z.eqb Pos.eqb]. rewrite <- app_assoc. cbn [app]. rewrite string_body_body by (by eapply write_units_body).
  change (34 :: write_units s ++ [34]) with (write_json s). rewrite json_string by done. by destruct stack as [|[|? []] ?].
Qed.

Lemma reads_string s : Forall unit_ok s -> reads (write_json s) (String_ s).
Proof.
  intros Hs. exists 1%nat. split; [simpl; lia|]. intros n rest stack Hk _. cbn [Nat.add]. rewrite read_string by done.
  by destruct stack as [|[|? []] ?].
Qed.

Lemma span_number_spec t rest : Forall (fun c => number_char c = true) t -> number_char (hd 0 rest) = false ->
  span_number (t ++ rest) = (t, rest).
Proof.
  intros Ht Hr. induction Ht as [|c t Hc Ht IH]; cbn [app].
  - destruct rest as [|c rest]; [done|]. cbn in Hr |- *. by rewrite Hr.
  - cbn [span_number]. by rewrite Hc, IH.
Qed.

Lemma number_char_cases c : number_char c = true ->
  blank c = false /\ (c =? 91) = false /\ (c =? 123) = false /\ closing c = false /\ (c =? 34) = false /\ (c =? 110) = false /\
  (c =? 116) = false /\ (c =? 102) = false.
Proof.
  intros Hc. assert (Hr : 48 <= c <= 57 \/ c = 45 \/ c = 43 \/ c = 46 \/ c = 101 \/ c = 69).
  { unfold number_char, is_digit in Hc. rewrite !orb_true_iff, andb_true_iff, !Z.leb_le, !Z.eqb_eq in Hc. lia. }
  unfold blank, closing. rewrite !orb_false_iff, !Z.eqb_neq. lia.
Qed.

Lemma reads_number n m : is_finite n = true -> parse_number (format_finite n) = Some m -> reads (format_finite n) (Number m).
Proof.
  intros Hf Hm. destruct (format_chars n Hf) as [Hne Hch]. exists 1%nat. split; [destruct (format_finite n); [done|simpl; lia]|].
  intros k rest stack _ Hr. cbn [Nat.add]. rewrite read_S. unfold read_step. cbn [raw containers].
  pose proof (span_number_spec (format_finite n) rest Hch Hr) as Hsp. destruct (format_finite n) as [|c t]; [done|]. cbn [app] in *.
  apply Forall_cons in Hch as [Hc _]. destruct (number_char_cases c Hc) as (-> & -> & -> & -> & -> & -> & -> & ->).
  by rewrite Hsp, Hm.
Qed.

Lemma reads_word (s : string) v : (s = "null"%string /\ v = Null) \/ (s = "true"%string /\ v = Bool true) \/ (s = "false"%string /\ v = Bool false) ->
  reads (lit s) v.
Proof.
  intros Hs. exists 1%nat. split; [destruct_or! Hs; destruct Hs as [-> ->]; simpl; lia|]. intros n rest stack _ _. cbn [Nat.add]. rewrite read_S.
  destruct_or! Hs; destruct Hs as [-> ->]; unfold read_step; cbn -[deliver]; by rewrite drop_0.
Qed.

(** ** Containers *)

Lemma read_comma n rest stack : read (S n) (MkReader (44 :: rest) stack) = read n (MkReader rest stack).
Proof. done. Qed.
Lemma read_colon n rest stack : read (S n) (MkReader (58 :: rest) stack) = read n (MkReader rest stack).
Proof. done. Qed.

(** A list of texts read one after the other in a container. *)
Definition fills (t : text) (before after : Container) : Prop :=
  exists k, (k <= length t)%nat /\ forall n rest stack, number_char (hd 0 rest) = false ->
    read (k + n) (MkReader (t ++ rest) (before :: stack)) = read n (MkReader rest (after :: stack)).

Lemma fills_comma t t' a b c : fills t a b -> fills t' b c -> fills (t ++ 44 :: t') a c.
Proof.
  intros (k & Hk & H1') (k' & Hk' & H2'). exists (k + S k')%nat. split; [rewrite length_app; simpl; lia|]. intros n rest stack Hr.
  rewrite <- app_assoc, <- Nat.add_assoc. cbn [app]. rewrite H1' by done. cbn [Nat.add]. rewrite read_comma. by apply H2'.
Qed.

Lemma fills_values ts vs : Forall2 reads ts vs -> forall acc, ts <> [] -> fills (commas ts) (CArray acc) (CArray (acc ++ vs)).
Proof.
  assert (H1' : forall t v acc, reads t v -> fills t (CArray acc) (CArray (acc ++ [v]))).
  { intros t v acc (k & Hk & Ht). exists k. split; [done|]. intros n rest stack Hr. by rewrite Ht. }
  induction 1 as [|t v ts vs Ht Hts IH]; intros acc Hne; [done|]. destruct Hts as [|t' v' ts vs Ht' Hts]; [by apply H1'|].
  change (commas (t :: t' :: ts)) with (t ++ 44 :: commas (t' :: ts)). eapply fills_comma; [by apply H1'|].
  replace (acc ++ v :: v' :: vs) with ((acc ++ [v]) ++ v' :: vs) by (by rewrite <- app_assoc). by apply IH.
Qed.

Lemma fills_entry k t v acc : reads t v -> Forall unit_ok k -> IndexMap.get k acc = None ->
  fills (write_json k ++ 58 :: t) (CObject acc None) (CObject (acc ++ [(k, v)]) None).
Proof.
  intros (j & Hj & Ht) Hk Hn. exists (S (S j)). split; [rewrite length_app; simpl; lia|]. intros n rest stack Hr.
  rewrite <- app_assoc. cbn [Nat.add app]. rewrite read_string by done. cbn beta iota. rewrite read_colon, Ht by done.
  cbn [deliver settle]. by rewrite IndexMap.insert_absent.
Qed.

Lemma fills_entries (f : units -> text) (g : units -> Value) ks : Forall (fun k => reads (f k) (g k) /\ Forall unit_ok k) ks ->
  forall acc, NoDup (IndexMap.keys acc ++ ks) -> ks <> [] ->
  fills (commas (map (fun k => write_json k ++ 58 :: f k) ks)) (CObject acc None) (CObject (acc ++ map (fun k => (k, g k)) ks) None).
Proof.
  induction 1 as [|k ks [Hk Hu] Hks IH]; intros acc Hn Hne; [done|].
  assert (Hget : IndexMap.get k acc = None).
  { apply IndexMap.get_None. intros Hin. apply NoDup_app in Hn as (_ & Hd & _). apply (Hd k Hin). by left. }
  pose proof (fills_entry k (f k) (g k) acc Hk Hu Hget) as He. destruct ks as [|k' ks]; [exact He|].
  change (commas (map (fun k => write_json k ++ 58 :: f k) (k :: k' :: ks))) with
    ((write_json k ++ 58 :: f k) ++ 44 :: commas (map (fun k => write_json k ++ 58 :: f k) (k' :: ks))).
  eapply fills_comma; [exact He|].
  replace (acc ++ map (fun k => (k, g k)) (k :: k' :: ks)) with ((acc ++ [(k, g k)]) ++ map (fun k => (k, g k)) (k' :: ks)) by (by rewrite <- app_assoc).
  apply IH; [|done]. unfold IndexMap.keys in *. rewrite fmap_app, <- app_assoc. exact Hn.
Qed.

Definition closed (c : Container) : Value := match c with CArray l => Array l | CObject o _ => Object o end.

(** A whole container, from its opening to its closing bracket. *)
Lemma reads_container (op cl : Z) t (before after : Container) :
  (op = 91 /\ cl = 93 /\ before = CArray []) \/ (op = 123 /\ cl = 125 /\ before = CObject [] None) ->
  (t = [] /\ before = after \/ fills t before after) -> reads (op :: t ++ [cl]) (closed after).
Proof.
  intros Hop Ht. assert (Hf : fills t before after).
  { destruct Ht as [[-> ->]|Ht]; [|done]. exists 0%nat. split; [done|]. done. }
  destruct Hf as (k & Hk & Hf). exists (S (k + 1)). split; [cbn [length]; rewrite length_app; simpl; lia|]. intros n rest stack _ _.
  assert (E1 : read (S (k + 1) + n) (MkReader ((op :: t ++ [cl]) ++ rest) stack) = read (k + S n) (MkReader (t ++ cl :: rest) (before :: stack))).
  { cbn [app]. rewrite <- app_assoc. cbn [app]. replace (S (k + 1) + n)%nat with (S (k + S n)) by lia. by destruct Hop as [(-> & -> & ->)|(-> & -> & ->)]. }
  rewrite E1, Hf by (by destruct Hop as [(-> & -> & ->)|(-> & -> & ->)]). rewrite read_S. f_equal.
  by destruct Hop as [(_ & -> & _)|(_ & -> & _)], after.
Qed.

Lemma reads_show v : wf v -> reads (show v) (canon v).
Proof.
  induction v as [|b|n|s|l IH|o IH] using value_nested; intros Hv.
  - apply reads_word. auto.
  - apply reads_word. destruct b; auto.
  - cbn [show canon]. destruct (is_finite n) eqn:E; [|apply reads_word; auto].
    destruct (parse_format n E) as (m & Em & _). rewrite Em. by apply reads_number.
  - apply reads_string. apply Hv.
  - apply every_array in Hv as [_ Hv]. cbn [show canon]. apply (reads_container 91 93 _ (CArray []) (CArray (map canon l))); [by left|].
    destruct l as [|v l]; [by left|]. right. apply (fills_values (map show (v :: l)) (map canon (v :: l))); [|done].
    apply Forall2_fmap_2. apply Forall_Forall2_diag, Forall_forall. intros w Hw. rewrite Forall_forall in IH, Hv. by apply IH, Hv.
  - rewrite show_object, canon_object. apply every_object in Hv as [[Hwf Hu] Hv].
    apply (reads_container 123 125 _ (CObject [] None) (CObject (map (fun k => (k, canon (index o k))) (keys o)) None)); [by right|].
    destruct (keys o) as [|k ks] eqn:Ek; [by left|]. rewrite <- Ek. right. apply (fills_entries (fun k => show (index o k)) (fun k => canon (index o k)));
      [|cbn; rewrite keys_perm; exact Hwf|by rewrite Ek].
    apply Forall_forall. intros k' Hk'. rewrite keys_perm in Hk'. destruct (index_in o k' Hk') as (v & _ & -> & Hin).
    rewrite Forall_forall in IH, Hv. split; [apply (IH _ Hin), (Hv _ Hin)|]. exact (proj1 (Forall_forall _ _) Hu k' Hk').
Qed.

Lemma parse_show v : wf v -> parse (show v) = Some (Ok_ (canon v)).
Proof.
  intros Hv. destruct (reads_show v Hv) as (k & Hk & Hr). unfold parse. specialize (Hr (S (length (show v)) - k)%nat [] []).
  rewrite app_nil_r in Hr. replace (k + (S (length (show v)) - k))%nat with (S (length (show v))) in Hr by lia. by rewrite Hr.
Qed.

(** ** The value that comes back *)

Lemma rank_le_total a b : rank_le a b = false -> rank_le b a = true.
Proof.
  unfold rank_le. destruct (rank a) as [x y], (rank b) as [x' y']. cbn [fst snd]. rewrite orb_false_iff, orb_true_iff, !andb_true_iff, andb_false_iff.
  rewrite !Z.ltb_lt, !Z.ltb_ge, !Z.eqb_eq, !Z.eqb_neq, !Z.leb_le, !Z.leb_gt. lia.
Qed.

Lemma insert_key_sorted k l : Sorted (fun a b => rank_le a b = true) l -> Sorted (fun a b => rank_le a b = true) (insert_key k l).
Proof.
  induction 1 as [|k' l Hs IH Hhd]; cbn [insert_key]; [by repeat constructor|]. destruct (rank_le k k') eqn:E; [by repeat constructor|].
  constructor; [done|]. destruct l as [|k2 l]; cbn [insert_key]; [constructor; by apply rank_le_total|].
  inversion Hhd; subst. destruct (rank_le k k2); constructor; [by apply rank_le_total|done].
Qed.

Lemma sort_keys_sorted l : Sorted (fun a b => rank_le a b = true) (sort_keys l).
Proof. induction l as [|k l IH]; [constructor|]. by apply insert_key_sorted. Qed.

Lemma sort_keys_fixed l : Sorted (fun a b => rank_le a b = true) l -> sort_keys l = l.
Proof.
  induction 1 as [|k l Hs IH Hhd]; [done|]. cbn [sort_keys foldr]. change (foldr insert_key [] l) with (sort_keys l). rewrite IH.
  destruct l as [|k' l]; [done|]. inversion Hhd as [|? ? Hle]; subst. cbn [insert_key]. by rewrite Hle.
Qed.

Lemma keys_canon o : IndexMap.keys (map (fun k => (k, canon (index o k))) (keys o)) = keys o.
Proof. unfold IndexMap.keys. induction (keys o) as [|k ks IH]; [done|]. cbn. by f_equal. Qed.

Lemma index_canon o k : IndexMap.wf o -> k ∈ keys o -> index (map (fun k => (k, canon (index o k))) (keys o)) k = canon (index o k).
Proof.
  intros Hwf Hk. unfold index at 1. rewrite (IndexMap.In_get k (canon (index o k))); [done| |].
  - unfold IndexMap.wf. rewrite keys_canon, keys_perm. exact Hwf.
  - apply list_elem_of_fmap. exists k. done.
Qed.

Lemma show_canon v : wf v -> show (canon v) = show v.
Proof.
  induction v as [|b|n|s|l IH|o IH] using value_nested; intros Hv; try done.
  - cbn [canon show]. destruct (is_finite n) eqn:E; [|done]. destruct (parse_format n E) as (m & -> & _ & Ef & Et). cbn. by rewrite Ef.
  - apply every_array in Hv as [_ Hv]. cbn [canon show]. do 3 f_equal. rewrite map_map. apply map_ext_in. intros v Hin%list_elem_of_In.
    rewrite Forall_forall in IH, Hv. by apply IH, Hv.
  - apply every_object in Hv as [[Hwf _] Hv]. rewrite canon_object, !show_object. do 3 f_equal.
    assert (Ek : keys (map (fun k => (k, canon (index o k))) (keys o)) = keys o).
    { unfold keys at 1. rewrite keys_canon. apply sort_keys_fixed, sort_keys_sorted. }
    rewrite Ek. apply map_ext_in. intros k Hk%list_elem_of_In. do 2 f_equal. rewrite index_canon by done.
    rewrite keys_perm in Hk. destruct (index_in o k Hk) as (v & _ & -> & Hin). rewrite Forall_forall in IH, Hv. apply (IH _ Hin), (Hv _ Hin).
Qed.

Lemma wf_canon v : wf v -> wf (canon v).
Proof.
  induction v as [|b|n|s|l IH|o IH] using value_nested; intros Hv; try done.
  - cbn [canon]. by destruct (is_finite n).
  - apply every_array in Hv as [_ Hv]. cbn [canon]. apply every_array. split; [done|]. apply Forall_fmap, Forall_forall. intros v Hin.
    rewrite Forall_forall in IH, Hv. by apply IH, Hv.
  - apply every_object in Hv as [[Hwf Hu] Hv]. rewrite canon_object. apply every_object. split.
    + unfold node_ok, IndexMap.wf. rewrite keys_canon, keys_perm. split; [exact Hwf|exact Hu].
    + apply Forall_fmap, Forall_forall. intros k Hk. rewrite keys_perm in Hk. destruct (index_in o k Hk) as (v & _ & E & Hin).
      rewrite Forall_forall in IH, Hv. cbn. rewrite E. apply (IH _ Hin), (Hv _ Hin).
Qed.

Lemma equal_canon v : wf v -> finite v -> equal (canon v) v = true.
Proof.
  induction v as [|b|n|s|l IH|o IH] using value_nested; intros Hv Hf.
  - done.
  - cbn. by destruct b.
  - destruct Hf as [Hf _]. cbn [canon]. rewrite Hf. destruct (parse_format n Hf) as (m & -> & Em & _). exact Em.
  - cbn. by apply bool_decide_eq_true.
  - apply every_array in Hv as [_ Hv], Hf as [_ Hf]. cbn [canon]. rewrite equal_array. rewrite length_map, Nat.eqb_refl. cbn [andb].
    induction l as [|v l IHl]; [done|]. apply Forall_cons in IH as [Iv IH], Hv as [Wv Hv], Hf as [Fv Hf]. cbn. rewrite Iv by done. by apply IHl.
  - apply every_object in Hv as [[Hwf _] Hv], Hf as [_ Hf]. rewrite canon_object. cbn [equal].
    assert (El : length (map (fun k => (k, canon (index o k))) (keys o)) = length o).
    { rewrite length_map, keys_perm. unfold IndexMap.keys. by rewrite length_fmap. }
    rewrite El, Nat.eqb_refl. cbn [andb]. apply forallb_forall. intros kv Hin%list_elem_of_In. apply list_elem_of_fmap in Hin as (k & -> & Hk).
    rewrite keys_perm in Hk. destruct (index_in o k Hk) as (v & Eg & E & Hin). cbn [fst snd]. rewrite Eg, E.
    rewrite Forall_forall in IH, Hv, Hf. apply (IH _ Hin); [apply (Hv _ Hin)|apply (Hf _ Hin)].
Qed.

(** C27: Writing and reading are inverse: the text [stringify] writes is read
    without an error or a panic, the value that comes back is equal to the one
    written when its numbers are finite, and writing it again gives the same
    text. *)
Theorem wire_roundtrip v : wf v ->
  exists w, parse (stringify v) = Some (Ok_ w) /\ stringify w = stringify v /\ (finite v -> eq w v = true).
Proof.
  intros Hv. exists (canon v). rewrite !stringify_show by (done || by apply wf_canon). split; [by apply parse_show|].
  split; [by apply show_canon|]. intros Hf. rewrite eq_equal. by apply equal_canon.
Qed.

(** ** Every round consumes input *)

Lemma string_body_length n : forall s b r, (length s <= n)%nat -> string_body s = Some (b, r) -> (length r < length s)%nat.
Proof.
  induction n as [|n IH]; intros s b r Hn E; (destruct s as [|c s]; [done|]); cbn [length] in *; [lia|]. cbn [string_body] in E.
  destruct (c =? 92).
  - destruct s as [|e s]; [done|]. cbn [length] in *. apply bind_Some in E as ([b' r'] & E & [= <- <-]). apply IH in E; lia.
  - destruct (c =? 34); [by injection E as _ <-; lia|]. apply bind_Some in E as ([b' r'] & E & [= <- <-]). apply IH in E; lia.
Qed.

Lemma span_number_length s : (length (span_number s).2 <= length s)%nat /\ ((span_number s).1 <> [] -> (length (span_number s).2 < length s)%nat).
Proof.
  induction s as [|c s [IH _]]; [done|]. cbn [span_number]. destruct (number_char c); [|done].
  destruct (span_number s) as [t r]. cbn [fst snd length] in *. lia.
Qed.

Lemma deliver_raw v r stack rd : deliver v r stack = inl rd -> raw rd = r.
Proof. unfold deliver. destruct stack as [|[|? []] ?]; intros; simplify_eq; done. Qed.

Lemma read_step_consumes rd rd' : read_step rd = inl rd' -> (length (raw rd') < length (raw rd))%nat.
Proof.
  unfold read_step. destruct (raw rd) as [|c r]; [done|]. cbn [length].
  assert (Hd : forall v r' stack, (length r' <= length r)%nat -> deliver v r' stack = inl rd' -> (length (raw rd') < S (length r))%nat).
  { intros v r' stack Hl E. rewrite (deliver_raw _ _ _ _ E). lia. }
  destruct (blank c); [by intros [= <-]; simpl; lia|]. destruct (c =? 91); [by intros [= <-]; simpl; lia|].
  destruct (c =? 123); [by intros [= <-]; simpl; lia|]. destruct (closing c).
  { destruct (containers rd) as [|[] ?]; [done|by apply Hd..]. }
  destruct (c =? 34).
  { destruct (string_body r) as [[b r']|] eqn:Eb; [|done]. apply (string_body_length (length r)) in Eb; [|done].
    destruct (from_json (c :: b)) as [s|]; [|done]. 
    destruct (containers rd) as [|[|? []] ?]; try (apply Hd; lia). intros [= <-]. simpl. lia. }
  assert (Hdrop : forall k, (length (drop (S k) (c :: r)) <= length r)%nat) by (intros k; rewrite length_drop; simpl; lia).
  destruct (c =? 110); [by apply Hd|]. destruct (c =? 116); [by apply Hd|]. destruct (c =? 102); [by apply Hd|].
  destruct (span_number_length (c :: r)) as [_ Hs]. destruct (span_number (c :: r)) as [t r'] eqn:Es. cbn [fst snd length] in Hs.
  destruct (parse_number t) as [n|] eqn:En; [|done]. apply Hd. destruct t as [|x t]; [by rewrite parse_empty in En|]. specialize (Hs ltac:(done)). lia.
Qed.

Lemma read_ends n : forall rd, (length (raw rd) < n)%nat -> exists p, read n rd = Some p.
Proof.
  induction n as [|n IH]; intros rd Hn; [lia|]. rewrite read_S. destruct (read_step rd) as [rd'|p] eqn:E; [|by exists p].
  apply read_step_consumes in E. apply IH. lia.
Qed.

(** The reader, which keeps its own stack of containers, ends on every
    text, well-formed or not, within one round per character. *)
Theorem reader_terminates (s : text) : exists p, parse s = Some p.
Proof. apply read_ends. simpl. lia. Qed.
End read.

(** ** A concrete instance: numbers below [10 ^ 20], and serde_json's escapes *)
Module Sample.

#[export] Instance numbers : Numbers := {
  num := Z;
  is_finite n := (0 <=? n) && (n <? 10 ^ 20);
  format_finite := decimal;
  parse_number s := if bool_decide (s = []) then None else if forallb is_digit s then Some (digits_value s) else None;
  num_eq := Z.eqb
}.

#[export] Instance number_laws : NumberLaws.
Proof.
  assert (Hd : forall n, is_finite n = true -> numeral (decimal n) /\ decimal n <> [] /\ digits_value (decimal n) = n).
  { intros n Hn. cbn [is_finite numbers] in Hn. reflect_bools. destruct (decimal_spec n ltac:(lia)) as (H1 & H2 & H3 & _). done. }
  split.
  - done.
  - intros n Hn. destruct (Hd n Hn) as (H1 & H2 & _). split; [done|]. eapply Forall_impl; [exact H1|].
    intros c Hc. unfold number_char. by rewrite Hc.
  - intros n Hn. destruct (Hd n Hn) as (H1 & H2 & H3). exists n. cbn [parse_number format_finite num_eq numbers].
    rewrite bool_decide_eq_false_2 by done. rewrite (proj2 (forallb_forall _ _)).
    + rewrite H3. split_and!; [done|apply Z.eqb_refl|done|done].
    + intros c Hc%list_elem_of_In. exact (proj1 (Forall_forall _ _) H1 c Hc).
Qed.

Definition unhex_digit (c : Z) : Z := if c <? 58 then c - 48 else c - 87.
Definition unshort (e : Z) : Z :=
  if e =? 98 then 8 else if e =? 116 then 9 else if e =? 110 then 10 else if e =? 102 then 12 else if e =? 114 then 13 else e.

Fixpoint decode_body (s : text) : option (list Z) :=
  match s with
  | [] => None
  | c :: r =>
      if c =? 34 then (if bool_decide (r = []) then Some [] else None)
      else if c =? 92 then
        match r with
        | e :: r =>
            if e =? 117 then
              match r with
              | x1 :: x2 :: x3 :: x4 :: r =>
                  app (wtf8 (unhex_digit x1 * 4096 + unhex_digit x2 * 256 + unhex_digit x3 * 16 + unhex_digit x4)) <$> decode_body r
              | _ => None
              end
            else app (wtf8 (unshort e)) <$> decode_body r
        | [] => None
        end
      else app (wtf8 c) <$> decode_body r
  end.
#[export] Instance strings : JsonStrings := decode_body.

#[export] Instance string_laws : JsonStringLaws.
Proof.
  split.
  - done.
  - intros c s Hc H1 H2 _. unfold decode, strings. cbn [decode_body]. by rewrite (proj2 (Z.eqb_neq c 34)), (proj2 (Z.eqb_neq c 92)) by done.
  - intros u e s. unfold short_escape, decode, strings.
    destruct (u =? 34) eqn:?; [by intros [= <-]; reflect_bools; subst|]. destruct (u =? 92) eqn:?; [by intros [= <-]; reflect_bools; subst|].
    repeat (match goal with |- context [u =? ?k] => destruct (u =? k) eqn:? end; [by intros [= <-]; reflect_bools; subst|]). discriminate.
  - intros u s Hu _. unfold decode, strings, escape_unit, hex4. cbn [app decode_body]. cbn [Z.eqb Pos.eqb].
    assert (Hx : forall n, 0 <= n < 16 -> unhex_digit (hex_digit n) = n).
    { intros n Hn. unfold unhex_digit, hex_digit. destruct (n <? 10) eqn:E; reflect_bools.
      - rewrite (proj2 (Z.ltb_lt _ _)) by lia. lia.
      - rewrite (proj2 (Z.ltb_ge _ _)) by lia. lia. }
    rewrite !Hx by (apply Z.mod_pos_bound; lia). do 3 f_equal. Z.to_euclidean_division_equations. lia.
Qed.

(** An object with an index key, a lone surrogate, and nested containers. *)
Definition value : Value :=
  Object [(lit "b", Array [Number 42; String_ [0xd800; 34]; Null]); (lit "7", Bool true); (lit "a", Object [])].

Lemma value_ok : wf value /\ finite value.
Proof.
  split; cbn; unfold IndexMap.wf, IndexMap.keys; cbn;
    repeat match goal with |- _ /\ _ => split | |- Forall _ _ => constructor | |- unit_ok _ => vm_compute; split; congruence end; try done.
  all: apply (bool_decide_unpack _); vm_compute; exact I.
Qed.

Lemma wire_roundtrip_witness :
  exists w, parse (stringify value) = Some (Ok_ w) /\ stringify w = stringify value /\ eq w value = true.
Proof.
  destruct (wire_roundtrip value (proj1 value_ok)) as (w & H1 & H2 & H3). exists w. split; [exact H1|]. split; [exact H2|].
  apply H3. exact (proj2 value_ok).
Defined.

Lemma stringify_is_show_witness : stringify value = show value /\ show value <> [].
Proof. split; [apply (stringify_is_show value), value_ok|discriminate]. Defined.

Lemma pretty_is_show_pretty_witness : stringify_pretty value = show_pretty 0 value /\ length (show_pretty 0 value) = 73%nat.
Proof. split; [apply (pretty_is_show_pretty value), value_ok|vm_compute; reflexivity]. Defined.

Lemma clone_is_identity_witness : clone value = Some value.
Proof. apply (clone_is_identity value), value_ok. Defined.
End Sample.
End WireRead.
