(* ===== verification/CommandBus.v ===== *)
(** * The command bus

    [CommandBus] models src/cantrip_server_rs/src/workers/command_bus.rs: the
    admission of commands to workers within the relay quotas, the rates and the
    concurrency limits of two lanes, the owner cache, the events and the answer
    of an admitted command, and the tasks that carry them. Requests run
    concurrently: [step] interleaves them at the points where the code awaits,
    with the dispatch lock as a first-in first-out queue. The bridge and the
    owner lookup answer as they like. *)
From S2P Require Import Prelude Limits Quotas JsString Wire WireRead.
From stdpp Require Import base numbers strings gmap option list relations.
Open Scope Z_scope.

Module CommandBus.
Import Text JsString Wire.
Abbreviation RelayLimitError := RelayQuotas.RelayLimitError.

(** The sum of a quantity over the requests. *)
Definition tally {A} (f : A -> Z) (l : list A) : Z := sumZ (map f l).

Lemma tally_app {A} (f : A -> Z) l k : tally f (l ++ k) = tally f l + tally f k.
Proof. unfold tally. by rewrite map_app, sumZ_app. Qed.

Lemma tally_insert {A} (f : A -> Z) l i x y : l !! i = Some x -> tally f (<[i := y]> l) = tally f l - f x + f y.
Proof.
  revert i. induction l as [|z l IH]; intros [|i] E; try done.
  - injection E as ->. change (f y + tally f l = f x + tally f l - f x + f y). lia.
  - change (f z + tally f (<[i := y]> l) = f z + tally f l - f x + f y). rewrite IH by done. lia.
Qed.

Lemma tally_none {A} (f : A -> Z) l : (forall x, x ∈ l -> f x = 0) -> tally f l = 0.
Proof.
  induction l as [|x l IH]; intros E; [done|]. change (f x + tally f l = 0).
  rewrite (E x), IH; [done| |left]. intros y Hy. apply E. by right.
Qed.

Lemma tally_nonneg {A} (f : A -> Z) l : (forall x, 0 <= f x) -> 0 <= tally f l.
Proof. intros Hf. unfold tally. apply sumZ_nonneg, Forall_fmap, Forall_forall. intros. apply Hf. Qed.

Lemma tally_zero {A} (f : A -> Z) l : (forall x, 0 <= f x) -> tally f l = 0 -> forall x, x ∈ l -> f x = 0.
Proof.
  intros Hf. induction l as [|y l IH]; intros E x Hx; [by apply elem_of_nil in Hx|]. change (tally f (y :: l)) with (f y + tally f l) in E.
  pose proof (Hf y). pose proof (tally_nonneg f l Hf). apply elem_of_cons in Hx as [->|Hx]; [lia|]. apply IH; [lia|done].
Qed.

Section bus.
Context `{Numbers}.
(** The errors of the bridge, and of the owner lookup. *)
Context {BridgeError OwnerError : Type}.

(** ** Commands *)

(** [value[key]], and its comparison with a string. *)
Definition field (v : Value) (key : string) : Value :=
  match v with Object o => default Null (IndexMap.get (lit key) o) | _ => Null end.
Definition is_str (v : Value) (s : string) : bool :=
  match v with String_ u => bool_decide (u = lit s) | _ => false end.
Definition is_any (v : Value) (l : list string) : bool := existsb (is_str v) l.

Definition CONTROLS : list string :=
  ["inference.status"; "model.operation.cancel"; "inference.configure"; "inference.revoke"; "inference.task-revoke";
   "worker.version"; "worker.restart"; "worker.credential.rotate"; "worker.encryption.refresh"; "chat.interrupt";
   "chat.pause.set"; "chat.queue.changed"; "chat.settings.read"; "chat.queue.prepare"; "chat.automation.resume";
   "chat.goal.recover"; "chat.goal.claim-recover"; "task.goal.recover"; "task.goal.source"; "agent.interaction.respond";
   "agent.interaction.respond.protected"; "agent.interaction.cancel"; "chat.native-logical.cancel";
   "chat.native-logical.complete"; "chat.goal.get"; "chat.goal.clear"]%string.

Definition is_execution_control (command : Value) : bool :=
  let t := field command "type" in
  if is_str t "chat.runtime.handoff" then is_str (field command "intent") "cancel"
  else if is_str t "chat.native-control" then
    is_any (field (field command "control") "kind") ["interrupt"; "pause"; "reply"]%string
  else is_any t CONTROLS.

Definition size (v : Value) : Z := byte_len (stringify v).

(** ** Lanes and state *)

Record CommandLimits := MkLimits {
  account_concurrency : Z; account_rate_per_minute : Z; worker_concurrency : Z; worker_rate_per_minute : Z }.

Record CommandLane := MkLane {
  account_active : ActiveLimit.t; worker_active : ActiveLimit.t;
  account_rate : SlidingWindow.t; worker_rate : SlidingWindow.t }.

Definition new_lane (limits : CommandLimits) (control : bool) : CommandLane :=
  MkLane (ActiveLimit.new (if control then Z.min (account_concurrency limits) 8 else account_concurrency limits))
    (ActiveLimit.new (if control then Z.min (worker_concurrency limits) 8 else worker_concurrency limits))
    (SlidingWindow.new (account_rate_per_minute limits)) (SlidingWindow.new (worker_rate_per_minute limits)).

(** [lanes[0]] is the ordinary lane, [lanes[1]] the control lane; the counters
    are f64 in the code, exact below [2 ^ 53]. *)
Record State := MkState {
  owners : gmap string string; ordinary : CommandLane; control : CommandLane;
  failed : Z; routed : Z; succeeded : Z; active_requests : Z }.

Definition lane (s : State) (c : bool) : CommandLane := if c then control s else ordinary s.
Definition set_lane (c : bool) (l : CommandLane) (s : State) : State :=
  if c then MkState (owners s) (ordinary s) l (failed s) (routed s) (succeeded s) (active_requests s)
  else MkState (owners s) l (control s) (failed s) (routed s) (succeeded s) (active_requests s).
Definition set_owners (o : gmap string string) (s : State) : State :=
  MkState o (ordinary s) (control s) (failed s) (routed s) (succeeded s) (active_requests s).
Definition set_counts (f r ok active : Z) (s : State) : State :=
  MkState (owners s) (ordinary s) (control s) f r ok active.

Record Bus := MkBus { state : State; quotas : RelayQuotas.State; tasks : Z }.
Definition set_state (s : State) (b : Bus) : Bus := MkBus s (quotas b) (tasks b).
Definition set_quotas (q : RelayQuotas.State) (b : Bus) : Bus := MkBus (state b) q (tasks b).
Definition set_tasks (n : Z) (b : Bus) : Bus := MkBus (state b) (quotas b) n.

Definition with_parts (quotas : RelayQuotas.State) (limits : CommandLimits) : Bus :=
  MkBus (MkState ∅ (new_lane limits false) (new_lane limits true) 0 0 0 0) quotas 0.

(** ** Admission *)

Record WorkerKey := MkKey { identity : string; key_value : Value }.

Record Permit := MkPermit { p_owner : string; p_worker : string; p_lane : bool; p_released : bool }.

Inductive Failure := Limit (e : RelayLimitError) | Bridge (e : BridgeError) | Owner (e : OwnerError).
Definition Answer : Type := option Value + Failure.

Definition quota_error : RelayLimitError := RelayQuotas.new_error "Relay bandwidth quota reached. Retry later." 1.

Definition admit_command (b : Bus) (owner : string) (worker : WorkerKey) (command : Value) (c1 c2 c3 : Z) :
    outcome ((Permit + RelayLimitError) * Bus) :=
  let c := is_execution_control command in
  let rejected (l : CommandLane) (q : RelayQuotas.State) (e : RelayLimitError) :=
    let s := set_lane c l (state b) in
    Returned (inr (RelayQuotas.before_dispatch e),
      MkBus (set_counts (failed s + 1) (routed s) (succeeded s) (active_requests s) s) q (tasks b)) in
  let l := lane (state b) c in
  let! (ok, q) := RelayQuotas.consume_relay_at (quotas b) owner (identity worker) (size command) c1 in
  if negb ok then rejected l q quota_error
  else
    let! (account, ar) := SlidingWindow.consume (account_rate l) owner c2 in
    let! (worker_retry, wr) := SlidingWindow.consume (worker_rate l) (identity worker) c3 in
    let retry := Z.max (default 0 account) (default 0 worker_retry) in
    let l := MkLane (account_active l) (worker_active l) ar wr in
    if 0 <? retry then rejected l q (RelayQuotas.new_error "Worker command rate limit reached. Retry shortly." retry)
    else
      let '(ok, aa) := ActiveLimit.acquire (account_active l) owner in
      if negb ok then rejected l q (RelayQuotas.new_error "Account worker-command concurrency limit reached." 1)
      else
        let '(ok, wa) := ActiveLimit.acquire (worker_active l) (identity worker) in
        if negb ok then
          rejected (MkLane (ActiveLimit.release aa owner) wa ar wr) q (RelayQuotas.new_error "Worker command concurrency limit reached." 1)
        else
          let s := set_lane c (MkLane aa wa ar wr) (state b) in
          Returned (inl (MkPermit owner (identity worker) c false),
            MkBus (set_counts (failed s) (routed s + 1) (succeeded s) (active_requests s + 1) s) q (tasks b)).

(** [AdmissionPermit::release]: the flag makes it happen once. *)
Definition release (p : Permit) (b : Bus) : Permit * Bus :=
  if p_released p then (p, b)
  else
    let l := lane (state b) (p_lane p) in
    (MkPermit (p_owner p) (p_worker p) (p_lane p) true,
     set_state (set_lane (p_lane p)
       (MkLane (ActiveLimit.release (account_active l) (p_owner p)) (ActiveLimit.release (worker_active l) (p_worker p))
          (account_rate l) (worker_rate l)) (state b)) b).

(** The drop of an [ActiveRequest]; the subtraction panics at 0. *)
Definition drop_request (p : Permit) (b : Bus) : outcome Bus :=
  let '(_, b) := release p b in
  let s := state b in
  if active_requests s =? 0 then Panicked
  else Returned (set_state (set_counts (failed s) (routed s) (succeeded s) (active_requests s - 1) s) b).

(** ** Owners *)

Definition cached (b : Bus) (worker : WorkerKey) : option string :=
  o ← owners (state b) !! identity worker; if bool_decide (o = ""%string) then None else Some o.
Definition remember (worker : WorkerKey) (o : string) (b : Bus) : Bus :=
  set_state (set_owners (<[identity worker := o]> (owners (state b))) (state b)) b.

(** ** Events and the answer *)

Definition is_admitted_event (event : Value) : bool :=
  is_str (field event "type") "inference.command-state" && match field event "admitted" with Bool true => true | _ => false end.

(** What the event handler does: the permit, the bus, and the quota error or
    what is told to whom. *)
Inductive Told := Observer (event : Value) | Handler (event : Value).
Definition on_event (b : Bus) (owner : string) (worker : WorkerKey) (p : Permit) (observer handler : bool) (event : Value) (c : Z) :
    outcome (Permit * Bus * (list Told + RelayLimitError)) :=
  let '(p, b) := if is_admitted_event event then release p b else (p, b) in
  let! (ok, q) := RelayQuotas.consume_relay_at (quotas b) owner (identity worker) (size event) c in
  let b := set_quotas q b in
  if negb ok then Returned (p, b, inr quota_error)
  else
    let inference := is_str (field event "type") "inference.command-state" in
    Returned (p, b, inl ((if inference && observer then [Observer event] else []) ++
                         (if negb inference && handler then [Handler event] else []))).

Definition settle (b : Bus) (owner : string) (worker : WorkerKey) (event_limit : option RelayLimitError)
    (delegated : option Value + BridgeError) (c : Z) : outcome (Answer * Bus) :=
  let! (result, b) :=
    match delegated with
    | inl value =>
        let! (ok, q) := RelayQuotas.consume_relay_at (quotas b) owner (identity worker) (default 0 (size <$> value)) c in
        Returned (if ok : bool then inl value else inr (Limit quota_error), set_quotas q b)
    | inr error =>
        Returned (match event_limit with Some limit => inr (Limit limit) | None => inr (Bridge error) end, b)
    end in
  let s := state b in
  Returned (result, set_state
    (match result with
     | inl _ => set_counts (failed s) (routed s) (succeeded s + 1) (active_requests s) s
     | inr _ => set_counts (failed s + 1) (routed s) (succeeded s) (active_requests s) s
     end) b).

(** ** Requests

    The phases of the task of a request, between the points where it awaits. *)
Inductive Phase :=
| Queued                                          (** waiting for the dispatch lock *)
| Resolving                                       (** holding it, owner not known yet *)
| Looking                                         (** owner lookup under way, lock given up *)
| Relocking (owner : string)                      (** owner known, waiting for the lock again *)
| Ready (owner : string)                          (** holding the lock, about to be admitted *)
| Running (owner : string) (p : Permit) (event_limit : option RelayLimitError)
| Settled (p : Permit) (a : Answer)               (** counted, permit not dropped yet *)
| Ended (admitted : bool) (a : option Answer).    (** [None] is a panic of the task *)

Record Request := MkRequest { worker : WorkerKey; command : Value; phase : Phase }.
Definition at_phase (r : Request) (ph : Phase) : Request := MkRequest (worker r) (command r) ph.

(** The dispatch lock: who holds it, and who waits, first come first served. *)
Record Sys := MkSys { bus : Bus; requests : list Request; guard : option nat; line : list nat }.

Definition put (i : nat) (r : Request) (ph : Phase) (s : Sys) : list Request := <[i := at_phase r ph]> (requests s).
Definition unlock (i : nat) (g : option nat) : option nat := if decide (g = Some i) then None else g.
Definition task_done (b : Bus) : Bus := set_tasks (tasks b - 1) b.

(** [as_str] is [None] for a string with an unpaired surrogate. *)
Fixpoint paired (u : units) : bool :=
  match u with
  | [] => true
  | a :: rest =>
      if high a then match rest with b :: rest' => low b && paired rest' | [] => false end
      else negb (low a) && paired rest
  end.
Definition is_string (v : Value) : bool := match v with String_ u => paired u | _ => false end.

(** The bridge has no peer for a key that is not a string. *)
Context (offline : WorkerKey -> BridgeError).

Inductive step : Sys -> Sys -> Prop :=
| s_submit s k c :
    step s (MkSys (set_tasks (tasks (bus s) + 1) (bus s)) (requests s ++ [MkRequest k c Queued]) (guard s)
              (line s ++ [length (requests s)]))
| s_grant b rs i rest r ph :
    rs !! i = Some r ->
    (phase r = Queued /\ ph = Resolving \/ exists o, phase r = Relocking o /\ ph = Ready o) ->
    step (MkSys b rs None (i :: rest)) (MkSys b (<[i := at_phase r ph]> rs) (Some i) rest)
| s_cached s i r o :
    requests s !! i = Some r -> phase r = Resolving -> cached (bus s) (worker r) = Some o ->
    step s (MkSys (bus s) (put i r (Ready o) s) (guard s) (line s))
| s_resolved_now s i r o :
    requests s !! i = Some r -> phase r = Resolving -> cached (bus s) (worker r) = None -> o <> ""%string ->
    step s (MkSys (remember (worker r) o (bus s)) (put i r (Ready o) s) (guard s) (line s))
| s_refused_now s i r e :
    requests s !! i = Some r -> phase r = Resolving -> cached (bus s) (worker r) = None ->
    step s (MkSys (task_done (bus s)) (put i r (Ended false (Some (inr (Owner e)))) s) (unlock i (guard s)) (line s))
| s_look s i r :
    requests s !! i = Some r -> phase r = Resolving -> cached (bus s) (worker r) = None ->
    step s (MkSys (bus s) (put i r Looking s) (unlock i (guard s)) (line s))
| s_resolved s i r o :
    requests s !! i = Some r -> phase r = Looking -> o <> ""%string ->
    step s (MkSys (remember (worker r) o (bus s)) (put i r (Relocking o) s) (guard s) (line s ++ [i]))
| s_refused s i r e :
    requests s !! i = Some r -> phase r = Looking ->
    step s (MkSys (task_done (bus s)) (put i r (Ended false (Some (inr (Owner e)))) s) (guard s) (line s))
| s_admitted s i r o c1 c2 c3 p b :
    requests s !! i = Some r -> phase r = Ready o -> admit_command (bus s) o (worker r) (command r) c1 c2 c3 = Returned (inl p, b) ->
    step s (MkSys b (put i r (Running o p None) s) (guard s) (line s))
| s_rejected s i r o c1 c2 c3 e b :
    requests s !! i = Some r -> phase r = Ready o -> admit_command (bus s) o (worker r) (command r) c1 c2 c3 = Returned (inr e, b) ->
    step s (MkSys (task_done b) (put i r (Ended false (Some (inr (Limit e)))) s) (unlock i (guard s)) (line s))
| s_dispatched s i r o p e :
    requests s !! i = Some r -> phase r = Running o p e -> is_string (key_value (worker r)) = true ->
    step s (MkSys (bus s) (requests s) (unlock i (guard s)) (line s))
| s_event s i r o p e observer handler event c p' b told :
    requests s !! i = Some r -> phase r = Running o p e ->
    on_event (bus s) o (worker r) p observer handler event c = Returned (p', b, told) ->
    step s (MkSys b (put i r (Running o p' (match told with inr limit => Some limit | inl _ => e end)) s) (guard s) (line s))
| s_settled s i r o p e delegated c a b :
    requests s !! i = Some r -> phase r = Running o p e ->
    (is_string (key_value (worker r)) = false -> delegated = inr (offline (worker r))) ->
    settle (bus s) o (worker r) e delegated c = Returned (a, b) ->
    step s (MkSys b (put i r (Settled p a) s) (guard s) (line s))
| s_dropped s i r p a b :
    requests s !! i = Some r -> phase r = Settled p a -> drop_request p (bus s) = Returned b ->
    step s (MkSys (task_done b) (put i r (Ended true (Some a)) s) (unlock i (guard s)) (line s))
| s_panicked s i r o p e b :
    requests s !! i = Some r -> phase r = Running o p e -> drop_request p (bus s) = Returned b ->
    step s (MkSys (task_done b) (put i r (Ended true None) s) (unlock i (guard s)) (line s))
| s_elsewhere s owner worker n c ok q :
    0 <= n -> RelayQuotas.consume_relay_at (quotas (bus s)) owner worker n c = Returned (ok, q) ->
    step s (MkSys (set_quotas q (bus s)) (requests s) (guard s) (line s)).

Definition initial (quotas : RelayQuotas.State) (limits : CommandLimits) : Sys := MkSys (with_parts quotas limits) [] None [].

(** [drained] returns when no task is left. *)
Definition is_drained (s : Sys) : bool := tasks (bus s) =? 0.

(** ** What the counters count *)

Definition held (r : Request) : option Permit :=
  match phase r with Running _ p _ => Some p | Settled p _ => Some p | _ => None end.
Definition bit (b : bool) : Z := if b then 1 else 0.

Definition slot (key_of : Permit -> string) (c : bool) (k : string) (r : Request) : Z :=
  match held r with
  | Some p => bit (negb (p_released p) && Bool.eqb (p_lane p) c && bool_decide (key_of p = k))
  | None => 0
  end.
Definition holding (r : Request) : Z := match held r with Some _ => 1 | None => 0 end.
Definition open (r : Request) : Z := match phase r with Ended _ _ => 0 | _ => 1 end.
Definition admitted (r : Request) : Z :=
  match phase r with Running _ _ _ | Settled _ _ => 1 | Ended a _ => bit a | _ => 0 end.
Definition answered (r : Request) : Z :=
  match phase r with Settled _ (inl _) | Ended true (Some (inl _)) => 1 | _ => 0 end.
Definition refused (r : Request) : Z :=
  match phase r with
  | Settled _ (inr _) | Ended true (Some (inr _)) | Ended false (Some (inr (Limit _))) => 1
  | _ => 0
  end.

(** Which phases wait in line, and which hold the lock. *)
Definition waits (ph : Phase) : bool := match ph with Queued | Relocking _ => true | _ => false end.
Definition owns (ph : Phase) : bool := match ph with Resolving | Ready _ => true | _ => false end.
Definition may_own (ph : Phase) : bool := match ph with Resolving | Ready _ | Running _ _ _ | Settled _ _ => true | _ => false end.

Section invariant.
Context (limits : CommandLimits).
Context (Hlimits : 0 <= account_concurrency limits /\ 0 <= worker_concurrency limits /\
                   0 < account_rate_per_minute limits /\ 0 < worker_rate_per_minute limits).

(** A lane keeps the limits it was made with. *)
Record lane_ok (c : bool) (l : CommandLane) : Prop := LaneOk {
  lo_account : ActiveLimit.wf (account_active l);
  lo_worker : ActiveLimit.wf (worker_active l);
  lo_account_limit : ActiveLimit.limit (account_active l) = ActiveLimit.limit (account_active (new_lane limits c));
  lo_worker_limit : ActiveLimit.limit (worker_active l) = ActiveLimit.limit (worker_active (new_lane limits c));
  lo_account_rate : SlidingWindow.limit (account_rate l) = account_rate_per_minute limits;
  lo_worker_rate : SlidingWindow.limit (worker_rate l) = worker_rate_per_minute limits
}.

(** The counters are exactly what the requests account for. *)
Record bus_ok (b : Bus) (rs : list Request) : Prop := BusOk {
  bo_lanes : forall c, lane_ok c (lane (state b) c);
  bo_accounts : forall c k, ActiveLimit.count (account_active (lane (state b) c)) k = tally (slot p_owner c k) rs;
  bo_workers : forall c k, ActiveLimit.count (worker_active (lane (state b) c)) k = tally (slot p_worker c k) rs;
  bo_active : active_requests (state b) = tally holding rs;
  bo_tasks : tasks b = tally open rs;
  bo_routed : routed (state b) = tally admitted rs;
  bo_succeeded : succeeded (state b) = tally answered rs;
  bo_failed : failed (state b) = tally refused rs;
  bo_account_quota : ByteWindow.sane (RelayQuotas.account_relay (quotas b));
  bo_worker_quota : ByteWindow.sane (RelayQuotas.worker_relay (quotas b))
}.

(** The line is the waiting requests, and the lock is held by at most one. *)
Record sched (rs : list Request) (g : option nat) (l : list nat) : Prop := Sched {
  sc_line : NoDup l;
  sc_waits : forall i, i ∈ l <-> exists r, rs !! i = Some r /\ waits (phase r) = true;
  sc_guard : forall i, g = Some i -> exists r, rs !! i = Some r /\ may_own (phase r) = true;
  sc_owns : forall i r, rs !! i = Some r -> owns (phase r) = true -> g = Some i
}.

Definition inv (s : Sys) : Prop := bus_ok (bus s) (requests s) /\ sched (requests s) (guard s) (line s).

(** *** One request changes *)

Lemma bus_change b rs i r r' b' :
  bus_ok b rs -> rs !! i = Some r ->
  (forall c, lane_ok c (lane (state b') c)) ->
  (forall c k, ActiveLimit.count (account_active (lane (state b') c)) k =
     ActiveLimit.count (account_active (lane (state b) c)) k - slot p_owner c k r + slot p_owner c k r') ->
  (forall c k, ActiveLimit.count (worker_active (lane (state b') c)) k =
     ActiveLimit.count (worker_active (lane (state b) c)) k - slot p_worker c k r + slot p_worker c k r') ->
  active_requests (state b') = active_requests (state b) - holding r + holding r' ->
  tasks b' = tasks b - open r + open r' ->
  routed (state b') = routed (state b) - admitted r + admitted r' ->
  succeeded (state b') = succeeded (state b) - answered r + answered r' ->
  failed (state b') = failed (state b) - refused r + refused r' ->
  ByteWindow.sane (RelayQuotas.account_relay (quotas b')) -> ByteWindow.sane (RelayQuotas.worker_relay (quotas b')) ->
  bus_ok b' (<[i := r']> rs).
Proof.
  intros [B1 B2 B3 B4 B5 B6 B7 B8 B9 B10] Hr L A W N1 N2 N3 N4 N5 Q1 Q2.
  constructor; [exact L|..|exact Q1|exact Q2]; intros; rewrite (tally_insert _ _ _ _ _ Hr).
  - by rewrite A, B2.
  - by rewrite W, B3.
  - by rewrite N1, B4.
  - by rewrite N2, B5.
  - by rewrite N3, B6.
  - by rewrite N4, B7.
  - by rewrite N5, B8.
Qed.

(** A change of phase that the bus does not see. *)
Lemma bus_same b rs i r ph : bus_ok b rs -> rs !! i = Some r ->
  (forall k c j, slot k c j (at_phase r ph) = slot k c j r) -> holding (at_phase r ph) = holding r -> open (at_phase r ph) = open r ->
  admitted (at_phase r ph) = admitted r -> answered (at_phase r ph) = answered r -> refused (at_phase r ph) = refused r ->
  bus_ok b (<[i := at_phase r ph]> rs).
Proof.
  intros Hb Hr E1 E2 E3 E4 E5 E6. pose proof Hb as [B1 B2 B3 B4 B5 B6 B7 B8 B9 B10].
  eapply bus_change; [exact Hb|exact Hr|exact B1|..|exact B9|exact B10]; intros; rewrite ?E1; lia.
Qed.

Lemma bus_remember b rs k o : bus_ok b rs -> bus_ok (remember k o b) rs.
Proof. intros [B1 B2 B3 B4 B5 B6 B7 B8 B9 B10]. by constructor. Qed.

(** *** Scheduling *)

Lemma sched_phase rs g l i r ph g' l' :
  sched rs g l -> rs !! i = Some r ->
  NoDup l' -> (forall j, j ∈ l' <-> (j <> i /\ j ∈ l) \/ (j = i /\ waits ph = true)) ->
  (forall j, g' = Some j -> (j = i /\ may_own ph = true) \/ (j <> i /\ g = Some j)) ->
  (owns ph = true -> g' = Some i) -> (forall j, j <> i -> g = Some j -> g' = Some j) ->
  sched (<[i := at_phase r ph]> rs) g' l'.
Proof.
  intros [S1 S2 S3 S4] Hr Hn Hl Hg Ho Hk. pose proof (lookup_lt_Some _ _ _ Hr) as Hi. constructor; [exact Hn|..].
  - intros j. rewrite Hl, S2. destruct (decide (j = i)) as [->|Hne].
    + rewrite list_lookup_insert_eq by done. split.
      * intros [[? _]|[_ E]]; [done|]. by exists (at_phase r ph).
      * intros (r' & [= <-] & E). by right.
    + rewrite list_lookup_insert_ne by done. naive_solver.
  - intros j Hj. destruct (Hg j Hj) as [[-> Hm]|[Hne Hj']].
    + exists (at_phase r ph). by rewrite list_lookup_insert_eq.
    + destruct (S3 j Hj') as (r' & E & Hm). exists r'. by rewrite list_lookup_insert_ne.
  - intros j r' E Hj. destruct (decide (j = i)) as [->|Hne].
    + rewrite list_lookup_insert_eq in E by done. injection E as <-. by apply Ho.
    + rewrite list_lookup_insert_ne in E by done. apply Hk; [done|]. by eapply S4.
Qed.

(** Staying out of the line. *)
Lemma sched_stay rs g l i r ph g' : sched rs g l -> rs !! i = Some r -> waits (phase r) = false -> waits ph = false ->
  (forall j, g' = Some j -> (j = i /\ may_own ph = true) \/ (j <> i /\ g = Some j)) ->
  (owns ph = true -> g' = Some i) -> (forall j, j <> i -> g = Some j -> g' = Some j) ->
  sched (<[i := at_phase r ph]> rs) g' l.
Proof.
  intros Hs Hr Hw Hw' Hg Ho Hk. pose proof Hs as [S1 S2 _ _]. eapply sched_phase; [done..| |done|done|done].
  intros j. rewrite Hw'. split.
  - intros Hj. left. split; [|done]. intros ->. apply S2 in Hj as (r' & E & Hj). congruence.
  - naive_solver.
Qed.

Lemma sched_unlock rs g l i r ph : sched rs g l -> rs !! i = Some r -> waits (phase r) = false -> waits ph = false -> owns ph = false ->
  sched (<[i := at_phase r ph]> rs) (unlock i g) l.
Proof.
  intros Hs Hr Hw Hw' Ho. eapply sched_stay; [done..| |by rewrite Ho|].
  - unfold unlock. intros j Hj. case_decide as Hd; [done|]. right. split; [|done]. congruence.
  - unfold unlock. intros j Hne Hj. rewrite decide_False by congruence. done.
Qed.

Lemma sched_keep rs g l i r ph : sched rs g l -> rs !! i = Some r -> waits (phase r) = false -> waits ph = false ->
  (may_own (phase r) = true -> may_own ph = true) -> (owns ph = true -> owns (phase r) = true) ->
  sched (<[i := at_phase r ph]> rs) g l.
Proof.
  intros Hs Hr Hw Hw' Hm Ho. pose proof Hs as [_ _ S3 S4]. eapply sched_stay; [done..| | |done].
  - intros j Hj. destruct (decide (j = i)) as [->|]; [left|by right]. split; [done|]. destruct (S3 i Hj) as (r' & E & ?).
    apply Hm. congruence.
  - intros Hp. eapply S4; [done|]. by apply Ho.
Qed.

(** *** The operations *)

Lemma lane_set c c' l st : lane (set_lane c l st) c' = if Bool.eqb c c' then l else lane st c'.
Proof. by destruct c, c'. Qed.

Lemma limit_nonneg c : 0 <= ActiveLimit.limit (account_active (new_lane limits c)) /\ 0 <= ActiveLimit.limit (worker_active (new_lane limits c)).
Proof. destruct Hlimits as (? & ? & _). destruct c; simpl; lia. Qed.

Lemma slot_released f c k r p : held r = Some p -> p_released p = true -> slot f c k r = 0.
Proof. intros E R. unfold slot. by rewrite E, R. Qed.

Lemma slot_nonneg f c k r : 0 <= slot f c k r.
Proof. unfold slot, bit. repeat case_match; lia. Qed.

Lemma tally_ge (f : Request -> Z) rs i r : (forall x, 0 <= f x) -> rs !! i = Some r -> f r <= tally f rs.
Proof.
  intros Hf Hr. pose proof (tally_insert f rs i r r Hr) as E. apply list_elem_of_split_length in Hr as (l1 & l2 & -> & _).
  rewrite tally_app. change (tally f (r :: l2)) with (f r + tally f l2). pose proof (tally_nonneg f l1 Hf). pose proof (tally_nonneg f l2 Hf). lia.
Qed.

(** What a release changes, for a permit that a request holds. *)
Lemma release_spec b rs i r p : bus_ok b rs -> rs !! i = Some r -> held r = Some p ->
  exists p' b', release p b = (p', b') /\ p_released p' = true /\ tasks b' = tasks b /\ quotas b' = quotas b /\
    (forall c, lane_ok c (lane (state b') c)) /\
    (forall c k, ActiveLimit.count (account_active (lane (state b') c)) k = ActiveLimit.count (account_active (lane (state b) c)) k - slot p_owner c k r) /\
    (forall c k, ActiveLimit.count (worker_active (lane (state b') c)) k = ActiveLimit.count (worker_active (lane (state b) c)) k - slot p_worker c k r) /\
    active_requests (state b') = active_requests (state b) /\ routed (state b') = routed (state b) /\
    succeeded (state b') = succeeded (state b) /\ failed (state b') = failed (state b).
Proof.
  intros [B1 B2 B3 B4 B5 B6 B7 B8 B9 B10] Hr Hp. unfold release. destruct (p_released p) eqn:Er.
  - eexists _, _. split_and!; try done; intros c k; rewrite (slot_released _ _ _ _ _ Hp Er); lia.
  - eexists _, _. split; [reflexivity|]. cbn [p_released]. split; [done|]. split; [done|]. split; [done|].
    set (l := lane (state b) (p_lane p)) in *. destruct (B1 (p_lane p)) as [W1 W2 M1 M2 R1 R2]. fold l in W1, W2, M1, M2, R1, R2.
    assert (Hslot : forall f c k, slot f c k r = bit (Bool.eqb (p_lane p) c && bool_decide (f p = k))) by (intros f c k; unfold slot; by rewrite Hp, Er).
    assert (Hpos : 0 < ActiveLimit.count (account_active l) (p_owner p) /\ 0 < ActiveLimit.count (worker_active l) (p_worker p)).
    { unfold l. rewrite B2, B3.
      pose proof (tally_ge (slot p_owner (p_lane p) (p_owner p)) rs i r (slot_nonneg _ _ _) Hr) as G1.
      pose proof (tally_ge (slot p_worker (p_lane p) (p_worker p)) rs i r (slot_nonneg _ _ _) Hr) as G2.
      rewrite Hslot, eqb_reflx, bool_decide_eq_true_2 in G1 by done. rewrite Hslot, eqb_reflx, bool_decide_eq_true_2 in G2 by done. simpl in *. lia. }
    destruct Hpos as [P1 P2]. cbn [state set_state]. split_and!; [| | |by destruct (p_lane p)..].
    + intros c. rewrite lane_set. destruct (Bool.eqb (p_lane p) c) eqn:Ec; [|apply B1]. apply eqb_prop in Ec. subst c.
      constructor; simpl; rewrite ?RelayQuotas.limit_release; try done; by apply ActiveLimit.wf_release.
    + intros c k. rewrite lane_set, Hslot. destruct (Bool.eqb (p_lane p) c) eqn:Ec; [|simpl; lia]. apply eqb_prop in Ec. subst c. cbn [account_active andb].
      rewrite ActiveLimit.release_count by done. fold l. case_bool_decide as Hk; case_bool_decide as Hk'; simpl; naive_solver lia.
    + intros c k. rewrite lane_set, Hslot. destruct (Bool.eqb (p_lane p) c) eqn:Ec; [|simpl; lia]. apply eqb_prop in Ec. subst c. cbn [worker_active andb].
      rewrite ActiveLimit.release_count by done. fold l. case_bool_decide as Hk; case_bool_decide as Hk'; simpl; naive_solver lia.
Qed.

(** Dropping the permit of a request never underflows the counter. *)
Lemma drop_ok b rs i r p ph : bus_ok b rs -> rs !! i = Some r -> held r = Some p -> (exists a, ph = Ended true a) ->
  answered (at_phase r ph) = answered r -> refused (at_phase r ph) = refused r ->
  exists b', drop_request p b = Returned b' /\ bus_ok (task_done b') (<[i := at_phase r ph]> rs).
Proof.
  intros Hb Hr Hp [a ->] Ea Ef. destruct (release_spec b rs i r p Hb Hr Hp) as (p' & b' & E & _ & Et & Eq & L & A & W & N1 & N2 & N3 & N4).
  pose proof Hb as [B1 B2 B3 B4 B5 B6 B7 B8 B9 B10]. unfold drop_request. rewrite E, N1, B4.
  assert (Hh : holding r = 1 /\ open r = 1 /\ admitted r = 1) by (unfold holding, held, open, admitted in *; destruct (phase r); done).
  destruct Hh as (Hh & Ho & Had).
  pose proof (tally_ge holding rs i r ltac:(intros x; unfold holding; case_match; lia) Hr) as G.
  rewrite (proj2 (Z.eqb_neq _ 0)) by lia. eexists. split; [reflexivity|].
  assert (Hl : forall c, lane (set_counts (failed (state b')) (routed (state b')) (succeeded (state b')) (tally holding rs - 1) (state b')) c = lane (state b') c)
    by (by intros []).
  eapply bus_change; [exact Hb|exact Hr|..]; cbn [task_done set_tasks state tasks quotas set_state].
  - intros c. rewrite Hl. apply L.
  - intros c k. rewrite Hl, A. change (slot p_owner c k (at_phase r (Ended true a))) with 0. lia.
  - intros c k. rewrite Hl, W. change (slot p_worker c k (at_phase r (Ended true a))) with 0. lia.
  - change (holding (at_phase r (Ended true a))) with 0. rewrite B4. simpl. lia.
  - change (open (at_phase r (Ended true a))) with 0. lia.
  - change (admitted (at_phase r (Ended true a))) with 1. simpl. lia.
  - simpl. lia.
  - simpl. lia.
  - by rewrite Eq.
  - by rewrite Eq.
Qed.

(** A phase change of one request, with the lanes and the tasks untouched. *)
Lemma quota_ok b rs q : bus_ok b rs -> ByteWindow.sane (RelayQuotas.account_relay q) -> ByteWindow.sane (RelayQuotas.worker_relay q) ->
  bus_ok (set_quotas q b) rs.
Proof. intros [B1 B2 B3 B4 B5 B6 B7 B8 B9 B10] Q1 Q2. by constructor. Qed.

Lemma size_nonneg v : 0 <= size v.
Proof. apply sumZ_nonneg, Forall_fmap, Forall_forall. intros c _. simpl. unfold len_utf8. repeat case_match; lia. Qed.

(** A rejection costs one failure and gives the task up. *)
Lemma rejected_ok b rs i r o e l q : bus_ok b rs -> rs !! i = Some r -> phase r = Ready o ->
  let c := is_execution_control (command r) in
  lane_ok c l ->
  (forall k, ActiveLimit.count (account_active l) k = ActiveLimit.count (account_active (lane (state b) c)) k) ->
  (forall k, ActiveLimit.count (worker_active l) k = ActiveLimit.count (worker_active (lane (state b) c)) k) ->
  ByteWindow.sane (RelayQuotas.account_relay q) -> ByteWindow.sane (RelayQuotas.worker_relay q) ->
  let s := set_lane c l (state b) in
  bus_ok (task_done (MkBus (set_counts (failed s + 1) (routed s) (succeeded s) (active_requests s) s) q (tasks b)))
    (<[i := at_phase r (Ended false (Some (inr (Limit e))))]> rs).
Proof.
  intros Hb Hr Hp c L A W Q1 Q2 s.
  assert (Hl : forall c' f x y z, lane (set_counts f x y z s) c' = if Bool.eqb c c' then l else lane (state b) c') by (intros c' *; unfold s; by destruct c, c').
  assert (Hs : forall f c' k, slot f c' k r = 0) by (intros; unfold slot, held; by rewrite Hp).
  eapply bus_change; [exact Hb|exact Hr|..|exact Q1|exact Q2]; cbn [task_done set_tasks state tasks].
  - intros c'. rewrite Hl. destruct (Bool.eqb c c') eqn:E; [|apply (bo_lanes _ _ Hb)]. apply eqb_prop in E. by subst c'.
  - intros c' k. rewrite Hl, Hs. destruct (Bool.eqb c c') eqn:E; [apply eqb_prop in E; subst c'; rewrite A|]; cbn; lia.
  - intros c' k. rewrite Hl, Hs. destruct (Bool.eqb c c') eqn:E; [apply eqb_prop in E; subst c'; rewrite W|]; cbn; lia.
  - unfold holding, held. rewrite Hp. unfold s. destruct c; simpl; lia.
  - unfold open. rewrite Hp. simpl. lia.
  - unfold admitted. rewrite Hp. unfold s. destruct c; simpl; lia.
  - unfold answered. rewrite Hp. unfold s. destruct c; simpl; lia.
  - unfold refused. rewrite Hp. unfold s. destruct c; simpl; lia.
Qed.

(** The permit of an admission takes one slot of each limit of its lane. *)
Lemma accepted_ok b rs i r o l q : bus_ok b rs -> rs !! i = Some r -> phase r = Ready o ->
  let c := is_execution_control (command r) in
  let p := MkPermit o (identity (worker r)) c false in
  lane_ok c l ->
  (forall k, ActiveLimit.count (account_active l) k = ActiveLimit.count (account_active (lane (state b) c)) k + bit (bool_decide (o = k))) ->
  (forall k, ActiveLimit.count (worker_active l) k = ActiveLimit.count (worker_active (lane (state b) c)) k + bit (bool_decide (identity (worker r) = k))) ->
  ByteWindow.sane (RelayQuotas.account_relay q) -> ByteWindow.sane (RelayQuotas.worker_relay q) ->
  let s := set_lane c l (state b) in
  bus_ok (MkBus (set_counts (failed s) (routed s + 1) (succeeded s) (active_requests s + 1) s) q (tasks b))
    (<[i := at_phase r (Running o p None)]> rs).
Proof.
  intros Hb Hr Hp c p L A W Q1 Q2 s.
  assert (Hl : forall c' f x y z, lane (set_counts f x y z s) c' = if Bool.eqb c c' then l else lane (state b) c') by (intros c' *; unfold s; by destruct c, c').
  assert (Hs : forall f c' k, slot f c' k r = 0) by (intros; unfold slot, held; by rewrite Hp).
  assert (Hs' : forall f c' k, slot f c' k (at_phase r (Running o p None)) = bit (Bool.eqb c c' && bool_decide (f p = k))) by done.
  eapply bus_change; [exact Hb|exact Hr|..|exact Q1|exact Q2]; cbn [state tasks].
  - intros c'. rewrite Hl. destruct (Bool.eqb c c') eqn:E; [|apply (bo_lanes _ _ Hb)]. apply eqb_prop in E. by subst c'.
  - intros c' k. rewrite Hl, Hs, Hs'. destruct (Bool.eqb c c') eqn:E; [apply eqb_prop in E; subst c'; rewrite A|]; cbn; lia.
  - intros c' k. rewrite Hl, Hs, Hs'. destruct (Bool.eqb c c') eqn:E; [apply eqb_prop in E; subst c'; rewrite W|]; cbn; lia.
  - unfold holding, held. rewrite Hp. unfold s. destruct c; simpl; lia.
  - unfold open. rewrite Hp. simpl. lia.
  - unfold admitted. rewrite Hp. unfold s. destruct c; simpl; lia.
  - unfold answered. rewrite Hp. unfold s. destruct c; simpl; lia.
  - unfold refused. rewrite Hp. unfold s. destruct c; simpl; lia.
Qed.

(** What an acquire does to a lane limit, in the form the lanes need. *)
Lemma acquire_lane a key ok a' M : ActiveLimit.wf a -> 0 <= M -> ActiveLimit.limit a = M -> ActiveLimit.acquire a key = (ok, a') ->
  ActiveLimit.wf a' /\ ActiveLimit.limit a' = M /\
  (forall k, ActiveLimit.count a' k = ActiveLimit.count a k + bit (ok && bool_decide (key = k))) /\
  (ok = true -> 0 < ActiveLimit.count a' key).
Proof.
  intros Hwf HM Hl E. pose proof (ActiveLimit.count_bounds a key Hwf ltac:(lia)).
  pose proof (ActiveLimit.wf_acquire a key Hwf ltac:(lia)) as W. rewrite E in W.
  assert (C : forall k, ActiveLimit.count a' k = ActiveLimit.count a k + bit (ok && bool_decide (key = k))).
  { intros k. destruct (ActiveLimit.acquire_count a key k ok a' E) as (_ & _ & ->). f_equal. unfold bit. by rewrite (bool_decide_ext (k = key) (key = k)). }
  destruct (ActiveLimit.acquire_count a key key ok a' E) as (-> & _ & _). split_and!; [done..|].
  intros ->. rewrite C, bool_decide_eq_true_2 by done. simpl. lia.
Qed.

Ltac by_parts := constructor; cbn [account_active worker_active account_rate worker_rate]; rewrite ?RelayQuotas.limit_release; first [assumption|congruence|auto using ActiveLimit.wf_release].

(** Admission never panics, and keeps the books whichever way it goes. *)
Lemma admit_ok b rs i r o c1 c2 c3 : bus_ok b rs -> rs !! i = Some r -> phase r = Ready o ->
  exists res b', admit_command b o (worker r) (command r) c1 c2 c3 = Returned (res, b') /\
    match res with
    | inl p => bus_ok b' (<[i := at_phase r (Running o p None)]> rs)
    | inr e => bus_ok (task_done b') (<[i := at_phase r (Ended false (Some (inr (Limit e))))]> rs)
    end.
Proof.
  intros Hb Hr Hp. unfold admit_command. set (c := is_execution_control (command r)). cbn zeta.
  destruct (bo_lanes _ _ Hb c) as [L1 L2 L3 L4 L5 L6]. destruct (limit_nonneg c) as [M1 M2]. set (l := lane (state b) c) in *.
  destruct (RelayQuotas.consume_relay_safe (quotas b) o (identity (worker r)) (size (command r)) c1
    (bo_account_quota _ _ Hb) (bo_worker_quota _ _ Hb) (size_nonneg _)) as (ok & q & -> & Q1 & Q2). cbn [obind].
  destruct ok; cbn [negb]; [|eexists _, _; split; [reflexivity|]; by eapply (rejected_ok b rs i r o)].
  destruct (SlidingWindow.consume_safe (account_rate l) o c2) as (ra & ar & -> & Ear); [rewrite L5; tauto|]. cbn [obind].
  destruct (SlidingWindow.consume_safe (worker_rate l) (identity (worker r)) c3) as (rw & wr & -> & Ewr); [rewrite L6; tauto|]. cbn [obind].
  cbn [account_active worker_active].
  destruct (0 <? _); [eexists _, _; split; [reflexivity|]; eapply (rejected_ok b rs i r o); try done; by_parts|].
  destruct (ActiveLimit.acquire (account_active l) o) as [ok aa] eqn:E1.
  destruct (acquire_lane _ _ _ _ _ L1 M1 L3 E1) as (W1 & K1 & C1 & P1).
  destruct ok; cbn [negb andb] in *;
    [|eexists _, _; split; [reflexivity|]; eapply (rejected_ok b rs i r o); try done; by_parts].
  destruct (ActiveLimit.acquire (worker_active l) (identity (worker r))) as [ok wa] eqn:E2.
  destruct (acquire_lane _ _ _ _ _ L2 M2 L4 E2) as (W2 & K2 & C2 & P2).
  destruct ok; cbn [negb andb] in *; eexists _, _; (split; [reflexivity|]).
  - eapply (accepted_ok b rs i r o); try done; by_parts.
  - eapply (rejected_ok b rs i r o); try done.
    + by_parts.
    + intros k. cbn [account_active]. rewrite ActiveLimit.release_count by done. rewrite (C1 k). specialize (P1 eq_refl). unfold bit.
      destruct (decide (o = k)) as [<-|Hne].
      * rewrite !bool_decide_eq_true_2 by done. fold c l. lia.
      * rewrite !bool_decide_eq_false_2 by naive_solver. fold c l. lia.
    + intros k. cbn [worker_active]. rewrite C2. simpl. fold c. fold l. lia.
Qed.

(** An early release of the permit of a running request. *)
Lemma released_ok b rs i r o p e e' : bus_ok b rs -> rs !! i = Some r -> phase r = Running o p e ->
  exists p' b', release p b = (p', b') /\ bus_ok b' (<[i := at_phase r (Running o p' e')]> rs).
Proof.
  intros Hb Hr Hp. assert (Hh : held r = Some p) by (unfold held; by rewrite Hp).
  destruct (release_spec b rs i r p Hb Hr Hh) as (p' & b' & E & Er & Et & Eq & L & A & W & N1 & N2 & N3 & N4).
  exists p', b'. split; [done|]. assert (Hs : forall f c k, slot f c k (at_phase r (Running o p' e')) = 0) by (intros; by eapply slot_released).
  eapply bus_change; [exact Hb|exact Hr|exact L|..]; try (rewrite Eq; apply Hb).
  - intros. rewrite A, Hs. lia.
  - intros. rewrite W, Hs. lia.
  - rewrite N1. unfold holding, held. rewrite Hp. simpl. lia.
  - rewrite Et. unfold open. rewrite Hp. simpl. lia.
  - rewrite N2. unfold admitted. rewrite Hp. simpl. lia.
  - rewrite N3. unfold answered. rewrite Hp. simpl. lia.
  - rewrite N4. unfold refused. rewrite Hp. simpl. lia.
Qed.

(** Running again with the same permit. *)
Lemma running_ok b rs i r o p e e' : bus_ok b rs -> rs !! i = Some r -> phase r = Running o p e ->
  bus_ok b (<[i := at_phase r (Running o p e')]> rs).
Proof.
  intros Hb Hr Hp. apply bus_same; [done|done|..]; intros; unfold slot, holding, held, open, admitted, answered, refused; by rewrite Hp.
Qed.

Lemma on_event_ok b rs i r o p e observer handler event c : bus_ok b rs -> rs !! i = Some r -> phase r = Running o p e ->
  exists p' b' told, on_event b o (worker r) p observer handler event c = Returned (p', b', told) /\
    bus_ok b' (<[i := at_phase r (Running o p' (match told with inr limit => Some limit | inl _ => e end))]> rs).
Proof.
  intros Hb Hr Hp. unfold on_event.
  assert (H1 : exists p1 b1, (if is_admitted_event event then release p b else (p, b)) = (p1, b1) /\
    forall e', bus_ok b1 (<[i := at_phase r (Running o p1 e')]> rs)).
  { destruct (is_admitted_event event); [|exists p, b; split; [done|]; intros e'; by eapply running_ok].
    destruct (release p b) as [p1 b1] eqn:E. exists p1, b1. split; [done|]. intros e'.
    destruct (released_ok b rs i r o p e e' Hb Hr Hp) as (? & ? & E' & H1). congruence. }
  destruct H1 as (p1 & b1 & -> & Hb1).
  destruct (RelayQuotas.consume_relay_safe (quotas b1) o (identity (worker r)) (size event) c
    (bo_account_quota _ _ (Hb1 e)) (bo_worker_quota _ _ (Hb1 e)) (size_nonneg _)) as (ok & q & -> & Q1 & Q2). cbn [obind].
  destruct ok; cbn [negb]; eexists _, _, _; (split; [reflexivity|]); by apply quota_ok.
Qed.

(** Counting the answer. *)
Lemma counted_ok b rs i r o p e a : bus_ok b rs -> rs !! i = Some r -> phase r = Running o p e ->
  bus_ok (set_state (let s := state b in
    match a with
    | inl _ => set_counts (failed s) (routed s) (succeeded s + 1) (active_requests s) s
    | inr _ => set_counts (failed s + 1) (routed s) (succeeded s) (active_requests s) s
    end) b) (<[i := at_phase r (Settled p a)]> rs).
Proof.
  intros Hb Hr Hp. pose proof Hb as [B1 B2 B3 B4 B5 B6 B7 B8 B9 B10].
  eapply bus_change; [exact Hb|exact Hr|..|exact B9|exact B10];
    [| | |unfold holding, held|unfold open|unfold admitted|unfold answered|unfold refused]; rewrite ?Hp.
  - intros c. specialize (B1 c). destruct a, c; exact B1.
  - intros c k. unfold slot, held. rewrite Hp. destruct a, c; simpl; lia.
  - intros c k. unfold slot, held. rewrite Hp. destruct a, c; simpl; lia.
  - destruct a; simpl; lia.
  - destruct a; simpl; lia.
  - destruct a; simpl; lia.
  - destruct a; simpl; lia.
  - destruct a; simpl; lia.
Qed.

Lemma settle_ok b rs i r o p e delegated c : bus_ok b rs -> rs !! i = Some r -> phase r = Running o p e ->
  exists a b', settle b o (worker r) e delegated c = Returned (a, b') /\ bus_ok b' (<[i := at_phase r (Settled p a)]> rs).
Proof.
  intros Hb Hr Hp. unfold settle. destruct delegated as [value|error].
  - destruct (RelayQuotas.consume_relay_safe (quotas b) o (identity (worker r)) (default 0 (size <$> value)) c
      (bo_account_quota _ _ Hb) (bo_worker_quota _ _ Hb)) as (ok & q & -> & Q1 & Q2);
      [destruct value; simpl; [apply size_nonneg|lia]|]. cbn [obind].
    pose proof (quota_ok b rs q Hb Q1 Q2) as Hq.
    eexists _, _. split; [reflexivity|]. apply (counted_ok (set_quotas q b) rs i r o p e _ Hq Hr Hp).
  - cbn [obind]. eexists _, _. split; [reflexivity|]. by apply (counted_ok b rs i r o p e).
Qed.

(** *** Every step *)

Lemma sched_submit rs g l k c : sched rs g l -> sched (rs ++ [MkRequest k c Queued]) g (l ++ [length rs]).
Proof.
  intros [S1 S2 S3 S4].
  assert (Hold : forall i r, rs !! i = Some r -> (rs ++ [MkRequest k c Queued]) !! i = Some r) by (intros; by apply lookup_app_l_Some).
  assert (Hnew : (rs ++ [MkRequest k c Queued]) !! length rs = Some (MkRequest k c Queued)) by (by rewrite lookup_app_r, Nat.sub_diag by lia).
  assert (Hinv : forall i r, (rs ++ [MkRequest k c Queued]) !! i = Some r -> rs !! i = Some r \/ i = length rs /\ r = MkRequest k c Queued).
  { intros i r E. apply lookup_app_Some in E as [E|[Hi E]]; [by left|]. right. apply list_lookup_singleton_Some in E as [? <-]. split; [lia|done]. }
  constructor.
  - apply NoDup_app. split_and!; [done| |apply NoDup_singleton]. intros i (r & E & _)%S2 ->%list_elem_of_singleton. apply lookup_lt_Some in E. lia.
  - intros i. rewrite elem_of_app, list_elem_of_singleton, S2. split.
    + intros [(r & E & Hw)| ->]; eauto.
    + intros (r & [E|[-> ->]]%Hinv & Hw); eauto.
  - intros i (r & E & Hm)%S3. eauto.
  - intros i r [E|[-> ->]]%Hinv Ho; [by eapply S4|done].
Qed.

Lemma bus_submit b rs k c : bus_ok b rs -> bus_ok (set_tasks (tasks b + 1) b) (rs ++ [MkRequest k c Queued]).
Proof.
  intros [B1 B2 B3 B4 B5 B6 B7 B8 B9 B10]. constructor; [exact B1|..|exact B9|exact B10]; intros; rewrite tally_app; cbn; rewrite ?Z.add_0_r; try done.
  by rewrite B5.
Qed.

Lemma sched_dispatched rs g l i r : sched rs g l -> rs !! i = Some r -> owns (phase r) = false -> sched rs (unlock i g) l.
Proof.
  intros [S1 S2 S3 S4] Hr Ho. constructor; [done..| |].
  - unfold unlock. intros j Hj. case_decide; [done|]. by apply S3.
  - intros j r' E Hj. pose proof (S4 j r' E Hj) as ->. unfold unlock. rewrite decide_False; [done|]. intros [= ->]. congruence.
Qed.

Lemma sched_grant rs i l r ph : sched rs None (i :: l) -> rs !! i = Some r -> waits ph = false -> may_own ph = true ->
  sched (<[i := at_phase r ph]> rs) (Some i) l.
Proof.
  intros Hs Hr Hw Hm. pose proof (sc_line _ _ _ Hs) as [Hn Hl]%NoDup_cons.
  eapply sched_phase; [done..| | |done|done].
  - intros j. rewrite elem_of_cons, Hw. split; [|naive_solver]. intros Hj. left. split; [by intros ->|by right].
  - intros j [= <-]. by left.
Qed.

Lemma sched_requeue rs g l i r ph : sched rs g l -> rs !! i = Some r -> waits (phase r) = false -> may_own (phase r) = false ->
  waits ph = true -> owns ph = false -> sched (<[i := at_phase r ph]> rs) g (l ++ [i]).
Proof.
  intros Hs Hr Hw Hm Hw' Ho. pose proof Hs as [S1 S2 S3 _].
  assert (Hi : i ∉ l) by (intros (r' & E & ?)%S2; congruence).
  eapply sched_phase; [done..| | | |by rewrite Ho|done].
  - apply NoDup_app. split_and!; [done| |apply NoDup_singleton]. by intros j Hj ->%list_elem_of_singleton.
  - intros j. rewrite elem_of_app, list_elem_of_singleton, Hw'. split; [|naive_solver]. intros [Hj| ->]; [left|by right]. split; [by intros ->|done].
  - intros j Hj. right. split; [|done]. intros ->. destruct (S3 i Hj) as (r' & E & ?). congruence.
Qed.

(** A phase without a permit gives way to another one that the counters see the same. *)
Ltac unseen Hp := apply bus_same; [done|done|..]; intros; unfold slot, holding, held, open, admitted, answered, refused; by rewrite Hp.

(** A request that ends without having been admitted. *)
Lemma ended_ok b rs i r e : bus_ok b rs -> rs !! i = Some r -> phase r = Resolving \/ phase r = Looking ->
  bus_ok (task_done b) (<[i := at_phase r (Ended false (Some (inr (Owner e))))]> rs).
Proof.
  intros Hb Hr Hp. pose proof Hb as [B1 B2 B3 B4 B5 B6 B7 B8 B9 B10].
  eapply bus_change; [exact Hb|exact Hr|exact B1|..|exact B9|exact B10]; intros;
    unfold slot, holding, held, open, admitted, answered, refused; destruct Hp as [Hp|Hp]; rewrite Hp; simpl; lia.
Qed.

Lemma bus_step s s' : step s s' -> bus_ok (bus s) (requests s) -> bus_ok (bus s') (requests s').
Proof.
  intros Hst Hb. destruct Hst as [s k c|b rs i rest r ph Hr Hph|s i r o Hr Hp Hc|s i r o Hr Hp Hc Ho|s i r e Hr Hp Hc|s i r Hr Hp Hc|
    s i r o Hr Hp Ho|s i r e Hr Hp|s i r o c1 c2 c3 p b Hr Hp E|s i r o c1 c2 c3 e b Hr Hp E|s i r o p e Hr Hp Hk|
    s i r o p e obs h ev c p' b told Hr Hp E|s i r o p e d c a b Hr Hp Hd E|s i r p a b Hr Hp E|s i r o p e b Hr Hp E|s ow wk n c ok q Hn E];
    unfold put; cbn [bus requests] in *.
  - by apply bus_submit.
  - destruct Hph as [[Hp ->]|(o & Hp & ->)]; unseen Hp.
  - unseen Hp.
  - apply bus_remember. unseen Hp.
  - apply ended_ok; auto.
  - unseen Hp.
  - apply bus_remember. unseen Hp.
  - apply ended_ok; auto.
  - destruct (admit_ok _ _ i r o c1 c2 c3 Hb Hr Hp) as (res & b' & E' & Hok). rewrite E in E'. by injection E' as <- <-.
  - destruct (admit_ok _ _ i r o c1 c2 c3 Hb Hr Hp) as (res & b' & E' & Hok). rewrite E in E'. by injection E' as <- <-.
  - done.
  - destruct (on_event_ok _ _ i r o p e obs h ev c Hb Hr Hp) as (p1 & b1 & t1 & E' & Hok). rewrite E in E'. by injection E' as <- <- <-.
  - destruct (settle_ok _ _ i r o p e d c Hb Hr Hp) as (a' & b' & E' & Hok). rewrite E in E'. by injection E' as <- <-.
  - destruct (drop_ok _ _ i r p (Ended true (Some a)) Hb Hr) as (b' & E' & Hok); [unfold held; by rewrite Hp|eauto|unfold answered|unfold refused|rewrite E in E'; by injection E' as <-];
      rewrite Hp; by destruct a.
  - destruct (drop_ok _ _ i r p (Ended true None) Hb Hr) as (b' & E' & Hok); [unfold held; by rewrite Hp|eauto|unfold answered|unfold refused|rewrite E in E'; by injection E' as <-];
      by rewrite Hp.
  - destruct (RelayQuotas.consume_relay_safe (quotas (bus s)) ow wk n c (bo_account_quota _ _ Hb) (bo_worker_quota _ _ Hb) Hn)
      as (ok' & q' & E' & Q1 & Q2). rewrite E in E'. injection E' as <- <-. by apply quota_ok.
Qed.

Lemma sched_step s s' : step s s' -> sched (requests s) (guard s) (line s) -> sched (requests s') (guard s') (line s').
Proof.
  intros Hst Hs. destruct Hst as [s k c|b rs i rest r ph Hr Hph|s i r o Hr Hp Hc|s i r o Hr Hp Hc Ho|s i r e Hr Hp Hc|s i r Hr Hp Hc|
    s i r o Hr Hp Ho|s i r e Hr Hp|s i r o c1 c2 c3 p b Hr Hp E|s i r o c1 c2 c3 e b Hr Hp E|s i r o p e Hr Hp Hk|
    s i r o p e obs h ev c p' b told Hr Hp E|s i r o p e d c a b Hr Hp Hd E|s i r p a b Hr Hp E|s i r o p e b Hr Hp E|s ow wk n c ok q Hn E];
    unfold put; cbn [guard line requests] in *; try exact Hs.
  - by apply sched_submit.
  - destruct Hph as [[Hp ->]|(o & Hp & ->)]; by apply sched_grant.
  - eapply sched_keep; rewrite ?Hp; done.
  - eapply sched_keep; rewrite ?Hp; done.
  - eapply sched_unlock; rewrite ?Hp; done.
  - eapply sched_unlock; rewrite ?Hp; done.
  - eapply sched_requeue; rewrite ?Hp; done.
  - eapply sched_keep; rewrite ?Hp; done.
  - eapply sched_keep; rewrite ?Hp; done.
  - eapply sched_unlock; rewrite ?Hp; done.
  - eapply sched_dispatched; [done..|by rewrite Hp].
  - eapply sched_keep; rewrite ?Hp; done.
  - eapply sched_keep; rewrite ?Hp; done.
  - eapply sched_unlock; rewrite ?Hp; done.
  - eapply sched_unlock; rewrite ?Hp; done.
Qed.

Context (q0 : RelayQuotas.State).
Context (Hq0 : ByteWindow.sane (RelayQuotas.account_relay q0) /\ ByteWindow.sane (RelayQuotas.worker_relay q0)).

Lemma inv_initial : inv (initial q0 limits).
Proof.
  split; [|constructor; [constructor|..]; intros; try done].
  - constructor; try tauto; try done; try (intros []; done).
  - split; [by intros ?%elem_of_nil|]. by intros (r & ? & ?).
Qed.

Lemma bus_inv_reachable s : rtc step (initial q0 limits) s -> inv s.
Proof.
  intros Hst. generalize inv_initial. induction Hst as [|s1 s2 s3 Hstep _ IH]; [done|].
  intros [Hb Hs]. apply IH. split; [by eapply bus_step|by eapply sched_step].
Qed.

(** *** Order *)

(** Among the requests that wait for their first turn, the line is in order of
    submission, and none of them is behind one that had it. *)
Definition queued (rs : list Request) (i : nat) : Prop := exists r, rs !! i = Some r /\ phase r = Queued.
Definition ordered (s : Sys) : Prop :=
  (forall a b i j, line s !! a = Some i -> line s !! b = Some j -> (a < b)%nat -> queued (requests s) i -> queued (requests s) j -> (i < j)%nat) /\
  (forall i j, (i < j < length (requests s))%nat -> queued (requests s) i -> queued (requests s) j).

Lemma queued_put rs i r ph j : rs !! i = Some r -> ph <> Queued -> queued (<[i := at_phase r ph]> rs) j <-> j <> i /\ queued rs j.
Proof.
  intros Hr Hph. pose proof (lookup_lt_Some _ _ _ Hr). unfold queued. destruct (decide (j = i)) as [->|Hne].
  - rewrite list_lookup_insert_eq by done. split; [intros (r' & [= <-] & E); done|tauto].
  - rewrite list_lookup_insert_ne by done. naive_solver.
Qed.

Lemma queued_snoc rs k c j : queued (rs ++ [MkRequest k c Queued]) j <-> j = length rs \/ queued rs j.
Proof.
  unfold queued. split.
  - intros (r & E & Hp). apply lookup_app_Some in E as [E|[Hj E]]; [right; eauto|left]. apply list_lookup_singleton_Some in E as [? _]. lia.
  - intros [->|(r & E & Hp)]; [|exists r; by rewrite (lookup_app_l_Some _ _ _ _ E)].
    exists (MkRequest k c Queued). by rewrite lookup_app_r, Nat.sub_diag by lia.
Qed.

(** A step that leaves the queued requests and their places alone. *)
Lemma ordered_same s s' : ordered s -> length (requests s') = length (requests s) ->
  (forall j, queued (requests s') j <-> queued (requests s) j) ->
  (line s' = line s \/ exists i, line s' = line s ++ [i] /\ ~ queued (requests s) i) -> ordered s'.
Proof.
  intros [O1 O2] Hn Hq Hl. split; [|intros i j; rewrite Hn, !Hq; apply O2]. intros a b i j Ha Hb Hab Hi%Hq Hj%Hq.
  destruct Hl as [E|(x & E & Hx)]; rewrite E in Ha, Hb; [eauto|].
  apply lookup_app_Some in Ha as [Ha|[? Ha]]; [|apply list_lookup_singleton_Some in Ha as [? ->]; done].
  apply lookup_app_Some in Hb as [Hb|[? Hb]]; [eauto|]. apply list_lookup_singleton_Some in Hb as [? ->]. done.
Qed.

Lemma ordered_put s s' i r ph : ordered s -> requests s !! i = Some r -> phase r <> Queued -> ph <> Queued ->
  requests s' = <[i := at_phase r ph]> (requests s) -> line s' = line s \/ line s' = line s ++ [i] -> ordered s'.
Proof.
  intros Ho Hr Hp Hph E Hl. assert (Hi : ~ queued (requests s) i) by (intros (r' & ? & ?); congruence).
  apply (ordered_same s s' Ho).
  - rewrite E. apply length_insert.
  - intros j. rewrite E, (queued_put _ _ _ _ _ Hr Hph). split; [tauto|]. intros Hj. split; [|done]. by intros ->.
  - destruct Hl; eauto.
Qed.

(** Serving the head of the line serves the oldest queued request. *)
Lemma ordered_grant b rs i rest r ph : sched rs None (i :: rest) -> ordered (MkSys b rs None (i :: rest)) -> rs !! i = Some r -> ph <> Queued ->
  ordered (MkSys b (<[i := at_phase r ph]> rs) (Some i) rest).
Proof.
  intros Hs [O1 O2] Hr Hph. split; cbn [line requests] in *; rewrite ?length_insert.
  - intros a c x y Ha Hc Hac. rewrite !(queued_put _ _ _ _ _ Hr Hph). intros [_ Hx] [_ Hy]. apply (O1 (S a) (S c) x y); [done..|lia|done|done].
  - intros x y Hxy. rewrite !(queued_put _ _ _ _ _ Hr Hph). intros [Hne Hx]. pose proof (O2 x y Hxy Hx) as Hy. split; [|done]. intros ->.
    destruct Hx as (rx & Ex & Px). assert (Hin : x ∈ i :: rest) by (apply (sc_waits _ _ _ Hs); exists rx; by rewrite Px).
    apply elem_of_cons in Hin as [->|[k Hk]%list_elem_of_lookup]; [done|].
    assert (i < x)%nat; [|lia]. apply (O1 0%nat (S k) i x); [done|done|lia|done|by exists rx].
Qed.

Lemma ordered_submit s k c : sched (requests s) (guard s) (line s) -> ordered s ->
  ordered (MkSys (set_tasks (tasks (bus s) + 1) (bus s)) (requests s ++ [MkRequest k c Queued]) (guard s) (line s ++ [length (requests s)])).
Proof.
  intros Hs [O1 O2]. split; cbn [line requests].
  - intros a b i j Ha Hb Hab. rewrite !queued_snoc. intros Hi Hj.
    assert (Hlt : forall x y, line s !! x = Some y -> (y < length (requests s))%nat).
    { intros x y E%list_elem_of_lookup_2. apply (sc_waits _ _ _ Hs) in E as (r & E & _). by apply lookup_lt_Some in E. }
    apply lookup_app_Some in Ha as [Ha|[? Ha]]; apply lookup_app_Some in Hb as [Hb|[? Hb]];
      repeat match goal with E : [_] !! _ = Some _ |- _ => apply list_lookup_singleton_Some in E as [? <-] end.
    + pose proof (Hlt _ _ Ha). pose proof (Hlt _ _ Hb). destruct Hi as [->|Hi]; [lia|]. destruct Hj as [->|Hj]; [lia|]. eauto.
    + by eapply Hlt.
    + apply lookup_lt_Some in Hb. lia.
    + lia.
  - intros i j. rewrite length_app, !queued_snoc. simpl. intros Hij [->|Hi]; [lia|].
    destruct (decide (j = length (requests s))) as [->|]; [by left|right]. apply (O2 i j); [lia|done].
Qed.

Lemma ordered_step s s' : step s s' -> sched (requests s) (guard s) (line s) -> ordered s -> ordered s'.
Proof.
  intros Hst Hs Ho. destruct Hst as [s k c|b rs i rest r ph Hr Hph|s i r o Hr Hp Hc|s i r o Hr Hp Hc Hne|s i r e Hr Hp Hc|s i r Hr Hp Hc|
    s i r o Hr Hp Hne|s i r e Hr Hp|s i r o c1 c2 c3 p b Hr Hp E|s i r o c1 c2 c3 e b Hr Hp E|s i r o p e Hr Hp Hk|
    s i r o p e obs h ev c p' b told Hr Hp E|s i r o p e d c a b Hr Hp Hd E|s i r p a b Hr Hp E|s i r o p e b Hr Hp E|s ow wk n c ok q Hn E];
    try exact Ho; try (eapply (ordered_put s); [exact Ho|exact Hr|by rewrite Hp| |reflexivity|by auto]; done).
  - by apply ordered_submit.
  - destruct Hph as [[Hp ->]|(o & Hp & ->)]; by apply ordered_grant.
Qed.

Lemma ordered_reachable s : rtc step (initial q0 limits) s -> ordered s.
Proof.
  intros Hst. assert (Hi : inv (initial q0 limits) /\ ordered (initial q0 limits)) by (split; [apply inv_initial|split; simpl; intros; [done|lia]]).
  revert Hi. induction Hst as [|s1 s2 s3 Hstep _ IH]; [tauto|].
  intros [[Hb Hs] Ho]. apply IH. split; [split|]; [by eapply bus_step|by eapply sched_step|by eapply ordered_step].
Qed.

(** *** Draining *)

(** How far a request is from its end. *)
Definition distance (r : Request) : Z :=
  match phase r with
  | Queued => 7 | Resolving => 6 | Looking => 5 | Relocking _ => 4 | Ready _ => 3 | Running _ _ _ => 2 | Settled _ _ => 1 | Ended _ _ => 0
  end.
Definition closer (s s' : Sys) : Prop :=
  step s s' /\ tally distance (requests s') < tally distance (requests s) /\ length (requests s') = length (requests s).

Lemma closer_put s i r ph b g l : requests s !! i = Some r -> distance (at_phase r ph) < distance r ->
  step s (MkSys b (put i r ph s) g l) -> exists s', closer s s'.
Proof.
  intros Hr Hd Hst. exists (MkSys b (put i r ph s) g l). split; [done|]. unfold put. cbn [requests].
  rewrite (tally_insert _ _ _ _ _ Hr), length_insert. split; [lia|done].
Qed.

(** A request that is past the lock, or holds it, or looks its owner up, can go on by itself. *)
Lemma goes_on s i r : inv s -> requests s !! i = Some r -> waits (phase r) = false -> open r = 1 -> exists s', closer s s'.
Proof.
  intros [Hb _] Hr Hw Hop. destruct (phase r) as [| | |o|o|o p e|p a|adm a] eqn:Hp; try done; unfold open in Hop; rewrite Hp in Hop; try done.
  - destruct (cached (bus s) (worker r)) as [o|] eqn:E.
    + eapply closer_put; [exact Hr| |by eapply s_cached]. unfold distance. by rewrite Hp.
    + eapply closer_put; [exact Hr| |by eapply s_look]. unfold distance. by rewrite Hp.
  - eapply closer_put; [exact Hr| |by eapply (s_resolved s i r "owner")]. unfold distance. by rewrite Hp.
  - destruct (admit_ok _ _ i r o 0 0 0 Hb Hr Hp) as ([p|e] & b' & E & _).
    + eapply closer_put; [exact Hr| |by eapply s_admitted]. unfold distance. by rewrite Hp.
    + eapply closer_put; [exact Hr| |by eapply s_rejected]. unfold distance. by rewrite Hp.
  - destruct (settle_ok _ _ i r o p e (inr (offline (worker r))) 0 Hb Hr Hp) as (a & b' & E & _).
    eapply closer_put; [exact Hr| |by eapply s_settled]. unfold distance. by rewrite Hp.
  - destruct (drop_ok _ _ i r p (Ended true (Some a)) Hb Hr) as (b' & E & _); [unfold held; by rewrite Hp|eauto|unfold answered|unfold refused|];
      [rewrite Hp; by destruct a..|].
    eapply closer_put; [exact Hr| |by eapply s_dropped]. unfold distance. by rewrite Hp.
Qed.

Lemma open_bit r : open r = 0 \/ open r = 1.
Proof. unfold open. case_match; auto. Qed.

(** While a task is left, some request can get closer to its end. *)
Lemma progress s : inv s -> tally open (requests s) <> 0 -> exists s', closer s s'.
Proof.
  intros Hi Hn. pose proof Hi as [_ [S1 S2 S3 S4]]. destruct (guard s) as [i|] eqn:Eg.
  { destruct (S3 i eq_refl) as (r & Hr & Hm). eapply (goes_on s i r Hi Hr); unfold open; by destruct (phase r). }
  destruct s as [b rs g l]. cbn [bus requests guard line] in *. subst g. destruct l as [|i l].
  - destruct (decide (Exists (fun r => open r = 1) rs)) as [He|He].
    + apply Exists_exists in He as (r & [i Hr]%list_elem_of_lookup & Ho). eapply (goes_on _ i r Hi Hr); [|done].
      destruct (waits (phase r)) eqn:Ew; [|done]. exfalso. assert (i ∈ []) as ?%elem_of_nil; [apply S2; eauto|done].
    + exfalso. apply Hn. apply tally_none. intros r Hr. destruct (open_bit r); [done|]. exfalso. apply He, Exists_exists. eauto.
  - assert (i ∈ i :: l) as (r & Hr & Hw)%S2 by left. destruct (phase r) eqn:Hp; try done.
    + exists (MkSys b (<[i := at_phase r Resolving]> rs) (Some i) l). split; [eapply s_grant; [done|by left]|].
      cbn [requests]. rewrite (tally_insert _ _ _ _ _ Hr), length_insert. unfold distance at 2 3. rewrite Hp. simpl. split; [lia|done].
    + exists (MkSys b (<[i := at_phase r (Ready owner)]> rs) (Some i) l). split; [eapply s_grant; [done|right; eauto]|].
      cbn [requests]. rewrite (tally_insert _ _ _ _ _ Hr), length_insert. unfold distance at 2 3. rewrite Hp. simpl. split; [lia|done].
Qed.

Lemma drains n : forall s, inv s -> tally distance (requests s) <= Z.of_nat n ->
  exists s', rtc step s s' /\ tasks (bus s') = 0 /\ length (requests s') = length (requests s).
Proof.
  assert (Hd : forall r, 0 <= distance r) by (intros r; unfold distance; case_match; lia).
  induction n as [|n IH]; intros s Hi Hn; destruct (Z.eq_dec (tally open (requests s)) 0) as [E|E];
    try (exists s; split_and!; [reflexivity|by rewrite (bo_tasks _ _ (proj1 Hi))|done]);
    destruct (progress s Hi E) as (s1 & Hst & Hlt & Hlen).
  - pose proof (tally_nonneg distance (requests s1) Hd). lia.
  - destruct (IH s1) as (s' & ? & ? & ?); [split; [eapply bus_step|eapply sched_step]; first [done|apply Hi]|lia|].
    exists s'. split_and!; [by eapply rtc_l|done|congruence].
Qed.

(** *** The properties *)

(** The slots a lane has for an account, and for a worker. *)
Definition account_slots (c : bool) : Z := ActiveLimit.limit (account_active (new_lane limits c)).
Definition worker_slots (c : bool) : Z := ActiveLimit.limit (worker_active (new_lane limits c)).

(** C23: however requests interleave, the slots taken in each lane are exactly
    those of the admitted commands that have not released their permit, never
    more than the lane has for that account or worker; the active, routed,
    succeeded and failed counters and the task count are exact too. *)
Theorem bus_accounting (s : Sys) : rtc step (initial q0 limits) s ->
  (forall c k, let n := ActiveLimit.count (account_active (lane (state (bus s)) c)) k in n = tally (slot p_owner c k) (requests s) /\ n <= account_slots c) /\
  (forall c k, let n := ActiveLimit.count (worker_active (lane (state (bus s)) c)) k in n = tally (slot p_worker c k) (requests s) /\ n <= worker_slots c) /\
  active_requests (state (bus s)) = tally holding (requests s) /\ tasks (bus s) = tally open (requests s) /\
  routed (state (bus s)) = tally admitted (requests s) /\ succeeded (state (bus s)) = tally answered (requests s) /\
  failed (state (bus s)) = tally refused (requests s).
Proof.
  intros [[B1 B2 B3 B4 B5 B6 B7 B8 _ _] _]%bus_inv_reachable. split_and!; try done; intros c k.
  - destruct (B1 c) as [W _ L _ _ _], (limit_nonneg c). pose proof (ActiveLimit.count_bounds _ k W ltac:(lia)). unfold account_slots. cbn zeta. split; [apply B2|lia].
  - destruct (B1 c) as [_ W _ L _ _], (limit_nonneg c). pose proof (ActiveLimit.count_bounds _ k W ltac:(lia)). unfold worker_slots. cbn zeta. split; [apply B3|lia].
Qed.

(** When [drained] lets its caller go, nothing is left behind: every request
    has ended, no slot is taken, no request is active, and the dispatch lock is
    free with nobody waiting for it. *)
Theorem drained_bus_idle (s : Sys) : rtc step (initial q0 limits) s -> is_drained s = true ->
  (forall r, r ∈ requests s -> exists was_admitted a, phase r = Ended was_admitted a) /\
  (forall c k, ActiveLimit.count (account_active (lane (state (bus s)) c)) k = 0 /\ ActiveLimit.count (worker_active (lane (state (bus s)) c)) k = 0) /\
  active_requests (state (bus s)) = 0 /\ guard s = None /\ line s = [].
Proof.
  intros [[B1 B2 B3 B4 B5 B6 B7 B8 _ _] [S1 S2 S3 S4]]%bus_inv_reachable Hd. unfold is_drained in Hd. reflect_bools. rewrite B5 in Hd.
  assert (Hend : forall r, r ∈ requests s -> exists was_admitted a, phase r = Ended was_admitted a).
  { intros r Hr. pose proof (tally_zero open _ ltac:(intros x; destruct (open_bit x); lia) Hd r Hr) as Ho.
    unfold open in Ho. destruct (phase r); try done. eauto. }
  assert (Hheld : forall r, r ∈ requests s -> held r = None) by (intros r (x & a & E)%Hend; unfold held; by rewrite E).
  split; [done|]. split_and!.
  - intros c k. rewrite B2, B3. split; apply tally_none; intros r Hr; unfold slot; by rewrite (Hheld r Hr).
  - rewrite B4. apply tally_none. intros r Hr. unfold holding. by rewrite (Hheld r Hr).
  - destruct (guard s) as [i|] eqn:E; [|done]. destruct (S3 i eq_refl) as (r & Hr & Hm).
    destruct (Hend r (list_elem_of_lookup_2 _ _ _ Hr)) as (? & ? & E'). by rewrite E' in Hm.
  - destruct (line s) as [|i l] eqn:E; [done|]. assert (i ∈ i :: l) as (r & Hr & Hw)%S2 by left.
    destruct (Hend r (list_elem_of_lookup_2 _ _ _ Hr)) as (? & ? & E'). by rewrite E' in Hw.
Qed.

(** No command overtakes another on its way to the dispatch lock, and at
    most one holds the lock to be resolved or admitted: as long as a request
    waits for its first turn, every later one waits too. *)
Theorem dispatch_in_order (s : Sys) : rtc step (initial q0 limits) s ->
  (forall i j ri rj, (i < j)%nat -> requests s !! i = Some ri -> requests s !! j = Some rj -> phase ri = Queued -> phase rj = Queued) /\
  (forall i j ri rj, requests s !! i = Some ri -> requests s !! j = Some rj -> owns (phase ri) = true -> owns (phase rj) = true -> i = j).
Proof.
  intros Hst. destruct (bus_inv_reachable s Hst) as [_ [_ _ _ S4]], (ordered_reachable s Hst) as [_ O2]. split.
  - intros i j ri rj Hij Hi Hj Hp. destruct (O2 i j) as (r & E & ?); [split; [done|by eapply lookup_lt_Some]|by exists ri|]. congruence.
  - intros i j ri rj Hi Hj Oi Oj. pose proof (S4 i ri Hi Oi). pose proof (S4 j rj Hj Oj). congruence.
Qed.

(** C25: the bus cannot wedge: from every state it gets into, the requests it has
    can all run to their end, after which [drained] returns. *)
Theorem bus_can_drain (s : Sys) : rtc step (initial q0 limits) s ->
  exists s', rtc step s s' /\ is_drained s' = true /\ length (requests s') = length (requests s).
Proof.
  intros Hi%bus_inv_reachable. destruct (drains (Z.to_nat (tally distance (requests s))) s Hi) as (s' & ? & E & ?); [lia|].
  exists s'. unfold is_drained. by rewrite E.
Qed.

(** C24: a command is admitted exactly when the relay quota has room for it, both
    rates do, and fewer commands of its account and of its worker hold slots of
    its own lane than the lane has; every refusal carries its own error, and
    the other lane is neither looked at nor touched. *)
Theorem admission_decision (s : Sys) (i : nat) (r : Request) (o : string) (c1 c2 c3 : Z) :
  rtc step (initial q0 limits) s -> requests s !! i = Some r -> phase r = Ready o ->
  let c := is_execution_control (command r) in
  let l := lane (state (bus s)) c in
  let k := identity (worker r) in
  exists ok q account ar worker_retry wr res b',
    RelayQuotas.consume_relay_at (quotas (bus s)) o k (size (command r)) c1 = Returned (ok, q) /\
    SlidingWindow.consume (account_rate l) o c2 = Returned (account, ar) /\
    SlidingWindow.consume (worker_rate l) k c3 = Returned (worker_retry, wr) /\
    admit_command (bus s) o (worker r) (command r) c1 c2 c3 = Returned (res, b') /\
    lane (state b') (negb c) = lane (state (bus s)) (negb c) /\
    let retry := Z.max (default 0 account) (default 0 worker_retry) in
    let refuse message seconds := inr (RelayQuotas.before_dispatch (RelayQuotas.new_error message seconds)) in
    res = if negb ok then refuse "Relay bandwidth quota reached. Retry later." 1
      else if 0 <? retry then refuse "Worker command rate limit reached. Retry shortly." retry
      else if account_slots c <=? tally (slot p_owner c o) (requests s) then refuse "Account worker-command concurrency limit reached." 1
      else if worker_slots c <=? tally (slot p_worker c k) (requests s) then refuse "Worker command concurrency limit reached." 1
      else inl (MkPermit o k c false).
Proof.
  intros [Hb _]%bus_inv_reachable Hr Hp c l k. destruct (bo_lanes _ _ Hb c) as [L1 L2 L3 L4 L5 L6]. fold l in L1, L2, L3, L4, L5, L6.
  destruct (RelayQuotas.consume_relay_safe (quotas (bus s)) o k (size (command r)) c1
    (bo_account_quota _ _ Hb) (bo_worker_quota _ _ Hb) (size_nonneg _)) as (ok & q & Eq & _).
  destruct (SlidingWindow.consume_safe (account_rate l) o c2) as (ra & ar & Ea & _); [rewrite L5; tauto|].
  destruct (SlidingWindow.consume_safe (worker_rate l) k c3) as (rw & wr & Ew & _); [rewrite L6; tauto|].
  exists ok, q, ra, ar, rw, wr. unfold admit_command. fold c l k. rewrite Eq, Ea, Ew. cbn [obind]. cbn [account_active worker_active].
  unfold ActiveLimit.acquire. rewrite L3, L4. unfold l at 3 4. fold (account_slots c) (worker_slots c).
  rewrite <- (bo_accounts _ _ Hb), <- (bo_workers _ _ Hb). fold l.
  cbn zeta. destruct ok; [destruct (0 <? _); [|destruct (account_slots c <=? _); [|destruct (worker_slots c <=? _)]]|]; cbn [negb]; eexists _, _; split_and!; try reflexivity; by destruct c.
Qed.

End invariant.
End bus.

(** ** A run

    One account with one slot: a control command is admitted, answered and
    dropped, while an ordinary one waits behind it. *)
Module Sample.
#[local] Existing Instance WireRead.Sample.numbers.

Definition limits : CommandLimits := MkLimits 1 60 1 60.
Definition quotas : RelayQuotas.State := RelayQuotas.with_limits 1000 1000 1000 1000 4 4.
Definition key : WorkerKey := MkKey "w" (String_ (lit "w")).
Definition command (t : string) : Value := Object [(lit "type", String_ (lit t))].
Definition offline (_ : WorkerKey) : unit := tt.
Abbreviation sys := (Sys (BridgeError := unit) (OwnerError := unit)).
Abbreviation go := (step (OwnerError := unit) offline).

Definition first (ph : Phase) : Request (BridgeError := unit) (OwnerError := unit) := MkRequest key (command "chat.interrupt") ph.
Definition second : Request (BridgeError := unit) (OwnerError := unit) := MkRequest key (command "chat.send") Queued.

Definition b0 : Bus := with_parts quotas limits.
Definition b2 : Bus := set_tasks 2 b0.
Definition b3 : Bus := remember key "o" b2.
Definition admission := admit_command b3 "o" key (command "chat.interrupt") 0 0 0.
Definition p4 : Permit := match admission with Returned (inl p, _) => p | _ => MkPermit "" "" false false end.
Definition b4 : Bus := match admission with Returned (_, b) => b | _ => b3 end.

Definition start : sys := initial quotas limits.
Definition s1 : sys := MkSys (set_tasks 1 b0) [first Queued] None [0%nat].
Definition s2 : sys := MkSys b2 [first Queued; second] None [0%nat; 1%nat].
Definition s3 : sys := MkSys b2 [first Resolving; second] (Some 0%nat) [1%nat].
Definition ready : sys := MkSys b3 [first (Ready "o"); second] (Some 0%nat) [1%nat].
Definition running : sys := MkSys b4 [first (Running "o" p4 None); second] (Some 0%nat) [1%nat].

Lemma to_ready : rtc go start ready.
Proof.
  eapply rtc_l; [exact (s_submit offline start key (command "chat.interrupt"))|].
  eapply (rtc_l _ s1 s2); [exact (s_submit offline s1 key (command "chat.send"))|].
  eapply (rtc_l _ s2 s3); [unfold s2, s3; change [first Resolving; second] with (<[0%nat := at_phase (first Queued) Resolving]> [first Queued; second]);
    apply s_grant; [reflexivity|left; split; reflexivity]|].
  eapply rtc_l; [|apply rtc_refl]. apply (s_resolved_now offline s3 0 (first Resolving) "o"); [reflexivity..|discriminate].
Qed.

Lemma admitted_now : admit_command (bus ready) "o" (worker (first (Ready "o"))) (CommandBus.command (first (Ready "o"))) 0 0 0 = Returned (inl p4, b4).
Proof. vm_compute. reflexivity. Qed.

Lemma to_running : rtc go start running.
Proof.
  eapply rtc_r; [exact to_ready|].
  exact (s_admitted offline ready 0 (first (Ready "o")) "o" 0 0 0 p4 b4 eq_refl eq_refl admitted_now).
Qed.

Lemma limits_ok : 0 <= account_concurrency limits /\ 0 <= worker_concurrency limits /\
  0 < account_rate_per_minute limits /\ 0 < worker_rate_per_minute limits.
Proof. vm_compute. repeat split; discriminate. Qed.

Lemma quotas_ok : ByteWindow.sane (RelayQuotas.account_relay quotas) /\ ByteWindow.sane (RelayQuotas.worker_relay quotas).
Proof. split; apply ByteWindow.sane_new; vm_compute; split; discriminate. Qed.

(** The one control slot of the account is taken, the ordinary one is not. *)
Lemma bus_accounting_witness :
  ActiveLimit.count (account_active (lane (state (bus running)) true)) "o" = 1 /\
  ActiveLimit.count (account_active (lane (state (bus running)) false)) "o" = 0 /\
  account_slots limits true = 1 /\ active_requests (state (bus running)) = tally holding (requests running).
Proof.
  destruct (bus_accounting offline limits limits_ok quotas quotas_ok running to_running) as (H1 & _ & H2 & _).
  split_and!; [vm_compute; reflexivity..|exact H2].
Defined.

(** A command whose owner lookup fails at once leaves an idle bus behind. *)
Definition asked : sys := MkSys (set_tasks 1 b0) [first Resolving] (Some 0%nat) [].
Definition gone : sys := MkSys (task_done (set_tasks 1 b0)) [first (Ended false (Some (inr (Owner tt))))] None [].

Lemma to_gone : rtc go start gone.
Proof.
  eapply rtc_l; [exact (s_submit offline start key (command "chat.interrupt"))|].
  eapply (rtc_l _ s1 asked); [|eapply (rtc_l _ asked gone); [exact (s_refused_now offline asked 0 (first Resolving) tt eq_refl eq_refl eq_refl)|apply rtc_refl]].
  unfold s1, asked. change [first Resolving] with (<[0%nat := at_phase (first Queued) Resolving]> [first Queued]).
  apply s_grant; [reflexivity|left; split; reflexivity].
Qed.

Lemma drained_bus_idle_witness : length (requests gone) = 1%nat /\ guard gone = None /\ active_requests (state (bus gone)) = 0.
Proof.
  split; [reflexivity|].
  destruct (drained_bus_idle offline limits limits_ok quotas quotas_ok gone to_gone eq_refl) as (_ & _ & H1 & H2 & _). done.
Defined.

Lemma dispatch_in_order_witness : phase second = Queued /\ forall i, owns (phase (first (Ready "o"))) = true ->
  requests ready !! i = Some (first (Ready "o")) -> i = 0%nat.
Proof.
  destruct (dispatch_in_order offline limits limits_ok quotas quotas_ok ready to_ready) as [_ H1].
  split; [done|]. intros i Ho Hi. by eapply (H1 i 0%nat).
Defined.

Lemma bus_can_drain_witness : is_drained running = false /\ exists s', rtc go running s' /\ is_drained s' = true.
Proof.
  split; [vm_compute; reflexivity|].
  destruct (bus_can_drain offline limits limits_ok quotas quotas_ok running to_running) as (s' & H1 & H2 & _). eauto.
Defined.

(** A control command gets through when the ordinary slot of its account is taken. *)
Lemma admission_decision_witness : exists b, admit_command (bus ready) "o" key (command "chat.interrupt") 0 0 0 = Returned (inl (MkPermit "o" "w" true false), b).
Proof.
  destruct (admission_decision offline limits limits_ok quotas quotas_ok ready 0 (first (Ready "o")) "o" 0 0 0 to_ready eq_refl eq_refl)
    as (ok & q & a & ar & w & wr & res & b & E1 & E2 & E3 & E4 & _ & E5).
  exists b. change (admit_command (bus ready) "o" key (command "chat.interrupt") 0 0 0 = Returned (res, b)) in E4.
  rewrite E4. vm_compute in E1, E2, E3. injection E1 as <- _. injection E2 as <- _. injection E3 as <- _. by rewrite E5.
Defined.
End Sample.
End CommandBus.
