(* ===== verification/LiveHub.v ===== *)
(** * The live hub

    [LiveHub] models src/cantrip_server_rs/src/live/hub.rs with hub/protocol.rs
    and hub/control.rs: the connections of the application's live channel, their
    subscriptions, the events published to an account with the log they are
    replayed from, resumption after a reconnect, and client-control requests.

    Messages have the constructors of their schemas. What the schemas accept,
    how long a message is as text and how a frame decodes are parameters, and so
    is the socket of a connection. A connection is a reference into [heap],
    because a handler keeps it across an await after the hub has let go of it;
    a handler is cut at its awaits, and each piece is one operation. What the
    hub hands to sockets, to waiting callers and to the usage recorder is kept
    in logs ([c_sent], [completions], [usage]). *)
From S2P Require Import Prelude JsString.
From stdpp Require Import base numbers strings gmap option list.
Open Scope Z_scope.

Module LiveHub.
Import Text JsString.

(** ** Messages *)

Inductive Scope := CurrentUser | Project (project : units) | Chat (chat : units).

Definition scope_key (s : Scope) : units :=
  match s with
  | CurrentUser => lit "current-user"
  | Project u => lit "project:" ++ u
  | Chat u => lit "chat:" ++ u
  end.

Section hub.
(** The payload of an event, and of a client-control command. *)
Context {Body : Type}.

Inductive Command :=
| Notify (project : units) (content : Body)
| FocusProject (project : units)
| FocusSurface (project : units) (surface : Body)
| ShowInteraction (project chat : units) (interaction : Body).

Definition command_kind (c : Command) : string :=
  match c with
  | Notify _ _ => "notify" | FocusProject _ => "focus-project" | FocusSurface _ _ => "focus-surface"
  | ShowInteraction _ _ _ => "show-interaction"
  end.
Definition command_project (c : Command) : units :=
  match c with Notify p _ | FocusProject p | FocusSurface p _ | ShowInteraction p _ _ => p end.

Inductive ServerMessage :=
| Ready (connection : nat) (epoch : string) (cursor : Z) (heartbeat : Z) (resume : string)
| Subscribed (request : units) (scopes : list Scope) (cursor : Z)
| Unsubscribed (request : units) (scopes : list Scope) (cursor : Z)
| Event (cursor : Z) (scope : Scope) (is_usage : bool) (body : Body)
| CaughtUp (cursor : Z) (replayed : Z)
| Pong (nonce : units) (cursor : Z)
| ResyncRequired (cursor : Z) (reason : string) (scopes : list Scope)
| ControlRequest (correlation : string) (issued expires : Z) (command : Command)
| Error (request : option units) (code message : string) (retryable : bool).

Inductive ClientMessage :=
| Initialize (capabilities : list string) (resume : option (string * Z))
| Subscribe (request : units) (scopes : list Scope)
| Unsubscribe (request : units) (scopes : list Scope)
| Ping (nonce : units)
| ResyncAck (request : units) (cursor : Z) (scopes : list Scope)
| ControlAck (correlation status : string).

(** What a text frame decodes to; an off-protocol value may carry a request id. *)
Inductive Content := NotJson | OffProtocol (unsupported : bool) (request : option units) | Valid (m : ClientMessage).
Inductive Frame := TextFrame (raw : text) | BinaryFrame (size : Z).
Definition frame_len (f : Frame) : Z := match f with TextFrame raw => byte_len raw | BinaryFrame n => n end.

(** A publication: the account it is for, and the event it becomes. *)
Record Publication := MkPublication { p_owner : option string; p_scope : Scope; p_usage : bool; p_body : Body }.

(** ** State *)

Record Encoded := MkEncoded { e_message : ServerMessage; e_bytes : Z; e_notify : bool }.
Record Retained := MkRetained { r_cursor : Z; r_owner : string; r_scope : units; r_encoded : Encoded }.
Record Resume := MkResume { z_cursor : Z; z_reason : option string }.

Record Local := MkLocal {
  initialized : bool; capabilities : list string; violations : Z;
  history : list (units * ServerMessage); resume : option Resume; scopes : list (units * Scope) }.
Definition new_local : Local := MkLocal false [] 0 [] None [].

(** What a connection was sent, and where a replay started over. *)
Inductive Delivery := Sent (m : ServerMessage) | Restart (cursor : Z).

Context {Socket : Type}.

(** [c_task] is the message whose authorization the handler of the connection
    is waiting for; the transport hands it one frame at a time. *)
Record Connection := MkConnection {
  c_owner : string; c_session : option string; c_socket : Socket; c_closed : bool; c_seen : Z;
  c_local : Local; c_task : option ClientMessage; c_sent : list Delivery }.

Record Pending := MkPending { w_connection : nat; w_expires : Z }.

Inductive Counter :=
| accepted_connection_count | current_cursor | delivered_event_count | disconnected_connection_count
| heartbeat_pong_count | heartbeat_timeout_count | protocol_violation_count | publication_count
| queue_pressure_count | replay_session_count | replayed_event_count | resync_required_count
| resume_attempt_count | slow_consumer_closure_count.
#[global] Instance counter_eq : EqDecision Counter.
Proof. solve_decision. Defined.

Record Usage := MkUsage { u_owner : string; u_inbound : bool; u_bytes : Z; u_notify : bool }.

Record Hub := MkHub {
  closed : bool; connections : list nat; heap : gmap nat Connection;
  subscribers : gmap string (gmap units (list nat));
  cursors : gmap string Z; retained : list Retained; retained_bytes : Z;
  controls : list (string * Pending); stats : Counter -> Z;
  completions : list (string * string); usage : list Usage }.

Definition set_closed (x : bool) (h : Hub) := MkHub x (connections h) (heap h) (subscribers h) (cursors h) (retained h) (retained_bytes h) (controls h) (stats h) (completions h) (usage h).
Definition set_connections (x : list nat) (h : Hub) := MkHub (closed h) x (heap h) (subscribers h) (cursors h) (retained h) (retained_bytes h) (controls h) (stats h) (completions h) (usage h).
Definition set_heap (x : gmap nat Connection) (h : Hub) := MkHub (closed h) (connections h) x (subscribers h) (cursors h) (retained h) (retained_bytes h) (controls h) (stats h) (completions h) (usage h).
Definition set_subscribers (x : gmap string (gmap units (list nat))) (h : Hub) := MkHub (closed h) (connections h) (heap h) x (cursors h) (retained h) (retained_bytes h) (controls h) (stats h) (completions h) (usage h).
Definition set_cursors (x : gmap string Z) (h : Hub) := MkHub (closed h) (connections h) (heap h) (subscribers h) x (retained h) (retained_bytes h) (controls h) (stats h) (completions h) (usage h).
Definition set_retained (x : list Retained) (n : Z) (h : Hub) := MkHub (closed h) (connections h) (heap h) (subscribers h) (cursors h) x n (controls h) (stats h) (completions h) (usage h).
Definition set_controls (x : list (string * Pending)) (h : Hub) := MkHub (closed h) (connections h) (heap h) (subscribers h) (cursors h) (retained h) (retained_bytes h) x (stats h) (completions h) (usage h).
Definition set_completions (x : list (string * string)) (h : Hub) := MkHub (closed h) (connections h) (heap h) (subscribers h) (cursors h) (retained h) (retained_bytes h) (controls h) (stats h) x (usage h).
Definition add_usage (x : Usage) (h : Hub) := MkHub (closed h) (connections h) (heap h) (subscribers h) (cursors h) (retained h) (retained_bytes h) (controls h) (stats h) (completions h) (usage h ++ [x]).
Definition bump (c : Counter) (h : Hub) := MkHub (closed h) (connections h) (heap h) (subscribers h) (cursors h) (retained h) (retained_bytes h) (controls h)
  (fun d => if decide (d = c) then stats h d + 1 else stats h d) (completions h) (usage h).

Definition empty_hub : Hub := MkHub false [] ∅ ∅ ∅ [] 0 [] (fun _ => 0) [] [].

Definition set_local (l : Local) (c : Connection) := MkConnection (c_owner c) (c_session c) (c_socket c) (c_closed c) (c_seen c) l (c_task c) (c_sent c).
Definition set_socket (s : Socket) (c : Connection) := MkConnection (c_owner c) (c_session c) s (c_closed c) (c_seen c) (c_local c) (c_task c) (c_sent c).
Definition set_shut (c : Connection) := MkConnection (c_owner c) (c_session c) (c_socket c) true (c_seen c) (c_local c) (c_task c) (c_sent c).
Definition set_seen (n : Z) (c : Connection) := MkConnection (c_owner c) (c_session c) (c_socket c) (c_closed c) n (c_local c) (c_task c) (c_sent c).
Definition set_task (t : option ClientMessage) (c : Connection) := MkConnection (c_owner c) (c_session c) (c_socket c) (c_closed c) (c_seen c) (c_local c) t (c_sent c).
Definition add_sent (d : Delivery) (c : Connection) := MkConnection (c_owner c) (c_session c) (c_socket c) (c_closed c) (c_seen c) (c_local c) (c_task c) (c_sent c ++ [d]).

Definition set_scopes (x : list (units * Scope)) (l : Local) := MkLocal (initialized l) (capabilities l) (violations l) (history l) (resume l) x.
Definition set_history (x : list (units * ServerMessage)) (l : Local) := MkLocal (initialized l) (capabilities l) (violations l) x (resume l) (scopes l).
Definition set_resume (x : option Resume) (l : Local) := MkLocal (initialized l) (capabilities l) (violations l) (history l) x (scopes l).
Definition add_violation (l : Local) := MkLocal (initialized l) (capabilities l) (violations l + 1) (history l) (resume l) (scopes l).
Definition start_local (caps : list string) (l : Local) := MkLocal true caps (violations l) (history l) (resume l) (scopes l).

(** A change to one connection. *)
Definition update (id : nat) (f : Connection -> Connection) (h : Hub) : Hub := set_heap (alter f id (heap h)) h.
Definition update_local (id : nat) (f : Local -> Local) : Hub -> Hub := update id (fun c => set_local (f (c_local c)) c).

(** ** The ports *)

(** A socket: whether it is open, what it has buffered, and what sending and
    closing make of it. *)
Class Sockets := {
  is_open : Socket -> bool;
  buffered_amount : Socket -> Z;
  sock_send : ServerMessage -> Socket -> bool * Socket;
  sock_close : Z -> string -> Socket -> Socket }.
Context `{Sockets}.

(** The schemas, the length of a message as text, the decoding of a frame, and
    the time stamp that completes a publication. *)
Class Protocol := {
  accepts : ServerMessage -> bool;
  accepts_command : Command -> bool;
  byte_size : ServerMessage -> Z;
  decode_frame : text -> Content;
  stamp : Z -> Body -> option Body }.
Context `{Protocol}.

Record Options := MkOptions {
  epoch : string; heartbeat_interval_ms : Z; max_buffered_bytes : Z; max_inbound_bytes : Z;
  max_replay_events : Z; max_replay_bytes : Z; record_usage : bool }.

(** The checks of [Hub::new]. *)
Definition valid_options (o : Options) : bool :=
  (5000 <=? heartbeat_interval_ms o) && (heartbeat_interval_ms o <=? 120000) &&
  (1 <=? max_replay_events o) && (max_replay_events o <=? 10000) &&
  (1 <=? max_buffered_bytes o) && (1 <=? max_inbound_bytes o) && (1 <=? max_replay_bytes o).

Context (options : Options).

Definition record (u : Usage) (h : Hub) : Hub := if record_usage options then add_usage u h else h.
Definition cursor (h : Hub) (owner : string) : Z := default 0 (cursors h !! owner).

Definition attach (id : nat) (socket : Socket) (owner : string) (session : option string) (now : Z) (h : Hub) : option nat * Hub :=
  if closed h then (None, h)
  else (Some id,
    bump accepted_connection_count
      (set_connections (connections h ++ [id])
        (set_heap (<[id := MkConnection owner session socket false now new_local None []]> (heap h)) h))).

(** ** Subscriptions *)

Definition drop_subscriber (id : nat) (owner : string) (key : units) (m : gmap string (gmap units (list nat))) : gmap string (gmap units (list nat)) :=
  match m !! owner with
  | None => m
  | Some by_scope =>
      let by_scope :=
        match by_scope !! key with
        | None => by_scope
        | Some ids =>
            let ids := filter (fun i => i <> id) ids in
            if bool_decide (ids = []) then delete key by_scope else <[key := ids]> by_scope
        end in
      if bool_decide (by_scope = ∅) then delete owner m else <[owner := by_scope]> m
  end.

Definition remove_subscription (id : nat) (key : units) (h : Hub) : Hub :=
  match heap h !! id with
  | None => h
  | Some c =>
      if IndexMap.contains_key key (scopes (c_local c)) then
        set_subscribers (drop_subscriber id (c_owner c) key (subscribers h))
          (update_local id (fun l => set_scopes (IndexMap.shift_remove key (scopes l)) l) h)
      else h
  end.

Definition subscribers_of (h : Hub) (owner : string) (key : units) : list nat := default [] (subscribers h !! owner ≫= (.!! key)).

Definition add_subscriber (id : nat) (owner : string) (key : units) (m : gmap string (gmap units (list nat))) : gmap string (gmap units (list nat)) :=
  let by_scope := default ∅ (m !! owner) in
  let ids := default [] (by_scope !! key) in
  <[owner := <[key := if bool_decide (id ∈ ids) then ids else ids ++ [id]]> by_scope]> m.

Definition add_subscription (id : nat) (scope : Scope) (h : Hub) : Hub :=
  match heap h !! id with
  | None => h
  | Some c =>
      if c_closed c then h
      else
        let key := scope_key scope in
        let h' := update_local id (fun l => set_scopes (IndexMap.insert key scope (scopes l)) l) h in
        if IndexMap.contains_key key (scopes (c_local c)) then h'
        else set_subscribers (add_subscriber id (c_owner c) key (subscribers h)) h'
  end.

Definition local_of (h : Hub) (id : nat) : Local := default new_local (c_local <$> heap h !! id).
Definition owner_of (h : Hub) (id : nat) : string := default ""%string (c_owner <$> heap h !! id).
Definition is_closed (h : Hub) (id : nat) : bool := default true (c_closed <$> heap h !! id).
Definition keys_of (h : Hub) (id : nat) : list units := IndexMap.keys (scopes (local_of h id)).

Definition replace_subscriptions (id : nat) (wanted : list Scope) (h : Hub) : Hub :=
  if is_closed h id then h
  else
    let old := keys_of h id in
    let h := fold_left (fun h key => if bool_decide (key ∈ (scope_key <$> wanted)) then h else remove_subscription id key h) old h in
    fold_left (fun h scope => add_subscription id scope h) wanted h.

(** ** Ending connections *)

Definition settle (correlation status : string) (h : Hub) : Hub :=
  if IndexMap.contains_key correlation (controls h) then
    set_completions (completions h ++ [(correlation, status)]) (set_controls (IndexMap.shift_remove correlation (controls h)) h)
  else h.

Definition disconnect_connection (id : nat) (h : Hub) : bool * Hub :=
  if is_closed h id then (false, h)
  else
    let h := update id set_shut h in
    let h := set_connections (filter (fun i => i <> id) (connections h)) h in
    let h := fold_left (fun h key => remove_subscription id key h) (keys_of h id) h in
    let h := bump disconnected_connection_count h in
    let mine := IndexMap.keys (filter (fun p => w_connection p.2 = id) (controls h)) in
    (true, fold_left (fun h correlation => settle correlation "unavailable" h) mine h).

Definition close_connection (id : nat) (code : Z) (reason : string) (h : Hub) : Hub :=
  let '(first, h) := disconnect_connection id h in
  if first then update id (fun c => set_socket (sock_close code reason (c_socket c)) c) h else h.

Definition disconnect (id : nat) (h : Hub) : Hub :=
  if bool_decide (id ∈ connections h) then (disconnect_connection id h).2 else h.

(** ** Sending *)

Definition send_encoded (id : nat) (e : Encoded) (h : Hub) : bool * Hub :=
  match heap h !! id with
  | None => (false, h)
  | Some c =>
      if c_closed c || negb (is_open (c_socket c)) then (false, (disconnect_connection id h).2)
      else if max_buffered_bytes options <? Z.min (2 ^ 64 - 1) (buffered_amount (c_socket c) + e_bytes e) then
        (false, close_connection id 1013 "Live queue overflow; reconnect and resync"
                  (bump slow_consumer_closure_count (bump queue_pressure_count h)))
      else
        let '(ok, socket) := sock_send (e_message e) (c_socket c) in
        let h := update id (set_socket socket) h in
        if ok : bool then (true, record (MkUsage (c_owner c) false (e_bytes e) (e_notify e)) (update id (add_sent (Sent (e_message e))) h))
        else (false, close_connection id 1011 "Live send failed" h)
  end.

(** Operations that may fail: [None] is the error, the state is kept. *)
Definition M (A : Type) : Type := Hub -> option A * Hub.
Definition ret {A} (x : A) : M A := fun h => (Some x, h).
Definition bind {A B} (m : M A) (k : A -> M B) : M B :=
  fun h => let '(r, h) := m h in match r with Some x => k x h | None => (None, h) end.
Definition modify (f : Hub -> Hub) : M unit := fun h => (Some tt, f h).
Definition gets {A} (f : Hub -> A) : M A := fun h => (Some (f h), h).

Definition send (id : nat) (m : ServerMessage) : M bool :=
  fun h => if accepts m then let '(ok, h) := send_encoded id (MkEncoded m (byte_size m) true) h in (Some ok, h) else (None, h).

Definition then_ {A B} (m : M A) (k : M B) : M B := bind m (fun _ => k).

Definition violation (id : nat) (request : option units) (code message : string) : M unit :=
  then_ (modify (fun h => bump protocol_violation_count (update_local id add_violation h)))
  (then_ (send id (Error request code message false))
    (modify (fun h => if 5 <=? violations (local_of h id) then close_connection id 1008 "Too many live protocol errors" h else h))).

Definition remember (id : nat) (request : units) (m : ServerMessage) : Hub -> Hub :=
  update_local id (fun l =>
    let x := IndexMap.insert request m (history l) in
    set_history (if 256 <? len x then drop 1 x else x) l).

Definition request_of (m : ServerMessage) : option units :=
  match m with Subscribed r _ _ | Unsubscribed r _ _ => Some r | Error r _ _ _ => r | _ => None end.

Definition remember_send (id : nat) (m : ServerMessage) : M bool :=
  then_ (modify (match request_of m with Some r => remember id r m | None => fun h => h end)) (send id m).

Definition remember_error (id : nat) (request : units) (code message : string) : M unit :=
  then_ (remember_send id (Error (Some request) code message false)) (ret tt).

(** ** Resuming *)

Definition resume_reason (h : Hub) (owner ep : string) (at_ : Z) : option string :=
  if bool_decide (ep = epoch options) then
    let current := cursor h owner in
    let oldest := r_cursor <$> head (filter (fun e => r_owner e = owner) (retained h)) in
    if (current <? at_)
       || match oldest with Some first => at_ <? Z.max 0 (first - 1) | None => false end
       || (match oldest with Some _ => false | None => true end && negb (at_ =? current))
    then Some "cursor-expired"%string else None
  else Some "server-epoch-changed"%string.

Definition resync (id : nat) (m : ServerMessage) : M bool := then_ (modify (bump resync_required_count)) (send id m).

(** The events a replay hands over. *)
Definition missed (h : Hub) (id : nat) (at_ : Z) : list Encoded :=
  r_encoded <$> filter (fun e => r_owner e = owner_of h id /\ at_ < r_cursor e /\ r_scope e ∈ keys_of h id) (retained h).

(** Sends one after the other until one is refused. *)
Fixpoint send_all (id : nat) (events : list Encoded) (h : Hub) : bool * Hub :=
  match events with
  | [] => (true, h)
  | e :: events =>
      let '(ok, h) := send_encoded id e h in
      if ok then send_all id events (bump delivered_event_count (bump replayed_event_count h)) else (false, h)
  end.

Definition replay (id : nat) (at_ : Z) : M unit := fun h =>
  let h := update id (add_sent (Restart at_)) (bump replay_session_count (update_local id (set_resume None) h)) in
  let events := missed h id at_ in
  let '(ok, h) := send_all id events h in
  if ok : bool then then_ (send id (CaughtUp (cursor h (owner_of h id)) (len events))) (ret tt) h else (Some tt, h).

Definition scopes_of (h : Hub) (id : nat) : list Scope := IndexMap.values (scopes (local_of h id)).

Definition finish_resume (id : nat) : M unit := fun h =>
  match resume (local_of h id) with
  | None => (Some tt, h)
  | Some z =>
      match z_reason z with
      | Some reason => then_ (resync id (ResyncRequired (cursor h (owner_of h id)) reason (scopes_of h id))) (ret tt) h
      | None => replay id (z_cursor z) h
      end
  end.

(** ** Publishing *)

Fixpoint trim (l : list Retained) (bytes : Z) : list Retained * Z :=
  match l with
  | [] => ([], bytes)
  | r :: rest =>
      if (max_replay_events options <? len l) || (max_replay_bytes options <? bytes) then trim rest (bytes - e_bytes (r_encoded r))
      else (l, bytes)
  end.

Definition eligible (h : Hub) (id : nat) : bool :=
  initialized (local_of h id) && match resume (local_of h id) with None => true | Some _ => false end.

Definition deliver (e : Encoded) (h : Hub) (id : nat) : Hub :=
  if eligible h id then let '(ok, h) := send_encoded id e h in if ok : bool then bump delivered_event_count h else h else h.

Definition retain (r : Retained) (h : Hub) : Hub :=
  let '(l, n) := trim (retained h ++ [r]) (retained_bytes h + e_bytes (r_encoded r)) in set_retained l n h.

(** The event of a publication, as it is retained. *)
Definition event_of (p : Publication) (owner : string) (at_ : Z) (body : Body) : Retained :=
  let m := Event at_ (p_scope p) (p_usage p) body in
  MkRetained at_ owner (scope_key (p_scope p)) (MkEncoded m (byte_size m) (negb (p_usage p))).

Definition publication (now : Z) (p : Publication) : M Retained := fun h =>
  match p_owner p with
  | None => (None, h)
  | Some owner =>
      if closed h then (None, h)
      else
        let at_ := cursor h owner + 1 in
        match stamp now (p_body p) with
        | None => (None, h)
        | Some body =>
            let r := event_of p owner at_ body in
            if accepts (e_message (r_encoded r)) then
              let h := bump publication_count (bump current_cursor (set_cursors (<[owner := at_]> (cursors h)) h)) in
              let h := retain r h in
              (Some r, fold_left (deliver (r_encoded r)) (subscribers_of h owner (r_scope r)) h)
            else (None, h)
        end
  end.

(** A group is published under one lock, up to its first failure. *)
Fixpoint publish_group (now : Z) (ps : list Publication) : M (list Retained) :=
  match ps with
  | [] => ret []
  | p :: ps => bind (publication now p) (fun r => bind (publish_group now ps) (fun rs => ret (r :: rs)))
  end.

(** ** Ending *)

Definition revoke (matches : Connection -> bool) (reason : string) (h : Hub) : Z * Hub :=
  let ids := filter (fun id => from_option matches false (heap h !! id) = true) (connections h) in
  (len ids, fold_left (fun h id => close_connection id 1008 reason h) ids h).
Definition revoke_owner (owner : string) : Hub -> Z * Hub :=
  revoke (fun c => bool_decide (c_owner c = owner)) "Account sessions were revoked".
Definition revoke_optional_session (session : option string) : Hub -> Z * Hub :=
  revoke (fun c => bool_decide (c_session c = session)) "Session was revoked".

(** What [maintain] does to a connection of its snapshot, after its check. *)
Definition maintain (id : nat) (now : Z) (active : bool) (h : Hub) : Hub :=
  if from_option c_seen 0 (heap h !! id) <? now - heartbeat_interval_ms options * 3 then
    close_connection id 1001 "Live heartbeat timed out" (bump heartbeat_timeout_count h)
  else if active then h else close_connection id 1008 "Session is no longer active" h.

Definition close (h : Hub) : Hub :=
  if closed h then h
  else
    let h := set_closed true h in
    let h := fold_left (fun h correlation => settle correlation "unavailable" h) (IndexMap.keys (controls h)) h in
    fold_left (fun h id => close_connection id 1001 "Live service is shutting down" h) (connections h) h.

(** ** Frames

    [handle_frame] runs from the check that the session is active to the
    authorization of scopes, which it leaves as the task of the connection;
    [continue_] goes on from there. *)

Definition request_id (r : option units) : option units :=
  u ← r; if bool_decide (u = []) || (200 <? len u) then None else Some u.

Definition await (id : nat) (m : ClientMessage) : M unit := modify (update id (set_task (Some m))).

Definition initialize (id : nat) (caps : list string) (from : option (string * Z)) : M unit := fun h =>
  if initialized (local_of h id) then
    violation id None "already-initialized" "The application live connection is already initialized." h
  else
    let h := update_local id (start_local caps) h in
    let '(mode, h) :=
      match from with
      | None => ("not-requested"%string, h)
      | Some (ep, at_) =>
          let h := bump resume_attempt_count h in
          let reason := resume_reason h (owner_of h id) ep at_ in
          (match reason with Some _ => "resync-required"%string | None => "replaying"%string end, update_local id (set_resume (Some (MkResume at_ reason))) h)
      end in
    then_ (send id (Ready id (epoch options) (cursor h (owner_of h id)) (heartbeat_interval_ms options) mode)) (ret tt) h.

Definition acknowledge (id : nat) (correlation status : string) (now : Z) (h : Hub) : Hub :=
  match IndexMap.get correlation (controls h) with
  | Some w =>
      if bool_decide (w_connection w = id) then settle correlation (if w_expires w <=? now then "expired" else status) h else h
  | None => h
  end.

Definition message_request (m : ClientMessage) : option units :=
  match m with Subscribe r _ | Unsubscribe r _ | ResyncAck r _ _ => Some r | _ => None end.

(** A request that was answered before gets the same answer again. *)
Definition once (id : nat) (request : units) (k : M unit) : M unit := fun h =>
  match IndexMap.get request (history (local_of h id)) with
  | Some previous => then_ (send id previous) (ret tt) h
  | None => k h
  end.

Definition message (id : nat) (m : ClientMessage) (now : Z) : M unit := fun h =>
  match m with
  | Initialize caps from => initialize id caps from h
  | _ =>
      if initialized (local_of h id) then
        match m with
        | Initialize _ _ => (Some tt, h)
        | Ping nonce =>
            let h := bump heartbeat_pong_count h in then_ (send id (Pong nonce (cursor h (owner_of h id)))) (ret tt) h
        | ControlAck correlation status => (Some tt, acknowledge id correlation status now h)
        | Unsubscribe request wanted =>
            once id request (fun h =>
              let h := fold_left (fun h scope => remove_subscription id (scope_key scope) h) wanted h in
              then_ (remember_send id (Unsubscribed request wanted (cursor h (owner_of h id)))) (ret tt) h) h
        | Subscribe request wanted =>
            once id request (fun h =>
              if (128 <? len (remove_dups (keys_of h id ++ (scope_key <$> wanted)))) then
                remember_error id request "subscription-limit" "An application live connection may subscribe to at most 128 scopes." h
              else await id m h) h
        | ResyncAck request _ _ => once id request (await id m) h
        end
      else violation id (message_request m) "not-initialized" "Initialize the application live connection before using it." h
  end.

Definition handle_frame (id : nat) (active : bool) (f : Frame) (now : Z) : M unit := fun h =>
  if negb active then (Some tt, close_connection id 1008 "Session is no longer active" h)
  else
    let h := record (MkUsage (owner_of h id) true (frame_len f) true) (update id (set_seen now) h) in
    match f with
    | BinaryFrame _ => violation id None "invalid-message" "The application live channel accepts JSON text frames only." h
    | TextFrame raw =>
        if max_inbound_bytes options <? byte_len raw then
          then_ (send id (Error None "payload-too-large" "The application live frame exceeds the configured size limit." false))
            (modify (close_connection id 1009 "Live frame is too large")) h
        else
          match decode_frame raw with
          | NotJson => violation id None "invalid-message" "The application live frame must contain valid JSON." h
          | OffProtocol true _ => violation id None "unsupported-version" "The application live protocol version is not supported." h
          | OffProtocol false r => violation id (request_id r) "invalid-message" "The application live message does not match the protocol." h
          | Valid m => message id m now h
          end
    end.

Definition continue_ (id : nat) (m : ClientMessage) (authorized : bool) : M unit := fun h =>
  match m with
  | Subscribe request wanted =>
      if negb authorized then
        remember_error id request "unauthorized-scope" "One or more requested live scopes do not exist or are not owned by the current user." h
      else
        let h := fold_left (fun h scope => add_subscription id scope h) wanted h in
        then_ (remember_send id (Subscribed request wanted (cursor h (owner_of h id)))) (finish_resume id) h
  | ResyncAck request at_ wanted =>
      if negb authorized then
        remember_error id request "unauthorized-scope" "One or more requested live scopes do not exist or are not owned by the current user." h
      else
        let reason := resume_reason h (owner_of h id) (epoch options) at_ in
        let h := replace_subscriptions id wanted h in
        match reason with
        | Some why =>
            let h := update_local id (set_resume (Some (MkResume at_ (Some why)))) h in
            let response := ResyncRequired (cursor h (owner_of h id)) why (scopes_of h id) in
            then_ (resync id response) (ret tt) (remember id request response h)
        | None => then_ (remember_send id (Subscribed request wanted (cursor h (owner_of h id)))) (replay id at_) h
        end
  | _ => (Some tt, h)
  end.

(** A failure of a handler is answered with an internal error. *)
Definition recover (id : nat) (r : option unit * Hub) : Hub :=
  match r with
  | (Some _, h) => h
  | (None, h) => (send id (Error None "internal-error" "The live server could not process that message." true) h).2
  end.

Definition frame (id : nat) (active : bool) (f : Frame) (now : Z) (h : Hub) : Hub := recover id (handle_frame id active f now h).
Definition resume_frame (id : nat) (m : ClientMessage) (authorized : bool) (h : Hub) : Hub :=
  recover id (continue_ id m authorized (update id (set_task None) h)).

(** ** Client control *)

Definition control_full (h : Hub) : bool := closed h || (128 <=? len (controls h)).

Definition candidates (h : Hub) (owner : string) (command : Command) : list nat :=
  subscribers_of h owner (scope_key (Project (command_project command))).

(** The connection a command goes to: one that shows the chat, else the first. *)
Definition choose (h : Hub) (command : Command) (first : nat) (compatible : list nat) : nat :=
  match command with
  | ShowInteraction _ chat _ =>
      default first (head (filter (fun id => IndexMap.contains_key (scope_key (Chat chat)) (scopes (local_of h id)) = true) compatible))
  | _ => first
  end.

(** What follows the checks of the candidates: [inl] is an answer at once,
    [inr] a request that waits for its completion. *)
Definition dispatch (correlation : string) (command : Command) (issued bounded : Z) (active : list nat) : M (string + nat) := fun h =>
  match active with
  | [] => (Some (inl "unavailable"%string), h)
  | _ =>
      match filter (fun id => bool_decide (command_kind command ∈ capabilities (local_of h id)) = true) active with
      | [] => (Some (inl "unsupported"%string), h)
      | first :: rest =>
          let id := choose h command first (first :: rest) in
          if control_full h then (Some (inl "unavailable"%string), h)
          else
            let h := set_controls (IndexMap.insert correlation (MkPending id (issued + bounded)) (controls h)) h in
            bind (send id (ControlRequest correlation issued (issued + bounded) command))
              (fun ok h => (Some (inr id), if ok : bool then h else settle correlation "unavailable" h)) h
      end
  end.
Definition clamp_timeout (timeout : Z) : Z := Z.max 1 (Z.min timeout 10000).

(** ** Steps

    What can happen to the hub, with the events it publishes. A frame of a
    connection is handled when the previous one is done; its session check and
    the authorization of scopes answer as they like, and the transport may give
    a handler up while it waits. Sockets change by themselves. *)
Inductive step : Hub -> list Retained -> Hub -> Prop :=
| s_attach h id socket owner session now :
    heap h !! id = None -> step h [] (attach id socket owner session now h).2
| s_disconnect h id : step h [] (disconnect id h)
| s_frame h id c active f now :
    heap h !! id = Some c -> c_task c = None -> step h [] (frame id active f now h)
| s_resume h id c m authorized :
    heap h !! id = Some c -> c_task c = Some m -> step h [] (resume_frame id m authorized h)
| s_give_up h id : step h [] (update id (set_task None) h)
| s_publish h now p : step h (option_list (publication now p h).1) (publication now p h).2
| s_revoke h matches reason : step h [] (revoke matches reason h).2
| s_maintain h id now active : step h [] (maintain id now active h)
| s_close h : step h [] (close h)
| s_control h correlation command issued bounded active :
    (forall w, (correlation, w) ∉ completions h) -> IndexMap.get correlation (controls h) = None ->
    step h [] (dispatch correlation command issued bounded active h).2
| s_expired h correlation : step h [] (settle correlation "expired" h)
| s_socket h id socket : step h [] (update id (set_socket socket) h).

Inductive reach : list Retained -> Hub -> Prop :=
| reach_empty : reach [] empty_hub
| reach_step published h rs h' : reach published h -> step h rs h' -> reach (published ++ rs) h'.
End hub.
End LiveHub.
