(* ===== verification/LiveHubInv.v ===== *)
(** * The invariant of the live hub

    [LiveHubInv] shows that every operation of [LiveHub] keeps the subscriber
    index, the connection table, the replay log, the request history and the
    pending controls in agreement, and that an operation on one connection
    leaves every other connection alone ([touch]). *)
From S2P Require Import Prelude JsString LiveHub.
From stdpp Require Import base numbers strings gmap option list sorting.
Open Scope Z_scope.

Module LiveHubInv.
Import Text JsString LiveHub.

Section inv.
Context {Body Socket : Type}.
Context {HS : Sockets (Body := Body) (Socket := Socket)} {HP : Protocol (Body := Body)}.
Context (options : Options).
Abbreviation Hub := (Hub (Body := Body) (Socket := Socket)).
Abbreviation Connection := (Connection (Body := Body) (Socket := Socket)).
Implicit Types (h : Hub) (c : Connection).

(** ** One connection at a time

    What an operation on connection [id] leaves alone: the other connections,
    the cursors, the replay log, and of [id] itself whatever [R] says. *)
Record touch (R : Connection -> Connection -> Prop) (id : nat) h h' : Prop := Touch {
  to_others : forall j, j <> id -> heap h' !! j = heap h !! j;
  to_self : option_Forall2 R (heap h !! id) (heap h' !! id);
  to_cursors : cursors h' = cursors h;
  to_retained : retained h' = retained h;
  to_bytes : retained_bytes h' = retained_bytes h;
  to_closed : closed h' = closed h
}.

#[global] Instance touch_preorder R id : PreOrder R -> PreOrder (touch R id).
Proof.
  intros [Hr Ht]. split.
  - intros h. constructor; try done.
  - intros h1 h2 h3 [A1 A2 A3 A4 A5 A6] [B1 B2 B3 B4 B5 B6]. constructor; try congruence.
    + intros j Hj. by rewrite B1, A1.
    + inversion A2 as [x y Rxy E1 E2|E1 E2]; rewrite <- E2 in B2; inversion B2; constructor. by etrans.
Qed.

(** The least an operation leaves alone of the connection itself. *)
Definition same_owner c c' : Prop := c_owner c' = c_owner c /\ c_session c' = c_session c.
(** The connection was sent [ms], and nothing of its resumption changed. *)
Definition said (ms : list Delivery) c c' : Prop :=
  same_owner c c' /\ c_sent c' = c_sent c ++ ms /\ c_task c' = c_task c /\
  resume (c_local c') = resume (c_local c) /\ initialized (c_local c') = initialized (c_local c) /\ history (c_local c') = history (c_local c).
Abbreviation mute := (said []).

#[global] Instance same_owner_preorder : PreOrder same_owner.
Proof. split; [done|]. intros ??? [] []. split; congruence. Qed.

Lemma said_app ms ms' c1 c2 c3 : said ms c1 c2 -> said ms' c2 c3 -> said (ms ++ ms') c1 c3.
Proof. intros (?&E1&?&?&?&?) (?&E2&?&?&?&?). split; [by etrans|]. rewrite E2, E1, app_assoc. split_and!; congruence. Qed.

Lemma mute_refl c : mute c c.
Proof. split; [done|]. by rewrite app_nil_r. Qed.
#[global] Instance mute_preorder : PreOrder mute.
Proof. split; [exact mute_refl|]. intros ???. apply said_app. Qed.

Lemma touch_weaken (R R' : Connection -> Connection -> Prop) id h h' : (forall c c', R c c' -> R' c c') -> touch R id h h' -> touch R' id h h'.
Proof. intros HR [A1 A2 A3 A4 A5 A6]. constructor; try done. destruct A2; constructor; auto. Qed.

Lemma touch_update (R : Connection -> Connection -> Prop) id f h : (forall c, R c (f c)) -> touch R id h (update id f h).
Proof.
  intros Hf. constructor; try done; unfold update; simpl.
  - intros j Hj. by rewrite lookup_alter_ne.
  - rewrite lookup_alter_eq. destruct (heap h !! id); constructor. apply Hf.
Qed.

(** A change outside the connections. *)
Lemma touch_heap R `{!PreOrder R} id h h' : heap h' = heap h -> cursors h' = cursors h -> retained h' = retained h ->
  retained_bytes h' = retained_bytes h -> closed h' = closed h -> touch R id h h'.
Proof. intros E ????. constructor; try done; rewrite E; [done|]. destruct (heap h !! id); by constructor. Qed.

Lemma touch_fold {A} (R : Connection -> Connection -> Prop) `{!PreOrder R} id (f : Hub -> A -> Hub) l :
  (forall h x, touch R id h (f h x)) -> forall h, touch R id h (fold_left f l h).
Proof. intros Hf. induction l as [|x l IH]; intros h; simpl; [reflexivity|]. etrans; [apply Hf|apply IH]. Qed.

Create HintDb touching discriminated.
Ltac outside := apply touch_heap; [typeclasses eauto|done..].

Lemma touch_bump R `{!PreOrder R} id k h : touch R id h (bump k h).
Proof. outside. Qed.
Lemma touch_settle R `{!PreOrder R} id x y h : touch R id h (settle x y h).
Proof. unfold settle. case_match; outside. Qed.
Lemma touch_record R `{!PreOrder R} id u h : touch R id h (record options u h).
Proof. unfold record. case_match; outside. Qed.

Lemma keeps_silent c c' : same_owner c c' -> c_sent c' = c_sent c -> c_task c' = c_task c ->
  resume (c_local c') = resume (c_local c) -> initialized (c_local c') = initialized (c_local c) -> history (c_local c') = history (c_local c) -> mute c c'.
Proof. intros. split; [done|]. by rewrite app_nil_r. Qed.

Lemma touch_silent id f h : (forall c, same_owner c (f c) /\ c_sent (f c) = c_sent c /\ c_task (f c) = c_task c /\
  resume (c_local (f c)) = resume (c_local c) /\ initialized (c_local (f c)) = initialized (c_local c) /\ history (c_local (f c)) = history (c_local c)) -> touch mute id h (update id f h).
Proof. intros Hf. apply touch_update. intros c. destruct (Hf c) as (?&?&?&?&?&?). by apply keeps_silent. Qed.

Lemma touch_remove id key h : touch mute id h (remove_subscription id key h).
Proof.
  unfold remove_subscription. destruct (heap h !! id) as [c|] eqn:E; [|reflexivity]. case_match; [|reflexivity].
  etrans; [apply touch_silent|outside]. done.
Qed.

Lemma touch_add id scope h : touch mute id h (add_subscription id scope h).
Proof.
  unfold add_subscription. destruct (heap h !! id) as [c|] eqn:E; [|reflexivity]. case_match; [reflexivity|].
  assert (T : touch mute id h (update_local id (fun l => set_scopes (IndexMap.insert (scope_key scope) scope (scopes l)) l) h)) by (by apply touch_silent).
  case_match; [done|]. etrans; [exact T|outside].
Qed.

Lemma touch_replace id wanted h : touch mute id h (replace_subscriptions id wanted h).
Proof.
  unfold replace_subscriptions. case_match; [reflexivity|].
  etrans; [|apply touch_fold; [typeclasses eauto|intros; apply touch_add]]. apply touch_fold; [typeclasses eauto|]. intros h0 x. case_match; [reflexivity|apply touch_remove].
Qed.

Lemma touch_disconnect_connection id h : touch mute id h (disconnect_connection id h).2.
Proof.
  unfold disconnect_connection. case_match; [reflexivity|]. simpl.
  etrans; [|apply touch_fold; [typeclasses eauto|intros; by apply touch_settle; typeclasses eauto]].
  etrans; [|apply touch_bump; typeclasses eauto]. etrans; [|apply touch_fold; [typeclasses eauto|intros; apply touch_remove]].
  trans (update id set_shut h); [by apply touch_silent|outside].
Qed.

Lemma touch_close_connection id code reason h : touch mute id h (close_connection id code reason h).
Proof.
  unfold close_connection. pose proof (touch_disconnect_connection id h) as T. destruct (disconnect_connection id h) as [[] h']; simpl in T; [|done].
  etrans; [exact T|by apply touch_silent].
Qed.

(** Whether a connection is shut is decided by [set_shut] alone. *)
Abbreviation as_shut := (fun c c' : Connection => c_closed c' = c_closed c).
#[global] Instance as_shut_preorder : PreOrder as_shut.
Proof. split; [done|intros ???; congruence]. Qed.

Lemma shut_remove_all id l h : touch as_shut id h (fold_left (fun h key => remove_subscription id key h) l h).
Proof.
  apply touch_fold; [typeclasses eauto|]. clear h. intros h key. unfold remove_subscription.
  case_match; [|reflexivity]. case_match; [|reflexivity].
  trans (update_local id (fun l => set_scopes (IndexMap.shift_remove key (scopes l)) l) h); [by apply touch_update|outside].
Qed.

Lemma heap_settle_all st l : forall h, heap (fold_left (fun h x => settle x st h) l h) = heap h.
Proof. induction l as [|x l IH]; intros h; simpl; [done|]. rewrite IH. unfold settle. by case_match. Qed.

Lemma disconnect_shuts id h : is_closed (disconnect_connection id h).2 id = true.
Proof.
  unfold disconnect_connection. destruct (is_closed h id) eqn:Hc; [done|]. simpl. set (h1 := set_connections _ _).
  unfold is_closed. rewrite heap_settle_all. simpl. destruct (shut_remove_all id (keys_of h1 id) h1) as [_ T _ _ _ _].
  destruct (heap h1 !! id) as [c|] eqn:E; inversion T as [? c' Hcl|]; subst; [|done]. simpl. rewrite Hcl.
  unfold h1, update in E. simpl in E. rewrite lookup_alter_eq in E. by apply fmap_Some in E as (c0 & _ & ->).
Qed.

Lemma close_connection_shuts id code reason h j : is_closed (close_connection id code reason h) j = is_closed (disconnect_connection id h).2 j.
Proof.
  unfold close_connection. destruct (disconnect_connection id h) as [[] h']; simpl; [|done]. unfold is_closed, update. simpl.
  destruct (decide (id = j)) as [<-|]; [rewrite lookup_alter_eq|by rewrite lookup_alter_ne]. by destruct (heap h' !! id).
Qed.

(** A connection that does not take a message is shut. *)
Lemma send_encoded_shuts id e h : (send_encoded options id e h).1 = false -> is_closed (send_encoded options id e h).2 id = true.
Proof.
  unfold send_encoded. destruct (heap h !! id) as [c|] eqn:E; [|intros _; unfold is_closed; simpl; by rewrite E].
  case_match; [intros _; apply disconnect_shuts|]. case_match; [intros _; simpl; rewrite close_connection_shuts; apply disconnect_shuts|].
  destruct (sock_send (e_message e) (c_socket c)) as [[] socket]; [done|]. intros _. simpl. rewrite close_connection_shuts. apply disconnect_shuts.
Qed.

Lemma touch_app ms ms' id h1 h2 h3 : touch (said ms) id h1 h2 -> touch (said ms') id h2 h3 -> touch (said (ms ++ ms')) id h1 h3.
Proof.
  intros [A1 A2 A3 A4 A5 A6] [B1 B2 B3 B4 B5 B6]. constructor; try congruence.
  - intros j Hj. by rewrite B1, A1.
  - inversion A2 as [x y Rxy E1 E2|E1 E2]; rewrite <- E2 in B2; inversion B2; constructor. by eapply said_app.
Qed.

Lemma touch_mute_l ms id h1 h2 h3 : touch mute id h1 h2 -> touch (said ms) id h2 h3 -> touch (said ms) id h1 h3.
Proof. apply (touch_app [] ms). Qed.
Lemma touch_mute_r ms id h1 h2 h3 : touch (said ms) id h1 h2 -> touch mute id h2 h3 -> touch (said ms) id h1 h3.
Proof. intros A B. rewrite <- (app_nil_r ms). by eapply touch_app. Qed.

(** Whether a connection takes a message of that many bytes. *)
Definition takes (e : Encoded) c : bool :=
  negb (c_closed c) && is_open (c_socket c) &&
  (Z.min (2 ^ 64 - 1) (buffered_amount (c_socket c) + e_bytes e) <=? max_buffered_bytes options) &&
  (sock_send (e_message e) (c_socket c)).1.

Lemma send_encoded_spec id e h :
  let ok := from_option (takes e) false (heap h !! id) in
  (send_encoded options id e h).1 = ok /\
  touch (said (if ok then [Sent (e_message e)] else [])) id h (send_encoded options id e h).2.
Proof.
  cbn zeta. unfold send_encoded. destruct (heap h !! id) as [c|] eqn:E; [|split; [done|]; simpl; reflexivity]. cbn [from_option]. unfold takes.
  destruct (c_closed c); [split; [done|]; apply touch_disconnect_connection|].
  destruct (is_open (c_socket c)); [|split; [done|]; apply touch_disconnect_connection]. cbn [orb negb andb].
  rewrite Z.leb_antisym. case_match; cbn [negb andb].
  { split; [done|]. etrans; [|apply touch_close_connection]. etrans; apply touch_bump; typeclasses eauto. }
  destruct (sock_send (e_message e) (c_socket c)) as [[] socket]; cbn [fst snd]; split; try done.
  - eapply touch_mute_r; [|apply touch_record; typeclasses eauto]. eapply touch_mute_l; [by apply (touch_silent id (set_socket socket))|].
    by apply touch_update.
  - etrans; [|apply touch_close_connection]. by apply touch_silent.
Qed.

(** ** The subscriber index *)

Abbreviation index_map := (gmap string (gmap units (list nat))).
Definition entry (m : index_map) (o : string) (k : units) : list nat := default [] (m !! o ≫= (.!! k)).
(** No empty table is left behind. *)
Definition tidy (m : index_map) : Prop := forall o t, m !! o = Some t -> t <> ∅ /\ forall k l, t !! k = Some l -> l <> [].

Lemma entry_drop id owner key m o k :
  entry (drop_subscriber id owner key m) o k = if decide (o = owner /\ k = key) then filter (fun i => i <> id) (entry m o k) else entry m o k.
Proof.
  unfold entry, drop_subscriber. destruct (m !! owner) as [t|] eqn:E.
  2: { case_decide as D; [|done]. destruct D as [-> ->]. by rewrite E. }
  set (t' := match t !! key with Some ids => _ | None => t end).
  assert (Ht : forall k, default [] (t' !! k) = if decide (k = key) then filter (fun i => i <> id) (default [] (t !! k)) else default [] (t !! k)).
  { intros k0. unfold t'. destruct (t !! key) as [l|] eqn:El.
    - case_bool_decide as Hl; destruct (decide (k0 = key)) as [->|Hne].
      + by rewrite lookup_delete_eq, El; simpl; rewrite Hl.
      + by rewrite lookup_delete_ne by done.
      + by rewrite lookup_insert_eq, El.
      + by rewrite lookup_insert_ne by done.
    - destruct (decide (k0 = key)) as [->|]; [by rewrite El|done]. }
  destruct (decide (o = owner)) as [->|Hne].
  - transitivity (default [] (t' !! k)).
    + case_bool_decide as Hemp; [rewrite lookup_delete_eq, Hemp; simpl; by rewrite lookup_empty|by rewrite lookup_insert_eq].
    + rewrite Ht, E. simpl. destruct (decide (k = key)); [rewrite decide_True by done; done|rewrite decide_False by tauto; done].
  - rewrite decide_False by tauto. case_bool_decide; [by rewrite lookup_delete_ne by done|by rewrite lookup_insert_ne by done].
Qed.

Lemma tidy_drop id owner key m : tidy m -> tidy (drop_subscriber id owner key m).
Proof.
  intros Ht. unfold drop_subscriber. destruct (m !! owner) as [t|] eqn:E; [|done]. destruct (Ht _ _ E) as [_ Hl].
  set (t' := match t !! key with Some ids => _ | None => t end).
  assert (Hl' : forall k l, t' !! k = Some l -> l <> []).
  { unfold t'. destruct (t !! key) as [l0|] eqn:El; [|done]. case_bool_decide; intros k l.
    - intros [_ ?]%lookup_delete_Some. by eapply Hl.
    - rewrite lookup_insert_Some. intros [[_ <-]|[_ ?]]; [done|by eapply Hl]. }
  intros o u. case_bool_decide.
  - intros [_ ?]%lookup_delete_Some. by eapply Ht.
  - rewrite lookup_insert_Some. intros [[_ <-]|[_ ?]]; [done|by eapply Ht].
Qed.

Lemma entry_add id owner key m o k :
  entry (add_subscriber id owner key m) o k =
    if decide (o = owner /\ k = key) then (if bool_decide (id ∈ entry m o k) then entry m o k else entry m o k ++ [id]) else entry m o k.
Proof.
  unfold entry, add_subscriber. destruct (decide (o = owner)) as [->|Hne].
  - rewrite lookup_insert_eq. simpl. destruct (decide (k = key)) as [->|Hk].
    + rewrite lookup_insert_eq, decide_True by done. simpl.
      by replace (default [] (default ∅ (m !! owner) !! key)) with (default [] (m !! owner ≫= (.!! key))) by (destruct (m !! owner); simpl; [done|by rewrite lookup_empty]).
    + rewrite lookup_insert_ne by done. rewrite decide_False by tauto. destruct (m !! owner); simpl; [done|by rewrite lookup_empty].
  - rewrite lookup_insert_ne by done. by rewrite decide_False by tauto.
Qed.

Lemma tidy_add id owner key m : tidy m -> tidy (add_subscriber id owner key m).
Proof.
  intros Ht o t. unfold add_subscriber. rewrite lookup_insert_Some. intros [[<- <-]|[_ E]]; [|by eapply Ht]. split.
  - apply insert_non_empty.
  - intros k l. rewrite lookup_insert_Some. intros [[_ <-]|[_ E]].
    + case_bool_decide as Hin; [|by destruct (default [] _)]. intros E. rewrite E in Hin. by apply elem_of_nil in Hin.
    + destruct (m !! owner) as [t|] eqn:Em; simpl in E; [by eapply (Ht _ _ Em)|by rewrite lookup_empty in E].
Qed.

(** The subscriptions a connection has. *)
Definition keys_at h (id : nat) : option (string * list units) := (fun c => (c_owner c, IndexMap.keys (scopes (c_local c)))) <$> heap h !! id.

Record indexed h : Prop := Indexed {
  ix_exact : forall o k id, id ∈ subscribers_of h o k <-> exists ks, keys_at h id = Some (o, ks) /\ k ∈ ks;
  ix_once : forall o k, NoDup (subscribers_of h o k);
  ix_keys : forall id o ks, keys_at h id = Some (o, ks) -> NoDup ks;
  ix_tidy : tidy (subscribers h)
}.

(** A change that the index does not see. *)
Lemma indexed_same h h' : (forall id, keys_at h' id = keys_at h id) -> subscribers h' = subscribers h -> indexed h -> indexed h'.
Proof.
  intros Ek Es [I1 I2 I3 I4].
  assert (E : forall o k, subscribers_of h' o k = subscribers_of h o k) by (intros; unfold subscribers_of; by rewrite Es).
  constructor; intros; rewrite ?E, ?Ek, ?Es; try done. rewrite Ek in *. eauto.
Qed.

Lemma keys_at_update id f h j : keys_at (update id f h) j = if decide (id = j) then (fun c => (c_owner (f c), IndexMap.keys (scopes (c_local (f c))))) <$> heap h !! j else keys_at h j.
Proof.
  unfold keys_at, update. simpl. destruct (decide (id = j)) as [<-|Hne]; [|by rewrite lookup_alter_ne].
  rewrite lookup_alter_eq. by destruct (heap h !! id).
Qed.

(** A change of a connection that keeps its subscriptions. *)
Lemma indexed_update id f h : (forall c, c_owner (f c) = c_owner c /\ scopes (c_local (f c)) = scopes (c_local c)) -> indexed h -> indexed (update id f h).
Proof.
  intros Hf. apply indexed_same; [|done]. intros j. rewrite keys_at_update. case_decide; [|done]. unfold keys_at.
  destruct (heap h !! j) as [c|]; [|done]. simpl. destruct (Hf c) as [-> ->]. done.
Qed.

Lemma indexed_remove id key h : indexed h -> indexed (remove_subscription id key h).
Proof.
  intros Hi. unfold remove_subscription. destruct (heap h !! id) as [c|] eqn:Ec; [|done]. case_match; [|done]. pose proof Hi as [I1 I2 I3 I4].
  set (h' := set_subscribers _ _).
  assert (Hk : forall j, keys_at h' j = if decide (id = j) then Some (c_owner c, filter (fun k => k <> key) (IndexMap.keys (scopes (c_local c)))) else keys_at h j).
  { intros j. change (keys_at h' j) with (keys_at (update_local id (fun l => set_scopes (IndexMap.shift_remove key (scopes l)) l) h) j).
    unfold update_local. rewrite keys_at_update. case_decide; [|done]. subst j. rewrite Ec. simpl. by rewrite IndexMap.keys_remove. }
  assert (Hs : forall o k, subscribers_of h' o k = if decide (o = c_owner c /\ k = key) then filter (fun i => i <> id) (subscribers_of h o k) else subscribers_of h o k)
    by (intros; apply entry_drop).
  assert (Eid : keys_at h id = Some (c_owner c, IndexMap.keys (scopes (c_local c)))) by (unfold keys_at; by rewrite Ec).
  constructor.
  - intros o k j. rewrite Hs, Hk. destruct (decide (id = j)) as [<-|Hne].
    + case_decide as D; [destruct D as [-> ->]|].
      * rewrite list_elem_of_filter. split; [tauto|]. intros (ks & [= <-] & Hin). apply list_elem_of_filter in Hin. tauto.
      * rewrite I1, Eid. split.
        -- intros (ks & [= <- <-] & Hin). eexists. split; [reflexivity|]. apply list_elem_of_filter. split; [|done]. intros ->. tauto.
        -- intros (ks & [= <- <-] & Hin). apply list_elem_of_filter in Hin as [_ Hin]. eauto.
    + case_decide as D; [rewrite list_elem_of_filter|]; rewrite I1; naive_solver.
  - intros o k. rewrite Hs. case_decide; [by apply NoDup_filter|done].
  - intros j o ks. rewrite Hk. case_decide; [intros [= <- <-]; by eapply NoDup_filter, I3|apply I3].
  - by apply tidy_drop.
Qed.

Lemma indexed_add id scope h : indexed h -> indexed (add_subscription id scope h).
Proof.
  intros Hi. unfold add_subscription. destruct (heap h !! id) as [c|] eqn:Ec; [|done]. case_match; [done|].
  set (key := scope_key scope). set (h1 := update_local id _ h). pose proof Hi as [I1 I2 I3 I4].
  assert (Hk : forall j, keys_at h1 j = if decide (id = j) then Some (c_owner c, IndexMap.keys (IndexMap.insert key scope (scopes (c_local c)))) else keys_at h j).
  { intros j. unfold h1, update_local. rewrite keys_at_update. case_decide; [|done]. subst j. by rewrite Ec. }
  assert (Eid : keys_at h id = Some (c_owner c, IndexMap.keys (scopes (c_local c)))) by (unfold keys_at; by rewrite Ec).
  unfold IndexMap.contains_key. destruct (IndexMap.get key (scopes (c_local c))) as [v|] eqn:Eg.
  - apply (indexed_same h); [|done|done]. intros j. rewrite Hk. case_decide; [|done]. subst j. by rewrite (IndexMap.keys_insert_present _ _ _ _ Eg).
  - rewrite (IndexMap.insert_absent _ _ _ Eg) in Hk. apply IndexMap.get_None in Eg.
    assert (Hk' : IndexMap.keys (scopes (c_local c) ++ [(key, scope)]) = IndexMap.keys (scopes (c_local c)) ++ [key]) by (unfold IndexMap.keys; by rewrite fmap_app).
    rewrite Hk' in Hk. set (h' := set_subscribers _ h1). change (keys_at h1) with (keys_at h') in Hk.
    assert (Hnew : id ∉ subscribers_of h (c_owner c) key) by (rewrite I1; intros (ks & E & Hin); congruence).
    assert (Hs : forall o k, subscribers_of h' o k = if decide (o = c_owner c /\ k = key) then subscribers_of h o k ++ [id] else subscribers_of h o k).
    { intros o k. etrans; [apply entry_add|]. case_decide as D; [|done]. destruct D as [-> ->]. by rewrite bool_decide_eq_false_2. }
    constructor.
    + intros o k j. rewrite Hs, Hk. destruct (decide (id = j)) as [<-|Hne].
      * case_decide as D; [destruct D as [-> ->]|].
        -- rewrite elem_of_app, list_elem_of_singleton. split; [|by right]. intros _. eexists. split; [done|]. rewrite elem_of_app, list_elem_of_singleton. by right.
        -- rewrite I1, Eid. split.
           ++ intros (ks & [= <- <-] & Hin). eexists. split; [reflexivity|]. apply elem_of_app. by left.
           ++ intros (ks & [= <- <-] & Hin). apply elem_of_app in Hin as [Hin|Hin%list_elem_of_singleton]; [eauto|tauto].
      * case_decide as D; [rewrite elem_of_app, list_elem_of_singleton|]; rewrite I1; naive_solver.
    + intros o k. rewrite Hs. case_decide as D; [|done]. destruct D as [-> ->]. apply NoDup_app. split_and!; [done| |apply NoDup_singleton].
      intros x Hx ->%list_elem_of_singleton. done.
    + intros j o ks. rewrite Hk. case_decide; [|apply I3]. intros [= <- <-]. apply NoDup_app. split_and!; [by eapply I3| |apply NoDup_singleton].
      by intros x Hx ->%list_elem_of_singleton.
    + by apply tidy_add.
Qed.

(** ** The invariant *)

Definition weight (l : list Retained) : Z := sumZ ((fun r => e_bytes (r_encoded (Body := Body) r)) <$> l).

(** [x] is a connection that is just being closed, [d] whether it still counts. *)
Record wfx (x : option nat) (d : Z) h : Prop := Wf {
  wf_index : indexed h;
  wf_shut : forall id c, Some id <> x -> heap h !! id = Some c -> c_closed c = true -> scopes (c_local c) = [];
  wf_table : NoDup (connections h);
  wf_live : forall id, id ∈ connections h <-> exists c, heap h !! id = Some c /\ c_closed c = false;
  wf_count : stats h accepted_connection_count = stats h disconnected_connection_count + len (connections h) + d;
  wf_bytes : retained_bytes h = weight (retained h);
  wf_room : len (retained h) <= max_replay_events options /\ retained_bytes h <= max_replay_bytes options;
  wf_once : NoDup (IndexMap.keys (controls h) ++ (completions h).*1);
  wf_controls : len (controls h) <= 128;
  wf_history : forall id c, heap h !! id = Some c -> len (history (c_local c)) <= 256
}.
Abbreviation wf := (wfx None 0).

(** What the invariant says of one connection. *)
Definition tame (x : option nat) (id : nat) c : Prop := (Some id <> x -> c_closed c = true -> scopes (c_local c) = []) /\ len (history (c_local c)) <= 256.

Lemma wf_tame x d h id c : wfx x d h -> heap h !! id = Some c -> tame x id c.
Proof. intros Hw E. split; [intros; by eapply wf_shut|by eapply wf_history]. Qed.

(** A change to one connection that neither opens nor closes it. *)
Lemma wf_alter x d id f h h' : wfx x d h -> indexed h' -> heap h' = alter f id (heap h) -> connections h' = connections h ->
  stats h' accepted_connection_count = stats h accepted_connection_count -> stats h' disconnected_connection_count = stats h disconnected_connection_count ->
  retained h' = retained h -> retained_bytes h' = retained_bytes h -> controls h' = controls h -> completions h' = completions h ->
  (forall c, heap h !! id = Some c -> c_closed (f c) = c_closed c) -> (forall c, heap h !! id = Some c -> tame x id c -> tame x id (f c)) -> wfx x d h'.
Proof.
  intros Hw Hi Eh Ec Ea Ed Er Eb Eo Ep Hf Ht. pose proof Hw as [W1 W2 W3 W4 W5 W6 W7 W8 W9 W10].
  assert (Htame : forall j c, heap h' !! j = Some c -> tame x j c).
  { intros j c. rewrite Eh. destruct (decide (id = j)) as [<-|Hne]; [|rewrite lookup_alter_ne by done; by apply wf_tame with d].
    rewrite lookup_alter_eq. intros (c0 & E & ->)%fmap_Some. apply Ht; [done|]. by eapply wf_tame. }
  constructor; rewrite ?Ea, ?Ed, ?Er, ?Eb, ?Eo, ?Ep, ?Ec; try done.
  - intros j c Hx E. by apply (Htame j c E).
  - intros j. rewrite W4, Eh. destruct (decide (id = j)) as [<-|Hne]; [|by rewrite lookup_alter_ne by done].
    rewrite lookup_alter_eq. destruct (heap h !! id) as [c|] eqn:E; simpl; [|naive_solver]. specialize (Hf c eq_refl). split.
    + intros (c' & [= <-] & Hc). exists (f c). by rewrite Hf.
    + intros (c' & [= <-] & Hc). exists c. by rewrite <- Hf.
  - intros j c E. by apply (Htame j c E).
Qed.

Lemma wf_update id f h : (forall c, c_owner (f c) = c_owner c /\ scopes (c_local (f c)) = scopes (c_local c) /\ c_closed (f c) = c_closed c /\
  (len (history (c_local c)) <= 256 -> len (history (c_local (f c))) <= 256)) -> wf h -> wf (update id f h).
Proof.
  intros Hf Hw. apply (wf_alter None 0 id f h); try done.
  - apply indexed_update; [|apply Hw]. intros c. destruct (Hf c) as (?&?&_). done.
  - intros c _. by destruct (Hf c) as (_&_&?&_).
  - intros c _ [T1 T2]. destruct (Hf c) as (_&E1&E2&E3). split; [rewrite E1, E2; done|auto].
Qed.

(** A change outside the connections, the index and the controls. *)
Lemma wf_same x d h h' : heap h' = heap h -> subscribers h' = subscribers h -> connections h' = connections h ->
  stats h' accepted_connection_count = stats h accepted_connection_count -> stats h' disconnected_connection_count = stats h disconnected_connection_count ->
  retained h' = retained h -> retained_bytes h' = retained_bytes h -> controls h' = controls h -> completions h' = completions h -> wfx x d h -> wfx x d h'.
Proof.
  intros Eh Es Ec Ea Ed Er Eb Eo Ep Hw. apply (wf_alter x d 0%nat (fun c => c) h); try done.
  - apply (indexed_same h); [|done|apply Hw]. intros id. unfold keys_at. by rewrite Eh.
  - rewrite Eh. symmetry. apply alter_id. done.
Qed.

Lemma wf_bump k h : k <> accepted_connection_count -> k <> disconnected_connection_count -> wf h -> wf (bump k h).
Proof. intros. apply (wf_same None 0 h); try done; simpl; by rewrite decide_False by congruence. Qed.

Lemma wf_record u h : wf h -> wf (record options u h).
Proof. intros. unfold record. case_match; [by apply (wf_same None 0 h)|done]. Qed.

Lemma wf_remove_subscription x d id key h : wfx x d h -> wfx x d (remove_subscription id key h).
Proof.
  intros Hw. pose proof (indexed_remove id key h (wf_index _ _ _ Hw)) as Hi. unfold remove_subscription in *.
  destruct (heap h !! id) as [c|] eqn:E; [|done]. case_match; [|done]. eapply (wf_alter x d id _ h); [done|done|reflexivity|..]; try done.
  intros c' _ [T1 T2]. split; [|done]. intros Hx Hc. specialize (T1 Hx Hc). simpl. by rewrite T1.
Qed.

Lemma wf_add id scope h : wf h -> wf (add_subscription id scope h).
Proof.
  intros Hw. pose proof (indexed_add id scope h (wf_index _ _ _ Hw)) as Hi. unfold add_subscription in *.
  destruct (heap h !! id) as [c|] eqn:E; [|done]. destruct (c_closed c) eqn:Hc; [done|]. case_match;
    eapply (wf_alter None 0 id _ h); try done; intros c' Ec [T1 T2]; rewrite E in Ec; injection Ec as <-; (split; [|done]); simpl; congruence.
Qed.

Lemma wf_fold {A} x d (f : Hub -> A -> Hub) l : (forall h y, wfx x d h -> wfx x d (f h y)) -> forall h, wfx x d h -> wfx x d (fold_left f l h).
Proof. intros Hf. induction l as [|y l IH]; intros h Hw; simpl; [done|]. by apply IH, Hf. Qed.

(** ** Ending a connection *)

Lemma wf_settle x d correlation status h : wfx x d h -> wfx x d (settle correlation status h).
Proof.
  intros Hw. unfold settle, IndexMap.contains_key. destruct (IndexMap.get correlation (controls h)) as [w|] eqn:E; [|done].
  pose proof Hw as [W1 W2 W3 W4 W5 W6 W7 W8 W9 W10]. apply IndexMap.get_In in E.
  assert (Hin : correlation ∈ IndexMap.keys (controls h)) by (apply list_elem_of_fmap; by exists (correlation, w)).
  constructor; try done; simpl.
  - by apply (indexed_same h).
  - rewrite IndexMap.keys_remove, fmap_app. simpl. apply NoDup_app in W8 as (N1 & N2 & N3). rewrite app_assoc. apply NoDup_app. split_and!.
    + apply NoDup_app. split_and!; [by apply NoDup_filter| |done]. intros k [_ Hk]%list_elem_of_filter. by apply N2.
    + intros k Hk ->%list_elem_of_singleton. apply elem_of_app in Hk as [[? _]%list_elem_of_filter|Hk]; [done|]. by eapply N2.
    + apply NoDup_singleton.
  - pose proof (sublist_length _ _ (IndexMap.remove_sublist correlation (controls h))). lia.
Qed.

Lemma keys_at_remove id key h : keys_at (remove_subscription id key h) id = (fun p => (p.1, filter (fun k => k <> key) p.2)) <$> keys_at h id.
Proof.
  unfold remove_subscription. destruct (heap h !! id) as [c|] eqn:E; [|unfold keys_at; by rewrite E].
  assert (Eid : keys_at h id = Some (c_owner c, IndexMap.keys (scopes (c_local c)))) by (unfold keys_at; by rewrite E). rewrite Eid.
  unfold IndexMap.contains_key. destruct (IndexMap.get key (scopes (c_local c))) eqn:Eg.
  - change (keys_at (set_subscribers ?s ?g) id) with (keys_at g id). unfold update_local. rewrite keys_at_update, decide_True by done.
    rewrite E. simpl. by rewrite IndexMap.keys_remove.
  - rewrite Eid. simpl. apply IndexMap.get_None in Eg. f_equal. f_equal. symmetry. apply filter_id. intros k Hk. congruence.
Qed.

Lemma keys_at_remove_all id l h o ks : keys_at h id = Some (o, ks) ->
  keys_at (fold_left (fun h key => remove_subscription id key h) l h) id = Some (o, filter (fun k => k ∉ l) ks).
Proof.
  revert h ks. induction l as [|key l IH]; intros h ks E; simpl.
  - rewrite E. f_equal. f_equal. symmetry. apply filter_id. intros ? _. apply not_elem_of_nil.
  - rewrite (IH _ (filter (fun k => k <> key) ks)); [|by rewrite keys_at_remove, E]. f_equal. f_equal. rewrite list_filter_filter.
    apply list_filter_iff. intros k. rewrite not_elem_of_cons. tauto.
Qed.

Lemma is_closed_open h id : is_closed h id = false -> exists c, heap h !! id = Some c /\ c_closed c = false.
Proof. unfold is_closed. destruct (heap h !! id) as [c|]; simpl; [eauto|done]. Qed.

(** Taking a connection out of the table leaves its subscriptions to remove. *)
Lemma wf_shutting id h : wf h -> is_closed h id = false ->
  wfx (Some id) 1 (set_connections (filter (fun i => i <> id) (connections h)) (update id set_shut h)).
Proof.
  intros Hw Hc. pose proof Hw as [W1 W2 W3 W4 W5 W6 W7 W8 W9 W10]. destruct (is_closed_open h id Hc) as (c & E & Hcl).
  set (h1 := update id set_shut h).
  assert (Hh : forall j c', heap h1 !! j = Some c' -> exists c0, heap h !! j = Some c0 /\ c_local c' = c_local c0 /\ (j <> id -> c_closed c' = c_closed c0) /\ (j = id -> c_closed c' = true)).
  { intros j c'. unfold h1, update. simpl. destruct (decide (id = j)) as [<-|Hne].
    - rewrite lookup_alter_eq. intros (c0 & ? & ->)%fmap_Some. by exists c0.
    - rewrite lookup_alter_ne by done. intros ?. exists c'. split_and!; try done. }
  constructor; try done; simpl.
  - apply (indexed_same h1); [done|done|]. by apply indexed_update.
  - intros j c' Hx (c0 & E0 & E1 & E2 & _)%Hh Hs. rewrite E1. apply (W2 j c0); [done..|]. rewrite <- E2; congruence.
  - by apply NoDup_filter.
  - intros j. rewrite list_elem_of_filter, W4. split.
    + intros [Hne (c0 & E0 & Hc0)]. exists c0. by rewrite lookup_alter_ne.
    + intros (c' & E' & Hs). destruct (Hh j c' E') as (c0 & E0 & _ & E2 & E3). destruct (decide (j = id)) as [->|Hne]; [by rewrite E3 in Hs|].
      split; [done|]. exists c0. by rewrite <- E2.
  - rewrite W5. assert (Hin : id ∈ connections h) by (apply W4; eauto).
    apply list_elem_of_split in Hin as (l1 & l2 & El). rewrite El in W3 |- *. apply NoDup_app in W3 as (_ & N & [N2 _]%NoDup_cons).
    rewrite filter_app, filter_cons_False by tauto. rewrite (filter_id _ l1) by (intros x Hx ->; eapply N; [exact Hx|left]).
    rewrite (filter_id _ l2) by (intros x Hx ->; done). rewrite !length_app. simpl. lia.
  - intros j c' (c0 & E0 & E1 & _)%Hh. rewrite E1. by eapply W10.
Qed.

Lemma wf_disconnect_connection id h : wf h -> wf (disconnect_connection id h).2.
Proof.
  intros Hw. unfold disconnect_connection. destruct (is_closed h id) eqn:Hc; [done|]. simpl.
  apply wf_fold; [intros; by apply wf_settle|]. destruct (is_closed_open h id Hc) as (c & E & Hcl).
  set (h1 := set_connections _ _). pose proof (wf_shutting id h Hw Hc) as W1. fold h1 in W1.
  pose proof (wf_fold (Some id) 1 (fun h key => remove_subscription id key h) (keys_of h1 id) (fun h y => wf_remove_subscription _ _ id y h) h1 W1) as W2.
  assert (Ek : keys_at h1 id = Some (c_owner c, keys_of h1 id)).
  { unfold keys_at, keys_of, local_of, h1, update. simpl. by rewrite lookup_alter_eq, E. }
  pose proof (keys_at_remove_all id (keys_of h1 id) h1 _ _ Ek) as Ek2. rewrite (filter_none) in Ek2 by tauto.
  set (h2 := fold_left _ _ _) in *. destruct W2 as [A1 A2 A3 A4 A5 A6 A7 A8 A9 A10]. constructor; try done; simpl.
  - by apply (indexed_same h2).
  - intros j c' _ E' Hs. destruct (decide (j = id)) as [->|]; [|apply (A2 j c'); [congruence|done|done]].
    unfold keys_at in Ek2. rewrite E' in Ek2. simpl in Ek2. injection Ek2 as _ Ek2. by apply fmap_nil_inv in Ek2.
  - rewrite A5. repeat case_decide; try done. lia.
Qed.

(** ** Operations that may fail *)

Definition preserves (P : Hub -> Prop) {A} (m : M A) : Prop := forall h : Hub, P h -> P (m h).2.

Lemma keeps_bind P {A B} (m : M A) (k : A -> M B) : preserves P m -> (forall x, preserves P (k x)) -> preserves P (bind m k).
Proof. intros Hm Hk h Hw. unfold bind. pose proof (Hm h Hw) as W. destruct (m h) as [[x|] h']; simpl in *; [by apply Hk|done]. Qed.
Lemma keeps_then P {A B} (m : M A) (k : M B) : preserves P m -> preserves P k -> preserves P (then_ m k).
Proof. intros Hm Hk. apply keeps_bind; [done|]. by intros _. Qed.
Lemma keeps_ret P {A} (x : A) : preserves P (ret x).
Proof. intros h Hw. exact Hw. Qed.
Lemma keeps_modify (P : Hub -> Prop) f : (forall h, P h -> P (f h)) -> preserves P (modify f).
Proof. intros Hf h Hw. by apply Hf. Qed.

(** ** Handlers

    A property that the pieces of the handlers keep is kept by every handler. *)
Definition mild (f : Connection -> Connection) : Prop := forall c,
  c_owner (f c) = c_owner c /\ scopes (c_local (f c)) = scopes (c_local c) /\ c_closed (f c) = c_closed c /\
  (len (history (c_local c)) <= 256 -> len (history (c_local (f c))) <= 256).

Record robust (P : Hub -> Prop) : Prop := Robust {
  rb_bump : forall k h, k <> accepted_connection_count -> k <> disconnected_connection_count -> P h -> P (bump k h);
  rb_record : forall u h, P h -> P (record options u h);
  rb_remove : forall id key h, P h -> P (remove_subscription id key h);
  rb_add : forall id scope h, P h -> P (add_subscription id scope h);
  rb_settle : forall correlation status h, P h -> P (settle correlation status h);
  rb_disconnect : forall id h, P h -> P (disconnect_connection id h).2;
  rb_update : forall id f h, mild f -> P h -> P (update id f h);
  rb_cursors : forall x h, P h -> P (set_cursors x h);
  rb_retain : forall r h, P h -> P (retain options r h);
  rb_closed : forall h, P h -> P (set_closed true h)
}.

Section robust.
Context (P : Hub -> Prop) (HR : robust P).
Abbreviation keeps := (preserves P).
Let rb_bump' := rb_bump P HR.
Let rb_record' := rb_record P HR.
Let rb_remove' := rb_remove P HR.
Let rb_add' := rb_add P HR.
Let rb_settle' := rb_settle P HR.
Let rb_disconnect' := rb_disconnect P HR.
Let rb_update' := rb_update P HR.

Create HintDb hub discriminated.
#[local] Hint Resolve rb_disconnect' rb_record' rb_remove' rb_add' rb_settle' : hub.
#[local] Hint Extern 2 (P (bump _ _)) => apply rb_bump'; [discriminate|discriminate|] : hub.
#[local] Hint Extern 2 (P (update _ _ _)) => apply rb_update'; [done|] : hub.
#[local] Hint Extern 2 (P (update_local _ _ _)) => apply rb_update'; [done|] : hub.

Lemma keeps_fold {A} (f : Hub -> A -> Hub) l : (forall h y, P h -> P (f h y)) -> forall h, P h -> P (fold_left f l h).
Proof. intros Hf. induction l as [|y l IH]; intros h Hw; simpl; [done|]. by apply IH, Hf. Qed.

Lemma keeps_replace id wanted h : P h -> P (replace_subscriptions id wanted h).
Proof.
  intros Hw. unfold replace_subscriptions. case_match; [done|]. apply keeps_fold; [intros; by apply rb_add'|].
  apply keeps_fold; [|done]. intros. case_match; [done|by apply rb_remove'].
Qed.

#[local] Hint Resolve keeps_replace : hub.

Lemma keeps_close_connection id code reason h : P h -> P (close_connection id code reason h).
Proof.
  intros Hw. unfold close_connection. pose proof (rb_disconnect' id h Hw) as W. destruct (disconnect_connection id h) as [[] h']; simpl in W; [|done].
  auto with hub.
Qed.
#[local] Hint Resolve keeps_close_connection : hub.

Lemma keeps_send_encoded id e h : P h -> P (send_encoded options id e h).2.
Proof.
  intros Hw. unfold send_encoded. destruct (heap h !! id) as [c|]; [|done]. case_match; [simpl; auto with hub|]. case_match; [simpl; auto 7 with hub|].
  destruct (sock_send _ _) as [[] socket]; simpl; auto 6 with hub.
Qed.

Lemma keeps_send id m : keeps (send options id m).
Proof.
  intros h Hw. unfold send. case_match; [|done]. pose proof (keeps_send_encoded id (MkEncoded m (byte_size m) true) h Hw) as W.
  by destruct (send_encoded _ _ _ _).
Qed.
#[local] Hint Resolve keeps_bind keeps_then keeps_ret keeps_modify keeps_send : hub.

Lemma keeps_violation id r code message : keeps (violation options id r code message).
Proof.
  apply keeps_then; [apply keeps_modify; intros; auto with hub|]. apply keeps_then; [apply keeps_send|]. apply keeps_modify. intros. case_match; auto with hub.
Qed.

Lemma keeps_remember id r m h : P h -> P (remember id r m h).
Proof.
  apply rb_update'. intros c. split_and!; try done. simpl. pose proof (IndexMap.length_insert_le r m (history (c_local c))).
  case_match; reflect_bools; rewrite ?length_drop; lia.
Qed.
#[local] Hint Resolve keeps_remember : hub.

Lemma keeps_remember_send id m : keeps (remember_send options id m).
Proof. apply keeps_then; [|apply keeps_send]. apply keeps_modify. intros. case_match; auto with hub. Qed.
Lemma keeps_remember_error id r code message : keeps (remember_error options id r code message).
Proof. apply keeps_then; [apply keeps_remember_send|apply keeps_ret]. Qed.
Lemma keeps_resync id m : keeps (resync options id m).
Proof. apply keeps_then; [|apply keeps_send]. apply keeps_modify. auto with hub. Qed.
#[local] Hint Resolve keeps_violation keeps_remember_send keeps_remember_error keeps_resync : hub.

Lemma keeps_send_all id l h : P h -> P (send_all options id l h).2.
Proof.
  revert h. induction l as [|e l IH]; intros h Hw; simpl; [done|]. pose proof (keeps_send_encoded id e h Hw) as W.
  destruct (send_encoded options id e h) as [[] h']; simpl in *; [|done]. apply IH. auto with hub.
Qed.

Lemma keeps_replay id at_ : keeps (replay options id at_).
Proof.
  intros h Hw. unfold replay. set (h1 := update _ _ _). assert (W1 : P h1) by (unfold h1; auto with hub).
  pose proof (keeps_send_all id (missed h1 id at_) h1 W1) as W2. destruct (send_all _ _ _ _) as [[] h2]; simpl in *; [|done].
  apply (keeps_then _ (send options id _) (ret tt)); auto with hub.
Qed.

Lemma keeps_finish_resume id : keeps (finish_resume options id).
Proof.
  intros h Hw. unfold finish_resume. case_match; [|done]. case_match; [|by apply keeps_replay].
  apply (keeps_then _ (resync options id _) (ret tt)); auto with hub.
Qed.
#[local] Hint Resolve keeps_replay keeps_finish_resume : hub.

Lemma keeps_deliver e h id : P h -> P (deliver options e h id).
Proof.
  intros Hw. unfold deliver. case_match; [|done]. pose proof (keeps_send_encoded id e h Hw) as W. destruct (send_encoded _ _ _ _) as [[] h']; simpl in W; auto with hub.
Qed.

Lemma keeps_publication now p : keeps (publication options now p).
Proof.
  intros h Hw. unfold publication. case_match; [|done]. case_match; [done|]. case_match; [|done]. case_match; [|done]. simpl.
  apply keeps_fold; [intros; by apply keeps_deliver|]. apply (rb_retain P HR). apply rb_bump'; [done..|]. apply rb_bump'; [done..|]. by apply (rb_cursors P HR).
Qed.

Lemma keeps_disconnect id h : P h -> P (disconnect id h).
Proof. intros. unfold disconnect. case_match; auto with hub. Qed.

Lemma keeps_revoke matches reason h : P h -> P (revoke matches reason h).2.
Proof. intros. simpl. apply keeps_fold; [|done]. auto with hub. Qed.

Lemma keeps_maintain id now active h : P h -> P (maintain options id now active h).
Proof. intros. unfold maintain. repeat case_match; auto with hub. Qed.

Lemma keeps_close h : P h -> P (close h).
Proof.
  intros. unfold close. case_match; [done|]. apply keeps_fold; [auto with hub|]. apply keeps_fold; [auto with hub|]. by apply (rb_closed P HR).
Qed.

Lemma keeps_acknowledge id correlation status now h : P h -> P (acknowledge id correlation status now h).
Proof. intros. unfold acknowledge. repeat case_match; auto with hub. Qed.

Lemma keeps_initialize id caps from : keeps (initialize options id caps from).
Proof.
  intros h Hw. unfold initialize. case_match; [by apply keeps_violation|].
  assert (W : P (update_local id (start_local caps) h)) by auto with hub. destruct from as [[ep at_]|]; simpl.
  - apply (keeps_then _ (send options id _) (ret tt)); auto with hub.
  - apply (keeps_then _ (send options id _) (ret tt)); auto with hub.
Qed.

Lemma keeps_once id r k : keeps k -> keeps (once options id r k).
Proof. intros Hk h Hw. unfold once. case_match; [|by apply Hk]. apply (keeps_then _ (send options id _) (ret tt)); auto with hub. Qed.

Lemma keeps_await id m : keeps (await id m).
Proof. apply keeps_modify. auto with hub. Qed.
#[local] Hint Resolve keeps_acknowledge keeps_initialize keeps_await : hub.

Lemma keeps_message id m now : keeps (message options id m now).
Proof.
  intros h Hw. unfold message. destruct m as [caps from|r wanted|r wanted|nonce|r at_ wanted|corr status]; [by apply keeps_initialize|..];
    (case_match; [|by apply keeps_violation]).
  - apply keeps_once; [|done]. intros h0 W0. case_match; [by apply keeps_remember_error|by apply keeps_await].
  - apply keeps_once; [|done]. intros h0 W0. apply (keeps_then _ (remember_send options id _) (ret tt)); [auto with hub..|].
    apply keeps_fold; [auto with hub|done].
  - apply (keeps_then _ (send options id _) (ret tt)); auto with hub.
  - apply keeps_once; [apply keeps_await|done].
  - simpl. auto with hub.
Qed.

Lemma keeps_handle_frame id active f now : keeps (handle_frame options id active f now).
Proof.
  intros h Hw. unfold handle_frame. case_match; [simpl; auto with hub|]. set (h1 := record _ _ _). assert (W1 : P h1) by (unfold h1; auto with hub).
  destruct f as [raw|n]; [|by apply keeps_violation]. case_match.
  - apply (keeps_then _ (send options id _) (modify _)); [apply keeps_send|apply keeps_modify; auto with hub|done].
  - repeat case_match; first [by apply keeps_violation|by apply keeps_message].
Qed.

Lemma keeps_continue id m authorized : keeps (continue_ options id m authorized).
Proof.
  intros h Hw. unfold continue_. destruct m as [| r wanted | | | r at_ wanted |]; try done.
  - case_match; [by apply keeps_remember_error|]. apply (keeps_then _ (remember_send options id _) (finish_resume options id)); [auto with hub..|].
    apply keeps_fold; [auto with hub|done].
  - case_match; [by apply keeps_remember_error|]. case_match.
    + apply (keeps_then _ (resync options id _) (ret tt)); auto with hub.
    + apply (keeps_then _ (remember_send options id _) (replay options id at_)); auto with hub.
Qed.

Lemma keeps_recover id m h : keeps m -> P h -> P (recover options id (m h)).
Proof. intros Hm Hw. unfold recover. pose proof (Hm h Hw) as W. destruct (m h) as [[x|] h']; simpl in W; [done|]. by apply keeps_send. Qed.

Lemma keeps_dispatched correlation command issued bounded active h : P h ->
  (control_full h = false -> forall id, P (set_controls (IndexMap.insert correlation (MkPending id (issued + bounded)) (controls h)) h)) ->
  P (dispatch options correlation command issued bounded active h).2.
Proof.
  intros Hw Hi. unfold dispatch. case_match; [done|]. case_match; [done|]. destruct (control_full h) eqn:Ef; [done|].
  apply (keeps_bind _ (send options _ _)); [apply keeps_send| |by apply Hi]. intros [] h2 W2; simpl; [done|auto with hub].
Qed.

(** Every step that neither takes a connection in nor starts a control. *)
Lemma keeps_step h rs h' : step options h rs h' -> P h ->
  (forall id socket owner session now, heap h !! id = None -> P (attach id socket owner session now h).2) ->
  (forall correlation w, (forall st, (correlation, st) ∉ completions h) -> IndexMap.get correlation (controls h) = None -> control_full h = false ->
    P (set_controls (IndexMap.insert correlation w (controls h)) h)) -> P h'.
Proof.
  intros Hst Hw Ha Hd. destruct Hst as [h id sk ow se now Hf|h id|h id c a f now Hc Ht|h id c m au Hc Ht|h id|h now p|h ma re|h id now a|h|h co cm iss bo ac H1 H2|h co|h id sk].
  - by apply Ha.
  - by apply keeps_disconnect.
  - apply (keeps_recover id (handle_frame options id a f now)); [apply keeps_handle_frame|done].
  - apply (keeps_recover id (continue_ options id m au)); [apply keeps_continue|auto with hub].
  - auto with hub.
  - by apply keeps_publication.
  - by apply keeps_revoke.
  - by apply keeps_maintain.
  - by apply keeps_close.
  - apply keeps_dispatched; [done|]. intros Hf id. by apply Hd.
  - auto with hub.
  - auto with hub.
Qed.
End robust.

(** ** The invariant is kept *)

Context (Hopt : valid_options options = true).

Lemma option_bounds : 1 <= max_replay_events options /\ 1 <= max_replay_bytes options.
Proof. unfold valid_options in Hopt. reflect_bools. lia. Qed.

Lemma trim_spec l n : n = weight l -> exists k, (trim options l n).1 = drop k l /\ (trim options l n).2 = weight (drop k l) /\
  len (drop k l) <= max_replay_events options /\ weight (drop k l) <= max_replay_bytes options.
Proof.
  pose proof option_bounds as [B1 B2]. revert n. induction l as [|r l IH]; intros n ->.
  - exists 0%nat. simpl. unfold weight. simpl. split_and!; try done; lia.
  - cbn [trim]. case_match eqn:E.
    + destruct (IH (weight (r :: l) - e_bytes (r_encoded r))) as (k & H1 & H2 & H3 & H4); [change (weight (r :: l)) with (e_bytes (r_encoded r) + weight l); lia|].
      by exists (S k).
    + apply orb_false_iff in E as [E1 E2]. reflect_bools. exists 0%nat. by split_and!.
Qed.

Lemma wf_retain r h : wf h -> wf (retain options r h).
Proof.
  intros Hw. unfold retain. destruct (trim_spec (retained h ++ [r]) (retained_bytes h + e_bytes (r_encoded r))) as (k & H1 & H2 & H3 & H4).
  { rewrite (wf_bytes _ _ _ Hw). unfold weight. rewrite fmap_app, sumZ_app. simpl. lia. }
  destruct (trim _ _ _) as [l n]. simpl in H1, H2. subst l n. destruct Hw as [W1 W2 W3 W4 W5 W6 W7 W8 W9 W10]. constructor; try done.
  by apply (indexed_same h).
Qed.

Lemma wf_attach id socket owner session now h : heap h !! id = None -> wf h -> wf (attach id socket owner session now h).2.
Proof.
  intros Hf Hw. unfold attach. case_match; [done|]. simpl. pose proof Hw as [W1 W2 W3 W4 W5 W6 W7 W8 W9 W10]. pose proof W1 as [I1 I2 I3 I4].
  assert (Hn : id ∉ connections h) by (intros (c & E & _)%W4; congruence).
  set (c0 := MkConnection owner session socket false now new_local None []).
  assert (Hk : forall j, keys_at (set_heap (<[id := c0]> (heap h)) h) j = if decide (id = j) then Some (owner, []) else keys_at h j)
    by (intros j; unfold keys_at; simpl; rewrite lookup_insert; by case_decide).
  constructor; try done; simpl.
  - constructor; try done.
    + intros o k j. rewrite (I1 o k j). change (keys_at (bump ?a ?g)) with (keys_at g). change (keys_at (set_connections ?a ?g)) with (keys_at g). rewrite Hk. case_decide; [|done].
      subst j. unfold keys_at. rewrite Hf. split; [by intros (? & ? & ?)|]. by intros (ks & [= <- <-] & ?%elem_of_nil).
    + intros j o ks. change (keys_at (bump ?a ?g)) with (keys_at g). change (keys_at (set_connections ?a ?g)) with (keys_at g). rewrite Hk. case_decide; [intros [= <- <-]; constructor|apply I3].
  - intros j c _. rewrite lookup_insert. case_decide; [intros [= <-]; done|by eapply W2].
  - apply NoDup_app. split_and!; [done| |apply NoDup_singleton]. by intros x Hx ->%list_elem_of_singleton.
  - intros j. rewrite elem_of_app, list_elem_of_singleton, W4, lookup_insert. case_decide as D; [subst j|]; naive_solver.
  - rewrite W5, length_app. repeat case_decide; try done. simpl. lia.
  - intros j c. rewrite lookup_insert. case_decide; [intros [= <-]; simpl; lia|by eapply W10].
Qed.

Lemma wf_insert_control correlation w h : wf h ->
  (forall st, (correlation, st) ∉ completions h) -> IndexMap.get correlation (controls h) = None -> control_full h = false ->
  wf (set_controls (IndexMap.insert correlation w (controls h)) h).
Proof.
  intros Hw Hc Hn Ef. unfold control_full in Ef. apply orb_false_iff in Ef as [_ Ef]. reflect_bools.
  rewrite (IndexMap.insert_absent _ _ _ Hn). destruct Hw as [W1 W2 W3 W4 W5 W6 W7 W8 W9 W10]. constructor; try done; simpl.
  - by apply (indexed_same h).
  - unfold IndexMap.keys in *. rewrite fmap_app. simpl. apply NoDup_app in W8 as (N1 & N2 & N3). rewrite <- app_assoc. apply NoDup_app. split_and!; [done| |].
    + intros k Hk [->|Hk']%elem_of_cons; [by apply IndexMap.get_None in Hn|by eapply N2].
    + simpl. apply NoDup_cons. split; [|done]. intros ([k st] & -> & Hin)%list_elem_of_fmap. by apply (Hc st).
  - rewrite length_app. simpl. lia.
Qed.

Lemma wf_robust : robust wf.
Proof.
  constructor; intros; [by apply wf_bump|by apply wf_record|by apply wf_remove_subscription|by apply wf_add|by apply wf_settle|by apply wf_disconnect_connection|
    by apply wf_update|by apply (wf_same None 0 h)|by apply wf_retain|by apply (wf_same None 0 h)].
Qed.

Lemma wf_empty_hub : wf empty_hub.
Proof.
  pose proof option_bounds. constructor; simpl; try done; try lia.
  - constructor; try done.
    + intros o k id. unfold subscribers_of, keys_at. simpl. rewrite !lookup_empty. simpl. split; [by intros ?%elem_of_nil|by intros (? & ? & ?)].
    + intros. constructor.
  - constructor.
  - intros id. rewrite lookup_empty. split; [by intros ?%elem_of_nil|by intros (? & ? & ?)].
  - constructor.
Qed.

Lemma wf_step h rs h' : step options h rs h' -> wf h -> wf h'.
Proof.
  intros Hst Hw. eapply (keeps_step wf wf_robust); [exact Hst|exact Hw| |].
  - intros. by apply wf_attach.
  - intros. by apply wf_insert_control.
Qed.

Lemma wf_reachable published h : reach options published h -> wf h.
Proof. induction 1; [exact wf_empty_hub|by eapply wf_step]. Qed.
End inv.
End LiveHubInv.
