(* ===== verification/LiveHubDelivery.v ===== *)
(** * What the connections of the live hub receive

    [LiveHubDelivery] proves what [LiveHub] promises its clients: the exact
    bookkeeping of the hub, who receives a published event, that the events of a
    connection come in order, that a replay from a cursor that is still covered
    hands over every event since, and how client-control requests end. *)
From S2P Require Import Prelude JsString LiveHub LiveHubInv.
From stdpp Require Import base numbers strings gmap option list sorting.
Open Scope Z_scope.

Module LiveHubDelivery.
Import Text JsString LiveHub LiveHubInv.

Section delivery.
Context {Body Socket : Type}.
Context {HS : Sockets (Body := Body) (Socket := Socket)} {HP : Protocol (Body := Body)}.
Context (options : Options) (Hopt : valid_options options = true).
Abbreviation Hub := (Hub (Body := Body) (Socket := Socket)).
Abbreviation Connection := (Connection (Body := Body) (Socket := Socket)).
Abbreviation mute := (said []).
Abbreviation wf := (wfx options None 0).
Implicit Types (h : Hub) (c : Connection).

(** ** Order

    Reads the log of a connection from left to right with the cursor of its
    last event; a restart sets it back. [None] is an event out of order. *)
Fixpoint follow (at_ : Z) (l : list (Delivery (Body := Body))) : option Z :=
  match l with
  | [] => Some at_
  | Restart c :: l => follow c l
  | Sent (Event c _ _ _) :: l => if at_ <? c then follow c l else None
  | Sent _ :: l => follow at_ l
  end.

Lemma follow_app l l' : forall n, follow n (l ++ l') = follow n l ≫= fun n' => follow n' l'.
Proof. induction l as [|[m|c] l IH]; intros n; simpl; [done| |done]. destruct m; try done. case_match; [done|done]. Qed.

Definition is_event (m : ServerMessage (Body := Body)) : bool := match m with Event _ _ _ _ => true | _ => false end.

Lemma follow_other n m : is_event m = false -> follow n [Sent m] = Some n.
Proof. by destruct m. Qed.

(** An event as it is retained. *)
Definition proper (r : Retained (Body := Body)) : Prop :=
  exists s u b, e_message (r_encoded r) = Event (r_cursor r) s u b /\ r_scope r = scope_key s.

(** A rising run of events. *)
Lemma follow_rising (rs : list (Retained (Body := Body))) n N : n <= N -> Forall proper rs ->
  StronglySorted Z.lt (n :: (r_cursor <$> rs)) -> Forall (fun r => r_cursor r <= N) rs ->
  exists n', follow n ((fun r => Sent (e_message (r_encoded r))) <$> rs) = Some n' /\ n' <= N.
Proof.
  revert n. induction rs as [|r rs IH]; intros n Hn Hev Hs Hle; [by exists n|].
  apply Forall_cons in Hev as [(s & u & b & He & _) Hev]. apply Forall_cons in Hle as [Hr Hle]. rewrite fmap_cons in *.
  apply StronglySorted_inv in Hs as [Hs Hlt]. apply Forall_cons in Hlt as [Hlt _]. cbn [follow].
  rewrite He, (proj2 (Z.ltb_lt _ _)) by done. by apply IH.
Qed.

(** ** The published events

    The replay log is what is left of the published events, whose cursors
    count up from one for every account. *)
Definition for_owner (o : string) (l : list (Retained (Body := Body))) : list Retained := filter (fun r => r_owner r = o) l.

Record logged (published : list Retained) h : Prop := Logged {
  lg_suffix : exists k, retained h = drop k published;
  lg_cursors : forall o, r_cursor <$> for_owner o published = seqZ 1 (cursor h o);
  lg_nonneg : forall o, 0 <= cursor h o;
  lg_events : Forall proper published
}.

Lemma logged_same published h h' : cursors h' = cursors h -> retained h' = retained h -> logged published h -> logged published h'.
Proof.
  intros Ec Er [L1 L2 L3 L4]. assert (E : forall o, cursor h' o = cursor h o) by (intros; unfold cursor; by rewrite Ec).
  constructor; rewrite ?Er; try done; intros; rewrite E; auto.
Qed.

Lemma seqZ_sorted m n : StronglySorted Z.lt (seqZ m n).
Proof.
  destruct (Z.le_gt_cases n 0) as [|Hn]; [rewrite seqZ_nil by done; constructor|].
  revert m. pattern n. apply natlike_ind; [intros; rewrite seqZ_nil by done; constructor| |lia].
  clear n Hn. intros n Hn IH m. rewrite seqZ_cons by lia. constructor; [replace (Z.pred (Z.succ n)) with n by lia; apply IH|].
  apply Forall_forall. intros x Hx%elem_of_seqZ. lia.
Qed.

Lemma sorted_sublist (l l' : list Z) : l `sublist_of` l' -> StronglySorted Z.lt l' -> StronglySorted Z.lt l.
Proof.
  induction 1 as [|x l l' Hs IH|x l l' Hs IH]; intros S; [done| |].
  - apply StronglySorted_inv in S as [S F]. constructor; [auto|]. apply Forall_forall. intros y Hy. eapply Forall_forall; [exact F|]. by eapply sublist_elem.
  - apply StronglySorted_inv in S as [S F]. auto.
Qed.

Lemma filter_sublist {A} (P : A -> Prop) `{!forall x, Decision (P x)} (l l' : list A) : l `sublist_of` l' -> filter P l `sublist_of` filter P l'.
Proof.
  induction 1 as [|x l l' Hs IH|x l l' Hs IH]; [done|rewrite !filter_cons; case_decide; [by apply sublist_skip|done]|].
  rewrite filter_cons. case_decide; [by apply sublist_cons|done].
Qed.

Lemma retained_sublist published h o : logged published h -> for_owner o (retained h) `sublist_of` for_owner o published.
Proof. intros [[k ->] _ _ _]. unfold for_owner. apply filter_sublist, sublist_drop. Qed.

(** The retained events of an account rise up to its cursor. *)
Lemma retained_rising published h o (P : Retained (Body := Body) -> Prop) `{!forall r, Decision (P r)} n : logged published h ->
  (forall r, P r -> r_owner r = o /\ n < r_cursor r) ->
  StronglySorted Z.lt (n :: (r_cursor <$> filter P (retained h))) /\ Forall (fun r => r_cursor r <= cursor h o) (filter P (retained h)).
Proof.
  intros Hl Hn. assert (Hsub : filter P (retained h) `sublist_of` for_owner o published).
  { etrans; [|by eapply retained_sublist]. unfold for_owner. rewrite <- (list_filter_filter_l P (fun r => r_owner r = o)) by (intros r Hr; by apply Hn).
    apply sublist_filter. }
  assert (Hin : forall x, x ∈ r_cursor <$> filter P (retained h) -> x ∈ seqZ 1 (cursor h o)).
  { intros x Hc. rewrite <- (lg_cursors _ _ Hl o). eapply sublist_elem; [exact Hc|]. by apply fmap_sublist. }
  split.
  - constructor.
    + eapply sorted_sublist; [apply fmap_sublist, Hsub|]. rewrite (lg_cursors _ _ Hl). apply seqZ_sorted.
    + apply Forall_forall. intros x (r & -> & [Hr _]%list_elem_of_filter)%list_elem_of_fmap. by apply Hn.
  - apply Forall_forall. intros r Hr. assert (Hc : r_cursor r ∈ seqZ 1 (cursor h o)); [|apply elem_of_seqZ in Hc; lia].
    apply Hin, list_elem_of_fmap. eauto.
Qed.

(** ** The order of events *)

Definition plain (m : ServerMessage (Body := Body)) : Prop := is_event m = false.

Record good h c : Prop := Good {
  gd_log : exists n, follow 0 (c_sent c) = Some n /\ n <= cursor h (c_owner c);
  gd_resume : forall z, resume (c_local c) = Some z -> z_reason z = None -> z_cursor z <= cursor h (c_owner c);
  gd_history : Forall (fun p => plain p.2) (history (c_local c))
}.
Definition fine (published : list Retained) h : Prop := logged published h /\ forall id c, heap h !! id = Some c -> good h c.

Lemma good_same h h' c : (forall o, cursor h o <= cursor h' o) -> good h c -> good h' c.
Proof.
  intros E [(n & G1 & G2) G3 G4]. specialize (E (c_owner c)). constructor; [|intros z H1 H2; specialize (G3 z H1 H2); lia|done]. exists n. split; [done|lia].
Qed.

(** Sending what keeps the log in order. *)
Lemma fine_touch published ms id h h' : touch (said ms) id h h' ->
  (forall c n, heap h !! id = Some c -> n <= cursor h (c_owner c) -> exists n', follow n ms = Some n' /\ n' <= cursor h (c_owner c)) ->
  fine published h -> fine published h'.
Proof.
  intros [T1 T2 T3 T4 _ _] Hms [Hl Hg]. split; [by eapply logged_same|].
  assert (Ec : forall o, cursor h' o = cursor h o) by (intros; unfold cursor; by rewrite T3).
  intros j c' E'. destruct (decide (j = id)) as [->|Hne].
  - rewrite E' in T2. inversion T2 as [c x Hs E1 E2|]; subst. destruct Hs as ([Eo _] & Es & _ & Er & _ & Eh). symmetry in E1.
    destruct (Hg id c E1) as [(n & G1 & G2) G3 G4]. constructor; rewrite ?Eo, ?Es, ?Er, ?Eh, ?Ec; [|done|done].
    destruct (Hms c n E1 G2) as (n' & F & Hn'). exists n'. by rewrite follow_app, G1.
  - rewrite T1 in E' by done. eapply good_same; [|by eapply Hg]. intros. rewrite Ec. done.
Qed.

Lemma fine_mute published id h h' : touch mute id h h' -> fine published h -> fine published h'.
Proof. intros T. apply (fine_touch published [] id); [done|]. intros c n _ Hn. by exists n. Qed.

(** A change of a connection's own state. *)
Lemma fine_update published id f h : (forall c, c_owner (f c) = c_owner c) ->
  (forall c, heap h !! id = Some c -> good h c -> good h (f c)) -> fine published h -> fine published (update id f h).
Proof.
  intros Ho Hf [Hl Hg]. split; [by apply (logged_same _ h)|]. intros j c' E. apply (good_same h); [done|].
  unfold update in E. simpl in E. destruct (decide (id = j)) as [<-|Hne]; [|rewrite lookup_alter_ne in E by done; by eapply Hg].
  rewrite lookup_alter_eq in E. apply fmap_Some in E as (c & E & ->). apply Hf; [done|]. by eapply Hg.
Qed.

Lemma fine_same published h h' : heap h' = heap h -> cursors h' = cursors h -> retained h' = retained h -> fine published h -> fine published h'.
Proof.
  intros Eh Ec Er [Hl Hg]. split; [by eapply logged_same|]. intros id c E. rewrite Eh in E. eapply good_same; [|by eapply Hg].
  intros. unfold cursor. by rewrite Ec.
Qed.

Lemma fine_plain_send published id m : plain m -> preserves (fine published) (send options id m).
Proof.
  intros Hm h Hf. unfold send. case_match; [|done]. destruct (send_encoded_spec options id (MkEncoded m (byte_size m) true) h) as [_ T].
  destruct (send_encoded _ _ _ _) as [ok h']. simpl in *. eapply fine_touch; [exact T| |done]. intros c n _ Hn. exists n.
  case_match; [by rewrite follow_other|done].
Qed.

Section operations.
Context (published : list (Retained (Body := Body))).
Abbreviation fine := (fine published).
Abbreviation safe := (preserves fine).

Create HintDb order discriminated.
#[local] Hint Resolve keeps_bind keeps_then keeps_ret keeps_modify fine_plain_send : order.
#[local] Hint Extern 1 (plain _) => reflexivity : order.

Lemma fine_bump k h : fine h -> fine (bump k h).
Proof. by apply fine_same. Qed.
Lemma fine_record u h : fine h -> fine (record options u h).
Proof. unfold record. case_match; [by apply fine_same|done]. Qed.
Lemma fine_settle x y h : fine h -> fine (settle x y h).
Proof. unfold settle. case_match; [by apply fine_same|done]. Qed.
Lemma fine_add id scope h : fine h -> fine (add_subscription id scope h).
Proof. apply fine_mute with id, touch_add. Qed.
Lemma fine_remove id key h : fine h -> fine (remove_subscription id key h).
Proof. apply fine_mute with id, touch_remove. Qed.
Lemma fine_replace id wanted h : fine h -> fine (replace_subscriptions id wanted h).
Proof. apply fine_mute with id, touch_replace. Qed.
Lemma fine_disconnect_connection id h : fine h -> fine (disconnect_connection id h).2.
Proof. apply fine_mute with id, touch_disconnect_connection. Qed.
Lemma fine_close_connection id code reason h : fine h -> fine (close_connection id code reason h).
Proof. apply fine_mute with id, touch_close_connection. Qed.
Lemma fine_fold {A} (f : Hub -> A -> Hub) l : (forall h y, fine h -> fine (f h y)) -> forall h, fine h -> fine (fold_left f l h).
Proof. intros Hf. induction l as [|y l IH]; intros h Hw; simpl; [done|]. by apply IH, Hf. Qed.
#[local] Hint Resolve fine_bump fine_record fine_settle fine_add fine_remove fine_replace fine_disconnect_connection fine_close_connection : order.

(** A change of a connection that nothing of the order depends on. *)
Lemma fine_aside id f h : (forall c, c_owner (f c) = c_owner c /\ c_sent (f c) = c_sent c /\ resume (c_local (f c)) = resume (c_local c) /\
  history (c_local (f c)) = history (c_local c)) -> fine h -> fine (update id f h).
Proof.
  intros Hf. apply fine_update; [intros c; apply Hf|]. intros c _ [G1 G2 G3]. destruct (Hf c) as (E1 & E2 & E3 & E4). by constructor; rewrite ?E1, ?E2, ?E3, ?E4.
Qed.
#[local] Hint Extern 2 (fine (update _ _ _)) => apply fine_aside; [done|] : order.
#[local] Hint Extern 2 (fine (update_local _ _ _)) => apply fine_aside; [done|] : order.

Lemma fine_violation id r code message : safe (violation options id r code message).
Proof.
  apply keeps_then; [apply keeps_modify; intros; auto with order|]. apply keeps_then; [auto with order|]. apply keeps_modify. intros. case_match; auto with order.
Qed.

Lemma fine_remember id r m h : plain m -> fine h -> fine (remember id r m h).
Proof.
  intros Hm. apply fine_update; [done|]. intros c _ [G1 G2 G3]. constructor; [done|done|]. simpl.
  assert (F : Forall (fun p => plain p.2) (IndexMap.insert r m (history (c_local c)))).
  { apply Forall_forall. intros p [->|Hp]%IndexMap.elem_of_insert; [done|]. by eapply Forall_forall in G3. }
  case_match; [by apply Forall_drop|done].
Qed.

Lemma fine_remember_send id m : plain m -> safe (remember_send options id m).
Proof.
  intros Hm. apply keeps_then; [|auto with order]. apply keeps_modify. intros. case_match; [by apply fine_remember|done].
Qed.
Lemma fine_remember_error id r code message : safe (remember_error options id r code message).
Proof. apply keeps_then; [by apply fine_remember_send|apply keeps_ret]. Qed.
Lemma fine_resync id m : plain m -> safe (resync options id m).
Proof. intros Hm. apply keeps_then; [apply keeps_modify|]; auto with order. Qed.
#[local] Hint Resolve fine_violation fine_remember fine_remember_send fine_remember_error fine_resync : order.

(** Setting where a connection resumes. *)
Lemma fine_set_resume id z h : (forall at_, z = Some (MkResume at_ None) -> forall c, heap h !! id = Some c -> at_ <= cursor h (c_owner c)) ->
  fine h -> fine (update_local id (set_resume z) h).
Proof.
  intros Hz. apply fine_update; [done|]. intros c Ec [G1 G2 G3]. constructor; [done| |done]. simpl. intros [at_ why] -> Hn. simpl in Hn. subst why. simpl. by eapply Hz.
Qed.

(** ** Replay *)

(** What a row of sends gives a connection: the first of them, all if it is not
    cut short. *)
Lemma send_all_spec id l h : exists k, touch (said ((fun e => Sent (e_message e)) <$> take k l)) id h (send_all options id l h).2 /\
  (if (send_all options id l h).1 then k = length l else is_closed (send_all options id l h).2 id = true).
Proof.
  revert h. induction l as [|e l IH]; intros h; cbn [send_all]; [exists 0%nat; by split|].
  destruct (send_encoded_spec options id e h) as [E T]. pose proof (send_encoded_shuts options id e h) as Hsh.
  destruct (send_encoded options id e h) as [ok h1]. simpl in E, T, Hsh. destruct ok.
  - rewrite <- E in T. destruct (IH (bump delivered_event_count (bump replayed_event_count h1))) as (k & T' & Hk). exists (S k). split.
    + eapply (touch_app [Sent (e_message e)]); [exact T|]. eapply touch_mute_l; [|exact T']. etrans; apply touch_bump; typeclasses eauto.
    + case_match; [simpl; by f_equal|done].
  - rewrite <- E in T. exists 0%nat. split; [done|by apply Hsh].
Qed.

(** Any row of missed events, cut anywhere, is in order after its cursor. *)
Lemma missed_follow h id at_ k : logged published h -> at_ <= cursor h (owner_of h id) ->
  exists n, follow at_ ((fun e => Sent (e_message e)) <$> take k (missed h id at_)) = Some n /\ n <= cursor h (owner_of h id).
Proof.
  intros Hl Hat. unfold missed. rewrite <- fmap_take, <- list_fmap_compose.
  destruct (retained_rising published h (owner_of h id) (fun e => r_owner e = owner_of h id /\ at_ < r_cursor e /\ r_scope e ∈ keys_of h id) at_ Hl) as [S F]; [tauto|].
  set (l := filter _ (retained h)) in *. apply follow_rising; [done| | |by apply Forall_take].
  - apply Forall_take, Forall_forall. intros r [_ Hr]%list_elem_of_filter. destruct (lg_suffix _ _ Hl) as [i Ei]. rewrite Ei in Hr.
    eapply Forall_forall; [exact (lg_events _ _ Hl)|]. eapply sublist_elem; [exact Hr|apply sublist_drop].
  - eapply sorted_sublist; [|exact S]. apply sublist_skip, fmap_sublist, sublist_take.
Qed.

(** A replay starts the log over, hands over missed events in a row, and says
    that the connection caught up only after the last one. *)
Definition restarted (id : nat) (at_ : Z) h : Hub :=
  update id (add_sent (Restart at_)) (bump replay_session_count (update_local id (set_resume None) h)).

Lemma replay_log id at_ h : exists k tail,
  touch (said (Restart at_ :: ((fun e => Sent (e_message e)) <$> take k (missed h id at_)) ++ tail)) id (update_local id (set_resume None) h) (replay options id at_ h).2 /\
  let done_ := CaughtUp (cursor h (owner_of h id)) (len (missed h id at_)) in
  (tail = [] \/ k = length (missed h id at_) /\ tail = [Sent done_]) /\
  (is_closed (replay options id at_ h).2 id = false -> k = length (missed h id at_) /\ (accepts done_ = true -> tail = [Sent done_])).
Proof.
  unfold replay. fold (restarted id at_ h). set (h0 := update_local id (set_resume None) h).
  assert (T0 : touch (said [Restart at_]) id h0 (restarted id at_ h)).
  { eapply touch_mute_l; [apply (touch_bump _ id replay_session_count)|]. by apply touch_update. }
  assert (Hsame : owner_of (restarted id at_ h) id = owner_of h id /\ keys_of (restarted id at_ h) id = keys_of h id).
  { unfold owner_of, keys_of, local_of, restarted, update_local, update. simpl. rewrite !lookup_alter_eq. by destruct (heap h !! id). }
  assert (Em : missed (restarted id at_ h) id at_ = missed h id at_) by (unfold missed; destruct Hsame as [-> ->]; done).
  rewrite Em. destruct (send_all_spec id (missed h id at_) (restarted id at_ h)) as (k & T1 & Hk). exists k.
  destruct (send_all options id (missed h id at_) (restarted id at_ h)) as [[] h2]; simpl in T1, Hk.
  2: { exists []. rewrite app_nil_r. split; [by eapply (touch_app [Restart at_])|]. split; [by left|]. simpl. by rewrite Hk. }
  pose proof (touch_app [Restart at_] _ id _ _ _ T0 T1) as T2.
  assert (Ecur : cursor h2 (owner_of h2 id) = cursor h (owner_of h id)).
  { destruct T1 as [_ T1 Tc _ _ _]. unfold cursor. rewrite Tc. f_equal. destruct Hsame as [<- _]. f_equal. unfold owner_of.
    destruct (heap (restarted id at_ h) !! id) as [c|], (heap h2 !! id) as [c'|]; inversion T1 as [? ? [[Eo _] _]|]; by subst. }
  rewrite Ecur. set (m := CaughtUp (cursor h (owner_of h id)) (len (missed h id at_))).
  unfold then_, bind, send. destruct (accepts m); [|exists []; rewrite app_nil_r; cbn [snd]; split_and!; [exact T2|by left|done]].
  destruct (send_encoded_spec options id (MkEncoded m (byte_size m) true) h2) as [_ T3].
  pose proof (send_encoded_spec options id (MkEncoded m (byte_size m) true) h2) as [E3 _]. pose proof (send_encoded_shuts options id (MkEncoded m (byte_size m) true) h2) as Hsh.
  destruct (send_encoded _ _ _ _) as [ok h3]. cbn [snd fst ret] in *. eexists. split; [exact (touch_app _ _ id _ _ _ T2 T3)|]. rewrite <- E3.
  destruct ok; [split; [by right|done]|split; [by left|]; by rewrite Hsh].
Qed.

Lemma fine_replay id at_ h : (forall c, heap h !! id = Some c -> at_ <= cursor h (c_owner c)) -> fine h -> fine (replay options id at_ h).2.
Proof.
  intros Hat Hf. destruct (replay_log id at_ h) as (k & tail & T & Htail & _).
  eapply fine_touch; [exact T| |apply fine_set_resume; [done|exact Hf]]. intros c n Ec _.
  assert (Eo : owner_of h id = c_owner c /\ exists c0, heap h !! id = Some c0 /\ c_owner c0 = c_owner c).
  { unfold update_local, update in Ec. simpl in Ec. rewrite lookup_alter_eq in Ec. apply fmap_Some in Ec as (c0 & E0 & ->). unfold owner_of. rewrite E0. simpl. eauto. }
  destruct Eo as [Eo (c0 & E0 & Eo')]. change (cursor (update_local id (set_resume None) h) (c_owner c)) with (cursor h (c_owner c)). rewrite <- Eo.
  destruct (missed_follow h id at_ k (proj1 Hf)) as (n' & F & Hn'); [rewrite Eo, <- Eo'; by apply Hat|].
  exists n'. split; [|done]. cbn [follow]. rewrite follow_app, F. simpl. by destruct Htail as [->|[_ ->]].
Qed.

Lemma resume_reason_le h o ep at_ : resume_reason options h o ep at_ = None -> at_ <= cursor h o.
Proof. unfold resume_reason. case_bool_decide; [|done]. case_match eqn:E; [done|]. intros _. apply orb_false_iff in E as [E _]. apply orb_false_iff in E as [E _]. reflect_bools. lia. Qed.

Lemma owner_lookup h id c : heap h !! id = Some c -> owner_of h id = c_owner c.
Proof. unfold owner_of. by intros ->. Qed.

Lemma fine_finish_resume id : safe (finish_resume options id).
Proof.
  intros h Hf. unfold finish_resume. destruct (resume (local_of h id)) as [z|] eqn:Ez; [|done]. destruct (z_reason z) eqn:Er.
  - apply (keeps_then _ (resync options id _) (ret tt)); auto with order.
  - apply fine_replay; [|done]. intros c Ec. unfold local_of in Ez. rewrite Ec in Ez. by eapply (gd_resume _ _ (proj2 Hf id c Ec)).
Qed.

Lemma fine_initialize id caps from : safe (initialize options id caps from).
Proof.
  intros h Hf. unfold initialize. case_match; [by apply fine_violation|].
  assert (F : fine (update_local id (start_local caps) h)) by auto with order. destruct from as [[ep at_]|]; cbv zeta.
  - apply (keeps_then _ (send options id _) (ret tt)); [auto with order..|]. apply fine_set_resume; [|auto with order].
    intros at' E c Ec. injection E as <- Er. rewrite (owner_lookup _ _ _ Ec) in Er. by apply resume_reason_le in Er.
  - apply (keeps_then _ (send options id _) (ret tt)); auto with order.
Qed.

Lemma fine_once id r k : safe k -> safe (once options id r k).
Proof.
  intros Hk h Hf. unfold once. destruct (IndexMap.get r (history (local_of h id))) as [m|] eqn:E; [|by apply Hk].
  apply (keeps_then _ (send options id m) (ret tt)); [|auto with order|done]. apply fine_plain_send. apply IndexMap.get_In in E.
  unfold local_of in E. destruct (heap h !! id) as [c|] eqn:Ec; [|by apply elem_of_nil in E].
  pose proof (gd_history _ _ (proj2 Hf id c Ec)) as G. exact (proj1 (Forall_forall _ _) G (r, m) E).
Qed.

Lemma fine_await id m : safe (await id m).
Proof. apply keeps_modify. auto with order. Qed.
Lemma fine_acknowledge id correlation status now h : fine h -> fine (acknowledge id correlation status now h).
Proof. intros. unfold acknowledge. repeat case_match; auto with order. Qed.
#[local] Hint Resolve fine_finish_resume fine_initialize fine_await fine_acknowledge : order.

Lemma fine_message id m now : safe (message options id m now).
Proof.
  intros h Hw. unfold message. destruct m as [caps from|r wanted|r wanted|nonce|r at_ wanted|corr status]; [by apply fine_initialize|..];
    (case_match; [|by apply fine_violation]).
  - apply fine_once; [|done]. intros h0 W0. case_match; [by apply fine_remember_error|by apply fine_await].
  - apply fine_once; [|done]. intros h0 W0. apply (keeps_then _ (remember_send options id _) (ret tt)); [auto with order..|].
    apply fine_fold; [auto with order|done].
  - apply (keeps_then _ (send options id _) (ret tt)); auto with order.
  - apply fine_once; [apply fine_await|done].
  - simpl. auto with order.
Qed.

Lemma fine_handle_frame id active f now : safe (handle_frame options id active f now).
Proof.
  intros h Hw. unfold handle_frame. case_match; [simpl; auto with order|]. set (h1 := record _ _ _). assert (W1 : fine h1) by (unfold h1; auto with order).
  destruct f as [raw|n]; [|by apply fine_violation]. case_match.
  - apply (keeps_then _ (send options id _) (modify _)); [auto with order|apply keeps_modify; auto with order|done].
  - repeat case_match; first [by apply fine_violation|by apply fine_message].
Qed.

Lemma touch_owner R id h h' : (forall c c', R c c' -> same_owner c c') -> touch R id h h' -> owner_of h' id = owner_of h id.
Proof.
  intros HR T. pose proof (to_self _ _ _ _ T) as T1. unfold owner_of. destruct (heap h !! id) as [c|], (heap h' !! id) as [c'|]; inversion T1; subst; [|done].
  by apply (HR c c').
Qed.

Lemma fine_continue id m authorized : safe (continue_ options id m authorized).
Proof.
  intros h Hw. unfold continue_. destruct m as [| r wanted | | | r at_ wanted |]; try done.
  - case_match; [by apply fine_remember_error|]. apply (keeps_then _ (remember_send options id _) (finish_resume options id)); [auto with order..|].
    apply fine_fold; [auto with order|done].
  - case_match; [by apply fine_remember_error|]. pose proof (touch_replace id wanted h) as T. set (h1 := replace_subscriptions id wanted h) in *.
    assert (F1 : fine h1) by (unfold h1; auto with order). destruct (resume_reason _ _ _ _ _) as [why|] eqn:Er.
    + apply (keeps_then _ (resync options id _) (ret tt)); [auto with order..|]. apply fine_remember; [done|]. apply fine_set_resume; [|done]. intros ? [=].
    + unfold then_, bind. set (m := Subscribed _ _ _).
      assert (T2 : touch (fun c c' => same_owner c c') id h1 (remember_send options id m h1).2).
      { unfold remember_send, then_, bind, modify, send. cbn [request_of m]. destruct (accepts m); [|simpl; by apply touch_update].
        trans (remember id r m h1); [by apply touch_update|].
        destruct (send_encoded_spec options id (MkEncoded m (byte_size m) true) (remember id r m h1)) as [_ T2]. destruct (send_encoded _ _ _ _).
        eapply touch_weaken; [|exact T2]. by intros c c' []. }
      pose proof (fine_remember_send id m eq_refl h1 F1) as F2. destruct (remember_send options id m h1) as [[ok|] h2]; simpl in *; [|done].
      apply fine_replay; [|done]. intros c Ec. apply resume_reason_le in Er.
      rewrite <- (owner_lookup _ _ _ Ec), (touch_owner _ id h1 h2 (fun _ _ H => H) T2), (touch_owner _ id h h1 (fun _ _ H => proj1 H) T).
      unfold cursor in *. by rewrite (to_cursors _ _ _ _ T2), (to_cursors _ _ _ _ T).
Qed.
End operations.

(** ** Publication *)

(** What a subscriber is sent of an event. *)
Definition listening c : bool := initialized (c_local c) && match resume (c_local c) with None => true | Some _ => false end.
Definition gets_event (e : Encoded) c : list Delivery := if listening c && takes options e c then [Sent (e_message e)] else [].

Lemma deliver_spec e h id c : heap h !! id = Some c -> touch (said (gets_event e c)) id h (deliver options e h id).
Proof.
  intros Ec. unfold deliver, gets_event. replace (eligible h id) with (listening c) by (unfold eligible, listening, local_of; by rewrite Ec).
  destruct (listening c); [|simpl; reflexivity]. destruct (send_encoded_spec options id e h) as [E T]. rewrite Ec in E, T. simpl in E, T.
  destruct (send_encoded options id e h) as [ok h']. simpl in E, T. subst ok. cbn [andb]. destruct (takes options e c); [|done].
  eapply touch_mute_r; [exact T|apply touch_bump; typeclasses eauto].
Qed.

Lemma deliver_none e h id : heap h !! id = None -> deliver options e h id = h.
Proof.
  intros Ec. unfold deliver, eligible, local_of. by rewrite Ec.
Qed.

Lemma deliver_all e ids : forall h, NoDup ids ->
  let h' := fold_left (deliver options e) ids h in
  cursors h' = cursors h /\ retained h' = retained h /\
  forall j, if decide (j ∈ ids) then option_Forall2 (fun c c' => said (gets_event e c) c c') (heap h !! j) (heap h' !! j) else heap h' !! j = heap h !! j.
Proof.
  induction ids as [|id ids IH]; intros h Hn; cbn zeta; cbn [fold_left].
  { split_and!; [done..|]. intros j. by rewrite decide_False by apply not_elem_of_nil. }
  apply NoDup_cons in Hn as [Hid Hn].
  assert (H1 : cursors (deliver options e h id) = cursors h /\ retained (deliver options e h id) = retained h /\
    (forall j, j <> id -> heap (deliver options e h id) !! j = heap h !! j) /\
    option_Forall2 (fun c c' => said (gets_event e c) c c') (heap h !! id) (heap (deliver options e h id) !! id)).
  { destruct (heap h !! id) as [c|] eqn:Ec; [|rewrite deliver_none by done; split_and!; try done; rewrite Ec; constructor].
    destruct (deliver_spec e h id c Ec) as [T1 T2 T3 T4 _ _]. rewrite Ec in T2. split_and!; try done. inversion T2; by constructor. }
  destruct H1 as (C1 & R1 & O1 & S1). destruct (IH (deliver options e h id) Hn) as (C2 & R2 & F2).
  split_and!; [congruence..|]. intros j. specialize (F2 j). destruct (decide (j = id)) as [->|Hne].
  - rewrite decide_True by left. rewrite decide_False in F2 by done. by rewrite F2.
  - rewrite (O1 j Hne) in F2. destruct (decide (j ∈ ids)) as [Hin|Hin]; [by rewrite decide_True by (by right)|].
    by rewrite decide_False by (intros [?|?]%elem_of_cons; tauto).
Qed.

(** The state before the deliveries. *)
Definition published_to (r : Retained) h : Hub :=
  retain options r (bump publication_count (bump current_cursor (set_cursors (<[r_owner r := r_cursor r]> (cursors h)) h))).

Lemma publication_cases now p h :
  (publication options now p h = (None, h)) \/
  exists r, publication options now p h = (Some r, fold_left (deliver options (r_encoded r)) (subscribers_of h (r_owner r) (r_scope r)) (published_to r h)) /\
    closed h = false /\ Some (r_owner r) = p_owner p /\ r_cursor r = cursor h (r_owner r) + 1 /\ proper r /\ r_scope r = scope_key (p_scope p).
Proof.
  unfold publication. destruct (p_owner p) as [o|]; [|by left]. destruct (closed h); [by left|]. destruct (stamp now (p_body p)) as [b|]; [|by left].
  destruct (accepts _); [|by left]. right. exists (event_of p o (cursor h o + 1) b). split; [|split_and!; try done; unfold proper; simpl; eauto].
  unfold published_to, retain. simpl. by destruct (trim _ _ _).
Qed.

Lemma published_to_fields r h : cursors (published_to r h) = <[r_owner r := r_cursor r]> (cursors h) /\ heap (published_to r h) = heap h /\
  retained (published_to r h) = (trim options (retained h ++ [r]) (retained_bytes h + e_bytes (r_encoded r))).1.
Proof. unfold published_to, retain. simpl. by destruct (trim _ _ _). Qed.

Lemma drop_suffix {A} k (l : list A) x : exists k', forall j, drop j (drop k l ++ [x]) = drop (k' + j) (l ++ [x]).
Proof.
  exists (min k (length l)). intros j. rewrite <- drop_drop. f_equal. rewrite drop_app_le by lia. f_equal.
  destruct (Nat.min_spec k (length l)) as [[? ->]|[? ->]]; [done|]. by rewrite !drop_ge by lia.
Qed.

Lemma logged_published published r h : wf h -> logged published h -> r_cursor r = cursor h (r_owner r) + 1 -> proper r ->
  logged (published ++ [r]) (published_to r h).
Proof.
  intros Hw [[k Lk] L2 L3 L4] Hc Hp. destruct (published_to_fields r h) as (Fc & _ & Fr).
  assert (Ec : forall o, cursor (published_to r h) o = if decide (r_owner r = o) then cursor h o + 1 else cursor h o).
  { intros o. unfold cursor in *. rewrite Fc, lookup_insert. case_decide; [|done]. subst o. simpl. done. }
  constructor.
  - rewrite Fr. destruct (trim_spec options Hopt (retained h ++ [r]) (retained_bytes h + e_bytes (r_encoded r))) as (j & -> & _).
    { rewrite (wf_bytes _ _ _ _ Hw). unfold weight. rewrite fmap_app, sumZ_app. simpl. lia. }
    destruct (drop_suffix k published r) as [k' Hk']. exists (k' + j)%nat. by rewrite Lk, Hk'.
  - intros o. unfold for_owner. rewrite Ec, filter_app, fmap_app, filter_cons. specialize (L2 o). specialize (L3 o). unfold for_owner in L2. rewrite L2.
    case_decide as D; simpl; [|by rewrite app_nil_r]. subst o. rewrite seqZ_app by lia. f_equal. rewrite Hc. rewrite seqZ_cons by lia. simpl.
    f_equal; lia.
  - intros o. rewrite Ec. specialize (L3 o). case_decide; lia.
  - apply Forall_app. by repeat constructor.
Qed.

Lemma subscriber_connection h o k id : wf h -> id ∈ subscribers_of h o k -> exists c, heap h !! id = Some c /\ c_owner c = o /\ k ∈ keys_of h id.
Proof.
  intros Hw Hin. apply (ix_exact _ (wf_index _ _ _ _ Hw)) in Hin as (ks & E & Hk). unfold keys_at in E. unfold keys_of, local_of.
  destruct (heap h !! id) as [c|]; [|done]. simpl in *. injection E as <- <-. eauto.
Qed.

(** What a successful publication does to the connections. *)
Lemma publication_heap r h : wf h -> let h' := fold_left (deliver options (r_encoded r)) (subscribers_of h (r_owner r) (r_scope r)) (published_to r h) in
  cursors h' = cursors (published_to r h) /\ retained h' = retained (published_to r h) /\
  forall j, if decide (j ∈ subscribers_of h (r_owner r) (r_scope r))
    then option_Forall2 (fun c c' => said (gets_event (r_encoded r) c) c c') (heap h !! j) (heap h' !! j) else heap h' !! j = heap h !! j.
Proof.
  intros Hw. destruct (deliver_all (r_encoded r) (subscribers_of h (r_owner r) (r_scope r)) (published_to r h) (ix_once _ (wf_index _ _ _ _ Hw) _ _)) as (D1 & D2 & D3).
  destruct (published_to_fields r h) as (_ & Fh & _). split_and!; try done. intros j. specialize (D3 j). by rewrite Fh in D3.
Qed.

Lemma fine_publication now p published h : wf h -> fine published h ->
  fine (published ++ option_list (publication options now p h).1) (publication options now p h).2.
Proof.
  intros Hw [Hl Hg]. destruct (publication_cases now p h) as [-> | (r & -> & _ & _ & Hc & Hp & _)]; simpl; [by rewrite app_nil_r|].
  destruct (publication_heap r h Hw) as (D1 & D2 & D3). set (h' := fold_left _ _ _) in *.
  assert (Hl' : logged (published ++ [r]) h') by (eapply logged_same; [exact D1|exact D2|by apply logged_published]).
  destruct (published_to_fields r h) as (Fc & _ & _).
  assert (Ec : forall o, cursor h' o = if decide (r_owner r = o) then cursor h o + 1 else cursor h o).
  { intros o. unfold cursor in *. rewrite D1, Fc, lookup_insert. case_decide; [|done]. by subst o. }
  split; [done|]. intros j c' E'. specialize (D3 j). rewrite E' in D3. case_decide as Hin.
  - destruct (subscriber_connection _ _ _ _ Hw Hin) as (c & E & Eo & _). rewrite E in D3. inversion D3 as [? ? Hs|]; subst.
    destruct Hs as ([So _] & Ss & _ & Sr & _ & Sh). destruct (Hg j c E) as [(n & G1 & G2) G3 G4]. constructor; rewrite ?So, ?Ss, ?Sr, ?Sh, ?Ec, ?Eo.
    + rewrite decide_True by done. rewrite follow_app, G1. simpl. unfold gets_event. destruct Hp as (sc & u & b & -> & _). rewrite Eo in G2.
      case_match; simpl; [|exists n; split; [done|lia]]. rewrite (proj2 (Z.ltb_lt _ _)) by lia. exists (r_cursor r). split; [done|lia].
    + rewrite decide_True by done. intros z Z1 Z2. specialize (G3 z Z1 Z2). rewrite Eo in G3. lia.
    + done.
  - symmetry in D3. eapply good_same; [|by eapply Hg]. intros o. rewrite Ec. case_decide; lia.
Qed.

(** ** Every step *)

Lemma fine_dispatch published correlation command issued bounded active h : fine published h ->
  fine published (dispatch options correlation command issued bounded active h).2.
Proof.
  intros Hf. unfold dispatch. case_match; [done|]. case_match; [done|]. case_match; [done|].
  apply (keeps_bind _ (send options _ _)); [by apply fine_plain_send| |by apply (fine_same _ h)].
  intros [] h2 W2; simpl; [done|by apply fine_settle].
Qed.

Lemma fine_attach published id socket owner session now h : fine published h -> fine published (attach id socket owner session now h).2.
Proof.
  intros Hf. unfold attach. case_match; [done|]. simpl. destruct Hf as [Hl Hg]. split; [by apply (logged_same _ h)|]. intros j c. simpl. rewrite lookup_insert.
  case_decide; [|intros E; eapply good_same; [|by eapply Hg]; done]. intros [= <-]. constructor; simpl; [|done|constructor].
  exists 0. split; [done|]. apply (lg_nonneg _ _ Hl).
Qed.

Lemma fine_recover published id m h : preserves (fine published) m -> fine published h -> fine published (recover options id (m h)).
Proof.
  intros Hm Hf. unfold recover. pose proof (Hm h Hf) as F. destruct (m h) as [[x|] h']; simpl in F; [done|]. by apply fine_plain_send.
Qed.

Lemma fine_step published h rs h' : wf h -> step options h rs h' -> fine published h -> fine (published ++ rs) h'.
Proof.
  intros Hw Hst Hf. destruct Hst as [h id sk ow se now Hn|h id|h id c a f now Hc Ht|h id c m au Hc Ht|h id|h now p|h ma re|h id now a|h|h co cm iss bo ac H1 H2|h co|h id sk];
    rewrite ?app_nil_r.
  - by apply fine_attach.
  - unfold disconnect. case_match; [by apply fine_disconnect_connection|done].
  - apply (fine_recover _ _ (handle_frame options id a f now)); [apply fine_handle_frame|done].
  - apply (fine_recover _ _ (continue_ options id m au)); [apply fine_continue|by apply fine_aside].
  - by apply fine_aside.
  - by apply fine_publication.
  - apply fine_fold; [|done]. intros. by apply fine_close_connection.
  - unfold maintain. case_match; [by apply fine_close_connection, fine_bump|]. case_match; [done|by apply fine_close_connection].
  - unfold close. case_match; [done|]. apply fine_fold; [intros; by apply fine_close_connection|].
    apply fine_fold; [intros; by apply fine_settle|by apply (fine_same _ h)].
  - by apply fine_dispatch.
  - by apply fine_settle.
  - by apply fine_aside.
Qed.

Lemma fine_reach published h : reach options published h -> fine published h.
Proof.
  induction 1 as [|published h rs h' Hr IH Hst].
  - split; [|by intros id c]. constructor; [by exists 0%nat|intros o; unfold cursor; simpl; by rewrite lookup_empty| |constructor].
    intros o. unfold cursor. simpl. by rewrite lookup_empty.
  - eapply fine_step; [by eapply wf_reachable|done|done].
Qed.

(** ** Client-control requests *)

(** What an operation may do to the requests: answer some, and lose none. *)
Record tells h h' : Prop := Tells {
  te_more : exists l, completions h' = completions h ++ l;
  te_kept : forall x w, IndexMap.get x (controls h) = Some w -> IndexMap.get x (controls h') = Some w \/ exists st, (x, st) ∈ completions h'
}.

#[global] Instance tells_preorder : PreOrder tells.
Proof.
  split.
  - intros h. constructor; [exists []; by rewrite app_nil_r|auto].
  - intros h1 h2 h3 [[l E] A] [[l' E'] B]. constructor; [exists (l ++ l'); by rewrite E', E, app_assoc|]. intros x w Hx.
    destruct (A x w Hx) as [Hy|(st & Hst)]; [by apply B|]. right. exists st. rewrite E'. apply elem_of_app. by left.
Qed.

Lemma tells_same h h' : controls h' = controls h -> completions h' = completions h -> tells h h'.
Proof. intros E1 E2. constructor; rewrite ?E1, ?E2; [exists []; by rewrite app_nil_r|auto]. Qed.

Lemma tells_bump k h : tells h (bump k h).
Proof. by apply tells_same. Qed.

Lemma tells_settle x st h : tells h (settle x st h).
Proof.
  unfold settle. case_match; [|reflexivity]. constructor; simpl; [eauto|]. intros y w Hy. rewrite IndexMap.get_remove.
  case_decide; [subst y; right; exists st; apply elem_of_app; right; left|by left].
Qed.

Lemma tells_fold {A} (f : Hub -> A -> Hub) l : (forall h y, tells h (f h y)) -> forall h, tells h (fold_left f l h).
Proof. intros Hf. induction l as [|y l IH]; intros h; simpl; [reflexivity|]. etrans; [apply Hf|apply IH]. Qed.

Lemma tells_remove id key h : tells h (remove_subscription id key h).
Proof. unfold remove_subscription. repeat case_match; by apply tells_same. Qed.
Lemma tells_add id scope h : tells h (add_subscription id scope h).
Proof. unfold add_subscription. repeat case_match; by apply tells_same. Qed.

Lemma tells_disconnect id h : tells h (disconnect_connection id h).2.
Proof.
  unfold disconnect_connection. case_match; [reflexivity|]. simpl. etrans; [|apply tells_fold; intros; apply tells_settle].
  etrans; [|apply tells_bump]. etrans; [|apply tells_fold; intros; apply tells_remove]. by apply tells_same.
Qed.

Lemma tells_robust h0 : robust options (tells h0).
Proof.
  assert (T : forall h h', tells h h' -> tells h0 h -> tells h0 h') by (intros; by etrans).
  constructor; intros; (eapply T; [|eassumption]); try (by apply tells_same).
  - unfold record. case_match; by apply tells_same.
  - apply tells_remove.
  - apply tells_add.
  - apply tells_settle.
  - apply tells_disconnect.
  - unfold retain. case_match. by apply tells_same.
Qed.

Lemma tells_step h rs h' : step options h rs h' -> tells h h'.
Proof.
  intros Hst. eapply (keeps_step options (tells h) (tells_robust h)); [exact Hst|reflexivity| |].
  - intros. unfold attach. case_match; [reflexivity|by apply tells_same].
  - intros x w _ Hn _. constructor; simpl; [exists []; by rewrite app_nil_r|]. intros y w' Hy. left. rewrite IndexMap.get_insert_ne; [done|congruence].
Qed.

(** Settling a list of requests with one status. *)
Lemma settle_all st l : forall h, let h' := fold_left (fun h x => settle x st h) l h in
  forall x, x ∈ l -> is_Some (IndexMap.get x (controls h)) -> IndexMap.get x (controls h') = None /\ (x, st) ∈ completions h'.
Proof.
  assert (Hnone : forall l h x, IndexMap.get x (controls h) = None -> IndexMap.get x (controls (fold_left (fun h x => settle x st h) l h)) = None).
  { clear l. induction l as [|y l IH]; intros h x Hx; simpl; [done|]. apply IH. unfold settle. case_match; [|done]. simpl. rewrite IndexMap.get_remove. by case_decide. }
  induction l as [|y l IH]; intros h; simpl; intros x Hx [w Hw]; [by apply elem_of_nil in Hx|]. destruct (decide (x = y)) as [->|Hne].
  - assert (E : IndexMap.get y (controls (settle y st h)) = None /\ (y, st) ∈ completions (settle y st h)).
    { unfold settle, IndexMap.contains_key. rewrite Hw. simpl. split; [apply IndexMap.get_remove_eq|]. apply elem_of_app. right. left. }
    destruct E as [E1 E2]. split; [by apply Hnone|]. destruct (te_more _ _ (tells_fold (fun h x => settle x st h) l (fun h y => tells_settle y st h) (settle y st h))) as [m ->].
    apply elem_of_app. by left.
  - apply elem_of_cons in Hx as [|Hx]; [done|]. apply IH; [done|]. exists w. unfold settle. case_match; [|done]. simpl. by rewrite IndexMap.get_remove_ne.
Qed.

Lemma controls_remove_all id l : forall h, controls (fold_left (fun h key => remove_subscription id key h) l h) = controls h.
Proof. induction l as [|k l IH]; intros h; simpl; [done|]. rewrite IH. unfold remove_subscription. by repeat case_match. Qed.

(** A connection that ends answers the requests it had. *)
Lemma disconnect_answers id h : wf h -> is_closed h id = false -> let h' := (disconnect_connection id h).2 in
  is_closed h' id = true /\ forall x w, IndexMap.get x (controls h) = Some w -> w_connection w = id ->
    IndexMap.get x (controls h') = None /\ (x, "unavailable"%string) ∈ completions h'.
Proof.
  intros Hw Hc. cbn zeta. split; [apply disconnect_shuts|]. unfold disconnect_connection. rewrite Hc. simpl. set (h1 := set_connections _ _).
  assert (Hctl : controls (fold_left (fun h key => remove_subscription id key h) (keys_of h1 id) h1) = controls h).
  { by rewrite controls_remove_all. }
  set (h2 := fold_left (fun h key => remove_subscription id key h) (keys_of h1 id) h1) in *. set (h3 := bump _ h2).
  set (mine := IndexMap.keys _).
  intros x w Hx Hid. apply (settle_all "unavailable" mine h3); [|exists w; simpl; by rewrite Hctl]. unfold mine. apply list_elem_of_fmap. exists (x, w). split; [done|].
    apply list_elem_of_filter. split; [done|]. rewrite Hctl. by apply IndexMap.get_In.
Qed.

Lemma settle_other st l x : forall h, x ∉ l -> IndexMap.get x (controls (fold_left (fun h x => settle x st h) l h)) = IndexMap.get x (controls h).
Proof.
  induction l as [|y l IH]; intros h Hx; simpl; [done|]. apply not_elem_of_cons in Hx as [Hne Hx]. rewrite IH by done. unfold settle. case_match; [|done].
  simpl. by rewrite IndexMap.get_remove_ne.
Qed.

(** The requests of the other connections stay pending. *)
Lemma disconnect_others id h x w : wf h -> IndexMap.get x (controls h) = Some w -> w_connection w <> id ->
  IndexMap.get x (controls (disconnect_connection id h).2) = Some w.
Proof.
  intros Hw Hx Hid. unfold disconnect_connection. case_match; [done|]. simpl. rewrite settle_other; simpl; rewrite controls_remove_all; simpl; [done|].
  intros ([x' w'] & -> & [Hw' Hin]%list_elem_of_filter)%list_elem_of_fmap. simpl in *. apply Hid. rewrite <- Hw'.
  pose proof (wf_once _ _ _ _ Hw) as [N _]%NoDup_app. rewrite (IndexMap.In_get _ _ _ N Hin) in Hx. by injection Hx as ->.
Qed.

Lemma close_connection_fields id code reason h : controls (close_connection id code reason h) = controls (disconnect_connection id h).2 /\
  completions (close_connection id code reason h) = completions (disconnect_connection id h).2 /\
  forall j, is_closed (close_connection id code reason h) j = is_closed (disconnect_connection id h).2 j.
Proof.
  split_and!; [..|apply close_connection_shuts]; unfold close_connection; by destruct (disconnect_connection id h) as [[] h'].
Qed.

Lemma answered_gone h x st : wf h -> (x, st) ∈ completions h -> IndexMap.get x (controls h) = None.
Proof.
  intros Hw Hx. apply IndexMap.get_None. intros Hk. pose proof (wf_once _ _ _ _ Hw) as (_ & N & _)%NoDup_app. apply (N x Hk). apply list_elem_of_fmap. by exists (x, st).
Qed.

(** Closing a list of connections. *)
Lemma close_all code reason ids : forall h, wf h -> let h' := fold_left (fun h id => close_connection id code reason h) ids h in
  (forall j, j ∉ ids -> heap h' !! j = heap h !! j) /\ (forall j, is_closed h j = true \/ j ∈ ids -> is_closed h' j = true) /\
  (forall x w, IndexMap.get x (controls h) = Some w -> w_connection w ∈ ids -> is_closed h (w_connection w) = false ->
    IndexMap.get x (controls h') = None /\ (x, "unavailable"%string) ∈ completions h') .
Proof.
  induction ids as [|id ids IH]; intros h Hw; cbn zeta; simpl.
  { split_and!; [done|by intros j [?|?%elem_of_nil]|by intros x w _ ?%elem_of_nil]. }
  pose proof (keeps_close_connection options wf (wf_robust options Hopt) id code reason h Hw) as Hw1. set (h1 := close_connection id code reason h) in *.
  pose proof (touch_close_connection id code reason h) as T. fold h1 in T. destruct (close_connection_fields id code reason h) as (F1 & F2 & F3). fold h1 in F1, F2, F3.
  destruct (IH h1 Hw1) as (A & B & C). set (h' := fold_left _ ids h1) in *.
  assert (Hcl : is_closed h1 id = true).
  { rewrite F3. apply disconnect_shuts. }
  assert (Hne : forall j, j <> id -> is_closed h1 j = is_closed h j) by (intros j Hj; unfold is_closed; by rewrite (to_others _ _ _ _ T)).
  split_and!.
  - intros j [Hj Hj']%not_elem_of_cons. rewrite A by done. by apply T.
  - intros j Hj. apply B. destruct (decide (j = id)) as [->|Hj']; [by left|]. rewrite Hne by done. destruct Hj as [|[|]%elem_of_cons]; tauto.
  - intros x w Hx Hin Ho. destruct (decide (w_connection w = id)) as [E|E].
    + rewrite E in Ho. destruct (disconnect_answers id h Hw Ho) as [_ D]. destruct (D x w Hx E) as [_ D2]. rewrite <- F2 in D2.
      assert (Hin' : (x, "unavailable"%string) ∈ completions h').
      { destruct (te_more h1 h') as [l ->]; [|apply elem_of_app; by left]. apply tells_fold. intros g y.
        apply (keeps_close_connection options (tells g) (tells_robust g)). reflexivity. }
      split; [|done]. eapply answered_gone; [|exact Hin']. apply (keeps_fold wf); [|done]. intros. by apply (keeps_close_connection options wf (wf_robust options Hopt)).
    + apply elem_of_cons in Hin as [|Hin]; [done|]. apply (C x w); [|done|by rewrite Hne]. rewrite F1. by apply disconnect_others.
Qed.

(** ** The properties *)

(** C14: whatever clients, publishers, revocations and sockets do, the subscriber
    index is exactly the open connections with their scopes, each listed once
    and no empty table left; the connection table is exactly the open
    connections and balances the counters; the replay log stays within its
    limits with its bytes counted exactly; histories and pending controls stay
    within theirs. *)
Theorem hub_bookkeeping published h : reach options published h ->
  (forall o k id, id ∈ subscribers_of h o k <-> exists c, heap h !! id = Some c /\ c_closed c = false /\ c_owner c = o /\ k ∈ keys_of h id) /\
  (forall o k, NoDup (subscribers_of h o k)) /\
  (forall o t, subscribers h !! o = Some t -> t <> ∅ /\ forall k l, t !! k = Some l -> l <> []) /\
  NoDup (connections h) /\ (forall id, id ∈ connections h <-> exists c, heap h !! id = Some c /\ c_closed c = false) /\
  stats h accepted_connection_count = stats h disconnected_connection_count + len (connections h) /\
  len (retained h) <= max_replay_events options /\ retained_bytes h <= max_replay_bytes options /\
  retained_bytes h = sumZ ((fun r => e_bytes (r_encoded r)) <$> retained h) /\
  len (controls h) <= 128 /\ (forall id c, heap h !! id = Some c -> len (history (c_local c)) <= 256).
Proof.
  intros [[I1 I2 I3 I4] W2 W3 W4 W5 W6 [W7 W7'] W8 W9 W10]%(wf_reachable options Hopt). split_and!; try done; [|lia].
  intros o k id. rewrite I1. unfold keys_at, keys_of, local_of. destruct (heap h !! id) as [c|] eqn:E; simpl; [|naive_solver]. split.
  - intros (ks & [= <- <-] & Hk). exists c. split_and!; try done. destruct (c_closed c) eqn:Hc; [|done]. rewrite (W2 id c) in Hk by done. by apply elem_of_nil in Hk.
  - intros (c' & [= <-] & _ & <- & Hk). eauto.
Qed.

(** C15: the events a connection is sent have strictly rising cursors, from its
    last restart on, where a restart is a replay the client asked for; no event
    is doubled and none overtakes another. *)
Theorem events_in_order published h id c : reach options published h -> heap h !! id = Some c ->
  exists last_, follow 0 (c_sent c) = Some last_ /\ last_ <= cursor h (c_owner c).
Proof. intros [_ Hg]%fine_reach E. apply (Hg id c E). Qed.

(** C16: a publication gives exactly one copy of its event, with the next cursor
    of the account, to every connection of that account that is subscribed to
    its scope, initialized, not waiting to resume, and whose socket takes it;
    nobody else is sent anything. A rejected publication changes nothing. *)
Theorem event_reaches_subscribers published h now p : reach options published h ->
  match publication options now p h with
  | (None, h') => h' = h
  | (Some r, h') =>
      Some (r_owner r) = p_owner p /\ r_cursor r = cursor h (r_owner r) + 1 /\ cursor h' (r_owner r) = r_cursor r /\ proper r /\
      forall id c, heap h !! id = Some c -> exists c', heap h' !! id = Some c' /\
        c_sent c' = c_sent c ++ (if bool_decide (id ∈ subscribers_of h (r_owner r) (scope_key (p_scope p))) then gets_event (r_encoded r) c else [])
  end.
Proof.
  intros Hw%(wf_reachable options Hopt). destruct (publication_cases now p h) as [-> | (r & -> & _ & Ho & Hc & Hp & Hs)]; [done|].
  destruct (publication_heap r h Hw) as (D1 & _ & D3). set (h' := fold_left _ _ _) in *. split_and!; try done.
  { unfold cursor at 1. rewrite D1, (proj1 (published_to_fields r h)). by rewrite lookup_insert_eq. }
  intros id c E. specialize (D3 id). rewrite <- Hs. case_decide as Hin.
  - rewrite bool_decide_eq_true_2 by done. rewrite E in D3. inversion D3 as [? c' Hsaid|]; subst. exists c'. by split; [|apply Hsaid].
  - rewrite bool_decide_eq_false_2 by done. exists c. by rewrite D3, app_nil_r.
Qed.

Lemma nothing_trimmed published h o at_ : fine published h -> resume_reason options h o (epoch options) at_ = None ->
  forall (Q : Retained (Body := Body) -> Prop) `{!forall r, Decision (Q r)}, (forall r, Q r -> r_owner r = o /\ at_ < r_cursor r) -> filter Q (retained h) = filter Q published.
Proof.
  intros [[[k Hk] L2 _ _] _] Hr Q ? HQ. rewrite <- (take_drop k published) at 1. rewrite filter_app, Hk.
  rewrite (filter_none _ (take k published)); [done|]. intros r Hin Hq. destruct (HQ r Hq) as [Ho Hat]. specialize (L2 o).
  rewrite <- (take_drop k published) in L2. unfold for_owner in L2. rewrite filter_app, fmap_app, <- Hk in L2.
  assert (Hc : r_cursor r ∈ r_cursor <$> filter (fun r => r_owner r = o) (take k published)).
  { apply list_elem_of_fmap. exists r. split; [done|]. by apply list_elem_of_filter. }
  unfold resume_reason in Hr. rewrite bool_decide_eq_true_2 in Hr by done. case_match eqn:E; [done|]. apply orb_false_iff in E as [E E3]. apply orb_false_iff in E as [E1 E2].
  destruct (filter (fun e => r_owner e = o) (retained h)) as [|first rest] eqn:Ef; simpl in E2, E3.
  - rewrite app_nil_r in L2. rewrite L2 in Hc. apply elem_of_seqZ in Hc. apply negb_false_iff in E3. reflect_bools. lia.
  - assert (Hlt : r_cursor r < r_cursor first); [|reflect_bools; lia].
    pose proof (seqZ_sorted 1 (cursor h o)) as S. rewrite <- L2 in S. eapply (StronglySorted_app_1_elem_of _ _ _ _ _ S); [exact Hc|left].
Qed.

(** C17: a replay from a cursor that passes the resume check hands over, in order,
    a prefix of exactly the events published to the account since that cursor
    in the connection's scopes, and announces that it caught up only after the
    last of them. Unless the connection was shut on the way, it is sent all of
    them and the announcement. It then follows live events again. *)
Theorem replay_covers published h id c at_ : reach options published h -> heap h !! id = Some c ->
  resume_reason options h (c_owner c) (epoch options) at_ = None ->
  let events := filter (fun r => r_owner r = c_owner c /\ at_ < r_cursor r /\ r_scope r ∈ keys_of h id) published in
  exists k tail c', heap (replay options id at_ h).2 !! id = Some c' /\ resume (c_local c') = None /\
    c_sent c' = c_sent c ++ Restart at_ :: ((fun r => Sent (e_message (r_encoded r))) <$> take k events) ++ tail /\
    (tail = [] \/ k = length events /\ tail = [Sent (CaughtUp (cursor h (c_owner c)) (len events))]) /\
    (c_closed c' = false -> k = length events /\ (accepts (CaughtUp (cursor h (c_owner c)) (len events)) = true -> tail <> [])).
Proof.
  intros Hf%fine_reach Ec Hr events. destruct (replay_log id at_ h) as (k & tail & T & Htail & Hopen).
  assert (Em : missed h id at_ = r_encoded <$> events).
  { unfold missed, events. rewrite (owner_lookup _ _ _ Ec). f_equal. apply (nothing_trimmed published h (c_owner c) at_ Hf Hr). tauto. }
  rewrite Em, length_fmap, (owner_lookup _ _ _ Ec) in Htail, Hopen. rewrite Em, <- fmap_take, <- list_fmap_compose in T. pose proof (to_self _ _ _ _ T) as T1.
  unfold update_local, update in T1. simpl in T1. rewrite lookup_alter_eq, Ec in T1. inversion T1 as [? c' Hs E1 E2|]; subst.
  exists k, tail, c'. destruct Hs as (_ & Hsent & _ & Hres & _). split_and!; try done.
  intros Hc. destruct Hopen as [-> Ht]; [unfold is_closed; by rewrite <- E2|]. split; [done|]. by intros ->%Ht.
Qed.

(** A revocation closes every open connection it matches and no other; a
    closed one is in no subscriber list, and each client-control request that
    waited on it is answered as unavailable. *)
Theorem revocation_ends published h matches reason : reach options published h ->
  let h' := (revoke matches reason h).2 in
  (forall id c, heap h !! id = Some c -> c_closed c = false -> is_closed h' id = matches c) /\
  (forall id, is_closed h' id = true -> (id ∉ connections h') /\ (forall o k, id ∉ subscribers_of h' o k)) /\
  (forall x w c, IndexMap.get x (controls h) = Some w -> heap h !! w_connection w = Some c -> c_closed c = false -> matches c = true ->
    IndexMap.get x (controls h') = None /\ (x, "unavailable"%string) ∈ completions h').
Proof.
  intros Hw%(wf_reachable options Hopt). cbn zeta. unfold revoke. simpl. set (ids := filter _ (connections h)).
  assert (Hids : forall id c, heap h !! id = Some c -> c_closed c = false -> (id ∈ ids <-> matches c = true)).
  { intros id c E Hc. unfold ids. rewrite list_elem_of_filter, (wf_live _ _ _ _ Hw), E. simpl. naive_solver. }
  destruct (close_all 1008 reason ids h Hw) as (A & B & C). set (h' := fold_left _ ids h) in *.
  assert (Hw' : wf h') by (apply (keeps_revoke options wf (wf_robust options Hopt) matches reason h Hw)). split_and!.
  - intros id c E Hc. destruct (matches c) eqn:Em; [apply B; right; by eapply Hids|]. assert (Hn : id ∉ ids) by (rewrite (Hids id c E Hc); congruence).
    unfold is_closed. by rewrite (A id Hn), E.
  - intros id Hc. assert (Hs : forall c, heap h' !! id = Some c -> c_closed c = true) by (intros c E; unfold is_closed in Hc; by rewrite E in Hc). split.
    + intros (c & E & Ho)%(wf_live _ _ _ _ Hw'). by rewrite (Hs c E) in Ho.
    + intros o k Hin. destruct (subscriber_connection h' o k id Hw' Hin) as (c & E & _ & Hk). unfold keys_of, local_of in Hk. rewrite E in Hk. simpl in Hk.
      rewrite (wf_shut _ _ _ _ Hw' id c) in Hk by auto. by apply elem_of_nil in Hk.
  - intros x w c Hx E Hc Hm. apply (C x w Hx); [by apply (Hids _ c)|]. unfold is_closed. by rewrite E.
Qed.

(** No client-control request is answered twice or lost: an answer given
    stays the only one, and after any step a pending request is still pending
    or has been answered. *)
Theorem control_answered_once published h rs h' : reach options published h -> step options h rs h' ->
  NoDup (IndexMap.keys (controls h') ++ (completions h').*1) /\ (exists more, completions h' = completions h ++ more) /\
  forall x w, IndexMap.get x (controls h) = Some w -> IndexMap.get x (controls h') = Some w \/ exists st, (x, st) ∈ completions h'.
Proof.
  intros Hw%(wf_reachable options Hopt) Hst. pose proof (wf_step options Hopt _ _ _ Hst Hw) as Hw'. destruct (tells_step _ _ _ Hst) as [T1 T2].
  split_and!; [apply Hw'|done|done].
Qed.
End delivery.

(** ** A run

    A log of one event: a client resumes from the cursor 0, the event it missed
    is evicted by the next one, and only then it subscribes. *)
Module Sample.

#[local] Instance sockets : Sockets (Body := nat) (Socket := bool) := {
  is_open s := s; buffered_amount _ := 0; sock_send _ s := (true, s); sock_close _ _ _ := false }.
#[local] Instance protocol : Protocol (Body := nat) := {
  accepts _ := true; accepts_command _ := true; byte_size _ := 10;
  decode_frame raw :=
    if bool_decide (raw = lit "resume") then Valid (Initialize ["focus-project"%string] (Some ("epoch"%string, 0)))
    else if bool_decide (raw = lit "subscribe") then Valid (Subscribe [49] [CurrentUser]) else NotJson;
  stamp _ b := Some b }.
Definition options : Options := MkOptions "epoch" 30000 100 100 1 100 true.
Abbreviation hub := (Hub (Body := nat) (Socket := bool)).

Lemma options_valid : valid_options options = true.
Proof. reflexivity. Qed.

Definition news (n : nat) : Publication (Body := nat) := MkPublication (Some "owner"%string) CurrentUser false n.
Definition h1 : hub := (attach 0%nat true "owner" None 0 empty_hub).2.
Definition h2 : hub := (publication options 0 (news 1) h1).2.
Definition h3 : hub := frame options 0 true (TextFrame (lit "resume")) 0 h2.
Definition h4 : hub := (publication options 0 (news 2) h3).2.
Definition h5 : hub := frame options 0 true (TextFrame (lit "subscribe")) 0 h4.
Definition h6 : hub := resume_frame options 0 (Subscribe [49] [CurrentUser]) true h5.
Definition event (n : Z) (b : nat) : Retained := MkRetained n "owner" (lit "current-user") (MkEncoded (Event n CurrentUser false b) 10 true).

(** A connection after a run, by evaluation. *)
Definition conn (h : hub) : Connection := default (MkConnection "" None true true 0 new_local None []) (heap h !! 0%nat).

Lemma reach1 : reach options [] h1.
Proof. apply (reach_step _ [] empty_hub [] _); [constructor|]. by apply s_attach. Qed.
Lemma reach2 : reach options [event 1 1] h2.
Proof. exact (reach_step _ _ _ _ _ reach1 (s_publish options h1 0 (news 1))). Qed.
Lemma reach3 : reach options [event 1 1] h3.
Proof. apply (reach_step _ _ _ [] _ reach2). apply (s_frame options h2 0 (conn h2)); vm_compute; reflexivity. Qed.
Lemma reach4 : reach options [event 1 1; event 2 2] h4.
Proof. exact (reach_step _ _ _ _ _ reach3 (s_publish options h3 0 (news 2))). Qed.
Lemma reach5 : reach options [event 1 1; event 2 2] h5.
Proof. apply (reach_step _ _ _ [] _ reach4). apply (s_frame options h4 0 (conn h4)); vm_compute; reflexivity. Qed.
Lemma reach6 : reach options [event 1 1; event 2 2] h6.
Proof. apply (reach_step _ _ _ [] _ reach5). apply (s_resume options h5 0 (conn h5)); vm_compute; reflexivity. Qed.

(** The resume check of [initialize] is not made again when the client
    subscribes: an event that is evicted in between is neither replayed nor
    reported as lost, and the connection is told that it caught up. *)
Theorem resume_skips_evicted : exists published (h : hub) c, reach options published h /\ heap h !! 0%nat = Some c /\
  c_sent c = [Sent (Ready 0 "epoch" 1 30000 "replaying"); Sent (Subscribed [49] [CurrentUser] 2); Restart 0; Sent (Event 2 CurrentUser false 2%nat); Sent (CaughtUp 2 1)] /\
  exists r, r ∈ published /\ r_owner r = c_owner c /\ 0 < r_cursor r /\ r_scope r ∈ keys_of h 0 /\ Sent (e_message (r_encoded r)) ∉ c_sent c.
Proof.
  exists [event 1 1; event 2 2], h6, (conn h6). split; [exact reach6|]. split; [vm_compute; reflexivity|]. split; [vm_compute; reflexivity|].
  exists (event 1 1). split; [left|]. split; [vm_compute; reflexivity|]. split; [done|]. split; [left|].
  replace (c_sent (conn h6)) with [Sent (Ready 0 "epoch" 1 30000 "replaying"); Sent (Subscribed [49] [CurrentUser] 2); Restart 0; Sent (Event 2 CurrentUser false 2%nat); Sent (CaughtUp 2 1)] by (vm_compute; reflexivity).
  rewrite !not_elem_of_cons. split_and!; try discriminate. apply not_elem_of_nil.
Qed.

Lemma hub_bookkeeping_witness : subscribers_of h6 "owner" (lit "current-user") = [0%nat] /\
  (0%nat ∈ connections h6 <-> exists c, heap h6 !! 0%nat = Some c /\ c_closed c = false).
Proof.
  destruct (hub_bookkeeping options options_valid _ _ reach6) as (_ & _ & _ & _ & H1 & _). split; [vm_compute; reflexivity|apply H1].
Defined.

Lemma events_in_order_witness : exists last_, follow 0 (c_sent (conn h6)) = Some last_ /\ last_ <= 2.
Proof.
  destruct (events_in_order options options_valid _ h6 0 (conn h6) reach6) as (n & H1 & H2); [vm_compute; reflexivity|].
  exists n. split; [exact H1|]. replace 2 with (cursor h6 (c_owner (conn h6))) by (vm_compute; reflexivity). exact H2.
Defined.

Definition h8 : hub := (publication options 0 (news 3) h6).2.
Lemma pair_of_fst {A B} (x : A * B) (a : A) : x.1 = a -> x = (a, x.2).
Proof. destruct x. simpl. by intros ->. Qed.
Lemma fst8 : (publication options 0 (news 3) h6).1 = Some (event 3 3).
Proof. vm_compute. reflexivity. Qed.
Lemma published8 : publication options 0 (news 3) h6 = (Some (event 3 3), h8).
Proof. exact (pair_of_fst (publication options 0 (news 3) h6) (Some (event 3 3)) fst8). Qed.

Lemma event_reaches_subscribers_witness : cursor h8 "owner" = 3 /\
  exists c', heap h8 !! 0%nat = Some c' /\ c_sent c' = c_sent (conn h6) ++ [Sent (Event 3 CurrentUser false 3%nat)].
Proof.
  pose proof (event_reaches_subscribers options options_valid _ h6 0 (news 3) reach6) as H1. rewrite published8 in H1.
  destruct H1 as (_ & _ & H0 & _ & H1). split; [exact H0|]. destruct (H1 0%nat (conn h6)) as (c' & H2 & H3); [vm_compute; reflexivity|].
  exists c'. split; [exact H2|]. rewrite H3. apply (f_equal (app (c_sent (conn h6)))). vm_compute. reflexivity.
Defined.

Lemma replay_covers_witness : exists c', heap (replay options 0 1 h6).2 !! 0%nat = Some c' /\
  c_sent c' = c_sent (conn h6) ++ [Restart 1; Sent (e_message (r_encoded (event 2 2))); Sent (CaughtUp 2 1)].
Proof.
  destruct (replay_covers options options_valid _ h6 0 (conn h6) 1 reach6) as (k & tail & c' & H1 & _ & H2 & H3 & H4); [vm_compute; reflexivity..|].
  exists c'. split; [exact H1|]. destruct H4 as [Hk Ht].
  - assert (E : (c_closed <$> heap (replay options 0 1 h6).2 !! 0%nat) = Some false) by (vm_compute; reflexivity). rewrite H1 in E. by injection E.
  - destruct H3 as [->|[_ ->]]; [exfalso; by apply Ht|]. rewrite H2, Hk, firstn_all. f_equal.
Defined.

Lemma revocation_ends_witness : is_closed h6 0 = false /\ is_closed (revoke (fun c => bool_decide (c_owner c = "owner"%string)) "revoked" h6).2 0 = true.
Proof.
  destruct (revocation_ends options options_valid _ h6 (fun c => bool_decide (c_owner c = "owner"%string)) "revoked" reach6) as (H1 & _).
  split; [vm_compute; reflexivity|]. rewrite (H1 0%nat (conn h6)); vm_compute; reflexivity.
Defined.

(** A request to focus a project, sent and then expired. *)
Definition h7 : hub := (dispatch options "id" (FocusProject []) 0 10 [0%nat] h6).2.
Lemma reach7 : reach options [event 1 1; event 2 2] h7.
Proof.
  apply (reach_step _ _ _ [] _ reach6). apply s_control; [|vm_compute; reflexivity]. intros w. replace (completions h6) with (@nil (string * string)) by (vm_compute; reflexivity).
  apply not_elem_of_nil.
Qed.

Lemma control_answered_once_witness : IndexMap.get "id"%string (controls h7) = Some (MkPending 0 10) /\
  IndexMap.get "id"%string (controls (settle "id" "expired" h7)) = None /\ exists st, ("id"%string, st) ∈ completions (settle "id" "expired" h7).
Proof.
  destruct (control_answered_once options options_valid _ h7 [] (settle "id" "expired" h7) reach7 (s_expired options h7 "id")) as (_ & _ & H1).
  split; [vm_compute; reflexivity|]. split; [vm_compute; reflexivity|]. destruct (H1 "id"%string (MkPending 0 10)) as [H2|H2]; [vm_compute; reflexivity|revert H2; vm_compute; discriminate|exact H2].
Defined.
End Sample.
End LiveHubDelivery.
