(* ===== verification/LiveSessions.v ===== *)
(** * Live sockets by account and session

    [LiveSessions] models src/cantrip_server_rs/src/live/sessions.rs, the
    registry that bounds the sockets of an account and finds the sockets of a
    session, and live/transports.rs, the tracking of upgraded connections for
    shutdown. An entry of a session is shared by the registrations that hold it,
    also after the registry let go of it, so entries live in a heap. *)
From S2P Require Import Prelude.
From stdpp Require Import base numbers strings gmap option list sets fin_maps fin_map_dom.
Open Scope Z_scope.

Module SessionRegistry.

(** A session entry: its account and its sockets, by identity. *)
Record Session := MkSession { owner : string; sockets : list nat }.
Record Registration := MkRegistration { r_owner : string; r_socket : nat; r_session : option (string * nat) }.

(** [closes] are the sockets that were closed, [changes] the sessions that came
    or went. *)
Record State := MkState {
  accounts : gmap string (list nat); sessions : list (string * nat); entries : gmap nat Session;
  closes : list (nat * Z * string); changes : list (string * string) }.

Definition empty : State := MkState ∅ [] ∅ [] [].

Definition account (s : State) (o : string) : list nat := default [] (accounts s !! o).
Definition account_count (s : State) (o : string) : Z := len (account s o).
Definition connected (s : State) (session : string) : bool := IndexMap.contains_key session (sessions s).
Definition entry (s : State) (e : nat) : Session := default (MkSession "" []) (entries s !! e).
Definition active_sessions (s : State) : list (string * string) := (fun p => (p.1, owner (entry s p.2))) <$> sessions s.

Section registry.
Context (limit : Z).

(** [socket] and [fresh] are the new identities of the socket and of an entry. *)
Definition register (socket fresh : nat) (o : string) (session : option string) (s : State) : option Registration * State :=
  let session := id ← session; if bool_decide (id = ""%string) then None else Some id in
  if limit <=? account_count s o then
    (None, MkState (accounts s) (sessions s) (entries s) (closes s ++ [(socket, 1013, "Account WebSocket connection limit reached"%string)]) (changes s))
  else
    let accounts := <[o := account s o ++ [socket]]> (accounts s) in
    match session with
    | None => (Some (MkRegistration o socket None), MkState accounts (sessions s) (entries s) (closes s) (changes s))
    | Some id =>
        let '(e, sessions, entries) :=
          match IndexMap.get id (sessions s) with
          | Some e => (e, sessions s, entries s)
          | None => (fresh, IndexMap.insert id fresh (sessions s), <[fresh := MkSession o []]> (entries s))
          end in
        let x := default (MkSession o []) (entries !! e) in
        let connected := bool_decide (sockets x = []) in
        (Some (MkRegistration o socket (Some (id, e))),
         MkState accounts sessions (<[e := MkSession (owner x) (sockets x ++ [socket])]> entries) (closes s)
           (if connected then changes s ++ [(o, id)] else changes s))
    end.

Definition close_matching (matches : string -> string -> bool) (reason : string) (s : State) : Z * State :=
  let groups := filter (fun p => matches p.1 (owner (entry s p.2)) = true) (sessions s) in
  let kept := filter (fun p => ~ matches p.1 (owner (entry s p.2)) = true) (sessions s) in
  let ids := mjoin ((fun p => sockets (entry s p.2)) <$> groups) in
  (len ids, MkState (accounts s) kept (entries s) (closes s ++ ((fun i => (i, 1008, reason)) <$> ids)) (changes s)).
Definition close_session (session reason : string) : State -> Z * State := close_matching (fun id _ => bool_decide (id = session)) reason.
Definition close_owner (o reason : string) : State -> Z * State := close_matching (fun _ x => bool_decide (x = o)) reason.
Definition close_all (reason : string) : State -> Z * State := close_matching (fun _ _ => true) reason.

(** The drop of a registration. *)
Definition drop (r : Registration) (s : State) : State :=
  let accounts :=
    match accounts s !! r_owner r with
    | Some l =>
        let l := filter (fun i => i <> r_socket r) l in
        if bool_decide (l = []) then delete (r_owner r) (accounts s) else <[r_owner r := l]> (accounts s)
    | None => accounts s
    end in
  match r_session r with
  | None => MkState accounts (sessions s) (entries s) (closes s) (changes s)
  | Some (id, e) =>
      let l := filter (fun i => i <> r_socket r) (sockets (entry s e)) in
      let entries := <[e := MkSession (owner (entry s e)) l]> (entries s) in
      if bool_decide (l = []) then MkState accounts (IndexMap.shift_remove id (sessions s)) entries (closes s) (changes s ++ [(r_owner r, id)])
      else MkState accounts (sessions s) entries (closes s) (changes s)
  end.

(** The registry with the registrations that are alive. *)
Inductive reach : list Registration -> State -> Prop :=
| reach_empty : reach [] empty
| reach_register live s socket fresh o session :
    reach live s -> socket ∉ (r_socket <$> live) -> entries s !! fresh = None ->
    reach (live ++ option_list (register socket fresh o session s).1) (register socket fresh o session s).2
| reach_close live s matches reason : reach live s -> reach live (close_matching matches reason s).2
| reach_drop l1 r l2 s : reach (l1 ++ r :: l2) s -> reach (l1 ++ l2) (drop r s).

(** The sockets of an account, and of an entry, among the live ones. *)
Definition of_account (o : string) (live : list Registration) : list nat := r_socket <$> filter (fun r => r_owner r = o) live.
Definition of_entry (e : nat) (live : list Registration) : list nat := r_socket <$> filter (fun r => snd <$> r_session r = Some e) live.

Record wf (live : list Registration) (s : State) : Prop := Wf {
  wf_unique : NoDup (r_socket <$> live);
  wf_accounts : forall o, account s o = of_account o live;
  wf_tidy : forall o l, accounts s !! o = Some l -> l <> [];
  wf_limit : forall o, account_count s o <= Z.max 0 limit;
  wf_entries : forall e, sockets (entry s e) = of_entry e live;
  wf_sessions : NoDup (IndexMap.keys (sessions s));
  wf_listed : forall id e, (id, e) ∈ sessions s -> is_Some (entries s !! e) /\ sockets (entry s e) <> [];
  wf_named : forall r id e, r ∈ live -> r_session r = Some (id, e) -> is_Some (entries s !! e) /\ forall id', (id', e) ∈ sessions s -> id' = id;
  wf_shared : forall id id' e, (id, e) ∈ sessions s -> (id', e) ∈ sessions s -> id = id'
}.

Lemma of_account_app o l l' : of_account o (l ++ l') = of_account o l ++ of_account o l'.
Proof. unfold of_account. by rewrite filter_app, fmap_app. Qed.
Lemma of_entry_app e l l' : of_entry e (l ++ l') = of_entry e l ++ of_entry e l'.
Proof. unfold of_entry. by rewrite filter_app, fmap_app. Qed.

(** Without the socket of one registration. *)
Lemma without {P : Registration -> Prop} `{!forall r, Decision (P r)} l1 r l2 : NoDup (r_socket <$> (l1 ++ r :: l2)) ->
  filter (fun i => i <> r_socket r) (r_socket <$> filter P (l1 ++ r :: l2)) = r_socket <$> filter P (l1 ++ l2).
Proof.
  intros Hn. assert (Hother : forall l : list Registration, (forall x, x ∈ l -> x ∈ l1 \/ x ∈ l2) -> filter (fun i => i <> r_socket r) (r_socket <$> filter P l) = r_socket <$> filter P l).
  { intros l Hl. apply filter_id. intros i (x & -> & [_ Hx]%list_elem_of_filter)%list_elem_of_fmap E. rewrite fmap_app, fmap_cons in Hn.
    apply NoDup_app in Hn as (_ & N1 & [N2 _]%NoDup_cons). destruct (Hl x Hx) as [H1|H2].
    - apply (N1 (r_socket x)); [apply list_elem_of_fmap; eauto|]. rewrite E. left.
    - apply N2. rewrite <- E. apply list_elem_of_fmap. eauto. }
  rewrite !filter_app, !fmap_app, filter_app, filter_cons. rewrite (Hother l1) by auto. f_equal.
  case_decide; [rewrite fmap_cons, filter_cons_False by tauto|]; apply Hother; auto.
Qed.

Lemma sound_empty : wf [] empty.
Proof.
  constructor.
  - constructor.
  - done.
  - intros o l. simpl. by rewrite lookup_empty.
  - intros o. unfold account_count, account. simpl. rewrite lookup_empty. simpl. lia.
  - done.
  - constructor.
  - intros id e ?%elem_of_nil. done.
  - intros r id e ?%elem_of_nil. done.
  - intros id id' e ?%elem_of_nil. done.
Qed.

Lemma account_insert s o l o' : default [] (<[o := l]> (accounts s) !! o') = if decide (o = o') then l else account s o'.
Proof. unfold account. rewrite lookup_insert. by case_decide. Qed.

(** A registration takes a slot of its account. *)
Lemma wf_slot live s r : wf live s -> r_socket r ∉ r_socket <$> live -> account_count s (r_owner r) < limit ->
  NoDup (r_socket <$> (live ++ [r])) /\
  (forall o, default [] (<[r_owner r := account s (r_owner r) ++ [r_socket r]]> (accounts s) !! o) = of_account o (live ++ [r])) /\
  (forall o l, <[r_owner r := account s (r_owner r) ++ [r_socket r]]> (accounts s) !! o = Some l -> l <> []) /\
  (forall o, len (default [] (<[r_owner r := account s (r_owner r) ++ [r_socket r]]> (accounts s) !! o)) <= Z.max 0 limit).
Proof.
  intros [W1 W2 W3 W4 _ _ _ _ _] Hn Hl. split_and!.
  - rewrite fmap_app. apply NoDup_app. split_and!; [done| |apply NoDup_singleton]. by intros i Hi ->%list_elem_of_singleton.
  - intros o. rewrite account_insert, of_account_app, !W2. unfold of_account at 4. rewrite filter_cons. case_decide; [by subst o|by rewrite app_nil_r].
  - intros o l. rewrite lookup_insert_Some. intros [[_ <-]|[_ E]]; [by destruct (account s (r_owner r))|by eapply W3].
  - intros o. rewrite account_insert. case_decide; [|apply W4]. rewrite length_app. unfold account_count in Hl. simpl. lia.
Qed.

(** The entry a registration joins. *)
Lemma wf_join live s r id e sessions' entries' ch : wf live s -> r_socket r ∉ r_socket <$> live -> account_count s (r_owner r) < limit ->
  r_session r = Some (id, e) ->
  (forall x, sockets (default (MkSession "" []) (entries' !! x)) = of_entry x live) -> (forall x, is_Some (entries s !! x) -> is_Some (entries' !! x)) ->
  NoDup (IndexMap.keys sessions') -> (id, e) ∈ sessions' -> (forall y x, (y, x) ∈ sessions' -> (y, x) ∈ sessions s \/ (y, x) = (id, e)) ->
  (is_Some (entries s !! e) /\ (id, e) ∈ sessions s \/ entries s !! e = None) ->
  wf (live ++ [r]) (MkState (<[r_owner r := account s (r_owner r) ++ [r_socket r]]> (accounts s)) sessions'
    (<[e := MkSession (owner (default (MkSession (r_owner r) []) (entries' !! e))) (sockets (default (MkSession (r_owner r) []) (entries' !! e)) ++ [r_socket r])]> entries') (closes s) ch).
Proof.
  intros Hw Hn Hl Hr He Hsome Hnd Hin Hold Hcase. destruct (wf_slot live s r Hw Hn Hl) as (S1 & S2 & S3 & S4). pose proof Hw as [W1 W2 W3 W4 W5 W6 W7 W8 W9].
  assert (Esock : sockets (default (MkSession (r_owner r) []) (entries' !! e)) = of_entry e live) by (rewrite <- He; by destruct (entries' !! e)).
  assert (Hold' : forall y x, (y, x) ∈ sessions' -> x = e -> y = id).
  { intros y x Hy ->. destruct (Hold y e Hy) as [Hy'|[= ->]]; [|done]. destruct Hcase as [[_ Hc]|Hc]; [by eapply W9|]. destruct (W7 _ _ Hy') as [[? E] _]. congruence. }
  constructor; try done; simpl.
  - intros x. unfold entry. simpl. rewrite of_entry_app, lookup_insert. unfold of_entry at 2. rewrite filter_cons, Hr. simpl. case_decide as D; [subst x|].
    + simpl. rewrite decide_True by done. by rewrite Esock.
    + rewrite decide_False by congruence. rewrite app_nil_r. apply He.
  - intros y x Hy. unfold entry. simpl. rewrite lookup_insert. case_decide as D; [subst x; simpl; split; [eauto|by destruct (sockets _)]|].
    destruct (Hold y x Hy) as [Hy'|[= -> ->]]; [|done]. destruct (W7 y x Hy') as [Hs Hne]. split; [by apply Hsome|]. rewrite He, <- W5. done.
  - intros r' y x Hr' Ey. rewrite lookup_insert. apply elem_of_app in Hr' as [Hr'| ->%list_elem_of_singleton].
    + destruct (W8 r' y x Hr' Ey) as [Hs Hu]. split; [case_decide; [eauto|by apply Hsome]|]. intros z Hz. destruct (Hold z x Hz) as [Hz'|[= -> ->]]; [by apply Hu|].
      destruct Hcase as [[_ Hc]|Hc]; [by apply Hu|]. destruct Hs as [? E]. congruence.
    + rewrite Hr in Ey. injection Ey as <- <-. rewrite decide_True by done. split; [eauto|]. intros z Hz. by eapply Hold'.
  - intros y z x Hy Hz. destruct (decide (x = e)) as [->|Hne]; [rewrite (Hold' y e Hy eq_refl), (Hold' z e Hz eq_refl); done|].
    destruct (Hold y x Hy) as [Hy'|[= -> ->]]; [|done]. destruct (Hold z x Hz) as [Hz'|[= -> ->]]; [|done]. by eapply W9.
Qed.

Lemma wf_register live s socket fresh o session : wf live s -> socket ∉ r_socket <$> live -> entries s !! fresh = None ->
  wf (live ++ option_list (register socket fresh o session s).1) (register socket fresh o session s).2.
Proof.
  intros Hw Hn Hf. unfold register. case_match eqn:El; simpl.
  { rewrite app_nil_r. destruct Hw. by constructor. }
  reflect_bools. pose proof Hw as [W1 W2 W3 W4 W5 W6 W7 W8 W9]. set (session' := session ≫= _). destruct session' as [id|]; simpl.
  - destruct (IndexMap.get id (sessions s)) as [e|] eqn:Eg; simpl.
    + apply IndexMap.get_In in Eg as Hin. destruct (W7 _ _ Hin) as [Hs _].
      apply (wf_join live s (MkRegistration o socket (Some (id, e))) id e); auto; done.
    + apply IndexMap.get_None in Eg as Hni. rewrite (IndexMap.insert_absent _ _ _ Eg).
      apply (wf_join live s (MkRegistration o socket (Some (id, fresh))) id fresh); auto; try done.
      * intros x. rewrite lookup_insert. case_decide as D; [subst x; rewrite <- W5; unfold entry; by rewrite Hf|apply W5].
      * intros x [? E]. rewrite lookup_insert_ne; [eauto|]. intros ->. congruence.
      * unfold IndexMap.keys in *. rewrite fmap_app. apply NoDup_app. split_and!; [done| |apply NoDup_singleton]. by intros k Hk ->%list_elem_of_singleton.
      * apply elem_of_app. right. left.
      * intros y x [Hy| ->%list_elem_of_singleton]%elem_of_app; auto.
  - destruct (wf_slot live s (MkRegistration o socket None) Hw Hn ltac:(simpl; lia)) as (S1 & S2 & S3 & S4). constructor; try done.
    + intros x. rewrite of_entry_app. unfold of_entry at 2. rewrite filter_cons. simpl. rewrite app_nil_r. apply W5.
    + intros r id e [Hr| ->%list_elem_of_singleton]%elem_of_app Er; [by eapply W8|done].
Qed.

Lemma wf_close live s matches reason : wf live s -> wf live (close_matching matches reason s).2.
Proof.
  intros [W1 W2 W3 W4 W5 W6 W7 W8 W9]. unfold close_matching. simpl.
  assert (Hsub : forall p, p ∈ filter (fun p => ~ matches p.1 (owner (entry s p.2)) = true) (sessions s) -> p ∈ sessions s) by (by intros p [_ ?]%list_elem_of_filter).
  constructor; try done; simpl.
  - by apply IndexMap.wf_filter.
  - intros id e Hin%Hsub. by apply (W7 id e).
  - intros r id e Hr Er. destruct (W8 r id e Hr Er) as [Hs Hu]. split; [done|]. intros id' Hin%Hsub. by apply Hu.
  - intros id id' e H1%Hsub H2%Hsub. by eapply W9.
Qed.

(** What a registration leaves behind of its account. *)
Lemma wf_leave l1 r l2 s : wf (l1 ++ r :: l2) s ->
  let accounts' := match accounts s !! r_owner r with
    | Some l => let l := filter (fun i => i <> r_socket r) l in if bool_decide (l = []) then delete (r_owner r) (accounts s) else <[r_owner r := l]> (accounts s)
    | None => accounts s end in
  NoDup (r_socket <$> (l1 ++ l2)) /\ (forall o, default [] (accounts' !! o) = of_account o (l1 ++ l2)) /\
  (forall o l, accounts' !! o = Some l -> l <> []) /\ (forall o, len (default [] (accounts' !! o)) <= Z.max 0 limit).
Proof.
  intros [W1 W2 W3 W4 _ _ _ _ _] accounts'.
  assert (E : forall o, default [] (accounts' !! o) = filter (fun i => ~ (o = r_owner r /\ i = r_socket r)) (account s o)).
  { intros o. unfold accounts'. destruct (decide (o = r_owner r)) as [->|Hne].
    - transitivity (filter (fun i => i <> r_socket r) (account s (r_owner r))); [|apply list_filter_iff; tauto]. unfold account. destruct (accounts s !! r_owner r) as [l|] eqn:El; [|by rewrite El].
      cbn zeta. case_bool_decide as Hl; [by rewrite lookup_delete_eq; simpl; rewrite Hl|by rewrite lookup_insert_eq].
    - rewrite filter_id by (intros; tauto). unfold account. destruct (accounts s !! r_owner r) as [l|]; [|done]. cbn zeta. case_bool_decide; [by rewrite lookup_delete_ne|by rewrite lookup_insert_ne]. }
  split_and!.
  - eapply sublist_NoDup; [exact W1|]. apply fmap_sublist, sublist_app; [done|by apply sublist_cons].
  - intros o. rewrite E, W2. destruct (decide (o = r_owner r)) as [->|Hne].
    + unfold of_account. rewrite <- (without (P := fun x => r_owner x = r_owner r) l1 r l2 W1). apply list_filter_iff. tauto.
    + rewrite filter_id by (intros; tauto). unfold of_account. by rewrite !filter_app, filter_cons_False by congruence.
  - intros o l. unfold accounts'. destruct (accounts s !! r_owner r) as [l0|] eqn:El; [|apply W3]. cbn zeta. case_bool_decide.
    + intros [_ ?]%lookup_delete_Some. by eapply W3.
    + rewrite lookup_insert_Some. intros [[_ <-]|[_ ?]]; [done|by eapply W3].
  - intros o. rewrite E. etrans; [|apply (W4 o)]. unfold account_count. pose proof (sublist_length _ _ (sublist_filter (fun i => ~ (o = r_owner r /\ i = r_socket r)) (account s o))). lia.
Qed.

Lemma sound_drop l1 r l2 s : wf (l1 ++ r :: l2) s -> wf (l1 ++ l2) (drop r s).
Proof.
  intros Hw. destruct (wf_leave l1 r l2 s Hw) as (L1 & L2 & L3 & L4). pose proof Hw as [W1 W2 W3 W4 W5 W6 W7 W8 W9].
  assert (Hother : forall x, snd <$> r_session r <> Some x -> of_entry x (l1 ++ r :: l2) = of_entry x (l1 ++ l2))
    by (intros x Hx; unfold of_entry; by rewrite !filter_app, filter_cons_False by done).
  assert (Hsub : forall x, x ∈ l1 ++ l2 -> x ∈ l1 ++ r :: l2) by (intros x [?|?]%elem_of_app; apply elem_of_app; [by left|right; by right]).
  unfold drop. destruct (r_session r) as [[id e]|] eqn:Er.
  2: { constructor; try done; [intros x; rewrite <- Hother by done; apply W5|]. intros r' y x Hr'. apply W8. auto. }
  assert (Ee : filter (fun i => i <> r_socket r) (sockets (entry s e)) = of_entry e (l1 ++ l2)) by (rewrite W5; by apply (without (P := fun x => snd <$> r_session x = Some e))).
  assert (Hr : r ∈ l1 ++ r :: l2) by (apply elem_of_app; right; left). destruct (W8 r id e Hr Er) as [_ Hid].
  assert (Hentry : forall x, sockets (default (MkSession "" []) (<[e := MkSession (owner (entry s e)) (filter (fun i => i <> r_socket r) (sockets (entry s e)))]> (entries s) !! x)) = of_entry x (l1 ++ l2)).
  { intros x. rewrite lookup_insert. case_decide as D; [by subst x|]. rewrite <- Hother by (simpl; congruence). apply W5. }
  assert (Hnamed : forall r' y x, r' ∈ l1 ++ l2 -> r_session r' = Some (y, x) -> is_Some (<[e := MkSession (owner (entry s e)) (filter (fun i => i <> r_socket r) (sockets (entry s e)))]> (entries s) !! x) /\ forall id', (id', x) ∈ sessions s -> id' = y).
  { intros r' y x Hr' Ey. destruct (W8 r' y x (Hsub _ Hr') Ey) as [Hs Hu]. rewrite lookup_insert. split; [case_decide; eauto|done]. }
  case_bool_decide as Hl; (constructor; try done; simpl).
  - apply IndexMap.wf_remove. exact W6.
  - intros y x [Hy Hin]%IndexMap.elem_of_remove. simpl in Hy. assert (x <> e) by (intros ->; by apply Hy, Hid). unfold entry. simpl. rewrite lookup_insert_ne by done. by apply (W7 y x).
  - intros r' y x Hr' Ey. destruct (Hnamed r' y x Hr' Ey) as [Hs Hu]. split; [done|]. intros z [_ Hz]%IndexMap.elem_of_remove. by apply Hu.
  - intros y z x [_ Hy]%IndexMap.elem_of_remove [_ Hz]%IndexMap.elem_of_remove. by eapply W9.
  - intros y x Hin. unfold entry. simpl. rewrite lookup_insert. case_decide as D; [subst x; split; [eauto|done]|by apply (W7 y x)].
Qed.

Lemma sound_reach live s : reach live s -> wf live s.
Proof. induction 1; [apply sound_empty|by apply wf_register|by apply wf_close|by apply sound_drop]. Qed.

(** The sockets counted for an account are exactly its live registrations,
    never more than the limit; a session that is listed has live sockets, all
    of them registered for it; a session that no live socket is registered for
    is not listed. *)
Theorem registry_exact live s : reach live s ->
  (forall o, account_count s o = len (filter (fun r => r_owner r = o) live) /\ account_count s o <= Z.max 0 limit) /\
  (forall id e, (id, e) ∈ sessions s -> sockets (entry s e) <> [] /\
    forall i, i ∈ sockets (entry s e) -> exists r, r ∈ live /\ r_socket r = i /\ r_session r = Some (id, e)) /\
  (forall id, (forall r e, r ∈ live -> r_session r <> Some (id, e)) -> connected s id = false).
Proof.
  intros [W1 W2 W3 W4 W5 W6 W7 W8 W9]%sound_reach.
  assert (Hs : forall id e i, (id, e) ∈ sessions s -> i ∈ sockets (entry s e) -> exists r, r ∈ live /\ r_socket r = i /\ r_session r = Some (id, e)).
  { intros id e i Hin Hi. rewrite W5 in Hi. apply list_elem_of_fmap in Hi as (r & -> & [Hr Hl]%list_elem_of_filter). exists r. split_and!; try done.
    destruct (r_session r) as [[id' e']|] eqn:Er; [|done]. simpl in Hr. injection Hr as ->. destruct (W8 r id' e Hl Er) as [_ Hu]. by rewrite (Hu id Hin). }
  split_and!.
  - intros o. split; [|apply W4]. unfold account_count. rewrite W2. unfold of_account. by rewrite length_fmap.
  - intros id e Hin. split; [by apply (W7 id e)|]. intros i. by apply Hs.
  - intros id Hno. unfold connected, IndexMap.contains_key. destruct (IndexMap.get id (sessions s)) as [e|] eqn:E; [|done]. exfalso. apply IndexMap.get_In in E.
    destruct (W7 id e E) as [_ Hne]. destruct (sockets (entry s e)) as [|i l] eqn:El; [done|]. destruct (Hs id e i E) as (r & Hr & _ & Er); [rewrite El; left|]. by eapply Hno.
Qed.
End registry.

(** Two sockets of one session: the session is closed, the client comes back,
    and only then its first socket is dropped. *)
Module Sample.
Definition first : Registration := MkRegistration "owner" 1 (Some ("session"%string, 1%nat)).
Definition second : Registration := MkRegistration "owner" 2 (Some ("session"%string, 2%nat)).
Definition s1 : State := (register 8 1 1 "owner" (Some "session"%string) empty).2.
Definition s2 : State := (close_session "session" "Session is no longer active" s1).2.
Definition s3 : State := (register 8 2 2 "owner" (Some "session"%string) s2).2.
Definition s4 : State := drop first s3.

Lemma registered3 : reach 8 [first; second] s3.
Proof.
  assert (R1 : reach 8 [first] s1) by (apply (reach_register 8 [] empty 1 1 "owner" (Some "session"%string)); [constructor|apply not_elem_of_nil|done]).
  assert (R2 : reach 8 [first] s2) by (by apply reach_close).
  apply (reach_register 8 [first] s2 2 2 "owner" (Some "session"%string) R2); [|done]. simpl. intros ?%list_elem_of_singleton. done.
Qed.
Lemma registered4 : reach 8 [second] s4.
Proof. exact (reach_drop 8 [] first [second] s3 registered3). Qed.

(** Dropping a registration whose session was closed also takes away the
    entry of a newer socket of the same session: the socket is alive and counted,
    but the session is no longer listed, and closing it closes nothing. *)
Theorem stale_drop_hides_session : exists live s r, reach 8 live s /\ r ∈ live /\ r_session r = Some ("session"%string, 2%nat) /\
  sockets (entry s 2) = [r_socket r] /\ connected s "session" = false /\ active_sessions s = [] /\ (close_session "session" "Session was revoked" s).1 = 0.
Proof. exists [second], s4, second. split; [exact registered4|]. split; [left|]. by vm_compute. Qed.

Lemma registry_exact_witness : account_count s3 "owner" = 2 /\ connected s3 "session" = true /\ forall i, i ∈ sockets (entry s3 2) -> exists r, r ∈ [first; second] /\ r_socket r = i.
Proof.
  destruct (registry_exact 8 [first; second] s3 registered3) as (H1 & H2 & _). split_and!; [apply H1|vm_compute; reflexivity|].
  intros i Hi. destruct (H2 "session"%string 2%nat) as [_ H3]; [vm_compute; left|]. destruct (H3 i Hi) as (r & Hr & E & _). eauto.
Defined.
End Sample.
End SessionRegistry.

Module Transports.

(** A peer has a socket once its handshake is done; [closes] are the sockets
    that were told to close. *)
Record State := MkState { closing : bool; peers : gmap nat bool; closes : list nat }.
Definition empty : State := MkState false ∅ [].

Definition begin (id : nat) (s : State) : State := MkState (closing s) (<[id := false]> (peers s)) (closes s).
Definition pre_close (s : State) : State :=
  MkState true (peers s) (closes s ++ (fst <$> map_to_list (filter (fun p => p.2 = true) (peers s)))).
Definition attach (id : nat) (s : State) : State :=
  MkState (closing s) (<[id := true]> (peers s)) (if closing s then closes s ++ [id] else closes s).
Definition drop (id : nat) (s : State) : State := MkState (closing s) (delete id (peers s)) (closes s).
Definition drained (s : State) : bool := bool_decide (peers s = ∅).

(** The transports that are alive. *)
Inductive reach : gset nat -> State -> Prop :=
| reach_empty : reach ∅ empty
| reach_begin live s id : reach live s -> id ∉ live -> reach ({[id]} ∪ live) (begin id s)
| reach_attach live s id : reach live s -> id ∈ live -> reach live (attach id s)
| reach_pre_close live s : reach live s -> reach live (pre_close s)
| reach_drop live s id : reach live s -> reach (live ∖ {[id]}) (drop id s).

Lemma reach_inv live s : reach live s -> dom (peers s) = live /\ (closing s = true -> forall id, peers s !! id = Some true -> id ∈ closes s).
Proof.
  induction 1 as [|live s id _ [I1 I2] Hn|live s id _ [I1 I2] Hin|live s _ [I1 I2]|live s id _ [I1 I2]]; simpl.
  - split; [set_solver|done].
  - split; [set_solver|]. intros Hc j. rewrite lookup_insert. case_decide; [done|by apply I2].
  - split; [rewrite dom_insert_L; set_solver|]. intros Hc j. rewrite Hc, lookup_insert, elem_of_app, list_elem_of_singleton. case_decide; [auto|]. intros E. left. by apply I2.
  - split; [done|]. intros _ j E. apply elem_of_app. right. apply list_elem_of_fmap. exists (j, true). split; [done|]. apply elem_of_map_to_list.
    by apply map_lookup_filter_Some.
  - split; [rewrite dom_delete_L; set_solver|]. intros Hc j [_ E]%lookup_delete_Some. by apply I2.
Qed.

(** Once shutdown began, every transport with a socket has been told to close,
    whether its handshake came before or after; the transports are drained
    exactly when none is alive. *)
Theorem shutdown_reaches_transports live s : reach live s ->
  (closing s = true -> forall id, peers s !! id = Some true -> id ∈ closes s) /\ (drained s = true <-> live = ∅).
Proof.
  intros [I1 I2]%reach_inv. split; [done|]. unfold drained. rewrite bool_decide_eq_true, <- I1. split; [by intros ->|apply dom_empty_iff_L].
Qed.

(** A handshake that completes during shutdown. *)
Lemma shutdown_reaches_transports_witness : 0%nat ∈ closes (attach 0 (pre_close (begin 0 empty))).
Proof.
  assert (R : reach {[0%nat]} (attach 0 (pre_close (begin 0 empty)))).
  { apply reach_attach; [|set_solver]. apply reach_pre_close. replace ({[0%nat]} : gset nat) with ({[0%nat]} ∪ ∅ : gset nat) by set_solver. apply reach_begin; [constructor|set_solver]. }
  destruct (shutdown_reaches_transports _ _ R) as [H1 _]. by apply H1.
Defined.
End Transports.
