(* ===== verification/Deadline.v ===== *)
(** * The deadline of a worker command

    [CommandDeadline] models
    src/cantrip_server_rs/src/workers/command_deadline.rs. A command has one
    budget for its preparation and one for its execution; the worker reports
    the phase it is in, and the time it spends waiting is free. Instants and
    durations are integers of the same unit; the clock is an argument. *)
From S2P Require Import Prelude.
From stdpp Require Import base numbers strings list.
Open Scope Z_scope.

Module CommandDeadline.
Import Text.

Inductive Phase := Waiting | Preparing | Running.

Record t := MkDeadline {
  duration : option Z;
  preparation : Z;
  execution : Z;
  phase : Phase;
  entered : Z;
  sequence : option Z
}.

#[export] Instance phase_eq_dec : EqDecision Phase.
Proof. solve_decision. Defined.

Definition saturating_sub (a b : Z) : Z := Z.max 0 (a - b).

Definition new (now : Z) (duration : option Z) : t :=
  MkDeadline duration (default 0 duration) (default 0 duration) Preparing now None.

Definition phase_of (name : text) : option Phase :=
  if decide (name = lit "waiting") then Some Waiting
  else if decide (name = lit "preparing") then Some Preparing
  else if decide (name = lit "running") then Some Running
  else None.

Definition stale (d : t) (seq : Z) : bool :=
  match sequence d with Some current => seq <=? current | None => false end.

Definition observe (now seq : Z) (name : text) (d : t) : bool * t :=
  if stale d seq then (false, d)
  else
    match phase_of name with
    | None => (false, d)
    | Some next =>
        let elapsed := saturating_sub now (entered d) in
        let preparation := match phase d with Preparing => saturating_sub (preparation d) elapsed | _ => preparation d end in
        let execution := match phase d with Running => saturating_sub (execution d) elapsed | _ => execution d end in
        (true, MkDeadline (duration d) preparation execution next now (Some seq))
    end.

Definition remaining (now : Z) (d : t) : option Z :=
  match duration d, phase d with
  | None, _ | _, Waiting => None
  | Some _, Preparing => Some (saturating_sub (preparation d) (saturating_sub now (entered d)))
  | Some _, Running => Some (saturating_sub (execution d) (saturating_sub now (entered d)))
  end.

(** ** What it measures

    The reports of a worker, as they arrive: the instant, the sequence number
    and the name of the phase. *)
Record Report := MkReport { at_ : Z; number : Z; name : text }.

Definition report (d : t) (r : Report) : t := (observe (at_ r) (number r) (name r) d).2.

(** The reports that count: known phases with rising numbers. *)
Fixpoint changes (last : option Z) (l : list Report) : list (Z * Phase) :=
  match l with
  | [] => []
  | r :: l =>
      match phase_of (name r) with
      | Some p => if match last with Some n => number r <=? n | None => false end then changes last l
                  else (at_ r, p) :: changes (Some (number r)) l
      | None => changes last l
      end
  end.

(** The time spent in a phase, and the phase at the end. *)
Fixpoint spent (p current : Phase) (since : Z) (l : list (Z * Phase)) (now : Z) : Z :=
  match l with
  | [] => if decide (current = p) then now - since else 0
  | (at_, next) :: l => (if decide (current = p) then at_ - since else 0) + spent p next at_ l now
  end.
Fixpoint final (current : Phase) (l : list (Z * Phase)) : Phase :=
  match l with [] => current | (_, next) :: l => final next l end.

(** The clock does not run backwards. *)
Fixpoint in_time (since : Z) (l : list Report) (now : Z) : Prop :=
  match l with [] => since <= now | r :: l => since <= at_ r /\ in_time (at_ r) l now end.

Lemma in_time_weaken l : forall a b now, a <= b -> in_time b l now -> in_time a l now.
Proof. destruct l as [|r l]; simpl; intros; intuition lia. Qed.

Lemma spent_nonneg p l : forall last current since now, in_time since l now -> 0 <= spent p current since (changes last l) now.
Proof.
  induction l as [|r l IH]; intros last current since now Ht; simpl in *; [case_decide; lia|]. destruct Ht as [H1 H2].
  pose proof (in_time_weaken _ _ _ _ H1 H2) as H3. case_match; [case_match|]; try by apply IH.
  simpl. pose proof (IH (Some (number r)) p0 (at_ r) now H2). case_decide; lia.
Qed.

(** From any state: what is left is the budget less the time in the phase. *)
Lemma remaining_reports now l : forall d D, duration d = Some D -> 0 <= preparation d -> 0 <= execution d -> in_time (entered d) l now ->
  remaining now (foldl report d l) =
    let cs := changes (sequence d) l in
    match final (phase d) cs with
    | Waiting => None
    | Preparing => Some (saturating_sub (preparation d) (spent Preparing (phase d) (entered d) cs now))
    | Running => Some (saturating_sub (execution d) (spent Running (phase d) (entered d) cs now))
    end.
Proof.
  induction l as [|r l IH]; intros d D Hd Hp He Ht; cbn zeta.
  { simpl in *. unfold remaining. rewrite Hd. destruct (phase d); simpl; try done; f_equal; unfold saturating_sub; lia. }
  simpl in Ht. destruct Ht as [H1 H2]. simpl. pose proof (in_time_weaken _ _ _ _ H1 H2) as H3.
  unfold report at 2, observe, stale. destruct (phase_of (name r)) as [p|]; simpl.
  2: { replace (if match sequence d with Some c => number r <=? c | None => false end then _ else _) with (false, d) by (by case_match). by apply (IH d D). }
  case_match eqn:Es; simpl; [by apply (IH d D)|]. rewrite (IH _ D); simpl; try done; [|destruct (phase d); unfold saturating_sub; lia..].
  pose proof (spent_nonneg Preparing l (Some (number r)) p (at_ r) now H2). pose proof (spent_nonneg Running l (Some (number r)) p (at_ r) now H2).
  destruct (final p _); [done|..]; f_equal; destruct (phase d); repeat case_decide; try done; unfold saturating_sub; lia.
Qed.

(** C22: whatever a worker reports, a command with a time limit has exactly the
    limit left that its current phase has not used: the time spent preparing and
    the time spent running are charged to budgets of their own, each as long as
    the limit, waiting is free, and reports that are stale or not understood
    change nothing. A command without a limit never expires. *)
Theorem deadline_exact start now limit l : 0 <= default 0 limit -> in_time start l now ->
  remaining now (foldl report (new start limit) l) =
    match limit, final Preparing (changes None l) with
    | None, _ | _, Waiting => None
    | Some D, p => Some (Z.max 0 (D - spent p Preparing start (changes None l) now))
    end.
Proof.
  intros Hl Ht. destruct limit as [D|].
  - rewrite (remaining_reports now l (new start (Some D)) D) by done. simpl. by case_match.
  - assert (Hn : duration (foldl report (new start None) l) = None).
    { generalize (new start None) (eq_refl : duration (new start None) = None). clear. induction l as [|r l IH]; intros d Hd; [done|].
      apply IH. unfold report, observe. by repeat case_match. }
    unfold remaining. by rewrite Hn.
Qed.

(** A command that waits its turn for most of its life. *)
Module Sample.
Definition reports : list Report := [MkReport 10 1 (lit "waiting"); MkReport 500 2 (lit "running"); MkReport 510 2 (lit "waiting"); MkReport 515 3 (lit "unknown")].

Lemma deadline_exact_witness : in_time 0 reports 530 /\ remaining 530 (foldl report (new 0 (Some 100)) reports) = Some 70.
Proof. assert (Ht : in_time 0 reports 530) by (simpl; lia). split; [exact Ht|]. rewrite (deadline_exact 0 530 (Some 100) reports); [reflexivity|simpl; lia|exact Ht]. Defined.
End Sample.
End CommandDeadline.
