(* ===== verification/Listeners.v ===== *)
(** * Listener registries

    [Listeners] models the subscription groups that
    src/cantrip_server_rs/src/workers/offline.rs, frames.rs and notifications.rs
    share: a registry keeps one group of listeners per worker, a group keeps its
    listeners in the order they came, and a delivery walks the group it found,
    rereading it after each call, so that listeners may subscribe and
    unsubscribe from inside a call. Groups are shared ([Arc]): a delivery and a
    subscription keep the group they saw even when the registry has moved on,
    which is why groups live in a heap. [Uuid]s are drawn from a counter. *)
From S2P Require Import Prelude.
From stdpp Require Import base numbers strings gmap option list sorting.

Module Listeners.
Section listeners.
(** Handlers, compared by identity ([Arc::ptr_eq]). *)
Context {Handler : Type} `{EqDecision Handler}.

Abbreviation group := (list (nat * Handler)).

Record Registry := MkRegistry {
  groups : gmap string nat;
  heap : gmap nat group;
  next_group : nat;
  next_id : nat
}.

Record Subscription := MkSubscription { s_worker : string; s_group : nat; s_id : nat }.

Definition new : Registry := MkRegistry ∅ ∅ 0 0.

Definition members (r : Registry) (g : nat) : group := default [] (heap r !! g).

(** [groups.entry(worker).or_default()] *)
Definition entry (worker : string) (r : Registry) : nat * Registry :=
  match groups r !! worker with
  | Some g => (g, r)
  | None => (next_group r, MkRegistry (<[worker := next_group r]> (groups r)) (<[next_group r := []]> (heap r)) (S (next_group r)) (next_id r))
  end.

Definition subscribe (worker : string) (handler : Handler) (r : Registry) : Subscription * Registry :=
  let '(g, r) := entry worker r in
  match list_find (fun p => p.2 = handler) (members r g) with
  | Some (_, (id, _)) => (MkSubscription worker g id, r)
  | None =>
      (MkSubscription worker g (next_id r),
       MkRegistry (groups r) (<[g := members r g ++ [(next_id r, handler)]]> (heap r)) (next_group r) (S (next_id r)))
  end.

(** [Drop for Subscription] *)
Definition drop (s : Subscription) (r : Registry) : Registry :=
  let left_ := IndexMap.shift_remove (s_id s) (members r (s_group s)) in
  let r := MkRegistry (groups r) (<[s_group s := left_]> (heap r)) (next_group r) (next_id r) in
  if bool_decide (left_ = []) && bool_decide (groups r !! s_worker s = Some (s_group s))
  then MkRegistry (delete (s_worker s) (groups r)) (heap r) (next_group r) (next_id r)
  else r.

Definition clear (r : Registry) : Registry := MkRegistry ∅ (heap r) (next_group r) (next_id r).

(** The next listener of a delivery that has called [visited]. *)
Definition next_listener (g : nat) (visited : list nat) (r : Registry) : option (nat * Handler) :=
  head (filter (fun p => p.1 ∉ visited) (members r g)).

(** ** A delivery among subscriptions

    What may happen to a registry, with the subscriptions that are held. *)
Inductive change : Registry * list Subscription -> Registry * list Subscription -> Prop :=
| ch_subscribe worker handler r held :
    change (r, held) ((subscribe worker handler r).2, (subscribe worker handler r).1 :: held)
| ch_drop s r before after : change (r, before ++ s :: after) (drop s r, before ++ after)
| ch_clear r held : change (r, held) (clear r, held).

(** A delivery that walks the group [g] of a worker, which may begin at any
    time; [calls] is what it called so far, the latest first. Between two calls
    anything may happen. *)
Inductive serve (g : nat) : Registry * list Subscription -> list (nat * Handler) -> Prop :=
| sv_start x : rtc change (new, []) x -> serve g x []
| sv_change x y calls : serve g x calls -> change x y -> serve g y calls
| sv_call x calls p : serve g x calls -> next_listener g calls.*1 x.1 = Some p -> serve g x (p :: calls).

(** ** The invariant *)

Abbreviation rising := (StronglySorted lt).

Record wf (r : Registry) : Prop := Wf {
  wf_rising : forall g, rising (members r g).*1;
  wf_below : forall g i, i ∈ (members r g).*1 -> i < next_id r;
  wf_handlers : forall g, NoDup (members r g).*2;
  wf_known : forall w g, groups r !! w = Some g -> members r g <> [];
  wf_fresh : forall g, next_group r <= g -> heap r !! g = None;
  wf_apart : forall w w' g, groups r !! w = Some g -> groups r !! w' = Some g -> w = w';
  wf_old : forall w g, groups r !! w = Some g -> g < next_group r
}.

Lemma new_wf : wf new.
Proof. unfold new. constructor; unfold members; simpl; intros; try rewrite lookup_empty in *; simpl in *; try done; try constructor. by apply elem_of_nil in H. Qed.

Lemma members_insert r g l g' G n i : members (MkRegistry G (<[g := l]> (heap r)) n i) g' = if decide (g = g') then l else members r g'.
Proof. unfold members. simpl. rewrite lookup_insert. by case_decide. Qed.

Lemma rising_snoc l x : rising l -> (forall y, y ∈ l -> y < x) -> rising (l ++ [x]).
Proof.
  intros Hl Hx. induction Hl as [|y l Hl IH Hy]; [repeat constructor|]. simpl. constructor; [apply IH; intros; apply Hx; by right|].
  apply Forall_app. split; [done|]. constructor; [apply Hx; left|done].
Qed.

Lemma sublist_rising k l : k `sublist_of` l -> rising l -> rising k.
Proof.
  induction 1 as [|x l k Hs IH|x l k Hs IH]; intros Hr; [done|..]; inversion Hr; subst; [|by apply IH].
  constructor; [by apply IH|]. rewrite Forall_forall in *. eauto using elem_of_sublist.
Qed.

Lemma sublist_fmap {A B} (f : A -> B) k l : k `sublist_of` l -> (f <$> k) `sublist_of` (f <$> l).
Proof. intros E. by rewrite E. Qed.

Lemma entry_wf worker r : wf r ->
  let '(g, r') := entry worker r in
  groups r' !! worker = Some g /\ next_id r' = next_id r /\
  (forall g', members r' g' = members r g') /\
  (forall w, w <> worker -> groups r' !! w = groups r !! w) /\
  (forall g, next_group r' <= g -> heap r' !! g = None) /\
  (forall w w' g, groups r' !! w = Some g -> groups r' !! w' = Some g -> w = w') /\
  (forall w g, groups r' !! w = Some g -> g < next_group r').
Proof.
  intros W. unfold entry. destruct (groups r !! worker) as [g|] eqn:E; [split_and!; try done; apply W|]. simpl. split_and!; try done.
  - by rewrite lookup_insert_eq.
  - intros g'. rewrite members_insert. case_decide as D; [|done]. subst g'. unfold members. by rewrite (wf_fresh _ W).
  - intros w Hw. by rewrite lookup_insert_ne.
  - intros g Hg. rewrite lookup_insert_ne by lia. apply (wf_fresh _ W). lia.
  - intros w w' g. rewrite !lookup_insert. repeat case_decide; subst; intros E1 E2; simplify_eq; try done; [apply (wf_old _ W) in E2; lia|apply (wf_old _ W) in E1; lia|by eapply (wf_apart _ W)].
  - intros w g. rewrite lookup_insert. case_decide; intros; simplify_eq; [lia|]. etrans; [by eapply (wf_old _ W)|lia].
Qed.

Lemma subscribe_wf worker handler r : wf r -> wf (subscribe worker handler r).2.
Proof.
  intros W. unfold subscribe. pose proof (entry_wf worker r W) as E. destruct (entry worker r) as [g r1].
  destruct E as (E1 & E2 & E3 & E4 & E5 & E6 & E7). destruct (list_find _ _) as [[k [id h]]|] eqn:F; simpl.
  - apply list_find_Some in F as (F1 & F2 & _). constructor; try done; intros; rewrite ?E3, ?E2 in *; try by apply W.
    { by eapply (wf_below _ W). }
    destruct (decide (w = worker)) as [->|]; [|rewrite E4 in H by done; by eapply (wf_known _ W)]. rewrite E1 in H. injection H as <-. intros Hn. by rewrite Hn in F1.
  - apply list_find_None in F. constructor; simpl; try done; intros g'; rewrite ?members_insert, ?E3, ?E2.
    + case_decide; [|apply W]. rewrite fmap_app. apply rising_snoc; [apply W|]. intros y Hy. by eapply (wf_below _ W).
    + case_decide; intros i Hi; [|apply (wf_below _ W) in Hi; lia]. rewrite fmap_app in Hi. apply elem_of_app in Hi as [Hi|Hi]; [apply (wf_below _ W) in Hi; lia|].
      apply list_elem_of_singleton in Hi. simpl in Hi. lia.
    + case_decide; [|apply W]. rewrite fmap_app. apply NoDup_app. split_and!; [apply W| |apply NoDup_singleton]. intros x Hx Hx'%list_elem_of_singleton. simpl in Hx'. subst x.
      apply list_elem_of_fmap in Hx as (y & Ey & Hy). rewrite E3, Forall_forall in F. exact (F y Hy (eq_sym Ey)).
    + intros g2 Hg'. rewrite members_insert. case_decide; [by destruct (members r g)|]. rewrite E3.
      destruct (decide (g' = worker)) as [->|]; [congruence|]. rewrite E4 in Hg' by done. by eapply (wf_known _ W).
    + intros Hg. rewrite lookup_insert_ne; [by apply E5|]. intros ->. apply E7 in E1. lia.
Qed.

Lemma drop_members s r g : members (drop s r) g = if decide (s_group s = g) then IndexMap.shift_remove (s_id s) (members r g) else members r g.
Proof. unfold drop. case_match; unfold members; simpl; rewrite lookup_insert; destruct (decide (s_group s = g)) as [->|]; done. Qed.

Lemma drop_groups s r w : groups (drop s r) !! w = groups r !! w \/
  groups (drop s r) !! w = None /\ w = s_worker s /\ groups r !! w = Some (s_group s) /\ members (drop s r) (s_group s) = [].
Proof.
  rewrite drop_members. unfold drop. simpl. destruct (decide (s_group s = s_group s)); [|done]. case_match eqn:E; simpl; [|by left].
  apply andb_true_iff in E as [E1%bool_decide_eq_true E2%bool_decide_eq_true].
  destruct (decide (w = s_worker s)) as [->|]; [right; by rewrite lookup_delete_eq|left; by rewrite lookup_delete_ne].
Qed.

Lemma drop_emptied s r : members (drop s r) (s_group s) = [] -> groups (drop s r) !! s_worker s <> Some (s_group s).
Proof.
  rewrite drop_members. destruct (decide (s_group s = s_group s)); [|done]. unfold drop. simpl. intros ->. rewrite (bool_decide_eq_true_2 ([] = [])) by done.
  case_match eqn:E; simpl; [by rewrite lookup_delete_eq|]. by apply bool_decide_eq_false in E.
Qed.

(** A subscription that the registry gave out: its group is of its worker. *)
Definition genuine (r : Registry) (s : Subscription) : Prop :=
  s_group s < next_group r /\ forall w, groups r !! w = Some (s_group s) -> w = s_worker s.

Lemma drop_counters s r : next_group (drop s r) = next_group r /\ next_id (drop s r) = next_id r.
Proof. unfold drop. by case_match. Qed.

Lemma drop_groups_sub s r w g : groups (drop s r) !! w = Some g -> groups r !! w = Some g.
Proof. destruct (drop_groups s r w) as [->|[-> _]]; done. Qed.

Lemma drop_wf s r : genuine r s -> wf r -> wf (drop s r).
Proof.
  intros [Hlt Hs] W. destruct (drop_counters s r) as [Hn1 Hn2].
  assert (Hsub : forall g, members (drop s r) g `sublist_of` members r g).
  { intros g. rewrite drop_members. case_decide; [apply IndexMap.remove_sublist|done]. }
  constructor; rewrite ?Hn1, ?Hn2.
  - intros g. eapply sublist_rising; [|apply W]. by apply sublist_fmap.
  - intros g i Hi. eapply (wf_below _ W). eapply sublist_elem; [exact Hi|]. by apply sublist_fmap.
  - intros g. eapply sublist_NoDup; [apply W|]. by apply sublist_fmap.
  - intros w g Hw He. pose proof (drop_groups_sub _ _ _ _ Hw) as Hw'. destruct (decide (s_group s = g)) as [<-|Hne].
    + rewrite (Hs w Hw') in Hw. by apply drop_emptied in He.
    + rewrite drop_members in He. case_decide; [done|]. by eapply (wf_known _ W).
  - intros g Hg. unfold drop. destruct (decide (s_group s = g)) as [Hg'|Hg'].
    + lia.
    + case_match; simpl; rewrite lookup_insert_ne by done; by apply (wf_fresh _ W).
  - intros w w' g H1%drop_groups_sub H2%drop_groups_sub. by eapply (wf_apart _ W).
  - intros w g H1%drop_groups_sub. by eapply (wf_old _ W).
Qed.

Lemma clear_wf r : wf r -> wf (clear r).
Proof. intros W. constructor; simpl; try apply W; intros *; by rewrite lookup_empty. Qed.

Lemma entry_genuine worker r s : wf r -> genuine r s -> genuine (entry worker r).2 s.
Proof.
  intros W [G1 G2]. unfold entry. destruct (groups r !! worker); [done|]. split; simpl; [lia|]. intros w. rewrite lookup_insert. case_decide; [|by apply G2].
  intros [= E]. lia.
Qed.

Lemma subscribe_groups worker handler r : groups (subscribe worker handler r).2 = groups (entry worker r).2 /\
  next_group (subscribe worker handler r).2 = next_group (entry worker r).2.
Proof. unfold subscribe. destruct (entry worker r) as [g r1]. by case_match; [case_match; case_match|]. Qed.

Lemma subscribe_genuine worker handler r : wf r -> genuine (subscribe worker handler r).2 (subscribe worker handler r).1.
Proof.
  intros W. unfold genuine. destruct (subscribe_groups worker handler r) as [-> ->]. pose proof (entry_wf worker r W) as E. unfold subscribe.
  destruct (entry worker r) as [g r1]. destruct E as (E1 & _ & _ & _ & _ & E6 & E7).
  assert (Hs : forall id, s_group (MkSubscription worker g id) < next_group r1 /\ forall w, groups r1 !! w = Some g -> w = worker) by (split; [by eapply E7|eauto]).
  case_match; [case_match; case_match|]; simpl; apply (Hs 0).
Qed.

Lemma change_wf x y : change x y -> wf x.1 /\ Forall (genuine x.1) x.2 -> wf y.1 /\ Forall (genuine y.1) y.2.
Proof.
  intros C [W G]. destruct C as [worker handler r held|s r before after|r held]; simpl in *.
  - split; [by apply subscribe_wf|]. constructor; [by apply subscribe_genuine|]. eapply Forall_impl; [exact G|]. intros s Hs.
    pose proof (entry_genuine worker r s W Hs). unfold genuine. by destruct (subscribe_groups worker handler r) as [-> ->].
  - apply Forall_app in G as [G1 [G2 G3]%Forall_cons]. split; [by apply drop_wf|]. apply Forall_app.
    split; (eapply Forall_impl; [eassumption|]); intros s' [H1 H2]; (split; [by rewrite (proj1 (drop_counters s r))|]); intros w Hw%drop_groups_sub; by apply H2.
  - split; [by apply clear_wf|]. eapply Forall_impl; [exact G|]. intros s [H1 H2]. split; [done|]. intros w. simpl. by rewrite lookup_empty.
Qed.

Lemma changes_wf x : rtc change (new, []) x -> wf x.1 /\ Forall (genuine x.1) x.2.
Proof.
  intros Hr. remember (new, []) as y eqn:E. assert (Hy : wf y.1 /\ Forall (genuine y.1) y.2) by (subst y; split; [exact new_wf|constructor]). clear E.
  induction Hr; [done|]. eauto using change_wf.
Qed.

(** ** Deliveries *)

Abbreviation ids := (fun r g => (members r g).*1).

Lemma change_ids x y g i : wf x.1 -> change x y -> next_id x.1 <= next_id y.1 /\ (i ∈ ids y.1 g -> i ∈ ids x.1 g \/ next_id x.1 <= i).
Proof.
  intros W C. destruct C as [worker handler r held|s r before after|r held]; simpl in *.
  - pose proof (entry_wf worker r W) as E. unfold subscribe. destruct (entry worker r) as [g1 r1]. destruct E as (_ & E2 & E3 & _).
    case_match; [case_match; case_match|]; simpl; [rewrite E2, E3; auto|]. rewrite E2. split; [lia|]. rewrite members_insert, !E3. case_decide; [|auto].
    subst. rewrite fmap_app. intros [Hi|Hi%list_elem_of_singleton]%elem_of_app; [auto|]. simpl in Hi. right. lia.
  - destruct (drop_counters s r) as [_ ->]. split; [lia|]. rewrite drop_members. case_decide; [|auto]. intros Hi. left.
    eapply sublist_elem; [exact Hi|]. apply sublist_fmap, IndexMap.remove_sublist.
  - auto.
Qed.

(** The first that was not called yet: everything before it was. *)
Lemma head_unvisited (visited : list nat) (l : group) p : rising l.*1 -> head (filter (fun p => p.1 ∉ visited) l) = Some p ->
  p ∈ l /\ (p.1 ∉ visited) /\ forall i, i ∈ l.*1 -> i < p.1 -> i ∈ visited.
Proof.
  induction l as [|q l IH]; [done|]. simpl. intros Hr. apply StronglySorted_inv in Hr as [Hr Hq]. rewrite filter_cons. case_decide as D.
  - intros [= <-]. split_and!; [left|done|]. intros i [->|Hi]%elem_of_cons Hlt; [lia|]. rewrite Forall_forall in Hq. specialize (Hq i Hi). lia.
  - intros Hh. destruct (IH Hr Hh) as (A & B & C). split_and!; [by right|done|]. intros i [->|Hi]%elem_of_cons Hlt; [|by apply C].
    by destruct (decide (q.1 ∈ visited)).
Qed.

Lemma serve_wf g x calls : serve g x calls -> wf x.1 /\ Forall (genuine x.1) x.2.
Proof. induction 1; [by apply changes_wf|by eapply change_wf|done]. Qed.

Lemma serve_order g x calls : serve g x calls ->
  StronglySorted gt calls.*1 /\ (forall c, c ∈ calls.*1 -> c < next_id x.1) /\
  (forall i c, i ∈ ids x.1 g -> c ∈ calls.*1 -> i < c -> i ∈ calls.*1).
Proof.
  induction 1 as [x Hx|x y calls Hs IH C|x calls p Hs IH Hp].
  - split_and!; [apply SSorted_nil|by intros c Hc%elem_of_nil|by intros i c _ Hc%elem_of_nil].
  - destruct IH as (A & B & D). pose proof (serve_wf _ _ _ Hs) as [W _]. split_and!; [done|..].
    + intros c Hc. specialize (B c Hc). destruct (change_ids x y g 0 W C). lia.
    + intros i c Hi Hc Hlt. destruct (change_ids x y g i W C) as [_ [Hi'|Hi']]; [done|by eapply D|]. specialize (B c Hc). lia.
  - destruct IH as (A & B & D). pose proof (serve_wf _ _ _ Hs) as [W _].
    destruct (head_unvisited calls.*1 (members x.1 g) p (wf_rising _ W g) Hp) as (P1 & P2 & P3).
    assert (Hin : p.1 ∈ ids x.1 g) by (apply list_elem_of_fmap; by exists p). split_and!; simpl.
    + constructor; [done|]. apply Forall_forall. intros c Hc. destruct (lt_eq_lt_dec p.1 c) as [[Hlt|<-]|?]; [|done|done]. destruct P2. by apply (D _ c).
    + intros c [->|Hc]%elem_of_cons; [by apply (wf_below _ W g)|by apply B].
    + intros i c Hi [->|Hc]%elem_of_cons Hlt; right; [by apply P3|by apply (D i c)].
Qed.

Lemma descending_bound (l : list nat) n : StronglySorted gt l -> (forall c, c ∈ l -> c < n) -> length l <= n.
Proof.
  revert n. induction l as [|c l IH]; intros n Hs Hn; simpl; [lia|]. apply StronglySorted_inv in Hs as [Hs Hc].
  assert (length l <= c); [|specialize (Hn c (list_elem_of_here _ _)); lia]. apply IH; [done|]. intros d Hd. rewrite Forall_forall in Hc. by apply Hc.
Qed.

(** A delivery treats its group like the iteration of a set: the listeners it
    calls are subscribed at that moment, each is called once and in the order of
    subscription, it ends only when every listener of the group was called, and
    it calls no more listeners than were ever subscribed, so that it ends unless
    its own callbacks keep subscribing. Held subscriptions belong to the group
    they name, and no registered group is empty. *)
Theorem delivery_like_set g x calls : serve g x calls ->
  StronglySorted gt calls.*1 /\ length calls <= next_id x.1 /\
  (forall p, next_listener g calls.*1 x.1 = Some p -> p ∈ members x.1 g /\ (p.1 ∉ calls.*1)) /\
  (next_listener g calls.*1 x.1 = None -> forall p, p ∈ members x.1 g -> p.1 ∈ calls.*1) /\
  (forall w g', groups x.1 !! w = Some g' -> members x.1 g' <> []) /\
  (forall s w, s ∈ x.2 -> groups x.1 !! w = Some (s_group s) -> w = s_worker s).
Proof.
  intros Hs. pose proof (serve_wf _ _ _ Hs) as [W G]. destruct (serve_order _ _ _ Hs) as (A & B & _). split_and!; [done|..].
  - rewrite <- (length_fmap fst). by apply descending_bound.
  - intros p Hp. destruct (head_unvisited _ _ _ (wf_rising _ W g) Hp) as (P1 & P2 & _). done.
  - unfold next_listener. intros Hn p Hp. destruct (filter _ _) as [|q l] eqn:E; [|done]. destruct (decide (p.1 ∈ calls.*1)) as [|Hv]; [done|].
    assert (Hf : p ∈ filter (fun p => p.1 ∉ calls.*1) (members x.1 g)) by (by apply list_elem_of_filter). rewrite E in Hf. by apply elem_of_nil in Hf.
  - intros w g'. apply (wf_known _ W).
  - intros s w Hin. rewrite Forall_forall in G. apply (G s Hin).
Qed.
End listeners.

(** Two listeners; the first unsubscribes the second while it is called. *)
Module Sample.
Definition r1 : Registry (Handler := nat) := (subscribe "worker" 7 new).2.
Definition second : Subscription := (subscribe "worker" 8 r1).1.
Definition r2 : Registry (Handler := nat) := (subscribe "worker" 8 r1).2.

Lemma serve2 : serve 0 (r2, [second; (subscribe "worker" 7 new).1]) [(0, 7)].
Proof.
  apply sv_call; [|vm_compute; reflexivity]. apply sv_start. eapply rtc_l; [apply (ch_subscribe "worker" 7)|].
  eapply rtc_l; [apply (ch_subscribe "worker" 8)|]. apply rtc_refl.
Qed.

Lemma delivery_like_set_witness : members (drop second r2) 0 = [(0, 7)] /\
  next_listener 0 [0] (drop second r2) = None /\ forall p, p ∈ members (drop second r2) 0 -> p.1 ∈ [0].
Proof.
  split_and!; [vm_compute; reflexivity..|].
  pose proof (sv_change 0 _ _ _ serve2 (ch_drop second r2 [] [(subscribe "worker" 7 new).1])) as Hs.
  destruct (delivery_like_set 0 _ _ Hs) as (_ & _ & _ & H & _). apply H. vm_compute. reflexivity.
Defined.
End Sample.
End Listeners.
