(* ===== verification/Bridge.v ===== *)
(** * The worker bridge

    [Bridge] models src/cantrip_server_rs/src/workers/bridge.rs with output.rs,
    link_frames.rs, tunnel_frames.rs and surface_frames.rs: the sockets of the
    workers and their outgoing queues, reconnection within a grace period,
    commands with their events, answers and deadlines, and the listeners for
    frames, notifications and lost workers.

    The listeners run in the middle of an operation and may call the bridge
    again, and tasks of the bridge run meanwhile. What an operation has still to
    do after its listeners is therefore kept on a stack of [Cont]inuations:
    [resume] does the next piece, and [step] lets any operation happen before
    it. References ([Arc]) are numbers into heaps, [Uuid]s are drawn from a
    counter, and the clock is an argument. *)
From S2P Require Import Prelude JsString Wire Frames Deadline Listeners CommandBus.
From stdpp Require Import base numbers strings gmap option list.
Open Scope Z_scope.

Module Bridge.
Import Text JsString Wire.
Abbreviation deadline := CommandDeadline.t.

(** ** The outgoing queue of a socket: output.rs *)

Definition framed_size (payload : Z) : Z :=
  payload + (if payload <? 126 then 2 else if payload <=? 65535 then 4 else 10).

Record Continuity := MkContinuity { owner : string; credential : string; process_generation : string }.
#[export] Instance continuity_eq_dec : EqDecision Continuity.
Proof. solve_decision. Defined.

Inductive Outgoing :=
| Text (t : text)
| Binary (b : list Byte.byte)
| Tunnel (b : list Byte.byte)
| Surface (b : list Byte.byte)
| Close (code : Z) (reason : string).

(** A [Peer]: [p_queue] is its channel, [p_writing] what the writer has taken
    and not flushed yet, each with the bytes it reserves. *)
Record Peer := MkPeer {
  p_identity : Continuity;
  p_continuity : option Continuity;
  p_open : bool;
  p_gone : bool;                     (* the receiver of the channel was dropped *)
  p_queue : list (Outgoing * Z);
  p_writing : list Z;
  p_closing : option (Z * string);
  p_buffered : Z
}.

Definition with_continuity (identity : Continuity) (asserted : bool) : Peer :=
  MkPeer identity (if asserted then Some identity else None) true false [] [] None 0.

Definition is_open (p : Peer) : bool := p_open p && negb (p_gone p).
Definition buffered_amount (p : Peer) : Z := p_buffered p.

Definition enqueue (o : Outgoing) (bytes : Z) (p : Peer) : Peer :=
  MkPeer (p_identity p) (p_continuity p) (p_open p) (p_gone p) (p_queue p ++ [(o, bytes)]) (p_writing p) (p_closing p) (p_buffered p + bytes).

(** [reserve] and [send]: a refused message gives its bytes back. *)
Definition offer (o : Outgoing) (bytes : Z) (p : Peer) : bool * Peer :=
  if p_gone p then (false, p) else (true, enqueue o bytes p).

Definition LIMIT : Z := 8 * 1024 * 1024.
(** [bounded] and [send]. *)
Definition offer_bounded (o : Outgoing) (bytes : Z) (p : Peer) : bool * Peer :=
  if p_buffered p <=? LIMIT then offer o bytes p else (false, p).

Definition send_text (t : text) (p : Peer) : bool * Peer := offer (Text t) (framed_size (byte_len t)) p.
Definition send_frame (b : list Byte.byte) (p : Peer) : bool * Peer :=
  if is_open p then offer_bounded (Binary b) (framed_size (len b)) p else (false, p).
Definition send_tunnel (b : list Byte.byte) (p : Peer) : bool * Peer :=
  if is_open p then offer_bounded (Tunnel b) (framed_size (len b)) p else (false, p).
Definition send_surface (b : list Byte.byte) (p : Peer) : bool * Peer :=
  if is_open p then offer (Surface b) (framed_size (len b)) p else (false, p).

Definition close_peer (code : Z) (reason : string) (p : Peer) : Peer :=
  if p_open p then
    let p := MkPeer (p_identity p) (p_continuity p) false (p_gone p) (p_queue p) (p_writing p) (Some (code, reason)) (p_buffered p) in
    (offer (Close code reason) 0 p).2
  else p.

(** The transport: it takes a message, flushes or abandons it, and goes away. *)
Definition take_message (p : Peer) : Peer :=
  match p_queue p with
  | (_, n) :: rest => MkPeer (p_identity p) (p_continuity p) (p_open p) (p_gone p) rest (p_writing p ++ [n]) (p_closing p) (p_buffered p)
  | [] => p
  end.
Definition drop_written (p : Peer) : Peer :=
  match p_writing p with
  | n :: rest => MkPeer (p_identity p) (p_continuity p) (p_open p) (p_gone p) (p_queue p) rest (p_closing p) (p_buffered p - n)
  | [] => p
  end.
Definition drop_receiver (p : Peer) : Peer :=
  MkPeer (p_identity p) (p_continuity p) (p_open p) true [] (p_writing p) (p_closing p) (p_buffered p - sumZ (p_queue p).*2).

(** ** Commands *)

Section bridge.
Context {numbers : Numbers}.
(** The headers of the three carriers. *)
Context {HL HT HS : Type} `{HeaderCodec HL} `{HeaderCodec HT} `{HeaderCodec HS}.

(** The wire layer: JSON text, the generated contracts, numbers as [u64], and
    the [channel] of a Remote Surface header. *)
Class Contracts := {
  from_str : text -> option Value;
  parse_schema : string -> Value -> option Value;
  as_u64 : num -> option Z;
  channel : HS -> string
}.
Context {contracts : Contracts}.

Record CommandError := MkError {
  message : units;
  code : option units;
  is_unavailable : bool;
  request_id : option units;
  encoding_error : bool;
  inference : option Value
}.

Definition unavailable (m : string) : CommandError := MkError (lit m) None true None false None.
Definition not_sent (m : string) : CommandError := MkError (lit m) (Some (lit "worker-command-not-sent")) true None false None.
Definition command_error (m : units) (c : string) (request : units) : CommandError := MkError m (Some (lit c)) false (Some request) false None.

Definition Outcome : Type := CommandError + option Value.
Inductive Delivery := Event (v : Value) | Response (o : Outcome) | Finished.

(** The task that hands the events of a command to its handler. *)
Inductive Task := Listening | Handling (v : Value) | Ended.

(** A [Pending] with its task: [q_outcome] is what its caller was answered,
    [q_arrived] and [q_handled] record the events that came and those the task
    is done with. *)
Record Pending := MkPending {
  q_worker : string;
  q_command : units;
  q_delivery : list Delivery;
  q_outcome : option Outcome;
  q_timer : bool;
  q_deadline : deadline;
  q_handler : bool;
  q_task : Task;
  q_arrived : list Value;
  q_handled : list Value
}.

Definition set_delivery x q := MkPending (q_worker q) (q_command q) x (q_outcome q) (q_timer q) (q_deadline q) (q_handler q) (q_task q) (q_arrived q) (q_handled q).
Definition set_outcome x q := MkPending (q_worker q) (q_command q) (q_delivery q) x (q_timer q) (q_deadline q) (q_handler q) (q_task q) (q_arrived q) (q_handled q).
Definition set_timer x q := MkPending (q_worker q) (q_command q) (q_delivery q) (q_outcome q) x (q_deadline q) (q_handler q) (q_task q) (q_arrived q) (q_handled q).
Definition set_deadline x q := MkPending (q_worker q) (q_command q) (q_delivery q) (q_outcome q) (q_timer q) x (q_handler q) (q_task q) (q_arrived q) (q_handled q).
Definition set_task x q := MkPending (q_worker q) (q_command q) (q_delivery q) (q_outcome q) (q_timer q) (q_deadline q) (q_handler q) x (q_arrived q) (q_handled q).
Definition add_arrived v q := MkPending (q_worker q) (q_command q) (q_delivery q) (q_outcome q) (q_timer q) (q_deadline q) (q_handler q) (q_task q) (q_arrived q ++ [v]) (q_handled q).
Definition add_handled v q := MkPending (q_worker q) (q_command q) (q_delivery q) (q_outcome q) (q_timer q) (q_deadline q) (q_handler q) (q_task q) (q_arrived q) (q_handled q ++ [v]).

Definition ended (q : Pending) : bool := match q_task q with Ended => true | _ => false end.
(** Sending on the delivery channel: nobody listens once the task ended. *)
Definition push_delivery (d : Delivery) (q : Pending) : Pending := if ended q then q else set_delivery (q_delivery q ++ [d]) q.

(** ** The bridge *)

Inductive BridgeNotice := Interrupted (worker : string) | WentOffline (worker : string).
Inductive Channel := Disconnected | Offline | Notifications | LinkFrames | TunnelFrames | SurfaceFrames.
#[global] Instance channel_eq_dec : EqDecision Channel.
Proof. solve_decision. Defined.

Inductive Message :=
| NoMessage
| Notification (owner : string) (v : Value)
| LinkFrame (f : Frame HL)
| TunnelFrame_ (f : Frame HT)
| SurfaceFrame_ (f : Frame HS).

(** [State] *)
Record State := MkState {
  peers : gmap string nat;
  identities : gmap string Continuity;
  continuities : gmap string (option Continuity);
  interruptions : gmap string nat;
  timers : gmap string nat;
  pending : list units
}.

Record Counters := MkCounters { routed : Z; succeeded : Z; failed : Z; inference_sequence : Z }.

(** What the rest of an operation has to do. *)
Inductive Cont :=
| Deliver (c : Channel) (worker : string) (m : Message)
| Returned (c : Channel) (worker : string) (group : nat) (visited : list nat) (m : Message)
| Notify (n : BridgeNotice)
| CloseSocket (peer : nat) (code : Z) (reason : string)
| Attach (worker : string) (peer : nat) (ready : option text)
| CloseRest (workers : list string).

(** What the outside sees. *)
Inductive Entry :=
| Noticed (n : BridgeNotice)
| Called (c : Channel) (worker : string) (listener : nat) (handler : nat) (m : Message)
| Invalid (worker : string)
| Attached (worker : string) (peer : nat) (accepted : bool)
| Recorded (owner : string) (bytes : Z).

Abbreviation Registry := (Listeners.Registry (Handler := nat)).

Record Bridge := MkBridge {
  closed : bool;
  state : State;
  requests : gmap units Pending;
  peer_heap : gmap nat Peer;
  counters : Counters;
  registries : Channel -> Registry;
  stack : list Cont;
  log : list Entry;
  fresh : nat
}.

Definition set_closed (x : bool) b := MkBridge x (state b) (requests b) (peer_heap b) (counters b) (registries b) (stack b) (log b) (fresh b).
Definition set_state x b := MkBridge (closed b) x (requests b) (peer_heap b) (counters b) (registries b) (stack b) (log b) (fresh b).
Definition set_requests x b := MkBridge (closed b) (state b) x (peer_heap b) (counters b) (registries b) (stack b) (log b) (fresh b).
Definition set_peer_heap x b := MkBridge (closed b) (state b) (requests b) x (counters b) (registries b) (stack b) (log b) (fresh b).
Definition set_counters x b := MkBridge (closed b) (state b) (requests b) (peer_heap b) x (registries b) (stack b) (log b) (fresh b).
Definition set_registries x b := MkBridge (closed b) (state b) (requests b) (peer_heap b) (counters b) x (stack b) (log b) (fresh b).
Definition set_stack x b := MkBridge (closed b) (state b) (requests b) (peer_heap b) (counters b) (registries b) x (log b) (fresh b).
Definition set_log x b := MkBridge (closed b) (state b) (requests b) (peer_heap b) (counters b) (registries b) (stack b) x (fresh b).
Definition set_fresh x b := MkBridge (closed b) (state b) (requests b) (peer_heap b) (counters b) (registries b) (stack b) (log b) x.

Definition new : Bridge :=
  MkBridge false (MkState ∅ ∅ ∅ ∅ ∅ []) ∅ ∅ (MkCounters 0 0 0 0) (fun _ => Listeners.new) [] [] 0.

Definition update_peer (r : nat) (f : Peer -> Peer) (b : Bridge) : Bridge := set_peer_heap (alter f r (peer_heap b)) b.
Definition update_request (id : units) (f : Pending -> Pending) (b : Bridge) : Bridge := set_requests (alter f id (requests b)) b.
Definition set_pending (l : list units) (s : State) : State :=
  MkState (peers s) (identities s) (continuities s) (interruptions s) (timers s) l.
Definition remove_pending (id : units) (b : Bridge) : Bridge :=
  set_state (set_pending (filter (fun i => i <> id) (pending (state b))) (state b)) b.
Definition record (e : Entry) (b : Bridge) : Bridge := set_log (log b ++ [e]) b.
Definition push (ks : list Cont) (b : Bridge) : Bridge := set_stack (ks ++ stack b) b.

Definition succeeds (o : Outcome) : bool := match o with inr _ => true | inl _ => false end.

Definition count (o : Outcome) (c : Counters) : Counters :=
  if succeeds o then MkCounters (routed c) (succeeded c + 1) (failed c) (inference_sequence c)
  else MkCounters (routed c) (succeeded c) (failed c + 1) (inference_sequence c).

Definition finish (id : units) (result : Outcome) (b : Bridge) : Bridge :=
  match requests b !! id with
  | None => b
  | Some q =>
      match q_outcome q with
      | Some _ => b
      | None =>
          update_request id (fun q => push_delivery Finished (set_outcome (Some result) (set_timer false q)))
            (set_counters (count result (counters b)) b)
      end
  end.

(** ** Termination *)

Definition worker_of (b : Bridge) (id : units) : option string := q_worker <$> requests b !! id.

Definition terminate (worker : string) (error : CommandError) (b : Bridge) : (option nat * bool) * Bridge :=
  let s := state b in
  let socket := peers s !! worker in
  let had := bool_decide (is_Some socket) || bool_decide (is_Some (identities s !! worker)) || bool_decide (is_Some (interruptions s !! worker)) in
  let b := set_state (MkState (delete worker (peers s)) (delete worker (identities s)) (delete worker (continuities s))
                        (delete worker (interruptions s)) (delete worker (timers s)) (pending s)) b in
  let ids := filter (fun id => worker_of b id = Some worker) (pending s) in
  ((socket, had),
   fold_left (fun b id => finish id (inl error) (update_request id (set_timer false) (remove_pending id b))) ids b).

(** What is left to do once a worker was taken out of the tables. *)
Definition finish_termination (worker : string) (socket_had : option nat * bool) (close : option (Z * string)) : list Cont :=
  match socket_had.1 with
  | Some socket =>
      [Notify (Interrupted worker); Deliver Disconnected worker NoMessage] ++
      match close with Some (code, reason) => [CloseSocket socket code reason] | None => [] end
  | None => []
  end ++
  (if socket_had.2 then [Notify (WentOffline worker); Deliver Offline worker NoMessage] else []).

(** ** Attaching *)

Definition socket_open (b : Bridge) (r : nat) : bool := match peer_heap b !! r with Some p => is_open p | None => false end.

Definition attach_rest (worker : string) (peer : nat) (ready : option text) (b : Bridge) : Bridge :=
  match peer_heap b !! peer with
  | None => b
  | Some p =>
      if negb (is_open p) then record (Attached worker peer false) b
      else
        let '(ok, p) := match ready with Some t => send_text t p | None => (true, p) end in
        if negb ok then record (Attached worker peer false) b
        else
          let b := set_peer_heap (<[peer := p]> (peer_heap b)) b in
          let s := state b in
          let previous := peers s !! worker in
          let b := set_state (MkState (<[worker := peer]> (peers s)) (<[worker := p_identity p]> (identities s))
                                (<[worker := p_continuity p]> (continuities s)) (delete worker (interruptions s))
                                (delete worker (timers s)) (pending s)) b in
          let b := match previous with
                   | Some old => if decide (old = peer) then b else update_peer old (close_peer 1012 "Worker reconnected") b
                   | None => b
                   end in
          record (Attached worker peer true) b
  end.

Definition continuity_of (b : Bridge) (worker : string) : option Continuity := mjoin (continuities (state b) !! worker).
Definition had (b : Bridge) (worker : string) : bool :=
  bool_decide (is_Some (peers (state b) !! worker)) || bool_decide (is_Some (interruptions (state b) !! worker)).

Definition attach (worker : string) (peer : nat) (ready : option text) (b : Bridge) : Bridge :=
  if closed b || negb (socket_open b peer) then record (Attached worker peer false) b
  else
    match peer_heap b !! peer with
    | None => b
    | Some p =>
        if had b worker && negb (bool_decide (continuity_of b worker = p_continuity p)) then
          let '(ended, b) := terminate worker (unavailable ("Worker " ++ worker ++ " continuity identity changed.")) b in
          push (finish_termination worker ended (Some (1008, "Worker continuity identity changed"%string)) ++ [Attach worker peer ready]) b
        else attach_rest worker peer ready b
    end.

Definition is_connected (b : Bridge) (worker : string) : bool :=
  match peers (state b) !! worker with Some r => socket_open b r | None => false end.

Definition connection_identity (b : Bridge) (worker : string) : option Continuity := continuity_of b worker.

Definition disconnected_error (worker : string) : CommandError := unavailable ("Worker " ++ worker ++ " disconnected.").

Definition disconnect (worker : string) (reason : string) (code : Z) (b : Bridge) : Bridge :=
  let '(ended, b) := terminate worker (disconnected_error worker) b in
  push (finish_termination worker ended (Some (code, reason))) b.

(** [state.peers.get(worker)] is this socket. *)
Definition current (b : Bridge) (worker : string) (peer : nat) : bool := bool_decide (peers (state b) !! worker = Some peer).

Context (grace : Z).

Definition interrupted (worker : string) (peer : nat) (b : Bridge) : Bridge :=
  if negb (current b worker peer) then b
  else
    let s := state b in
    let generation := fresh b in
    let b := set_fresh (S generation) b in
    let b := set_state (MkState (delete worker (peers s)) (identities s) (continuities s)
                          (<[worker := generation]> (interruptions s)) (delete worker (timers s)) (pending s)) b in
    let b := record (Noticed (Interrupted worker)) b in
    if grace =? 0 then
      let '(ended, b) := terminate worker (disconnected_error worker) b in
      push (Deliver Disconnected worker NoMessage :: finish_termination worker ended None) b
    else
      let s := state b in
      let b := set_state (MkState (peers s) (identities s) (continuities s) (interruptions s) (<[worker := generation]> (timers s)) (pending s)) b in
      push [Deliver Disconnected worker NoMessage] b.

(** The timer of an interruption, at the end of the grace period; an aborted
    timer may already wait for the lock. *)
Definition grace_elapsed (worker : string) (generation : nat) (b : Bridge) : Bridge :=
  if bool_decide (peers (state b) !! worker = None) && bool_decide (interruptions (state b) !! worker = Some generation) then
    let '(ended, b) := terminate worker (disconnected_error worker) b in
    push (finish_termination worker ended None) b
  else b.

(** ** Answers and events *)

Abbreviation field := (CommandBus.field).
Definition get (v : Value) (key : string) : option Value := match v with Object o => IndexMap.get (lit key) o | _ => None end.
(** [as_str] is [None] for a string with an unpaired surrogate. *)
Definition as_str (v : Value) : option units := match v with String_ u => if CommandBus.paired u then Some u else None | _ => None end.
Definition as_js_string (v : Value) : option units := match v with String_ u => Some u | _ => None end.
Definition is_true (v : Value) : bool := match v with Bool b => b | _ => false end.

(** A command in the table that was sent to this worker. *)
Definition awaits (b : Bridge) (worker : string) (id : units) : bool :=
  bool_decide (id ∈ pending (state b)) && bool_decide (worker_of b id = Some worker).

Definition read_outcome (command : units) (id : units) (response : Value) : Outcome :=
  if is_true (field response "ok") then inr (get response "result")
  else
    let error := field response "error" in
    inl (MkError (default [] (as_js_string (field error "message"))) (get error "code" ≫= as_str) false (Some id) false
           (if bool_decide (command = lit "chat.turn") then get error "inference" else None)).

Definition complete_response (worker : string) (peer : nat) (response : Value) (b : Bridge) : Bridge :=
  match as_str (field response "requestId") with
  | None => b
  | Some id =>
      if negb (current b worker peer) || negb (awaits b worker id) then b
      else
        update_request id (fun q => push_delivery (Response (read_outcome (q_command q) id response)) (set_timer false q)) (remove_pending id b)
  end.

Definition response (worker : string) (peer : nat) (input : Value) (b : Bridge) : Bridge :=
  match parse_schema "workerResponseEnvelopeSchema" input with Some r => complete_response worker peer r b | None => b end.

(** The phase an event reports, if it reports one. *)
Definition command_state (event : Value) : option (Z * units) :=
  if CommandBus.is_str (field event "type") "inference.command-state" then
    match field event "sequence", as_str (field event "state") with
    | Number n, Some phase => (fun sequence => (sequence, phase)) <$> as_u64 n
    | _, _ => None
    end
  else None.

Definition event (worker : string) (peer : nat) (id : units) (v : Value) (now : Z) (b : Bridge) : Bridge :=
  if current b worker peer && awaits b worker id then
    update_request id
      (fun q =>
         let q := match command_state v with
                  | Some (sequence, phase) => set_deadline (CommandDeadline.observe now sequence phase (q_deadline q)).2 q
                  | None => q
                  end in
         push_delivery (Event v) (add_arrived v q)) b
  else b.

(** ** Listeners *)

Definition fallible (c : Channel) : bool := match c with LinkFrames | TunnelFrames | SurfaceFrames => true | _ => false end.

(** The body of a delivery loop: call the next listener, or stop. *)
Definition call_next (c : Channel) (worker : string) (g : nat) (visited : list nat) (m : Message) (b : Bridge) : Bridge :=
  match Listeners.next_listener g visited (registries b c) with
  | None => b
  | Some (id, handler) => push [Returned c worker g (id :: visited) m] (record (Called c worker id handler m) b)
  end.

Definition deliver (c : Channel) (worker : string) (m : Message) (b : Bridge) : Bridge :=
  match Listeners.groups (registries b c) !! worker with
  | None => b
  | Some g => call_next c worker g [] m b
  end.

Definition update_registry (c : Channel) (f : Registry -> Registry) (b : Bridge) : Bridge :=
  set_registries (fun c' => if decide (c' = c) then f (registries b c') else registries b c') b.
Definition subscribe (c : Channel) (worker : string) (handler : nat) (b : Bridge) : Bridge :=
  update_registry c (fun r => (Listeners.subscribe worker handler r).2) b.
Definition drop_subscription (c : Channel) (s : Listeners.Subscription) (b : Bridge) : Bridge := update_registry c (Listeners.drop s) b.

(** ** Messages from a worker *)

Definition receive (worker : string) (peer : nat) (t : text) (now : Z) (b : Bridge) : Bridge :=
  if negb (current b worker peer) then b
  else
    match from_str t ≫= parse_schema "workerServerEnvelopeSchema" with
    | None => b
    | Some envelope =>
        let kind := field envelope "kind" in
        if CommandBus.is_str kind "response" then complete_response worker peer envelope b
        else if CommandBus.is_str kind "event" then
          match as_str (field envelope "requestId") with Some id => event worker peer id (field envelope "event") now b | None => b end
        else if CommandBus.is_str kind "notification" then
          match peer_heap b !! peer with
          | Some p => deliver Notifications worker (Notification (owner (p_identity p)) (field envelope "notification")) b
          | None => b
          end
        else b
    end.

Definition receive_worker_link_frame (worker : string) (peer : nat) (bytes : list Byte.byte) (b : Bridge) : Bridge :=
  if negb (current b worker peer) then b
  else match WorkerLinkFrame.decode bytes with inr f => deliver LinkFrames worker (LinkFrame f) b | inl _ => record (Invalid worker) b end.
Definition receive_tunnel_frame (worker : string) (peer : nat) (bytes : list Byte.byte) (b : Bridge) : Bridge :=
  if negb (current b worker peer) then b
  else match TunnelFrame.decode bytes with inr f => deliver TunnelFrames worker (TunnelFrame_ f) b | inl _ => record (Invalid worker) b end.
Definition receive_surface_frame (worker : string) (peer : nat) (bytes : list Byte.byte) (b : Bridge) : Bridge :=
  if negb (current b worker peer) then b
  else match SurfaceFrame.decode bytes with inr f => deliver SurfaceFrames worker (SurfaceFrame_ f) b | inl _ => record (Invalid worker) b end.

(** ** Messages to a worker *)

Definition put_peer (r : nat) (x : bool * Peer) (b : Bridge) : bool * Bridge := (x.1, set_peer_heap (<[r := x.2]> (peer_heap b)) b).
Definition peer_of (b : Bridge) (worker : string) : option (nat * Peer) :=
  r ← peers (state b) !! worker; p ← peer_heap b !! r; Some (r, p).

Definition send_worker_link_frame (worker : string) (f : Frame HL) (b : Bridge) : bool * Bridge :=
  match peer_of b worker with Some (r, p) => put_peer r (send_frame (f_bytes f) p) b | None => (false, b) end.

Definition send_tunnel_frame (worker : string) (header : HT) (payload : list Byte.byte) (b : Bridge) : bool * Bridge :=
  match peer_of b worker with
  | None => (false, b)
  | Some (r, p) =>
      if negb (is_open p && (buffered_amount p <=? LIMIT)) then (false, b)
      else match TunnelFrame.create header payload with inr f => put_peer r (send_tunnel (f_bytes f) p) b | inl _ => (false, b) end
  end.

Definition send_surface_frame (worker : string) (header : HS) (payload : list Byte.byte) (b : Bridge) : bool * Bridge :=
  match peer_of b worker with
  | None => (false, b)
  | Some (r, p) =>
      if negb (is_open p) then (false, b)
      else if LIMIT <? buffered_amount p then
        if negb (bool_decide (channel header = "frame"%string)) && negb (bool_decide (channel header = "cursor"%string))
        then (false, update_peer r (close_peer 1013 "Remote Surface worker channel is congested") b)
        else (false, b)
      else match SurfaceFrame.create header payload with inr f => put_peer r (send_surface (f_bytes f) p) b | inl _ => (false, b) end
  end.

(** ** Requests *)

Definition envelope (id : units) (command : Value) (sequence : Z) : Value :=
  Object [(lit "kind", String_ (lit "request")); (lit "requestId", String_ id); (lit "command", command);
          (lit "inferenceAdmissionAck", Bool true); (lit "modelOperationUsage", Bool true);
          (lit "inferenceSequence", String_ (decimal sequence))].

Definition offline_error (worker : string) : CommandError := not_sent ("Worker " ++ worker ++ " is offline.").
Definition encoding_failed : CommandError := MkError (lit "Worker request encoding failed.") None false None true None.
Definition dispatch_failed (kind id : units) : CommandError :=
  command_error (lit "Worker command " ++ kind ++ lit " could not be dispatched.") "worker-command-dispatch-failed" id.
Definition timed_out (kind id : units) : CommandError :=
  command_error (lit "Worker command " ++ kind ++ lit " timed out.") "worker-command-timeout" id.

Definition set_sequence (n : Z) (c : Counters) : Counters := MkCounters (routed c) (succeeded c) (failed c) n.
Definition add_routed (c : Counters) : Counters := MkCounters (routed c + 1) (succeeded c) (failed c) (inference_sequence c).

(** Whether usage is recorded. *)
Context (records : bool).

(** The registration and the sending of an encoded request. *)
Definition dispatch (worker : string) (id kind : units) (encoded : text) (timeout : option Z) (handler : bool) (now : Z)
    (r : nat) (p : Peer) (b : Bridge) : Bridge :=
  let q := MkPending worker kind [] None (bool_decide (is_Some timeout)) (CommandDeadline.new now timeout) handler Listening [] [] in
  let b := set_counters (add_routed (counters b)) b in
  let b := set_state (set_pending (pending (state b) ++ [id]) (state b)) (set_requests (<[id := q]> (requests b)) b) in
  let '(ok, b) := put_peer r (send_text encoded p) b in
  if ok : bool then if records then record (Recorded (owner (p_identity p)) (byte_len encoded)) b else b
  else finish id (inl (dispatch_failed kind id)) (remove_pending id b).

(** The part of [request] before its first await: an error, or a command that
    waits for its answer. *)
Definition request (worker : string) (id : units) (command : Value) (timeout : option Z) (handler : bool) (now : Z) (b : Bridge) : option CommandError * Bridge :=
  if negb (is_connected b worker) then (Some (offline_error worker), b)
  else
    let kind := default [] (as_str (field command "type")) in
    match checked_add_u64 (inference_sequence (counters b)) 1 with
    | None => (Some (unavailable "Worker command sequence is exhausted."), b)
    | Some sequence =>
        let b := set_counters (set_sequence sequence (counters b)) b in
        match parse_schema "workerRequestEnvelopeSchema" (envelope id command sequence) with
        | None => (Some encoding_failed, b)
        | Some v =>
            match peer_of b worker with
            | Some (r, p) =>
                if is_open p then (None, dispatch worker id kind (Wire.stringify v) timeout handler now r p b)
                else (Some (offline_error worker), b)
            | None => (Some (offline_error worker), b)
            end
        end
    end.

(** The timer of a command: it looks at the clock again under the lock. *)
Definition deadline_fired (id : units) (now : Z) (b : Bridge) : Bridge :=
  match requests b !! id with
  | None => b
  | Some q =>
      if bool_decide (CommandDeadline.remaining now (q_deadline q) = Some 0) && bool_decide (id ∈ pending (state b))
      then finish id (inl (timed_out (q_command q) id)) (remove_pending id b)
      else b
  end.

(** The task of a command takes its next message ... *)
Definition take_delivery (id : units) (b : Bridge) : Bridge :=
  match requests b !! id with
  | None => b
  | Some q =>
      match q_task q, q_delivery q with
      | Listening, d :: rest =>
          let b := update_request id (set_delivery rest) b in
          match d with
          | Finished => update_request id (set_task Ended) b
          | Event v => if q_handler q then update_request id (set_task (Handling v)) b else update_request id (add_handled v) b
          | Response o => update_request id (set_task Ended) (finish id o b)
          end
      | _, _ => b
      end
  end.

(** ... and goes on when the handler of an event is done. *)
Definition handled (id : units) (result : option CommandError) (b : Bridge) : Bridge :=
  match requests b !! id with
  | None => b
  | Some q =>
      match q_task q with
      | Handling v =>
          match result with
          | None => update_request id (fun q => set_task Listening (add_handled v q)) b
          | Some error =>
              update_request id (set_task Ended) (finish id (inl error) (update_request id (set_timer false) (remove_pending id b)))
          end
      | _ => b
      end
  end.

(** ** Closing *)

Definition clear_listeners (b : Bridge) : Bridge := set_registries (fun c => Listeners.clear (registries b c)) b.

Definition close_rest (workers : list string) (b : Bridge) : Bridge :=
  match workers with
  | [] => clear_listeners b
  | worker :: workers =>
      let '(ended, b) := terminate worker (unavailable "Server is shutting down.") b in
      push (finish_termination worker ended (Some (1001, "Server shutting down"%string)) ++ [CloseRest workers]) b
  end.

Definition workers_of (s : State) : list string := elements (dom (peers s) ∪ dom (identities s) ∪ dom (interruptions s)).

Definition close (b : Bridge) : Bridge := close_rest (workers_of (state b)) (set_closed true b).

(** ** Running

    The rest of the operation that is under way; [ok] is what a listener that
    was called returned. *)
Definition resume (ok : bool) (b : Bridge) : Bridge :=
  match stack b with
  | [] => b
  | k :: rest =>
      let b := set_stack rest b in
      match k with
      | Deliver c worker m => deliver c worker m b
      | Returned c worker g visited m =>
          if ok || negb (fallible c) then call_next c worker g visited m b else record (Invalid worker) b
      | Notify n => record (Noticed n) b
      | CloseSocket r code reason => update_peer r (close_peer code reason) b
      | Attach worker peer ready => attach_rest worker peer ready b
      | CloseRest workers => close_rest workers b
      end
  end.

Inductive Op :=
| OConnect (identity : Continuity) (asserted : bool)
| OTransport (peer : nat) (f : Peer -> Peer)
| OAttach (worker : string) (peer : nat) (ready : option text)
| ODisconnect (worker reason : string) (code : Z)
| OInterrupted (worker : string) (peer : nat)
| OGrace (worker : string) (generation : nat)
| OReceive (worker : string) (peer : nat) (t : text) (now : Z)
| OResponse (worker : string) (peer : nat) (v : Value)
| OEvent (worker : string) (peer : nat) (id : units) (v : Value) (now : Z)
| OLinkFrame (worker : string) (peer : nat) (bytes : list Byte.byte)
| OTunnelFrame (worker : string) (peer : nat) (bytes : list Byte.byte)
| OSurfaceFrame (worker : string) (peer : nat) (bytes : list Byte.byte)
| OSendLink (worker : string) (f : Frame HL)
| OSendTunnel (worker : string) (header : HT) (payload : list Byte.byte)
| OSendSurface (worker : string) (header : HS) (payload : list Byte.byte)
| ORequest (worker : string) (id : units) (command : Value) (timeout : option Z) (handler : bool) (now : Z)
| ODeadline (id : units) (now : Z)
| OTake (id : units)
| OHandled (id : units) (result : option CommandError)
| OSubscribe (c : Channel) (worker : string) (handler : nat)
| OUnsubscribe (c : Channel) (s : Listeners.Subscription)
| OClose
| OResume (ok : bool).

Definition exec (o : Op) (b : Bridge) : Bridge :=
  match o with
  | OConnect identity asserted => set_fresh (S (fresh b)) (set_peer_heap (<[fresh b := with_continuity identity asserted]> (peer_heap b)) b)
  | OTransport r f => update_peer r f b
  | OAttach worker peer ready => attach worker peer ready b
  | ODisconnect worker reason code => disconnect worker reason code b
  | OInterrupted worker peer => interrupted worker peer b
  | OGrace worker generation => grace_elapsed worker generation b
  | OReceive worker peer t now => receive worker peer t now b
  | OResponse worker peer v => response worker peer v b
  | OEvent worker peer id v now => event worker peer id v now b
  | OLinkFrame worker peer bytes => receive_worker_link_frame worker peer bytes b
  | OTunnelFrame worker peer bytes => receive_tunnel_frame worker peer bytes b
  | OSurfaceFrame worker peer bytes => receive_surface_frame worker peer bytes b
  | OSendLink worker f => (send_worker_link_frame worker f b).2
  | OSendTunnel worker header payload => (send_tunnel_frame worker header payload b).2
  | OSendSurface worker header payload => (send_surface_frame worker header payload b).2
  | ORequest worker id command timeout handler now => (request worker id command timeout handler now b).2
  | ODeadline id now => deadline_fired id now b
  | OTake id => take_delivery id b
  | OHandled id result => handled id result b
  | OSubscribe c worker handler => subscribe c worker handler b
  | OUnsubscribe c s => drop_subscription c s b
  | OClose => close b
  | OResume ok => resume ok b
  end.

(** What may happen: the identifier of a request is new, and a transport
    takes messages, drops what it took, and goes away. *)
Definition allowed (o : Op) (b : Bridge) : Prop :=
  match o with
  | ORequest _ id _ _ _ _ => requests b !! id = None
  | OTransport _ f => f = take_message \/ f = drop_written \/ f = drop_receiver
  | _ => True
  end.

Inductive reach : Bridge -> Prop :=
| reach_new : reach new
| reach_step o b : reach b -> allowed o b -> reach (exec o b).
End bridge.
End Bridge.
