(* ===== verification/BridgeInv.v ===== *)
(** * What holds of the worker bridge at any time

    [BridgeInv] proves what [Bridge] keeps true through every operation, in any
    order and from inside any listener: which worker is in which table, what a
    command may be waiting for, the counters, and the bytes a socket has
    reserved. *)
From S2P Require Import Prelude JsString Wire Frames Deadline Listeners CommandBus Bridge.
From stdpp Require Import base numbers strings gmap option list fin_maps.
Open Scope Z_scope.

Module BridgeInv.
Import Text JsString Wire Bridge.

(** ** Sockets *)

(** The bytes a socket has reserved are those of the messages it holds. *)
Definition balanced (p : Peer) : Prop :=
  p_buffered p = sumZ (p_queue p).*2 + sumZ (p_writing p) /\
  (p_gone p = true -> p_queue p = []) /\ Forall (fun n => 0 <= n) (p_queue p).*2 /\ Forall (fun n => 0 <= n) (p_writing p).

(** What an operation on a socket may not change. *)
Definition same_peer (p p' : Peer) : Prop := p_identity p' = p_identity p /\ p_continuity p' = p_continuity p.
Definition tidy (f : Peer -> Peer) : Prop := forall p, same_peer p (f p) /\ (balanced p -> balanced (f p)).

Lemma framed_size_nonneg n : 0 <= n -> 0 <= framed_size n.
Proof. unfold framed_size. repeat case_match; lia. Qed.

Lemma byte_len_nonneg t : 0 <= byte_len t.
Proof. unfold byte_len. apply sumZ_nonneg, Forall_fmap, Forall_forall. intros c _. unfold len_utf8. simpl. repeat case_match; lia. Qed.

Lemma tidy_offer o n : 0 <= n -> tidy (fun p => (offer o n p).2).
Proof.
  intros Hn p. unfold offer. destruct (p_gone p) eqn:E; [done|]. split; [done|]. intros (B1 & B2 & B3 & B4). unfold enqueue. split_and!; simpl.
  - rewrite fmap_app, sumZ_app, B1. simpl. lia.
  - congruence.
  - rewrite fmap_app. apply Forall_app. split; [done|]. by repeat constructor.
  - done.
Qed.

Lemma tidy_send_text t : tidy (fun p => (send_text t p).2).
Proof. apply tidy_offer, framed_size_nonneg, byte_len_nonneg. Qed.
Lemma tidy_send_frame l : tidy (fun p => (send_frame l p).2).
Proof. intros p. unfold send_frame, offer_bounded. repeat case_match; try done. apply tidy_offer, framed_size_nonneg, len_nonneg. Qed.
Lemma tidy_send_tunnel l : tidy (fun p => (send_tunnel l p).2).
Proof. intros p. unfold send_tunnel, offer_bounded. repeat case_match; try done. apply tidy_offer, framed_size_nonneg, len_nonneg. Qed.
Lemma tidy_send_surface l : tidy (fun p => (send_surface l p).2).
Proof. intros p. unfold send_surface. case_match; [|done]. apply tidy_offer, framed_size_nonneg, len_nonneg. Qed.
Lemma tidy_close code reason : tidy (close_peer code reason).
Proof.
  intros p. unfold close_peer. case_match; [|done]. destruct (tidy_offer (Close code reason) 0 (Z.le_refl 0)
    (MkPeer (p_identity p) (p_continuity p) false (p_gone p) (p_queue p) (p_writing p) (Some (code, reason)) (p_buffered p))) as [A B]. split; [exact A|].
  intros Hb. by apply B.
Qed.

Lemma tidy_transport f : f = take_message \/ f = drop_written \/ f = drop_receiver -> tidy f.
Proof.
  intros [->|[->| ->]] p; (split; [by unfold take_message, drop_written, drop_receiver; repeat case_match|]); intros (B1 & B2 & B3 & B4).
  - unfold take_message. destruct (p_queue p) as [|[o n] rest] eqn:E; [unfold balanced; by rewrite E|]. csimpl in *. apply Forall_cons in B3 as [Hn B3]. split_and!; simpl.
    + rewrite sumZ_app. csimpl. lia.
    + intros Hg. by specialize (B2 Hg).
    + done.
    + apply Forall_app. by repeat constructor.
  - unfold drop_written. destruct (p_writing p) as [|n rest] eqn:E; [unfold balanced; by rewrite E|]. csimpl in *. apply Forall_cons in B4 as [Hn B4]. split_and!; simpl; try done. lia.
  - split_and!; simpl; try done. lia.
Qed.

(** ** Commands *)

Section inv.
Context {numbers : Numbers}.
Context {HL HT HS : Type} `{HeaderCodec HL} `{HeaderCodec HT} `{HeaderCodec HS}.
Context {contracts : Contracts (HS := HS)}.
Context (grace : Z) (records : bool).
Abbreviation Bridge := (Bridge (HL := HL) (HT := HT) (HS := HS)).
Implicit Types (b : Bridge) (q : Pending) (s : State).

Definition busy q : list Value := match q_task q with Handling v => [v] | _ => [] end.
Definition queued (vs : list Value) : list Delivery := Event <$> vs.

(** What a command is, in the table or not: its events are handled in the order
    they came, and its answer waits behind them. *)
Definition sound (waiting : bool) q : Prop :=
  (q_timer q = true -> waiting = true) /\
  match q_outcome q with
  | None => exists vs, q_arrived q = q_handled q ++ busy q ++ vs /\ q_task q <> Ended /\
      if waiting then q_delivery q = queued vs else exists o, q_delivery q = queued vs ++ [Response o]
  | Some o => waiting = false /\ (succeeds o = true -> q_handled q = q_arrived q) /\
      (q_task q = Ended /\ (exists vs, q_arrived q = q_handled q ++ vs) \/ exists vs, q_arrived q = q_handled q ++ busy q ++ vs /\ q_delivery q = queued vs ++ [Finished])
  end.

Definition wins q : Z := match q_outcome q with Some o => if succeeds o then 1 else 0 | None => 0 end.
Definition losses q : Z := match q_outcome q with Some o => if succeeds o then 0 else 1 | None => 0 end.

Definition waits b (id : units) : bool := bool_decide (id ∈ pending (state b)).
Definition reachable_worker s (w : string) : Prop := is_Some (peers s !! w) \/ is_Some (interruptions s !! w).

#[global] Instance reachable_worker_dec s w : Decision (reachable_worker s w).
Proof. unfold reachable_worker. apply _. Defined.

(** ** The invariant; [x] is a worker that is being taken out. *)
Record tables b : Prop := Tables {
  t_identities : forall w, is_Some (identities (state b) !! w) <-> reachable_worker (state b) w;
  t_continuities : forall w, is_Some (continuities (state b) !! w) <-> reachable_worker (state b) w;
  t_apart : forall w r, peers (state b) !! w = Some r -> interruptions (state b) !! w = None;
  t_timers : timers (state b) = interruptions (state b);
  t_sockets : forall w r, peers (state b) !! w = Some r -> exists p, peer_heap b !! r = Some p /\
    identities (state b) !! w = Some (p_identity p) /\ continuities (state b) !! w = Some (p_continuity p);
  t_generations : forall w g, interruptions (state b) !! w = Some g -> (g < fresh b)%nat;
  t_heap : forall r, (fresh b <= r)%nat -> peer_heap b !! r = None;
  t_balanced : forall r p, peer_heap b !! r = Some p -> balanced p
}.

Record commands (x : option string) b : Prop := Commands {
  m_nodup : NoDup (pending (state b));
  m_waiting : forall id, id ∈ pending (state b) -> exists q, requests b !! id = Some q /\ q_outcome q = None /\
    (x = Some (q_worker q) \/ reachable_worker (state b) (q_worker q));
  m_sound : forall id q, requests b !! id = Some q -> sound (waits b id) q;
  m_routed : routed (counters b) = map_total (fun _ => 1) (requests b);
  m_won : succeeded (counters b) = map_total wins (requests b);
  m_lost : failed (counters b) = map_total losses (requests b)
}.

Definition wf b : Prop := tables b /\ commands None b.

(** Fields the invariant does not read. *)
Lemma tables_same b b' : state b' = state b -> peer_heap b' = peer_heap b -> fresh b' = fresh b -> tables b -> tables b'.
Proof. intros E1 E2 E3 [T1 T2 T3 T4 T5 T6 T7 T8]. constructor; rewrite ?E1, ?E2, ?E3; done. Qed.
Lemma commands_same x b b' : state b' = state b -> requests b' = requests b -> routed (counters b') = routed (counters b) ->
  succeeded (counters b') = succeeded (counters b) -> failed (counters b') = failed (counters b) -> commands x b -> commands x b'.
Proof. intros E1 E2 E3 E4 E5 [M1 M2 M3 M4 M5 M6]. constructor; unfold waits; rewrite ?E1, ?E2, ?E3, ?E4, ?E5; done. Qed.
Lemma wf_fields b b' : state b' = state b -> requests b' = requests b -> counters b' = counters b -> peer_heap b' = peer_heap b -> fresh b' = fresh b -> wf b -> wf b'.
Proof. intros E1 E2 E3 E4 E5 [T M]. split; [by eapply tables_same|]. eapply commands_same; [..|exact M]; congruence. Qed.

Lemma wf_logged e b : wf b -> wf (record e b).
Proof. by apply wf_fields. Qed.
Lemma wf_push ks b : wf b -> wf (push ks b).
Proof. by apply wf_fields. Qed.

(** ** One command at a time *)

(** The command [id] went from [q] to [q'] and left the table unless [keep]. *)
Record moved (id : units) q q' (keep : bool) b b' : Prop := Moved {
  mv_at : requests b !! id = Some q;
  mv_requests : requests b' = <[id := q']> (requests b);
  mv_pending : pending (state b') = if keep then pending (state b) else filter (fun i => i <> id) (pending (state b));
  mv_tables : peers (state b') = peers (state b) /\ identities (state b') = identities (state b) /\ continuities (state b') = continuities (state b) /\
    interruptions (state b') = interruptions (state b) /\ timers (state b') = timers (state b);
  mv_rest : peer_heap b' = peer_heap b /\ fresh b' = fresh b;
  mv_routed : routed (counters b') = routed (counters b);
  mv_won : succeeded (counters b') = succeeded (counters b) - wins q + wins q';
  mv_lost : failed (counters b') = failed (counters b) - losses q + losses q'
}.

Lemma tables_moved id q q' keep b b' : moved id q q' keep b b' -> tables b -> tables b'.
Proof.
  intros [_ _ _ (E1 & E2 & E3 & E4 & E5) [E6 E7] _ _ _] [T1 T2 T3 T4 T5 T6 T7 T8].
  constructor; unfold reachable_worker in *; rewrite ?E1, ?E2, ?E3, ?E4, ?E5, ?E6, ?E7; done.
Qed.

Lemma commands_moved x id q q' keep b b' : moved id q q' keep b b' -> q_worker q' = q_worker q ->
  sound (keep && waits b id) q' -> (q_outcome q' = None \/ keep && waits b id = false) -> commands x b -> commands x b'.
Proof.
  intros [E0 E1 E2 (P1 & _ & _ & P4 & _) _ E3 E4 E5] Ew Hs Ho [M1 M2 M3 M4 M5 M6].
  assert (Hsub : forall i, i ∈ pending (state b') <-> i ∈ pending (state b) /\ (keep = true \/ i <> id)).
  { intros i. rewrite E2. destruct keep; [naive_solver|]. rewrite list_elem_of_filter. naive_solver. }
  assert (Hw : waits b' id = keep && waits b id).
  { unfold waits. destruct keep; simpl; [by rewrite E2|]. apply bool_decide_eq_false. rewrite Hsub. naive_solver. }
  constructor.
  - rewrite E2. destruct keep; [done|]. by apply NoDup_filter.
  - intros i [Hi Hk]%Hsub. destruct (M2 i Hi) as (q0 & Q1 & Q2 & Q3). unfold reachable_worker. rewrite E1, P1, P4. destruct (decide (i = id)) as [->|Hne].
    + rewrite lookup_insert_eq. exists q'. rewrite E0 in Q1. injection Q1 as <-. rewrite Ew. split_and!; try done. destruct Ho as [|Ho]; [done|].
      rewrite <- Hw in Ho. unfold waits in Ho. apply bool_decide_eq_false in Ho. destruct Ho. by apply Hsub.
    + rewrite lookup_insert_ne by done. eauto.
  - intros i q0. rewrite E1. destruct (decide (i = id)) as [->|Hne]; [rewrite lookup_insert_eq; intros [= <-]; by rewrite Hw|].
    rewrite lookup_insert_ne by done. intros E%M3. replace (waits b' i) with (waits b i); [done|]. unfold waits. apply bool_decide_ext. rewrite Hsub. naive_solver.
  - rewrite E3, E1, (map_total_replace _ _ _ q) by done. lia.
  - rewrite E4, E1, (map_total_replace _ _ _ q) by done. lia.
  - rewrite E5, E1, (map_total_replace _ _ _ q) by done. lia.
Qed.

Lemma wf_moved id q q' keep b b' : moved id q q' keep b b' -> q_worker q' = q_worker q ->
  sound (keep && waits b id) q' -> (q_outcome q' = None \/ keep && waits b id = false) -> wf b -> wf b'.
Proof. intros Hm Hw Hs Ho [T M]. split; [by eapply tables_moved|by eapply commands_moved]. Qed.

Lemma alter_at {K A} `{Countable K} (f : A -> A) (m : gmap K A) k x : m !! k = Some x -> alter f k m = <[k := f x]> m.
Proof. intros E. apply map_eq. intros i. destruct (decide (k = i)) as [<-|]; [by rewrite lookup_alter_eq, E, lookup_insert_eq|by rewrite lookup_alter_ne, lookup_insert_ne]. Qed.

(** The command as [finish] leaves it. *)
Definition answered (o : Outcome) q : Pending := push_delivery Finished (set_outcome (Some o) (set_timer false q)).

Lemma answered_fields o q : q_worker (answered o q) = q_worker q /\ q_outcome (answered o q) = Some o /\ q_timer (answered o q) = false /\
  q_arrived (answered o q) = q_arrived q /\ q_handled (answered o q) = q_handled q /\ q_task (answered o q) = q_task q /\
  q_delivery (answered o q) = q_delivery q ++ (if ended q then [] else [Finished]).
Proof. unfold answered, push_delivery, ended. simpl. destruct (q_task q) eqn:E; simpl; rewrite ?app_nil_r, ?E; by split_and!. Qed.

Lemma wins_answered o q : wins (answered o q) = (if succeeds o then 1 else 0) /\ losses (answered o q) = (if succeeds o then 0 else 1).
Proof. unfold wins, losses. by rewrite (proj1 (proj2 (answered_fields o q))). Qed.

(** [finish] on a command that waits, after it left the table. *)
Lemma finish_moved id (o : Outcome) q b b0 (keep : bool) : requests b !! id = Some q -> q_outcome q = None ->
  (exists q0, requests b0 = <[id := q0]> (requests b) /\ (q0 = q \/ q0 = set_timer false q)) ->
  pending (state b0) = (if keep then pending (state b) else filter (fun i => i <> id) (pending (state b))) ->
  peers (state b0) = peers (state b) -> identities (state b0) = identities (state b) -> continuities (state b0) = continuities (state b) ->
  interruptions (state b0) = interruptions (state b) -> timers (state b0) = timers (state b) ->
  peer_heap b0 = peer_heap b -> fresh b0 = fresh b -> counters b0 = counters b ->
  moved id q (answered o q) keep b (finish id o b0).
Proof.
  intros E1 E2 (q0 & E3 & Hq0) E4 E5 E6 E7 E8 E9 E10 E11 E12. destruct (wins_answered o q) as [W L].
  assert (E0 : requests b0 !! id = Some q0) by (by rewrite E3, lookup_insert_eq).
  unfold finish. rewrite E0. replace (q_outcome q0) with (@None Outcome) by (by destruct Hq0 as [->| ->]). unfold update_request. rewrite (alter_at _ _ _ q0) by done.
  constructor; simpl; try done.
  - rewrite E3, insert_insert_eq. f_equal. by destruct Hq0 as [->| ->].
  - rewrite E12. unfold count. by case_match.
  - rewrite E12, W. unfold wins. rewrite E2. unfold count. case_match; simpl; lia.
  - rewrite E12, L. unfold losses. rewrite E2. unfold count. case_match; simpl; lia.
Qed.

Definition dismiss (id : units) (e : CommandError) b : Bridge := finish id (inl e) (update_request id (set_timer false) (remove_pending id b)).

Lemma dismiss_moved id e q b : requests b !! id = Some q -> q_outcome q = None -> moved id q (answered (inl e) q) false b (dismiss id e b).
Proof.
  intros E1 E2. apply (finish_moved id (inl e) q b _ false); try done. exists (set_timer false q). split; [|by right].
  unfold update_request. simpl. by apply alter_at.
Qed.
Lemma drop_moved id e q b : requests b !! id = Some q -> q_outcome q = None -> moved id q (answered (inl e) q) false b (finish id (inl e) (remove_pending id b)).
Proof. intros E1 E2. apply (finish_moved id (inl e) q b _ false); try done. exists q. split; [by rewrite insert_id|by left]. Qed.

Lemma sound_answered e q waiting : q_outcome q = None -> sound waiting q -> waiting = true -> sound false (answered (inl e) q).
Proof.
  intros E [_ Hs] ->. rewrite E in Hs. destruct Hs as (vs & A & B & D). destruct (answered_fields (inl e) q) as (_ & F2 & F3 & F4 & F5 & F6 & F7).
  unfold sound. rewrite F2, F3, F4, F5, F7. split_and!; try done. right. exists vs. unfold busy. rewrite F6. split; [done|]. rewrite D. by unfold ended; destruct (q_task q).
Qed.

Lemma waits_outcome x b id q : commands x b -> waits b id = true -> requests b !! id = Some q -> q_outcome q = None.
Proof.
  intros M Hw E. unfold waits in Hw. apply bool_decide_eq_true in Hw. destruct (m_waiting _ _ M id Hw) as (q' & E' & Ho & _). congruence.
Qed.

Lemma commands_dismiss x id e q b : requests b !! id = Some q -> waits b id = true -> commands x b ->
  commands x (dismiss id e b) /\ commands x (finish id (inl e) (remove_pending id b)).
Proof.
  intros E Hw M. pose proof (waits_outcome _ _ _ _ M Hw E) as Ho. pose proof (m_sound _ _ M id q E) as Hs. rewrite Hw in Hs.
  destruct (answered_fields (inl e) q) as (F1 & _).
  assert (Hs' : sound (false && waits b id) (answered (inl e) q)) by (by eapply sound_answered).
  split; (eapply commands_moved; [| |exact Hs'|by right|done]); try done; [by apply dismiss_moved|by apply drop_moved].
Qed.

Lemma wf_dismiss id e q b : requests b !! id = Some q -> waits b id = true -> wf b -> wf (finish id (inl e) (remove_pending id b)).
Proof.
  intros E Hw [T M]. split; [|by eapply commands_dismiss].
  eapply tables_moved; [by eapply drop_moved, waits_outcome|done].
Qed.

Lemma wf_deadline_fired id now b : wf b -> wf (deadline_fired id now b).
Proof.
  intros W. unfold deadline_fired. destruct (requests b !! id) as [q|] eqn:E; [|done]. case_match eqn:Hc; [|done]. apply andb_true_iff in Hc as [_ Hc]. by eapply wf_dismiss.
Qed.

(** ** Answers and events *)

Lemma update_moved id f q b (keep : bool) : requests b !! id = Some q -> q_outcome (f q) = q_outcome q ->
  moved id q (f q) keep b (update_request id f (if keep then b else remove_pending id b)).
Proof.
  intros E Ho. assert (Hw : wins (f q) = wins q /\ losses (f q) = losses q) by (unfold wins, losses; by rewrite Ho).
  constructor; destruct keep; simpl; try done; unfold update_request; simpl; try (by apply alter_at); lia.
Qed.

Lemma awaits_request b worker id : awaits b worker id = true -> waits b id = true /\ exists q, requests b !! id = Some q /\ q_worker q = worker.
Proof.
  unfold awaits, waits, worker_of. rewrite andb_true_iff, !bool_decide_eq_true. intros [Hi Hw]. split; [done|].
  destruct (requests b !! id) as [q|]; [|done]. simpl in Hw. injection Hw as <-. eauto.
Qed.

Lemma wf_complete_response worker peer v b : wf b -> wf (complete_response worker peer v b).
Proof.
  intros W. unfold complete_response. destruct (as_str _) as [id|]; [|done]. case_match eqn:Hc; [done|]. apply orb_false_iff in Hc as [_ Hc%negb_false_iff].
  apply awaits_request in Hc as (Hw & q & E & _). destruct W as [T M]. pose proof (waits_outcome _ _ _ _ M Hw E) as Ho. pose proof (m_sound _ _ M id q E) as Hs. rewrite Hw in Hs.
  set (f := fun q => _). assert (Hf : q_outcome (f q) = q_outcome q /\ q_worker (f q) = q_worker q) by (unfold f, push_delivery; by case_match).
  eapply (wf_moved id q (f q) false); [apply (update_moved id f q b false E), Hf|apply Hf| |by right|done]. simpl.
  destruct Hs as [_ Hs]. rewrite Ho in Hs. destruct Hs as (vs & A & B & D). unfold f, push_delivery, ended. simpl. unfold sound, busy in *.
  destruct (q_task q) eqn:Et; [..|done]; simpl; rewrite Ho, Et; (split; [done|]); exists vs; (split; [exact A|]); (split; [done|]); rewrite D; eauto.
Qed.

Lemma wf_event worker peer id v now b : wf b -> wf (event worker peer id v now b).
Proof.
  intros W. unfold event. case_match eqn:Hc; [|done]. apply andb_true_iff in Hc as [_ Hc]. apply awaits_request in Hc as (Hw & q & E & _). destruct W as [T M].
  pose proof (waits_outcome _ _ _ _ M Hw E) as Ho. pose proof (m_sound _ _ M id q E) as Hs. rewrite Hw in Hs. set (f := fun q => _).
  set (q1 := match command_state v with Some (n, p) => set_deadline (CommandDeadline.observe now n p (q_deadline q)).2 q | None => q end).
  assert (Ef : f q = push_delivery (Event v) (add_arrived v q1)) by done.
  assert (Hq1 : q_outcome q1 = q_outcome q /\ q_worker q1 = q_worker q /\ q_task q1 = q_task q /\ q_delivery q1 = q_delivery q /\ q_arrived q1 = q_arrived q /\ q_handled q1 = q_handled q /\ q_timer q1 = q_timer q).
  { unfold q1. destruct (command_state v) as [[n p]|]; done. }
  clearbody q1. destruct Hq1 as (Q1 & Q2 & Q3 & Q4 & Q5 & Q6 & Q7).
  assert (Hf : q_outcome (f q) = q_outcome q /\ q_worker (f q) = q_worker q) by (rewrite Ef; unfold push_delivery; case_match; done).
  eapply (wf_moved id q (f q) true); [apply (update_moved id f q b true E), Hf|apply Hf| |left; by rewrite (proj1 Hf)|done]. rewrite Ef, Hw. simpl.
  destruct Hs as [_ Hs]. rewrite Ho in Hs. destruct Hs as (vs & A & B & D). unfold push_delivery, ended. simpl. rewrite Q3. unfold sound, busy in *.
  destruct (q_task q) eqn:Et; [..|done]; simpl; rewrite Q1, Ho, Q3; simpl; (split; [done|]); exists (vs ++ [v]); rewrite Q4, Q5, Q6, A, D; unfold queued;
    rewrite fmap_app, <- !app_assoc; by split_and!.
Qed.

(** ** The task of a command *)

Lemma moved_trans id q q1 q2 keep b b1 b2 : moved id q q1 keep b b1 -> moved id q1 q2 true b1 b2 -> moved id q q2 keep b b2.
Proof.
  intros [A1 A2 A3 (A41 & A42 & A43 & A44 & A45) [A51 A52] A6 A7 A8] [B1 B2 B3 (B41 & B42 & B43 & B44 & B45) [B51 B52] B6 B7 B8]. constructor; try congruence; try lia.
  - by rewrite B2, A2, insert_insert_eq.
  - split_and!; congruence.
  - split; congruence.
Qed.

Lemma updated_moved id f q q1 keep b b1 : moved id q q1 keep b b1 -> q_outcome (f q1) = q_outcome q1 -> moved id q (f q1) keep b (update_request id f b1).
Proof. intros Hm Ho. eapply moved_trans; [exact Hm|]. apply (update_moved id f q1 b1 true); [|done]. by rewrite (mv_requests _ _ _ _ _ _ Hm), lookup_insert_eq. Qed.

Lemma queued_head d rest vs l : d :: rest = queued vs ++ l -> (exists v vs', vs = v :: vs' /\ d = Event v /\ rest = queued vs' ++ l) \/ vs = [] /\ l = d :: rest.
Proof. destruct vs as [|v vs]; simpl; [by right|]. intros [= -> ->]. left. eauto. Qed.

Lemma sound_delivery w q d rest : sound w q -> q_task q = Listening -> q_delivery q = d :: rest ->
  match d with
  | Event v => sound w (set_delivery rest (set_task (Handling v) q)) /\ sound w (set_delivery rest (add_handled v q))
  | Response o => q_outcome q = None /\ q_handled q = q_arrived q /\ rest = [] /\ w = false
  | Finished => is_Some (q_outcome q) /\ w = false /\ exists vs, q_arrived q = q_handled q ++ vs
  end.
Proof.
  intros [St Hs] Et Ed. unfold sound, busy in *. rewrite Et in Hs. destruct (q_outcome q) as [o|] eqn:Eo.
  - destruct Hs as (-> & Hs & [[He _]|(vs & A & D)]); [done|]. rewrite Ed in D. apply queued_head in D as [(v & vs' & -> & -> & ->)|[-> [= <- <-]]]; [|split_and!; eauto].
    simpl in *. rewrite Eo, Et. split.
    + split; [done|]. split_and!; [done|done|]. right. exists vs'. by rewrite A.
    + split; [done|]. split_and!; [done| |right; exists vs'; by rewrite A, <- app_assoc]. intros Hw. specialize (Hs Hw). rewrite Hs in A. 
      apply (f_equal length) in A. rewrite length_app in A. simpl in A. lia.
  - destruct Hs as (vs & A & _ & D). destruct w.
    + rewrite Ed, <- (app_nil_r (queued vs)) in D. apply queued_head in D as [(v & vs' & -> & -> & ->)|[_ D]]; [|done]. rewrite app_nil_r. simpl in *. rewrite Eo, Et.
      split; (split; [done|]); exists vs'; split_and!; try done. by rewrite A, <- app_assoc.
    + destruct D as (o & D). rewrite Ed in D. apply queued_head in D as [(v & vs' & -> & -> & ->)|[-> [= <- <-]]].
      * simpl in *. rewrite Eo, Et. split; (split; [done|]); exists vs'; split_and!; try done; eauto. by rewrite A, <- app_assoc.
      * by rewrite A, app_nil_r.
Qed.

Lemma take_response_moved id q o b : requests b !! id = Some q -> q_outcome q = None -> q_task q = Listening -> q_delivery q = [Response o] ->
  moved id q (set_task Ended (answered o (set_delivery [] q))) true b (take_delivery id b).
Proof.
  intros E Ho Et Ed. unfold take_delivery. rewrite E, Et, Ed. eapply updated_moved; [|done].
  eapply moved_trans; [exact (update_moved id (set_delivery []) q b true E eq_refl)|].
  assert (E1 : requests (update_request id (set_delivery []) b) !! id = Some (set_delivery [] q)) by (unfold update_request; simpl; by rewrite lookup_alter_eq, E).
  apply finish_moved; try done. exists (set_delivery [] q). split; [by rewrite insert_id|by left].
Qed.

Lemma wf_take_delivery id b : wf b -> wf (take_delivery id b).
Proof.
  intros W. unfold take_delivery. destruct (requests b !! id) as [q|] eqn:E; [|done]. destruct (q_task q) eqn:Et; [|done..]. destruct (q_delivery q) as [|d rest] eqn:Ed; [done|].
  pose proof W as [T M]. pose proof (sound_delivery _ q d rest (m_sound _ _ M id q E) Et Ed) as Hs. pose proof (m_sound _ _ M id q E) as Hq.
  pose proof (update_moved id (set_delivery rest) q b true E eq_refl) as Hm. cbn [negb] in Hm. set (b1 := update_request id (set_delivery rest) b) in *.
  assert (E1 : requests b1 !! id = Some (set_delivery rest q)) by (by rewrite (mv_requests _ _ _ _ _ _ Hm), lookup_insert_eq). destruct d as [v|o|].
  - case_match; (eapply wf_moved; [eapply updated_moved; [exact Hm|done]|done| | |done]); simpl; [apply Hs| |apply Hs|];
      (destruct (q_outcome q) eqn:Eo; [right|by left]); destruct Hq as [_ Hq]; rewrite Eo in Hq; apply Hq.
  - destruct Hs as (Ho & Hh & -> & Hw). pose proof (take_response_moved id q o b E Ho Et Ed) as Hm'. unfold take_delivery in Hm'. rewrite E, Et, Ed in Hm'.
    eapply (wf_moved id q (set_task Ended (answered o (set_delivery [] q))) true); [exact Hm'| | | |done].
    + simpl. apply (answered_fields o (set_delivery [] q)).
    + destruct (answered_fields o (set_delivery [] q)) as (_ & F2 & F3 & F4 & F5 & _). simpl. rewrite Hw. split; simpl; [by rewrite F3|]. rewrite F2, F4, F5. split_and!; try done. left. split; [done|]. exists []. simpl. by rewrite Hh, app_nil_r.
    + right. by rewrite Hw.
  - destruct Hs as ([o Ho] & Hw & Hv). eapply wf_moved; [eapply updated_moved; [exact Hm|done]|done| | |done]; simpl; rewrite Hw; [|by right].
    rewrite Hw in Hq. destruct Hq as [Hq1 Hq2]. split; [done|]. simpl. rewrite Ho in *. destruct Hq2 as (_ & Hq2 & _). split_and!; auto.
Qed.

Lemma wf_handled id result b : wf b -> wf (handled id result b).
Proof.
  intros W. unfold handled. destruct (requests b !! id) as [q|] eqn:E; [|done]. destruct (q_task q) as [|v|] eqn:Et; [done| |done]. pose proof W as [T M].
  pose proof (m_sound _ _ M id q E) as Hq. destruct result as [e|].
  - fold (dismiss id e b). destruct (q_outcome q) as [o|] eqn:Eo.
    + set (b1 := update_request id (set_timer false) (remove_pending id b)).
      assert (E1 : requests b1 !! id = Some (set_timer false q)) by (unfold b1, update_request; simpl; by rewrite lookup_alter_eq, E).
      assert (Ed : dismiss id e b = b1) by (unfold dismiss, finish; fold b1; rewrite E1; simpl; by rewrite Eo). rewrite Ed. unfold sound in Hq. rewrite Eo in Hq. destruct Hq as (_ & Hw & Hq & Hv).
      assert (Hv' : exists vs, q_arrived q = q_handled q ++ vs) by (destruct Hv as [[_ Hv]|(vs & Hv & _)]; eauto).
      eapply (wf_moved id q (set_task Ended (set_timer false q)) false); [eapply updated_moved; [by apply (update_moved id (set_timer false) q b false)|done]|done| |by right|done].
      split; [done|]. simpl. rewrite Eo. split_and!; auto.
    + destruct (answered_fields (inl e) q) as (F1 & F2 & F3 & F4 & F5 & _).
      eapply (wf_moved id q (set_task Ended (answered (inl e) q)) false); [eapply updated_moved; [by apply dismiss_moved|done]|done| |by right|done].
      unfold sound in Hq. rewrite Eo in Hq. destruct Hq as (_ & vs & Hv & _). split; simpl; [by rewrite F3|]. rewrite F2, F4, F5. split_and!; [done|done|]. left. eauto.
  - eapply (wf_moved id q (set_task Listening (add_handled v q)) true); [by apply (update_moved id (fun q => set_task Listening (add_handled v q)) q b true)|done| | |done].
    + destruct Hq as [Hq1 Hq]. unfold sound, busy in *. simpl in *. rewrite Et in Hq. split; [done|]. destruct (q_outcome q) as [o|].
      * destruct Hq as (Hw & Hq & [[? _]|(vs & A & D)]); [done|]. split_and!; [done| |right; exists vs; by rewrite <- app_assoc].
        intros Hk. specialize (Hq Hk). rewrite Hq in A. apply (f_equal length) in A. rewrite !length_app in A. simpl in A. lia.
      * destruct Hq as (vs & A & _ & D). exists vs. split_and!; try done. by rewrite <- app_assoc.
    + simpl. unfold sound in Hq. destruct (q_outcome q); [right|by left]. apply Hq.
Qed.

(** ** Workers that leave *)

(** A worker out of the tables; its commands are still to be answered. *)
Definition without (w : string) b : Bridge :=
  let s := state b in
  set_state (MkState (delete w (peers s)) (delete w (identities s)) (delete w (continuities s)) (delete w (interruptions s)) (delete w (timers s)) (pending s)) b.

Lemma tables_without w b : tables b -> tables (without w b).
Proof.
  intros [T1 T2 T3 T4 T5 T6 T7 T8].
  assert (Hr : forall v, reachable_worker (state (without w b)) v <-> v <> w /\ reachable_worker (state b) v).
  { intros v. unfold reachable_worker. simpl. destruct (decide (v = w)) as [->|]; [rewrite !lookup_delete_eq|rewrite !lookup_delete_ne by done; naive_solver].
    split; [intros [[? ?]|[? ?]]; done|by intros []]. }
  constructor; try done.
  - intros v. rewrite Hr. simpl. destruct (decide (v = w)) as [->|]; [rewrite lookup_delete_eq|rewrite lookup_delete_ne by done; rewrite T1]; [|naive_solver].
    split; [intros [? ?]; done|naive_solver].
  - intros v. rewrite Hr. simpl. destruct (decide (v = w)) as [->|]; [rewrite lookup_delete_eq|rewrite lookup_delete_ne by done; rewrite T2]; [|naive_solver].
    split; [intros [? ?]; done|naive_solver].
  - intros v r. simpl. rewrite !lookup_delete_Some. intros [Hne E]. rewrite lookup_delete_ne by done. by eapply T3.
  - simpl. by rewrite T4.
  - intros v r. simpl. rewrite lookup_delete_Some. intros [Hne E]. rewrite !lookup_delete_ne by done. by apply T5.
  - intros v g. simpl. rewrite lookup_delete_Some. intros [_ E]. by eapply T6.
Qed.

Lemma commands_without w b : commands None b -> commands (Some w) (without w b).
Proof.
  intros [M1 M2 M3 M4 M5 M6]. constructor; try done. intros id Hid. destruct (M2 id Hid) as (q & E & Ho & [|Hr]); [done|]. exists q. split_and!; try done.
  unfold reachable_worker in *. simpl. destruct (decide (q_worker q = w)) as [->|]; [by left|right]. by rewrite !lookup_delete_ne.
Qed.

(** The state after some commands of the worker were answered. *)
Lemma dismiss_all w e ids : forall b, commands (Some w) b -> tables b -> NoDup ids ->
  (forall id, id ∈ ids -> waits b id = true) ->
  let b' := fold_left (fun b id => dismiss id e b) ids b in
  commands (Some w) b' /\ tables b' /\ pending (state b') = filter (fun i => i ∉ ids) (pending (state b)) /\
  (forall id, requests b' !! id = if decide (id ∈ ids) then answered (inl e) <$> requests b !! id else requests b !! id) /\
  peers (state b') = peers (state b) /\ interruptions (state b') = interruptions (state b) /\ stack b' = stack b /\ peer_heap b' = peer_heap b /\
  registries b' = registries b /\ closed b' = closed b /\ log b' = log b.
Proof.
  induction ids as [|id ids IH]; intros b M T Hn Hi; cbn zeta; simpl.
  { split_and!; try done. rewrite filter_id; [done|]. intros x _. apply not_elem_of_nil. }
  apply NoDup_cons in Hn as [Hid Hn]. assert (Hw : waits b id = true) by (apply Hi; left).
  assert (Hq : exists q, requests b !! id = Some q). { apply bool_decide_eq_true in Hw. destruct (m_waiting _ _ M id Hw) as (q & E & _). eauto. } destruct Hq as [q E].
  pose proof (waits_outcome _ _ _ _ M Hw E) as Ho. pose proof (dismiss_moved id e q b E Ho) as Hm.
  assert (M1 : commands (Some w) (dismiss id e b)) by (by eapply commands_dismiss). pose proof (tables_moved _ _ _ _ _ _ Hm T) as T1.
  assert (Hf : stack (dismiss id e b) = stack b /\ registries (dismiss id e b) = registries b /\ closed (dismiss id e b) = closed b /\ log (dismiss id e b) = log b).
  { unfold dismiss, finish. case_match; [|done]. by case_match. }
  destruct Hm as [_ R P (P1 & _ & _ & P4 & _) [P5 _] _ _ _]. set (b1 := dismiss id e b) in *. destruct (IH b1 M1 T1 Hn) as (A1 & A2 & A3 & A4 & A5 & A6 & A7 & A8 & A9 & A10 & A11).
  { intros j Hj. unfold waits. rewrite P. apply bool_decide_eq_true, list_elem_of_filter. split; [by intros ->|]. specialize (Hi j). unfold waits in Hi. rewrite bool_decide_eq_true in Hi.
    apply Hi. by right. }
  destruct Hf as (F1 & F2 & F3 & F4). split_and!; try congruence; try done.
  - rewrite A3, P, list_filter_filter. apply filter_iff_in. intros x _. rewrite not_elem_of_cons. naive_solver.
  - intros j. rewrite A4, R. destruct (decide (j = id)) as [->|Hne].
    + rewrite lookup_insert_eq, decide_False by done. rewrite decide_True by left. by rewrite E.
    + rewrite lookup_insert_ne by done. repeat case_decide; try done; [destruct H3; by right|]. exfalso. apply elem_of_cons in H3 as [|]; done.
Qed.

(** [terminate] answers every command of the worker and touches nothing else. *)
Lemma terminate_spec w e b : wf b ->
  let '(socket_had, b') := terminate w e b in
  wf b' /\ socket_had = (peers (state b) !! w, bool_decide (reachable_worker (state b) w)) /\
  pending (state b') = filter (fun id => worker_of b id <> Some w) (pending (state b)) /\
  (forall id, requests b' !! id = if decide (id ∈ pending (state b) /\ worker_of b id = Some w) then answered (inl e) <$> requests b !! id else requests b !! id) /\
  peers (state b') = delete w (peers (state b)) /\ interruptions (state b') = delete w (interruptions (state b)) /\ stack b' = stack b /\
  peer_heap b' = peer_heap b /\ registries b' = registries b /\ closed b' = closed b /\ log b' = log b.
Proof.
  intros [T M]. unfold terminate. fold (without w b).
  change (worker_of (without w b)) with (worker_of b). set (ids := filter _ (pending (state b))).
  assert (Hids : forall id, id ∈ ids <-> id ∈ pending (state b) /\ worker_of b id = Some w) by (intros; unfold ids; rewrite list_elem_of_filter; tauto).
  destruct (dismiss_all w e ids (without w b)) as (A1 & A2 & A3 & A4 & A5 & A6 & A7 & A8 & A9 & A10 & A11).
  - by apply commands_without.
  - by apply tables_without.
  - by apply NoDup_filter, M.
  - intros id [Hid _]%Hids. by apply bool_decide_eq_true.
  - change (fold_left (fun b id => finish id (inl e) (update_request id (set_timer false) (remove_pending id b))) ids (without w b))
      with (fold_left (fun b id => dismiss id e b) ids (without w b)). set (b' := fold_left _ ids _) in *.
    assert (Hp : pending (state b') = filter (fun id => worker_of b id <> Some w) (pending (state b))).
    { rewrite A3. apply filter_iff_in. intros x Hx. rewrite Hids. simpl. tauto. }
    split_and!; try done.
    + split; [done|]. destruct A1 as [N1 N2 N3 N4 N5 N6]. constructor; try done. intros id Hid. destruct (N2 id Hid) as (q & E & Ho & [[= Hw]|Hr]); [|eauto].
      exfalso. rewrite Hp in Hid. apply list_elem_of_filter in Hid as [Hne Hid]. apply Hne. unfold worker_of. rewrite A4 in E. simpl in E.
      case_decide as D; [by apply Hids in D as [_ D]|]. by rewrite E, Hw.
    + f_equal. apply Bool.eq_true_iff_eq. rewrite !orb_true_iff, !bool_decide_eq_true. rewrite (t_identities _ T). unfold reachable_worker. tauto.
    + intros id. rewrite A4. simpl. repeat case_decide; naive_solver.
Qed.

(** ** Sockets of the bridge *)

Lemma wf_put r p p' b : peer_heap b !! r = Some p -> same_peer p p' -> (balanced p -> balanced p') -> wf b -> wf (set_peer_heap (<[r := p']> (peer_heap b)) b).
Proof.
  intros E [S1 S2] Hb [[T1 T2 T3 T4 T5 T6 T7 T8] M]. split; [|by apply (commands_same None b)].
  constructor; simpl; try done.
  - intros w r' E'. destruct (T5 w r' E') as (p0 & P1 & P2 & P3). destruct (decide (r = r')) as [<-|]; [|rewrite lookup_insert_ne by done; eauto].
    rewrite lookup_insert_eq. exists p'. rewrite E in P1. injection P1 as <-. by rewrite S1, S2.
  - intros r' Hr'. rewrite lookup_insert_ne; [by apply T7|]. intros ->. by rewrite T7 in E.
  - intros r' p0. rewrite lookup_insert. case_decide; [|apply T8]. intros [= <-]. by eapply Hb, T8.
Qed.

Lemma wf_update_peer r f b : tidy f -> wf b -> wf (update_peer r f b).
Proof.
  intros Hf W. unfold update_peer. destruct (peer_heap b !! r) as [p|] eqn:E; [rewrite (alter_at f _ _ p) by done; by eapply wf_put; [done|apply Hf..|]|].
  eapply wf_fields, W; try done. simpl. apply map_eq. intros i. destruct (decide (r = i)) as [<-|]; [by rewrite lookup_alter_eq, E|by rewrite lookup_alter_ne].
Qed.

Lemma wf_put_peer r p f b : peer_heap b !! r = Some p -> tidy (fun p => (f p).2) -> wf b -> wf (put_peer r (f p) b).2.
Proof. intros E Hf. destruct (Hf p). by eapply wf_put. Qed.

Lemma peer_of_Some b w r p : peer_of b w = Some (r, p) -> peers (state b) !! w = Some r /\ peer_heap b !! r = Some p.
Proof. unfold peer_of. destruct (peers (state b) !! w) as [r'|]; simpl; [|done]. destruct (peer_heap b !! r') as [p'|] eqn:E; simpl; [|done]. intros [= -> ->]. done. Qed.

Lemma wf_send_link w f b : wf b -> wf (send_worker_link_frame w f b).2.
Proof. intros W. unfold send_worker_link_frame. destruct (peer_of b w) as [[r p]|] eqn:E; [|done]. apply peer_of_Some in E as [_ E]. by apply wf_put_peer; [|apply tidy_send_frame|]. Qed.
Lemma wf_send_tunnel w h l b : wf b -> wf (send_tunnel_frame w h l b).2.
Proof.
  intros W. unfold send_tunnel_frame. destruct (peer_of b w) as [[r p]|] eqn:E; [|done]. apply peer_of_Some in E as [_ E]. case_match; [done|]. case_match; [done|].
  by apply wf_put_peer; [|apply tidy_send_tunnel|].
Qed.
Lemma wf_send_surface w h l b : wf b -> wf (send_surface_frame w h l b).2.
Proof.
  intros W. unfold send_surface_frame. destruct (peer_of b w) as [[r p]|] eqn:E; [|done]. apply peer_of_Some in E as [_ E]. case_match; [done|].
  case_match; [case_match; [|done]; apply wf_update_peer; [apply tidy_close|done]|]. case_match; [done|]. by apply wf_put_peer; [|apply tidy_send_surface|].
Qed.

(** ** Workers that come *)

Lemma wf_attach_rest w r ready b : wf b -> wf (attach_rest w r ready b).
Proof.
  intros W. unfold attach_rest. destruct (peer_heap b !! r) as [p|] eqn:E; [|done]. case_match; [by apply wf_logged|].
  set (x := match ready with Some t => send_text t p | None => (true, p) end). assert (Hx : same_peer p x.2 /\ (balanced p -> balanced x.2)).
  { unfold x. destruct ready as [t|]; [apply (tidy_send_text t p)|done]. }
  destruct x as [ok p']. simpl in Hx. destruct Hx as [Hx1 Hx2]. case_match; [by apply wf_logged|]. apply wf_logged. simpl.
  pose proof (wf_put r p p' b E Hx1 Hx2 W) as W1. set (b1 := set_peer_heap _ b) in *. set (b2 := set_state _ b1).
  assert (W2 : wf b2).
  { destruct W1 as [[T1 T2 T3 T4 T5 T6 T7 T8] [M1 M2 M3 M4 M5 M6]]. change (state b1) with (state b) in *.
    assert (Hr : forall v, reachable_worker (state b2) v <-> v = w \/ reachable_worker (state b) v).
    { intros v. unfold reachable_worker. simpl. rewrite lookup_insert, lookup_delete. repeat case_decide; subst; try done; naive_solver. }
    split; constructor; try done.
    - intros v. rewrite Hr. simpl. rewrite lookup_insert. case_decide; [subst; naive_solver|]. rewrite T1. naive_solver.
    - intros v. rewrite Hr. simpl. rewrite lookup_insert. case_decide; [subst; naive_solver|]. rewrite T2. naive_solver.
    - intros v r'. simpl. rewrite lookup_insert, lookup_delete. case_decide; [done|]. apply T3.
    - simpl. by rewrite T4.
    - intros v r'. destruct (decide (w = v)) as [<-|]; simpl; [rewrite !(lookup_insert_eq _ w)|rewrite !(lookup_insert_ne _ w v) by done; apply T5].
      intros [= <-]. exists p'. by rewrite lookup_insert_eq.
    - intros v g. simpl. rewrite lookup_delete. case_decide; [done|]. apply T6.
    - intros id Hid. destruct (M2 id Hid) as (q & Q1 & Q2 & [|Q3]); [done|]. exists q. split_and!; try done. right. apply Hr. by right. }
  case_match; [|done]. case_decide; [done|]. apply wf_update_peer; [apply tidy_close|done].
Qed.

Lemma wf_terminate w e b : wf b -> wf (terminate w e b).2.
Proof. intros W. pose proof (terminate_spec w e b W) as Ht. destruct (terminate w e b) as [x b']. apply Ht. Qed.

Lemma wf_attached w r ready b : wf b -> wf (attach w r ready b).
Proof.
  intros W. unfold attach. case_match; [by apply wf_logged|]. destruct (peer_heap b !! r) as [p|] eqn:E; [|done]. case_match; [|by apply wf_attach_rest].
  pose proof (wf_terminate w (unavailable ("Worker " ++ w ++ " continuity identity changed.")) b W) as W'. destruct (terminate _ _ b). by apply wf_push.
Qed.

Lemma wf_disconnect w reason code b : wf b -> wf (disconnect w reason code b).
Proof. intros W. unfold disconnect. pose proof (wf_terminate w (disconnected_error w) b W) as W'. destruct (terminate _ _ b). by apply wf_push. Qed.

Lemma wf_grace w g b : wf b -> wf (grace_elapsed w g b).
Proof.
  intros W. unfold grace_elapsed. case_match; [|done]. pose proof (wf_terminate w (disconnected_error w) b W) as W'. destruct (terminate _ _ b). by apply wf_push.
Qed.

Lemma wf_close_rest ws b : wf b -> wf (close_rest ws b).
Proof.
  intros W. destruct ws as [|w ws]; cbn [close_rest]; [by apply (wf_fields b)|].
  pose proof (wf_terminate w (unavailable "Server is shutting down.") b W) as W'. destruct (terminate w _ b) as [x b']. by apply wf_push.
Qed.

(** The state of an interruption with its timer. *)
Definition suspended (w : string) (g : nat) s : State :=
  MkState (delete w (peers s)) (identities s) (continuities s) (<[w := g]> (interruptions s)) (<[w := g]> (timers s)) (pending s).

Lemma wf_suspended w r b : peers (state b) !! w = Some r -> wf b -> wf (set_state (suspended w (fresh b) (state b)) (set_fresh (S (fresh b)) b)).
Proof.
  intros E [[T1 T2 T3 T4 T5 T6 T7 T8] [M1 M2 M3 M4 M5 M6]]. set (b' := set_state _ _).
  assert (Hr : forall v, reachable_worker (state b') v <-> reachable_worker (state b) v).
  { intros v. unfold reachable_worker. simpl. rewrite lookup_insert, lookup_delete. case_decide; [subst; rewrite E|]; naive_solver. }
  split; constructor; try done.
  - intros v. rewrite Hr. apply T1.
  - intros v. rewrite Hr. apply T2.
  - intros v r'. simpl. rewrite lookup_insert, lookup_delete. case_decide; [done|]. apply T3.
  - simpl. by rewrite T4.
  - intros v r'. simpl. rewrite lookup_delete. case_decide; [done|]. apply T5.
  - intros v g. simpl. rewrite lookup_insert. case_decide; [intros [= <-]; lia|]. intros Hg%T6. lia.
  - intros r' Hr'. simpl in Hr'. apply T7. lia.
  - intros id Hid. destruct (M2 id Hid) as (q & Q1 & Q2 & [|Q3]); [done|]. exists q. split_and!; try done. right. by apply Hr.
Qed.

Lemma wf_interrupted w r b : wf b -> wf (interrupted grace w r b).
Proof.
  intros W. unfold interrupted. destruct (current b w r) eqn:Hc; [|done]. cbn [negb]. apply bool_decide_eq_true in Hc. pose proof (wf_suspended w r b Hc W) as W1.
  set (b1 := set_state (suspended _ _ _) _) in W1. destruct (grace =? 0).
  - set (b2 := record _ _). assert (Et : terminate w (disconnected_error w) b2 = terminate w (disconnected_error w) (record (Noticed (Interrupted w)) b1)).
    { unfold terminate. simpl. by rewrite !delete_insert_eq, !delete_delete_eq. }
    rewrite Et. pose proof (wf_terminate w (disconnected_error w) _ (wf_logged (Noticed (Interrupted w)) b1 W1)) as W2. destruct (terminate _ _ _) as [x b3]. by apply wf_push.
  - apply wf_push. apply (wf_fields b1); try done. simpl. unfold suspended. by rewrite insert_delete_eq.
Qed.

(** ** Requests *)

Lemma wf_enroll w r id q b : wf b -> peers (state b) !! w = Some r -> requests b !! id = None -> q_worker q = w -> q_outcome q = None ->
  q_delivery q = [] -> q_task q = Listening -> q_arrived q = [] -> q_handled q = [] ->
  wf (set_state (set_pending (pending (state b) ++ [id]) (state b)) (set_requests (<[id := q]> (requests b)) (set_counters (add_routed (counters b)) b))).
Proof.
  intros [[T1 T2 T3 T4 T5 T6 T7 T8] [M1 M2 M3 M4 M5 M6]] Hp E Qw Qo Qd Qt Qa Qh. set (b' := set_state _ _).
  assert (Hn : id ∉ pending (state b)). { intros Hid. destruct (M2 id Hid) as (q0 & E0 & _). congruence. }
  split; constructor; try done; simpl.
  - apply NoDup_app. split_and!; [done| |apply NoDup_singleton]. intros x Hx ->%list_elem_of_singleton. done.
  - intros i [Hi|Hi%list_elem_of_singleton]%elem_of_app.
    + destruct (M2 i Hi) as (q0 & Q1 & Q2 & Q3). exists q0. rewrite lookup_insert_ne by (by intros ->). done.
    + subst i. exists q. rewrite lookup_insert_eq. split_and!; try done. right. left. rewrite Qw. eauto.
  - intros i q0. destruct (decide (id = i)) as [<-|Hne]; [rewrite lookup_insert_eq; intros [= <-]|rewrite lookup_insert_ne by done; intros E0%M3].
    + assert (Hw : waits b' id = true) by (apply bool_decide_eq_true; simpl; apply elem_of_app; right; by apply list_elem_of_singleton). rewrite Hw.
      split; [done|]. rewrite Qo. exists []. unfold busy. rewrite Qt, Qd, Qa, Qh. done.
    + replace (waits b' i) with (waits b i); [done|]. apply bool_decide_ext. simpl. rewrite elem_of_app, list_elem_of_singleton. naive_solver.
  - rewrite map_total_insert by done. lia.
  - rewrite map_total_insert by done. unfold wins at 1. rewrite Qo. lia.
  - rewrite map_total_insert by done. unfold losses at 1. rewrite Qo. lia.
Qed.

Lemma wf_request w id command timeout handler now b : requests b !! id = None -> wf b -> wf (request records w id command timeout handler now b).2.
Proof.
  intros E W. unfold request. case_match; [done|]. destruct (checked_add_u64 _ _) as [n|]; [|done].
  assert (W1 : wf (set_counters (set_sequence n (counters b)) b)).
  { destruct W as [T M]. split; [by apply (tables_same b)|by apply (commands_same None b)]. }
  set (b1 := set_counters _ b) in *. destruct (parse_schema _ _) as [v|]; [|done]. destruct (peer_of b1 w) as [[r p]|] eqn:Ep; [|done]. case_match; [|done].
  apply peer_of_Some in Ep as [Ep1 Ep2]. cbn [snd]. unfold dispatch. set (q := MkPending _ _ _ _ _ _ _ _ _ _). set (b2 := set_state _ _).
  assert (W2 : wf b2) by (by apply (wf_enroll w r id q b1)).
  pose proof (wf_put_peer r p (send_text (Wire.stringify v)) b2 Ep2 (tidy_send_text _) W2) as W3.
  destruct (send_text (Wire.stringify v) p) as [ok p']. unfold put_peer in *. cbn [fst snd] in *. destruct ok; [case_match; [by apply wf_logged|done]|].
  eapply wf_dismiss; [|..|exact W3]; [apply lookup_insert_eq|]. apply bool_decide_eq_true. simpl. apply elem_of_app. right. by apply list_elem_of_singleton.
Qed.

(** ** Listeners and the rest *)

Lemma wf_call_next c w g visited m b : wf b -> wf (call_next c w g visited m b).
Proof. intros W. unfold call_next. case_match; [|done]. case_match. by apply wf_push, wf_logged. Qed.
Lemma wf_deliver c w m b : wf b -> wf (deliver c w m b).
Proof. intros W. unfold deliver. case_match; [by apply wf_call_next|done]. Qed.

Lemma wf_receive w r t now b : wf b -> wf (receive w r t now b).
Proof.
  intros W. unfold receive. case_match; [done|]. case_match; [|done]. case_match; [by apply wf_complete_response|]. case_match; [case_match; [by apply wf_event|done]|].
  case_match; [|done]. case_match; [by apply wf_deliver|done].
Qed.

Lemma wf_connect identity asserted b : wf b -> wf (exec grace records (OConnect identity asserted) b).
Proof.
  intros [[T1 T2 T3 T4 T5 T6 T7 T8] M]. simpl. split; [|by apply (commands_same None b)]. constructor; simpl; try done.
  - intros w r E. destruct (T5 w r E) as (p & P1 & P2). exists p. rewrite lookup_insert_ne; [done|]. intros Hr. rewrite T7 in P1; [done|lia].
  - intros w g Hg%T6. lia.
  - intros r Hr. rewrite lookup_insert_ne by lia. apply T7. lia.
  - intros r p. rewrite lookup_insert. case_decide; [|apply T8]. intros [= <-]. split_and!; by try constructor.
Qed.

Lemma wf_resume ok b : wf b -> wf (resume ok b).
Proof.
  intros W. unfold resume. destruct (stack b) as [|k rest]; [done|]. assert (W1 : wf (set_stack rest b)) by (by apply (wf_fields b)).
  destruct k; [by apply wf_deliver|case_match; [by apply wf_call_next|by apply wf_logged]|by apply wf_logged|apply wf_update_peer; [apply tidy_close|done]|
    by apply wf_attach_rest|by apply wf_close_rest].
Qed.

Lemma wf_exec o b : allowed o b -> wf b -> wf (exec grace records o b).
Proof.
  intros Ha W. destruct o; cbn [exec].
  - by apply (wf_connect identity asserted).
  - by apply wf_update_peer; [apply tidy_transport|].
  - by apply wf_attached.
  - by apply wf_disconnect.
  - by apply wf_interrupted.
  - by apply wf_grace.
  - by apply wf_receive.
  - unfold response. case_match; [by apply wf_complete_response|done].
  - by apply wf_event.
  - unfold receive_worker_link_frame. case_match; [done|]. case_match; [by apply wf_logged|by apply wf_deliver].
  - unfold receive_tunnel_frame. case_match; [done|]. case_match; [by apply wf_logged|by apply wf_deliver].
  - unfold receive_surface_frame. case_match; [done|]. case_match; [by apply wf_logged|by apply wf_deliver].
  - by apply wf_send_link.
  - by apply wf_send_tunnel.
  - by apply wf_send_surface.
  - by apply wf_request.
  - by apply wf_deadline_fired.
  - by apply wf_take_delivery.
  - by apply wf_handled.
  - by apply (wf_fields b).
  - by apply (wf_fields b).
  - apply wf_close_rest. by apply (wf_fields b).
  - by apply wf_resume.
Qed.

Lemma new_bridge_wf : wf new.
Proof.
  split.
  - constructor; simpl; unfold reachable_worker; simpl; intros *; rewrite ?lookup_empty; try done; split; [intros [? ?]; done|intros [[? ?]|[? ?]]; done|intros [? ?]; done|intros [[? ?]|[? ?]]; done].
  - constructor; simpl; [apply NoDup_nil_2|by intros id Hid%elem_of_nil|by intros id q; rewrite lookup_empty|by rewrite map_total_empty..].
Qed.

Lemma reach_wf b : reach grace records b -> wf b.
Proof. induction 1; [exact new_bridge_wf|by apply wf_exec]. Qed.
End inv.
End BridgeInv.
