(* ===== verification/BridgeSafety.v ===== *)
(** * What the worker bridge promises

    The properties of [Bridge] that its callers rely on: a command that was sent
    is answered once and never lost, its events come before its answer, the
    commands of a worker survive a reconnection of the same process and no
    other, and closing the bridge ends everything. *)
From S2P Require Import Prelude JsString Wire WireRead Frames Deadline Listeners CommandBus Bridge BridgeInv.
From stdpp Require Import base numbers strings gmap option list fin_maps.
Open Scope Z_scope.

Module BridgeSafety.
Import Text JsString Wire Bridge BridgeInv.

Section safety.
Context {numbers : Numbers}.
Context {HL HT HS : Type} `{HeaderCodec HL} `{HeaderCodec HT} `{HeaderCodec HS}.
Context {contracts : Contracts (HS := HS)}.
Context (grace : Z) (records : bool).
Abbreviation Bridge := (Bridge (HL := HL) (HT := HT) (HS := HS)).
Implicit Types (b : Bridge) (q : Pending) (s : State).

(** ** Commands only move on *)

Record grows q q' : Prop := Grows {
  gr_worker : q_worker q' = q_worker q;
  gr_outcome : forall o, q_outcome q = Some o -> q_outcome q' = Some o;
  gr_arrived : q_arrived q `prefix_of` q_arrived q';
  gr_handled : q_handled q `prefix_of` q_handled q'
}.

#[global] Instance grows_preorder : PreOrder grows.
Proof.
  split; [by intros q|]. intros q1 q2 q3 [A1 A2 A3 A4] [B1 B2 B3 B4]. constructor; [congruence|auto|by etrans..].
Qed.

Definition keeps b b' : Prop := forall id q, requests b !! id = Some q -> exists q', requests b' !! id = Some q' /\ grows q q'.

#[global] Instance keeps_preorder : PreOrder keeps.
Proof.
  split; [intros b id q E; by exists q|]. intros b1 b2 b3 K1 K2 id q E. destruct (K1 id q E) as (q1 & E1 & G1). destruct (K2 id q1 E1) as (q2 & E2 & G2).
  exists q2. split; [done|by etrans].
Qed.

Lemma keeps_same b b' : requests b' = requests b -> keeps b b'.
Proof. intros E id q Eq. exists q. by rewrite E. Qed.
Ltac untouched := by apply keeps_same.

Lemma keeps_update id f b : (forall q, requests b !! id = Some q -> grows q (f q)) -> keeps b (update_request id f b).
Proof.
  intros Hf i q E. unfold update_request. simpl. destruct (decide (id = i)) as [<-|]; [rewrite lookup_alter_eq, E; simpl; eauto|rewrite lookup_alter_ne by done; by exists q].
Qed.

Lemma grows_push d q : grows q (push_delivery d q).
Proof. unfold push_delivery. by case_match. Qed.

Lemma keeps_finish id o b : keeps b (finish id o b).
Proof.
  unfold finish. destruct (requests b !! id) as [q|] eqn:E; [|done]. destruct (q_outcome q) eqn:Eo; [done|].
  trans (set_counters (count o (counters b)) b); [untouched|]. apply keeps_update. intros q' E'. simpl in E'. rewrite E in E'. injection E' as <-. etrans; [|apply grows_push]. constructor; try done. congruence.
Qed.

Lemma keeps_each {A} (f : Bridge -> A -> Bridge) l : (forall b x, keeps b (f b x)) -> forall b, keeps b (fold_left f l b).
Proof. intros Hf. induction l as [|x l IH]; intros b; simpl; [done|]. etrans; [apply Hf|apply IH]. Qed.

Lemma keeps_dismiss id e b : keeps b (dismiss id e b).
Proof. etrans; [|apply keeps_finish]. trans (remove_pending id b); [untouched|]. by apply keeps_update. Qed.

Lemma keeps_terminate w e b : keeps b (terminate w e b).2.
Proof. unfold terminate. simpl. etrans; [|apply keeps_each; intros; apply keeps_dismiss]. untouched. Qed.

Lemma keeps_terminated w e b x b' ks : terminate w e b = (x, b') -> keeps b (push ks b').
Proof. intros E. pose proof (keeps_terminate w e b) as K. rewrite E in K. etrans; [exact K|]. untouched. Qed.

Lemma keeps_attach_rest w r ready b : keeps b (attach_rest w r ready b).
Proof. unfold attach_rest. repeat (case_match; try untouched). Qed.

Lemma keeps_attach w r ready b : keeps b (attach w r ready b).
Proof.
  unfold attach. case_match; [untouched|]. case_match; [|done]. case_match; [|apply keeps_attach_rest].
  destruct (terminate _ _ b) as [x b'] eqn:E. by eapply keeps_terminated.
Qed.

Lemma keeps_interrupted w r b : keeps b (interrupted grace w r b).
Proof.
  unfold interrupted. case_match; [done|]. set (b1 := record _ _). trans b1; [untouched|]. case_match; [|untouched].
  destruct (terminate _ _ b1) as [x b'] eqn:E. by eapply keeps_terminated.
Qed.

Lemma keeps_close_rest ws b : keeps b (close_rest ws b).
Proof. destruct ws as [|w ws]; cbn [close_rest]; [untouched|]. destruct (terminate w _ b) as [x b'] eqn:E. by eapply keeps_terminated. Qed.

Lemma keeps_complete_response w r v b : keeps b (complete_response w r v b).
Proof.
  unfold complete_response. case_match; [|done]. case_match; [done|]. etrans; [|apply keeps_update; intros; etrans; [|apply grows_push]; done]. untouched.
Qed.

Lemma keeps_event w r id v now b : keeps b (event w r id v now b).
Proof.
  unfold event. case_match; [|done]. apply keeps_update. intros q _. etrans; [|apply grows_push]. constructor; simpl; repeat case_match; try done; by apply prefix_app_r.
Qed.

Lemma keeps_delivery c w m b : keeps b (deliver c w m b).
Proof. unfold deliver, call_next. repeat (case_match; try untouched). Qed.

Lemma keeps_receive w r t now b : keeps b (receive w r t now b).
Proof.
  unfold receive. case_match; [done|]. case_match; [|done]. case_match; [apply keeps_complete_response|]. case_match; [case_match; [apply keeps_event|done]|].
  case_match; [|done]. case_match; [apply keeps_delivery|done].
Qed.

Lemma keeps_request w id command timeout handler now b : requests b !! id = None -> keeps b (request records w id command timeout handler now b).2.
Proof.
  intros E. unfold request. case_match; [done|]. case_match; [|done]. case_match; [|untouched]. destruct (peer_of _ w) as [[r p]|]; [|untouched]. case_match; [|untouched].
  cbn [snd]. unfold dispatch. set (q := MkPending _ _ _ _ _ _ _ _ _ _). set (b2 := set_state _ _).
  assert (K : keeps b b2). { intros i q0 E0. exists q0. simpl. rewrite lookup_insert_ne by congruence. done. }
  destruct (send_text _ p) as [ok p']. unfold put_peer. cbn [fst snd]. etrans; [exact K|]. destruct ok; [case_match; untouched|]. etrans; [|apply keeps_finish]. untouched.
Qed.

Lemma keeps_take id b : keeps b (take_delivery id b).
Proof.
  unfold take_delivery. destruct (requests b !! id) as [q|]; [|done]. case_match; [|done..]. case_match; [done|].
  trans (update_request id (set_delivery l) b); [by apply keeps_update|]. case_match.
  - case_match; apply keeps_update; intros q' _; constructor; try done. simpl. by apply prefix_app_r.
  - etrans; [apply keeps_finish|by apply keeps_update].
  - by apply keeps_update.
Qed.

Lemma keeps_handled id result b : keeps b (handled id result b).
Proof.
  unfold handled. case_match; [|done]. case_match; [done| |done]. case_match; [etrans; [apply keeps_dismiss|by apply keeps_update]|].
  apply keeps_update. intros q' _. constructor; try done. simpl. by apply prefix_app_r.
Qed.

Lemma keeps_exec o b : allowed o b -> keeps b (exec grace records o b).
Proof.
  intros Ha. destruct o; cbn [exec]; try untouched.
  - apply keeps_attach.
  - unfold disconnect. destruct (terminate _ _ b) as [x b'] eqn:E. by eapply keeps_terminated.
  - apply keeps_interrupted.
  - unfold grace_elapsed. case_match; [|done]. destruct (terminate _ _ b) as [x b'] eqn:E. by eapply keeps_terminated.
  - apply keeps_receive.
  - unfold response. case_match; [apply keeps_complete_response|done].
  - apply keeps_event.
  - unfold receive_worker_link_frame. case_match; [done|]. case_match; [untouched|apply keeps_delivery].
  - unfold receive_tunnel_frame. case_match; [done|]. case_match; [untouched|apply keeps_delivery].
  - unfold receive_surface_frame. case_match; [done|]. case_match; [untouched|apply keeps_delivery].
  - unfold send_worker_link_frame. repeat (case_match; try untouched).
  - unfold send_tunnel_frame. repeat (case_match; try untouched).
  - unfold send_surface_frame. repeat (case_match; try untouched).
  - by apply keeps_request.
  - unfold deadline_fired. case_match; [|done]. case_match; [|done]. etrans; [|apply keeps_finish]. untouched.
  - apply keeps_take.
  - apply keeps_handled.
  - etrans; [|apply keeps_close_rest]. untouched.
  - unfold resume. case_match; [done|]. set (b1 := set_stack _ b). trans b1; [untouched|]. case_match; try untouched.
    + apply keeps_delivery.
    + case_match; [unfold call_next; repeat (case_match; try untouched)|untouched].
    + apply keeps_attach_rest.
    + apply keeps_close_rest.
Qed.

(** ** The tables and the counters *)

Definition unanswered q : Z := match q_outcome q with None => 1 | Some _ => 0 end.

(** In every state the bridge can reach, a worker has an identity and a
    continuity exactly while it is connected or within its grace period, never
    both, those of its socket while it is connected, and a grace timer of the
    right generation exactly while it is interrupted; the requests sent are
    those answered with success, those that failed and those still open; and
    the bytes a socket has reserved are those of the messages it holds. *)
Theorem bridge_bookkeeping b : reach grace records b ->
  (forall w, is_Some (identities (state b) !! w) <-> is_Some (peers (state b) !! w) \/ is_Some (interruptions (state b) !! w)) /\
  (forall w, is_Some (peers (state b) !! w) -> interruptions (state b) !! w = None) /\
  (forall w r, peers (state b) !! w = Some r -> exists p, peer_heap b !! r = Some p /\
    identities (state b) !! w = Some (p_identity p) /\ continuities (state b) !! w = Some (p_continuity p)) /\
  timers (state b) = interruptions (state b) /\
  routed (counters b) = succeeded (counters b) + failed (counters b) + map_total unanswered (requests b) /\
  (forall r p, peer_heap b !! r = Some p -> buffered_amount p = sumZ (p_queue p).*2 + sumZ (p_writing p) /\ 0 <= buffered_amount p).
Proof.
  intros [[T1 T2 T3 T4 T5 T6 T7 T8] [M1 M2 M3 M4 M5 M6]]%reach_wf. split_and!; try done.
  - intros w [r E]. by eapply T3.
  - rewrite M4, M5, M6, (map_total_split (fun _ => 1) wins (fun q => losses q + unanswered q)); [rewrite (map_total_split (fun q => losses q + unanswered q) losses unanswered) by done; lia|].
    intros q. unfold wins, losses, unanswered. repeat case_match; lia.
  - intros r p E. destruct (T8 r p E) as (B1 & _ & B3 & B4). unfold buffered_amount. split; [done|]. rewrite B1. pose proof (sumZ_nonneg _ B3). pose proof (sumZ_nonneg _ B4). lia.
Qed.

(** ** Commands *)

(** C18: no command is lost: one that was sent and is not answered either waits in
    the table, for a worker that is connected or within its grace period, or its
    answer lies behind its last events in the queue of its task, which is
    running. A timer runs only for a command in the table. *)
Theorem request_never_lost b id q : reach grace records b -> requests b !! id = Some q ->
  (q_timer q = true -> id ∈ pending (state b)) /\
  match q_outcome q with
  | Some _ => id ∉ pending (state b)
  | None =>
      q_task q <> Ended /\
      (id ∈ pending (state b) /\ (is_Some (peers (state b) !! q_worker q) \/ is_Some (interruptions (state b) !! q_worker q)) \/
       (id ∉ pending (state b)) /\ exists vs o, q_delivery q = (Event <$> vs) ++ [Response o])
  end.
Proof.
  intros [_ M]%reach_wf E. pose proof (m_sound _ _ M id q E) as [Ht Hs]. unfold waits in *. split; [intros Hq; by apply Ht, bool_decide_eq_true in Hq|].
  destruct (q_outcome q) eqn:Eo; [by destruct Hs as [?%bool_decide_eq_false _]|]. destruct Hs as (vs & _ & Hn & D). split; [done|]. case_bool_decide as Hid.
  - left. split; [done|]. destruct (m_waiting _ _ M id Hid) as (q' & E' & _ & [|Hr]); [done|]. rewrite E in E'. by injection E' as <-.
  - right. destruct D as [o D]. eauto.
Qed.

(** whatever happens next, a command keeps the answer it was given, and the
    events that arrived for it and those that were handled only grow. *)
Theorem answer_final o b id q : reach grace records b -> allowed o b -> requests b !! id = Some q ->
  exists q', requests (exec grace records o b) !! id = Some q' /\ q_worker q' = q_worker q /\
    (forall r, q_outcome q = Some r -> q_outcome q' = Some r) /\ q_arrived q `prefix_of` q_arrived q' /\ q_handled q `prefix_of` q_handled q'.
Proof. intros _ Ha E. destruct (keeps_exec o b Ha id q E) as (q' & E' & [G1 G2 G3 G4]). by exists q'. Qed.

(** C19: the events of a command are handled in the order they arrived, without
    gaps, and the answer of the worker reaches the caller only after all of
    them: when the task takes the answer, every event that arrived was handled,
    and that answer is what the caller gets. A command that succeeded had all
    its events handled. *)
Theorem events_before_answer b id q : reach grace records b -> requests b !! id = Some q ->
  q_handled q `prefix_of` q_arrived q /\
  (forall v, q_outcome q = Some (inr v) -> q_handled q = q_arrived q) /\
  (forall o rest, q_task q = Listening -> q_delivery q = Response o :: rest -> q_handled q = q_arrived q /\
    exists q', requests (take_delivery id b) !! id = Some q' /\ q_outcome q' = Some o).
Proof.
  intros [_ M]%reach_wf E. pose proof (m_sound _ _ M id q E) as Hq. split_and!.
  - destruct Hq as [_ Hq]. destruct (q_outcome q); [destruct Hq as (_ & _ & [[_ [vs Hv]]|(vs & Hv & _)])|destruct Hq as (vs & Hv & _)]; rewrite Hv; by apply prefix_app_r.
  - intros v Ho. destruct Hq as [_ Hq]. rewrite Ho in Hq. by apply Hq.
  - intros o rest Et Ed. destruct (sound_delivery _ q _ rest Hq Et Ed) as (Ho & Hh & -> & _). split; [done|]. pose proof (take_response_moved id q o b E Ho Et Ed) as Hm.
    rewrite (mv_requests _ _ _ _ _ _ Hm), lookup_insert_eq. eexists. split; [done|]. simpl. apply answered_fields.
Qed.

(** ** Reconnection *)

(** A command of the worker in the table, as [terminate] leaves it. *)
Lemma terminated_answer w e b id q x b' : wf b -> terminate w e b = (x, b') -> requests b !! id = Some q ->
  (q_worker q = w -> id ∈ pending (state b) -> exists q', requests b' !! id = Some q' /\ q_outcome q' = Some (inl e)) /\
  (q_worker q <> w -> requests b' !! id = Some q).
Proof.
  intros W Ht E. pose proof (terminate_spec w e b W) as S. rewrite Ht in S. destruct S as (_ & _ & _ & R & _). split; intros Hw.
  - intros Hid. rewrite R. unfold worker_of. rewrite decide_True by (rewrite E; simpl; by rewrite Hw). rewrite E. simpl. eexists. split; [done|]. apply answered_fields.
  - rewrite R. unfold worker_of. rewrite decide_False; [done|]. rewrite E. simpl. intros [_ [= ?]]. done.
Qed.

Lemma reach_socket b w r : wf b -> peers (state b) !! w = Some r -> exists p, peer_heap b !! r = Some p.
Proof. intros [T _] E. destruct (t_sockets _ T w r E) as (p & Ep & _). eauto. Qed.

(** An open socket takes the readiness message and is registered. *)
Lemma attach_rest_spec w r p ready b : peer_heap b !! r = Some p -> is_open p = true ->
  let b' := attach_rest w r ready b in
  requests b' = requests b /\ pending (state b') = pending (state b) /\ stack b' = stack b /\ peers (state b') !! w = Some r /\
  interruptions (state b') !! w = None /\ (forall old, peers (state b) !! w = Some old -> old <> r -> socket_open b' old = false).
Proof.
  intros Ep Ho. cbn zeta. unfold attach_rest. rewrite Ep, Ho. cbn [negb]. unfold is_open in Ho. apply andb_true_iff in Ho as [_ Hg%negb_true_iff].
  set (x := match ready with Some t => send_text t p | None => (true, p) end).
  assert (Hx : x.1 = true) by (unfold x; destruct ready; [unfold send_text, offer; by rewrite Hg|done]). destruct x as [ok p']. simpl in Hx. subst ok. cbn [negb].
  set (b2 := set_state _ _). assert (Hold : forall old, old <> r -> socket_open (record (Attached w r true) (update_peer old (close_peer 1012 "Worker reconnected") b2)) old = false).
  { intros old _. unfold socket_open, update_peer, record. simpl. rewrite lookup_alter_eq. destruct (<[r := p']> (peer_heap b) !! old) as [po|]; [|done]. simpl.
    unfold close_peer, is_open. destruct (p_open po) eqn:Eo; [|by rewrite Eo]. unfold offer. simpl. by destruct (p_gone po). }
  change (peers (state (set_peer_heap (<[r := p']> (peer_heap b)) b)) !! w) with (peers (state b) !! w).
  destruct (peers (state b) !! w) as [old|]; [case_decide|]; simpl; rewrite ?lookup_insert_eq, ?lookup_delete_eq; split_and!; try done.
  - intros old' [= <-] Hne. done.
  - intros old' [= <-] Hne. by apply Hold.
Qed.

(** A worker that connects again keeps its commands exactly when it asserts
    the continuity it had before: then nothing of its commands changes, the new
    socket is registered at once and the old one closed. Otherwise every command
    in the table is answered as unavailable, those of other workers stay as they
    are, and the socket is registered only after the listeners for the lost
    worker were called. *)
Theorem reconnect_continuity w r p ready b : reach grace records b -> closed b = false -> peer_heap b !! r = Some p -> is_open p = true ->
  let b' := attach w r ready b in
  (had b w = false \/ continuity_of b w = p_continuity p ->
    requests b' = requests b /\ pending (state b') = pending (state b) /\ stack b' = stack b /\ peers (state b') !! w = Some r /\
    interruptions (state b') !! w = None /\ (forall old, peers (state b) !! w = Some old -> old <> r -> socket_open b' old = false)) /\
  (had b w = true -> continuity_of b w <> p_continuity p ->
    peers (state b') !! w = None /\ interruptions (state b') !! w = None /\
    (forall id q, requests b !! id = Some q -> q_worker q = w -> id ∈ pending (state b) ->
      exists q', requests b' !! id = Some q' /\ q_outcome q' = Some (inl (unavailable ("Worker " ++ w ++ " continuity identity changed.")))) /\
    (forall id q, requests b !! id = Some q -> q_worker q <> w -> requests b' !! id = Some q) /\
    exists ks, stack b' = ks ++ Attach w r ready :: stack b /\ Deliver Offline w NoMessage ∈ ks).
Proof.
  intros W%reach_wf Hcl Ep Ho. cbn zeta. unfold attach, socket_open. rewrite Hcl, Ep, Ho. cbn [negb orb]. split; intros Hh.
  - replace (had b w && negb (bool_decide (continuity_of b w = p_continuity p))) with false; [by eapply attach_rest_spec|].
    destruct Hh as [->| ->]; [done|]. rewrite bool_decide_eq_true_2 by done. by rewrite andb_false_r.
  - intros Hc. rewrite Hh, bool_decide_eq_false_2 by done. cbn [negb andb]. destruct (terminate w _ b) as [x b'] eqn:Et.
    pose proof (terminate_spec w (unavailable ("Worker " ++ w ++ " continuity identity changed.")) b W) as S. rewrite Et in S. destruct S as (_ & Ex & _ & _ & S5 & S6 & S7 & _).
    split_and!; simpl.
    + by rewrite S5, lookup_delete_eq.
    + by rewrite S6, lookup_delete_eq.
    + intros id q E. by apply (terminated_answer w _ b id q x b' W Et E).
    + intros id q E. by apply (terminated_answer w _ b id q x b' W Et E).
    + rewrite S7, <- app_assoc. eexists. split; [done|]. unfold finish_termination. apply elem_of_app. right.
      assert (Hx : x.2 = true). { rewrite Ex. apply bool_decide_eq_true. unfold had in Hh. by apply orb_true_iff in Hh as [Hh%bool_decide_eq_true|Hh%bool_decide_eq_true]; [left|right]. }
      rewrite Hx. right. left.
Qed.

(** An interrupted worker keeps its commands and its continuity through the
    grace period: only the timer of that very interruption ends it, and then
    every command in the table is answered as unavailable. *)
Theorem grace_period w r b : reach grace records b -> peers (state b) !! w = Some r -> grace <> 0 ->
  let b1 := interrupted grace w r b in
  requests b1 = requests b /\ pending (state b1) = pending (state b) /\ is_connected b1 w = false /\ continuity_of b1 w = continuity_of b w /\
  (forall g, g <> fresh b -> grace_elapsed w g b1 = b1) /\
  (forall id q, requests b !! id = Some q -> q_worker q = w -> id ∈ pending (state b) ->
    exists q', requests (grace_elapsed w (fresh b) b1) !! id = Some q' /\ q_outcome q' = Some (inl (disconnected_error w))).
Proof.
  intros W%reach_wf Ep Hg. cbn zeta. pose proof (wf_interrupted grace w r b W) as W1. unfold interrupted in *.
  assert (Hc : current b w r = true) by (by apply bool_decide_eq_true). rewrite Hc in *. cbn [negb] in *. rewrite (proj2 (Z.eqb_neq _ _) Hg) in *.
  set (b1 := push _ _) in *. assert (Hi : interruptions (state b1) !! w = Some (fresh b)) by (simpl; by rewrite lookup_insert_eq).
  assert (Hp : peers (state b1) !! w = None) by (simpl; by rewrite lookup_delete_eq). split_and!; try done.
  - unfold is_connected. by rewrite Hp.
  - intros g Hne. unfold grace_elapsed. rewrite (bool_decide_eq_false_2 (interruptions (state b1) !! w = Some g)) by congruence. by rewrite andb_false_r.
  - intros id q E Hw Hid. unfold grace_elapsed. rewrite !bool_decide_eq_true_2 by done. cbn [andb]. destruct (terminate w _ b1) as [x b2] eqn:Et.
    simpl. by apply (terminated_answer w _ b1 id q x b2 W1 Et E).
Qed.

(** ** Closing

    Listeners that do not call the bridge back: the rest of an operation runs by
    itself. *)
Definition drain (n : nat) b : Bridge := Nat.iter n (resume true) b.

(** Only the log and the stack changed. *)
Record quiet b b' : Prop := Quiet {
  qu_state : state b' = state b;
  qu_requests : requests b' = requests b;
  qu_heap : peer_heap b' = peer_heap b;
  qu_registries : registries b' = registries b
}.
#[global] Instance quiet_preorder : PreOrder quiet.
Proof. split; [done|]. intros ??? [] []. constructor; congruence. Qed.

Lemma drain_add n m b : drain (n + m) b = drain n (drain m b).
Proof. unfold drain. by rewrite Nat.iter_add. Qed.

Lemma fewer_left (L : list (nat * nat)) visited i h l : filter (fun p => p.1 ∉ visited) L = (i, h) :: l ->
  (length (filter (fun p => p.1 ∉ i :: visited) L) < length (filter (fun p => p.1 ∉ visited) L))%nat.
Proof.
  intros Ef. assert (E : filter (fun p => p.1 ∉ i :: visited) L = filter (fun p : nat * nat => p.1 <> i) ((i, h) :: l)).
  { rewrite <- Ef, list_filter_filter. apply filter_iff_in. intros x _. rewrite not_elem_of_cons. tauto. }
  rewrite E, Ef, filter_cons_False by (simpl; tauto). pose proof (sublist_length _ _ (sublist_filter (fun p : nat * nat => p.1 <> i) l)). simpl. lia.
Qed.

Lemma calls_drain c w g m ks : forall k visited b, length (filter (fun p => p.1 ∉ visited) (Listeners.members (registries b c) g)) = k -> stack b = ks ->
  exists n, stack (drain n (call_next c w g visited m b)) = ks /\ quiet b (drain n (call_next c w g visited m b)).
Proof.
  induction k as [k IH] using lt_wf_ind. intros visited b Hk Hs. unfold call_next, Listeners.next_listener.
  destruct (filter _ _) as [|[i h] l] eqn:Ef; simpl; [exists 0%nat; by split|]. rewrite <- Ef in Hk. set (b1 := record (Called c w i h m) b).
  destruct (IH _ ltac:(rewrite <- Hk; by eapply fewer_left) (i :: visited) b1 eq_refl Hs) as (n & N1 & N2).
  exists (n + 1)%nat. rewrite drain_add. change (drain 1 ?x) with (resume true x). unfold resume. simpl. change (set_stack (stack b) (push _ b1)) with b1.
  split; [exact N1|]. by etrans; [|exact N2].
Qed.

Lemma deliver_drains c w m b : exists n, stack (drain n (deliver c w m b)) = stack b /\ quiet b (drain n (deliver c w m b)).
Proof. unfold deliver. case_match; [by eapply calls_drain|exists 0%nat; by split]. Qed.

(** Running the first piece of the stack to its end. *)
Lemma notice_drains n ks b : stack b = Notify n :: ks -> exists k, stack (drain k b) = ks /\ quiet b (drain k b).
Proof. intros E. exists 1%nat. change (drain 1 b) with (resume true b). unfold resume. rewrite E. by split. Qed.
Lemma delivery_drains c w m ks b : stack b = Deliver c w m :: ks -> exists k, stack (drain k b) = ks /\ quiet b (drain k b).
Proof.
  intros E. destruct (deliver_drains c w m (set_stack ks b)) as (n & N1 & N2). exists (n + 1)%nat. rewrite drain_add. change (drain 1 b) with (resume true b). unfold resume. rewrite E.
  split; [exact N1|]. by etrans; [|exact N2].
Qed.

(** Only sockets were closed. *)
Record shut_only b b' : Prop := ShutOnly {
  so_state : state b' = state b;
  so_registries : registries b' = registries b;
  so_closed : forall r p, peer_heap b !! r = Some p -> exists p', peer_heap b' !! r = Some p' /\ (p_open p = false -> p_open p' = false)
}.
#[global] Instance shut_only_preorder : PreOrder shut_only.
Proof.
  split; [intros b; constructor; eauto|]. intros b1 b2 b3 [A1 A2 A3] [B1 B2 B3]. constructor; [congruence..|]. intros r p E. destruct (A3 r p E) as (p1 & E1 & F1).
  destruct (B3 r p1 E1) as (p2 & E2 & F2). eauto.
Qed.
Lemma quiet_shut b b' : quiet b b' -> shut_only b b'.
Proof. intros [A _ C D]. constructor; try done. rewrite C. eauto. Qed.

Lemma close_peer_shut code reason p : p_open (close_peer code reason p) = false.
Proof. unfold close_peer. destruct (p_open p) eqn:E; [|done]. unfold offer. simpl. by case_match. Qed.

Lemma socket_drains r code reason ks b : stack b = CloseSocket r code reason :: ks ->
  stack (drain 1 b) = ks /\ shut_only b (drain 1 b) /\ (forall p, peer_heap (drain 1 b) !! r = Some p -> p_open p = false).
Proof.
  intros E. change (drain 1 b) with (resume true b). unfold resume. rewrite E. split_and!; [done|..].
  - constructor; try done. intros r' p Ep. unfold update_peer. simpl. destruct (decide (r = r')) as [<-|]; [rewrite lookup_alter_eq, Ep|rewrite lookup_alter_ne, Ep by done; eauto].
    simpl. eexists. split; [done|]. intros _. apply close_peer_shut.
  - intros p. unfold update_peer. simpl. rewrite lookup_alter_eq. destruct (peer_heap b !! r) as [p0|]; simpl; [|done]. intros [= <-]. apply close_peer_shut.
Qed.

Lemma drain_wf n b : wf b -> wf (drain n b).
Proof. induction n as [|n IH]; [done|]. intros W. apply wf_resume. by apply IH. Qed.

Lemma offline_drains w (lost : bool) ks b : stack b = (if lost then [Notify (WentOffline w); Deliver Offline w NoMessage] else []) ++ ks ->
  exists n, stack (drain n b) = ks /\ quiet b (drain n b).
Proof.
  destruct lost; intros E; [|exists 0%nat; by split]. destruct (notice_drains _ _ _ E) as (n & N1 & N2). destruct (delivery_drains _ _ _ _ _ N1) as (n' & N3 & N4).
  exists (n' + n)%nat. rewrite drain_add. split; [done|]. by etrans.
Qed.

Lemma termination_drains w ended code reason ks b : stack b = finish_termination w ended (Some (code, reason)) ++ ks ->
  exists n, stack (drain n b) = ks /\ shut_only b (drain n b) /\ (forall r p, ended.1 = Some r -> peer_heap (drain n b) !! r = Some p -> p_open p = false).
Proof.
  destruct ended as [[r|] lost]; unfold finish_termination; cbn [fst snd]; intros E.
  - rewrite <- app_assoc in E. simpl in E. destruct (notice_drains _ _ _ E) as (n1 & A1 & A2). destruct (delivery_drains _ _ _ _ _ A1) as (n2 & B1 & B2).
    destruct (socket_drains _ _ _ _ _ B1) as (C1 & C2 & C3). destruct (offline_drains w lost ks _ C1) as (n4 & D1 & D2).
    exists (n4 + (1 + (n2 + n1)))%nat. rewrite !drain_add. split_and!; [exact D1| |].
    + etrans; [apply quiet_shut, A2|]. etrans; [apply quiet_shut, B2|]. etrans; [exact C2|]. by apply quiet_shut.
    + intros r' p [= <-]. rewrite (qu_heap _ _ D2). apply C3.
  - simpl in E. destruct (offline_drains w lost ks b E) as (n & N1 & N2). exists n. split_and!; [done|by apply quiet_shut|done].
Qed.

(** What closing the listed workers leaves. *)
Record closed_down (ws : list string) b b' : Prop := ClosedDown {
  cd_wf : wf b';
  cd_gone : forall w, w ∈ ws -> peers (state b') !! w = None /\ interruptions (state b') !! w = None;
  cd_peers : forall w r, peers (state b') !! w = Some r -> peers (state b) !! w = Some r;
  cd_interruptions : forall w g, interruptions (state b') !! w = Some g -> interruptions (state b) !! w = Some g;
  cd_sockets : forall w r p, peers (state b) !! w = Some r -> w ∈ ws -> peer_heap b' !! r = Some p -> p_open p = false;
  cd_shut : forall r p, peer_heap b !! r = Some p -> exists p', peer_heap b' !! r = Some p' /\ (p_open p = false -> p_open p' = false);
  cd_listeners : forall c, Listeners.groups (registries b' c) = ∅
}.

Lemma close_rest_drains ks ws : forall b, wf b -> stack b = ks -> exists n, stack (drain n (close_rest ws b)) = ks /\ closed_down ws b (drain n (close_rest ws b)).
Proof.
  induction ws as [|w ws IH]; intros b W Hs.
  { exists 0%nat. split; [done|]. constructor; simpl; try done; [by apply (wf_fields b)|by intros w ?%elem_of_nil|by intros w r p _ ?%elem_of_nil|eauto]. }
  cbn [close_rest]. destruct (terminate w _ b) as [ended b1] eqn:Et. pose proof (terminate_spec w (unavailable "Server is shutting down.") b W) as S. rewrite Et in S.
  destruct S as (W1 & Ee & _ & _ & S5 & S6 & S7 & S8 & S9 & _). set (b2 := push _ b1).
  assert (E2 : stack b2 = finish_termination w ended (Some (1001, "Server shutting down"%string)) ++ CloseRest ws :: ks) by (simpl; by rewrite S7, Hs, <- app_assoc).
  destruct (termination_drains _ _ _ _ _ _ E2) as (n1 & A1 & A2 & A3). assert (W3 : wf (drain n1 b2)) by (by apply drain_wf, wf_push). set (b3 := drain n1 b2) in *.
  destruct (IH (set_stack ks b3)) as (n2 & B1 & B2); [by apply (wf_fields b3)|done|].
  assert (E3 : drain (n2 + (1 + n1)) b2 = drain n2 (close_rest ws (set_stack ks b3))).
  { rewrite !drain_add. fold b3. change (drain 1 b3) with (resume true b3). unfold resume. by rewrite A1. }
  exists (n2 + (1 + n1))%nat. rewrite E3. split; [done|]. clear E3. set (b4 := drain n2 _) in *. clearbody b4. destruct A2 as [A21 A22 A23]. change (state b2) with (state b1) in A21. change (peer_heap b2) with (peer_heap b1) in A23.
  destruct B2 as [B21 B22 B23 B24 B25 B26 B27]. simpl in *. rewrite S8 in A23. rewrite A21, S5, S6 in *. constructor; try done.
  - intros v Hv. apply elem_of_cons in Hv as [->|Hv]; [|by apply B22]. split.
    + destruct (peers (state b4) !! w) eqn:E; [|done]. apply B23 in E. by rewrite lookup_delete_eq in E.
    + destruct (interruptions (state b4) !! w) eqn:E; [|done]. apply B24 in E. by rewrite lookup_delete_eq in E.
  - intros v r E%B23. by apply lookup_delete_Some in E as [_ E].
  - intros v g E%B24. by apply lookup_delete_Some in E as [_ E].
  - intros v r p Ev Hv Ep. destruct (decide (v = w)) as [->|Hne].
    + destruct (reach_socket b w r W Ev) as [p0 Ep0]. destruct (A23 r p0 Ep0) as (p1 & Ep1 & _). destruct (B26 r p1 Ep1) as (p2 & Ep2 & F2). rewrite Ep in Ep2. injection Ep2 as <-.
      apply F2. apply (A3 r); [|done]. by rewrite Ee.
    + apply elem_of_cons in Hv as [|Hv]; [done|]. eapply B25; [|done..]. by rewrite lookup_delete_ne.
  - intros r p Ep. destruct (A23 r p Ep) as (p1 & Ep1 & F1). destruct (B26 r p1 Ep1) as (p2 & Ep2 & F2). eauto.
Qed.

(** Closing the bridge comes to an end: with listeners that do not call back,
    finitely many steps finish it, and then no worker is connected or within its
    grace period, every socket it had is closed, every command is answered or
    has its answer in the queue of its task, and no listener is left. *)
Theorem close_ends_all b : reach grace records b -> stack b = [] ->
  exists n, let b' := drain n (close b) in
  stack b' = [] /\ peers (state b') = ∅ /\ interruptions (state b') = ∅ /\ identities (state b') = ∅ /\ pending (state b') = [] /\
  (forall w r p, peers (state b) !! w = Some r -> peer_heap b' !! r = Some p -> is_open p = false) /\
  (forall id q, requests b' !! id = Some q -> q_outcome q = None -> exists vs o, q_delivery q = (Event <$> vs) ++ [Response o]) /\
  forall c, Listeners.groups (registries b' c) = ∅.
Proof.
  intros W%reach_wf Hs. destruct (close_rest_drains [] (workers_of (state b)) (set_closed true b)) as (n & N1 & N2); [by apply (wf_fields b)|done|].
  exists n. fold (close b) in *. cbn zeta. set (b' := drain n (close b)) in *. destruct N2 as [[T M] D2 D3 D4 D5 _ D7].
  assert (Hin : forall w, reachable_worker (state b) w -> w ∈ workers_of (state b)).
  { intros w Hw. unfold workers_of. apply elem_of_elements. rewrite !elem_of_union, !elem_of_dom. unfold reachable_worker in Hw. tauto. }
  assert (Hno : forall w, ~ reachable_worker (state b') w).
  { intros w [[r E]|[g E]]; [pose proof (D3 w r E) as E'|pose proof (D4 w g E) as E']; simpl in E'; (destruct (D2 w) as [F1 F2]; [apply Hin; unfold reachable_worker; eauto|congruence]). }
  assert (Hp : pending (state b') = []).
  { destruct (pending (state b')) as [|id l] eqn:Ep; [done|]. destruct (m_waiting _ _ M id) as (q & _ & _ & [|Hq]); [rewrite Ep; left|done|]. by apply Hno in Hq. }
  split_and!; try done.
  - apply map_empty. intros w. destruct (peers (state b') !! w) eqn:E; [|done]. destruct (Hno w). left. eauto.
  - apply map_empty. intros w. destruct (interruptions (state b') !! w) eqn:E; [|done]. destruct (Hno w). right. eauto.
  - apply map_empty. intros w. destruct (identities (state b') !! w) eqn:E; [|done]. destruct (Hno w). apply (t_identities _ T). eauto.
  - intros w r p Ew Ep. unfold is_open. rewrite (D5 w r p Ew); [done| |done]. apply Hin. left. eauto.
  - intros id q E Ho. pose proof (m_sound _ _ M id q E) as [_ Hq]. rewrite Ho in Hq. destruct Hq as (vs & _ & _ & D). unfold waits in D. rewrite Hp in D.
    rewrite bool_decide_eq_false_2 in D by apply not_elem_of_nil. destruct D as [o D]. eauto.
Qed.
End safety.

(** ** A run

    A worker connects, is sent a command, reports an event and answers. *)
Module Sample.
#[local] Existing Instance WireRead.Sample.numbers.
Abbreviation head := SampleHeader.t.
#[local] Instance contracts : Contracts (HS := head) := {
  from_str _ := None; parse_schema _ v := Some v; as_u64 _ := None; channel _ := "frame"%string }.
Abbreviation bridge := (Bridge.Bridge (HL := head) (HT := head) (HS := head)).
Abbreviation op := (Op (HL := head) (HT := head) (HS := head)).
Abbreviation go := (exec 10 true).

Definition id : units := [49].
Definition first_process : Continuity := MkContinuity "owner" "credential" "1".
Definition second_process : Continuity := MkContinuity "owner" "credential" "2".
Definition answer : Value := Object [(lit "requestId", String_ id); (lit "ok", Bool true); (lit "result", Bool false)].

Definition b1 : bridge := go (OConnect first_process true) new.
Definition b2 : bridge := go (OAttach "w" 0 (Some [82])) b1.
Definition b3 : bridge := go (ORequest "w" id (Object [(lit "type", String_ (lit "chat.turn"))]) (Some 100) true 0) b2.
Definition b4 : bridge := go (OEvent "w" 0 id Null 5) b3.
Definition b5 : bridge := go (OResponse "w" 0 answer) b4.
Definition b6 : bridge := go (OTake id) b5.
Definition b7 : bridge := go (OHandled id None) b6.
Definition b8 : bridge := go (OTake id) b7.
Definition c4 : bridge := go (OConnect second_process true) b3.

Definition command (b : bridge) : Pending := default (MkPending "" [] [] None false (CommandDeadline.new 0 None) false Ended [] []) (requests b !! id).

Abbreviation runs := (reach (HL := head) (HT := head) (HS := head) 10 true).
Abbreviation next := (reach_step 10 true).
Lemma runs2 : runs b2.
Proof. exact (next (OAttach "w" 0 (Some [82])) b1 (next (OConnect first_process true) new (reach_new 10 true) I) I). Qed.
Lemma runs3 : runs b3.
Proof. refine (next (ORequest "w" id _ (Some 100) true 0) b2 runs2 _). reflexivity. Qed.
Lemma runs4 : runs b4.
Proof. exact (next (OEvent "w" 0 id Null 5) b3 runs3 I). Qed.
Lemma runs7 : runs b7.
Proof. exact (next (OHandled id None) b6 (next (OTake id) b5 (next (OResponse "w" 0 answer) b4 runs4 I) I) I). Qed.
Lemma runs8 : runs b8.
Proof. exact (next (OTake id) b7 runs7 I). Qed.
Lemma runs_c4 : runs c4.
Proof. exact (next (OConnect second_process true) b3 runs3 I). Qed.

Lemma bridge_bookkeeping_witness : routed (counters b8) = 1 /\ routed (counters b8) = succeeded (counters b8) + failed (counters b8) + map_total unanswered (requests b8).
Proof. split; [vm_compute; reflexivity|]. apply (bridge_bookkeeping 10 true b8 runs8). Defined.

Lemma command_at b : bool_decide (is_Some (requests b !! id)) = true -> requests b !! id = Some (command b).
Proof. intros [q E]%bool_decide_eq_true. unfold command. by rewrite E. Qed.

Lemma request_never_lost_witness : q_timer (command b4) = true /\ id ∈ pending (state b4).
Proof.
  split; [vm_compute; reflexivity|]. destruct (request_never_lost 10 true b4 id (command b4) runs4) as [Ht _]; [apply command_at; vm_compute; reflexivity|]. apply Ht. vm_compute. reflexivity.
Defined.

Lemma answer_final_witness : q_outcome (command b8) = Some (inr (Some (Bool false))) /\
  exists q', requests (go (ODisconnect "w" "gone" 1000) b8) !! id = Some q' /\ q_outcome q' = Some (inr (Some (Bool false))).
Proof.
  assert (Ho : q_outcome (command b8) = Some (inr (Some (Bool false)))) by reflexivity. split; [exact Ho|].
  destruct (answer_final 10 true (ODisconnect "w" "gone" 1000) b8 id (command b8) runs8 I) as (q' & E & _ & Hq & _); [apply command_at; vm_compute; reflexivity|].
  exists q'. split; [exact E|]. apply Hq, Ho.
Defined.

Lemma events_before_answer_witness : length (q_arrived (command b7)) = 1%nat /\ q_handled (command b7) = q_arrived (command b7).
Proof.
  split; [vm_compute; reflexivity|]. destruct (events_before_answer 10 true b7 id (command b7) runs7) as (_ & _ & Ht); [apply command_at; vm_compute; reflexivity|].
  destruct (Ht (inr (Some (Bool false))) []) as [E _]; [reflexivity..|exact E].
Defined.

Lemma reconnect_continuity_witness : exists q', requests (attach "w" 1 None c4) !! id = Some q' /\
  q_outcome q' = Some (inl (unavailable "Worker w continuity identity changed.")).
Proof.
  destruct (reconnect_continuity 10 true "w" 1 (with_continuity second_process true) None c4 runs_c4) as [_ Hr]; [vm_compute; reflexivity..|].
  destruct Hr as (_ & _ & Hq & _); [vm_compute; reflexivity|by vm_compute|]. apply (Hq id (command c4)); [apply command_at; vm_compute; reflexivity|vm_compute; reflexivity|].
  apply list_elem_of_In. vm_compute. by left.
Defined.

Lemma grace_period_witness : is_connected b3 "w" = true /\ is_connected (interrupted 10 "w" 0 b3) "w" = false.
Proof.
  split; [vm_compute; reflexivity|]. destruct (grace_period 10 true "w" 0 b3 runs3) as (_ & _ & Hc & _); [vm_compute; reflexivity|done|exact Hc].
Defined.

Lemma close_ends_all_witness : exists n, stack (drain n (close b3)) = [] /\ pending (state (drain n (close b3))) = [].
Proof. destruct (close_ends_all 10 true b3 runs3) as (n & Hs & _ & _ & _ & Hp & _); [reflexivity|]. by exists n. Defined.
End Sample.
End BridgeSafety.
