(* ===== verification/Authority.v ===== *)
(** * The WorkerLink authority

    [Authority] models the coordinator of src/cantrip_server_rs/src/worker_links:
    mod.rs, sessions.rs, grants.rs, peers.rs, lifecycle.rs and native.rs. It opens
    sessions of a client with a worker, issues grants and peer sessions within
    them, renews their leases, fences and revokes them, and keeps the mailbox of
    a peer session. A grant is kept without its lanes, operations and secret.

    An operation runs until it awaits an answer of the worker; what it does then
    is its [Task], and [exec] lets the tasks, new operations, notifications and
    revocations interleave at every such point. JSON values with the fields the
    code reads are records. The generated contracts refuse a value (class
    [Contracts]) or answer it with its identifiers trimmed ([checked_session],
    [checked_grant], [checked_peer], [checked_resolved]): the keys the code
    computes before a check are those of the text as it was given. Times are integers of milliseconds. Shared objects
    ([Arc<Mutex<_>>]) are numbers into heaps. *)
From S2P Require Import Prelude JsString.
From stdpp Require Import base numbers strings gmap option list.
Open Scope Z_scope.

Module Authority.
Import Text JsString.

(** ** Keys *)

Definition key (parts : list units) : units := concat ((fun p => decimal (len p) ++ [58] ++ p) <$> parts).

Record Identity := MkIdentity {
  server_id : units;
  server_generation : units;
  owner_id : units;
  account_session_id : units;
  client_instance_id : units;
  worker_id : units;
  worker_process_generation : units
}.

Definition identity_key (i : Identity) : units :=
  key [server_id i; server_generation i; owner_id i; account_session_id i; client_instance_id i; worker_id i; worker_process_generation i].
Definition resource_key (owner kind resource : units) : units := key [owner; kind; resource].

(** ** Leases *)

Record Lease := MkLease { issued_at : Z; expires_at : Z; absolute_expires_at : Z }.

Definition iso (at_ : Z) : option Z := if Z.abs at_ <=? 8640000000000000 then Some at_ else None.

(** ** Values *)

Record Session := MkSession {
  session_id : units;
  identity : Identity;
  lease : Lease;
  enabled : list units;
  route_generation : Z;
  preferred_route : units
}.

Record Grant := MkGrant {
  grant_id : units;
  grant_generation : Z;
  g_session : units;
  g_identity : Identity;
  g_kind : units;
  g_resource : units;
  g_attachment : units;
  max_channels : Z;
  g_lease : Lease
}.

Record PeerSession := MkPeerSession {
  peer_session_id : units;
  p_session : units;
  p_identity : Identity;
  p_generation : Z;
  p_route : units;
  p_lease : Lease
}.

(** A signal or a candidate advertisement: its number and the rest of it. *)
Record Letter := MkLetter { number : Z; content : units }.
#[export] Instance letter_eq_dec : EqDecision Letter.
Proof. solve_decision. Defined.

Record PeerState := MkPeerState {
  p_ready : bool;
  peer : PeerSession;
  signals : list Letter;
  advertisements : list Letter;
  last_client : Z;
  last_worker : Z;
  last_advertisement : Z;
  turn : bool                         (* [signal_queue] is held *)
}.

Record SessionState := MkSessionState {
  ready : bool;
  session : Session;
  grants : list (units * nat);
  peers : list (units * nat)
}.

(** ** Options and contracts *)

Record PeerConfiguration := MkPeerConfiguration {
  relay_only : bool;
  direct_routes : units -> option bool;
  max_per_client : Z;
  max_per_worker : Z
}.
Record Options := MkOptions {
  o_server_id : units;
  o_server_generation : units;
  peer_configuration : option PeerConfiguration;
  session_lease_ms : Z;
  session_lifetime_ms : Z;
  max_active_sessions : Z
}.

Class Contracts := {
  accepts_lease : Lease -> bool;
  accepts_session : Session -> bool;
  accepts_grant : Grant -> bool;
  accepts_peer : PeerSession -> bool;
  mailbox_size : list Letter -> list Letter -> Z
}.

(** The identifiers a contract answers are trimmed. *)
Definition trimmed (i : Identity) : Identity :=
  MkIdentity (trim (server_id i)) (trim (server_generation i)) (trim (owner_id i)) (trim (account_session_id i)) (trim (client_instance_id i)) (trim (worker_id i))
    (trim (worker_process_generation i)).

Definition checked_session `{Contracts} (v : Session) : option Session :=
  if accepts_session v then Some (MkSession (session_id v) (trimmed (identity v)) (lease v) (enabled v) (route_generation v) (preferred_route v)) else None.
Definition checked_grant `{Contracts} (g : Grant) : option Grant :=
  if accepts_grant g
  then Some (MkGrant (grant_id g) (grant_generation g) (g_session g) (trimmed (g_identity g)) (g_kind g) (trim (g_resource g)) (trim (g_attachment g)) (max_channels g) (g_lease g))
  else None.
Definition checked_peer `{Contracts} (p : PeerSession) : option PeerSession :=
  if accepts_peer p then Some (MkPeerSession (peer_session_id p) (p_session p) (trimmed (p_identity p)) (p_generation p) (p_route p) (p_lease p)) else None.

(** ** State *)

Inductive Scope :=
| Owner (o : units)
| AccountSession (a : units)
| Resource (o kind resource : units) (attachment : option units).

Inductive Item := IPeer (s p : units) | IGrant (s g : units) | ISession (s : units).

Record OpenInput := MkOpenInput { i_owner : units; i_account : units; i_client : units; i_worker : units }.
(** [absoluteExpiresAt]: absent, null or empty; a date; or no date. *)
Inductive Lifetime := Unlimited | Until (at_ : Z) | NotADate.
Record GrantInput := MkGrantInput {
  n_session : units; n_kind : units; n_resource : units; n_attachment : units;
  n_lifetime : Lifetime; n_lease_ms : option Z; n_max_channels : option Z
}.
Record Signal := MkSignal { e_session : units; e_peer : units; e_generation : Z; e_route : units; e_letter : Letter }.

(** What an operation does once expired leases were swept. *)
Inductive After :=
| Nothing
| ThenOpen (i : OpenInput)
| ThenRenew (s : units) (duration : option Z)
| ThenRoute (s route : units)
| ThenGrant (i : GrantInput)
| ThenRenewGrant (s g : units) (duration : option Z)
| ThenPeer (s route : units) (generation : Z).

Inductive Task :=
| Sweeping (items : list Item) (after : After)
| Resolving (i : OpenInput)
| Starting (i : Identity) (marker : nat)
| Replacing (i : Identity) (marker : nat) (ids : list units)
| Installing (i : Identity) (marker : nat) (s : units) (r : nat)
| OpenRefused (i : Identity) (marker : nat)
| RenewingSession (s : units) (r : nat) (duration : Z) (l : Lease)
| RenewingPeers (s : units) (r : nat) (duration : Z) (l : Lease) (ps : list nat)
| RenewingPeer (s : units) (r : nat) (duration : Z) (l : Lease) (p : nat) (pl : Lease) (ps : list nat)
| Routing (s : units) (r : nat) (route : units) (generation : Z)
| RevokingPeers (s : units) (ps : list units)
| InstallingGrant (s : units) (r : nat) (g : units) (gr : nat) (k : units)
| RenewingGrant (s : units) (r : nat) (g : units) (gr : nat) (l : Lease)
| StartingPeer (r : nat) (route round : units) (marker : nat)
| InstallingPeer (s : units) (r : nat) (p : units) (pr : nat) (generation : Z) (round : units) (marker : nat)
| PeerRefused (round : units) (marker : nat)
| AwaitingTurn (e : Signal) (r : nat) (pr : nat)
| Signalling (e : Signal) (r : nat) (pr : nat)
| Fenced (sc : Scope)
| Revoking (sc : Scope) (targets : list Item)
| RevokingSessions (ids : list units)
| Closing (ids : list units).

Inductive Command :=
| SessionInstall (s : units) | SessionRevoke (s : units) | SessionRenew (s : units) (l : Lease) | SessionRoute (s : units) (generation : Z) (route : units)
| GrantInstall (s g : units) | GrantRevoke (s g : units) | GrantRenew (s g : units) (l : Lease)
| PeerInstall (p : units) | PeerRevoke (s p : units) | PeerRenew (s p : units) (l : Lease) | PeerSignal (e : Signal).

(** What callers and workers are told. *)
Inductive Entry :=
| Told (worker : units) (c : Command)
| Opened (s : Session)
| Granted (g : Grant)
| Paired (p : PeerSession)
| Done
| Refused (why : string).

Record State := MkState {
  closed : bool;
  sessions : list (units * nat);
  identities : gmap units units;
  opening : gmap units nat;
  opening_peers : gmap units nat;
  owner_fences : gmap units Z;
  account_fences : gmap units Z;
  resource_fences : gmap units Z;
  native_workers : list units;
  session_heap : gmap nat SessionState;
  grant_heap : gmap nat Grant;
  peer_heap : gmap nat PeerState;
  tasks : gmap nat Task;
  log : list Entry;
  fresh : nat
}.

Definition set_closed x s := MkState x (sessions s) (identities s) (opening s) (opening_peers s) (owner_fences s) (account_fences s) (resource_fences s) (native_workers s) (session_heap s) (grant_heap s) (peer_heap s) (tasks s) (log s) (fresh s).
Definition set_sessions x s := MkState (closed s) x (identities s) (opening s) (opening_peers s) (owner_fences s) (account_fences s) (resource_fences s) (native_workers s) (session_heap s) (grant_heap s) (peer_heap s) (tasks s) (log s) (fresh s).
Definition set_identities x s := MkState (closed s) (sessions s) x (opening s) (opening_peers s) (owner_fences s) (account_fences s) (resource_fences s) (native_workers s) (session_heap s) (grant_heap s) (peer_heap s) (tasks s) (log s) (fresh s).
Definition set_opening x s := MkState (closed s) (sessions s) (identities s) x (opening_peers s) (owner_fences s) (account_fences s) (resource_fences s) (native_workers s) (session_heap s) (grant_heap s) (peer_heap s) (tasks s) (log s) (fresh s).
Definition set_opening_peers x s := MkState (closed s) (sessions s) (identities s) (opening s) x (owner_fences s) (account_fences s) (resource_fences s) (native_workers s) (session_heap s) (grant_heap s) (peer_heap s) (tasks s) (log s) (fresh s).
Definition set_fences o a r s := MkState (closed s) (sessions s) (identities s) (opening s) (opening_peers s) o a r (native_workers s) (session_heap s) (grant_heap s) (peer_heap s) (tasks s) (log s) (fresh s).
Definition set_native_workers x s := MkState (closed s) (sessions s) (identities s) (opening s) (opening_peers s) (owner_fences s) (account_fences s) (resource_fences s) x (session_heap s) (grant_heap s) (peer_heap s) (tasks s) (log s) (fresh s).
Definition set_session_heap x s := MkState (closed s) (sessions s) (identities s) (opening s) (opening_peers s) (owner_fences s) (account_fences s) (resource_fences s) (native_workers s) x (grant_heap s) (peer_heap s) (tasks s) (log s) (fresh s).
Definition set_grant_heap x s := MkState (closed s) (sessions s) (identities s) (opening s) (opening_peers s) (owner_fences s) (account_fences s) (resource_fences s) (native_workers s) (session_heap s) x (peer_heap s) (tasks s) (log s) (fresh s).
Definition set_peer_heap x s := MkState (closed s) (sessions s) (identities s) (opening s) (opening_peers s) (owner_fences s) (account_fences s) (resource_fences s) (native_workers s) (session_heap s) (grant_heap s) x (tasks s) (log s) (fresh s).
Definition set_tasks x s := MkState (closed s) (sessions s) (identities s) (opening s) (opening_peers s) (owner_fences s) (account_fences s) (resource_fences s) (native_workers s) (session_heap s) (grant_heap s) (peer_heap s) x (log s) (fresh s).
Definition set_log x s := MkState (closed s) (sessions s) (identities s) (opening s) (opening_peers s) (owner_fences s) (account_fences s) (resource_fences s) (native_workers s) (session_heap s) (grant_heap s) (peer_heap s) (tasks s) x (fresh s).
Definition set_fresh x s := MkState (closed s) (sessions s) (identities s) (opening s) (opening_peers s) (owner_fences s) (account_fences s) (resource_fences s) (native_workers s) (session_heap s) (grant_heap s) (peer_heap s) (tasks s) (log s) x.

Definition new : State := MkState false [] ∅ ∅ ∅ ∅ ∅ ∅ [] ∅ ∅ ∅ ∅ [] 0.

Definition record (e : Entry) (s : State) : State := set_log (log s ++ [e]) s.
Definition tell (worker : units) (c : Command) (s : State) : State := record (Told worker c) s.
Definition refuse (why : string) (s : State) : option Task * State := (None, record (Refused why) s).

(** ** Looking up *)

Definition identity_authorized (s : State) (i : Identity) : bool :=
  bool_decide (owner_fences s !! owner_id i = None) && bool_decide (account_fences s !! account_session_id i = None).

Definition session_at (s : State) (id : units) : option (nat * SessionState) :=
  r ← IndexMap.get id (sessions s); st ← session_heap s !! r; Some (r, st).

Definition UNAVAILABLE : string := "The WorkerLink session is unavailable.".
Definition UNAUTHORIZED : string := "The WorkerLink account session is no longer authorized.".
Definition SHUTTING_DOWN : string := "The WorkerLink coordinator is shutting down.".

Definition ready_state (s : State) (id : units) : string + (nat * SessionState) :=
  match session_at s id with
  | None => inl UNAVAILABLE
  | Some (r, st) =>
      if negb (ready st) then inl UNAVAILABLE
      else if negb (identity_authorized s (identity (session st))) then inl UNAUTHORIZED
      else inr (r, st)
  end.

Definition current (s : State) (id : units) (r : nat) : bool := bool_decide (IndexMap.get id (sessions s) = Some r).

Definition update_session (r : nat) (f : SessionState -> SessionState) (s : State) : State := set_session_heap (alter f r (session_heap s)) s.
Definition update_peer (r : nat) (f : PeerState -> PeerState) (s : State) : State := set_peer_heap (alter f r (peer_heap s)) s.
Definition set_session x st := MkSessionState (ready st) x (grants st) (peers st).
Definition set_ready x st := MkSessionState x (session st) (grants st) (peers st).
Definition set_grants x st := MkSessionState (ready st) (session st) x (peers st).
Definition set_peers x st := MkSessionState (ready st) (session st) (grants st) x.
Definition set_lease l v := MkSession (session_id v) (identity v) l (enabled v) (route_generation v) (preferred_route v).
Definition set_route route generation v := MkSession (session_id v) (identity v) (lease v) (enabled v) generation route.
Definition set_grant_lease l g :=
  MkGrant (grant_id g) (grant_generation g) (g_session g) (g_identity g) (g_kind g) (g_resource g) (g_attachment g) (max_channels g) l.
Definition set_peer_lease l p := MkPeerSession (peer_session_id p) (p_session p) (p_identity p) (p_generation p) (p_route p) l.
Definition set_peer x p := MkPeerState (p_ready p) x (signals p) (advertisements p) (last_client p) (last_worker p) (last_advertisement p) (turn p).
Definition set_p_ready x p := MkPeerState x (peer p) (signals p) (advertisements p) (last_client p) (last_worker p) (last_advertisement p) (turn p).
Definition set_mail sg ad p := MkPeerState (p_ready p) (peer p) sg ad (last_client p) (last_worker p) (last_advertisement p) (turn p).
Definition set_last_client x p := MkPeerState (p_ready p) (peer p) (signals p) (advertisements p) x (last_worker p) (last_advertisement p) (turn p).
Definition set_turn x p := MkPeerState (p_ready p) (peer p) (signals p) (advertisements p) (last_client p) (last_worker p) (last_advertisement p) x.

Definition worker_of (s : State) (r : nat) : option units := (fun st => worker_id (identity (session st))) <$> session_heap s !! r.

(** ** Revocation: lifecycle.rs *)

Definition remove_session (id : units) (expected : nat) (s : State) : State :=
  if negb (current s id expected) then s
  else
    match session_heap s !! expected with
    | None => s
    | Some st =>
        let left_ := IndexMap.shift_remove id (sessions s) in
        let k := identity_key (identity (session st)) in
        let worker := worker_id (identity (session st)) in
        let s := set_sessions left_ s in
        let s := if bool_decide (identities s !! k = Some id) then set_identities (delete k (identities s)) s else s in
        let s := update_session expected (fun st => set_peers [] (set_grants [] st)) s in
        if existsb (fun p => bool_decide (worker_of s p.2 = Some worker)) left_ then s
        else set_native_workers (filter (fun w => w <> worker) (native_workers s)) s
    end.

Definition revoke_session (id : units) (s : State) : bool * State :=
  match session_at s id with
  | None => (false, s)
  | Some (r, st) => (true, tell (worker_id (identity (session st))) (SessionRevoke id) (remove_session id r s))
  end.

Definition revoke_grant (id g : units) (s : State) : bool * State :=
  match session_at s id with
  | None => (false, s)
  | Some (r, st) =>
      match IndexMap.get g (grants st) with
      | None => (false, s)
      | Some _ =>
          (true, tell (worker_id (identity (session st))) (GrantRevoke id g)
                   (update_session r (fun st => set_grants (IndexMap.shift_remove g (grants st)) st) s))
      end
  end.

Definition revoke_peer (id p : units) (s : State) : bool * State :=
  match session_at s id with
  | None => (false, s)
  | Some (r, st) =>
      match IndexMap.get p (peers st) with
      | None => (false, s)
      | Some _ =>
          (true, tell (worker_id (identity (session st))) (PeerRevoke id p)
                   (update_session r (fun st => set_peers (IndexMap.shift_remove p (peers st)) st) s))
      end
  end.

Definition revoke_item (i : Item) (s : State) : State :=
  match i with
  | IPeer id p => (revoke_peer id p s).2
  | IGrant id g => (revoke_grant id g s).2
  | ISession id => (revoke_session id s).2
  end.

(** The sessions of the table with their states, and those that satisfy a test. *)
Definition entries (s : State) : list (units * SessionState) :=
  omap (fun p => (fun st => (p.1, st)) <$> session_heap s !! p.2) (sessions s).
Definition sessions_where (test : Session -> bool) (s : State) : list units :=
  (filter (fun p => test (session p.2) = true) (entries s)).*1.

(** [sweep_expired]: the expired peers, then the grants, then the sessions. *)
Definition expired (now : Z) (l : Lease) : bool := expires_at l <=? now.
Definition live (now : Z) (s : State) : list (units * SessionState) := filter (fun p => expired now (lease (session p.2)) = false) (entries s).
Definition expired_items (now : Z) (s : State) : list Item :=
  (live now s ≫= fun p => (fun q => IPeer p.1 q.1) <$>
     filter (fun q => from_option (fun x => expired now (p_lease (peer x))) false (peer_heap s !! q.2) = true) (peers p.2)) ++
  (live now s ≫= fun p => (fun q => IGrant p.1 q.1) <$>
     filter (fun q => from_option (fun x => expired now (g_lease x)) false (grant_heap s !! q.2) = true) (grants p.2)) ++
  (ISession <$> sessions_where (fun v => expired now (lease v)) s).

Definition bump (k : units) (m : gmap units Z) : gmap units Z := <[k := default 0 (m !! k) + 1]> m.
Definition unbump (k : units) (m : gmap units Z) : gmap units Z :=
  match m !! k with
  | Some n => if n - 1 =? 0 then delete k m else <[k := n - 1]> m
  | None => m
  end.

Definition fence (sc : Scope) (s : State) : State :=
  match sc with
  | Owner o => set_fences (bump o (owner_fences s)) (account_fences s) (resource_fences s) s
  | AccountSession a => set_fences (owner_fences s) (bump a (account_fences s)) (resource_fences s) s
  | Resource o kind resource _ => set_fences (owner_fences s) (account_fences s) (bump (resource_key o kind resource) (resource_fences s)) s
  end.
Definition drop_fence (sc : Scope) (s : State) : State :=
  match sc with
  | Owner o => set_fences (unbump o (owner_fences s)) (account_fences s) (resource_fences s) s
  | AccountSession a => set_fences (owner_fences s) (unbump a (account_fences s)) (resource_fences s) s
  | Resource o kind resource _ => set_fences (owner_fences s) (account_fences s) (unbump (resource_key o kind resource) (resource_fences s)) s
  end.

(** Whether a grant is of the resource, and of the attachment if one is named. *)
Definition bound_to (kind resource : units) (attachment : option units) (g : Grant) : bool :=
  bool_decide (g_kind g = kind) && bool_decide (g_resource g = resource) &&
  match attachment with None => true | Some a => bool_decide (g_attachment g = a) end.

Definition targets (sc : Scope) (s : State) : list Item :=
  match sc with
  | Owner o => ISession <$> sessions_where (fun v => bool_decide (owner_id (identity v) = o)) s
  | AccountSession a => ISession <$> sessions_where (fun v => bool_decide (account_session_id (identity v) = a)) s
  | Resource o kind resource attachment =>
      filter (fun p => owner_id (identity (session p.2)) = o) (entries s) ≫= fun p => (fun q => IGrant p.1 q.1) <$>
        filter (fun q => from_option (bound_to kind resource attachment) false (grant_heap s !! q.2) = true) (grants p.2)
  end.

(** ** Operations *)

Section coordinator.
Context {contracts : Contracts} (options : Options).
(** Fresh identifiers. *)
Context (uuid : nat -> units).
(** Whether the coordinator is bound to a worker transport. *)
Context (bridged : bool).

(** [lease]: the lease renewed for a duration, within its parent. *)
Definition renewed (current : Lease) (duration now : Z) (parent : option Z) : string + Lease :=
  let expiry := Z.min (Z.min (absolute_expires_at current) (default (absolute_expires_at current) parent)) (now + Z.max duration 1) in
  if expiry <=? now then inl "The WorkerLink lease has expired."%string
  else
    match iso expiry with
    | None => inl "Invalid time value"%string
    | Some expiry =>
        let l := MkLease (issued_at current) expiry (absolute_expires_at current) in
        if accepts_lease l then inr l else inl "Invalid lease"%string
    end.

(** *** Opening a session: sessions.rs *)

Definition finish_open (i : Identity) (marker : nat) (s : State) : State :=
  let k := identity_key i in
  if bool_decide (opening s !! k = Some marker) then set_opening (delete k (opening s)) s else s.
Definition refuse_open (i : Identity) (marker : nat) (why : string) (s : State) : option Task * State :=
  refuse why (finish_open i marker s).

(** The answer of the worker to an identity question. *)
Record Resolved := MkResolved { r_server : units; r_owner : units; r_worker : units; r_generation : units }.
Definition checked_resolved (a : Resolved) : Resolved := MkResolved (trim (r_server a)) (trim (r_owner a)) (trim (r_worker a)) (trim (r_generation a)).

Definition open_resolved (i : OpenInput) (a : Resolved) (s : State) : option Task * State :=
  let a := checked_resolved a in
  if negb (bool_decide (r_server a = o_server_id options) && bool_decide (r_owner a = i_owner i) && bool_decide (r_worker a = i_worker i))
  then refuse "WorkerLink identity resolution did not match the authorized worker." s
  else
    let x := MkIdentity (o_server_id options) (o_server_generation options) (i_owner i) (i_account i) (i_client i) (i_worker i) (r_generation a) in
    let k := identity_key x in
    let existing := id ← identities s !! k; '(_, st) ← session_at s id; if ready st then Some (session st) else None in
    match existing with
    | Some v => (None, record (Opened v) s)
    | None =>
        match opening s !! k with
        | Some _ => (None, s)
        | None =>
            if max_active_sessions options <=? len (sessions s) + Z.of_nat (size (opening s))
            then refuse "The WorkerLink session limit has been reached." s
            else (Some (Starting x (fresh s)), set_fresh (S (fresh s)) (set_opening (<[k := fresh s]> (opening s)) s))
        end
    end.

Definition LOCAL : units := lit "local".
Definition LAN : units := lit "lan".
Definition WAN : units := lit "wan".
Definition RELAY : units := lit "relay".
Definition enabled_routes : list units :=
  let direct route := match peer_configuration options with Some c => direct_routes c route | None => None end in
  (if match peer_configuration options with Some c => relay_only c | None => false end then []
   else (if bool_decide (direct LOCAL = Some false) then [] else [LOCAL]) ++
        (if bool_decide (direct LAN = Some true) then [LAN] else []) ++
        (if bool_decide (direct WAN = Some true) then [WAN] else [])) ++ [RELAY].

(** The session value, if its times and its contract allow it. *)
Definition new_session (id : units) (i : Identity) (now : Z) : option Session :=
  let absolute := now + Z.max (session_lifetime_ms options) 1 in
  issued ← iso now; expires ← iso (Z.min absolute (now + Z.max (session_lease_ms options) 1)); last ← iso absolute;
  checked_session (MkSession id i (MkLease issued expires last) enabled_routes 1 (if bool_decide (LOCAL ∈ enabled_routes) then LOCAL else RELAY)).

Definition register_worker (w : units) (s : State) : State :=
  if negb bridged || bool_decide (w ∈ native_workers s) then s else set_native_workers (native_workers s ++ [w]) s.

Definition insert_session (i : Identity) (marker : nat) (v : Session) (s : State) : option Task * State :=
  let r := fresh s in
  let s := set_fresh (S r) (set_session_heap (<[r := MkSessionState false v [] []]> (session_heap s)) s) in
  let s := set_identities (<[identity_key i := session_id v]> (identities s)) (set_sessions (IndexMap.insert (session_id v) r (sessions s)) s) in
  (Some (Installing i marker (session_id v) r), tell (worker_id i) (SessionInstall (session_id v)) (register_worker (worker_id i) s)).

Definition create_session (i : Identity) (marker : nat) (now : Z) (s : State) : option Task * State :=
  if closed s then refuse_open i marker SHUTTING_DOWN s
  else if negb (identity_authorized s i) then refuse_open i marker UNAUTHORIZED s
  else
    match new_session (uuid (fresh s)) i now with
    | None => refuse_open i marker "Invalid session" s
    | Some v => insert_session i marker v s
    end.

Definition installed (i : Identity) (marker : nat) (id : units) (r : nat) (ack : bool) (s : State) : option Task * State :=
  if negb ack then refuse_open i marker "Worker did not acknowledge worker-link.session.install." (remove_session id r s)
  else if current s id r && identity_authorized s i then
    let s := update_session r (set_ready true) s in
    (None, match session_heap s !! r with Some st => record (Opened (session st)) (finish_open i marker s) | None => finish_open i marker s end)
  else (Some (OpenRefused i marker), tell (worker_id i) (SessionRevoke id) s).

(** *** Renewal and routes *)

Definition renew_session (id : units) (duration : option Z) (now : Z) (s : State) : option Task * State :=
  match ready_state s id with
  | inl why => refuse why s
  | inr (r, st) =>
      let duration := default (session_lease_ms options) duration in
      match renewed (lease (session st)) duration now None with
      | inl why => refuse why s
      | inr l => (Some (RenewingSession id r duration l), tell (worker_id (identity (session st))) (SessionRenew id l) s)
      end
  end.

Definition session_renewed (id : units) (r : nat) (duration : Z) (l : Lease) (ack : bool) (s : State) : option Task * State :=
  if negb ack then refuse "Worker did not acknowledge worker-link.session.renew." s
  else if negb (current s id r) then refuse "The WorkerLink session was revoked during renewal." s
  else
    match session_heap s !! r with
    | None => (None, s)
    | Some st =>
        match checked_session (set_lease l (session st)) with
        | Some v => (Some (RenewingPeers id r duration l (IndexMap.values (peers st))), update_session r (set_session v) s)
        | None => refuse "Invalid session" s
        end
    end.

Definition renew_peers (id : units) (r : nat) (duration : Z) (l : Lease) (ps : list nat) (now : Z) (s : State) : option Task * State :=
  match ps with
  | [] => (None, record Done s)
  | p :: ps =>
      match peer_heap s !! p with
      | None => (Some (RenewingPeers id r duration l ps), s)
      | Some x =>
          if negb (p_ready x) then (Some (RenewingPeers id r duration l ps), s)
          else
            match renewed (p_lease (peer x)) duration now (Some (expires_at l)) with
            | inl why => refuse why s
            | inr pl =>
                (Some (RenewingPeer id r duration l p pl ps),
                 match worker_of s r with Some w => tell w (PeerRenew id (peer_session_id (peer x)) pl) s | None => s end)
            end
      end
  end.

(** The session still has this peer. *)
Definition has_peer (s : State) (r : nat) (id : units) (p : nat) : bool :=
  match session_heap s !! r with Some st => bool_decide (IndexMap.get id (peers st) = Some p) | None => false end.
Definition has_grant (s : State) (r : nat) (id : units) (g : nat) : bool :=
  match session_heap s !! r with Some st => bool_decide (IndexMap.get id (grants st) = Some g) | None => false end.

Definition peer_renewed (id : units) (r : nat) (duration : Z) (l : Lease) (p : nat) (pl : Lease) (ps : list nat) (ack : bool) (s : State) : option Task * State :=
  match peer_heap s !! p with
  | None => (Some (RenewingPeers id r duration l ps), s)
  | Some x =>
      let pid := peer_session_id (peer x) in
      if ack then
        if has_peer s r pid p then
          match checked_peer (set_peer_lease pl (peer x)) with
          | Some v => (Some (RenewingPeers id r duration l ps), update_peer p (set_peer v) s)
          | None => refuse "Invalid peer" s
          end
        else (Some (RenewingPeers id r duration l ps), s)
      else
        (Some (RenewingPeers id r duration l ps),
         let s := update_session r (fun st => set_peers (IndexMap.shift_remove pid (peers st)) st) s in
         match worker_of s r with Some w => tell w (PeerRevoke id pid) s | None => s end)
  end.

Definition replace_route (id route : units) (s : State) : option Task * State :=
  match ready_state s id with
  | inl why => refuse why s
  | inr (r, st) =>
      if bool_decide (preferred_route (session st) = route) then (None, record Done s)
      else if negb (bool_decide (route ∈ enabled (session st))) then refuse "The requested WorkerLink route is not enabled." s
      else
        let generation := route_generation (session st) + 1 in
        (Some (Routing id r route generation), tell (worker_id (identity (session st))) (SessionRoute id generation route) s)
  end.

Definition route_replaced (id : units) (r : nat) (route : units) (generation : Z) (ack : bool) (s : State) : option Task * State :=
  if negb ack then refuse "Worker did not acknowledge worker-link.session.route." s
  else if negb (current s id r) then refuse "The WorkerLink session was revoked during route replacement." s
  else
    match session_heap s !! r with
    | None => (None, s)
    | Some st =>
        match checked_session (set_route route generation (session st)) with
        | Some v => (Some (RevokingPeers id (IndexMap.keys (peers st))), update_session r (set_session v) s)
        | None => refuse "Invalid session" s
        end
    end.

(** *** Grants: grants.rs *)

Definition MAX_GRANTS : Z := 128.

Definition prepare_grant (n : GrantInput) (now : Z) (s : State) : string + (nat * Session * units * Grant) :=
  match ready_state s (n_session n) with
  | inl why => inl why
  | inr (r, st) =>
      let v := session st in
      let k := resource_key (owner_id (identity v)) (n_kind n) (n_resource n) in
      if bool_decide (is_Some (resource_fences s !! k)) then inl "The WorkerLink resource is being revoked."%string
      else if MAX_GRANTS <=? len (grants st) then inl "The WorkerLink grant limit has been reached."%string
      else
        match n_lifetime n with
        | NotADate => inl "The WorkerLink resource lifetime is invalid."%string
        | _ =>
            let last := match n_lifetime n with Until at_ => Z.min (absolute_expires_at (lease v)) at_ | _ => absolute_expires_at (lease v) end in
            if last <=? now then inl "The WorkerLink resource lifetime has expired."%string
            else
              let expiry := Z.min (Z.min (expires_at (lease v)) last) (now + Z.max (default 60000 (n_lease_ms n)) 1) in
              match iso now, iso expiry, iso last with
              | Some issued, Some expiry, Some last =>
                  let l := MkLease issued expiry last in
                  let g := MkGrant (uuid (fresh s)) 1 (n_session n) (identity v) (n_kind n) (n_resource n) (n_attachment n)
                             (Z.min (default 4 (n_max_channels n)) 64) l in
                  if accepts_lease l then match checked_grant g with Some g => inr (r, v, k, g) | None => inl "Invalid grant"%string end
                  else inl "Invalid lease"%string
              | _, _, _ => inl "Invalid time value"%string
              end
        end
  end.

Definition issue_grant (n : GrantInput) (now : Z) (s : State) : option Task * State :=
  match prepare_grant n now s with
  | inl why => refuse why s
  | inr (r, v, k, g) =>
      let gr := fresh s in
      let s := set_fresh (S gr) (set_grant_heap (<[gr := g]> (grant_heap s)) s) in
      let s := update_session r (fun st => set_grants (IndexMap.insert (grant_id g) gr (grants st)) st) s in
      (Some (InstallingGrant (n_session n) r (grant_id g) gr k), tell (worker_id (identity v)) (GrantInstall (n_session n) (grant_id g)) s)
  end.

Definition grant_installed (id : units) (r : nat) (g : units) (gr : nat) (k : units) (ack : bool) (s : State) : option Task * State :=
  if negb ack then
    refuse "Worker did not acknowledge worker-link.grant.install."
      (if has_grant s r g gr then update_session r (fun st => set_grants (IndexMap.shift_remove g (grants st)) st) s else s)
  else if current s id r && has_grant s r g gr && bool_decide (resource_fences s !! k = None) then
    (None, match grant_heap s !! gr with Some x => record (Granted x) s | None => s end)
  else
    refuse "The WorkerLink grant was revoked while it was being installed."
      (match worker_of s r with Some w => tell w (GrantRevoke id g) s | None => s end).

Definition renew_grant (id g : units) (duration : option Z) (now : Z) (s : State) : option Task * State :=
  match ready_state s id with
  | inl why => refuse why s
  | inr (r, st) =>
      match gr ← IndexMap.get g (grants st); x ← grant_heap s !! gr; Some (gr, x) with
      | None => refuse "The WorkerLink grant is missing." s
      | Some (gr, x) =>
          match renewed (g_lease x) (default 60000 duration) now (Some (expires_at (lease (session st)))) with
          | inl why => refuse why s
          | inr l => (Some (RenewingGrant id r g gr l), tell (worker_id (identity (session st))) (GrantRenew id g l) s)
          end
      end
  end.

Definition grant_renewed (id : units) (r : nat) (g : units) (gr : nat) (l : Lease) (ack : bool) (s : State) : option Task * State :=
  if negb ack then refuse "Worker did not acknowledge worker-link.grant.renew." s
  else if negb (current s id r && has_grant s r g gr) then refuse "The WorkerLink grant was revoked during renewal." s
  else
    match grant_heap s !! gr with
    | None => (None, s)
    | Some x =>
        match checked_grant (set_grant_lease l x) with
        | Some x => (None, record Done (set_grant_heap (<[gr := x]> (grant_heap s)) s))
        | None => refuse "Invalid grant" s
        end
    end.

(** *** Peers: peers.rs *)

Definition peer_round (id : units) (generation : Z) (route : units) : units := id ++ [58] ++ decimal generation ++ [58] ++ route.

Definition open_peer (id route : units) (generation : Z) (s : State) : option Task * State :=
  match ready_state s id with
  | inl why => refuse why s
  | inr (r, st) =>
      match peer_configuration options with
      | Some c =>
          if relay_only c || negb (bool_decide (direct_routes c route = Some true)) then refuse "The requested WorkerLink peer route is disabled." s
          else if negb (generation =? route_generation (session st)) then refuse "The WorkerLink peer route generation is stale." s
          else
            match filter (fun x => p_ready x = true /\ p_route (peer x) = route /\ p_generation (peer x) = generation) (omap (fun p => peer_heap s !! p) (IndexMap.values (peers st))) with
            | x :: _ => (None, record (Paired (peer x)) s)
            | [] =>
                let round := peer_round id generation route in
                match opening_peers s !! round with
                | Some _ => (None, s)
                | None => (Some (StartingPeer r route round (fresh s)), set_fresh (S (fresh s)) (set_opening_peers (<[round := fresh s]> (opening_peers s)) s))
                end
            end
      | None => refuse "The requested WorkerLink peer route is disabled." s
      end
  end.

Definition finish_peer (round : units) (marker : nat) (s : State) : State :=
  if bool_decide (opening_peers s !! round = Some marker) then set_opening_peers (delete round (opening_peers s)) s else s.
Definition refuse_peer (round : units) (marker : nat) (why : string) (s : State) : option Task * State := refuse why (finish_peer round marker s).

Definition peers_of_worker (w : units) (s : State) : Z :=
  sumZ ((fun p => if bool_decide (worker_id (identity (session p.2)) = w) then len (peers p.2) else 0) <$> entries s).

Definition prepare_peer (r : nat) (route round : units) (marker : nat) (now : Z) (s : State) : option Task * State :=
  match session_heap s !! r, peer_configuration options with
  | Some st, Some c =>
      let v := session st in
      if max_per_client c <=? len (peers st) then refuse_peer round marker "The WorkerLink client peer-session limit has been reached." s
      else if max_per_worker c <=? peers_of_worker (worker_id (identity v)) s then refuse_peer round marker "The WorkerLink worker peer-session limit has been reached." s
      else
        match iso now with
        | None => refuse_peer round marker "Invalid time value" s
        | Some issued =>
            let x := MkPeerSession (uuid (fresh s)) (session_id v) (identity v) (route_generation v) route
                       (MkLease issued (expires_at (lease v)) (absolute_expires_at (lease v))) in
            match checked_peer x with
            | None => refuse_peer round marker "Invalid peer" s
            | Some x =>
              let pr := fresh s in
              let s := set_fresh (S pr) (set_peer_heap (<[pr := MkPeerState false x [] [] (-1) (-1) (-1) false]> (peer_heap s)) s) in
              let s := update_session r (fun st => set_peers (IndexMap.insert (peer_session_id x) pr (peers st)) st) s in
              (Some (InstallingPeer (session_id v) r (peer_session_id x) pr (route_generation v) round marker),
               tell (worker_id (identity v)) (PeerInstall (peer_session_id x)) s)
            end
        end
  | _, _ => refuse_peer round marker "Missing" s
  end.

Definition peer_installed (id : units) (r : nat) (p : units) (pr : nat) (generation : Z) (round : units) (marker : nat) (ack : bool) (s : State) : option Task * State :=
  if negb ack then
    refuse_peer round marker "Worker did not acknowledge worker-link.peer.install."
      (if has_peer s r p pr then update_session r (fun st => set_peers (IndexMap.shift_remove p (peers st)) st) s else s)
  else if current s id r && has_peer s r p pr &&
      match session_heap s !! r with Some st => route_generation (session st) =? generation | None => false end then
    let s := update_peer pr (set_p_ready true) s in
    (None, match peer_heap s !! pr with Some x => record (Paired (peer x)) (finish_peer round marker s) | None => finish_peer round marker s end)
  else
    (Some (PeerRefused round marker), match worker_of s r with Some w => tell w (PeerRevoke id p) s | None => s end).

(** A signal of the client, which waits for its turn. *)
Definition NO_AUTHORITY : string := "The WorkerLink peer signal authority is unavailable.".
Definition signal_peer (e : Signal) (s : State) : option Task * State :=
  match ready_state s (e_session e) with
  | inl why => refuse why s
  | inr (r, st) =>
      match IndexMap.get (e_peer e) (peers st) with
      | None => refuse NO_AUTHORITY s
      | Some pr => (Some (AwaitingTurn e r pr), s)
      end
  end.

Definition take_turn (e : Signal) (r pr : nat) (now : Z) (s : State) : option Task * State :=
  match peer_heap s !! pr with
  | None => (None, s)
  | Some x =>
      if turn x then (Some (AwaitingTurn e r pr), s)
      else
        let valid := p_ready x && (e_generation e =? p_generation (peer x)) && bool_decide (e_route e = p_route (peer x)) && (now <? expires_at (p_lease (peer x))) in
        if negb (valid && current s (e_session e) r && has_peer s r (e_peer e) pr) then refuse NO_AUTHORITY s
        else if negb (number (e_letter e) =? last_client x + 1) then refuse "The WorkerLink peer signal sequence is invalid." s
        else if 256 <=? number (e_letter e) then
          refuse "The WorkerLink peer signal limit has been reached." (revoke_peer (e_session e) (e_peer e) s).2
        else
          (Some (Signalling e r pr),
           let s := update_peer pr (set_turn true) s in
           match worker_of s r with Some w => tell w (PeerSignal e) s | None => s end)
  end.

Definition signalled (e : Signal) (r pr : nat) (ack : bool) (s : State) : option Task * State :=
  let released := update_peer pr (set_turn false) s in
  if negb ack then refuse "Worker did not acknowledge worker-link.peer.signal." released
  else
    (None, record Done
      (if current s (e_session e) r && has_peer s r (e_peer e) pr then update_peer pr (set_last_client (number (e_letter e))) released else released)).

Definition read_peer_mailbox (id p : units) (after_signal after_advertisement : option Z) (now : Z) (s : State) : State :=
  match ready_state s id with
  | inl why => record (Refused why) s
  | inr (_, st) =>
      match pr ← IndexMap.get p (peers st); x ← peer_heap s !! pr; Some (pr, x) with
      | None => record (Refused "The WorkerLink peer mailbox is unavailable.") s
      | Some (pr, x) =>
          if negb (p_ready x) || expired now (p_lease (peer x)) then record (Refused "The WorkerLink peer mailbox is unavailable.") s
          else if from_option (fun n => last_worker x <? n) false after_signal || from_option (fun n => last_advertisement x <? n) false after_advertisement
          then record (Refused "The WorkerLink peer mailbox cursor is invalid.") s
          else
            let since (after : option Z) l := match after with Some n => filter (fun m => n < number m) l | None => l end in
            record Done (update_peer pr (set_mail (since after_signal (signals x)) (since after_advertisement (advertisements x))) s)
      end
  end.

(** A signal ([is_signal]) or an advertisement of the worker. *)
Definition add_letter (is_signal : bool) (m : Letter) (x : PeerState) : PeerState :=
  if is_signal then MkPeerState (p_ready x) (peer x) (signals x ++ [m]) (advertisements x) (last_client x) (number m) (last_advertisement x) (turn x)
  else MkPeerState (p_ready x) (peer x) (signals x) (advertisements x ++ [m]) (last_client x) (last_worker x) (number m) (turn x).

(** What a letter leads to: the mailbox with it, or a protocol violation. *)
Definition post (is_signal : bool) (worker : units) (e : Signal) (v : Session) (now : Z) (x : PeerState) : option PeerState :=
  let m := e_letter e in
  if negb (bool_decide (worker_id (identity v) = worker) && bool_decide (e_session e = p_session (peer x)) &&
           (e_generation e =? p_generation (peer x)) && bool_decide (e_route e = p_route (peer x)) && (now <? expires_at (p_lease (peer x))))
  then None
  else
    let last := if is_signal then last_worker x else last_advertisement x in
    let records := if is_signal then signals x else advertisements x in
    if number m <=? last then
      match list_find (fun m' => number m' = number m) records with
      | Some (_, m') => if bool_decide (m' = m) then Some x else None
      | None => Some x
      end
    else
      let y := add_letter is_signal m x in
      if negb (number m =? last + 1) || (256 <=? len records) || (4 * 1024 * 1024 <? mailbox_size (signals y) (advertisements y)) then None else Some y.

(** The session that has a peer of this name. *)
Definition owner_of_peer (p : units) (s : State) : option (units * Session * nat) :=
  head (omap (fun q => (fun pr => (q.1, session q.2, pr)) <$> IndexMap.get p (peers q.2)) (entries s)).

Definition receive_notification (is_signal : bool) (worker : units) (e : Signal) (now : Z) (s : State) : State :=
  match owner_of_peer (e_peer e) s with
  | None => s
  | Some (id, v, pr) =>
      match peer_heap s !! pr with
      | None => s
      | Some x =>
          match post is_signal worker e v now x with
          | Some x => set_peer_heap (<[pr := x]> (peer_heap s)) s
          | None => (revoke_peer id (e_peer e) s).2
          end
      end
  end.

Definition session_for_authorization (id owner account : units) (now : Z) (s : State) : option Session :=
  '(_, st) ← session_at s id;
  if ready st && bool_decide (owner_id (identity (session st)) = owner) && bool_decide (account_session_id (identity (session st)) = account) &&
     (now <? expires_at (lease (session st)))
  then Some (session st) else None.

(** ** Interleaving *)

Inductive Answer := Ack (ok : bool) | Names (r : Resolved).
Definition ok (a : Answer) : bool := match a with Ack b => b | Names _ => false end.

Definition begin (after : After) (now : Z) (s : State) : option Task * State :=
  match after with
  | Nothing => (None, s)
  | ThenOpen i => (Some (Resolving i), s)
  | ThenRenew id duration => renew_session id duration now s
  | ThenRoute id route => replace_route id route s
  | ThenGrant n => issue_grant n now s
  | ThenRenewGrant id g duration => renew_grant id g duration now s
  | ThenPeer id route generation => open_peer id route generation s
  end.

Definition stale_generation (i : Identity) (v : Session) : bool :=
  bool_decide (worker_id (identity v) = worker_id i) && negb (bool_decide (worker_process_generation (identity v) = worker_process_generation i)).

(** A task goes on, with the answer it waited for. *)
Definition run (t : Task) (a : Answer) (now : Z) (s : State) : option Task * State :=
  match t with
  | Sweeping (i :: items) after => (Some (Sweeping items after), revoke_item i s)
  | Sweeping [] after => begin after now s
  | Resolving i => match a with Names r => open_resolved i r s | Ack _ => refuse "Unresolved" s end
  | Starting i marker => (Some (Replacing i marker (sessions_where (stale_generation i) s)), s)
  | Replacing i marker (id :: ids) => (Some (Replacing i marker ids), (revoke_session id s).2)
  | Replacing i marker [] => create_session i marker now s
  | Installing i marker id r => installed i marker id r (ok a) s
  | OpenRefused i marker => refuse_open i marker "The WorkerLink session was revoked while it was being installed." s
  | RenewingSession id r duration l => session_renewed id r duration l (ok a) s
  | RenewingPeers id r duration l ps => renew_peers id r duration l ps now s
  | RenewingPeer id r duration l p pl ps => peer_renewed id r duration l p pl ps (ok a) s
  | Routing id r route generation => route_replaced id r route generation (ok a) s
  | RevokingPeers id (p :: ps) => (Some (RevokingPeers id ps), (revoke_peer id p s).2)
  | RevokingPeers id [] => (None, record Done s)
  | InstallingGrant id r g gr k => grant_installed id r g gr k (ok a) s
  | RenewingGrant id r g gr l => grant_renewed id r g gr l (ok a) s
  | StartingPeer r route round marker => prepare_peer r route round marker now s
  | InstallingPeer id r p pr generation round marker => peer_installed id r p pr generation round marker (ok a) s
  | PeerRefused round marker => refuse_peer round marker "The WorkerLink peer session was revoked during installation." s
  | AwaitingTurn e r pr => take_turn e r pr now s
  | Signalling e r pr => signalled e r pr (ok a) s
  | Fenced sc => (Some (Revoking sc (targets sc s)), s)
  | Revoking sc (i :: items) => (Some (Revoking sc items), revoke_item i s)
  | Revoking sc [] => (None, record Done (drop_fence sc s))
  | RevokingSessions (id :: ids) => (Some (RevokingSessions ids), (revoke_session id s).2)
  | RevokingSessions [] => (None, record Done s)
  | Closing (id :: ids) => (Some (Closing ids), (revoke_session id s).2)
  | Closing [] => (None, set_native_workers [] s)
  end.

Definition spawn (t : Task) (s : State) : State := set_fresh (S (fresh s)) (set_tasks (<[fresh s := t]> (tasks s)) s).
Definition spawn_result (x : option Task * State) : State := match x.1 with Some t => spawn t x.2 | None => x.2 end.

Inductive Op :=
| OStart (after : After) (now : Z)                      (* an operation, after its sweep *)
| OSignal (e : Signal)
| OMailbox (id p : units) (after_signal after_advertisement : option Z) (now : Z)
| ONotification (is_signal : bool) (worker : units) (e : Signal) (now : Z)
| ORevokeScope (sc : Scope)
| ORevokeSession (id : units)
| ORevokeGrant (id g : units)
| ORevokePeer (id p : units)
| ORevokeWorker (worker : units) (generation : option units)
| OClose
| OTask (i : nat) (a : Answer) (now : Z).

Definition of_worker (worker : units) (generation : option units) (v : Session) : bool :=
  bool_decide (worker_id (identity v) = worker) && match generation with None => true | Some g => bool_decide (worker_process_generation (identity v) = g) end.

(** The entry of an operation: the guards before its sweep. *)
Definition start (after : After) (now : Z) (s : State) : State :=
  let swept := spawn (Sweeping (expired_items now s) after) s in
  match after with
  | Nothing => swept
  | ThenOpen i =>
      if closed s then record (Refused SHUTTING_DOWN) s
      else if bool_decide (owner_fences s !! i_owner i = None) && bool_decide (account_fences s !! i_account i = None) then swept
      else record (Refused UNAUTHORIZED) s
  | _ => if closed s then record (Refused SHUTTING_DOWN) s else swept
  end.

Definition exec (o : Op) (s : State) : State :=
  match o with
  | OStart after now => start after now s
  | OSignal e => spawn_result (signal_peer e s)
  | OMailbox id p x y now => read_peer_mailbox id p x y now s
  | ONotification is_signal worker e now => receive_notification is_signal worker e now s
  | ORevokeScope sc => spawn (Fenced sc) (fence sc s)
  | ORevokeSession id => (revoke_session id s).2
  | ORevokeGrant id g => (revoke_grant id g s).2
  | ORevokePeer id p => (revoke_peer id p s).2
  | ORevokeWorker worker generation => spawn (RevokingSessions (sessions_where (of_worker worker generation) s)) s
  | OClose => if closed s then s else let s := set_closed true s in spawn (Closing (sessions_where (fun _ => true) s)) s
  | OTask i a now =>
      match tasks s !! i with
      | None => s
      | Some t => let '(next, s) := run t a now s in set_tasks (match next with Some t => <[i := t]> (tasks s) | None => delete i (tasks s) end) s
      end
  end.

(** What callers hand over is trimmed already: the names a request is parsed to,
    and those the server makes itself. The names [open_session] compares with the
    worker's answer need not be: an answer is trimmed, and they have to equal it. *)
Definition tidy_open (i : OpenInput) : Prop := trim (i_account i) = i_account i /\ trim (i_client i) = i_client i.
Definition tidy_grant (n : GrantInput) : Prop := trim (n_resource n) = n_resource n.
Definition tidy_after (after : After) : Prop := match after with ThenOpen i => tidy_open i | ThenGrant n => tidy_grant n | _ => True end.
Definition tidy (o : Op) : Prop := match o with OStart after _ => tidy_after after | _ => True end.

Inductive reach : State -> Prop :=
| reach_new : reach new
| reach_step o s : reach s -> tidy o -> reach (exec o s).
End coordinator.

(** ** Admissions: native.rs *)

(** The operations under way, and whether new ones are taken. *)
Record Admissions := MkAdmissions { stopping : bool; active : Z }.
Definition admission (child : bool) (x : Admissions) : bool * Admissions :=
  if negb child && stopping x then (false, x) else (true, MkAdmissions (stopping x) (active x + 1)).
Definition release_admission (x : Admissions) : Admissions := MkAdmissions (stopping x) (active x - 1).
Definition stop (x : Admissions) : Admissions := MkAdmissions true (active x).
Definition drained (x : Admissions) : bool := active x =? 0.
End Authority.
