(* ===== verification/AuthorityInv.v ===== *)
(** * The invariant of the WorkerLink authority

    [AuthorityInv] proves what [Authority] keeps true however its operations
    interleave: the tables of sessions and identities, the sessions being opened,
    and the fences of revocations under way. *)
From S2P Require Import Prelude JsString Authority.
From stdpp Require Import base numbers strings gmap option list fin_maps.
Open Scope Z_scope.

Module AuthorityInv.
Import Text JsString Authority.

(** ** Tasks *)

(** The session a task opens, with the marker of the opening. *)
Definition opening_of (t : Task) : option (Identity * nat) :=
  match t with
  | Starting i m | Replacing i m _ | Installing i m _ _ | OpenRefused i m => Some (i, m)
  | _ => None
  end.
(** ... and that is not in the table yet. *)
Definition upcoming (t : Task) : option Identity :=
  match t with Starting i _ | Replacing i _ _ => Some i | _ => None end.
(** The fence a task holds. *)
Definition fence_of (t : Task) : option Scope := match t with Fenced sc | Revoking sc _ => Some sc | _ => None end.

Definition plain (t : Task) : Prop := opening_of t = None /\ fence_of t = None.

Definition one {A} (x : option A) : Z := match x with Some _ => 1 | None => 0 end.

Definition holds_owner (o : units) (t : Task) : Z := match fence_of t with Some (Owner o') => if decide (o = o') then 1 else 0 | _ => 0 end.
Definition holds_account (a : units) (t : Task) : Z := match fence_of t with Some (AccountSession a') => if decide (a = a') then 1 else 0 | _ => 0 end.
Definition holds_resource (k : units) (t : Task) : Z :=
  match fence_of t with Some (Resource o kind r _) => if decide (k = resource_key o kind r) then 1 else 0 | _ => 0 end.

(** Sessions a revocation is about. *)
Definition covers (sc : Scope) (i : Identity) : Prop :=
  match sc with Owner o => owner_id i = o | AccountSession a => account_session_id i = a | Resource _ _ _ _ => False end.

(** ** Keys determine their parts *)

Lemma until_colon (d1 d2 r1 r2 : units) : numeral d1 -> numeral d2 -> d1 ++ 58 :: r1 = d2 ++ 58 :: r2 -> d1 = d2 /\ r1 = r2.
Proof.
  intros H1. revert d2. induction H1 as [|c d1 Hc H1 IH]; intros d2 H2 E; destruct H2 as [|c' d2 Hc' H2]; simpl in E; simplify_eq; try done.
  match goal with E : _ = _ |- _ => by destruct (IH _ H2 E) as [-> ->] end.
Qed.

Lemma key_cons p ps : key (p :: ps) = decimal (len p) ++ 58 :: p ++ key ps.
Proof. unfold key. simpl. by rewrite <- app_assoc. Qed.

Lemma key_inj ps qs : length ps = length qs -> key ps = key qs -> ps = qs.
Proof.
  revert qs. induction ps as [|p ps IH]; intros [|q qs] El E; try done. rewrite !key_cons in E.
  destruct (decimal_spec (len p)) as (Hp & _ & Vp & _); [lia|]. destruct (decimal_spec (len q)) as (Hq & _ & Vq & _); [lia|].
  destruct (until_colon _ _ _ _ Hp Hq E) as [Ed Er]. assert (length p = length q) by (rewrite Ed in Vp; lia).
  apply app_inj_1 in Er as [-> Er]; [|done]. f_equal. apply IH; [by injection El|done].
Qed.

#[export] Instance identity_key_inj : Inj (=) (=) identity_key.
Proof. intros i i' E. apply key_inj in E; [|done]. destruct i, i'. simpl in E. by simplify_eq. Qed.

(** ** Counters of fences *)

Lemma holds_owner_pos o t : 0 <= holds_owner o t.
Proof. unfold holds_owner. repeat case_match; lia. Qed.
Lemma holds_account_pos a t : 0 <= holds_account a t.
Proof. unfold holds_account. repeat case_match; lia. Qed.
Lemma holds_resource_pos k t : 0 <= holds_resource k t.
Proof. unfold holds_resource. repeat case_match; lia. Qed.

(** ** Changing a task *)

Definition retask (i : nat) (next : option Task) (s : State) : State := set_tasks (upd i next (tasks s)) s.

(** ** The invariant *)

Section inv.
Context {contracts : Contracts} (options : Options) (uuid : nat -> units) (bridged : bool).
Context {uuid_inj : Inj (=) (=) uuid} (Hmax : 0 <= max_active_sessions options).
(** The name of this run of the server is trimmed. *)
Context (Hgen : trim (o_server_generation options) = o_server_generation options).
Implicit Types (s : State) (t : Task) (st : SessionState).

(** A session of the table. *)
Definition listed s (id : units) (r : nat) st : Prop := (id, r) ∈ sessions s /\ session_heap s !! r = Some st.

(** The grants of a session are in the heap, as a contract answered them. *)
Definition neat_grant (g : Grant) : Prop := trim (g_resource g) = g_resource g /\ trim (g_attachment g) = g_attachment g.
Definition grants_stored s : Prop :=
  forall r st g gr, session_heap s !! r = Some st -> (g, gr) ∈ grants st -> exists x, grant_heap s !! gr = Some x /\ neat_grant x.

Record tables s : Prop := Tables {
  t_keys : NoDup (sessions s).*1;
  t_heap : forall id r, (id, r) ∈ sessions s -> exists st, session_heap s !! r = Some st /\ session_id (session st) = id;
  t_names : forall id, id ∈ (sessions s).*1 -> exists n, (n < fresh s)%nat /\ id = uuid n;
  t_fresh : forall r, (fresh s <= r)%nat -> session_heap s !! r = None /\ tasks s !! r = None /\ grant_heap s !! r = None;
  t_identity : forall id r st, listed s id r st -> identities s !! identity_key (identity (session st)) = Some id;
  t_back : forall k id, identities s !! k = Some id -> exists r st, listed s id r st /\ identity_key (identity (session st)) = k;
  t_grants : grants_stored s;
  t_neat : forall r st, session_heap s !! r = Some st -> trimmed (identity (session st)) = identity (session st)
}.

(** The names a task goes on with are trimmed. *)
Definition neat_task t : Prop :=
  match t with
  | Sweeping _ after => tidy_after after
  | Resolving i => tidy_open i
  | Starting i _ | Replacing i _ _ => trimmed i = i
  | _ => True
  end.

(** A task that will take the session out of the table. *)
Definition doomed s (id : units) st : Prop :=
  exists j t, tasks s !! j = Some t /\
    match t with
    | Fenced sc => covers sc (identity (session st))
    | Revoking sc items => covers sc (identity (session st)) /\ ISession id ∈ items
    | _ => False
    end.

Record opens s : Prop := Opens {
  o_marker : forall j t i m, tasks s !! j = Some t -> opening_of t = Some (i, m) -> opening s !! identity_key i = Some m;
  o_alone : forall j j' t t' i m m', tasks s !! j = Some t -> tasks s !! j' = Some t' -> opening_of t = Some (i, m) -> opening_of t' = Some (i, m') -> j = j';
  o_size : Z.of_nat (size (opening s)) = map_total (fun t => one (opening_of t)) (tasks s);
  o_limit : len (sessions s) + map_total (fun t => one (upcoming t)) (tasks s) <= max_active_sessions options;
  o_upcoming : forall j t i, tasks s !! j = Some t -> upcoming t = Some i -> identity_authorized s i = true -> identities s !! identity_key i = None;
  o_installing : forall j i m id r, tasks s !! j = Some (Installing i m id r) -> (r < fresh s)%nat /\ forall st, listed s id r st -> identity (session st) = i;
  o_unready : forall id r st, listed s id r st -> ready st = false ->
    (exists j i m, tasks s !! j = Some (Installing i m id r)) \/ doomed s id st
}.

Record fences s : Prop := Fences {
  f_owners : counted (owner_fences s) holds_owner (tasks s);
  f_accounts : counted (account_fences s) holds_account (tasks s);
  f_resources : counted (resource_fences s) holds_resource (tasks s);
  f_sessions : forall j sc items id r st, tasks s !! j = Some (Revoking sc items) -> listed s id r st -> covers sc (identity (session st)) -> ISession id ∈ items;
  f_grants : forall j o kind resource attachment items id r st g gr x, tasks s !! j = Some (Revoking (Resource o kind resource attachment) items) ->
    listed s id r st -> owner_id (identity (session st)) = o -> (g, gr) ∈ grants st -> grant_heap s !! gr = Some x ->
    bound_to kind resource attachment x = true -> IGrant id g ∈ items
}.

Record wf s : Prop := Wf { wf_tables : tables s; wf_opens : opens s; wf_fences : fences s }.

(** ** Operations that only take away *)

Definition same_session st st' : Prop :=
  session_id (session st') = session_id (session st) /\ identity (session st') = identity (session st) /\ (ready st' = false -> ready st = false).
Definition same_grant (g g' : Grant) : Prop :=
  g_kind g' = g_kind g /\ g_resource g' = g_resource g /\ g_attachment g' = g_attachment g.

(** The grants of [s'] are grants of [s], or of resources no one revokes. *)
Definition grants_from s s' : Prop := forall r st' g gr x', session_heap s' !! r = Some st' -> (g, gr) ∈ grants st' -> grant_heap s' !! gr = Some x' ->
  (exists st x, session_heap s !! r = Some st /\ (g, gr) ∈ grants st /\ grant_heap s !! gr = Some x /\ same_grant x x') \/
  resource_fences s !! resource_key (owner_id (identity (session st'))) (g_kind x') (g_resource x') = None.

Record shrinks s s' : Prop := Shrinks {
  sh_sessions : sessions s' `sublist_of` sessions s;
  sh_identities : forall k id, identities s' !! k = Some id -> identities s !! k = Some id /\ (id ∈ (sessions s).*1 -> id ∈ (sessions s').*1);
  sh_back : forall k id, identities s !! k = Some id -> id ∈ (sessions s').*1 -> identities s' !! k = Some id;
  sh_opening : opening s' = opening s;
  sh_tasks : tasks s' = tasks s;
  sh_owners : owner_fences s' = owner_fences s;
  sh_accounts : account_fences s' = account_fences s;
  sh_resources : resource_fences s' = resource_fences s;
  sh_fresh : (fresh s <= fresh s')%nat;
  sh_heap : forall r, option_Forall2 same_session (session_heap s !! r) (session_heap s' !! r);
  sh_grants : grants_from s s';
  sh_stored : grants_stored s -> grants_stored s';
  sh_new : forall gr, (fresh s' <= gr)%nat -> grant_heap s !! gr = None -> grant_heap s' !! gr = None
}.

#[export] Instance same_session_preorder : PreOrder same_session.
Proof. split; [done|]. unfold same_session. intros ???. intuition congruence. Qed.
#[export] Instance same_grant_preorder : PreOrder same_grant.
Proof. split; [done|]. unfold same_grant. intros ???. intuition congruence. Qed.

Lemma sh_forward s s' r st : shrinks s s' -> session_heap s !! r = Some st -> exists st', session_heap s' !! r = Some st' /\ same_session st st'.
Proof. intros S E. pose proof (sh_heap _ _ S r) as H. rewrite E in H. inversion H; subst. eauto. Qed.
Lemma sh_backward s s' r st' : shrinks s s' -> session_heap s' !! r = Some st' -> exists st, session_heap s !! r = Some st /\ same_session st st'.
Proof. intros S E. pose proof (sh_heap _ _ S r) as H. rewrite E in H. inversion H; subst. eauto. Qed.

#[export] Instance shrinks_preorder : PreOrder shrinks.
Proof.
  split.
  - intros s. split; try done. + intros r st g gr x E Hg Ex. left. by exists st, x.
  - intros s1 s2 s3 A B. destruct A as [a1 a2 a3 a4 a5 a6 a7 a8 a9 a10 a11 a12 a13], B as [b1 b2 b3 b4 b5 b6 b7 b8 b9 b10 b11 b12 b13]. split; try congruence; try lia.
    + by etrans.
    + intros k id Hk. apply b2 in Hk as [Hk Hs]. apply a2 in Hk as [Hk Hs']. auto.
    + intros k id Hk Hin. apply b3; [|done]. apply a3; [done|]. eapply sublist_elem; [exact Hin|by rewrite b1].
    + intros r. specialize (a10 r). specialize (b10 r). inversion a10 as [st1 st2 H1 E1 E2|]; inversion b10 as [? st3 H2 E3 E4|]; simplify_eq; try congruence; constructor. etrans; [done|]. congruence.
    + intros r st3 g gr x3 E Hg Ex. destruct (b11 r st3 g gr x3 E Hg Ex) as [(st2 & x2 & E2 & Hg2 & Ex2 & Sx)|Hr]; [|right; congruence].
      destruct (a11 r st2 g gr x2 E2 Hg2 Ex2) as [(st1 & x1 & E1 & Hg1 & Ex1 & Sx1)|Hr]; [left; exists st1, x1; split_and!; try done; by etrans|right].
      specialize (b10 r). rewrite E2, E in b10. inversion b10 as [? ? (_ & Hi & _)|]; subst. destruct Sx as (K1 & K2 & _). by rewrite Hi, K1, K2.
    + auto.
    + intros gr Hgr Hn. apply b13; [done|]. apply a13; [lia|done].
Qed.

(** A step that touches none of this. *)
Lemma shrinks_quiet s s' : sessions s' = sessions s -> identities s' = identities s -> opening s' = opening s -> tasks s' = tasks s ->
  owner_fences s' = owner_fences s -> account_fences s' = account_fences s -> resource_fences s' = resource_fences s -> (fresh s <= fresh s')%nat ->
  session_heap s' = session_heap s -> grant_heap s' = grant_heap s -> shrinks s s'.
Proof.
  intros E1 E2 E3 E4 E5 E6 E7 E8 E9 E10. split; try done; try (by rewrite ?E1, ?E2); [intros r; rewrite E9; by destruct (_ !! _); constructor| | |].
  - intros r st g gr x. rewrite E9, E10. intros E Hg Ex. left. by exists st, x.
  - unfold grants_stored. by rewrite E9, E10.
  - intros gr _. by rewrite E10.
Qed.

Lemma shrinks_record e s : shrinks s (record e s).
Proof. by apply shrinks_quiet. Qed.
Lemma shrinks_update_peer r f s : shrinks s (update_peer r f s).
Proof. by apply shrinks_quiet. Qed.

Lemma shrinks_update r f s : (forall st, session_heap s !! r = Some st -> same_session st (f st) /\ grants (f st) ⊆ grants st) -> shrinks s (update_session r f s).
Proof.
  intros Hf. split; try done.
  - intros r'. simpl. rewrite lookup_alter. case_decide; [subst r'|reflexivity]. destruct (session_heap s !! r) as [st|] eqn:E; simpl; constructor. by apply Hf.
  - intros r' st' g gr x'. simpl. rewrite lookup_alter. intros E Hin Ex. left. case_decide; [|by exists st', x']. subst r'.
    destruct (session_heap s !! r) as [st|] eqn:Est; [|done]. injection E as <-. exists st, x'. split_and!; try done. by apply Hf.
  - intros H r' st' g gr. simpl. rewrite lookup_alter. case_decide; [|apply H]. subst r'. destruct (session_heap s !! r) as [st|] eqn:Est; [|done]. intros [= <-] Hin.
    eapply H; [exact Est|]. by apply Hf.
Qed.

Lemma shift_remove_subset (k : units) (m : list (units * nat)) : IndexMap.shift_remove k m ⊆ m.
Proof. intros x Hx. unfold IndexMap.shift_remove in Hx. by apply list_elem_of_filter in Hx as [_ Hx]. Qed.

Lemma listed_fun s id r r' st st' : tables s -> listed s id r st -> listed s id r' st' -> r = r' /\ st = st'.
Proof.
  intros T [H1 E1] [H2 E2]. assert (r = r') as ->; [|by simplify_eq].
  apply (IndexMap.In_get id r) in H1; [|apply T]. apply (IndexMap.In_get id r') in H2; [|apply T]. congruence.
Qed.

Lemma elem_keys s id r : (id, r) ∈ sessions s -> id ∈ (sessions s).*1.
Proof. intros H. apply list_elem_of_fmap. by exists (id, r). Qed.

Lemma shrinks_remove id r s : tables s -> shrinks s (remove_session id r s).
Proof.
  intros T. unfold remove_session. destruct (current s id r) eqn:Ec; [|done]. destruct (session_heap s !! r) as [st|] eqn:Est; [|done]. cbn zeta.
  unfold current in Ec. reflect_bools. apply IndexMap.get_In in Ec. assert (Hl : listed s id r st) by done.
  set (s1 := set_sessions _ s). set (s2 := if bool_decide _ then _ else s1).
  assert (S2 : shrinks s s2).
  { assert (E2 : sessions s2 = IndexMap.shift_remove id (sessions s) /\ identities s2 = delete (identity_key (identity (session st))) (identities s)).
    { unfold s2, s1. simpl. pose proof (t_identity _ T _ _ _ Hl) as Hi. by rewrite bool_decide_eq_true_2. }
    assert (Eo : session_heap s2 = session_heap s /\ grant_heap s2 = grant_heap s /\ opening s2 = opening s /\ tasks s2 = tasks s /\ owner_fences s2 = owner_fences s /\
      account_fences s2 = account_fences s /\ resource_fences s2 = resource_fences s /\ fresh s2 = fresh s) by (unfold s2; case_bool_decide; done).
    destruct E2 as [E2 E3], Eo as (e1 & e2 & e3 & e4 & e5 & e6 & e7 & e8). clearbody s2. split; try done; try lia.
    - rewrite E2. apply sublist_filter.
    - intros k id'. rewrite E3, lookup_delete. case_decide; [done|]. intros Hk. split; [done|]. rewrite E2. intros Hin. apply list_elem_of_fmap in Hin as ([id2 r2] & -> & Hin).
      apply list_elem_of_fmap. exists (id2, r2). split; [done|]. unfold IndexMap.shift_remove. apply list_elem_of_filter. split; [|done]. simpl in *. intros ->.
      destruct (t_back _ T _ _ Hk) as (r' & st' & Hl' & Hk'). destruct (listed_fun _ _ _ _ _ _ T Hl Hl') as [_ <-]. congruence.
    - intros k id' Hk Hin. rewrite E2 in Hin. rewrite E3, lookup_delete. case_decide; [|done]. subst k. rewrite (t_identity _ T _ _ _ Hl) in Hk. injection Hk as <-.
      exfalso. apply list_elem_of_fmap in Hin as ([id2 r2] & -> & Hin). unfold IndexMap.shift_remove in Hin. by apply list_elem_of_filter in Hin as [? _].
    - intros r'. rewrite e1. reflexivity.
    - intros r' st' g gr x. rewrite e1, e2. intros E Hg Ex. left. by exists st', x.
    - unfold grants_stored. by rewrite e1, e2.
    - intros gr _. by rewrite e2. }
  clearbody s2. assert (S3 : shrinks s2 (update_session r (fun st => set_peers [] (set_grants [] st)) s2)) by (apply shrinks_update; intros st0 _; split; [done|intros ?; by rewrite elem_of_nil]).
  destruct (existsb _ _); (etrans; [exact S2|]); [exact S3|]. etrans; [exact S3|]. by apply shrinks_quiet.
Qed.

Lemma shrinks_drop_grant r g s : shrinks s (update_session r (fun st => set_grants (IndexMap.shift_remove g (grants st)) st) s).
Proof. apply shrinks_update. intros st _. split; [done|]. apply shift_remove_subset. Qed.
Lemma shrinks_set_peers r f s : shrinks s (update_session r (fun st => set_peers (f st) st) s).
Proof. by apply shrinks_update. Qed.
Lemma shrinks_session r st v s : session_heap s !! r = Some st -> session_id v = session_id (session st) -> identity v = identity (session st) ->
  shrinks s (update_session r (set_session v) s).
Proof. intros E E1 E2. apply shrinks_update. intros st' E'. by simplify_eq. Qed.
Lemma shrinks_told x c s s' : shrinks s s' -> shrinks s (match x with Some w => tell w c s' | None => s' end).
Proof. intros S. destruct x; [|done]. etrans; [exact S|]. apply shrinks_record. Qed.

Lemma revoke_session_shrinks id s : tables s -> shrinks s (revoke_session id s).2.
Proof. intros T. unfold revoke_session. destruct (session_at s id) as [[r st]|]; [|done]. etrans; [by apply shrinks_remove|apply shrinks_record]. Qed.
Lemma revoke_grant_shrinks id g s : shrinks s (revoke_grant id g s).2.
Proof.
  unfold revoke_grant. destruct (session_at s id) as [[r st]|]; [|done]. destruct (IndexMap.get g (grants st)); [|done].
  etrans; [apply shrinks_drop_grant|apply shrinks_record].
Qed.
Lemma revoke_peer_shrinks id p s : shrinks s (revoke_peer id p s).2.
Proof.
  unfold revoke_peer. destruct (session_at s id) as [[r st]|]; [|done]. destruct (IndexMap.get p (peers st)); [|done].
  etrans; [apply shrinks_set_peers|apply shrinks_record].
Qed.
Lemma revoke_item_shrinks i s : tables s -> shrinks s (revoke_item i s).
Proof. intros T. destruct i; simpl; [apply revoke_peer_shrinks|apply revoke_grant_shrinks|by apply revoke_session_shrinks]. Qed.

(** *** What was taken away is gone *)

Lemma session_at_listed s id r st : session_at s id = Some (r, st) -> listed s id r st.
Proof.
  unfold session_at. destruct (IndexMap.get id (sessions s)) as [r'|] eqn:E; [|done]. cbn [mbind option_bind]. destruct (session_heap s !! r') as [st'|] eqn:E'; [|done].
  intros [= <- <-]. split; [by apply IndexMap.get_In|done].
Qed.
Lemma listed_session_at s id r st : tables s -> listed s id r st -> session_at s id = Some (r, st).
Proof. intros T [H1 H2]. unfold session_at. rewrite (IndexMap.In_get id r) by (done || apply T). simpl. by rewrite H2. Qed.
Lemma listed_current s id r st : tables s -> listed s id r st -> current s id r = true.
Proof. intros T [H1 H2]. unfold current. rewrite (IndexMap.In_get id r) by (done || apply T). by apply bool_decide_eq_true_2. Qed.
Lemma current_listed s id r : tables s -> current s id r = true -> exists st, listed s id r st.
Proof. intros T H. unfold current in H. reflect_bools. apply IndexMap.get_In in H. destruct (t_heap _ T _ _ H) as (st & E & _). by exists st. Qed.

Lemma removed_sessions id r s st : tables s -> listed s id r st -> sessions (remove_session id r s) = IndexMap.shift_remove id (sessions s).
Proof.
  intros T Hl. unfold remove_session. rewrite (listed_current _ _ _ _ T Hl). destruct Hl as [_ ->]. cbn. destruct (existsb _ _); simpl; case_bool_decide; done.
Qed.

Lemma removed_gone id r s st : tables s -> ~ listed (remove_session id r s) id r st.
Proof.
  intros T Hl. destruct (sh_backward _ _ _ _ (shrinks_remove id r s T) (proj2 Hl)) as (st0 & E0 & _).
  assert (Hl0 : listed s id r st0). { split; [|done]. eapply sublist_elem; [apply Hl|]. apply (sh_sessions _ _ (shrinks_remove id r s T)). }
  destruct Hl as [Hl _]. rewrite (removed_sessions _ _ _ _ T Hl0) in Hl. unfold IndexMap.shift_remove in Hl. by apply list_elem_of_filter in Hl as [? _].
Qed.

Lemma revoke_session_gone id s r st : tables s -> ~ listed (revoke_session id s).2 id r st.
Proof.
  intros T Hl. unfold revoke_session in Hl. destruct (session_at s id) as [[r' st']|] eqn:E; [|by rewrite (listed_session_at _ _ _ _ T Hl) in E].
  apply session_at_listed in E. apply (removed_gone id r' s st T). assert (r = r') as ->; [|exact Hl]. destruct Hl as [Hl Es].
  destruct E as [E _]. apply (IndexMap.In_get id r' _ (t_keys _ T)) in E.
  pose proof (sublist_elem _ _ _ Hl (sh_sessions _ _ (shrinks_remove id r' s T))) as Hl'.
  apply (IndexMap.In_get id r _ (t_keys _ T)) in Hl'. congruence.
Qed.

(** ** Steps *)

Definition all_counted o a r (ts : gmap nat Task) : Prop := counted o holds_owner ts /\ counted a holds_account ts /\ counted r holds_resource ts.

Lemma all_counted_wf s : wf s -> all_counted (owner_fences s) (account_fences s) (resource_fences s) (tasks s).
Proof. intros W. split_and!; apply W. Qed.

Lemma shrinks_listed s s' id r st' : shrinks s s' -> listed s' id r st' -> exists st, listed s id r st /\ same_session st st'.
Proof.
  intros S [Hin E]. destruct (sh_backward _ _ _ _ S E) as (st & Est & Hs). exists st. split; [|done]. split; [|done].
  eapply sublist_elem; [exact Hin|apply S].
Qed.

Lemma sublist_keys s s' id : shrinks s s' -> id ∈ (sessions s').*1 -> id ∈ (sessions s).*1.
Proof. intros S H. eapply sublist_elem; [exact H|]. by rewrite (sh_sessions _ _ S). Qed.

Lemma tables_step s s' i next : tables s -> shrinks s s' -> (is_Some next -> (i < fresh s')%nat) -> tables (retask i next s').
Proof.
  intros T S Hi. pose proof (sh_sessions _ _ S) as Hsub. constructor; simpl.
  - eapply sublist_NoDup; [apply T|]. by rewrite Hsub.
  - intros id r Hin. destruct (t_heap _ T id r (sublist_elem _ _ _ Hin Hsub)) as (st & Est & Hid). destruct (sh_forward _ _ _ _ S Est) as (st' & E' & H1 & _).
    exists st'. by rewrite H1.
  - intros id Hid. destruct (t_names _ T id (sublist_keys _ _ _ S Hid)) as (n & Hn & ->). exists n. pose proof (sh_fresh _ _ S). split; [lia|done].
  - intros r Hr. pose proof (sh_fresh _ _ S). destruct (t_fresh _ T r) as (H1 & H2 & H3); [lia|]. split_and!.
    + pose proof (sh_heap _ _ S r) as Hh. rewrite H1 in Hh. by inversion Hh.
    + rewrite upd_at, (sh_tasks _ _ S). case_decide; [|done]. subst. destruct next; [|done]. specialize (Hi ltac:(by eexists)). lia.
    + by apply (sh_new _ _ S).
  - intros id r st' Hl. destruct (shrinks_listed s s' _ _ _ S Hl) as (st & Hl' & _ & Hid & _). rewrite Hid. apply (sh_back _ _ S); [by eapply (t_identity _ T)|].
    apply (elem_keys s' id r), Hl.
  - intros k id Hk. destruct (sh_identities _ _ S k id Hk) as [Hk' Hin]. destruct (t_back _ T k id Hk') as (r & st & [Hl Est] & Hkey).
    specialize (Hin (elem_keys _ _ _ Hl)). destruct (sh_forward _ _ _ _ S Est) as (st' & E' & _ & Hid & _). exists r, st'. split; [|by rewrite Hid]. split; [|done].
    apply list_elem_of_fmap in Hin as ([id' r'] & Eid & Hin). simpl in Eid. subst id'. pose proof (sublist_elem _ _ _ Hin Hsub) as Hin'.
    apply (IndexMap.In_get id r' _ (t_keys _ T)) in Hin'. apply (IndexMap.In_get id r _ (t_keys _ T)) in Hl. by simplify_eq.
  - apply (sh_stored _ _ S), T.
  - intros r st' E. destruct (sh_backward _ _ _ _ S E) as (st & E' & _ & -> & _). by eapply (t_neat _ T).
Qed.

(** [s] does a step: it becomes [s'], and the task [i] becomes [next]. *)
Section step.
Context (s s' : State) (i : nat) (next : option Task).
Context (W : wf s) (S : shrinks s s').
Let T : tables s := wf_tables _ W.
Let O : opens s := wf_opens _ W.
Let F : fences s := wf_fences _ W.

Lemma task_after j t : tasks (retask i next s') !! j = Some t -> i = j /\ next = Some t \/ i <> j /\ tasks s !! j = Some t.
Proof. intros E. simpl in E. rewrite (sh_tasks _ _ S) in E. by apply upd_Some. Qed.

Lemma total_after f : map_total f (tasks (retask i next s')) = map_total f (tasks s) - from_option f 0 (tasks s !! i) + from_option f 0 next.
Proof. simpl. rewrite (sh_tasks _ _ S). apply upd_total. Qed.

Lemma authorized_after x : identity_authorized s' x = identity_authorized s x.
Proof. unfold identity_authorized. by rewrite (sh_owners _ _ S), (sh_accounts _ _ S). Qed.

Lemma upcoming_after j t x : tasks s !! j = Some t -> upcoming t = Some x -> identity_authorized s' x = true -> identities s' !! identity_key x = None.
Proof.
  intros Ej Eu Ea. rewrite authorized_after in Ea. pose proof (o_upcoming _ O j t x Ej Eu Ea) as Hn.
  destruct (identities s' !! _) as [id|] eqn:E; [|done]. apply (sh_identities _ _ S) in E as [E _]. congruence.
Qed.

Lemma installing_after j x m id r : tasks s !! j = Some (Installing x m id r) -> (r < fresh s')%nat /\ forall st, listed s' id r st -> identity (session st) = x.
Proof.
  intros Ej. destruct (o_installing _ O _ _ _ _ _ Ej) as [Hr Hi]. pose proof (sh_fresh _ _ S). split; [lia|]. intros st Hl.
  destruct (shrinks_listed _ _ _ _ _ S Hl) as (st0 & Hl0 & _ & -> & _). by apply Hi.
Qed.

Lemma sessions_after : len (sessions s') <= len (sessions s).
Proof. pose proof (sublist_length _ _ (sh_sessions _ _ S)). lia. Qed.

(** The fence of the task that moved is the one it held. *)
Lemma counts_after : tasks s !! i ≫= fence_of = next ≫= fence_of ->
  all_counted (owner_fences s') (account_fences s') (resource_fences s') (tasks (retask i next s')).
Proof.
  intros E. assert (H : forall f, (forall t, fence_of t = None -> f t = 0) -> (forall t t', fence_of t = fence_of t' -> f t = f t') ->
    map_total f (tasks (retask i next s')) = map_total f (tasks s)).
  { intros f H0 H1. rewrite total_after. destruct (tasks s !! i) as [t|], next as [t'|]; simpl in *; [rewrite (H1 t t' E)|rewrite (H0 t E)|rewrite (H0 t' (eq_sym E))|]; lia. }
  rewrite (sh_owners _ _ S), (sh_accounts _ _ S), (sh_resources _ _ S). destruct (all_counted_wf _ W) as (C1 & C2 & C3).
  split_and!; (eapply counted_ext; [|eassumption]); intros k; (apply H; [intros t Et|intros t t' Et]); unfold holds_owner, holds_account, holds_resource; by rewrite Et.
Qed.

Lemma sessions_covered j sc items id r st : tasks s !! j = Some (Revoking sc items) -> listed s' id r st -> covers sc (identity (session st)) -> ISession id ∈ items.
Proof. intros Ej Hl Hc. destruct (shrinks_listed _ _ _ _ _ S Hl) as (st0 & Hl0 & _ & Hid & _). rewrite Hid in Hc. by eapply (f_sessions _ F). Qed.

Lemma grants_covered j o kind resource att items id r st g gr x : tasks s !! j = Some (Revoking (Resource o kind resource att) items) -> listed s' id r st ->
  owner_id (identity (session st)) = o -> (g, gr) ∈ grants st -> grant_heap s' !! gr = Some x -> bound_to kind resource att x = true -> IGrant id g ∈ items.
Proof.
  intros E Hl Ho Hg Ex Hb. destruct (shrinks_listed _ _ _ _ _ S Hl) as (st0 & Hl0 & _ & Hid & _).
  destruct (sh_grants _ _ S r st g gr x (proj2 Hl) Hg Ex) as [(st1 & x1 & E1 & Hg1 & Ex1 & K1 & K2 & K3)|Hn].
  - pose proof (proj2 Hl0) as E2. rewrite E1 in E2. injection E2 as <-. eapply (f_grants _ F); [exact E|exact Hl0|congruence|exact Hg1|exact Ex1|].
    unfold bound_to in *. by rewrite <- K1, <- K2, <- K3.
  - exfalso. pose proof (counted_free _ holds_resource_pos _ _ _ _ _ (f_resources _ F) Hn E) as H0. unfold holds_resource in H0. simpl in H0.
    unfold bound_to in Hb. reflect_bools. destruct_and?; reflect_bools; subst. rewrite decide_True in H0 by done. lia.
Qed.

(** The task that moved holds no fence. *)
Section unfenced.
Context (Hold : tasks s !! i ≫= fence_of = None) (Hnext : next ≫= fence_of = None).

Lemma doomed_after id st st' : doomed s id st -> identity (session st') = identity (session st) -> doomed (retask i next s') id st'.
Proof.
  intros (j & t & Ej & Ht) Hid. exists j, t. split; [|by rewrite Hid]. simpl. rewrite (sh_tasks _ _ S), upd_at.
  case_decide; [|done]. subst j. rewrite Ej in Hold. simpl in Hold. by destruct t.
Qed.

Lemma unready_after id r st : (forall x m id r st, tasks s !! i = Some (Installing x m id r) -> listed s' id r st -> ready st = false -> doomed s id st) ->
  listed s' id r st -> ready st = false ->
  (exists j x m, tasks (retask i next s') !! j = Some (Installing x m id r)) \/ doomed (retask i next s') id st.
Proof.
  intros Hi Hl Hr. destruct (shrinks_listed _ _ _ _ _ S Hl) as (st0 & Hl0 & _ & Hid & Hrd).
  destruct (o_unready _ O id r st0 Hl0 (Hrd Hr)) as [(j & x & m & Ej)|Hd]; [|right; by eapply doomed_after].
  destruct (decide (i = j)) as [<-|Hne]; [right; eapply doomed_after; [by eapply Hi|done]|left].
  exists j, x, m. simpl. by rewrite (sh_tasks _ _ S), upd_at, decide_False.
Qed.

Lemma fences_after : fences (retask i next s').
Proof.
  destruct counts_after as (C1 & C2 & C3); [by rewrite Hold, Hnext|]. constructor; [exact C1|exact C2|exact C3| |].
  - intros j sc items id r st Ej. destruct (task_after _ _ Ej) as [[_ E]|[_ E]]; [by rewrite E in Hnext|]. by apply (sessions_covered j).
  - intros j o kind resource att items id r st g gr x Ej. destruct (task_after _ _ Ej) as [[_ E]|[_ E]]; [by rewrite E in Hnext|]. by apply (grants_covered j).
Qed.
End unfenced.
End step.

Definition not_installing (x : option Task) : Prop := match x with Some (Installing _ _ _ _) => False | _ => True end.

(** The session a task gives up installing is not left unready for ever. *)
Definition abandons s s' (i : nat) : Prop :=
  forall x m id r st, tasks s !! i = Some (Installing x m id r) -> listed s' id r st -> ready st = false -> doomed s id st.

Lemma abandons_other s s' i : not_installing (tasks s !! i) -> abandons s s' i.
Proof. intros H x m id r st E. by rewrite E in H. Qed.

Section open_steps.
Context (s s' : State) (i : nat) (next : option Task).
Context (W : wf s) (S : shrinks s s') (Hi : is_Some next -> (i < fresh s')%nat).
Context (Hold : tasks s !! i ≫= fence_of = None) (Hnext : next ≫= fence_of = None) (Hn : not_installing next) (Ha : abandons s s' i).
Let T : tables s := wf_tables _ W.
Let O : opens s := wf_opens _ W.

Lemma installing_step j x m id r : tasks (retask i next s') !! j = Some (Installing x m id r) -> (r < fresh s')%nat /\ forall st, listed s' id r st -> identity (session st) = x.
Proof. intros E. destruct (task_after _ _ _ _ S _ _ E) as [[_ E']|[_ E']]; [by rewrite E' in Hn|]. by eapply installing_after. Qed.

(** A step of a task that goes on with what it was opening, if anything. *)
Lemma wf_carry : tasks s !! i ≫= opening_of = next ≫= opening_of -> tasks s !! i ≫= upcoming = next ≫= upcoming -> wf (retask i next s').
Proof.
  intros Eo Eu. constructor; [by eapply tables_step| |by eapply fences_after].
  assert (Ht : forall j t, tasks (retask i next s') !! j = Some t -> exists t0, tasks s !! j = Some t0 /\ (opening_of t0 = opening_of t \/ opening_of t = None) /\ (upcoming t0 = upcoming t \/ upcoming t = None)
    \/ i = j /\ opening_of t = None /\ upcoming t = None).
  { intros j t E. destruct (task_after _ _ _ _ S _ _ E) as [[-> E']|[_ E']]; [|exists t; auto]. rewrite E' in Eo, Eu. simpl in *.
    destruct (tasks s !! j) as [t0|] eqn:Ej; simpl in *; [exists t0; left; auto|exists t; right; auto]. }
  constructor.
  - intros j t x m Ej Ex. simpl. rewrite (sh_opening _ _ S). destruct (Ht j t Ej) as (t0 & [(E0 & [H|H] & _)|(_ & H & _)]); try congruence. eapply (o_marker _ O); [exact E0|congruence].
  - intros j j' t t' x m m' Ej Ej' Ex Ex'. destruct (Ht j t Ej) as (t0 & [(E0 & [H|H] & _)|(_ & H & _)]); try congruence.
    destruct (Ht j' t' Ej') as (t0' & [(E0' & [H'|H'] & _)|(_ & H' & _)]); try congruence. eapply (o_alone _ O); [exact E0|exact E0'|by rewrite H|by rewrite H'].
  - simpl. rewrite (sh_opening _ _ S), (o_size _ O). symmetry. pose proof (total_after s s' i next S (fun t => one (opening_of t))) as Et. simpl in Et. rewrite Et.
    destruct (tasks s !! i), next; simpl in *; rewrite ?Eo; simpl; rewrite <- ?Eo; simpl; lia.
  - pose proof (total_after s s' i next S (fun t => one (upcoming t))) as Et. rewrite Et. pose proof (o_limit _ O). pose proof (sessions_after s s' S). simpl.
    destruct (tasks s !! i), next; simpl in *; rewrite ?Eu; simpl; rewrite <- ?Eu; simpl; lia.
  - intros j t x Ej Ex Hx. destruct (Ht j t Ej) as (t0 & [(E0 & _ & [H|H])|(_ & _ & H)]); try congruence. eapply (upcoming_after s s' W S); [exact E0|congruence|exact Hx].
  - intros j x m id r. apply installing_step.
  - intros id r st Hl Hr. by eapply unready_after.
Qed.

(** An opening ends. *)
Lemma wf_finish x m : tasks s !! i ≫= opening_of = Some (x, m) -> next ≫= opening_of = None -> wf (retask i next (finish_open x m s')).
Proof.
  intros (t0 & E0 & Eo)%bind_Some En. pose proof (o_marker _ O _ _ _ _ E0 Eo) as Em.
  unfold finish_open. rewrite bool_decide_eq_true_2 by (by rewrite (sh_opening _ _ S)).
  assert (Hne : forall j t y n, tasks (retask i next s') !! j = Some t -> opening_of t = Some (y, n) -> tasks s !! j = Some t /\ y <> x).
  { intros j t y n Ej Ey. destruct (task_after _ _ _ _ S _ _ Ej) as [[-> E']|[Hij E']]; [by rewrite E' in En; simpl in En; rewrite En in Ey|]. split; [done|].
    intros ->. destruct Hij. by eapply (o_alone _ O). }
  assert (Ht : tables (retask i next s')) by (by eapply tables_step).
  assert (Hf : fences (retask i next s')) by (by eapply fences_after).
  constructor; [by destruct Ht| |by destruct Hf]. constructor.
  - intros j t y n Ej Ey. destruct (Hne _ _ _ _ Ej Ey) as [Ej' Hyx]. simpl. rewrite (sh_opening _ _ S), lookup_delete_ne; [by eapply (o_marker _ O)|]. by intros ->%identity_key_inj.
  - intros j j' t t' y n n' Ej Ej' Ey Ey'. destruct (Hne _ _ _ _ Ej Ey) as [Ej1 _], (Hne _ _ _ _ Ej' Ey') as [Ej2 _]. by eapply (o_alone _ O).
  - simpl. rewrite (sh_opening _ _ S), map_size_delete_Some by (by rewrite Em). pose proof (o_size _ O) as Es. pose proof (total_after s s' i next S (fun t => one (opening_of t))) as Et. simpl in Et.
    rewrite Et, E0. simpl. rewrite Eo. simpl. assert (size (opening s) <> 0)%nat by (intros Hz%map_size_empty_inv; by rewrite Hz in Em).
    destruct next; simpl in *; rewrite ?En; simpl; lia.
  - pose proof (total_after s s' i next S (fun t => one (upcoming t))) as Et. simpl in Et |- *. rewrite Et, E0. pose proof (o_limit _ O). pose proof (sessions_after s s' S). simpl.
    assert (Hu : next ≫= upcoming = None) by (destruct next as [t|]; [|done]; by destruct t). assert (0 <= one (upcoming t0)) by (destruct (upcoming t0); simpl; lia).
    destruct next; simpl in *; rewrite ?Hu; simpl; lia.
  - intros j t y Ej Ey Hx. eapply (upcoming_after s s' W S); [|exact Ey|exact Hx]. destruct t; try done; simpl in Ey; injection Ey as ->; by eapply Hne.
  - intros j y n id r. apply installing_step.
  - intros id r st Hl Hr. exact (unready_after s s' i next W S Hold id r st Ha Hl Hr).
Qed.
End open_steps.

(** *** Fences hold *)

Lemma fence_counts s j t sc : fences s -> tasks s !! j = Some t -> fence_of t = Some sc ->
  match sc with
  | Owner o => is_Some (owner_fences s !! o)
  | AccountSession a => is_Some (account_fences s !! a)
  | Resource o kind resource _ => is_Some (resource_fences s !! resource_key o kind resource)
  end.
Proof.
  intros F Ej Ef. destruct sc as [o|a|o kind res att]; apply not_eq_None_Some; intros Hn.
  - pose proof (counted_free _ holds_owner_pos _ _ _ _ _ (f_owners _ F) Hn Ej) as H0. unfold holds_owner in H0. by rewrite Ef, decide_True in H0.
  - pose proof (counted_free _ holds_account_pos _ _ _ _ _ (f_accounts _ F) Hn Ej) as H0. unfold holds_account in H0. by rewrite Ef, decide_True in H0.
  - pose proof (counted_free _ holds_resource_pos _ _ _ _ _ (f_resources _ F) Hn Ej) as H0. unfold holds_resource in H0. by rewrite Ef, decide_True in H0.
Qed.

Lemma covered_unauthorized s j t sc x : fences s -> tasks s !! j = Some t -> fence_of t = Some sc -> covers sc x -> identity_authorized s x = false.
Proof.
  intros F Ej Ef Hc. pose proof (fence_counts s j t sc F Ej Ef) as H. unfold identity_authorized. destruct sc; simpl in Hc; [subst| subst|done].
  - rewrite (bool_decide_eq_false_2 (owner_fences s !! _ = None)); [done|]. by apply not_eq_None_Some.
  - rewrite (bool_decide_eq_false_2 (account_fences s !! _ = None)); [apply andb_false_r|]. by apply not_eq_None_Some.
Qed.

Lemma doomed_unauthorized s id st : fences s -> doomed s id st -> identity_authorized s (identity (session st)) = false.
Proof.
  intros F (j & t & Ej & Ht). destruct t; try done; [by eapply covered_unauthorized|destruct Ht; by eapply covered_unauthorized].
Qed.

Lemma unauthorized_covered s x : fences s -> identity_authorized s x = false -> exists j t sc, tasks s !! j = Some t /\ fence_of t = Some sc /\ covers sc x.
Proof.
  intros F E.
  unfold identity_authorized in E. apply andb_false_iff in E as [E|E]; reflect_bools.
  - pose proof (f_owners _ F (owner_id x)) as C. destruct (map_total (holds_owner (owner_id x)) (tasks s) =? 0) eqn:E0; [done|]. reflect_bools.
    destruct (total_holder holds_owner _ _ E0) as (j & t & Ej & Ht). unfold holds_owner in Ht. destruct (fence_of t) as [[o|a|]|] eqn:Ef; try done. case_decide; [|done]. exists j, t, (Owner o). subst. done.
  - pose proof (f_accounts _ F (account_session_id x)) as C. destruct (map_total (holds_account (account_session_id x)) (tasks s) =? 0) eqn:E0; [done|]. reflect_bools.
    destruct (total_holder holds_account _ _ E0) as (j & t & Ej & Ht). unfold holds_account in Ht. destruct (fence_of t) as [[o|a|]|] eqn:Ef; try done. case_decide; [|done]. exists j, t, (AccountSession a). subst. done.
Qed.

(** *** An opening begins *)

Lemma wf_start s i t x : wf s -> tasks s !! i = Some t -> plain t -> not_installing (Some t) ->
  (forall id r st, identities s !! identity_key x = Some id -> session_at s id = Some (r, st) -> ready st = false) ->
  opening s !! identity_key x = None -> len (sessions s) + Z.of_nat (size (opening s)) < max_active_sessions options ->
  wf (retask i (Some (Starting x (fresh s))) (set_fresh (S (fresh s)) (set_opening (<[identity_key x := fresh s]> (opening s)) s))).
Proof.
  intros W Ei [Po Pf] Hni Hex Hop Hlim. pose proof (wf_tables _ W) as T. pose proof (wf_opens _ W) as O. pose proof (wf_fences _ W) as F.
  set (s' := set_fresh (S (fresh s)) s). assert (Sh : shrinks s s') by (apply shrinks_quiet; simpl; auto).
  assert (Hi : (i < fresh s)%nat). { destruct (decide (fresh s <= i)%nat) as [Hle|]; [|lia]. destruct (t_fresh _ T _ Hle) as (_ & E & _). congruence. }
  set (next := Some (Starting x (fresh s))).
  assert (Ht : tables (retask i next s')) by (eapply tables_step; [exact T|exact Sh|simpl; lia]).
  assert (Hold : tasks s !! i ≫= fence_of = None) by (by rewrite Ei). assert (Hnext : next ≫= fence_of = None) by done.
  pose proof (fences_after s s' i next W Sh Hold Hnext) as Hf.
  constructor; [by destruct Ht| |by destruct Hf].
  assert (Hto : forall f, map_total f (upd i next (tasks s)) = map_total f (tasks s) - f t + f (Starting x (fresh s))) by (intros f; by rewrite upd_total, Ei).
  constructor.
  - intros j t' y m Ej Ey. destruct (task_after _ _ _ _ Sh _ _ Ej) as [[-> E']|[_ E']].
    + unfold next in E'. injection E' as <-. simpl in Ey. injection Ey as <- <-. apply lookup_insert_eq.
    + pose proof (o_marker _ O _ _ _ _ E' Ey). simpl. rewrite lookup_insert_ne; [done|]. congruence.
  - intros j j' t1 t2 y m m' Ej Ej' Ey Ey'. destruct (task_after _ _ _ _ Sh _ _ Ej) as [[-> E1]|[_ E1]], (task_after _ _ _ _ Sh _ _ Ej') as [[-> E2]|[_ E2]]; try done.
    + unfold next in E1. injection E1 as <-. simpl in Ey. injection Ey as <- <-. by rewrite (o_marker _ O _ _ _ _ E2 Ey') in Hop.
    + unfold next in E2. injection E2 as <-. simpl in Ey'. injection Ey' as <- <-. by rewrite (o_marker _ O _ _ _ _ E1 Ey) in Hop.
    + by eapply (o_alone _ O).
  - simpl. fold next. rewrite Hto, map_size_insert_None, Po by done. pose proof (o_size _ O). simpl. lia.
  - simpl. fold next. rewrite Hto. assert (upcoming t = None) as -> by (by destruct t). pose proof (o_size _ O).
    assert (map_total (fun t => one (upcoming t)) (tasks s) <= map_total (fun t => one (opening_of t)) (tasks s)) by (apply map_total_le; intros t'; destruct t'; simpl; lia). simpl. lia.
  - intros j t' y Ej Ey Hy. destruct (task_after _ _ _ _ Sh _ _ Ej) as [[-> E']|[_ E']]; [|by eapply (upcoming_after s s' W Sh)].
    unfold next in E'. injection E' as <-. simpl in Ey. injection Ey as <-. simpl. destruct (identities s !! identity_key x) as [id|] eqn:E; [exfalso|done].
    destruct (t_back _ T _ _ E) as (r & st & Hl & Ek%identity_key_inj). pose proof (Hex id r st eq_refl (listed_session_at _ _ _ _ T Hl)) as Hr.
    destruct (o_unready _ O _ _ _ Hl Hr) as [(j' & y & m & Ej')|Hd].
    + pose proof (proj2 (o_installing _ O _ _ _ _ _ Ej') _ Hl). pose proof (o_marker _ O _ _ y m Ej' eq_refl). congruence.
    + apply (doomed_unauthorized _ _ _ F) in Hd. rewrite Ek in Hd. unfold identity_authorized in *. simpl in Hy. congruence.
  - intros j y m id r Ej. exact (installing_step s s' i next W Sh I _ _ _ _ _ Ej).
  - intros id r st Hl Hr. refine (unready_after s s' i next W Sh Hold id r st _ Hl Hr). apply abandons_other. by rewrite Ei.
Qed.

(** *** A session is created *)

Lemma wf_bystander s ws lg : wf s -> wf (set_log lg (set_native_workers ws s)).
Proof. intros [[] [] []]. done. Qed.

Lemma register_worker_native w s : exists ws, register_worker bridged w s = set_native_workers ws s.
Proof. unfold register_worker. destruct (_ || _); [exists (native_workers s); by destruct s|by eexists]. Qed.

Section create.
Context (s : State) (i : nat) (x : Identity) (m : nat) (v : Session).
Context (W : wf s) (Ei : tasks s !! i = Some (Replacing x m [])) (Ha : identity_authorized s x = true).
Context (Hid : session_id v = uuid (fresh s)) (Hv : identity v = x) (Hx : trimmed x = x).
Let T : tables s := wf_tables _ W.
Let O : opens s := wf_opens _ W.
Let F : fences s := wf_fences _ W.
Let next := Installing x m (uuid (fresh s)) (fresh s).
Let added := MkSessionState false v [] [].
Let s' := set_identities (<[identity_key x := uuid (fresh s)]> (identities s)) (set_sessions (IndexMap.insert (uuid (fresh s)) (fresh s) (sessions s))
  (set_fresh (S (fresh s)) (set_session_heap (<[fresh s := added]> (session_heap s)) s))).

Lemma name_free : uuid (fresh s) ∉ (sessions s).*1.
Proof. intros H. destruct (t_names _ T _ H) as (n & Hn & E). apply uuid_inj in E. lia. Qed.
Lemma sessions_create : sessions s' = sessions s ++ [(uuid (fresh s), fresh s)].
Proof. apply IndexMap.insert_absent. apply IndexMap.get_None. exact name_free. Qed.
Lemma no_such_identity : identities s !! identity_key x = None.
Proof. by apply (o_upcoming _ O i _ x Ei). Qed.
Lemma listed_old id r st : listed s id r st -> listed s' id r st /\ identity (session st) <> x /\ r <> fresh s.
Proof.
  intros Hl. assert (Hr : r <> fresh s). { intros ->. destruct (t_fresh _ T (fresh s)) as (E & _); [lia|]. destruct Hl as [_ E']. congruence. }
  split_and!; [|intros E; pose proof (t_identity _ T _ _ _ Hl) as Hk; by rewrite E, no_such_identity in Hk|done].
  destruct Hl as [Hl E]. split; [rewrite sessions_create; apply elem_of_app; by left|simpl; by rewrite lookup_insert_ne].
Qed.
Lemma listed_create id r st : listed s' id r st -> listed s id r st \/ id = uuid (fresh s) /\ r = fresh s /\ st = added.
Proof.
  intros [Hl E]. rewrite sessions_create in Hl. apply elem_of_app in Hl as [Hl|Hl].
  - left. split; [done|]. simpl in E. rewrite lookup_insert_ne in E; [done|]. intros <-. destruct (t_heap _ T _ _ Hl) as (st' & E' & _). destruct (t_fresh _ T (fresh s)) as (En & _); [lia|]. congruence.
  - right. apply list_elem_of_singleton in Hl. simplify_eq. simpl in E. rewrite lookup_insert_eq in E. by simplify_eq.
Qed.
Lemma task_create j t : tasks (retask i (Some next) s') !! j = Some t -> i = j /\ next = t \/ i <> j /\ tasks s !! j = Some t.
Proof. intros E. destruct (upd_Some i (Some next) (tasks s) j t E) as [[<- [= <-]]|?]; auto. Qed.
Lemma total_create f : map_total f (tasks (retask i (Some next) s')) = map_total f (tasks s) - f (Replacing x m []) + f next.
Proof. simpl. change (<[i:=next]> (tasks s)) with (upd i (Some next) (tasks s)). by rewrite upd_total, Ei. Qed.

Lemma create_tables : tables (retask i (Some next) s').
Proof.
  assert (Hi : (i < fresh s)%nat). { destruct (decide (fresh s <= i)%nat) as [Hle|]; [|lia]. destruct (t_fresh _ T _ Hle) as (_ & E & _). congruence. }
  constructor.
  - apply IndexMap.wf_insert, T.
  - intros id r Hin. simpl in Hin. change (IndexMap.insert _ _ _) with (sessions s') in Hin. rewrite sessions_create in Hin. apply elem_of_app in Hin as [Hin|Hin].
    + destruct (t_heap _ T _ _ Hin) as (st & E & Hst). exists st. split; [|done]. by apply (listed_old id r st).
    + apply list_elem_of_singleton in Hin. simplify_eq. exists added. simpl. by rewrite lookup_insert_eq.
  - intros id Hin. change (sessions _) with (sessions s') in Hin. rewrite sessions_create, fmap_app in Hin. simpl. apply elem_of_app in Hin as [Hin|Hin].
    + destruct (t_names _ T _ Hin) as (n & Hn & ->). exists n. split; [lia|done].
    + apply list_elem_of_singleton in Hin. exists (fresh s). split; [lia|done].
  - intros r Hr. simpl in *. destruct (t_fresh _ T r) as (H1 & H2 & H3); [lia|]. rewrite !lookup_insert_ne by lia. done.
  - intros id r st Hl. destruct (listed_create id r st Hl) as [Hl'|(-> & -> & ->)]; simpl.
    + destruct (listed_old _ _ _ Hl') as (_ & Hne & _). rewrite lookup_insert_ne; [by eapply (t_identity _ T)|]. by intros ->%identity_key_inj.
    + rewrite Hv. apply lookup_insert_eq.
  - intros k id. simpl. rewrite lookup_insert. case_decide as Hk.
    + intros [= <-]. exists (fresh s), added. split; [|by simpl; rewrite Hv]. split; [change (sessions _) with (sessions s'); rewrite sessions_create; apply elem_of_app; right; by apply list_elem_of_singleton|].
      simpl. apply lookup_insert_eq.
    + intros E. destruct (t_back _ T _ _ E) as (r & st & Hl & Hst). exists r, st. split; [|done]. by apply (listed_old id r st).
  - intros r st g gr. simpl. rewrite lookup_insert. case_decide; [intros [= <-]; simpl; by rewrite elem_of_nil|]. apply T.
  - intros r st. simpl. rewrite lookup_insert. case_decide; [intros [= <-]; simpl; by rewrite Hv|]. apply T.
Qed.

Lemma create_opens : opens (retask i (Some next) s').
Proof.
  constructor.
  - intros j t y n Ej Ey. simpl. destruct (task_create _ _ Ej) as [[<- <-]|[_ E]]; [|by eapply (o_marker _ O)]. simpl in Ey. injection Ey as <- <-. exact (o_marker _ O _ _ _ _ Ei eq_refl).
  - intros j j' t1 t2 y n n' Ej Ej' Ey Ey'. destruct (task_create _ _ Ej) as [[<- <-]|[Hj E1]], (task_create _ _ Ej') as [[<- <-]|[Hj' E2]]; try done.
    + simpl in Ey. injection Ey as <- <-. by eapply (o_alone _ O i j' _ _ x m n').
    + simpl in Ey'. injection Ey' as <- <-. by eapply (o_alone _ O j i _ _ x n m).
    + by eapply (o_alone _ O).
  - rewrite total_create. pose proof (o_size _ O). simpl in *. lia.
  - rewrite total_create. pose proof (o_limit _ O). change (sessions _) with (sessions s'). rewrite sessions_create, length_app. simpl in *. lia.
  - intros j t y Ej Ey Hy. destruct (task_create _ _ Ej) as [[<- <-]|[Hj E1]]; [done|]. simpl. rewrite lookup_insert_ne; [by eapply (o_upcoming _ O)|].
    intros <-%identity_key_inj. destruct Hj. destruct t as [| |z n|z n ids| | | | | | | | | | | | | | | | | |]; try done; simpl in Ey; injection Ey as ->; by eapply (o_alone _ O).
  - intros j y n id r Ej. destruct (task_create _ _ Ej) as [[<- E]|[Hj E1]].
    + unfold next in E. injection E as <- <- <- <-. simpl. split; [lia|]. intros st Hl. destruct (listed_create _ _ _ Hl) as [Hl'|(_ & _ & ->)]; [|exact Hv].
      by destruct (listed_old _ _ _ Hl') as (_ & _ & []).
    + destruct (o_installing _ O _ _ _ _ _ E1) as [Hr Hs]. simpl. split; [lia|]. intros st Hl. destruct (listed_create _ _ _ Hl) as [Hl'|(_ & -> & _)]; [by apply Hs|lia].
  - intros id r st Hl Hr. destruct (listed_create _ _ _ Hl) as [Hl'|(-> & -> & ->)]; [|left; exists i, x, m; apply lookup_insert_eq].
    destruct (o_unready _ O _ _ _ Hl' Hr) as [(j & y & n & Ej)|(j & t & Ej & Ht)].
    + left. exists j, y, n. simpl. rewrite lookup_insert_ne; [done|]. intros <-. congruence.
    + right. exists j, t. split; [|done]. simpl. rewrite lookup_insert_ne; [done|]. intros <-. rewrite Ei in Ej. by simplify_eq.
Qed.

Lemma create_fences : fences (retask i (Some next) s').
Proof.
  constructor; [eapply counted_ext; [|apply (f_owners _ F)]|eapply counted_ext; [|apply (f_accounts _ F)]|eapply counted_ext; [|apply (f_resources _ F)]| |];
    try (intros k; rewrite total_create; unfold holds_owner, holds_account, holds_resource; simpl; lia).
  - intros j sc items id r st Ej Hl Hc. destruct (task_create _ _ Ej) as [[<- E]|[Hj E]]; [done|]. destruct (listed_create _ _ _ Hl) as [Hl'|(_ & _ & ->)]; [by eapply (f_sessions _ F)|].
    simpl in Hc. rewrite Hv in Hc. rewrite (covered_unauthorized s j _ sc x F E eq_refl Hc) in Ha. done.
  - intros j o kind res att items id r st g gr y Ej Hl Ho Hg Ey Hb. destruct (task_create _ _ Ej) as [[<- E]|[Hj E]]; [done|].
    destruct (listed_create _ _ _ Hl) as [Hl'|(_ & _ & ->)]; [by eapply (f_grants _ F)|]. simpl in Hg. by apply elem_of_nil in Hg.
Qed.

Lemma wf_create : wf (retask i (insert_session bridged x m v s).1 (insert_session bridged x m v s).2).
Proof.
  unfold insert_session. simpl. rewrite Hid. fold added. destruct (register_worker_native (worker_id x) s') as [ws Ew].
  assert (Wc : wf (retask i (Some next) s')) by (constructor; [apply create_tables|apply create_opens|apply create_fences]).
  unfold tell, record. change (set_identities _ _) with s'. rewrite Ew. exact (wf_bystander _ ws (log (set_native_workers ws s') ++ [Told (worker_id x) (SessionInstall (uuid (fresh s)))]) Wc).
Qed.
End create.

(** *** Fences go up and down *)

Lemma fence_counted sc s ts : all_counted (owner_fences s) (account_fences s) (resource_fences s) (tasks s) ->
  (forall f, map_total f ts = map_total f (tasks s) + f (Fenced sc)) ->
  all_counted (owner_fences (fence sc s)) (account_fences (fence sc s)) (resource_fences (fence sc s)) ts.
Proof.
  intros (C1 & C2 & C3) E. destruct sc; simpl; split_and!;
    first [apply (counted_up _ holds_owner_pos _ (tasks s))|apply (counted_up _ holds_account_pos _ (tasks s))|apply (counted_up _ holds_resource_pos _ (tasks s))
      |eapply counted_ext; [|eassumption]]; try done; intros k'; rewrite E; unfold holds_owner, holds_account, holds_resource; simpl; try done; lia.
Qed.

Lemma unfence_counted sc s ts : all_counted (owner_fences s) (account_fences s) (resource_fences s) (tasks s) ->
  (forall f, (forall t t', fence_of t = fence_of t' -> f t = f t') -> map_total f ts = map_total f (tasks s) - f (Fenced sc)) ->
  all_counted (owner_fences (drop_fence sc s)) (account_fences (drop_fence sc s)) (resource_fences (drop_fence sc s)) ts.
Proof.
  intros (C1 & C2 & C3) E. destruct sc; simpl; split_and!;
    first [apply (counted_down _ holds_owner_pos _ (tasks s))|apply (counted_down _ holds_account_pos _ (tasks s))|apply (counted_down _ holds_resource_pos _ (tasks s))
      |eapply counted_ext; [|eassumption]]; try done; intros k'; rewrite E by (intros t t' Ht; unfold holds_owner, holds_account, holds_resource; by rewrite Ht);
    unfold holds_owner, holds_account, holds_resource; simpl; try done; lia.
Qed.

(** The maps of fences aside, raising a fence changes nothing. *)
Lemma fence_frame sc s : exists o a r, fence sc s = set_fences o a r s.
Proof. destruct sc; by eexists _, _, _. Qed.
Lemma drop_fence_frame sc s : exists o a r, drop_fence sc s = set_fences o a r s.
Proof. destruct sc; by eexists _, _, _. Qed.

Lemma fence_authorized sc s x : identity_authorized (fence sc s) x = true -> identity_authorized s x = true.
Proof.
  unfold identity_authorized. destruct sc; simpl; [| |done]; unfold bump; intros H; apply andb_true_iff in H as [H1 H2]; apply andb_true_iff; split; try done;
    apply bool_decide_eq_true in H1, H2; apply bool_decide_eq_true; [rewrite lookup_insert in H1|rewrite lookup_insert in H2]; by case_decide.
Qed.

Lemma wf_fence sc s : wf s -> wf (spawn (Fenced sc) (fence sc s)).
Proof.
  intros W. pose proof W as [T O F]. pose proof (all_counted_wf _ W) as C. destruct (t_fresh _ T (fresh s)) as (_ & Hn & _); [lia|].
  assert (Et : forall f, map_total f (<[fresh s := Fenced sc]> (tasks s)) = map_total f (tasks s) + f (Fenced sc)) by (intros f; rewrite map_total_insert by done; lia).
  pose proof (fence_counted sc s _ C Et) as (C1 & C2 & C3). pose proof (fence_authorized sc s) as Ha.
  destruct (fence_frame sc s) as (o & a & r & Ef). unfold spawn. rewrite Ef in *. simpl in *.
  assert (Ho : forall j t, <[fresh s := Fenced sc]> (tasks s) !! j = Some t -> t = Fenced sc \/ tasks s !! j = Some t) by (intros j t; rewrite lookup_insert; case_decide; naive_solver).
  constructor; [destruct T; constructor; try done; simpl| |].
  - intros id Hid. destruct (t_names0 id Hid) as (n & Hlt & ->). exists n. split; [lia|done].
  - intros q Hq. destruct (t_fresh0 q) as (? & ? & ?); [lia|]. rewrite lookup_insert_ne by lia. done.
  - constructor; simpl.
    + intros j t y m Ej Ey. destruct (Ho j t Ej) as [->|E]; [done|]. by eapply (o_marker _ O).
    + intros j j' t t' y m m' Ej Ej' Ey Ey'. destruct (Ho j t Ej) as [->|E]; [done|]. destruct (Ho j' t' Ej') as [->|E']; [done|]. by eapply (o_alone _ O).
    + rewrite Et. pose proof (o_size _ O). simpl. lia.
    + rewrite Et. pose proof (o_limit _ O). simpl. lia.
    + intros j t y Ej Ey Hy. destruct (Ho j t Ej) as [->|E]; [done|]. eapply (o_upcoming _ O); [exact E|exact Ey|by apply Ha].
    + intros j y m id q Ej. destruct (Ho _ _ Ej) as [?|E]; [done|]. destruct (o_installing _ O _ _ _ _ _ E) as [? ?]. split; [lia|done].
    + intros id q st Hl Hr. destruct (o_unready _ O id q st Hl Hr) as [(j & y & m & E)|(j & t & E & Hd)]; [left; exists j, y, m|right; exists j, t; split; [|done]];
        simpl; (rewrite lookup_insert_ne; [done|]); intros <-; congruence.
  - constructor; simpl; [exact C1|exact C2|exact C3| |].
    + intros j sc' items id q st Ej. destruct (Ho _ _ Ej) as [?|E]; [done|]. intros Hl. by eapply (f_sessions _ F).
    + intros j o' kind res att items id q st g gr y Ej. destruct (Ho _ _ Ej) as [?|E]; [done|]. intros Hl. by eapply (f_grants _ F).
Qed.

(** A revocation goes on. *)
Lemma wf_revoking s s' i t sc items : wf s -> shrinks s s' -> tasks s !! i = Some t -> fence_of t = Some sc ->
  (forall id r st, listed s' id r st -> covers sc (identity (session st)) -> ISession id ∈ items) ->
  (forall o kind res att id r st g gr x, sc = Resource o kind res att -> listed s' id r st -> owner_id (identity (session st)) = o -> (g, gr) ∈ grants st -> grant_heap s' !! gr = Some x ->
    bound_to kind res att x = true -> IGrant id g ∈ items) ->
  wf (retask i (Some (Revoking sc items)) s').
Proof.
  intros W Sh Ei Ef H1 H2. pose proof W as [T O F]. assert (Hi : (i < fresh s')%nat).
  { pose proof (sh_fresh _ _ Sh). destruct (decide (fresh s <= i)%nat) as [Hle|]; [|lia]. destruct (t_fresh _ T _ Hle) as (_ & E & _). congruence. }
  assert (Hof : opening_of t = None /\ upcoming t = None) by (by destruct t). destruct Hof as [Hot Hut].
  constructor; [by eapply tables_step| |].
  - constructor.
    + intros j t' y m Ej Ey. simpl. rewrite (sh_opening _ _ Sh). destruct (task_after _ _ _ _ Sh _ _ Ej) as [[_ [= <-]]|[_ E]]; [done|]. by eapply (o_marker _ O).
    + intros j j' t1 t2 y m m' Ej Ej' Ey Ey'. destruct (task_after _ _ _ _ Sh _ _ Ej) as [[_ [= <-]]|[_ E]]; [done|]. destruct (task_after _ _ _ _ Sh _ _ Ej') as [[_ [= <-]]|[_ E']]; [done|]. by eapply (o_alone _ O).
    + rewrite (total_after s s' i _ Sh), Ei. simpl. rewrite (sh_opening _ _ Sh), Hot, (o_size _ O). simpl. lia.
    + rewrite (total_after s s' i _ Sh), Ei. simpl. rewrite Hut. pose proof (o_limit _ O). pose proof (sessions_after s s' Sh). simpl. lia.
    + intros j t' y Ej Ey Hy. destruct (task_after _ _ _ _ Sh _ _ Ej) as [[_ [= <-]]|[_ E]]; [done|]. by eapply (upcoming_after s s' W Sh).
    + intros j y m id r Ej. destruct (task_after _ _ _ _ Sh _ _ Ej) as [[_ E]|[_ E]]; [done|]. by eapply (installing_after s s' W Sh).
    + intros id r st Hl Hr. destruct (shrinks_listed _ _ _ _ _ Sh Hl) as (st0 & Hl0 & _ & Hid & Hrd).
      destruct (o_unready _ O id r st0 Hl0 (Hrd Hr)) as [(j & x & m & Ej)|(j & t' & Ej & Hd)].
      * left. exists j, x, m. simpl. rewrite (sh_tasks _ _ Sh), lookup_insert_ne; [done|]. intros <-. rewrite Ei in Ej. injection Ej as ->. done.
      * right. destruct (decide (i = j)) as [<-|Hne].
        { exists i, (Revoking sc items). split; [apply lookup_insert_eq|]. rewrite Ei in Ej. injection Ej as <-.
          assert (Hc : covers sc (identity (session st))) by (rewrite Hid; destruct t; try done; simpl in Ef; injection Ef as ->; [exact Hd|exact (proj1 Hd)]).
          split; [done|]. by eapply H1. }
        exists j, t'. split; [simpl; by rewrite (sh_tasks _ _ Sh), lookup_insert_ne|]. by rewrite Hid.
  - destruct (counts_after s s' i (Some (Revoking sc items)) W Sh) as (C1 & C2 & C3); [by rewrite Ei|]. constructor; [exact C1|exact C2|exact C3| |].
    + intros j sc' items' id r st Ej. destruct (task_after _ _ _ _ Sh _ _ Ej) as [[_ [= <- <-]]|[_ E]]; [by apply H1|by apply (sessions_covered s s' W Sh j)].
    + intros j o kind res att items' id r st g gr x Ej. destruct (task_after _ _ _ _ Sh _ _ Ej) as [[_ [= -> <-]]|[_ E]]; [by apply (H2 o kind res att)|by apply (grants_covered s s' W Sh j)].
Qed.

(** A revocation ends: what it covered is gone, and the fence comes down. *)
Lemma wf_unfence s i sc : wf s -> tasks s !! i = Some (Revoking sc []) -> wf (retask i None (drop_fence sc s)).
Proof.
  intros W Ei. pose proof W as [T O F].
  assert (Hd : forall j t, delete i (tasks s) !! j = Some t -> i <> j /\ tasks s !! j = Some t) by (intros j t; rewrite lookup_delete; case_decide; naive_solver).
  assert (Ft : fences (retask i None (drop_fence sc s))).
  { destruct (unfence_counted sc s (delete i (tasks s)) (all_counted_wf _ W)) as (C1 & C2 & C3); [intros f Hf; rewrite (map_total_delete _ _ _ _ Ei); by rewrite (Hf _ (Fenced sc))|].
    destruct (drop_fence_frame sc s) as (o & a & r & Ef). rewrite Ef in *. constructor; [exact C1|exact C2|exact C3| |].
    - intros j sc' items id q st Ej. destruct (Hd _ _ Ej) as [_ E]. intros Hl. by eapply (f_sessions _ F).
    - intros j o' kind res att items id q st g gr y Ej. destruct (Hd _ _ Ej) as [_ E]. intros Hl. by eapply (f_grants _ F). }
  constructor; [| |exact Ft].
  - destruct (drop_fence_frame sc s) as (o & a & r & ->). destruct T. constructor; try done. simpl. intros q Hq. destruct (t_fresh0 q Hq) as (? & ? & ?). split_and!; try done.
    rewrite lookup_delete. by case_decide.
  - assert (Ho : forall j t y, tasks s !! j = Some t -> i <> j -> upcoming t = Some y -> identity_authorized (drop_fence sc s) y = true -> identities s !! identity_key y = None).
    { intros j t y Ej Hij Ey Hy. destruct (identity_authorized s y) eqn:Ea; [by eapply (o_upcoming _ O)|].
      destruct (unauthorized_covered _ _ F Ea) as (j' & t' & sc' & Ej' & Ef' & Hc). destruct (decide (i = j')) as [<-|Hne].
      - rewrite Ei in Ej'. injection Ej' as <-. injection Ef' as <-. destruct (identities s !! identity_key y) as [id|] eqn:E; [exfalso|done].
        destruct (t_back _ T _ _ E) as (r & st & Hl & <-%identity_key_inj). by eapply elem_of_nil, (f_sessions _ F).
      - change (identity_authorized (retask i None (drop_fence sc s)) y = true) in Hy.
        rewrite (covered_unauthorized _ j' t' sc' y Ft) in Hy; [done| |done|done]. destruct (drop_fence_frame sc s) as (o & a & r & ->). simpl. by rewrite lookup_delete_ne. }
    destruct (drop_fence_frame sc s) as (o & a & r & Ef). rewrite Ef in *. constructor; simpl.
    + intros j t y m Ej. destruct (Hd _ _ Ej) as [_ E]. by eapply (o_marker _ O).
    + intros j j' t t' y m m' Ej Ej'. destruct (Hd _ _ Ej) as [_ E], (Hd _ _ Ej') as [_ E']. by eapply (o_alone _ O).
    + rewrite (map_total_delete _ _ _ _ Ei), (o_size _ O). simpl. lia.
    + rewrite (map_total_delete _ _ _ _ Ei). pose proof (o_limit _ O). simpl. lia.
    + intros j t y Ej Ey Hy. destruct (Hd _ _ Ej) as [Hne E]. by eapply Ho.
    + intros j y m id q Ej. destruct (Hd _ _ Ej) as [_ E]. exact (o_installing _ O _ _ _ _ _ E).
    + intros id q st Hl Hr. destruct (o_unready _ O id q st Hl Hr) as [(j & y & m & E)|(j & t & E & Hc)]; [left; exists j, y, m|right; exists j, t; split; [|done]];
        simpl; (rewrite lookup_delete_ne; [done|]); intros <-; rewrite Ei in E; [done|]. injection E as <-. destruct Hc as [_ Hc]. by apply elem_of_nil in Hc.
Qed.

(** ** The operations *)

(** An operation that opens nothing and fences nothing. *)
Definition calm s (x : option Task * State) : Prop := shrinks s x.2 /\ x.1 ≫= fence_of = None /\ x.1 ≫= opening_of = None.

Lemma calm_none s s' : shrinks s s' -> calm s (None, s').
Proof. by split. Qed.
Lemma calm_some s t s' : shrinks s s' -> plain t -> calm s (Some t, s').
Proof. intros S [H1 H2]. by split. Qed.
Lemma calm_record s s' e : shrinks s s' -> calm s (None, record e s').
Proof. intros S. split; [|done]. etrans; [exact S|apply shrinks_record]. Qed.
Lemma calm_told s t w c s' : shrinks s s' -> plain t -> calm s (Some t, tell w c s').
Proof. intros S [H1 H2]. split; [|done]. etrans; [exact S|apply shrinks_record]. Qed.
Lemma calm_refuse s s' why : shrinks s s' -> calm s (refuse why s').
Proof. apply calm_record. Qed.

Lemma wf_calm s i t x : wf s -> tasks s !! i = Some t -> plain t -> calm s x -> wf (retask i x.1 x.2).
Proof.
  intros W Ei [P1 P2] (Sh & H1 & H2). destruct x as [next s']; simpl in *. assert (Hu : next ≫= upcoming = None) by (destruct next as [t'|]; [by destruct t'|done]).
  apply (wf_carry s); try done.
  - intros _. pose proof (sh_fresh _ _ Sh). destruct (decide (fresh s <= i)%nat) as [Hle|]; [|lia]. destruct (t_fresh _ (wf_tables _ W) _ Hle) as (_ & E & _). congruence.
  - by rewrite Ei.
  - destruct next as [t'|]; [by destruct t'|done].
  - apply abandons_other. rewrite Ei. by destruct t.
  - by rewrite Ei, H2.
  - rewrite Ei, Hu. simpl. by destruct t.
Qed.

Lemma wf_spawn s t : wf s -> plain t -> wf (spawn t s).
Proof.
  intros W [P1 P2]. destruct (t_fresh _ (wf_tables _ W) (fresh s)) as (_ & Hn & _); [lia|].
  assert (Ho : tasks s !! fresh s ≫= opening_of = Some t ≫= opening_of) by (rewrite Hn; simpl; by rewrite P1).
  assert (Hu : tasks s !! fresh s ≫= upcoming = Some t ≫= upcoming) by (rewrite Hn; by destruct t).
  refine (wf_carry s (set_fresh (S (fresh s)) s) (fresh s) (Some t) W _ _ _ _ _ _ Ho Hu).
  - apply shrinks_quiet; simpl; auto.
  - simpl. lia.
  - by rewrite Hn.
  - exact P2.
  - by destruct t.
  - apply abandons_other. by rewrite Hn.
Qed.

Lemma wf_spawn_calm s x : wf s -> calm s x -> x.2 = s -> wf (spawn_result x).
Proof.
  intros W (_ & H1 & H2) E. destruct x as [[t|] s']; simpl in *; subst; [by apply wf_spawn|done].
Qed.

(** A step outside the tasks. *)
Lemma wf_shrinks s s' : wf s -> shrinks s s' -> wf s'.
Proof.
  intros W Sh. destruct (t_fresh _ (wf_tables _ W) (fresh s)) as (_ & Hn & _); [lia|].
  assert (E : s' = retask (fresh s) None s'). { unfold retask. simpl. rewrite (sh_tasks _ _ Sh), delete_id by done. rewrite <- (sh_tasks _ _ Sh). by destruct s'. }
  rewrite E. apply (wf_carry s); try done; try (by rewrite Hn); try (by intros []). apply abandons_other. by rewrite Hn.
Qed.

Lemma shrinks_renewed_grant gr x y s : grant_heap s !! gr = Some x -> same_grant x y -> shrinks s (set_grant_heap (<[gr := y]> (grant_heap s)) s).
Proof.
  intros E Hy. split; try done.
  - intros r st g gr' x'. simpl. rewrite lookup_insert. intros Es Hg Ex. left. case_decide; [subst gr'; injection Ex as <-; by exists st, x|by exists st, x'].
  - intros H r st g gr' Es Hg. simpl. rewrite lookup_insert. destruct (H _ _ _ _ Es Hg) as (z & Ez & Hz). case_decide; [|by exists z]. subst gr'. exists y. split; [done|].
    destruct Hy as (_ & E1 & E2). simplify_eq. unfold neat_grant. by rewrite E1, E2.
  - intros gr' _. simpl. rewrite lookup_insert. case_decide; [congruence|done].
Qed.

Lemma ready_state_listed s id r st : ready_state s id = inr (r, st) -> listed s id r st /\ identity_authorized s (identity (session st)) = true.
Proof.
  unfold ready_state. destruct (session_at s id) as [[r' st']|] eqn:E; [|done]. apply session_at_listed in E. destruct (ready st'); [|done]. simpl.
  destruct (identity_authorized _ _) eqn:Ea; [|done]. intros [= <- <-]. done.
Qed.

(** Ends a branch that opens nothing. *)
Ltac calm :=
  repeat first
    [ apply calm_refuse | apply calm_record | apply calm_none | apply calm_told; [|done] | apply calm_some; [|done] ];
  try reflexivity; try apply shrinks_record; try apply shrinks_update_peer; try apply shrinks_drop_grant; try apply shrinks_set_peers.

Lemma renew_session_calm id d now s : calm s (renew_session options id d now s).
Proof. unfold renew_session. destruct (ready_state s id) as [why|[r st]]; [calm|]. destruct (renewed _ _ _ _); calm. Qed.

(** What a contract answers of a value that is trimmed already. *)
Lemma checked_session_same v v' : trimmed (identity v) = identity v -> checked_session v = Some v' -> v' = v.
Proof. unfold checked_session. intros E. destruct (accepts_session v); [|done]. rewrite E. intros [= <-]. by destruct v. Qed.
Lemma checked_grant_same g g' : neat_grant g -> checked_grant g = Some g' -> same_grant g g'.
Proof. unfold checked_grant. intros [E1 E2]. destruct (accepts_grant g); [|done]. rewrite E1, E2. by intros [= <-]. Qed.
Lemma checked_grant_neat g g' : checked_grant g = Some g' -> neat_grant g'.
Proof. unfold checked_grant. destruct (accepts_grant g); [|done]. intros [= <-]. split; apply trim_idem. Qed.

Lemma session_renewed_calm id r d l ack s : tables s -> calm s (session_renewed id r d l ack s).
Proof.
  intros T. unfold session_renewed. destruct ack; [|calm]. destruct (current s id r); [|calm]. simpl. destruct (session_heap s !! r) as [st|] eqn:E; [|calm].
  destruct (checked_session _) as [v|] eqn:Ev; calm. apply checked_session_same in Ev as ->; [|by eapply (t_neat _ T)]. by eapply shrinks_session.
Qed.

Lemma renew_peers_calm id r d l ps now s : calm s (renew_peers id r d l ps now s).
Proof.
  unfold renew_peers. destruct ps as [|p ps]; [calm|]. destruct (peer_heap s !! p) as [x|]; [|calm]. destruct (p_ready x); [|calm]. simpl.
  destruct (renewed _ _ _ _); [calm|]. apply calm_some; [|done]. by apply shrinks_told.
Qed.

Lemma peer_renewed_calm id r d l p pl ps ack s : calm s (peer_renewed id r d l p pl ps ack s).
Proof.
  unfold peer_renewed. destruct (peer_heap s !! p) as [x|]; [|calm]. destruct ack.
  - destruct (has_peer _ _ _ _); [|calm]. destruct (checked_peer _); calm.
  - apply calm_some; [|done]. apply shrinks_told, shrinks_set_peers.
Qed.

Lemma replace_route_calm id route s : calm s (replace_route id route s).
Proof.
  unfold replace_route. destruct (ready_state s id) as [why|[r st]]; [calm|]. destruct (bool_decide (preferred_route _ = _)); [calm|].
  destruct (bool_decide (route ∈ _)); calm.
Qed.

Lemma route_replaced_calm id r route g ack s : tables s -> calm s (route_replaced id r route g ack s).
Proof.
  intros T. unfold route_replaced. destruct ack; [|calm]. destruct (current s id r); [|calm]. simpl. destruct (session_heap s !! r) as [st|] eqn:E; [|calm].
  destruct (checked_session _) as [v|] eqn:Ev; calm. apply checked_session_same in Ev as ->; [|by eapply (t_neat _ T)]. by eapply shrinks_session.
Qed.

(** A grant is issued for a resource that no one revokes. *)
Lemma shrinks_issued r st g s : tables s -> neat_grant g -> session_heap s !! r = Some st -> resource_fences s !! resource_key (owner_id (identity (session st))) (g_kind g) (g_resource g) = None ->
  shrinks s (update_session r (fun st => set_grants (IndexMap.insert (grant_id g) (fresh s) (grants st)) st) (set_fresh (S (fresh s)) (set_grant_heap (<[fresh s := g]> (grant_heap s)) s))).
Proof.
  intros T Hn Er Hf. split; try done; try (simpl; lia).
  - intros r'. simpl. rewrite lookup_alter. case_decide; [subst r'|reflexivity]. rewrite Er. simpl. by constructor.
  - intros r' st' g' gr x'. simpl. rewrite lookup_alter, lookup_insert. intros E Hin Ex. destruct (decide (r = r')) as [<-|Hrr].
    + rewrite Er in E. injection E as <-. simpl in Hin. destruct (decide (fresh s = gr)) as [Hgr|Hgr]; [right; by injection Ex as <-|left]. exists st, x'. split_and!; try done.
      apply IndexMap.elem_of_insert in Hin as [[= _ ->]|Hin]; done.
    + left. exists st', x'. split_and!; try done. destruct (decide (fresh s = gr)) as [<-|Hgr]; [|done]. destruct (t_grants _ T _ _ _ _ E Hin) as (y & Hy & _). destruct (t_fresh _ T (fresh s)) as (_ & _ & Hf'); [lia|]. congruence.
  - intros H r' st' g' gr. simpl. rewrite lookup_alter, lookup_insert. destruct (decide (r = r')) as [<-|Hrr]; (destruct (decide (fresh s = gr)) as [Hgr|Hgr]; [by intros _ _; exists g|]).
    + rewrite Er. intros [= <-] Hin. simpl in Hin. apply IndexMap.elem_of_insert in Hin as [[= _ ->]|Hin]; [done|]. by eapply H.
    + apply H.
  - intros gr Hgr. simpl in *. rewrite lookup_insert_ne by lia. done.
Qed.

Lemma prepare_grant_free n now s r v k g : tidy_grant n -> prepare_grant uuid n now s = inr (r, v, k, g) ->
  session_heap s !! r ≫= (fun st => Some (session st)) = Some v /\ resource_fences s !! resource_key (owner_id (identity v)) (g_kind g) (g_resource g) = None /\ grant_id g = uuid (fresh s) /\ neat_grant g.
Proof.
  intros Hn. unfold prepare_grant. destruct (ready_state s (n_session n)) as [why|[r' st]] eqn:Er; [done|]. apply ready_state_listed in Er as [[_ Er] _]. cbv zeta. intros E.
  destruct (bool_decide (is_Some _)) eqn:Ef; [done|]. destruct (MAX_GRANTS <=? _); [done|]. apply bool_decide_eq_false, eq_None_not_Some in Ef.
  repeat (match type of E with (match ?x with _ => _ end) = _ => destruct x eqn:? end; try done); injection E as <- <- <- <-;
    match goal with Hg : checked_grant _ = Some _ |- _ => pose proof (checked_grant_neat _ _ Hg); unfold checked_grant in Hg; destruct (accepts_grant _); [|done]; injection Hg as <- end;
    simpl in *; rewrite Er; (split_and!; [done|by rewrite Hn|done|done]).
Qed.

Lemma issue_grant_calm n now s : tables s -> tidy_grant n -> calm s (issue_grant uuid n now s).
Proof.
  intros T Hn. unfold issue_grant. destruct (prepare_grant uuid n now s) as [why|[[[r v] k] g]] eqn:E; [calm|]. apply calm_told; [|done].
  apply (prepare_grant_free _ _ _ _ _ _ _ Hn) in E as (Er & Ef & _ & Hg). apply bind_Some in Er as (st & Er & [= <-]). by eapply shrinks_issued.
Qed.

Lemma grant_installed_calm id r g gr k ack s : calm s (grant_installed id r g gr k ack s).
Proof.
  unfold grant_installed. destruct ack; simpl; [|destruct (has_grant _ _ _ _); calm]. destruct (_ && _ && _).
  - destruct (grant_heap s !! gr); calm.
  - apply calm_refuse. by apply shrinks_told.
Qed.

Lemma renew_grant_calm id g d now s : calm s (renew_grant id g d now s).
Proof.
  unfold renew_grant. destruct (ready_state s id) as [why|[r st]]; [calm|]. destruct (_ ≫= _) as [[gr x]|]; [|calm]. destruct (renewed _ _ _ _); calm.
Qed.

Lemma grant_renewed_calm id r g gr l ack s : tables s -> calm s (grant_renewed id r g gr l ack s).
Proof.
  intros T. unfold grant_renewed. destruct ack; [|calm]. simpl. destruct (_ && _) eqn:Eh; [|calm]. simpl. destruct (grant_heap s !! gr) as [x|] eqn:E; [|calm].
  destruct (checked_grant _) as [y|] eqn:Ey; calm. eapply shrinks_renewed_grant; [done|]. apply andb_true_iff in Eh as [_ Eh]. unfold has_grant in Eh.
  destruct (session_heap s !! r) as [st|] eqn:Es; [|done]. apply bool_decide_eq_true, IndexMap.get_In in Eh. destruct (t_grants _ T _ _ _ _ Es Eh) as (x' & Ex & Hx). simplify_eq.
  exact (checked_grant_same (set_grant_lease l x) y Hx Ey).
Qed.

Lemma open_peer_calm id route g s : calm s (open_peer options id route g s).
Proof.
  unfold open_peer. destruct (ready_state s id) as [why|[r st]]; [calm|]. destruct (peer_configuration options); [|calm]. destruct (_ || _); [calm|]. destruct (g =? _); [|calm].
  simpl. destruct (filter _ _); [|calm]. destruct (opening_peers s !! _); [calm|]. apply calm_some; [|done]. apply shrinks_quiet; simpl; auto.
Qed.

Lemma shrinks_finish_peer round m s : shrinks s (finish_peer round m s).
Proof. unfold finish_peer. case_bool_decide; [by apply shrinks_quiet|reflexivity]. Qed.
Lemma refuse_peer_calm round m why s s' : shrinks s s' -> calm s (refuse_peer round m why s').
Proof. intros S. apply calm_refuse. etrans; [exact S|apply shrinks_finish_peer]. Qed.

Lemma prepare_peer_calm r route round m now s : calm s (prepare_peer options uuid r route round m now s).
Proof.
  unfold prepare_peer. destruct (session_heap s !! r) as [st|] eqn:E; [|by apply refuse_peer_calm]. destruct (peer_configuration options); [|by apply refuse_peer_calm]. cbv zeta.
  destruct (_ <=? _); [by apply refuse_peer_calm|]. destruct (_ <=? _); [by apply refuse_peer_calm|]. destruct (iso now); [|by apply refuse_peer_calm].
  destruct (checked_peer _); [|by apply refuse_peer_calm]. simpl. apply calm_told; [|done]. etrans; [|apply shrinks_set_peers]. apply shrinks_quiet; simpl; auto.
Qed.

Lemma peer_installed_calm id r p pr g round m ack s : calm s (peer_installed id r p pr g round m ack s).
Proof.
  unfold peer_installed. destruct ack; simpl; [|apply refuse_peer_calm; destruct (has_peer _ _ _ _); calm]. destruct (_ && _ && _).
  - destruct (_ !! pr); [apply calm_record|apply calm_none]; (etrans; [apply shrinks_update_peer|apply shrinks_finish_peer]).
  - apply calm_some; [|done]. by apply shrinks_told.
Qed.

Lemma signal_peer_calm e s : calm s (signal_peer e s) /\ ((signal_peer e s).1 <> None -> (signal_peer e s).2 = s).
Proof.
  unfold signal_peer. destruct (ready_state s _) as [why|[r st]]; [split; [calm|done]|]. destruct (IndexMap.get _ _); (split; [calm|done]).
Qed.

Lemma take_turn_calm e r pr now s : calm s (take_turn e r pr now s).
Proof.
  unfold take_turn. destruct (peer_heap s !! pr) as [x|]; [|calm]. destruct (turn x); [calm|]. cbv zeta. destruct (_ && _ && has_peer _ _ _ _); [|calm]. simpl.
  destruct (_ =? _); [|calm]. simpl. destruct (256 <=? _); [apply calm_refuse, revoke_peer_shrinks|]. apply calm_some; [|done]. apply shrinks_told, shrinks_update_peer.
Qed.

Lemma signalled_calm e r pr ack s : calm s (signalled e r pr ack s).
Proof.
  unfold signalled. destruct ack; [|calm]. simpl. apply calm_record. destruct (_ && _); [etrans|]; apply shrinks_update_peer.
Qed.

Lemma begin_calm after now s : tables s -> tidy_after after -> calm s (begin options uuid after now s).
Proof.
  intros T Hn. destruct after; simpl; [calm|calm|apply renew_session_calm|apply replace_route_calm|by apply issue_grant_calm|apply renew_grant_calm|apply open_peer_calm].
Qed.

Lemma read_peer_mailbox_shrinks id p x y now s : shrinks s (read_peer_mailbox id p x y now s).
Proof.
  unfold read_peer_mailbox. destruct (ready_state s id) as [why|[r st]]; [apply shrinks_record|]. destruct (_ ≫= _) as [[pr z]|]; [|apply shrinks_record].
  destruct (_ || _); [apply shrinks_record|]. destruct (_ || _); [apply shrinks_record|]. cbv zeta. etrans; [apply shrinks_update_peer|apply shrinks_record].
Qed.

Lemma receive_notification_shrinks b w e now s : shrinks s (receive_notification b w e now s).
Proof.
  unfold receive_notification. destruct (owner_of_peer _ s) as [[[id v] pr]|]; [|done]. destruct (peer_heap s !! pr) as [x|]; [|done].
  destruct (post _ _ _ _ _ _); [by apply shrinks_quiet|apply revoke_peer_shrinks].
Qed.

(** ** Every step keeps the invariant *)

Lemma elem_entries s id r st : listed s id r st -> (id, st) ∈ entries s.
Proof. intros [H E]. unfold entries. apply list_elem_of_omap. exists (id, r). split; [done|]. simpl. by rewrite E. Qed.
Lemma elem_sessions_where s test id r st : listed s id r st -> test (session st) = true -> id ∈ sessions_where test s.
Proof. intros H E. unfold sessions_where. apply list_elem_of_fmap. exists (id, st). split; [done|]. apply list_elem_of_filter. split; [done|]. by eapply elem_entries. Qed.

Lemma targets_sessions sc s id r st : listed s id r st -> covers sc (identity (session st)) -> ISession id ∈ targets sc s.
Proof.
  intros Hl Hc. destruct sc; simpl in *; [| |done]; apply list_elem_of_fmap_2; (eapply elem_sessions_where; [exact Hl|]); by apply bool_decide_eq_true.
Qed.
Lemma targets_grants o kind res att s id r st g gr x : listed s id r st -> owner_id (identity (session st)) = o -> (g, gr) ∈ grants st -> grant_heap s !! gr = Some x ->
  bound_to kind res att x = true -> IGrant id g ∈ targets (Resource o kind res att) s.
Proof.
  intros Hl Ho Hg Ex Hb. simpl. apply list_elem_of_bind. exists (id, st). split; [|apply list_elem_of_filter; split; [done|by eapply elem_entries]].
  apply list_elem_of_fmap. exists (g, gr). split; [done|]. apply list_elem_of_filter. simpl. rewrite Ex. done.
Qed.

Lemma revoke_grant_gone id g s r st gr : tables s -> listed (revoke_grant id g s).2 id r st -> (g, gr) ∉ grants st.
Proof.
  intros T Hl Hg. pose proof (revoke_grant_shrinks id g s) as Sh. destruct (shrinks_listed _ _ _ _ _ Sh Hl) as (st0 & Hl0 & _).
  unfold revoke_grant in *. rewrite (listed_session_at _ _ _ _ T Hl0) in *. destruct (IndexMap.get g (grants st0)) eqn:E.
  - destruct Hl as [_ Es]. simpl in Es. rewrite lookup_alter_eq, (proj2 Hl0) in Es. injection Es as <-. simpl in Hg. by apply IndexMap.elem_of_remove in Hg as [? _].
  - destruct (listed_fun _ _ _ _ _ _ T Hl Hl0) as [_ ->]. apply IndexMap.get_None in E. apply E. apply list_elem_of_fmap. by exists (g, gr).
Qed.

Lemma covered_doomed s id r st : wf s -> listed s id r st -> identity_authorized s (identity (session st)) = false -> doomed s id st.
Proof.
  intros W Hl Ha. destruct (unauthorized_covered _ _ (wf_fences _ W) Ha) as (j & t & sc & Ej & Ef & Hc). exists j, t. split; [done|].
  destruct t; try done; simpl in Ef; injection Ef as ->; [done|]. split; [done|]. by eapply (f_sessions _ (wf_fences _ W)).
Qed.

Lemma wf_said s i next e : wf (retask i next s) -> wf (retask i next (record e s)).
Proof. intros W. exact (wf_shrinks _ _ W (shrinks_record e _)). Qed.

Lemma task_bound s i t : wf s -> tasks s !! i = Some t -> (i < fresh s)%nat.
Proof. intros W E. destruct (decide (fresh s <= i)%nat) as [Hle|]; [|lia]. destruct (t_fresh _ (wf_tables _ W) _ Hle) as (_ & En & _). congruence. Qed.

Lemma wf_revoke_next s i sc it items : wf s -> tasks s !! i = Some (Revoking sc (it :: items)) -> wf (retask i (Some (Revoking sc items)) (revoke_item it s)).
Proof.
  intros W Ei. pose proof W as [T O F]. pose proof (revoke_item_shrinks it s T) as Sh. eapply wf_revoking; [exact W|exact Sh|exact Ei|done| |].
  - intros id r st Hl Hc. pose proof (sessions_covered s _ W Sh _ _ _ _ _ _ Ei Hl Hc) as [<-|Hin]%elem_of_cons; [|done]. destruct (revoke_session_gone id s r st T Hl).
  - intros o kind res att id r st g gr x -> Hl Ho Hg Ex Hb. pose proof (grants_covered s _ W Sh _ _ _ _ _ _ _ _ _ _ _ _ Ei Hl Ho Hg Ex Hb) as [<-|Hin]%elem_of_cons; [|done].
    destruct (revoke_grant_gone id g s r st gr T Hl Hg).
Qed.

Lemma wf_ended s s' i t x m why : wf s -> tasks s !! i = Some t -> opening_of t = Some (x, m) -> shrinks s s' -> abandons s s' i ->
  wf (retask i (refuse_open x m why s').1 (refuse_open x m why s').2).
Proof.
  intros W Ei Eo Sh Ha. apply wf_said. apply (wf_finish s); try done; [by intros []|rewrite Ei; by destruct t|by rewrite Ei].
Qed.

Lemma wf_installed s i x m id r ack : wf s -> tasks s !! i = Some (Installing x m id r) -> wf (retask i (installed x m id r ack s).1 (installed x m id r ack s).2).
Proof.
  intros W Ei. pose proof W as [T O F]. unfold installed. destruct ack; simpl.
  - destruct (current s id r && identity_authorized s x) eqn:E; simpl.
    + assert (Sh : shrinks s (update_session r (set_ready true) s)) by (by apply shrinks_update).
      assert (Wf : wf (retask i None (finish_open x m (update_session r (set_ready true) s)))); [|destruct (alter _ _ _ !! r); [by apply wf_said|done]].
      apply (wf_finish s); try done; try (by intros []); [by rewrite Ei| |by rewrite Ei]. intros y n id' r' st. rewrite Ei. intros [= <- <- <- <-] [_ Hl]. simpl in Hl. rewrite lookup_alter_eq in Hl.
      destruct (session_heap s !! r); [|done]. by injection Hl as <-.
    + apply wf_said. apply (wf_carry s); try done; try (by rewrite Ei); [intros _; by eapply task_bound|]. intros y n id' r' st. rewrite Ei. intros [= <- <- <- <-] Hl _.
      apply (covered_doomed s id r st W Hl). rewrite (listed_current _ _ _ _ T Hl) in E. by rewrite (proj2 (o_installing _ O _ _ _ _ _ Ei) st Hl).
  - eapply wf_ended; [done|exact Ei|done|by apply shrinks_remove|]. intros y n id' r' st. rewrite Ei. intros [= <- <- <- <-] Hl. by destruct (removed_gone id r s st T).
Qed.

Lemma wf_created s i x m now : wf s -> trimmed x = x -> tasks s !! i = Some (Replacing x m []) -> wf (retask i (create_session options uuid bridged x m now s).1 (create_session options uuid bridged x m now s).2).
Proof.
  intros W Hx Ei. assert (Hr : forall why, wf (retask i (refuse_open x m why s).1 (refuse_open x m why s).2)).
  { intros why. eapply wf_ended; [done|exact Ei|done|done|]. apply abandons_other. by rewrite Ei. }
  unfold create_session. destruct (closed s); [apply Hr|]. destruct (identity_authorized s x) eqn:Ea; [|apply Hr]. simpl.
  destruct (new_session options (uuid (fresh s)) x now) as [v|] eqn:Ev; [|apply Hr]. assert (Hv : session_id v = uuid (fresh s) /\ identity v = x).
  { unfold new_session in Ev. cbv zeta in Ev. apply bind_Some in Ev as (? & _ & Ev). apply bind_Some in Ev as (? & _ & Ev). apply bind_Some in Ev as (? & _ & Ev).
    apply checked_session_same in Ev as ->; [done|exact Hx]. }
  destruct Hv. by apply wf_create.
Qed.

Lemma wf_resolved s i oi a : wf s -> tasks s !! i = Some (Resolving oi) -> wf (retask i (open_resolved options oi a s).1 (open_resolved options oi a s).2).
Proof.
  intros W Ei. assert (Hc : forall x, calm s x -> wf (retask i x.1 x.2)) by (intros x; by apply (wf_calm s i (Resolving oi))).
  unfold open_resolved. destruct (_ && _ && _); simpl; [|apply (Hc (refuse _ _)); calm]. set (x := MkIdentity _ _ _ _ _ _ _).
  destruct (identities s !! _ ≫= _) as [v|] eqn:Ex; [apply (Hc (None, _)); calm|]. destruct (opening s !! _) eqn:Eo; [apply (Hc (None, _)); calm|].
  destruct (_ <=? _) eqn:El; [apply (Hc (refuse _ _)); calm|]. reflect_bools. eapply wf_start; [done|exact Ei|done|done| |done|done].
  intros id r st E1 E2. rewrite E1 in Ex. simpl in Ex. rewrite E2 in Ex. simpl in Ex. by destruct (ready st).
Qed.

(** All tasks but those that open sessions or hold fences are calm. *)
Lemma run_calm t a now s : tables s -> neat_task t -> plain t -> (forall oi, t <> Resolving oi) -> calm s (run options uuid bridged t a now s).
Proof.
  intros T Hn [P1 P2] Hr.
  destruct t as [items after|oi|x m|x m ids|x m id r|x m|id r d l|id r d l ps|id r d l p pl ps|id r route g|id ps|id r g gr k|id r g gr l|r route round m|id r p pr g round m|round m|e r pr|e r pr|sc|sc items|ids|ids]; try done.
  - destruct items as [|it items]; [by apply begin_calm|]. apply calm_some; [by apply revoke_item_shrinks|done].
  - by destruct (Hr oi).
  - by apply session_renewed_calm.
  - apply renew_peers_calm.
  - apply peer_renewed_calm.
  - by apply route_replaced_calm.
  - destruct ps; [calm|]. apply calm_some; [apply revoke_peer_shrinks|done].
  - apply grant_installed_calm.
  - by apply grant_renewed_calm.
  - apply prepare_peer_calm.
  - apply peer_installed_calm.
  - by apply refuse_peer_calm.
  - apply take_turn_calm.
  - apply signalled_calm.
  - destruct ids; [calm|]. apply calm_some; [by apply revoke_session_shrinks|done].
  - destruct ids; [apply calm_none; by apply shrinks_quiet|]. apply calm_some; [by apply revoke_session_shrinks|done].
Qed.

Lemma wf_run t a now s i : wf s -> neat_task t -> tasks s !! i = Some t -> wf (retask i (run options uuid bridged t a now s).1 (run options uuid bridged t a now s).2).
Proof.
  intros W Hn Ei. pose proof W as [T O F].
  assert (Hc : plain t -> (forall oi, t <> Resolving oi) -> wf (retask i (run options uuid bridged t a now s).1 (run options uuid bridged t a now s).2)).
  { intros Hp Hr. eapply wf_calm; [done|done|done|]. by apply run_calm. }
  destruct t as [items after|oi|x m|x m ids|x m id r|x m|id r d l|id r d l ps|id r d l p pl ps|id r route g|id ps|id r g gr k|id r g gr l|r route round m|id r p pr g round m|round m|e r pr|e r pr|sc|sc items|ids|ids];
    try (by apply Hc).
  - destruct a; [|by apply wf_resolved]. eapply wf_calm; [done|exact Ei|done|]. simpl. calm.
  - apply (wf_carry s); try done; try (by rewrite Ei); [intros _; by eapply task_bound|]. apply abandons_other. by rewrite Ei.
  - destruct ids as [|id ids]; [by apply wf_created|]. pose proof (revoke_session_shrinks id s T) as Sh.
    apply (wf_carry s); try done; try (by rewrite Ei); [intros _; eapply Nat.lt_le_trans; [by eapply task_bound|apply Sh]|]. apply abandons_other. by rewrite Ei.
  - by apply wf_installed.
  - eapply wf_ended; [done|exact Ei|done|done|]. apply abandons_other. by rewrite Ei.
  - eapply wf_revoking; [exact W|reflexivity|exact Ei|done| |]; simpl.
    + intros id r st. apply targets_sessions.
    + intros o kind res att id r st g gr y ->. by apply targets_grants.
  - destruct items as [|it items]; [apply wf_said; by apply wf_unfence|by apply wf_revoke_next].
Qed.

(** A step leaves the other tasks alone and only takes new names. *)
Lemma run_frame t a now s : tables s -> neat_task t -> let s' := (run options uuid bridged t a now s).2 in tasks s' = tasks s /\ (fresh s <= fresh s')%nat.
Proof.
  intros T Hneat. assert (Hs : forall x, shrinks s x -> tasks x = tasks s /\ (fresh s <= fresh x)%nat) by (intros x S; by split; apply S).
  assert (Hf : forall x m s', tasks (finish_open x m s') = tasks s' /\ fresh (finish_open x m s') = fresh s') by (intros x m s'; unfold finish_open; by case_bool_decide).
  assert (Hr : forall x m s', shrinks s s' -> tasks (finish_open x m s') = tasks s /\ (fresh s <= fresh (finish_open x m s'))%nat) by (intros x m s' S; destruct (Hf x m s') as [-> ->]; by apply Hs).
  assert (Hc : plain t -> (forall oi, t <> Resolving oi) -> tasks (run options uuid bridged t a now s).2 = tasks s /\ (fresh s <= fresh (run options uuid bridged t a now s).2)%nat).
  { intros Hp Hn. apply Hs. by apply run_calm. }
  destruct t as [items after|oi|x m|x m ids|x m id r|x m|id r d l|id r d l ps|id r d l p pl ps|id r route g|id ps|id r g gr k|id r g gr l|r route round m|id r p pr g round m|round m|e r pr|e r pr|sc|sc items|ids|ids];
    try (by apply Hc); simpl.
  - destruct a as [|w]; [done|]. unfold open_resolved. cbv zeta. destruct (negb _); [done|]. destruct (_ ≫= _); [done|]. destruct (opening s !! _); [done|]. destruct (_ <=? _); [done|]. simpl. split; [done|lia].
  - done.
  - destruct ids as [|id ids]; [|by apply Hs, revoke_session_shrinks]. unfold create_session. destruct (closed s); [by apply Hr|]. destruct (negb _); [by apply Hr|].
    destruct (new_session _ _ _ _) as [v|]; [|by apply Hr]. unfold insert_session. simpl. match goal with |- context [register_worker _ _ ?z] => set (z' := z) end.
    destruct (register_worker_native (worker_id x) z') as [ws ->]. simpl. split; [done|lia].
  - unfold installed. destruct (ok a); simpl; [|by apply Hr, shrinks_remove]. destruct (_ && _); [|done]. simpl. destruct (alter _ _ _ !! r); by apply (Hr x m (update_session r (set_ready true) s)), shrinks_update.
  - by apply Hr.
  - done.
  - destruct items as [|it items]; [|by apply Hs, revoke_item_shrinks]. destruct (drop_fence_frame sc s) as (? & ? & ? & ->). done.
Qed.

Lemma wf_start_op after now s : wf s -> wf (start after now s).
Proof.
  intros W. assert (Hr : forall e, wf (record e s)) by (intros e; exact (wf_shrinks _ _ W (shrinks_record e s))).
  assert (Hs : wf (spawn (Sweeping (expired_items now s) after) s)) by (by apply wf_spawn).
  unfold start. destruct after; [exact Hs|destruct (closed s); [apply Hr|]; destruct (_ && _); [exact Hs|apply Hr]|..]; (destruct (closed s); [apply Hr|exact Hs]).
Qed.

Lemma wf_initial : wf new.
Proof.
  constructor.
  - constructor; simpl; try done; try (intros ?; by rewrite ?elem_of_nil); [constructor|intros ??; by rewrite elem_of_nil|]. by intros id r st [H _]; apply elem_of_nil in H.
  - constructor; simpl; try done. by intros id r st [H _]; apply elem_of_nil in H.
  - constructor; simpl; try done; intros k; by rewrite map_total_empty, lookup_empty.
Qed.

(** *** Names stay trimmed *)

Definition neat s : Prop := forall j t, tasks s !! j = Some t -> neat_task t.

Lemma resolved_neat oi a s t : tidy_open oi -> (open_resolved options oi a s).1 = Some t -> neat_task t.
Proof.
  intros [H1 H2]. unfold open_resolved. cbv zeta. destruct (_ && _ && _) eqn:E; [|done]. simpl negb. cbv iota. destruct (_ ≫= _); [done|]. destruct (opening s !! _); [done|].
  destruct (_ <=? _); [done|]. intros [= <-]. reflect_bools. destruct_and?. repeat match goal with H : bool_decide _ = true |- _ => apply bool_decide_eq_true in H end.
  simpl in *. unfold trimmed. simpl. rewrite H1, H2, Hgen, trim_idem. repeat match goal with H : trim _ = _ |- _ => rewrite <- H, trim_idem end. done.
Qed.

Lemma run_neat t a now s t' : neat_task t -> (run options uuid bridged t a now s).1 = Some t' -> neat_task t'.
Proof.
  intros Hn.
  destruct t as [items after|oi|x m|x m ids|x m id r|x m|id r d l|id r d l ps|id r d l p pl ps|id r route g|id ps|id r g gr k|id r g gr l|r route round m|id r p pr g round m|round m|e r pr|e r pr|sc|sc items|ids|ids]; simpl in *.
  - destruct items as [|it items]; [|by intros [= <-]]. destruct after; simpl in *; try done.
    + by intros [= <-].
    + unfold renew_session. repeat case_match; intros [= <-]; done.
    + unfold replace_route. repeat case_match; intros [= <-]; done.
    + unfold issue_grant. repeat case_match; intros [= <-]; done.
    + unfold renew_grant. repeat case_match; intros [= <-]; done.
    + unfold open_peer. repeat case_match; intros [= <-]; done.
  - destruct a as [|w]; [done|]. by apply resolved_neat.
  - by intros [= <-].
  - destruct ids; [|by intros [= <-]]. unfold create_session, insert_session. repeat case_match; intros [= <-]; done.
  - unfold installed. repeat case_match; intros [= <-]; done.
  - done.
  - unfold session_renewed. repeat case_match; intros [= <-]; done.
  - unfold renew_peers. repeat case_match; intros [= <-]; done.
  - unfold peer_renewed. repeat case_match; intros [= <-]; done.
  - unfold route_replaced. repeat case_match; intros [= <-]; done.
  - destruct ps; intros [= <-]; done.
  - unfold grant_installed. repeat case_match; intros [= <-]; done.
  - unfold grant_renewed. repeat case_match; intros [= <-]; done.
  - unfold prepare_peer. repeat case_match; intros [= <-]; done.
  - unfold peer_installed. repeat case_match; intros [= <-]; done.
  - done.
  - unfold take_turn. repeat case_match; intros [= <-]; done.
  - unfold signalled. repeat case_match; intros [= <-]; done.
  - by intros [= <-].
  - destruct items; intros [= <-]; done.
  - destruct ids; intros [= <-]; done.
  - destruct ids; intros [= <-]; done.
Qed.

Lemma neat_spawn t s : neat s -> neat_task t -> neat (spawn t s).
Proof. intros N Ht j t' E. simpl in E. apply lookup_insert_Some in E as [[_ <-]|[_ E]]; [done|by eapply N]. Qed.

Lemma neat_same s s' : neat s -> tasks s' = tasks s -> neat s'.
Proof. intros N E j t. rewrite E. apply N. Qed.

Lemma neat_every o s : wf s -> neat s -> tidy o -> neat (exec options uuid bridged o s).
Proof.
  intros W N Ho. pose proof (wf_tables _ W) as T. assert (Hs : forall s', shrinks s s' -> neat s') by (intros s' S; by eapply neat_same, S).
  destruct o as [after now|e|id p x y now|b w e now|sc|id|id g|id p|w g| |i a now]; cbn [exec].
  - assert (Hp : neat (spawn (Sweeping (expired_items now s) after) s)) by (by apply neat_spawn).
    unfold start. destruct after; [exact Hp|destruct (closed s); [done|]; destruct (_ && _); [exact Hp|done]|..]; (destruct (closed s); [done|exact Hp]).
  - destruct (signal_peer_calm e s) as [C Hq]. unfold spawn_result. destruct (signal_peer e s) as [[t|] s'] eqn:E; simpl in *; [|apply Hs, (proj1 C)].
    rewrite Hq by done. apply neat_spawn; [done|]. revert E. unfold signal_peer. repeat case_match; intros [= <- <-]; done.
  - apply Hs, read_peer_mailbox_shrinks.
  - apply Hs, receive_notification_shrinks.
  - apply neat_spawn; [|done]. destruct (fence_frame sc s) as (o & a & r & ->). done.
  - by apply Hs, revoke_session_shrinks.
  - apply Hs, revoke_grant_shrinks.
  - apply Hs, revoke_peer_shrinks.
  - by apply neat_spawn.
  - destruct (closed s); [done|]. by apply neat_spawn.
  - destruct (tasks s !! i) as [t|] eqn:Ei; [|done]. destruct (run_frame t a now s T (N _ _ Ei)) as [Et _]. pose proof (run_neat t a now s) as Hr.
    destruct (run options uuid bridged t a now s) as [next s']. simpl in *. intros j t'. simpl. rewrite Et. destruct next as [t1|].
    + intros E. apply lookup_insert_Some in E as [[_ <-]|[_ E]]; [|by eapply N]. apply Hr; [by eapply N|done].
    + intros E. apply lookup_delete_Some in E as [_ E]. by eapply N.
Qed.

Lemma wf_every o s : wf s -> neat s -> wf (exec options uuid bridged o s).
Proof.
  intros W N. pose proof (wf_tables _ W) as T. destruct o as [after now|e|id p x y now|b w e now|sc|id|id g|id p|w g| |i a now]; cbn [exec].
  - by apply wf_start_op.
  - destruct (signal_peer_calm e s) as [C Hs]. unfold spawn_result. destruct (signal_peer e s) as [[t|] s'] eqn:E; simpl in *.
    + rewrite Hs by done. apply wf_spawn; [done|]. destruct C as (_ & H1 & H2). by split.
    + eapply wf_shrinks; [exact W|]. exact (proj1 C).
  - eapply wf_shrinks; [done|apply read_peer_mailbox_shrinks].
  - eapply wf_shrinks; [done|apply receive_notification_shrinks].
  - by apply wf_fence.
  - eapply wf_shrinks; [done|by apply revoke_session_shrinks].
  - eapply wf_shrinks; [done|apply revoke_grant_shrinks].
  - eapply wf_shrinks; [done|apply revoke_peer_shrinks].
  - by apply wf_spawn.
  - destruct (closed s); [done|]. apply wf_spawn; [|done]. eapply wf_shrinks; [exact W|]. by apply shrinks_quiet.
  - destruct (tasks s !! i) as [t|] eqn:Ei; [|done]. pose proof (wf_run t a now s i W (N _ _ Ei) Ei) as H. destruct (run _ _ _ t a now s) as [next s']. exact H.
Qed.

Lemma authority_neat s : reach options uuid bridged s -> wf s /\ neat s.
Proof. induction 1 as [|o s R [W N] Ho]; [split; [apply wf_initial|by intros j t E]|]. split; [by apply wf_every|by apply neat_every]. Qed.

Theorem authority_wf s : reach options uuid bridged s -> wf s.
Proof. apply authority_neat. Qed.

Lemma reach_all s ops : reach options uuid bridged s -> Forall tidy ops -> reach options uuid bridged (foldl (fun s o => exec options uuid bridged o s) s ops).
Proof. intros R Ho. revert s R. induction Ho as [|o ops Ho _ IH]; intros s R; [done|]. simpl. by apply IH, reach_step. Qed.
End inv.

(** ** A coordinator in use *)

Module Sample.
#[global] Instance contracts : Contracts := {
  accepts_lease _ := true; accepts_session _ := true; accepts_grant _ := true; accepts_peer _ := true; mailbox_size x y := len x + len y
}.
Definition uuid (n : nat) : units := [Z.of_nat n].
#[global] Instance uuid_inj : Inj (=) (=) uuid.
Proof. intros n m [= E]. lia. Qed.
Definition options : Options := MkOptions (lit "server") (lit "g1") (Some (MkPeerConfiguration false (fun _ => Some true) 4 8)) 120000 43200000 2.
Lemma options_max : 0 <= max_active_sessions options.
Proof. done. Qed.
Lemma options_tidy : trim (o_server_generation options) = o_server_generation options.
Proof. done. Qed.
Definition step (s : State) (o : Op) : State := exec options uuid true o s.

(** A session is opened, with a grant and a peer session that signals. *)
Definition opens : list Op :=
  [OStart (ThenOpen (MkOpenInput (lit "ada") (lit "acc") (lit "cli") (lit "w"))) 0; OTask 0 (Ack true) 0;
   OTask 0 (Names (MkResolved (lit "server") (lit "ada") (lit "w") (lit "p1"))) 0; OTask 0 (Ack true) 0; OTask 0 (Ack true) 0; OTask 0 (Ack true) 0].
Definition id : units := uuid 2.
Definition grants : list Op :=
  [OStart (ThenGrant (MkGrantInput id (lit "tunnel") (lit "t1") (lit "a1") Unlimited None None)) 1; OTask 3 (Ack true) 1; OTask 3 (Ack true) 1].
Definition pairs : list Op := [OStart (ThenPeer id LAN 1) 2; OTask 5 (Ack true) 2; OTask 5 (Ack true) 2; OTask 5 (Ack true) 2].
Definition signal (n : Z) : Signal := MkSignal id (uuid 7) 1 LAN (MkLetter n (lit "x")).
Definition signals : list Op := [ONotification true (lit "w") (signal 0) 3; ONotification true (lit "w") (signal 1) 3; OSignal (signal 0); OTask 8 (Ack true) 3].
Definition live : State := foldl step new (opens ++ grants ++ pairs ++ signals).
(** ... and its owner is revoked. *)
Definition revoked : State := foldl step new ((opens ++ grants ++ pairs ++ signals) ++ [ORevokeScope (Owner (lit "ada")); OTask 9 (Ack true) 4; OTask 9 (Ack true) 4]).

Lemma reach_live : reach options uuid true live.
Proof. apply reach_all; [apply reach_new|]. by repeat constructor. Qed.
Lemma reach_revoked : reach options uuid true revoked.
Proof. apply reach_all; [apply reach_new|]. by repeat constructor. Qed.
End Sample.
End AuthorityInv.
