(* ===== verification/AuthoritySafety.v ===== *)
(** * What the WorkerLink authority guarantees

    [AuthoritySafety] states the guarantees of [Authority] in every state its
    operations can reach, whatever their interleaving, when the names callers hand
    over are trimmed ([tidy]; [Padded] shows what goes wrong otherwise): one session per identity
    and no more sessions than allowed, revocations that leave nothing of what
    they cover, and fences that keep it from coming back meanwhile. *)
From S2P Require Import Prelude JsString Authority AuthorityInv.
From stdpp Require Import base numbers strings gmap option list fin_maps.
Open Scope Z_scope.

Module AuthoritySafety.
Import Text JsString Authority AuthorityInv.

Section safety.
Context {contracts : Contracts} (options : Options) (uuid : nat -> units) (bridged : bool).
Context {uuid_inj : Inj (=) (=) uuid} (Hmax : 0 <= max_active_sessions options) (Hgen : trim (o_server_generation options) = o_server_generation options).
Implicit Types (s : State) (t : Task) (st : SessionState).

(** C21: when callers hand over account and client names that are trimmed
    already, and the name of this run of the server is trimmed, then in every
    reachable state the session table has one entry per session
    name and one per identity, the identity index lists exactly the sessions of
    the table, the table and the sessions still being opened stay within
    [max_active_sessions], an identity is being opened by at most one task, and
    a session that is not ready is being installed or about to be revoked. *)
Theorem sessions_unique s : reach options uuid bridged s ->
  NoDup (sessions s).*1 /\
  (forall k id, identities s !! k = Some id <-> exists r st, listed s id r st /\ identity_key (identity (session st)) = k) /\
  (forall id id' r r' st st', listed s id r st -> listed s id' r' st' -> identity (session st) = identity (session st') -> id = id') /\
  len (sessions s) + map_total (fun t => one (upcoming t)) (tasks s) <= max_active_sessions options /\
  (forall j j' t t' i m m', tasks s !! j = Some t -> tasks s !! j' = Some t' -> opening_of t = Some (i, m) -> opening_of t' = Some (i, m') -> j = j') /\
  (forall id r st, listed s id r st -> ready st = false -> (exists j i m, tasks s !! j = Some (Installing i m id r)) \/ doomed s id st).
Proof.
  intros R. destruct (authority_wf options uuid bridged Hmax Hgen s R) as [T O F]. split_and!.
  - apply T.
  - intros k id. split; [apply (t_back _ _ T)|]. intros (r & st & Hl & <-). by eapply t_identity.
  - intros id id' r r' st st' Hl Hl' E. apply (t_identity _ _ T) in Hl, Hl'. rewrite E in Hl. congruence.
  - apply O.
  - apply (o_alone _ _ O).
  - apply (o_unready _ _ O).
Qed.

(** What a revocation covers. *)
Definition covered_grant (sc : Scope) s (id : units) (g : units) : Prop :=
  exists o kind res att r st gr x, sc = Resource o kind res att /\ listed s id r st /\ owner_id (identity (session st)) = o /\
    (g, gr) ∈ grants st /\ grant_heap s !! gr = Some x /\ bound_to kind res att x = true.
Definition covered_session (sc : Scope) s (id : units) : Prop := exists r st, listed s id r st /\ covers sc (identity (session st)).

(** C20: when callers hand over names of accounts, clients and resources that
    are trimmed already, and the name of this run of the server is, then whatever
    runs beside it a revocation under way still has on its list
    every session and every grant it covers; so when it is about to return
    nothing of its scope is left in the tables, also right after it returned. *)
Theorem revocation_leaves_nothing s i sc items : reach options uuid bridged s -> tasks s !! i = Some (Revoking sc items) ->
  (forall id, covered_session sc s id -> ISession id ∈ items) /\
  (forall id g, covered_grant sc s id g -> IGrant id g ∈ items) /\
  (items = [] -> forall a now, let s' := exec options uuid bridged (OTask i a now) s in
    tasks s' !! i = None /\ log s' = log s ++ [Done] /\ (forall id, ~ covered_session sc s' id) /\ forall id g, ~ covered_grant sc s' id g).
Proof.
  intros R Ei. destruct (authority_wf options uuid bridged Hmax Hgen s R) as [T O F].
  assert (H1 : forall id, covered_session sc s id -> ISession id ∈ items) by (intros id (r & st & Hl & Hc); by eapply f_sessions).
  assert (H2 : forall id g, covered_grant sc s id g -> IGrant id g ∈ items) by (intros id g (o & kind & res & att & r & st & gr & x & -> & Hl & Ho & Hg & Ex & Hb); by eapply f_grants).
  split_and!; [done|done|]. intros -> a now. cbn [exec]. rewrite Ei. cbn [run]. destruct (drop_fence_frame sc s) as (o & ac & r & Ef).
  rewrite Ef. split_and!; [apply lookup_delete_eq|done|intros id Hc; by apply H1, elem_of_nil in Hc|intros id g Hc; by apply H2, elem_of_nil in Hc].
Qed.

(** While a revocation is under way, nothing of its scope is admitted: no
    operation gets hold of a session it covers, no session of a covered identity
    is created or becomes ready, and no grant of the resource is issued. *)
Theorem fence_refuses s i t sc : reach options uuid bridged s -> tasks s !! i = Some t -> fence_of t = Some sc ->
  (forall id r st, ready_state s id = inr (r, st) -> ~ covers sc (identity (session st))) /\
  (forall x m now, covers sc x -> (create_session options uuid bridged x m now s).1 = None) /\
  (forall x m id r, covers sc x -> (installed x m id r true s).1 = Some (OpenRefused x m)) /\
  (forall n now r v k g, tidy_grant n -> prepare_grant uuid n now s = inr (r, v, k, g) ->
     ~ exists att, sc = Resource (owner_id (identity v)) (g_kind g) (g_resource g) att).
Proof.
  intros R Ei Ef. destruct (authority_wf options uuid bridged Hmax Hgen s R) as [T O F].
  assert (Hc : forall x, covers sc x -> identity_authorized s x = false) by (intros x; by eapply covered_unauthorized). split_and!.
  - intros id r st E Hcv. apply ready_state_listed in E as [_ Ha]. by rewrite Hc in Ha.
  - intros x m now Hcv. unfold create_session. destruct (closed s); [done|]. by rewrite Hc.
  - intros x m id r Hcv. unfold installed. simpl. by rewrite Hc, andb_false_r.
  - intros n now r v k g Ht E (att & ->). pose proof (fence_counts s i t _ F Ei Ef) as Hf. simpl in Hf. destruct (prepare_grant_free _ _ _ _ _ _ _ _ Ht E) as (_ & Hn & _). by rewrite Hn in Hf; destruct Hf.
Qed.
End safety.

(** ** Witnesses *)

(** [sessions_unique] in the sample: its one session is found by its identity. *)
Lemma sessions_unique_witness : len (sessions Sample.live) = 1 /\
  exists r st, listed Sample.live Sample.id r st /\ forall id' r' st', listed Sample.live id' r' st' -> identity (session st) = identity (session st') -> Sample.id = id'.
Proof.
  split; [by vm_compute|]. destruct (sessions_unique Sample.options Sample.uuid true Sample.options_max Sample.options_tidy Sample.live Sample.reach_live) as (_ & _ & H & _).
  destruct (session_heap Sample.live !! 2%nat) as [st|] eqn:E; [|by vm_compute in E]. assert (Hl : listed Sample.live Sample.id 2 st) by (split; [by vm_compute; left|exact E]).
  exists 2%nat, st. split; [exact Hl|]. intros id' r' st' Hl'. exact (H _ _ _ _ _ _ Hl Hl').
Defined.

(** [revocation_leaves_nothing] in the sample: the owner's revocation has nothing left to do. *)
Lemma revocation_leaves_nothing_witness :
  (forall id, ~ covered_session (Owner (lit "ada")) Sample.revoked id) /\ exists s', s' = Sample.step Sample.revoked (OTask 9 (Ack true) 5) /\ forall id, ~ covered_session (Owner (lit "ada")) s' id.
Proof.
  assert (Et : tasks Sample.revoked !! 9%nat = Some (Revoking (Owner (lit "ada")) [])) by (by vm_compute).
  destruct (revocation_leaves_nothing Sample.options Sample.uuid true Sample.options_max Sample.options_tidy Sample.revoked 9 (Owner (lit "ada")) [] Sample.reach_revoked Et) as (H1 & _ & H3).
  split; [intros id H; by apply H1, elem_of_nil in H|]. destruct (H3 eq_refl (Ack true) 5) as (_ & _ & H & _). eexists. split; [reflexivity|exact H].
Defined.

(** [fence_refuses] in the sample: a session of the owner is not created meanwhile. *)
Lemma fence_refuses_witness : (create_session Sample.options Sample.uuid true (MkIdentity (lit "server") (lit "g1") (lit "ada") (lit "acc") (lit "cli") (lit "w") (lit "p1")) 0 5 Sample.revoked).1 = None.
Proof.
  assert (Et : tasks Sample.revoked !! 9%nat = Some (Revoking (Owner (lit "ada")) [])) by (by vm_compute).
  destruct (fence_refuses Sample.options Sample.uuid true Sample.options_max Sample.options_tidy Sample.revoked 9 _ (Owner (lit "ada")) Sample.reach_revoked Et eq_refl) as (_ & H & _). by apply H.
Defined.

(** ** Names that are not trimmed *)

Module Padded.
Import Sample.
Definition tunnel : Scope := Resource (lit "ada") (lit "tunnel") (lit "t1") None.
(** While the tunnel t1 is being revoked, a grant is asked for " t1". *)
Definition escape : list Op :=
  opens ++ [ORevokeScope tunnel; OTask 3 (Ack true) 1;
            OStart (ThenGrant (MkGrantInput id (lit "tunnel") (lit " t1") (lit "a1") Unlimited None None)) 1; OTask 4 (Ack true) 1; OTask 4 (Ack true) 1].
Definition escaped : State := foldl step new escape.

(** The fence is looked up under the text of the request and the grant carries the
    trimmed name: the grant of the resource is issued behind its revocation, which
    has nothing left on its list. *)
Theorem padded_resource_escapes :
  tasks escaped !! 3%nat = Some (Revoking tunnel []) /\ covered_grant tunnel escaped id (uuid 5) /\ exists g, Granted g ∈ log escaped /\ g_resource g = lit "t1".
Proof.
  split; [by vm_compute|]. split.
  - exists (lit "ada"), (lit "tunnel"), (lit "t1"), None, 2%nat. destruct (session_heap escaped !! 2%nat) as [st|] eqn:E; [|by vm_compute in E].
    destruct (grant_heap escaped !! 5%nat) as [x|] eqn:Ex; [|by vm_compute in Ex]. exists st, 5%nat, x. revert E Ex. vm_compute. intros [= <-] [= <-].
    split; [done|]. split; [split; [left|done]|]. split; [done|]. split; [left|]. done.
  - eexists. split; [vm_compute; right; right; right; left|done].
Qed.

(** A session of the account " acc" is opened and revoked. *)
Definition forgotten : State :=
  foldl step new
    [OStart (ThenOpen (MkOpenInput (lit "ada") (lit " acc") (lit "cli") (lit "w"))) 0; OTask 0 (Ack true) 0;
     OTask 0 (Names (MkResolved (lit "server") (lit "ada") (lit "w") (lit "p1"))) 0; OTask 0 (Ack true) 0; OTask 0 (Ack true) 0; OTask 0 (Ack true) 0; ORevokeSession id].

(** Its entry of the identity index stays: it was made under the text of the
    request and is removed under the trimmed name. *)
Theorem padded_identity_stays : sessions forgotten = [] /\ identities forgotten <> ∅.
Proof.
  split; [by vm_compute|]. intros E. apply (f_equal (fun m => m !! identity_key (MkIdentity (lit "server") (lit "g1") (lit "ada") (lit " acc") (lit "cli") (lit "w") (lit "p1")))) in E.
  rewrite lookup_empty in E. by vm_compute in E.
Qed.
End Padded.
End AuthoritySafety.
