(* ===== verification/AuthorityMail.v ===== *)
(** * Peer mailboxes of the WorkerLink authority

    [AuthorityMail] proves that the mailbox of a peer session holds an unbroken
    run of letters ending at the last one received, within its limit, and that
    the signals of the client go to the worker one at a time and in order. *)
From S2P Require Import Prelude JsString Authority AuthorityInv.
From stdpp Require Import base numbers strings gmap option list fin_maps.
Open Scope Z_scope.

Module AuthorityMail.
Import Text JsString Authority AuthorityInv.

(** ** Letters in order *)

Fixpoint numbered (a : Z) (l : list Letter) : Prop :=
  match l with [] => True | m :: l => number m = a /\ numbered (a + 1) l end.

(** Consecutive numbers up to [last]. *)
Definition run_to (last : Z) (l : list Letter) : Prop := numbered (last + 1 - len l) l.

Lemma numbered_app a l l' : numbered a (l ++ l') <-> numbered a l /\ numbered (a + len l) l'.
Proof.
  revert a. induction l as [|m l IH]; intros a; cbn [numbered app length].
  - replace (a + Z.of_nat 0) with a by lia. tauto.
  - rewrite IH. replace (a + 1 + len l) with (a + Z.of_nat (S (length l))) by lia. tauto.
Qed.

Lemma run_to_snoc last l m : run_to last l -> number m = last + 1 -> run_to (number m) (l ++ [m]).
Proof.
  unfold run_to. intros H E. rewrite numbered_app, length_app. cbn [length numbered].
  replace (number m + 1 - Z.of_nat (length l + 1)) with (last + 1 - len l) by lia. split; [done|]. split; [lia|done].
Qed.

Lemma numbered_all a l n : numbered a l -> n < a -> filter (fun m => n < number m) l = l.
Proof.
  revert a. induction l as [|m l IH]; intros a H Hn; [done|]. destruct H as [H1 H2]. rewrite filter_cons_True by lia. f_equal. by apply (IH (a + 1)); [|lia].
Qed.

Lemma run_to_filter last l n : run_to last l -> run_to last (filter (fun m => n < number m) l).
Proof.
  unfold run_to. induction l as [|m l IH]; [done|]. cbn [length numbered]. intros [H1 H2].
  replace (last + 1 - Z.of_nat (S (length l)) + 1) with (last + 1 - len l) in H2 by lia. destruct (decide (n < number m)) as [Hn|Hn].
  - rewrite filter_cons_True by done. rewrite (numbered_all (last + 1 - len l)) by (done || lia). cbn [length numbered]. split; [lia|].
    by replace (last + 1 - Z.of_nat (S (length l)) + 1) with (last + 1 - len l) by lia.
  - rewrite filter_cons_False by done. by apply IH.
Qed.

(** ** The invariant *)

Record mail_ok (x : PeerState) : Prop := MailOk {
  k_signals : run_to (last_worker x) (signals x);
  k_advertisements : run_to (last_advertisement x) (advertisements x);
  k_count : len (signals x) <= 256 /\ len (advertisements x) <= 256;
  k_client : -1 <= last_client x < 256
}.

Definition signalling (t : Task) : option (Signal * nat) := match t with Signalling e _ pr => Some (e, pr) | _ => None end.

Section mail.
Context {contracts : Contracts} (options : Options) (uuid : nat -> units) (bridged : bool).
Context {uuid_inj : Inj (=) (=) uuid} (Hmax : 0 <= max_active_sessions options) (Hgen : trim (o_server_generation options) = o_server_generation options).
Implicit Types (s : State) (t : Task).

Record mail s : Prop := Mail {
  m_fresh : forall pr, (fresh s <= pr)%nat -> peer_heap s !! pr = None;
  m_box : forall pr x, peer_heap s !! pr = Some x -> mail_ok x;
  m_task : forall j t e pr, tasks s !! j = Some t -> signalling t = Some (e, pr) ->
    exists x, peer_heap s !! pr = Some x /\ turn x = true /\ number (e_letter e) = last_client x + 1 /\ number (e_letter e) < 256;
  m_alone : forall j j' t t' e e' pr, tasks s !! j = Some t -> tasks s !! j' = Some t' -> signalling t = Some (e, pr) -> signalling t' = Some (e', pr) -> j = j';
  m_held : forall pr x, peer_heap s !! pr = Some x -> turn x = true -> exists j t e, tasks s !! j = Some t /\ signalling t = Some (e, pr)
}.

(** A step that leaves the turns as they are. *)
Definition keeps_turn (x x' : PeerState) : Prop := (mail_ok x -> mail_ok x') /\ turn x' = turn x /\ last_client x' = last_client x.
Definition mail_step s s' : Prop := forall pr,
  match peer_heap s !! pr, peer_heap s' !! pr with
  | Some x, Some x' => keeps_turn x x'
  | None, Some x' => (pr < fresh s')%nat /\ mail_ok x' /\ turn x' = false
  | None, None => True
  | Some _, None => False
  end.

Lemma mail_step_same s s' : peer_heap s' = peer_heap s -> mail_step s s'.
Proof. intros E pr. rewrite E. by destruct (peer_heap s !! pr). Qed.

Lemma mail_step_alter s s' pr f : (forall x, keeps_turn x (f x)) -> peer_heap s' = alter f pr (peer_heap s) -> mail_step s s'.
Proof.
  intros Hf E pr'. rewrite E, lookup_alter. case_decide; [subst|]; by destruct (peer_heap s !! _); simpl.
Qed.

Lemma mail_after s s' i next : mail s -> tasks s' = tasks s -> (fresh s <= fresh s')%nat -> mail_step s s' ->
  tasks s !! i ≫= signalling = None -> next ≫= signalling = None -> mail (retask i next s').
Proof.
  intros M Et Hf Hs Hold Hnext.
  assert (Ht : forall j t e pr, tasks (retask i next s') !! j = Some t -> signalling t = Some (e, pr) -> tasks s !! j = Some t).
  { intros j t e pr Ej Es. simpl in Ej. rewrite Et in Ej. destruct (upd_Some _ _ _ _ _ Ej) as [[_ ->]|[_ E]]; [|done]. simpl in Hnext. congruence. }
  constructor.
  - intros pr Hpr. simpl in *. specialize (Hs pr). rewrite (m_fresh _ M) in Hs by lia. destruct (peer_heap s' !! pr); [|done]. destruct Hs. lia.
  - intros pr x' E. simpl in E. specialize (Hs pr). rewrite E in Hs. destruct (peer_heap s !! pr) as [x|] eqn:Ex; [|by destruct Hs as (_ & ? & _)]. apply Hs. by eapply m_box.
  - intros j t e pr Ej Es. destruct (m_task _ M j t e pr (Ht _ _ _ _ Ej Es) Es) as (x & Ex & H1 & H2 & H3). specialize (Hs pr). rewrite Ex in Hs. simpl.
    destruct (peer_heap s' !! pr) as [x'|]; [|done]. destruct Hs as (_ & K1 & K2). exists x'. by rewrite K1, K2.
  - intros j j' t t' e e' pr Ej Ej' Es Es'. eapply (m_alone _ M); [by eapply Ht|by eapply Ht|done|done].
  - intros pr x' E Hx. simpl in E. specialize (Hs pr). rewrite E in Hs. destruct (peer_heap s !! pr) as [x|] eqn:Ex; [|destruct Hs as (_ & _ & ?); congruence].
    destruct Hs as (_ & K1 & _). destruct (m_held _ M pr x Ex) as (j & t & e & Ej & Es); [congruence|]. exists j, t, e. split; [|done]. simpl. rewrite Et, upd_at.
    case_decide; [|done]. subst. rewrite Ej in Hold. simpl in Hold. congruence.
Qed.

(** ** Operations that leave the peers alone *)

Ltac split_branches := repeat (first [reflexivity | split; reflexivity | match goal with |- context [match ?x with _ => _ end] =>
  lazymatch x with context [match _ with _ => _ end] => fail | _ => destruct x end end]).

Definition quiet_peers s (x : option Task * State) : Prop := peer_heap x.2 = peer_heap s /\ x.1 ≫= signalling = None.

Lemma remove_session_peers id r s : peer_heap (remove_session id r s) = peer_heap s.
Proof.
  unfold remove_session. destruct (negb _); [done|]. destruct (session_heap s !! r); [|done]. cbn zeta. set (s2 := if bool_decide _ then _ else _).
  assert (E : peer_heap s2 = peer_heap s) by (unfold s2; by case_bool_decide). clearbody s2. by destruct (existsb _ _).
Qed.
Lemma revoke_session_peers id s : peer_heap (revoke_session id s).2 = peer_heap s.
Proof. unfold revoke_session. destruct (session_at s id) as [[r st]|]; [apply remove_session_peers|done]. Qed.
Lemma revoke_grant_peers id g s : peer_heap (revoke_grant id g s).2 = peer_heap s.
Proof. unfold revoke_grant. split_branches. Qed.
Lemma revoke_peer_peers id p s : peer_heap (revoke_peer id p s).2 = peer_heap s.
Proof. unfold revoke_peer. split_branches. Qed.
Lemma revoke_item_peers it s : peer_heap (revoke_item it s) = peer_heap s.
Proof. destruct it; [apply revoke_peer_peers|apply revoke_grant_peers|apply revoke_session_peers]. Qed.
Lemma finish_open_peers x m s : peer_heap (finish_open x m s) = peer_heap s.
Proof. unfold finish_open. by case_bool_decide. Qed.
Lemma finish_peer_peers round m s : peer_heap (finish_peer round m s) = peer_heap s.
Proof. unfold finish_peer. by case_bool_decide. Qed.
Lemma drop_fence_peers sc s : peer_heap (drop_fence sc s) = peer_heap s.
Proof. by destruct sc. Qed.

Lemma begin_peers after now s : quiet_peers s (begin options uuid after now s).
Proof.
  destruct after; simpl; [done|done|unfold renew_session|unfold replace_route|unfold issue_grant|unfold renew_grant|unfold open_peer]; split_branches.
Qed.

Lemma create_session_peers x m now s : quiet_peers s (create_session options uuid bridged x m now s).
Proof.
  pose proof (finish_open_peers x m s) as Hf. unfold create_session. destruct (closed s); [done|]. destruct (negb _); [done|].
  destruct (new_session _ _ _ _) as [v|]; [|done]. unfold insert_session, quiet_peers. simpl. match goal with |- context [register_worker _ _ ?z] => set (z' := z) end.
  destruct (register_worker_native bridged (worker_id x) z') as [ws ->]. done.
Qed.

Lemma installed_peers x m id r ack s : quiet_peers s (installed x m id r ack s).
Proof.
  unfold quiet_peers, installed. destruct ack; simpl; [|by rewrite finish_open_peers, remove_session_peers]. destruct (_ && _); [|done]. simpl.
  destruct (alter _ _ _ !! r); simpl; by rewrite finish_open_peers.
Qed.

Lemma open_resolved_peers oi a s : quiet_peers s (open_resolved options oi a s).
Proof.
  unfold open_resolved. cbv zeta. destruct (negb _); [done|]. destruct (_ ≫= _); [done|]. destruct (opening s !! _); [done|]. by destruct (_ <=? _).
Qed.

(** The tasks that may touch a peer. *)
Definition touches (t : Task) : bool :=
  match t with RenewingPeer _ _ _ _ _ _ _ | StartingPeer _ _ _ _ | InstallingPeer _ _ _ _ _ _ _ | AwaitingTurn _ _ _ | Signalling _ _ _ => true | _ => false end.

Lemma run_peers t a now s : touches t = false -> quiet_peers s (run options uuid bridged t a now s).
Proof.
  intros Ht. destruct t as [[|it items] after|oi|x m|x m [|id ids]|x m id r|x m|id r d l|id r d l ps|id r d l p pl ps|id r route g|id [|p ps]|id r g gr k|id r g gr l|r route round m|id r p pr g round m|round m|e r pr|e r pr|sc|sc [|it items]|[|id ids]|[|id ids]];
    simpl; try done.
  - apply begin_peers.
  - split; [apply revoke_item_peers|done].
  - destruct a; [done|]. apply open_resolved_peers.
  - apply create_session_peers.
  - split; [apply revoke_session_peers|done].
  - apply installed_peers.
  - split; [apply finish_open_peers|done].
  - unfold session_renewed. split_branches.
  - unfold renew_peers. split_branches.
  - unfold route_replaced. split_branches.
  - split; [apply revoke_peer_peers|done].
  - unfold grant_installed. split_branches.
  - unfold grant_renewed. split_branches.
  - split; [apply finish_peer_peers|done].
  - split; [apply drop_fence_peers|done].
  - split; [apply revoke_item_peers|done].
  - split; [apply revoke_session_peers|done].
  - split; [apply revoke_session_peers|done].
Qed.

(** ** Every step keeps the invariant *)

Lemma keeps_turn_refl x : keeps_turn x x.
Proof. done. Qed.
Lemma keeps_set_peer v x : keeps_turn x (set_peer v x).
Proof. split; [by intros []|done]. Qed.
Lemma keeps_set_p_ready b x : keeps_turn x (set_p_ready b x).
Proof. split; [by intros []|done]. Qed.

Lemma peer_renewed_mail id r d l p pl ps ack s : mail_step s (peer_renewed id r d l p pl ps ack s).2 /\ (peer_renewed id r d l p pl ps ack s).1 ≫= signalling = None.
Proof.
  unfold peer_renewed. destruct (peer_heap s !! p) as [x|]; [|split; [by apply mail_step_same|done]]. destruct ack.
  - destruct (has_peer _ _ _ _); [|split; [by apply mail_step_same|done]]. unfold checked_peer; destruct (accepts_peer _); (split; [|done]); [|by apply mail_step_same].
    eapply mail_step_alter; [|done]. intros y. apply keeps_set_peer.
  - split; [|done]. apply mail_step_same. simpl. by destruct (worker_of _ _).
Qed.

Lemma new_mail_ok b x : mail_ok (MkPeerState b x [] [] (-1) (-1) (-1) false).
Proof. by constructor. Qed.

Lemma prepare_peer_mail r route round m now s : mail s -> mail_step s (prepare_peer options uuid r route round m now s).2 /\ (prepare_peer options uuid r route round m now s).1 ≫= signalling = None.
Proof.
  intros M. assert (Hr : forall why, mail_step s (refuse_peer round m why s).2 /\ (refuse_peer round m why s).1 ≫= signalling = None).
  { intros why. split; [|done]. apply mail_step_same. apply finish_peer_peers. }
  unfold prepare_peer. destruct (session_heap s !! r) as [st|]; [|apply Hr]. destruct (peer_configuration options); [|apply Hr]. cbv zeta.
  destruct (_ <=? _); [apply Hr|]. destruct (_ <=? _); [apply Hr|]. destruct (iso now); [|apply Hr]. unfold checked_peer; destruct (accepts_peer _); [|apply Hr]. simpl. split; [|done].
  intros pr. simpl. rewrite lookup_insert. case_decide as Hp; [|by destruct (peer_heap s !! pr)]. subst pr. rewrite (m_fresh _ M) by lia. split_and!; [lia|apply new_mail_ok|done].
Qed.

Lemma peer_installed_mail id r p pr g round m ack s : mail_step s (peer_installed id r p pr g round m ack s).2 /\ (peer_installed id r p pr g round m ack s).1 ≫= signalling = None.
Proof.
  unfold peer_installed. destruct ack; simpl.
  - destruct (_ && _ && _).
    + split; [|done]. apply (mail_step_alter _ _ pr (set_p_ready true)); [intros x; apply keeps_set_p_ready|]. simpl. destruct (alter _ _ _ !! pr); simpl; apply finish_peer_peers.
    + split; [|done]. apply mail_step_same. simpl. by destruct (worker_of s r).
  - split; [|done]. apply mail_step_same. simpl. rewrite finish_peer_peers. by destruct (has_peer _ _ _ _).
Qed.

(** The turn is taken. *)
Lemma take_turn_mail e r pr now s i : mail s -> tasks s !! i = Some (AwaitingTurn e r pr) -> mail (retask i (take_turn e r pr now s).1 (take_turn e r pr now s).2).
Proof.
  intros M Ei. assert (Hq : forall x, tasks x.2 = tasks s -> fresh x.2 = fresh s -> quiet_peers s x -> mail (retask i x.1 x.2)).
  { intros x Et Hf [H1 H2]. eapply mail_after; [exact M|exact Et|lia|by apply mail_step_same|by rewrite Ei|exact H2]. }
  unfold take_turn. destruct (peer_heap s !! pr) as [x|] eqn:Ex; [|by apply (Hq (None, s))]. destruct (turn x) eqn:Et; [by apply (Hq (Some (AwaitingTurn e r pr), s))|]. cbv zeta.
  destruct (negb (_ && _ && has_peer _ _ _ _)); [by apply (Hq (refuse _ s))|]. destruct (number (e_letter e) =? last_client x + 1) eqn:En; simpl; [|by apply (Hq (refuse _ s))].
  destruct (256 <=? number (e_letter e)) eqn:El.
  { apply (Hq (refuse _ (revoke_peer _ _ s).2)); [apply (sh_tasks _ _ (revoke_peer_shrinks _ _ s))|unfold revoke_peer; split_branches|split; [apply revoke_peer_peers|done]]. }
  reflect_bools. simpl. set (s1 := update_peer pr (set_turn true) s).
  assert (Hm : mail (retask i (Some (Signalling e r pr)) s1)); [|destruct (worker_of s1 r); [by destruct Hm; constructor|done]].
  assert (Hnone : forall j t e', tasks s !! j = Some t -> signalling t = Some (e', pr) -> False) by (intros j t e' Ej Es; destruct (m_task _ M j t e' pr Ej Es) as (y & Ey & Hy & _); congruence).
  constructor; simpl.
  - intros pr' Hp. rewrite lookup_alter. case_decide; subst; rewrite (m_fresh _ M) by done; done.
  - intros pr' y. rewrite lookup_alter. case_decide; [subst pr'; rewrite Ex; intros [= <-]; by destruct (m_box _ M _ _ Ex)|apply (m_box _ M)].
  - intros j t e' pr' Ej Es. destruct (upd_Some i (Some (Signalling e r pr)) _ _ _ Ej) as [[<- [= <-]]|[_ E]].
    + injection Es as <- <-. exists (set_turn true x). rewrite lookup_alter_eq, Ex. done.
    + rewrite lookup_alter_ne; [by eapply (m_task _ M)|]. intros ->. by eapply Hnone.
  - intros j j' t t' e1 e2 pr' Ej Ej' Es Es'. destruct (upd_Some i (Some (Signalling e r pr)) _ _ _ Ej) as [[<- [= <-]]|[_ E]], (upd_Some i (Some (Signalling e r pr)) _ _ _ Ej') as [[<- [= <-]]|[_ E']]; try done.
    + injection Es as <- <-. by destruct (Hnone _ _ _ E' Es').
    + injection Es' as <- <-. by destruct (Hnone _ _ _ E Es).
    + by eapply (m_alone _ M).
  - intros pr' y. rewrite lookup_alter. case_decide as Hp.
    + subst pr'. intros _ _. exists i, (Signalling e r pr), e. split; [apply lookup_insert_eq|done].
    + intros Ey Hy. destruct (m_held _ M _ _ Ey Hy) as (j & t & e' & Ej & Es). exists j, t, e'. split; [|done]. rewrite lookup_insert_ne; [done|]. intros <-. rewrite Ei in Ej. by injection Ej as <-.
Qed.

(** The turn is given back. *)
Lemma signalled_mail e r pr ack s i : mail s -> tasks s !! i = Some (Signalling e r pr) -> mail (retask i (signalled e r pr ack s).1 (signalled e r pr ack s).2).
Proof.
  intros M Ei. destruct (m_task _ M _ _ e pr Ei eq_refl) as (x & Ex & Ht & Hn & Hl). pose proof (k_client _ (m_box _ M _ _ Ex)) as Hc.
  assert (Hs : exists f, peer_heap (signalled e r pr ack s).2 = alter f pr (peer_heap s) /\ (forall y, turn (f y) = false) /\ mail_ok (f x)).
  { pose proof (m_box _ M _ _ Ex) as [k1 k2 k3 k4]. unfold signalled. destruct ack; simpl; [|by exists (set_turn false)]. destruct (_ && _); [|by exists (set_turn false)].
    exists (fun y => set_last_client (number (e_letter e)) (set_turn false y)). split; [apply alter_alter_eq|]. split; [done|]. constructor; try done. simpl. lia. }
  assert (Hf : (signalled e r pr ack s).1 = None /\ tasks (signalled e r pr ack s).2 = tasks s /\ fresh (signalled e r pr ack s).2 = fresh s) by (unfold signalled; destruct ack; simpl; [destruct (_ && _)|]; done).
  destruct Hs as (f & Eh & Hf1 & Hf2), Hf as (-> & Et & Ef). set (s' := (signalled e r pr ack s).2) in *. clearbody s'.
  assert (Hd : forall j t e' pr', tasks (retask i None s') !! j = Some t -> signalling t = Some (e', pr') -> tasks s !! j = Some t /\ pr' <> pr).
  { intros j t e' pr' Ej Es. simpl in Ej. rewrite Et, lookup_delete in Ej. destruct (decide (i = j)) as [?|Hij]; [done|]. split; [done|]. intros ->. destruct Hij. by eapply (m_alone _ M). }
  constructor; simpl; rewrite ?Eh.
  - intros pr' Hp. rewrite lookup_alter, Ef in *. case_decide; subst; rewrite (m_fresh _ M) by done; done.
  - intros pr' y. rewrite lookup_alter. case_decide; [subst pr'; rewrite Ex; by intros [= <-]|apply (m_box _ M)].
  - intros j t e' pr' Ej Es. destruct (Hd _ _ _ _ Ej Es) as [E Hne]. rewrite lookup_alter_ne by done. by eapply (m_task _ M).
  - intros j j' t t' e1 e2 pr' Ej Ej' Es Es'. destruct (Hd _ _ _ _ Ej Es) as [E _], (Hd _ _ _ _ Ej' Es') as [E' _]. by eapply (m_alone _ M).
  - intros pr' y. rewrite lookup_alter. case_decide as Hp; [subst pr'; rewrite Ex; intros [= <-]; by rewrite Hf1|]. intros Ey Hy. destruct (m_held _ M _ _ Ey Hy) as (j & t & e' & Ej & Es).
    exists j, t, e'. split; [|done]. rewrite Et, lookup_delete_ne; [done|]. intros <-. rewrite Ei in Ej. injection Ej as <-. by injection Es as _ <-.
Qed.

Lemma run_mail t a now s i : tables uuid s -> neat_task t -> mail s -> tasks s !! i = Some t -> mail (retask i (run options uuid bridged t a now s).1 (run options uuid bridged t a now s).2).
Proof.
  intros T Hn M Ei. destruct (run_frame options uuid bridged t a now s T Hn) as [Et Hf]. assert (Hstep : forall x, x = run options uuid bridged t a now s -> signalling t = None ->
    mail_step s x.2 /\ x.1 ≫= signalling = None -> mail (retask i x.1 x.2)).
  { intros x -> Hs [H1 H2]. eapply mail_after; [exact M|exact Et|exact Hf|exact H1|by rewrite Ei|exact H2]. }
  destruct (touches t) eqn:Ht.
  - destruct t as [| | | | | | | |id r d l p pl ps| | | | |r route round m|id r p pr g round m| |e r pr|e r pr| | | |]; try done.
    + apply Hstep; [done|done|]. apply peer_renewed_mail.
    + apply Hstep; [done|done|]. by apply prepare_peer_mail.
    + apply Hstep; [done|done|]. apply peer_installed_mail.
    + by apply take_turn_mail.
    + by apply signalled_mail.
  - destruct (run_peers t a now s Ht) as [H1 H2]. apply Hstep; [done|by destruct t|]. split; [by apply mail_step_same|done].
Qed.

Lemma mail_quiet s s' : tables uuid s -> mail s -> tasks s' = tasks s -> (fresh s <= fresh s')%nat -> mail_step s s' -> mail s'.
Proof.
  intros T M Et Hf Hs. destruct (t_fresh _ _ T (fresh s)) as (_ & Hn & _); [lia|].
  assert (E : s' = retask (fresh s) None s'). { unfold retask. simpl. rewrite Et, delete_id by done. rewrite <- Et. by destruct s'. }
  rewrite E. apply (mail_after s); try done. by rewrite Hn.
Qed.

Lemma mail_spawn t s : tables uuid s -> mail s -> signalling t = None -> mail (spawn t s).
Proof.
  intros T M Hs. destruct (t_fresh _ _ T (fresh s)) as (_ & Hn & _); [lia|].
  refine (mail_after s (set_fresh (S (fresh s)) s) (fresh s) (Some t) M eq_refl _ (mail_step_same s (set_fresh (S (fresh s)) s) eq_refl) _ Hs); [simpl; lia|by rewrite Hn].
Qed.

Lemma mail_shrinks s s' : tables uuid s -> mail s -> shrinks s s' -> peer_heap s' = peer_heap s -> mail s'.
Proof. intros T M Sh E. apply (mail_quiet s); [done|done|apply Sh|apply Sh|by apply mail_step_same]. Qed.

Lemma filter_count (P : Letter -> Prop) `{!forall x, Decision (P x)} l : len l <= 256 -> len (filter P l) <= 256.
Proof. pose proof (length_filter P l). lia. Qed.

Lemma read_mailbox_mail id p x y now s : mail_step s (read_peer_mailbox id p x y now s).
Proof.
  unfold read_peer_mailbox. destruct (ready_state s id) as [why|[r st]]; [by apply mail_step_same|]. destruct (_ ≫= _) as [[pr z]|] eqn:E; [|by apply mail_step_same].
  apply bind_Some in E as (pr' & _ & (z' & Ez & [= -> ->])%bind_Some). destruct (_ || _); [by apply mail_step_same|]. destruct (_ || _); [by apply mail_step_same|]. cbv zeta.
  intros pr'. simpl. rewrite lookup_alter. case_decide; [subst pr'|by destruct (peer_heap s !! pr')]. rewrite Ez. simpl. split; [|done]. intros [K1 K2 [K3 K4] K5].
  constructor; try done; simpl; [destruct x; [by apply run_to_filter|done]|destruct y; [by apply run_to_filter|done]|]. split; [destruct x; [by apply filter_count|done]|destruct y; [by apply filter_count|done]].
Qed.

Lemma post_keeps b w e v now x y : post b w e v now x = Some y -> keeps_turn x y.
Proof.
  unfold post. destruct (negb _); [done|]. cbv zeta. destruct (number (e_letter e) <=? _) eqn:El.
  { destruct (list_find _ _) as [[k m']|]; [destruct (bool_decide _); [|done]|]; by intros [= <-]. }
  destruct (negb _ || _ || _) eqn:Eb; [done|]. intros [= <-]. apply orb_false_iff in Eb as [Eb _]. apply orb_false_iff in Eb as [E1 E2]. reflect_bools.
  split; [|by destruct b]. intros [K1 K2 [K3 K4] K5]. destruct b; constructor; simpl in *; try done; try (rewrite length_app; simpl; lia).
  - by apply (run_to_snoc (last_worker x)).
  - by apply (run_to_snoc (last_advertisement x)).
Qed.

Lemma notification_mail b w e now s : mail_step s (receive_notification b w e now s).
Proof.
  unfold receive_notification. destruct (owner_of_peer _ s) as [[[id v] pr]|]; [|by apply mail_step_same]. destruct (peer_heap s !! pr) as [x|] eqn:Ex; [|by apply mail_step_same].
  destruct (post _ _ _ _ _ _) as [y|] eqn:Ep; [|apply mail_step_same, revoke_peer_peers]. intros pr'. simpl. rewrite lookup_insert. case_decide; [subst pr'|by destruct (peer_heap s !! pr')].
  rewrite Ex. by eapply post_keeps.
Qed.

Lemma start_mail after now s : tables uuid s -> mail s -> mail (start after now s).
Proof.
  intros T M. assert (Hr : forall e, mail (record e s)) by (intros e; apply (mail_quiet s); [done|done|done|done|by apply mail_step_same]).
  assert (Hs : mail (spawn (Sweeping (expired_items now s) after) s)) by (by apply mail_spawn).
  unfold start. destruct after; [exact Hs|destruct (closed s); [apply Hr|]; destruct (_ && _); [exact Hs|apply Hr]|..]; (destruct (closed s); [apply Hr|exact Hs]).
Qed.

Lemma exec_mail o s : tables uuid s -> neat s -> mail s -> mail (exec options uuid bridged o s).
Proof.
  intros T N M. destruct o as [after now|e|id p x y now|b w e now|sc|id|id g|id p|w g| |i a now]; cbn [exec].
  - by apply start_mail.
  - unfold signal_peer. destruct (ready_state s _) as [why|[r st]]; simpl; [apply (mail_shrinks s); [done|done|apply shrinks_record|done]|].
    destruct (IndexMap.get _ _); simpl; [by apply mail_spawn|apply (mail_shrinks s); [done|done|apply shrinks_record|done]].
  - pose proof (read_peer_mailbox_shrinks id p x y now s) as Sh. apply (mail_quiet s); [done|done|apply Sh|apply Sh|apply read_mailbox_mail].
  - pose proof (receive_notification_shrinks b w e now s) as Sh. apply (mail_quiet s); [done|done|apply Sh|apply Sh|apply notification_mail].
  - destruct (fence_frame sc s) as (x & y & z & ->). apply mail_spawn; [by destruct T|by destruct M|done].
  - apply (mail_shrinks s); [done|done|by eapply revoke_session_shrinks|apply revoke_session_peers].
  - apply (mail_shrinks s); [done|done|apply revoke_grant_shrinks|apply revoke_grant_peers].
  - apply (mail_shrinks s); [done|done|apply revoke_peer_shrinks|apply revoke_peer_peers].
  - by apply mail_spawn.
  - destruct (closed s); [done|]. apply mail_spawn; [by destruct T|by destruct M|done].
  - destruct (tasks s !! i) as [t|] eqn:Ei; [|done]. pose proof (run_mail t a now s i T (N _ _ Ei) M Ei) as H. destruct (run _ _ _ t a now s) as [next s']. exact H.
Qed.

Lemma reach_mail s : reach options uuid bridged s -> mail s.
Proof.
  induction 1 as [|o s R IH Ho]; [by constructor|]. destruct (authority_neat options uuid bridged Hmax Hgen s R) as [[T _ _] N]. by apply exec_mail.
Qed.

(** in every reachable state the letters of a peer's mailbox are numbered
    without a gap up to the last one received, at most 256 of each kind; the
    turn to signal is held by exactly one task at a time, whose signal is the
    next of the client's sequence, below 256. So the worker is asked to accept
    the client's signals one by one, in order, and never two at once. *)
Theorem mailbox_sound s pr x : reach options uuid bridged s -> peer_heap s !! pr = Some x ->
  run_to (last_worker x) (signals x) /\ run_to (last_advertisement x) (advertisements x) /\ len (signals x) <= 256 /\ len (advertisements x) <= 256 /\
  (turn x = true <-> exists j t e, tasks s !! j = Some t /\ signalling t = Some (e, pr)) /\
  (forall j t e, tasks s !! j = Some t -> signalling t = Some (e, pr) -> number (e_letter e) = last_client x + 1 /\ 0 <= number (e_letter e) < 256) /\
  (forall j j' t t' e e', tasks s !! j = Some t -> tasks s !! j' = Some t' -> signalling t = Some (e, pr) -> signalling t' = Some (e', pr) -> j = j').
Proof.
  intros R Ex. pose proof (reach_mail s R) as M. destruct (m_box _ M _ _ Ex) as [K1 K2 [K3 K4] K5].
  assert (Ht : forall j t e, tasks s !! j = Some t -> signalling t = Some (e, pr) -> turn x = true /\ number (e_letter e) = last_client x + 1 /\ number (e_letter e) < 256).
  { intros j t e Ej Es. destruct (m_task _ M j t e pr Ej Es) as (y & Ey & H). by simplify_eq. }
  split_and!; try done.
  - split; [by apply (m_held _ M)|]. intros (j & t & e & Ej & Es). by eapply Ht.
  - intros j t e Ej Es. destruct (Ht j t e Ej Es) as (_ & H1 & H2). lia.
  - intros j j' t t' e e'. apply (m_alone _ M).
Qed.
End mail.

Lemma live_peer : exists x, peer_heap Sample.live !! 7%nat = Some x /\ len (signals x) = 2 /\ turn x = true.
Proof. vm_compute. by eexists. Qed.

(** [mailbox_sound] in the sample: two letters, and the client's first signal under way. *)
Lemma mailbox_sound_witness : exists x, peer_heap Sample.live !! 7%nat = Some x /\ len (signals x) = 2 /\ run_to (last_worker x) (signals x) /\ turn x = true /\
  forall j j' t t' e e', tasks Sample.live !! j = Some t -> tasks Sample.live !! j' = Some t' -> signalling t = Some (e, 7%nat) -> signalling t' = Some (e', 7%nat) -> j = j'.
Proof.
  destruct live_peer as (x & E & H1 & H2). exists x.
  destruct (mailbox_sound Sample.options Sample.uuid true Sample.options_max Sample.options_tidy Sample.live 7 x Sample.reach_live E) as (K1 & _ & _ & _ & _ & _ & K7).
  exact (conj E (conj H1 (conj K1 (conj H2 K7)))).
Defined.
End AuthorityMail.
