(* ===== verification/AuthorityLeases.v ===== *)
(** * Leases of the WorkerLink authority

    [AuthorityLeases] proves that leases stay nested: whatever is renewed, a
    session, its grants and its peer sessions never outlive the absolute expiry
    the session was opened with, and a session never has more grants than
    allowed. *)
From S2P Require Import Prelude JsString Authority AuthorityInv AuthorityMail.
From stdpp Require Import base numbers strings gmap option list fin_maps.
Open Scope Z_scope.

Module AuthorityLeases.
Import Text JsString Authority AuthorityInv AuthorityMail.

Lemma Forall2_kept {A B} (R : A -> B -> Prop) x (o : option B) : option_Forall2 R (Some x) o -> is_Some o.
Proof. intros H. inversion H. by eexists. Qed.

(** ** A renewed lease *)

Definition capped (l : Lease) : Prop := expires_at l <= absolute_expires_at l.
(** [l'] renews [l]: it ends within the same absolute expiry. *)
Definition renews (l l' : Lease) : Prop := absolute_expires_at l' = absolute_expires_at l /\ (capped l -> capped l').

Lemma renews_refl l : renews l l.
Proof. done. Qed.

Definition session_lease (st : SessionState) : Lease := lease (session st).
Definition peer_lease (x : PeerState) : Lease := p_lease (peer x).

Section leases.
Context {contracts : Contracts} (options : Options) (uuid : nat -> units) (bridged : bool).
Context {uuid_inj : Inj (=) (=) uuid} (Hmax : 0 <= max_active_sessions options) (Hgen : trim (o_server_generation options) = o_server_generation options).
Implicit Types (s : State) (t : Task) (st : SessionState).

Lemma renewed_renews l d now parent l' : renewed l d now parent = inr l' ->
  absolute_expires_at l' = absolute_expires_at l /\ capped l' /\ now < expires_at l' <= now + Z.max d 1 /\ from_option (fun p => expires_at l' <= p) True parent.
Proof.
  unfold renewed, capped. cbv zeta. destruct (_ <=? now) eqn:E; [done|]. reflect_bools. destruct (iso _) as [e|] eqn:Ei; [|done].
  unfold iso in Ei. destruct (_ <=? _) in Ei; [|done]. injection Ei as <-. destruct (accepts_lease _); [|done]. intros [= <-]. simpl.
  split_and!; try lia. destruct parent; simpl in *; lia.
Qed.

(** ** The invariant *)

(** The lease a task is about to store renews the one in place. *)
Definition held s t : Prop :=
  match t with
  | RenewingSession _ r _ l => capped l /\ exists st, session_heap s !! r = Some st /\ absolute_expires_at l = absolute_expires_at (session_lease st)
  | RenewingGrant _ _ _ gr l => capped l /\ exists x, grant_heap s !! gr = Some x /\ absolute_expires_at l = absolute_expires_at (g_lease x)
  | RenewingPeer _ _ _ _ p l _ => capped l /\ exists x, peer_heap s !! p = Some x /\ absolute_expires_at l = absolute_expires_at (peer_lease x)
  | _ => True
  end.

Definition within (l : Lease) (st : SessionState) : Prop := capped l /\ absolute_expires_at l <= absolute_expires_at (session_lease st).

Record nested s : Prop := Nested {
  ne_fresh : forall r, (fresh s <= r)%nat -> session_heap s !! r = None /\ grant_heap s !! r = None /\ peer_heap s !! r = None;
  ne_session : forall r st, session_heap s !! r = Some st -> capped (session_lease st) /\ len (grants st) <= MAX_GRANTS;
  ne_grant : forall r st g gr x, session_heap s !! r = Some st -> (g, gr) ∈ grants st -> grant_heap s !! gr = Some x -> within (g_lease x) st;
  ne_peer : forall r st p pr x, session_heap s !! r = Some st -> (p, pr) ∈ peers st -> peer_heap s !! pr = Some x -> within (peer_lease x) st;
  ne_stored : forall r st, session_heap s !! r = Some st -> (forall g gr, (g, gr) ∈ grants st -> is_Some (grant_heap s !! gr)) /\ (forall p pr, (p, pr) ∈ peers st -> is_Some (peer_heap s !! pr));
  ne_tasks : forall j t, tasks s !! j = Some t -> held s t
}.

(** ** Steps on the heaps *)

Definition session_step st st' : Prop :=
  renews (session_lease st) (session_lease st') /\ grants st' ⊆ grants st /\ peers st' ⊆ peers st /\ len (grants st') <= len (grants st).

(** Sessions lose grants and peers, and leases are renewed. *)
Record heap_step s s' : Prop := HeapStep {
  h_sessions : forall r, option_Forall2 session_step (session_heap s !! r) (session_heap s' !! r);
  h_grants : forall gr, option_Forall2 (fun x x' => renews (g_lease x) (g_lease x')) (grant_heap s !! gr) (grant_heap s' !! gr);
  h_peers : forall pr, option_Forall2 (fun x x' => renews (peer_lease x) (peer_lease x')) (peer_heap s !! pr) (peer_heap s' !! pr);
  h_fresh : (fresh s <= fresh s')%nat
}.

Lemma session_step_refl st : session_step st st.
Proof. split_and!; done. Qed.

Lemma heap_step_same s s' : session_heap s' = session_heap s -> grant_heap s' = grant_heap s -> peer_heap s' = peer_heap s -> (fresh s <= fresh s')%nat -> heap_step s s'.
Proof.
  intros E1 E2 E3 Hf. split; [intros r; rewrite E1; destruct (session_heap s !! r); constructor; apply session_step_refl|intros r; rewrite E2; by destruct (grant_heap s !! r); constructor|
    intros r; rewrite E3; by destruct (peer_heap s !! r); constructor|done].
Qed.

Lemma heap_step_session s s' r f : (forall st, session_heap s !! r = Some st -> session_step st (f st)) -> session_heap s' = alter f r (session_heap s) ->
  grant_heap s' = grant_heap s -> peer_heap s' = peer_heap s -> (fresh s <= fresh s')%nat -> heap_step s s'.
Proof.
  intros Hf E1 E2 E3 Hn. split; [|intros x; rewrite E2; by destruct (grant_heap s !! x); constructor|intros x; rewrite E3; by destruct (peer_heap s !! x); constructor|done].
  intros r'. rewrite E1, lookup_alter. case_decide; [subst r'|destruct (session_heap s !! r'); constructor; apply session_step_refl].
  destruct (session_heap s !! r) as [st|] eqn:E; simpl; constructor. by apply Hf.
Qed.

Lemma heap_step_peer s s' p f : (forall x, peer_heap s !! p = Some x -> renews (peer_lease x) (peer_lease (f x))) -> peer_heap s' = alter f p (peer_heap s) ->
  session_heap s' = session_heap s -> grant_heap s' = grant_heap s -> (fresh s <= fresh s')%nat -> heap_step s s'.
Proof.
  intros Hf E1 E2 E3 Hn. split; [intros x; rewrite E2; destruct (session_heap s !! x); constructor; apply session_step_refl|intros x; rewrite E3; by destruct (grant_heap s !! x); constructor| |done].
  intros r'. rewrite E1, lookup_alter. case_decide; [subst r'|by destruct (peer_heap s !! r'); constructor].
  destruct (peer_heap s !! p) as [st|] eqn:E; simpl; constructor. by apply Hf.
Qed.

Lemma held_after s s' t : heap_step s s' -> held s t -> held s' t.
Proof.
  intros H. destruct t; simpl; try done.
  - intros [Hc (st & E & Ha)]. split; [done|]. pose proof (h_sessions _ _ H r) as Hr. rewrite E in Hr. inversion Hr as [? st' [[Hl _] _]|]; subst. exists st'. by rewrite Hl.
  - intros [Hc (st & E & Ha)]. split; [done|]. pose proof (h_peers _ _ H p) as Hr. rewrite E in Hr. inversion Hr as [? st' [Hl _]|]; subst. exists st'. by rewrite Hl.
  - intros [Hc (st & E & Ha)]. split; [done|]. pose proof (h_grants _ _ H gr) as Hr. rewrite E in Hr. inversion Hr as [? st' [Hl _]|]; subst. exists st'. by rewrite Hl.
Qed.

Lemma nested_after s s' i next : nested s -> tasks s' = tasks s -> heap_step s s' -> from_option (held s') True next -> nested (retask i next s').
Proof.
  intros N Et H Hn.
  assert (Hs : forall r st', session_heap s' !! r = Some st' -> exists st, session_heap s !! r = Some st /\ session_step st st') by (intros r st' E; pose proof (h_sessions _ _ H r) as Hr; rewrite E in Hr; inversion Hr; subst; eauto).
  assert (Hg : forall r x', grant_heap s' !! r = Some x' -> exists x, grant_heap s !! r = Some x /\ renews (g_lease x) (g_lease x')) by (intros r x' E; pose proof (h_grants _ _ H r) as Hr; rewrite E in Hr; inversion Hr; subst; eauto).
  assert (Hp : forall r x', peer_heap s' !! r = Some x' -> exists x, peer_heap s !! r = Some x /\ renews (peer_lease x) (peer_lease x')) by (intros r x' E; pose proof (h_peers _ _ H r) as Hr; rewrite E in Hr; inversion Hr; subst; eauto).
  constructor; simpl.
  - intros r Hr. pose proof (h_fresh _ _ H). destruct (ne_fresh _ N r) as (E1 & E2 & E3); [lia|].
    split_and!; [pose proof (h_sessions _ _ H r) as Hx; rewrite E1 in Hx|pose proof (h_grants _ _ H r) as Hx; rewrite E2 in Hx|pose proof (h_peers _ _ H r) as Hx; rewrite E3 in Hx]; by inversion Hx.
  - intros r st' E. destruct (Hs r st' E) as (st & E0 & [_ Hc] & _ & _ & Hl). destruct (ne_session _ N r st E0). split; [by apply Hc|lia].
  - intros r st' g gr x' E Hin Ex. destruct (Hs r st' E) as (st & E0 & [Ha _] & Hsub & _). destruct (Hg gr x' Ex) as (x & E1 & [Hb Hc]).
    destruct (ne_grant _ N r st g gr x E0 (Hsub _ Hin) E1) as [H1 H2]. split; [by apply Hc|]. rewrite Hb, Ha. done.
  - intros r st' g gr x' E Hin Ex. destruct (Hs r st' E) as (st & E0 & [Ha _] & _ & Hsub & _). destruct (Hp gr x' Ex) as (x & E1 & [Hb Hc]).
    destruct (ne_peer _ N r st g gr x E0 (Hsub _ Hin) E1) as [H1 H2]. split; [by apply Hc|]. rewrite Hb, Ha. done.
  - intros r st' E. destruct (Hs r st' E) as (st & E0 & _ & Hg' & Hp' & _). destruct (ne_stored _ N r st E0) as [S1 S2]. split.
    + intros g gr Hin. destruct (S1 g gr (Hg' _ Hin)) as [x Ex]. pose proof (h_grants _ _ H gr) as Hx. rewrite Ex in Hx. by eapply Forall2_kept.
    + intros p pr Hin. destruct (S2 p pr (Hp' _ Hin)) as [x Ex]. pose proof (h_peers _ _ H pr) as Hx. rewrite Ex in Hx. by eapply Forall2_kept.
  - intros j t Ej. rewrite Et in Ej. destruct (upd_Some _ _ _ _ _ Ej) as [[_ ->]|[_ E]]; [exact Hn|]. exact (held_after s s' t H (ne_tasks _ N j t E)).
Qed.

(** ** Additions *)

(** A task is held in [s'] as in [s] when [s'] only adds to the heaps. *)
Lemma held_grown s s' t : held s t -> (forall r st, session_heap s !! r = Some st -> exists st', session_heap s' !! r = Some st' /\ session_lease st' = session_lease st) ->
  (forall gr x, grant_heap s !! gr = Some x -> grant_heap s' !! gr = Some x) -> (forall pr x, peer_heap s !! pr = Some x -> peer_heap s' !! pr = Some x) -> held s' t.
Proof.
  intros H Hs Hg Hp. destruct t; try done; destruct H as [Hc (y & Ey & Ha)]; split; try done.
  - destruct (Hs _ _ Ey) as (y' & E' & El). exists y'. by rewrite El.
  - exists y. split; [by apply Hp|done].
  - exists y. split; [by apply Hg|done].
Qed.

Lemma nested_issued s i t r st g : nested s -> tasks s !! i = Some t -> session_heap s !! r = Some st -> within (g_lease g) st -> len (grants st) < MAX_GRANTS ->
  forall s', s' = update_session r (fun st => set_grants (IndexMap.insert (grant_id g) (fresh s) (grants st)) st) (set_fresh (S (fresh s)) (set_grant_heap (<[fresh s := g]> (grant_heap s)) s)) ->
  forall next, from_option (held s') True next -> nested (retask i next s').
Proof.
  intros N Ei Er Hw Hl s' -> next Hn. destruct (ne_fresh _ N (fresh s)) as (_ & Fg & _); [lia|].
  constructor; simpl.
  - intros r' Hr. destruct (ne_fresh _ N r') as (E1 & E2 & E3); [lia|]. rewrite lookup_insert_ne by lia. split_and!; try done. rewrite lookup_alter. case_decide; [subst; by rewrite Er in E1|done].
  - intros r' st'. rewrite lookup_alter. case_decide; [subst r'; rewrite Er; intros [= <-]|apply (ne_session _ N)]. destruct (ne_session _ N _ _ Er) as [Hc _]. split; [exact Hc|].
    pose proof (IndexMap.length_insert_le (grant_id g) (fresh s) (grants st)). simpl. lia.
  - intros r' st' g' gr x. rewrite lookup_alter, lookup_insert. case_decide; [subst r'; rewrite Er; intros [= <-]; simpl; intros Hin|intros E Hin].
    + destruct (decide (fresh s = gr)) as [<-|Hne]; [by intros [= <-]|]. apply IndexMap.elem_of_insert in Hin as [[= _ ->]|Hin]; [done|]. by apply (ne_grant _ N r st g').
    + destruct (decide (fresh s = gr)) as [<-|Hne]; [|by apply (ne_grant _ N r' st' g')]. destruct (proj1 (ne_stored _ N _ _ E) _ _ Hin) as [y Ey]. congruence.
  - intros r' st' p pr x. rewrite lookup_alter. case_decide; [subst r'; rewrite Er; intros [= <-]; by apply (ne_peer _ N r st)|apply (ne_peer _ N)].
  - intros r' st'. rewrite lookup_alter. case_decide; [subst r'; rewrite Er; intros [= <-]|intros E].
    + destruct (ne_stored _ N _ _ Er) as [S1 S2]. split; [|exact S2]. intros g' gr Hin. rewrite lookup_insert. case_decide; [done|]. apply IndexMap.elem_of_insert in Hin as [[= _ ->]|Hin]; [done|]. by eapply S1.
    + destruct (ne_stored _ N _ _ E) as [S1 S2]. split; [|exact S2]. intros g' gr Hin. rewrite lookup_insert. case_decide; [done|]. by eapply S1.
  - intros j t' Ej. destruct (upd_Some _ _ _ _ _ Ej) as [[_ ->]|[_ E]]; [exact Hn|]. eapply held_grown; [by eapply ne_tasks| | |done]; simpl.
    + intros r' st' E'. rewrite lookup_alter. case_decide; [subst r'; rewrite E'; by eexists|by exists st'].
    + intros gr x Ex. rewrite lookup_insert_ne; [done|]. congruence.
Qed.

Lemma nested_paired s i t r st id x : nested s -> tasks s !! i = Some t -> session_heap s !! r = Some st -> within (peer_lease x) st ->
  forall s', s' = update_session r (fun st => set_peers (IndexMap.insert id (fresh s) (peers st)) st) (set_fresh (S (fresh s)) (set_peer_heap (<[fresh s := x]> (peer_heap s)) s)) ->
  forall next, from_option (held s') True next -> nested (retask i next s').
Proof.
  intros N Ei Er Hw s' -> next Hn. destruct (ne_fresh _ N (fresh s)) as (_ & _ & Fp); [lia|].
  constructor; simpl.
  - intros r' Hr. destruct (ne_fresh _ N r') as (E1 & E2 & E3); [lia|]. rewrite lookup_insert_ne by lia. split_and!; try done. rewrite lookup_alter. case_decide; [subst; by rewrite Er in E1|done].
  - intros r' st'. rewrite lookup_alter. case_decide; [subst r'; rewrite Er; intros [= <-]; by apply (ne_session _ N r st)|apply (ne_session _ N)].
  - intros r' st' p pr y. rewrite lookup_alter. case_decide; [subst r'; rewrite Er; intros [= <-]; by apply (ne_grant _ N r st)|apply (ne_grant _ N)].
  - intros r' st' p pr y. rewrite lookup_alter, lookup_insert. case_decide; [subst r'; rewrite Er; intros [= <-]; simpl; intros Hin|intros E Hin].
    + destruct (decide (fresh s = pr)) as [<-|Hne]; [by intros [= <-]|]. apply IndexMap.elem_of_insert in Hin as [[= _ ->]|Hin]; [done|]. by apply (ne_peer _ N r st p).
    + destruct (decide (fresh s = pr)) as [<-|Hne]; [|by apply (ne_peer _ N r' st' p)]. destruct (proj2 (ne_stored _ N _ _ E) _ _ Hin) as [z Ez]. congruence.
  - intros r' st'. rewrite lookup_alter. case_decide; [subst r'; rewrite Er; intros [= <-]|intros E].
    + destruct (ne_stored _ N _ _ Er) as [S1 S2]. split; [exact S1|]. intros p pr Hin. rewrite lookup_insert. case_decide; [done|]. apply IndexMap.elem_of_insert in Hin as [[= _ ->]|Hin]; [done|]. by eapply S2.
    + destruct (ne_stored _ N _ _ E) as [S1 S2]. split; [exact S1|]. intros p pr Hin. rewrite lookup_insert. case_decide; [done|]. by eapply S2.
  - intros j t' Ej. destruct (upd_Some _ _ _ _ _ Ej) as [[_ ->]|[_ E]]; [exact Hn|]. eapply held_grown; [by eapply ne_tasks| |done|]; simpl.
    + intros r' st' E'. rewrite lookup_alter. case_decide; [subst r'; rewrite E'; by eexists|by exists st'].
    + intros pr y Ey. rewrite lookup_insert_ne; [done|]. congruence.
Qed.

Lemma nested_created s i t v b ws lg ids ss : nested s -> tasks s !! i = Some t -> capped (lease v) ->
  forall s', s' = set_log lg (set_native_workers ws (set_identities ids (set_sessions ss (set_fresh (S (fresh s)) (set_session_heap (<[fresh s := MkSessionState b v [] []]> (session_heap s)) s))))) ->
  forall next, from_option (held s') True next -> nested (retask i next s').
Proof.
  intros N Ei Hc s' -> next Hn. destruct (ne_fresh _ N (fresh s)) as (Fs & _); [lia|]. constructor; simpl.
  - intros r' Hr. destruct (ne_fresh _ N r') as (E1 & E2 & E3); [lia|]. rewrite lookup_insert_ne by lia. done.
  - intros r' st'. rewrite lookup_insert. case_decide; [intros [= <-]; by split|apply (ne_session _ N)].
  - intros r' st' g gr x. rewrite lookup_insert. case_decide; [intros [= <-]; simpl; by rewrite elem_of_nil|apply (ne_grant _ N)].
  - intros r' st' g gr x. rewrite lookup_insert. case_decide; [intros [= <-]; simpl; by rewrite elem_of_nil|apply (ne_peer _ N)].
  - intros r' st'. rewrite lookup_insert. case_decide; [intros [= <-]; simpl|apply (ne_stored _ N)]. split; intros ? ?; by rewrite elem_of_nil.
  - intros j t' Ej. destruct (upd_Some _ _ _ _ _ Ej) as [[_ ->]|[_ E]]; [exact Hn|]. eapply held_grown; [by eapply ne_tasks| |done|done]. simpl.
    intros r' st' E'. rewrite lookup_insert_ne; [by exists st'|]. congruence.
Qed.

(** ** Every step keeps leases nested *)

Definition lawful s (x : option Task * State) : Prop := heap_step s x.2 /\ from_option (held x.2) True x.1.

Lemma lawful_same s next s' : session_heap s' = session_heap s -> grant_heap s' = grant_heap s -> peer_heap s' = peer_heap s -> (fresh s <= fresh s')%nat ->
  from_option (held s') True next -> lawful s (next, s').
Proof. intros. split; [by apply heap_step_same|done]. Qed.
Lemma lawful_refuse s why : lawful s (refuse why s).
Proof. by apply lawful_same. Qed.

Lemma shift_remove_count (k : units) (m : list (units * nat)) : len (IndexMap.shift_remove k m) <= len m.
Proof. apply IndexMap.length_remove_le. Qed.

Lemma remove_session_step id r s : heap_step s (remove_session id r s).
Proof.
  unfold remove_session. destruct (negb _); [by apply heap_step_same|]. destruct (session_heap s !! r); [|by apply heap_step_same]. cbn zeta. set (s2 := if bool_decide _ then _ else _).
  assert (E : session_heap s2 = session_heap s /\ grant_heap s2 = grant_heap s /\ peer_heap s2 = peer_heap s /\ fresh s2 = fresh s) by (unfold s2; by case_bool_decide).
  clearbody s2. destruct E as (E1 & E2 & E3 & E4).
  destruct (existsb _ _); apply (heap_step_session s _ r (fun st => set_peers [] (set_grants [] st))); simpl; try done; try lia; try (by rewrite E1);
    (intros st _; split_and!; [done|intros ?; by rewrite elem_of_nil|intros ?; by rewrite elem_of_nil|simpl; lia]).
Qed.
Lemma drop_grant_step r g s s' : session_heap s' = alter (fun st => set_grants (IndexMap.shift_remove g (grants st)) st) r (session_heap s) -> grant_heap s' = grant_heap s -> peer_heap s' = peer_heap s ->
  fresh s' = fresh s -> heap_step s s'.
Proof. intros E1 E2 E3 E4. eapply heap_step_session; [|exact E1|done|done|lia]. intros st _. split_and!; [done|apply shift_remove_subset|done|apply shift_remove_count]. Qed.
Lemma drop_peer_step r p s s' : session_heap s' = alter (fun st => set_peers (IndexMap.shift_remove p (peers st)) st) r (session_heap s) -> grant_heap s' = grant_heap s -> peer_heap s' = peer_heap s ->
  fresh s' = fresh s -> heap_step s s'.
Proof. intros E1 E2 E3 E4. eapply heap_step_session; [|exact E1|done|done|lia]. intros st _. split_and!; [done|done|apply shift_remove_subset|done]. Qed.

Lemma heap_step_after s s1 s2 : heap_step s s1 -> session_heap s2 = session_heap s1 -> grant_heap s2 = grant_heap s1 -> peer_heap s2 = peer_heap s1 -> fresh s2 = fresh s1 -> heap_step s s2.
Proof. intros [H1 H2 H3 H4] E1 E2 E3 E4. split; [by rewrite E1|by rewrite E2|by rewrite E3|lia]. Qed.

Lemma revoke_session_step id s : heap_step s (revoke_session id s).2.
Proof.
  unfold revoke_session. destruct (session_at s id) as [[r st]|]; [|by apply heap_step_same]. by eapply heap_step_after; [apply (remove_session_step id r s)|..].
Qed.
Lemma revoke_grant_step id g s : heap_step s (revoke_grant id g s).2.
Proof.
  unfold revoke_grant. destruct (session_at s id) as [[r st]|]; [|by apply heap_step_same]. destruct (IndexMap.get _ _); [|by apply heap_step_same]. by apply (drop_grant_step r g).
Qed.
Lemma revoke_peer_step id p s : heap_step s (revoke_peer id p s).2.
Proof.
  unfold revoke_peer. destruct (session_at s id) as [[r st]|]; [|by apply heap_step_same]. destruct (IndexMap.get _ _); [|by apply heap_step_same]. by apply (drop_peer_step r p).
Qed.
Lemma revoke_item_step it s : heap_step s (revoke_item it s).
Proof. destruct it; [apply revoke_peer_step|apply revoke_grant_step|apply revoke_session_step]. Qed.

Lemma renew_session_lawful id d now s : lawful s (renew_session options id d now s).
Proof.
  unfold renew_session. destruct (ready_state s id) as [why|[r st]] eqn:E; [apply lawful_refuse|]. destruct (renewed _ _ _ _) as [why|l] eqn:El; [apply lawful_refuse|].
  apply ready_state_listed in E as [[_ Er] _]. apply renewed_renews in El as (Ha & Hc & _). apply lawful_same; try done. simpl. split; [done|]. by exists st.
Qed.
Lemma session_renewed_lawful id r d l ack s : held s (RenewingSession id r d l) -> lawful s (session_renewed id r d l ack s).
Proof.
  intros [Hc (st & Er & Ha)]. unfold session_renewed. destruct ack; [|apply lawful_refuse]. destruct (current s id r); [|apply lawful_refuse]. simpl. rewrite Er.
  unfold checked_session; destruct (accepts_session _); [|apply lawful_refuse]. split; [|done]. eapply heap_step_session; [|done..]. intros st' E'. simplify_eq. split_and!; [|done..]. by split.
Qed.
Lemma renew_peers_lawful id r d l ps now s : lawful s (renew_peers id r d l ps now s).
Proof.
  unfold renew_peers. destruct ps as [|p ps]; [by apply lawful_same|]. destruct (peer_heap s !! p) as [x|] eqn:Ex; [|by apply lawful_same]. destruct (p_ready x); [|by apply lawful_same]. simpl.
  destruct (renewed _ _ _ _) as [why|pl] eqn:El; [apply lawful_refuse|]. apply renewed_renews in El as (Ha & Hc & _).
  destruct (worker_of s r); (apply lawful_same; try done; simpl; split; [done|]; by exists x).
Qed.
Lemma peer_renewed_lawful id r d l p pl ps ack s : held s (RenewingPeer id r d l p pl ps) -> lawful s (peer_renewed id r d l p pl ps ack s).
Proof.
  intros [Hc (x & Ex & Ha)]. unfold peer_renewed. rewrite Ex. destruct ack.
  - destruct (has_peer _ _ _ _); [|by apply lawful_same]. unfold checked_peer; destruct (accepts_peer _); [|apply lawful_refuse]. split; [|done]. eapply heap_step_peer; [|done..].
    intros y Ey. simplify_eq. by split.
  - split; [|done]. eapply drop_peer_step; simpl; destruct (worker_of _ _); done.
Qed.
Lemma replace_route_lawful id route s : lawful s (replace_route id route s).
Proof. unfold replace_route. destruct (ready_state s id) as [why|[r st]]; [apply lawful_refuse|]. destruct (bool_decide _); [by apply lawful_same|]. destruct (bool_decide _); by apply lawful_same. Qed.
Lemma route_replaced_lawful id r route g ack s : lawful s (route_replaced id r route g ack s).
Proof.
  unfold route_replaced. destruct ack; [|apply lawful_refuse]. destruct (current s id r); [|apply lawful_refuse]. simpl. destruct (session_heap s !! r) as [st|] eqn:Er; [|by apply lawful_same].
  unfold checked_session; destruct (accepts_session _); [|apply lawful_refuse]. split; [|done]. eapply heap_step_session; [|done..]. intros st' E'. by simplify_eq.
Qed.
Lemma grant_installed_lawful id r g gr k ack s : lawful s (grant_installed id r g gr k ack s).
Proof.
  unfold grant_installed. destruct ack; simpl.
  - destruct (_ && _ && _); [destruct (grant_heap s !! gr)|destruct (worker_of s r)]; by apply lawful_same.
  - destruct (has_grant _ _ _ _); [|by apply lawful_same]. split; [|done]. by eapply drop_grant_step.
Qed.
Lemma renew_grant_lawful id g d now s : lawful s (renew_grant id g d now s).
Proof.
  unfold renew_grant. destruct (ready_state s id) as [why|[r st]]; [apply lawful_refuse|]. destruct (_ ≫= _) as [[gr x]|] eqn:E; [|apply lawful_refuse].
  apply bind_Some in E as (gr' & _ & (x' & Ex & [= -> ->])%bind_Some). destruct (renewed _ _ _ _) as [why|l] eqn:El; [apply lawful_refuse|]. apply renewed_renews in El as (Ha & Hc & _).
  apply lawful_same; try done. simpl. split; [done|]. by exists x.
Qed.
Lemma grant_renewed_lawful id r g gr l ack s : held s (RenewingGrant id r g gr l) -> lawful s (grant_renewed id r g gr l ack s).
Proof.
  intros [Hc (x & Ex & Ha)]. unfold grant_renewed. destruct ack; [|apply lawful_refuse]. simpl. destruct (_ && _); [|apply lawful_refuse]. simpl. rewrite Ex.
  unfold checked_grant; destruct (accepts_grant _); [|apply lawful_refuse]. split; [|done].
  split; [intros y; simpl; destruct (session_heap s !! y); constructor; apply session_step_refl| |intros y; simpl; by destruct (peer_heap s !! y); constructor|done].
  intros y. simpl. rewrite lookup_insert. case_decide; [subst y; rewrite Ex; constructor; by split|by destruct (grant_heap s !! y); constructor].
Qed.
Lemma open_peer_lawful id route g s : lawful s (open_peer options id route g s).
Proof.
  unfold open_peer. destruct (ready_state s id) as [why|[r st]]; [apply lawful_refuse|]. destruct (peer_configuration options); [|apply lawful_refuse]. destruct (_ || _); [apply lawful_refuse|].
  destruct (g =? _); [|apply lawful_refuse]. simpl. destruct (filter _ _); [|by apply lawful_same]. destruct (opening_peers s !! _); [by apply lawful_same|]. apply lawful_same; simpl; auto.
Qed.
Lemma peer_installed_lawful id r p pr g round m ack s : lawful s (peer_installed id r p pr g round m ack s).
Proof.
  assert (Hf : forall x, session_heap (finish_peer round m x) = session_heap x /\ grant_heap (finish_peer round m x) = grant_heap x /\ peer_heap (finish_peer round m x) = peer_heap x /\ fresh (finish_peer round m x) = fresh x)
    by (intros x; unfold finish_peer; by case_bool_decide).
  unfold peer_installed. destruct ack; simpl.
  - destruct (_ && _ && _).
    + split; [|done]. destruct (Hf (update_peer pr (set_p_ready true) s)) as (F1 & F2 & F3 & F4).
      simpl. destruct (alter _ _ _ !! pr); (apply (heap_step_peer s _ pr (set_p_ready true)); [done|exact F3|exact F1|exact F2|simpl; simpl in F4; lia]).
    + destruct (worker_of s r); by apply lawful_same.
  - split; [|done]. set (s1 := if has_peer _ _ _ _ then _ else s). destruct (Hf s1) as (F1 & F2 & F3 & F4). apply (heap_step_after s s1); try done. unfold s1.
    destruct (has_peer _ _ _ _); [by eapply drop_peer_step|by apply heap_step_same].
Qed.
Lemma take_turn_lawful e r pr now s : lawful s (take_turn e r pr now s).
Proof.
  unfold take_turn. destruct (peer_heap s !! pr) as [x|]; [|by apply lawful_same]. destruct (turn x); [by apply lawful_same|]. cbv zeta. destruct (negb _); [apply lawful_refuse|].
  destruct (negb _); [apply lawful_refuse|]. destruct (256 <=? _); [split; [|done]; by eapply heap_step_after; [apply revoke_peer_step|..]|]. split; [|done].
  eapply (heap_step_peer s _ pr (set_turn true)); [done|..]; simpl; destruct (worker_of _ _); done.
Qed.
Lemma signalled_lawful e r pr ack s : lawful s (signalled e r pr ack s).
Proof.
  unfold signalled. destruct ack; simpl; [|split; [|done]; by apply (heap_step_peer s _ pr (set_turn false))]. split; [|done].
  destruct (_ && _); [|by apply (heap_step_peer s _ pr (set_turn false))].
  apply (heap_step_peer s _ pr (set_last_client (number (e_letter e)) ∘ set_turn false)); try done. simpl. apply alter_alter_eq.
Qed.
Lemma refuse_peer_lawful round m why s : lawful s (refuse_peer round m why s).
Proof. unfold refuse_peer, finish_peer. case_bool_decide; by apply lawful_same. Qed.

Lemma finish_open_heaps x m s : session_heap (finish_open x m s) = session_heap s /\ grant_heap (finish_open x m s) = grant_heap s /\ peer_heap (finish_open x m s) = peer_heap s /\ fresh (finish_open x m s) = fresh s.
Proof. unfold finish_open. by case_bool_decide. Qed.
Lemma refuse_open_lawful x m why s s' : heap_step s s' -> lawful s (refuse_open x m why s').
Proof. intros H. split; [|done]. destruct (finish_open_heaps x m s') as (E1 & E2 & E3 & E4). by apply (heap_step_after s s'). Qed.
Lemma installed_lawful x m id r ack s : lawful s (installed x m id r ack s).
Proof.
  unfold installed. destruct ack; simpl; [|apply refuse_open_lawful, remove_session_step]. destruct (_ && _); [|by apply lawful_same]. split; [|done]. set (s1 := update_session r (set_ready true) s).
  destruct (finish_open_heaps x m s1) as (E1 & E2 & E3 & E4). apply (heap_step_after s s1); [by apply (heap_step_session s s1 r (set_ready true))|..]; simpl; by destruct (alter _ _ _ !! r).
Qed.
Lemma open_resolved_lawful oi a s : lawful s (open_resolved options oi a s).
Proof.
  unfold open_resolved. cbv zeta. destruct (negb _); [apply lawful_refuse|]. destruct (_ ≫= _); [by apply lawful_same|]. destruct (opening s !! _); [by apply lawful_same|].
  destruct (_ <=? _); [apply lawful_refuse|]. apply lawful_same; simpl; auto.
Qed.

Lemma iso_same at_ x : iso at_ = Some x -> x = at_.
Proof. unfold iso. destruct (_ <=? _); [|done]. by intros [= <-]. Qed.

(** A new grant ends before the session does, and within its own lifetime. *)
Lemma prepare_grant_bounds n now s r v k g : prepare_grant uuid n now s = inr (r, v, k, g) ->
  exists st, session_heap s !! r = Some st /\ session st = v /\ len (grants st) < MAX_GRANTS /\ within (g_lease g) st /\ expires_at (g_lease g) <= expires_at (lease v).
Proof.
  unfold prepare_grant. destruct (ready_state s (n_session n)) as [why|[r' st]] eqn:Er; [done|]. apply ready_state_listed in Er as [[_ Er] _]. cbv zeta. intros E.
  destruct (bool_decide (is_Some _)); [done|]. destruct (MAX_GRANTS <=? _) eqn:El; [done|]. reflect_bools.
  destruct (n_lifetime n) as [|u|]; [| |done]; (destruct (_ <=? now); [done|]); (destruct (iso now); [|done]);
    (destruct (iso (Z.min _ _)) as [e|] eqn:Ee; [|done]); (destruct (iso _) as [a|] eqn:Ea in E; [|done]); (destruct (accepts_lease _); [|done]); unfold checked_grant in E; (destruct (accepts_grant _); [|done]); injection E as <- <- _ <-;
    apply iso_same in Ee, Ea; exists st; unfold within, capped, session_lease; simpl; split_and!; try done; lia.
Qed.

(** The absolute expiry of a session never moves. *)
Definition caps s s' : Prop := forall r st, session_heap s !! r = Some st ->
  exists st', session_heap s' !! r = Some st' /\ absolute_expires_at (session_lease st') = absolute_expires_at (session_lease st).

Lemma heap_step_caps s s' : heap_step s s' -> caps s s'.
Proof. intros H r st E. pose proof (h_sessions _ _ H r) as Hr. rewrite E in Hr. inversion Hr as [? st' [[Hl _] _]|]; subst. by exists st'. Qed.
Lemma caps_alter s s' r f : (forall st, session_lease (f st) = session_lease st) -> session_heap s' = alter f r (session_heap s) -> caps s s'.
Proof. intros Hf E r' st Es. rewrite E, lookup_alter. case_decide; [subst r'; rewrite Es; simpl; eexists; split; [done|]; by rewrite Hf|by exists st]. Qed.

Lemma run_nested t a now s i : tables uuid s -> neat_task t -> nested s -> tasks s !! i = Some t ->
  nested (retask i (run options uuid bridged t a now s).1 (run options uuid bridged t a now s).2) /\ caps s (run options uuid bridged t a now s).2.
Proof.
  intros T Htidy N Ei. pose proof (ne_tasks _ N _ _ Ei) as Hh.
  assert (Hl : lawful s (run options uuid bridged t a now s) ->
    nested (retask i (run options uuid bridged t a now s).1 (run options uuid bridged t a now s).2) /\ caps s (run options uuid bridged t a now s).2).
  { intros [H1 H2]. split; [|by apply heap_step_caps]. eapply nested_after; [exact N|by eapply run_frame|exact H1|exact H2]. }
  destruct t as [items after|oi|x m|x m ids|x m id r|x m|id r d l|id r d l ps|id r d l p pl ps|id r route g|id ps|id r g gr k|id r g gr l|r route round m|id r p pr g round m|round m|e r pr|e r pr|sc|sc items|ids|ids].
  - destruct items as [|it items]; [|apply Hl; split; [apply revoke_item_step|done]]. destruct after as [|oi|id d|id route|n|id g d|id route g].
    + apply Hl. by apply lawful_same.
    + apply Hl. by apply lawful_same.
    + apply Hl, renew_session_lawful.
    + apply Hl, replace_route_lawful.
    + simpl in *. unfold issue_grant in *. destruct (prepare_grant uuid n now s) as [why|[[[r v] k] g]] eqn:E; [apply Hl, lawful_refuse|].
      apply prepare_grant_bounds in E as (st & Er & Hv & Hlim & Hw & _). clear Hl. simpl.
      pose proof (nested_issued s i _ r st g N Ei Er Hw Hlim _ eq_refl (Some (InstallingGrant (n_session n) r (grant_id g) (fresh s) k)) I) as Hn.
      split; [destruct Hn; by constructor|]. by apply (caps_alter s _ r (fun st => set_grants (IndexMap.insert (grant_id g) (fresh s) (grants st)) st)).
    + apply Hl, renew_grant_lawful.
    + apply Hl, open_peer_lawful.
  - apply Hl. simpl. destruct a; [apply lawful_refuse|apply open_resolved_lawful].
  - apply Hl. by apply lawful_same.
  - destruct ids as [|id ids]; [|apply Hl; split; [apply revoke_session_step|done]]. simpl in *. unfold create_session in *. pose proof (heap_step_same s s eq_refl eq_refl eq_refl (le_n _)) as H0.
    destruct (closed s); [by apply Hl, refuse_open_lawful|]. destruct (negb _); [by apply Hl, refuse_open_lawful|].
    destruct (new_session options (uuid (fresh s)) x now) as [v|] eqn:Ev; [|by apply Hl, refuse_open_lawful]. clear Hl.
    assert (Hc : capped (lease v)). { unfold new_session in Ev. cbv zeta in Ev. apply bind_Some in Ev as (? & _ & Ev). apply bind_Some in Ev as (e & Ee & Ev). apply bind_Some in Ev as (la & Ea & Ev).
      apply iso_same in Ee, Ea. unfold checked_session in Ev; destruct (accepts_session _); [|done]. injection Ev as <-. unfold capped. simpl. lia. }
    unfold insert_session. simpl. match goal with |- context [register_worker _ _ ?z] => set (z' := z) end. destruct (register_worker_native bridged (worker_id x) z') as [ws ->]. unfold tell, record.
    split; [eapply (nested_created s i _ v false ws); [exact N|exact Ei|exact Hc| |exact I]; unfold z'; done|].
    intros r st E. simpl. rewrite lookup_insert_ne; [by exists st|]. intros <-. destruct (ne_fresh _ N (fresh s)) as (En & _); [lia|]. congruence.
  - apply Hl, installed_lawful.
  - apply Hl, refuse_open_lawful. by apply heap_step_same.
  - by apply Hl, session_renewed_lawful.
  - apply Hl, renew_peers_lawful.
  - by apply Hl, peer_renewed_lawful.
  - apply Hl, route_replaced_lawful.
  - apply Hl. destruct ps; [by apply lawful_same|]. split; [apply revoke_peer_step|done].
  - apply Hl, grant_installed_lawful.
  - by apply Hl, grant_renewed_lawful.
  - simpl in *. unfold prepare_peer in *. destruct (session_heap s !! r) as [st|] eqn:Er; [|apply Hl, refuse_peer_lawful]. destruct (peer_configuration options); [|apply Hl, refuse_peer_lawful]. cbv zeta in *.
    destruct (_ <=? _); [apply Hl, refuse_peer_lawful|]. destruct (_ <=? _); [apply Hl, refuse_peer_lawful|]. destruct (iso now) as [nw|]; [|apply Hl, refuse_peer_lawful].
    unfold checked_peer in *. destruct (accepts_peer _); [|apply Hl, refuse_peer_lawful]. clear Hl. match goal with |- context [MkPeerState false ?x [] [] _ _ _ _] => set (px := x) end.
    assert (Hw : within (peer_lease (MkPeerState false px [] [] (-1) (-1) (-1) false)) st) by (split; [exact (proj1 (ne_session _ N _ _ Er))|apply Z.le_refl]).
    pose proof (nested_paired s i _ r st (peer_session_id px) _ N Ei Er Hw _ eq_refl (Some (InstallingPeer (session_id (session st)) r (peer_session_id px) (fresh s) (route_generation (session st)) round m)) I) as Hn.
    split; [destruct Hn; by constructor|]. by apply (caps_alter s _ r (fun st => set_peers (IndexMap.insert (peer_session_id px) (fresh s) (peers st)) st)).
  - apply Hl, peer_installed_lawful.
  - apply Hl, refuse_peer_lawful.
  - apply Hl, take_turn_lawful.
  - apply Hl, signalled_lawful.
  - apply Hl. by apply lawful_same.
  - apply Hl. destruct items; [|split; [apply revoke_item_step|done]]. simpl. destruct (drop_fence_frame sc s) as (? & ? & ? & ->). by apply lawful_same.
  - apply Hl. destruct ids; [by apply lawful_same|]. split; [apply revoke_session_step|done].
  - apply Hl. destruct ids; [by apply lawful_same|]. split; [apply revoke_session_step|done].
Qed.

Lemma nested_quiet s s' : tables uuid s -> nested s -> tasks s' = tasks s -> heap_step s s' -> nested s'.
Proof.
  intros T N Et H. destruct (t_fresh _ _ T (fresh s)) as (_ & Hn & _); [lia|].
  assert (E : s' = retask (fresh s) None s'). { unfold retask. simpl. rewrite Et, delete_id by done. rewrite <- Et. by destruct s'. }
  rewrite E. by apply (nested_after s).
Qed.

Lemma nested_spawn t s s' : tables uuid s -> nested s -> tasks s' = tasks s -> session_heap s' = session_heap s -> grant_heap s' = grant_heap s -> peer_heap s' = peer_heap s -> fresh s' = fresh s ->
  (forall x, held x t) -> nested (spawn t s').
Proof.
  intros T N E1 E2 E3 E4 E5 Hh. refine (nested_after s (set_fresh (S (fresh s')) s') (fresh s') (Some t) N E1 _ (Hh _)). apply heap_step_same; try done. simpl. lia.
Qed.

Lemma read_mailbox_step id p x y now s : heap_step s (read_peer_mailbox id p x y now s).
Proof.
  unfold read_peer_mailbox. destruct (ready_state s id) as [why|[r st]]; [by apply heap_step_same|]. destruct (_ ≫= _) as [[pr z]|] eqn:E; [|by apply heap_step_same].
  apply bind_Some in E as (pr' & _ & (z' & Ez & [= -> ->])%bind_Some). destruct (_ || _); [by apply heap_step_same|]. destruct (_ || _); [by apply heap_step_same|]. cbv zeta.
  eapply (heap_step_peer s _ pr); [|done..]. done.
Qed.

Lemma post_lease b w e v now x y : post b w e v now x = Some y -> peer_lease y = peer_lease x.
Proof.
  unfold post. destruct (negb _); [done|]. cbv zeta. destruct (_ <=? _).
  - destruct (list_find _ _) as [[k m']|]; [destruct (bool_decide _); [|done]|]; by intros [= <-].
  - destruct (negb _ || _ || _); [done|]. intros [= <-]. by destruct b.
Qed.

Lemma notification_step b w e now s : heap_step s (receive_notification b w e now s).
Proof.
  unfold receive_notification. destruct (owner_of_peer _ s) as [[[id v] pr]|]; [|by apply heap_step_same]. destruct (peer_heap s !! pr) as [x|] eqn:Ex; [|by apply heap_step_same].
  destruct (post _ _ _ _ _ _) as [y|] eqn:Ep; [|apply revoke_peer_step]. apply post_lease in Ep.
  apply (heap_step_peer s _ pr (fun _ => y)); [|simpl|done..]; [intros x' Ex'; simplify_eq; by rewrite Ep|].
  apply map_eq. intros q. rewrite lookup_insert, lookup_alter. case_decide; [subst q; by rewrite Ex|done].
Qed.

Lemma exec_nested o s : tables uuid s -> neat s -> nested s -> nested (exec options uuid bridged o s) /\ caps s (exec options uuid bridged o s).
Proof.
  intros T Ns N. assert (Hq : forall s', tasks s' = tasks s -> heap_step s s' -> nested s' /\ caps s s') by (intros s' Et H; split; [by apply (nested_quiet s)|by apply heap_step_caps]).
  assert (Hr : forall e, nested (record e s) /\ caps s (record e s)) by (intros e; apply Hq; [done|by apply heap_step_same]).
  assert (Hsp : forall t s', tasks s' = tasks s -> session_heap s' = session_heap s -> grant_heap s' = grant_heap s -> peer_heap s' = peer_heap s -> fresh s' = fresh s -> (forall x, held x t) -> nested (spawn t s') /\ caps s (spawn t s')).
  { intros t s' E1 E2 E3 E4 E5 Hh. split; [by apply (nested_spawn _ s)|]. intros r st E. exists st. simpl. by rewrite E2. }
  destruct o as [after now|e|id p x y now|b w e now|sc|id|id g|id p|w g| |i a now]; cbn [exec].
  - assert (Hs : nested (spawn (Sweeping (expired_items now s) after) s) /\ caps s (spawn (Sweeping (expired_items now s) after) s)) by (by apply Hsp).
    unfold start. destruct after; [exact Hs|destruct (closed s); [apply Hr|]; destruct (_ && _); [exact Hs|apply Hr]|..]; (destruct (closed s); [apply Hr|exact Hs]).
  - unfold signal_peer. destruct (ready_state s _) as [why|[r st]]; simpl; [apply Hr|]. destruct (IndexMap.get _ _); simpl; [by apply Hsp|apply Hr].
  - apply Hq; [apply read_peer_mailbox_shrinks|apply read_mailbox_step].
  - apply Hq; [apply receive_notification_shrinks|apply notification_step].
  - destruct (fence_frame sc s) as (x & y & z & ->). by apply Hsp.
  - apply Hq; [by eapply revoke_session_shrinks|apply revoke_session_step].
  - apply Hq; [apply revoke_grant_shrinks|apply revoke_grant_step].
  - apply Hq; [apply revoke_peer_shrinks|apply revoke_peer_step].
  - by apply Hsp.
  - destruct (closed s); [|by apply Hsp]. apply Hq; [done|by apply heap_step_same].
  - destruct (tasks s !! i) as [t|] eqn:Ei; [|apply Hq; [done|by apply heap_step_same]]. pose proof (run_nested t a now s i T (Ns _ _ Ei) N Ei) as H. destruct (run _ _ _ t a now s) as [next s']. exact H.
Qed.

Lemma reach_nested s : reach options uuid bridged s -> nested s.
Proof.
  induction 1 as [|o s R IH Ho]; [by constructor|]. destruct (authority_neat options uuid bridged Hmax Hgen s R) as [[T _ _] Ns]. by apply exec_nested.
Qed.

(** in every reachable state a session of the coordinator, each of its
    grants and each of its peer sessions expires no later than its own absolute
    expiry, and that is no later than the session's; renewals never move the
    absolute expiry. A session has at most 128 grants. *)
Theorem leases_nested s o r st : reach options uuid bridged s -> session_heap s !! r = Some st ->
  expires_at (lease (session st)) <= absolute_expires_at (lease (session st)) /\ len (grants st) <= MAX_GRANTS /\
  (forall g gr x, (g, gr) ∈ grants st -> grant_heap s !! gr = Some x -> expires_at (g_lease x) <= absolute_expires_at (g_lease x) <= absolute_expires_at (lease (session st))) /\
  (forall p pr x, (p, pr) ∈ peers st -> peer_heap s !! pr = Some x -> expires_at (p_lease (peer x)) <= absolute_expires_at (p_lease (peer x)) <= absolute_expires_at (lease (session st))) /\
  exists st', session_heap (exec options uuid bridged o s) !! r = Some st' /\ absolute_expires_at (lease (session st')) = absolute_expires_at (lease (session st)).
Proof.
  intros R Er. pose proof (reach_nested s R) as N. destruct (ne_session _ N _ _ Er) as [Hc Hl]. split_and!; [done|done|..].
  - intros g gr x Hin Ex. exact (ne_grant _ N _ _ _ _ _ Er Hin Ex).
  - intros p pr x Hin Ex. exact (ne_peer _ N _ _ _ _ _ Er Hin Ex).
  - destruct (authority_neat options uuid bridged Hmax Hgen s R) as [[T _ _] Ns]. destruct (exec_nested o s T Ns) as [_ Hcap]; [done|]. exact (Hcap r st Er).
Qed.
End leases.

Lemma live_session : exists st, session_heap Sample.live !! 2%nat = Some st /\ len (grants st) = 1.
Proof. vm_compute. by eexists. Qed.

(** [leases_nested] in the sample: the session has a grant, and closing does not move its absolute expiry. *)
Lemma leases_nested_witness : exists st, session_heap Sample.live !! 2%nat = Some st /\ len (grants st) = 1 /\ expires_at (lease (session st)) <= absolute_expires_at (lease (session st)) /\
  exists st', session_heap (Sample.step Sample.live OClose) !! 2%nat = Some st' /\ absolute_expires_at (lease (session st')) = absolute_expires_at (lease (session st)).
Proof.
  destruct live_session as (st & E & H1). exists st.
  destruct (leases_nested Sample.options Sample.uuid true Sample.options_max Sample.options_tidy Sample.live OClose 2 st Sample.reach_live E) as (K1 & _ & _ & _ & K5).
  exact (conj E (conj H1 (conj K1 K5))).
Defined.
End AuthorityLeases.
