(* ===== verification/Direct.v ===== *)
(** * Direct attachments

    [Direct] models src/cantrip_server_rs/src/direct_attachments: mod.rs,
    lifecycle.rs, prepare.rs, renewal.rs and telemetry.rs. The coordinator hands
    out one-use capabilities for direct access to a worker's resources. A caller
    holds a preparation lease while it looks its resource up, prepares a
    capability under it, and renews it; whoever changes an owner, a session, an
    attachment or a resource does so under [mutate], which fences the scope,
    waits for the leases and preparations in it, revokes its capabilities and
    only then runs the change.

    An operation is cut where it awaits; what it does next is its [Task]. The
    worker's answers, the clock and the callers' order are arguments of [exec].
    JSON values are records of the fields the code reads, [Uuid]s are numbers,
    and log records are left out. *)
From S2P Require Import Prelude JsString.
From stdpp Require Import base numbers strings gmap option list.
Open Scope Z_scope.

Module Direct.
Import Text JsString.

(** ** Subjects and scopes *)

(** [attachmentId] of an input: absent, null or a name. *)
Inductive Attachment_ := Absent | Null | Name (a : units).
#[export] Instance attachment_eq_dec : EqDecision Attachment_.
Proof. solve_decision. Defined.

(** Whose access to what kind of resource an input is about. *)
Record Subject := MkSubject { owner : units; auth_session : units; attachment : Attachment_; kind : units }.

Definition key (o k : units) (resource : option units) : units :=
  decimal (len o) ++ [58] ++ o ++ match resource with Some r => decimal (len k) ++ [58] ++ k ++ r | None => k end.
Definition resource_key (u : Subject) (resource : units) : units := key (owner u) (kind u) (Some resource).
Definition kind_key (u : Subject) : units := key (owner u) (kind u) None.

Inductive Scope :=
| Owner (o : units)
| Session (a : units)
| Attachment (a : units)
| Resource (o k r : units).

Definition scope_matches (sc : Scope) (u : Subject) (resource : option units) (leases : bool) : bool :=
  match sc with
  | Owner o => bool_decide (owner u = o)
  | Session a => bool_decide (auth_session u = a)
  | Attachment a => bool_decide (attachment u = Name a)
  | Resource o k r =>
      bool_decide (owner u = o) && bool_decide (kind u = k) &&
      ((leases && bool_decide (resource = None)) || bool_decide (resource = Some r))
  end.

(** What closing covers is a scope of its own. *)
Inductive Region := Of (sc : Scope) | All.
Definition region_matches (x : Region) (u : Subject) (resource : option units) (leases : bool) : bool :=
  match x with Of sc => scope_matches sc u resource leases | All => true end.

(** ** State *)

Record LeaseState := MkLease { l_input : Subject; l_resource : option units }.
Record Lifecycle := MkLifecycle { c_id : nat; c_generation : nat; c_revoking : Z; c_queue : bool }.
Record Pending := MkPending { p_subject : Subject; p_resource : units; p_lifecycle : nat }.

Record Traffic := MkTraffic { from_local : Z; to_local : Z; conns_closed : Z; conns_opened : Z; rejection : option units }.

(** The record of a capability. [tunnel] is its mode. *)
Record Record_ := MkRecord {
  r_subject : Subject;
  r_resource : units;
  r_worker : units;
  tunnel : bool;
  created_at : Z;
  issued_at : Z;                      (* the clock its lease was computed from: for the statements *)
  activated_at : option Z;
  activation_attempts : Z;
  activations : Z;
  lease_expires : Z;
  max_lease : Z;
  renewal_attempts : Z;
  renewals : Z;
  renewal_supported : bool;
  renewal_window : Z;
  telemetry_at : option Z;
  telemetry_reports : Z;
  telemetry : Traffic
}.

Record Grant := MkGrant {
  g_id : nat;
  g_record : Record_;
  g_lifecycle : nat;
  g_generation : nat;
  g_renewal : bool;                   (* [renewal] is locked *)
  g_timer : option Z                  (* the expiry the timer waits for *)
}.
Record Finalized := MkFinalized { f_record : Record_; f_expires : Z; f_accepted : bool }.

Record PrepareInput := MkPrepareInput {
  i_subject : Subject;
  i_resource : units;
  i_worker : units;
  i_online : bool;
  i_broker : bool;
  i_renewable : bool;
  i_max_lease : option Z;
  i_lease : option Z;
  i_tunnel : bool;
  i_channels : list units
}.

(** A preparation whose capability the worker was asked for. *)
Record Preparation := MkPreparation {
  w_id : nat;
  w_lease : nat;
  w_input : PrepareInput;
  w_lifecycle : nat;
  w_generation : nat;
  w_capability : units;
  w_attachment : units;
  w_started : Z;
  w_issued : Z;
  w_expiry : Z;
  w_maximum : Z
}.
Definition w_key (w : Preparation) : units := resource_key (i_subject (w_input w)) (i_resource (w_input w)).

(** What the fence of a resource holds besides its counters. *)
Definition Hold : Type := option (units * nat).

Inductive Task :=
| Preparing (w : Preparation)
| Withdrawing (w : Preparation)
| Queueing (sc : Scope) (k : units) (id : nat)
| Collecting (x : Region) (h : Hold)
| Waiting (x : Region) (h : Hold) (leases pending : list nat)
| Revoking (x : Region) (h : Hold) (capabilities : list units)
| Mutating (x : Region) (h : Hold)
| AwaitingRenewal (capability : units) (id : nat)
| Renewing (capability : units) (id : nat) (r : Record_) (candidate : Z)
| RenewalLost (capability : units) (id : nat)
| Sweeping (capabilities : list units)
| Expiring
| Writing.

Inductive Command := DPrepare (capability : units) | DRevoke (capability : units) | DRenew (capability : units) (expires : Z).

Inductive Entry :=
| Told (worker : units) (c : Command)
| Leased (id : nat)
| Ticket (capability : units)
| Refused (why : string)
| Answered (status : string)
| Counted (capability : units) (delta : Traffic)
| Observed (event : string) (capability : units)
| Mutated (x : Region).

Record State := MkState {
  closed : bool;
  close_complete : bool;
  grants : list (units * Grant);
  finalized : list (units * Finalized);
  leases : list (nat * LeaseState);
  preparations : list (nat * Pending);
  lifecycles : gmap units Lifecycle;
  owners : gmap units Z;
  sessions : gmap units Z;
  attachments : gmap units Z;
  kinds : gmap units Z;
  writes : Z;
  background : Z;
  tasks : gmap nat Task;
  log : list Entry;
  fresh : nat
}.

Definition set_closed x s := MkState x (close_complete s) (grants s) (finalized s) (leases s) (preparations s) (lifecycles s) (owners s) (sessions s) (attachments s) (kinds s) (writes s) (background s) (tasks s) (log s) (fresh s).
Definition set_close_complete x s := MkState (closed s) x (grants s) (finalized s) (leases s) (preparations s) (lifecycles s) (owners s) (sessions s) (attachments s) (kinds s) (writes s) (background s) (tasks s) (log s) (fresh s).
Definition set_grants x s := MkState (closed s) (close_complete s) x (finalized s) (leases s) (preparations s) (lifecycles s) (owners s) (sessions s) (attachments s) (kinds s) (writes s) (background s) (tasks s) (log s) (fresh s).
Definition set_finalized x s := MkState (closed s) (close_complete s) (grants s) x (leases s) (preparations s) (lifecycles s) (owners s) (sessions s) (attachments s) (kinds s) (writes s) (background s) (tasks s) (log s) (fresh s).
Definition set_leases x s := MkState (closed s) (close_complete s) (grants s) (finalized s) x (preparations s) (lifecycles s) (owners s) (sessions s) (attachments s) (kinds s) (writes s) (background s) (tasks s) (log s) (fresh s).
Definition set_preparations x s := MkState (closed s) (close_complete s) (grants s) (finalized s) (leases s) x (lifecycles s) (owners s) (sessions s) (attachments s) (kinds s) (writes s) (background s) (tasks s) (log s) (fresh s).
Definition set_lifecycles x s := MkState (closed s) (close_complete s) (grants s) (finalized s) (leases s) (preparations s) x (owners s) (sessions s) (attachments s) (kinds s) (writes s) (background s) (tasks s) (log s) (fresh s).
Definition set_writes x s := MkState (closed s) (close_complete s) (grants s) (finalized s) (leases s) (preparations s) (lifecycles s) (owners s) (sessions s) (attachments s) (kinds s) x (background s) (tasks s) (log s) (fresh s).
Definition set_background x s := MkState (closed s) (close_complete s) (grants s) (finalized s) (leases s) (preparations s) (lifecycles s) (owners s) (sessions s) (attachments s) (kinds s) (writes s) x (tasks s) (log s) (fresh s).
Definition set_tasks x s := MkState (closed s) (close_complete s) (grants s) (finalized s) (leases s) (preparations s) (lifecycles s) (owners s) (sessions s) (attachments s) (kinds s) (writes s) (background s) x (log s) (fresh s).
Definition set_log x s := MkState (closed s) (close_complete s) (grants s) (finalized s) (leases s) (preparations s) (lifecycles s) (owners s) (sessions s) (attachments s) (kinds s) (writes s) (background s) (tasks s) x (fresh s).
Definition set_fresh x s := MkState (closed s) (close_complete s) (grants s) (finalized s) (leases s) (preparations s) (lifecycles s) (owners s) (sessions s) (attachments s) (kinds s) (writes s) (background s) (tasks s) (log s) x.
Definition set_fences o a t k s := MkState (closed s) (close_complete s) (grants s) (finalized s) (leases s) (preparations s) (lifecycles s) o a t k (writes s) (background s) (tasks s) (log s) (fresh s).
Definition set_activation at_ attempts count r := MkRecord (r_subject r) (r_resource r) (r_worker r) (tunnel r) (created_at r) (issued_at r) at_ attempts count (lease_expires r) (max_lease r) (renewal_attempts r) (renewals r) (renewal_supported r) (renewal_window r) (telemetry_at r) (telemetry_reports r) (telemetry r).
Definition set_renewal expires attempts count r := MkRecord (r_subject r) (r_resource r) (r_worker r) (tunnel r) (created_at r) (issued_at r) (activated_at r) (activation_attempts r) (activations r) expires (max_lease r) attempts count (renewal_supported r) (renewal_window r) (telemetry_at r) (telemetry_reports r) (telemetry r).
Definition set_telemetry at_ reports t r := MkRecord (r_subject r) (r_resource r) (r_worker r) (tunnel r) (created_at r) (issued_at r) (activated_at r) (activation_attempts r) (activations r) (lease_expires r) (max_lease r) (renewal_attempts r) (renewals r) (renewal_supported r) (renewal_window r) at_ reports t.

Definition new : State := MkState false false [] [] [] [] ∅ ∅ ∅ ∅ ∅ 0 0 ∅ [] 0.

Definition record (e : Entry) (s : State) : State := set_log (log s ++ [e]) s.
Definition tell (worker : units) (c : Command) (s : State) : State := record (Told worker c) s.
Definition refuse (why : string) (s : State) : option Task * State := (None, record (Refused why) s).
Definition answer (status : string) (s : State) : option Task * State := (None, record (Answered status) s).
Definition spawn (t : Task) (s : State) : State := set_fresh (S (fresh s)) (set_tasks (<[fresh s := t]> (tasks s)) s).

(** ** Fences *)

Definition begin (m : gmap units Z) (k : units) : gmap units Z := <[k := default 0 (m !! k) + 1]> m.
Definition end_ (m : gmap units Z) (k : units) : gmap units Z :=
  match m !! k with Some n => if n - 1 =? 0 then delete k m else <[k := n - 1]> m | None => m end.

Definition revoking (s : State) (k : units) : Z := match lifecycles s !! k with Some l => c_revoking l | None => 0 end.

Definition fenced (s : State) (u : Subject) (resource : option units) : bool :=
  closed s
  || bool_decide (is_Some (owners s !! owner u))
  || bool_decide (is_Some (sessions s !! auth_session u))
  || match attachment u with Name a => negb (bool_decide (a = [])) && bool_decide (is_Some (attachments s !! a)) | _ => false end
  || match resource with
     | None => bool_decide (is_Some (kinds s !! kind_key u))
     | Some r => 0 <? revoking s (resource_key u r)
     end.

Definition lifecycle (k : units) (s : State) : Lifecycle * State :=
  match lifecycles s !! k with
  | Some l => (l, s)
  | None =>
      let l := MkLifecycle (fresh s) (S (fresh s)) 0 false in
      (l, set_fresh (S (S (fresh s))) (set_lifecycles (<[k := l]> (lifecycles s)) s))
  end.

Definition remove_unused (k : units) (id : nat) (s : State) : State :=
  match lifecycles s !! k with
  | Some l =>
      if bool_decide (c_id l = id) && (c_revoking l =? 0) &&
         negb (existsb (fun p => bool_decide (p_lifecycle p.2 = id)) (preparations s)) &&
         negb (existsb (fun g => bool_decide (resource_key (r_subject (g_record g.2)) (r_resource (g_record g.2)) = k)) (grants s))
      then set_lifecycles (delete k (lifecycles s)) s else s
  | None => s
  end.

(** ** Preparation leases: mod.rs *)

Definition acquire_preparation (u : Subject) (resource : option units) (s : State) : State :=
  if fenced s u resource then record (Refused "Fenced") s
  else record (Leased (fresh s)) (set_fresh (S (fresh s)) (set_leases (IndexMap.insert (fresh s) (MkLease u resource) (leases s)) s)).

Definition bind_preparation (id : nat) (k r : units) (s : State) : State :=
  match IndexMap.get id (leases s) with
  | None => s
  | Some l =>
      if negb (bool_decide (kind (l_input l) = k)) || (bool_decide (is_Some (l_resource l)) && negb (bool_decide (l_resource l = Some r)))
         || bool_decide (is_Some (kinds s !! kind_key (l_input l))) || fenced s (l_input l) (Some r)
      then s else set_leases (IndexMap.insert id (MkLease (l_input l) (Some r)) (leases s)) s
  end.

Definition preparation_active (id : nat) (s : State) : bool :=
  match IndexMap.get id (leases s) with Some l => negb (fenced s (l_input l) (l_resource l)) | None => false end.

Definition release_preparation (id : nat) (s : State) : State := set_leases (IndexMap.shift_remove id (leases s)) s.

Definition lease_matches (s : State) (lease : nat) (i : PrepareInput) : bool :=
  match IndexMap.get lease (leases s) with
  | None => false
  | Some l =>
      let u := l_input l in let v := i_subject i in
      bool_decide (owner u = owner v) && bool_decide (auth_session u = auth_session v) && bool_decide (kind u = kind v) &&
      (bool_decide (attachment u = Absent) || bool_decide (attachment u = attachment v)) &&
      bool_decide (l_resource l = Some (i_resource i)) && negb (fenced s u (l_resource l))
  end.

(** ** Revocation: lifecycle.rs *)

Definition prune (now : Z) (s : State) : State := set_finalized (filter (fun p => now < f_expires p.2) (finalized s)) s.
Definition FINALIZED_LIMIT : nat := 4096.
Definition TUNNEL : units := lit "tunnel".

Section coordinator.
(** Fresh identifiers, and whether there is an observer and a timer. *)
Context (uuid : nat -> units) (observer automatic : bool).
(** The contracts of tickets. *)
Context (accepts_ticket : PrepareInput -> Z -> bool).

Definition observe (event : string) (capability : units) (r : Record_) (s : State) : State :=
  if negb (tunnel r && bool_decide (kind (r_subject r) = TUNNEL)) || negb observer then s
  else spawn Writing (record (Observed event capability) (set_writes (writes s + 1) s)).

(** The grant leaves the table; the record of a tunnel is kept for a while. *)
Definition finalize_record (capability : units) (r : Record_) (now : Z) (s : State) : State :=
  let s := observe "finalized" capability r s in
  let k := resource_key (r_subject r) (r_resource r) in
  let s := match lifecycles s !! k with Some l => remove_unused k (c_id l) s | None => s end in
  if tunnel r then
    let s := prune now s in
    let kept := IndexMap.insert capability (MkFinalized r (now + 120000) false) (finalized s) in
    set_finalized (drop (length kept - FINALIZED_LIMIT) kept) s
  else s.

Record Authorization := MkAuthorization { a_owner : units; a_session : units; a_attachment : Attachment_ }.
Definition authorized (r : Record_) (a : Authorization) (with_attachment : bool) : bool :=
  bool_decide (owner (r_subject r) = a_owner a) && bool_decide (auth_session (r_subject r) = a_session a) &&
  (negb with_attachment || bool_decide (attachment (r_subject r) = a_attachment a)).

Definition finalize (capability : units) (a : option Authorization) (now : Z) (s : State) : option Record_ * State :=
  match IndexMap.get capability (grants s) with
  | None => (None, s)
  | Some g =>
      if from_option (fun a => negb (authorized (g_record g) a false)) false a then (None, s)
      else (Some (g_record g), finalize_record capability (g_record g) now (set_grants (IndexMap.shift_remove capability (grants s)) s))
  end.

Definition revoke (capability : units) (a : option Authorization) (now : Z) (s : State) : State :=
  match finalize capability a now s with
  | (Some r, s) => tell (r_worker r) (DRevoke capability) s
  | (None, s) => s
  end.

(** *** Changes under a fence *)

Definition raise_fence (sc : Scope) (s : State) : State :=
  match sc with
  | Owner o => set_fences (begin (owners s) o) (sessions s) (attachments s) (kinds s) s
  | Session a => set_fences (owners s) (begin (sessions s) a) (attachments s) (kinds s) s
  | Attachment a => set_fences (owners s) (sessions s) (begin (attachments s) a) (kinds s) s
  | Resource o k _ => set_fences (owners s) (sessions s) (attachments s) (begin (kinds s) (key o k None)) s
  end.

Definition mutate (sc : Scope) (s : State) : State :=
  match sc with
  | Resource o k r =>
      let rk := key o k (Some r) in
      let '(l, s) := lifecycle rk s in
      let l := MkLifecycle (c_id l) (fresh s) (c_revoking l + 1) (c_queue l) in
      let s := set_fresh (S (fresh s)) (set_lifecycles (<[rk := l]> (lifecycles s)) s) in
      spawn (Queueing sc rk (c_id l)) (raise_fence sc s)
  | _ => spawn (Collecting (Of sc) None) (raise_fence sc s)
  end.

Definition drop_fence (sc : Scope) (h : Hold) (s : State) : State :=
  match sc with
  | Owner o => set_fences (end_ (owners s) o) (sessions s) (attachments s) (kinds s) s
  | Session a => set_fences (owners s) (end_ (sessions s) a) (attachments s) (kinds s) s
  | Attachment a => set_fences (owners s) (sessions s) (end_ (attachments s) a) (kinds s) s
  | Resource o k _ =>
      let s := set_fences (owners s) (sessions s) (attachments s) (end_ (kinds s) (key o k None)) s in
      match h with
      | None => s
      | Some (rk, id) =>
          let s := match lifecycles s !! rk with
                   | Some l => if bool_decide (c_id l = id)
                               then set_lifecycles (<[rk := MkLifecycle (c_id l) (c_generation l) (c_revoking l - 1) (c_queue l)]> (lifecycles s)) s else s
                   | None => s
                   end in
          remove_unused rk id s
      end
  end.

Definition set_queue (b : bool) (l : Lifecycle) : Lifecycle := MkLifecycle (c_id l) (c_generation l) (c_revoking l) b.
Definition take_queue (sc : Scope) (rk : units) (id : nat) (s : State) : option Task * State :=
  match lifecycles s !! rk with
  | Some l => if c_queue l then (Some (Queueing sc rk id), s)
              else (Some (Collecting (Of sc) (Some (rk, id))), set_lifecycles (<[rk := set_queue true l]> (lifecycles s)) s)
  | None => (Some (Queueing sc rk id), s)
  end.
Definition leave_queue (h : Hold) (s : State) : State :=
  match h with Some (rk, _) => set_lifecycles (alter (set_queue false) rk (lifecycles s)) s | None => s end.

Definition matching_leases (x : Region) (s : State) : list nat :=
  (filter (fun p => region_matches x (l_input p.2) (l_resource p.2) true = true) (leases s)).*1.
Definition matching_pending (x : Region) (s : State) : list nat :=
  (filter (fun p => region_matches x (p_subject p.2) (Some (p_resource p.2)) false = true) (preparations s)).*1.
Definition matching_grants (x : Region) (s : State) : list units :=
  (filter (fun p => region_matches x (r_subject (g_record p.2)) (Some (r_resource (g_record p.2))) false = true) (grants s)).*1.

Definition collect (x : Region) (h : Hold) (s : State) : option Task * State :=
  (Some (Waiting x h (matching_leases x s) (matching_pending x s)), s).
Definition await_release (x : Region) (h : Hold) (ls ps : list nat) (s : State) : option Task * State :=
  if forallb (fun id => negb (IndexMap.contains_key id (leases s))) ls && forallb (fun id => negb (IndexMap.contains_key id (preparations s))) ps
  then (Some (Revoking x h (matching_grants x s)), s)
  else (Some (Waiting x h ls ps), s).

(** The change itself, or the end of closing. *)
Definition conclude (x : Region) (h : Hold) (s : State) : option Task * State :=
  match x with
  | Of sc => (None, record (Mutated x) (drop_fence sc h (leave_queue h s)))
  | All => if writes s =? 0 then (None, set_close_complete true (set_finalized [] s)) else (Some (Mutating x h), s)
  end.

Definition close (s : State) : State := if closed s then s else spawn (Collecting All None) (set_closed true s).

(** ** Preparation: prepare.rs *)

Definition drop_preparation (w : Preparation) (s : State) : State :=
  remove_unused (w_key w) (w_lifecycle w) (set_preparations (IndexMap.shift_remove (w_id w) (preparations s)) s).

Definition iso_ok (ms : Z) : bool := Z.abs ms <=? 8640000000000000.
Definition DAY_HALF : Z := 43200000.

(** The clock is read twice, at [started] for the record and, once the worker is
    known to be there, at [now] for the lease. *)
Definition prepare (lease : nat) (i : PrepareInput) (connected : bool) (started now : Z) (s : State) : State :=
  if negb (lease_matches s lease i) then
    record (Refused (if closed s then "The direct attachment coordinator is shutting down." else "The owning resource is being revoked.")) s
  else
    let '(l, s) := lifecycle (resource_key (i_subject i) (i_resource i)) s in
    if 0 <? c_revoking l then record (Refused "The owning resource is being revoked.") s
    else
      let id := fresh s in
      let s := set_fresh (S id) (set_preparations (IndexMap.insert id (MkPending (i_subject i) (i_resource i) (c_id l)) (preparations s)) s) in
      let maximum := Z.min (default (now + DAY_HALF) (i_max_lease i)) (now + DAY_HALF) in
      let expiry := Z.min (default (now + 60000) (i_lease i)) maximum in
      let capability := uuid (fresh s) in
      let chosen := match attachment (i_subject i) with Name a => a | _ => uuid (S (fresh s)) end in
      let w := MkPreparation id lease i (c_id l) (c_generation l) capability chosen started now expiry maximum in
      let fail why s := record (Refused why) (drop_preparation w s) in
      if negb (i_online i && connected) then fail "Worker is offline."%string s
      else if negb (i_broker i) then fail "Worker does not offer a local direct broker."%string s
      else if (expiry <=? now) || (maximum <=? now) then fail "Direct attachment lease has already expired."%string s
      else if negb (iso_ok (now + 15000) && iso_ok expiry && accepts_ticket i expiry) then fail "Invalid ticket"%string s
      else spawn (Preparing w) (tell (i_worker i) (DPrepare capability) (set_fresh (S (S (fresh s))) s)).

Definition new_record (w : Preparation) (jitter : Z) : Record_ :=
  let i := w_input w in let u := i_subject i in
  MkRecord (MkSubject (owner u) (auth_session u) (Name (w_attachment w)) (kind u)) (i_resource i) (i_worker i) (i_tunnel i) (w_started w) (w_issued w) None 0 0
    (w_expiry w) (w_maximum w) 0 0 (i_renewable i) (90000 + jitter mod 60001) None 0 (MkTraffic 0 0 0 0 None).

Definition timer (expiry : Z) : option Z := if automatic then Some expiry else None.

(** The answer of the worker; [jitter] is what the random source gives. *)
Definition prepared (w : Preparation) (capability : option units) (jitter : option Z) (now : Z) (s : State) : option Task * State :=
  match capability with
  | None => refuse "Worker could not prepare a local direct capability." (drop_preparation w s)
  | Some c =>
      if negb (bool_decide (c = w_capability w)) then refuse "Worker acknowledged another direct capability." (drop_preparation w s)
      else
        match jitter with
        | None => refuse "No entropy" (drop_preparation w s)
        | Some jitter =>
            let g := MkGrant (fresh s) (new_record w jitter) (w_lifecycle w) (w_generation w) false (timer (w_expiry w)) in
            let s := set_fresh (S (fresh s)) (set_grants (IndexMap.insert (w_capability w) g (grants s)) s) in
            if lease_matches s (w_lease w) (w_input w) &&
               match lifecycles s !! w_key w with
               | Some l => bool_decide (c_id l = w_lifecycle w) && bool_decide (c_generation l = w_generation w) && (c_revoking l =? 0)
               | None => false
               end
            then (None, record (Ticket (w_capability w)) (drop_preparation w s))
            else (Some (Withdrawing w), revoke (w_capability w) None now s)
        end
  end.

(** ** Renewal: renewal.rs *)

(** The grant is the one that was found, and nothing revokes it. *)
Definition current (s : State) (capability : units) (id : nat) : bool :=
  match IndexMap.get capability (grants s) with
  | None => false
  | Some g =>
      let u := r_subject (g_record g) in let r := r_resource (g_record g) in
      bool_decide (g_id g = id) && negb (fenced s u (Some r)) && negb (bool_decide (is_Some (kinds s !! kind_key u))) &&
      match lifecycles s !! resource_key u r with
      | Some l => bool_decide (c_id l = g_lifecycle g) && bool_decide (c_generation l = g_generation g) && (c_revoking l =? 0)
      | None => false
      end
  end.

Definition update_grant (capability : units) (g : Grant) (s : State) : State := set_grants (IndexMap.insert capability g (grants s)) s.
Definition set_record (r : Record_) (g : Grant) : Grant := MkGrant (g_id g) r (g_lifecycle g) (g_generation g) (g_renewal g) (g_timer g).
Definition set_lock (b : bool) (g : Grant) : Grant := MkGrant (g_id g) (g_record g) (g_lifecycle g) (g_generation g) b (g_timer g).
Definition set_timer (t : option Z) (g : Grant) : Grant := MkGrant (g_id g) (g_record g) (g_lifecycle g) (g_generation g) (g_renewal g) t.

Definition renew (capability : units) (a : Authorization) (s : State) : option Task * State :=
  match IndexMap.get capability (grants s) with
  | Some g => if authorized (g_record g) a false then (Some (AwaitingRenewal capability (g_id g)), s) else answer "missing" s
  | None => answer "missing" s
  end.

(** The turn of this renewal: the grant may be gone, or still locked. *)
Definition begin_renewal (capability : units) (id : nat) (now : Z) (s : State) : option Task * State :=
  match IndexMap.get capability (grants s) with
  | None => answer "missing" s
  | Some g =>
      if negb (bool_decide (g_id g = id)) then answer "missing" s
      else if g_renewal g then (Some (AwaitingRenewal capability id), s)
      else if negb (current s capability id) then answer "missing" s
      else
        let r := g_record g in
        if bool_decide (activated_at r = None) || (activations r =? 0) then answer "not-active" s
        else
          let expiry := lease_expires r in
          let candidate := Z.max expiry (Z.min (max_lease r) (now + 60000)) in
          if (now <? expiry) && negb (renewal_supported r) then answer "unsupported" s
          else if (now <? expiry) && ((renewal_window r <? expiry - now) || (candidate <=? expiry)) then answer "completed" s
          else if (expiry <=? now) || (candidate <=? now) then answer "expired" (revoke capability None now s)
          else
            let r := set_renewal expiry (renewal_attempts r + 1) (renewals r) r in
            (Some (Renewing capability id r candidate),
             tell (r_worker r) (DRenew capability candidate) (update_grant capability (set_lock true (set_record r g)) s))
  end.

(** The answer of the worker to a renewal. *)
Inductive RenewalAnswer := Failed (retryable : bool) | Rejected | Extended (expires : option Z).

Definition same_grant (capability : units) (id : nat) (s : State) : option Grant :=
  g ← IndexMap.get capability (grants s); if bool_decide (g_id g = id) then Some g else None.

Definition fail_closed (capability : units) (id : nat) (r : Record_) (now : Z) (s : State) : State :=
  match same_grant capability id s with
  | Some _ => revoke capability None now s
  | None => tell (r_worker r) (DRevoke capability) s
  end.

Definition renewed (capability : units) (id : nat) (r : Record_) (candidate : Z) (a : RenewalAnswer) (now : Z) (s : State) : option Task * State :=
  match a with
  | Failed true => answer "retryable-failure" (match same_grant capability id s with Some g => update_grant capability (set_lock false g) s | None => s end)
  | Failed false | Rejected => answer "worker-rejected" (fail_closed capability id r now s)
  | Extended expires =>
      let accepted := default candidate expires in
      if (accepted <? candidate) || (max_lease r <? accepted) then answer "worker-rejected" (fail_closed capability id r now s)
      else if current s capability id then
        match IndexMap.get capability (grants s) with
        | None => answer "missing" s
        | Some g =>
            let v := g_record g in
            let expiry := Z.max (lease_expires v) accepted in
            let v := set_renewal expiry (renewal_attempts v) (renewals v + 1) v in
            answer "completed" (observe "renewed" capability v (update_grant capability (set_lock false (set_timer (timer expiry) (set_record v g))) s))
        end
      else (Some (RenewalLost capability id), tell (r_worker r) (DRevoke capability) s)
  end.

Definition renewal_lost (capability : units) (id : nat) (now : Z) (s : State) : option Task * State :=
  answer "missing" (match same_grant capability id s with Some _ => (finalize capability None now s).2 | None => s end).

(** ** Use and telemetry: telemetry.rs *)

Definition activate (capability : units) (a : Authorization) (completed : bool) (now : Z) (s : State) : State :=
  match IndexMap.get capability (grants s) with
  | Some g =>
      if authorized (g_record g) a true then
        let r := g_record g in
        let r := if completed
                 then set_activation (Some (default now (activated_at r))) (activation_attempts r + 1) (activations r + 1) r
                 else set_activation (activated_at r) (activation_attempts r + 1) (activations r) r in
        update_grant capability (set_record r g) s
      else s
  | None => s
  end.

Definition merge (previous t : Traffic) : Traffic :=
  MkTraffic (Z.max (from_local previous) (from_local t)) (Z.max (to_local previous) (to_local t))
    (Z.max (conns_closed previous) (conns_closed t)) (Z.max (conns_opened previous) (conns_opened t))
    (match rejection t with Some x => Some x | None => rejection previous end).
Definition delta (previous merged : Traffic) : Traffic :=
  MkTraffic (from_local merged - from_local previous) (to_local merged - to_local previous)
    (conns_closed merged - conns_closed previous) (conns_opened merged - conns_opened previous) (rejection merged).

Definition record_telemetry (capability : units) (a : Authorization) (t : Traffic) (now : Z) (s : State) : option Traffic * State :=
  match IndexMap.get capability (grants s) with
  | Some g =>
      if authorized (g_record g) a false then
        let r := g_record g in
        let merged := merge (telemetry r) t in
        let d := delta (telemetry r) merged in
        (Some d, record (Counted capability d) (update_grant capability (set_record (set_telemetry (Some now) (telemetry_reports r + 1) merged r) g) s))
      else (None, s)
  | None => (None, s)
  end.

Definition record_final_telemetry (capability : units) (a : Authorization) (t : Traffic) (now : Z) (s : State) : option Traffic * State :=
  let s := prune now s in
  match IndexMap.get capability (finalized s) with
  | Some f =>
      if authorized (f_record f) a false then
        let r := f_record f in
        if f_accepted f then let d := delta (telemetry r) (telemetry r) in (Some d, record (Counted capability d) s)
        else
          let merged := merge (telemetry r) t in
          let d := delta (telemetry r) merged in
          let f := MkFinalized (set_telemetry (telemetry_at r) (telemetry_reports r) merged r) (f_expires f) true in
          (Some d, record (Counted capability d) (set_finalized (IndexMap.insert capability f (finalized s)) s))
      else (None, s)
  | None => (None, s)
  end.

(** ** Interleaving *)

Inductive Answer := Nothing | PreparedAs (capability : option units) (jitter : option Z) | RenewedAs (a : RenewalAnswer).

Definition run (t : Task) (a : Answer) (now : Z) (s : State) : option Task * State :=
  match t with
  | Preparing w => match a with PreparedAs c jitter => prepared w c jitter now s | _ => prepared w None None now s end
  | Withdrawing w => refuse "The owning resource changed while direct access was being prepared." (drop_preparation w s)
  | Queueing sc rk id => take_queue sc rk id s
  | Collecting x h => collect x h s
  | Waiting x h ls ps => await_release x h ls ps s
  | Revoking x h (c :: cs) => (Some (Revoking x h cs), revoke c None now s)
  | Revoking x h [] => (Some (Mutating x h), s)
  | Mutating x h => conclude x h s
  | AwaitingRenewal c id => begin_renewal c id now s
  | Renewing c id r candidate => renewed c id r candidate (match a with RenewedAs a => a | _ => Failed false end) now s
  | RenewalLost c id => renewal_lost c id now s
  | Sweeping (c :: cs) => (Some (Sweeping cs), revoke c None now s)
  | Sweeping [] => (None, s)
  | Expiring => (None, set_background (background s - 1) s)
  | Writing => (None, set_writes (writes s - 1) s)
  end.

Inductive Op :=
| OAcquire (u : Subject) (resource : option units)
| OBind (id : nat) (k r : units)
| ORelease (id : nat)
| OPrepare (lease : nat) (i : PrepareInput) (connected : bool) (started now : Z)
| OMutate (sc : Scope)
| ORevoke (capability : units) (a : option Authorization) (now : Z)
| OOffline (worker : units) (now : Z)
| OTimer (capability : units) (now : Z)
| OSweep (now : Z)
| ORenew (capability : units) (a : Authorization)
| OActivate (capability : units) (a : Authorization) (completed : bool) (now : Z)
| OTelemetry (capability : units) (a : Authorization) (t : Traffic) (now : Z)
| OFinalTelemetry (capability : units) (a : Authorization) (t : Traffic) (now : Z)
| OClose
| OTask (i : nat) (a : Answer) (now : Z).

Definition worker_offline (worker : units) (now : Z) (s : State) : State :=
  fold_left (fun s c => (finalize c None now s).2) (filter (fun p => r_worker (g_record p.2) = worker) (grants s)).*1 s.

(** A timer fires: the lease it waited for has not been extended. *)
Definition timer_fired (capability : units) (now : Z) (s : State) : State :=
  match IndexMap.get capability (grants s) with
  | Some g =>
      if bool_decide (g_timer g = Some (lease_expires (g_record g)))
      then spawn Expiring (revoke capability None now (set_background (background s + 1) (update_grant capability (set_timer None g) s)))
      else s
  | None => s
  end.

Definition sweep_expired (now : Z) (s : State) : State :=
  spawn (Sweeping (filter (fun p => lease_expires (g_record p.2) <= now) (grants s)).*1) s.

Definition exec (o : Op) (s : State) : State :=
  match o with
  | OAcquire u resource => acquire_preparation u resource s
  | OBind id k r => bind_preparation id k r s
  | ORelease id => release_preparation id s
  | OPrepare lease i connected started now => prepare lease i connected started now s
  | OMutate sc => mutate sc s
  | ORevoke c a now => revoke c a now s
  | OOffline w now => worker_offline w now s
  | OTimer c now => timer_fired c now s
  | OSweep now => sweep_expired now s
  | ORenew c a => let '(next, s) := renew c a s in match next with Some t => spawn t s | None => s end
  | OActivate c a completed now => activate c a completed now s
  | OTelemetry c a t now => (record_telemetry c a t now s).2
  | OFinalTelemetry c a t now => (record_final_telemetry c a t now s).2
  | OClose => close s
  | OTask i a now =>
      match tasks s !! i with
      | None => s
      | Some t => let '(next, s) := run t a now s in set_tasks (match next with Some t => <[i := t]> (tasks s) | None => delete i (tasks s) end) s
      end
  end.

(** The attachments [shared] are those that callers revoke by name, the ones of
    tunnels: their callers (src/cantrip_server_rs/src/http/tunnel_direct.rs)
    prepare them under a lease that names them. Other callers lease no attachment
    and prepare one of their own, which no one revokes by name. *)
Definition prepares_leased (shared : units -> Prop) (o : Op) (s : State) : Prop :=
  match o with
  | OPrepare lease i _ _ _ => forall l a, IndexMap.get lease (leases s) = Some l -> attachment (i_subject i) = Name a -> shared a -> attachment (l_input l) = Name a
  | _ => True
  end.

Inductive reach (shared : units -> Prop) : State -> Prop :=
| reach_new : reach shared new
| reach_step o s : reach shared s -> prepares_leased shared o s -> reach shared (exec o s).
End coordinator.
End Direct.
