(* ===== verification/DirectInv.v ===== *)
(** * The invariant of direct attachments

    [DirectInv] proves what [Direct] keeps true however its operations
    interleave: the counters of fences, the queues of resources, and what a
    change under way still has to wait for or revoke. *)
From S2P Require Import Prelude JsString Direct.
From stdpp Require Import base numbers strings gmap option list fin_maps.
Open Scope Z_scope.

Module DirectInv.
Import Text JsString Direct.

(** ** Tasks *)

(** The fence a task holds: its region and the lifecycle of its resource. *)
Definition fence_of (t : Task) : option (Region * Hold) :=
  match t with
  | Queueing sc k id => Some (Of sc, Some (k, id))
  | Collecting x h | Waiting x h _ _ | Revoking x h _ | Mutating x h => Some (x, h)
  | _ => None
  end.
(** The queue it is past. *)
Definition past_of (t : Task) : option units :=
  match t with Collecting _ h | Waiting _ h _ _ | Revoking _ h _ | Mutating _ h => fst <$> h | _ => None end.
Definition prep_of (t : Task) : option Preparation := match t with Preparing w | Withdrawing w => Some w | _ => None end.

Definition region_of (t : Task) : option Region := fst <$> fence_of t.
Definition hold_of (t : Task) : Hold := x ← fence_of t; x.2.

Definition is_key (k k' : units) : Z := if decide (k = k') then 1 else 0.
Definition holds_owner (k : units) (t : Task) : Z := match region_of t with Some (Of (Owner o)) => is_key k o | _ => 0 end.
Definition holds_session (k : units) (t : Task) : Z := match region_of t with Some (Of (Session a)) => is_key k a | _ => 0 end.
Definition holds_attachment (k : units) (t : Task) : Z := match region_of t with Some (Of (Attachment a)) => is_key k a | _ => 0 end.
Definition holds_kind (k : units) (t : Task) : Z := match region_of t with Some (Of (Resource o kd _)) => is_key k (key o kd None) | _ => 0 end.
Definition holds_lifecycle (k : units) (t : Task) : Z := match hold_of t with Some (k', _) => is_key k k' | None => 0 end.

Lemma is_key_pos k k' : 0 <= is_key k k'.
Proof. unfold is_key. case_decide; lia. Qed.
Lemma holds_owner_nonneg k t : 0 <= holds_owner k t.
Proof. unfold holds_owner. repeat case_match; try lia; apply is_key_pos. Qed.
Lemma holds_session_nonneg k t : 0 <= holds_session k t.
Proof. unfold holds_session. repeat case_match; try lia; apply is_key_pos. Qed.
Lemma holds_attachment_nonneg k t : 0 <= holds_attachment k t.
Proof. unfold holds_attachment. repeat case_match; try lia; apply is_key_pos. Qed.
Lemma holds_kind_nonneg k t : 0 <= holds_kind k t.
Proof. unfold holds_kind. repeat case_match; try lia; apply is_key_pos. Qed.
Lemma holds_lifecycle_nonneg k t : 0 <= holds_lifecycle k t.
Proof. unfold holds_lifecycle. repeat case_match; try lia; apply is_key_pos. Qed.

(** ** The invariant *)

Section inv.
Context (uuid : nat -> units) (observer automatic : bool) (accepts_ticket : PrepareInput -> Z -> bool).
Context {uuid_inj : Inj (=) (=) uuid} (shared : units -> Prop).
Implicit Types (s : State) (t : Task).

Definition pending_of (w : Preparation) : Pending := MkPending (i_subject (w_input w)) (i_resource (w_input w)) (w_lifecycle w).

Definition lease_in (x : Region) (l : LeaseState) : Prop := region_matches x (l_input l) (l_resource l) true = true.
Definition pending_in (x : Region) (p : Pending) : Prop := region_matches x (p_subject p) (Some (p_resource p)) false = true.
Definition grant_in (x : Region) (g : Grant) : Prop := region_matches x (r_subject (g_record g)) (Some (r_resource (g_record g))) false = true.

(** The regions a fence keeps clear: an attachment is named by its callers. *)
Definition guarded (x : Region) : Prop :=
  match x with Of (Attachment a) => shared a /\ a <> [] /\ forall n, a <> uuid n | _ => True end.

(** The hold of a fence fits its region. *)
Definition hold_fits (x : Region) (h : Hold) : Prop :=
  match x with Of (Resource o k r) => exists id, h = Some (key o k (Some r), id) | _ => h = None end.

(** How far a change has come. *)
Definition barrier s t : Prop :=
  match t with
  | Waiting x _ ls ps => guarded x -> (forall id l, (id, l) ∈ leases s -> lease_in x l -> id ∈ ls) /\ (forall id p, (id, p) ∈ preparations s -> pending_in x p -> id ∈ ps)
  | Revoking x _ cs => guarded x -> (forall id l, (id, l) ∈ leases s -> ~ lease_in x l) /\ (forall id p, (id, p) ∈ preparations s -> ~ pending_in x p) /\
      (forall c g, (c, g) ∈ grants s -> grant_in x g -> c ∈ cs)
  | Mutating x _ => guarded x -> (forall id l, (id, l) ∈ leases s -> ~ lease_in x l) /\ (forall id p, (id, p) ∈ preparations s -> ~ pending_in x p) /\
      (forall c g, (c, g) ∈ grants s -> ~ grant_in x g)
  | _ => True
  end.

(** The tables. *)
Record tidy s : Prop := Tidy {
  d_leases : NoDup (leases s).*1 /\ forall id, id ∈ (leases s).*1 -> (id < fresh s)%nat;
  d_preps : NoDup (preparations s).*1 /\ forall id, id ∈ (preparations s).*1 -> (id < fresh s)%nat;
  d_grants : NoDup (grants s).*1;
  d_tasks : forall j, (fresh s <= j)%nat -> tasks s !! j = None
}.

(** The fences that are up are those of the tasks. *)
Record fences s : Prop := Fences {
  f_owners : counted (owners s) holds_owner (tasks s);
  f_sessions : counted (sessions s) holds_session (tasks s);
  f_attachments : counted (attachments s) holds_attachment (tasks s);
  f_kinds : counted (kinds s) holds_kind (tasks s);
  f_revoking : forall k, revoking s k = map_total (holds_lifecycle k) (tasks s);
  f_closed : forall j t, tasks s !! j = Some t -> region_of t = Some All -> closed s = true;
  f_fits : forall j t x h, tasks s !! j = Some t -> fence_of t = Some (x, h) -> hold_fits x h
}.

(** The queue of a resource lets one change pass. *)
Record queues s : Prop := Queues {
  q_ids : forall j t k id, tasks s !! j = Some t -> hold_of t = Some (k, id) -> exists l, lifecycles s !! k = Some l /\ c_id l = id;
  q_queue : forall k, (exists l, lifecycles s !! k = Some l /\ c_queue l = true) <-> (exists j t, tasks s !! j = Some t /\ past_of t = Some k);
  q_past : forall j j' t t' k, tasks s !! j = Some t -> tasks s !! j' = Some t' -> past_of t = Some k -> past_of t' = Some k -> j = j'
}.

(** A preparation under way is in the table. *)
Definition linked s (w : Preparation) : Prop :=
  IndexMap.get (w_id w) (preparations s) = Some (pending_of w) /\
  match attachment (i_subject (w_input w)) with Name a => w_attachment w = a | _ => exists n, w_attachment w = uuid n end.

Record links s : Prop := Links {
  k_link : forall j t w, tasks s !! j = Some t -> prep_of t = Some w -> linked s w;
  k_alone : forall j j' t t' w w', tasks s !! j = Some t -> tasks s !! j' = Some t' -> prep_of t = Some w -> prep_of t' = Some w' -> w_id w = w_id w' -> j = j'
}.

Record wf s : Prop := Wf { wf_tidy : tidy s; wf_fenced : fences s; wf_queues : queues s; wf_links : links s; wf_barrier : forall j t, tasks s !! j = Some t -> barrier s t }.

(** A fence that is up refuses what it covers. *)
Lemma counted_at (m : gmap units Z) f ts j t k : counted m f ts -> (forall k t, 0 <= f k t) -> ts !! j = Some t -> f k t = 1 -> is_Some (m !! k).
Proof. intros C Hf Ej E. apply not_eq_None_Some. intros Hn. pose proof (counted_free f Hf m ts k j t C Hn Ej). lia. Qed.

Lemma is_key_refl k : is_key k k = 1.
Proof. unfold is_key. by rewrite decide_True. Qed.

Lemma covered_fenced s j t x u r leases : fences s -> tasks s !! j = Some t -> region_of t = Some x -> guarded x -> (leases = true \/ is_Some r) ->
  region_matches x u r leases = true -> fenced s u r = true.
Proof.
  intros W Ej Er Hg Hr Hm. unfold fenced. destruct x as [[o|a|a|o k r0]|]; simpl in Hm.
  - apply bool_decide_eq_true in Hm as <-. rewrite (bool_decide_eq_true_2 (is_Some (owners s !! _))); [by rewrite orb_true_r|].
    eapply (counted_at _ holds_owner); [apply W|apply holds_owner_nonneg|exact Ej|]. unfold holds_owner. by rewrite Er, is_key_refl.
  - apply bool_decide_eq_true in Hm as <-. rewrite (bool_decide_eq_true_2 (is_Some (sessions s !! _))); [by rewrite orb_true_r|].
    eapply (counted_at _ holds_session); [apply W|apply holds_session_nonneg|exact Ej|]. unfold holds_session. by rewrite Er, is_key_refl.
  - destruct Hg as (_ & Hne & _). apply bool_decide_eq_true in Hm as ->. rewrite (bool_decide_eq_false_2 (a = [])) by done.
    rewrite (bool_decide_eq_true_2 (is_Some (attachments s !! _))); [by rewrite orb_true_r|].
    eapply (counted_at _ holds_attachment); [apply W|apply holds_attachment_nonneg|exact Ej|]. unfold holds_attachment. by rewrite Er, is_key_refl.
  - apply andb_true_iff in Hm as [Hm Hr0]. apply andb_true_iff in Hm as [Ho Hk]. apply bool_decide_eq_true in Ho as <-, Hk as <-. destruct r as [r|].
    + apply orb_true_iff in Hr0 as [Hr0|Hr0]; [by rewrite andb_comm in Hr0|]. apply bool_decide_eq_true in Hr0 as [= ->].
      assert (Hp : 0 < revoking s (resource_key u r0)); [|rewrite (proj2 (Z.ltb_lt _ _) Hp); by rewrite orb_true_r].
      rewrite (f_revoking _ W). unfold region_of in Er. destruct (fence_of t) as [[x h]|] eqn:Ef; [|done]. simpl in Er. injection Er as ->.
      destruct (f_fits _ W j t _ _ Ej Ef) as [id ->]. pose proof (map_total_ge (holds_lifecycle (resource_key u r0)) _ j t (holds_lifecycle_nonneg _) Ej) as Hge.
      enough (holds_lifecycle (resource_key u r0) t = 1) by lia. unfold holds_lifecycle, hold_of. rewrite Ef. apply is_key_refl.
    + rewrite (bool_decide_eq_true_2 (is_Some (kinds s !! _))); [by rewrite orb_true_r|].
      eapply (counted_at _ holds_kind); [apply W|apply holds_kind_nonneg|exact Ej|]. unfold holds_kind. rewrite Er. apply is_key_refl.
  - by rewrite (f_closed _ W j t Ej Er).
Qed.

(** ** Steps that keep fences clear *)

Definition retask (i : nat) (next : option Task) s : State := set_tasks (upd i next (tasks s)) s.

Definition up s (x : Region) : Prop := exists j t, tasks s !! j = Some t /\ region_of t = Some x.
Definition plain t : Prop := fence_of t = None /\ prep_of t = None.

(** What a region that is fenced has in [s'] it had in [s], and a grant may come
    of a preparation; the preparations of [s], [d] excepted, and the tasks stay. *)
Record calmed (d : option nat) s s' : Prop := Calmed {
  m_tidy : tidy s';
  m_leases : forall x id l, guarded x -> up s x -> (id, l) ∈ leases s' -> lease_in x l -> exists l0, (id, l0) ∈ leases s /\ lease_in x l0;
  m_preps : forall x id p, guarded x -> up s x -> (id, p) ∈ preparations s' -> pending_in x p -> exists p0, (id, p0) ∈ preparations s /\ pending_in x p0;
  m_grants : forall x c g, guarded x -> up s x -> (c, g) ∈ grants s' -> grant_in x g ->
    (exists g0, (c, g0) ∈ grants s /\ grant_in x g0) \/ exists id p, (id, p) ∈ preparations s /\ pending_in x p;
  m_kept : forall id p, IndexMap.get id (preparations s) = Some p -> d <> Some id -> IndexMap.get id (preparations s') = Some p;
  m_tasks : forall j, tasks s' !! j = tasks s !! j \/ tasks s !! j = None /\ exists t, tasks s' !! j = Some t /\ plain t;
  m_totals : forall f : Task -> Z, (forall t, plain t -> f t = 0) -> map_total f (tasks s') = map_total f (tasks s);
  m_fresh : (fresh s <= fresh s')%nat;
  m_closed : closed s = true -> closed s' = true
}.
Definition calm d s s' : Prop := tidy s -> calmed d s s'.

Lemma calm_same d s s' : leases s' = leases s -> preparations s' = preparations s -> grants s' = grants s -> tasks s' = tasks s ->
  (fresh s <= fresh s')%nat -> (closed s = true -> closed s' = true) -> calm d s s'.
Proof.
  intros El Ep Eg Et Hf Hc T. split; rewrite ?El, ?Ep, ?Eg, ?Et; eauto.
  destruct T as [[Hl Hl'] [Hp Hp'] Hg Ht]. split; rewrite ?El, ?Ep, ?Eg, ?Et; [split; [done|intros id Hid; specialize (Hl' id Hid); lia]|split; [done|intros id Hid; specialize (Hp' id Hid); lia]|done|].
  intros j Hj. apply Ht. lia.
Qed.

Lemma calm_refl s : calm None s s.
Proof. by apply calm_same. Qed.

Lemma calmed_up d s s' x : calmed d s s' -> up s x -> up s' x.
Proof. intros C (j & t & Ej & Hx). exists j, t. split; [|done]. destruct (m_tasks _ _ _ C j) as [->|[E _]]; [done|congruence]. Qed.

Lemma calm_weaken d s s' : calm None s s' -> calm d s s'.
Proof. intros C T. destruct (C T). by split; auto. Qed.

Lemma calm_trans d s s1 s2 : calm d s s1 -> calm d s1 s2 -> calm d s s2.
Proof.
  intros C1 C2 T. specialize (C1 T). specialize (C2 (m_tidy _ _ _ C1)). pose proof (fun x => calmed_up d s s1 x C1) as Hup. split.
  - apply C2.
  - intros x id l Hg Hu Hin Hl. destruct (m_leases _ _ _ C2 x id l) as (l0 & Hin0 & Hl0); auto. by eapply (m_leases _ _ _ C1).
  - intros x id p Hg Hu Hin Hp. destruct (m_preps _ _ _ C2 x id p) as (p0 & Hin0 & Hp0); auto. by eapply (m_preps _ _ _ C1).
  - intros x c g Hg Hu Hin Hx. destruct (m_grants _ _ _ C2 x c g) as [(g0 & Hin0 & Hg0)|(id & p & Hin0 & Hp)]; auto.
    + by eapply (m_grants _ _ _ C1).
    + right. destruct (m_preps _ _ _ C1 x id p) as (p0 & ? & ?); eauto.
  - intros id p E Hd. apply (m_kept _ _ _ C2); [|done]. by apply (m_kept _ _ _ C1).
  - intros j. destruct (m_tasks _ _ _ C2 j) as [->|[E H]].
    + apply (m_tasks _ _ _ C1).
    + destruct (m_tasks _ _ _ C1 j) as [E1|[E1 (t & Et & _)]]; [|congruence]. right. by rewrite <- E1.
  - intros f Hf. by rewrite (m_totals _ _ _ C2), (m_totals _ _ _ C1).
  - pose proof (m_fresh _ _ _ C1). pose proof (m_fresh _ _ _ C2). lia.
  - intros E. apply C2, C1, E.
Qed.

(** ** Steps that leave the fences alone *)

Record still s s' : Prop := Still {
  z_owners : owners s' = owners s;
  z_sessions : sessions s' = sessions s;
  z_attachments : attachments s' = attachments s;
  z_kinds : kinds s' = kinds s;
  z_revoking : forall k, revoking s' k = revoking s k;
  z_held : forall k, 0 < revoking s k -> lifecycles s' !! k = lifecycles s !! k;
  z_queue : forall k l, lifecycles s' !! k = Some l -> c_queue l = true -> lifecycles s !! k = Some l
}.

Lemma still_same s s' : owners s' = owners s -> sessions s' = sessions s -> attachments s' = attachments s -> kinds s' = kinds s ->
  lifecycles s' = lifecycles s -> still s s'.
Proof. intros ? ? ? ? El. split; try done; unfold revoking; by rewrite El. Qed.

Lemma still_refl s : still s s.
Proof. by apply still_same. Qed.

Lemma still_trans s s1 s2 : still s s1 -> still s1 s2 -> still s s2.
Proof.
  intros [? ? ? ? Hr Hh Hq] [? ? ? ? Hr' Hh' Hq']. split; try congruence.
  - intros k Hk. rewrite Hh' by (by rewrite Hr). auto.
  - intros k l E Q. auto.
Qed.

(** Both, for an operation. *)
Definition quiet d s s' : Prop := calm d s s' /\ still s s'.

Lemma quiet_refl s : quiet None s s.
Proof. split; [apply calm_refl|apply still_refl]. Qed.
Lemma quiet_trans d s s1 s2 : quiet d s s1 -> quiet None s1 s2 -> quiet d s s2.
Proof. intros [C1 S1] [C2 S2]. split; [|by eapply still_trans]. eapply calm_trans; [exact C1|by apply calm_weaken]. Qed.
Lemma quiet_before d s s1 s2 : quiet None s s1 -> quiet d s1 s2 -> quiet d s s2.
Proof. intros [C1 S1] [C2 S2]. split; [|by eapply still_trans]. eapply calm_trans; [by apply calm_weaken|exact C2]. Qed.
Lemma quiet_same s s' : leases s' = leases s -> preparations s' = preparations s -> grants s' = grants s -> tasks s' = tasks s ->
  (fresh s <= fresh s')%nat -> (closed s = true -> closed s' = true) ->
  owners s' = owners s -> sessions s' = sessions s -> attachments s' = attachments s -> kinds s' = kinds s -> lifecycles s' = lifecycles s -> quiet None s s'.
Proof. intros. split; [by apply calm_same|by apply still_same]. Qed.

(** ** What a step leaves *)

Lemma barrier_calm d s s' j t : wf s -> calmed d s s' -> tasks s !! j = Some t -> barrier s t -> barrier s' t.
Proof.
  intros W C Ej B. assert (U : forall x, region_of t = Some x -> up s x) by (intros x E; by exists j, t).
  destruct t; simpl in *; try done; intros Hg; specialize (B Hg); specialize (U x eq_refl).
  - destruct B as [Bl Bp]. split.
    + intros id l Hin Hl. destruct (m_leases _ _ _ C x id l) as (? & ? & ?); eauto.
    + intros id p Hin Hp. destruct (m_preps _ _ _ C x id p) as (? & ? & ?); eauto.
  - destruct B as (Bl & Bp & Bg). split_and!.
    + intros id l Hin Hl. destruct (m_leases _ _ _ C x id l) as (l0 & Hin0 & Hl0); auto. by eapply Bl.
    + intros id p Hin Hp. destruct (m_preps _ _ _ C x id p) as (p0 & Hin0 & Hp0); auto. by eapply Bp.
    + intros c g Hin Hx. destruct (m_grants _ _ _ C x c g) as [(g0 & Hin0 & Hg0)|(id & p & Hin0 & Hp)]; eauto. by destruct (Bp _ _ Hin0).
  - destruct B as (Bl & Bp & Bg). split_and!.
    + intros id l Hin Hl. destruct (m_leases _ _ _ C x id l) as (l0 & Hin0 & Hl0); auto. by eapply Bl.
    + intros id p Hin Hp. destruct (m_preps _ _ _ C x id p) as (p0 & Hin0 & Hp0); auto. by eapply Bp.
    + intros c g Hin Hx. destruct (m_grants _ _ _ C x c g) as [(g0 & Hin0 & Hg0)|(id & p & Hin0 & Hp)]; auto; [by eapply Bg|by eapply Bp].
Qed.

Lemma barrier_plain s t : plain t -> barrier s t.
Proof. intros [E _]. by destruct t. Qed.

Lemma held_pos s j t k id : fences s -> tasks s !! j = Some t -> hold_of t = Some (k, id) -> 0 < revoking s k.
Proof.
  intros F Ej Eh. rewrite (f_revoking _ F). pose proof (map_total_ge (holds_lifecycle k) _ j t (holds_lifecycle_nonneg _) Ej) as Hge.
  enough (holds_lifecycle k t = 1) by lia. unfold holds_lifecycle. rewrite Eh. apply is_key_refl.
Qed.

Lemma past_hold t k : past_of t = Some k -> exists id, hold_of t = Some (k, id).
Proof. intros E. unfold hold_of. destruct t; simpl in *; try done; apply fmap_Some in E as ([k' id] & -> & ->); by exists id. Qed.

Lemma plain_past t : plain t -> past_of t = None.
Proof. intros [E _]. by destruct t. Qed.
Lemma plain_hold t : plain t -> hold_of t = None.
Proof. intros [E _]. unfold hold_of. by rewrite E. Qed.

Section step.
Context (s s' : State) (i : nat) (next : option Task) (d : option nat).
Context (W : wf s) (C : calmed d s s') (Hi : tasks s' !! i = tasks s !! i) (Hb : is_Some next -> (i < fresh s')%nat).

Lemma after_task j t : tasks (retask i next s') !! j = Some t -> i = j /\ next = Some t \/ i <> j /\ (tasks s !! j = Some t \/ plain t).
Proof using C.
  intros E. apply upd_Some in E as [E|[Hne E]]; [by left|right]. split; [done|].
  destruct (m_tasks _ _ _ C j) as [Ej|[_ (t' & Ej & Hp)]]; [left; congruence|right]. by simplify_eq.
Qed.

Lemma after_kept j t : i <> j -> tasks s !! j = Some t -> tasks (retask i next s') !! j = Some t.
Proof using C.
  intros Hne E. simpl. rewrite upd_at, decide_False by done. destruct (m_tasks _ _ _ C j) as [->|[En _]]; [done|congruence].
Qed.

Lemma after_total (f : Task -> Z) : (forall t, plain t -> f t = 0) ->
  map_total f (tasks (retask i next s')) = map_total f (tasks s) - from_option f 0 (tasks s !! i) + from_option f 0 next.
Proof using C Hi. intros Hf. simpl. by rewrite upd_total, Hi, (m_totals _ _ _ C). Qed.

Lemma after_tidy : tidy (retask i next s').
Proof using C Hb.
  destruct (m_tidy _ _ _ C) as [? ? ? Ht]. split; try done. simpl. intros j Hj. rewrite upd_at. case_decide as E; [|by apply Ht].
  subst j. destruct next; [|done]. assert (i < fresh s')%nat by (by apply Hb). lia.
Qed.

Lemma after_barrier : (forall t, next = Some t -> barrier s' t) -> forall j t, tasks (retask i next s') !! j = Some t -> barrier (retask i next s') t.
Proof using W C.
  intros Hn j t E. enough (barrier s' t) by (by destruct t). destruct (after_task _ _ E) as [[_ En]|[_ [Ej|Hp]]]; [auto| |by apply barrier_plain].
  eapply barrier_calm; [done..|]. by apply (wf_barrier _ W j).
Qed.

(** The preparation of the next task is the one of this task, or a new one. *)
Lemma after_links :
  (forall id, d = Some id -> exists w, tasks s !! i ≫= prep_of = Some w /\ w_id w = id) ->
  (forall w, next ≫= prep_of = Some w -> linked s' w /\
    (tasks s !! i ≫= prep_of = Some w \/ forall j t w', tasks s !! j = Some t -> prep_of t = Some w' -> w_id w' <> w_id w)) ->
  links (retask i next s').
Proof using W C.
  intros Hd Hn. destruct (wf_links _ W) as [Hl Ha].
  assert (Hold : forall j t w, i <> j -> tasks s !! j = Some t -> prep_of t = Some w -> d <> Some (w_id w)).
  { intros j t w Hne Ej Ew Ed. destruct (Hd _ Ed) as (w0 & E0 & Eid). apply bind_Some in E0 as (t0 & E0 & E1). by destruct Hne; eapply Ha. }
  split.
  - intros j t w E Ew. destruct (after_task _ _ E) as [[_ En]|[Hne [Ej|[_ Hp]]]]; [|destruct (Hl _ _ _ Ej Ew) as [Hg Hs]|congruence].
    + apply Hn. by rewrite En.
    + split; [|done]. apply (m_kept _ _ _ C); [done|by eapply Hold].
  - intros j j' t t' w w' E E' Ew Ew' Eid.
    assert (Hx : forall j t w w', next ≫= prep_of = Some w -> i <> j -> tasks s !! j = Some t -> prep_of t = Some w' -> w_id w = w_id w' -> False).
    { intros j0 t0 w0 w1 En Hne Ej E1 E2. destruct (Hn _ En) as [_ [Ei|Hnew]]; [|by eapply Hnew].
      apply bind_Some in Ei as (t2 & Ei & E3). by destruct Hne; eapply Ha. }
    destruct (after_task _ _ E) as [[Hij En]|[Hne [Ej|[_ Hp]]]]; [| |congruence]; destruct (after_task _ _ E') as [[Hij' En']|[Hne' [Ej'|[_ Hp']]]]; try congruence.
    + exfalso. eapply (Hx j' t' w w'); [by rewrite En|done..].
    + exfalso. eapply (Hx j t w' w); [by rewrite En'|done..].
    + by eapply Ha.
Qed.

Lemma plain_holds t : plain t -> (forall k, holds_owner k t = 0) /\ (forall k, holds_session k t = 0) /\ (forall k, holds_attachment k t = 0) /\
  (forall k, holds_kind k t = 0) /\ (forall k, holds_lifecycle k t = 0).
Proof. intros [E _]. unfold holds_owner, holds_session, holds_attachment, holds_kind, holds_lifecycle, region_of, hold_of. by rewrite E. Qed.

Lemma fence_holds (a b : option Task) : a ≫= fence_of = b ≫= fence_of -> forall f : Task -> Z,
  (forall t, fence_of t = None -> f t = 0) -> (forall t t', fence_of t = fence_of t' -> f t = f t') -> from_option f 0 a = from_option f 0 b.
Proof. intros E f Hn He. destruct a as [a|], b as [b|]; simpl in *; auto. - symmetry. by apply Hn. Qed.

Lemma carry_total (f : Task -> Z) : tasks s !! i ≫= fence_of = next ≫= fence_of -> (forall t, fence_of t = None -> f t = 0) -> (forall t t', fence_of t = fence_of t' -> f t = f t') ->
  map_total f (tasks (retask i next s')) = map_total f (tasks s).
Proof using C Hi. intros E Hn He. rewrite after_total by (intros t [Ht _]; auto). rewrite (fence_holds _ _ E f Hn He). apply Z.sub_add. Qed.

Lemma after_fences : still s s' -> tasks s !! i ≫= fence_of = next ≫= fence_of -> fences (retask i next s').
Proof using W C Hi.
  intros Z E. destruct (wf_fenced _ W) as [Fo Fs Fa Fk Fr Fc Ff]. split; simpl; rewrite ?(z_owners _ _ Z), ?(z_sessions _ _ Z), ?(z_attachments _ _ Z), ?(z_kinds _ _ Z).
  1-4: eapply counted_ext; [|done]; intros k; apply (carry_total _ E);
    unfold holds_owner, holds_session, holds_attachment, holds_kind, region_of; [intros t ->|intros t t' ->]; done.
  - intros k. change (revoking s' k = map_total (holds_lifecycle k) (tasks (retask i next s'))).
    rewrite (z_revoking _ _ Z), Fr. symmetry. apply (carry_total _ E); unfold holds_lifecycle, hold_of; [intros t ->|intros t t' ->]; done.
  - intros j t Ej Er. apply (m_closed _ _ _ C). destruct (after_task _ _ Ej) as [[_ En]|[_ [Ej'|[Hp _]]]]; [|by eapply Fc|unfold region_of in Er; by rewrite Hp in Er].
    rewrite En in E. simpl in E. unfold region_of in Er. destruct (tasks s !! i) as [t0|] eqn:E0; simpl in E; [|by rewrite <- E in Er].
    eapply (Fc i t0); [done|]. unfold region_of. by rewrite E.
  - intros j t x h Ej Ex. destruct (after_task _ _ Ej) as [[_ En]|[_ [Ej'|[Hp _]]]]; [|by eapply Ff|by rewrite Hp in Ex].
    rewrite En in E. simpl in E. destruct (tasks s !! i) as [t0|] eqn:E0; simpl in E; [|by rewrite <- E in Ex]. eapply (Ff i t0); [done|by rewrite E].
Qed.

(** The tasks of a kind are those of [s]. *)
Lemma after_origin {A} (p : Task -> option A) j t a : (forall t, plain t -> p t = None) -> tasks s !! i ≫= p = next ≫= p ->
  tasks (retask i next s') !! j = Some t -> p t = Some a -> exists t0, tasks s !! j = Some t0 /\ p t0 = Some a.
Proof using C.
  intros Hp E Ej Ea. destruct (after_task _ _ Ej) as [[<- En]|[_ [Ej'|Ht]]]; [|eauto|by rewrite Hp in Ea].
  rewrite En in E. simpl in E. rewrite Ea in E. by apply bind_Some in E.
Qed.
Lemma after_image {A} (p : Task -> option A) j t a : tasks s !! i ≫= p = next ≫= p -> tasks s !! j = Some t -> p t = Some a ->
  exists t', tasks (retask i next s') !! j = Some t' /\ p t' = Some a.
Proof using C.
  intros E Ej Ea. destruct (decide (i = j)) as [<-|Hne]; [|exists t; split; [by apply after_kept|done]].
  rewrite Ej in E. simpl in E. rewrite Ea in E. symmetry in E. apply bind_Some in E as (t' & En & Et). exists t'. split; [|done]. simpl. by rewrite upd_at, decide_True.
Qed.

Lemma carry_hold : tasks s !! i ≫= fence_of = next ≫= fence_of -> tasks s !! i ≫= hold_of = next ≫= hold_of.
Proof using. clear W C Hi Hb. intros E. unfold hold_of. destruct (tasks s !! i) as [t|], next as [t'|]; simpl in *; [by rewrite E|by rewrite E|by rewrite <- E|done]. Qed.

Lemma after_queues : still s s' -> tasks s !! i ≫= hold_of = next ≫= hold_of -> tasks s !! i ≫= past_of = next ≫= past_of -> queues (retask i next s').
Proof using W C.
  intros Z Ef Ep. destruct (wf_queues _ W) as [Qi Qq Qp].
  assert (Horig : forall j t k, tasks (retask i next s') !! j = Some t -> past_of t = Some k -> exists t0, tasks s !! j = Some t0 /\ past_of t0 = Some k)
    by (intros j t k; apply (after_origin past_of); [apply plain_past|done]).
  split.
  - intros j t k id Ej Eh. destruct (after_origin hold_of _ _ _ plain_hold Ef Ej Eh) as (t0 & E0 & E1).
    simpl. rewrite (z_held _ _ Z); [by eapply Qi|]. eapply held_pos; [apply W|done..].
  - intros k. split.
    + intros (l & El & Hq). destruct (proj1 (Qq k)) as (j & t & Ej & Et); [exists l; split; [by apply (z_queue _ _ Z)|done]|].
      destruct (after_image past_of _ _ _ Ep Ej Et) as (t' & ? & ?). by exists j, t'.
    + intros (j & t & Ej & Et). destruct (Horig _ _ _ Ej Et) as (t0 & E0 & E1). destruct (past_hold _ _ E1) as [id Eh].
      simpl. rewrite (z_held _ _ Z); [apply Qq; by exists j, t0|]. eapply held_pos; [apply W|done..].
  - intros j j' t t' k Ej Ej' Et Et'. destruct (Horig _ _ _ Ej Et) as (t0 & ? & ?). destruct (Horig _ _ _ Ej' Et') as (t1 & ? & ?). by eapply Qp.
Qed.

Lemma wf_after : still s s' -> tasks s !! i ≫= fence_of = next ≫= fence_of -> tasks s !! i ≫= past_of = next ≫= past_of ->
  (forall t, next = Some t -> barrier s' t) ->
  (forall id, d = Some id -> exists w, tasks s !! i ≫= prep_of = Some w /\ w_id w = id) ->
  (forall w, next ≫= prep_of = Some w -> linked s' w /\
    (tasks s !! i ≫= prep_of = Some w \/ forall j t w', tasks s !! j = Some t -> prep_of t = Some w' -> w_id w' <> w_id w)) ->
  wf (retask i next s').
Proof using W C Hi Hb. intros. split; [apply after_tidy|by apply after_fences|apply after_queues; [done|by apply carry_hold|done]|by apply after_links|by apply after_barrier]. Qed.
End step.

(** ** Quiet operations *)

Lemma quiet_record e s : quiet None s (record e s).
Proof. by apply quiet_same. Qed.

Lemma quiet_spawn t s : plain t -> quiet None s (spawn t s).
Proof.
  intros Hp. split; [|by apply still_same]. intros T. pose proof (d_tasks _ T (fresh s) ltac:(lia)) as En. split; simpl; eauto.
  - destruct T as [[Hl Hl'] [Hp1 Hp'] Hg Ht]. split; simpl; [split; [done|intros id Hid; specialize (Hl' id Hid); lia]|split; [done|intros id Hid; specialize (Hp' id Hid); lia]|done|].
    intros j Hj. rewrite lookup_insert_ne by lia. apply Ht. lia.
  - intros j. rewrite lookup_insert. case_decide as E; [|by left]. right. subst j. eauto.
  - intros f Hf. rewrite map_total_insert by done. by rewrite (Hf t Hp).
Qed.

Lemma still_remove_unused k id s : still s (remove_unused k id s).
Proof.
  unfold remove_unused. destruct (lifecycles s !! k) as [l|] eqn:El; [|apply still_refl].
  destruct (bool_decide _ && _ && _ && _) eqn:Eb; [|apply still_refl]. rewrite !andb_true_iff in Eb. destruct Eb as [[[_ Er] _] _]. apply Z.eqb_eq in Er.
  split; try done; simpl.
  - intros k'. unfold revoking. simpl. rewrite lookup_delete. case_decide as E; [subst k'; by rewrite El|done].
  - intros k' Hk. rewrite lookup_delete. case_decide as E; [|done]. subst k'. unfold revoking in Hk. rewrite El in Hk. lia.
  - intros k' l' E _. by apply lookup_delete_Some in E as [_ E].
Qed.
Lemma quiet_remove_unused k id s : quiet None s (remove_unused k id s).
Proof. split; [|apply still_remove_unused]. unfold remove_unused. repeat case_match; by apply calm_same. Qed.

Lemma quiet_prune now s : quiet None s (prune now s).
Proof. by apply quiet_same. Qed.
Lemma quiet_finalized f s : quiet None s (set_finalized f s).
Proof. by apply quiet_same. Qed.

Lemma quiet_observe e c r s : quiet None s (observe observer e c r s).
Proof.
  unfold observe. case_match; [apply quiet_refl|]. eapply quiet_trans; [|by apply quiet_spawn]. by apply quiet_same.
Qed.

Lemma quiet_finalize_record c r now s : quiet None s (finalize_record observer c r now s).
Proof.
  unfold finalize_record. eapply (quiet_trans None _ (observe observer "finalized" c r s)); [apply quiet_observe|]. set (s1 := observe _ _ _ _ s). set (k := resource_key _ _).
  set (s2 := match lifecycles s1 !! k with Some l => remove_unused k (c_id l) s1 | None => s1 end).
  eapply (quiet_trans None s1 s2); [unfold s2; case_match; [apply quiet_remove_unused|apply quiet_refl]|].
  case_match; [|apply quiet_refl]. by apply quiet_same.
Qed.

(** Grants keep what they are for. *)
Lemma quiet_grants gs s : (tidy s -> NoDup gs.*1) ->
  (forall c g, (c, g) ∈ gs -> exists g0, (c, g0) ∈ grants s /\ r_subject (g_record g) = r_subject (g_record g0) /\ r_resource (g_record g) = r_resource (g_record g0)) ->
  quiet None s (set_grants gs s).
Proof.
  intros Hn Hg. split; [|by apply still_same]. intros T. split; simpl; eauto; [split; [apply T|apply T|by apply Hn|apply T]|].
  intros x c g _ _ Hin Hx. left. destruct (Hg _ _ Hin) as (g0 & Hin0 & Es & Er). exists g0. split; [done|]. unfold grant_in in *. by rewrite <- Es, <- Er.
Qed.

Lemma quiet_update c g0 g s : IndexMap.get c (grants s) = Some g0 -> r_subject (g_record g) = r_subject (g_record g0) -> r_resource (g_record g) = r_resource (g_record g0) ->
  quiet None s (update_grant c g s).
Proof.
  intros E Es Er. apply quiet_grants.
  - intros T. apply IndexMap.wf_insert, T.
  - intros c' g' Hin. apply IndexMap.elem_of_insert in Hin as [Hin|Hin]; [|by exists g']. simplify_eq. exists g0. split; [by apply IndexMap.get_In|done].
Qed.

Lemma quiet_finalize c a now s : quiet None s (finalize observer c a now s).2.
Proof.
  unfold finalize. destruct (IndexMap.get c (grants s)) as [g|] eqn:E; [|apply quiet_refl]. destruct (from_option _ _ _); [apply quiet_refl|]. simpl.
  eapply quiet_trans; [|apply quiet_finalize_record]. apply quiet_grants.
  - intros T. apply IndexMap.wf_remove, T.
  - intros c' g' Hin. apply IndexMap.elem_of_remove in Hin as [_ Hin]. by exists g'.
Qed.

Lemma quiet_revoke c a now s : quiet None s (revoke observer c a now s).
Proof.
  unfold revoke. pose proof (quiet_finalize c a now s) as Q. destruct (finalize observer c a now s) as [[r|] s']; [|done].
  eapply quiet_trans; [exact Q|apply quiet_record].
Qed.

Lemma quiet_fold {A} (f : State -> A -> State) l s : (forall s a, quiet None s (f s a)) -> quiet None s (fold_left f l s).
Proof. intros Hf. revert s. induction l as [|a l IH]; intros s; [apply quiet_refl|]. simpl. eapply quiet_trans; [apply Hf|apply IH]. Qed.

(** ** Leases *)

Lemma free_lease s x u r : fences s -> guarded x -> up s x -> fenced s u r = false -> ~ lease_in x (MkLease u r).
Proof. intros F Hg (j & t & Ej & Ex) Hf Hl. by rewrite (covered_fenced s j t x u r true F Ej Ex Hg (or_introl eq_refl) Hl) in Hf. Qed.

Lemma quiet_leases ls n s : fences s -> (n = 0 \/ n = 1)%nat -> (tidy s -> NoDup ls.*1 /\ forall id, id ∈ ls.*1 -> (id < fresh s + n)%nat) ->
  (forall x id l, guarded x -> up s x -> (id, l) ∈ ls -> lease_in x l -> exists l0, (id, l0) ∈ leases s /\ lease_in x l0) ->
  quiet None s (set_fresh (fresh s + n)%nat (set_leases ls s)).
Proof.
  intros F Hn Hk Hl. split; [|by apply still_same]. intros T. specialize (Hk T). split; simpl; eauto; [|lia].
  destruct T as [_ [Hp Hp'] Hg Ht]. split; simpl; [done|split; [done|]|done|].
  - intros id Hid. specialize (Hp' id Hid). lia.
  - intros j Hj. apply Ht. lia.
Qed.

Lemma keys_inserted {V} (m : list (nat * V)) n id v : (forall id, id ∈ m.*1 -> (id < n)%nat) -> forall id', id' ∈ (IndexMap.insert id v m).*1 -> (id' < n)%nat \/ id' = id.
Proof.
  intros Hb id' Hin. apply list_elem_of_fmap in Hin as ([a b] & -> & Hin). apply IndexMap.elem_of_insert in Hin as [E|Hin]; [right; by simplify_eq|left].
  apply Hb. apply list_elem_of_fmap. by exists (a, b).
Qed.
Lemma keys_removed {V} (m : list (nat * V)) n id : (forall id, id ∈ m.*1 -> (id < n)%nat) -> forall id', id' ∈ (IndexMap.shift_remove id m).*1 -> (id' < n)%nat.
Proof.
  intros Hb id' Hin. apply list_elem_of_fmap in Hin as ([a b] & -> & Hin). apply IndexMap.elem_of_remove in Hin as [_ Hin].
  apply Hb. apply list_elem_of_fmap. by exists (a, b).
Qed.

Lemma quiet_acquire u r s : fences s -> quiet None s (acquire_preparation u r s).
Proof.
  intros F. unfold acquire_preparation. destruct (fenced s u r) eqn:Ef; [apply quiet_record|].
  eapply quiet_trans; [|apply quiet_record]. rewrite <- Nat.add_1_r. apply quiet_leases; [done|by right| |].
  - intros T. destruct (d_leases _ T) as [Hn Hb]. split; [by apply IndexMap.wf_insert|]. intros id Hid. apply (keys_inserted _ _ _ _ Hb) in Hid as [|]; lia.
  - intros x id l Hg Hu Hin Hl. apply IndexMap.elem_of_insert in Hin as [E|Hin]; [|by exists l]. simplify_eq. by destruct (free_lease s x u r).
Qed.

Lemma set_fresh_same s : set_fresh (fresh s + 0) s = s.
Proof. rewrite Nat.add_0_r. by destruct s. Qed.

Lemma quiet_bind id k r s : fences s -> quiet None s (bind_preparation id k r s).
Proof.
  intros F. unfold bind_preparation. destruct (IndexMap.get id (leases s)) as [[u r0]|] eqn:E; [|apply quiet_refl]. simpl.
  destruct (negb (bool_decide (kind u = k)) || _ || _ || _) eqn:Eb; [apply quiet_refl|]. rewrite !orb_false_iff in Eb. destruct Eb as [[[_ Er] _] Hf].
  rewrite <- (set_fresh_same (set_leases _ s)). apply (quiet_leases _ 0 s); [done|by left| |].
  - intros T. destruct (d_leases _ T) as [Hn Hb]. split; [by apply IndexMap.wf_insert|]. intros id' Hid. apply (keys_inserted _ _ _ _ Hb) in Hid as [|]; [lia|].
    subst id'. enough (id < fresh s)%nat by lia. apply Hb, list_elem_of_fmap. eexists. split; [|by apply IndexMap.get_In]. done.
  - intros x id' l Hg Hu Hin Hl. apply IndexMap.elem_of_insert in Hin as [E'|Hin]; [|by exists l]. simplify_eq. by destruct (free_lease s x u (Some r)).
Qed.

Lemma quiet_release id s : quiet None s (release_preparation id s).
Proof.
  split; [|by apply still_same]. intros T. split; simpl; eauto.
  - destruct T as [[Hl Hl'] ? ? ?]. split; simpl; [split; [by apply IndexMap.wf_remove|by apply keys_removed]|done..].
  - intros x id' l _ _ Hin Hl. apply IndexMap.elem_of_remove in Hin as [_ Hin]. by exists l.
Qed.

(** ** Preparations *)

Lemma quiet_drop w s : quiet (Some (w_id w)) s (drop_preparation w s).
Proof.
  unfold drop_preparation. eapply quiet_trans; [|apply quiet_remove_unused]. split; [|by apply still_same]. intros T. split; simpl; eauto.
  - destruct T as [? [Hp Hp'] ? ?]. split; simpl; [done|split; [by apply IndexMap.wf_remove|by apply keys_removed]|done..].
  - intros x id p _ _ Hin Hx. apply IndexMap.elem_of_remove in Hin as [_ Hin]. by exists p.
  - intros id p E Hd. rewrite IndexMap.get_remove_ne; [done|]. congruence.
Qed.

Lemma quiet_lifecycle k s : quiet None s (lifecycle k s).2.
Proof.
  unfold lifecycle. destruct (lifecycles s !! k) as [l|] eqn:E; [apply quiet_refl|]. split; [apply calm_same; simpl; auto; lia|].
  split; try done; simpl.
  - intros k'. unfold revoking. simpl. rewrite lookup_insert. case_decide as Ek; [subst k'; by rewrite E|done].
  - intros k' Hk. rewrite lookup_insert. case_decide as Ek; [|done]. subst k'. unfold revoking in Hk. rewrite E in Hk. lia.
  - intros k' l El Hq. apply lookup_insert_Some in El as [[<- <-]|[_ El]]; done.
Qed.
Lemma lifecycle_at k s : lifecycles (lifecycle k s).2 !! k = Some (lifecycle k s).1.
Proof. unfold lifecycle. destruct (lifecycles s !! k) as [l|] eqn:E; [done|]. simpl. by rewrite lookup_insert_eq. Qed.

(** A lease that is free admits a preparation of its own. *)
Lemma admitted_free s lease i x : fences s -> lease_matches s lease i = true -> (forall l a, IndexMap.get lease (leases s) = Some l -> attachment (i_subject i) = Name a -> shared a -> attachment (l_input l) = Name a) ->
  guarded x -> up s x -> ~ pending_in x (MkPending (i_subject i) (i_resource i) 0).
Proof.
  intros F Hm Hs Hg (j & t & Ej & Ex) Hp. unfold lease_matches in Hm. destruct (IndexMap.get lease (leases s)) as [[u r]|] eqn:El; [|done]. simpl in Hm.
  rewrite !andb_true_iff, negb_true_iff, !bool_decide_eq_true in Hm. destruct Hm as [[[[[Eo Ea] Ek] _] Er] Hf].
  assert (Hc : region_matches x u r false = true).
  { rewrite Er. unfold pending_in in Hp. simpl in Hp. destruct x as [[?|?|?|? ? ?]|]; simpl in *; rewrite ?Eo, ?Ea, ?Ek; try done. destruct Hg as (Hst & _ & _). apply bool_decide_eq_true in Hp. apply bool_decide_eq_true. by apply (Hs _ _ eq_refl). }
  rewrite (covered_fenced s j t x u r false F Ej Ex Hg) in Hf; [done| |done]. right. by rewrite Er.
Qed.

(** ** Steps *)

Lemma retask_none s : tidy s -> retask (fresh s) None s = s.
Proof. intros T. unfold retask. simpl. rewrite delete_id by (by apply (d_tasks _ T)). by destruct s. Qed.

Lemma quiet_task s s' : tidy s -> calmed None s s' -> tasks s' !! fresh s' = tasks s !! fresh s'.
Proof. intros T C. rewrite (d_tasks _ T) by apply C. by apply (d_tasks _ (m_tidy _ _ _ C)). Qed.

Lemma wf_quiet s s' : wf s -> quiet None s s' -> wf s'.
Proof.
  intros W [C Z]. specialize (C (wf_tidy _ W)). rewrite <- (retask_none s') by apply C.
  assert (E : tasks s !! fresh s' = None) by (apply (d_tasks _ (wf_tidy _ W)), C).
  apply (wf_after s s' _ _ None W C); rewrite ?E; try done. rewrite <- E. by apply (quiet_task _ _ (wf_tidy _ W) C).
Qed.

Lemma task_bounded s i t : wf s -> tasks s !! i = Some t -> (i < fresh s)%nat.
Proof. intros W E. destruct (decide (i < fresh s)%nat); [done|]. rewrite (d_tasks _ (wf_tidy _ W)) in E by lia. done. Qed.

Lemma calm_at d s s' i t : calmed d s s' -> tasks s !! i = Some t -> tasks s' !! i = tasks s !! i.
Proof. intros C E. destruct (m_tasks _ _ _ C i) as [|[En _]]; [done|congruence]. Qed.

(** A task that holds a fence goes on holding it. *)
Lemma wf_goes_on s s' i t next : wf s -> tasks s !! i = Some t -> quiet None s s' -> fence_of next = fence_of t -> past_of next = past_of t -> prep_of next = prep_of t ->
  barrier s' next -> wf (retask i (Some next) s').
Proof.
  intros W E [C Z] Ef Ep Ew Hb. specialize (C (wf_tidy _ W)).
  apply (wf_after s s' _ _ None W C); rewrite ?E; simpl; try done; [by rewrite <- E; eapply calm_at|intros _; pose proof (task_bounded _ _ _ W E); pose proof (m_fresh _ _ _ C); lia|by intros ? [= <-]|].
  intros w Hw. split; [|by left; rewrite <- Ew]. rewrite Ew in Hw. destruct (k_link _ (wf_links _ W) _ _ _ E Hw) as [Hg Ha]. split; [|done]. by apply (m_kept _ _ _ C).
Qed.

(** A task that holds none ends, or goes on. *)
Lemma wf_ends s s' i t next d : wf s -> tasks s !! i = Some t -> fence_of t = None -> quiet d s s' ->
  (forall id, d = Some id -> exists w, prep_of t = Some w /\ w_id w = id) -> (forall t', next = Some t' -> plain t') -> wf (retask i next s').
Proof.
  intros W E Ef [C Z] Hd Hn. specialize (C (wf_tidy _ W)). assert (Ep : past_of t = None) by (by destruct t).
  apply (wf_after s s' _ _ d W C); rewrite ?E; simpl; try done.
  - by rewrite <- E; eapply calm_at.
  - intros _; pose proof (task_bounded _ _ _ W E); pose proof (m_fresh _ _ _ C); lia.
  - rewrite Ef. destruct next as [t'|]; [|done]. simpl. by destruct (Hn t' eq_refl) as [-> _].
  - rewrite Ep. destruct next as [t'|]; [|done]. simpl. symmetry. by apply plain_past, Hn.
  - intros t' Ht. by apply barrier_plain, Hn.
  - intros w Hw. destruct next as [t'|]; [|done]. simpl in Hw. destruct (Hn t' eq_refl) as [_ Hp]. congruence.
Qed.

Lemma wf_spawn_plain s t : wf s -> plain t -> wf (spawn t s).
Proof. intros W Hp. eapply wf_quiet; [done|by apply quiet_spawn]. Qed.

Definition enlist (p : Pending) s : State := set_fresh (S (fresh s)) (set_preparations (IndexMap.insert (fresh s) p (preparations s)) s).

Lemma absent_prep s : tidy s -> IndexMap.get (fresh s) (preparations s) = None.
Proof. intros T. apply IndexMap.get_None. intros Hin. apply (d_preps _ T) in Hin. lia. Qed.

Lemma quiet_enlist p s : (forall x, guarded x -> up s x -> ~ pending_in x p) -> quiet None s (enlist p s).
Proof.
  intros Hf. split; [|by apply still_same]. intros T. split; simpl; eauto.
  - destruct T as [[Hl Hl'] [Hp Hp'] Hg Ht]. split; simpl; [split; [done|]|split; [by apply IndexMap.wf_insert|]|done|].
    + intros id Hid. specialize (Hl' id Hid). lia.
    + intros id Hid. apply (keys_inserted _ _ _ _ Hp') in Hid as [|]; lia.
    + intros j Hj. apply Ht. lia.
  - intros x id p' Hg Hu Hin Hx. apply IndexMap.elem_of_insert in Hin as [E|Hin]; [|by exists p']. simplify_eq. by destruct (Hf x).
  - intros id p' E _. rewrite IndexMap.get_insert_ne; [done|]. intros <-. by rewrite absent_prep in E.
Qed.

Lemma quiet_enlist_drop p w s : w_id w = fresh s -> quiet None s (drop_preparation w (enlist p s)).
Proof.
  intros Ew. unfold drop_preparation. eapply quiet_trans; [|apply quiet_remove_unused]. split; [|by apply still_same].
  intros T. refine (calm_same None s _ _ _ _ _ _ _ T); simpl; auto.
  rewrite Ew, IndexMap.insert_absent by (by apply absent_prep). unfold IndexMap.shift_remove. rewrite filter_app, filter_cons_False by (simpl; tauto).
  rewrite filter_nil, app_nil_r. apply (IndexMap.remove_absent (fresh s)). by apply absent_prep.
Qed.

Lemma wf_spawn_preparing s w : wf s -> (w_id w < fresh s)%nat -> linked s w -> (forall j t w', tasks s !! j = Some t -> prep_of t = Some w' -> w_id w' <> w_id w) -> wf (spawn (Preparing w) s).
Proof.
  intros W Hw Hl Hn. change (wf (retask (fresh s) (Some (Preparing w)) (set_fresh (S (fresh s)) s))).
  assert (C : calmed None s (set_fresh (S (fresh s)) s)) by (apply calm_same; simpl; auto; apply W).
  assert (E : tasks s !! fresh s = None) by (by apply (d_tasks _ (wf_tidy _ W))).
  apply (wf_after _ _ _ _ None W C); rewrite ?E; simpl; try done; [lia|by intros ? [= <-]|].
  intros w' [= <-]. split; [done|by right].
Qed.

Lemma lifecycle_tasks k s : tasks (lifecycle k s).2 = tasks s.
Proof. unfold lifecycle. by case_match. Qed.

Lemma prep_bound s j t w : wf s -> tasks s !! j = Some t -> prep_of t = Some w -> (w_id w < fresh s)%nat.
Proof.
  intros W Ej Ew. destruct (k_link _ (wf_links _ W) _ _ _ Ej Ew) as [Hg _]. apply (d_preps _ (wf_tidy _ W)).
  apply list_elem_of_fmap. eexists. split; [|by apply IndexMap.get_In]. done.
Qed.

Lemma wf_prepare lease i connected started now s : wf s -> prepares_leased shared (OPrepare lease i connected started now) s ->
  wf (prepare uuid accepts_ticket lease i connected started now s).
Proof.
  intros W Hs. unfold prepare. destruct (lease_matches s lease i) eqn:Hm; [|eapply wf_quiet; [done|apply quiet_record]]. simpl negb. cbv iota.
  set (k := resource_key _ _). pose proof (quiet_lifecycle k s) as Q. pose proof (lifecycle_tasks k s) as Et.
  destruct (lifecycle k s) as [l s1]. simpl in Q, Et. pose proof (wf_quiet _ _ W Q) as W1.
  case_match; [eapply wf_quiet; [exact W1|apply quiet_record]|]. set (p := MkPending _ _ _).
  assert (Qa : quiet None s1 (enlist p s1)).
  { apply quiet_enlist. intros x Hg (j & t & Ej & Ex). rewrite Et in Ej. refine (admitted_free s lease i x (wf_fenced _ W) Hm _ Hg _); [|by exists j, t].
    exact Hs. }
  change (set_fresh (S (fresh s1)) (set_preparations (IndexMap.insert (fresh s1) p (preparations s1)) s1)) with (enlist p s1).
  set (w := MkPreparation _ _ _ _ _ _ _ _ _ _ _). cbv zeta.
  assert (Hfail : forall why, wf (record (Refused why) (drop_preparation w (enlist p s1)))).
  { intros why. eapply wf_quiet; [exact W1|]. apply (quiet_trans None _ (drop_preparation w (enlist p s1))); [by apply quiet_enlist_drop|apply quiet_record]. }
  repeat (case_match; [apply Hfail|]). apply wf_spawn_preparing.
  - eapply wf_quiet; [exact W1|]. eapply quiet_trans; [exact Qa|]. apply quiet_same; simpl; auto.
  - simpl. lia.
  - split; simpl; [by rewrite IndexMap.get_insert_eq|]. destruct (attachment _); eauto.
  - simpl. intros j t w' Ej Ew. pose proof (prep_bound _ _ _ _ W1 Ej Ew). lia.
Qed.

Lemma quiet_granted j t w g n s : wf s -> tasks s !! j = Some t -> prep_of t = Some w -> r_subject (g_record g) = MkSubject (owner (i_subject (w_input w))) (auth_session (i_subject (w_input w))) (Name (w_attachment w)) (kind (i_subject (w_input w))) ->
  r_resource (g_record g) = i_resource (w_input w) -> (fresh s <= n)%nat -> quiet None s (set_fresh n (set_grants (IndexMap.insert (w_capability w) g (grants s)) s)).
Proof.
  intros W Ej Ew Es Er Hn. split; [|by apply still_same]. intros T. split; simpl; eauto.
  - destruct T as [[Hl Hl'] [Hp Hp'] Hg Ht]. split; simpl; [split; [done|]|split; [done|]|by apply IndexMap.wf_insert|].
    + intros id Hid. specialize (Hl' id Hid). lia.
    + intros id Hid. specialize (Hp' id Hid). lia.
    + intros j' Hj. apply Ht. lia.
  - intros x c g' Hg _ Hin Hx. apply IndexMap.elem_of_insert in Hin as [E|Hin]; [right|left; by exists g']. simplify_eq.
    destruct (k_link _ (wf_links _ W) _ _ _ Ej Ew) as [Hget Ha]. exists (w_id w), (pending_of w). split; [by apply IndexMap.get_In|].
    unfold grant_in in Hx. rewrite Es, Er in Hx. destruct x as [[?|?|a|? ? ?]|]; try done. destruct Hg as (_ & _ & Hu). unfold pending_in. simpl in *.
    apply bool_decide_eq_true in Hx. injection Hx as Hx. destruct (attachment (i_subject (w_input w))) as [| |a']; [by destruct Ha as [m Ha]; destruct (Hu m); congruence..|].
    apply bool_decide_eq_true. congruence.
Qed.

Lemma wf_prepared s i w c jitter now : wf s -> tasks s !! i = Some (Preparing w) ->
  let x := prepared observer automatic w c jitter now s in wf (retask i x.1 x.2).
Proof.
  intros W E. assert (Hdrop : forall s' e, quiet None s s' -> wf (retask i None (record e (drop_preparation w s')))).
  { intros s' e Q. eapply (wf_ends s _ i _ None (Some (w_id w)) W E); [done| | |done].
    - eapply quiet_before; [exact Q|]. eapply quiet_trans; [apply quiet_drop|apply quiet_record].
    - intros id [= <-]. by exists w. }
  unfold prepared. destruct c as [c|]; [|by apply Hdrop, quiet_refl]. destruct (negb _); [by apply Hdrop, quiet_refl|].
  destruct jitter as [jitter|]; [|by apply Hdrop, quiet_refl]. cbv zeta. set (g := MkGrant _ _ _ _ _ _). set (s1 := set_fresh _ _).
  assert (Q : quiet None s s1) by (eapply quiet_granted; [done|exact E|done..|lia]).
  case_match; [by apply Hdrop|]. eapply (wf_goes_on s); [done..| | | | |]; try done. eapply quiet_trans; [exact Q|apply quiet_revoke].
Qed.

(** ** Fences go up and come down *)

Ltac count F H E :=
  first
  [ eapply (counted_up _); [|apply F|intros k'; rewrite H; unfold holds_owner, holds_session, holds_attachment, holds_kind; rewrite E; reflexivity]
  | eapply (counted_down _); [|apply F|intros k'; rewrite H; unfold holds_owner, holds_session, holds_attachment, holds_kind; rewrite E; reflexivity]
  | eapply counted_ext; [|apply F]; intros k'; rewrite H; unfold holds_owner, holds_session, holds_attachment, holds_kind; rewrite E; lia ];
  first [apply holds_owner_nonneg|apply holds_session_nonneg|apply holds_attachment_nonneg|apply holds_kind_nonneg].

Definition fences_counted (o a b k : gmap units Z) ts : Prop :=
  counted o holds_owner ts /\ counted a holds_session ts /\ counted b holds_attachment ts /\ counted k holds_kind ts.

Lemma raise_counted sc s ts' t : fences s -> region_of t = Some (Of sc) -> (forall f, map_total f ts' = map_total f (tasks s) + f t) ->
  fences_counted (owners (raise_fence sc s)) (sessions (raise_fence sc s)) (attachments (raise_fence sc s)) (kinds (raise_fence sc s)) ts'.
Proof. intros F E H. destruct sc; split_and!; simpl; count F H E. Qed.

Definition lower (sc : Scope) s : State :=
  match sc with
  | Owner o => set_fences (end_ (owners s) o) (sessions s) (attachments s) (kinds s) s
  | Session a => set_fences (owners s) (end_ (sessions s) a) (attachments s) (kinds s) s
  | Attachment a => set_fences (owners s) (sessions s) (end_ (attachments s) a) (kinds s) s
  | Resource o k _ => set_fences (owners s) (sessions s) (attachments s) (end_ (kinds s) (key o k None)) s
  end.

Lemma lower_counted sc s ts' t : fences s -> region_of t = Some (Of sc) -> (forall f, map_total f ts' = map_total f (tasks s) - f t) ->
  fences_counted (owners (lower sc s)) (sessions (lower sc s)) (attachments (lower sc s)) (kinds (lower sc s)) ts'.
Proof. intros F E H. destruct sc; split_and!; simpl; count F H E. Qed.

Lemma raise_frame sc s : exists o a b k, raise_fence sc s = set_fences o a b k s.
Proof. destruct sc; by repeat eexists. Qed.
Lemma lower_frame sc s : exists o a b k, lower sc s = set_fences o a b k s.
Proof. destruct sc; by repeat eexists. Qed.

(** The tables and tasks of [s'] are those of [s]. *)
Definition same_tables s s' : Prop :=
  leases s' = leases s /\ preparations s' = preparations s /\ grants s' = grants s /\ tasks s' = tasks s /\ (fresh s <= fresh s')%nat /\ closed s' = closed s.

Lemma same_calm s s' : tidy s -> same_tables s s' -> calmed None s s'.
Proof. intros T (? & ? & ? & ? & ? & Ec). apply calm_same; try done. congruence. Qed.

Lemma wf_raised s s' t : wf s -> same_tables s s' -> prep_of t = None -> past_of t = None \/ hold_of t = None -> barrier s' t -> (region_of t = Some All -> closed s = true) ->
  (forall x h, fence_of t = Some (x, h) -> hold_fits x h) ->
  fences_counted (owners s') (sessions s') (attachments s') (kinds s') (<[fresh s' := t]> (tasks s)) ->
  (forall k, revoking s' k = revoking s k + holds_lifecycle k t) ->
  (forall k id, hold_of t = Some (k, id) -> exists l, lifecycles s' !! k = Some l /\ c_id l = id) ->
  (forall k l, lifecycles s !! k = Some l -> exists l', lifecycles s' !! k = Some l' /\ c_id l' = c_id l /\ c_queue l' = c_queue l) ->
  (forall k l', lifecycles s' !! k = Some l' -> c_queue l' = true -> exists l, lifecycles s !! k = Some l /\ c_queue l = true) ->
  wf (spawn t s').
Proof.
  intros W Hsame Hw Hp Hb Hc Hfit (Co & Ca & Ct & Ck) Hr Hid Hup Hdown. change (wf (retask (fresh s') (Some t) (set_fresh (S (fresh s')) s'))).
  assert (Es : tasks s' = tasks s) by apply Hsame.
  assert (C : calmed None s (set_fresh (S (fresh s')) s')) by (apply same_calm; [apply W|unfold same_tables in *; simpl; naive_solver lia]).
  assert (E : tasks s !! fresh s' = None) by (apply (d_tasks _ (wf_tidy _ W)); apply Hsame).
  assert (Hpast : past_of t = None).
  { destruct Hp as [Hp|Hh]; [done|]. destruct (past_of t) as [k|] eqn:Ek; [|done]. apply past_hold in Ek as [id Ek]. congruence. }
  destruct (wf_queues _ W) as [Qi Qq Qp]. destruct (wf_fenced _ W) as [_ _ _ _ Fr Fc Ff].
  assert (Hpick : forall j t', <[fresh s' := t]> (tasks s) !! j = Some t' -> j = fresh s' /\ t' = t \/ tasks s !! j = Some t').
  { intros j t' Hj. apply lookup_insert_Some in Hj as [[<- <-]|[_ Hj]]; [by left|by right]. }
  split.
  - apply (after_tidy s _ _ _ None C). simpl. lia.
  - split; simpl; rewrite ?Es; try done.
    + intros k. rewrite map_total_insert, <- Fr by done. change (revoking s' k = holds_lifecycle k t + revoking s k). rewrite Hr. lia.
    + intros j t' Ej Ex. destruct Hsame as (_ & _ & _ & _ & _ & ->). apply Hpick in Ej as [[-> ->]|Ej]; [auto|by eapply Fc].
    + intros j t' x h Ej Ex. apply Hpick in Ej as [[-> ->]|Ej]; [auto|by eapply Ff].
  - split; simpl; rewrite ?Es.
    + intros j t' k id Ej Eh. apply Hpick in Ej as [[-> ->]|Ej]; [by apply Hid|]. destruct (Qi _ _ _ _ Ej Eh) as (l & El & <-).
      destruct (Hup _ _ El) as (l' & El' & Ei & _). by exists l'.
    + intros k. split.
      * intros (l' & El' & Hq). destruct (Hdown _ _ El' Hq) as (l & El & Hl). destruct (proj1 (Qq k)) as (j & t' & Ej & Et); [by exists l|].
        exists j, t'. split; [|done]. rewrite lookup_insert_ne; [done|]. intros <-. congruence.
      * intros (j & t' & Ej & Et). apply Hpick in Ej as [[-> ->]|Ej]; [congruence|]. destruct (proj2 (Qq k)) as (l & El & Hl); [by exists j, t'|].
        destruct (Hup _ _ El) as (l' & El' & _ & Eq). exists l'. split; [done|]. by rewrite Eq.
    + intros j j' t1 t2 k Ej Ej' E1 E2. apply Hpick in Ej as [[-> ->]|Ej]; [congruence|]. apply Hpick in Ej' as [[-> ->]|Ej']; [congruence|]. by eapply Qp.
  - apply (after_links s _ _ _ None W C); [done|]. simpl. congruence.
  - apply (after_barrier s _ _ _ None W C). intros t' [= <-]. by destruct t.
Qed.

Lemma raised_total (ts : gmap nat Task) n t : ts !! n = None -> forall f : Task -> Z, map_total f (<[n := t]> ts) = map_total f ts + f t.
Proof. intros E f. rewrite map_total_insert by done. lia. Qed.

Lemma wf_mutate_wide sc s : wf s -> (forall o k r, sc <> Resource o k r) -> wf (spawn (Collecting (Of sc) None) (raise_fence sc s)).
Proof.
  intros W Hsc. pose proof (d_tasks _ (wf_tidy _ W) (fresh s) ltac:(lia)) as En.
  pose proof (raise_counted sc s _ (Collecting (Of sc) None) (wf_fenced _ W) eq_refl (raised_total _ _ _ En)) as Hc. destruct (raise_frame sc s) as (o & a & b & k & Ef). rewrite Ef in *.
  apply (wf_raised s); try done; [by right|by destruct sc; injection 1 as <- <-; try (destruct (Hsc o0 k0 r))|intros; unfold revoking, holds_lifecycle; simpl; lia|eauto|eauto].
Qed.

Lemma wf_mutate sc s : wf s -> wf (mutate sc s).
Proof.
  intros W. destruct sc as [o|a|a|o k r]; try (by apply wf_mutate_wide). unfold mutate. set (rk := key o k (Some r)).
  pose proof (quiet_lifecycle rk s) as Q. pose proof (lifecycle_at rk s) as El. destruct (lifecycle rk s) as [l s1]. simpl in Q, El.
  pose proof (wf_quiet _ _ W Q) as W1. clear W Q. cbv zeta. set (l' := MkLifecycle _ _ _ _). set (s2 := set_fresh _ _). set (t := Queueing _ _ _).
  pose proof (d_tasks _ (wf_tidy _ W1) (S (fresh s1)) ltac:(lia)) as En.
  assert (F2 : fences_counted (owners (raise_fence (Resource o k r) s2)) (sessions (raise_fence (Resource o k r) s2)) (attachments (raise_fence (Resource o k r) s2)) (kinds (raise_fence (Resource o k r) s2)) (<[S (fresh s1) := t]> (tasks s1))).
  { exact (raise_counted (Resource o k r) s1 _ t (wf_fenced _ W1) eq_refl (raised_total _ _ _ En)). }
  apply (wf_raised s1); try done.
  - unfold same_tables. simpl. repeat split. lia.
  - by left.
  - intros x h [= <- <-]. by exists (c_id l).
  - intros k'. unfold revoking, holds_lifecycle, is_key. simpl. rewrite lookup_insert. destruct (decide (rk = k')) as [<-|Hne].
    + rewrite El, decide_True by done. done.
    + rewrite decide_False by done. lia.
  - intros k' id [= <- <-]. exists l'. simpl. by rewrite lookup_insert_eq.
  - intros k' l0 E0. simpl. rewrite lookup_insert. case_decide as Ek; [|by exists l0]. subst k'. exists l'. by simplify_eq.
  - intros k' l0 E0 Hq. simpl in E0. apply lookup_insert_Some in E0 as [[<- <-]|[_ E0]]; [by exists l|by exists l0].
Qed.

Lemma wf_closing s : wf s -> wf (close s).
Proof.
  intros W. unfold close. destruct (closed s) eqn:Ec; [done|].
  assert (W' : wf (set_closed true s)) by (eapply wf_quiet; [done|by apply quiet_same]).
  pose proof (d_tasks _ (wf_tidy _ W) (fresh s) ltac:(lia)) as En. apply (wf_raised (set_closed true s)); try done; [by right|by injection 1 as <- <-| |intros; unfold revoking, holds_lifecycle; simpl; lia|eauto|eauto].
  destruct (wf_fenced _ W). split_and!; (eapply counted_ext; [|done]); intros k; simpl; rewrite map_total_insert by done; done.
Qed.

Lemma wf_collect s i x h : wf s -> tasks s !! i = Some (Collecting x h) -> wf (retask i (collect x h s).1 (collect x h s).2).
Proof.
  intros W E. eapply wf_goes_on; [done|exact E|apply quiet_refl|done..|]. simpl. intros _. split.
  - intros id l Hin Hl. apply list_elem_of_fmap. exists (id, l). split; [done|]. by apply list_elem_of_filter.
  - intros id p Hin Hp. apply list_elem_of_fmap. exists (id, p). split; [done|]. by apply list_elem_of_filter.
Qed.

Lemma absent_in {V} (m : list (nat * V)) ids id v : forallb (fun id => negb (IndexMap.contains_key id m)) ids = true -> (id, v) ∈ m -> id ∉ ids.
Proof.
  intros Hf Hin Hid. assert (Hn : IndexMap.get id m = None).
  { rewrite forallb_forall in Hf. specialize (Hf id). rewrite <- list_elem_of_In in Hf. specialize (Hf Hid). unfold IndexMap.contains_key in Hf. by destruct (IndexMap.get id m). }
  apply IndexMap.get_None in Hn. apply Hn, list_elem_of_fmap. by exists (id, v).
Qed.

Lemma wf_await s i x h ls ps : wf s -> tasks s !! i = Some (Waiting x h ls ps) -> wf (retask i (await_release x h ls ps s).1 (await_release x h ls ps s).2).
Proof.
  intros W E. pose proof (wf_barrier _ W _ _ E) as B. unfold await_release. destruct (forallb _ ls && forallb _ ps) eqn:Eb.
  - apply andb_true_iff in Eb as [Hl Hp]. eapply wf_goes_on; [done|exact E|apply quiet_refl|done..|]. simpl. intros Hg. destruct (B Hg) as [Bl Bp]. split_and!.
    + intros id l Hin Hx. eapply absent_in; [exact Hl|exact Hin|]. by eapply Bl.
    + intros id p Hin Hx. eapply absent_in; [exact Hp|exact Hin|]. by eapply Bp.
    + intros c g Hin Hx. apply list_elem_of_fmap. exists (c, g). split; [done|]. by apply list_elem_of_filter.
  - eapply wf_goes_on; [done|exact E|apply quiet_refl|done..].
Qed.

Lemma finalize_record_grants c r now s : grants (finalize_record observer c r now s) = grants s.
Proof. unfold finalize_record, observe, remove_unused. repeat case_match; done. Qed.

Lemma revoke_grants c now s : grants (revoke observer c None now s) = IndexMap.shift_remove c (grants s).
Proof.
  unfold revoke, finalize. destruct (IndexMap.get c (grants s)) as [g|] eqn:E; simpl; [apply finalize_record_grants|]. symmetry. by apply IndexMap.remove_absent.
Qed.

Lemma wf_revoke_one s i x h c cs now : wf s -> tasks s !! i = Some (Revoking x h (c :: cs)) -> wf (retask i (Some (Revoking x h cs)) (revoke observer c None now s)).
Proof.
  intros W E. pose proof (quiet_revoke c None now s) as Q. eapply wf_goes_on; [done|exact E|exact Q|done..|].
  pose proof (barrier_calm None s _ i _ W (proj1 Q (wf_tidy _ W)) E (wf_barrier _ W _ _ E)) as B. simpl in *. intros Hg. destruct (B Hg) as (Bl & Bp & Bg). split_and!; [done..|].
  intros c' g Hin Hx. specialize (Bg c' g Hin Hx). rewrite revoke_grants in Hin. apply IndexMap.elem_of_remove in Hin as [Hne _]. by apply elem_of_cons in Bg as [|].
Qed.

Lemma wf_revoked s i x h : wf s -> tasks s !! i = Some (Revoking x h []) -> wf (retask i (Some (Mutating x h)) s).
Proof.
  intros W E. pose proof (wf_barrier _ W _ _ E) as B. eapply wf_goes_on; [done|exact E|apply quiet_refl|done..|].
  simpl in *. intros Hg. destruct (B Hg) as (Bl & Bp & Bg). split_and!; [done..|]. intros c g Hin Hx. specialize (Bg c g Hin Hx). by apply not_elem_of_nil in Bg.
Qed.

Lemma wf_take s i sc k id : wf s -> tasks s !! i = Some (Queueing sc k id) -> wf (retask i (take_queue sc k id s).1 (take_queue sc k id s).2).
Proof.
  intros W E. assert (Hstay : wf (retask i (Some (Queueing sc k id)) s)) by (eapply wf_goes_on; [done|exact E|apply quiet_refl|done..]).
  unfold take_queue. destruct (lifecycles s !! k) as [l|] eqn:El; [|done]. destruct (c_queue l) eqn:Eq; [done|]. simpl. clear Hstay.
  set (next := Collecting _ _). set (s' := set_lifecycles _ s).
  assert (C : calmed None s s') by (apply calm_same; try done; apply W). destruct (wf_queues _ W) as [Qi Qq Qp].
  assert (Hbound : is_Some (Some next) -> (i < fresh s')%nat) by (intros _; exact (task_bounded _ _ _ W E)).
  assert (Er : forall k', revoking s' k' = revoking s k').
  { intros k'. unfold revoking. simpl. rewrite lookup_insert. case_decide as Ek; [subst k'; by rewrite El|done]. }
  assert (Hpast : forall j t, tasks s !! j = Some t -> past_of t <> Some k).
  { intros j t Ej Et. destruct (proj2 (Qq k)) as (l' & El' & Hl'); [by exists j, t|]. congruence. }
  assert (Hfresh : tasks s' !! i = tasks s !! i) by done.
  assert (Ef : tasks s !! i ≫= fence_of = Some next ≫= fence_of) by (by rewrite E).
  split.
  - by apply (after_tidy s _ _ _ None C).
  - destruct (wf_fenced _ W) as [Fo Fs Fa Fk Fr Fc Ff].
    destruct (after_fences s s i (Some next) None W (calm_refl s (wf_tidy _ W)) eq_refl (still_refl s) Ef) as [Go Gs Ga Gk Gr Gc Gf]. split; try done.
    intros k'. change (revoking s' k' = map_total (holds_lifecycle k') (tasks (retask i (Some next) s))). by rewrite Er, <- Gr.
  - split.
    + intros j t k' id' Ej Eh. simpl. destruct (after_origin s s' i (Some next) None C hold_of j t (k', id') plain_hold) as (t0 & E0 & Eh0); [by rewrite E|done..|].
      destruct (Qi _ _ _ _ E0 Eh0) as (l0 & El0 & <-). rewrite lookup_insert. case_decide as Ek; [|by exists l0]. subst k'. exists (set_queue true l). by simplify_eq.
    + intros k'. simpl. split.
      * intros (l' & El' & Hq). apply lookup_insert_Some in El' as [[<- <-]|[Hne El']].
        -- exists i, next. split; [by rewrite lookup_insert_eq|done].
        -- destruct (proj1 (Qq k')) as (j & t & Ej & Et); [by exists l'|]. exists j, t. split; [|done]. rewrite lookup_insert_ne; [done|]. intros <-. by simplify_eq.
      * intros (j & t & Ej & Et). apply lookup_insert_Some in Ej as [[<- <-]|[Hne Ej]].
        -- simpl in Et. injection Et as <-. exists (set_queue true l). by rewrite lookup_insert_eq.
        -- destruct (proj2 (Qq k')) as (l' & El' & Hl'); [by exists j, t|]. rewrite lookup_insert_ne; [by exists l'|]. intros <-. congruence.
    + intros j j' t t' k' Ej Ej' Et Et'. simpl in Ej, Ej'. apply lookup_insert_Some in Ej as [[<- <-]|[Hne Ej]]; apply lookup_insert_Some in Ej' as [[<- <-]|[Hne' Ej']]; [done| | |by eapply Qp].
      * simpl in Et. injection Et as <-. by destruct (Hpast _ _ Ej').
      * simpl in Et'. injection Et' as <-. by destruct (Hpast _ _ Ej).
  - apply (after_links s _ _ _ None W C); done.
  - apply (after_barrier s _ _ _ None W C). by intros t [= <-].
Qed.

(** ** The change is made *)

Lemma dropped_lifecycles o k r rk id l s : lifecycles s !! rk = Some l -> c_id l = id ->
  let s' := drop_fence (Resource o k r) (Some (rk, id)) (leave_queue (Some (rk, id)) s) in
  (forall k', k' <> rk -> lifecycles s' !! k' = lifecycles s !! k') /\
  (lifecycles s' !! rk = Some (MkLifecycle id (c_generation l) (c_revoking l - 1) false) \/ lifecycles s' !! rk = None /\ c_revoking l = 1).
Proof.
  intros El Ei. unfold drop_fence. cbv zeta. simpl. rewrite lookup_alter_eq, El. simpl. rewrite bool_decide_eq_true_2 by done. unfold remove_unused. simpl.
  rewrite lookup_insert_eq. destruct (bool_decide _ && _ && _ && _) eqn:Eb; simpl.
  - rewrite !andb_true_iff in Eb. destruct Eb as [[[_ Er] _] _]. apply Z.eqb_eq in Er. simpl in Er. split; [|right; split; [by rewrite lookup_delete_eq|lia]].
    intros k' Hne. by rewrite lookup_delete_ne, lookup_insert_ne, lookup_alter_ne.
  - split; [|left; by rewrite lookup_insert_eq, Ei]. intros k' Hne. by rewrite lookup_insert_ne, lookup_alter_ne.
Qed.

Lemma dropped_tables sc h s : same_tables s (drop_fence sc h (leave_queue h s)).
Proof. unfold drop_fence, leave_queue, remove_unused, same_tables. destruct sc, h as [[? ?]|]; simpl; repeat case_match; simpl; auto 7. Qed.

Lemma dropped_counts sc h s : let s' := drop_fence sc h (leave_queue h s) in
  owners s' = owners (lower sc s) /\ sessions s' = sessions (lower sc s) /\ attachments s' = attachments (lower sc s) /\ kinds s' = kinds (lower sc s).
Proof. unfold drop_fence, leave_queue, remove_unused. destruct sc, h as [[? ?]|]; simpl; repeat case_match; simpl; auto 7. Qed.

Lemma dropped_facts s i sc h : wf s -> tasks s !! i = Some (Mutating (Of sc) h) ->
  let s' := drop_fence sc h (leave_queue h s) in
  (forall k, revoking s' k = revoking s k - holds_lifecycle k (Mutating (Of sc) h)) /\
  (forall k l', lifecycles s' !! k = Some l' -> exists l, lifecycles s !! k = Some l /\ c_id l = c_id l' /\
    (c_queue l' = true -> fst <$> h <> Some k) /\ (fst <$> h <> Some k -> c_queue l' = c_queue l)).
Proof.
  intros W E. pose proof (f_fits _ (wf_fenced _ W) i _ _ _ E eq_refl) as Hf. simpl in Hf. cbv zeta.
  destruct h as [[rk id]|]; [|destruct sc as [?|?|?|? ? ?]; [..|by destruct Hf]; (split; [intros k; unfold revoking, holds_lifecycle; simpl; lia|intros k l' El'; by exists l'])].
  destruct sc as [?|?|?|o k r]; try done. destruct (q_ids _ (wf_queues _ W) i _ rk id E eq_refl) as (l & El & Ei).
  destruct (dropped_lifecycles o k r rk id l s El Ei) as [Hne Hat]. set (s' := drop_fence _ _ _) in *. split.
  - intros k'. unfold revoking, holds_lifecycle, is_key. simpl. destruct (decide (k' = rk)) as [->|Hk]; [|rewrite (Hne _ Hk); lia].
    rewrite El. destruct Hat as [-> | [-> Hr]]; simpl; lia.
  - intros k' l' El'. destruct (decide (k' = rk)) as [->|Hk]; [|rewrite (Hne _ Hk) in El'; exists l'; split_and!; try done; simpl; congruence].
    destruct Hat as [Hat|[Hat _]]; [|congruence]. rewrite Hat in El'. injection El' as <-. by exists l.
Qed.

Lemma wf_concluded s i sc h : wf s -> tasks s !! i = Some (Mutating (Of sc) h) -> wf (retask i None (drop_fence sc h (leave_queue h s))).
Proof.
  intros W E. destruct (dropped_facts s i sc h W E) as [Hr Hl]. pose proof (dropped_tables sc h s) as Hs. destruct (dropped_counts sc h s) as (E1 & E2 & E3 & E4).
  set (s' := drop_fence _ _ _) in *. assert (C : calmed None s s') by (apply same_calm; [apply W|done]). assert (Es : tasks s' = tasks s) by apply Hs.
  assert (Ht : forall f, map_total f (upd i None (tasks s)) = map_total f (tasks s) - f (Mutating (Of sc) h)) by (intros f; rewrite upd_total, E; simpl; lia).
  destruct (lower_counted sc s _ (Mutating (Of sc) h) (wf_fenced _ W) eq_refl Ht) as (Co & Ca & Cb & Ck).
  assert (Hpick : forall j t, upd i None (tasks s) !! j = Some t -> i <> j /\ tasks s !! j = Some t) by (intros j t Ej; by apply upd_Some in Ej as [[_ ?]|?]).
  assert (F : fences (retask i None s')).
  { destruct (wf_fenced _ W) as [_ _ _ _ Fr Fc Ff]. split; simpl; rewrite ?E1, ?E2, ?E3, ?E4, ?Es; try done.
    - intros k. change (revoking s' k = map_total (holds_lifecycle k) (upd i None (tasks s))). by rewrite Hr, Ht, Fr.
    - intros j t Ej Ex. apply Hpick in Ej as [_ Ej]. destruct Hs as (_ & _ & _ & _ & _ & ->). by eapply Fc.
    - intros j t x h' Ej Ex. apply Hpick in Ej as [_ Ej]. by eapply Ff. }
  assert (Hheld : forall j t k id, upd i None (tasks s) !! j = Some t -> hold_of t = Some (k, id) -> exists l', lifecycles s' !! k = Some l').
  { intros j t k id Ej Eh. assert (Hp : 0 < revoking s' k) by (eapply (held_pos (retask i None s')); [exact F|simpl; rewrite Es; exact Ej|exact Eh]).
    unfold revoking in Hp. destruct (lifecycles s' !! k) as [l'|]; [by exists l'|lia]. }
  destruct (wf_queues _ W) as [Qi Qq Qp]. split; [by apply (after_tidy s _ _ _ None C); intros []|done| |by apply (after_links s _ _ _ None W C)|by apply (after_barrier s _ _ _ None W C)].
  split; simpl; rewrite ?Es.
  - intros j t k id Ej Eh. destruct (Hheld _ _ _ _ Ej Eh) as [l' El']. exists l'. split; [done|]. apply Hpick in Ej as [_ Ej]. destruct (Hl _ _ El') as (l & El & <- & _).
    destruct (Qi _ _ _ _ Ej Eh) as (l0 & El0 & <-). congruence.
  - intros k. split.
    + intros (l' & El' & Hq). destruct (Hl _ _ El') as (l & El & _ & Hn & Ec). specialize (Hn Hq). destruct (proj1 (Qq k)) as (j & t & Ej & Et); [exists l; split; [done|by rewrite <- Ec]|].
      exists j, t. split; [|done]. simpl. rewrite lookup_delete_ne; [done|]. intros <-. by simplify_eq.
    + intros (j & t & Ej & Et). destruct (past_hold _ _ Et) as [id Eh]. destruct (Hheld _ _ _ _ Ej Eh) as [l' El']. exists l'. split; [done|]. apply Hpick in Ej as [Hne Ej].
      destruct (Hl _ _ El') as (l & El & _ & _ & Ec). rewrite Ec; [destruct (proj2 (Qq k)) as (l0 & El0 & Hl0); [by exists j, t|congruence]|]. intros Ek. apply Hne. by eapply Qp.
  - intros j j' t t' k Ej Ej'. apply Hpick in Ej as [_ Ej]. apply Hpick in Ej' as [_ Ej']. by eapply Qp.
Qed.
(** Closing ends; the coordinator stays closed. *)
Lemma wf_closed s i h : wf s -> tasks s !! i = Some (Mutating All h) -> wf (retask i None s).
Proof.
  intros W E. pose proof (calm_refl s (wf_tidy _ W)) as C. destruct (wf_fenced _ W) as [Fo Fs Fa Fk Fr Fc Ff]. pose proof (Ff _ _ _ _ E eq_refl) as Hh. simpl in Hh. subst h.
  assert (Ht : forall f : Task -> Z, f (Mutating All None) = 0 -> map_total f (upd i None (tasks s)) = map_total f (tasks s)) by (intros f Hf; rewrite upd_total, E; simpl; lia).
  assert (Hpick : forall j t, upd i None (tasks s) !! j = Some t -> tasks s !! j = Some t) by (intros j t Ej; by apply upd_Some in Ej as [[_ ?]|[_ ?]]).
  split; [by apply (after_tidy s _ _ _ None C); intros []| |apply (after_queues s _ _ _ None W C (still_refl s)); by rewrite E|by apply (after_links s _ _ _ None W C)|by apply (after_barrier s _ _ _ None W C)].
  split; simpl; try (eapply counted_ext; [|done]; intros k; by apply Ht).
  - intros k. change (revoking s k = map_total (holds_lifecycle k) (upd i None (tasks s))). by rewrite (Ht (holds_lifecycle k)).
  - intros j t Ej. apply Hpick in Ej. by eapply Fc.
  - intros j t x h Ej. apply Hpick in Ej. by eapply Ff.
Qed.

Lemma wf_conclude s i x h : wf s -> tasks s !! i = Some (Mutating x h) -> wf (retask i (conclude x h s).1 (conclude x h s).2).
Proof.
  intros W E. destruct x as [sc|]; simpl.
  - eapply wf_quiet; [by apply (wf_concluded s i sc h)|]. by apply quiet_same.
  - destruct (writes s =? 0); simpl; [eapply wf_quiet; [by apply (wf_closed s i h)|by apply quiet_same]|].
    eapply wf_goes_on; [done|exact E|apply quiet_refl|done..|by apply (wf_barrier _ W _ _ E)].
Qed.

(** ** Renewals *)

(** A task without a fence or a preparation. *)
Definition light s (x : option Task * State) : Prop := quiet None s x.2 /\ forall t, x.1 = Some t -> plain t.

Lemma light_answer s s' e : quiet None s s' -> light s (answer e s').
Proof. intros Q. split; [|done]. eapply quiet_trans; [exact Q|apply quiet_record]. Qed.

Lemma light_begin_renewal c id now s : light s (begin_renewal observer c id now s).
Proof.
  unfold begin_renewal. destruct (IndexMap.get c (grants s)) as [g|] eqn:E; [|apply light_answer, quiet_refl].
  destruct (negb _); [apply light_answer, quiet_refl|]. destruct (g_renewal g); [split; [apply quiet_refl|by intros t [= <-]]|].
  repeat (case_match; [apply light_answer; first [apply quiet_refl|apply quiet_revoke]|]).
  split; [|by intros t [= <-]]. simpl. eapply quiet_trans; [|apply quiet_record]. by eapply quiet_update.
Qed.

Lemma quiet_fail_closed c id r now s : quiet None s (fail_closed observer c id r now s).
Proof. unfold fail_closed. case_match; [apply quiet_revoke|apply quiet_record]. Qed.

Lemma same_grant_get c id s g : same_grant c id s = Some g -> IndexMap.get c (grants s) = Some g.
Proof. unfold same_grant. intros E. apply bind_Some in E as (g' & Eg & E). by case_match; simplify_eq. Qed.

Lemma light_renewed c id r candidate a now s : light s (renewed observer automatic c id r candidate a now s).
Proof.
  destruct a as [[]| |e]; simpl; [|apply light_answer, quiet_fail_closed..|].
  - apply light_answer. destruct (same_grant c id s) as [g|] eqn:E; [|apply quiet_refl]. apply same_grant_get in E. by eapply quiet_update.
  - case_match; [apply light_answer, quiet_fail_closed|]. case_match; [|split; [apply quiet_record|by intros t [= <-]]].
    destruct (IndexMap.get c (grants s)) as [g|] eqn:E; [|apply light_answer, quiet_refl]. apply light_answer. eapply quiet_trans; [|apply quiet_observe]. by eapply quiet_update.
Qed.

Lemma light_renewal_lost c id now s : light s (renewal_lost observer c id now s).
Proof. apply light_answer. case_match; [apply quiet_finalize|apply quiet_refl]. Qed.

Lemma light_renew c a s : light s (renew c a s) /\ ((renew c a s).1 = None \/ (renew c a s).2 = s).
Proof.
  unfold renew. destruct (IndexMap.get c (grants s)); [|split; [apply light_answer, quiet_refl|by left]].
  case_match; [|split; [apply light_answer, quiet_refl|by left]]. split; [|by right]. split; [apply quiet_refl|by intros t [= <-]].
Qed.

(** ** Every operation *)

Lemma wf_light s i t x : wf s -> tasks s !! i = Some t -> plain t -> light s x -> wf (retask i x.1 x.2).
Proof. intros W E [Hp _] [Q Hn]. by apply (wf_ends s _ i t _ None W E). Qed.

Lemma wf_step_run s i t a now : wf s -> tasks s !! i = Some t -> wf (retask i (run observer automatic t a now s).1 (run observer automatic t a now s).2).
Proof.
  intros W E. destruct t; try (apply (wf_light s i _ _ W E); [done|]); simpl.
  - destruct a as [|c jitter|]; [exact (wf_prepared s i w None None now W E)|exact (wf_prepared s i w c jitter now W E)|exact (wf_prepared s i w None None now W E)].
  - eapply (wf_ends s _ i _ _ (Some (w_id w)) W E); [done| |intros id [= <-]; by exists w|done]. eapply quiet_trans; [apply quiet_drop|apply quiet_record].
  - by apply wf_take.
  - by apply wf_collect.
  - by apply wf_await.
  - destruct capabilities; [by apply wf_revoked|by apply wf_revoke_one].
  - by apply wf_conclude.
  - apply light_begin_renewal.
  - apply light_renewed.
  - apply light_renewal_lost.
  - destruct capabilities; (split; [|try (by intros t [= <-]); done]); [apply quiet_refl|apply quiet_revoke].
  - split; [|done]. by apply quiet_same.
  - split; [|done]. by apply quiet_same.
Qed.

Lemma quiet_activate c a completed now s : quiet None s (activate c a completed now s).
Proof. unfold activate. destruct (IndexMap.get c (grants s)) as [g|] eqn:E; [|apply quiet_refl]. case_match; [|apply quiet_refl]. eapply quiet_update; [done| |]; by destruct completed. Qed.

Lemma quiet_telemetry c a x now s : quiet None s (record_telemetry c a x now s).2.
Proof.
  unfold record_telemetry. destruct (IndexMap.get c (grants s)) as [g|] eqn:E; [|apply quiet_refl]. case_match; [|apply quiet_refl]. simpl.
  eapply quiet_trans; [|apply quiet_record]. by eapply quiet_update.
Qed.

Lemma quiet_final_telemetry c a x now s : quiet None s (record_final_telemetry c a x now s).2.
Proof. unfold record_final_telemetry. cbv zeta. repeat case_match; by apply quiet_same. Qed.

Lemma quiet_timer c now s : quiet None s (timer_fired observer c now s).
Proof.
  unfold timer_fired. destruct (IndexMap.get c (grants s)) as [g|] eqn:E; [|apply quiet_refl]. case_match; [|apply quiet_refl].
  eapply quiet_trans; [|by apply quiet_spawn]. eapply quiet_trans; [|apply quiet_revoke]. eapply quiet_trans; [by eapply (quiet_update _ _ (set_timer None g))|by apply quiet_same].
Qed.

(** The operations that are not steps of a task. *)
Lemma quiet_exec o s : fences s ->
  match o with OTask _ _ _ | OMutate _ | OClose | OPrepare _ _ _ _ _ => True | _ => quiet None s (exec uuid observer automatic accepts_ticket o s) end.
Proof.
  intros F. destruct o; simpl; try done.
  - by apply quiet_acquire.
  - by apply quiet_bind.
  - apply quiet_release.
  - apply quiet_revoke.
  - apply quiet_fold. intros s' c. apply quiet_finalize.
  - apply quiet_timer.
  - by apply quiet_spawn.
  - destruct (light_renew capability a s) as [[Q Hp] Hs]. destruct (renew capability a s) as [[t|] s']; simpl in *; [|done]. destruct Hs as [|Hs]; [done|]. rewrite Hs. by apply quiet_spawn, Hp.
  - apply quiet_activate.
  - apply quiet_telemetry.
  - apply quiet_final_telemetry.
Qed.

Lemma wf_start_state : wf new.
Proof.
  split.
  - split; simpl; try done; first [split; [apply NoDup_nil_2|]|apply NoDup_nil_2]; intros ? Hin; by apply not_elem_of_nil in Hin.
  - split; done.
  - split; try done. intros k. split; [by intros (l & El & _)|by intros (j & t & Ej & _)].
  - split; done.
  - done.
Qed.

Lemma wf_exec_step o s : wf s -> prepares_leased shared o s -> wf (exec uuid observer automatic accepts_ticket o s).
Proof.
  intros W Hs. pose proof (quiet_exec o s (wf_fenced _ W)) as Q. destruct o; try (by eapply wf_quiet).
  - by apply wf_prepare.
  - by apply wf_mutate.
  - by apply wf_closing.
  - simpl. destruct (tasks s !! i) as [t|] eqn:E; [|done]. pose proof (wf_step_run s i t a now W E) as R.
    by destruct (run observer automatic t a now s) as [next s'].
Qed.

Theorem coordinator_wf s : reach uuid observer automatic accepts_ticket shared s -> wf s.
Proof. induction 1 as [|o s R IH Hs]; [apply wf_start_state|by apply wf_exec_step]. Qed.
End inv.
End DirectInv.
