(* ===== verification/DirectLeases.v ===== *)
(** * Leases of direct capabilities

    [DirectLeases] proves that no capability outlives its bounds: its lease ends
    after the clock it was computed from, at most twelve hours later, and its timer is set for
    the end of the lease, however renewals, revocations and answers of workers
    interleave. *)
From S2P Require Import Prelude JsString Direct DirectInv.
From stdpp Require Import base numbers strings gmap option list fin_maps.
Open Scope Z_scope.

Module DirectLeases.
Import Text JsString Direct.

Section leases.
Context (uuid : nat -> units) (observer automatic : bool) (accepts_ticket : PrepareInput -> Z -> bool).
Implicit Types (s : State) (t : Task) (g : Grant).

Definition in_bounds (issued expires maximum : Z) : Prop := issued < expires /\ expires <= maximum /\ maximum <= issued + DAY_HALF.
Definition lease_ok g : Prop :=
  in_bounds (issued_at (g_record g)) (lease_expires (g_record g)) (max_lease (g_record g)) /\
  (automatic = true -> g_timer g = Some (lease_expires (g_record g))).

Record bounded s : Prop := Bounded {
  b_grants : forall c g, (c, g) ∈ grants s -> lease_ok g /\ (g_id g < fresh s)%nat;
  b_preparing : forall j w, tasks s !! j = Some (Preparing w) -> in_bounds (w_issued w) (w_expiry w) (w_maximum w);
  b_renewing : forall j c id r v, tasks s !! j = Some (Renewing c id r v) ->
    (id < fresh s)%nat /\ forall g, (c, g) ∈ grants s -> g_id g = id -> max_lease (g_record g) = max_lease r;
  b_unique : NoDup (grants s).*1
}.

(** ** Operations that do not touch leases *)

Definition same_lease g g' : Prop :=
  g_id g' = g_id g /\ g_timer g' = g_timer g /\ issued_at (g_record g') = issued_at (g_record g) /\
  lease_expires (g_record g') = lease_expires (g_record g) /\ max_lease (g_record g') = max_lease (g_record g).
Definition idle t : Prop := match t with Preparing _ | Renewing _ _ _ _ => False | _ => True end.

Record keeps s s' : Prop := Keeps {
  e_grants : forall c g', (c, g') ∈ grants s' -> exists g, (c, g) ∈ grants s /\ same_lease g g';
  e_tasks : forall j t, tasks s' !! j = Some t -> tasks s !! j = Some t \/ idle t;
  e_fresh : (fresh s <= fresh s')%nat;
  e_unique : NoDup (grants s).*1 -> NoDup (grants s').*1
}.

Lemma same_lease_refl g : same_lease g g.
Proof. done. Qed.
Lemma kept_same s s' : grants s' = grants s -> tasks s' = tasks s -> (fresh s <= fresh s')%nat -> keeps s s'.
Proof. intros Eg Et Hf. split; rewrite ?Eg, ?Et; eauto. intros c g Hin. exists g. by split; [|apply same_lease_refl]. Qed.
Lemma kept_refl s : keeps s s.
Proof. by apply kept_same. Qed.
Lemma kept_trans s s1 s2 : keeps s s1 -> keeps s1 s2 -> keeps s s2.
Proof.
  intros [Hg Ht Hf Hu] [Hg' Ht' Hf' Hu']. split; [| |lia|auto].
  - intros c g2 Hin. destruct (Hg' _ _ Hin) as (g1 & Hin1 & S1). destruct (Hg _ _ Hin1) as (g & Hin0 & S0). exists g. split; [done|].
    unfold same_lease in *. destruct_and!. split_and!; congruence.
  - intros j t E. destruct (Ht' _ _ E) as [E1|]; [auto|by right].
Qed.

Lemma lease_ok_same g g' : same_lease g g' -> lease_ok g -> lease_ok g'.
Proof. intros (_ & Et & Ec & El & Em) [Hb Ha]. unfold lease_ok, in_bounds in *. by rewrite Et, Ec, El, Em. Qed.

Lemma bounded_keeps s s' : bounded s -> keeps s s' -> bounded s'.
Proof.
  intros [Bg Bp Br Bu] [Hg Ht Hf Hu]. split; [| | |auto].
  - intros c g' Hin. destruct (Hg _ _ Hin) as (g & Hin0 & S). destruct (Bg _ _ Hin0) as [Hok Hid]. split; [by eapply lease_ok_same|]. destruct S as [-> _]. lia.
  - intros j w E. destruct (Ht _ _ E) as [E'|Hi]; [by eapply Bp|done].
  - intros j c id r v E. destruct (Ht _ _ E) as [E'|Hi]; [|done]. destruct (Br _ _ _ _ _ E') as [Hid Hm]. split; [lia|].
    intros g' Hin Ei. destruct (Hg _ _ Hin) as (g & Hin0 & S0). destruct S0 as (E1 & _ & _ & _ & ->). apply Hm; congruence.
Qed.

(** A task ends or goes on, idle. *)
Lemma kept_retask s s' i next : keeps s s' -> (forall t, next = Some t -> idle t) -> keeps s (set_tasks (upd i next (tasks s')) s').
Proof. intros [Hg Ht Hf Hu] Hn. split; simpl; try done. intros j t E. apply upd_Some in E as [[_ E]|[_ E]]; auto. Qed.

Lemma kept_record e s : keeps s (record e s).
Proof. by apply kept_same. Qed.
Lemma kept_spawn t s : idle t -> keeps s (spawn t s).
Proof.
  intros Hi. split; simpl; eauto. - intros c g Hin. exists g. by split; [|apply same_lease_refl].
  - intros j t' E. apply lookup_insert_Some in E as [[_ <-]|[_ E]]; auto.
Qed.
Lemma kept_remove_unused k id s : keeps s (remove_unused k id s).
Proof. unfold remove_unused. repeat case_match; by apply kept_same. Qed.
Lemma kept_observe e c r s : keeps s (observe observer e c r s).
Proof. unfold observe. case_match; [apply kept_refl|]. eapply kept_trans; [|by apply kept_spawn]. by apply kept_same. Qed.
Lemma kept_finalize_record c r now s : keeps s (finalize_record observer c r now s).
Proof.
  unfold finalize_record. eapply (kept_trans _ (observe observer "finalized" c r s)); [apply kept_observe|]. set (s1 := observe _ _ _ _ s). set (k := resource_key _ _).
  set (s2 := match lifecycles s1 !! k with Some l => remove_unused k (c_id l) s1 | None => s1 end).
  eapply (kept_trans s1 s2); [unfold s2; case_match; [apply kept_remove_unused|apply kept_refl]|]. case_match; [|apply kept_refl]. by apply kept_same.
Qed.

Lemma kept_removed c s : keeps s (set_grants (IndexMap.shift_remove c (grants s)) s).
Proof.
  split; simpl; eauto; [|by apply IndexMap.wf_remove]. intros c' g Hin. apply IndexMap.elem_of_remove in Hin as [_ Hin]. exists g. by split; [|apply same_lease_refl].
Qed.
Lemma kept_finalize c a now s : keeps s (finalize observer c a now s).2.
Proof.
  unfold finalize. case_match; [|apply kept_refl]. case_match; [apply kept_refl|]. simpl. eapply kept_trans; [apply kept_removed|apply kept_finalize_record].
Qed.
Lemma kept_revoke c a now s : keeps s (revoke observer c a now s).
Proof.
  unfold revoke. pose proof (kept_finalize c a now s) as K. destruct (finalize observer c a now s) as [[r|] s']; [|done]. eapply kept_trans; [exact K|apply kept_record].
Qed.
Lemma kept_update c g0 g s : IndexMap.get c (grants s) = Some g0 -> same_lease g0 g -> keeps s (update_grant c g s).
Proof.
  intros E S. split; simpl; eauto; [|by apply IndexMap.wf_insert].
  intros c' g' Hin. apply IndexMap.elem_of_insert in Hin as [Hin|Hin]; [simplify_eq; exists g0; split; [by apply IndexMap.get_In|done]|exists g'; by split; [|apply same_lease_refl]].
Qed.
Lemma kept_fold {A} (f : State -> A -> State) l s : (forall s a, keeps s (f s a)) -> keeps s (fold_left f l s).
Proof. intros Hf. revert s. induction l as [|a l IH]; intros s; [apply kept_refl|]. simpl. eapply kept_trans; [apply Hf|apply IH]. Qed.
Lemma kept_drop w s : keeps s (drop_preparation w s).
Proof. unfold drop_preparation. eapply kept_trans; [|apply kept_remove_unused]. by apply kept_same. Qed.
Lemma kept_lifecycle k s : keeps s (lifecycle k s).2.
Proof. unfold lifecycle. case_match; [apply kept_refl|]. apply kept_same; simpl; auto; lia. Qed.

(** ** Steps *)

Definition settled s (x : option Task * State) : Prop := keeps s x.2 /\ forall t, x.1 = Some t -> idle t.

Lemma settled_answer s s' e : keeps s s' -> settled s (answer e s').
Proof. intros K. split; [|done]. eapply kept_trans; [exact K|apply kept_record]. Qed.
Lemma settled_refuse s s' e : keeps s s' -> settled s (refuse e s').
Proof. intros K. split; [|done]. eapply kept_trans; [exact K|apply kept_record]. Qed.

Lemma kept_dropped sc h s : keeps s (drop_fence sc h (leave_queue h s)).
Proof. unfold drop_fence, leave_queue, remove_unused. destruct sc, h as [[? ?]|]; simpl; repeat case_match; by apply kept_same. Qed.

Lemma settled_change t a now s : idle t -> (forall c id, t <> AwaitingRenewal c id) -> settled s (run observer automatic t a now s).
Proof.
  intros Hi Hr. destruct t; try done; simpl.
  - apply settled_refuse, kept_drop.
  - unfold take_queue. repeat case_match; (split; [by apply kept_same|by intros ? [= <-]]).
  - split; [apply kept_refl|by intros ? [= <-]].
  - unfold await_release. case_match; (split; [by apply kept_same|by intros ? [= <-]]).
  - destruct capabilities; (split; [|by intros ? [= <-]]); [apply kept_refl|apply kept_revoke].
  - unfold conclude. destruct x as [sc|]; [split; [|done]; simpl; eapply kept_trans; [apply (kept_dropped sc h)|apply kept_record]|].
    case_match; (split; [by apply kept_same|by intros ? [= <-]]).
  - by destruct (Hr capability id).
  - apply settled_answer. case_match; [apply kept_finalize|apply kept_refl].
  - destruct capabilities; (split; [|by intros ? [= <-]]); [apply kept_refl|apply kept_revoke].
  - split; [by apply kept_same|done].
  - split; [by apply kept_same|done].
Qed.

Lemma bounded_settled s i x : bounded s -> settled s x -> bounded (set_tasks (upd i x.1 (tasks x.2)) x.2).
Proof. intros B [K Hi]. eapply bounded_keeps; [exact B|by apply kept_retask]. Qed.

Lemma bounded_preparing s w : bounded s -> in_bounds (w_issued w) (w_expiry w) (w_maximum w) -> bounded (spawn (Preparing w) s).
Proof.
  intros [Bg Bp Br Bu] Hw. split; simpl; [| | |done].
  - intros c g Hin. destruct (Bg _ _ Hin). split; [done|lia].
  - intros j w' E. apply lookup_insert_Some in E as [[_ [= <-]]|[_ E]]; [done|by eapply Bp].
  - intros j c id r v E. apply lookup_insert_Some in E as [[_ [=]]|[_ E]]. destruct (Br _ _ _ _ _ E). split; [lia|done].
Qed.

Lemma bounded_prepare lease i connected started now s : bounded s -> bounded (prepare uuid accepts_ticket lease i connected started now s).
Proof.
  intros B. unfold prepare. case_match; [eapply bounded_keeps; [exact B|apply kept_record]|]. set (k := resource_key _ _).
  pose proof (kept_lifecycle k s) as K. destruct (lifecycle k s) as [l s1]. simpl in K. case_match; [eapply bounded_keeps; [exact B|]; eapply kept_trans; [exact K|apply kept_record]|].
  set (p := MkPending _ _ _). set (s2 := set_fresh _ _). set (w := MkPreparation _ _ _ _ _ _ _ _ _ _ _). cbv zeta.
  assert (K2 : keeps s s2) by (eapply kept_trans; [exact K|]; apply kept_same; simpl; auto).
  assert (Hf : forall why, bounded (record (Refused why) (drop_preparation w s2))).
  { intros why. eapply bounded_keeps; [exact B|]. eapply kept_trans; [exact K2|]. eapply kept_trans; [apply (kept_drop w)|apply kept_record]. }
  do 2 (case_match; [apply Hf|]). destruct ((_ <=? now) || (_ <=? now)) eqn:Eb; [apply Hf|]. case_match; [apply Hf|].
  apply orb_false_iff in Eb as [E1 E2]. apply Z.leb_gt in E1, E2. apply bounded_preparing; [eapply bounded_keeps; [exact B|]; eapply kept_trans; [exact K2|]; apply kept_same; simpl; auto|].
  unfold in_bounds. simpl. lia.
Qed.

Lemma bounded_retask s i next : bounded s -> (forall t, next = Some t -> idle t) -> bounded (set_tasks (upd i next (tasks s)) s).
Proof. intros B Hn. eapply bounded_keeps; [exact B|]. apply kept_retask; [apply kept_refl|done]. Qed.

Lemma bounded_granted w g s : bounded s -> lease_ok g -> g_id g = fresh s ->
  bounded (set_fresh (S (fresh s)) (set_grants (IndexMap.insert (w_capability w) g (grants s)) s)).
Proof.
  intros [Bg Bp Br Bu] Hok Hid. split; simpl; [| |  |by apply IndexMap.wf_insert].
  - intros c g' Hin. apply IndexMap.elem_of_insert in Hin as [Hin|Hin]; [simplify_eq; split; [done|lia]|]. destruct (Bg _ _ Hin). split; [done|lia].
  - done.
  - intros j c id r v E. destruct (Br _ _ _ _ _ E) as [Hlt Hm]. split; [lia|]. intros g' Hin Ei. apply IndexMap.elem_of_insert in Hin as [Hin|Hin]; [|by apply Hm].
    injection Hin as -> ->. lia.
Qed.

Lemma bounded_prepared s i w c jitter now : bounded s -> tasks s !! i = Some (Preparing w) ->
  let x := prepared observer automatic w c jitter now s in bounded (set_tasks (upd i x.1 (tasks x.2)) x.2).
Proof.
  intros B E. pose proof (b_preparing _ B _ _ E) as Hw. cbv zeta. unfold prepared.
  destruct c as [c|]; [|apply (bounded_settled s), settled_refuse, kept_drop; done]. destruct (negb _); [apply (bounded_settled s), settled_refuse, kept_drop; done|].
  destruct jitter as [jitter|]; [|apply (bounded_settled s), settled_refuse, kept_drop; done]. cbv zeta. set (g := MkGrant _ _ _ _ _ _). set (s1 := set_fresh _ _).
  assert (B1 : bounded s1) by (apply bounded_granted; [done| |done]; split; [exact Hw|]; simpl; by intros ->).
  case_match; apply (bounded_settled s1); try done; (split; [|by intros ? [= <-]]); [|apply kept_revoke].
  simpl. eapply kept_trans; [apply (kept_drop w)|apply kept_record].
Qed.

(** ** Renewals *)

Lemma in_get s c g : bounded s -> (c, g) ∈ grants s <-> IndexMap.get c (grants s) = Some g.
Proof. intros B. split; [apply IndexMap.In_get, B|apply IndexMap.get_In]. Qed.

Lemma bounded_begin_renewal s i c id now : bounded s -> tasks s !! i = Some (AwaitingRenewal c id) ->
  let x := begin_renewal observer c id now s in bounded (set_tasks (upd i x.1 (tasks x.2)) x.2).
Proof.
  intros B E. cbv zeta. assert (Hd : forall e s', keeps s s' -> bounded (set_tasks (upd i (answer e s').1 (tasks (answer e s').2)) (answer e s').2)).
  { intros e s' K. by apply (bounded_settled s), settled_answer. }
  unfold begin_renewal. destruct (IndexMap.get c (grants s)) as [g|] eqn:Eg; [|apply Hd, kept_refl]. destruct (bool_decide (g_id g = id)) eqn:Ei; [|apply Hd, kept_refl]. simpl negb. cbv iota.
  apply bool_decide_eq_true in Ei. destruct (g_renewal g); [apply (bounded_settled s); [done|]; split; [apply kept_refl|by intros ? [= <-]]|].
  do 4 (case_match; [apply Hd, kept_refl|]). case_match; [apply Hd, kept_revoke|]. cbv zeta. set (r := set_renewal _ _ _ _). set (g' := set_lock _ _).
  set (s1 := tell _ _ _). assert (K : keeps s s1) by (eapply kept_trans; [by eapply (kept_update c g g')|apply kept_record]).
  destruct (bounded_keeps _ _ B K) as [Bg Bp Br Bu]. split; simpl; [done| | |done].
  - intros j w Ej. apply lookup_insert_Some in Ej as [[_ [=]]|[_ Ej]]. by eapply Bp.
  - intros j c' id' r' v' Ej. apply lookup_insert_Some in Ej as [[_ Ej]|[_ Ej]]; [|by eapply Br]. simplify_eq. split; [|intros g0 Hin _].
    + destruct (b_grants _ B c' g) as [_ Hid]; [by apply IndexMap.get_In|done].
    + apply IndexMap.In_get in Hin; [|exact Bu]. rewrite IndexMap.get_insert_eq in Hin. by simplify_eq.
Qed.

Lemma bounded_extended s c g e n : bounded s -> IndexMap.get c (grants s) = Some g -> lease_expires (g_record g) <= e <= max_lease (g_record g) ->
  bounded (update_grant c (set_lock false (set_timer (timer automatic e) (set_record (set_renewal e n (renewals (g_record g) + 1) (g_record g)) g))) s).
Proof.
  intros [Bg Bp Br Bu] E He. apply IndexMap.get_In in E as Hin0. destruct (Bg _ _ Hin0) as [[Hb Ha] Hid]. split; simpl; [|done| |by apply IndexMap.wf_insert].
  - intros c' g' Hin. apply IndexMap.elem_of_insert in Hin as [Hin|Hin]; [|by eapply Bg]. injection Hin as -> ->. split; [|done]. split; [|by intros ->].
    unfold in_bounds in *. simpl. lia.
  - intros j c' id r v Ej. destruct (Br _ _ _ _ _ Ej) as [Hlt Hm]. split; [done|]. intros g' Hin Ei. apply IndexMap.elem_of_insert in Hin as [Hin|Hin]; [|by apply Hm].
    injection Hin as -> ->. by apply (Hm g).
Qed.

Lemma bounded_renewed s i c id r candidate a now : bounded s -> tasks s !! i = Some (Renewing c id r candidate) ->
  let x := renewed observer automatic c id r candidate a now s in bounded (set_tasks (upd i x.1 (tasks x.2)) x.2).
Proof.
  intros B E. cbv zeta. assert (Hd : forall e s', keeps s s' -> bounded (set_tasks (upd i (answer e s').1 (tasks (answer e s').2)) (answer e s').2)).
  { intros e s' K. by apply (bounded_settled s), settled_answer. }
  assert (Kf : keeps s (fail_closed observer c id r now s)) by (unfold fail_closed; case_match; [apply kept_revoke|apply kept_record]).
  destruct a as [[]| |e]; simpl; [|by apply Hd..|].
  - apply Hd. destruct (same_grant c id s) as [g|] eqn:Eg; [|apply kept_refl]. apply DirectInv.same_grant_get in Eg. by eapply kept_update.
  - destruct ((_ <? candidate) || (max_lease r <? _)) eqn:Eb; [by apply Hd|]. apply orb_false_iff in Eb as [_ Emax]. apply Z.ltb_ge in Emax.
    destruct (current s c id) eqn:Ec; [|apply (bounded_settled s); [done|]; split; [apply kept_record|by intros ? [= <-]]].
    unfold current in Ec. destruct (IndexMap.get c (grants s)) as [g|] eqn:Eg; [|done]. rewrite !andb_true_iff, bool_decide_eq_true in Ec. destruct Ec as [[[Eid _] _] _].
    destruct (b_renewing _ B _ _ _ _ _ E) as [_ Hm]. specialize (Hm g (IndexMap.get_In _ _ _ Eg) Eid).
    apply (bounded_settled (update_grant c (set_lock false (set_timer (timer automatic (Z.max (lease_expires (g_record g)) (default candidate e))) (set_record (set_renewal (Z.max (lease_expires (g_record g)) (default candidate e)) (renewal_attempts (g_record g)) (renewals (g_record g) + 1) (g_record g)) g))) s)).
    + apply bounded_extended; [done..|]. destruct (b_grants _ B c g) as [[[Hb1 Hb2] _] _]; [by apply IndexMap.get_In|]. lia.
    + apply settled_answer, kept_observe.
Qed.

(** ** Every operation *)

Lemma kept_timer c now s : keeps s (timer_fired observer c now s).
Proof.
  unfold timer_fired. destruct (IndexMap.get c (grants s)) as [g|] eqn:E; [|apply kept_refl]. case_match; [|apply kept_refl].
  eapply kept_trans; [|by apply kept_spawn]. set (s1 := set_background _ _). pose proof (kept_revoke c None now s1) as K. split.
  - intros c' g' Hin. rewrite DirectInv.revoke_grants in Hin. apply IndexMap.elem_of_remove in Hin as [Hne Hin]. simpl in Hne. apply IndexMap.elem_of_insert in Hin as [[= -> _]|Hin]; [done|].
    exists g'. by split; [|apply same_lease_refl].
  - exact (e_tasks _ _ K).
  - exact (e_fresh _ _ K).
  - intros Hu. apply (e_unique _ _ K). by apply IndexMap.wf_insert.
Qed.

Lemma kept_mutate sc s : keeps s (mutate sc s).
Proof.
  destruct sc as [?|?|?|o k r]; try (unfold mutate; eapply kept_trans; [|by apply kept_spawn]; by apply kept_same).
  unfold mutate. set (rk := key o k (Some r)). pose proof (kept_lifecycle rk s) as K. destruct (lifecycle rk s) as [l s1]. simpl in K. eapply kept_trans; [exact K|].
  eapply kept_trans; [|by apply kept_spawn]. apply kept_same; simpl; auto.
Qed.

Lemma kept_exec o s : match o with OTask _ _ _ | OPrepare _ _ _ _ _ => True | _ => keeps s (exec uuid observer automatic accepts_ticket o s) end.
Proof.
  destruct o; simpl; try done.
  - unfold acquire_preparation. case_match; [apply kept_record|]. apply kept_same; simpl; auto.
  - unfold bind_preparation. repeat case_match; by apply kept_same.
  - by apply kept_same.
  - apply kept_mutate.
  - apply kept_revoke.
  - apply kept_fold. intros. apply kept_finalize.
  - apply kept_timer.
  - by apply kept_spawn.
  - unfold renew. destruct (IndexMap.get capability (grants s)) as [g|]; [|apply kept_record]. destruct (authorized (g_record g) a false); [by apply kept_spawn|apply kept_record].
  - unfold activate. destruct (IndexMap.get capability (grants s)) as [g|] eqn:E; [|apply kept_refl]. case_match; [|apply kept_refl]. eapply kept_update; [done|]. by destruct completed.
  - unfold record_telemetry. destruct (IndexMap.get capability (grants s)) as [g|] eqn:E; [|apply kept_refl]. case_match; [|apply kept_refl].
    eapply kept_trans; [|apply kept_record]. by eapply kept_update.
  - unfold record_final_telemetry. cbv zeta. repeat case_match; by apply kept_same.
  - unfold close. case_match; [apply kept_refl|]. eapply kept_trans; [|by apply kept_spawn]. by apply kept_same.
Qed.

Lemma bounded_step o s : bounded s -> bounded (exec uuid observer automatic accepts_ticket o s).
Proof.
  intros B. pose proof (kept_exec o s) as K. destruct o; try (by eapply bounded_keeps); [by apply bounded_prepare|]. clear K. simpl.
  destruct (tasks s !! i) as [t|] eqn:E; [|done].
  enough (R : bounded (set_tasks (upd i (run observer automatic t a now s).1 (tasks (run observer automatic t a now s).2)) (run observer automatic t a now s).2)) by (by destruct (run observer automatic t a now s)).
  destruct t as [w| | | | | | |c id|c id r v| | | |]; try (apply (bounded_settled s); [done|by apply settled_change]).
  - destruct a as [|c jitter|]; [exact (bounded_prepared s i w None None now B E)|exact (bounded_prepared s i w c jitter now B E)|exact (bounded_prepared s i w None None now B E)].
  - by apply bounded_begin_renewal.
  - by apply (bounded_renewed s i c id r v).
Qed.

Lemma bounded_new : bounded new.
Proof. split; simpl; try done; [intros c g Hin; by apply not_elem_of_nil in Hin|apply NoDup_nil_2]. Qed.

Lemma reach_bounded shared s : reach uuid observer automatic accepts_ticket shared s -> bounded s.
Proof. induction 1; [apply bounded_new|by apply bounded_step]. Qed.

(** C12: The lease of a capability in the table ends after the clock it was
    computed from, the second reading of its preparation, and at most twelve hours
    after it, whatever the answers of workers to renewals. (Its [createdAt] is
    the first reading, from before: it is not what bounds the lease.) With automatic expiry its timer is set for the end of its lease:
    when it fires, the capability is gone. *)
Theorem capabilities_expire shared s c g now : reach uuid observer automatic accepts_ticket shared s -> IndexMap.get c (grants s) = Some g ->
  issued_at (g_record g) < lease_expires (g_record g) <= max_lease (g_record g) /\ max_lease (g_record g) <= issued_at (g_record g) + 43200000 /\
  (automatic = true -> g_timer g = Some (lease_expires (g_record g)) /\ IndexMap.get c (grants (timer_fired observer c now s)) = None).
Proof.
  intros R E. destruct (b_grants _ (reach_bounded _ _ R) c g) as [[(H1 & H2 & H3) Ht] _]; [by apply IndexMap.get_In|]. split; [done|]. split; [done|].
  intros Ha. specialize (Ht Ha). split; [done|]. unfold timer_fired. rewrite E, bool_decide_eq_true_2 by done. simpl. rewrite DirectInv.revoke_grants. apply IndexMap.get_remove_eq.
Qed.
End leases.
End DirectLeases.
