(* ===== verification/DirectUsage.v ===== *)
(** * Usage of direct capabilities

    [DirectUsage] proves that the traffic of a capability is accounted for
    exactly once: what its reports added up to, before and after the capability
    was finalized, is what its record says. *)
From S2P Require Import Prelude JsString Direct DirectInv.
From stdpp Require Import base numbers strings gmap option list fin_maps.
Open Scope Z_scope.

Module DirectUsage.
Import Text JsString Direct.

(** The counters of a report. *)
Inductive Counter := BytesFromLocal | BytesToLocal | ConnectionsClosed | ConnectionsOpened.
Definition read (x : Counter) : Traffic -> Z :=
  match x with BytesFromLocal => from_local | BytesToLocal => to_local | ConnectionsClosed => conns_closed | ConnectionsOpened => conns_opened end.

(** What the reports for a capability added up to. *)
Definition reported (x : Counter) (c : units) (e : Entry) : Z :=
  match e with Counted c' d => if decide (c = c') then read x d else 0 | _ => 0 end.
Fixpoint used (x : Counter) (c : units) (l : list Entry) : Z := match l with [] => 0 | e :: l => reported x c e + used x c l end.

Definition is_count (e : Entry) : Prop := match e with Counted _ _ => True | _ => False end.
Definition count_of (e : Entry) : option units := match e with Counted c _ => Some c | _ => None end.

Lemma used_app x c l l' : used x c (l ++ l') = used x c l + used x c l'.
Proof. induction l as [|e l IH]; simpl; lia. Qed.
Lemma used_none x c l : (forall e, e ∈ l -> count_of e <> Some c) -> used x c l = 0.
Proof.
  induction l as [|e l IH]; intros Hn; [done|]. simpl. rewrite IH by (intros e' He; apply Hn; by right).
  assert (He : count_of e <> Some c) by (apply Hn; by left). destruct e; simpl in *; try done. rewrite decide_False by congruence. lia.
Qed.

Lemma merge_read x p q : read x (merge p q) = Z.max (read x p) (read x q).
Proof. by destruct x. Qed.
Lemma delta_read x p q : read x (delta p q) = read x q - read x p.
Proof. by destruct x. Qed.

Section usage.
Context (uuid : nat -> units) (observer automatic : bool) (accepts_ticket : PrepareInput -> Z -> bool).
Context {uuid_inj : Inj (=) (=) uuid}.
Implicit Types (s : State) (t : Task) (g : Grant) (f : Finalized).

Definition named s (c : units) : Prop := exists n, (n < fresh s)%nat /\ c = uuid n.
Definition accounted s (c : units) (v : Traffic) : Prop := named s c /\ forall x, used x c (log s) = read x v.

Definition apart s : Prop := forall c, c ∈ (grants s).*1 -> c ∉ (finalized s).*1.

Record exact s : Prop := Exact {
  x_grants : forall c g, (c, g) ∈ grants s -> accounted s c (telemetry (g_record g));
  x_finalized : forall c f, (c, f) ∈ finalized s -> accounted s c (telemetry (f_record f));
  x_apart : apart s;
  x_log : forall c d, Counted c d ∈ log s -> named s c /\ forall x, 0 <= read x d;
  x_preparing : forall j w, tasks s !! j = Some (Preparing w) -> named s (w_capability w) /\ (w_capability w ∉ (grants s).*1) /\ (w_capability w ∉ (finalized s).*1) /\
    forall e, e ∈ log s -> count_of e <> Some (w_capability w);
  x_alone : forall j j' w w', tasks s !! j = Some (Preparing w) -> tasks s !! j' = Some (Preparing w') -> w_capability w = w_capability w' -> j = j';
  x_unique : NoDup (grants s).*1 /\ NoDup (finalized s).*1
}.

(** ** Operations that report nothing *)

Record moves s s' : Prop := Moves {
  y_grants : forall c g', (c, g') ∈ grants s' -> exists g, (c, g) ∈ grants s /\ telemetry (g_record g') = telemetry (g_record g);
  y_finalized : forall c f', (c, f') ∈ finalized s' -> (exists f, (c, f) ∈ finalized s /\ telemetry (f_record f') = telemetry (f_record f)) \/
    (exists g, (c, g) ∈ grants s /\ telemetry (f_record f') = telemetry (g_record g));
  y_apart : apart s -> apart s';
  y_log : exists l, log s' = log s ++ l /\ forall e, e ∈ l -> count_of e = None;
  y_tasks : forall j w, tasks s' !! j = Some (Preparing w) -> tasks s !! j = Some (Preparing w);
  y_fresh : (fresh s <= fresh s')%nat;
  y_unique : NoDup (grants s).*1 /\ NoDup (finalized s).*1 -> NoDup (grants s').*1 /\ NoDup (finalized s').*1
}.

Lemma moved_same s s' : grants s' = grants s -> finalized s' = finalized s -> log s' = log s -> tasks s' = tasks s -> (fresh s <= fresh s')%nat -> moves s s'.
Proof.
  intros Eg Ef El Et Hf. split; unfold apart; rewrite ?Eg, ?Ef, ?El, ?Et; eauto. exists []. split; [by rewrite app_nil_r|]. intros e He. by apply not_elem_of_nil in He.
Qed.
Lemma moved_refl s : moves s s.
Proof. by apply moved_same. Qed.
Lemma moved_then s s1 s2 : moves s s1 -> moves s1 s2 -> moves s s2.
Proof.
  intros [Hg Hfi Ha Hl Ht Hf Hu] [Hg' Hfi' Ha' Hl' Ht' Hf' Hu']. split; [| |auto| |auto|lia|auto].
  - intros c g2 Hin. destruct (Hg' _ _ Hin) as (g1 & Hin1 & ->). auto.
  - intros c f2 Hin. destruct (Hfi' _ _ Hin) as [(f1 & Hin1 & ->)|(g1 & Hin1 & ->)]; [auto|right; auto].
  - destruct Hl as (l & El & Hn), Hl' as (l' & El' & Hn'). exists (l ++ l'). rewrite El', El, app_assoc. split; [done|]. intros e [He|He]%elem_of_app; auto.
Qed.

Lemma accounted_moves s s' c v : moves s s' -> accounted s c v -> accounted s' c v.
Proof.
  intros M [(n & Hn & Ec) Hv]. destruct (y_log _ _ M) as (l & El & Hl). pose proof (y_fresh _ _ M). split; [exists n; split; [lia|done]|].
  intros x. rewrite El, used_app, Hv, (used_none x c l); [lia|]. intros e He. by rewrite Hl.
Qed.
Lemma named_fresh s s' c : (fresh s <= fresh s')%nat -> named s c -> named s' c.
Proof. intros Hf (n & Hn & ->). exists n. split; [lia|done]. Qed.

Lemma exact_moves s s' : exact s -> moves s s' -> exact s'.
Proof.
  intros [Xg Xf Xa Xl Xp Xo Xu] M. pose proof (y_fresh _ _ M) as Hf. destruct (y_log _ _ M) as (l & El & Hl). split; [| |by apply M| | | |by apply M].
  - intros c g' Hin. destruct (y_grants _ _ M _ _ Hin) as (g & Hin0 & ->). eapply accounted_moves; eauto.
  - intros c f' Hin. destruct (y_finalized _ _ M _ _ Hin) as [(f & Hin0 & ->)|(g & Hin0 & ->)]; eapply accounted_moves; eauto.
  - intros c d Hin. rewrite El in Hin. apply elem_of_app in Hin as [Hin|Hin]; [|by apply Hl in Hin]. destruct (Xl _ _ Hin). split; [by eapply named_fresh|done].
  - intros j w E. apply M in E. destruct (Xp _ _ E) as (Hn & Hg & Hfi & Hc). split_and!.
    + by eapply named_fresh.
    + intros Hin. apply list_elem_of_fmap in Hin as ([c g'] & Ec & Hin). destruct (y_grants _ _ M _ _ Hin) as (g & Hin0 & _). apply Hg, list_elem_of_fmap. by exists (c, g).
    + intros Hin. apply list_elem_of_fmap in Hin as ([c f'] & Ec & Hin). destruct (y_finalized _ _ M _ _ Hin) as [(f & Hin0 & _)|(g & Hin0 & _)].
      * apply Hfi, list_elem_of_fmap. by exists (c, f).
      * apply Hg, list_elem_of_fmap. by exists (c, g).
    + intros e He. rewrite El in He. apply elem_of_app in He as [He|He]; [auto|]. by rewrite Hl.
  - intros j j' w w' E E'. apply M in E, E'. by eapply Xo.
Qed.

Lemma moved_record e s : count_of e = None -> moves s (record e s).
Proof. intros He. split; simpl; eauto. exists [e]. split; [done|]. by intros e' ->%list_elem_of_singleton. Qed.
Lemma moved_spawn t s : (forall w, t <> Preparing w) -> moves s (spawn t s).
Proof.
  intros Ht. split; simpl; eauto.
  - exists []. split; [by rewrite app_nil_r|]. intros e He. by apply not_elem_of_nil in He.
  - intros j w E. apply lookup_insert_Some in E as [[_ E]|[_ E]]; [by destruct (Ht w)|done].
Qed.
Lemma moved_remove_unused k id s : moves s (remove_unused k id s).
Proof. unfold remove_unused. repeat case_match; by apply moved_same. Qed.
Lemma moved_observe e c r s : moves s (observe observer e c r s).
Proof.
  unfold observe. case_match; [apply moved_refl|]. eapply moved_then; [|by apply moved_spawn]. eapply moved_then; [|by apply moved_record]. by apply moved_same.
Qed.

Lemma elem_key {V} (m : list (units * V)) c : c ∈ m.*1 <-> exists v, (c, v) ∈ m.
Proof.
  rewrite list_elem_of_fmap. split; [intros ([c' v] & -> & Hin); by exists v|intros [v Hin]; by exists (c, v)].
Qed.
Lemma elem_drop {V} n (m : list V) x : x ∈ drop n m -> x ∈ m.
Proof. intros Hin. eapply elem_of_submseteq; [exact Hin|]. apply sublist_submseteq, sublist_drop. Qed.

(** Records are pruned. *)
Lemma moved_finalized fs s : fs ⊆ finalized s -> (NoDup (finalized s).*1 -> NoDup fs.*1) -> moves s (set_finalized fs s).
Proof.
  intros Hs Hn. split; simpl; eauto.
  - intros Ha c Hc Hin. apply elem_key in Hin as [f Hin]. apply (Ha c Hc), elem_key. exists f. by apply Hs.
  - exists []. split; [by rewrite app_nil_r|]. intros e He. by apply not_elem_of_nil in He.
  - intros [? ?]. auto.
Qed.
Lemma moved_prune now s : moves s (prune now s).
Proof. apply moved_finalized; [|by apply IndexMap.wf_filter]. intros x Hx. by apply list_elem_of_filter in Hx as [_ Hx]. Qed.

(** A grant becomes a record that is kept. *)
Lemma moved_keep c g e s s1 : IndexMap.get c (grants s) = Some g -> moves s s1 -> grants s1 = IndexMap.shift_remove c (grants s) ->
  moves s (set_finalized (let kept := IndexMap.insert c (MkFinalized (g_record g) e false) (finalized s1) in drop (length kept - FINALIZED_LIMIT) kept) s1).
Proof.
  intros E [Hg Hfi Ha Hl Ht Hf Hu] Eg. apply IndexMap.get_In in E as Hin0. split; simpl; eauto.
  - intros c' f' Hin. apply elem_drop, IndexMap.elem_of_insert in Hin as [Hin|Hin]; [right; simplify_eq; by exists g|auto].
  - intros Hs c' Hc Hf'. apply elem_key in Hf' as [f' Hf']. apply elem_drop, IndexMap.elem_of_insert in Hf' as [Hf'|Hf']; [|apply (Ha Hs c' Hc), elem_key; by exists f'].
    injection Hf' as -> ->. simpl in Hc. rewrite Eg in Hc. apply elem_key in Hc as [g' Hc]. by apply IndexMap.elem_of_remove in Hc as [Hne _].
  - intros Hn. destruct (Hu Hn). split; [done|]. by apply IndexMap.wf_drop, IndexMap.wf_insert.
Qed.
Lemma moved_discard c s : moves s (set_grants (IndexMap.shift_remove c (grants s)) s).
Proof.
  split; simpl; eauto.
  - intros c' g' Hin. apply IndexMap.elem_of_remove in Hin as [_ Hin]. by exists g'.
  - intros Ha c' Hc. apply Ha. apply elem_key in Hc as [g' Hc]. apply IndexMap.elem_of_remove in Hc as [_ Hc]. apply elem_key. by exists g'.
  - exists []. split; [by rewrite app_nil_r|]. intros e' He. by apply not_elem_of_nil in He.
  - intros [Hg Hf]. split; [by apply IndexMap.wf_remove|done].
Qed.

Lemma moved_finalize c a now s : moves s (finalize observer c a now s).2.
Proof.
  unfold finalize. destruct (IndexMap.get c (grants s)) as [g|] eqn:E; [|apply moved_refl]. destruct (from_option _ _ _); [apply moved_refl|]. simpl.
  set (s0 := set_grants _ s). unfold finalize_record. set (k := resource_key _ _). set (s1 := observe _ _ _ _ s0).
  set (s2 := match lifecycles s1 !! k with Some l => remove_unused k (c_id l) s1 | None => s1 end).
  assert (M1 : moves s s1) by (eapply moved_then; [apply (moved_discard c)|apply moved_observe]).
  assert (M2 : moves s s2) by (unfold s2; case_match; [eapply moved_then; [exact M1|apply moved_remove_unused]|exact M1]).
  assert (Eg1 : grants s1 = grants s0) by (unfold s1, observe; by case_match).
  assert (Eg2 : grants s2 = grants s1) by (unfold s2, remove_unused; by repeat case_match).
  destruct (tunnel (g_record g)); [|exact M2]. apply (moved_keep c g _ s (prune now s2) E); [|exact (eq_trans Eg2 Eg1)].
  eapply moved_then; [exact M2|apply moved_prune].
Qed.

Lemma moved_revoke c a now s : moves s (revoke observer c a now s).
Proof.
  unfold revoke. pose proof (moved_finalize c a now s) as M. destruct (finalize observer c a now s) as [[r|] s']; [|done]. eapply moved_then; [exact M|by apply moved_record].
Qed.
Lemma moved_update c g0 g s : IndexMap.get c (grants s) = Some g0 -> telemetry (g_record g) = telemetry (g_record g0) -> moves s (update_grant c g s).
Proof.
  intros E Et. apply IndexMap.get_In in E as Hin0. split; simpl; eauto.
  - intros c' g' Hin. apply IndexMap.elem_of_insert in Hin as [Hin|Hin]; [simplify_eq; by exists g0|by exists g'].
  - intros Ha c' Hc. apply Ha. apply elem_key in Hc as [g' Hc]. apply elem_key. apply IndexMap.elem_of_insert in Hc as [Hc|Hc]; [simplify_eq; by exists g0|by exists g'].
  - exists []. split; [by rewrite app_nil_r|]. intros e' He. by apply not_elem_of_nil in He.
  - intros [? ?]. split; [by apply IndexMap.wf_insert|done].
Qed.
Lemma moved_fold {A} (h : State -> A -> State) l s : (forall s a, moves s (h s a)) -> moves s (fold_left h l s).
Proof. intros Hf. revert s. induction l as [|a l IH]; intros s; [apply moved_refl|]. simpl. eapply moved_then; [apply Hf|apply IH]. Qed.
Lemma moved_drop w s : moves s (drop_preparation w s).
Proof. unfold drop_preparation. eapply moved_then; [|apply moved_remove_unused]. by apply moved_same. Qed.
Lemma moved_lifecycle k s : moves s (lifecycle k s).2.
Proof. unfold lifecycle. case_match; [apply moved_refl|]. apply moved_same; simpl; auto; lia. Qed.
Lemma moved_mutate sc s : moves s (mutate sc s).
Proof.
  destruct sc as [?|?|?|o k r]; try (unfold mutate; eapply moved_then; [|by apply moved_spawn]; by apply moved_same).
  unfold mutate. set (rk := key o k (Some r)). pose proof (moved_lifecycle rk s) as K. destruct (lifecycle rk s) as [l s1]. simpl in K. eapply moved_then; [exact K|].
  eapply moved_then; [|by apply moved_spawn]. apply moved_same; simpl; auto.
Qed.
Lemma moved_dropped sc h s : moves s (drop_fence sc h (leave_queue h s)).
Proof. unfold drop_fence, leave_queue, remove_unused. destruct sc, h as [[? ?]|]; simpl; repeat case_match; by apply moved_same. Qed.
Lemma moved_timer c now s : moves s (timer_fired observer c now s).
Proof.
  unfold timer_fired. destruct (IndexMap.get c (grants s)) as [g|] eqn:E; [|apply moved_refl]. case_match; [|apply moved_refl].
  eapply moved_then; [|by apply moved_spawn]. eapply moved_then; [|apply moved_revoke]. eapply moved_then; [by eapply (moved_update _ _ (set_timer None g))|by apply moved_same].
Qed.

(** ** Steps *)

Definition silent s (x : option Task * State) : Prop := moves s x.2 /\ forall w, x.1 <> Some (Preparing w).

Lemma silent_answer s s' e : moves s s' -> silent s (answer e s').
Proof. intros M. split; [|done]. eapply moved_then; [exact M|by apply moved_record]. Qed.
Lemma silent_refuse s s' e : moves s s' -> silent s (refuse e s').
Proof. intros M. split; [|done]. eapply moved_then; [exact M|by apply moved_record]. Qed.

Lemma silent_begin_renewal c id now s : silent s (begin_renewal observer c id now s).
Proof.
  unfold begin_renewal. destruct (IndexMap.get c (grants s)) as [g|] eqn:E; [|apply silent_answer, moved_refl].
  destruct (negb _); [apply silent_answer, moved_refl|]. destruct (g_renewal g); [split; [apply moved_refl|done]|].
  do 4 (case_match; [apply silent_answer, moved_refl|]). case_match; [apply silent_answer, moved_revoke|].
  split; [|done]. simpl. eapply moved_then; [|by apply moved_record]. by eapply moved_update.
Qed.

Lemma silent_renewed c id r candidate a now s : silent s (renewed observer automatic c id r candidate a now s).
Proof.
  assert (Kf : moves s (fail_closed observer c id r now s)) by (unfold fail_closed; case_match; [apply moved_revoke|by apply moved_record]).
  destruct a as [[]| |e]; simpl; [|by apply silent_answer..|].
  - apply silent_answer. destruct (same_grant c id s) as [g|] eqn:E; [|apply moved_refl]. apply DirectInv.same_grant_get in E. by eapply moved_update.
  - case_match; [by apply silent_answer|]. case_match; [|split; [by apply moved_record|done]].
    destruct (IndexMap.get c (grants s)) as [g|] eqn:E; [|apply silent_answer, moved_refl]. apply silent_answer. eapply moved_then; [|apply moved_observe]. by eapply moved_update.
Qed.

Lemma silent_run t a now s : (forall w, t <> Preparing w) -> silent s (run observer automatic t a now s).
Proof.
  intros Hi. destruct t; try done; simpl.
  - by destruct (Hi w).
  - apply silent_refuse, moved_drop.
  - unfold take_queue. repeat case_match; (split; [by apply moved_same|done]).
  - split; [apply moved_refl|done].
  - unfold await_release. case_match; (split; [by apply moved_same|done]).
  - destruct capabilities; (split; [|done]); [apply moved_refl|apply moved_revoke].
  - unfold conclude. destruct x as [sc|]; [split; [|done]; simpl; eapply moved_then; [apply (moved_dropped sc h)|by apply moved_record]|].
    case_match; (split; [|done]); [|apply moved_refl]. simpl. eapply moved_then; [apply (moved_finalized [])|by apply moved_same].
    + intros x Hx. by apply not_elem_of_nil in Hx.
    + intros _. apply NoDup_nil_2.
  - apply silent_begin_renewal.
  - apply silent_renewed.
  - apply silent_answer. case_match; [apply moved_finalize|apply moved_refl].
  - destruct capabilities; (split; [|done]); [apply moved_refl|apply moved_revoke].
  - split; [by apply moved_same|done].
  - split; [by apply moved_same|done].
Qed.

Lemma exact_silent s i x : exact s -> silent s x -> exact (set_tasks (upd i x.1 (tasks x.2)) x.2).
Proof.
  intros X [M Hn]. eapply exact_moves; [exact X|]. destruct M as [Hg Hfi Ha Hl Ht Hf Hu]. split; simpl; try done.
  intros j w E. apply upd_Some in E as [[_ E]|[_ E]]; [by destruct (Hn w)|by apply Ht].
Qed.

(** A capability is new. *)
Lemma exact_preparing s w n : exact s -> w_capability w = uuid (fresh s) -> (fresh s < n)%nat -> exact (spawn (Preparing w) (set_fresh n s)).
Proof.
  intros [Xg Xf Xa Xl Xp Xo Xu] Ew Hn. assert (Hnew : ~ named s (w_capability w)).
  { intros (m & Hm & E). rewrite Ew in E. apply (inj uuid) in E. lia. }
  assert (Hname : forall c, named s c -> named (spawn (Preparing w) (set_fresh n s)) c) by (intros c; apply named_fresh; simpl; lia).
  split; simpl; try done.
  - intros c g Hin. destruct (Xg _ _ Hin). split; auto.
  - intros c f Hin. destruct (Xf _ _ Hin). split; auto.
  - intros c d Hin. destruct (Xl _ _ Hin). split; auto.
  - intros j w' E. apply lookup_insert_Some in E as [[_ [= <-]]|[_ E]]; [|destruct (Xp _ _ E) as (H1 & H2); split; auto]. split_and!.
    + exists (fresh s). split; [simpl; lia|done].
    + intros [g Hin]%elem_key. by destruct Hnew; apply (Xg _ _ Hin).
    + intros [f Hin]%elem_key. by destruct Hnew; apply (Xf _ _ Hin).
    + intros e He Ec. destruct e; simpl in Ec; try done. injection Ec as ->. by destruct Hnew; apply (Xl _ _ He).
  - intros j j' w1 w2 E1 E2 Ec. apply lookup_insert_Some in E1 as [[<- [= <-]]|[Hne1 E1]]; apply lookup_insert_Some in E2 as [[<- [= <-]]|[Hne2 E2]]; [done| | |by eapply Xo].
    + destruct Hnew. rewrite Ec. apply (Xp _ _ E2).
    + destruct Hnew. rewrite <- Ec. apply (Xp _ _ E1).
Qed.

Lemma exact_prepare lease i connected started now s : exact s -> exact (prepare uuid accepts_ticket lease i connected started now s).
Proof.
  intros X. unfold prepare. case_match; [eapply exact_moves; [exact X|by apply moved_record]|]. set (k := resource_key _ _).
  pose proof (moved_lifecycle k s) as M. destruct (lifecycle k s) as [l s1]. simpl in M. case_match; [eapply exact_moves; [exact X|]; eapply moved_then; [exact M|by apply moved_record]|].
  set (p := MkPending _ _ _). set (s2 := set_fresh _ _). set (w := MkPreparation _ _ _ _ _ _ _ _ _ _ _). cbv zeta.
  assert (M2 : moves s s2) by (eapply moved_then; [exact M|]; apply moved_same; simpl; auto).
  assert (Hf : forall why, exact (record (Refused why) (drop_preparation w s2))).
  { intros why. eapply exact_moves; [exact X|]. eapply moved_then; [exact M2|]. eapply moved_then; [apply (moved_drop w)|by apply moved_record]. }
  repeat (case_match; [apply Hf|]). set (s3 := tell _ _ _).
  change s3 with (set_fresh (S (S (fresh s2))) (record (Told (i_worker i) (DPrepare (w_capability w))) s2)).
  apply (exact_preparing (record (Told (i_worker i) (DPrepare (w_capability w))) s2)); [|done|simpl; lia]. eapply exact_moves; [exact X|]. eapply moved_then; [exact M2|by apply moved_record].
Qed.

(** The grant of a new capability has used nothing. *)
Lemma exact_granted s i w g next : exact s -> tasks s !! i = Some (Preparing w) -> (forall x, read x (telemetry (g_record g)) = 0) -> (forall w, next <> Some (Preparing w)) ->
  exact (set_tasks (upd i next (tasks s)) (set_fresh (S (fresh s)) (set_grants (IndexMap.insert (w_capability w) g (grants s)) s))).
Proof.
  intros [Xg Xf Xa Xl Xp Xo Xu] E Hz Hn. destruct (Xp _ _ E) as (Hname & Hg & Hf & Hl). set (s' := set_tasks _ _).
  assert (Hm : forall c, named s c -> named s' c) by (intros c; apply named_fresh; simpl; lia). assert (Hpick : forall j w', tasks s' !! j = Some (Preparing w') -> i <> j /\ tasks s !! j = Some (Preparing w')).
  { intros j w' Ej. apply upd_Some in Ej as [[_ Ej]|Ej]; [by destruct (Hn w')|done]. }
  split; simpl.
  - intros c g' Hin. apply IndexMap.elem_of_insert in Hin as [Hin|Hin]; [|destruct (Xg _ _ Hin); split; auto]. injection Hin as -> ->. split; [auto|].
    intros x. simpl. by rewrite Hz, (used_none x _ _ Hl).
  - intros c f Hin. destruct (Xf _ _ Hin). split; auto.
  - intros c Hc. simpl. apply elem_key in Hc as [g' Hc]. apply IndexMap.elem_of_insert in Hc as [Hc|Hc]; [by simplify_eq|]. apply Xa, elem_key. by exists g'.
  - intros c d Hin. destruct (Xl _ _ Hin). split; auto.
  - intros j w' Ej. apply Hpick in Ej as [Hne Ej]. destruct (Xp _ _ Ej) as (H1 & H2 & H3 & H4). split_and!; auto. intros [g' Hin]%elem_key.
    apply IndexMap.elem_of_insert in Hin as [Hin|Hin]; [|apply H2, elem_key; by exists g']. injection Hin as Ec _. by destruct Hne; eapply Xo.
  - intros j j' w1 w2 E1 E2. apply Hpick in E1 as [_ E1]. apply Hpick in E2 as [_ E2]. by eapply Xo.
  - destruct Xu. split; [by apply IndexMap.wf_insert|done].
Qed.

Lemma exact_prepared s i w c jitter now : exact s -> tasks s !! i = Some (Preparing w) ->
  let x := prepared observer automatic w c jitter now s in exact (set_tasks (upd i x.1 (tasks x.2)) x.2).
Proof.
  intros X E. cbv zeta. unfold prepared. destruct c as [c|]; [|apply (exact_silent s), silent_refuse, moved_drop; done]. destruct (negb _); [apply (exact_silent s), silent_refuse, moved_drop; done|].
  destruct jitter as [jitter|]; [|apply (exact_silent s), silent_refuse, moved_drop; done]. cbv zeta. set (g := MkGrant _ _ _ _ _ _). set (s1 := set_fresh _ _).
  set (b := lease_matches _ _ _ && _).
  set (y := if b then _ else _). assert (M : moves s1 y.2 /\ forall w, y.1 <> Some (Preparing w)).
  { unfold y. destruct b; (split; [|done]); [|apply moved_revoke]. simpl. eapply moved_then; [apply (moved_drop w)|by apply moved_record]. }
  destruct M as [M Hn]. pose proof (exact_granted s i w g y.1 X E) as X1. specialize (X1 ltac:(by intros []) Hn).
  eapply exact_moves; [exact X1|]. destruct M as [Mg Mf Ma Ml Mt Mfr Mu]. split; simpl; try done.
  intros j w' Ej. apply upd_Some in Ej as [[<- Ej]|[Hne Ej]]; [by destruct (Hn w')|]. rewrite upd_at, decide_False by done. by apply (Mt j w').
Qed.

(** ** Reports *)

Lemma used_counted x c c' d l : used x c (l ++ [Counted c' d]) = used x c l + (if decide (c = c') then read x d else 0).
Proof. rewrite used_app. simpl. lia. Qed.

(** A report for a capability that the tables have, and its new record. *)
Lemma exact_report s s' c d v v' : exact s -> accounted s c v -> (c ∈ (grants s).*1 \/ c ∈ (finalized s).*1) -> (forall x, read x v' = read x v + read x d) -> (forall x, 0 <= read x d) ->
  log s' = log s ++ [Counted c d] -> tasks s' = tasks s -> fresh s' = fresh s -> (grants s').*1 = (grants s).*1 -> (finalized s').*1 = (finalized s).*1 ->
  (forall c' g, (c', g) ∈ grants s' -> c' <> c /\ (c', g) ∈ grants s \/ c' = c /\ telemetry (g_record g) = v') ->
  (forall c' f, (c', f) ∈ finalized s' -> c' <> c /\ (c', f) ∈ finalized s \/ c' = c /\ telemetry (f_record f) = v') -> exact s'.
Proof.
  intros [Xg Xf Xa Xl Xp Xo Xu] [Hc Hv] Hin0 Hv' Hd El Et Ef Eg Efi Hg Hf.
  assert (Hm : forall c, named s c -> named s' c) by (intros c0; apply named_fresh; lia).
  assert (Hold : forall c' v0, c' <> c -> accounted s c' v0 -> accounted s' c' v0).
  { intros c' v0 Hne [Hn Hv0]. split; [auto|]. intros x. rewrite El, used_counted, decide_False, Hv0 by done. lia. }
  assert (Hnew : accounted s' c v') by (split; [auto|]; intros x; rewrite El, used_counted, decide_True, Hv, Hv' by done; lia).
  split.
  - intros c' g Hin. destruct (Hg _ _ Hin) as [[Hne Hin']|[-> ->]]; auto.
  - intros c' f Hin. destruct (Hf _ _ Hin) as [[Hne Hin']|[-> ->]]; auto.
  - unfold apart. by rewrite Eg, Efi.
  - intros c' d' Hin. rewrite El in Hin. apply elem_of_app in Hin as [Hin|Hin]; [destruct (Xl _ _ Hin); auto|]. apply list_elem_of_singleton in Hin. injection Hin as -> ->. auto.
  - rewrite Et, Eg, Efi. intros j w E. destruct (Xp _ _ E) as (H1 & H2 & H3 & H4). split_and!; auto. intros e He. rewrite El in He.
    apply elem_of_app in He as [He| ->%list_elem_of_singleton]; [auto|]. simpl. intros [= ->]. by destruct Hin0.
  - rewrite Et. done.
  - by rewrite Eg, Efi.
Qed.

Lemma insert_pick {V} (m : list (units * V)) c v c' v' : NoDup m.*1 -> (c', v') ∈ IndexMap.insert c v m -> c' <> c /\ (c', v') ∈ m \/ c' = c /\ v' = v.
Proof.
  intros Hn Hin. apply IndexMap.In_get in Hin; [|by apply IndexMap.wf_insert]. rewrite IndexMap.get_insert in Hin. case_decide as E; [right; by simplify_eq|left].
  split; [congruence|by apply IndexMap.get_In].
Qed.

Lemma delta_merge x v u : 0 <= read x (delta v (merge v u)) /\ read x (merge v u) = read x v + read x (delta v (merge v u)).
Proof. rewrite delta_read, merge_read. lia. Qed.

Lemma exact_telemetry c a u now s : exact s -> exact (record_telemetry c a u now s).2.
Proof.
  intros X. unfold record_telemetry. destruct (IndexMap.get c (grants s)) as [g|] eqn:E; [|done]. case_match; [|done]. simpl. apply IndexMap.get_In in E as Hin.
  pose proof (x_unique _ X) as [Ug Uf]. set (v' := merge _ _). set (g' := set_record _ _).
  apply (exact_report s _ c (delta (telemetry (g_record g)) v') (telemetry (g_record g)) v' X); try done.
  - by apply (x_grants _ X).
  - left. apply elem_key. by exists g.
  - intros x. apply delta_merge.
  - intros x. apply delta_merge.
  - simpl. by eapply IndexMap.keys_insert_present.
  - intros c' g1 Hin1. destruct (insert_pick (grants s) _ _ _ _ Ug Hin1) as [?|[-> ->]]; [by left|right; by split].
  - intros c' f Hin1. left. split; [|done]. intros ->. destruct (x_apart _ X c); apply elem_key; eauto.
Qed.

Lemma exact_final_telemetry c a u now s : exact s -> exact (record_final_telemetry c a u now s).2.
Proof.
  intros X0. unfold record_final_telemetry. assert (X : exact (prune now s)) by (eapply exact_moves; [exact X0|apply moved_prune]). clear X0. set (s1 := prune now s) in *. clearbody s1. clear s. cbv zeta.
  destruct (IndexMap.get c (finalized s1)) as [f|] eqn:E; [|done]. case_match; [|done]. apply IndexMap.get_In in E as Hin. pose proof (x_unique _ X) as [Ug Uf].
  assert (Hkey : c ∈ (finalized s1).*1) by (apply elem_key; by exists f). assert (Hgrants : forall c' g, (c', g) ∈ grants s1 -> c' <> c).
  { intros c' g Hin1 ->. apply (x_apart _ X c); [apply elem_key; eauto|done]. }
  destruct (f_accepted f); simpl.
  - apply (exact_report s1 _ c (delta (telemetry (f_record f)) (telemetry (f_record f))) (telemetry (f_record f)) (telemetry (f_record f)) X); try done.
    + by apply (x_finalized _ X).
    + by right.
    + intros x. rewrite delta_read. lia.
    + intros x. rewrite delta_read. lia.
    + intros c' g Hin1. left. eauto.
    + intros c' f' Hin1. destruct (decide (c' = c)) as [->|Hne]; [right|by left]. apply IndexMap.In_get in Hin1; [|done]. simpl in Hin1. split; [done|]. by simplify_eq.
  - set (v' := merge _ _). apply (exact_report s1 _ c (delta (telemetry (f_record f)) v') (telemetry (f_record f)) v' X); try done.
    + by apply (x_finalized _ X).
    + by right.
    + intros x. apply delta_merge.
    + intros x. apply delta_merge.
    + simpl. by eapply IndexMap.keys_insert_present.
    + intros c' g Hin1. left. eauto.
    + intros c' f' Hin1. destruct (insert_pick (finalized s1) _ _ _ _ Uf Hin1) as [?|[-> ->]]; [by left|right; by split].
Qed.

(** ** Every operation *)

Lemma moved_exec o s :
  match o with OTask _ _ _ | OPrepare _ _ _ _ _ | OTelemetry _ _ _ _ | OFinalTelemetry _ _ _ _ => True | _ => moves s (exec uuid observer automatic accepts_ticket o s) end.
Proof.
  destruct o; simpl; try done.
  - unfold acquire_preparation. case_match; [by apply moved_record|]. eapply moved_then; [|by apply moved_record]. apply moved_same; simpl; auto.
  - unfold bind_preparation. repeat case_match; by apply moved_same.
  - by apply moved_same.
  - apply moved_mutate.
  - apply moved_revoke.
  - apply moved_fold. intros. apply moved_finalize.
  - apply moved_timer.
  - by apply moved_spawn.
  - unfold renew. destruct (IndexMap.get capability (grants s)) as [g|]; [|by apply moved_record]. destruct (authorized (g_record g) a false); [by apply moved_spawn|by apply moved_record].
  - unfold activate. destruct (IndexMap.get capability (grants s)) as [g|] eqn:E; [|apply moved_refl]. case_match; [|apply moved_refl]. eapply moved_update; [done|]. by destruct completed.
  - unfold close. case_match; [apply moved_refl|]. eapply moved_then; [|by apply moved_spawn]. by apply moved_same.
Qed.

Lemma exact_step o s : exact s -> exact (exec uuid observer automatic accepts_ticket o s).
Proof.
  intros X. pose proof (moved_exec o s) as M. destruct o; try (by eapply exact_moves); [by apply exact_prepare|by apply exact_telemetry|by apply exact_final_telemetry|]. clear M. simpl.
  destruct (tasks s !! i) as [t|] eqn:E; [|done].
  enough (R : exact (set_tasks (upd i (run observer automatic t a now s).1 (tasks (run observer automatic t a now s).2)) (run observer automatic t a now s).2)) by (by destruct (run observer automatic t a now s)).
  destruct t as [w| | | | | | | | | | | |]; try (apply (exact_silent s); [done|by apply silent_run]).
  destruct a as [|c jitter|]; [exact (exact_prepared s i w None None now X E)|exact (exact_prepared s i w c jitter now X E)|exact (exact_prepared s i w None None now X E)].
Qed.

Lemma exact_new : exact new.
Proof. split; simpl; try done; try (intros ? ? Hin; by apply not_elem_of_nil in Hin). split; apply NoDup_nil_2. Qed.

Lemma reach_exact shared s : reach uuid observer automatic accepts_ticket shared s -> exact s.
Proof. induction 1; [apply exact_new|by apply exact_step]. Qed.

(** C13: The traffic of a capability is accounted for exactly once: the deltas
    its reports gave callers are never negative and add up, counter by counter,
    to the totals of its record, in use or finalized, however late and repeated
    the reports are. *)
Theorem usage_exact shared s x : reach uuid observer automatic accepts_ticket shared s ->
  (forall c g, IndexMap.get c (grants s) = Some g -> used x c (log s) = read x (telemetry (g_record g))) /\
  (forall c f, IndexMap.get c (finalized s) = Some f -> used x c (log s) = read x (telemetry (f_record f))) /\
  (forall c d, Counted c d ∈ log s -> 0 <= read x d).
Proof.
  intros R. destruct (reach_exact _ _ R) as [Xg Xf _ Xl _ _ _]. split_and!.
  - intros c g E. by apply Xg, IndexMap.get_In.
  - intros c f E. by apply Xf, IndexMap.get_In.
  - intros c d Hin. by apply Xl in Hin as [_ Hd].
Qed.
End usage.
End DirectUsage.
