(* ===== verification/DirectSafety.v ===== *)
(** * Changes to what direct capabilities are for

    [DirectSafety] states what [mutate] promises the callers that change an
    owner, a session, an attachment or a resource: while the change runs nothing
    in its scope is in use, and once the work in its scope is released the change
    runs. Its sample runs are the witnesses of the theorems about [Direct]. *)
From S2P Require Import Prelude JsString Direct DirectInv DirectLeases DirectUsage.
From stdpp Require Import base numbers strings gmap option list fin_maps.
Open Scope Z_scope.

Module DirectSafety.
Import Text JsString Direct DirectInv DirectUsage.

Section safety.
Context (uuid : nat -> units) (observer automatic : bool) (accepts_ticket : PrepareInput -> Z -> bool).
Context {uuid_inj : Inj (=) (=) uuid}.
Implicit Types (s : State) (t : Task).

(** C11: While a change runs, no lease, preparation or capability in its scope is
    in the tables, whatever it raced with, and everything in its scope is
    refused; changes of one resource run one after the other. For the scope of
    an attachment this takes callers that prepare a shared attachment under a
    lease that names it, and a name the coordinator did not generate. *)
Theorem change_exclusive shared s j x h : reach uuid observer automatic accepts_ticket shared s -> tasks s !! j = Some (Mutating x h) -> guarded uuid shared x ->
  (forall id l, IndexMap.get id (leases s) = Some l -> region_matches x (l_input l) (l_resource l) true = false) /\
  (forall id p, IndexMap.get id (preparations s) = Some p -> region_matches x (p_subject p) (Some (p_resource p)) false = false) /\
  (forall c g, IndexMap.get c (grants s) = Some g -> region_matches x (r_subject (g_record g)) (Some (r_resource (g_record g))) false = false) /\
  (forall u r, region_matches x u r true = true -> fenced s u r = true) /\
  (forall j' x' k id id', h = Some (k, id) -> tasks s !! j' = Some (Mutating x' (Some (k, id'))) -> j' = j).
Proof.
  intros R E Hg. pose proof (coordinator_wf uuid observer automatic accepts_ticket shared s R) as W. destruct (wf_barrier _ _ _ W _ _ E Hg) as (Bl & Bp & Bg). split_and!.
  - intros id l El. apply not_true_is_false. exact (Bl _ _ (IndexMap.get_In _ _ _ El)).
  - intros id p Ep. apply not_true_is_false. exact (Bp _ _ (IndexMap.get_In _ _ _ Ep)).
  - intros c g Eg. apply not_true_is_false. exact (Bg _ _ (IndexMap.get_In _ _ _ Eg)).
  - intros u r Hm. eapply (covered_fenced uuid shared s j _ x u r true); [apply (wf_fenced _ _ _ W)|exact E|done|done|by left|done].
  - intros j' x' k id id' -> E'. by eapply (q_past _ (wf_queues _ _ _ W)).
Qed.

(** ** Changes run *)

Definition drive (i n : nat) (now : Z) s : State := Nat.iter n (exec uuid observer automatic accepts_ticket (OTask i Nothing now)) s.

Lemma drive_S i n now s : drive i (S n) now s = drive i n now (exec uuid observer automatic accepts_ticket (OTask i Nothing now) s).
Proof. unfold drive. induction n as [|n IH]; [done|]. simpl in *. by rewrite IH. Qed.

Lemma reach_task shared s i a now : reach uuid observer automatic accepts_ticket shared s -> reach uuid observer automatic accepts_ticket shared (exec uuid observer automatic accepts_ticket (OTask i a now) s).
Proof. intros R. by apply reach_step. Qed.

Lemma exec_task s i t a now : tasks s !! i = Some t -> let x := run observer automatic t a now s in exec uuid observer automatic accepts_ticket (OTask i a now) s = retask i x.1 x.2.
Proof. intros E. simpl. rewrite E. by destruct (run observer automatic t a now s) as [[] ?]. Qed.

Lemma exec_next s i t a now : tasks s !! i = Some t -> tasks (exec uuid observer automatic accepts_ticket (OTask i a now) s) !! i = (run observer automatic t a now s).1.
Proof. intros E. rewrite (exec_task s i t a now E). simpl. by rewrite upd_at, decide_True. Qed.

Lemma drive_mutating s i sc h now : tasks s !! i = Some (Mutating (Of sc) h) ->
  tasks (drive i 1 now s) !! i = None /\ Mutated (Of sc) ∈ log (drive i 1 now s).
Proof.
  intros E. split; [exact (exec_next s i _ Nothing now E)|]. change (drive i 1 now s) with (exec uuid observer automatic accepts_ticket (OTask i Nothing now) s). rewrite (exec_task s i _ Nothing now E). simpl. apply elem_of_app. right. by left.
Qed.

Lemma drive_revoking cs : forall s i sc h now, tasks s !! i = Some (Revoking (Of sc) h cs) ->
  tasks (drive i (length cs + 2) now s) !! i = None /\ Mutated (Of sc) ∈ log (drive i (length cs + 2) now s).
Proof.
  induction cs as [|c cs IH]; intros s i sc h now E; simpl Nat.add; rewrite drive_S; pose proof (exec_next s i _ Nothing now E) as E1; simpl in E1.
  - by apply (drive_mutating _ i sc h).
  - by apply (IH _ i sc h).
Qed.

(** A change comes to run once what it found in its scope is released: it
    revokes the capabilities of its scope one after the other and then runs,
    whatever is the answer of their workers. *)
Theorem change_completes s i sc h ls ps now : tasks s !! i = Some (Waiting (Of sc) h ls ps) ->
  forallb (fun id => negb (IndexMap.contains_key id (leases s))) ls = true -> forallb (fun id => negb (IndexMap.contains_key id (preparations s))) ps = true ->
  let s' := drive i (length (matching_grants (Of sc) s) + 3) now s in tasks s' !! i = None /\ Mutated (Of sc) ∈ log s'.
Proof.
  intros E Hl Hp. cbv zeta. replace (length (matching_grants (Of sc) s) + 3)%nat with (S (length (matching_grants (Of sc) s) + 2)) by lia. rewrite drive_S.
  apply (drive_revoking _ _ i sc h). rewrite (exec_next s i _ Nothing now E). simpl. unfold await_release. by rewrite Hl, Hp.
Qed.

(** ** Runs *)

Fixpoint obeys (shared : units -> Prop) (ops : list Op) s : Prop :=
  match ops with [] => True | o :: ops => prepares_leased shared o s /\ obeys shared ops (exec uuid observer automatic accepts_ticket o s) end.
Definition play (ops : list Op) s : State := fold_left (fun s o => exec uuid observer automatic accepts_ticket o s) ops s.

Lemma reach_play shared ops s : reach uuid observer automatic accepts_ticket shared s -> obeys shared ops s -> reach uuid observer automatic accepts_ticket shared (play ops s).
Proof.
  revert s. induction ops as [|o ops IH]; intros s R Ho; [done|]. destruct Ho as [Hs Ho]. apply IH; [by apply reach_step|done].
Qed.
End safety.

Module Sample.
Definition uuid (n : nat) : units := [Z.of_nat n].
#[global] Instance uuid_inj : Inj (=) (=) uuid.
Proof. intros n m [= E]. lia. Qed.
(** The attachment of the tunnel. *)
Definition shared (a : units) : Prop := a = lit "att".
Definition accepts (i : PrepareInput) (e : Z) : bool := true.

Definition att : units := lit "att".
Definition ada : Subject := MkSubject (lit "ada") (lit "s1") (Name att) (lit "tunnel").
Definition input (u : Subject) : PrepareInput := MkPrepareInput u (lit "t1") (lit "w1") true true true None None true [lit "tcp"].
Definition auth : Authorization := MkAuthorization (lit "ada") (lit "s1") (Name att).
Definition report (n : Z) : Traffic := MkTraffic n (n + 1) 0 1 None.

(** A capability is prepared, used, and its attachment revoked. *)
Definition issue : list Op := [OAcquire ada (Some (lit "t1")); OPrepare 0 (input ada) true (-3) 0; OTask 6 (PreparedAs (Some (uuid 4)) (Some 7)) 1].
Definition use : list Op := [OActivate (uuid 4) auth true 2; OTelemetry (uuid 4) auth (report 10) 3; OTelemetry (uuid 4) auth (report 25) 4; OTelemetry (uuid 4) auth (report 5) 5].
Definition revoke_attachment : list Op := [OMutate (Attachment att); OTask 8 Nothing 6; ORelease 0].
Definition finish : list Op := [OTask 8 Nothing 7; OTask 8 Nothing 7; OTask 8 Nothing 7].

Definition issued : State := play uuid true true accepts (issue ++ use) new.
Definition waiting : State := play uuid true true accepts (issue ++ use ++ revoke_attachment) new.
Definition changing : State := play uuid true true accepts (issue ++ use ++ revoke_attachment ++ finish) new.

Lemma leased : IndexMap.get 0%nat (leases (exec uuid true true accepts (OAcquire ada (Some (lit "t1"))) new)) = Some (MkLease ada (Some (lit "t1"))).
Proof. by vm_compute. Qed.
Lemma issue_obeys ops : (forall s, obeys uuid true true accepts shared ops s) -> obeys uuid true true accepts shared (issue ++ ops) new.
Proof.
  intros Ho. cbn [issue app obeys]. split; [exact I|]. split; [intros l a E Ea _|split; [exact I|apply Ho]]. rewrite leased in E. by injection E as <-.
Qed.
Lemma idle_obeys ops s : forallb (fun o => match o with OPrepare _ _ _ _ _ => false | _ => true end) ops = true -> obeys uuid true true accepts shared ops s.
Proof. revert s. induction ops as [|o ops IH]; intros s Ho; [exact I|]. simpl in Ho. apply andb_true_iff in Ho as [Ho Hs]. split; [by destruct o|by apply IH]. Qed.
Lemma reach_issued : reach uuid true true accepts shared issued.
Proof. exact (reach_play uuid true true accepts shared (issue ++ use) new (reach_new _ _ _ _ _) (issue_obeys use (fun s => idle_obeys use s eq_refl))). Qed.
Lemma reach_changing : reach uuid true true accepts shared changing.
Proof.
  exact (reach_play uuid true true accepts shared (issue ++ use ++ revoke_attachment ++ finish) new (reach_new _ _ _ _ _)
    (issue_obeys (use ++ revoke_attachment ++ finish) (fun s => idle_obeys (use ++ revoke_attachment ++ finish) s eq_refl))).
Qed.

Lemma issued_grant : exists g, IndexMap.get (uuid 4) (grants issued) = Some g /\ used BytesToLocal (uuid 4) (log issued) = 26.
Proof. vm_compute. by eexists. Qed.
Lemma waiting_task : tasks waiting !! 8%nat = Some (Waiting (Of (Attachment att)) None [0%nat] []).
Proof. by vm_compute. Qed.
Lemma changing_task : tasks changing !! 8%nat = Some (Mutating (Of (Attachment att)) None).
Proof. by vm_compute. Qed.
Lemma att_guarded : guarded uuid shared (Of (Attachment att)).
Proof. by split. Qed.

Lemma change_exclusive_witness : fenced changing ada (Some (lit "t1")) = true /\ forall c g, IndexMap.get c (grants changing) = Some g -> attachment (r_subject (g_record g)) <> Name att.
Proof.
  destruct (change_exclusive uuid true true accepts shared changing 8 _ _ reach_changing changing_task att_guarded) as (_ & _ & Hg & Hf & _). split; [by apply Hf|].
  intros c g E Ha. apply (Hg c g) in E. clear - E Ha. simpl in E. rewrite Ha, bool_decide_eq_true_2 in E; [discriminate|reflexivity].
Defined.

Lemma change_completes_witness : exists n, tasks (drive uuid true true accepts 8 n 7 waiting) !! 8%nat = None /\ Mutated (Of (Attachment att)) ∈ log (drive uuid true true accepts 8 n 7 waiting).
Proof. eexists. apply (change_completes uuid true true accepts waiting 8 (Attachment att) None [0%nat] [] 7 waiting_task); by vm_compute. Defined.

Lemma capabilities_expire_witness : IndexMap.get (uuid 4) (grants (timer_fired true (uuid 4) 60000 issued)) = None.
Proof. destruct issued_grant as (g & E & _). by destruct (DirectLeases.capabilities_expire uuid true true accepts shared issued (uuid 4) g 60000 reach_issued E) as (_ & _ & [_ Hn]). Defined.

Lemma usage_exact_witness : exists g, IndexMap.get (uuid 4) (grants issued) = Some g /\ to_local (telemetry (g_record g)) = 26.
Proof.
  destruct issued_grant as (g & E & Eu). exists g. split; [done|]. destruct (DirectUsage.usage_exact uuid true true accepts shared issued BytesToLocal reach_issued) as [Hg _].
  specialize (Hg _ _ E). rewrite Eu in Hg. by symmetry.
Defined.

(** *** A lease without an attachment *)

Definition anyone : Subject := MkSubject (lit "ada") (lit "s1") Absent (lit "tunnel").
Definition escape : list Op := [OAcquire anyone (Some (lit "t1")); OMutate (Attachment att); OTask 1 Nothing 1; OTask 1 Nothing 1; OTask 1 Nothing 1;
  OPrepare 0 (input ada) true 2 2; OTask 7 (PreparedAs (Some (uuid 5)) (Some 7)) 3].
Definition escaped : State := play uuid true true accepts escape new.

Lemma lax_obeys ops s : obeys uuid true true accepts (fun _ => False) ops s.
Proof. revert s. induction ops as [|o ops IH]; intros s; [exact I|]. split; [destruct o; try exact I; intros l a _ _ []|apply IH]. Qed.

(** The fence of an attachment is checked against the lease: a lease that names
    none prepares any attachment, also one that is being revoked, and the
    capability outlives the revocation. *)
Theorem unnamed_lease_escapes : reach uuid true true accepts (fun _ => False) escaped /\ tasks escaped !! 1%nat = Some (Mutating (Of (Attachment att)) None) /\
  Ticket (uuid 5) ∈ log escaped /\ exists g, IndexMap.get (uuid 5) (grants escaped) = Some g /\ attachment (r_subject (g_record g)) = Name att.
Proof.
  split_and!; [apply reach_play; [constructor|apply lax_obeys]|by vm_compute| |vm_compute; by eexists].
  assert (E : exists l, log escaped = l ++ [Ticket (uuid 5)]) by (vm_compute; by exists [Leased 0; Told (lit "w1") (DPrepare (uuid 5))]). destruct E as [l ->]. apply elem_of_app. right. by left.
Qed.
End Sample.
End DirectSafety.
