(* ===== verification/EnvFile.v ===== *)
(** * Environment files

    [EnvFile] models src/cantrip_server_rs/src/env_file.rs: the reader of .env
    files in the syntax of Node and the application of what it read to an
    environment. Text is a list of UTF-8 bytes; every character the reader looks
    for is one byte. [BTreeMap] is an association list sorted by the bytes of its
    keys. Proved: the reader ends, values written between quotes are read back,
    and variables that are set are never overridden. *)
From S2P Require Import Prelude.
From stdpp Require Import base numbers strings gmap option list sorting.
Open Scope Z_scope.

Module EnvFile.

Definition bytes : Type := list Z.

(** ** Text *)

Definition NL : Z := 10.
Definition HASH : Z := 35.
Definition EQUALS : Z := 61.
Definition DOUBLE : Z := 34.
Definition SINGLE : Z := 39.
Definition BACKTICK : Z := 96.
Definition EXPORT : bytes := [101; 120; 112; 111; 114; 116; 32].

Definition blank (c : Z) : bool := (c =? 32) || (c =? 9) || (c =? 10).
Fixpoint trim_start (s : bytes) : bytes := match s with c :: s' => if blank c then trim_start s' else s | [] => [] end.
Fixpoint trim_end (s : bytes) : bytes :=
  match s with [] => [] | c :: s => match trim_end s with [] => if blank c then [] else [c] | s => c :: s end end.
Definition trim (s : bytes) : bytes := trim_end (trim_start s).

(** [str::split_once] at one byte. *)
Fixpoint split_once (c : Z) (s : bytes) : option (bytes * bytes) :=
  match s with
  | [] => None
  | d :: s => if d =? c then Some ([], s) else '(a, b) ← split_once c s; Some (d :: a, b)
  end.
(** What follows the next line feed. *)
Definition next_line (s : bytes) : bytes := match split_once NL s with Some (_, rest) => rest | None => [] end.

(** The first of two bytes, with what is before and after it. *)
Fixpoint find_either (c d : Z) (s : bytes) : option (bytes * Z * bytes) :=
  match s with
  | [] => None
  | x :: s => if (x =? c) || (x =? d) then Some ([], x, s) else '(a, y, b) ← find_either c d s; Some (x :: a, y, b)
  end.

(** [str::replace] of backslash and n by a line feed. *)
Fixpoint unescape (s : bytes) : bytes :=
  match s with
  | 92 :: 110 :: s => NL :: unescape s
  | c :: s => c :: unescape s
  | [] => []
  end.
Fixpoint strip_prefix (p s : bytes) : option bytes :=
  match p, s with
  | [], _ => Some s
  | c :: p, d :: s => if c =? d then strip_prefix p s else None
  | _, [] => None
  end.

(** ** Sorted maps *)

Fixpoint compare_bytes (a b : bytes) : comparison :=
  match a, b with
  | [], [] => Eq
  | [], _ => Lt
  | _, [] => Gt
  | x :: a, y :: b => match x ?= y with Eq => compare_bytes a b | o => o end
  end.
Fixpoint insert (k v : bytes) (m : list (bytes * bytes)) : list (bytes * bytes) :=
  match m with
  | [] => [(k, v)]
  | (k', v') :: m' => match compare_bytes k k' with Lt => (k, v) :: m | Eq => (k', v) :: m' | Gt => (k', v') :: insert k v m' end
  end.
Definition lookup (k : bytes) (m : list (bytes * bytes)) : option bytes := IndexMap.get k m.

(** ** The reader *)

Definition is_quote (c : Z) : bool := (c =? SINGLE) || (c =? DOUBLE) || (c =? BACKTICK).

(** A round of the loop: what is left and the values, and whether it goes on. *)
Definition entry (content : bytes) (values : list (bytes * bytes)) : bool * bytes * list (bytes * bytes) :=
  match content with
  | [] => (false, [], values)
  | c :: _ =>
      if (c =? NL) || (c =? HASH) then (true, next_line content, values)
      else
        match find_either EQUALS NL content with
        | None => (false, content, values)
        | Some (before, x, after) =>
            if x =? NL then (true, trim after, values)
            else
              let key := trim before in
              if match after with [] => true | c :: _ => c =? NL end then (true, after, insert key [] values)
              else
                let content := trim after in
                if match key with [] => true | _ => false end then (true, content, values)
                else
                  let key := match strip_prefix EXPORT key with Some exported => trim exported | None => key end in
                  match content with
                  | [] => (false, [], insert key [] values)
                  | quote :: tail =>
                      if is_quote quote then
                        match split_once quote tail with
                        | Some (raw, rest) => (true, next_line rest, insert key (if quote =? DOUBLE then unescape raw else raw) values)
                        | None =>
                            let '(value, rest) := default (content, []) (split_once NL content) in
                            (true, trim rest, insert key value values)
                        end
                      else
                        let '(value, rest) := default (content, []) (split_once NL content) in
                        let value := match split_once HASH value with Some (value, _) => value | None => value end in
                        (true, trim rest, insert key (trim value) values)
                  end
        end
  end.

Fixpoint parse_loop (fuel : nat) (content : bytes) (values : list (bytes * bytes)) : option (list (bytes * bytes)) :=
  match fuel with
  | O => None
  | S fuel => let '(continue, content, values) := entry content values in if continue then parse_loop fuel content values else Some values
  end.

(** The text without carriage returns and the blanks around it. *)
Definition source (input : bytes) : bytes := trim (filter (fun c => c <> 13) input).
Definition parse (input : bytes) : list (bytes * bytes) :=
  let content := source input in
  default [] (parse_loop (S (length content)) content []).

(** ** Application *)

Definition until_nul (s : bytes) : bytes := match split_once 0 s with Some (a, _) => a | None => s end.

Definition process_values (input : bytes) : list (bytes * bytes) :=
  omap (fun p : bytes * bytes =>
    let name := until_nul p.1 in
    if bool_decide (name = []) || bool_decide (EQUALS ∈ name) then None else Some (name, until_nul p.2)) (parse input).

Definition apply_to (environment : gmap bytes bytes) (input : bytes) : gmap bytes bytes :=
  fold_left (fun e p => match e !! p.1 with Some _ => e | None => <[p.1 := p.2]> e end) (process_values input) environment.

(** ** The reader ends *)

Lemma trim_start_le s : (length (trim_start s) <= length s)%nat.
Proof. induction s as [|c s IH]; simpl; [lia|]. case_match; simpl; lia. Qed.
Lemma trim_end_le s : (length (trim_end s) <= length s)%nat.
Proof. induction s as [|c s IH]; simpl; [lia|]. destruct (trim_end s); [case_match|]; simpl in *; lia. Qed.
Lemma trim_le s : (length (trim s) <= length s)%nat.
Proof. unfold trim. pose proof (trim_end_le (trim_start s)). pose proof (trim_start_le s). lia. Qed.

Lemma split_once_lt c s a b : split_once c s = Some (a, b) -> (length b < length s)%nat.
Proof.
  revert a. induction s as [|d s IH]; intros a; simpl; [done|]. destruct (d =? c); [intros [= _ <-]; lia|].
  destruct (split_once c s) as [[a' b']|]; simpl; [|done]. intros [= _ <-]. specialize (IH _ eq_refl). lia.
Qed.
Lemma find_either_lt c d s a x b : find_either c d s = Some (a, x, b) -> (length b < length s)%nat.
Proof.
  revert a. induction s as [|y s IH]; intros a; simpl; [done|]. destruct (_ || _); [intros [= _ _ <-]; lia|].
  destruct (find_either c d s) as [[[a' x'] b']|]; simpl; [|done]. intros [= _ -> <-]. specialize (IH _ eq_refl). lia.
Qed.
Lemma next_line_le s : (length (next_line s) <= pred (length s))%nat.
Proof. unfold next_line. destruct (split_once NL s) as [[a b]|] eqn:E; [apply split_once_lt in E; lia|simpl; lia]. Qed.
Lemma rest_lt s value rest : s <> [] -> default (s, []) (split_once NL s) = (value, rest) -> (length rest < length s)%nat.
Proof.
  intros Hs. destruct (split_once NL s) as [[a b]|] eqn:E; simpl; [intros [= _ <-]; by eapply split_once_lt|].
  intros [= _ <-]. destruct s; [done|simpl; lia].
Qed.

(** Every round that goes on takes some of the text. *)
Lemma entry_lt content values content' values' : entry content values = (true, content', values') -> (length content' < length content)%nat.
Proof.
  unfold entry. destruct content as [|c s]; [done|]. set (content := c :: s). assert (Hpos : (0 < length content)%nat) by (simpl; lia).
  destruct (_ || _); [intros [= <- _]; pose proof (next_line_le content); lia|].
  destruct (find_either EQUALS NL content) as [[[before x] after]|] eqn:Ef; [|done]. apply find_either_lt in Ef. pose proof (trim_le after) as Ht.
  destruct (x =? NL); [intros [= <- _]; lia|]. destruct (match after with [] => true | c :: _ => c =? NL end); [intros [= <- _]; lia|]. cbv zeta.
  destruct (trim before) as [|kc ks]; [intros [= <- _]; lia|]. set (key := match strip_prefix _ _ with Some _ => _ | None => _ end).
  destruct (trim after) as [|quote tail] eqn:Ea; [done|]. destruct (is_quote quote).
  - destruct (split_once quote tail) as [[raw rest]|] eqn:Eq.
    + intros [= <- _]. apply split_once_lt in Eq. pose proof (next_line_le rest). simpl in *. lia.
    + destruct (default _ _) as [value rest] eqn:Er. apply rest_lt in Er; [|done]. intros [= <- _]. pose proof (trim_le rest). lia.
  - destruct (default _ _) as [value rest] eqn:Er. apply rest_lt in Er; [|done]. intros [= <- _]. pose proof (trim_le rest). lia.
Qed.

Lemma parse_loop_total fuel content values : (length content < fuel)%nat -> exists m, parse_loop fuel content values = Some m /\ forall more, (fuel <= more)%nat -> parse_loop more content values = Some m.
Proof.
  revert content values. induction fuel as [|fuel IH]; intros content values Hf; [lia|]. simpl. destruct (entry content values) as [[[] content'] values'] eqn:E.
  - apply entry_lt in E as Hlt. destruct (IH content' values') as (m & Em & Hm); [lia|]. exists m. split; [done|]. intros [|more] Hmore; [lia|]. simpl. rewrite E. apply Hm. lia.
  - exists values'. split; [done|]. intros [|more] Hmore; [lia|]. simpl. by rewrite E.
Qed.

(** ** Sorted maps *)

Lemma compare_eq a b : compare_bytes a b = Eq <-> a = b.
Proof.
  revert b. induction a as [|x a IH]; intros [|y b]; simpl; try done. destruct (x ?= y) eqn:E; [|split; [done|intros [= -> ->]; by rewrite Z.compare_refl in E]..].
  apply Z.compare_eq in E as ->. rewrite IH. split; [by intros ->|by intros [= ->]].
Qed.
Lemma compare_antisym a b : compare_bytes b a = CompOpp (compare_bytes a b).
Proof. revert b. induction a as [|x a IH]; intros [|y b]; simpl; try done. rewrite (Z.compare_antisym x y). destruct (x ?= y); simpl; auto. Qed.
Definition lt_bytes (a b : bytes) : Prop := compare_bytes a b = Lt.
#[export] Instance lt_bytes_trans : Transitive lt_bytes.
Proof.
  intros a. unfold lt_bytes. induction a as [|x a IH]; intros [|y b] [|z c]; simpl; try done.
  destruct (x ?= y) eqn:E1; try done; destruct (y ?= z) eqn:E2; try done.
  - apply Z.compare_eq in E1 as ->, E2 as ->. rewrite Z.compare_refl. apply IH.
  - apply Z.compare_eq in E1 as ->. by rewrite E2.
  - apply Z.compare_eq in E2 as ->. by rewrite E1.
  - assert (x < z) as Hl by (rewrite Z.compare_lt_iff in *; lia). apply Z.compare_lt_iff in Hl. by rewrite Hl.
Qed.

Lemma lookup_insert_env k v m k' : lookup k' (insert k v m) = if decide (k = k') then Some v else lookup k' m.
Proof.
  unfold lookup. induction m as [|[k0 v0] m IH]; simpl; [repeat case_decide; congruence|].
  destruct (compare_bytes k k0) eqn:E; simpl.
  - apply compare_eq in E as ->. repeat case_decide; congruence.
  - repeat case_decide; congruence.
  - assert (k <> k0) by (intros ->; by rewrite (proj2 (compare_eq k0 k0) eq_refl) in E). rewrite IH. repeat case_decide; congruence.
Qed.

Definition sorted (m : list (bytes * bytes)) : Prop := StronglySorted lt_bytes m.*1.

Lemma insert_env_keys k v m x : x ∈ (insert k v m).*1 -> x = k \/ x ∈ m.*1.
Proof.
  induction m as [|[k0 v0] m IH]; simpl; [set_solver|]. destruct (compare_bytes k k0); simpl; rewrite ?elem_of_cons; [tauto..|]. intros [->|Hx]; [auto|]. destruct (IH Hx); auto.
Qed.
Lemma insert_sorted_env k v m : sorted m -> sorted (insert k v m).
Proof.
  unfold sorted. induction m as [|[k0 v0] m IH]; intros Hs; simpl; [repeat constructor|]. apply StronglySorted_inv in Hs as [Hs Hh]. simpl in Hh. destruct (compare_bytes k k0) eqn:E; simpl.
  - by constructor.
  - constructor; [by constructor|]. constructor; [exact E|]. eapply Forall_impl; [exact Hh|]. intros x Hx. by transitivity k0.
  - constructor; [auto|]. apply Forall_forall. intros x Hx. apply insert_env_keys in Hx as [->|Hx].
    + unfold lt_bytes. by rewrite compare_antisym, E.
    + rewrite Forall_forall in Hh. by apply Hh.
Qed.
Lemma entry_values content values continue content' values' : entry content values = (continue, content', values') -> values' = values \/ exists k v, values' = insert k v values.
Proof.
  unfold entry. destruct content as [|c s]; [intros [= _ _ <-]; by left|]. destruct (_ || _); [intros [= _ _ <-]; by left|].
  destruct (find_either _ _ _) as [[[before x] after]|]; [|intros [= _ _ <-]; by left]. destruct (x =? NL); [intros [= _ _ <-]; by left|].
  destruct (match after with [] => true | c :: _ => c =? NL end); [intros [= _ _ <-]; right; by eexists _, _|]. cbv zeta. destruct (trim before) as [|kc ks]; [intros [= _ _ <-]; by left|].
  destruct (trim after) as [|quote tail]; [intros [= _ _ <-]; right; by eexists _, _|].
  destruct (is_quote quote); [destruct (split_once quote tail) as [[raw rest]|]; [intros [= _ _ <-]; right; by eexists _, _|]|];
    destruct (default _ _) as [value rest]; intros [= _ _ <-]; right; by eexists _, _.
Qed.

Lemma parse_loop_sorted fuel content values m : sorted values -> parse_loop fuel content values = Some m -> sorted m.
Proof.
  revert content values. induction fuel as [|fuel IH]; intros content values Hs; [done|]. simpl. destruct (entry content values) as [[b content'] values'] eqn:E.
  assert (Hs' : sorted values') by (apply entry_values in E as [->|(k & v & ->)]; [done|by apply insert_sorted_env]). destruct b; [by apply IH|by intros [= <-]].
Qed.

(** The values of a file are a sorted map, and more rounds change nothing. *)
Theorem parse_terminates input : sorted (parse input) /\
  forall fuel, (length (source input) < fuel)%nat -> parse_loop fuel (source input) [] = Some (parse input).
Proof.
  unfold parse. set (content := source _). destruct (parse_loop_total (S (length content)) content []) as (m & E & Hm); [lia|]. rewrite E. simpl. split.
  - eapply parse_loop_sorted; [|exact E]. constructor.
  - intros fuel Hf. by apply Hm.
Qed.

(** ** What is written is read *)

Definition name_byte (c : Z) : Prop := blank c = false /\ c <> EQUALS /\ c <> 13.
Definition writable (p : bytes * bytes) : Prop :=
  (exists c s, p.1 = c :: s /\ c <> HASH) /\ Forall name_byte p.1 /\ (SINGLE ∉ p.2) /\ (13 ∉ p.2).
Definition body (p : bytes * bytes) : bytes := p.1 ++ EQUALS :: SINGLE :: p.2 ++ [SINGLE].
(** One variable a line, its value between single quotes. *)
Definition render (l : list (bytes * bytes)) : bytes := flat_map (fun p => body p ++ [NL]) l.

Definition more (l : list (bytes * bytes)) : bytes := flat_map (fun p => NL :: body p) l.

Lemma split_once_at c a b : c ∉ a -> split_once c (a ++ c :: b) = Some (a, b).
Proof.
  induction a as [|d a IH]; simpl; intros Hn; [by rewrite Z.eqb_refl|]. apply not_elem_of_cons in Hn as [Hd Hn].
  rewrite (proj2 (Z.eqb_neq d c)) by congruence. by rewrite IH.
Qed.
Lemma find_either_at c d a b : c ∉ a -> d ∉ a -> find_either c d (a ++ c :: b) = Some (a, c, b).
Proof.
  induction a as [|x a IH]; simpl; intros Hc Hd; [by rewrite Z.eqb_refl|]. apply not_elem_of_cons in Hc as [Hc1 Hc2]. apply not_elem_of_cons in Hd as [Hd1 Hd2].
  rewrite (proj2 (Z.eqb_neq x c)), (proj2 (Z.eqb_neq x d)) by congruence. simpl. by rewrite IH.
Qed.
Lemma trim_end_id s c : blank c = false -> trim_end (s ++ [c]) = s ++ [c].
Proof. intros Hc. induction s as [|d s IH]; simpl; [by rewrite Hc|]. rewrite IH. by destruct s. Qed.
Lemma trim_end_blank s c : blank c = true -> trim_end (s ++ [c]) = trim_end s.
Proof. intros Hc. induction s as [|d s IH]; simpl; [by rewrite Hc|]. by rewrite IH. Qed.
Lemma trim_id c s d : blank c = false -> blank d = false -> trim (c :: s ++ [d]) = c :: s ++ [d].
Proof. intros Hc Hd. unfold trim. simpl. rewrite Hc. exact (trim_end_id (c :: s) d Hd). Qed.
Lemma trim_name k : Forall name_byte k -> trim k = k.
Proof.
  intros Hk. destruct k as [|c k]; [done|]. inversion Hk as [|? ? Hc Hr]; subst. destruct (decide (k = [])) as [->|Hn]; [unfold trim; simpl; destruct Hc as [-> _]; simpl; destruct (blank c) eqn:E; [|done]|].
  - inversion Hk as [|? ? [Hb _] _]; subst. congruence.
  - destruct (exists_last Hn) as (s & d & ->). apply trim_id; [apply Hc|]. apply Forall_app in Hr as [_ Hd]. by inversion Hd as [|? ? [Hb _] _]; subst.
Qed.

Lemma strip_prefix_app p s r : strip_prefix p s = Some r -> s = p ++ r.
Proof. revert s. induction p as [|c p IH]; intros s; simpl; [by intros [= ->]|]. destruct s as [|d s]; [done|]. destruct (c =? d) eqn:E; [|done]. apply Z.eqb_eq in E as ->. by intros ->%IH. Qed.

Lemma body_more_ends p l : exists s, body p ++ more l = p.1 ++ EQUALS :: SINGLE :: s ++ [SINGLE] /\ SINGLE :: p.2 ++ SINGLE :: more l = SINGLE :: s ++ [SINGLE].
Proof.
  enough (H : forall v, exists s, v ++ SINGLE :: more l = s ++ [SINGLE]).
  { destruct (H p.2) as [s Hs]. exists s. unfold body. rewrite <- Hs. split; [|done]. repeat (rewrite <- app_assoc; simpl). done. }
  induction l as [|q l IH]; intros v; [by exists v|]. destruct (IH (v ++ SINGLE :: NL :: q.1 ++ EQUALS :: SINGLE :: q.2)) as [s Hs]. exists s. rewrite <- Hs.
  simpl. unfold body. repeat (rewrite <- app_assoc; simpl). done.
Qed.

Lemma entry_body p l values : writable p -> entry (body p ++ more l) values = (true, match l with [] => [] | q :: l => body q ++ more l end, insert p.1 p.2 values).
Proof.
  destruct p as [k v]. intros ((c & s & Ek & Hc) & Hk & Hq & _). simpl in *. destruct (body_more_ends (k, v) l) as (m & Em & Ev). simpl in *.
  assert (Eb : body (k, v) ++ more l = k ++ EQUALS :: SINGLE :: v ++ SINGLE :: more l) by (unfold body; simpl; repeat (rewrite <- app_assoc; simpl); done).
  assert (Hn : (EQUALS ∉ k) /\ (NL ∉ k)) by (rewrite Forall_forall in Hk; split; intros Hin; apply Hk in Hin as (Hb & He & _); done).
  assert (Hx : strip_prefix EXPORT k = None).
  { destruct (strip_prefix EXPORT k) as [r|] eqn:E; [|done]. exfalso. rewrite Forall_forall in Hk.
    apply strip_prefix_app in E as ->. destruct (Hk 32) as [Hb _]; [|done]. apply elem_of_app. left. do 6 right. by left. }
  assert (Eh : (c =? NL) || (c =? HASH) = false).
  { apply orb_false_iff. split; apply Z.eqb_neq; [|done]. intros ->. rewrite Ek in Hk. inversion Hk as [|? ? [Hb _] _]; subst. done. }
  rewrite Eb. unfold entry. set (after := SINGLE :: v ++ SINGLE :: more l) in *. assert (Ex : k ++ EQUALS :: after = c :: s ++ EQUALS :: after) by (by rewrite Ek).
  rewrite Ex. cbv iota. rewrite Eh, <- Ex. rewrite (find_either_at EQUALS NL k) by apply Hn. simpl (EQUALS =? NL). cbv iota.
  rewrite (trim_name k) by done. cbv zeta. rewrite Hx. assert (Ea : trim after = after) by (rewrite Ev; by apply trim_id). rewrite Ea. unfold after. simpl (SINGLE =? NL). cbv iota.
  rewrite Ek. cbv iota. simpl (is_quote SINGLE). cbv iota. rewrite (split_once_at SINGLE v) by done. simpl (SINGLE =? DOUBLE). cbv iota. f_equal. f_equal. by destruct l.
Qed.
Definition lines (l : list (bytes * bytes)) : bytes := match l with [] => [] | p :: l => body p ++ more l end.

Lemma parse_lines l fuel values : Forall writable l -> (length l < fuel)%nat -> parse_loop fuel (lines l) values = Some (fold_left (fun m p => insert p.1 p.2 m) l values).
Proof.
  intros Hl. revert fuel values. induction Hl as [|p l Hp Hl IH]; intros [|fuel] values Hf; simpl in Hf; try lia; [done|].
  change (lines (p :: l)) with (body p ++ more l). simpl parse_loop. rewrite entry_body by done. simpl fold_left. apply (IH fuel). lia.
Qed.

Lemma render_lines p l : render (p :: l) = lines (p :: l) ++ [NL].
Proof.
  unfold render. simpl. rewrite <- !app_assoc. f_equal. induction l as [|q l IH]; [done|]. simpl in *. rewrite <- !app_assoc. f_equal. f_equal. exact IH.
Qed.

Lemma body_no_cr p : writable p -> Forall (fun c => c <> 13) (body p).
Proof.
  intros (_ & Hk & _ & Hv). apply Forall_app. split; [eapply Forall_impl; [exact Hk|]; by intros c (_ & _ & ?)|].
  repeat (constructor; [done|]). apply Forall_app. split; [|by constructor]. apply Forall_forall. intros c Hc ->. done.
Qed.
Lemma render_no_cr l : Forall writable l -> filter (fun c => c <> 13) (render l) = render l.
Proof.
  intros Hl. apply filter_id. apply Forall_forall. unfold render. induction Hl as [|p l Hp Hl IH]; [constructor|]. simpl. apply Forall_app. split; [|done].
  apply Forall_app. split; [by apply body_no_cr|by repeat constructor].
Qed.

Lemma source_render l : Forall writable l -> source (render l) = lines l.
Proof.
  intros Hl. unfold source. rewrite render_no_cr by done. destruct l as [|p l]; [done|]. inversion Hl as [|? ? Hp _]; subst.
  rewrite render_lines. destruct Hp as ((c & s & Ek & _) & Hk & _). destruct (body_more_ends p l) as (m & Em & _). change (lines (p :: l)) with (body p ++ more l). rewrite Em, Ek.
  rewrite Ek in Hk. inversion Hk as [|? ? [Hb _] _]; subst. unfold trim. simpl. rewrite Hb.
  replace (c :: (s ++ EQUALS :: SINGLE :: m ++ [SINGLE]) ++ [NL]) with ((c :: s ++ EQUALS :: SINGLE :: m ++ [SINGLE]) ++ [NL]) by done. rewrite trim_end_blank by done.
  replace (c :: s ++ EQUALS :: SINGLE :: m ++ [SINGLE]) with ((c :: s ++ EQUALS :: SINGLE :: m) ++ [SINGLE]) by (simpl; by rewrite <- app_assoc). by apply trim_end_id.
Qed.

Lemma body_length p : (2 <= length (body p))%nat.
Proof. unfold body. rewrite length_app. simpl. lia. Qed.
Lemma lines_length l : (length l <= length (lines l))%nat.
Proof.
  destruct l as [|p l]; [done|]. simpl. rewrite length_app. pose proof (body_length p). enough (length l <= length (more l))%nat by lia.
  induction l as [|q l IH]; simpl; [lia|]. rewrite length_app. lia.
Qed.

Lemma fold_insert_lookup l values k : lookup k (fold_left (fun m p => insert p.1 p.2 m) l values) = match IndexMap.get k (reverse l) with Some v => Some v | None => lookup k values end.
Proof.
  revert values. induction l as [|[k' v'] l IH] using rev_ind; intros values; [done|]. rewrite fold_left_app, reverse_app. simpl. rewrite lookup_insert_env.
  destruct (decide (k = k')) as [->|Hne]; [by rewrite decide_True|]. rewrite decide_False by congruence. apply IH.
Qed.

(** C35: A file that was written one variable a line between single quotes is read
    back exactly, values of several lines, with spaces, hashes or equals signs
    included; of a variable written twice the last value counts. *)
Theorem env_roundtrip l k : Forall writable l -> lookup k (parse (render l)) = IndexMap.get k (reverse l).
Proof.
  intros Hl. unfold parse. rewrite source_render by done. cbv zeta. rewrite parse_lines; [|done|pose proof (lines_length l); lia]. simpl.
  rewrite fold_insert_lookup. by destruct (IndexMap.get k (reverse l)).
Qed.

(** ** Application *)

Lemma until_nul_clean s : 0 ∉ until_nul s.
Proof.
  unfold until_nul. induction s as [|c s IH]; simpl; [apply not_elem_of_nil|]. destruct (c =? 0) eqn:E; [apply not_elem_of_nil|]. apply Z.eqb_neq in E.
  destruct (split_once 0 s) as [[a b]|]; simpl; apply not_elem_of_cons; split; congruence || done.
Qed.

Lemma process_values_names input name value : (name, value) ∈ process_values input -> name <> [] /\ (EQUALS ∉ name) /\ (0 ∉ name) /\ (0 ∉ value).
Proof.
  unfold process_values. intros Hin. apply list_elem_of_omap in Hin as ([k v] & _ & E). simpl in E. destruct (bool_decide (until_nul k = []) || _) eqn:Eb; [done|].
  apply orb_false_iff in Eb as [E1 E2]. apply bool_decide_eq_false in E1, E2. injection E as <- <-. split_and!; try done; apply until_nul_clean.
Qed.

(** Applying a file sets no variable that is set: a variable keeps its value,
    and the others get the first value of the sorted entries for their name.
    Names that are empty or hold an equals sign or a NUL are never set. *)
Theorem environment_wins e input k :
  apply_to e input !! k = match e !! k with Some v => Some v | None => IndexMap.get k (process_values input) end /\
  (e !! k = None -> is_Some (apply_to e input !! k) -> k <> [] /\ (EQUALS ∉ k) /\ (0 ∉ k)).
Proof.
  assert (H : apply_to e input !! k = match e !! k with Some v => Some v | None => IndexMap.get k (process_values input) end).
  { unfold apply_to. revert e. induction (process_values input) as [|[n v] l IH]; intros e; simpl; [by destruct (e !! k)|]. rewrite IH.
    destruct (decide (k = n)) as [->|Hne].
    - destruct (e !! n) as [v'|] eqn:E; [by rewrite E|]. by rewrite lookup_insert_eq.
    - destruct (e !! n) as [v'|] eqn:E; [done|]. by rewrite lookup_insert_ne by congruence. }
  split; [done|]. rewrite H. intros -> [v E]. apply IndexMap.get_In, process_values_names in E. tauto.
Qed.

Module Sample.
Definition entries : list (bytes * bytes) := [([65; 66], [32; 120; 10; 35; 61]); ([67], []); ([65; 66], [121])].
Lemma entries_writable : Forall writable entries.
Proof.
  repeat constructor; simpl; try (eexists _, _; split; [reflexivity|done]); try done;
    repeat (apply not_elem_of_cons; split; [done|]); apply not_elem_of_nil.
Qed.
Lemma env_roundtrip_witness : lookup [65; 66] (parse (render entries)) = Some [121] /\ lookup [67] (parse (render entries)) = Some [].
Proof. split; (etransitivity; [apply (env_roundtrip entries _ entries_writable)|reflexivity]). Defined.
End Sample.
End EnvFile.
