(* ===== verification/Timeline.v ===== *)
(** * Computer-use input

    [Timeline] models the input descriptions of the computer-use agent in
    src/cantrip_cua/src: the timelines of timeline.rs, the commands of gesture.rs
    and the click sequences of click_sequence.rs. It proves that a timeline is
    accepted exactly when its keys and its pointer go down and up in turn and end
    up, within the limits, and that a click sequence compiles to such a timeline.
    Coordinates are IEEE values, as in [Input]; times and lengths are integers. *)
From S2P Require Import Prelude InputHost.
From stdpp Require Import base numbers strings gmap option list fin_sets.
Open Scope Z_scope.

Module Timeline.
Import Text Input.

(** ** Keys and buttons: gesture.rs *)

Definition KEY_CODES : list (string * Z) := [
  ("F1", 122); ("F2", 120); ("F3", 99); ("F4", 118); ("F5", 96); ("F6", 97); ("F7", 98); ("F8", 100); ("F9", 101); ("F10", 109); ("F11", 103);
  ("F12", 111); ("F13", 105); ("F14", 107); ("F15", 113); ("F16", 106); ("F17", 64); ("F18", 79); ("F19", 80); ("F20", 90); ("Minus", 27);
  ("Equal", 24); ("BracketLeft", 33); ("BracketRight", 30); ("Backslash", 42); ("Semicolon", 41); ("Quote", 39); ("Comma", 43); ("Period", 47);
  ("Slash", 44); ("Backquote", 50); ("Enter", 36); ("Tab", 48); ("Escape", 53); ("Backspace", 51); ("Delete", 117); ("ArrowLeft", 123);
  ("ArrowRight", 124); ("ArrowDown", 125); ("ArrowUp", 126); ("Home", 115); ("End", 119); ("PageUp", 116); ("PageDown", 121); ("Space", 49); ("A", 0);
  ("S", 1); ("D", 2); ("F", 3); ("H", 4); ("G", 5); ("Z", 6); ("X", 7); ("C", 8); ("V", 9); ("B", 11); ("Q", 12); ("W", 13); ("E", 14); ("R", 15);
  ("Y", 16); ("T", 17); ("1", 18); ("2", 19); ("3", 20); ("4", 21); ("6", 22); ("5", 23); ("9", 25); ("7", 26); ("8", 28); ("0", 29); ("O", 31);
  ("U", 32); ("I", 34); ("P", 35); ("L", 37); ("J", 38); ("K", 40); ("N", 45); ("M", 46)].

Fixpoint find_code (key : text) (table : list (string * Z)) : option Z :=
  match table with [] => None | (name, code) :: table => if bool_decide (key = lit name) then Some code else find_code key table end.
Definition key_code (key : text) : option Z := find_code key KEY_CODES.

Definition mouse_button_number (b : MouseButton) : Z := match b with Left => 0 | Right => 1 | Middle => 2 | Back => 3 | Forward => 4 end.
Definition mouse_event_types (b : MouseButton) : Z * Z := match b with Left => (1, 2) | Right => (3, 4) | _ => (25, 26) end.
Definition media_code (k : MediaKey) : Z :=
  match k with VolumeUp => 0 | VolumeDown => 1 | VolumeMute => 7 | PlayPause => 16 | NextTrack => 17 | PreviousTrack => 18 | FastForward => 19 | Rewind => 20 end.
Definition media_data (k : MediaKey) (down : bool) : Z := Z.lor (Z.shiftl (media_code k) 16) (Z.shiftl (if down then 0xA else 0xB) 8).
Definition modifier_bit (m : Modifier) : Z := match m with Shift => 17 | Control => 18 | Alt => 19 | Meta => 20 end.
Definition modifier_flags (ms : list Modifier) : Z := fold_left (fun flags m => Z.lor flags (Z.shiftl 1 (modifier_bit m))) ms 0.

(** ** Timelines: timeline.rs *)

Record InputFrame := MkInputFrame {
  at_ms : Z;
  key_down : list text;
  key_up : list text;
  pointer_down : option Point;
  pointer_up : bool;
  pointer_modifiers : list Modifier;
  pointer_button : option MouseButton;
  key_modifiers : list Modifier
}.

Definition MAX_FRAMES : Z := 131072.
Definition MAX_SAFE : Z := 9007199254740991.
Definition MAX_HELD : Z := 16.

Definition malformed (at_ : Z) (f : InputFrame) : bool :=
  (at_ms f <? at_) || (MAX_SAFE <? at_ms f) || (MAX_HELD <? len (key_down f)) || (MAX_HELD <? len (key_up f))
  || (bool_decide (is_Some (pointer_button f)) && bool_decide (pointer_down f = None))
  || (negb (bool_decide (key_modifiers f = [])) && bool_decide (key_down f = []))
  || negb (valid_modifiers (key_modifiers f))
  || (4 <? len (pointer_modifiers f))
  || (negb (bool_decide (pointer_modifiers f = [])) && bool_decide (pointer_down f = None))
  || negb (no_earlier [] (pointer_modifiers f)).

Fixpoint lift_keys (held : gset text) (ks : list text) : option (gset text) :=
  match ks with [] => Some held | k :: ks => if bool_decide (k ∈ held) then lift_keys (held ∖ {[k]}) ks else None end.
Fixpoint press_keys (held : gset text) (ks : list text) : option (gset text) :=
  match ks with
  | [] => Some held
  | k :: ks => if bool_decide (key_code k = None) || bool_decide (k ∈ held) then None else press_keys ({[k]} ∪ held) ks
  end.
Definition move_pointer (pointer : bool) (f : InputFrame) : option bool :=
  pointer ← (if pointer_up f then if pointer then Some false else None else Some pointer);
  match pointer_down f with
  | Some p => if pointer || negb (valid_point p) then None else Some true
  | None => Some pointer
  end.

Fixpoint check_frames (held : gset text) (pointer : bool) (at_ : Z) (fs : list InputFrame) : bool :=
  match fs with
  | [] => bool_decide (held = ∅) && negb pointer
  | f :: fs =>
      if malformed at_ f then false
      else
        match lift_keys held (key_up f) with
        | None => false
        | Some held =>
            match press_keys held (key_down f) with
            | None => false
            | Some held =>
                if MAX_HELD <? Z.of_nat (size held) then false
                else match move_pointer pointer f with Some pointer => check_frames held pointer (at_ms f) fs | None => false end
            end
        end
  end.

Definition validate (fs : list InputFrame) : bool :=
  negb (bool_decide (fs = [])) && (len fs <=? MAX_FRAMES) && check_frames ∅ false 0 fs.

(** ** Commands: gesture.rs *)

Inductive InputCommand :=
| CFocus
| CWindowInput
| CPreparedPress (point : option Point) (hold_ms : Z) (button : MouseButton)
| CTimeline (frames : list InputFrame)
| CText (s : text)
| CMedia (key : MediaKey) (modifiers : list Modifier)
| CKey (key : text) (modifiers : list Modifier)
| CMove (point : Point)
| CDrag (start end_ : Point) (duration_ms : Z)
| CScroll (delta_x delta_y : Z) (point : option Point).

Definition method (c : InputCommand) : string :=
  match c with
  | CFocus => "focus" | CWindowInput => "window-input" | CPreparedPress _ _ _ => "background-prepared-press" | CTimeline _ => "background-timeline"
  | CText _ => "background-text" | CKey _ _ => "background-key" | CMove _ => "background-move" | CMedia _ _ => "system-media"
  | CDrag _ _ _ => "background-drag" | CScroll _ _ _ => "background-scroll"
  end.
Definition prepares_window (c : InputCommand) : bool :=
  match c with
  | CPreparedPress _ _ _ | CDrag _ _ _ => true
  | CTimeline fs => existsb (fun f => bool_decide (is_Some (pointer_down f)) && bool_decide (pointer_modifiers f = [])) fs
  | _ => false
  end.
Definition is_ascii_control (c : Z) : bool := (c <? 32) || (c =? 127).
Definition valid_command (c : InputCommand) : bool :=
  match c with
  | CFocus | CWindowInput => true
  | CPreparedPress p hold _ => from_option valid_point true p && (hold <=? MAX_SAFE)
  | CTimeline fs => validate fs
  | CText s => negb (bool_decide (s = [])) && (byte_len s <=? 8192) && negb (existsb (fun c => is_ascii_control c && negb ((c =? 10) || (c =? 13) || (c =? 9))) s)
  | CKey k ms => bool_decide (is_Some (key_code k)) && valid_modifiers ms
  | CMove p => valid_point p
  | CMedia _ ms => valid_modifiers ms
  | CDrag a b d => valid_point a && valid_point b && (d <=? MAX_SAFE)
  | CScroll dx dy p => (-10000 <=? dx) && (dx <=? 10000) && (-10000 <=? dy) && (dy <=? 10000) && from_option valid_point true p
  end.

(** ** Click sequences: click_sequence.rs *)

Record Click := MkClick { c_at : Z; c_point : Point; c_hold : option Z }.
Record Options := MkOptions { o_hold : Z; o_button : MouseButton; o_modifiers : list Modifier }.
#[global] Instance mouse_button_eq_dec : EqDecision MouseButton.
Proof. solve_decision. Defined.

Inductive Refusal := WrongCount | WrongModifiers | UnsafeTime (index : nat) | Overlap (index : nat) | WrongPoint (index : nat).

Definition U64 : Z := 2 ^ 64.
Definition checked_add (a b : Z) : option Z := if a + b <? U64 then Some (a + b) else None.

(** The two frames of a click; absent fields have their defaults. *)
Definition click_frames (o : Options) (c : Click) (release : Z) : list InputFrame :=
  [MkInputFrame (c_at c) [] [] (Some (c_point c)) false (o_modifiers o) (if bool_decide (o_button o = Left) then None else Some (o_button o)) [];
   MkInputFrame release [] [] None true [] None []].

Fixpoint compile_from (o : Options) (index : nat) (previous : Z) (clicks : list Click) : list InputFrame + Refusal :=
  match clicks with
  | [] => inl []
  | c :: clicks =>
      match (e ← checked_add (c_at c) (default (o_hold o) (c_hold c)); if e <=? MAX_SAFE then Some e else None) with
      | None => inr (UnsafeTime index)
      | Some release =>
          if c_at c <? previous then inr (Overlap index)
          else if negb (valid_point (c_point c)) then inr (WrongPoint index)
          else match compile_from o (S index) release clicks with inl frames => inl (click_frames o c release ++ frames) | inr e => inr e end
      end
  end.

Definition compile (clicks : list Click) (o : Options) : list InputFrame + Refusal :=
  if bool_decide (clicks = []) || (65536 <? len clicks) then inr WrongCount
  else if negb (valid_modifiers (o_modifiers o)) then inr WrongModifiers
  else compile_from o 0 0 clicks.
(** ** What a timeline means *)

(** Downs and ups of one control in turn, from up or down; where it ends. *)
Fixpoint turns (b : bool) (es : list bool) : option bool :=
  match es with [] => Some b | e :: es => if Bool.eqb e b then None else turns e es end.

Definition ups (k : text) (ks : list text) : list bool := (fun _ => false) <$> filter (fun k' => k' = k) ks.
Definition downs (k : text) (ks : list text) : list bool := (fun _ => true) <$> filter (fun k' => k' = k) ks.
(** The events of a key in a frame: ups come first. *)
Definition frame_events (k : text) (f : InputFrame) : list bool := ups k (key_up f) ++ downs k (key_down f).
Definition key_events (k : text) (fs : list InputFrame) : list bool := fs ≫= frame_events k.
Definition pointer_events (fs : list InputFrame) : list bool :=
  fs ≫= (fun f => (if pointer_up f then [false] else []) ++ match pointer_down f with Some _ => [true] | None => [] end).

(** At most sixteen keys are down. *)
Definition few_down (start : text -> bool) (fs : list InputFrame) : Prop :=
  forall ks, NoDup ks -> (forall k, k ∈ ks -> turns (start k) (key_events k fs) = Some true) -> len ks <= MAX_HELD.

(** What a frame may say by itself. *)
Definition well_formed (f : InputFrame) : Prop :=
  at_ms f <= MAX_SAFE /\ len (key_down f) <= MAX_HELD /\ len (key_up f) <= MAX_HELD /\
  (is_Some (pointer_button f) -> is_Some (pointer_down f)) /\ (key_modifiers f <> [] -> key_down f <> []) /\
  (pointer_modifiers f <> [] -> is_Some (pointer_down f)) /\ NoDup (key_modifiers f) /\ NoDup (pointer_modifiers f) /\
  (forall k, k ∈ key_down f -> is_Some (key_code k)) /\ (forall p, pointer_down f = Some p -> valid_point p = true).

(** Frames in the order of time. *)
Fixpoint in_time (at_ : Z) (fs : list InputFrame) : Prop := match fs with [] => True | f :: fs => at_ <= at_ms f /\ in_time (at_ms f) fs end.

Definition accepted (start : text -> bool) (pointer : bool) (at_ : Z) (fs : list InputFrame) : Prop :=
  in_time at_ fs /\ Forall well_formed fs /\ (forall k, turns (start k) (key_events k fs) = Some false) /\
  turns pointer (pointer_events fs) = Some false /\ (forall n, (0 < n <= length fs)%nat -> few_down start (take n fs)).

Lemma turns_app b es es' : turns b (es ++ es') = turns b es ≫= (fun b => turns b es').
Proof. revert b. induction es as [|e es IH]; intros b; [done|]. simpl. by destruct (Bool.eqb e b). Qed.

Definition down_in (held : gset text) (k : text) : bool := bool_decide (k ∈ held).

Lemma ups_cons k k' ks : ups k (k' :: ks) = if decide (k' = k) then false :: ups k ks else ups k ks.
Proof. unfold ups. rewrite filter_cons. by case_decide. Qed.
Lemma downs_cons k k' ks : downs k (k' :: ks) = if decide (k' = k) then true :: downs k ks else downs k ks.
Proof. unfold downs. rewrite filter_cons. by case_decide. Qed.

Lemma lift_turns held ks :
  match lift_keys held ks with
  | Some held' => forall k, turns (down_in held k) (ups k ks) = Some (down_in held' k)
  | None => exists k, turns (down_in held k) (ups k ks) = None
  end.
Proof.
  revert held. induction ks as [|k0 ks IH]; intros held; simpl; [done|]. destruct (bool_decide (k0 ∈ held)) eqn:E.
  - assert (Hd : forall k, down_in (held ∖ {[k0]}) k = if decide (k0 = k) then false else down_in held k).
    { intros k. unfold down_in. destruct (decide (k0 = k)) as [->|Hk]; [apply bool_decide_eq_false_2|apply bool_decide_ext]; set_solver. }
    specialize (IH (held ∖ {[k0]})). destruct (lift_keys (held ∖ {[k0]}) ks) as [held'|].
    + intros k. rewrite ups_cons, <- IH, Hd. destruct (decide (k0 = k)) as [<-|Hk]; [|done]. simpl. unfold down_in. by rewrite E.
    + destruct IH as [k Hk]. exists k. rewrite ups_cons. rewrite Hd in Hk. destruct (decide (k0 = k)) as [<-|Ek]; [|done]. simpl. unfold down_in. by rewrite E.
  - exists k0. rewrite ups_cons, decide_True by done. simpl. unfold down_in. by rewrite E.
Qed.

Lemma press_turns held ks :
  match press_keys held ks with
  | Some held' => (forall k, k ∈ ks -> is_Some (key_code k)) /\ forall k, turns (down_in held k) (downs k ks) = Some (down_in held' k)
  | None => (exists k, k ∈ ks /\ key_code k = None) \/ exists k, turns (down_in held k) (downs k ks) = None
  end.
Proof.
  revert held. induction ks as [|k0 ks IH]; intros held; simpl; [split; [intros k Hk; by apply not_elem_of_nil in Hk|done]|].
  destruct (bool_decide (key_code k0 = None)) eqn:Ec; [simpl; left; exists k0; split; [by left|by apply bool_decide_eq_true in Ec]|]. apply bool_decide_eq_false in Ec.
  destruct (bool_decide (k0 ∈ held)) eqn:E; simpl.
  - right. exists k0. rewrite downs_cons, decide_True by done. simpl. unfold down_in. by rewrite E.
  - assert (Hd : forall k, down_in ({[k0]} ∪ held) k = if decide (k0 = k) then true else down_in held k).
    { intros k. unfold down_in. destruct (decide (k0 = k)) as [->|Hk]; [apply bool_decide_eq_true_2|apply bool_decide_ext]; set_solver. }
    specialize (IH ({[k0]} ∪ held)). destruct (press_keys ({[k0]} ∪ held) ks) as [held'|].
    + destruct IH as [Hc IH]. split; [intros k [->|Hk]%elem_of_cons; [by apply not_eq_None_Some|auto]|].
      intros k. rewrite downs_cons, <- IH, Hd. destruct (decide (k0 = k)) as [<-|Hk]; [|done]. simpl. unfold down_in. by rewrite E.
    + destruct IH as [(k & Hin & Hk)|(k & Hk)]; [left; exists k; split; [by right|done]|right]. exists k. rewrite downs_cons. rewrite Hd in Hk.
      destruct (decide (k0 = k)) as [<-|Ek]; [|done]. simpl. unfold down_in. by rewrite E.
Qed.

Lemma frame_turns held f : (forall k, k ∈ key_down f -> is_Some (key_code k)) ->
  match lift_keys held (key_up f) ≫= (fun h => press_keys h (key_down f)) with
  | Some held' => forall k, turns (down_in held k) (frame_events k f) = Some (down_in held' k)
  | None => exists k, turns (down_in held k) (frame_events k f) = None
  end.
Proof.
  intros Hc. pose proof (lift_turns held (key_up f)) as Hl. destruct (lift_keys held (key_up f)) as [h|]; simpl.
  - pose proof (press_turns h (key_down f)) as Hp. destruct (press_keys h (key_down f)) as [h'|].
    + intros k. unfold frame_events. rewrite turns_app, Hl. simpl. apply Hp.
    + destruct Hp as [(k & Hin & Hk)|(k & Hk)]; [apply Hc in Hin as [c Hin]; congruence|]. exists k. unfold frame_events. by rewrite turns_app, Hl.
  - destruct Hl as [k Hk]. exists k. unfold frame_events. by rewrite turns_app, Hk.
Qed.

Lemma pointer_turns pointer f : (forall p, pointer_down f = Some p -> valid_point p = true) ->
  move_pointer pointer f = turns pointer ((if pointer_up f then [false] else []) ++ match pointer_down f with Some _ => [true] | None => [] end).
Proof.
  intros Hv. unfold move_pointer. destruct (pointer_up f), (pointer_down f) as [p|] eqn:Ep, pointer; simpl; try done; by rewrite (Hv p eq_refl).
Qed.
Lemma malformed_spec at_ f : malformed at_ f = false <->
  at_ <= at_ms f /\ at_ms f <= MAX_SAFE /\ len (key_down f) <= MAX_HELD /\ len (key_up f) <= MAX_HELD /\
  (is_Some (pointer_button f) -> is_Some (pointer_down f)) /\ (key_modifiers f <> [] -> key_down f <> []) /\
  (pointer_modifiers f <> [] -> is_Some (pointer_down f)) /\ NoDup (key_modifiers f) /\ NoDup (pointer_modifiers f).
Proof.
  unfold malformed. rewrite !orb_false_iff, !Z.ltb_ge, !andb_false_iff, !negb_false_iff, !bool_decide_eq_false, !bool_decide_eq_true, valid_modifiers_spec.
  assert (Hp : len (pointer_modifiers f) <= 4 /\ no_earlier [] (pointer_modifiers f) = true <-> NoDup (pointer_modifiers f)).
  { rewrite <- (valid_modifiers_spec (pointer_modifiers f)). unfold valid_modifiers. by rewrite andb_true_iff, Z.leb_le. }
  rewrite <- !not_eq_None_Some. split.
  - intros [[[[[[[[[H1 H2] H3] H4] H5] H6] H7] H8] H9] H10]. split_and!; try done; [..|by apply Hp]; naive_solver.
  - intros (H1 & H2 & H3 & H4 & H5 & H6 & H7 & H8 & H9). apply Hp in H9 as [H9 H10]. split_and!; try done.
    + destruct (pointer_button f); [right; auto|left; auto].
    + destruct (decide (key_modifiers f = [])); [by left|right; auto].
    + destruct (decide (pointer_modifiers f = [])); [by left|right; auto].
Qed.

Lemma well_formed_spec at_ f : malformed at_ f = false /\ (forall k, k ∈ key_down f -> is_Some (key_code k)) /\ (forall p, pointer_down f = Some p -> valid_point p = true) <->
  at_ <= at_ms f /\ well_formed f.
Proof. rewrite malformed_spec. unfold well_formed. tauto. Qed.

Lemma size_few (held : gset text) : Z.of_nat (size held) <= MAX_HELD <-> forall ks, NoDup ks -> (forall k, k ∈ ks -> down_in held k = true) -> len ks <= MAX_HELD.
Proof.
  split.
  - intros Hs ks Hn Hk. etransitivity; [|exact Hs]. apply Nat2Z.inj_le. rewrite <- (size_list_to_set (C := gset text) ks) by done. apply subseteq_size.
    intros k Hin. apply elem_of_list_to_set in Hin. by apply Hk, bool_decide_eq_true in Hin.
  - intros H. specialize (H (elements held) (NoDup_elements held)). unfold size, set_size in *. simpl in *. apply H. intros k Hk. apply bool_decide_eq_true. by apply elem_of_elements.
Qed.

Lemma key_events_cons k f fs : key_events k (f :: fs) = frame_events k f ++ key_events k fs.
Proof. done. Qed.

Section frame.
Context (held held' : gset text) (pointer pointer' : bool) (f : InputFrame).
Context (Hk : forall k, turns (down_in held k) (frame_events k f) = Some (down_in held' k)).
Context (Hp : turns pointer ((if pointer_up f then [false] else []) ++ match pointer_down f with Some _ => [true] | None => [] end) = Some pointer').

Lemma few_cons fs : few_down (down_in held) (f :: fs) <-> few_down (down_in held') fs.
Proof using Hk.
  clear Hp. unfold few_down. setoid_rewrite key_events_cons. split; intros H ks Hn Hks; apply H; try done; intros k Hin; specialize (Hks k Hin); rewrite turns_app, Hk in *; done.
Qed.

Lemma accepted_cons at_ fs : accepted (down_in held) pointer at_ (f :: fs) <->
  at_ <= at_ms f /\ well_formed f /\ Z.of_nat (size held') <= MAX_HELD /\ accepted (down_in held') pointer' (at_ms f) fs.
Proof using Hk Hp.
  assert (Hnil : few_down (down_in held') [] <-> Z.of_nat (size held') <= MAX_HELD).
  { rewrite size_few. unfold few_down. split; intros H ks Hn Hks; apply H; try done; intros k Hin; specialize (Hks k Hin); simpl in *; congruence. }
  unfold accepted. rewrite Forall_cons. unfold pointer_events. rewrite bind_cons, turns_app, Hp. simpl. split.
  - intros ((Ht & Ht') & (Hw & Hws) & Hks & Hps & Hn). split_and!; try done.
    + apply (proj1 Hnil), (proj1 (few_cons [])). apply (Hn 1%nat). lia.
    + intros k. specialize (Hks k). by rewrite turns_app, Hk in Hks.
    + intros n Hlen. apply (proj1 (few_cons (take n fs))). apply (Hn (S n)). lia.
  - intros (Ht & Hw & Hs & Ht' & Hws & Hks & Hps & Hn). split_and!; try done.
    + intros k. rewrite turns_app, Hk. apply Hks.
    + intros [|n] Hlen; [lia|]. simpl. apply (proj2 (few_cons (take n fs))). destruct n as [|n]; [by apply (proj2 Hnil)|]. apply Hn. lia.
Qed.
End frame.

Lemma check_accepts fs : forall held pointer at_, check_frames held pointer at_ fs = true <-> accepted (down_in held) pointer at_ fs.
Proof.
  induction fs as [|f fs IH]; intros held pointer at_.
  - simpl. rewrite andb_true_iff, bool_decide_eq_true, negb_true_iff. unfold accepted. simpl. split.
    + intros [-> ->]. split_and!; [done|done|intros k; unfold down_in; by rewrite bool_decide_eq_false_2 by set_solver|done|intros n Hn; lia].
    + intros (_ & _ & Hk & Hp & _). split; [|congruence]. apply set_eq. intros k. specialize (Hk k). injection Hk as Hk. apply bool_decide_eq_false in Hk. set_solver.
  - assert (Hno : forall at_, malformed at_ f = true -> ~ accepted (down_in held) pointer at_ (f :: fs)).
    { intros a Hm ([Ht _] & Hw & _). apply Forall_cons in Hw as [Hw _]. destruct (proj2 (well_formed_spec a f)) as [Hm' _]; [done|congruence]. }
    simpl check_frames. destruct (malformed at_ f) eqn:Em; [split; [done|by intros H; apply Hno in H]|].
    destruct (decide (Forall (fun k => is_Some (key_code k)) (key_down f))) as [Hc|Hc].
    2:{ split; [|intros (_ & Hw & _); apply Forall_cons in Hw as [Hw _]; destruct Hc; apply Forall_forall; apply Hw]. destruct (lift_keys held (key_up f)) as [h|]; [|done].
        pose proof (press_turns h (key_down f)) as Hp. destruct (press_keys h (key_down f)); [|done]. destruct Hc. apply Forall_forall, Hp. }
    rewrite Forall_forall in Hc. pose proof (frame_turns held f Hc) as Hf. destruct (lift_keys held (key_up f)) as [h|]; simpl in Hf.
    2:{ split; [done|]. intros (_ & _ & Hk & _). destruct Hf as [k Hf]. specialize (Hk k). by rewrite key_events_cons, turns_app, Hf in Hk. }
    destruct (press_keys h (key_down f)) as [h'|].
    2:{ split; [done|]. intros (_ & _ & Hk & _). destruct Hf as [k Hf]. specialize (Hk k). by rewrite key_events_cons, turns_app, Hf in Hk. }
    destruct (match pointer_down f with Some p => valid_point p | None => true end) eqn:Ev.
    2:{ split; [|intros (_ & Hw & _); apply Forall_cons in Hw as [Hw _]; destruct (pointer_down f) as [p|] eqn:Ep; [|done]; destruct Hw as (_ & _ & _ & _ & _ & _ & _ & _ & _ & Hw); by rewrite (Hw p Ep) in Ev].
        destruct (_ <? _); [done|]. unfold move_pointer. destruct (pointer_down f) as [p|]; [|done]. rewrite Ev. destruct (if pointer_up f then _ else _) as [b|]; [|done]. simpl. by rewrite orb_true_r. }
    assert (Hv : forall p, pointer_down f = Some p -> valid_point p = true) by (intros p Ep; by rewrite Ep in Ev).
    rewrite (pointer_turns pointer f Hv). destruct (turns pointer _) as [pointer'|] eqn:Et.
    + rewrite (accepted_cons held h' pointer pointer' f Hf Et), <- IH. destruct (proj1 (well_formed_spec at_ f) (conj Em (conj Hc Hv))) as [Ht Hw]. destruct (MAX_HELD <? Z.of_nat (size h')) eqn:Es; [apply Z.ltb_lt in Es; split; [done|lia]|].
      apply Z.ltb_ge in Es. tauto.
    + split; [by destruct (MAX_HELD <? Z.of_nat (size h'))|]. intros (_ & _ & _ & Hp & _). unfold pointer_events in Hp. by rewrite bind_cons, turns_app, Et in Hp.
Qed.

(** C36: A timeline is accepted exactly when it has frames, not too many, in the
    order of time; each frame is well formed; every key and the pointer go down
    and up in turn and end up; and never more than sixteen keys are down. *)
Theorem validate_exact fs : validate fs = true <->
  fs <> [] /\ len fs <= MAX_FRAMES /\ in_time 0 fs /\ Forall well_formed fs /\ (forall k, turns false (key_events k fs) = Some false) /\
  turns false (pointer_events fs) = Some false /\ (forall n, (0 < n <= length fs)%nat -> few_down (fun _ => false) (take n fs)).
Proof.
  unfold validate. rewrite !andb_true_iff, negb_true_iff, bool_decide_eq_false, Z.leb_le, check_accepts. unfold accepted, few_down.
  assert (Hd : forall k, down_in ∅ k = false) by (intros k; apply bool_decide_eq_false_2; set_solver). setoid_rewrite Hd. tauto.
Qed.
(** ** Click sequences *)

Definition release_of (o : Options) (c : Click) : Z := c_at c + default (o_hold o) (c_hold c).
Definition sequence (o : Options) (clicks : list Click) : list InputFrame := clicks ≫= (fun c => click_frames o c (release_of o c)).
(** Clicks that do not overlap, at points and times of a timeline. *)
Fixpoint spaced (o : Options) (previous : Z) (clicks : list Click) : Prop :=
  match clicks with
  | [] => True
  | c :: clicks => release_of o c <= MAX_SAFE /\ previous <= c_at c /\ valid_point (c_point c) = true /\ spaced o (release_of o c) clicks
  end.
(** Times and durations are unsigned. *)
Definition unsigned (o : Options) (c : Click) : Prop := 0 <= c_at c /\ 0 <= default (o_hold o) (c_hold c).

Lemma check_click o c release previous fs : NoDup (o_modifiers o) -> previous <= c_at c <= release -> release <= MAX_SAFE -> valid_point (c_point c) = true ->
  check_frames ∅ false previous (click_frames o c release ++ fs) = check_frames ∅ false release fs.
Proof.
  intros Hm Ht Hs Hv. unfold click_frames. set (f1 := MkInputFrame (c_at c) _ _ _ _ _ _ _). set (f2 := MkInputFrame release _ _ _ _ _ _ _).
  assert (M1 : malformed previous f1 = false) by (apply malformed_spec; simpl; split_and!; try done; try lia; constructor).
  assert (M2 : malformed (c_at c) f2 = false) by (apply malformed_spec; simpl; split_and!; try done; try lia; constructor).
  assert (P1 : move_pointer false f1 = Some true) by (unfold move_pointer; simpl; by rewrite Hv).
  assert (Z0 : (MAX_HELD <? Z.of_nat (size (∅ : gset text))) = false) by done.
  cbn [app check_frames]. rewrite M1. cbn [f1 key_up key_down lift_keys press_keys]. rewrite Z0, P1. cbn [at_ms f1]. rewrite M2. cbn [f2 key_up key_down lift_keys press_keys]. by rewrite Z0.
Qed.

Lemma compile_from_exact o clicks index previous : NoDup (o_modifiers o) -> Forall (unsigned o) clicks ->
  match compile_from o index previous clicks with
  | inl frames => frames = sequence o clicks /\ spaced o previous clicks /\ check_frames ∅ false previous frames = true
  | inr _ => ~ spaced o previous clicks
  end.
Proof.
  intros Hm Hu. revert index previous. induction Hu as [|c clicks [Ha Hh] Hu IH]; intros index previous; [done|]. simpl compile_from.
  unfold checked_add. change (c_at c + default (o_hold o) (c_hold c)) with (release_of o c). destruct (release_of o c <? U64) eqn:Eu; simpl.
  2:{ apply Z.ltb_ge in Eu. intros (Hs & _). unfold U64, MAX_SAFE in *. lia. }
  destruct (release_of o c <=? MAX_SAFE) eqn:Es; [|apply Z.leb_gt in Es; intros (Hs & _); lia]. apply Z.leb_le in Es.
  destruct (c_at c <? previous) eqn:Ep; [apply Z.ltb_lt in Ep; intros (_ & Hp & _); lia|]. apply Z.ltb_ge in Ep.
  destruct (valid_point (c_point c)) eqn:Ev; simpl; [|intros (_ & _ & Hv & _); congruence].
  specialize (IH (S index) (release_of o c)). destruct (compile_from o (S index) (release_of o c) clicks) as [frames|e]; [|intros (_ & _ & _ & Hs); by apply IH].
  destruct IH as (-> & Hs & Hc). split_and!; try done. change (check_frames ∅ false previous (click_frames o c (release_of o c) ++ sequence o clicks) = true).
  rewrite check_click; try done. unfold release_of. lia.
Qed.

(** A click sequence compiles exactly when it has 1 to 65536 clicks, distinct
    modifiers, and clicks at points and safe times that do not overlap; it is
    then the presses and releases of its clicks in order, and a timeline that
    is accepted. *)
Theorem clicks_compile clicks o : Forall (unsigned o) clicks ->
  match compile clicks o with
  | inl frames => frames = sequence o clicks /\ validate frames = true
  | inr _ => ~ (0 < len clicks <= 65536 /\ NoDup (o_modifiers o) /\ spaced o 0 clicks)
  end.
Proof.
  intros Hu. unfold compile. destruct (bool_decide (clicks = []) || (65536 <? len clicks)) eqn:El; [apply orb_true_iff in El as [El|El]; [apply bool_decide_eq_true in El as ->; simpl; lia|apply Z.ltb_lt in El; lia]|].
  apply orb_false_iff in El as [Ene El]. apply bool_decide_eq_false in Ene. apply Z.ltb_ge in El.
  destruct (valid_modifiers (o_modifiers o)) eqn:Em; simpl; [|intros (_ & Hn & _); apply valid_modifiers_spec in Hn; congruence]. apply valid_modifiers_spec in Em.
  pose proof (compile_from_exact o clicks 0 0 Em Hu) as Hc. destruct (compile_from o 0 0 clicks) as [frames|e]; [|tauto]. destruct Hc as (-> & Hs & Hc). split; [done|].
  assert (Hlen : length (sequence o clicks) = (2 * length clicks)%nat) by (clear; unfold sequence; induction clicks as [|c clicks IH]; [done|]; rewrite bind_cons, length_app, IH; simpl; lia).
  unfold validate. rewrite Hc, andb_true_r. apply andb_true_iff. split; [|apply Z.leb_le; unfold MAX_FRAMES; lia]. apply negb_true_iff, bool_decide_eq_false.
  intros E. rewrite E in Hlen. destruct clicks; [done|simpl in Hlen; lia].
Qed.

(** ** Codes *)

Lemma find_code_in k table c : find_code k table = Some c -> exists name, (name, c) ∈ table /\ k = lit name.
Proof.
  induction table as [|[name c'] table IH]; simpl; [done|]. destruct (bool_decide (k = lit name)) eqn:E.
  - apply bool_decide_eq_true in E. intros [= <-]. exists name. split; [by left|done].
  - intros Hc. destruct (IH Hc) as (name' & Hin & Hk). exists name'. split; [by right|done].
Qed.

(** Keys have positions of their own. *)
Lemma key_code_inj k k' c : key_code k = Some c -> key_code k' = Some c -> k = k'.
Proof.
  intros E E'. apply find_code_in in E as (n & Hin & ->). apply find_code_in in E' as (n' & Hin' & ->). f_equal.
  assert (Hn : NoDup KEY_CODES.*2) by (apply (bool_decide_unpack _); vm_compute; exact I).
  apply list_elem_of_lookup in Hin as [i Hi], Hin' as [j Hj]. assert (i = j) as ->; [|congruence].
  eapply (NoDup_lookup KEY_CODES.*2 i j c); [exact Hn|..]; rewrite list_lookup_fmap; [by rewrite Hi|by rewrite Hj].
Qed.

Lemma modifier_flags_from ms : forall flags i, Z.testbit (fold_left (fun flags m => Z.lor flags (Z.shiftl 1 (modifier_bit m))) ms flags) i = Z.testbit flags i || existsb (fun m => modifier_bit m =? i) ms.
Proof.
  induction ms as [|m ms IH]; intros flags i; simpl; [by rewrite orb_false_r|]. rewrite IH, Z.lor_spec, <- orb_assoc. f_equal. f_equal.
  rewrite Z.shiftl_1_l. destruct (Z.eqb_spec (modifier_bit m) i) as [<-|Hne]; [apply Z.pow2_bits_true|apply Z.pow2_bits_false; congruence]. by destruct m.
Qed.
(** The bits of the flags are those of the modifiers. *)
Lemma modifier_flags_bits ms i : Z.testbit (modifier_flags ms) i = existsb (fun m => modifier_bit m =? i) ms.
Proof. unfold modifier_flags. by rewrite modifier_flags_from, Z.bits_0. Qed.

Module Sample.
Definition here : Point := MkPoint (SpecFloat.S754_zero false) (SpecFloat.S754_zero false).
Definition clicks : list Click := [MkClick 0 here None; MkClick 50 here (Some 10)].
Definition options : Options := MkOptions 50 Right [Shift].
Lemma clicks_compile_witness : exists frames, compile clicks options = inl frames /\ validate frames = true.
Proof.
  pose proof (clicks_compile clicks options ltac:(repeat constructor; simpl; lia)) as H. exists (sequence options clicks).
  assert (E : compile clicks options = inl (sequence options clicks)) by (vm_compute; reflexivity). rewrite E in H. by destruct H.
Defined.
End Sample.
End Timeline.
