(* ===== verification/Flight.v ===== *)
(** * Work that is shared while it runs

    [Flight] is the pattern of settings/openrouter/cache.rs ([refresh]) and
    settings/openrouter/hydrator.rs ([start]): a table of the work under way by key,
    each with a number; a caller joins the work of its key or starts it in a task of
    its own, which takes its entry away when it ends and then sends what it has to
    everyone who joined. A task that panics sends nothing and leaves its entry. *)
From S2P Require Import Prelude.
From stdpp Require Import base numbers gmap option list.
Open Scope Z_scope.

Module Flight.
Section flight.
Context {K : Type} `{Countable K} {J R : Type}.

(** [ended] has what was sent, or nothing when the sender was dropped. *)
Record t := Mk { active : gmap K Z; next_id : Z; jobs : gmap Z (K * J); ended : gmap Z (K * option R) }.
Definition new : t := Mk ∅ 0 ∅ ∅.

Definition start (k : K) (j : J) (s : t) : Z * t :=
  match active s !! k with
  | Some id => (id, s)
  | None => let id := next_id s + 1 in (id, Mk (<[k := id]> (active s)) id (<[id := (k, j)]> (jobs s)) (ended s))
  end.

(** The task goes on with other work. *)
Definition work (id : Z) (j : J) (s : t) : t :=
  match jobs s !! id with Some (k, _) => Mk (active s) (next_id s) (<[id := (k, j)]> (jobs s)) (ended s) | None => s end.

Definition finish (id : Z) (r : R) (s : t) : t :=
  match jobs s !! id with
  | Some (k, _) => Mk (if bool_decide (active s !! k = Some id) then delete k (active s) else active s) (next_id s) (delete id (jobs s)) (<[id := (k, Some r)]> (ended s))
  | None => s
  end.

Definition crash (id : Z) (s : t) : t :=
  match jobs s !! id with Some (k, _) => Mk (active s) (next_id s) (delete id (jobs s)) (<[id := (k, None)]> (ended s)) | None => s end.

(** ** One flight a key *)

Definition flown (k : K) (id : Z) (s : t) : Prop := (exists j, jobs s !! id = Some (k, j)) \/ exists r, ended s !! id = Some (k, r).
Record wf (s : t) : Prop := MkWf {
  w_next : 0 <= next_id s;
  w_active : forall k id, active s !! k = Some id -> (exists j, jobs s !! id = Some (k, j)) \/ ended s !! id = Some (k, None);
  w_jobs : forall k id j, jobs s !! id = Some (k, j) -> active s !! k = Some id /\ 0 < id <= next_id s;
  w_ended : forall id x, ended s !! id = Some x -> jobs s !! id = None /\ 0 < id <= next_id s }.

Lemma flight_new : wf new.
Proof. split; cbn; [done| | |]; intros *; by rewrite lookup_empty. Qed.

Lemma next_free s : wf s -> jobs s !! (next_id s + 1) = None /\ ended s !! (next_id s + 1) = None.
Proof.
  intros [H0 _ Hj He]. split; apply eq_None_not_Some; intros [x E].
  - destruct x as [k j]. apply Hj in E as [_ E]. lia.
  - apply He in E as [_ E]. lia.
Qed.

Lemma flight_start k j s : wf s -> wf (start k j s).2.
Proof.
  intros Hw. destruct (next_free s Hw) as [Fj Fe]. destruct Hw as [H0 Ha Hj He]. unfold start. destruct (active s !! k) as [id|] eqn:E; [done|].
  split; cbn; [lia| | |].
  - intros k' id'. rewrite lookup_insert_Some. intros [[<- <-]|[Hn E']]; [left; exists j; by rewrite lookup_insert_eq|].
    destruct (Ha _ _ E') as [[j' E2]|E2]; [left; exists j'|by right]. rewrite lookup_insert_ne; [done|]. congruence.
  - intros k' id' j'. rewrite lookup_insert_Some. intros [[<- [= <- <-]]|[Hn E']]; [rewrite lookup_insert_eq; split; [done|lia]|].
    destruct (Hj _ _ _ E') as [E2 Hr]. split; [|lia]. rewrite lookup_insert_ne; [done|]. congruence.
  - intros id x E'. destruct (He _ _ E') as [E2 Hr]. split; [|lia]. rewrite lookup_insert_ne; [done|lia].
Qed.

Lemma flight_work id j s : wf s -> wf (work id j s).
Proof.
  intros [H0 Ha Hj He]. unfold work. destruct (jobs s !! id) as [[k j0]|] eqn:E; [|done]. split; cbn; [done| | |].
  - intros k' id' E'. destruct (Ha _ _ E') as [[j' E2]|E2]; [left|by right]. destruct (decide (id = id')) as [<-|]; [|exists j'; by rewrite lookup_insert_ne].
    exists j. rewrite lookup_insert_eq. congruence.
  - intros k' id' j'. rewrite lookup_insert_Some. intros [[<- [= <- <-]]|[Hn E']]; eauto.
  - intros id' x E'. destruct (He _ _ E') as [E2 Hr]. split; [|done]. rewrite lookup_insert_ne; [done|]. congruence.
Qed.

(** Both ends of a task: its entry is only taken away when something was sent. *)
Lemma flight_end id k j r s a :
  wf s -> jobs s !! id = Some (k, j) -> (a = delete k (active s) \/ a = active s /\ r = None) ->
  wf (Mk a (next_id s) (delete id (jobs s)) (<[id := (k, r)]> (ended s))).
Proof.
  intros [H0 Ha Hj He] E Hq. split; cbn; [done| | |].
  - intros k' id' E'. assert (active s !! k' = Some id') as Ea by (destruct Hq as [->|[-> _]]; [by apply lookup_delete_Some in E' as [_ ?]|done]).
    destruct (decide (id = id')) as [<-|Hn].
    + right. rewrite lookup_insert_eq. destruct (Hj _ _ _ E) as [Ek _]. destruct (Ha _ _ Ea) as [[j' E2]|E2]; [|apply He in E2 as [E2 _]; congruence].
      assert (k' = k) as -> by congruence. destruct Hq as [->|[_ ->]]; [|done]. by apply lookup_delete_Some in E' as [? _].
    + destruct (Ha _ _ Ea) as [[j' E2]|E2]; [left; exists j'; by rewrite lookup_delete_ne|right; by rewrite lookup_insert_ne].
  - intros k' id' j'. rewrite lookup_delete_Some. intros [Hn E']. destruct (Hj _ _ _ E') as [E2 Hr]. split; [|done]. destruct Hq as [->|[-> _]]; [|done].
    rewrite lookup_delete_ne; [done|]. intros <-. destruct (Hj _ _ _ E) as [E3 _]. congruence.
  - intros id' x. rewrite lookup_insert_Some. intros [[<- <-]|[Hn E']]; [rewrite lookup_delete_eq; split; [done|]; by apply Hj in E as [_ ?]|].
    destruct (He _ _ E') as [E2 Hr]. split; [|done]. by rewrite lookup_delete_ne.
Qed.

(** The entry of a task is its own, so that the check of the number always holds. *)
Lemma finish_own id r s k j : wf s -> jobs s !! id = Some (k, j) -> finish id r s = Mk (delete k (active s)) (next_id s) (delete id (jobs s)) (<[id := (k, Some r)]> (ended s)).
Proof. intros [_ _ Hj _] E. unfold finish. rewrite E. destruct (Hj _ _ _ E) as [Ea _]. by rewrite bool_decide_true. Qed.

Lemma flight_finish id r s : wf s -> wf (finish id r s).
Proof.
  intros Hw. destruct (jobs s !! id) as [[k j]|] eqn:E; [|unfold finish; by rewrite E]. rewrite (finish_own id r s k j) by done. eapply flight_end; [done|done|by left].
Qed.

Lemma flight_crash id s : wf s -> wf (crash id s).
Proof. intros Hw. unfold crash. destruct (jobs s !! id) as [[k j]|] eqn:E; [|done]. eapply flight_end; [done|done|by right]. Qed.

Lemma one_flight s k id id' j j' : wf s -> jobs s !! id = Some (k, j) -> jobs s !! id' = Some (k, j') -> id = id'.
Proof. intros [_ _ Hj _] E E'. destruct (Hj _ _ _ E) as [? _], (Hj _ _ _ E') as [? _]. congruence. Qed.

Lemma start_flown k j s : wf s -> flown k (start k j s).1 (start k j s).2.
Proof.
  intros [_ Ha _ _]. unfold start, flown. destruct (active s !! k) as [id|] eqn:E; cbn.
  - destruct (Ha _ _ E) as [?|?]; eauto.
  - left. exists j. by rewrite lookup_insert_eq.
Qed.

Lemma start_keeps k j s k' id : wf s -> flown k' id s -> flown k' id (start k j s).2.
Proof.
  intros Hw. destruct (next_free s Hw) as [Fj Fe]. unfold start, flown. destruct (active s !! k) as [i|]; [done|]. cbn. intros [[j' E]|?]; [left; exists j'|by right].
  rewrite lookup_insert_ne; [done|]. congruence.
Qed.

Lemma work_keeps i j s k id : flown k id s -> flown k id (work i j s).
Proof.
  unfold work, flown. destruct (jobs s !! i) as [[k0 j0]|] eqn:E0; [|done]. cbn. intros [[j' E]|?]; [left|by right].
  destruct (decide (i = id)) as [<-|]; [exists j; rewrite lookup_insert_eq; congruence|exists j'; by rewrite lookup_insert_ne].
Qed.

Lemma finish_keeps i r s k id : wf s -> flown k id s -> flown k id (finish i r s).
Proof.
  intros Hw. unfold finish, flown. destruct (jobs s !! i) as [[k0 j0]|] eqn:E0; [|done]. cbn. intros [[j' E]|[x E]].
  - destruct (decide (i = id)) as [<-|]; [right; exists (Some r); rewrite lookup_insert_eq; congruence|left; exists j'; by rewrite lookup_delete_ne].
  - right. exists x. rewrite lookup_insert_ne; [done|]. intros <-. apply (w_ended _ Hw) in E as [? _]. congruence.
Qed.

Lemma crash_keeps i s k id : wf s -> flown k id s -> flown k id (crash i s).
Proof.
  intros Hw. unfold crash, flown. destruct (jobs s !! i) as [[k0 j0]|] eqn:E0; [|done]. cbn. intros [[j' E]|[x E]].
  - destruct (decide (i = id)) as [<-|]; [right; exists None; rewrite lookup_insert_eq; congruence|left; exists j'; by rewrite lookup_delete_ne].
  - right. exists x. rewrite lookup_insert_ne; [done|]. intros <-. apply (w_ended _ Hw) in E as [? _]. congruence.
Qed.

(** What was sent stays. *)
Lemma start_ended k j s : ended (start k j s).2 = ended s.
Proof. unfold start. by destruct (active s !! k). Qed.

Lemma ended_kept id x s : wf s -> ended s !! id = Some x ->
  (forall i j, ended (work i j s) !! id = Some x) /\ (forall i r, ended (finish i r s) !! id = Some x) /\ (forall i, ended (crash i s) !! id = Some x).
Proof.
  intros Hw E. pose proof (w_ended _ Hw _ _ E) as [En _]. unfold work, finish, crash.
  repeat split; intros i *; destruct (jobs s !! i) as [[k0 j0]|] eqn:E0; cbn; try done; rewrite lookup_insert_ne by congruence; done.
Qed.

(** A task that was lost keeps its entry for good. *)
Definition wedged (k : K) (id : Z) (s : t) : Prop := active s !! k = Some id /\ ended s !! id = Some (k, None).
Lemma crash_wedges id s k j : wf s -> jobs s !! id = Some (k, j) -> wedged k id (crash id s).
Proof. intros [_ _ Hj _] E. unfold wedged, crash. rewrite E. cbn. rewrite lookup_insert_eq. split; [by apply Hj in E as [? _]|done]. Qed.

Lemma wedged_stays k id s : wf s -> wedged k id s ->
  (forall k' j, wedged k id (start k' j s).2) /\ (forall i j, wedged k id (work i j s)) /\ (forall i r, wedged k id (finish i r s)) /\ (forall i, wedged k id (crash i s)).
Proof.
  intros Hw [Ea Ee]. destruct (ended_kept _ _ _ Hw Ee) as (H1 & H2 & H3). unfold wedged. split; [|split; [|split]].
  - intros k' j. rewrite start_ended. split; [|done]. unfold start. destruct (active s !! k') eqn:E; cbn; [done|]. rewrite lookup_insert_ne; [done|]. congruence.
  - intros i j. split; [|done]. unfold work. by destruct (jobs s !! i) as [[]|].
  - intros i r. split; [|done]. destruct (jobs s !! i) as [[k0 j0]|] eqn:E; [|unfold finish; by rewrite E]. rewrite (finish_own i r s k0 j0) by done. cbn.
    rewrite lookup_delete_ne; [done|]. intros ->. pose proof (w_ended _ Hw _ _ Ee) as [? _]. pose proof (w_jobs _ Hw _ _ _ E) as [E2 _]. congruence.
  - intros i. split; [|done]. unfold crash. by destruct (jobs s !! i) as [[]|].
Qed.
End flight.
Arguments t _ {_ _} _ _ : assert.
End Flight.
