(* ===== verification/Catalog.v ===== *)
(** * The public model catalog

    [Catalog] models src/cantrip_server_rs/src/settings/openrouter.rs ([parse_payload])
    and settings/openrouter/cache.rs: snapshots of the catalog by key, refreshed by
    one fetch a key at a time ([Flight]) and served stale meanwhile. Readers and
    fetches are interleaved where the code takes its lock or awaits. The URL parser
    and the HTTP client are outside: [models_url] is a parameter and answers are
    arbitrary. Clocks are whole milliseconds. *)
From S2P Require Import Prelude Flight JsString Wire.
From stdpp Require Import base numbers strings gmap option list relations.
Open Scope Z_scope.

Module Catalog.
Import Text JsString Wire.

Section catalog.
Context `{Numbers}.

(** ** The payload *)

Definition Failure := units.
(** [text] of openrouter.rs; [JsString::trim] drops the units [text::whitespace] has. *)
Definition text_of (v : Value) : option units := match v with String_ s => if bool_decide (trim s = []) then None else Some (trim s) | _ => None end.
Definition object_field (v : Value) (k : units) : Value := match v with Object o => index o k | _ => Null end.
Definition ID : units := lit "id".
Definition keep (entry : Value) : option Value :=
  match entry with Object o => id ← text_of (index o ID); Some (Object (IndexMap.insert ID (String_ id) o)) | _ => None end.
Definition parse_payload (payload : Value) : list Value + Failure :=
  match object_field payload (lit "data") with
  | Array data => inl (omap keep data)
  | _ => inr (lit "OpenRouter model catalog response did not contain data.")
  end.

(** ** Snapshots and fetches *)

Record CatalogSnapshot := MkSnapshot { etag : option units; fetched_at : Z; models : list Value }.
Record FetchResponse := MkResponse { status : Z; status_text : units; r_etag : option units }.
(** Where [fetch_snapshot] is: not polled yet, at the fetch, or at the body. *)
Inductive Phase := Spawned | Fetching (url : text) (if_none_match : option units) | Reading (tag : option units) (at_ : Z).
Record Job := MkJob { base : text; existing : option CatalogSnapshot; phase : Phase }.
#[local] Notation Outcome := (CatalogSnapshot + Failure)%type.
Record State := MkState { snapshots : gmap text CatalogSnapshot; flight : Flight.t text Job Outcome }.
Definition init : State := MkState ∅ Flight.new.

Context (models_url : text -> option text) (ttl_ms : Z).

(** The tag a fetch sends. *)
Definition sent_etag (j : Job) : option units := e ← existing j; t ← etag e; if bool_decide (t = []) then None else Some t.

(** The task stores a snapshot, takes its entry away and sends. *)
Definition complete (id : Z) (r : Outcome) (s : State) : State :=
  MkState (match r, Flight.jobs (flight s) !! id with inl sn, Some (k, _) => <[k := sn]> (snapshots s) | _, _ => snapshots s end) (Flight.finish id r (flight s)).

(** First poll of the task: the URL, then the fetch. *)
Definition poll (id : Z) (j : Job) (s : State) : State :=
  match models_url (base j) with
  | None => complete id (inr (lit "Invalid URL")) s
  | Some url => MkState (snapshots s) (Flight.work id (MkJob (base j) (existing j) (Fetching url (sent_etag j))) (flight s))
  end.

Definition refused (r : FetchResponse) : Failure := lit "OpenRouter model catalog returned " ++ decimal (status r) ++ [32] ++ status_text r ++ [46].
(** The head of the answer: done, or on to the body. *)
Definition respond (now : Z) (r : FetchResponse) (id : Z) (j : Job) (s : State) : State :=
  match existing j with
  | Some e => if status r =? 304 then complete id (inl (MkSnapshot (etag e) now (models e))) s
              else if negb ((200 <=? status r) && (status r <? 300)) then complete id (inr (refused r)) s
              else MkState (snapshots s) (Flight.work id (MkJob (base j) (existing j) (Reading (r_etag r) now)) (flight s))
  | None => if negb ((200 <=? status r) && (status r <? 300)) then complete id (inr (refused r)) s
            else MkState (snapshots s) (Flight.work id (MkJob (base j) (existing j) (Reading (r_etag r) now)) (flight s))
  end.
Definition body (tag : option units) (at_ : Z) (b : Value + Failure) (id : Z) (s : State) : State :=
  complete id (match b with inl payload => match parse_payload payload with inl l => inl (MkSnapshot tag at_ l) | inr f => inr f end | inr f => inr f end) s.

(** ** Readers *)

Record CatalogRead := MkRead { snapshot : CatalogSnapshot; served_stale : bool; background_refresh : option Z }.
(** [read]: the snapshot of the key, under the lock. *)
Definition read_lookup (key : text) (s : State) : option CatalogSnapshot := snapshots s !! key.
(** Then the clock: the snapshot is served when it is fresh. *)
Definition read_fresh (now : Z) (force : bool) (e : option CatalogSnapshot) : option CatalogRead :=
  match e with
  | Some sn => if negb force && (now - fetched_at sn <? ttl_ms) then Some (MkRead sn false None) else None
  | None => None
  end.
Definition refresh (b key : text) (e : option CatalogSnapshot) (s : State) : Z * State :=
  let r := Flight.start key (MkJob b e Spawned) (flight s) in (r.1, MkState (snapshots s) r.2).
(** The rest of [read]: a stale snapshot with the refresh, or the refresh to wait for. *)
Definition read_refresh (b key : text) (force : bool) (e : option CatalogSnapshot) (s : State) : (CatalogRead + Z) * State :=
  let r := refresh b key e s in
  match e with
  | Some sn => if force then (inr r.1, r.2) else (inl (MkRead sn true (Some r.1)), r.2)
  | None => (inr r.1, r.2)
  end.
(** [refresh.await?]; a dropped sender is a failure. *)
Definition awaited (id : Z) (s : State) : option (CatalogRead + Failure) :=
  match Flight.ended (flight s) !! id with
  | Some (_, Some (inl sn)) => Some (inl (MkRead sn false None))
  | Some (_, Some (inr f)) => Some (inr f)
  | Some (_, None) => Some (inr (lit "Catalog refresh task failed."))
  | None => None
  end.

(** ** The cache with its readers *)

Record Request := MkRequest { q_base : text; q_key : text; q_force : bool }.
(** How a read was answered: from the cache at a time of the clock, from the cache
    with a refresh beside it, or by a refresh it waited for after it saw [e]. *)
Inductive Way := Fresh (at_ : Z) | Served (at_ : Z) (id : Z) | Awaited (e : option CatalogSnapshot) (id : Z).
Inductive Reader := Seen (q : Request) (e : option CatalogSnapshot) | Looked (q : Request) (e : option CatalogSnapshot) (at_ : Z)
  | Waiting (q : Request) (e : option CatalogSnapshot) (id : Z) | Answered (q : Request) (rd : CatalogRead) (w : Way) | Refused (q : Request) (f : Failure).
(** [received] is kept for the statements: what whole answers brought for a key. *)
Record System := MkSystem { cache : State; readers : gmap Z Reader; now : Z; received : list (text * (option units * list Value)) }.

Definition answer_of (q : Request) (w : Way) (a : CatalogRead + Failure) : Reader := match a with inl rd => Answered q rd w | inr f => Refused q f end.
Definition brought (id : Z) (tag : option units) (b : Value + Failure) (s : State) : list (text * (option units * list Value)) :=
  match Flight.jobs (flight s) !! id, b with Some (k, _), inl payload => match parse_payload payload with inl l => [(k, (tag, l))] | inr _ => [] end | _, _ => [] end.
Definition on_cache (y : System) (c : State) : System := MkSystem c (readers y) (now y) (received y).
Definition on_reader (r : Z) (x : Reader) (y : System) : System := MkSystem (cache y) (<[r := x]> (readers y)) (now y) (received y).

Inductive step (y : System) : System -> Prop :=
| step_time t : now y <= t -> step y (MkSystem (cache y) (readers y) t (received y))
| step_lookup r q : readers y !! r = None -> step y (on_reader r (Seen q (read_lookup (q_key q) (cache y))) y)
| step_check r q e : readers y !! r = Some (Seen q e) ->
    step y (on_reader r (match read_fresh (now y) (q_force q) e with Some rd => Answered q rd (Fresh (now y)) | None => Looked q e (now y) end) y)
| step_refresh r q e at_ : readers y !! r = Some (Looked q e at_) ->
    step y (on_reader r (match (read_refresh (q_base q) (q_key q) (q_force q) e (cache y)).1 with
                         | inl rd => Answered q rd (Served at_ (refresh (q_base q) (q_key q) e (cache y)).1)
                         | inr id => Waiting q e id
                         end)
              (on_cache y (read_refresh (q_base q) (q_key q) (q_force q) e (cache y)).2))
| step_wake r q e id a : readers y !! r = Some (Waiting q e id) -> awaited id (cache y) = Some a -> step y (on_reader r (answer_of q (Awaited e id) a) y)
| step_poll id k j : Flight.jobs (flight (cache y)) !! id = Some (k, j) -> phase j = Spawned -> step y (on_cache y (poll id j (cache y)))
| step_respond id k j url tag r : Flight.jobs (flight (cache y)) !! id = Some (k, j) -> phase j = Fetching url tag -> step y (on_cache y (respond (now y) r id j (cache y)))
| step_fetch_failed id k j url tag f : Flight.jobs (flight (cache y)) !! id = Some (k, j) -> phase j = Fetching url tag -> step y (on_cache y (complete id (inr f) (cache y)))
| step_body id k j tag at_ b : Flight.jobs (flight (cache y)) !! id = Some (k, j) -> phase j = Reading tag at_ ->
    step y (MkSystem (body tag at_ b id (cache y)) (readers y) (now y) (brought id tag b (cache y) ++ received y))
| step_panic id k j : Flight.jobs (flight (cache y)) !! id = Some (k, j) -> step y (on_cache y (MkState (snapshots (cache y)) (Flight.crash id (flight (cache y))))).

Inductive reach : System -> Prop :=
| reach_init t : reach (MkSystem init ∅ t [])
| reach_step y y' : reach y -> step y y' -> reach y'.

(** ** What holds of every snapshot and every reader *)

Definition got (y : System) (k : text) (sn : CatalogSnapshot) : Prop := (k, (etag sn, models sn)) ∈ received y /\ fetched_at sn <= now y.
Definition flown (y : System) (k : text) (id : Z) : Prop := Flight.flown k id (flight (cache y)).
Definition sent (y : System) (k : text) (id : Z) (sn : CatalogSnapshot) : Prop := Flight.ended (flight (cache y)) !! id = Some (k, Some (inl sn)).
(** What each way of answering says about the answer. *)
Definition way_ok (y : System) (q : Request) (rd : CatalogRead) (w : Way) : Prop :=
  match w with
  | Fresh at_ => q_force q = false /\ rd = MkRead (snapshot rd) false None /\ at_ - fetched_at (snapshot rd) < ttl_ms
  | Served at_ id => q_force q = false /\ rd = MkRead (snapshot rd) true (Some id) /\ ttl_ms <= at_ - fetched_at (snapshot rd) /\ flown y (q_key q) id
  | Awaited e id => (q_force q = true \/ e = None) /\ rd = MkRead (snapshot rd) false None /\ sent y (q_key q) id (snapshot rd)
  end.
Definition reader_ok (y : System) (x : Reader) : Prop :=
  match x with
  | Seen q e => forall sn, e = Some sn -> got y (q_key q) sn
  | Looked q e at_ => forall sn, e = Some sn -> got y (q_key q) sn /\ (q_force q = false -> ttl_ms <= at_ - fetched_at sn)
  | Waiting q e id => (q_force q = true \/ e = None) /\ flown y (q_key q) id
  | Answered q rd w => got y (q_key q) (snapshot rd) /\ way_ok y q rd w
  | Refused _ _ => True
  end.
Definition job_ok (y : System) (k : text) (j : Job) : Prop :=
  (forall e, existing j = Some e -> got y k e) /\
  forall tag at_, phase j = Reading tag at_ -> at_ <= now y /\ forall sn, snapshots (cache y) !! k = Some sn -> fetched_at sn <= at_.
Record inv (y : System) : Prop := MkInv {
  i_flight : Flight.wf (flight (cache y));
  i_cached : forall k sn, snapshots (cache y) !! k = Some sn -> got y k sn;
  i_jobs : forall id k j, Flight.jobs (flight (cache y)) !! id = Some (k, j) -> job_ok y k j;
  i_sent : forall id k sn, sent y k id sn -> got y k sn;
  i_readers : forall r x, readers y !! r = Some x -> reader_ok y x }.

(** What readers rely on is never taken back. *)
Record grows (y y' : System) : Prop := MkGrows {
  g_received : forall x, x ∈ received y -> x ∈ received y';
  g_now : now y <= now y';
  g_flown : forall k id, flown y k id -> flown y' k id;
  g_sent : forall k id sn, sent y k id sn -> sent y' k id sn }.

Lemma grows_got y y' k sn : grows y y' -> got y k sn -> got y' k sn.
Proof. intros [H1 H2 _ _] [Hr Hn]. split; [auto|lia]. Qed.

Lemma grows_reader y y' x : grows y y' -> reader_ok y x -> reader_ok y' x.
Proof.
  intros Hg. pose proof (grows_got y y') as Hgot. pose proof Hg as [H1 H2 H3 H4]. destruct x as [q e|q e at_|q e id|q rd w|q f]; cbn; [| | | |done].
  - intros Hx sn Hs. by eapply Hgot; eauto.
  - intros Hx sn Hs. destruct (Hx sn Hs). split; [by eapply Hgot; eauto|done].
  - intros [? ?]. auto.
  - intros [Hs Ha]. split; [by eapply Hgot; eauto|]. destruct w; cbn in *; intuition auto.
Qed.

Lemma grows_job y y' k j : grows y y' -> snapshots (cache y') = snapshots (cache y) -> job_ok y k j -> job_ok y' k j.
Proof.
  intros Hg Es [H1 H2]. split; [intros e He; eapply grows_got; eauto|]. intros tag at_ Hp. rewrite Es. destruct (H2 tag at_ Hp). destruct Hg. split; [lia|done].
Qed.

Lemma grows_same y y' : (forall x, x ∈ received y -> x ∈ received y') -> now y <= now y' -> cache y' = cache y -> grows y y'.
Proof. intros H1 H2 E. split; [done|done|unfold flown; by rewrite E|unfold sent; by rewrite E]. Qed.

(** A step that leaves the cache as it is. *)
Lemma inv_same y y' : inv y -> grows y y' -> cache y' = cache y -> (forall r x, readers y' !! r = Some x -> reader_ok y' x) -> inv y'.
Proof.
  intros [H1 H2 H3 H4 _] Hg E Hr. split; unfold sent in *; rewrite ?E; [done| | | |done].
  - intros k sn Hk. eapply grows_got; eauto.
  - intros id k j Hj. eapply grows_job; [exact Hg|by rewrite E|eauto].
  - intros id k sn Hs. eapply grows_got; eauto.
Qed.

Lemma grows_cache y c :
  (forall k id, Flight.flown k id (flight (cache y)) -> Flight.flown k id (flight c)) ->
  (forall id x, Flight.ended (flight (cache y)) !! id = Some x -> Flight.ended (flight c) !! id = Some x) -> grows y (on_cache y c).
Proof. intros H1 H2. split; [done|done|exact H1|]. intros k id sn. apply H2. Qed.

Lemma readers_kept y y' : inv y -> grows y y' -> readers y' = readers y -> forall r x, readers y' !! r = Some x -> reader_ok y' x.
Proof. intros Hi Hg -> r x Hr. eapply grows_reader; [done|]. by eapply (i_readers _ Hi). Qed.

Lemma inv_work y id k j j' :
  inv y -> Flight.jobs (flight (cache y)) !! id = Some (k, j) -> existing j' = existing j ->
  (forall tag at_, phase j' = Reading tag at_ -> at_ = now y) -> inv (on_cache y (MkState (snapshots (cache y)) (Flight.work id j' (flight (cache y))))).
Proof.
  intros Hi E Ee Hp. pose proof Hi as [H1 H2 H3 H4 H5]. set (c := MkState _ _).
  assert (grows y (on_cache y c)) as Hg by (apply grows_cache; [intros; by apply Flight.work_keeps|intros; by apply Flight.ended_kept]).
  split; cbn; [by apply Flight.flight_work| | | |exact (readers_kept y _ Hi Hg eq_refl)].
  - intros k' sn Hk. eapply grows_got; eauto.
  - unfold Flight.work. rewrite E. cbn. intros id' k' x. rewrite lookup_insert_Some. intros [[<- [= <- <-]]|[_ Hx]]; [|eapply grows_job; eauto; done].
    destruct (H3 _ _ _ E) as [Hx _]. split; [rewrite Ee; intros e He; eapply grows_got; eauto|]. intros tag at_ Ht. rewrite (Hp _ _ Ht). split; [done|]. cbn. intros sn Hs. by apply (H2 k sn Hs).
  - intros id' k' sn. unfold sent. cbn. unfold Flight.work. rewrite E. cbn. apply H4.
Qed.

Lemma inv_complete y id k j r :
  inv y -> Flight.jobs (flight (cache y)) !! id = Some (k, j) ->
  (forall sn, r = inl sn -> got y k sn /\ forall c, snapshots (cache y) !! k = Some c -> fetched_at c <= fetched_at sn) ->
  inv (on_cache y (complete id r (cache y))).
Proof.
  intros Hi E Hr. pose proof Hi as [H1 H2 H3 H4 H5]. unfold complete. rewrite E. set (c := MkState _ _).
  assert (grows y (on_cache y c)) as Hg by (apply grows_cache; [intros; by apply Flight.finish_keeps|intros; by apply Flight.ended_kept]).
  split; cbn; [by apply Flight.flight_finish| | | |exact (readers_kept y _ Hi Hg eq_refl)].
  - intros k' sn Hk. eapply grows_got; [exact Hg|]. destruct r as [sn'|f]; [|by apply H2]. apply lookup_insert_Some in Hk as [[<- <-]|[_ Hk]]; [by apply Hr|by apply H2].
  - rewrite (Flight.finish_own id r _ k j) by done. cbn. intros id' k' x. rewrite lookup_delete_Some. intros [Hn Hx]. destruct (H3 _ _ _ Hx) as [Ha Hb]. split; [intros e He; eapply grows_got; eauto|].
    intros tag at_ Ht. destruct (Hb _ _ Ht) as [? Hc]. split; [done|]. cbn. destruct r as [sn'|f]; [|done]. intros sn. rewrite lookup_insert_ne; [apply Hc|]. intros <-. apply Hn. by eapply Flight.one_flight.
  - intros id' k' sn. unfold sent. cbn. rewrite (Flight.finish_own id r _ k j) by done. cbn. rewrite lookup_insert_Some. intros [[<- [= <- ->]]|[_ Hs]]; [eapply grows_got; [exact Hg|by apply Hr]|eapply grows_got; [exact Hg|by eapply H4]].
Qed.

Lemma inv_start y q e : inv y -> (forall sn, e = Some sn -> got y (q_key q) sn) ->
  inv (on_cache y (refresh (q_base q) (q_key q) e (cache y)).2) /\ grows y (on_cache y (refresh (q_base q) (q_key q) e (cache y)).2) /\
  flown (on_cache y (refresh (q_base q) (q_key q) e (cache y)).2) (q_key q) (refresh (q_base q) (q_key q) e (cache y)).1.
Proof.
  intros Hi He. pose proof Hi as [H1 H2 H3 H4 H5]. unfold refresh. set (c := MkState _ _). cbn [fst snd].
  assert (grows y (on_cache y c)) as Hg by (apply grows_cache; cbn; [intros; by apply Flight.start_keeps|intros; by rewrite Flight.start_ended]).
  split; [|split; [done|by apply Flight.start_flown]]. split; cbn; [by apply Flight.flight_start| | | |exact (readers_kept y _ Hi Hg eq_refl)].
  - intros k sn Hk. eapply grows_got; eauto.
  - unfold Flight.start. destruct (Flight.active (flight (cache y)) !! q_key q); cbn; [intros id k j Hj; eapply grows_job; eauto; done|].
    intros id k j. rewrite lookup_insert_Some. intros [[_ [= <- <-]]|[_ Hj]]; [|eapply grows_job; eauto; done]. split; [intros sn Hs; eapply grows_got; eauto|done].
  - intros id k sn. unfold sent. cbn. rewrite Flight.start_ended. apply H4.
Qed.

Lemma inv_reader y r x : inv y -> reader_ok y x -> inv (on_reader r x y).
Proof.
  intros Hi Hx. apply (inv_same y); [done|by apply grows_same|done|]. intros r' x'. cbn. rewrite lookup_insert_Some.
  intros [[_ <-]|[_ Hr]]; (eapply grows_reader; [by apply (grows_same y)|]); [done|by eapply (i_readers _ Hi)].
Qed.

Lemma inv_body y id k j tag at_ b : inv y -> Flight.jobs (flight (cache y)) !! id = Some (k, j) -> phase j = Reading tag at_ ->
  inv (MkSystem (body tag at_ b id (cache y)) (readers y) (now y) (brought id tag b (cache y) ++ received y)).
Proof.
  intros Hi E Hp. set (y1 := MkSystem (cache y) (readers y) (now y) (brought id tag b (cache y) ++ received y)).
  assert (grows y y1) as Hg by (apply grows_same; [set_solver|done|done]).
  assert (inv y1) as Hi1 by (apply (inv_same y); [done|done|done|exact (readers_kept y _ Hi Hg eq_refl)]).
  apply (inv_complete y1 id k j); [done|done|]. intros sn Hs. destruct (i_jobs _ Hi1 _ _ _ E) as [_ Hb]. destruct (Hb _ _ Hp) as [Ha Hc].
  unfold got. subst y1. cbn in *. unfold brought. rewrite E. destruct b as [payload|f]; [|done]. destruct (parse_payload payload) as [l|f]; [|done]. injection Hs as <-. cbn. split; [|done]. split; [set_solver|done].
Qed.

Lemma inv_respond y id k j r : inv y -> Flight.jobs (flight (cache y)) !! id = Some (k, j) -> inv (on_cache y (respond (now y) r id j (cache y))).
Proof.
  intros Hi E. destruct (i_jobs _ Hi _ _ _ E) as [He _]. unfold respond.
  assert (inv (on_cache y (if negb ((200 <=? status r) && (status r <? 300)) then complete id (inr (refused r)) (cache y)
            else MkState (snapshots (cache y)) (Flight.work id (MkJob (base j) (existing j) (Reading (r_etag r) (now y))) (flight (cache y)))))) as Hb.
  { destruct (negb _); [by eapply inv_complete|]. eapply inv_work; [done|done|done|]. cbn. by intros ? ? [= _ <-]. }
  destruct (existing j) as [e|] eqn:Ee; [|done]. destruct (status r =? 304); [|done]. eapply inv_complete; [done|done|]. intros sn [= <-]. destruct (He e eq_refl) as [H1 _].
  split; [split; [exact H1|done]|]. cbn. intros c Hc. by apply (i_cached _ Hi) in Hc as [_ ?].
Qed.

Lemma catalog_step_inv y y' : inv y -> step y y' -> inv y'.
Proof.
  intros Hi Hs. destruct Hs as [t Ht|r q Hn|r q e Hr|r q e at_ Hr|r q e id a Hr Ha|id k j E Hp|id k j url tag r E Hp|id k j url tag f E Hp|id k j tag at_ b E Hp|id k j E].
  - assert (grows y (MkSystem (cache y) (readers y) t (received y))) as Hg by (by apply grows_same). apply (inv_same y); [done|done|done|exact (readers_kept y _ Hi Hg eq_refl)].
  - apply inv_reader; [done|]. cbn. intros sn Hs. by apply (i_cached _ Hi).
  - pose proof (i_readers _ Hi _ _ Hr) as Hok. cbn in Hok. apply inv_reader; [done|]. destruct e as [sn|]; cbn; [|done].
    destruct (negb (q_force q) && _) eqn:Ef; cbn.
    + reflect_bools. split; [by apply Hok|]. split; [done|]. split; [done|lia].
    + intros x [= <-]. split; [by apply Hok|]. intros Hf. rewrite Hf in Ef. cbn in Ef. lia.
  - pose proof (i_readers _ Hi _ _ Hr) as Hok. cbn in Hok. destruct (inv_start y q e Hi (fun sn Hs => proj1 (Hok sn Hs))) as (Hi' & Hg & Hf). unfold read_refresh.
    destruct e as [sn|]; [destruct (q_force q) eqn:Eq|]; cbn [fst snd]; apply inv_reader; try done.
    + cbn. split; [by left|done].
    + destruct (Hok sn eq_refl) as [Hgot Httl]. cbn. split; [by eapply grows_got|]. split; [done|]. split; [done|]. split; [by apply Httl|exact Hf].
    + cbn. split; [by right|done].
  - pose proof (i_readers _ Hi _ _ Hr) as [Hw Hok]. apply inv_reader; [done|]. unfold awaited in Ha.
    destruct (Flight.ended (flight (cache y)) !! id) as [[k' [[sn|f]|]]|] eqn:Ee; simplify_eq; cbn; try done.
    assert (k' = q_key q) as ->.
    { destruct Hok as [[j Ej]|[x Ex]]; [|congruence]. apply (Flight.w_ended _ (i_flight _ Hi)) in Ee as [? _]. congruence. }
    split; [by eapply (i_sent _ Hi)|done].
  - unfold poll. destruct (models_url (base j)); [by eapply inv_work|by eapply inv_complete].
  - by eapply inv_respond.
  - by eapply inv_complete.
  - by eapply inv_body.
  - pose proof Hi as [H1 H2 H3 H4 H5]. set (c := MkState _ _).
    assert (grows y (on_cache y c)) as Hg by (apply grows_cache; [intros; by apply Flight.crash_keeps|intros; by apply Flight.ended_kept]).
    split; cbn; [by apply Flight.flight_crash| | | |exact (readers_kept y _ Hi Hg eq_refl)].
    + intros k' sn Hk. eapply grows_got; eauto.
    + unfold Flight.crash. rewrite E. cbn. intros id' k' x. rewrite lookup_delete_Some. intros [_ Hx]. eapply grows_job; eauto; done.
    + intros id' k' sn. unfold sent. cbn. unfold Flight.crash. rewrite E. cbn. rewrite lookup_insert_Some. intros [[_ ?]|[_ Hs]]; [done|]. by eapply H4.
Qed.

Lemma catalog_inv y : reach y -> inv y.
Proof.
  induction 1 as [t|y y' _ IH Hs]; [|by eapply catalog_step_inv]. split; cbn; [apply Flight.flight_new|intros *; by rewrite lookup_empty..| |intros *; by rewrite lookup_empty].
  intros id k sn. unfold sent. cbn. by rewrite lookup_empty.
Qed.

(** ** The snapshot of a key *)

Definition newer (y y' : System) : Prop := forall k a, snapshots (cache y) !! k = Some a -> exists b, snapshots (cache y') !! k = Some b /\ fetched_at a <= fetched_at b.

Lemma complete_newer y id k j r : Flight.jobs (flight (cache y)) !! id = Some (k, j) ->
  (forall sn, r = inl sn -> forall c, snapshots (cache y) !! k = Some c -> fetched_at c <= fetched_at sn) -> newer y (on_cache y (complete id r (cache y))).
Proof.
  intros E Hr k' a Ha. unfold complete. rewrite E. cbn. destruct r as [sn|f]; [|by exists a]. destruct (decide (k = k')) as [<-|Hn].
  - exists sn. rewrite lookup_insert_eq. split; [done|]. by apply (Hr sn).
  - exists a. by rewrite lookup_insert_ne.
Qed.

Lemma step_newer y y' : inv y -> step y y' -> newer y y'.
Proof.
  intros Hi Hs. assert (forall c, snapshots c = snapshots (cache y) -> newer y (on_cache y c)) as Hsame by (intros c E k a Ha; exists a; cbn; by rewrite E).
  destruct Hs as [t Ht|r q Hn|r q e Hr|r q e at_ Hr|r q e id a Hr Ha|id k j E Hp|id k j url tag r E Hp|id k j url tag f E Hp|id k j tag at_ b E Hp|id k j E].
  - intros k a Ha. by exists a.
  - intros k a Ha. by exists a.
  - intros k a Ha. by exists a.
  - intros k a Ha. exists a. cbn. split; [|done]. unfold read_refresh, refresh. destruct e; [destruct (q_force q)|]; done.
  - intros k a' Ha'. by exists a'.
  - unfold poll. destruct (models_url (base j)); [by apply Hsame|by eapply complete_newer].
  - assert (forall c, c = complete id (inl (MkSnapshot (from_option etag None (existing j)) (now y) (from_option models [] (existing j)))) (cache y) \/ snapshots c = snapshots (cache y) -> newer y (on_cache y c)) as Hc.
    { intros c [->|Hc]; [|by apply Hsame]. eapply complete_newer; [done|]. intros sn [= <-] c Hc. cbn. by apply (i_cached _ Hi) in Hc as [_ ?]. }
    apply Hc. unfold respond. destruct (existing j) as [e|]; cbn; [destruct (status r =? 304); [by left|]|]; right; by destruct (negb _).
  - by eapply complete_newer.
  - destruct (i_jobs _ Hi _ _ _ E) as [_ Hb]. destruct (Hb _ _ Hp) as [_ Hc]. intros k' a Ha.
    refine (complete_newer y id k j (match b with inl payload => match parse_payload payload with inl l => inl (MkSnapshot tag at_ l) | inr f => inr f end | inr f => inr f end) E _ k' a Ha).
    intros sn Hs. destruct b as [payload|f]; [|done]. destruct (parse_payload payload); [|done]. injection Hs as <-. exact Hc.
  - by apply Hsame.
Qed.

(** ** Theorems *)

(** One fetch runs for a key at a time, and the entry of a key is that of the task
    that runs for it or of one that was lost. *)
Theorem catalog_single_flight y : reach y ->
  (forall id id' k j j', Flight.jobs (flight (cache y)) !! id = Some (k, j) -> Flight.jobs (flight (cache y)) !! id' = Some (k, j') -> id = id') /\
  forall k id, Flight.active (flight (cache y)) !! k = Some id -> (exists j, Flight.jobs (flight (cache y)) !! id = Some (k, j)) \/ Flight.ended (flight (cache y)) !! id = Some (k, None).
Proof. intros Hi%catalog_inv. split; [intros; by eapply Flight.one_flight; [apply Hi|..]|apply Hi]. Qed.

(** C38: while the clock does not go back, whatever readers and fetches run beside
    each other, an answered read has a snapshot whose tag and models came together
    in an answer for its key, fetched in the past, and it was answered in one of
    three ways. From the cache: only when it was not forced and the snapshot was
    younger than the limit at its clock. Stale: only when it was not forced and the
    snapshot had reached the limit, with a refresh of its key beside it. Or by the
    very refresh it waited for, with what that refresh sent: when it was forced or
    saw no snapshot. The refresh a read starts or joins runs for its key, or is one
    that was lost to a panic; it is never one that has ended with a result. A
    snapshot of a key is never replaced by one that was fetched earlier. *)
Theorem catalog_answers y : reach y ->
  (forall r q rd w, readers y !! r = Some (Answered q rd w) ->
    (q_key q, (etag (snapshot rd), models (snapshot rd))) ∈ received y /\ fetched_at (snapshot rd) <= now y /\
    match w with
    | Fresh at_ => q_force q = false /\ rd = MkRead (snapshot rd) false None /\ at_ - fetched_at (snapshot rd) < ttl_ms
    | Served at_ id => q_force q = false /\ rd = MkRead (snapshot rd) true (Some id) /\ ttl_ms <= at_ - fetched_at (snapshot rd) /\ flown y (q_key q) id
    | Awaited e id => (q_force q = true \/ e = None) /\ rd = MkRead (snapshot rd) false None /\ sent y (q_key q) id (snapshot rd)
    end) /\
  (forall b k e, let r := refresh b k e (cache y) in
    (exists j, Flight.jobs (flight r.2) !! r.1 = Some (k, j)) \/ Flight.ended (flight (cache y)) !! r.1 = Some (k, None)) /\
  forall y', step y y' -> forall k a, snapshots (cache y) !! k = Some a -> exists b, snapshots (cache y') !! k = Some b /\ fetched_at a <= fetched_at b.
Proof.
  intros Hi%catalog_inv. split; [|split; [|intros y' Hs; by apply step_newer]].
  - intros r q rd w Hr. destruct (i_readers _ Hi _ _ Hr) as [[H1 H2] H3]. done.
  - intros b k e. unfold refresh, Flight.start. cbn. destruct (Flight.active (flight (cache y)) !! k) as [id|] eqn:E; cbn; [by apply (Flight.w_active _ (i_flight _ Hi))|].
    left. eexists. by rewrite lookup_insert_eq.
Qed.

(** A refresh that panics leaves its entry: from then on the key is never fetched
    again, its snapshot never changes, and every refresh of it is that one. *)
Definition stuck (k : text) (id : Z) (sn : option CatalogSnapshot) (y : System) : Prop := Flight.wedged k id (flight (cache y)) /\ snapshots (cache y) !! k = sn.

Lemma stuck_step k id sn y y' : inv y -> stuck k id sn y -> step y y' -> stuck k id sn y'.
Proof.
  intros Hi [Hw Hs] Hst. pose proof (i_flight _ Hi) as Hf. destruct (Flight.wedged_stays k id _ Hf Hw) as (W1 & W2 & W3 & W4).
  assert (forall i k' j r, Flight.jobs (flight (cache y)) !! i = Some (k', j) -> stuck k id sn (on_cache y (complete i r (cache y)))) as Hc.
  { intros i k' j r E. split; cbn; [apply W3|]. rewrite E. destruct r as [x|]; [|done]. rewrite lookup_insert_ne; [done|]. intros ->.
    destruct Hw as [Ha He]. destruct (Flight.w_jobs _ Hf _ _ _ E) as [Ha' _]. destruct (Flight.w_ended _ Hf _ _ He) as [En _]. congruence. }
  destruct Hst as [t Ht|r q Hn|r q e Hr|r q e at_ Hr|r q e i a Hr Ha|i k' j E Hp|i k' j url tag r E Hp|i k' j url tag f E Hp|i k' j tag at_ b E Hp|i k' j E]; try done.
  - unfold read_refresh, refresh. destruct e; [destruct (q_force q)|]; split; cbn; done || apply W1.
  - unfold poll. destruct (models_url (base j)); [split; [apply W2|done]|by eapply Hc].
  - unfold respond. destruct (existing j); [destruct (status r =? 304); [by eapply Hc|]|]; (destruct (negb _); [by eapply Hc|split; [apply W2|done]]).
  - by eapply Hc.
  - exact (Hc i k' j _ E).
  - split; [apply W4|done].
Qed.

Theorem lost_refresh_wedges y y' id k j : reach y -> Flight.jobs (flight (cache y)) !! id = Some (k, j) ->
  rtc step (on_cache y (MkState (snapshots (cache y)) (Flight.crash id (flight (cache y))))) y' ->
  Flight.active (flight (cache y')) !! k = Some id /\ snapshots (cache y') !! k = snapshots (cache y) !! k /\
  (forall b e, (refresh b k e (cache y')).1 = id) /\ awaited id (cache y') = Some (inr (lit "Catalog refresh task failed.")).
Proof.
  intros Hi%catalog_inv E Hr. set (y1 := on_cache y _) in Hr.
  assert (inv y1 /\ stuck k id (snapshots (cache y) !! k) y1) as Hy.
  { split; [eapply catalog_step_inv; [exact Hi|]; by eapply step_panic|]. split; [by eapply Flight.crash_wedges; [apply Hi|]|done]. }
  clearbody y1. assert (inv y' /\ stuck k id (snapshots (cache y) !! k) y') as [_ [[Ha He] Hs]].
  { induction Hr as [y1|y1 y2 y3 Hst _ IH]; [done|]. apply IH. destruct Hy as [Hi1 Hs1]. split; [by eapply catalog_step_inv|by eapply stuck_step]. }
  split; [done|]. split; [done|]. split; [|unfold awaited; by rewrite He]. intros b e. unfold refresh, Flight.start. by rewrite Ha.
Qed.

(** ** Settling *)

Definition sound_ends (y : System) : Prop := forall id k, Flight.ended (flight (cache y)) !! id <> Some (k, None).
Definition idle (y : System) : Prop := Flight.jobs (flight (cache y)) = ∅.

(** Readers in a phase leave it one by one. *)
Lemma clear_readers (P : Reader -> bool) (I : System -> Prop) :
  (forall y r x, I y -> readers y !! r = Some x -> P x = true -> exists y' x', step y y' /\ I y' /\ readers y' = <[r := x']> (readers y) /\ P x' = false) ->
  forall y, I y -> exists y', rtc step y y' /\ I y' /\ forall r x, readers y' !! r = Some x -> P x = false.
Proof.
  intros Hstep y. remember (size (filter (fun p : Z * Reader => P p.2 = true) (readers y))) as n eqn:En. revert y En.
  induction n as [|n IH]; intros y En Hi.
  - exists y. split; [done|]. split; [done|]. intros r x Hr. destruct (P x) eqn:Ep; [|done]. symmetry in En. apply map_size_empty_inv in En.
    assert (filter (fun p : Z * Reader => P p.2 = true) (readers y) !! r = Some x) as Hf by (by apply map_lookup_filter_Some). rewrite En in Hf. done.
  - destruct (map_choose (filter (fun p : Z * Reader => P p.2 = true) (readers y))) as (r & x & Hf); [intros Hn; rewrite Hn in En; by rewrite map_size_empty in En|].
    pose proof Hf as Hf'. apply map_lookup_filter_Some in Hf' as [Hr Hp]. destruct (Hstep y r x Hi Hr Hp) as (y1 & x1 & Hs & Hi1 & Er & Hx).
    destruct (IH y1) as (y2 & Hrun & H2 & H3); [|done|exists y2; split; [by eapply rtc_l|done]].
    rewrite Er, map_filter_insert_False by (cbn; by rewrite Hx). rewrite map_filter_delete, map_size_delete, Hf. lia.
Qed.

Definition is_seen (x : Reader) : bool := match x with Seen _ _ => true | _ => false end.
Definition is_looked (x : Reader) : bool := match x with Seen _ _ | Looked _ _ _ => true | _ => false end.
Definition is_waiting (x : Reader) : bool := match x with Waiting _ _ _ => true | _ => false end.

Lemma check_all y : reach y -> sound_ends y -> exists y', rtc step y y' /\ (reach y' /\ sound_ends y') /\ forall r x, readers y' !! r = Some x -> is_seen x = false.
Proof.
  intros Hr Hn. apply (clear_readers is_seen (fun y => reach y /\ sound_ends y)); [|done]. clear y Hr Hn. intros y r x [Hr Hn] Hx Hp. destruct x as [q e| | | |]; try done.
  eexists _, _. split; [by eapply step_check|]. split; [split; [by eapply reach_step, step_check|done]|split; [reflexivity|by destruct (read_fresh _ _ _)]].
Qed.

Lemma refresh_all y : reach y -> sound_ends y -> exists y', rtc step y y' /\ (reach y' /\ sound_ends y') /\ forall r x, readers y' !! r = Some x -> is_looked x = false.
Proof.
  intros Hr Hn. destruct (check_all y Hr Hn) as (y1 & S1 & [R1 N1] & L1).
  destruct (clear_readers is_looked (fun y => (reach y /\ sound_ends y) /\ forall r x, readers y !! r = Some x -> is_seen x = false)) with (y := y1) as (y2 & S2 & [H2 _] & L2);
    [|done|exists y2; split; [by etrans|done]].
  clear y y1 Hr Hn S1 R1 N1 L1. intros y r x [[Hr Hn] Hl] Hx Hp. specialize (Hl r x Hx) as Hs. destruct x as [q e|q e at_| | |]; try done.
  assert (is_looked (match (read_refresh (q_base q) (q_key q) (q_force q) e (cache y)).1 with
                         | inl rd => Answered q rd (Served at_ (refresh (q_base q) (q_key q) e (cache y)).1)
                         | inr id => Waiting q e id
                         end) = false) as Hb by (by destruct (read_refresh _ _ _ _ _).1).
  eexists _, _. split; [by eapply step_refresh|]. split; [split; [split; [by eapply reach_step, step_refresh|]|]|split; [reflexivity|exact Hb]].
  - intros id k. cbn. unfold read_refresh, refresh. destruct e as [sn|]; [destruct (q_force q)|]; cbn; rewrite Flight.start_ended; apply Hn.
  - intros r' x'. cbn. rewrite lookup_insert_Some. intros [[_ <-]|[_ Hx']]; [by destruct (read_refresh _ _ _ _ _).1|by eapply Hl].
Qed.

(** A task ends when its fetch fails, at the latest. *)
Lemma end_job y id k j : reach y -> sound_ends y -> Flight.jobs (flight (cache y)) !! id = Some (k, j) ->
  exists y', rtc step y y' /\ reach y' /\ sound_ends y' /\ readers y' = readers y /\ Flight.jobs (flight (cache y')) = delete id (Flight.jobs (flight (cache y))).
Proof.
  assert (forall y j f, sound_ends y -> Flight.jobs (flight (cache y)) !! id = Some (k, j) ->
    sound_ends (on_cache y (complete id (inr f) (cache y))) /\ Flight.jobs (flight (complete id (inr f) (cache y))) = delete id (Flight.jobs (flight (cache y)))) as Hc.
  { clear y j. intros y j f Hn E. unfold complete, sound_ends. cbn. unfold Flight.finish. rewrite E. cbn. split; [|done]. intros id' k'. rewrite lookup_insert_Some. intros [[_ ?]|[_ ?]]; [done|by eapply Hn]. }
  assert (forall y j url tag, reach y -> sound_ends y -> Flight.jobs (flight (cache y)) !! id = Some (k, j) -> phase j = Fetching url tag ->
    exists y', rtc step y y' /\ reach y' /\ sound_ends y' /\ readers y' = readers y /\ Flight.jobs (flight (cache y')) = delete id (Flight.jobs (flight (cache y)))) as Hf.
  { clear y j. intros y j url tag Hr Hn E Hp. pose proof (step_fetch_failed y id k j url tag [] E Hp) as Hs. eexists. split; [by apply rtc_once|]. split; [by eapply reach_step|]. destruct (Hc y j [] Hn E). done. }
  intros Hr Hn E. destruct (phase j) as [|url tag|tag at_] eqn:Hp; [|by eapply Hf|].
  - pose proof (step_poll y id k j E Hp) as Hs. assert (reach (on_cache y (poll id j (cache y)))) as Hr' by (by eapply reach_step). unfold poll in *. destruct (models_url (base j)) as [url|].
    + set (y1 := on_cache y _) in *. assert (sound_ends y1) as Hn1 by (unfold sound_ends; cbn; unfold Flight.work; by rewrite E).
      assert (Flight.jobs (flight (cache y1)) = <[id := (k, MkJob (base j) (existing j) (Fetching url (sent_etag j)))]> (Flight.jobs (flight (cache y)))) as Ej by (cbn; unfold Flight.work; by rewrite E).
      destruct (Hf y1 (MkJob (base j) (existing j) (Fetching url (sent_etag j))) url (sent_etag j)) as (y2 & H1 & H2 & H3 & H4 & H5); [done|done|by rewrite Ej, lookup_insert_eq|done|].
      exists y2. split; [by eapply rtc_l|]. split; [done|]. split; [done|]. split; [done|]. rewrite H5, Ej. apply delete_insert_eq.
    + eexists. split; [by apply rtc_once|]. split; [done|]. by destruct (Hc y j (lit "Invalid URL") Hn E).
  - pose proof (step_body y id k j tag at_ (inr []) E Hp) as Hs. eexists. split; [by apply rtc_once|]. split; [by eapply reach_step|]. by destruct (Hc y j [] Hn E).
Qed.

Lemma end_all y : reach y -> sound_ends y -> exists y', rtc step y y' /\ reach y' /\ sound_ends y' /\ readers y' = readers y /\ idle y'.
Proof.
  remember (size (Flight.jobs (flight (cache y)))) as n eqn:En. revert y En. induction n as [|n IH]; intros y En Hr Hn.
  - exists y. unfold idle. symmetry in En. apply map_size_empty_inv in En. done.
  - destruct (map_choose (Flight.jobs (flight (cache y)))) as (id & [k j] & E); [intros Hm; rewrite Hm in En; by rewrite map_size_empty in En|].
    destruct (end_job y id k j Hr Hn E) as (y1 & S1 & R1 & N1 & Q1 & J1). destruct (IH y1) as (y2 & S2 & R2 & N2 & Q2 & J2); [by rewrite J1, map_size_delete, E, <- En|done|done|].
    exists y2. split; [by etrans|]. split; [done|]. split; [done|]. split; [congruence|done].
Qed.

Lemma wake_all y : reach y -> sound_ends y -> idle y -> (forall r x, readers y !! r = Some x -> is_looked x = false) ->
  exists y', rtc step y y' /\ (reach y' /\ sound_ends y' /\ idle y' /\ forall r x, readers y' !! r = Some x -> is_looked x = false) /\ forall r x, readers y' !! r = Some x -> is_waiting x = false.
Proof.
  intros Hr Hn Hi Hl. apply (clear_readers is_waiting (fun y => reach y /\ sound_ends y /\ idle y /\ forall r x, readers y !! r = Some x -> is_looked x = false)); [|done].
  clear y Hr Hn Hi Hl. intros y r x (Hr & Hn & Hi & Hl) Hx Hp. destruct x as [| |q e id| |]; try done.
  assert (exists a, awaited id (cache y) = Some a) as [a Ha].
  { pose proof (i_readers _ (catalog_inv _ Hr) _ _ Hx) as [_ [[j Ej]|[z Ez]]]; [by rewrite Hi in Ej|]. unfold awaited. rewrite Ez. destruct z as [[]|]; eauto. }
  pose proof (step_wake y r q e id a Hx Ha) as Hs. eexists _, _. split; [exact Hs|]. split; [|split; [reflexivity|by destruct a]].
  split; [by eapply reach_step|]. split; [done|]. split; [done|]. intros r' x'. cbn. rewrite lookup_insert_Some. intros [[_ <-]|[_ Hx']]; [by destruct a|by eapply Hl].
Qed.

(** Unless a task was lost, fetches can always end so that every read is answered
    or refused and nothing is left for [drain] to wait for. *)
Theorem catalog_settles y : reach y -> sound_ends y ->
  exists y', rtc step y y' /\ Flight.active (flight (cache y')) = ∅ /\ forall r x, readers y' !! r = Some x -> exists q, (exists rd w, x = Answered q rd w) \/ exists f, x = Refused q f.
Proof.
  intros Hr Hn. destruct (refresh_all y Hr Hn) as (y1 & S1 & [R1 N1] & L1). destruct (end_all y1 R1 N1) as (y2 & S2 & R2 & N2 & Q2 & I2).
  destruct (wake_all y2 R2 N2 I2) as (y3 & S3 & (R3 & N3 & I3 & L3) & W3); [by rewrite Q2|]. exists y3. split; [by etrans; [|etrans]|]. split.
  - apply map_empty. intros k. apply eq_None_not_Some. intros [id Ha]. destruct (Flight.w_active _ (i_flight _ (catalog_inv _ R3)) _ _ Ha) as [[j Ej]|Ee]; [by rewrite I3 in Ej|by eapply N3].
  - intros r x Hx. specialize (L3 _ _ Hx). specialize (W3 _ _ Hx). destruct x as [| | |q rd w|q f]; try done; exists q; eauto.
Qed.

(** ** What a payload is read as *)

(** A model: an object whose identifier is a trimmed text that is not empty. *)
Definition modelled (v : Value) : Prop := exists o s, v = Object o /\ IndexMap.get ID o = Some (String_ s) /\ s <> [] /\ trim s = s.

Lemma keep_modelled v w : keep v = Some w -> modelled w.
Proof.
  destruct v as [| | | | |o]; unfold keep; try done. destruct (text_of (index o ID)) as [id|] eqn:E; [|done]. unfold mbind, option_bind. intros [= <-]. exists (IndexMap.insert ID (String_ id) o), id.
  split; [done|]. split; [apply IndexMap.get_insert_eq|]. revert E. unfold text_of. destruct (index o ID) as [| | |s| |]; try done. case_bool_decide; [done|]. intros [= <-]. split; [done|apply trim_idem].
Qed.

Lemma insert_same (k : units) (v : Value) o : IndexMap.get k o = Some v -> IndexMap.insert k v o = o.
Proof. induction o as [|[k' v'] o IH]; cbn; [done|]. case_decide; intros E; [by simplify_eq|]. by rewrite IH. Qed.

Lemma keep_model v : modelled v -> keep v = Some v.
Proof.
  intros (o & s & -> & E & Hs & Ht). unfold keep, index. rewrite E. cbn [default text_of]. unfold text_of, mbind, option_bind. cbn. rewrite Ht, bool_decide_false by done. by rewrite insert_same.
Qed.

(** Every model of a payload has an identifier, none is made up, and a payload of
    models is read back as it is. *)
Theorem payload_models payload l : parse_payload payload = inl l ->
  Forall modelled l /\ (length l <= match object_field payload (lit "data") with Array d => length d | _ => 0 end)%nat /\ parse_payload (Object [(lit "data", Array l)]) = inl l.
Proof.
  unfold parse_payload. destruct (object_field payload (lit "data")) as [| | | |d|] eqn:E; try done. intros [= <-].
  assert (Forall modelled (omap keep d)) as Hm by (apply Forall_forall; intros w (v & _ & Hk)%list_elem_of_omap; by eapply keep_modelled).
  split; [done|]. split; [clear; induction d as [|v d IH]; cbn; [lia|]; destruct (keep v); cbn; lia|]. cbn. f_equal. generalize dependent (omap keep d). clear. intros l Hm.
  induction Hm as [|v l Hv _ IH]; cbn; [done|]. rewrite (keep_model v Hv). cbn. by rewrite IH.
Qed.
End catalog.

Module Sample.
#[local] Instance whole_numbers : Numbers := {| num := Z; is_finite _ := true; format_finite _ := []; parse_number _ := None; num_eq := Z.eqb |}.
Definition url (b : text) : option text := if bool_decide (b = []) then None else Some (b ++ lit "/models").
Definition payload : Value := Object [(lit "data", Array [Object [(lit "id", String_ (lit " m "))]; Null])].
Definition q : Request := MkRequest (lit "https://openrouter.ai") (lit "public") true.
Definition y0 : System := MkSystem init ∅ 5 [].
Definition y1 : System := on_reader 1 (Looked q None 5) (on_reader 1 (Seen q None) y0).
Definition y2 : System := on_reader 1 (Waiting q None 1) (on_cache y1 (refresh (q_base q) (q_key q) None (cache y1)).2).
Definition job (p : Phase) : Job := MkJob (q_base q) None p.
Definition y3 : System := on_cache y2 (poll url 1 (job Spawned) (cache y2)).
Definition y4 : System := on_cache y3 (respond 5 (MkResponse 200 [] (Some (lit "t"))) 1 (job (Fetching (lit "https://openrouter.ai/models") None)) (cache y3)).
Definition y5 : System := MkSystem (body (Some (lit "t")) 5 (inl payload) 1 (cache y4)) (readers y4) 5 (brought 1 (Some (lit "t")) (inl payload) (cache y4) ++ []).
Definition rd : CatalogRead := MkRead (MkSnapshot (Some (lit "t")) 5 [Object [(lit "id", String_ (lit "m"))]]) false None.
Definition y6 : System := on_reader 1 (Answered q rd (Awaited None 1)) y5.

Lemma catalog_reached : reach url 1000 y6.
Proof.
  assert (reach url 1000 y1) as H1 by (eapply reach_step; [eapply reach_step; [apply (reach_init url 1000 5)|by apply (step_lookup url 1000 y0 1 q)]|by apply (step_check url 1000 (on_reader 1 (Seen q None) y0) 1 q None)]).
  assert (reach url 1000 y2) as H2 by (eapply reach_step; [exact H1|by apply (step_refresh url 1000 y1 1 q None 5)]).
  assert (reach url 1000 y3) as H3 by (eapply reach_step; [exact H2|by apply (step_poll url 1000 y2 1 (lit "public") (job Spawned))]).
  assert (reach url 1000 y4) as H4 by (eapply reach_step; [exact H3|by eapply (step_respond url 1000 y3 1 (lit "public"))]).
  assert (reach url 1000 y5) as H5 by (eapply reach_step; [exact H4|by eapply (step_body url 1000 y4 1 (lit "public"))]).
  eapply reach_step; [exact H5|]. by apply (step_wake url 1000 y5 1 q None 1 (inl rd)).
Qed.

Lemma catalog_answers_witness :
  readers y6 !! 1 = Some (Answered q rd (Awaited None 1)) /\ (q_key q, (etag (snapshot rd), models (snapshot rd))) ∈ received y6 /\ sent y6 (q_key q) 1 (snapshot rd).
Proof.
  destruct (catalog_answers url 1000 y6 catalog_reached) as [Ha _]. assert (readers y6 !! 1 = Some (Answered q rd (Awaited None 1))) as E by (vm_compute; reflexivity).
  destruct (Ha 1 q rd _ E) as (H1 & _ & _ & _ & H2). split; [exact E|]. split; [exact H1|exact H2].
Defined.
End Sample.
End Catalog.
