(* ===== verification/Hydrator.v ===== *)
(** * Hydration of catalogs at run time

    [Hydrator] models src/cantrip_server_rs/src/settings/openrouter/hydrator.rs: the
    providers whose catalog was loaded in this process, and the loads under way,
    one a provider ([Flight]). Callers are interleaved at the locks they take; the
    loader and the URL test of [is_provider] are outside. *)
From S2P Require Import Prelude Flight JsString Wire Catalog.
From stdpp Require Import base numbers strings gmap option list relations.
Open Scope Z_scope.

Module Hydrator.
Import Text JsString Wire.

Section hydrator.
Context `{Numbers} (is_provider : units -> units -> bool).

Definition Error := units.
#[local] Notation Loaded := (bool + Error)%type.
Record State := MkState { hydrated : list units; flight : Flight.t units unit Loaded }.
Definition new : State := MkState [] Flight.new.

(** [IndexSet]: a member keeps its place. *)
Definition set_insert (p : units) (l : list units) : list units := if bool_decide (p ∈ l) then l else l ++ [p].
Definition invalidate (p : units) (s : State) : State := MkState (filter (fun x => x <> p) (hydrated s)) (flight s).
Definition mark_hydrated (p : units) (s : State) : State := MkState (set_insert p (hydrated s)) (flight s).

(** The provider a runtime asks for, if any; no result is a panic. *)
Definition provider_of (runtime : Value) : option (option units) :=
  let provider := Catalog.object_field runtime (lit "provider") in
  match Catalog.object_field provider (lit "kind"), Catalog.object_field provider (lit "baseUrl") with
  | String_ kind, String_ base =>
      if is_provider kind base then match Catalog.object_field provider (lit "id") with String_ id => Some (Some id) | _ => None end else Some None
  | _, _ => Some None
  end.
Fixpoint collect (runtimes : list Value) (set : list units) : option (list units) :=
  match runtimes with
  | [] => Some set
  | v :: l => p ← provider_of v; collect l (match p with Some id => set_insert id set | None => set end)
  end.
(** The providers to load, under the first lock. *)
Definition wanted (runtimes : list Value) (s : State) : option (list units) := ps ← collect runtimes []; Some (filter (fun p => p ∉ hydrated s) ps).
Definition start (p : units) (s : State) : Z * State := let r := Flight.start p tt (flight s) in (r.1, MkState (hydrated s) r.2).
(** The end of a load: marked when it loaded, then its entry goes and it sends. *)
Definition complete (id : Z) (r : Loaded) (s : State) : State :=
  MkState (match r, Flight.jobs (flight s) !! id with inl true, Some (p, _) => set_insert p (hydrated s) | _, _ => hydrated s end) (Flight.finish id r (flight s)).
Definition lose (id : Z) (s : State) : State := MkState (hydrated s) (Flight.crash id (flight s)).

(** What a load sent; a dropped sender is an error. *)
Definition loaded (id : Z) (s : State) : option Loaded :=
  match Flight.ended (flight s) !! id with Some (_, Some r) => Some r | Some (_, None) => Some (inr (lit "Catalog hydration task failed.")) | None => None end.
(** [try_join_all]: the first error in order, or whether any load loaded. *)
Fixpoint joined (ids : list Z) (s : State) : option Loaded :=
  match ids with
  | [] => Some (inl false)
  | id :: ids =>
      match loaded id s, joined ids s with
      | Some (inr e), _ => Some (inr e)
      | _, Some (inr e) => Some (inr e)
      | Some (inl a), Some (inl b) => Some (inl (a || b))
      | _, _ => None
      end
  end.

(** ** The hydrator with its callers *)

(** A caller with the loads it still starts and those it has, by provider. *)
Inductive Caller := Starting (rest : list units) (loads : list (units * Z)) | Joining (loads : list (units * Z)) | Done (loads : list (units * Z)) (r : Loaded).
Inductive Event := Marked (p : units) | Invalidated (p : units).
(** [history] is kept for the statements, the latest event first. *)
Record System := MkSystem { state : State; callers : gmap Z Caller; history : list Event }.
Definition on_caller (c : Z) (x : Caller) (s : State) (y : System) : System := MkSystem s (<[c := x]> (callers y)) (history y).
Definition success (id : Z) (r : Loaded) (s : State) : list Event := match r, Flight.jobs (flight s) !! id with inl true, Some (p, _) => [Marked p] | _, _ => [] end.

Inductive step (y : System) : System -> Prop :=
| step_call c runtimes ps : callers y !! c = None -> wanted runtimes (state y) = Some ps -> step y (on_caller c (Starting ps []) (state y) y)
| step_start c p rest loads : callers y !! c = Some (Starting (p :: rest) loads) ->
    step y (on_caller c (Starting rest (loads ++ [(p, (start p (state y)).1)])) (start p (state y)).2 y)
| step_started c loads : callers y !! c = Some (Starting [] loads) -> step y (on_caller c (Joining loads) (state y) y)
| step_join c loads r : callers y !! c = Some (Joining loads) -> joined loads.*2 (state y) = Some r -> step y (on_caller c (Done loads r) (state y) y)
| step_complete id r : step y (MkSystem (complete id r (state y)) (callers y) (success id r (state y) ++ history y))
| step_lose id : step y (MkSystem (lose id (state y)) (callers y) (history y))
| step_mark p : step y (MkSystem (mark_hydrated p (state y)) (callers y) (Marked p :: history y))
| step_invalidate p : step y (MkSystem (invalidate p (state y)) (callers y) (Invalidated p :: history y)).
Inductive reach : System -> Prop :=
| reach_new : reach (MkSystem new ∅ [])
| reach_step y y' : reach y -> step y y' -> reach y'.

(** The latest word on a provider. *)
Fixpoint ready (h : list Event) (p : units) : bool :=
  match h with
  | [] => false
  | Marked q :: h => if bool_decide (q = p) then true else ready h p
  | Invalidated q :: h => if bool_decide (q = p) then false else ready h p
  end.

(** ** Invariant *)

Definition flown (s : State) (l : units * Z) : Prop := Flight.flown l.1 l.2 (flight s).
Definition ended_with (s : State) (l : units * Z) (r : Loaded) : Prop := loaded l.2 s = Some r /\ flown s l.
Definition result_ok (s : State) (loads : list (units * Z)) (r : Loaded) : Prop :=
  match r with
  | inl b => exists bs, Forall2 (fun l v => ended_with s l (inl v)) loads bs /\ b = existsb id bs
  | inr e => exists l, l ∈ loads /\ ended_with s l (inr e)
  end.
Definition caller_ok (s : State) (x : Caller) : Prop :=
  match x with
  | Starting _ loads | Joining loads => Forall (flown s) loads
  | Done loads r => Forall (flown s) loads /\ result_ok s loads r
  end.
Record inv (y : System) : Prop := MkInv {
  i_flight : Flight.wf (flight (state y));
  i_callers : forall c x, callers y !! c = Some x -> caller_ok (state y) x;
  i_ready : forall p, p ∈ hydrated (state y) <-> ready (history y) p = true }.

Record grows (s s' : State) : Prop := MkGrows {
  g_flown : forall l, flown s l -> flown s' l;
  g_loaded : forall id r, loaded id s = Some r -> loaded id s' = Some r }.

Lemma caller_grows s s' x : grows s s' -> caller_ok s x -> caller_ok s' x.
Proof.
  intros [H1 H2]. assert (forall l, Forall (flown s) l -> Forall (flown s') l) as Hl by (intros l Hf; by eapply Forall_impl).
  assert (forall l r, ended_with s l r -> ended_with s' l r) as He by (intros l r [? ?]; split; auto).
  destruct x as [rest loads|loads|loads r]; cbn; [auto|auto|]. intros [Hf Hr]. split; [auto|]. destruct r as [b|e]; cbn in *.
  - destruct Hr as (bs & Hb & ->). exists bs. split; [|done]. eapply Forall2_impl; [exact Hb|]. cbn. auto.
  - destruct Hr as (l & Hin & Hw). exists l. auto.
Qed.

Lemma set_insert_spec p l q : q ∈ set_insert p l <-> q = p \/ q ∈ l.
Proof. unfold set_insert. case_bool_decide; [|rewrite elem_of_app, list_elem_of_singleton]; naive_solver. Qed.

Lemma grows_ends s s' : (forall k i, Flight.flown k i (flight s) -> Flight.flown k i (flight s')) ->
  (forall i x, Flight.ended (flight s) !! i = Some x -> Flight.ended (flight s') !! i = Some x) -> grows s s'.
Proof.
  intros H1 H2. split; [intros l; apply H1|]. intros i r. unfold loaded. destruct (Flight.ended (flight s) !! i) as [x|] eqn:E; [|done]. by rewrite (H2 _ _ E).
Qed.

Lemma start_grows p s : Flight.wf (flight s) -> grows s (start p s).2.
Proof. intros Hw. apply grows_ends; cbn; [intros; by apply Flight.start_keeps|intros; by rewrite Flight.start_ended]. Qed.
Lemma complete_grows i r s : Flight.wf (flight s) -> grows s (complete i r s).
Proof. intros Hw. apply grows_ends; cbn; [intros; by apply Flight.finish_keeps|intros; by apply Flight.ended_kept]. Qed.
Lemma lose_grows i s : Flight.wf (flight s) -> grows s (lose i s).
Proof. intros Hw. apply grows_ends; cbn; [intros; by apply Flight.crash_keeps|intros; by apply Flight.ended_kept]. Qed.
Lemma same_grows s s' : flight s' = flight s -> grows s s'.
Proof. intros E. apply grows_ends; by rewrite E. Qed.

Lemma joined_ok s loads r : Forall (flown s) loads -> joined loads.*2 s = Some r -> result_ok s loads r.
Proof.
  intros Hf. revert r. induction Hf as [|l loads Hl _ IH]; cbn [fmap list_fmap joined]; intros r; [intros [= <-]; by exists []|].
  destruct (loaded l.2 s) as [[a|e]|] eqn:El.
  - destruct (joined loads.*2 s) as [[b|e]|] eqn:Ej; [|intros [= <-]|done].
    + intros [= <-]. destruct (IH _ eq_refl) as (bs & Hb & ->). exists (a :: bs). split; [constructor; [by split|done]|done].
    + destruct (IH _ eq_refl) as (x & Hx & He). exists x. split; [by right|done].
  - intros [= <-]. exists l. split; [by left|by split].
  - destruct (joined loads.*2 s) as [[b|e]|] eqn:Ej; [done|intros [= <-]|done]. destruct (IH _ eq_refl) as (x & Hx & He). exists x. split; [by right|done].
Qed.

Lemma inv_callers y s h : inv y -> Flight.wf (flight s) -> grows (state y) s -> (forall p, p ∈ hydrated s <-> ready h p = true) -> inv (MkSystem s (callers y) h).
Proof. intros [_ H2 _] Hw Hg Hr. split; cbn; [done| |done]. intros c x Hx. eapply caller_grows; eauto. Qed.

Lemma inv_caller y c x s : inv y -> Flight.wf (flight s) -> grows (state y) s -> hydrated s = hydrated (state y) -> caller_ok s x -> inv (on_caller c x s y).
Proof.
  intros [H1 H2 H3] Hw Hg Eh Hx. split; cbn; [done| |by rewrite Eh]. intros c' x'. rewrite lookup_insert_Some. intros [[_ <-]|[_ Hx']]; [done|]. eapply caller_grows; eauto.
Qed.

Lemma hydrator_step_inv y y' : inv y -> step y y' -> inv y'.
Proof.
  intros Hi Hs. pose proof Hi as [H1 H2 H3]. destruct Hs as [c runtimes ps Hc Hw|c p rest loads Hc|c loads Hc|c loads r Hc Hj|i r|i|p|p].
  - apply inv_caller; [done|done|by apply same_grows|done|constructor].
  - pose proof (start_grows p (state y) H1) as Hg. apply inv_caller; [done|by apply Flight.flight_start|done|done|]. cbn. rewrite Forall_app, Forall_singleton.
    split; [exact (caller_grows _ _ (Joining loads) Hg (H2 _ _ Hc))|]. by apply Flight.start_flown.
  - apply inv_caller; [done|done|by apply same_grows|done|exact (H2 _ _ Hc)].
  - apply inv_caller; [done|done|by apply same_grows|done|]. pose proof (H2 _ _ Hc) as Hl. cbn in *. split; [done|]. by apply joined_ok.
  - apply inv_callers; [done|by apply Flight.flight_finish|by apply complete_grows|]. intros q. unfold complete, success. cbn.
    destruct r as [[]|e]; cbn; [|apply H3|apply H3]. destruct (Flight.jobs (flight (state y)) !! i) as [[p u]|]; cbn; [|apply H3].
    rewrite set_insert_spec, H3. case_bool_decide; naive_solver.
  - apply inv_callers; [done|by apply Flight.flight_crash|by apply lose_grows|apply H3].
  - apply inv_callers; [done|done|by apply same_grows|]. intros q. cbn. rewrite set_insert_spec, H3. case_bool_decide; naive_solver.
  - apply inv_callers; [done|done|by apply same_grows|]. intros q. cbn. rewrite list_elem_of_filter, H3. case_bool_decide; naive_solver.
Qed.

Lemma hydrator_inv y : reach y -> inv y.
Proof.
  induction 1 as [|y y' _ IH Hs]; [|by eapply hydrator_step_inv]. split; cbn; [apply Flight.flight_new|intros *; by rewrite lookup_empty|]. intros p. rewrite elem_of_nil. naive_solver.
Qed.

(** ** Theorems *)

(** However callers, loads, marks and invalidations interleave: at most one load of
    a provider runs at a time; a caller is skipped for a provider exactly when the
    latest word on it is a mark or a load that loaded, not an invalidation; and a
    caller that is done got an error one of its own loads ended with, or whether
    any of them loaded, all of them having ended well. *)
Theorem hydration_shared y : reach y ->
  (forall p i i' u u', Flight.jobs (flight (state y)) !! i = Some (p, u) -> Flight.jobs (flight (state y)) !! i' = Some (p, u') -> i = i') /\
  (forall p, p ∈ hydrated (state y) <-> ready (history y) p = true) /\
  forall c loads r, callers y !! c = Some (Done loads r) -> result_ok (state y) loads r.
Proof.
  intros Hi%hydrator_inv. split; [intros; by eapply Flight.one_flight; [apply Hi|..]|]. split; [apply Hi|]. intros c loads r Hc. by destruct (i_callers _ Hi _ _ Hc).
Qed.

(** The providers of a call are those its runtimes name, each once, that are not hydrated. *)
Lemma collect_spec runtimes : forall set ps, NoDup set -> collect runtimes set = Some ps ->
  NoDup ps /\ forall p, p ∈ ps <-> p ∈ set \/ exists v, v ∈ runtimes /\ provider_of v = Some (Some p).
Proof.
  induction runtimes as [|v l IH]; intros set ps Hn; cbn [collect]; [intros [= <-]; split; [done|]; intros p; split; [by left|]; by intros [?|(v & Hv & _)]; [|apply elem_of_nil in Hv]|].
  destruct (provider_of v) as [o|] eqn:Ev; [|done]. cbn. intros Hc. apply IH in Hc as [H1 H2].
  - split; [done|]. intros p. rewrite H2. destruct o as [q|]; [rewrite set_insert_spec|]; set_solver.
  - destruct o as [q|]; [|done]. unfold set_insert. case_bool_decide; [done|]. apply NoDup_app. repeat split; [done|set_solver|apply NoDup_singleton].
Qed.

Theorem wanted_exact runtimes s ps : wanted runtimes s = Some ps ->
  NoDup ps /\ forall p, p ∈ ps <-> p ∉ hydrated s /\ exists v, v ∈ runtimes /\ provider_of v = Some (Some p).
Proof.
  unfold wanted. destruct (collect runtimes []) as [l|] eqn:E; [|done]. cbn. intros [= <-]. apply collect_spec in E as [H1 H2]; [|constructor].
  split; [by apply NoDup_filter|]. intros p. rewrite list_elem_of_filter, H2. set_solver.
Qed.
End hydrator.
End Hydrator.
