(* ===== verification/Coordination.v ===== *)
(** * Coordination of server instances

    [Coordination] models src/cantrip_server_rs/src/coordination: the directory of
    workers and WorkerLink sessions that redis.rs keeps in Redis for all instances,
    and the cache and the messages of core.rs. Redis is outside: [Redis] has the
    commands the code sends, with their documented behaviour as laws; the scripts
    REPLACE and REMOVE are translated, and run in one step as Redis runs them. An
    operation is cut at every command it awaits. A stored text stands for the value
    it is the text of; identifiers are well-formed strings. *)
From S2P Require Import Prelude.
From stdpp Require Import base numbers strings gmap option list relations sorting.
Open Scope Z_scope.

Module Coordination.
Import Text.

(** ** What is stored *)

Record Identity := MkIdentity { i_owner : text; credential : text; generation : text }.
Record Presence := MkPresence { connection : text; instance : text; owner : text; worker : text; continuity : option Identity; expires : Z }.
Record Claim := MkClaim { authority : text; session : text; lease_expires : Z; c_expires : Z }.
Inductive Key := KWorker (w : text) | KLink (s : text) | KInstance (i : text).
Inductive Stored := SPresence (p : Presence) | SClaim (c : Claim) | STime (t : Z).

#[global] Instance identity_dec : EqDecision Identity. Proof. solve_decision. Defined.
#[global] Instance presence_dec : EqDecision Presence. Proof. solve_decision. Defined.
#[global] Instance claim_dec : EqDecision Claim. Proof. solve_decision. Defined.
#[global] Instance key_dec : EqDecision Key. Proof. solve_decision. Defined.
#[global] Instance stored_dec : EqDecision Stored. Proof. solve_decision. Defined.

(** GET, SET with PX, and DEL, at a time. *)
Class Redis := {
  db : Type;
  get : Z -> db -> Key -> option Stored;
  set : Z -> Key -> Stored -> Z -> db -> db;
  del : Key -> db -> db
}.
(** A value is there until it expires, and keys do not touch each other. *)
Class RedisLaws `{Redis} : Prop := {
  get_set_eq : forall t k v px d, 0 < px -> get t (set t k v px d) k = Some v;
  get_set_ne : forall t t' k k' v px d, k <> k' -> get t' (set t k v px d) k' = get t' d k';
  get_del_eq : forall t k d, get t (del k d) k = None;
  get_del_ne : forall t k k' d, k <> k' -> get t (del k d) k' = get t d k';
  get_fades : forall t t' d k, t <= t' -> get t' d k = get t d k \/ get t' d k = None
}.

Section directory.
Context `{Redis} (ttl : Z).

(** SET with NX, and the scripts. *)
Definition set_nx (t : Z) (k : Key) (v : Stored) (px : Z) (d : db) : bool * db :=
  match get t d k with None => (true, set t k v px d) | Some _ => (false, d) end.
Definition REPLACE (t : Z) (k : Key) (current next : Stored) (px : Z) (d : db) : bool * db :=
  if bool_decide (get t d k = Some current) then (true, set t k next px d) else (false, d).
Definition REMOVE (t : Z) (k : Key) (current : Stored) (d : db) : bool * db :=
  if bool_decide (get t d k = Some current) then (true, del k d) else (false, d).

(** [presence] and [session_claim]. *)
Definition short (s : text) : bool := negb (bool_decide (s = [])) && (utf16_count s <=? 512).
Definition presence (v : Stored) : option Presence :=
  match v with
  | SPresence p =>
      if short (connection p) && short (instance p) && short (owner p) && short (worker p)
         && match continuity p with Some c => short (credential c) && short (generation c) && bool_decide (i_owner c = owner p) | None => true end
      then Some p else None
  | _ => None
  end.
Definition session_claim (t : Z) (v : Stored) : option Claim :=
  match v with SClaim c => if short (authority c) && (c_expires c =? lease_expires c) && (t <? c_expires c) then Some c else None | _ => None end.

(** ** The cache of an instance *)

#[local] Notation Cache := (gmap text Presence).
Definition cache (p : Presence) (c : Cache) : Cache := <[worker p := p]> c.
Definition remove (w conn : text) (c : Cache) : Cache :=
  match c !! w with Some p => if bool_decide (connection p = conn) then delete w c else c | None => c end.
Definition cached (t : Z) (w : text) (c : Cache) : option Presence * Cache :=
  match c !! w with Some p => if expires p <=? t then (None, delete w c) else (Some p, c) | None => (None, c) end.

(** ** Operations *)

(** What an operation waits to send next. *)
Inductive Op :=
| FindWorker (w : text) | ClaimFind (p : Presence) | ClaimSet (p : Presence) (previous : option Presence)
| RefreshGet (w conn : text) | RefreshSet (w : text) (raw p : Presence) | ReleaseGet (w conn : text) | ReleaseDel (w : text) (raw : Presence)
| LinkFind (c : Claim) | LinkSet (c : Claim) | LinkAgain (s : text)
| LinkRefreshGet (c : Claim) | LinkRefreshSet (raw c : Claim) | LinkReleaseGet (s a : text) | LinkReleaseDel (s : text) (raw : Claim)
| Heartbeat | Leave.
(** What it answers. *)
Inductive Answer := Found (p : option Presence) | Claimed (previous : option Presence) | Flag (b : bool) | LinkClaimed (other : option Claim) | Invalid.
Inductive Action := Online | Offline.

(** Back from GET of a worker: [find_worker] after the cache. *)
Definition found (t : Z) (raw : option Stored) : option Presence :=
  match raw ≫= presence with Some p => if t <? expires p then Some p else None | None => None end.
Definition renewed (t : Z) (p : Presence) : Presence := MkPresence (connection p) (instance p) (owner p) (worker p) (continuity p) (t + ttl).
Definition stamped (t : Z) (i : text) (p : Presence) : Presence := MkPresence (connection p) i (owner p) (worker p) (continuity p) (t + ttl).
(** The lifetime of a session claim in Redis. *)
Definition lifetime (t : Z) (c : Claim) : Z := Z.max (c_expires c - t) 1.

(** The instance [i] performs the command [op] waits for. *)
Record Result := MkResult { r_db : db; r_cache : Cache; r_next : Op + Answer; r_publish : option (Action * Presence) }.
Definition own (i conn : text) (p : Presence) : bool := bool_decide (connection p = conn) && bool_decide (instance p = i).
Definition find (t : Z) (w : text) (d : db) (c : Cache) : option Presence * Cache :=
  match cached t w c with
  | (Some p, c) => (Some p, c)
  | (None, c) => match found t (get t d (KWorker w)) with Some p => (Some p, cache p c) | None => (None, c) end
  end.
Definition perform (t : Z) (i : text) (op : Op) (d : db) (c : Cache) : Result :=
  match op with
  | FindWorker w => let r := find t w d c in MkResult d r.2 (inr (Found r.1)) None
  | ClaimFind p => let r := find t (worker p) d c in MkResult d r.2 (inl (ClaimSet (stamped t i p) r.1)) None
  | ClaimSet p previous => MkResult (set t (KWorker (worker p)) (SPresence p) ttl d) (cache p c) (inr (Claimed previous)) (Some (Online, p))
  | RefreshGet w conn =>
      match get t d (KWorker w) ≫= presence with
      | Some p => if own i conn p then MkResult d c (inl (RefreshSet w p (renewed t p))) None else MkResult d c (inr (Flag false)) None
      | None => MkResult d c (inr (Flag false)) None
      end
  | RefreshSet w raw p =>
      let r := REPLACE t (KWorker w) (SPresence raw) (SPresence p) ttl d in
      if r.1 then MkResult r.2 (cache p c) (inr (Flag true)) (Some (Online, p)) else MkResult r.2 c (inr (Flag false)) None
  | ReleaseGet w conn =>
      match get t d (KWorker w) ≫= presence with
      | Some p => if own i conn p then MkResult d c (inl (ReleaseDel w p)) None else MkResult d c (inr (Flag false)) None
      | None => MkResult d c (inr (Flag false)) None
      end
  | ReleaseDel w raw =>
      let r := REMOVE t (KWorker w) (SPresence raw) d in
      if r.1 then MkResult r.2 (remove w (connection raw) c) (inr (Flag true)) (Some (Offline, raw)) else MkResult r.2 c (inr (Flag false)) None
  | LinkFind x =>
      match session_claim t (SClaim x) with
      | None => MkResult d c (inr Invalid) None
      | Some x => match get t d (KLink (session x)) ≫= session_claim t with Some other => MkResult d c (inr (LinkClaimed (Some other))) None | None => MkResult d c (inl (LinkSet x)) None end
      end
  | LinkSet x =>
      let r := set_nx t (KLink (session x)) (SClaim x) (lifetime t x) d in
      if r.1 then MkResult r.2 c (inr (LinkClaimed None)) None else MkResult r.2 c (inl (LinkAgain (session x))) None
  | LinkAgain s => MkResult d c (inr (LinkClaimed (get t d (KLink s) ≫= session_claim t))) None
  | LinkRefreshGet x =>
      match session_claim t (SClaim x), get t d (KLink (session x)) ≫= session_claim t with
      | Some x, Some current => if bool_decide (authority current = authority x) then MkResult d c (inl (LinkRefreshSet current x)) None else MkResult d c (inr (Flag false)) None
      | _, _ => MkResult d c (inr (Flag false)) None
      end
  | LinkRefreshSet raw x => let r := REPLACE t (KLink (session x)) (SClaim raw) (SClaim x) (lifetime t x) d in MkResult r.2 c (inr (Flag r.1)) None
  | LinkReleaseGet s a =>
      match get t d (KLink s) ≫= session_claim t with
      | Some current => if bool_decide (authority current = a) then MkResult d c (inl (LinkReleaseDel s current)) None else MkResult d c (inr (Flag false)) None
      | None => MkResult d c (inr (Flag false)) None
      end
  | LinkReleaseDel s raw => let r := REMOVE t (KLink s) (SClaim raw) d in MkResult r.2 c (inr (Flag r.1)) None
  | Heartbeat => MkResult (set t (KInstance i) (STime t) ttl d) c (inr (Flag true)) None
  | Leave => MkResult (del (KInstance i) d) c (inr (Flag true)) None
  end.

(** ** All instances at once *)

Definition begins (op : Op) : bool :=
  match op with FindWorker _ | ClaimFind _ | RefreshGet _ _ | ReleaseGet _ _ | LinkFind _ | LinkRefreshGet _ | LinkReleaseGet _ _ | Heartbeat | Leave => true | _ => false end.
(** [claims] and [grants] are kept for the statements, the latest first: what was set
    for a worker, and the session claims that were set. *)
Record System := MkSystem { store : db; caches : gmap text Cache; now : Z; ops : gmap Z (text * Op); answers : gmap Z Answer; published : list (Action * Presence); claims : list Presence; grants : list Claim }.
Definition cache_of (i : text) (y : System) : Cache := default ∅ (caches y !! i).
Definition claimed (op : Op) : list Presence := match op with ClaimSet p _ => [p] | _ => [] end.
Definition granted (op : Op) (a : Op + Answer) : list Claim := match op, a with LinkSet c, inr (LinkClaimed None) => [c] | _, _ => [] end.
Definition after (id : Z) (i : text) (op : Op) (r : Result) (y : System) : System :=
  MkSystem (r_db r) (<[i := r_cache r]> (caches y)) (now y)
    (match r_next r with inl op' => <[id := (i, op')]> (ops y) | inr _ => delete id (ops y) end)
    (match r_next r with inl _ => answers y | inr a => <[id := a]> (answers y) end)
    (option_list (r_publish r) ++ published y) (claimed op ++ claims y) (granted op (r_next r) ++ grants y).
(** [Core::receive] of a presence message. *)
Definition receive_presence (m : Action * Presence) (c : Cache) : Cache :=
  match presence (SPresence m.2) with
  | Some p => match m.1 with Online => cache p c | Offline => remove (worker p) (connection p) c end
  | None => c
  end.

Inductive step (y : System) : System -> Prop :=
| step_time t : now y <= t -> step y (MkSystem (store y) (caches y) t (ops y) (answers y) (published y) (claims y) (grants y))
| step_begin id i op : ops y !! id = None -> answers y !! id = None -> begins op = true ->
    step y (MkSystem (store y) (caches y) (now y) (<[id := (i, op)]> (ops y)) (answers y) (published y) (claims y) (grants y))
| step_perform id i op : ops y !! id = Some (i, op) -> step y (after id i op (perform (now y) i op (store y) (cache_of i y)) y)
| step_receive i m : m ∈ published y ->
    step y (MkSystem (store y) (<[i := receive_presence m (cache_of i y)]> (caches y)) (now y) (ops y) (answers y) (published y) (claims y) (grants y))
| step_lookup i w : step y (MkSystem (store y) (<[i := (cached (now y) w (cache_of i y)).2]> (caches y)) (now y) (ops y) (answers y) (published y) (claims y) (grants y)).
Inductive reach : System -> Prop :=
| reach_init d t : (forall k, get t d k = None) -> reach (MkSystem d ∅ t ∅ ∅ [] [] [])
| reach_step y y' : reach y -> step y y' -> reach y'.

(** ** Who holds what *)















Context `{!RedisLaws} (Httl : 0 < ttl).














(** ** Theorems *)



End directory.

Module Sample.
(** Values with the time they last until. *)
#[export] Instance table : Redis := {|
  db := list (Key * (Stored * Z));
  get t d k := match IndexMap.get k d with Some (v, until) => if t <? until then Some v else None | None => None end;
  set t k v px d := IndexMap.insert k (v, t + px) d;
  del k d := IndexMap.shift_remove k d |}.

#[export] Instance table_laws : RedisLaws.
Proof.
  split; cbn.
  - intros t k v px d Hpx. rewrite IndexMap.get_insert_eq. by rewrite (proj2 (Z.ltb_lt _ _)) by lia.
  - intros t t' k k' v px d Hn. by rewrite IndexMap.get_insert_ne.
  - intros t k d. by rewrite IndexMap.get_remove_eq.
  - intros t k k' d Hn. by rewrite IndexMap.get_remove_ne.
  - intros t t' d k Ht. destruct (IndexMap.get k d) as [[v until]|]; [|by left]. destruct (t' <? until) eqn:E; [|by right]. reflect_bools. left. by rewrite (proj2 (Z.ltb_lt _ _)) by lia.
Qed.

Definition p1 : Presence := MkPresence (lit "c1") (lit "A") (lit "o") (lit "w") None 0.
Definition p2 : Presence := MkPresence (lit "c2") (lit "B") (lit "o") (lit "w") None 0.
Definition link : Claim := MkClaim (lit "A") (lit "s") 900 900.
Definition begin_op (id : Z) (i : text) (op : Op) (y : System) : System :=
  MkSystem (store y) (caches y) (now y) (<[id := (i, op)]> (ops y)) (answers y) (published y) (claims y) (grants y).
Definition run (id : Z) (y : System) : System :=
  match ops y !! id with Some (i, op) => after id i op (perform 1000 (now y) i op (store y) (cache_of i y)) y | None => y end.
Definition start : System := MkSystem [] ∅ 5 ∅ ∅ [] [] [].

Lemma run_reach id y : reach 1000 y -> reach 1000 (run id y).
Proof. intros Hr. unfold run. destruct (ops y !! id) as [[i op]|] eqn:E; [|done]. eapply reach_step; [exact Hr|]. by apply step_perform. Qed.
Lemma begin_reach id i op y : reach 1000 y -> ops y !! id = None -> answers y !! id = None -> begins op = true -> reach 1000 (begin_op id i op y).
Proof. intros Hr H1 H2 H3. eapply reach_step; [exact Hr|]. by apply step_begin. Qed.

(** A is claimed on connection 1 and reads it to renew it, B claims it on connection
    2, and A goes on; beside it A claims a session. *)
Definition mid : System := run 2 (begin_op 2 (lit "A") (RefreshGet (lit "w") (lit "c1")) (run 1 (run 1 (begin_op 1 (lit "A") (ClaimFind p1) start)))).
Definition late : System := run 4 (run 4 (begin_op 4 (lit "A") (LinkFind link) (run 3 (run 3 (begin_op 3 (lit "B") (ClaimFind p2) mid))))).


(** The renewal of the connection that was superseded is refused. *)
Example superseded : answers (run 2 late) !! 2 = Some (Flag false).
Proof. vm_compute. reflexivity. Qed.


(** A finds nothing and is about to set its claim when B is granted the session; A
    loses, and B releases before A looks again: A is told that there is no other
    claim, and so is C, who is granted the session next. *)
Definition of_authority (a : text) : Claim := MkClaim a (lit "s") 900 900.
Definition race : System :=
  let y := run 1 (begin_op 1 (lit "A") (LinkFind (of_authority (lit "A"))) start) in
  let y := run 2 (run 2 (begin_op 2 (lit "B") (LinkFind (of_authority (lit "B"))) y)) in
  let y := run 1 y in
  let y := run 3 (run 3 (begin_op 3 (lit "B") (LinkReleaseGet (lit "s") (lit "B")) y)) in
  run 4 (run 4 (begin_op 4 (lit "C") (LinkFind (of_authority (lit "C"))) (run 1 y))).

Theorem two_told_granted : reach 1000 race /\ answers race !! 1 = Some (LinkClaimed None) /\ answers race !! 4 = Some (LinkClaimed None) /\
  get (now race) (store race) (KLink (lit "s")) = Some (SClaim (of_authority (lit "C"))).
Proof.
  split; [|vm_compute; done]. unfold race. apply run_reach, run_reach, begin_reach; [|vm_compute; reflexivity..]. apply run_reach, run_reach, run_reach, begin_reach; [|vm_compute; reflexivity..].
  apply run_reach, run_reach, run_reach, begin_reach; [|vm_compute; reflexivity..]. apply run_reach, begin_reach; [|vm_compute; reflexivity..]. by apply reach_init.
Qed.
End Sample.
(** ** Messages between instances

    [Core]: the listeners of an instance by number, and its counters. *)
Module Core.
Definition MAX_MESSAGE_BYTES : Z := ((16 * 1024 * 1024 + 16) * 4 + 2) / 3 + 64 * 1024.
(** A listener is known by its identity. *)
Record State := MkState { workers : gmap text Presence; listeners : list (Z * Z); next : Z; instance_count : Z; received : Z; rejected : Z; sent : Z }.
Definition new : State := MkState ∅ [] 0 1 0 0 0.
(** The fields every message has, absent where they are not of the right type; the
    target is absent unless it is truthy. *)
Record Message := MkMessage { kind : option text; message_id : option text; source : option text; target : option text; created_at : option Z; expires_at : option Z; body : Action * option Presence }.

Definition with_listeners (l : list (Z * Z)) (n : Z) (s : State) : State := MkState (workers s) l n (instance_count s) (received s) (rejected s) (sent s).
Definition subscribe (l : Z) (s : State) : Z * State :=
  match List.find (fun p => p.2 =? l) (listeners s) with
  | Some (id, _) => (id, s)
  | None => (next s + 1, with_listeners (listeners s ++ [(next s + 1, l)]) (next s + 1) s)
  end.
Definition unsubscribe (id : Z) (s : State) : State := with_listeners (filter (fun p => p.1 <> id) (listeners s)) (next s) s.
Definition reject (s : State) : State := MkState (workers s) (listeners s) (next s) (instance_count s) (received s) (rejected s + 1) (sent s).
Definition within_limit (maximum : Z) (s : State) : bool := instance_count s <=? maximum.
Definition stats (t : Z) (s : State) : Z * State :=
  let kept := filter (fun p => ~ expires p.2 <= t) (workers s) in
  (Z.of_nat (size kept), MkState kept (listeners s) (next s) (instance_count s) (received s) (rejected s) (sent s)).

Definition string_ok (v : option text) (maximum : Z) : bool := match v with Some s => negb (bool_decide (s = [])) && (utf16_count s <=? maximum) | None => false end.
Definition PRESENCE : text := lit "worker-presence".

(** [envelope]: the fields a message is sent with; [size] is that of its text. *)
Definition envelope (t : Z) (i id k : text) (to : option text) (b : Action * option Presence) (size ttl : Z) (s : State) : option (Message * State) :=
  if negb ((1 <=? ttl) && (ttl <=? 86400000)) then None
  else if MAX_MESSAGE_BYTES <? size then None
  else Some (MkMessage (Some k) (Some id) (Some i) to (Some t) (Some (t + ttl)) b, MkState (workers s) (listeners s) (next s) (instance_count s) (received s) (rejected s) (sent s + 1)).

(** [receive] up to its listeners: whether the message is delivered. *)
Definition screen (t : Z) (i : text) (m : Message) (s : State) : bool * State :=
  if negb (string_ok (kind m) 100) || negb (string_ok (message_id m) 200) || negb (string_ok (source m) 512) || bool_decide (created_at m = None)
     || match expires_at m with Some e => e <=? t | None => true end
  then (false, reject s)
  else if bool_decide (source m = Some i) || match target m with Some x => negb (bool_decide (x = i)) | None => false end then (false, s)
  else
    let done w := (true, MkState w (listeners s) (next s) (instance_count s) (received s + 1) (rejected s) (sent s)) in
    if bool_decide (kind m = Some PRESENCE)
    then match (body m).2 ≫= (fun p => presence (SPresence p)) with
         | None => (false, reject s)
         | Some p => done (match (body m).1 with Online => cache p (workers s) | Offline => remove (worker p) (connection p) (workers s) end)
         end
    else done (workers s).

(** The loop over the listeners: the first one after the cursor, each time. *)
Definition after_cursor (c : Z) (s : State) : option Z := fst <$> head (filter (fun p => c < p.1) (listeners s)).
Definition wf (s : State) : Prop := StronglySorted (fun a b => a.1 < b.1) (listeners s) /\ Forall (fun p => 0 < p.1 <= next s) (listeners s) /\ 0 <= next s.
Definition listens (id : Z) (s : State) : Prop := id ∈ (listeners s).*1.
(** What listeners may do before they answer, [id] staying. *)
Inductive stays (id : Z) : State -> State -> Prop :=
| stays_none s : stays id s s
| stays_subscribe s s' l : stays id s s' -> stays id s (subscribe l s').2
| stays_unsubscribe s s' x : stays id s s' -> x <> id -> stays id s (unsubscribe x s')
| stays_reject s s' : stays id s s' -> stays id s (reject s').
(** A delivery after the cursor, by the listeners it went to. *)
Inductive kept (id c : Z) (s : State) : list Z -> State -> Prop :=
| kept_end : after_cursor c s = None -> kept id c s [] s
| kept_call x s1 l s2 : after_cursor c s = Some x -> stays id s s1 -> kept id x s1 l s2 -> kept id c s (x :: l) s2.

Lemma core_new : wf new.
Proof. split; [constructor|]. split; [constructor|done]. Qed.

Lemma core_subscribe_wf l s : wf s -> wf (subscribe l s).2.
Proof.
  intros (H1 & H2 & H3). unfold subscribe. destruct (List.find _ _) as [[]|]; [done|]. split; [|split; [|cbn; lia]]; cbn.
  - apply StronglySorted_app. split; [|split; [done|repeat constructor]]. intros a b Ha Hb%list_elem_of_singleton. subst b. cbn. rewrite Forall_forall in H2. specialize (H2 _ Ha). lia.
  - rewrite Forall_app, Forall_singleton. split; [eapply Forall_impl; [exact H2|]; cbn; lia|cbn; lia].
Qed.

Lemma unsubscribe_wf id s : wf s -> wf (unsubscribe id s).
Proof.
  intros (H1 & H2 & H3). split; [|split; [|done]]; cbn.
  - clear H2 H3. induction H1 as [|a l Hs IH Hf]; [constructor|]. rewrite filter_cons. destruct (decide _); [|done]. constructor; [done|]. rewrite Forall_forall in *. intros x [_ Hx]%list_elem_of_filter. auto.
  - rewrite Forall_forall in *. intros x [_ Hx]%list_elem_of_filter. auto.
Qed.

Lemma stays_wf id s s' : stays id s s' -> wf s -> wf s' /\ (listens id s -> listens id s').
Proof.
  unfold listens. induction 1 as [s|s s' l _ IH|s s' x _ IH Hn|s s' _ IH]; intros Hw; [done| | |by destruct (IH Hw)]; destruct (IH Hw) as [Hw' Hl].
  - split; [by apply core_subscribe_wf|]. intros Hi%Hl. unfold subscribe. destruct (List.find _ _) as [[]|]; cbn; [done|]. rewrite fmap_app. set_solver.
  - split; [by apply unsubscribe_wf|]. intros Hi%Hl. cbn. apply list_elem_of_fmap in Hi as ([a b] & -> & Hi). apply list_elem_of_fmap. exists (a, b). split; [done|]. apply list_elem_of_filter. cbn in *. split; [congruence|done].
Qed.

(** The next listener is the least after the cursor. *)
Lemma after_least c s x : wf s -> after_cursor c s = Some x -> c < x /\ forall id, listens id s -> c < id -> x <= id.
Proof.
  intros (Hs & _ & _). unfold after_cursor, listens. induction Hs as [|[a b] l Hs IH Hf]; [done|]. rewrite filter_cons. cbn. destruct (decide (c < a)) as [Ha|Ha]; cbn.
  - intros [= <-]. split; [done|]. intros id Hi Hc. apply elem_of_cons in Hi as [->|Hi]; [done|]. apply list_elem_of_fmap in Hi as (p & -> & Hp). rewrite Forall_forall in Hf. specialize (Hf _ Hp). cbn in Hf. lia.
  - intros E. destruct (IH E) as [H1 H2]. split; [done|]. intros id Hi Hc. apply elem_of_cons in Hi as [->|Hi]; [done|auto].
Qed.

Lemma after_none c s id : after_cursor c s = None -> listens id s -> id <= c.
Proof.
  unfold after_cursor, listens. intros E Hi. apply list_elem_of_fmap in Hi as (p & -> & Hp). destruct (decide (c < p.1)) as [Hc|]; [|lia].
  assert (p ∈ filter (fun p => c < p.1) (listeners s)) as Hf by (by apply list_elem_of_filter). destruct (filter _ _); [by apply elem_of_nil in Hf|done].
Qed.

(** A message goes through the listeners in the order of their numbers, to none of
    them twice, and to every one that was there when it came and stays: whatever
    listeners subscribe and unsubscribe while it is delivered. *)
Theorem delivered_once id c s l s' : wf s -> kept id c s l s' ->
  StronglySorted Z.lt l /\ Forall (fun x => c < x) l /\ (listens id s -> c < id -> id ∈ l).
Proof.
  intros Hw Hk. induction Hk as [c s E|c s x s1 l s2 E Hs _ IH].
  - split; [constructor|]. split; [constructor|]. intros Hi Hc. pose proof (after_none c s id E Hi). lia.
  - destruct (after_least c s x Hw E) as [Hx Hl]. destruct (stays_wf id s s1 Hs Hw) as [Hw1 H1]. destruct (IH Hw1) as (Hso & Hf & Hin). split; [by constructor|].
    split; [constructor; [done|]; eapply Forall_impl; [exact Hf|]; cbn; lia|]. intros Hi Hc. destruct (decide (id = x)) as [->|Hn]; [by left|]. right. apply Hin; [auto|]. specialize (Hl _ Hi Hc). lia.
Qed.

(** What one instance sends, another one that it is for delivers until it expires,
    and no one else. *)
Theorem envelope_received t i id k to b size ttl s m s1 t' i' r :
  envelope t i id k to b size ttl s = Some (m, s1) -> k <> PRESENCE -> string_ok (Some k) 100 = true -> string_ok (Some id) 200 = true -> string_ok (Some i) 512 = true ->
  (screen t' i' m r).1 = bool_decide (t' < t + ttl) && bool_decide (i <> i') && bool_decide (to = None \/ to = Some i').
Proof.
  unfold envelope. destruct (negb _); [done|]. destruct (_ <? _); [done|]. intros [= <- _] Hk H1 H2 H3. unfold screen. cbn [kind message_id source target created_at expires_at body]. rewrite H1, H2, H3. cbn [negb orb].
  rewrite (bool_decide_false (Some t = None)) by done. cbn [orb]. destruct (t + ttl <=? t') eqn:E; reflect_bools.
  - rewrite (bool_decide_false (t' < t + ttl)) by lia. done.
  - rewrite (bool_decide_true (t' < t + ttl)) by lia. cbn [andb]. destruct (decide (i = i')) as [->|Hn]; [rewrite bool_decide_true, (bool_decide_false (i' <> i')) by naive_solver; done|].
    rewrite (bool_decide_false (Some i = Some i')), (bool_decide_true (i <> i')) by congruence. cbn [orb andb]. rewrite (bool_decide_false (Some k = Some PRESENCE)) by congruence.
    destruct to as [x|]; [|by rewrite bool_decide_true by auto]. destruct (decide (x = i')) as [->|Hx].
    + rewrite !bool_decide_true by auto. done.
    + rewrite (bool_decide_false (x = i')), bool_decide_false by naive_solver. done.
Qed.
End Core.
End Coordination.
