(* ===== verification/Remote.v ===== *)
(** * Commands to workers of other instances

    [Remote] models the requests of src/cantrip_server_rs/src/workers/coordinated
    (requests.rs, and [reject_remote], [complete] and [close] of mod.rs): the table of
    commands sent to another instance over the directory of [Coordination], the
    events and the answer that come back, and the task of each that hands them to
    its caller. Steps are cut where the code releases its lock or awaits. The
    directory, the owner lookup and publishing are outside and answer anything; a
    timer of a timed request may fire at any time. Log records are not modelled. *)
From S2P Require Import Prelude.
From stdpp Require Import base numbers strings gmap option list relations.
Open Scope Z_scope.

Module Remote.
Import Text.

(** ** State *)

Record Event := MkEvent { e_number : Z; inference_state : bool; admitted : bool }.
(** What a response of the worker says; only whether it is a result matters here. *)
Record Response := MkResponse { ok : bool; value : Z }.
Inductive Error := QueueFull | Unreachable | NotSent | Unavailable | ShuttingDown | HandlerFailed (cause : Z) | PublishFailed | TimedOut.
Inductive Outcome := Answer (r : Response) | Failed (e : Error).
Definition is_ok (o : Outcome) : bool := match o with Answer r => ok r | Failed _ => false end.

Inductive Delivery := DEvent (e : Event) | DResponse (r : Response) | DFinished.
Inductive Task := Running | Handling (e : Event) | Stopped.
Record Options := MkOptions { on_event : bool; forward_inference : bool; timed : bool }.
(** A request with its queue, its caller and its task; [arrived] and [handled] are
    the events that were queued for the handler and those it took. *)
Record Request := MkRequest { instance : text; worker : text; options : Options; queue : list Delivery; completion : option Outcome; task : Task; arrived : list Event; handled : list Event }.
(** A caller on its way to the table. *)
Inductive Caller := Finding (w : text) (o : Options) | Owning (w : text) (o : Options) (i : text) | Refused (e : Error) | Routed (id : Z).
(** [pending] has the numbers of the table, [leaving] those taken out by someone who
    has not completed them yet; [requests] every request that was routed. *)
Record State := MkState { closed : bool; pending : gset Z; leaving : gmap Z Error; requests : gmap Z Request; callers : gmap Z Caller; routed : Z; succeeded : Z; failed : Z }.
Definition new : State := MkState false ∅ ∅ ∅ ∅ 0 0 0.
Definition LIMIT : Z := 2048.

Definition put (id : Z) (r : Request) (s : State) : State := MkState (closed s) (pending s) (leaving s) (<[id := r]> (requests s)) (callers s) (routed s) (succeeded s) (failed s).
Definition take (id : Z) (s : State) : State := MkState (closed s) (pending s ∖ {[id]}) (leaving s) (requests s) (callers s) (routed s) (succeeded s) (failed s).
Definition caller (c : Z) (x : Caller) (s : State) : State := MkState (closed s) (pending s) (leaving s) (requests s) (<[c := x]> (callers s)) (routed s) (succeeded s) (failed s).
Definition fail (s : State) : State := MkState (closed s) (pending s) (leaving s) (requests s) (callers s) (routed s) (succeeded s) (failed s + 1).

(** ** Sending *)

(** [request_remote]: up to the directory. *)
Definition begin (c : Z) (w : text) (o : Options) (s : State) : State :=
  if closed s then caller c (Refused ShuttingDown) s
  else if LIMIT <=? Z.of_nat (size (pending s)) then caller c (Refused QueueFull) (fail s)
  else caller c (Finding w o) s.
(** Back from the directory: an error, nothing, or the instance of the worker. *)
Definition found (c : Z) (w : text) (o : Options) (answer : option (option text)) (s : State) : State :=
  match answer with
  | None => caller c (Refused Unreachable) s
  | Some p =>
      if closed s then caller c (Refused ShuttingDown) s
      else match p with None => caller c (Refused NotSent) (fail s) | Some i => caller c (Owning w o i) s end
  end.
(** Back from the owner lookup: an error, or whether the owner is that of the worker.
    The number of a request is fresh. *)
Definition owned (c : Z) (w : text) (o : Options) (i : text) (answer : option bool) (id : Z) (s : State) : State :=
  match answer with
  | None => caller c (Refused Unreachable) s
  | Some mine =>
      if closed s then caller c (Refused ShuttingDown) s
      else if negb mine then caller c (Refused Unavailable) (fail s)
      else caller c (Routed id) (MkState (closed s) (pending s ∪ {[id]}) (leaving s) (<[id := MkRequest i w o [] None Running [] []]> (requests s)) (callers s) (routed s + 1) (succeeded s) (failed s))
  end.

(** ** Completion *)

Definition push (d : Delivery) (r : Request) : Request := MkRequest (instance r) (worker r) (options r) (queue r ++ [d]) (completion r) (task r) (arrived r) (handled r).
Definition answered (o : Outcome) (r : Request) : Request := push DFinished (MkRequest (instance r) (worker r) (options r) (queue r) (Some o) (task r) (arrived r) (handled r)).
(** [complete]: the first one answers the caller and counts. *)
Definition complete (id : Z) (o : Outcome) (s : State) : State :=
  match requests s !! id with
  | Some r =>
      match completion r with
      | Some _ => s
      | None => MkState (closed s) (pending s) (leaving s) (<[id := answered o r]> (requests s)) (callers s) (routed s)
                  (if is_ok o then succeeded s + 1 else succeeded s) (if is_ok o then failed s else failed s + 1)
      end
  | None => s
  end.
(** Whoever takes the request out of the table completes it, after it let go of the lock. *)
Definition withdraw (e : Error) (id : Z) (s : State) : State :=
  if bool_decide (id ∈ pending s) then MkState (closed s) (pending s ∖ {[id]}) (<[id := e]> (leaving s)) (requests s) (callers s) (routed s) (succeeded s) (failed s) else s.

Definition publish_failed (id : Z) (s : State) : State := withdraw PublishFailed id s.
Definition deadline_fired (id : Z) (s : State) : State := withdraw TimedOut id s.
Definition of_worker (w : text) (retained : option text) (s : State) (id : Z) : bool :=
  match requests s !! id with Some r => bool_decide (worker r = w) && negb (bool_decide (Some (instance r) = retained)) | None => false end.
Definition reject_remote (w : text) (retained : option text) (s : State) : State :=
  foldr (withdraw Unavailable) s (filter (fun id => of_worker w retained s id = true) (elements (pending s))).

(** ** Receiving *)

(** Events of command states are for the deadline unless they are forwarded. *)
Definition passes (o : Options) (e : Event) : bool := on_event o && (negb (inference_state e) || forward_inference o || admitted e).
Definition receive_event (id : Z) (source : text) (e : Event) (s : State) : State :=
  match requests s !! id with
  | Some r =>
      if bool_decide (id ∈ pending s) && bool_decide (instance r = source) && passes (options r) e
      then put id (push (DEvent e) (MkRequest (instance r) (worker r) (options r) (queue r) (completion r) (task r) (arrived r ++ [e]) (handled r))) s else s
  | None => s
  end.
Definition receive_response (id : Z) (source : text) (a : Response) (s : State) : State :=
  match requests s !! id with
  | Some r => if bool_decide (id ∈ pending s) && bool_decide (instance r = source) then take id (put id (push (DResponse a) r) s) else s
  | None => s
  end.

(** ** The task of a request *)

Definition with_task (t : Task) (q : list Delivery) (h : list Event) (r : Request) : Request := MkRequest (instance r) (worker r) (options r) q (completion r) t (arrived r) h.
(** The next delivery. *)
Definition receive_delivery (id : Z) (s : State) : State :=
  match requests s !! id with
  | Some r =>
      match task r, queue r with
      | Running, DEvent e :: q => put id (with_task (Handling e) q (handled r) r) s
      | Running, DResponse a :: q => complete id (Answer a) (put id (with_task Stopped q (handled r) r) s)
      | Running, DFinished :: q => put id (with_task Stopped q (handled r) r) s
      | _, _ => s
      end
  | None => s
  end.
(** The handler returns. *)
Definition handler_returned (id : Z) (cause : option Z) (s : State) : State :=
  match requests s !! id with
  | Some r =>
      match task r with
      | Handling e =>
          match cause with
          | None => put id (with_task Running (queue r) (handled r ++ [e]) r) s
          | Some x => complete id (Failed (HandlerFailed x)) (take id (put id (with_task Stopped (queue r) (handled r ++ [e]) r) s))
          end
      | _ => s
      end
  | None => s
  end.

(** ** Closing *)

Definition close_begin (s : State) : State := MkState true (pending s) (leaving s) (requests s) (callers s) (routed s) (succeeded s) (failed s).
(** A request of the table at shutdown is answered without being counted. *)
Definition shut_down (id : Z) (s : State) : State :=
  match requests s !! id with
  | Some r =>
      match completion r with
      | None => MkState (closed s) (pending s) (leaving s) (<[id := answered (Failed ShuttingDown) r]> (requests s)) (callers s) (routed s) (succeeded s) (failed s)
      | Some _ => put id (push DFinished r) s
      end
  | None => s
  end.
Definition close_drain (s : State) : State := foldr (withdraw ShuttingDown) s (elements (pending s)).
(** The one who took a request out goes on. *)
Definition leave (id : Z) (s : State) : State :=
  match leaving s !! id with
  | Some e =>
      let s := MkState (closed s) (pending s) (delete id (leaving s)) (requests s) (callers s) (routed s) (succeeded s) (failed s) in
      match e with ShuttingDown => shut_down id s | _ => complete id (Failed e) s end
  | None => s
  end.

Inductive step (s : State) : State -> Prop :=
| step_begin c w o : callers s !! c = None -> step s (begin c w o s)
| step_found c w o a : callers s !! c = Some (Finding w o) -> step s (found c w o a s)
| step_owned c w o i a id : callers s !! c = Some (Owning w o i) -> requests s !! id = None -> step s (owned c w o i a id s)
| step_publish_failed id : step s (publish_failed id s)
| step_deadline id r : requests s !! id = Some r -> timed (options r) = true -> step s (deadline_fired id s)
| step_reject w retained : step s (reject_remote w retained s)
| step_leave id : step s (leave id s)
| step_event id source e : step s (receive_event id source e s)
| step_response id source a : step s (receive_response id source a s)
| step_delivery id : step s (receive_delivery id s)
| step_handled id cause : step s (handler_returned id cause s)
| step_close : closed s = false -> step s (close_begin s)
| step_drain : closed s = true -> step s (close_drain s).
Inductive reach : State -> Prop :=
| reach_new : reach new
| reach_step s s' : reach s -> step s s' -> reach s'.

(** ** Where a request stands *)

Definition events (q : list Delivery) : list Event := omap (fun d => match d with DEvent e => Some e | _ => None end) q.
(** In the table; taken out by someone; its response on the way; answered with its
    task still to stop; or over. The flag says whether it is in the table. *)
Inductive fate : bool -> option Error -> Request -> Prop :=
| fate_waiting r es : completion r = None -> task r <> Stopped -> queue r = DEvent <$> es -> fate true None r
| fate_leaving r es e : completion r = None -> task r <> Stopped -> queue r = DEvent <$> es -> fate false (Some e) r
| fate_answering r es a : completion r = None -> task r <> Stopped -> queue r = (DEvent <$> es) ++ [DResponse a] -> fate false None r
| fate_done r es e : completion r = Some (Failed e) -> task r <> Stopped -> queue r = (DEvent <$> es) ++ [DFinished] -> fate false None r
| fate_over r l o : completion r = Some o -> task r = Stopped -> (forall a, o = Answer a -> arrived r = handled r) -> fate false l r.
(** The events that arrived: those taken, and those to come while the task runs. *)
Definition ordered (r : Request) : Prop :=
  match task r with
  | Running => arrived r = handled r ++ events (queue r)
  | Handling e => arrived r = handled r ++ e :: events (queue r)
  | Stopped => exists rest, arrived r = handled r ++ rest
  end.

(** Requests that count as succeeded and as failed, and callers that were turned
    away and counted. *)
Definition won (r : Request) : bool := match completion r with Some o => is_ok o | None => false end.
Definition lost (r : Request) : bool := match completion r with Some (Failed ShuttingDown) => false | Some o => negb (is_ok o) | None => false end.
Definition turned (x : Caller) : bool := match x with Refused QueueFull | Refused NotSent | Refused Unavailable => true | _ => false end.
Definition n_ok (r : Request) : Z := if won r then 1 else 0.
Definition n_bad (r : Request) : Z := if lost r then 1 else 0.
Definition n_turned (x : Caller) : Z := if turned x then 1 else 0.
Record accounts (s : State) : Prop := MkAccounts {
  a_routed : routed s = map_total (fun _ => 1) (requests s);
  a_ok : succeeded s = map_total n_ok (requests s);
  a_bad : failed s = map_total n_bad (requests s) + map_total n_turned (callers s) }.

Definition stands (s : State) (id : Z) (r : Request) : Prop := fate (bool_decide (id ∈ pending s)) (leaving s !! id) r /\ ordered r.
Record inv (s : State) : Prop := MkInv {
  i_stands : forall id r, requests s !! id = Some r -> stands s id r;
  i_known : forall id, id ∈ pending s \/ is_Some (leaving s !! id) -> is_Some (requests s !! id);
  i_callers : forall c id, callers s !! c = Some (Routed id) -> is_Some (requests s !! id);
  i_accounts : accounts s }.

Lemma events_app q q' : events (q ++ q') = events q ++ events q'.
Proof. apply omap_app. Qed.
Lemma events_map es : events (DEvent <$> es) = es.
Proof. induction es as [|e es IH]; [done|]. cbn. unfold events in IH. by rewrite IH. Qed.

Lemma events_end q d : (forall e, d <> DEvent e) -> events (q ++ [d]) = events q.
Proof. intros Hd. rewrite events_app. destruct d as [e| |]; [by destruct (Hd e)|apply app_nil_r..]. Qed.

(** A change of one request. *)
Lemma inv_at s s' id : inv s ->
  (forall x, x <> id -> (x ∈ pending s' <-> x ∈ pending s) /\ leaving s' !! x = leaving s !! x /\ requests s' !! x = requests s !! x) ->
  (forall r, requests s' !! id = Some r -> stands s' id r) -> is_Some (requests s' !! id) -> callers s' = callers s -> accounts s' -> inv s'.
Proof.
  intros [H1 H2 H3 H4] Hx Hid Hs Ec Ha. split; [| | |done].
  - intros x r Hr. destruct (decide (x = id)) as [->|Hn]; [auto|]. destruct (Hx x Hn) as (E1 & E2 & E3). rewrite E3 in Hr. destruct (H1 x r Hr) as [Hf Ho]. split; [|done]. rewrite E2. by rewrite (bool_decide_ext _ _ E1).
  - intros x Hk. destruct (decide (x = id)) as [->|Hn]; [done|]. destruct (Hx x Hn) as (E1 & E2 & E3). rewrite E3. apply H2. rewrite E1, E2 in Hk. done.
  - rewrite Ec. intros c x Hc. destruct (decide (x = id)) as [->|Hn]; [done|]. destruct (Hx x Hn) as (_ & _ & ->). eauto.
Qed.

(** A caller goes on, and may be turned away and counted. *)
Lemma inv_caller_moves s c x n : inv s -> from_option n_turned 0 (callers s !! c) = 0 -> n_turned x = n -> (forall id, x = Routed id -> is_Some (requests s !! id)) ->
  inv (MkState (closed s) (pending s) (leaving s) (requests s) (<[c := x]> (callers s)) (routed s) (succeeded s) (failed s + n)).
Proof.
  intros [H1 H2 H3 [A1 A2 A3]] Hc Hn Hx. split; [exact H1|exact H2| |].
  - intros c' id. cbn. rewrite lookup_insert_Some. intros [[_ ->]|[_ E]]; eauto.
  - split; cbn; [done|done|]. destruct (callers s !! c) as [y|] eqn:E; cbn in Hc; [rewrite (map_total_replace _ _ _ _ _ E)|rewrite map_total_insert by done]; lia.
Qed.
Lemma inv_remote_caller s c x : inv s -> from_option n_turned 0 (callers s !! c) = 0 -> n_turned x = 0 -> (forall id, x = Routed id -> is_Some (requests s !! id)) -> inv (caller c x s).
Proof. intros Hi Hc Hn Hx. pose proof (inv_caller_moves s c x 0 Hi Hc Hn Hx) as H. by rewrite Z.add_0_r in H. Qed.
Lemma inv_remote_turned s c e : inv s -> from_option n_turned 0 (callers s !! c) = 0 -> n_turned (Refused e) = 1 -> inv (caller c (Refused e) (fail s)).
Proof. intros Hi Hc Hn. by apply (inv_caller_moves s c (Refused e) 1). Qed.

Lemma accounts_put s id r r' : accounts s -> requests s !! id = Some r -> completion r' = completion r -> accounts (put id r' s).
Proof. intros [A1 A2 A3] E Ec. split; cbn; rewrite (map_total_replace _ _ _ _ _ E); unfold n_ok, n_bad, won, lost in *; rewrite ?Ec; lia. Qed.

Lemma inv_put s id r r' : inv s -> requests s !! id = Some r -> completion r' = completion r -> stands s id r' -> inv (put id r' s).
Proof.
  intros Hi E Ec Hs. apply (inv_at s _ id); [done| | | |done|by eapply accounts_put; [apply Hi|..]]; cbn.
  - intros x Hn. by rewrite lookup_insert_ne.
  - intros x. rewrite lookup_insert_eq. by intros [= <-].
  - by rewrite lookup_insert_eq.
Qed.

Lemma inv_withdraw e id s : inv s -> inv (withdraw e id s).
Proof.
  intros Hi. unfold withdraw. case_bool_decide as Hp; [|done]. destruct (i_known _ Hi id (or_introl Hp)) as [r Hr]. destruct (i_stands _ Hi _ _ Hr) as [Hf Ho].
  apply (inv_at s _ id); cbn; [done| | |by exists r|done|by destruct (i_accounts _ Hi)].
  - intros x Hn. split; [set_solver|]. by rewrite lookup_insert_ne.
  - intros r'. rewrite Hr. intros [= <-]. split; [|done]. cbn. rewrite lookup_insert_eq, bool_decide_false by set_solver.
    rewrite bool_decide_true in Hf by done. inversion Hf; subst. by eapply fate_leaving.
Qed.

Lemma inv_withdraws e ids s : inv s -> inv (foldr (withdraw e) s ids).
Proof. intros Hi. induction ids as [|id ids IH]; [done|]. by apply inv_withdraw. Qed.

(** An open request that is not in the table is answered. *)
Lemma inv_answer s id r r' (ok_ bad_ : Z) (l : gmap Z Error) :
  inv s -> requests s !! id = Some r -> id ∉ pending s -> (forall x, x <> id -> l !! x = leaving s !! x) ->
  n_ok r' - n_ok r = ok_ -> n_bad r' - n_bad r = bad_ -> fate false (l !! id) r' -> ordered r' ->
  inv (MkState (closed s) (pending s) l (<[id := r']> (requests s)) (callers s) (routed s) (succeeded s + ok_) (failed s + bad_)).
Proof.
  intros Hi E Hn Hl E1 E2 Hf Ho. apply (inv_at s _ id); cbn; [done| | |by rewrite lookup_insert_eq|done|].
  - intros x Hx. rewrite lookup_insert_ne by done. auto.
  - intros x. rewrite lookup_insert_eq. intros [= <-]. split; [|done]. cbn. by rewrite bool_decide_false.
  - destruct (i_accounts _ Hi) as [A1 A2 A3]. split; cbn; rewrite (map_total_replace _ _ _ _ _ E); lia.
Qed.

Lemma fate_in_table l r : fate true l r -> l = None /\ completion r = None /\ task r <> Stopped /\ exists es, queue r = DEvent <$> es.
Proof. inversion 1; subst; eauto. Qed.

Lemma fate_pop p l r e q t h : fate p l r -> task r <> Stopped -> t <> Stopped -> queue r = DEvent e :: q -> fate p l (with_task t q h r).
Proof.
  intros Hf Hr Ht Eq. destruct Hf as [r es Hc _ Hq|r es x Hc _ Hq|r es x Hc _ Hq|r es x Hc _ Hq|r l o Hc Hs _]; [| | | |done];
    rewrite Eq in Hq; (destruct es as [|e' es]; [done|]; injection Hq as _ Hq);
    [by apply (fate_waiting _ es)|by apply (fate_leaving _ es)|by apply (fate_answering _ es x)|by apply (fate_done _ es x)].
Qed.
Lemma fate_task p l r t h : fate p l r -> task r <> Stopped -> t <> Stopped -> fate p l (with_task t (queue r) h r).
Proof.
  intros Hf Hr Ht. destruct Hf as [r es Hc _ Hq|r es x Hc _ Hq|r es x Hc _ Hq|r es x Hc _ Hq|r l o Hc Hs _]; [| | | |done];
    [by apply (fate_waiting _ es)|by apply (fate_leaving _ es)|by apply (fate_answering _ es x)|by apply (fate_done _ es x)].
Qed.
Lemma fate_response p l r a q : fate p l r -> task r <> Stopped -> queue r = DResponse a :: q -> p = false /\ l = None /\ completion r = None /\ q = [].
Proof.
  intros Hf Hr Eq. destruct Hf as [r es Hc _ Hq|r es x Hc _ Hq|r es x Hc _ Hq|r es x Hc _ Hq|r l o Hc Hs _]; [| | | |done]; rewrite Eq in Hq; destruct es as [|e' es]; try done.
  by injection Hq as _ ->.
Qed.
Lemma fate_finished p l r q : fate p l r -> task r <> Stopped -> queue r = DFinished :: q -> p = false /\ exists e, completion r = Some (Failed e).
Proof.
  intros Hf Hr Eq. destruct Hf as [r es Hc _ Hq|r es x Hc _ Hq|r es x Hc _ Hq|r es x Hc _ Hq|r l o Hc Hs _]; [| | | |done]; rewrite Eq in Hq; destruct es as [|e' es]; try done. eauto.
Qed.
Lemma fate_failed p l r o : fate p l r -> task r <> Stopped -> completion r = Some o -> exists e, o = Failed e.
Proof. intros Hf Hr Ho. destruct Hf as [r es Hc _ Hq|r es x Hc _ Hq|r es x Hc _ Hq|r es x Hc _ Hq|r l o' Hc Hs _]; [congruence..| |done]. exists x. congruence. Qed.

Lemma inv_event id source e s : inv s -> inv (receive_event id source e s).
Proof.
  intros Hi. unfold receive_event. destruct (requests s !! id) as [r|] eqn:E; [|done]. destruct (_ && _) eqn:Eb; [|done]. reflect_bools. destruct (i_stands _ Hi _ _ E) as [Hf Ho].
  apply (inv_put s id r); [done|done|done|]. rewrite bool_decide_true in Hf by done. apply fate_in_table in Hf as (Hl & Hc & Ht & es & Hq). split.
  - rewrite bool_decide_true, Hl by done. apply (fate_waiting _ (es ++ [e])); cbn; [done|done|]. rewrite Hq, fmap_app. done.
  - unfold ordered in *. cbn. rewrite events_app. destruct (task r); cbn; [|rewrite Ho; by rewrite <- app_assoc|done]. rewrite Ho. by rewrite <- app_assoc.
Qed.

Lemma inv_response id source a s : inv s -> inv (receive_response id source a s).
Proof.
  intros Hi. unfold receive_response. destruct (requests s !! id) as [r|] eqn:E; [|done]. destruct (_ && _) eqn:Eb; [|done]. reflect_bools. destruct (i_stands _ Hi _ _ E) as [Hf Ho].
  rewrite bool_decide_true in Hf by done. apply fate_in_table in Hf as (Hl & Hc & Ht & es & Hq).
  apply (inv_at s _ id); cbn; [done| | |by rewrite lookup_insert_eq|done|].
  - intros x Hn. split; [set_solver|]. by rewrite lookup_insert_ne.
  - intros x. rewrite lookup_insert_eq. intros [= <-]. split.
    + cbn. rewrite bool_decide_false, Hl by set_solver. apply (fate_answering _ es a); cbn; [done|done|by rewrite Hq].
    + unfold ordered in *. cbn. rewrite events_end; done.
  - pose proof (accounts_put s id r (push (DResponse a) r) (i_accounts _ Hi) E eq_refl) as [A1 A2 A3]. by split.
Qed.

Lemma inv_delivery id s : inv s -> inv (receive_delivery id s).
Proof.
  intros Hi. unfold receive_delivery. destruct (requests s !! id) as [r|] eqn:E; [|done]. destruct (i_stands _ Hi _ _ E) as [Hf Ho].
  destruct (task r) eqn:Et; [|done|done]. assert (task r <> Stopped) as Hn by congruence. unfold ordered in Ho. rewrite Et in Ho. destruct (queue r) as [|[e|a|] q] eqn:Eq; [done| | |].
  - apply (inv_put s id r); [done|done|done|]. split; [by eapply fate_pop|exact Ho].
  - destruct (fate_response _ _ _ _ _ Hf Hn Eq) as (Hp%bool_decide_eq_false & Hl & Hc & ->).
    unfold complete. cbn. rewrite lookup_insert_eq. cbn. rewrite Hc, insert_insert_eq.
    set (r' := answered _ _). replace (if ok a then succeeded s + 1 else succeeded s) with (succeeded s + (if ok a then 1 else 0)) by (destruct (ok a); lia).
    replace (if ok a then failed s else failed s + 1) with (failed s + (if ok a then 0 else 1)) by (destruct (ok a); lia).
    apply (inv_answer s id r r'); [done|done|done|done| | | |]; unfold n_ok, n_bad, won, lost, ordered; cbn; rewrite ?Hc; cbn; [destruct (ok a); cbn; lia|destruct (ok a); cbn; lia| |].
    + apply (fate_over _ _ (Answer a)); [done|done|]. intros _ _. cbn. by rewrite Ho, app_nil_r.
    + exists []. by rewrite Ho.
  - destruct (fate_finished _ _ _ _ Hf Hn Eq) as (Hp & e & Hc). apply (inv_put s id r); [done|done|done|]. split; [|unfold ordered; cbn; by exists (events q)].
    rewrite Hp. by eapply fate_over.
Qed.

(** [complete] outside the table, by one who took the request out or by its task. *)
Lemma inv_remote_complete s id r o l : inv s -> requests s !! id = Some r -> id ∉ pending s -> (forall x, x <> id -> l !! x = leaving s !! x) -> (forall a, o <> Answer a) -> o <> Failed ShuttingDown ->
  (completion r = None -> fate false (l !! id) (answered o r) /\ ordered (answered o r)) ->
  (completion r <> None -> fate false (l !! id) r) ->
  inv (complete id o (MkState (closed s) (pending s) l (requests s) (callers s) (routed s) (succeeded s) (failed s))).
Proof.
  intros Hi E Hp Hl Ha Hs H1 H2. unfold complete. cbn. rewrite E. destruct o as [a|e]; [by destruct (Ha a)|]. cbn. destruct (completion r) as [o'|] eqn:Ec.
  - apply (inv_at s _ id); cbn; [done| | |by exists r|done|by destruct (i_accounts _ Hi)].
    + intros x Hn. by rewrite Hl.
    + intros x Hx. assert (x = r) as -> by congruence. destruct (i_stands _ Hi _ _ E) as [_ Ho]. split; [|done]. cbn. rewrite bool_decide_false by done. by apply H2.
  - destruct (H1 eq_refl) as [Hf Ho]. replace (succeeded s) with (succeeded s + 0) at 1 by lia.
    apply (inv_answer s id r); try done; unfold n_ok, n_bad, won, lost; cbn; rewrite Ec; destruct e; done.
Qed.

Lemma answered_leaves r es o : completion r = None -> task r <> Stopped -> queue r = DEvent <$> es -> (forall a, o <> Answer a) -> ordered r -> fate false None (answered o r) /\ ordered (answered o r).
Proof.
  intros Hc Ht Hq Ha Ho. destruct o as [a|e]; [by destruct (Ha a)|]. split; [apply (fate_done _ es e); cbn; [done|done|by rewrite Hq]|]. unfold ordered in *. cbn. rewrite events_end; done.
Qed.

Lemma inv_leave id s : inv s -> inv (leave id s).
Proof.
  intros Hi. unfold leave. destruct (leaving s !! id) as [e|] eqn:El; [|done]. destruct (i_known _ Hi id) as [r E]; [right; by exists e|]. destruct (i_stands _ Hi _ _ E) as [Hf Ho]. rewrite El in Hf.
  assert (id ∉ pending s) as Hp by (inversion Hf; subst; by eapply bool_decide_eq_false).
  assert (forall x, x <> id -> delete id (leaving s) !! x = leaving s !! x) as Hl by (intros x Hx; by rewrite lookup_delete_ne).
  assert (forall o, (forall a, o <> Answer a) -> completion r = None -> fate false (delete id (leaving s) !! id) (answered o r) /\ ordered (answered o r)) as H1.
  { intros o Ha Hc. rewrite lookup_delete_eq. inversion Hf as [|? es x _ Ht Hq| | |]; subst; [by eapply answered_leaves|congruence]. }
  assert (completion r <> None -> fate false (delete id (leaving s) !! id) r) as H2.
  { intros Hc. inversion Hf as [|? es x Hn _ _| | |? ? o Ho' Ht Ha]; subst; [done|]. by eapply fate_over. }
  assert (forall o, (forall a, o <> Answer a) -> o <> Failed ShuttingDown ->
    inv (complete id o (MkState (closed s) (pending s) (delete id (leaving s)) (requests s) (callers s) (routed s) (succeeded s) (failed s)))) as Hcomp by (intros o Ha Hs; eapply inv_remote_complete; eauto).
  destruct e; try (apply Hcomp; done). unfold shut_down. cbn. rewrite E. destruct (completion r) as [o|] eqn:Ec.
  - unfold put. cbn. replace (succeeded s) with (succeeded s + 0) at 1 by lia. replace (failed s) with (failed s + 0) at 1 by lia.
    apply (inv_answer s id r (push DFinished r)); [done|done|done|done| | | |]; unfold n_ok, n_bad, won, lost; cbn; rewrite ?Ec; try lia.
    + rewrite lookup_delete_eq. inversion Hf as [|? es x Hn _ _| | |? ? o' Ho' Ht Ha]; subst; [congruence|]. apply (fate_over _ _ o'); done.
    + inversion Hf as [|? es x Hn _ _| | |? ? o' Ho' Ht Ha]; subst; [congruence|]. unfold ordered in *. cbn. by rewrite Ht in *.
  - destruct (H1 (Failed ShuttingDown)) as [F1 F2]; [done|done|]. replace (succeeded s) with (succeeded s + 0) at 1 by lia. replace (failed s) with (failed s + 0) at 1 by lia.
    apply (inv_answer s id r); try done; unfold n_ok, n_bad, won, lost; cbn; rewrite Ec; done.
Qed.

Lemma inv_handled id cause s : inv s -> inv (handler_returned id cause s).
Proof.
  intros Hi. unfold handler_returned. destruct (requests s !! id) as [r|] eqn:E; [|done]. destruct (i_stands _ Hi _ _ E) as [Hf Ho]. destruct (task r) as [|e|] eqn:Et; [done| |done]. unfold ordered in Ho. rewrite Et in Ho.
  destruct cause as [x|].
  - set (r1 := with_task Stopped (queue r) (handled r ++ [e]) r).
    assert (ordered r1) as Ho1 by (unfold ordered; cbn; exists (events (queue r)); rewrite Ho; by rewrite <- app_assoc).
    unfold complete. cbn. rewrite lookup_insert_eq. cbn. destruct (completion r) as [o|] eqn:Ec.
    + apply (inv_at s _ id); cbn; [done| | |by rewrite lookup_insert_eq|done|].
      * intros y Hn. split; [set_solver|]. by rewrite lookup_insert_ne.
      * intros y. rewrite lookup_insert_eq. intros [= <-]. split; [|done]. cbn. rewrite bool_decide_false by set_solver. apply (fate_over _ _ o); [done|done|].
        intros a ->. destruct (fate_failed _ _ _ _ Hf ltac:(congruence) Ec). done.
      * pose proof (accounts_put s id r r1 (i_accounts _ Hi) E eq_refl) as [A1 A2 A3]. by split.
    + rewrite insert_insert_eq. apply (inv_at s _ id); cbn; [done| | |by rewrite lookup_insert_eq|done|].
      * intros y Hn. split; [set_solver|]. by rewrite lookup_insert_ne.
      * intros y. rewrite lookup_insert_eq. intros [= <-]. split; [|exact Ho1]. cbn. rewrite bool_decide_false by set_solver. by eapply fate_over.
      * destruct (i_accounts _ Hi) as [A1 A2 A3]. split; cbn; rewrite (map_total_replace _ _ _ _ _ E); unfold n_ok, n_bad, won, lost in *; cbn; rewrite ?Ec; lia.
  - apply (inv_put s id r); [done|done|done|]. split; [|unfold ordered; cbn; rewrite Ho; by rewrite <- app_assoc].
    apply fate_task; [done|congruence|done].
Qed.

Lemma inv_route s id i w o : inv s -> requests s !! id = None ->
  inv (MkState (closed s) (pending s ∪ {[id]}) (leaving s) (<[id := MkRequest i w o [] None Running [] []]> (requests s)) (callers s) (routed s + 1) (succeeded s) (failed s)).
Proof.
  intros Hi E. assert (leaving s !! id = None) as Hl by (apply eq_None_not_Some; intros Hx; destruct (i_known _ Hi id (or_intror Hx)); congruence).
  apply (inv_at s _ id); cbn; [done| | |by rewrite lookup_insert_eq|done|].
  - intros x Hn. split; [set_solver|]. by rewrite lookup_insert_ne.
  - intros r. rewrite lookup_insert_eq. intros [= <-]. split; [|done]. cbn. rewrite bool_decide_true, Hl by set_solver. by apply (fate_waiting _ []).
  - destruct (i_accounts _ Hi) as [A1 A2 A3]. split; cbn; rewrite map_total_insert by done; unfold n_ok, n_bad, won, lost in *; cbn; lia.
Qed.

Lemma remote_step s s' : inv s -> step s s' -> inv s'.
Proof.
  intros Hi Hs. destruct Hs as [c w o Hc|c w o a Hc|c w o i a id Hc E|id|id r E Ht|w retained|id|id source e|id source a|id|id cause|Hc|Hc].
  - unfold begin. assert (from_option n_turned 0 (callers s !! c) = 0) as Hz by (by rewrite Hc). destruct (closed s); [by apply inv_remote_caller|]. destruct (_ <=? _); [by apply inv_remote_turned|by apply inv_remote_caller].
  - unfold found. assert (from_option n_turned 0 (callers s !! c) = 0) as Hz by (by rewrite Hc). destruct a as [p|]; [|by apply inv_remote_caller]. destruct (closed s); [by apply inv_remote_caller|]. destruct p; [by apply inv_remote_caller|by apply inv_remote_turned].
  - unfold owned. assert (from_option n_turned 0 (callers s !! c) = 0) as Hz by (by rewrite Hc). destruct a as [mine|]; [|by apply inv_remote_caller]. destruct (closed s) eqn:Ec; [by apply inv_remote_caller|]. destruct (negb mine); [by apply inv_remote_turned|].
    rewrite <- Ec. apply inv_remote_caller; [by apply inv_route|exact Hz|done|]. intros x [= ->]. cbn. by rewrite lookup_insert_eq.
  - by apply inv_withdraw.
  - by apply inv_withdraw.
  - by apply inv_withdraws.
  - by apply inv_leave.
  - by apply inv_event.
  - by apply inv_response.
  - by apply inv_delivery.
  - by apply inv_handled.
  - destruct Hi as [H1 H2 H3 [A1 A2 A3]]. by split.
  - by apply inv_withdraws.
Qed.

Lemma remote_inv s : reach s -> inv s.
Proof.
  induction 1 as [|s s' _ IH Hs]; [|by eapply remote_step]. split; cbn.
  - intros id r. by rewrite lookup_empty.
  - intros id [Hx|[e He]]; [set_solver|by rewrite lookup_empty in He].
  - intros c id. by rewrite lookup_empty.
  - split; cbn; by rewrite map_total_empty.
Qed.

(** An outcome is final. *)
Definition settled (s : State) (id : Z) (o : Outcome) : Prop := exists r, requests s !! id = Some r /\ completion r = Some o.
Lemma settled_put s id o x r r' : settled s id o -> requests s !! x = Some r -> completion r' = completion r -> settled (put x r' s) id o.
Proof.
  intros (r0 & E & Hc) Ex Er. destruct (decide (x = id)) as [->|Hn]; [exists r'; cbn; rewrite lookup_insert_eq; split; [done|congruence]|exists r0; cbn; by rewrite lookup_insert_ne].
Qed.
Lemma settled_complete s id o x o' : settled s id o -> settled (complete x o' s) id o.
Proof.
  intros (r0 & E & Hc). unfold complete. destruct (requests s !! x) as [r|] eqn:Ex; [|by exists r0]. destruct (completion r) eqn:Ec; [by exists r0|]. exists r0. cbn. rewrite lookup_insert_ne; [done|]. congruence.
Qed.
Lemma settled_withdraws s id o e ids : settled s id o -> settled (foldr (withdraw e) s ids) id o.
Proof. intros Hs. induction ids as [|x ids IH]; [done|]. cbn. unfold withdraw at 1. by case_bool_decide. Qed.

Lemma settled_step s s' id o : inv s -> step s s' -> settled s id o -> settled s' id o.
Proof.
  intros Hi Hs Ho. destruct Hs as [c w op Hc|c w op a Hc|c w op i a x Hc E|x|x r E Ht|w retained|x|x source e|x source a|x|x cause|Hc|Hc].
  - unfold begin. destruct (closed s); [done|]. by destruct (_ <=? _).
  - unfold found. destruct a as [[]|], (closed s); done.
  - unfold owned. destruct a as [[]|], (closed s); cbn; try done. destruct Ho as (r & Er & Hr). exists r. cbn. rewrite lookup_insert_ne; [done|]. congruence.
  - by apply (settled_withdraws s id o PublishFailed [x]).
  - by apply (settled_withdraws s id o TimedOut [x]).
  - by apply settled_withdraws.
  - unfold leave. destruct (leaving s !! x) as [e|]; [|done]. destruct e; try (by apply settled_complete). unfold shut_down. cbn. destruct (requests s !! x) as [r|] eqn:Ex; [|done].
    destruct (completion r) eqn:Ec; [by apply (settled_put (MkState (closed s) (pending s) (delete x (leaving s)) (requests s) (callers s) (routed s) (succeeded s) (failed s)) id o x r)|].
    destruct Ho as (r0 & E0 & H0). exists r0. cbn. rewrite lookup_insert_ne; [done|]. congruence.
  - unfold receive_event. destruct (requests s !! x) as [r|] eqn:Ex; [|done]. destruct (_ && _); [|done]. by apply (settled_put s id o x r).
  - unfold receive_response. destruct (requests s !! x) as [r|] eqn:Ex; [|done]. destruct (_ && _); [|done]. by apply (settled_put s id o x r).
  - unfold receive_delivery. destruct (requests s !! x) as [r|] eqn:Ex; [|done]. destruct (task r); [|done|done]. destruct (queue r) as [|[e|a|] q]; [done| | |]; try apply settled_complete; by apply (settled_put s id o x r).
  - unfold handler_returned. destruct (requests s !! x) as [r|] eqn:Ex; [|done]. destruct (task r) as [|e|]; [done| |done]. destruct cause as [z|]; [apply settled_complete; exact (settled_put s id o x r (with_task Stopped (queue r) (handled r ++ [e]) r) Ho Ex eq_refl)|by apply (settled_put s id o x r)].
  - done.
  - by apply settled_withdraws.
Qed.

(** C40: whatever responses, events, timers, failures and losses of workers come
    together, a command sent to another instance that is not answered waits in the
    table, or someone who took it out is about to answer it, or its response is
    behind its events in the queue of its running task; a command keeps the answer
    it was given first. Its handler takes the events of its worker in order without
    gaps, and all of them before the response reaches the caller. Each counter is
    exact by itself: the requests that were routed, those whose answer is a result,
    and those whose answer is an error other than the shutdown together with the
    callers turned away because the table was full, the worker was not found or it
    was another owner's. *)
Theorem remote_requests s : reach s ->
  (forall id r, requests s !! id = Some r ->
     (completion r = None -> (id ∈ pending s \/ is_Some (leaving s !! id) \/ exists es a, queue r = (DEvent <$> es) ++ [DResponse a]) /\ task r <> Stopped) /\
     (forall o s', completion r = Some o -> step s s' -> exists r', requests s' !! id = Some r' /\ completion r' = Some o) /\
     (exists rest, arrived r = handled r ++ rest) /\
     (forall a, completion r = Some (Answer a) -> arrived r = handled r)) /\
  routed s = Z.of_nat (size (requests s)) /\
  succeeded s = Z.of_nat (size (filter (fun kr => won kr.2 = true) (requests s))) /\
  failed s = Z.of_nat (size (filter (fun kr => lost kr.2 = true) (requests s))) + Z.of_nat (size (filter (fun kc => turned kc.2 = true) (callers s))).
Proof.
  intros Hi%remote_inv. split.
  - intros id r E. destruct (i_stands _ Hi _ _ E) as [Hf Ho]. split; [|split; [|split]].
    + intros Hc. destruct (bool_decide (id ∈ pending s)) eqn:Ep; [apply bool_decide_eq_true in Ep; by apply fate_in_table in Hf as (_ & _ & ? & _); auto|].
      destruct (leaving s !! id) as [e|] eqn:El; [split; [by right; left|]|]; inversion Hf as [|? es e' _ Ht Hq|? es a _ Ht Hq|? es e' Hc'|? ? o Hc']; subst; try congruence. eauto 6.
    + intros o s' Hc Hs. apply (settled_step s s' id o Hi Hs). by exists r.
    + unfold ordered in Ho. destruct (task r); [eauto|eauto|done].
    + intros a Hc. inversion Hf as [? es Hc'|? es e Hc'|? es x Hc'|? es e Hc'|? ? o Hc' Ht Ha]; subst; try congruence. apply (Ha a). congruence.
  - destruct (i_accounts _ Hi) as [-> -> ->]. rewrite (map_total_count (fun _ => true)), !(map_total_count won), !(map_total_count lost), !(map_total_count turned) by done.
    split; [|done]. by rewrite map_filter_id.
Qed.

Module Sample.
Definition o : Options := MkOptions true false true.
Definition e1 : Event := MkEvent 1 false false.
Definition s1 : State := owned 1 (lit "w") o (lit "B") (Some true) 7 (found 1 (lit "w") o (Some (Some (lit "B"))) (begin 1 (lit "w") o new)).
(** An event and the response arrive, and the timer comes too late. *)
Definition s2 : State := deadline_fired 7 (receive_response 7 (lit "B") (MkResponse true 3) (receive_event 7 (lit "B") e1 s1)).
Definition s3 : State := receive_delivery 7 (handler_returned 7 None (receive_delivery 7 s2)).

Lemma remote_reached : reach s3.
Proof.
  assert (reach s1) as H1.
  { eapply reach_step; [|apply step_owned; reflexivity]. eapply reach_step; [|apply step_found; reflexivity]. eapply reach_step; [apply reach_new|by apply step_begin]. }
  eapply reach_step; [|apply step_delivery]. eapply reach_step; [|apply step_handled]. eapply reach_step; [|apply step_delivery].
  eapply reach_step; [|eapply step_deadline; vm_compute; reflexivity]. eapply reach_step; [|apply step_response]. eapply reach_step; [exact H1|apply step_event].
Qed.

Lemma remote_requests_witness : exists r, requests s3 !! 7 = Some r /\ completion r = Some (Answer (MkResponse true 3)) /\ handled r = [e1] /\ arrived r = handled r.
Proof.
  destruct (remote_requests s3 remote_reached) as [H _]. eexists. split; [vm_compute; reflexivity|]. split; [reflexivity|]. split; [reflexivity|].
  destruct (H 7 _ ltac:(vm_compute; reflexivity)) as (_ & _ & _ & Ha). exact (Ha _ eq_refl).
Defined.
End Sample.
End Remote.
